(* ===== verification/_CoqProject ===== *)
-Q . S2P
Prelude.v
Words.v
Utf8.v
Scanner.v
Stage1.v
Lex.v
Grammar.v
StringRef.v
Errors.v
Numbers.v
Reader.v
Validator.v
FastValid.v
ParserString.v
Layout.v
Decode.v
Compact.v
Indent.v
KeyHash.v
Pointer.v
Raw.v
Skip.v
Trusted.v
Range.v
NumberEqual.v
Digits.v
DecoderCursor.v
DecoderScalar.v
FieldFold.v
OpenAddr.v
FieldTable.v
FieldMatch.v
TypedPlan.v
TypedDecode.v
TypedSpec.v
TypedTrack.v
TypedRun.v
EncodeString.v
EncodeInt.v
EncodePlan.v
TypedEncode.v
EncodeSpec.v
EncodeFuse.v
EncodeText.v
EncodeKeys.v
EncodeRun.v
EncodeSample.v
EncodeValue.v
RoundTrip.v
TimeFormat.v
StreamWriter.v
Framing.v
StreamReader.v
Streams.v
Tape.v
TapeMachine.v
TapeWalk.v
TapeHash.v
TapeParse.v
TapeStack.v
Node.v
NodeNumber.v
NodePointer.v
NodeIter.v
FieldCursor.v
Probe.v
Contains.v
