(* ===== verification/Prelude.v ===== *)
(** * vibejson: a verification development

    vibejson is a Go library for strict JSON.  It validates documents, compacts
    and indents them, looks values up by JSON Pointer, iterates over arrays and
    objects, compares and decodes tokens in place, and indexes, decodes and
    encodes through typed plans.  This library models the parts of it that work
    on bytes: every routine below is translated from the Go source, and the
    theorems relate it to one independent definition of what a JSON text is.

    ** The parts and how they interact

    Lexical layer.  [Scanner.v] models [space.go], [scan.go] and
    [x/scanner/scan_generic.go]: whitespace skipping and the five string
    scanners, eight bytes at a time with the lane masks written out ([Words.v]
    has the theory of those masks, [Utf8.v] the UTF-8 decoder of Go's library
    as the scanners use it).  [Lex.v] models the character helpers of
    [parser.go].

    Specification layer.  [Grammar.v] is RFC 8259 with a nesting budget: the
    relation [jvalue k s t] between a text and an ordered tree which keeps the
    exact source of every value and the decoded content of every string.
    [StringRef.v] ([str_ref]) and [Reader.v] ([ref_value], [ref_doc]) are
    executable byte-at-a-time readers, proved sound and complete for the
    grammar.  They are the abstract specification: each parser of the program is
    shown to follow them, so the grammar theorem of each is a corollary.

    Parsers.  [Numbers.v] and [Validator.v] model [validate.go]: the number
    scanner, the recursive descent with its error messages and offsets, and the
    layout pass that counts the entries of the structural index.  [FastValid.v]
    models [valid_fast.go], the boolean validator with its own number, string
    and whitespace scanners.  [ParserString.v] models the string reader of
    [parser.go], which decodes.  [Errors.v] models [error.go].

    Clients.  [Compact.v] and [Indent.v] model [compact.go] and [indent.go], two
    writers that validate as they copy; [Layout.v] defines the renderings of a
    tree they are compared with.  [Decode.v] models the decoders of raw string
    tokens ([strings_decode.go], [strings_decode_checked_default.go]) and the
    raw comparisons of [node.go] and [contains.go].  [Pointer.v] models [pointer.go]; [Raw.v] models
    [raw.go], the seeker that finds a value by pointer without building
    anything.  [Stage1.v] models [x/kernels/stage1_portable.go], the kernel that
    classifies 64 bytes at a time into bit masks and carries backslash runs and
    string state from block to block; [Skip.v] the skip of a container that
    counts brackets in those masks, and [Trusted.v] the rest of
    [raw_trusted.go], the seeker that does not validate.  [Range.v] models the callback iteration of [range.go];
    [KeyHash.v] the key hash of [index_keyhash.go]; [NumberEqual.v]
    [number_equal.go], the comparison of decimal spellings; [EncodeString.v]
    [encoder_string.go], the writer of JSON strings.

    Scalars and streams.  [Digits.v] models the eight- and sixteen-digit
    reductions of [number_digits.go] and [simd/digits.go] and the integer reads
    of raw values; [EncodeInt.v] the integer formatter of [encoder_int.go];
    [TimeFormat.v] the calendar arithmetic, the memo and the RFC 3339 text of
    [simd/time.go] and [simd/time_date.go].  [StreamWriter.v] models
    [stream_writer.go]: the token state machine over a reused buffer, the stack
    of open containers and a sink that may fail or write short, built on the
    string, integer and time writers.  [Framing.v] and [StreamReader.v] model
    [stream_reader.go]: the resumable frame of a value, the rolling buffer that
    discards, grows and refills, and [Next]; the input is any instance of the
    class [Source] with the laws of [io.Reader] ([SourceLaws]).  [Streams.v]
    composes the two: the sink's payloads are the reader's input.

    Typed decoding.  [DecoderCursor.v] models [decoder_cursor.go] and
    [decoder_error_path.go]: the pull parser, its container steps and the error
    values with their paths.  [DecoderScalar.v] models
    [decoder_cursor_scalar.go], the scalar destinations.  [FieldFold.v] models
    [strings.EqualFold] over any fold table (the class [CaseFolding]) and the
    canonical spelling of [typed_hook_api_fields.go]; [FieldTable.v] the packed
    names and the hash table [typed_compile.go] gives a record, on the open
    addressing of [OpenAddr.v], which the probe tables share; [FieldMatch.v] the
    member step of [typed_compiled_record_structural_fields.go].  [TypedPlan.v]
    has the nodes of [typed_plan.go] and the values they describe, [TypedDecode.v]
    the decoders of [typed_compiled*.go] that run them: state passing over a value
    that is kept on errors too.  [TypedSpec.v] is the abstract specification, the
    assignment of a tree to a destination ([assign]); [TypedTrack.v] relates an
    outcome to the reference reading, with one lemma for every loop over members
    or elements; [TypedRun.v] proves the refinement.

    Typed encoding.  [EncodePlan.v] models [typed_encode_plan.go] and the
    encoder's half of [typed_compile.go]: the field program a record is compiled
    to, with the records it holds by value spliced in, its fields paired and its
    short names packed in blocks.  [TypedEncode.v] models [encoder.go] and
    [encoder_execute*.go], the encoder that runs the programs.  [EncodeSpec.v] is
    the abstract specification, the description of a value as a tree
    ([describe]), which knows the resolved fields only.  [EncodeFuse.v] proves
    that a spliced program writes what its record describes, [EncodeText.v] the
    same of the pairs and name blocks, [EncodeKeys.v] the map keys and their
    order, [EncodeRun.v] the recursion over values, [EncodeSample.v] has a sample
    type and [EncodeValue.v] the theorems about [AppendJSON].  [RoundTrip.v]
    composes the encoder with the typed decoder.

    Structural index.  [Tape.v] has the entries of [index.go] and the relation
    [tape_value] between a tree and its tape; [TapeMachine.v] the simulation
    every builder is proved by; [TapeWalk.v] the iterative builder, in its two
    number modes ([index.go], [walk_number_swar.go]); [TapeHash.v] the key-hash
    pass ([index_keyhash.go]); [TapeParse.v] the diagnostic builder and
    [buildIndexOptions]; [TapeStack.v] the scope stack the diagnostic builder
    threads through its own output.

    Nodes.  [Node.v] models the handles of [node.go], with the key matching of
    [key.go] and [index_tapescan.go]: a handle is an index and an entry number,
    and [stands] relates it to a tree.  [NodeNumber.v] has its 64-bit integer
    reads, [NodePointer.v] has pointer resolution on
    the index, [NodeIter.v] the iterators of [index_iter.go] and the
    materialising walk of [value.go], [FieldCursor.v] the forward field cursor,
    [Probe.v] the probe tables of [index_probe.go] and [Contains.v] the
    containment test of [contains.go], on nodes and on raw values.

    The dependencies run in the order of the file list.  The seeker does not
    look at how a pointer is represented: [Pointer.v] declares the typeclasses
    [PathOps] (what the seeker asks of a pointer cursor) and [PathLaws] (what it
    relies on), with one instance for the textual and one for the compiled
    pointer, and [Raw.v] is proved once against the interface.

    ** Conventions

    A Go byte is an integer of [0, 256), a [[]byte] or [string] a list of them.
    Indices that stay within a slice are [nat]; every other integer is a [Z]
    with the wrap-around of its width written out ([w64], [mod 2 ^ 16], ...).
    [res E A] is the result of a call: [Ok], an error value of the program,
    [Panic] for an index out of range, an unsafe read past the slice or a write
    past an allocation, and [NoFuel].  The unsafe loads of the source are
    modelled as guarded reads that panic, so a theorem that a routine returns
    [Ok] or [Err] is also a theorem that its unchecked accesses are in bounds.

    The encoder never looks at what lies behind its destination: the bytes of
    the spare capacity are an argument ([spare]), and so is the order a map is
    iterated in ([iterate]), of which the theorems ask that it is a permutation
    of the entries.

    Loops take fuel.  A loop that moves an index is given [S (length src)] (or
    what is left of it), which is enough because each turn advances the index;
    recursive descent is written by open recursion and closed with
    [S (length src)] levels, enough because a nested value starts at least one
    byte later.  No theorem is conditional on fuel: each states the result, and
    [NoFuel] is not one.  Depth limits are the program's own ([MaxDepth]).
    The encoder's recursion has [encode_fuel] levels, two more than twice the
    limit: each level goes one container deeper or follows one more pointer, and
    the code counts both.  The
    loops of the streaming reader have no bound in the code: their fuel is any
    number above the reads the input has left ([work]).

    Build lanes.  The source has a portable lane and SIMD lanes selected by a
    build tag.  The portable lane is the one modelled.

    ** What the theorems show

    - Acceptance: [Validate] accepts exactly the texts of the grammar within the
      depth limit and reports the position of the first error otherwise; the
      fast validator is the same predicate; numbers and strings alike.
    - Scanners: the word-at-a-time scanners find what a byte loop finds.
    - Writers: compaction outputs the rendering of the tree without
      whitespace and is idempotent; indentation outputs the indented rendering,
      and compacting it gives the compact text back.
    - Lookup and iteration: a pointer lookup returns the exact source of the
      value the tree resolves to, with the error the program documents on each
      failing branch; compiled pointers agree with textual ones; the lookup that
      does not validate finds the same on a document and returns on any source;
      the masked skip of a container is the scan of one byte at a time; iteration calls
      back once per element in order and stops where the callback asks.
    - Strings and keys: decoding, comparing and hashing raw tokens agree with
      the decoded content; the word-level hash agrees with the byte-level one.
    - Numbers: two spellings compare equal exactly when they denote the same
      decimal, for digits and exponents of any length.
    - Structural index: building an index yields exactly the tape of the
      document's tree, hashed or not, when the storage holds it, and otherwise
      the full-storage error or the reference reader's syntax error;
      [RequiredIndexEntries] is the exact bound; each turn of the fast walk
      moves the cursor forward or ends it, so it answers; the scope stack is linked
      in every state.
    - Nodes: every accessor, lookup, pointer and iterator on the tape answers
      what the tree answers; a pointer resolves on the index as the raw seeker
      resolves it on the text; the resuming cursor and the probe table find the
      member a plain lookup finds; the containment tests decide containment of
      the trees.
    - Encoding: what is appended is a JSON string whose content is the encoded
      text, free of the characters the options exclude; an integer's text reads
      back as the integer; a time's text is its civil date and clock, whatever
      the memo holds.
    - Streaming writer: every sequence of calls hands the sink complete lines
      and values only, whatever the sink answers, and errors stick; a structured
      value written token by token arrives as its compact text.
    - Streaming reader: on every input that keeps its contract, however its reads
      cut the bytes and whatever the buffer size, [Next] returns, delivers the
      next value of the stream and leaves the stream right after it; a whole
      stream is delivered value by value; lines the writer sent are read back.
    - Typed decoding: the scalar methods store what the grammar and the
      destination's type and width say, or fail; a member goes to the field its
      whole name selects, whichever of the compare paths sees it; running a plan on
      a document assigns its tree to the destination, or fails where the text or
      the type refuses it, and keeps the destination's type on every path.
    - Typed encoding: encoding a value appends the compact text of its description,
      a strict JSON text, or fails with a depth or number error, whatever the
      spare capacity holds; a canonical value that is encoded and decoded into a
      zero destination comes back.  A record whose members are all records without
      members is the exception, proved to be encoded to a text that is not JSON;
      [encoder_ok] asks of a record that its program keeps a field.
    - Layout: the counting pass returns the sizes of the tree, and its inline
      array and overflow slice are never written out of range.

    ** What is not modelled

    The position engine of [index_positions.go] is an argument of
    [buildIndexOptions]: the theorems are about the documents it is not called
    on or does not take.  They also bound a document by [InfoMaxCount] bytes, so
    that no container overflows the 26 bits of its count, and the storage by
    [2 ^ 32] entries, as [buildIndexOptions] does.

    The typed encoder is modelled without floats, byte slices, interfaces, custom
    marshalers, inline maps and quoted fields, and without the scratch pools; the
    bytes it leaves behind its output, and on an error behind its destination, are
    not modelled.  The typed decoder is modelled in
    merge mode and without the structural tape.  A plan is any list of nodes
    with the properties of [plan_ok], and an encoder's programs those of
    [encoder_ok]: the walk over [reflect] types that compiles it
    is not modelled, and a record has fewer than [2 ^ 30] fields.  Outside are
    Replace mode with its alias tracking, floats, byte slices, interfaces and
    [any], user hooks, inline maps and quoted fields.  A reset runs over the
    structure of the type, as [resetTyped] does without the operations that
    [typed_reset.go] computes in advance.  Values are finite trees, so a cyclic Go
    value, which the encoder's limits stop, has no counterpart.  Two pointers of one
    destination are taken to be different objects; strings are their contents,
    without the blocks owned strings are copied into; the sizes to which slices
    grow are not modelled.  The conversions between decimal text and IEEE doubles
    are outside, and with them the one-pass builder of [any] values ([any.go]),
    whose numbers they convert.  The SIMD kernels are architecture-specific.  The
    value cursor of [stream_cursor.go], the command line tools, benchmarks and
    tests are outside.

    The streaming writer takes the float formatter and the compiled encoder of
    [EncodeTo] as arguments; [DecodeFrom] and [DecodeNext] of the streaming reader
    run a typed decoder. *)

From stdpp Require Export base list numbers option.
From stdpp Require Export strings.
From Stdlib Require Export ZArith Lia ZifyBool.
#[export] Set Default Goal Selector "!".
Open Scope Z_scope.

(** ** Bytes and literals

    A Go [byte] is a [Z] in [0, 256); a [[]byte] or a Go [string] is a list of
    them.  Positions (Go [int] indices that the code keeps within
    [0..len(src)]) are [nat]; every other Go integer is a [Z]. *)

Abbreviation bytes := (list Z).

Definition is_byte (c : Z) : Prop := 0 <= c < 256.
Abbreviation bytes_ok := (Forall is_byte).

Declare Scope ch_scope.
Delimit Scope ch_scope with ch.

Definition ch_of_literal (l : list Byte.byte) : option Z :=
  match l with [b] => Some (Z.of_N (Byte.to_N b)) | _ => None end.
Definition literal_of_ch (z : Z) : option (list Byte.byte) := None.

(** ["n"%ch] is the integer constant 110, the byte literal ['n'] of Go. *)
String Notation Z ch_of_literal literal_of_ch : ch_scope.

Abbreviation DQUOTE := 34%Z.
Abbreviation BSLASH := 92%Z.

Fixpoint bs (s : string) : bytes :=
  match s with
  | EmptyString => []
  | String a s' => Z.of_N (Ascii.N_of_ascii a) :: bs s'
  end.

(** A JSON text written with apostrophes for its quotes. *)
Definition js (s : string) : bytes := map (fun c => if c =? 39 then DQUOTE else c) (bs s).

Lemma bytes_okb l : forallb (fun c => (0 <=? c) && (c <? 256)) l = true -> Forall is_byte l.
Proof. rewrite forallb_forall, Forall_forall. unfold is_byte. intros H c Hc%list_elem_of_In. apply H in Hc. lia. Qed.

(** Discharges [bytes_ok] of a concrete text. *)
Ltac concrete_bytes := apply bytes_okb; vm_compute; reflexivity.

(** ** Outcomes of Go code

    A Go function that returns a value or an error, may index out of range,
    and, in the model, may run out of loop fuel.  The last two are separate
    constructors, so that "never panics" and "terminates" are theorems. *)

Inductive res (E A : Type) : Type :=
  | Ok (a : A)
  | Err (e : E)
  | Panic
  | NoFuel.
Arguments Ok {E A} a.
Arguments Err {E A} e.
Arguments Panic {E A}.
Arguments NoFuel {E A}.

Definition res_bind {E A B} (m : res E A) (k : A -> res E B) : res E B :=
  match m with
  | Ok a => k a
  | Err e => Err e
  | Panic => Panic
  | NoFuel => NoFuel
  end.

Notation "'let*' x := m 'in' k" := (res_bind m (fun x => k))
  (at level 10, x pattern, m at level 200, k at level 200).

Definition is_ok {E A} (r : res E A) : bool :=
  match r with Ok _ => true | _ => false end.

Lemma res_bind_ok {E A B} (m : res E A) (k : A -> res E B) b :
  res_bind m k = Ok b <-> exists a, m = Ok a /\ k a = Ok b.
Proof. destruct m; simpl; split; try (intros (? & ? & ?)); naive_solver. Qed.

Lemma res_bind_err {E A B} (m : res E A) (k : A -> res E B) e :
  res_bind m k = Err e <-> m = Err e \/ exists a, m = Ok a /\ k a = Err e.
Proof. destruct m; simpl; naive_solver. Qed.

(** A total run: it returned a value or a Go error. *)
Definition returns {E A} (r : res E A) : Prop :=
  (exists a, r = Ok a) \/ (exists e, r = Err e).

Lemma returns_ok {E A} (a : A) : returns (E:=E) (Ok a).
Proof. left; eauto. Qed.
Lemma returns_err {E A} (e : E) : returns (A:=A) (Err e).
Proof. right; eauto. Qed.
Lemma returns_bind {E A B} (m : res E A) (k : A -> res E B) :
  returns m -> (forall a, m = Ok a -> returns (k a)) -> returns (res_bind m k).
Proof. intros [[a ->]|[e ->]] Hk; simpl; [auto|apply returns_err]. Qed.

Create HintDb vj discriminated.
#[export] Hint Resolve returns_ok returns_err : vj.

(** ** Tactics *)

(** Case analysis on the scrutinee of the outermost [if] or [match]. *)
Ltac case_step :=
  match goal with
  | |- context [if ?b then _ else _] => destruct b eqn:?
  | |- context [match ?x with _ => _ end] => destruct x eqn:?
  end.

Ltac case_step_in H :=
  match type of H with
  | context [if ?b then _ else _] => destruct b eqn:?
  | context [match ?x with _ => _ end] => destruct x eqn:?
  end.

(** Linear arithmetic with divisions and remainders by constants. *)
Ltac div_lia := Z.to_euclidean_division_equations; lia.

(** Appends reassociated to the right, with the leading bytes exposed. *)
Ltac norm_app := repeat progress (rewrite <- ?app_assoc; cbn [app]).

(** ** Positions and suffixes *)

Section Suffix.
Context {A : Type}.
Implicit Types (l s t : list A) (i j k : nat).

Lemma drop_nil_lookup l i : drop i l = [] -> l !! i = None.
Proof.
  intros H. apply lookup_ge_None. apply (f_equal length) in H.
  rewrite length_drop in H. simpl in H. lia.
Qed.

Lemma drop_cons_lookup l i c s : drop i l = c :: s -> l !! i = Some c.
Proof.
  intros H. rewrite <- (Nat.add_0_r i), <- lookup_drop, H. reflexivity.
Qed.

Lemma drop_cons_S l i c s : drop i l = c :: s -> drop (S i) l = s.
Proof.
  intros H. replace (S i) with (i + 1)%nat by lia.
  rewrite <- drop_drop, H. reflexivity.
Qed.

Lemma drop_cons_lt l i c s : drop i l = c :: s -> (i < length l)%nat.
Proof. intros H. apply drop_cons_lookup in H. by apply lookup_lt_Some in H. Qed.

Lemma lookup_Some_drop l i c : l !! i = Some c -> drop i l = c :: drop (S i) l.
Proof. apply drop_S. Qed.

Lemma lookup_None_drop l i : l !! i = None -> drop i l = [].
Proof. intros H. apply drop_ge. by apply lookup_ge_None. Qed.

(** [span l i s j]: the elements of [l] from [i] up to [j] are [s]. *)
Definition span l i s j : Prop :=
  drop i l = s ++ drop j l /\ j = (i + length s)%nat /\ (j <= length l)%nat.

Lemma span_nil l i : (i <= length l)%nat -> span l i [] i.
Proof. intros. split_and!; simpl; [done|lia|lia]. Qed.

Lemma span_intro l i s t :
  (i <= length l)%nat -> drop i l = s ++ t -> span l i s (i + length s).
Proof.
  intros Hi H. assert (Ht : drop (i + length s) l = t).
  { rewrite <- drop_drop, H. by rewrite drop_app_length. }
  split_and!; [by rewrite Ht|done|].
  apply (f_equal length) in H. rewrite length_drop, length_app in H. lia.
Qed.

Lemma span_app l i s j t k : span l i s j -> span l j t k -> span l i (s ++ t) k.
Proof.
  intros (H1 & -> & ?) (H2 & -> & ?). split_and!.
  - by rewrite H1, H2, app_assoc.
  - rewrite length_app. lia.
  - done.
Qed.

Lemma span_one l i c : l !! i = Some c -> span l i [c] (S i).
Proof.
  intros H. split_and!; simpl; [by apply drop_S|lia|].
  apply lookup_lt_Some in H. lia.
Qed.

Lemma span_split l i s t k :
  span l i (s ++ t) k -> span l i s (i + length s) /\ span l (i + length s) t k.
Proof.
  intros (H1 & -> & H3). rewrite <- app_assoc in H1. rewrite length_app in *.
  assert (Hs : span l i s (i + length s)) by (eapply span_intro; [lia|done]).
  split; [done|]. destruct Hs as (Hs1 & _ & _). rewrite H1 in Hs1.
  apply app_inv_head in Hs1. split_and!; [by rewrite <- Hs1|lia|lia].
Qed.

Lemma span_cons l i c s k :
  span l i (c :: s) k -> l !! i = Some c /\ span l (S i) s k.
Proof.
  intros H. destruct (span_split l i [c] s k H) as [(H1 & _ & _) H2]. simpl in *.
  split; [by eapply drop_cons_lookup|]. by replace (S i) with (i + 1)%nat by lia.
Qed.

Lemma span_cons_intro l i c s k :
  l !! i = Some c -> span l (S i) s k -> span l i (c :: s) k.
Proof. intros H1 H2. apply (span_app l i [c] (S i)); [by apply span_one|done]. Qed.

Lemma span_nil_inv l i k : span l i [] k -> k = i /\ (i <= length l)%nat.
Proof. intros (_ & -> & H). simpl in *. split; lia. Qed.

Lemma span_le l i s k : span l i s k -> (i <= k <= length l)%nat.
Proof. intros (_ & -> & H). lia. Qed.

Lemma span_len l i s k : span l i s k -> k = (i + length s)%nat.
Proof. by intros (_ & -> & H). Qed.

(** The Go slice expression [l[i:j]]. *)
Definition slice l i j : list A := take (j - i) (drop i l).

Lemma span_slice l i s j : span l i s j -> slice l i j = s.
Proof.
  intros (H1 & -> & _). unfold slice. rewrite H1.
  replace (i + length s - i)%nat with (length s) by lia. by rewrite take_app_length.
Qed.

Lemma slice_span l i j : (i <= j <= length l)%nat -> span l i (slice l i j) j.
Proof.
  intros H. unfold slice. split_and!.
  - replace j with (i + (j - i))%nat at 2 by lia.
    by rewrite <- drop_drop, take_drop.
  - rewrite length_take, length_drop. lia.
  - lia.
Qed.

Lemma span_inj l i s j s' : span l i s j -> span l i s' j -> s = s'.
Proof. intros H H'. apply span_slice in H, H'. congruence. Qed.

Lemma span_whole l : span l 0 l (length l).
Proof. split_and!; [by rewrite drop_all, app_nil_r|done|done]. Qed.

Lemma span_whole_inv l s : span l 0 s (length l) -> s = l.
Proof. intros (H & _ & _). by rewrite drop_all, app_nil_r in H. Qed.
End Suffix.

#[export] Hint Resolve span_nil span_one span_app span_cons_intro : vj.

(** Split on the byte at position [i]: either the input ends there, or it is
    [c] and the suffix decomposes. *)
Tactic Notation "at_pos" constr(l) constr(i) "as" ident(c) ident(E) :=
  destruct (l !! i) as [c|] eqn:E.

(** The test [i < len(src) && src[i] == b]. *)
Definition at_byte (src : bytes) (i : nat) (b : Z) : bool :=
  match src !! i with Some c => c =? b | None => false end.

Lemma at_byte_spec src i b : at_byte src i b = true <-> src !! i = Some b.
Proof.
  unfold at_byte. destruct (src !! i) as [c|]; [|naive_solver].
  rewrite Z.eqb_eq. naive_solver.
Qed.

Lemma at_byte_lt src i b : at_byte src i b = true -> (i < length src)%nat.
Proof. rewrite at_byte_spec. apply lookup_lt_Some. Qed.

(** ** The scan loop [for i < len(src) && p(src[i]) { i++ }] *)

Fixpoint advance_loop (p : Z -> bool) (fuel : nat) (src : bytes) (i : nat) : nat :=
  match fuel with
  | O => i
  | S fuel =>
      match src !! i with
      | Some c => if p c then advance_loop p fuel src (S i) else i
      | None => i
      end
  end.

Definition advance (p : Z -> bool) (src : bytes) (i : nat) : nat :=
  advance_loop p (length src - i) src i.

Fixpoint take_while {A} (p : A -> bool) (l : list A) : list A :=
  match l with
  | [] => []
  | c :: l' => if p c then c :: take_while p l' else []
  end.

(** The scan stopped here: the next byte, if any, fails the test. *)
Definition stops (p : Z -> bool) (l : bytes) : Prop :=
  match l with [] => True | c :: _ => p c = false end.

Lemma take_while_all {A} (p : A -> bool) l : Forall (fun c => p c = true) (take_while p l).
Proof. induction l; simpl; [done|]. destruct (p a) eqn:?; constructor; auto. Qed.

Lemma take_while_length {A} (p : A -> bool) l : (length (take_while p l) <= length l)%nat.
Proof. induction l; simpl; [lia|]. destruct (p a); simpl; lia. Qed.

Lemma take_while_app (p : Z -> bool) s t :
  Forall (fun c => p c = true) s -> stops p t -> take_while p (s ++ t) = s.
Proof.
  induction 1 as [|c s Hc Hs IH]; simpl; intros Ht.
  - destruct t; simpl in *; [done|]. by rewrite Ht.
  - rewrite Hc. f_equal. auto.
Qed.

Lemma take_while_split (p : Z -> bool) l :
  exists t, l = take_while p l ++ t /\ stops p t.
Proof.
  induction l as [|c l (t & Ht & Hs)]; simpl; [by exists []|].
  destruct (p c) eqn:Hc; simpl.
  - exists t. by rewrite <- Ht.
  - exists (c :: l). done.
Qed.

Lemma advance_loop_spec p fuel src i :
  (length src - i <= fuel)%nat ->
  advance_loop p fuel src i = (i + length (take_while p (drop i src)))%nat.
Proof.
  revert i. induction fuel as [|fuel IH]; intros i Hf; simpl.
  - rewrite drop_ge by lia. simpl. lia.
  - at_pos src i as c E.
    + rewrite (lookup_Some_drop _ _ _ E). simpl. destruct (p c); simpl; [|lia].
      rewrite IH by lia. lia.
    + rewrite (lookup_None_drop _ _ E). simpl. lia.
Qed.

Lemma advance_spec p src i :
  advance p src i = (i + length (take_while p (drop i src)))%nat.
Proof. apply advance_loop_spec. lia. Qed.

Lemma advance_span p src i :
  (i <= length src)%nat ->
  exists s, span src i s (advance p src i) /\
    Forall (fun c => p c = true) s /\ stops p (drop (advance p src i) src).
Proof.
  intros Hi. destruct (take_while_split p (drop i src)) as (t & Ht & Hs).
  pose proof (span_intro src i _ t Hi Ht) as Hsp. rewrite advance_spec.
  exists (take_while p (drop i src)). split; [done|]. split; [apply take_while_all|].
  destruct Hsp as (H1 & _ & _). rewrite Ht in H1 at 1. apply app_inv_head in H1.
  by rewrite <- H1.
Qed.

Lemma advance_complete p src i s j :
  span src i s j -> Forall (fun c => p c = true) s -> stops p (drop j src) ->
  advance p src i = j.
Proof.
  intros (H1 & -> & H3) Hs Hst. rewrite advance_spec, H1, take_while_app by done. done.
Qed.

Lemma advance_le p src i : (i <= length src)%nat -> (i <= advance p src i <= length src)%nat.
Proof. intros Hi. destruct (advance_span p src i Hi) as (s & Hs & _). by apply span_le in Hs. Qed.

Lemma advance_unfold p src i :
  advance p src i =
    match src !! i with
    | Some c => if p c then advance p src (S i) else i
    | None => i
    end.
Proof.
  rewrite !advance_spec. at_pos src i as c E.
  - rewrite (lookup_Some_drop _ _ _ E). simpl. destruct (p c); simpl; lia.
  - rewrite (lookup_None_drop _ _ E). simpl. lia.
Qed.

(** Bytes that all pass the test can be skipped before scanning. *)
Lemma advance_skip p src i s j :
  span src i s j -> Forall (fun c => p c = true) s -> advance p src i = advance p src j.
Proof.
  intros (H1 & -> & _) Hs. rewrite !advance_spec, H1.
  assert (H : forall t, take_while p (s ++ t) = s ++ take_while p t).
  { intros t. clear H1. induction Hs as [|c s Hc _ IH]; simpl; [done|]. by rewrite Hc, IH. }
  rewrite H, length_app. lia.
Qed.

Lemma advance_stop p src i : stops p (drop i src) -> advance p src i = i.
Proof.
  rewrite advance_spec. destruct (drop i src) as [|c l]; simpl; [lia|]. intros ->. simpl. lia.
Qed.

Lemma stops_lookup p src i :
  stops p (drop i src) <-> match src !! i with Some c => p c = false | None => True end.
Proof.
  at_pos src i as c E; [by rewrite (lookup_Some_drop _ _ _ E)|by rewrite (lookup_None_drop _ _ E)].
Qed.
