(* ===== verification/Words.v ===== *)
(** Machine words: 64-bit wrap-around arithmetic, little-endian loads, the
    [math/bits] operation the scanners use, and the theory of byte lanes that
    their word-at-a-time masks rely on. *)

From S2P Require Import Prelude.

(** ** uint64 and uint32 *)

Definition w64 (x : Z) : Z := x mod 2 ^ 64.
Definition w32 (x : Z) : Z := x mod 2 ^ 32.
(** Go's [^x] on uint64. *)
Definition not64 (x : Z) : Z := Z.lxor x (2 ^ 64 - 1).

(** ** Little-endian words *)

Fixpoint le_word (l : bytes) : Z :=
  match l with
  | [] => 0
  | b :: l' => b + 256 * le_word l'
  end.

(** [binary.LittleEndian.Uint64(src[i:])], for [i + 8 <= len(src)]. *)
Definition load64 (src : bytes) (i : nat) : Z := le_word (slice src i (i + 8)).
Definition load32 (src : bytes) (i : nat) : Z := le_word (slice src i (i + 4)).

(** ** [bits.TrailingZeros64] *)

Fixpoint pos_trailing_zeros (p : positive) : Z :=
  match p with
  | xO q => 1 + pos_trailing_zeros q
  | _ => 0
  end.

Definition TrailingZeros64 (x : Z) : Z :=
  match x with
  | Zpos p => pos_trailing_zeros p
  | _ => 64
  end.

(** ** Lanes *)

Section Lanes.
Implicit Types (l u : bytes) (k : nat).

Lemma le_word_bound l : bytes_ok l -> 0 <= le_word l < 2 ^ (8 * Z.of_nat (length l)).
Proof.
  induction 1 as [|b l Hb Hl IH]; cbn [le_word length]; [lia|].
  unfold is_byte in Hb. rewrite Nat2Z.inj_succ.
  replace (8 * Z.succ (Z.of_nat (length l))) with (8 + 8 * Z.of_nat (length l)) by lia.
  rewrite Z.pow_add_r by lia. lia.
Qed.

Lemma le_word_app l1 l2 :
  le_word (l1 ++ l2) = le_word l1 + 2 ^ (8 * Z.of_nat (length l1)) * le_word l2.
Proof.
  induction l1 as [|b l1 IH]; cbn [le_word app length]; [lia|].
  rewrite IH, Nat2Z.inj_succ.
  replace (8 * Z.succ (Z.of_nat (length l1))) with (8 + 8 * Z.of_nat (length l1)) by lia.
  rewrite Z.pow_add_r by lia. lia.
Qed.

(** Bits 0..7 of lane [k], when no lower lane carries or borrows into it. *)
Lemma le_word_testbit u k v i :
  u !! k = Some v -> (forall j w, (j < k)%nat -> u !! j = Some w -> is_byte w) ->
  0 <= i < 8 ->
  Z.testbit (le_word u) (8 * Z.of_nat k + i) = Z.testbit v i.
Proof.
  revert k. induction u as [|b u IH]; intros k Hk Hlow Hi; [done|].
  destruct k as [|k]; cbn [le_word]; simpl in Hk.
  - injection Hk as ->. replace (8 * Z.of_nat 0 + i) with i by lia.
    rewrite <- (Z.mod_pow2_bits_low _ 8 i) by lia.
    rewrite <- (Z.mod_pow2_bits_low v 8 i) by lia. f_equal.
    replace (v + 256 * le_word u) with (v + le_word u * 2 ^ 8) by lia.
    by rewrite Z_mod_plus_full.
  - assert (Hb : is_byte b) by (apply (Hlow 0%nat b); [lia|done]).
    rewrite <- (IH k Hk) by (try done; intros j w Hj; apply (Hlow (S j)); lia).
    replace (8 * Z.of_nat (S k) + i) with (8 * Z.of_nat k + i + 8) by lia.
    rewrite <- Z.div_pow2_bits by lia. f_equal.
    unfold is_byte in Hb. replace (b + 256 * le_word u) with (le_word u * 2 ^ 8 + b) by lia.
    rewrite Z.div_add_l by lia. rewrite (Z.div_small b) by lia. lia.
Qed.

Lemma le_word_add_const l d :
  le_word (map (fun v => v + d) l) = le_word l + le_word (replicate (length l) d).
Proof. induction l; cbn [le_word map replicate length]; [done|]. rewrite IHl. lia. Qed.

Lemma le_word_testbit_ok l k v i :
  bytes_ok l -> l !! k = Some v -> 0 <= i < 8 ->
  Z.testbit (le_word l) (8 * Z.of_nat k + i) = Z.testbit v i.
Proof.
  intros Hl Hk Hi. apply le_word_testbit; [done| |done].
  intros j w _ Hj. by eapply Forall_lookup_1 in Hl.
Qed.

Lemma le_word_testbit_high l n :
  bytes_ok l -> 8 * Z.of_nat (length l) <= n -> Z.testbit (le_word l) n = false.
Proof.
  intros Hl Hn. pose proof (le_word_bound l Hl) as Hb.
  rewrite <- (Z.mod_small _ _ Hb). apply Z.mod_pow2_bits_high. lia.
Qed.

(** Bitwise operations act lane by lane. *)
Lemma le_word_bitwise (f : Z -> Z -> Z) (g : bool -> bool -> bool) l c :
  (forall a b i, 0 <= i -> Z.testbit (f a b) i = g (Z.testbit a i) (Z.testbit b i)) ->
  g false false = false ->
  bytes_ok l -> is_byte c -> (forall v, is_byte v -> is_byte (f v c)) ->
  f (le_word l) (le_word (replicate (length l) c)) = le_word (map (fun v => f v c) l).
Proof.
  intros Hf Hg Hl Hc Hfb.
  assert (Hr : bytes_ok (replicate (length l) c)).
  { by apply Forall_replicate. }
  assert (Hm : bytes_ok (map (fun v => f v c) l)).
  { apply Forall_map. eapply Forall_impl; [done|]. simpl. auto. }
  apply Z.bits_inj'. intros n Hn. rewrite Hf by done.
  destruct (decide (n < 8 * Z.of_nat (length l))) as [Hlt|Hge].
  - pose (k := Z.to_nat (n / 8)).
    assert (Hk : n = 8 * Z.of_nat k + n mod 8).
    { unfold k. rewrite Z2Nat.id by (apply Z.div_pos; lia). apply Z.div_mod. lia. }
    pose proof (Z.mod_pos_bound n 8 ltac:(lia)) as Hmod.
    assert (Hkl : (k < length l)%nat) by lia.
    destruct (lookup_lt_is_Some_2 l k Hkl) as [v Hv]. rewrite Hk.
    rewrite (le_word_testbit_ok l k v) by done.
    rewrite (le_word_testbit_ok _ k c) by (done || by apply lookup_replicate_2).
    rewrite (le_word_testbit_ok _ k (f v c)); [by rewrite Hf by lia|done| |done].
    by rewrite list_lookup_fmap, Hv.
  - rewrite !le_word_testbit_high; [done| | | | | |];
      rewrite ?length_map, ?length_replicate; (done || lia).
Qed.
End Lanes.

(** ** Trailing zeros *)

Lemma pos_trailing_zeros_spec p n :
  0 <= n -> Z.testbit (Zpos p) n = true ->
  (forall i, 0 <= i < n -> Z.testbit (Zpos p) i = false) ->
  pos_trailing_zeros p = n.
Proof.
  revert n. induction p as [p IH|p IH|]; intros n Hn Ht Hlow; cbn [pos_trailing_zeros].
  - destruct (decide (n = 0)); [done|]. specialize (Hlow 0 ltac:(lia)). done.
  - destruct (decide (n = 0)) as [->|]; [done|].
    rewrite (IH (n - 1)); [lia|lia| |].
    + rewrite <- Ht. rewrite (Pos2Z.inj_xO p).
      replace n with (Z.succ (n - 1)) at 2 by lia. by rewrite Z.testbit_even_succ by lia.
    + intros i Hi. rewrite <- (Hlow (Z.succ i)) by lia.
      rewrite (Pos2Z.inj_xO p). by rewrite Z.testbit_even_succ by lia.
  - destruct (decide (n = 0)); [done|]. specialize (Hlow 0 ltac:(lia)). done.
Qed.

Lemma TrailingZeros64_spec x n :
  0 <= x -> 0 <= n -> Z.testbit x n = true ->
  (forall i, 0 <= i < n -> Z.testbit x i = false) ->
  TrailingZeros64 x = n.
Proof.
  intros Hx Hn Ht Hlow. destruct x as [|p|p]; [by rewrite Z.bits_0 in Ht| |lia].
  by apply pos_trailing_zeros_spec.
Qed.

(** ** First-flag masks

    A scanner mask carries one flag per byte lane, in the lane's high bit.
    Carries can make flags above the first one inexact, but the first flag is
    exact: that is all a scan for the first matching byte needs. *)

Definition high_bits : Z := 0x8080808080808080.

Lemma high_bits_testbit n :
  0 <= n -> Z.testbit high_bits n = (n <? 64) && (n mod 8 =? 7).
Proof.
  intros Hn. destruct (Z.ltb_spec n 64) as [Hlt|Hge].
  - assert (H : forallb (fun k => Bool.eqb (Z.testbit high_bits (Z.of_nat k))
                                   (Z.of_nat k mod 8 =? 7)) (seq 0 64) = true) by done.
    rewrite forallb_forall in H. specialize (H (Z.to_nat n)).
    rewrite Z2Nat.id in H by done. apply eqb_prop. apply H, in_seq. lia.
  - simpl. rewrite <- (Z.mod_small high_bits (2 ^ 64)) by done.
    by apply Z.mod_pow2_bits_high.
Qed.

Record first_flag (p : Z -> bool) (l : bytes) (m : Z) : Prop := {
  ff_nonneg : 0 <= m;
  ff_high : forall n, 0 <= n -> Z.testbit m n = true -> n < 64 /\ n mod 8 = 7;
  ff_lane : forall k v, l !! k = Some v ->
    (forall j w, (j < k)%nat -> l !! j = Some w -> p w = false) ->
    Z.testbit m (8 * Z.of_nat k + 7) = p v }.

Section FirstFlag.
Context (p : Z -> bool) (l : bytes) (m : Z).
Hypothesis Hlen : length l = 8%nat.
Hypothesis Hff : first_flag p l m.

Lemma first_flag_zero : m = 0 -> Forall (fun c => p c = false) l.
Proof using Hff.
  intros Hm. apply Forall_lookup_2. intros k. induction (lt_wf k) as [k _ IH].
  intros v Hv. rewrite <- (ff_lane _ _ _ Hff k v Hv).
  - subst m. apply Z.bits_0.
  - intros j w Hj Hw. by apply (IH j Hj).
Qed.

Lemma first_flag_clear_zero : Forall (fun c => p c = false) l -> m = 0.
Proof using Hlen Hff.
  intros Hp. destruct Hff as [Hnn Hhi Hln]. apply Z.bits_inj_0. intros n.
  destruct (decide (0 <= n)) as [Hn|]; [|by apply Z.testbit_neg_r; lia].
  destruct (Z.testbit m n) eqn:Ht; [|done]. destruct (Hhi n Hn Ht) as [Hlt Hmod].
  assert (Hn8 : n = 8 * Z.of_nat (Z.to_nat (n / 8)) + 7).
  { pose proof (Z.div_mod n 8). pose proof (Z.div_pos n 8). lia. }
  destruct (lookup_lt_is_Some_2 l (Z.to_nat (n / 8))) as [v Hv]; [lia|].
  rewrite Hn8, (Hln _ _ Hv) in Ht.
  - by rewrite (Forall_lookup_1 _ _ _ _ Hp Hv) in Ht.
  - intros j w _ Hw. by rewrite (Forall_lookup_1 _ _ _ _ Hp Hw).
Qed.

Lemma first_flag_index :
  m <> 0 ->
  TrailingZeros64 m / 8 = Z.of_nat (length (take_while (fun c => negb (p c)) l)) /\
  (length (take_while (fun c => negb (p c)) l) < 8)%nat.
Proof using Hlen Hff.
  intros Hm. destruct (take_while_split (fun c => negb (p c)) l) as (t & Ht & Hst).
  set (s := take_while _ l) in *.
  assert (Hs : Forall (fun c => p c = false) s).
  { eapply Forall_impl; [apply take_while_all|]. intros c. by rewrite negb_true_iff. }
  destruct t as [|v t].
  { rewrite app_nil_r in Ht. rewrite <- Ht in Hs. by apply first_flag_clear_zero in Hs. }
  simpl in Hst. rewrite negb_false_iff in Hst.
  assert (Hv : l !! length s = Some v) by (rewrite Ht; by apply list_lookup_middle).
  assert (Hsl : (length s < 8)%nat) by (rewrite <- Hlen; by apply lookup_lt_Some in Hv).
  assert (Hpre : forall j w, (j < length s)%nat -> l !! j = Some w -> p w = false).
  { intros j w Hj Hw. rewrite Ht, lookup_app_l in Hw by done.
  by rewrite (Forall_lookup_1 _ _ _ _ Hs Hw). }
  split; [|done]. destruct Hff as [Hnn Hhi Hln].
  rewrite (TrailingZeros64_spec m (8 * Z.of_nat (length s) + 7));
    [div_lia|done|lia| |].
  - by rewrite (Hln _ _ Hv Hpre).
  - intros i Hi. destruct (Z.testbit m i) eqn:Hti; [|done].
    destruct (Hhi i ltac:(lia) Hti) as [_ Hmod].
    assert (Hi8 : i = 8 * Z.of_nat (Z.to_nat (i / 8)) + 7).
    { pose proof (Z.div_mod i 8). pose proof (Z.div_pos i 8). lia. }
    destruct (lookup_lt_is_Some_2 l (Z.to_nat (i / 8))) as [w Hw]; [lia|].
    rewrite Hi8, (Hln _ _ Hw) in Hti.
    + rewrite <- Hti. apply (Hpre (Z.to_nat (i / 8))); [lia|done].
    + intros j w' Hj. apply Hpre. lia.
Qed.
End FirstFlag.

(** ** The two lane tests masks are built from *)

Section LaneTests.
Context (l : bytes) (Hl : bytes_ok l) (Hlen : length l = 8%nat).

(** Adding [d] to every lane: bit 7 of lane [k] of the sum is bit 7 of its own
lane sum, as long as no lower lane leaves the byte range. *)
Lemma lane_shift_testbit d k v :
  l !! k = Some v -> (forall j w, (j < k)%nat -> l !! j = Some w -> is_byte (w + d)) ->
  Z.testbit (w64 (le_word l + le_word (replicate 8 d))) (8 * Z.of_nat k + 7)
  = Z.testbit (v + d) 7.
Proof using Hlen.
  intros Hv Hlow. assert (k < 8)%nat by (rewrite <- Hlen; by apply lookup_lt_Some in Hv).
  unfold w64. rewrite Z.mod_pow2_bits_low by lia.
  rewrite <- Hlen, <- le_word_add_const. apply le_word_testbit; [|  |lia].
  - by rewrite list_lookup_fmap, Hv.
  - intros j w Hj Hw. rewrite list_lookup_fmap in Hw.
    destruct (l !! j) as [w'|] eqn:E; simplify_eq/=. eauto.
Qed.

Lemma lane_testbit k v :
  l !! k = Some v -> Z.testbit (le_word l) (8 * Z.of_nat k + 7) = Z.testbit v 7.
Proof using Hl. intros Hv. apply le_word_testbit_ok; (done || lia). Qed.

Lemma not64_testbit x n : 0 <= n < 64 -> Z.testbit (not64 x) n = negb (Z.testbit x n).
Proof.
  intros Hn. unfold not64. rewrite Z.lxor_spec.
  change (2 ^ 64 - 1) with (Z.ones 64). rewrite Z.ones_spec_low by done.
  apply xorb_true_r.
Qed.
End LaneTests.

Lemma byte_testbit7 v : is_byte v -> Z.testbit v 7 = (128 <=? v).
Proof.
  unfold is_byte. intros Hv. rewrite Z.testbit_odd, Z.shiftr_div_pow2 by lia.
  change (2 ^ 7) with 128. destruct (Z.leb_spec 128 v).
  - replace (v / 128) with 1 by div_lia. done.
  - by rewrite Z.div_small by lia.
Qed.

Lemma shifted_testbit7 v : -256 <= v < 0 -> Z.testbit v 7 = (-128 <=? v).
Proof.
  intros Hv. replace v with ((v + 256) + (-1) * 2 ^ 8) at 1 by lia.
  rewrite <- (Z.mod_pow2_bits_low _ 8) by lia. rewrite Z_mod_plus_full.
  rewrite Z.mod_pow2_bits_low by lia. rewrite byte_testbit7 by (unfold is_byte; lia).
  lia.
Qed.

Lemma le_word_inj l1 l2 :
  bytes_ok l1 -> bytes_ok l2 -> length l1 = length l2 -> le_word l1 = le_word l2 -> l1 = l2.
Proof.
  intros H1. revert l2. induction H1 as [|a l1 Ha _ IH]; intros l2 H2 Hlen Heq.
  - by destruct l2.
  - destruct l2 as [|b l2]; [done|]. inversion H2 as [|? ? Hb Hl2]; subst.
    cbn [le_word] in Heq. unfold is_byte in *. simpl in Hlen.
    assert (a = b) as -> by lia. f_equal. apply IH; [done|lia|lia].
Qed.

(** ** Disjoint or is addition; or and powers of two *)

Lemma lor_shiftl_add a n b :
  0 <= n -> 0 <= b < 2 ^ n -> Z.lor (Z.shiftl a n) b = a * 2 ^ n + b.
Proof.
  intros Hn Hb. pose proof (Z.add_lor_land (Z.shiftl a n) b) as Hadd.
  assert (H : Z.land (Z.shiftl a n) b = 0).
  { apply Z.bits_inj'. intros i Hi. rewrite Z.land_spec, Z.bits_0.
    destruct (Z.ltb_spec i n).
    - by rewrite Z.shiftl_spec_low.
    - rewrite <- (Z.mod_small b (2 ^ n)) by done. rewrite Z.mod_pow2_bits_high by lia.
      apply andb_false_r. }
  rewrite H in Hadd. rewrite Z.shiftl_mul_pow2 in * by done. lia.
Qed.

Lemma pow2_bits x n :
  0 <= x -> 0 <= n -> x < 2 ^ n <-> forall i, n <= i -> Z.testbit x i = false.
Proof.
  intros Hx Hn. split.
  - intros Hlt i Hi. rewrite <- (Z.mod_small x (2 ^ n)) by lia. by apply Z.mod_pow2_bits_high.
  - intros H. assert (Hm : x = x mod 2 ^ n).
    { apply Z.bits_inj'. intros i Hi. destruct (Z.ltb_spec i n).
      - by rewrite Z.mod_pow2_bits_low.
      - rewrite Z.mod_pow2_bits_high by lia. auto. }
    rewrite Hm. apply Z.mod_pos_bound. lia.
Qed.

Lemma lor_lt_pow2 a b n :
  0 <= a -> 0 <= b -> 0 <= n -> Z.lor a b < 2 ^ n <-> a < 2 ^ n /\ b < 2 ^ n.
Proof.
  intros Ha Hb Hn. rewrite !pow2_bits by (try apply Z.lor_nonneg; lia).
  setoid_rewrite Z.lor_spec. setoid_rewrite orb_false_iff. naive_solver.
Qed.

(** Clearing the lowest set bit. *)
Lemma clear_lowest c t n :
  0 < c -> 0 <= t -> Z.testbit c t = true -> (forall i, 0 <= i < t -> Z.testbit c i = false) -> 0 <= n ->
  Z.testbit (Z.land c (c - 1)) n = Z.testbit c n && negb (n =? t).
Proof.
  intros Hc Ht Hb Hlow Hn.
  assert (Hd : c = (c / 2 ^ (t + 1)) * 2 ^ (t + 1) + 2 ^ t).
  { pose proof (Z.div_mod c (2 ^ (t + 1)) ltac:(lia)) as Hdm. enough (c mod 2 ^ (t + 1) = 2 ^ t) by lia.
    apply Z.bits_inj'. intros i Hi. rewrite Z.pow2_bits_eqb by done. destruct (Z.ltb_spec i (t + 1)).
    - rewrite Z.mod_pow2_bits_low by done. destruct (Z.eqb_spec t i) as [->|]; [done|apply Hlow; lia].
    - rewrite Z.mod_pow2_bits_high by lia. symmetry. apply Z.eqb_neq. lia. }
  rewrite Z.land_spec. destruct (Z.ltb_spec n t) as [Hl|Hl]; [by rewrite Hlow by lia|].
  assert (Hp : 0 < 2 ^ t) by (apply Z.pow_pos_nonneg; lia).
  destruct (Z.eqb_spec n t) as [->|Hne]; cbn [negb].
  - rewrite andb_false_r. apply andb_false_intro2.
    rewrite <- (Z.mod_pow2_bits_low _ (t + 1)) by lia.
    replace ((c - 1) mod 2 ^ (t + 1)) with (2 ^ t - 1).
    + apply Z.testbit_false; [lia|]. by rewrite Z.div_small by lia.
    + apply Z.mod_unique with (q := c / 2 ^ (t + 1)); [rewrite Z.pow_add_r by lia; lia|lia].
  - enough (Heq : Z.testbit (c - 1) n = Z.testbit c n) by (rewrite Heq; by destruct (Z.testbit c n)).
    rewrite <- (Z.sub_add (t + 1) n), <- !Z.div_pow2_bits by lia. f_equal.
    symmetry. apply Z.div_unique with (r := 2 ^ t - 1); [rewrite Z.pow_add_r by lia; lia|].
    rewrite Hd at 1. lia.
Qed.

Lemma TrailingZeros64_least c :
  0 < c -> 0 <= TrailingZeros64 c /\ Z.testbit c (TrailingZeros64 c) = true /\
  forall i, 0 <= i < TrailingZeros64 c -> Z.testbit c i = false.
Proof.
  destruct c as [|p|p]; [done| |done]. intros _. cbn [TrailingZeros64]. induction p as [p IH|p IH|].
  - simpl. split_and!; [done|done|lia].
  - destruct IH as (H0 & H1 & H2). cbn [pos_trailing_zeros]. rewrite (Pos2Z.inj_xO p). split_and!; [lia| |].
    + replace (1 + pos_trailing_zeros p) with (Z.succ (pos_trailing_zeros p)) by lia.
      by rewrite Z.testbit_even_succ by lia.
    + intros i Hi. destruct (Z.eq_dec i 0) as [->|]; [apply Z.testbit_even_0|].
      replace i with (Z.succ (i - 1)) by lia. rewrite Z.testbit_even_succ by lia. apply H2. lia.
  - simpl. split_and!; [done|done|lia].
Qed.

Lemma lor_word a b : 0 <= a < 2 ^ 64 -> 0 <= b < 2 ^ 64 -> 0 <= Z.lor a b < 2 ^ 64.
Proof. intros Ha Hb. split; [apply Z.lor_nonneg; lia|]. apply lor_lt_pow2; lia. Qed.

Lemma w64_range x : 0 <= w64 x < 2 ^ 64.
Proof. unfold w64. apply Z.mod_pos_bound. lia. Qed.

(** Words with the same 64 bits are equal. *)
Lemma word_bits a b : 0 <= a < 2 ^ 64 -> 0 <= b < 2 ^ 64 -> (forall n, 0 <= n < 64 -> Z.testbit a n = Z.testbit b n) -> a = b.
Proof.
  intros Ha Hb H. apply Z.bits_inj'. intros n Hn. destruct (Z.ltb_spec n 64); [apply H; lia|].
  by rewrite (proj1 (pow2_bits a 64 ltac:(lia) ltac:(lia)) ltac:(lia)), (proj1 (pow2_bits b 64 ltac:(lia) ltac:(lia)) ltac:(lia)) by lia.
Qed.
