(* ===== verification/Utf8.v ===== *)
(** The parts of Go's [unicode/utf8] and [unicode/utf16] standard packages the
    program calls, and the laws that tie decoding to encoding. *)

From S2P Require Import Prelude.

Definition RuneError : Z := 0xFFFD.
Definition MaxRune : Z := 0x10FFFF.

(** A Unicode scalar value: what a well-formed UTF-8 sequence denotes. *)
Definition is_surrogate (r : Z) : bool := (0xD800 <=? r) && (r <=? 0xDFFF).
Definition is_scalar (r : Z) : bool :=
  (0 <=? r) && (r <=? MaxRune) && negb (is_surrogate r).

(** ** Encoding *)

(** The UTF-8 bytes of a rune already known to be a scalar value. *)
Definition encode_rune (r : Z) : bytes :=
  if r <=? 0x7F then [r]
  else if r <=? 0x7FF then [0xC0 + r / 64; 0x80 + r mod 64]
  else if r <=? 0xFFFF then
    [0xE0 + r / 4096; 0x80 + r / 64 mod 64; 0x80 + r mod 64]
  else
    [0xF0 + r / 262144; 0x80 + r / 4096 mod 64; 0x80 + r / 64 mod 64; 0x80 + r mod 64].

(** [utf8.AppendRune] and [utf8.EncodeRune]: any rune that is not a scalar value
    is written as U+FFFD. *)
Definition EncodeRune (r : Z) : bytes :=
  encode_rune (if is_scalar r then r else RuneError).
Definition AppendRune (dst : bytes) (r : Z) : bytes := dst ++ EncodeRune r.

(** [utf8.RuneLen], for the runes the program passes (scalar values). *)
Definition RuneLen (r : Z) : nat := length (EncodeRune r).

(** ** Decoding *)

Definition is_cont (b : Z) : bool := (0x80 <=? b) && (b <=? 0xBF).

(** The range of a valid second byte, by first byte (Unicode Table 3-7). *)
Definition second_lo (b0 : Z) : Z :=
  if b0 =? 0xE0 then 0xA0 else if b0 =? 0xF0 then 0x90 else 0x80.
Definition second_hi (b0 : Z) : Z :=
  if b0 =? 0xED then 0x9F else if b0 =? 0xF4 then 0x8F else 0xBF.
Definition second_ok (b0 b1 : Z) : bool := (second_lo b0 <=? b1) && (b1 <=? second_hi b0).

(** [utf8.DecodeRune]: the rune and its width; width 1 with [RuneError] for an
    invalid encoding, width 0 for empty input. *)
Definition DecodeRune (p : bytes) : Z * nat :=
  match p with
  | [] => (RuneError, 0%nat)
  | b0 :: p1 =>
      if b0 <? 0x80 then (b0, 1%nat)
      else if (0xC2 <=? b0) && (b0 <=? 0xDF) then
        match p1 with
        | b1 :: _ =>
            if second_ok b0 b1 then ((b0 - 0xC0) * 64 + (b1 - 0x80), 2%nat)
            else (RuneError, 1%nat)
        | _ => (RuneError, 1%nat)
        end
      else if (0xE0 <=? b0) && (b0 <=? 0xEF) then
        match p1 with
        | b1 :: b2 :: _ =>
            if second_ok b0 b1 && is_cont b2 then
              ((b0 - 0xE0) * 4096 + (b1 - 0x80) * 64 + (b2 - 0x80), 3%nat)
            else (RuneError, 1%nat)
        | _ => (RuneError, 1%nat)
        end
      else if (0xF0 <=? b0) && (b0 <=? 0xF4) then
        match p1 with
        | b1 :: b2 :: b3 :: _ =>
            if second_ok b0 b1 && is_cont b2 && is_cont b3 then
              ((b0 - 0xF0) * 262144 + (b1 - 0x80) * 4096 + (b2 - 0x80) * 64 + (b3 - 0x80), 4%nat)
            else (RuneError, 1%nat)
        | _ => (RuneError, 1%nat)
        end
      else (RuneError, 1%nat)
  end.

(** The test [r == utf8.RuneError && n == 1] the code applies to a decoding. *)
Definition decode_bad (rn : Z * nat) : bool := (rn.1 =? RuneError) && (rn.2 =? 1)%nat.

(** [utf8.Valid], by the loop on decoded runes. *)
Fixpoint valid_loop (fuel : nat) (p : bytes) : bool :=
  match p with
  | [] => true
  | _ =>
      match fuel with
      | O => false
      | S fuel =>
          let rn := DecodeRune p in
          if decode_bad rn then false else valid_loop fuel (drop rn.2 p)
      end
  end.
Definition Valid (p : bytes) : bool := valid_loop (length p) p.

(** [utf16.DecodeRune]. *)
Definition DecodeSurrogates (r1 r2 : Z) : Z :=
  if (0xD800 <=? r1) && (r1 <? 0xDC00) && (0xDC00 <=? r2) && (r2 <? 0xE000)
  then (r1 - 0xD800) * 1024 + (r2 - 0xDC00) + 0x10000
  else RuneError.

(** ** Laws *)

Lemma is_scalar_spec r :
  is_scalar r = true <-> 0 <= r <= 0x10FFFF /\ ~ (0xD800 <= r <= 0xDFFF).
Proof. unfold is_scalar, is_surrogate, MaxRune. lia. Qed.

Lemma encode_rune_nonempty r : encode_rune r <> [].
Proof. unfold encode_rune. repeat case_step; done. Qed.

Lemma encode_rune_bytes r : is_scalar r = true -> bytes_ok (encode_rune r).
Proof.
  rewrite is_scalar_spec. intros Hr. unfold encode_rune, is_byte.
  repeat case_step; repeat constructor; div_lia.
Qed.

Lemma encode_rune_ascii r : r < 128 -> encode_rune r = [r].
Proof. intros. unfold encode_rune. case_step; [done|lia]. Qed.

Lemma encode_rune_high r :
  is_scalar r = true -> 128 <= r -> Forall (fun c => 128 <= c < 256) (encode_rune r).
Proof.
  rewrite is_scalar_spec. intros Hr H. unfold encode_rune.
  repeat case_step; try lia; repeat constructor; div_lia.
Qed.

(** Arithmetic of continuation bytes, shared by the four widths. *)
Ltac utf8_digits :=
  repeat match goal with
  | |- context [if ?b then _ else _] => destruct b eqn:?; try (exfalso; div_lia)
  end.

Lemma second_ok_spec b0 b1 :
  second_ok b0 b1 = true <->
  0x80 <= b1 <= 0xBF /\ (b0 = 0xE0 -> 0xA0 <= b1) /\ (b0 = 0xF0 -> 0x90 <= b1) /\
  (b0 = 0xED -> b1 <= 0x9F) /\ (b0 = 0xF4 -> b1 <= 0x8F).
Proof. unfold second_ok, second_lo, second_hi. repeat case_step; lia. Qed.

Lemma is_cont_spec b : is_cont b = true <-> 0x80 <= b <= 0xBF.
Proof. unfold is_cont. lia. Qed.

Lemma if_true {A} (b : bool) (x y : A) : b = true -> (if b then x else y) = x.
Proof. by intros ->. Qed.
Lemma if_false {A} (b : bool) (x y : A) : b = false -> (if b then x else y) = y.
Proof. by intros ->. Qed.

Lemma DecodeRune_encode r t :
  is_scalar r = true -> DecodeRune (encode_rune r ++ t) = (r, length (encode_rune r)).
Proof.
  rewrite is_scalar_spec. intros Hr. unfold encode_rune.
  destruct (r <=? 0x7F) eqn:H1; [cbn; rewrite if_true by lia; done|].
  destruct (r <=? 0x7FF) eqn:H2.
  { cbn [DecodeRune app]. rewrite if_false by div_lia. rewrite if_true by div_lia.
    rewrite if_true by (apply second_ok_spec; div_lia). f_equal. div_lia. }
  destruct (r <=? 0xFFFF) eqn:H3.
  { cbn [DecodeRune app]. rewrite if_false by div_lia. rewrite if_false by div_lia.
    rewrite if_true by div_lia.
    rewrite if_true by (rewrite andb_true_iff, second_ok_spec, is_cont_spec; div_lia).
    f_equal. div_lia. }
  cbn [DecodeRune app]. do 3 rewrite if_false by div_lia. rewrite if_true by div_lia.
  rewrite if_true by (rewrite !andb_true_iff, second_ok_spec, !is_cont_spec; div_lia).
  f_equal. div_lia.
Qed.

Lemma encode_rune_2 a b :
  0xC2 <= a <= 0xDF -> 0x80 <= b <= 0xBF ->
  encode_rune ((a - 0xC0) * 64 + (b - 0x80)) = [a; b].
Proof.
  intros. unfold encode_rune. rewrite if_false by lia. rewrite if_true by lia.
  repeat f_equal; div_lia.
Qed.
Lemma encode_rune_3 a b c :
  0xE0 <= a <= 0xEF -> 0x80 <= b <= 0xBF -> (a = 0xE0 -> 0xA0 <= b) -> 0x80 <= c <= 0xBF ->
  encode_rune ((a - 0xE0) * 4096 + (b - 0x80) * 64 + (c - 0x80)) = [a; b; c].
Proof.
  intros. unfold encode_rune. do 2 rewrite if_false by lia. rewrite if_true by lia.
  repeat f_equal; div_lia.
Qed.
Lemma encode_rune_4 a b c d :
  0xF0 <= a <= 0xF4 -> 0x80 <= b <= 0xBF -> (a = 0xF0 -> 0x90 <= b) ->
  0x80 <= c <= 0xBF -> 0x80 <= d <= 0xBF ->
  encode_rune ((a - 0xF0) * 262144 + (b - 0x80) * 4096 + (c - 0x80) * 64 + (d - 0x80))
    = [a; b; c; d].
Proof.
  intros. unfold encode_rune. do 3 rewrite if_false by lia.
  repeat f_equal; div_lia.
Qed.

(** Close a branch in which [DecodeRune] answered (RuneError, 1). *)
Ltac bad_rune :=
  match goal with
  | H : (RuneError, 1%nat) = (?r, ?n), Hb : decode_bad (?r, ?n) = false |- _ =>
      exfalso; rewrite <- H in Hb; discriminate Hb
  end.

Lemma DecodeRune_good p r n :
  DecodeRune p = (r, n) -> decode_bad (r, n) = false -> p <> [] -> (forall c, head p = Some c -> 0 <= c) ->
  is_scalar r = true /\ n = length (encode_rune r) /\ exists t, p = encode_rune r ++ t.
Proof.
  intros H Hbad Hne Hpos. rewrite is_scalar_spec.
  destruct p as [|b0 p1]; [done|]. specialize (Hpos b0 eq_refl). cbn [DecodeRune] in H.
  destruct (b0 <? 0x80) eqn:E1.
  { simplify_eq. rewrite encode_rune_ascii by lia. split; [lia|split; [done|by exists p1]]. }
  destruct ((0xC2 <=? b0) && (b0 <=? 0xDF)) eqn:E2.
  { destruct p1 as [|b1 p2]; [bad_rune|].
    destruct (second_ok b0 b1) eqn:Hok; [|bad_rune]. rewrite second_ok_spec in Hok.
    simplify_eq. rewrite encode_rune_2 by lia.
    split; [lia|split; [done|by exists p2]]. }
  destruct ((0xE0 <=? b0) && (b0 <=? 0xEF)) eqn:E3.
  { destruct p1 as [|b1 [|b2 p3]]; [bad_rune..|].
    destruct (second_ok b0 b1 && is_cont b2) eqn:Hok; [|bad_rune].
    rewrite andb_true_iff, second_ok_spec, is_cont_spec in Hok.
    simplify_eq. rewrite encode_rune_3 by lia.
    split; [lia|split; [done|by exists p3]]. }
  destruct ((0xF0 <=? b0) && (b0 <=? 0xF4)) eqn:E4; [|bad_rune].
  destruct p1 as [|b1 [|b2 [|b3 p4]]]; [bad_rune..|].
  destruct (second_ok b0 b1 && is_cont b2 && is_cont b3) eqn:Hok; [|bad_rune].
  rewrite !andb_true_iff, second_ok_spec, !is_cont_spec in Hok.
  simplify_eq. rewrite encode_rune_4 by lia.
  split; [lia|split; [done|by exists p4]].
Qed.

Lemma DecodeRune_width p : p <> [] -> (1 <= (DecodeRune p).2 <= length p)%nat.
Proof.
  destruct p as [|b0 [|b1 [|b2 [|b3 p]]]]; [done|..]; intros _; cbn [DecodeRune length];
    repeat case_step; simpl; lia.
Qed.

Lemma decode_bad_encode r :
  is_scalar r = true -> decode_bad (r, length (encode_rune r)) = false.
Proof.
  intros Hr. unfold decode_bad. simpl. destruct (r =? RuneError) eqn:E; [|done].
  apply Z.eqb_eq in E. subst. done.
Qed.

(** ** Valid UTF-8 text *)

Inductive utf8_text : bytes -> Prop :=
  | utf8_nil : utf8_text []
  | utf8_cons r t : is_scalar r = true -> utf8_text t -> utf8_text (encode_rune r ++ t).

Lemma utf8_text_app s t : utf8_text s -> utf8_text t -> utf8_text (s ++ t).
Proof. induction 1; simpl; [done|]. intros. rewrite <- app_assoc. constructor; auto. Qed.

Lemma utf8_text_inv p :
  utf8_text p ->
  p = [] \/ exists r t, is_scalar r = true /\ p = encode_rune r ++ t /\ utf8_text t.
Proof. destruct 1; naive_solver. Qed.

Lemma encode_rune_length r : (1 <= length (encode_rune r) <= 4)%nat.
Proof. unfold encode_rune. repeat case_step; simpl; lia. Qed.

(** Decoding the first rune of a text, whichever way it comes out. *)
Lemma utf8_text_step p :
  p <> [] -> Forall (fun c => 0 <= c) p ->
  utf8_text p <->
  decode_bad (DecodeRune p) = false /\ utf8_text (drop (DecodeRune p).2 p).
Proof.
  intros Hne Hp. split.
  - intros [->|(r & t & Hr & -> & Ht)]%utf8_text_inv; [done|].
    rewrite DecodeRune_encode by done. simpl. rewrite drop_app_length.
    split; [by apply decode_bad_encode|done].
  - intros [Hb Ht]. destruct (DecodeRune p) as [r n] eqn:E.
    destruct (DecodeRune_good p r n E Hb Hne) as (Hr & -> & t & ->).
    { intros c Hc. destruct p; simplify_eq/=. by inv Hp. }
    simpl in Ht. rewrite drop_app_length in Ht. by constructor.
Qed.

Lemma valid_loop_spec fuel p :
  (length p <= fuel)%nat -> Forall (fun c => 0 <= c) p ->
  valid_loop fuel p = true <-> utf8_text p.
Proof.
  revert p. induction fuel as [|fuel IH]; intros p Hf Hp.
  { destruct p; [|simpl in Hf; lia]. split; [constructor|done]. }
  destruct p as [|c p']; [split; [constructor|done]|].
  rewrite utf8_text_step by done.
  change (valid_loop (S fuel) (c :: p')) with
    (let rn := DecodeRune (c :: p') in
     if decode_bad rn then false else valid_loop fuel (drop rn.2 (c :: p'))).
  pose proof (DecodeRune_width (c :: p') ltac:(done)) as Hw. cbv zeta.
  destruct (decode_bad (DecodeRune (c :: p'))); [naive_solver|].
  rewrite IH; [naive_solver| |by apply Forall_drop].
  rewrite length_drop. lia.
Qed.

Lemma Valid_spec p : Forall (fun c => 0 <= c) p -> Valid p = true <-> utf8_text p.
Proof. by apply valid_loop_spec. Qed.
