(* ===== verification/Scanner.v ===== *)
(** The byte scanners: [space.go], [scan.go] and the portable lane of
    [x/scanner] ([api.go], [scan_default.go], [scan_generic.go]).

    The word-at-a-time loops are modelled as written, with their 64-bit masks,
    and proved equal to the byte-at-a-time scan they replace. *)

From S2P Require Import Prelude Words Utf8.

(** ** Whitespace (space.go) *)

Definition IsJSONWhitespace (c : Z) : bool :=
  (c =? 32) || (c =? 10) || (c =? 13) || (c =? 9).

Definition eight_spaces : Z := 0x2020202020202020.
Definition four_spaces : Z := 0x20202020.

(** [for i+8 <= len(src) && Uint64(src[i:]) == 0x2020202020202020 { i += 8 }] *)
Fixpoint skip_eight (fuel : nat) (src : bytes) (i : nat) : nat :=
  match fuel with
  | O => i
  | S fuel =>
      if ((i + 8 <=? length src)%nat && (load64 src i =? eight_spaces))
      then skip_eight fuel src (i + 8) else i
  end.

Fixpoint SkipSpace_loop (fuel : nat) (src : bytes) (i : nat) : nat :=
  match fuel with
  | O => i
  | S fuel =>
      match src !! i with
      | None => i
      | Some c =>
          if 32 <? c then i
          else if negb (c =? 32) && negb (c =? 10) && negb (c =? 13) && negb (c =? 9) then i
          else SkipSpace_loop fuel src (skip_eight (length src) src (S i))
      end
  end.
Definition SkipSpace (src : bytes) (i : nat) : nat :=
  SkipSpace_loop (length src - i) src i.

Fixpoint skipSpaceIndent_loop (fuel : nat) (src : bytes) (i : nat) : nat :=
  match fuel with
  | O => i
  | S fuel =>
      match src !! i with
      | None => i
      | Some c =>
          if 32 <? c then i
          else if negb (c =? 32) && negb (c =? 10) && negb (c =? 13) && negb (c =? 9) then i
          else
            let i := skip_eight (length src) src (S i) in
            let i := if ((i + 4 <=? length src)%nat && (load32 src i =? four_spaces))
                     then (i + 4)%nat else i in
            skipSpaceIndent_loop fuel src i
      end
  end.
Definition skipSpaceIndent (src : bytes) (i : nat) : nat :=
  skipSpaceIndent_loop (length src - i) src i.

(** [matchStringAt]: a length guard, then a byte loop over the literal. *)
Fixpoint match_bytes (src : bytes) (i : nat) (s : bytes) : bool :=
  match s with
  | [] => true
  | b :: s' => match src !! i with
               | Some c => if c =? b then match_bytes src (S i) s' else false
               | None => false
               end
  end.
Definition matchStringAt (src : bytes) (i : nat) (s : bytes) : bool :=
  if (length src - i <? length s)%nat then false else match_bytes src i s.

(** ** Word masks (x/scanner/scan_generic.go) *)

Definition byteEqMask (x b : Z) : Z :=
  let y := Z.lxor x (w64 (b * 0x0101010101010101)) in
  Z.land (Z.land (w64 (y - 0x0101010101010101)) (not64 y)) high_bits.

Definition control_mask (x : Z) : Z :=
  Z.land (Z.land (w64 (x - 0x2020202020202020)) (not64 x)) high_bits.

Definition stringSpecialMask (x : Z) : Z :=
  Z.lor (Z.lor (Z.lor (byteEqMask x DQUOTE) (byteEqMask x BSLASH)) (control_mask x))
        (Z.land x high_bits).

Definition stringSyntaxMask (x : Z) : Z :=
  Z.lor (Z.lor (byteEqMask x DQUOTE) (byteEqMask x BSLASH)) (control_mask x).

Definition htmlQuoteAmpFold : Z := 0x0404040404040404.
Definition htmlAngleBracketFold : Z := 0x0202020202020202.

Definition htmlStringSyntaxMask (x : Z) : Z :=
  Z.lor (Z.lor (Z.lor (byteEqMask (Z.lor x htmlQuoteAmpFold) "&"%ch) (byteEqMask x BSLASH))
               (control_mask x))
        (byteEqMask (Z.lor x htmlAngleBracketFold) ">"%ch).

Definition htmlStringSpecialMask (x : Z) : Z :=
  Z.lor (Z.lor (Z.lor (Z.lor (byteEqMask (Z.lor x htmlQuoteAmpFold) "&"%ch)
                             (byteEqMask x BSLASH))
                      (control_mask x))
               (Z.land x high_bits))
        (byteEqMask (Z.lor x htmlAngleBracketFold) ">"%ch).

(** The byte tests of the scalar tails. *)
Definition is_string_special (c : Z) : bool :=
  (c =? DQUOTE) || (c =? BSLASH) || (c <? 32) || (128 <=? c).
Definition is_string_syntax (c : Z) : bool :=
  (c =? DQUOTE) || (c =? BSLASH) || (c <? 32).
Definition is_html_syntax (c : Z) : bool :=
  (c =? DQUOTE) || (c =? BSLASH) || (c =? "<"%ch) || (c =? ">"%ch) || (c =? "&"%ch) || (c <? 32).
Definition is_html_special (c : Z) : bool := is_html_syntax c || (128 <=? c).

(** ** Scan loops *)

(** The index of the first flagged byte of the word at [i], if any. *)
Definition word_hit (mask : Z -> Z) (src : bytes) (i : nat) : option nat :=
  let m := mask (load64 src i) in
  if m =? 0 then None else Some (i + Z.to_nat (TrailingZeros64 m / 8))%nat.

(** [for i+16 <= limit { two words }]: a hit, or the position reached. *)
Fixpoint scan_pairs (mask : Z -> Z) (fuel : nat) (src : bytes) (i limit : nat) : nat + nat :=
  match fuel with
  | O => inr i
  | S fuel =>
      if (i + 16 <=? limit)%nat then
        match word_hit mask src i with
        | Some j => inl j
        | None =>
            match word_hit mask src (i + 8) with
            | Some j => inl j
            | None => scan_pairs mask fuel src (i + 16) limit
            end
        end
      else inr i
  end.

(** [for i < limit { if p(src[i]) { return i }; i++ }; return limit] *)
Fixpoint scan_tail (p : Z -> bool) (fuel : nat) (src : bytes) (i limit : nat) : nat :=
  match fuel with
  | O => limit
  | S fuel =>
      if (i <? limit)%nat then
        match src !! i with
        | Some c => if p c then i else scan_tail p fuel src (S i) limit
        | None => limit
        end
      else limit
  end.

(** The shape shared by [scanStringSpecialScalarUntil] and
    [scanStringSyntaxScalar]: word pairs, at most one word, a scalar tail. *)
Definition scan_two_words (mask : Z -> Z) (p : Z -> bool) (src : bytes) (i limit : nat) : nat :=
  match scan_pairs mask (limit - i) src i limit with
  | inl j => j
  | inr i =>
      if (i + 8 <=? limit)%nat then
        match word_hit mask src i with
        | Some j => j
        | None => scan_tail p (limit - (i + 8)) src (i + 8) limit
        end
      else scan_tail p (limit - i) src i limit
  end.

(** The shape of the HTML scanners: single words, then a scalar tail. *)
Fixpoint scan_words (mask : Z -> Z) (fuel : nat) (src : bytes) (i limit : nat) : nat + nat :=
  match fuel with
  | O => inr i
  | S fuel =>
      if (i + 8 <=? limit)%nat then
        match word_hit mask src i with
        | Some j => inl j
        | None => scan_words mask fuel src (i + 8) limit
        end
      else inr i
  end.
Definition scan_one_word (mask : Z -> Z) (p : Z -> bool) (src : bytes) (i limit : nat) : nat :=
  match scan_words mask (limit - i) src i limit with
  | inl j => j
  | inr i => scan_tail p (limit - i) src i limit
  end.

Definition scanStringSpecialScalarUntil (src : bytes) (i limit : nat) : nat :=
  scan_two_words stringSpecialMask is_string_special src i limit.
Definition scanStringSpecialScalar (src : bytes) (i : nat) : nat :=
  scanStringSpecialScalarUntil src i (length src).
Definition scanStringSyntaxScalar (src : bytes) (i : nat) : nat :=
  scan_two_words stringSyntaxMask is_string_syntax src i (length src).
Definition scanEncodedHTMLSyntaxScalar (src : bytes) (i : nat) : nat :=
  scan_one_word htmlStringSyntaxMask is_html_syntax src i (length src).
Definition scanEncodedHTMLSpecialScalar (src : bytes) (i : nat) : nat :=
  scan_one_word htmlStringSpecialMask is_html_special src i (length src).

(** The portable backend and its exported names. *)
Definition scanStringSpecial (src : bytes) (i : nat) : nat := scanStringSpecialScalar src i.
Definition scanStringSyntax (src : bytes) (i : nat) : nat := scanStringSyntaxScalar src i.

(** [scanStringSpecialShort] (scan.go): the scalar path for sub-word tails. *)
Definition scanStringSpecialShort (src : bytes) (i : nat) : nat * bool :=
  if (8 <=? length src - i)%nat then (0%nat, false)
  else (scan_tail (fun c => (c <? 32) || (128 <=? c) || (c =? DQUOTE) || (c =? BSLASH))
                  (length src - i) src i (length src), true).

(** ** Non-ASCII runs *)

(** The loop of [invalidUTF8Index] over [src[start:end]]. *)
Fixpoint invalid_index_loop (fuel : nat) (src : bytes) (start stop : nat) : nat :=
  match fuel with
  | O => stop
  | S fuel =>
      if (start <? stop)%nat then
        let rn := DecodeRune (slice src start stop) in
        if decode_bad rn then start
        else invalid_index_loop fuel src (start + rn.2) stop
      else stop
  end.

(** [-1] is [None]. *)
Definition invalidUTF8Index (src : bytes) (start stop : nat) : option nat :=
  if Valid (slice src start stop) then None
  else Some (invalid_index_loop (stop - start) src start stop).

Definition scanStringUnicodeRun (src : bytes) (i : nat) : nat * option nat :=
  if (length src - i <? 32)%nat then
    let rn := DecodeRune (drop i src) in
    if decode_bad rn then (i, Some i) else ((i + rn.2)%nat, None)
  else
    let next := scanStringSyntax src i in
    (next, invalidUTF8Index src i next).

(** ** The masks flag the right first byte *)

Definition only_high (m : Z) : Prop :=
  0 <= m /\ forall n, 0 <= n -> Z.testbit m n = true -> n < 64 /\ n mod 8 = 7.

Lemma only_high_land x : only_high (Z.land x high_bits).
Proof.
  split; [apply Z.land_nonneg; right; done|]. intros n Hn.
  rewrite Z.land_spec, high_bits_testbit by done. lia.
Qed.
Lemma only_high_lor a b : only_high a -> only_high b -> only_high (Z.lor a b).
Proof.
  intros [? Ha] [? Hb]. split; [by apply Z.lor_nonneg|]. intros n Hn.
  rewrite Z.lor_spec, orb_true_iff. intros [?|?]; auto.
Qed.
#[local] Hint Resolve only_high_land only_high_lor : vj.

#[local] Hint Extern 0 (is_byte _) => (split; done) : core.

Lemma high_bits_lane k : (k < 8)%nat -> Z.testbit high_bits (8 * Z.of_nat k + 7) = true.
Proof. intros Hk. rewrite high_bits_testbit by lia. div_lia. Qed.

(** A byte predicate decided by running it on all 256 bytes. *)
Definition all_bytes (P : Z -> bool) : bool := forallb (fun n => P (Z.of_nat n)) (seq 0 256).
Lemma all_bytes_spec P v : all_bytes P = true -> is_byte v -> P v = true.
Proof.
  unfold all_bytes, is_byte. rewrite forallb_forall. intros H Hv.
  rewrite <- (Z2Nat.id v) by lia. apply H, in_seq. lia.
Qed.
Ltac by_bytes P :=
  match goal with
  | Hv : is_byte ?v |- _ =>
      let H := fresh in pose proof (all_bytes_spec P v eq_refl Hv) as H; cbv beta in H
  end.

Section Lane.
Context (l : bytes) (k : nat) (v : Z).
Hypothesis Hl : bytes_ok l.
Hypothesis Hlen : length l = 8%nat.
Hypothesis Hv : l !! k = Some v.

Lemma lane_lt : (k < 8)%nat.
Proof using Hv Hlen. rewrite <- Hlen. by apply lookup_lt_Some in Hv. Qed.

Lemma lane_byte : is_byte v.
Proof using Hl Hv. by eapply Forall_lookup_1 in Hl. Qed.

Lemma high_lane : Z.testbit (Z.land (le_word l) high_bits) (8 * Z.of_nat k + 7) = (128 <=? v).
Proof using Hl Hlen Hv.
  pose proof lane_lt. pose proof lane_byte.
  rewrite Z.land_spec, high_bits_lane, andb_true_r by lia.
  erewrite lane_testbit by done. by apply byte_testbit7.
Qed.

Lemma control_lane :
  (forall j w, (j < k)%nat -> l !! j = Some w -> 32 <= w) ->
  Z.testbit (control_mask (le_word l)) (8 * Z.of_nat k + 7) = (v <? 32).
Proof using Hl Hlen Hv.
  intros Hlow. pose proof lane_lt. pose proof lane_byte as Hb. unfold control_mask.
  rewrite !Z.land_spec, high_bits_lane, andb_true_r by lia.
  change (le_word l - 0x2020202020202020) with (le_word l + le_word (replicate 8 (-32))).
  erewrite lane_shift_testbit; [|done|done|].
  - rewrite not64_testbit by lia. erewrite lane_testbit by done.
    rewrite (byte_testbit7 v) by done. unfold is_byte in Hb.
    destruct (Z.ltb_spec v 32).
    + rewrite shifted_testbit7 by lia. lia.
    + rewrite byte_testbit7 by (unfold is_byte; lia). lia.
  - intros j w Hj Hw. specialize (Hlow j w Hj Hw).
    assert (is_byte w) by (by eapply Forall_lookup_1 in Hl). unfold is_byte in *. lia.
Qed.
End Lane.

Lemma rep_byte b : is_byte b -> w64 (b * 0x0101010101010101) = le_word (replicate 8 b).
Proof. unfold is_byte, w64. intros. cbn [replicate le_word]. rewrite Z.mod_small by lia. lia. Qed.

Lemma bitwise_byte (f : Z -> Z -> Z) (g : bool -> bool -> bool) a b :
  (forall i, 0 <= i -> Z.testbit (f a b) i = g (Z.testbit a i) (Z.testbit b i)) ->
  g false false = false -> is_byte a -> is_byte b -> is_byte (f a b).
Proof.
  unfold is_byte. intros Hf Hg Ha Hb.
  assert (H : f a b = f a b mod 2 ^ 8).
  { apply Z.bits_inj'. intros n Hn. destruct (Z.ltb_spec n 8).
    - by rewrite Z.mod_pow2_bits_low.
    - rewrite Z.mod_pow2_bits_high by lia. rewrite Hf by done.
      rewrite <- (Z.mod_small a (2 ^ 8)), <- (Z.mod_small b (2 ^ 8)) by done.
      by rewrite !Z.mod_pow2_bits_high by lia. }
  rewrite H. by apply Z.mod_pos_bound.
Qed.
Lemma lxor_byte a b : is_byte a -> is_byte b -> is_byte (Z.lxor a b).
Proof. apply (bitwise_byte Z.lxor xorb); [intros; apply Z.lxor_spec|done]. Qed.
Lemma lor_byte a b : is_byte a -> is_byte b -> is_byte (Z.lor a b).
Proof. apply (bitwise_byte Z.lor orb); [intros; apply Z.lor_spec|done]. Qed.

Lemma eq_lane l k v b :
  bytes_ok l -> length l = 8%nat -> is_byte b -> l !! k = Some v ->
  (forall j w, (j < k)%nat -> l !! j = Some w -> w <> b) ->
  Z.testbit (byteEqMask (le_word l) b) (8 * Z.of_nat k + 7) = (v =? b).
Proof.
  intros Hl Hlen Hb Hv Hlow. pose proof (lane_lt _ _ _ Hlen Hv).
  pose proof (lane_byte _ _ _ Hl Hv) as Hvb. unfold byteEqMask.
  rewrite rep_byte by done.
  remember (map (fun v => Z.lxor v b) l) as u eqn:Equ.
  assert (Hy : Z.lxor (le_word l) (le_word (replicate 8 b)) = le_word u).
  { rewrite <- Hlen, Equ. apply (le_word_bitwise Z.lxor xorb);
      first [done | intros; apply Z.lxor_spec | intros; by apply lxor_byte]. }
  rewrite Hy.
  assert (Hu : bytes_ok u).
  { subst u. apply Forall_map. eapply Forall_impl; [done|]. intros. by apply lxor_byte. }
  assert (Hulen : length u = 8%nat) by (subst u; by rewrite length_map).
  assert (Huk : u !! k = Some (Z.lxor v b)) by (subst u; by rewrite list_lookup_fmap, Hv).
  rewrite !Z.land_spec, high_bits_lane, andb_true_r by lia.
  change (le_word u - 0x0101010101010101) with (le_word u + le_word (replicate 8 (-1))).
  erewrite lane_shift_testbit; [|done|done|].
  - rewrite not64_testbit by lia. erewrite lane_testbit by done.
    pose proof (lane_byte _ _ _ Hu Huk) as Hx. rewrite (byte_testbit7 _ Hx).
    destruct (Z.eqb_spec v b) as [->|Hne].
    + rewrite Z.lxor_nilpotent. done.
    + assert (Z.lxor v b <> 0) by (by rewrite Z.lxor_eq_0_iff).
      unfold is_byte in Hx. rewrite byte_testbit7 by (unfold is_byte; lia). lia.
  - intros j w Hj Hw. subst u. rewrite list_lookup_fmap in Hw.
    destruct (l !! j) as [w'|] eqn:E; simplify_eq/=. specialize (Hlow j w' Hj E).
    assert (is_byte w') by (by eapply Forall_lookup_1 in Hl).
    pose proof (lxor_byte w' b ltac:(done) Hb) as Hx.
    assert (Z.lxor w' b <> 0) by (by rewrite Z.lxor_eq_0_iff). unfold is_byte in *. lia.
Qed.

(** [byteEqMask(x | fold, b)] tests [c | f == b] lane by lane. *)
Lemma fold_eq_lane l k v f b :
  bytes_ok l -> length l = 8%nat -> is_byte f -> is_byte b -> l !! k = Some v ->
  (forall j w, (j < k)%nat -> l !! j = Some w -> Z.lor w f <> b) ->
  Z.testbit (byteEqMask (Z.lor (le_word l) (le_word (replicate 8 f))) b) (8 * Z.of_nat k + 7)
    = (Z.lor v f =? b).
Proof.
  intros Hl Hlen Hf Hb Hv Hlow. rewrite <- Hlen at 1.
  rewrite (le_word_bitwise Z.lor orb) by
    first [done | intros; apply Z.lor_spec | intros; by apply lor_byte].
  apply eq_lane; [| |done| |].
  - apply Forall_map. eapply Forall_impl; [done|]. intros. by apply lor_byte.
  - by rewrite length_map.
  - by rewrite list_lookup_fmap, Hv.
  - intros j w Hj Hw. rewrite list_lookup_fmap in Hw.
    destruct (l !! j) as [w'|] eqn:E; simplify_eq/=. eauto.
Qed.

(** ** Each mask is exact at the first flagged lane *)

Section Masks.
Context (l : bytes).
Hypothesis Hl : bytes_ok l.
Hypothesis Hlen : length l = 8%nat.

Ltac mask_lanes :=
  intros k v Hv Hlow; rewrite ?Z.lor_spec;
  pose proof (lane_byte _ _ _ Hl Hv);
  repeat first
  [ rewrite (high_lane l k v Hl Hlen Hv)
  | rewrite (control_lane l k v Hl Hlen Hv)
  | rewrite (eq_lane l k v) by
  first [done | by (split; done) | intros j w Hj Hw ->; by specialize (Hlow j _ Hj Hw)] ].

Lemma special_mask_first : first_flag is_string_special l (stringSpecialMask (le_word l)).
Proof using Hl Hlen.
  assert (H : only_high (stringSpecialMask (le_word l))) by (unfold stringSpecialMask, control_mask, byteEqMask; auto with vj).
  destruct H. split; [done|done|]. unfold stringSpecialMask. mask_lanes.
  - unfold is_string_special. lia.
  - intros j w Hj Hw. specialize (Hlow j w Hj Hw). unfold is_string_special in Hlow. lia.
Qed.

Lemma syntax_mask_first : first_flag is_string_syntax l (stringSyntaxMask (le_word l)).
Proof using Hl Hlen.
  assert (H : only_high (stringSyntaxMask (le_word l))) by (unfold stringSyntaxMask, control_mask, byteEqMask; auto with vj).
  destruct H. split; [done|done|]. unfold stringSyntaxMask. mask_lanes.
  - unfold is_string_syntax. lia.
  - intros j w Hj Hw. specialize (Hlow j w Hj Hw). unfold is_string_syntax in Hlow. lia.
Qed.

(** The folds: [c | 4 == '&'] for the quote and the ampersand, [c | 2 == '>']
for the angle brackets. *)
Lemma html_fold v :
  is_byte v ->
  (Z.lor v 4 =? "&"%ch) = (v =? DQUOTE) || (v =? "&"%ch) /\
  (Z.lor v 2 =? ">"%ch) = (v =? "<"%ch) || (v =? ">"%ch).
Proof.
  intros Hv.
  by_bytes (fun v => Bool.eqb (Z.lor v 4 =? "&"%ch) ((v =? DQUOTE) || (v =? "&"%ch)) &&
           Bool.eqb (Z.lor v 2 =? ">"%ch) ((v =? "<"%ch) || (v =? ">"%ch))).
  rewrite andb_true_iff, !eqb_true_iff in *. naive_solver.
Qed.

Ltac html_lane Hlow :=
  let Hx := fresh in let Hx' := fresh in
  intros j w Hj Hw; destruct (html_fold w) as [Hx Hx']; [by eapply Forall_lookup_1 in Hl|];
  specialize (Hlow j w Hj Hw); unfold is_html_special, is_html_syntax in Hlow; lia.

Lemma html_syntax_mask_first : first_flag is_html_syntax l (htmlStringSyntaxMask (le_word l)).
Proof using Hl Hlen.
  assert (H : only_high (htmlStringSyntaxMask (le_word l))).
  { unfold htmlStringSyntaxMask, control_mask, byteEqMask. auto with vj. }
  destruct H. split; [done|done|]. unfold htmlStringSyntaxMask. intros k v Hv Hlow.
  change htmlQuoteAmpFold with (le_word (replicate 8 4)).
  change htmlAngleBracketFold with (le_word (replicate 8 2)). rewrite !Z.lor_spec.
  rewrite !(fold_eq_lane l k v) by first [done | by (split; done) | html_lane Hlow].
  rewrite (eq_lane l k v BSLASH Hl Hlen ltac:(done) Hv) by html_lane Hlow.
  rewrite (control_lane l k v Hl Hlen Hv) by html_lane Hlow.
  destruct (html_fold v (lane_byte _ _ _ Hl Hv)). unfold is_html_syntax. lia.
Qed.

Lemma html_special_mask_first : first_flag is_html_special l (htmlStringSpecialMask (le_word l)).
Proof using Hl Hlen.
  assert (H : only_high (htmlStringSpecialMask (le_word l))).
  { unfold htmlStringSpecialMask, control_mask, byteEqMask. auto 6 with vj. }
  destruct H. split; [done|done|]. unfold htmlStringSpecialMask. intros k v Hv Hlow.
  change htmlQuoteAmpFold with (le_word (replicate 8 4)).
  change htmlAngleBracketFold with (le_word (replicate 8 2)). rewrite !Z.lor_spec.
  rewrite !(fold_eq_lane l k v) by first [done | by (split; done) | html_lane Hlow].
  rewrite (eq_lane l k v BSLASH Hl Hlen ltac:(done) Hv) by html_lane Hlow.
  rewrite (control_lane l k v Hl Hlen Hv) by html_lane Hlow.
  rewrite (high_lane l k v Hl Hlen Hv).
  destruct (html_fold v (lane_byte _ _ _ Hl Hv)). unfold is_html_special, is_html_syntax. lia.
Qed.
End Masks.

(** ** The word loops compute the byte-at-a-time scan *)

Definition exact_mask (mask : Z -> Z) (p : Z -> bool) : Prop :=
  forall l, bytes_ok l -> length l = 8%nat -> first_flag p l (mask (le_word l)).

(** The byte-at-a-time scan of [src[i:limit]] for the first byte in [p]. *)
Definition scan_ref (p : Z -> bool) (src : bytes) (i limit : nat) : nat :=
  (i + length (take_while (fun c => negb (p c)) (slice src i limit)))%nat.

Section Scan.
Context (mask : Z -> Z) (p : Z -> bool) (src : bytes).
Hypothesis Hmask : exact_mask mask p.
Hypothesis Hsrc : bytes_ok src.

Lemma slice_split i m j :
  (i <= m <= j)%nat -> slice src i j = slice src i m ++ slice src m j.
Proof.
  intros H. unfold slice. replace (j - i)%nat with ((m - i) + (j - m))%nat by lia.
  rewrite <- take_take_drop, drop_drop. by replace (i + (m - i))%nat with m by lia.
Qed.

Lemma slice_ok i j : bytes_ok (slice src i j).
Proof using Hsrc. by apply Forall_take, Forall_drop. Qed.

Lemma slice_length i j : (i <= j <= length src)%nat -> length (slice src i j) = (j - i)%nat.
Proof. intros. unfold slice. rewrite length_take, length_drop. lia. Qed.

Lemma word_hit_some i limit j :
  (i + 8 <= limit <= length src)%nat ->
  word_hit mask src i = Some j -> j = scan_ref p src i limit.
Proof using Hmask Hsrc.
  unfold word_hit, load64, scan_ref. intros Hi H.
  assert (Hl8 : length (slice src i (i + 8)) = 8%nat) by (rewrite slice_length; lia).
  pose proof (Hmask _ (slice_ok i (i + 8)) Hl8) as Hff.
  case_step_in H; [done|]. simplify_eq.
  destruct (first_flag_index _ _ _ Hl8 Hff) as [-> Hlt]; [lia|].
  rewrite Nat2Z.id, (slice_split i (i + 8) limit) by lia. f_equal.
  destruct (take_while_split (fun c => negb (p c)) (slice src i (i + 8))) as (t & Ht & Hs).
  rewrite Ht at 2. destruct t as [|c t].
  - rewrite app_nil_r in Ht. apply (f_equal length) in Ht.
    rewrite slice_length in Ht by lia. lia.
  - rewrite <- app_assoc. by rewrite take_while_app by (done || apply take_while_all).
Qed.

Lemma word_hit_none i limit :
  (i + 8 <= limit <= length src)%nat ->
  word_hit mask src i = None -> scan_ref p src i limit = scan_ref p src (i + 8) limit.
Proof using Hmask Hsrc.
  unfold word_hit, load64, scan_ref. intros Hi H. case_step_in H; [|done].
  pose proof (Hmask _ (slice_ok i (i + 8)) ltac:(rewrite slice_length; lia)) as Hff.
  apply first_flag_zero in Hff; [|lia]. rewrite (slice_split i (i + 8) limit) by lia.
  assert (Hl : length (slice src i (i + 8)) = 8%nat) by (rewrite slice_length; lia).
  assert (Hgen : forall l t, Forall (fun c => p c = false) l ->
    length (take_while (fun c => negb (p c)) (l ++ t)) =
    (length l + length (take_while (fun c => negb (p c)) t))%nat).
  { induction 1 as [|c l Hc _ IH]; simpl; [done|]. rewrite Hc. simpl. by rewrite IH. }
  rewrite Hgen by done. lia.
Qed.

Lemma scan_tail_spec fuel i limit :
  (limit - i <= fuel)%nat -> (i <= limit <= length src)%nat ->
  scan_tail p fuel src i limit = scan_ref p src i limit.
Proof.
  unfold scan_ref. revert i. induction fuel as [|fuel IH]; intros i Hf Hi; simpl.
  - replace limit with i by lia. unfold slice. rewrite Nat.sub_diag. simpl. lia.
  - destruct (Nat.ltb_spec i limit) as [Hlt|Hge].
    + destruct (lookup_lt_is_Some_2 src i) as [c Hc]; [lia|]. rewrite Hc.
      assert (Hs : slice src i limit = c :: slice src (S i) limit).
      { rewrite (slice_split i (S i)) by lia. unfold slice at 1.
      replace (S i - i)%nat with 1%nat by lia. by rewrite (lookup_Some_drop _ _ _ Hc). }
      rewrite Hs. simpl. destruct (p c); simpl; [lia|]. rewrite IH by lia. lia.
    + replace limit with i by lia. unfold slice. rewrite Nat.sub_diag. simpl. lia.
Qed.

Lemma scan_pairs_spec fuel i limit :
  (i <= limit <= length src)%nat ->
  match scan_pairs mask fuel src i limit with
  | inl j => j = scan_ref p src i limit
  | inr j => (i <= j <= limit)%nat /\ scan_ref p src j limit = scan_ref p src i limit
  end.
Proof using Hmask Hsrc.
  revert i. induction fuel as [|fuel IH]; intros i Hi; simpl; [split; [lia|done]|].
  destruct (Nat.leb_spec (i + 16) limit); [|split; [lia|done]].
  destruct (word_hit mask src i) eqn:H1; [apply (word_hit_some i); [lia|done]|].
  rewrite (word_hit_none i limit ltac:(lia) H1).
  destruct (word_hit mask src (i + 8)) eqn:H2; [apply (word_hit_some (i + 8)); [lia|done]|].
  rewrite (word_hit_none (i + 8) limit ltac:(lia) H2).
  replace (i + 8 + 8)%nat with (i + 16)%nat by lia. specialize (IH (i + 16)%nat ltac:(lia)).
  destruct (scan_pairs mask fuel src (i + 16) limit); [done|]. destruct IH. split; [lia|done].
Qed.

Lemma scan_two_words_spec i limit :
  (i <= limit <= length src)%nat ->
  scan_two_words mask p src i limit = scan_ref p src i limit.
Proof using Hmask Hsrc.
  intros Hi. unfold scan_two_words. pose proof (scan_pairs_spec (limit - i) i limit Hi) as H.
  destruct (scan_pairs mask (limit - i) src i limit) as [j|j]; [done|]. destruct H as [Hj <-].
  destruct (Nat.leb_spec (j + 8) limit).
  - destruct (word_hit mask src j) eqn:H1; [apply (word_hit_some j); [lia|done]|].
    rewrite (word_hit_none j limit ltac:(lia) H1). apply scan_tail_spec; lia.
  - apply scan_tail_spec; lia.
Qed.

Lemma scan_words_spec fuel i limit :
  (i <= limit <= length src)%nat ->
  match scan_words mask fuel src i limit with
  | inl j => j = scan_ref p src i limit
  | inr j => (i <= j <= limit)%nat /\ scan_ref p src j limit = scan_ref p src i limit
  end.
Proof using Hmask Hsrc.
  revert i. induction fuel as [|fuel IH]; intros i Hi; simpl; [split; [lia|done]|].
  destruct (Nat.leb_spec (i + 8) limit); [|split; [lia|done]].
  destruct (word_hit mask src i) eqn:H1; [apply (word_hit_some i); [lia|done]|].
  rewrite (word_hit_none i limit ltac:(lia) H1). specialize (IH (i + 8)%nat ltac:(lia)).
  destruct (scan_words mask fuel src (i + 8) limit); [done|]. destruct IH. split; [lia|done].
Qed.

Lemma scan_one_word_spec i limit :
  (i <= limit <= length src)%nat ->
  scan_one_word mask p src i limit = scan_ref p src i limit.
Proof using Hmask Hsrc.
  intros Hi. unfold scan_one_word. pose proof (scan_words_spec (limit - i) i limit Hi) as H.
  destruct (scan_words mask (limit - i) src i limit) as [j|j]; [done|]. destruct H as [Hj <-].
  apply scan_tail_spec; lia.
Qed.
End Scan.

Lemma scan_ref_all p src i :
  (i <= length src)%nat -> scan_ref p src i (length src) = advance (fun c => negb (p c)) src i.
Proof.
  intros. unfold scan_ref, slice. rewrite advance_spec.
  by rewrite take_ge by (rewrite length_drop; lia).
Qed.

(** ** Specifications of the exported scanners *)

Section Specs.
Context (src : bytes).
Hypothesis Hsrc : bytes_ok src.

Lemma load64_inj i l :
  (i + 8 <= length src)%nat -> bytes_ok l -> length l = 8%nat ->
  load64 src i = le_word l -> span src i l (i + 8).
Proof using Hsrc.
  intros Hi Hl Hlen H. apply le_word_inj in H; [|by apply slice_ok|done|].
  - rewrite <- H. apply slice_span. lia.
  - rewrite slice_length; lia.
Qed.

Lemma load32_inj i l :
  (i + 4 <= length src)%nat -> bytes_ok l -> length l = 4%nat ->
  load32 src i = le_word l -> span src i l (i + 4).
Proof using Hsrc.
  intros Hi Hl Hlen H. apply le_word_inj in H; [|by apply slice_ok|done|].
  - rewrite <- H. apply slice_span. lia.
  - rewrite slice_length; lia.
Qed.

Lemma spaces_ws n : Forall (fun c => IsJSONWhitespace c = true) (replicate n 32).
Proof. by apply Forall_replicate. Qed.
Lemma spaces_ok n : bytes_ok (replicate n 32).
Proof. by apply Forall_replicate. Qed.
#[local] Hint Resolve spaces_ws spaces_ok : core.

Lemma skip_eight_spec fuel i :
  (i <= length src)%nat ->
  (i <= skip_eight fuel src i <= length src)%nat /\
  advance IsJSONWhitespace src (skip_eight fuel src i) = advance IsJSONWhitespace src i.
Proof using Hsrc.
  revert i. induction fuel as [|fuel IH]; intros i Hi; simpl; [split; [lia|done]|].
  case_step; [|split; [lia|done]].
  apply andb_true_iff in Heqb as [H8 Heq]. apply Nat.leb_le in H8. apply Z.eqb_eq in Heq.
  destruct (IH (i + 8)%nat ltac:(lia)) as [? ->]. split; [lia|].
  symmetry. apply (advance_skip _ _ _ (replicate 8 32)); [|done].
  apply load64_inj; [lia|done|done|by rewrite Heq].
Qed.

Lemma ws_test c :
  (if 32 <? c then true
  else negb (c =? 32) && negb (c =? 10) && negb (c =? 13) && negb (c =? 9))
  = negb (IsJSONWhitespace c).
Proof. unfold IsJSONWhitespace. destruct (32 <? c) eqn:?; lia. Qed.

Lemma ws_loop_test {A} c (x y : A) :
  (if 32 <? c then x
  else if negb (c =? 32) && negb (c =? 10) && negb (c =? 13) && negb (c =? 9) then x else y)
  = if IsJSONWhitespace c then y else x.
Proof. pose proof (ws_test c). repeat case_step; (done || lia). Qed.

Lemma SkipSpace_spec i :
  (i <= length src)%nat -> SkipSpace src i = advance IsJSONWhitespace src i.
Proof using Hsrc.
  unfold SkipSpace. assert (Hf : (length src - i <= length src - i)%nat) by lia.
  revert Hf. generalize (length src - i)%nat at 2 3 as fuel. intros fuel. revert i.
  induction fuel as [|fuel IH]; intros i Hf Hi; simpl; rewrite advance_unfold.
  - by rewrite lookup_ge_None_2 by lia.
  - at_pos src i as c E; [|done]. rewrite ws_loop_test.
    destruct (IsJSONWhitespace c); [|done]. apply lookup_lt_Some in E.
    destruct (skip_eight_spec (length src) (S i)) as [? <-]; [lia|]. apply IH; lia.
Qed.

(** The four-byte step of [skipSpaceIndent] changes nothing either. *)
Lemma skipSpaceIndent_spec i :
  (i <= length src)%nat -> skipSpaceIndent src i = advance IsJSONWhitespace src i.
Proof using Hsrc.
  unfold skipSpaceIndent. assert (Hf : (length src - i <= length src - i)%nat) by lia.
  revert Hf. generalize (length src - i)%nat at 2 3 as fuel. intros fuel. revert i.
  induction fuel as [|fuel IH]; intros i Hf Hi; cbn [skipSpaceIndent_loop]; rewrite advance_unfold.
  - by rewrite lookup_ge_None_2 by lia.
  - at_pos src i as c E; [|done]. rewrite ws_loop_test.
    destruct (IsJSONWhitespace c); [|done]. apply lookup_lt_Some in E.
    destruct (skip_eight_spec (length src) (S i)) as [Hj <-]; [lia|].
    set (j := skip_eight _ _ _) in *. cbv zeta.
    destruct ((j + 4 <=? length src)%nat && (load32 src j =? four_spaces)) eqn:H4;
      [|apply IH; lia].
    apply andb_true_iff in H4 as [H4 Heq]. apply Nat.leb_le in H4. apply Z.eqb_eq in Heq.
    rewrite IH by lia. symmetry. apply (advance_skip _ _ _ (replicate 4 32)); [|done].
    apply load32_inj; [lia|done|done|by rewrite Heq].
Qed.

Lemma scanStringSpecial_spec i :
  (i <= length src)%nat ->
  scanStringSpecial src i = advance (fun c => negb (is_string_special c)) src i.
Proof using Hsrc.
  intros. rewrite <- scan_ref_all by done. apply scan_two_words_spec; [|done|lia].
  intros l ??. by apply special_mask_first.
Qed.

Lemma scanStringSyntax_spec i :
  (i <= length src)%nat ->
  scanStringSyntax src i = advance (fun c => negb (is_string_syntax c)) src i.
Proof using Hsrc.
  intros. rewrite <- scan_ref_all by done. apply scan_two_words_spec; [|done|lia].
  intros l ??. by apply syntax_mask_first.
Qed.

Lemma scanEncodedHTMLSpecialScalar_spec i :
  (i <= length src)%nat ->
  scanEncodedHTMLSpecialScalar src i = advance (fun c => negb (is_html_special c)) src i.
Proof using Hsrc.
  intros. rewrite <- scan_ref_all by done. apply scan_one_word_spec; [|done|lia].
  intros l ??. by apply html_special_mask_first.
Qed.

Lemma scanEncodedHTMLSyntaxScalar_spec i :
  (i <= length src)%nat ->
  scanEncodedHTMLSyntaxScalar src i = advance (fun c => negb (is_html_syntax c)) src i.
Proof using Hsrc.
  intros. rewrite <- scan_ref_all by done. apply scan_one_word_spec; [|done|lia].
  intros l ??. by apply html_syntax_mask_first.
Qed.
End Specs.

Lemma match_bytes_span src i s :
  (i <= length src)%nat -> match_bytes src i s = true <-> span src i s (i + length s).
Proof.
  revert i. induction s as [|b s IH]; intros i Hi; simpl.
  - replace (i + 0)%nat with i by lia. split; [intros; by apply span_nil|done].
  - at_pos src i as c E.
    + apply lookup_lt_Some in E as Hlt. destruct (Z.eqb_spec c b) as [->|Hne].
      * rewrite IH by lia. replace (S i + length s)%nat with (i + S (length s))%nat by lia.
        split; [by apply span_cons_intro|]. intros [_ H]%span_cons. done.
      * split; [done|]. intros [H _]%span_cons. congruence.
    + split; [done|]. intros [H _]%span_cons. congruence.
Qed.

Lemma matchStringAt_span src i s :
  (i <= length src)%nat -> matchStringAt src i s = true <-> span src i s (i + length s).
Proof.
  intros Hi. unfold matchStringAt. destruct (Nat.ltb_spec (length src - i) (length s)).
  - split; [done|]. intros H1%span_le. lia.
  - by apply match_bytes_span.
Qed.

(** ** Properties *)

(** the two whitespace skippers of space.go, which test words of eight and four spaces, stop exactly where a byte loop over the JSON whitespace bytes stops. *)
Theorem whitespace_skippers src i :
  bytes_ok src -> (i <= length src)%nat ->
  SkipSpace src i = advance IsJSONWhitespace src i /\
  skipSpaceIndent src i = advance IsJSONWhitespace src i.
Proof. intros Hok Hi. split; [by apply SkipSpace_spec|by apply skipSpaceIndent_spec]. Qed.

Lemma whitespace_skippers_witness :
  let src := bs "{                      1" in
  SkipSpace src 1 = advance IsJSONWhitespace src 1 /\ skipSpaceIndent src 1 = advance IsJSONWhitespace src 1.
Proof. apply (whitespace_skippers (bs "{                      1") 1); [concrete_bytes|vm_compute; lia]. Defined.

(** every word-at-a-time string scanner of the portable backend returns the position of the first byte of its stop set, exactly as a byte loop does: special, syntax, and the two HTML variants. *)
Theorem string_scanners_bytewise src i :
  bytes_ok src -> (i <= length src)%nat ->
  scanStringSpecial src i = advance (fun c => negb (is_string_special c)) src i /\
  scanStringSyntax src i = advance (fun c => negb (is_string_syntax c)) src i /\
  scanEncodedHTMLSpecialScalar src i = advance (fun c => negb (is_html_special c)) src i /\
  scanEncodedHTMLSyntaxScalar src i = advance (fun c => negb (is_html_syntax c)) src i.
Proof.
  intros Hok Hi. split_and!; [by apply scanStringSpecial_spec|by apply scanStringSyntax_spec|
    by apply scanEncodedHTMLSpecialScalar_spec|by apply scanEncodedHTMLSyntaxScalar_spec].
Qed.

Lemma string_scanners_bytewise_witness :
  let src := bs "abcdefghijklmnopqrstu<vwxyz\\" in
  scanStringSpecial src 0 = advance (fun c => negb (is_string_special c)) src 0 /\
  scanStringSyntax src 0 = advance (fun c => negb (is_string_syntax c)) src 0 /\
  scanEncodedHTMLSpecialScalar src 0 = advance (fun c => negb (is_html_special c)) src 0 /\
  scanEncodedHTMLSyntaxScalar src 0 = advance (fun c => negb (is_html_syntax c)) src 0.
Proof. apply (string_scanners_bytewise (bs "abcdefghijklmnopqrstu<vwxyz\\") 0); [concrete_bytes|vm_compute; lia]. Defined.
