(* ===== verification/Stage1.v ===== *)
(** [x/kernels/stage1_portable.go]: the classification of a 64-byte block into
    bit masks, and the two kernels that thread backslash runs and string state
    through consecutive blocks.  Each is shown to be its bytewise definition. *)

From S2P Require Import Prelude Words Scanner.

(** ** Masks and carries *)

Record Stage1Masks : Type := mkMasks {
  sm_Whitespace : Z;
  sm_Structural : Z;
  sm_Quote : Z;
  sm_Backslash : Z;
  sm_Control : Z;
  sm_NonASCII : bool
  }.

Record Stage1Carry : Type := mkCarry { Escaped : Z; InString : Z }.

Record Stage1BracketMasks : Type := mkBrackets { m_Quote : Z; m_Backslash : Z; m_Open : Z; m_Close : Z }.

Definition stage1EvenBits : Z := 0x5555555555555555.

(** ** The packed classification *)

(** The class of each plane. *)
Definition is_structural (c : Z) : bool :=
  (c =? "{"%ch) || (c =? "}"%ch) || (c =? "["%ch) || (c =? "]"%ch) || (c =? ":"%ch) || (c =? ","%ch).
Definition is_open (c : Z) : bool := (c =? "{"%ch) || (c =? "["%ch).
Definition is_close (c : Z) : bool := (c =? "}"%ch) || (c =? "]"%ch).

Definition stage1PortableClass (c : Z) : Z :=
  let class := 0 in
  let class := if (c =? " "%ch) || (c =? 9) || (c =? 10) || (c =? 13) then Z.lor class 1 else class in
  let class := if is_structural c then Z.lor class (Z.shiftl 1 8) else class in
  let class := if c =? DQUOTE then Z.lor class (Z.shiftl 1 16) else class in
  let class := if c =? BSLASH then Z.lor class (Z.shiftl 1 24) else class in
  let class := if c <? 0x20 then Z.lor class (Z.shiftl 1 32) else class in
  let class := if 0x80 <=? c then Z.lor class (Z.shiftl 1 40) else class in
  let class := if is_open c then Z.lor class (Z.shiftl 1 48) else class in
  if is_close c then Z.lor class (Z.shiftl 1 56) else class.

(** A block is the 64 bytes of an array. *)
Definition class_at (block : bytes) (i : nat) : Z := stage1PortableClass (nth i block 0).

Definition stage1Pack8 (block : bytes) (offset : nat) : Z :=
  let lane k := w64 (Z.shiftl (class_at block (offset + k)) (Z.of_nat k)) in
  Z.lor (Z.lor (Z.lor (Z.lor (Z.lor (Z.lor (Z.lor (lane 0%nat) (lane 1%nat)) (lane 2%nat)) (lane 3%nat)) (lane 4%nat)) (lane 5%nat)) (lane 6%nat)) (lane 7%nat).

Definition stage1Plane (packed plane shift : Z) : Z := w64 (Z.shiftl (Z.land (Z.shiftr packed plane) 0xff) shift).

(** One plane of the eight packed words. *)
Definition planes (block : bytes) (plane : Z) : Z :=
  let p k := stage1Plane (stage1Pack8 block (8 * k)) plane (8 * Z.of_nat k) in
  Z.lor (Z.lor (Z.lor (Z.lor (Z.lor (Z.lor (Z.lor (p 0%nat) (p 1%nat)) (p 2%nat)) (p 3%nat)) (p 4%nat)) (p 5%nat)) (p 6%nat)) (p 7%nat).

Definition any_plane (block : bytes) (plane : Z) : bool :=
  let p k := stage1Pack8 block (8 * k) in
  negb (Z.land (Z.lor (Z.lor (Z.lor (Z.lor (Z.lor (Z.lor (Z.lor (p 0%nat) (p 1%nat)) (p 2%nat)) (p 3%nat)) (p 4%nat)) (p 5%nat)) (p 6%nat)) (p 7%nat))
    (Z.shiftl 0xff plane) =? 0).

Definition stage1BlockPortable (block : bytes) : Stage1Masks :=
  mkMasks (planes block 0) (planes block 8) (planes block 16) (planes block 24) (planes block 32) (any_plane block 40).
Definition stage1BlockBracketsPortable (block : bytes) : Stage1BracketMasks :=
  mkBrackets (planes block 16) (planes block 24) (planes block 48) (planes block 56).

Definition Stage1Block (block : bytes) : Stage1Masks := stage1BlockPortable block.
Definition Stage1BlockBrackets (block : bytes) : Stage1BracketMasks := stage1BlockBracketsPortable block.

(** ** Backslash runs and string state *)

Definition Stage1Escaped (backslash : Z) (carry : Stage1Carry) : Z * Stage1Carry :=
  let carryEscaped := Escaped carry in
  if backslash =? 0 then (carryEscaped, mkCarry 0 (InString carry))
  else
  let backslash := Z.ldiff backslash carryEscaped in
  let followsEscape := Z.lor (w64 (Z.shiftl backslash 1)) carryEscaped in
  if Z.land backslash followsEscape =? 0 then (followsEscape, mkCarry (Z.shiftr backslash 63) (InString carry))
  else
  let oddSequenceStarts := Z.land backslash (not64 (Z.lor stage1EvenBits followsEscape)) in
  let sum := oddSequenceStarts + backslash in
  let sequencesStartingOnEven := w64 sum in
  let overflow := sum / 2 ^ 64 in
  (Z.land (Z.lxor stage1EvenBits (w64 (Z.shiftl sequencesStartingOnEven 1))) followsEscape, mkCarry overflow (InString carry)).

Definition Stage1PrefixXOR (quotes : Z) (carry : Stage1Carry) : Z * Stage1Carry :=
  if quotes =? 0 then (InString carry, carry)
  else
  let fold m k := Z.lxor m (w64 (Z.shiftl m k)) in
  let m := fold (fold (fold (fold (fold (fold quotes 1) 2) 4) 8) 16) 32 in
  let m := Z.lxor m (InString carry) in
  (m, mkCarry (Escaped carry) (if 2 ^ 63 <=? m then 2 ^ 64 - 1 else 0)).

(** ** The planes are bytewise *)

(** The class a plane stands for. *)
Definition plane_class (q : Z) (c : Z) : bool :=
  if q =? 0 then IsJSONWhitespace c
  else if q =? 1 then is_structural c
  else if q =? 2 then c =? DQUOTE
  else if q =? 3 then c =? BSLASH
  else if q =? 4 then c <? 0x20
  else if q =? 5 then 0x80 <=? c
  else if q =? 6 then is_open c
  else is_close c.

Lemma class_bit c n : is_byte c -> 0 <= n < 64 -> Z.testbit (stage1PortableClass c) n = (n mod 8 =? 0) && plane_class (n / 8) c.
Proof.
  intros Hc Hn.
  assert (H : forallb (fun k => Bool.eqb (Z.testbit (stage1PortableClass c) (Z.of_nat k)) ((Z.of_nat k mod 8 =? 0) && plane_class (Z.of_nat k / 8) c)) (seq 0 64) = true)
    by (by_bytes (fun c => forallb (fun k => Bool.eqb (Z.testbit (stage1PortableClass c) (Z.of_nat k)) ((Z.of_nat k mod 8 =? 0) && plane_class (Z.of_nat k / 8) c)) (seq 0 64)); done).
  rewrite forallb_forall in H. specialize (H (Z.to_nat n)). rewrite Z2Nat.id in H by lia. apply eqb_prop, H, in_seq. lia.
Qed.

Lemma shiftl_bit x k n : 0 <= k -> 0 <= n < 64 -> Z.testbit (w64 (Z.shiftl x k)) n = (k <=? n) && Z.testbit x (n - k).
Proof.
  intros Hk Hn. unfold w64. rewrite Z.mod_pow2_bits_low by lia. rewrite Z.shiftl_spec by lia.
  destruct (Z.leb_spec k n); [done|]. cbn [andb]. apply Z.testbit_neg_r. lia.
Qed.

Lemma w64_bit x n : 0 <= n < 64 -> Z.testbit (w64 x) n = Z.testbit x n.
Proof. intros Hn. unfold w64. by rewrite Z.mod_pow2_bits_low by lia. Qed.

Section Planes.
Context (block : bytes).
Hypothesis Hblock : bytes_ok block.

Lemma nth_byte i : is_byte (nth i block 0).
Proof using Hblock.
  destruct (lt_dec i (length block)) as [H|H]; [|rewrite nth_overflow by lia; unfold is_byte; lia].
  apply (proj1 (List.Forall_forall _ _) Hblock), nth_In. done.
Qed.

Lemma lane_bit i k q r : 0 <= q < 8 -> 0 <= k < 8 -> 0 <= r < 8 ->
  Z.testbit (w64 (Z.shiftl (class_at block i) k)) (8 * q + r) = (r =? k) && plane_class q (nth i block 0).
Proof using Hblock.
  intros Hq Hk Hr. rewrite shiftl_bit by lia. destruct (Z.leb_spec k (8 * q + r)); cbn [andb].
  - unfold class_at. rewrite class_bit by (apply nth_byte || lia). destruct (Z.eqb_spec r k) as [->|Hne].
    + replace (8 * q + k - k) with (q * 8) by lia. by rewrite Z_mod_mult, Z.div_mul by lia.
    + replace ((8 * q + r - k) mod 8 =? 0) with false by (symmetry; apply Z.eqb_neq; div_lia). done.
  - by rewrite (proj2 (Z.eqb_neq r k)) by lia.
Qed.

Lemma pack_bit offset q r : 0 <= q < 8 -> (r < 8)%nat ->
  Z.testbit (stage1Pack8 block offset) (8 * q + Z.of_nat r) = plane_class q (nth (offset + r) block 0).
Proof using Hblock.
  intros Hq Hr. unfold stage1Pack8. rewrite !Z.lor_spec, !lane_bit by lia.
  do 8 (destruct r as [|r]; [cbn; by rewrite ?orb_false_r|]). lia.
Qed.

Lemma plane_bit packed q k n : 0 <= q < 8 -> 0 <= k < 8 -> 0 <= n < 64 ->
  Z.testbit (stage1Plane packed (8 * q) (8 * k)) n = (n / 8 =? k) && Z.testbit packed (8 * q + n mod 8).
Proof using.
  intros Hq Hk Hn. unfold stage1Plane. rewrite shiftl_bit by lia. change 0xff with (Z.ones 8).
  destruct (Z.leb_spec (8 * k) n); cbn [andb].
  - rewrite Z.land_spec, Z.shiftr_spec by lia. destruct (Z.eqb_spec (n / 8) k) as [<-|Hne]; cbn [andb].
    + rewrite Z.ones_spec_low by div_lia. rewrite andb_true_r. f_equal. div_lia.
    + rewrite Z.ones_spec_high by div_lia. apply andb_false_r.
  - by rewrite (proj2 (Z.eqb_neq (n / 8) k)) by div_lia.
Qed.

Lemma planes_bit q i : 0 <= q < 8 -> (i < 64)%nat -> Z.testbit (planes block (8 * q)) (Z.of_nat i) = plane_class q (nth i block 0).
Proof using Hblock.
  intros Hq Hi. unfold planes. rewrite !Z.lor_spec.
  assert (Hterm : forall k, (k < 8)%nat -> Z.testbit (stage1Plane (stage1Pack8 block (8 * k)) (8 * q) (8 * Z.of_nat k)) (Z.of_nat i) =
    (Z.of_nat i / 8 =? Z.of_nat k) && plane_class q (nth i block 0)).
  { intros k Hk. rewrite plane_bit by lia. destruct (Z.eqb_spec (Z.of_nat i / 8) (Z.of_nat k)) as [E|]; [|done]. cbn [andb].
    replace (Z.of_nat i mod 8) with (Z.of_nat (i - 8 * k)) by div_lia. rewrite pack_bit by div_lia. do 2 f_equal. div_lia. }
  rewrite !Hterm by lia. set (b := plane_class _ _). clearbody b. clear Hterm.
  destruct b; [|by rewrite !andb_false_r]. rewrite !andb_true_r.
  pose proof (Z.div_pos (Z.of_nat i) 8 ltac:(lia) ltac:(lia)). assert (Z.of_nat i / 8 < 8) by div_lia. lia.
Qed.

Lemma planes_range plane : 0 <= planes block plane < 2 ^ 64.
Proof using. unfold planes. repeat apply lor_word; apply w64_range. Qed.
End Planes.

(** ** Backslash runs *)

(** Which byte of a stream is escaped: the one after a backslash that is not. *)
Fixpoint esc_at (backslash : nat -> bool) (e0 : bool) (i : nat) : bool :=
  match i with O => e0 | S i => backslash i && negb (esc_at backslash e0 i) end.

Lemma even_bit n : 0 <= n < 64 -> Z.testbit stage1EvenBits n = Z.even n.
Proof.
  intros Hn. assert (H : forallb (fun k => Bool.eqb (Z.testbit stage1EvenBits (Z.of_nat k)) (Z.even (Z.of_nat k))) (seq 0 64) = true) by done.
  rewrite forallb_forall in H. specialize (H (Z.to_nat n)). rewrite Z2Nat.id in H by lia. apply eqb_prop, H, in_seq. lia.
Qed.

Lemma odd_nat i : Z.odd (Z.of_nat i) = Nat.odd i.
Proof.
  induction i as [|i IH]; [done|]. by rewrite Nat2Z.inj_succ, Z.odd_succ, Nat.odd_succ, <- Z.negb_odd, <- Nat.negb_odd, IH.
Qed.

Lemma bit_zero e n : 0 <= n -> Z.testbit (Z.b2z e) n = (n =? 0) && e.
Proof. intros Hn. destruct (Z.eqb_spec n 0) as [->|]; [apply Z.b2z_bit0|]. destruct e; [|apply Z.bits_0]. apply Z.bits_above_log2; [done|]. cbn. lia. Qed.

(** The carries of a sum, bit by bit. *)
Lemma sum_bits a b : exists carry, Z.testbit carry 0 = false /\
  (forall n, 0 <= n -> Z.testbit (a + b) n = xorb (xorb (Z.testbit a n) (Z.testbit b n)) (Z.testbit carry n)) /\
  (forall n, 0 <= n -> Z.testbit carry (n + 1) =
     (Z.testbit a n && Z.testbit b n) || (Z.testbit carry n && (Z.testbit a n || Z.testbit b n))).
Proof.
  destruct (Z.add_carry_bits a b false) as (c & Hsum & Hc & H0). exists c. cbn [Z.b2z] in *. rewrite Z.add_0_r in Hsum. split; [done|]. split.
  - intros n Hn. by rewrite Hsum, !Z.lxor_spec.
  - intros n Hn. rewrite Z.add_1_r, <- Z.div2_bits by done. rewrite Hc. by rewrite !Z.lor_spec, !Z.land_spec, Z.lor_spec.
Qed.

Section Escapes.
Context (x : Z) (e0 : bool).
Hypothesis Hx : 0 <= x < 2 ^ 64.
Abbreviation bit := (fun i => Z.testbit x (Z.of_nat i)).
Abbreviation esc := (esc_at bit e0).
(** The active backslashes, and the bytes after them. *)
Abbreviation active := (Z.ldiff x (Z.b2z e0)).
Abbreviation follows := (Z.lor (w64 (Z.shiftl active 1)) (Z.b2z e0)).

Lemma active_bit n : 0 <= n -> Z.testbit active n = Z.testbit x n && negb ((n =? 0) && e0).
Proof using. intros Hn. by rewrite Z.ldiff_spec, bit_zero. Qed.

Lemma follows_0 : Z.testbit follows 0 = e0.
Proof using. rewrite Z.lor_spec, shiftl_bit by lia. by rewrite bit_zero. Qed.

Lemma follows_S n : 0 <= n < 63 -> Z.testbit follows (n + 1) = Z.testbit active n.
Proof using.
  intros Hn. rewrite Z.lor_spec, shiftl_bit, bit_zero by lia. rewrite (proj2 (Z.eqb_neq (n + 1) 0)) by lia. rewrite orb_false_r.
  rewrite (proj2 (Z.leb_le 1 (n + 1))) by lia. cbn [andb]. f_equal. lia.
Qed.

Lemma active_range : 0 <= active < 2 ^ 64.
Proof using Hx.
  split; [apply Z.ldiff_nonneg; lia|]. apply pow2_bits; [apply Z.ldiff_nonneg; lia|lia|]. intros n Hn.
  rewrite active_bit by lia. by rewrite (proj1 (pow2_bits x 64 ltac:(lia) ltac:(lia)) ltac:(lia)).
Qed.

Lemma b2z_word : 0 <= Z.b2z e0 < 2 ^ 64.
Proof using. destruct e0; cbn; lia. Qed.

Lemma follows_range : 0 <= follows < 2 ^ 64.
Proof using. apply lor_word; [apply w64_range|apply b2z_word]. Qed.

(** Isolated backslashes: each escapes the next byte. *)
Lemma isolated i : Z.land active follows = 0 -> (i < 64)%nat -> Z.testbit follows (Z.of_nat i) = esc i /\ Z.testbit active (Z.of_nat i) = bit i && negb (esc i).
Proof using.
  intros Hd. assert (Hdis : forall n, Z.testbit active n && Z.testbit follows n = false) by (intros n; by rewrite <- Z.land_spec, Hd, Z.bits_0).
  induction i as [|i IH]; intros Hi.
  - split; [apply follows_0|]. by rewrite active_bit by done.
  - destruct IH as [_ IH]; [lia|]. assert (Hf : Z.testbit follows (Z.of_nat (S i)) = esc (S i)).
    { replace (Z.of_nat (S i)) with (Z.of_nat i + 1) by lia. rewrite follows_S by lia. by rewrite IH. }
    split; [done|]. rewrite <- Hf. specialize (Hdis (Z.of_nat (S i))). rewrite active_bit in * by lia.
    rewrite (proj2 (Z.eqb_neq (Z.of_nat (S i)) 0)) in * by lia. cbn [andb negb] in *. rewrite andb_true_r in *.
    destruct (Z.testbit x (Z.of_nat (S i))), (Z.testbit follows (Z.of_nat (S i))); done.
Qed.

(** The active backslash before a byte. *)
Definition prev (i : nat) : bool := match i with O => e0 | S i => Z.testbit active (Z.of_nat i) end.

Lemma follows_prev i : (i < 64)%nat -> Z.testbit follows (Z.of_nat i) = prev i.
Proof using.
  intros Hi. destruct i as [|i]; [apply follows_0|]. cbn [prev]. replace (Z.of_nat (S i)) with (Z.of_nat i + 1) by lia. apply follows_S. lia.
Qed.

(** The sum of a run and its start carries through the run when the start is odd:
    the carry into a byte tells the parity of the run before it. *)
Abbreviation starts := (Z.land active (not64 (Z.lor stage1EvenBits follows))).

Lemma starts_bit i : (i < 64)%nat -> Z.testbit starts (Z.of_nat i) = Z.testbit active (Z.of_nat i) && Nat.odd i && negb (prev i).
Proof using.
  intros Hi. rewrite Z.land_spec, not64_testbit by lia. rewrite Z.lor_spec, even_bit, follows_prev by lia.
  rewrite negb_orb, andb_assoc. by rewrite Z.negb_even, odd_nat.
Qed.

Lemma dense_carry carry : Z.testbit carry 0 = false ->
  (forall n, 0 <= n -> Z.testbit carry (n + 1) =
    (Z.testbit starts n && Z.testbit active n) || (Z.testbit carry n && (Z.testbit starts n || Z.testbit active n))) ->
  forall i, (i <= 64)%nat -> (prev i = false -> esc i = false /\ Z.testbit carry (Z.of_nat i) = false) /\
  (prev i = true -> (0 < i)%nat -> esc i = xorb (Z.testbit carry (Z.of_nat i)) (Nat.odd i)).
Proof using.
  intros H0 Hc. induction i as [|i IH]; intros Hi; [split; [done|lia]|]. destruct IH as [IH0 IH1]; [lia|].
  replace (Z.of_nat (S i)) with (Z.of_nat i + 1) by lia. rewrite Hc, starts_bit by lia. cbn [prev esc_at]. rewrite Nat.odd_succ, <- Nat.negb_odd.
  assert (Ha := active_bit (Z.of_nat i) ltac:(lia)). destruct (Z.testbit active (Z.of_nat i)); cbn [andb orb].
  - symmetry in Ha. apply andb_true_iff in Ha as [Hb He]. rewrite Hb. split; [done|]. intros _ _. cbn [andb].
    destruct (prev i) eqn:Ep; cbn [negb].
    + destruct i as [|i]; [cbn in Ep; rewrite Ep in He; done|]. rewrite IH1 by (done || lia). rewrite andb_false_r. by destruct (Z.testbit carry (Z.of_nat (S i))), (Nat.odd (S i)).
    + destruct IH0 as [-> ->]; [done|]. by destruct (Nat.odd i).
  - split; [|done]. intros _. rewrite andb_false_r. split; [|done]. symmetry in Ha. apply andb_false_iff in Ha as [->|Ha]; [done|].
    apply negb_false_iff, andb_true_iff in Ha as [Hi0 He]. apply Z.eqb_eq in Hi0. assert (i = 0%nat) as -> by lia. cbn [esc_at]. rewrite He. apply andb_false_r.
Qed.

Lemma starts_range : 0 <= starts < 2 ^ 64.
Proof using Hx.
  pose proof active_range. split; [apply Z.land_nonneg; lia|]. apply pow2_bits; [apply Z.land_nonneg; lia|lia|]. intros n Hn.
  rewrite Z.land_spec. by rewrite (proj1 (pow2_bits active 64 ltac:(lia) ltac:(lia)) ltac:(lia)).
Qed.

Lemma dense_bits i : (i < 64)%nat ->
  Z.testbit (Z.land (Z.lxor stage1EvenBits (w64 (Z.shiftl (w64 (starts + active)) 1))) follows) (Z.of_nat i) = esc i.
Proof using.
  intros Hi. rewrite Z.land_spec, Z.lxor_spec, even_bit, follows_prev, shiftl_bit by lia.
  destruct (sum_bits starts active) as (carry & H0 & Hsum & Hc). destruct (dense_carry carry H0 Hc i ltac:(lia)) as [D0 D1].
  destruct (prev i) eqn:Ep; [|by destruct D0 as [-> _]; rewrite ?andb_false_r]. rewrite andb_true_r. destruct i as [|i]; [exact (eq_sym Ep)|].
  rewrite D1 by (done || lia). destruct (dense_carry carry H0 Hc i ltac:(lia)) as [E0 _].
  replace (Z.of_nat (S i) - 1) with (Z.of_nat i) by lia. rewrite w64_bit, Hsum by lia. cbn [prev] in Ep. rewrite (proj2 (Z.leb_le 1 (Z.of_nat (S i)))) by lia.
  rewrite <- Z.negb_odd, odd_nat.
  replace (Z.of_nat (S i)) with (Z.of_nat i + 1) by lia. rewrite Hc by lia. rewrite Ep. pose proof (starts_bit i ltac:(lia)) as Hs. rewrite Ep in Hs.
  destruct (Z.testbit starts (Z.of_nat i)); [|by destruct (Z.testbit carry (Z.of_nat i)), (Nat.odd (S i))].
  destruct (prev i); [by rewrite andb_false_r in Hs|]. destruct E0 as [_ ->]; [done|]. by destruct (Nat.odd (S i)).
Qed.

Lemma dense_overflow : (starts + active) / 2 ^ 64 = Z.b2z (esc 64).
Proof using Hx.
  pose proof starts_range as Hs. pose proof active_range as Ha. destruct (sum_bits starts active) as (carry & H0 & Hsum & Hc).
  destruct (dense_carry carry H0 Hc 64 ltac:(lia)) as [D0 D1].
  assert (E : Z.testbit (starts + active) 64 = esc 64).
  { rewrite Hsum by lia. rewrite (proj1 (pow2_bits starts 64 ltac:(lia) ltac:(lia)) ltac:(lia)) by lia.
    rewrite (proj1 (pow2_bits active 64 ltac:(lia) ltac:(lia)) ltac:(lia)) by lia. change 64 with (Z.of_nat 64). destruct (prev 64).
    - rewrite D1 by (done || lia). destruct (Z.testbit carry (Z.of_nat 64)); reflexivity.
    - by destruct D0 as [-> ->]. }
  rewrite <- E. rewrite Z.testbit_spec' by lia. symmetry. apply Z.mod_small. split; [apply Z.div_pos|apply Z.div_lt_upper_bound]; lia.
Qed.
End Escapes.

(** [Stage1Escaped] resolves the runs of a block, whichever of its paths runs. *)
Lemma Stage1Escaped_spec x e0 s : 0 <= x < 2 ^ 64 ->
  let '(m, c) := Stage1Escaped x (mkCarry (Z.b2z e0) s) in
  0 <= m < 2 ^ 64 /\ (forall i, (i < 64)%nat -> Z.testbit m (Z.of_nat i) = esc_at (fun i => Z.testbit x (Z.of_nat i)) e0 i) /\
  c = mkCarry (Z.b2z (esc_at (fun i => Z.testbit x (Z.of_nat i)) e0 64)) s.
Proof.
  intros Hx. unfold Stage1Escaped. cbn [Escaped InString]. destruct (Z.eqb_spec x 0) as [->|Hne].
  - assert (He : forall i, esc_at (fun i => Z.testbit 0 (Z.of_nat i)) e0 (S i) = false) by (intros i; cbn [esc_at]; by rewrite Z.bits_0).
    split_and!; [apply b2z_word..| |by rewrite He]. intros i Hi. rewrite bit_zero by lia. destruct i as [|i]; [done|]. by rewrite He.
  - cbv zeta. destruct (Z.eqb_spec (Z.land (Z.ldiff x (Z.b2z e0)) (Z.lor (w64 (Z.shiftl (Z.ldiff x (Z.b2z e0)) 1)) (Z.b2z e0))) 0) as [Hd|Hd].
    + split_and!; [apply follows_range..| |].
      * intros i Hi. by destruct (isolated x e0 i Hd Hi).
      * f_equal. destruct (isolated x e0 63 Hd ltac:(lia)) as [_ Hl].
        assert (E : esc_at (fun i => Z.testbit x (Z.of_nat i)) e0 64 = Z.testbit (Z.ldiff x (Z.b2z e0)) 63) by (symmetry; exact Hl).
        pose proof (active_range x e0 Hx). rewrite E, Z.shiftr_div_pow2, Z.testbit_spec' by lia. symmetry. apply Z.mod_small.
        split; [apply Z.div_pos|apply Z.div_lt_upper_bound]; lia.
    + split_and!; [..|by rewrite dense_overflow].
      * apply Z.land_nonneg. right. apply follows_range.
      * pose proof (follows_range x e0). apply pow2_bits; [apply Z.land_nonneg; lia|lia|]. intros n Hn. rewrite Z.land_spec.
        rewrite (proj1 (pow2_bits (Z.lor (w64 (Z.shiftl (Z.ldiff x (Z.b2z e0)) 1)) (Z.b2z e0)) 64 ltac:(lia) ltac:(lia)) ltac:(lia)) by lia. apply andb_false_r.
      * intros i Hi. by apply dense_bits.
Qed.

(** ** String state *)

(** Whether a stream is inside a string before its byte [i]. *)
Fixpoint str_at (quote : nat -> bool) (s0 : bool) (i : nat) : bool :=
  match i with O => s0 | S i => xorb (str_at quote s0 i) (quote i) end.

Definition all_ones (b : bool) : Z := if b then 2 ^ 64 - 1 else 0.

Lemma all_ones_bit b n : 0 <= n < 64 -> Z.testbit (all_ones b) n = b.
Proof. intros Hn. destruct b; cbn [all_ones]; [|apply Z.bits_0]. change (2 ^ 64 - 1) with (Z.ones 64). by apply Z.ones_spec_low. Qed.

(** The parity of the [w] bits up to bit [i]. *)
Fixpoint parity (quote : nat -> bool) (w i : nat) : bool :=
  match w with O => false | S w => xorb (parity quote w i) (if (w <=? i)%nat then quote (i - w)%nat else false) end.

Lemma parity_add quote v w i : parity quote (v + w) i = xorb (parity quote w i) (if (w <=? i)%nat then parity quote v (i - w) else false).
Proof.
  induction v as [|v IH]; cbn [parity Nat.add]; [destruct (w <=? i)%nat; by rewrite xorb_false_r|]. rewrite IH, xorb_assoc. f_equal.
  destruct (Nat.leb_spec w i) as [Hw|Hw].
  - f_equal. destruct (Nat.leb_spec v (i - w)), (Nat.leb_spec (v + w) i); try lia; f_equal; lia.
  - by rewrite (proj2 (Nat.leb_gt (v + w) i)) by lia.
Qed.

Lemma parity_all quote i : parity quote (S i) i = str_at quote false (S i).
Proof.
  assert (H : forall w j, (w <= S j)%nat -> xorb (str_at quote false (S j - w)) (parity quote w j) = str_at quote false (S j)).
  { induction w as [|w IH]; intros j Hw; [rewrite Nat.sub_0_r; cbn [parity]; by rewrite xorb_false_r|].
    rewrite <- (IH j) by lia. cbn [parity]. rewrite (proj2 (Nat.leb_le w j)) by lia. replace (S j - w)%nat with (S (j - w)) by lia. cbn [str_at].
    replace (S j - S w)%nat with (j - w)%nat by lia. destruct (str_at quote false (j - w)), (parity quote w j), (quote (j - w)%nat); done. }
  rewrite <- (H (S i) i) by lia. rewrite Nat.sub_diag. cbn [str_at]. by rewrite xorb_false_l.
Qed.

Lemma parity_wide quote w i : (S i <= w)%nat -> parity quote w i = parity quote (S i) i.
Proof.
  induction w as [|w IH]; intros Hw; [lia|]. destruct (decide (w = i)) as [->|]; [done|]. cbn [parity]. rewrite (proj2 (Nat.leb_gt w i)) by lia. rewrite xorb_false_r. apply IH. lia.
Qed.

Lemma str_at_start quote s0 i : str_at quote s0 i = xorb s0 (str_at quote false i).
Proof. induction i as [|i IH]; cbn [str_at]; [by rewrite xorb_false_r|]. by rewrite IH, xorb_assoc. Qed.

Lemma fold_parity quote m w : (forall i, (i < 64)%nat -> Z.testbit m (Z.of_nat i) = parity quote w i) ->
  forall i, (i < 64)%nat -> Z.testbit (Z.lxor m (w64 (Z.shiftl m (Z.of_nat w)))) (Z.of_nat i) = parity quote (w + w) i.
Proof.
  intros H i Hi. rewrite Z.lxor_spec, shiftl_bit, parity_add, H by lia. f_equal.
  destruct (Nat.leb_spec w i); [rewrite (proj2 (Z.leb_le _ _)) by lia|by rewrite (proj2 (Z.leb_gt _ _)) by lia]. cbn [andb]. rewrite <- H by lia. f_equal. lia.
Qed.

Lemma lxor_word a b : 0 <= a < 2 ^ 64 -> 0 <= b < 2 ^ 64 -> 0 <= Z.lxor a b < 2 ^ 64.
Proof.
  intros Ha Hb. assert (0 <= Z.lxor a b) by (apply Z.lxor_nonneg; lia). split; [done|]. apply pow2_bits; [done|lia|]. intros n Hn.
  rewrite Z.lxor_spec. by rewrite (proj1 (pow2_bits a 64 ltac:(lia) ltac:(lia)) ltac:(lia)), (proj1 (pow2_bits b 64 ltac:(lia) ltac:(lia)) ltac:(lia)) by lia.
Qed.

(** [Stage1PrefixXOR] marks the bytes inside strings, an opening quote with them. *)
Lemma Stage1PrefixXOR_spec x e s0 : 0 <= x < 2 ^ 64 ->
  let quote i := Z.testbit x (Z.of_nat i) in
  let '(m, c) := Stage1PrefixXOR x (mkCarry e (all_ones s0)) in
  0 <= m < 2 ^ 64 /\ (forall i, (i < 64)%nat -> Z.testbit m (Z.of_nat i) = str_at quote s0 (S i)) /\
  c = mkCarry e (all_ones (str_at quote s0 64)).
Proof.
  intros Hx quote. unfold Stage1PrefixXOR. cbn [InString Escaped].
  assert (Hones : 0 <= all_ones s0 < 2 ^ 64) by (destruct s0; cbn; lia).
  destruct (Z.eqb_spec x 0) as [->|Hne].
  - assert (Hq : forall i, str_at quote s0 i = s0) by (induction i as [|i IH]; cbn [str_at]; [done|]; rewrite IH; unfold quote; rewrite Z.bits_0; apply xorb_false_r).
    split_and!; [lia..| |by rewrite Hq]. intros i Hi. rewrite Hq. by apply all_ones_bit; lia.
  - cbv zeta. set (f := fun m k => Z.lxor m (w64 (Z.shiftl m k))).
    assert (Hf : forall m k, 0 <= m < 2 ^ 64 -> 0 <= f m k < 2 ^ 64) by (intros; apply lxor_word; [done|apply w64_range]).
    set (m := f (f (f (f (f (f x 1) 2) 4) 8) 16) 32).
    assert (Hm : forall i, (i < 64)%nat -> Z.testbit m (Z.of_nat i) = str_at quote false (S i)).
    { intros i Hi. rewrite <- parity_all, <- (parity_wide quote 64) by lia.
      revert i Hi. apply (fold_parity quote _ 32), (fold_parity quote _ 16), (fold_parity quote _ 8), (fold_parity quote _ 4), (fold_parity quote _ 2), (fold_parity quote _ 1).
      intros i Hi. cbn [parity]. rewrite xorb_false_l. cbn [Nat.leb]. by rewrite Nat.sub_0_r. }
    assert (Hr : 0 <= Z.lxor m (all_ones s0) < 2 ^ 64) by (apply lxor_word; [unfold m; by repeat apply Hf|done]).
    assert (Hb : forall i, (i < 64)%nat -> Z.testbit (Z.lxor m (all_ones s0)) (Z.of_nat i) = str_at quote s0 (S i)).
    { intros i Hi. rewrite Z.lxor_spec, Hm, all_ones_bit by lia. rewrite (str_at_start quote s0). apply xorb_comm. }
    split_and!; [apply Hr..|exact Hb|]. f_equal. rewrite <- (Hb 63%nat) by lia.
    assert (Htop : Z.testbit (Z.lxor m (all_ones s0)) 63 = (2 ^ 63 <=? Z.lxor m (all_ones s0))).
    { set (z := Z.lxor m (all_ones s0)) in *. clearbody z. rewrite Z.testbit_eqb by lia.
      rewrite Z.mod_small by (split; [apply Z.div_pos|apply Z.div_lt_upper_bound]; lia). destruct (Z.leb_spec (2 ^ 63) z); div_lia. }
    change (Z.of_nat 63) with 63. rewrite Htop. by destruct (2 ^ 63 <=? _).
Qed.
