(* ===== verification/Lex.v ===== *)
(** Lexical helpers of [parser.go]: digits, hexadecimal escapes and the UTF-8
    bytes appended for a decoded escape. *)

From S2P Require Import Prelude Words Utf8.

Definition IsDigit (c : Z) : bool := ("0"%ch <=? c) && (c <=? "9"%ch).
Definition isOneNine (c : Z) : bool := ("1"%ch <=? c) && (c <=? "9"%ch).

(** The table: a digit's value, or 0xff. *)
Definition hexNibbleTable (c : Z) : Z :=
  if ("0"%ch <=? c) && (c <=? "9"%ch) then c - "0"%ch
  else if ("a"%ch <=? c) && (c <=? "f"%ch) then c - "a"%ch + 10
  else if ("A"%ch <=? c) && (c <=? "F"%ch) then c - "A"%ch + 10
  else 0xff.

(** The uint16 assembled from four nibbles, and whether all four were digits. *)
Definition hex_combine (a b c d : Z) : Z * bool :=
  (Z.lor (Z.lor (Z.lor (Z.shiftl a 12 mod 2 ^ 16) (Z.shiftl b 8 mod 2 ^ 16))
                (Z.shiftl c 4 mod 2 ^ 16)) d,
   Z.lor (Z.lor (Z.lor a b) c) d <? 0x10).

Definition hex4 (src : bytes) (i : nat) : Z * bool :=
  if (length src <? i + 4)%nat then (0, false)
  else
    match src !! i, src !! (i + 1)%nat, src !! (i + 2)%nat, src !! (i + 3)%nat with
    | Some a, Some b, Some c, Some d =>
        hex_combine (hexNibbleTable a) (hexNibbleTable b) (hexNibbleTable c) (hexNibbleTable d)
    | _, _, _, _ => (0, false)
    end.

(** [byte(x)] of a rune expression. *)
Definition to_byte (x : Z) : Z := x mod 256.

Definition appendEscapedRune (dst : bytes) (r : Z) : bytes :=
  if r <=? 0x7f then dst ++ [to_byte r]
  else if r <=? 0x7ff then
    dst ++ [Z.lor 0xc0 (to_byte (Z.shiftr r 6)); Z.lor 0x80 (Z.land (to_byte r) 0x3f)]
  else if r <=? 0xffff then
    dst ++ [Z.lor 0xe0 (to_byte (Z.shiftr r 12)); Z.lor 0x80 (Z.land (to_byte (Z.shiftr r 6)) 0x3f);
            Z.lor 0x80 (Z.land (to_byte r) 0x3f)]
  else
    dst ++ [Z.lor 0xf0 (to_byte (Z.shiftr r 18)); Z.lor 0x80 (Z.land (to_byte (Z.shiftr r 12)) 0x3f);
            Z.lor 0x80 (Z.land (to_byte (Z.shiftr r 6)) 0x3f); Z.lor 0x80 (Z.land (to_byte r) 0x3f)].

(** ** Specifications *)

Definition is_hex (c : Z) : bool := hexNibbleTable c <? 16.

Definition hex_value (a b c d : Z) : Z :=
  4096 * hexNibbleTable a + 256 * hexNibbleTable b + 16 * hexNibbleTable c + hexNibbleTable d.

Lemma hexNibble_range c : 0 <= hexNibbleTable c < 16 \/ hexNibbleTable c = 255.
Proof. unfold hexNibbleTable. repeat case_step; lia. Qed.

Lemma hex_value_range a b c d :
  is_hex a && is_hex b && is_hex c && is_hex d = true -> 0 <= hex_value a b c d < 65536.
Proof.
  unfold is_hex, hex_value. intros.
  pose proof (hexNibble_range a). pose proof (hexNibble_range b).
  pose proof (hexNibble_range c). pose proof (hexNibble_range d). lia.
Qed.

Lemma hex_combine_ok a b c d :
  (hex_combine (hexNibbleTable a) (hexNibbleTable b) (hexNibbleTable c) (hexNibbleTable d)).2
  = is_hex a && is_hex b && is_hex c && is_hex d.
Proof.
  unfold hex_combine, is_hex. simpl. apply eq_true_iff_eq.
  pose proof (hexNibble_range a). pose proof (hexNibble_range b).
  pose proof (hexNibble_range c). pose proof (hexNibble_range d).
  rewrite Z.ltb_lt. change 16 with (2 ^ 4).
  rewrite !lor_lt_pow2 by (repeat (apply Z.lor_nonneg; split); lia). lia.
Qed.

Lemma hex_combine_value a b c d :
  is_hex a && is_hex b && is_hex c && is_hex d = true ->
  (hex_combine (hexNibbleTable a) (hexNibbleTable b) (hexNibbleTable c) (hexNibbleTable d)).1
  = hex_value a b c d.
Proof.
  unfold is_hex, hex_value, hex_combine. simpl. intros H.
  pose proof (hexNibble_range a). pose proof (hexNibble_range b).
  pose proof (hexNibble_range c). pose proof (hexNibble_range d).
  generalize dependent (hexNibbleTable a). generalize dependent (hexNibbleTable b).
  generalize dependent (hexNibbleTable c). generalize dependent (hexNibbleTable d).
  intros. rewrite !Z.shiftl_mul_pow2 by lia. rewrite !Z.mod_small by lia.
  rewrite <- !Z.shiftl_mul_pow2 by lia.
  rewrite <- !Z.lor_assoc.
  rewrite (lor_shiftl_add _ 4) by lia. rewrite (lor_shiftl_add _ 8) by lia.
  rewrite (lor_shiftl_add _ 12) by lia. lia.
Qed.

(** [hex4] on a suffix. *)
Definition hex_of (l : bytes) : option Z :=
  match l with
  | a :: b :: c :: d :: _ =>
      if is_hex a && is_hex b && is_hex c && is_hex d then Some (hex_value a b c d) else None
  | _ => None
  end.

Lemma drop_cons_lookup_add {A} (l : list A) i k s c :
  drop i l = s -> s !! k = Some c -> l !! (i + k)%nat = Some c.
Proof. intros <- H. by rewrite lookup_drop in H. Qed.

Lemma hex4_hex_of src i :
  match hex_of (drop i src) with
  | Some u => hex4 src i = (u, true)
  | None => (hex4 src i).2 = false
  end.
Proof.
  unfold hex4, hex_of. destruct (Nat.ltb_spec (length src) (i + 4)) as [Hlt|Hge].
  { pose proof (length_drop src i). destruct (drop i src) as [|? [|? [|? [|? ?]]]]; simpl in *; (done || lia). }
  destruct (drop i src) as [|a [|b [|c [|d t]]]] eqn:E;
    try (apply (f_equal length) in E; rewrite length_drop in E; simpl in E; lia).
  pose proof (drop_cons_lookup_add _ _ 0 _ a E eq_refl) as H0. rewrite Nat.add_0_r in H0.
  rewrite H0. rewrite (drop_cons_lookup_add _ _ 1 _ b E eq_refl).
  rewrite (drop_cons_lookup_add _ _ 2 _ c E eq_refl).
  rewrite (drop_cons_lookup_add _ _ 3 _ d E eq_refl).
  pose proof (hex_combine_ok a b c d) as Hok. pose proof (hex_combine_value a b c d) as Hval.
  destruct (is_hex a && is_hex b && is_hex c && is_hex d) eqn:Hh; [|done].
  destruct (hex_combine _ _ _ _) as [u ok]; simpl in *. by rewrite Hok, Hval.
Qed.

(** The bit-level encoder agrees with the standard UTF-8 encoder. *)
Lemma land_63 x : Z.land x 0x3f = x mod 64.
Proof. change 0x3f with (Z.ones 6). by rewrite Z.land_ones. Qed.

Lemma lor_lead k n b : 0 <= n -> 0 <= b < 2 ^ n -> Z.lor (k * 2 ^ n) b = k * 2 ^ n + b.
Proof. intros. rewrite <- lor_shiftl_add by done. by rewrite Z.shiftl_mul_pow2 by done. Qed.

Lemma lor_0x80 x : 0 <= x < 64 -> Z.lor 0x80 x = 0x80 + x.
Proof. intros. apply (lor_lead 2 6 x); lia. Qed.
Lemma lor_0xc0 x : 0 <= x < 32 -> Z.lor 0xc0 x = 0xc0 + x.
Proof. intros. apply (lor_lead 6 5 x); lia. Qed.
Lemma lor_0xe0 x : 0 <= x < 16 -> Z.lor 0xe0 x = 0xe0 + x.
Proof. intros. apply (lor_lead 14 4 x); lia. Qed.
Lemma lor_0xf0 x : 0 <= x < 8 -> Z.lor 0xf0 x = 0xf0 + x.
Proof. intros. apply (lor_lead 30 3 x); lia. Qed.

Lemma appendEscapedRune_spec dst r :
  0 <= r <= MaxRune -> appendEscapedRune dst r = dst ++ encode_rune r.
Proof.
  unfold MaxRune. intros Hr. unfold appendEscapedRune, encode_rune, to_byte.
  rewrite !Z.shiftr_div_pow2 by lia. rewrite !land_63.
  repeat case_step; f_equal; rewrite ?lor_0x80, ?lor_0xc0, ?lor_0xe0, ?lor_0xf0 by div_lia;
    repeat (apply (f_equal2 cons); [div_lia|]); done.
Qed.
