(* ===== verification/Grammar.v ===== *)
(** The abstract specification: what a strict JSON text is, independently of any
    scanner.  The grammar is RFC 8259 with a nesting budget; a value relates its
    source bytes to an ordered tree that keeps the exact source of every value
    and the decoded content of every string and member name.

    [str_ref] is the reference string reader: one byte at a time, decoding as it
    goes.  The six string scanners of the program are compared with it. *)

From S2P Require Import Prelude Words Utf8 Scanner Lex.

(** ** Whitespace and literals *)

Definition ws (s : bytes) : Prop := Forall (fun c => IsJSONWhitespace c = true) s.

Definition lit_null : bytes := Eval cbv in bs "null".
Definition lit_true : bytes := Eval cbv in bs "true".
Definition lit_false : bytes := Eval cbv in bs "false".

(** ** Numbers *)

Definition digits (s : bytes) : Prop := Forall (fun c => IsDigit c = true) s.

Inductive jint : bytes -> Prop :=
  | jint_zero : jint ["0"%ch]
  | jint_pos c s : isOneNine c = true -> digits s -> jint (c :: s).

Inductive jfrac : bytes -> Prop :=
  | jfrac_none : jfrac []
  | jfrac_some s : digits s -> s <> [] -> jfrac ("."%ch :: s).

Inductive jexp : bytes -> Prop :=
  | jexp_none : jexp []
  | jexp_some e sgn s :
    e = "e"%ch \/ e = "E"%ch -> sgn = [] \/ sgn = ["+"%ch] \/ sgn = ["-"%ch] ->
    digits s -> s <> [] -> jexp (e :: sgn ++ s).

Inductive jnumber : bytes -> Prop :=
  | jnumber_intro sgn int frac exp :
    sgn = [] \/ sgn = ["-"%ch] -> jint int -> jfrac frac -> jexp exp ->
    jnumber (sgn ++ int ++ frac ++ exp).

(** ** String contents *)

Definition is_simple_escape (e : Z) : bool :=
  (e =? DQUOTE) || (e =? BSLASH) || (e =? "/"%ch) || (e =? "b"%ch) ||
  (e =? "f"%ch) || (e =? "n"%ch) || (e =? "r"%ch) || (e =? "t"%ch).

Definition simple_escape_value (e : Z) : Z :=
  if e =? "b"%ch then 8 else if e =? "f"%ch then 12 else if e =? "n"%ch then 10
  else if e =? "r"%ch then 13 else if e =? "t"%ch then 9 else e.

Definition is_high_surrogate (u : Z) : bool := (0xD800 <=? u) && (u <=? 0xDBFF).
Definition is_low_surrogate (u : Z) : bool := (0xDC00 <=? u) && (u <=? 0xDFFF).

(** One character: its spelling and the UTF-8 bytes it stands for. *)
Inductive jchar : bytes -> bytes -> Prop :=
  | jchar_plain c : is_string_special c = false -> jchar [c] [c]
  | jchar_utf8 r : is_scalar r = true -> 128 <= r -> jchar (encode_rune r) (encode_rune r)
  | jchar_simple e : is_simple_escape e = true -> jchar [BSLASH; e] [simple_escape_value e]
  | jchar_unicode a b c d u :
    hex_of [a; b; c; d] = Some u -> is_surrogate u = false ->
    jchar [BSLASH; "u"%ch; a; b; c; d] (encode_rune u)
  | jchar_pair a b c d e f g h u v :
    hex_of [a; b; c; d] = Some u -> is_high_surrogate u = true ->
    hex_of [e; f; g; h] = Some v -> is_low_surrogate v = true ->
    jchar [BSLASH; "u"%ch; a; b; c; d; BSLASH; "u"%ch; e; f; g; h]
          (encode_rune (DecodeSurrogates u v)).

Inductive jchars : bytes -> bytes -> Prop :=
  | jchars_nil : jchars [] []
  | jchars_cons c d s t : jchar c d -> jchars s t -> jchars (c ++ s) (d ++ t).

(** A string token and its decoded content. *)
Inductive jstring : bytes -> bytes -> Prop :=
  | jstring_intro s dec : jchars s dec -> jstring (DQUOTE :: s ++ [DQUOTE]) dec.

(** ** Values *)

Inductive tree : Type :=
  | TNull
  | TBool (b : bool)
  | TNum (raw : bytes)
  | TStr (raw dec : bytes)
  | TArr (raw : bytes) (ts : list tree)
  | TObj (raw : bytes) (ms : list ((bytes * bytes) * tree)).   (* raw name, decoded name *)

Definition raw_of (t : tree) : bytes :=
  match t with
  | TNull => lit_null
  | TBool b => if b then lit_true else lit_false
  | TNum raw => raw
  | TStr raw _ => raw
  | TArr raw _ => raw
  | TObj raw _ => raw
  end.

(** [jvalue k s t]: the bytes [s] are a value with tree [t] whose arrays and
    objects nest at most [k] deep. *)
Inductive jvalue : Z -> bytes -> tree -> Prop :=
  | jv_null k : 0 <= k -> jvalue k lit_null TNull
  | jv_true k : 0 <= k -> jvalue k lit_true (TBool true)
  | jv_false k : 0 <= k -> jvalue k lit_false (TBool false)
  | jv_num k s : 0 <= k -> jnumber s -> jvalue k s (TNum s)
  | jv_str k s dec : 0 <= k -> jstring s dec -> jvalue k s (TStr s dec)
  | jv_arr0 k w : 1 <= k -> ws w ->
    jvalue k ("["%ch :: w ++ ["]"%ch]) (TArr ("["%ch :: w ++ ["]"%ch]) [])
  | jv_arr k s ts : 1 <= k -> jelems (k - 1) s ts ->
    jvalue k ("["%ch :: s ++ ["]"%ch]) (TArr ("["%ch :: s ++ ["]"%ch]) ts)
  | jv_obj0 k w : 1 <= k -> ws w ->
    jvalue k ("{"%ch :: w ++ ["}"%ch]) (TObj ("{"%ch :: w ++ ["}"%ch]) [])
  | jv_obj k s ms : 1 <= k -> jmembers (k - 1) s ms ->
    jvalue k ("{"%ch :: s ++ ["}"%ch]) (TObj ("{"%ch :: s ++ ["}"%ch]) ms)
with jelems : Z -> bytes -> list tree -> Prop :=
  | je_one k w1 s t w2 : ws w1 -> jvalue k s t -> ws w2 -> jelems k (w1 ++ s ++ w2) [t]
  | je_cons k w1 s t w2 rest ts : ws w1 -> jvalue k s t -> ws w2 -> jelems k rest ts ->
    jelems k (w1 ++ s ++ w2 ++ ","%ch :: rest) (t :: ts)
with jmembers : Z -> bytes -> list ((bytes * bytes) * tree) -> Prop :=
  | jm_one k w1 key name w2 w3 s t w4 :
    ws w1 -> jstring key name -> ws w2 -> ws w3 -> jvalue k s t -> ws w4 ->
    jmembers k (w1 ++ key ++ w2 ++ ":"%ch :: w3 ++ s ++ w4) [((key, name), t)]
  | jm_cons k w1 key name w2 w3 s t w4 rest ms :
    ws w1 -> jstring key name -> ws w2 -> ws w3 -> jvalue k s t -> ws w4 -> jmembers k rest ms ->
    jmembers k (w1 ++ key ++ w2 ++ ":"%ch :: w3 ++ s ++ w4 ++ ","%ch :: rest) (((key, name), t) :: ms).

Scheme jvalue_mut := Induction for jvalue Sort Prop
with jelems_mut := Induction for jelems Sort Prop
with jmembers_mut := Induction for jmembers Sort Prop.
Combined Scheme jvalue_mutind from jvalue_mut, jelems_mut, jmembers_mut.

(** A document: one value between optional whitespace. *)
Definition jdoc (k : Z) (src : bytes) (t : tree) : Prop :=
  exists w1 s w2, src = w1 ++ s ++ w2 /\ ws w1 /\ jvalue k s t /\ ws w2.

Lemma jvalue_raw k s t : jvalue k s t -> raw_of t = s.
Proof. by destruct 1. Qed.

Lemma ws_app s t : ws s -> ws t -> ws (s ++ t).
Proof. intros. by apply Forall_app. Qed.

(** Leading whitespace belongs to the first element. *)
Lemma jelems_ws k w s ts : ws w -> jelems k s ts -> jelems k (w ++ s) ts.
Proof.
  intros Hw H. destruct H; rewrite app_assoc; constructor; auto using ws_app.
Qed.
Lemma jmembers_ws k w s ms : ws w -> jmembers k s ms -> jmembers k (w ++ s) ms.
Proof.
  intros Hw H. destruct H; rewrite app_assoc; constructor; auto using ws_app.
Qed.

(** ** The reference string reader *)

Inductive esc_result : Type :=
  | EscOk (len : nat) (dec : bytes)
  | EscErr (msg : string).

(** The escape whose introducing backslash has been consumed: how many bytes it
    takes, and what it stands for. *)
Definition esc_ref (l : bytes) : esc_result :=
  match l with
  | [] => EscErr "unterminated escape sequence"
  | e :: l' =>
      if is_simple_escape e then EscOk 1 [simple_escape_value e]
      else if e =? "u"%ch then
        match hex_of l' with
        | None => EscErr "invalid unicode escape"
        | Some u =>
            if is_high_surrogate u then
              match drop 4 l' with
              | b :: x :: l'' =>
                  if (b =? BSLASH) && (x =? "u"%ch) && (4 <=? length l'')%nat then
                    match hex_of l'' with
                    | Some v => if is_low_surrogate v then EscOk 11 (encode_rune (DecodeSurrogates u v))
                                else EscErr "invalid low surrogate"
                    | None => EscErr "invalid low surrogate"
                    end
                  else EscErr "missing low surrogate"
              | _ => EscErr "missing low surrogate"
              end
            else if is_low_surrogate u then EscErr "unexpected low surrogate"
            else EscOk 5 (encode_rune u)
        end
      else EscErr "invalid escape sequence"
  end.

(** [str_ref l skip i out]: read the string content [l], which starts at
    position [i], after ignoring [skip] bytes.  The result is the position after
    the closing quote and the decoded content, or the error position and
    message. *)
Fixpoint str_ref (l : bytes) (skip i : nat) (out : bytes) : res (nat * string) (nat * bytes) :=
  match l with
  | [] => Err (i, "unterminated string"%string)
  | c :: l' =>
      match skip with
      | S k => str_ref l' k (S i) out
      | O =>
          if c =? DQUOTE then Ok (S i, out)
          else if c =? BSLASH then
            match l' with
            | [] => Err (S i, "unterminated escape sequence"%string)
            | _ =>
                match esc_ref l' with
                | EscOk n dec => str_ref l' n (S i) (out ++ dec)
                | EscErr msg => Err (i, msg)
                end
            end
          else if c <? 32 then Err (i, "unescaped control byte in string"%string)
          else if c <? 128 then str_ref l' 0 (S i) (out ++ [c])
          else if decode_bad (DecodeRune l) then Err (i, "invalid UTF-8 in string"%string)
          else str_ref l' ((DecodeRune l).2 - 1) (S i) (out ++ take (DecodeRune l).2 l)
      end
  end.
