(* ===== verification/StringRef.v ===== *)
(** The reference string reader accepts exactly the string grammar. *)

From S2P Require Import Prelude Words Utf8 Scanner Lex Grammar.

Lemma hex_of_some l u :
  hex_of l = Some u ->
  exists a b c d t, l = a :: b :: c :: d :: t /\ hex_of [a; b; c; d] = Some u /\ 0 <= u < 65536.
Proof.
  destruct l as [|a [|b [|c [|d t]]]]; simpl; try done. case_step; [|done].
  intros. simplify_eq. exists a, b, c, d, t. rewrite Heqb0.
  split; [done|]. split; [done|]. by apply hex_value_range.
Qed.

Lemma hex_of_app a b c d t u : hex_of [a; b; c; d] = Some u -> hex_of (a :: b :: c :: d :: t) = Some u.
Proof. done. Qed.

Lemma surrogate_split u : is_surrogate u = is_high_surrogate u || is_low_surrogate u.
Proof. unfold is_surrogate, is_high_surrogate, is_low_surrogate. lia. Qed.

Lemma simple_not_u e : is_simple_escape e = true -> e <> "u"%ch.
Proof. unfold is_simple_escape. lia. Qed.

(** ** Escapes *)

Lemma esc_ref_sound l n dec :
  esc_ref l = EscOk n dec ->
  exists s t, l = s ++ t /\ length s = n /\ (1 <= n)%nat /\ jchar (BSLASH :: s) dec.
Proof.
  unfold esc_ref. destruct l as [|e l]; [done|]. destruct (is_simple_escape e) eqn:Hs.
  { intros. simplify_eq. exists [e], l. split_and!; [done|done|lia|by constructor]. }
  destruct (Z.eqb_spec e "u"%ch) as [->|]; [|done].
  destruct (hex_of l) as [u|] eqn:Hu; [|done].
  apply hex_of_some in Hu as (a & b & c & d & t & -> & Hu & Hr). cbn [drop]. rewrite drop_0.
  destruct (is_high_surrogate u) eqn:Hh.
  - destruct t as [|b1 [|x t]]; [done..|].
    destruct ((b1 =? BSLASH) && (x =? "u"%ch) && (4 <=? length t)%nat) eqn:Hc;
      [|done].
    apply andb_true_iff in Hc as [[->%Z.eqb_eq ->%Z.eqb_eq]%andb_true_iff Hlen].
    destruct (hex_of t) as [v|] eqn:Hv; [|done]. destruct (is_low_surrogate v) eqn:Hl; [|done].
    apply hex_of_some in Hv as (e & f & g & h & t' & -> & Hv & _). intros. simplify_eq.
    exists ["u"%ch; a; b; c; d; BSLASH; "u"%ch; e; f; g; h], t'.
    split_and!; [done|done|lia|]. by apply jchar_pair.
  - destruct (is_low_surrogate u) eqn:Hl; [done|]. intros. simplify_eq.
    exists ["u"%ch; a; b; c; d], t. split_and!; [done|done|lia|]. apply jchar_unicode; [done|].
    by rewrite surrogate_split, Hh, Hl.
Qed.

Lemma esc_ref_complete s t dec :
  jchar (BSLASH :: s) dec -> esc_ref (s ++ t) = EscOk (length s) dec.
Proof.
  intros H. inversion H as [c Hc|r Hr Hhi Heq|e He|a b c d u Hu Hs|a b c d e f g h u v Hu Hh Hv Hl]; subst.
  - done.
  - pose proof (encode_rune_high r Hr Hhi) as Hf. rewrite Heq in Hf.
    inversion Hf as [|x y Hx Hy]; subst. lia.
  - simpl. by rewrite He.
  - rewrite surrogate_split, orb_false_iff in Hs. destruct Hs as [Hh Hl].
    cbn [app esc_ref]. rewrite (hex_of_app _ _ _ _ _ _ Hu). by rewrite Hh, Hl.
  - cbn [app esc_ref]. rewrite (hex_of_app a b c d _ u Hu), Hh.
    cbn [drop]. rewrite (hex_of_app e f g h t v Hv), Hl. done.
Qed.

(** ** Skipping *)

Lemma str_ref_skip l n i out :
  (n <= length l)%nat -> str_ref l n i out = str_ref (drop n l) 0 (i + n) out.
Proof.
  revert n i. induction l as [|c l IH]; intros n i Hn.
  - simpl in Hn. replace n with 0%nat by lia. simpl. by rewrite Nat.add_0_r.
  - destruct n as [|n]; [by rewrite drop_0, Nat.add_0_r|].
    cbn [str_ref drop]. simpl in Hn. rewrite IH by lia. by replace (S i + n)%nat with (i + S n)%nat by lia.
Qed.

Lemma special_split c :
  is_string_special c = (c =? DQUOTE) || (c =? BSLASH) || (c <? 32) || (128 <=? c).
Proof. done. Qed.

Lemma str_ref_escape s dec t i out :
  s <> [] -> jchar (BSLASH :: s) dec ->
  str_ref (BSLASH :: s ++ t) 0 i out = str_ref t 0 (i + S (length s)) (out ++ dec).
Proof.
  intros Hs H. cbn [str_ref]. change (BSLASH =? DQUOTE) with false. cbn [Z.eqb Pos.eqb].
  rewrite (esc_ref_complete _ t _ H). destruct s as [|x s]; [done|]. cbn [app].
  change (x :: s ++ t) with ((x :: s) ++ t).
  rewrite str_ref_skip by (rewrite length_app; lia). rewrite drop_app_length.
  by replace (S i + length (x :: s))%nat with (i + S (length (x :: s)))%nat by lia.
Qed.

(** One character of the grammar is one step of the reader. *)
Lemma str_ref_jchar s dec t i out :
  jchar s dec -> str_ref (s ++ t) 0 i out = str_ref t 0 (i + length s) (out ++ dec).
Proof.
  intros H. pose proof H as H'.
  destruct H' as [c Hc|r Hr Hhi|e He|a b c d u Hu Hs|a b c d e f g h u v Hu Hh Hv Hl];
    try (apply (str_ref_escape _ _ t i out); [discriminate|done]).
  - unfold is_string_special in Hc. cbn [app str_ref length].
    do 3 rewrite if_false by lia. rewrite if_true by lia. by rewrite Nat.add_1_r.
  - pose proof (DecodeRune_encode r t Hr) as Hd. pose proof (decode_bad_encode r Hr) as Hb.
    pose proof (encode_rune_high r Hr Hhi) as Hf. pose proof (encode_rune_length r) as Hlen.
    destruct (encode_rune r) as [|c s] eqn:E; [simpl in Hlen; lia|]. cbn [app] in *. cbn [str_ref].
    inversion Hf as [|x y Hx Hy]; subst. do 4 rewrite if_false by lia.
    rewrite Hd, Hb. cbn [snd length]. rewrite Nat.sub_succ, Nat.sub_0_r.
    rewrite str_ref_skip by (rewrite length_app; lia). rewrite drop_app_length.
    cbn [take]. rewrite take_app_length. by replace (S i + length s)%nat with (i + S (length s))%nat by lia.
Qed.

Lemma str_ref_jchars s dec t i out :
  jchars s dec -> str_ref (s ++ t) 0 i out = str_ref t 0 (i + length s) (out ++ dec).
Proof.
  intros H. revert i out. induction H as [|c d s dec Hc Hs IH]; intros i out; simpl.
  - by rewrite Nat.add_0_r, app_nil_r.
  - rewrite <- app_assoc. rewrite (str_ref_jchar _ _ _ _ _ Hc), IH, length_app, app_assoc.
    by rewrite Nat.add_assoc.
Qed.

(** Completeness: a string of the grammar is read to its closing quote. *)
Lemma str_ref_complete s dec t i out :
  jchars s dec ->
  str_ref (s ++ DQUOTE :: t) 0 i out = Ok ((i + length s + 1)%nat, out ++ dec).
Proof. intros H. rewrite (str_ref_jchars _ _ _ _ _ H). simpl. by rewrite Nat.add_1_r. Qed.

Lemma bytes_nonneg l : bytes_ok l -> Forall (fun c => 0 <= c) l.
Proof. intros H. eapply Forall_impl; [exact H|]. unfold is_byte. simpl. lia. Qed.

(** A non-ASCII first byte that decodes: one [jchar_utf8] character. *)
Lemma decode_jchar l c l' :
  l = c :: l' -> bytes_ok l -> 128 <= c -> decode_bad (DecodeRune l) = false ->
  exists s t, l = s ++ t /\ length s = (DecodeRune l).2 /\ (1 <= length s)%nat /\ jchar s s.
Proof.
  intros -> Hl Hc Hb. destruct (DecodeRune (c :: l')) as [r n] eqn:E.
  destruct (DecodeRune_good _ _ _ E Hb) as (Hr & -> & t & Ht); [done| |].
  { intros ? [= <-]. lia. }
  exists (encode_rune r), t. pose proof (encode_rune_length r).
  split_and!; [done|done|lia|]. apply jchar_utf8; [done|].
  destruct (decide (r < 128)); [|lia]. rewrite encode_rune_ascii in Ht by done.
  simplify_eq/=. lia.
Qed.

(** Soundness, with the position arithmetic. *)
Lemma str_ref_sound l i out j out' :
  bytes_ok l -> str_ref l 0 i out = Ok (j, out') ->
  exists s dec t, l = s ++ DQUOTE :: t /\ jchars s dec /\
    j = (i + length s + 1)%nat /\ out' = out ++ dec.
Proof.
  revert i out. induction l as [l IH] using (induction_ltof1 _ length); intros i out Hl H.
  destruct l as [|c l']; [done|]. cbn [str_ref] in H.
  assert (Hstep : forall s d t, c :: l' = s ++ t -> (1 <= length s)%nat -> jchar s d ->
    str_ref t 0 (i + length s) (out ++ d) = Ok (j, out') ->
    exists s dec t, c :: l' = s ++ DQUOTE :: t /\ jchars s dec /\
      j = (i + length s + 1)%nat /\ out' = out ++ dec).
  { intros s d t Heq Hlen Hc Hr.
    destruct (IH t) with (i := (i + length s)%nat) (out := out ++ d)
      as (s1 & d1 & t1 & -> & Hs1 & -> & ->); [| |done|].
    - unfold ltof. rewrite Heq, length_app. lia.
    - rewrite Heq in Hl. by apply Forall_app in Hl as [_ ?].
    - exists (s ++ s1), (d ++ d1), t1. rewrite Heq, <- !app_assoc, length_app.
      split_and!; [done|by constructor|lia|done]. }
  destruct (Z.eqb_spec c DQUOTE) as [->|Hq].
  { simplify_eq. exists [], [], l'. rewrite app_nil_r. split_and!; [done|constructor|simpl; lia|done]. }
  destruct (Z.eqb_spec c BSLASH) as [->|Hbs].
  { destruct l' as [|e l'']; [done|]. destruct (esc_ref (e :: l'')) as [n d|m] eqn:He; [|done].
    apply esc_ref_sound in He as (s & t & Ht & <- & Hn & Hc). rewrite Ht in H.
    rewrite str_ref_skip in H by (rewrite length_app; lia). rewrite drop_app_length in H.
    apply (Hstep (BSLASH :: s) d t); [by rewrite Ht|simpl; lia|done|].
    cbn [length]. by replace (i + S (length s))%nat with (S i + length s)%nat by lia. }
  destruct (c <? 32) eqn:H32; [done|]. destruct (c <? 128) eqn:H128.
  { apply (Hstep [c] [c] l'); [done|simpl; lia| |by rewrite Nat.add_1_r].
    constructor. unfold is_string_special. lia. }
  destruct (decode_bad (DecodeRune (c :: l'))) eqn:Hb; [done|].
  destruct (decode_jchar _ c l' eq_refl Hl ltac:(lia) Hb) as (s & t & Ht & Hn & Hn1 & Hc).
  apply (Hstep s s t); [done|done|done|]. rewrite <- Hn in H. rewrite Ht, take_app_length in H.
  destruct s as [|x s]; [simpl in Hn1; lia|]. simpl in Ht. injection Ht as <- Ht.
  rewrite Ht in H. simpl in H. rewrite Nat.sub_0_r in H.
  rewrite str_ref_skip in H by (rewrite length_app; lia). rewrite drop_app_length in H.
  cbn [length]. by replace (i + S (length s))%nat with (S i + length s)%nat by lia.
Qed.

(** ** Runs without quotes, backslashes or control bytes *)

Definition plain_run (s : bytes) : Prop :=
  utf8_text s /\ Forall (fun c => is_string_syntax c = false) s.

Lemma plain_run_jchars s : plain_run s -> jchars s s.
Proof.
  intros [Hu Hp]. induction Hu as [|r t Hr Ht IH]; [constructor|].
  apply Forall_app in Hp as [Hp1 Hp2]. constructor; [|auto].
  destruct (decide (128 <= r)); [by apply jchar_utf8|].
  rewrite encode_rune_ascii in * by lia. constructor. inversion Hp1; subst.
  unfold is_string_syntax, is_string_special in *. lia.
Qed.

Lemma str_ref_run s t i out :
  plain_run s -> str_ref (s ++ t) 0 i out = str_ref t 0 (i + length s) (out ++ s).
Proof. intros H. by apply str_ref_jchars, plain_run_jchars. Qed.

(** ** [scanStringUnicodeRun] *)

Lemma decode_bad_high l c :
  decode_bad (DecodeRune (c :: l)) = true -> 128 <= c.
Proof.
  intros H. destruct (decide (c < 128)); [|lia]. exfalso. revert H.
  cbn [DecodeRune]. rewrite if_true by lia. unfold decode_bad, RuneError. simpl. lia.
Qed.

(** A sequence cut before an ASCII byte is already bad: looking further does not help. *)
Lemma decode_bad_app p t :
  p <> [] -> bytes_ok (p ++ t) -> stops (fun c => 128 <=? c) t ->
  decode_bad (DecodeRune p) = true -> decode_bad (DecodeRune (p ++ t)) = true.
Proof.
  intros Hne Hok Ht Hb. apply not_false_is_true. intros Hg.
  destruct p as [|c p]; [done|]. pose proof (decode_bad_high _ _ Hb) as Hc.
  destruct (decode_jchar ((c :: p) ++ t) c (p ++ t) eq_refl Hok Hc Hg) as (s & u & Hs & Hn & Hs1 & Hj).
  destruct (DecodeRune ((c :: p) ++ t)) as [r n] eqn:E.
  destruct (DecodeRune_good _ _ _ E Hg) as (Hr & -> & v & Hv); [done|intros ? [= <-]; lia|].
  destruct (decide (r < 128)) as [Hlt|Hge].
  { rewrite encode_rune_ascii in Hv by done. simplify_eq/=. lia. }
  apply app_eq_app in Hv as [w [[Hp Hw]|[Hp Hw]]].
  - rewrite Hp, DecodeRune_encode, decode_bad_encode in Hb by done. done.
  - destruct w as [|x w].
    { rewrite app_nil_r in Hp. rewrite <- Hp in Hb.
      rewrite <- (app_nil_r (encode_rune r)), Hp in *.
      rewrite <- Hp, app_nil_r in Hb. rewrite <- (app_nil_r (encode_rune r)) in Hb.
      by rewrite DecodeRune_encode, decode_bad_encode in Hb. }
    subst t. simpl in Ht. pose proof (encode_rune_high r Hr ltac:(lia)) as Hf.
    rewrite Hp, Forall_app in Hf. destruct Hf as [_ Hf]. inversion Hf; subst. lia.
Qed.

Lemma slice_cons {A} (l : list A) i j c :
  (i < j)%nat -> l !! i = Some c -> slice l i j = c :: slice l (S i) j.
Proof.
  intros Hij H. unfold slice. rewrite (drop_S _ _ _ H).
  replace (j - i)%nat with (S (j - S i)) by lia. done.
Qed.

Lemma slice_app {A} (l : list A) i j k :
  (i <= j <= k)%nat -> (k <= length l)%nat -> slice l i k = slice l i j ++ slice l j k.
Proof.
  intros H Hk. eapply span_inj; [by apply slice_span; lia|].
  eapply span_app; apply slice_span; lia.
Qed.

Lemma slice_drop {A} (l : list A) i j n : drop n (slice l i j) = slice l (i + n) j.
Proof. unfold slice. rewrite skipn_firstn_comm, drop_drop. f_equal. lia. Qed.

Lemma slice_all {A} (l : list A) i : slice l i (length l) = drop i l.
Proof. unfold slice. apply take_ge. rewrite length_drop. lia. Qed.

Lemma drop_slice {A} (l : list A) i j : (i <= j)%nat -> drop i l = slice l i j ++ drop j l.
Proof.
  intros H. unfold slice. rewrite <- (take_drop (j - i) (drop i l)) at 1.
  rewrite drop_drop. do 2 f_equal. lia.
Qed.

Lemma slice_refl {A} (l : list A) i : slice l i i = [].
Proof. unfold slice. by rewrite Nat.sub_diag. Qed.

Lemma slice_bytes src i j : bytes_ok src -> bytes_ok (slice src i j).
Proof. intros. by apply Forall_take, Forall_drop. Qed.

(** The index search finds the first undecodable byte of a text that is not valid. *)
Lemma invalid_index_loop_spec src fuel start stop b :
  bytes_ok src -> (stop <= length src)%nat -> (start <= stop)%nat -> (stop - start <= fuel)%nat ->
  ~ utf8_text (slice src start stop) ->
  invalid_index_loop fuel src start stop = b ->
  (start <= b < stop)%nat /\ utf8_text (slice src start b) /\
  decode_bad (DecodeRune (slice src b stop)) = true.
Proof.
  intros Hok Hstop. revert start. induction fuel as [|fuel IH]; intros start Hle Hf Hbad H.
  { exfalso. apply Hbad. replace start with stop by lia. rewrite slice_refl. constructor. }
  simpl in H. destruct (Nat.ltb_spec start stop) as [Hlt|Hge].
  2:{ exfalso. apply Hbad. replace start with stop by lia. rewrite slice_refl. constructor. }
  assert (Hlen : length (slice src start stop) = (stop - start)%nat)
    by (unfold slice; rewrite length_take, length_drop; lia).
  assert (Hne : slice src start stop <> []) by (intros E; rewrite E in Hlen; simpl in Hlen; lia).
  pose proof (DecodeRune_width _ Hne) as Hw.
  destruct (decode_bad (DecodeRune (slice src start stop))) eqn:Hd.
  { subst b. rewrite slice_refl. split_and!; [lia|lia|constructor|done]. }
  pose proof (bytes_nonneg _ (slice_bytes src start stop Hok)) as Hnn.
  rewrite utf8_text_step, slice_drop in Hbad by done.
  apply IH in H; [|lia|lia|naive_solver]. destruct H as (H1 & H2 & H3).
  split_and!; [lia|lia| |done]. rewrite (slice_app _ _ (start + (DecodeRune (slice src start stop)).2)) by lia.
  apply utf8_text_app; [|done].
  destruct (DecodeRune (slice src start stop)) as [r n] eqn:E.
  destruct (DecodeRune_good _ _ _ E Hd Hne) as (Hr & -> & t & Ht).
  { intros c Hc. destruct (slice src start stop); simplify_eq/=. by inversion Hnn. }
  assert (Hsp : span src start (encode_rune r) (start + length (encode_rune r))).
  { apply (span_intro _ _ _ (t ++ drop stop src)); [lia|].
    rewrite (drop_slice _ _ stop) by lia. by rewrite Ht, app_assoc. }
  simpl. rewrite (span_slice _ _ _ _ Hsp), <- (app_nil_r (encode_rune r)). by repeat constructor.
Qed.

Lemma advance_slice p src i :
  (i <= length src)%nat -> Forall (fun c => p c = true) (slice src i (advance p src i)).
Proof. intros Hi. destruct (advance_span p src i Hi) as (s & Hs & Hf & _). by rewrite (span_slice _ _ _ _ Hs). Qed.

Lemma plain_run_one r : is_scalar r = true -> 128 <= r -> plain_run (encode_rune r).
Proof.
  intros Hr Hh. split; [rewrite <- (app_nil_r (encode_rune r)); by repeat constructor|].
  eapply Forall_impl; [by apply encode_rune_high|]. simpl.
  unfold is_string_syntax. intros. lia.
Qed.

Lemma scanStringUnicodeRun_spec src i c :
  bytes_ok src -> src !! i = Some c -> 128 <= c ->
  match scanStringUnicodeRun src i with
  | (next, None) => (i < next <= length src)%nat /\ plain_run (slice src i next)
  | (_, Some b) => (i <= b < length src)%nat /\ plain_run (slice src i b) /\
      decode_bad (DecodeRune (drop b src)) = true
  end.
Proof.
  intros Hok Hi Hc. pose proof (lookup_lt_Some _ _ _ Hi) as Hlt. unfold scanStringUnicodeRun.
  pose proof (lookup_Some_drop _ _ _ Hi) as Hdr.
  destruct (Nat.ltb_spec (length src - i) 32).
  - cbv zeta. destruct (decode_bad (DecodeRune (drop i src))) eqn:Hb.
    { rewrite slice_refl. split_and!; [lia|lia|by repeat constructor|done]. }
    destruct (DecodeRune (drop i src)) as [r n] eqn:E.
    destruct (DecodeRune_good _ _ _ E Hb) as (Hr & -> & t & Ht); [by rewrite Hdr| |].
    { rewrite Hdr. intros ? [= <-]. lia. }
    pose proof (span_intro src i _ t ltac:(lia) Ht) as Hsp. simpl.
    rewrite (span_slice _ _ _ _ Hsp). pose proof (encode_rune_length r).
    apply span_le in Hsp. split; [lia|]. apply plain_run_one; [done|].
    destruct (decide (r < 128)); [|lia]. rewrite encode_rune_ascii, Hdr in Ht by done.
    simplify_eq/=. lia.
  - cbv zeta. rewrite scanStringSyntax_spec by (done || lia).
    set (p := fun c => negb (is_string_syntax c)). pose proof (advance_le p src i ltac:(lia)) as Hle.
    assert (Hgt : (i < advance p src i)%nat).
    { rewrite advance_unfold, Hi. rewrite if_true by (unfold p, is_string_syntax; lia).
      pose proof (advance_le p src (S i)). lia. }
    destruct (advance_span p src i ltac:(lia)) as (s & Hs & Hf & Hst).
    assert (Hplain : forall j, (i <= j <= advance p src i)%nat ->
      Forall (fun c => is_string_syntax c = false) (slice src i j)).
    { intros j Hj. assert (H' : Forall (fun c => p c = true) (slice src i (advance p src i)))
        by (by apply advance_slice; lia).
      rewrite (slice_app _ _ j) in H' by lia. apply Forall_app in H' as [H' _].
      eapply Forall_impl; [exact H'|]. unfold p. simpl. intros x. by destruct (is_string_syntax x). }
    unfold invalidUTF8Index.
    pose proof (Valid_spec _ (bytes_nonneg _ (slice_bytes src i (advance p src i) Hok))) as Hv.
    destruct (Valid (slice src i (advance p src i))).
    { split; [lia|]. split; [by apply Hv|apply Hplain; lia]. }
    destruct (invalid_index_loop_spec src (advance p src i - i) i (advance p src i) _ Hok
      ltac:(lia) ltac:(lia) ltac:(lia) ltac:(naive_solver) eq_refl) as (H1 & H2 & H3).
    split; [lia|]. split; [split; [done|apply Hplain; lia]|].
    set (b := invalid_index_loop _ _ _ _) in *. rewrite (drop_slice _ _ (advance p src i)) by lia.
    apply decode_bad_app; [|by rewrite <- drop_slice by lia; apply Forall_drop| |done].
    { intros E. apply (f_equal length) in E. unfold slice in E.
      rewrite length_take, length_drop in E. simpl in E. lia. }
    destruct (drop (advance p src i) src); [done|]. simpl in *. unfold p, is_string_syntax in Hst. lia.
Qed.

(** ** The reader at a position of a source *)

Definition str_at (src : bytes) (i : nat) (out : bytes) : res (nat * string) (nat * bytes) :=
  str_ref (drop i src) 0 i out.

Section StrAt.
Context (src : bytes).
Hypothesis Hsrc : bytes_ok src.

Lemma str_at_run i j out :
  (i <= j <= length src)%nat -> plain_run (slice src i j) ->
  str_at src i out = str_at src j (out ++ slice src i j).
Proof using.
  intros Hij Hp. unfold str_at. rewrite (drop_slice src i j) by lia.
  rewrite str_ref_run by done. f_equal. unfold slice. rewrite length_take, length_drop. lia.
Qed.

Lemma not_special_plain s :
  Forall (fun c => negb (is_string_special c) = true) s -> bytes_ok s -> plain_run s.
Proof using.
  intros H Hs. split.
  - induction H as [|c s Hc H IH]; [constructor|]. inversion Hs as [|x y Hx Hy]; subst.
    change (c :: s) with ([c] ++ s). unfold is_string_special in Hc. unfold is_byte in Hx.
    rewrite <- (encode_rune_ascii c) by lia. constructor; [|auto].
    apply is_scalar_spec. lia.
  - eapply Forall_impl; [exact H|]. unfold is_string_syntax, is_string_special. simpl. intros. lia.
Qed.

Lemma str_at_special i out :
  (i <= length src)%nat ->
  str_at src i out = str_at src (scanStringSpecial src i) (out ++ slice src i (scanStringSpecial src i)).
Proof using Hsrc.
  intros Hi. rewrite scanStringSpecial_spec by done. apply str_at_run; [by apply advance_le|].
  apply not_special_plain; [by apply advance_slice|by apply slice_bytes].
Qed.

Lemma str_at_end i out : (length src <= i)%nat -> str_at src i out = Err (i, "unterminated string"%string).
Proof using. intros. unfold str_at. by rewrite drop_ge by done. Qed.

Lemma str_at_quote i out : src !! i = Some DQUOTE -> str_at src i out = Ok (S i, out).
Proof using. intros H. unfold str_at. by rewrite (lookup_Some_drop _ _ _ H). Qed.

Lemma str_at_control i c out :
  src !! i = Some c -> c < 32 -> str_at src i out = Err (i, "unescaped control byte in string"%string).
Proof using.
  intros H Hc. unfold str_at. rewrite (lookup_Some_drop _ _ _ H). cbn [str_ref].
  do 2 rewrite if_false by lia. by rewrite if_true by lia.
Qed.

Lemma str_at_bad i c out :
  src !! i = Some c -> decode_bad (DecodeRune (drop i src)) = true ->
  str_at src i out = Err (i, "invalid UTF-8 in string"%string).
Proof using.
  intros H Hb. unfold str_at. rewrite (lookup_Some_drop _ _ _ H) in *.
  pose proof (decode_bad_high _ _ Hb). cbn [str_ref]. do 4 rewrite if_false by lia. by rewrite Hb.
Qed.

Lemma str_at_unicode i c out :
  src !! i = Some c -> 128 <= c ->
  match scanStringUnicodeRun src i with
  | (next, None) => (i < next <= length src)%nat /\
    str_at src i out = str_at src next (out ++ slice src i next)
  | (_, Some b) => (i <= b < length src)%nat /\
    str_at src i out = Err (b, "invalid UTF-8 in string"%string)
  end.
Proof using Hsrc.
  intros Hi Hc. pose proof (scanStringUnicodeRun_spec src i c Hsrc Hi Hc) as H.
  destruct (scanStringUnicodeRun src i) as [next [b|]].
  - destruct H as (H1 & H2 & H3). split; [done|]. rewrite (str_at_run i b) by (done || lia).
    destruct (src !! b) as [x|] eqn:E; [by eapply str_at_bad|]. apply lookup_ge_None in E. lia.
  - destruct H as (H1 & H2). split; [done|]. apply str_at_run; [lia|done].
Qed.

Lemma str_at_escape_end i out :
  src !! i = Some BSLASH -> (length src <= S i)%nat ->
  str_at src i out = Err (S i, "unterminated escape sequence"%string).
Proof using.
  intros H Hl. unfold str_at. rewrite (lookup_Some_drop _ _ _ H), (drop_ge _ (S i)) by done. done.
Qed.

Lemma str_at_escape i out :
  src !! i = Some BSLASH -> (S i < length src)%nat ->
  str_at src i out =
  match esc_ref (drop (S i) src) with
  | EscOk n dec => str_at src (S i + n) (out ++ dec)
  | EscErr msg => Err (i, msg)
  end.
Proof using.
  intros H Hl. unfold str_at. rewrite (lookup_Some_drop _ _ _ H). cbn [str_ref].
  change (BSLASH =? DQUOTE) with false. cbn [Z.eqb Pos.eqb].
  destruct (drop (S i) src) as [|e l] eqn:E.
  { apply (f_equal length) in E. rewrite length_drop in E. simpl in E. lia. }
  destruct (esc_ref (e :: l)) as [n d|m] eqn:He; [|done].
  apply esc_ref_sound in He as (s & t & Ht & <- & Hn & _).
  rewrite str_ref_skip by (rewrite Ht, length_app; lia). rewrite <- E, drop_drop. done.
Qed.
End StrAt.

(** ** The reader always answers, inside its input *)

Lemma str_ref_err_range l n i out o m :
  str_ref l n i out = Err (o, m) -> (i <= o <= i + length l)%nat.
Proof.
  revert n i out. induction l as [|c l IH]; intros n i out H; cbn [str_ref] in H.
  { simplify_eq. simpl. lia. }
  assert (HS : forall n out, str_ref l n (S i) out = Err (o, m) -> (i <= o <= i + length (c :: l))%nat).
  { intros n' out' H'. apply IH in H'. simpl. lia. }
  destruct n; [|eauto].
  repeat case_step_in H; simplify_eq; simpl; try lia; eauto.
Qed.

Lemma str_ref_returns l n i out : str_ref l n i out <> Panic /\ str_ref l n i out <> NoFuel.
Proof.
  revert n i out. induction l as [|c l IH]; intros n i out; cbn [str_ref]; [done|].
  destruct n; [|apply IH]. repeat case_step; try done; apply IH.
Qed.

(** ** Unicode escapes at a position, as the scanners test them *)

Lemma at_byte_drop src i k b l :
  drop i src = l -> at_byte src (i + k) b = match l !! k with Some c => c =? b | None => false end.
Proof. intros <-. unfold at_byte. by rewrite lookup_drop. Qed.

Lemma hex_of_short l : (length l < 4)%nat -> hex_of l = None.
Proof. destruct l as [|? [|? [|? [|? ?]]]]; simpl; (done || lia). Qed.

(** The low surrogate of a pair, on the suffix after the first escape. *)
Lemma low_surrogate_ref src i l :
  drop i src = l -> (i <= length src)%nat ->
  ((length src <? i + 6)%nat || negb (at_byte src i BSLASH) || negb (at_byte src (i + 1) "u"%ch)) =
  match l with
  | b :: x :: l'' => negb ((b =? BSLASH) && (x =? "u"%ch) && (4 <=? length l'')%nat)
  | _ => true
  end.
Proof.
  intros Hl Hi. assert (Hlen : length src = (i + length l)%nat) by (rewrite <- Hl, length_drop; lia).
  replace (at_byte src i BSLASH) with (at_byte src (i + 0) BSLASH) by by rewrite Nat.add_0_r.
  rewrite !(at_byte_drop src i _ _ l Hl), Hlen.
  destruct l as [|b [|x l'']]; cbn [lookup list_lookup length];
    [by rewrite ?orb_true_r|by rewrite ?orb_true_r|].
  destruct (b =? BSLASH), (x =? "u"%ch); cbn [negb andb]; rewrite ?orb_true_r, ?orb_false_r; try done.
  apply eq_true_iff_eq. rewrite negb_true_iff, Nat.ltb_lt, Nat.leb_gt. lia.
Qed.

(** The escape at the ['u'] in position [i]. *)
Definition u_escape (src : bytes) (i : nat) : esc_result :=
  let (u, ok) := hex4 src (S i) in
  if negb ok then EscErr "invalid unicode escape"
  else if is_high_surrogate u then
    if (length src <? i + 11)%nat || negb (at_byte src (i + 5) BSLASH) || negb (at_byte src (i + 6) "u"%ch)
    then EscErr "missing low surrogate"
    else
      let (lo, ok) := hex4 src (i + 7) in
      if negb ok then EscErr "invalid low surrogate"
      else if is_low_surrogate lo then EscOk 11 (encode_rune (DecodeSurrogates u lo))
      else EscErr "invalid low surrogate"
  else if is_low_surrogate u then EscErr "unexpected low surrogate"
  else EscOk 5 (encode_rune u).

Lemma u_escape_ref src i : src !! i = Some "u"%ch -> esc_ref (drop i src) = u_escape src i.
Proof.
  intros Hi. rewrite (lookup_Some_drop _ _ _ Hi). apply lookup_lt_Some in Hi as Hlt.
  unfold u_escape. cbn [esc_ref]. change (is_simple_escape "u"%ch) with false.
  rewrite Z.eqb_refl. cbv iota. pose proof (hex4_hex_of src (S i)) as H4.
  destruct (hex_of (drop (S i) src)) as [u|] eqn:Hu.
  2:{ destruct (hex4 src (S i)) as [u ok]. simpl in H4. by rewrite H4. }
  rewrite H4. cbn [negb]. cbv iota. rewrite drop_drop.
  destruct (is_high_surrogate u) eqn:Hh; [|done].
  assert (Hle : (S i + 4 <= length src)%nat).
  { destruct (Nat.le_gt_cases (S i + 4) (length src)) as [|Hgt]; [done|].
    rewrite hex_of_short in Hu; [done|]. rewrite length_drop. lia. }
  pose proof (low_surrogate_ref src (S i + 4) _ eq_refl Hle) as Hlow.
  replace (S i + 4 + 6)%nat with (i + 11)%nat in Hlow by lia.
  replace (S i + 4 + 1)%nat with (i + 6)%nat in Hlow by lia.
  replace (S i + 4)%nat with (i + 5)%nat in * by lia. rewrite Hlow.
  destruct (drop (i + 5) src) as [|b [|x l'']] eqn:Hd; [done..|].
  destruct ((b =? BSLASH) && (x =? "u"%ch) && (4 <=? length l'')%nat); [|done]. cbn [negb]. cbv iota.
  pose proof (hex4_hex_of src (i + 7)) as H5. replace (i + 7)%nat with (i + 5 + 2)%nat in * by lia.
  rewrite <- drop_drop, Hd in H5. cbn [drop] in H5. rewrite drop_0 in H5.
  destruct (hex_of l'') as [v|].
  2:{ destruct (hex4 src (i + 5 + 2)) as [v ok]. cbn [snd] in H5. by rewrite H5. }
  rewrite H5. done.
Qed.

Lemma esc_ok_bound src i n d :
  (i <= length src)%nat -> esc_ref (drop i src) = EscOk n d -> (i < i + n <= length src)%nat.
Proof.
  intros Hi H. apply esc_ref_sound in H as (s & t & Hd & <- & Hn & _).
  apply (f_equal length) in Hd. rewrite length_drop, length_app in Hd. lia.
Qed.

