(* ===== verification/Errors.v ===== *)
(** [error.go]: syntax errors with their line and column, and the path an
    encoding error accumulates while it unwinds. *)

From S2P Require Import Prelude Utf8.

(** ** [SyntaxError] *)

Record SyntaxError : Type := mkSyntaxError {
  Offset : Z;
  Line : Z;
  Column : Z;
  Message : string
  }.

(** The loop that counts lines and columns over [src[0:off]]. *)
Fixpoint line_col (l : bytes) (line col : Z) : Z * Z :=
  match l with
  | [] => (line, col)
  | c :: l' => if c =? 10 then line_col l' (line + 1) 1 else line_col l' line (col + 1)
  end.

Definition syntaxError (src : bytes) (off : Z) (msg : string) : SyntaxError :=
  let off := if off <? 0 then 0 else off in
  let off := if Z.of_nat (length src) <? off then Z.of_nat (length src) else off in
  let lc := line_col (take (Z.to_nat off) src) 1 1 in
  mkSyntaxError off lc.1 lc.2 msg.

(** A syntax error at a position of the source. *)
Definition syntax_at (src : bytes) (off : nat) (msg : string) : SyntaxError :=
  syntaxError src (Z.of_nat off) msg.

Definition map_err {E E' A} (f : E -> E') (r : res E A) : res E' A :=
  match r with Ok a => Ok a | Err e => Err (f e) | Panic => Panic | NoFuel => NoFuel end.

(** ** Decimal and quoted text of the standard library *)

Fixpoint to_digits (fuel : nat) (n : Z) (acc : bytes) : bytes :=
  match fuel with
  | O => acc
  | S fuel =>
      let acc := ("0"%ch + n mod 10) :: acc in
      if n / 10 =? 0 then acc else to_digits fuel (n / 10) acc
  end.

(** The decimal digits of a non-negative integer of at most 20 digits. *)
Definition decimal (n : Z) : bytes := to_digits 20 n [].

(** [strconv.Itoa] and [strconv.AppendInt] in base 10, on an int64. *)
Definition Itoa (n : Z) : bytes := if n <? 0 then "-"%ch :: decimal (- n) else decimal n.

Definition string_of (l : bytes) : string :=
  foldr (fun c s => String (Ascii.ascii_of_N (Z.to_N c)) s) EmptyString l.

Definition lower_hex (n : Z) : Z := if n <? 10 then "0"%ch + n else "a"%ch + (n - 10).

(** [strconv.IsPrint] on Latin-1. *)
Definition is_print (c : Z) : bool :=
  ((0x20 <=? c) && (c <? 0x7f)) || ((0xa1 <=? c) && (c <=? 0xff) && negb (c =? 0xad)).

(** The verb [%q] on a byte: [strconv.QuoteRune] of a rune below 256. *)
Definition quote_byte (c : Z) : bytes :=
  let body :=
    if (c =? 39) || (c =? BSLASH) then [BSLASH; c]
    else if is_print c then encode_rune c
    else if c =? 7 then bs "\a"
    else if c =? 8 then bs "\b"
    else if c =? 12 then bs "\f"
    else if c =? 10 then bs "\n"
    else if c =? 13 then bs "\r"
    else if c =? 9 then bs "\t"
    else if c =? 11 then bs "\v"
    else if (c <? 32) || (c =? 127) then bs "\x" ++ [lower_hex (c / 16); lower_hex (c mod 16)]
    else bs "\u00" ++ [lower_hex (c / 16); lower_hex (c mod 16)] in
  39 :: body ++ [39].

(** [fmt.Sprintf("unexpected byte %q while parsing value", c)]. *)
Definition unexpected_byte (c : Z) : string :=
  String.append "unexpected byte " (String.append (string_of (quote_byte c)) " while parsing value").

(** [SyntaxError.Error]. *)
Definition SyntaxError_Error (e : SyntaxError) : bytes :=
  bs "json syntax error at byte " ++ Itoa (Offset e) ++ bs ", line " ++ Itoa (Line e) ++
  bs ", column " ++ Itoa (Column e) ++ bs ": " ++ bs (Message e).

(** ** [EncodeError] and its path *)

Record EncodeError : Type := mkEncodeError { Path : bytes; Reason : string }.

Definition EncodeError_Error (e : EncodeError) : bytes :=
  match Path e with
  | [] => bs "vibejson: cannot encode value: " ++ bs (Reason e)
  | _ => bs "vibejson: cannot encode value at " ++ Path e ++ bs ": " ++ bs (Reason e)
  end.

Definition encodePathBufferThreshold : Z := 256.

(** The Go [error] values the encoder passes up: a finished encode error, the
    buffer of a long path, or anything else. *)
Record encodePathError : Type := mkPathError { cause : EncodeError; reversed : bytes }.

Inductive go_error : Type :=
  | EEncode (e : EncodeError)
  | EPath (e : encodePathError)
  | EOther (msg : string).

Definition newEncodePathError (e : EncodeError) : encodePathError := mkPathError e (rev (Path e)).

Definition encodePathError_Error (e : encodePathError) : bytes :=
  EncodeError_Error (mkEncodeError (rev (reversed e)) (Reason (cause e))).

Definition prepend (e : encodePathError) (segment : bytes) : encodePathError :=
  let buf := reversed e in
  let buf := match last buf with
             | Some c => if c =? "["%ch then buf else buf ++ ["."%ch]
             | None => buf
             end in
  mkPathError (cause e) (buf ++ rev segment).

Definition finishEncodeError (err : go_error) : go_error :=
  match err with
  | EPath e => EEncode (mkEncodeError (rev (reversed e)) (Reason (cause e)))
  | _ => err
  end.

Definition prependEncodePathField (err : go_error) (name : bytes) : go_error :=
  match err with
  | EPath e => EPath (prepend e name)
  | EEncode e =>
      if encodePathBufferThreshold <=? Z.of_nat (length (Path e)) then EPath (prepend (newEncodePathError e) name)
      else
        EEncode (mkEncodeError
          (match Path e with
           | [] => name
           | c :: _ => if c =? "["%ch then name ++ Path e else name ++ "."%ch :: Path e
           end) (Reason e))
  | _ => err
  end.

Definition index_segment (index : Z) : bytes := "["%ch :: Itoa index ++ ["]"%ch].

Definition prependEncodePathIndex (err : go_error) (index : Z) : go_error :=
  match err with
  | EPath e => EPath (prepend e (index_segment index))
  | EEncode e =>
      let segment := index_segment index in
      if encodePathBufferThreshold <=? Z.of_nat (length (Path e)) then EPath (prepend (newEncodePathError e) segment)
      else
        EEncode (mkEncodeError
          (match Path e with
           | [] => segment ++ Path e
           | c :: _ => if c =? "["%ch then segment ++ Path e else segment ++ "."%ch :: Path e
           end) (Reason e))
  | _ => err
  end.

(** ** What they compute *)

(** Lines are counted by newlines, columns by the bytes after the last one. *)
Definition newlines (l : bytes) : Z := Z.of_nat (length (List.filter (fun c => c =? 10) l)).
Definition last_line (l : bytes) : bytes := take_while (fun c => negb (c =? 10)) (rev l).

Lemma take_while_all_eq {A} (p : A -> bool) l : Forall (fun c => p c = true) l -> take_while p l = l.
Proof. induction 1 as [|c l Hc _ IH]; simpl; [done|]. by rewrite Hc, IH. Qed.

Lemma take_while_app_stop {A} (p : A -> bool) l c t :
  p c = false -> take_while p (l ++ c :: t) = take_while p l.
Proof. intros H. induction l as [|x l IH]; simpl; [by rewrite H|]. by rewrite IH. Qed.

Lemma last_line_newline l t : last_line (l ++ 10 :: t) = last_line t.
Proof.
  unfold last_line. rewrite rev_app_distr. simpl. rewrite <- app_assoc. simpl.
  by apply take_while_app_stop.
Qed.

Lemma line_col_gen l line col pre :
  Forall (fun c => negb (c =? 10) = true) pre -> col = 1 + Z.of_nat (length pre) ->
  line_col l line col = (line + newlines l, 1 + Z.of_nat (length (last_line (pre ++ l)))).
Proof.
  revert line col pre. induction l as [|c l IH]; intros line col pre Hpre ->; simpl.
  - unfold newlines, last_line. simpl. rewrite app_nil_r, take_while_all_eq by by apply Forall_rev.
    rewrite length_rev. f_equal. lia.
  - unfold newlines. simpl. destruct (Z.eqb_spec c 10) as [->|Hne].
    + rewrite (IH _ 1 []) by done. rewrite last_line_newline. unfold newlines. simpl. f_equal. lia.
    + rewrite (IH _ _ (pre ++ [c])).
      * by rewrite <- app_assoc.
      * apply Forall_app. split; [done|]. constructor; [|done]. lia.
      * rewrite length_app. simpl. lia.
Qed.

Lemma line_col_spec l :
  line_col l 1 1 = (1 + newlines l, 1 + Z.of_nat (length (last_line l))).
Proof. by apply (line_col_gen l 1 1 []). Qed.

Lemma syntax_at_offset src off msg :
  (off <= length src)%nat -> Offset (syntax_at src off msg) = Z.of_nat off.
Proof. intros. unfold syntax_at, syntaxError. cbn [Offset]. rewrite (if_false (_ <? 0)) by lia.
  by rewrite if_false by lia.
Qed.

(** The path written directly, segment by segment, without the buffer. *)
Definition join_path (segment path : bytes) : bytes :=
  match path with
  | [] => segment
  | c :: _ => if c =? "["%ch then segment ++ path else segment ++ "."%ch :: path
  end.

(** The path a Go error currently stands for. *)
Definition path_of (err : go_error) : bytes :=
  match err with EEncode e => Path e | EPath e => rev (reversed e) | EOther _ => [] end.

Inductive step : Type := SField (name : bytes) | SIndex (i : Z).
Definition segment_of (s : step) : bytes :=
  match s with SField n => n | SIndex i => index_segment i end.
Definition unwind (err : go_error) (s : step) : go_error :=
  match s with SField n => prependEncodePathField err n | SIndex i => prependEncodePathIndex err i end.

Lemma prepend_path e seg : rev (reversed (prepend e seg)) = join_path seg (rev (reversed e)).
Proof.
  unfold prepend. destruct e as [cs buf]. simpl. rewrite rev_app_distr, rev_involutive.
  destruct buf as [|c buf _] using rev_ind; simpl; [by rewrite app_nil_r|].
  rewrite last_snoc, rev_app_distr. simpl. destruct (c =? "["%ch).
  - by rewrite rev_app_distr.
  - by rewrite !rev_app_distr.
Qed.

Lemma prepend_new_path e seg : rev (reversed (prepend (newEncodePathError e) seg)) = join_path seg (Path e).
Proof. rewrite prepend_path. unfold newEncodePathError. cbn [reversed]. by rewrite rev_involutive. Qed.

Lemma unwind_path err s :
  match err with EOther _ => False | _ => True end ->
  path_of (unwind err s) = join_path (segment_of s) (path_of err) /\
  match unwind err s with EOther _ => False | _ => True end.
Proof.
  intros H. destruct err as [e|e|]; [| |done].
  - destruct s as [n|i]; cbn [unwind]; unfold prependEncodePathField, prependEncodePathIndex; cbv zeta;
      destruct (encodePathBufferThreshold <=? Z.of_nat (length (Path e))); (split; [|done]);
      cbn [path_of Path segment_of]; rewrite ?prepend_new_path; try done.
    by destruct (Path e); [rewrite app_nil_r|].
  - destruct s as [n|i]; (split; [apply prepend_path|done]).
Qed.

Lemma unwind_reason err s cs :
  err = EEncode cs \/ (exists buf, err = EPath (mkPathError cs buf)) ->
  exists cs', Reason cs' = Reason cs /\
    (unwind err s = EEncode cs' \/ exists buf, unwind err s = EPath (mkPathError cs' buf)).
Proof.
  intros [->|[buf ->]].
  - destruct s; cbn [unwind]; unfold prependEncodePathField, prependEncodePathIndex; cbv zeta;
      destruct (encodePathBufferThreshold <=? Z.of_nat (length (Path cs)));
      first [exists cs; split; [done|right; eexists; reflexivity]
            |eexists; split; [|left; reflexivity]; done].
  - exists cs. split; [done|]. right. destruct s; eexists; reflexivity.
Qed.

(** ** Properties *)

(** a syntax error built by [syntaxError] clamps its offset to the source, counts lines by the newlines before the offset and columns by the bytes after the last of them, both from one. *)
Theorem syntaxError_position src off msg :
  let o := Z.max 0 (Z.min off (Z.of_nat (length src))) in
  let before := take (Z.to_nat o) src in
  syntaxError src off msg =
    mkSyntaxError o (1 + newlines before) (1 + Z.of_nat (length (last_line before))) msg.
Proof.
  cbv zeta. unfold syntaxError. cbv zeta.
  assert (H : (if Z.of_nat (length src) <? (if off <? 0 then 0 else off) then Z.of_nat (length src)
      else if off <? 0 then 0 else off) = Z.max 0 (Z.min off (Z.of_nat (length src)))).
  { destruct (Z.ltb_spec off 0); destruct (Z.ltb_spec (Z.of_nat (length src)) 0);
      destruct (Z.ltb_spec (Z.of_nat (length src)) off); lia. }
  by rewrite H, line_col_spec.
Qed.

(** The segments around an error, from the outermost. *)
Lemma unwind_steps steps err :
  match err with EOther _ => False | _ => True end ->
  path_of (fold_right (fun s e => unwind e s) err steps) =
    fold_right (fun s p => join_path (segment_of s) p) (path_of err) steps /\
  match fold_right (fun s e => unwind e s) err steps with EOther _ => False | _ => True end.
Proof.
  intros H. induction steps as [|s steps [IH1 IH2]]; [done|]. cbn [fold_right].
  destruct (unwind_path _ s IH2) as [-> Hs]. by rewrite IH1.
Qed.

Lemma unwind_steps_reason steps err cs :
  err = EEncode cs \/ (exists buf, err = EPath (mkPathError cs buf)) ->
  exists cs', Reason cs' = Reason cs /\
    (fold_right (fun s e => unwind e s) err steps = EEncode cs' \/
     exists buf, fold_right (fun s e => unwind e s) err steps = EPath (mkPathError cs' buf)).
Proof.
  intros H. induction steps as [|s steps (cs1 & Hr & IH)]; [by exists cs|]. cbn [fold_right].
  destruct (unwind_reason _ s cs1 IH) as (cs2 & Hr2 & H2). exists cs2. by rewrite Hr2.
Qed.

(** unwinding an encode error through any fields and indices and finishing it yields the same reason and the path written segment by segment, whether or not the path grew past the buffer threshold on the way. *)
Theorem encode_error_path steps e :
  finishEncodeError (fold_right (fun s err => unwind err s) (EEncode e) steps) =
    EEncode (mkEncodeError (fold_right (fun s p => join_path (segment_of s) p) (Path e) steps) (Reason e)).
Proof.
  destruct (unwind_steps steps (EEncode e) I) as [Hp _].
  destruct (unwind_steps_reason steps (EEncode e) e ltac:(by left)) as (cs & Hr & H).
  cbn [path_of] in Hp. rewrite <- Hp. destruct H as [H|[buf H]]; rewrite H; cbn [finishEncodeError path_of].
  - destruct cs as [p r]. cbn in *. by subst.
  - cbn [cause reversed]. by rewrite Hr.
Qed.
