(* ===== verification/Numbers.v ===== *)
(** [scanNumber] of [validate.go]: the number scanner every parser of the program
    shares, or is compared with.  It accepts the longest prefix that is a
    number of the grammar. *)

From S2P Require Import Prelude Words Utf8 Scanner Lex Grammar.

Definition at_digit (src : bytes) (i : nat) : bool :=
  match src !! i with Some c => IsDigit c | None => false end.

(** [for i < len(src) && IsDigit(src[i]) { i++ }] *)
Definition skip_digits (src : bytes) (i : nat) : nat := advance IsDigit src i.

(** The optional minus sign, with the bounds check that follows it. *)
Definition scan_sign (src : bytes) (i : nat) : nat + nat :=
  match src !! i with
  | None => inr i
  | Some c =>
      if c =? "-"%ch then if (length src <=? S i)%nat then inr (S i) else inl (S i)
      else inl i
  end.

Definition scan_int (src : bytes) (i : nat) : nat + nat :=
  match src !! i with
  | None => inr i
  | Some c =>
      if c =? "0"%ch then inl (S i)
      else if isOneNine c then inl (skip_digits src (S i))
      else inr i
  end.

Definition scan_frac (src : bytes) (i : nat) : nat + nat :=
  if at_byte src i "."%ch then
    if at_digit src (S i) then inl (skip_digits src (S i)) else inr (S i)
  else inl i.

Definition scan_exp (src : bytes) (i : nat) : nat + nat :=
  if at_byte src i "e"%ch || at_byte src i "E"%ch then
    let i := S i in
    let i := if at_byte src i "+"%ch || at_byte src i "-"%ch then S i else i in
    if at_digit src i then inl (skip_digits src i) else inr i
  else inl i.

(** The end position and the message, empty on success. *)
Definition scanNumber (src : bytes) (i : nat) : nat * string :=
  match scan_sign src i with
  | inr i => (i, "invalid number"%string)
  | inl i =>
      match scan_int src i with
      | inr i => (i, "invalid number"%string)
      | inl i =>
          match scan_frac src i with
          | inr i => (i, "invalid number fraction"%string)
          | inl i =>
              match scan_exp src i with
              | inr i => (i, "invalid number exponent"%string)
              | inl i => (i, EmptyString)
              end
          end
      end
  end.

Definition msg_ok (m : string) : bool := match m with EmptyString => true | _ => false end.

(** [validNumber]: exactly one number. *)
Definition validNumber (src : bytes) : bool :=
  let r := scanNumber src 0 in msg_ok r.2 && (r.1 =? length src)%nat.

(** ** Specification *)

(** The bytes that can continue a number. *)
Definition num_char (c : Z) : bool :=
  IsDigit c || (c =? "."%ch) || (c =? "e"%ch) || (c =? "E"%ch) || (c =? "+"%ch) || (c =? "-"%ch).

Lemma at_digit_spec src i : at_digit src i = true <-> exists c, src !! i = Some c /\ IsDigit c = true.
Proof. unfold at_digit. destruct (src !! i); naive_solver. Qed.

Lemma skip_digits_span src i :
  at_digit src i = true ->
  exists s, span src i s (skip_digits src i) /\ digits s /\ s <> [].
Proof.
  intros (c & Hc & Hd)%at_digit_spec. apply lookup_lt_Some in Hc as Hlt.
  destruct (advance_span IsDigit src i ltac:(lia)) as (s & Hs & Hf & _).
  exists s. split_and!; [done|done|]. intros ->. apply span_len in Hs. simpl in Hs.
  rewrite advance_unfold, Hc, Hd in Hs. pose proof (advance_le IsDigit src (S i)). lia.
Qed.

Lemma scan_sign_sound src i j :
  scan_sign src i = inl j -> exists s, span src i s j /\ (s = [] \/ s = ["-"%ch]).
Proof.
  unfold scan_sign. at_pos src i as c E; [|done]. apply lookup_lt_Some in E as Hlt.
  destruct (Z.eqb_spec c "-"%ch) as [->|].
  - case_step; [done|]. intros. simplify_eq. exists ["-"%ch]. eauto with vj.
  - intros. simplify_eq. exists []. split; [apply span_nil; lia|auto].
Qed.

Lemma scan_int_sound src i j :
  scan_int src i = inl j -> exists s, span src i s j /\ jint s.
Proof.
  unfold scan_int. at_pos src i as c E; [|done]. apply lookup_lt_Some in E as Hlt.
  destruct (Z.eqb_spec c "0"%ch) as [->|].
  { intros. simplify_eq. exists ["0"%ch]. split; [auto with vj|constructor]. }
  destruct (isOneNine c) eqn:Hc; [|done]. intros. simplify_eq.
  destruct (advance_span IsDigit src (S i) ltac:(lia)) as (s & Hs & Hf & _).
  exists (c :: s). split; [by apply span_cons_intro|by constructor].
Qed.

Lemma scan_frac_sound src i j :
  (i <= length src)%nat -> scan_frac src i = inl j -> exists s, span src i s j /\ jfrac s.
Proof.
  intros Hi. unfold scan_frac. destruct (at_byte src i "."%ch) eqn:E.
  - apply at_byte_spec in E. destruct (at_digit src (S i)) eqn:Hd; [|done]. intros. simplify_eq.
    destruct (skip_digits_span _ _ Hd) as (s & Hs & Hf & Hne).
    exists ("."%ch :: s). split; [by apply span_cons_intro|by constructor].
  - intros. simplify_eq. exists []. split; [by apply span_nil|constructor].
Qed.

Lemma scan_exp_sound src i j :
  (i <= length src)%nat -> scan_exp src i = inl j -> exists s, span src i s j /\ jexp s.
Proof.
  intros Hi. unfold scan_exp. destruct (_ || _) eqn:E.
  2:{ intros. simplify_eq. exists []. split; [by apply span_nil|constructor]. }
  assert (He : exists e, src !! i = Some e /\ (e = "e"%ch \/ e = "E"%ch))
    by (rewrite orb_true_iff, !at_byte_spec in E; naive_solver).
  destruct He as (e & He & Hor). cbv zeta.
  set (k := if at_byte src (S i) "+"%ch || at_byte src (S i) "-"%ch then S (S i) else S i).
  assert (Hk : exists sg, span src (S i) sg k /\ (sg = [] \/ sg = ["+"%ch] \/ sg = ["-"%ch])).
  { subst k. apply lookup_lt_Some in He. case_step.
    - rewrite orb_true_iff, !at_byte_spec in Heqb.
      destruct Heqb as [H|H]; eexists; (split; [by apply span_one|auto]).
    - exists []. split; [apply span_nil; lia|auto]. }
  destruct Hk as (sg & Hsg & Hsgn). destruct (at_digit src k) eqn:Hd; [|done]. intros. simplify_eq.
  destruct (skip_digits_span _ _ Hd) as (s & Hs & Hf & Hne).
  exists (e :: sg ++ s). split; [|by constructor].
  apply span_cons_intro; [done|]. by eapply span_app.
Qed.

(** Soundness: an empty message means a number of the grammar was read. *)
Lemma scanNumber_number src i j :
  scanNumber src i = (j, EmptyString) -> exists s, span src i s j /\ jnumber s.
Proof.
  unfold scanNumber.
  destruct (scan_sign src i) as [i1|] eqn:H1; [|done].
  destruct (scan_int src i1) as [i2|] eqn:H2; [|done].
  destruct (scan_frac src i2) as [i3|] eqn:H3; [|done].
  destruct (scan_exp src i3) as [i4|] eqn:H4; [|done]. intros. simplify_eq.
  apply scan_sign_sound in H1 as (s1 & S1 & ?). apply scan_int_sound in H2 as (s2 & S2 & ?).
  apply span_le in S2 as L2. apply scan_frac_sound in H3 as (s3 & S3 & ?); [|lia].
  apply span_le in S3 as L3. apply scan_exp_sound in H4 as (s4 & S4 & ?); [|lia].
  exists (s1 ++ s2 ++ s3 ++ s4). split; [|by constructor]. eauto with vj.
Qed.

Lemma jint_head s : jint s -> exists c t, s = c :: t /\ IsDigit c = true.
Proof.
  destruct 1 as [|c s Hc Hs]; [by exists "0"%ch, []|]. exists c, s. split; [done|].
  unfold IsDigit, isOneNine in *. lia.
Qed.

(** The bytes of a number. *)
Definition number_char (c : Z) : bool :=
  IsDigit c || (c =? "-"%ch) || (c =? "+"%ch) || (c =? "."%ch) || (c =? "e"%ch) || (c =? "E"%ch).

Lemma jnumber_chars s : jnumber s -> Forall (fun c => number_char c = true) s.
Proof.
  intros H. assert (Hd : forall l, digits l -> Forall (fun c => number_char c = true) l).
  { intros l Hl. eapply Forall_impl; [exact Hl|]. intros c. unfold number_char. by intros ->. }
  destruct H as [sgn int frac exp Hs Hi Hf He]. apply Forall_app. split; [destruct Hs as [->| ->]; by repeat constructor|].
  apply Forall_app. split; [destruct Hi; [by repeat constructor|constructor; [unfold isOneNine, number_char, IsDigit in *; lia|by apply Hd]]|].
  apply Forall_app. split; [destruct Hf; [constructor|constructor; [done|by apply Hd]]|].
  destruct He as [|e sg s He Hsg Hds]; [constructor|]. constructor; [by destruct He as [->| ->]|].
  apply Forall_app. split; [destruct Hsg as [->|[->| ->]]; by repeat constructor|by apply Hd].
Qed.

Lemma jnumber_head s : jnumber s -> exists c t, s = c :: t /\ (c = "-"%ch \/ IsDigit c = true).
Proof.
  destruct 1 as [sg int frac exp Hsg Hint _ _]. apply jint_head in Hint as (c & t & -> & Hc).
  destruct Hsg as [->| ->]; eexists _, _; split; eauto.
Qed.

Lemma jexp_head s c t : jexp s -> s = c :: t -> (c = "e"%ch \/ c = "E"%ch).
Proof. destruct 1; naive_solver. Qed.
Lemma jfrac_head s c t : jfrac s -> s = c :: t -> c = "."%ch.
Proof. destruct 1; naive_solver. Qed.

Lemma jexp_span_head src i s j :
  jexp s -> span src i s j -> stops num_char (drop j src) ->
  match src !! i with
  | Some c => c <> "."%ch /\ IsDigit c = false
  | None => True
  end.
Proof.
  intros Hs Hsp Hst. destruct s as [|c s].
  - apply span_nil_inv in Hsp as [-> _]. rewrite stops_lookup in Hst.
    destruct (src !! i); [|done]. unfold num_char in Hst. rewrite !orb_false_iff in Hst. naive_solver lia.
  - apply span_cons in Hsp as [-> _]. destruct (jexp_head _ c s Hs eq_refl); subst; done.
Qed.

Lemma jfrac_span_head src i s j t k :
  jfrac s -> jexp t -> span src i s j -> span src j t k -> stops num_char (drop k src) ->
  stops IsDigit (drop i src).
Proof.
  intros Hs Ht H1 H2 Hst. rewrite stops_lookup. destruct s as [|c s].
  - apply span_nil_inv in H1 as [-> _]. pose proof (jexp_span_head _ _ _ _ Ht H2 Hst) as H.
    destruct (src !! i); naive_solver.
  - apply span_cons in H1 as [-> _]. pose proof (jfrac_head _ c s Hs eq_refl). by subst.
Qed.

Lemma scan_int_complete src i s j :
  jint s -> span src i s j -> stops IsDigit (drop j src) -> scan_int src i = inl j.
Proof.
  intros Hs Hsp Hst. unfold scan_int. destruct Hs as [|c s Hc Hs].
  - apply span_cons in Hsp as [-> [-> _]%span_nil_inv]. done.
  - apply span_cons in Hsp as [-> Hsp]. rewrite if_false by (unfold isOneNine in Hc; lia).
    rewrite Hc. f_equal. by eapply advance_complete.
Qed.

Lemma at_digit_head src i c s k :
  span src i (c :: s) k -> IsDigit c = true -> at_digit src i = true.
Proof. intros [H _]%span_cons Hc. unfold at_digit. by rewrite H. Qed.

Lemma digits_complete src i s j :
  digits s -> s <> [] -> span src i s j -> stops IsDigit (drop j src) ->
  at_digit src i = true /\ skip_digits src i = j.
Proof.
  intros Hs Hne Hsp Hst. split; [|by eapply advance_complete].
  destruct s as [|c s]; [done|]. inversion Hs; subst. by eapply at_digit_head.
Qed.

Lemma scan_frac_complete src i s j t k :
  jfrac s -> jexp t -> span src i s j -> span src j t k -> stops num_char (drop k src) ->
  scan_frac src i = inl j.
Proof.
  intros Hs Ht H1 H2 Hst. pose proof (jexp_span_head _ _ _ _ Ht H2 Hst) as Hh. unfold scan_frac.
  destruct Hs as [|s Hd Hne].
  - apply span_nil_inv in H1 as [-> _]. unfold at_byte. destruct (src !! i) as [c|]; [|done].
    by rewrite if_false by (destruct Hh; lia).
  - apply span_cons in H1 as [Hc H1]. rewrite (proj2 (at_byte_spec src i "."%ch)) by done.
    destruct (digits_complete src (S i) s j) as [-> ->]; [done|done|done| |done].
    rewrite stops_lookup. destruct (src !! j); naive_solver.
Qed.

Lemma scan_exp_complete src i s j :
  jexp s -> span src i s j -> stops num_char (drop j src) -> scan_exp src i = inl j.
Proof.
  intros Hs H1 Hst. unfold scan_exp. destruct Hs as [|e sg s He Hsg Hd Hne].
  - apply span_nil_inv in H1 as [-> _]. rewrite stops_lookup in Hst. unfold at_byte.
    destruct (src !! i) as [c|]; [|done]. unfold num_char in Hst.
    by rewrite if_false by lia.
  - apply span_cons in H1 as [Hc H1]. rewrite if_true.
    2:{ rewrite orb_true_iff, !at_byte_spec. naive_solver. }
    apply span_split in H1 as [H1 H2]. cbv zeta.
    assert (Hst' : stops IsDigit (drop j src)).
    { destruct (drop j src); [done|]. simpl in *. unfold num_char in Hst.
      rewrite !orb_false_iff in Hst. naive_solver. }
    destruct (digits_complete _ _ _ _ Hd Hne H2 Hst') as [Ha Hb].
    assert (Hk : (if at_byte src (S i) "+"%ch || at_byte src (S i) "-"%ch then S (S i) else S i)
                 = (S i + length sg)%nat).
    { destruct Hsg as [->|[->| ->]].
      - simpl in *. rewrite Nat.add_0_r in *. apply at_digit_spec in Ha as (x & Hx & Hdx).
        unfold at_byte. rewrite Hx. rewrite if_false by (unfold IsDigit in Hdx; lia). done.
      - apply span_cons in H1 as [H1 _]. rewrite if_true; [simpl; lia|].
        rewrite orb_true_iff, !at_byte_spec. auto.
      - apply span_cons in H1 as [H1 _]. rewrite if_true; [simpl; lia|].
        rewrite orb_true_iff, !at_byte_spec. auto. }
    rewrite Hk, Ha, Hb. done.
Qed.

(** Completeness: a number that nothing extends is read to its end. *)
Lemma scanNumber_complete src i s j :
  jnumber s -> span src i s j -> stops num_char (drop j src) -> scanNumber src i = (j, EmptyString).
Proof.
  intros Hs Hsp Hst. destruct Hs as [sg int frac exp Hsg Hint Hfrac Hexp].
  apply span_split in Hsp as [H1 Hsp]. apply span_split in Hsp as [H2 Hsp].
  apply span_split in Hsp as [H3 H4]. unfold scanNumber.
  assert (Hhead : exists c, src !! (i + length sg)%nat = Some c /\ IsDigit c = true).
  { apply jint_head in Hint as (c & t & -> & Hc). apply span_cons in H2 as [? _]. eauto. }
  destruct Hhead as (c & Hc & Hd).
  assert (scan_sign src i = inl (i + length sg)%nat) as ->.
  { unfold scan_sign. destruct Hsg as [->| ->].
    - simpl in *. rewrite Nat.add_0_r in *. rewrite Hc. unfold IsDigit in Hd. by rewrite if_false by lia.
    - apply span_cons in H1 as [-> _]. simpl in *. replace (i + 1)%nat with (S i) in * by lia.
      apply lookup_lt_Some in Hc. by rewrite (proj2 (Nat.leb_gt _ _) Hc). }
  rewrite (scan_int_complete _ _ _ _ Hint H2) by (by eapply jfrac_span_head).
  rewrite (scan_frac_complete _ _ _ _ _ _ Hfrac Hexp H3 H4 Hst).
  by rewrite (scan_exp_complete _ _ _ _ Hexp H4 Hst).
Qed.

(** The scanner always stops inside the source. *)
Lemma scanNumber_range src i : (i <= length src)%nat -> (i <= (scanNumber src i).1 <= length src)%nat.
Proof.
  intros Hi. unfold scanNumber.
  assert (Hsign : match scan_sign src i with inl j | inr j => (i <= j <= length src)%nat end).
  { unfold scan_sign. at_pos src i as c E; [|lia]. apply lookup_lt_Some in E. repeat case_step; lia. }
  destruct (scan_sign src i) as [i1|]; [|simpl; lia].
  assert (Hint : match scan_int src i1 with inl j | inr j => (i1 <= j <= length src)%nat end).
  { unfold scan_int. at_pos src i1 as c E; [|lia]. apply lookup_lt_Some in E.
    pose proof (advance_le IsDigit src (S i1)). unfold skip_digits. repeat case_step; lia. }
  destruct (scan_int src i1) as [i2|]; [|simpl; lia].
  assert (Hat : forall k b, at_byte src k b = true -> (S k <= length src)%nat)
    by (intros k b H%at_byte_lt; lia).
  assert (Hd : forall k, at_digit src k = true -> (k < skip_digits src k <= length src)%nat).
  { intros k H. destruct (skip_digits_span _ _ H) as (s & Hs & _ & Hne). apply span_len in Hs as Hl.
    apply span_le in Hs. destruct s; [done|simpl in Hl; lia]. }
  assert (Hfrac : match scan_frac src i2 with inl j | inr j => (i2 <= j <= length src)%nat end).
  { unfold scan_frac. destruct (at_byte src i2 "."%ch) eqn:E; [|lia]. apply Hat in E.
    destruct (at_digit src (S i2)) eqn:E2; [apply Hd in E2|]; lia. }
  destruct (scan_frac src i2) as [i3|]; [|simpl; lia].
  assert (Hexp : match scan_exp src i3 with inl j | inr j => (i3 <= j <= length src)%nat end).
  { unfold scan_exp. destruct (_ || _) eqn:E; [|lia].
    assert (S i3 <= length src)%nat by (apply orb_true_iff in E as [E|E]; by apply Hat in E).
    cbv zeta. set (k := if _ : bool then S (S i3) else S i3).
    assert (i3 <= k <= length src)%nat.
    { subst k. case_step; [|lia]. apply orb_true_iff in Heqb as [H'|H']; apply Hat in H'; lia. }
    destruct (at_digit src k) eqn:E2; [apply Hd in E2|]; lia. }
  destruct (scan_exp src i3); simpl; lia.
Qed.

Lemma validNumber_jnumber src : bytes_ok src -> validNumber src = true <-> jnumber src.
Proof.
  intros Hok. unfold validNumber. destruct (scanNumber src 0) as [j m] eqn:E. simpl. split.
  - intros [Hm Hj]%andb_true_iff. destruct m; [|done]. apply Nat.eqb_eq in Hj as ->.
    apply scanNumber_number in E as (s & Hs & Hn). by rewrite <- (span_whole_inv _ _ Hs).
  - intros Hn. rewrite (scanNumber_complete src 0 src (length src)) in E;
      [|done|apply span_whole|by rewrite drop_all]. simplify_eq. simpl. by rewrite Nat.eqb_refl.
Qed.

(** ** Properties *)

(** [validNumber] accepts exactly the JSON numbers. *)
Theorem validNumber_grammar src : bytes_ok src -> validNumber src = true <-> jnumber src.
Proof. apply validNumber_jnumber. Qed.

Lemma validNumber_grammar_witness :
  (validNumber (bs "-12.50e+7") = true <-> jnumber (bs "-12.50e+7")) /\
  (validNumber (bs "01") = true <-> jnumber (bs "01")).
Proof. split; apply validNumber_grammar; concrete_bytes. Defined.

(** the number scanner stops inside the source; when it succeeds it has read a JSON number, and it reads a whole number whenever one is followed by a byte that cannot continue it. *)
Theorem scanNumber_token src i s j :
  (i <= length src)%nat ->
  (i <= (scanNumber src i).1 <= length src)%nat /\
  (scanNumber src i = (j, EmptyString) -> jnumber (slice src i j)) /\
  (jnumber s -> span src i s j -> stops num_char (drop j src) -> scanNumber src i = (j, EmptyString)).
Proof.
  intros Hi. split; [by apply scanNumber_range|]. split.
  - intros (t & Ht & Hn)%scanNumber_number. by rewrite (span_slice _ _ _ _ Ht).
  - apply scanNumber_complete.
Qed.

Lemma scanNumber_token_witness :
  let src := bs "[-0.5e3 ]" in
  (1 <= (scanNumber src 1).1 <= 9)%nat /\
  (scanNumber src 1 = (7%nat, EmptyString) -> jnumber (slice src 1 7)) /\
  (jnumber (bs "-0.5e3") -> span src 1 (bs "-0.5e3") 7 -> stops num_char (drop 7 src) ->
   scanNumber src 1 = (7%nat, EmptyString)).
Proof. apply (scanNumber_token (bs "[-0.5e3 ]") 1 (bs "-0.5e3") 7). vm_compute. lia. Defined.
