(* ===== verification/Reader.v ===== *)
(** The reference reader: the recursive-descent reading of a document that
    returns its tree, written once.  The validator, the compactor, the indenter
    and the raw seeker are each proved to follow it byte for byte and error for
    error; the reader itself is proved sound, complete and total for the grammar
    here. *)

From S2P Require Import Prelude Words Utf8 Scanner Lex Grammar StringRef Numbers.

Definition rerr : Type := nat * string.

Definition depth_msg : string := "maximum nesting depth exceeded".

Section Reader.
Context (src : bytes) (maxDepth : Z) (unexpected : Z -> string).

Definition ref_ws (i : nat) : nat := advance IsJSONWhitespace src i.

Definition ref_lit (lit : bytes) (t : tree) (i : nat) : res rerr (nat * tree) :=
  if matchStringAt src i lit then Ok ((i + length lit)%nat, t)
  else Err (i, "invalid literal"%string).

Definition ref_num (i : nat) : res rerr (nat * tree) :=
  match scanNumber src i with
  | (j, EmptyString) => Ok (j, TNum (slice src i j))
  | (_, msg) => Err (i, msg)
  end.

Definition ref_str (i : nat) : res rerr (nat * bytes) := str_at src (S i) [].

Section Body.
Context (rv : Z -> nat -> res rerr (nat * tree)).

(** The elements of an array, from the position after the bracket. *)
Fixpoint ref_elems (fuel : nat) (depth : Z) (i : nat) (acc : list tree) :
  res rerr (nat * list tree) :=
  match fuel with
  | O => NoFuel
  | S fuel =>
    let i := ref_ws i in
    let* (i, t) := rv depth i in
    let acc := acc ++ [t] in
    let i := ref_ws i in
    match src !! i with
    | None => Err (i, "unterminated array"%string)
    | Some c =>
      if c =? ","%ch then ref_elems fuel depth (S i) acc
      else if c =? "]"%ch then Ok (S i, acc)
      else Err (i, "expected comma or closing bracket in array"%string)
    end
  end.

Fixpoint ref_members (fuel : nat) (depth : Z) (i : nat) (acc : list ((bytes * bytes) * tree)) :
  res rerr (nat * list ((bytes * bytes) * tree)) :=
  match fuel with
  | O => NoFuel
  | S fuel =>
    let i := ref_ws i in
    if at_byte src i DQUOTE then
    let* (j, name) := ref_str i in
    let key := slice src i j in
    let i := ref_ws j in
    if at_byte src i ":"%ch then
    let i := ref_ws (S i) in
    let* (i, t) := rv depth i in
    let acc := acc ++ [((key, name), t)] in
    let i := ref_ws i in
    match src !! i with
    | None => Err (i, "unterminated object"%string)
    | Some c =>
      if c =? ","%ch then ref_members fuel depth (S i) acc
      else if c =? "}"%ch then Ok (S i, acc)
      else Err (i, "expected comma or closing brace in object"%string)
    end
    else Err (i, "expected colon after object key"%string)
    else Err (i, "expected object key string"%string)
  end.

Definition ref_array (depth : Z) (i : nat) : res rerr (nat * tree) :=
  if maxDepth <? depth then Err (i, depth_msg)
  else
  let j := ref_ws (S i) in
  if at_byte src j "]"%ch then Ok (S j, TArr (slice src i (S j)) [])
  else
  let* (k, ts) := ref_elems (S (length src)) depth j [] in
  Ok (k, TArr (slice src i k) ts).

Definition ref_object (depth : Z) (i : nat) : res rerr (nat * tree) :=
  if maxDepth <? depth then Err (i, depth_msg)
  else
  let j := ref_ws (S i) in
  if at_byte src j "}"%ch then Ok (S j, TObj (slice src i (S j)) [])
  else
  let* (k, ms) := ref_members (S (length src)) depth j [] in
  Ok (k, TObj (slice src i k) ms).

Definition ref_body (depth : Z) (i : nat) : res rerr (nat * tree) :=
  if maxDepth <? depth then Err (i, depth_msg)
  else
  match src !! i with
  | None => Err (i, "expected value"%string)
  | Some c =>
    if c =? "n"%ch then ref_lit lit_null TNull i
    else if c =? "t"%ch then ref_lit lit_true (TBool true) i
    else if c =? "f"%ch then ref_lit lit_false (TBool false) i
    else if c =? DQUOTE then
    let* (j, dec) := ref_str i in Ok (j, TStr (slice src i j) dec)
    else if c =? "["%ch then ref_array (depth + 1) i
    else if c =? "{"%ch then ref_object (depth + 1) i
    else if (c =? "-"%ch) || IsDigit c then ref_num i
    else Err (i, unexpected c)
  end.
End Body.

Fixpoint ref_value (fuel : nat) (depth : Z) (i : nat) : res rerr (nat * tree) :=
  match fuel with
  | O => NoFuel
  | S fuel => ref_body (ref_value fuel) depth i
  end.

(** A whole document. *)
Definition ref_doc : res rerr tree :=
  let* (i, t) := ref_value (S (length src)) 0 (ref_ws 0) in
  let i := ref_ws i in
  if (i =? length src)%nat then Ok t
  else Err (i, "unexpected data after top-level value"%string).
End Reader.

(** ** Soundness, totality, position bounds *)

Definition reads (src : bytes) (k : Z) (i : nat) (r : res rerr (nat * tree)) : Prop :=
  match r with
  | Ok (j, t) => (i < j)%nat /\ exists s, span src i s j /\ jvalue k s t
  | Err (o, _) => (i <= o <= length src)%nat
  | _ => False
  end.

Section Sound.
Context (src : bytes) (maxDepth : Z) (unexpected : Z -> string).
Hypothesis Hsrc : bytes_ok src.

Lemma ref_ws_span i :
  (i <= length src)%nat -> exists w, span src i w (ref_ws src i) /\ ws w.
Proof using.
  intros Hi. destruct (advance_span IsJSONWhitespace src i Hi) as (w & Hw & Hf & _). eauto.
Qed.

Lemma ref_ws_le i : (i <= length src)%nat -> (i <= ref_ws src i <= length src)%nat.
Proof using. intros. by apply advance_le. Qed.

Lemma ref_ws_idem i : (i <= length src)%nat -> ref_ws src (ref_ws src i) = ref_ws src i.
Proof using.
  intros Hi. destruct (advance_span IsJSONWhitespace src i Hi) as (w & Hw & Hf & Hs).
  by apply advance_stop.
Qed.

Lemma ref_str_sound i :
  src !! i = Some DQUOTE ->
  match ref_str src i with
  | Ok (j, dec) => (i < j)%nat /\ exists s, span src i s j /\ jstring s dec
  | Err (o, _) => (i <= o <= length src)%nat
  | _ => False
  end.
Proof using Hsrc.
  intros Hi. pose proof (lookup_lt_Some _ _ _ Hi) as Hlt. unfold ref_str, str_at.
  assert (Hdr : bytes_ok (drop (S i) src)) by by apply Forall_drop.
  destruct (str_ref (drop (S i) src) 0 (S i) []) as [[j dec]|[o m]| |] eqn:E.
  - apply str_ref_sound in E as (s & d & t & Hl & Hs & -> & ->); [|done].
    split; [lia|]. exists (DQUOTE :: s ++ [DQUOTE]). split; [|by constructor].
    apply span_cons_intro; [done|].
    replace (S i + length s + 1)%nat with (S i + length (s ++ [DQUOTE]))%nat
      by (rewrite length_app; simpl; lia).
    eapply (span_intro _ _ _ t); [lia|]. rewrite Hl. by rewrite <- app_assoc.
  - pose proof (str_ref_err_range _ _ _ _ _ _ E) as H. rewrite length_drop in H. lia.
  - by apply str_ref_returns in E.
  - by apply str_ref_returns in E.
Qed.

Lemma ref_lit_sound lit t k i :
  (i <= length src)%nat -> jvalue k lit t -> lit <> [] -> reads src k i (ref_lit src lit t i).
Proof using.
  intros Hi Hv Hne. unfold ref_lit. destruct (matchStringAt src i lit) eqn:E; simpl; [|lia].
  apply matchStringAt_span in E; [|done]. split; [destruct lit; simpl; [done|lia]|eauto].
Qed.

Lemma ref_num_sound k i :
  0 <= k -> (i < length src)%nat -> reads src k i (ref_num src i).
Proof using.
  intros Hk Hi. unfold ref_num. destruct (scanNumber src i) as [j [|]] eqn:E; [|simpl; lia].
  apply scanNumber_number in E as (s & Hs & Hn). simpl. split.
  - destruct (jnumber_head _ Hn) as (c & t & -> & _). apply span_len in Hs. simpl in Hs. lia.
  - exists s. split; [done|]. rewrite (span_slice _ _ _ _ Hs). by constructor.
Qed.

Section Containers.
Context (rv : Z -> nat -> res rerr (nat * tree)) (depth : Z) (bound : nat).
Hypothesis Hrv : forall i, (bound <= i <= length src)%nat -> reads src (maxDepth - depth) i (rv depth i).

Lemma ref_elems_sound fuel i acc :
  (bound <= i <= length src)%nat -> (length src - i < fuel)%nat ->
  match ref_elems src rv fuel depth i acc with
  | Ok (j, ts) => (i < j)%nat /\ exists s ts', span src i (s ++ ["]"%ch]) j /\
    ts = acc ++ ts' /\ jelems (maxDepth - depth) s ts'
  | Err (o, _) => (i <= o <= length src)%nat
  | _ => False
  end.
Proof using Hrv.
  revert i acc. induction fuel as [|fuel IH]; intros i acc Hi Hf; [lia|]. cbn [ref_elems].
  destruct (ref_ws_span i ltac:(lia)) as (w1 & Hw1 & Hws1). pose proof (span_le _ _ _ _ Hw1) as L1.
  specialize (Hrv (ref_ws src i) ltac:(lia)).
  destruct (rv depth (ref_ws src i)) as [[j t]|[o m]| |]; simpl in Hrv |- *; [|lia|done|done].
  destruct Hrv as (Hj & s & Hs & Hv). pose proof (span_le _ _ _ _ Hs) as L2.
  destruct (ref_ws_span j ltac:(lia)) as (w2 & Hw2 & Hws2). pose proof (span_le _ _ _ _ Hw2) as L3.
  set (k := ref_ws src j) in *. at_pos src k as c E; [|lia].
  pose proof (lookup_lt_Some _ _ _ E) as Hlt. destruct (Z.eqb_spec c ","%ch) as [->|Hc].
  - specialize (IH (S k) (acc ++ [t]) ltac:(lia) ltac:(lia)).
    destruct (ref_elems src rv fuel depth (S k) (acc ++ [t])) as [[e ts]|[o m]| |];
      [|lia|done|done].
    destruct IH as (He & r & ts' & Hr & -> & Hjs). split; [lia|].
    exists (w1 ++ s ++ w2 ++ ","%ch :: r), (t :: ts'). rewrite <- !app_assoc. split_and!.
    + do 3 (eapply span_app; [done|]). by apply span_cons_intro.
    + done.
    + by constructor.
  - destruct (Z.eqb_spec c "]"%ch) as [->|Hc2]; [|lia].
    split; [lia|]. exists (w1 ++ s ++ w2), [t]. rewrite <- !app_assoc. split_and!.
    + do 3 (eapply span_app; [done|]). by apply span_one.
    + done.
    + by constructor.
Qed.

Lemma ref_members_sound fuel i acc :
  (bound <= i <= length src)%nat -> (length src - i < fuel)%nat ->
  match ref_members src rv fuel depth i acc with
  | Ok (j, ms) => (i < j)%nat /\ exists s ms', span src i (s ++ ["}"%ch]) j /\
    ms = acc ++ ms' /\ jmembers (maxDepth - depth) s ms'
  | Err (o, _) => (i <= o <= length src)%nat
  | _ => False
  end.
Proof using Hrv Hsrc.
  revert i acc. induction fuel as [|fuel IH]; intros i acc Hi Hf; [lia|]. cbn [ref_members].
  destruct (ref_ws_span i ltac:(lia)) as (w1 & Hw1 & Hws1). pose proof (span_le _ _ _ _ Hw1) as L1.
  set (i1 := ref_ws src i) in *. destruct (at_byte src i1 DQUOTE) eqn:Hq; [|lia].
  apply at_byte_spec in Hq. pose proof (ref_str_sound i1 Hq) as Hst.
  destruct (ref_str src i1) as [[i2 name]|[o m]| |]; simpl; [|lia|done|done].
  destruct Hst as (Hi2 & key & Hkey & Hjk). pose proof (span_le _ _ _ _ Hkey) as L2.
  destruct (ref_ws_span i2 ltac:(lia)) as (w2 & Hw2 & Hws2). pose proof (span_le _ _ _ _ Hw2) as L3.
  set (i3 := ref_ws src i2) in *. destruct (at_byte src i3 ":"%ch) eqn:Hcol; [|lia].
  apply at_byte_spec in Hcol. pose proof (lookup_lt_Some _ _ _ Hcol) as Hlt3.
  destruct (ref_ws_span (S i3) ltac:(lia)) as (w3 & Hw3 & Hws3). pose proof (span_le _ _ _ _ Hw3) as L4.
  set (i4 := ref_ws src (S i3)) in *. specialize (Hrv i4 ltac:(lia)).
  destruct (rv depth i4) as [[j t]|[o m]| |]; simpl in Hrv |- *; [|lia|done|done].
  destruct Hrv as (Hj & s & Hs & Hv). pose proof (span_le _ _ _ _ Hs) as L5.
  destruct (ref_ws_span j ltac:(lia)) as (w4 & Hw4 & Hws4). pose proof (span_le _ _ _ _ Hw4) as L6.
  rewrite (span_slice _ _ _ _ Hkey).
  set (k := ref_ws src j) in *. at_pos src k as c E; [|lia].
  pose proof (lookup_lt_Some _ _ _ E) as Hlt. destruct (Z.eqb_spec c ","%ch) as [->|Hc].
  - specialize (IH (S k) (acc ++ [((key, name), t)]) ltac:(lia) ltac:(lia)).
    destruct (ref_members src rv fuel depth (S k) _) as [[e ms]|[o m]| |]; [|lia|done|done].
    destruct IH as (He & r & ms' & Hr & -> & Hjs). split; [lia|].
    exists (w1 ++ key ++ w2 ++ ":"%ch :: w3 ++ s ++ w4 ++ ","%ch :: r), (((key, name), t) :: ms').
    rewrite <- !app_assoc. split_and!; [|done|by constructor].
    do 3 (eapply span_app; [done|]). simpl. apply span_cons_intro; [done|]. rewrite <- !app_assoc.
    do 3 (eapply span_app; [done|]). by apply span_cons_intro.
  - destruct (Z.eqb_spec c "}"%ch) as [->|Hc2]; [|lia].
    split; [lia|]. exists (w1 ++ key ++ w2 ++ ":"%ch :: w3 ++ s ++ w4), [((key, name), t)].
    rewrite <- !app_assoc. split_and!; [|done|by constructor].
    do 3 (eapply span_app; [done|]). simpl. apply span_cons_intro; [done|]. rewrite <- !app_assoc.
    do 3 (eapply span_app; [done|]). by apply span_one.
Qed.
End Containers.

Lemma ref_array_sound rv depth i :
  (i < length src)%nat -> src !! i = Some "["%ch ->
  (forall j, (S i <= j <= length src)%nat ->
  reads src (maxDepth - (depth + 1)) j (rv (depth + 1) j)) ->
  reads src (maxDepth - depth) i (ref_array src maxDepth rv (depth + 1) i).
Proof using.
  intros Hi Hc Hrv. unfold ref_array. destruct (Z.ltb_spec maxDepth (depth + 1)); [simpl; lia|].
  destruct (ref_ws_span (S i) ltac:(lia)) as (w & Hw & Hws). pose proof (span_le _ _ _ _ Hw) as L1.
  cbv zeta. destruct (at_byte src (ref_ws src (S i)) "]"%ch) eqn:E.
  - apply at_byte_spec in E. apply lookup_lt_Some in E as Hlt. simpl. split; [lia|].
    assert (Hs : span src i ("["%ch :: w ++ ["]"%ch]) (S (ref_ws src (S i)))).
    { apply span_cons_intro; [done|]. eapply span_app; [done|]. by apply span_one. }
    eexists. split; [exact Hs|]. rewrite (span_slice _ _ _ _ Hs). constructor; [lia|done].
  - pose proof (ref_elems_sound rv (depth + 1) (S i) Hrv (S (length src)) (ref_ws src (S i)) []
      ltac:(lia) ltac:(lia)) as H'.
    destruct (ref_elems src rv _ _ _ _) as [[k ts]|[o m]| |]; simpl; [|lia|done|done].
    destruct H' as (Hk & s & ts' & Hs & -> & Hj). split; [lia|].
    pose proof (jelems_ws _ w _ _ Hws Hj) as Hj'.
    assert (Hs' : span src i ("["%ch :: (w ++ s) ++ ["]"%ch]) k).
    { apply span_cons_intro; [done|]. rewrite <- app_assoc. by eapply span_app. }
    eexists. split; [exact Hs'|]. rewrite (span_slice _ _ _ _ Hs'). constructor; [lia|].
    by replace (maxDepth - depth - 1) with (maxDepth - (depth + 1)) by lia.
Qed.

Lemma ref_object_sound rv depth i :
  (i < length src)%nat -> src !! i = Some "{"%ch ->
  (forall j, (S i <= j <= length src)%nat ->
  reads src (maxDepth - (depth + 1)) j (rv (depth + 1) j)) ->
  reads src (maxDepth - depth) i (ref_object src maxDepth rv (depth + 1) i).
Proof using Hsrc.
  intros Hi Hc Hrv. unfold ref_object. destruct (Z.ltb_spec maxDepth (depth + 1)); [simpl; lia|].
  destruct (ref_ws_span (S i) ltac:(lia)) as (w & Hw & Hws). pose proof (span_le _ _ _ _ Hw) as L1.
  cbv zeta. destruct (at_byte src (ref_ws src (S i)) "}"%ch) eqn:E.
  - apply at_byte_spec in E. apply lookup_lt_Some in E as Hlt. simpl. split; [lia|].
    assert (Hs : span src i ("{"%ch :: w ++ ["}"%ch]) (S (ref_ws src (S i)))).
    { apply span_cons_intro; [done|]. eapply span_app; [done|]. by apply span_one. }
    eexists. split; [exact Hs|]. rewrite (span_slice _ _ _ _ Hs). constructor; [lia|done].
  - pose proof (ref_members_sound rv (depth + 1) (S i) Hrv (S (length src)) (ref_ws src (S i)) []
      ltac:(lia) ltac:(lia)) as H'.
    destruct (ref_members src rv _ _ _ _) as [[k ts]|[o m]| |]; simpl; [|lia|done|done].
    destruct H' as (Hk & s & ts' & Hs & -> & Hj). split; [lia|].
    pose proof (jmembers_ws _ w _ _ Hws Hj) as Hj'.
    assert (Hs' : span src i ("{"%ch :: (w ++ s) ++ ["}"%ch]) k).
    { apply span_cons_intro; [done|]. rewrite <- app_assoc. by eapply span_app. }
    eexists. split; [exact Hs'|]. rewrite (span_slice _ _ _ _ Hs'). constructor; [lia|].
    by replace (maxDepth - depth - 1) with (maxDepth - (depth + 1)) by lia.
Qed.

(** Soundness and totality of the reader. *)
Lemma ref_value_sound fuel depth i :
  (i <= length src)%nat -> (length src - i < fuel)%nat ->
  reads src (maxDepth - depth) i (ref_value src maxDepth unexpected fuel depth i).
Proof using Hsrc.
  revert depth i. induction fuel as [|fuel IH]; intros depth i Hi Hf; [lia|].
  cbn [ref_value]. unfold ref_body. destruct (Z.ltb_spec maxDepth depth); [simpl; lia|].
  at_pos src i as c E; [|simpl; lia]. pose proof (lookup_lt_Some _ _ _ E) as Hlt.
  assert (IH' : forall j, (S i <= j <= length src)%nat ->
    reads src (maxDepth - (depth + 1)) j (ref_value src maxDepth unexpected fuel (depth + 1) j)).
  { intros. apply IH; lia. }
  destruct (Z.eqb_spec c "n"%ch); [apply ref_lit_sound; [lia|constructor; lia|done]|].
  destruct (Z.eqb_spec c "t"%ch); [apply ref_lit_sound; [lia|constructor; lia|done]|].
  destruct (Z.eqb_spec c "f"%ch); [apply ref_lit_sound; [lia|constructor; lia|done]|].
  destruct (Z.eqb_spec c DQUOTE) as [->|].
  { pose proof (ref_str_sound i E) as H'.
  destruct (ref_str src i) as [[j dec]|[o m]| |]; simpl; [|lia|done|done].
  destruct H' as (Hj & s & Hs & Hjs). split; [lia|]. exists s. split; [done|].
  rewrite (span_slice _ _ _ _ Hs). constructor; [lia|done]. }
  destruct (Z.eqb_spec c "["%ch) as [->|]; [by apply ref_array_sound|].
  destruct (Z.eqb_spec c "{"%ch) as [->|]; [by apply ref_object_sound|].
  destruct (_ || _); [apply ref_num_sound; lia|simpl; lia].
Qed.
(** More fuel changes nothing: the reader depends on the value reader only at
the positions it visits. *)
Section Fuel.
Context (rv1 rv2 : Z -> nat -> res rerr (nat * tree)) (depth : Z) (bound : nat).
Hypothesis Hread : forall i, (bound <= i <= length src)%nat -> reads src (maxDepth - depth) i (rv1 depth i).
Hypothesis Heq : forall i, (bound <= i <= length src)%nat -> rv1 depth i = rv2 depth i.

Lemma ref_elems_ext fuel i acc :
  (bound <= i <= length src)%nat ->
  ref_elems src rv1 fuel depth i acc = ref_elems src rv2 fuel depth i acc.
Proof using Hread Heq.
  revert i acc. induction fuel as [|fuel IH]; intros i acc Hi; cbn [ref_elems]; [done|].
  pose proof (ref_ws_le i ltac:(lia)) as H1. specialize (Hread (ref_ws src i) ltac:(lia)).
  rewrite <- Heq by lia. destruct (rv1 depth (ref_ws src i)) as [[j t]|[o m]| |]; cbn [res_bind reads] in *; [|done..].
  destruct Hread as (Hj & s & Hs%span_le & _). pose proof (ref_ws_le j ltac:(lia)) as H2.
  at_pos src (ref_ws src j) as c E; [|done]. apply lookup_lt_Some in E as Hlt.
  destruct (c =? ","%ch); [apply IH; lia|done].
Qed.

Lemma ref_members_ext fuel i acc :
  (bound <= i <= length src)%nat ->
  ref_members src rv1 fuel depth i acc = ref_members src rv2 fuel depth i acc.
Proof using Hsrc Hread Heq.
  revert i acc. induction fuel as [|fuel IH]; intros i acc Hi; cbn [ref_members]; [done|].
  pose proof (ref_ws_le i ltac:(lia)) as H1. destruct (at_byte src (ref_ws src i) DQUOTE) eqn:Hq; [|done].
  apply at_byte_spec in Hq. pose proof (ref_str_sound _ Hq) as Hstr.
  destruct (ref_str src (ref_ws src i)) as [[i2 name]|[o m]| |]; cbn [res_bind]; [|done..].
  destruct Hstr as (Hi2 & key & Hkey%span_le & _). pose proof (ref_ws_le i2 ltac:(lia)) as H2. cbv zeta.
  destruct (at_byte src (ref_ws src i2) ":"%ch) eqn:Hc; [|done]. apply at_byte_lt in Hc.
  pose proof (ref_ws_le (S (ref_ws src i2)) ltac:(lia)) as H3. set (i4 := ref_ws src (S (ref_ws src i2))) in *.
  specialize (Hread i4 ltac:(lia)). rewrite <- Heq by lia.
  destruct (rv1 depth i4) as [[j t]|[o m]| |]; cbn [res_bind reads] in *; [|done..].
  destruct Hread as (Hj & s & Hs%span_le & _). pose proof (ref_ws_le j ltac:(lia)) as H5.
  at_pos src (ref_ws src j) as c E; [|done]. apply lookup_lt_Some in E as Hlt.
  destruct (c =? ","%ch); [apply IH; lia|done].
Qed.
End Fuel.

Lemma ref_value_fuel f1 f2 depth i :
  (i <= length src)%nat -> (length src - i < f1)%nat -> (length src - i < f2)%nat ->
  ref_value src maxDepth unexpected f1 depth i = ref_value src maxDepth unexpected f2 depth i.
Proof using Hsrc.
  revert f2 depth i. induction f1 as [|f1 IH]; intros f2 depth i Hi H1 H2; [lia|].
  destruct f2 as [|f2]; [lia|]. cbn [ref_value]. unfold ref_body.
  destruct (maxDepth <? depth); [done|]. at_pos src i as c E; [|done]. apply lookup_lt_Some in E as Hlt.
  assert (Heq : forall j, (S i <= j <= length src)%nat ->
    ref_value src maxDepth unexpected f1 (depth + 1) j = ref_value src maxDepth unexpected f2 (depth + 1) j)
    by (intros j Hj; apply IH; lia).
  assert (Hr : forall j, (S i <= j <= length src)%nat ->
    reads src (maxDepth - (depth + 1)) j (ref_value src maxDepth unexpected f1 (depth + 1) j))
    by (intros j Hj; apply ref_value_sound; lia).
  pose proof (ref_ws_le (S i) ltac:(lia)) as Hw. unfold ref_array, ref_object.
  by rewrite (ref_elems_ext _ _ _ _ Hr Heq), (ref_members_ext _ _ _ _ Hr Heq) by lia.
Qed.
End Sound.

(** ** Completeness *)

Lemma jstring_head key name : jstring key name -> exists t, key = DQUOTE :: t.
Proof. destruct 1. eauto. Qed.

(** The first byte of a value is neither whitespace nor punctuation. *)
Definition value_head (c : Z) : bool :=
  (c =? "n"%ch) || (c =? "t"%ch) || (c =? "f"%ch) || (c =? DQUOTE) || (c =? "["%ch) ||
  (c =? "{"%ch) || (c =? "-"%ch) || IsDigit c.

Lemma jvalue_head k s t : jvalue k s t -> exists c u, s = c :: u /\ value_head c = true.
Proof.
  destruct 1; try (eexists _, _; split; [reflexivity|reflexivity]).
  - destruct (jnumber_head s) as (c & u & -> & Hc); [done|]. exists c, u. split; [done|].
    unfold value_head. destruct Hc as [->| ->]; [done|]. by rewrite orb_true_r.
  - destruct (jstring_head _ _ H0) as (u & ->). by exists DQUOTE, u.
Qed.

Lemma value_head_facts c :
  value_head c = true ->
  IsJSONWhitespace c = false /\ c <> "]"%ch /\ c <> "}"%ch /\ c <> ","%ch /\ c <> ":"%ch.
Proof. unfold value_head, IsJSONWhitespace, IsDigit. lia. Qed.

Definition is_number (t : tree) : bool := match t with TNum _ => true | _ => false end.

Section Complete.
Context (src : bytes) (maxDepth : Z) (unexpected : Z -> string).
Abbreviation rv := (ref_value src maxDepth unexpected).

Lemma ref_ws_complete i w j c :
  span src i w j -> ws w -> src !! j = Some c -> IsJSONWhitespace c = false -> ref_ws src i = j.
Proof using.
  intros Hs Hw Hj Hc. eapply advance_complete; [done|done|].
  by rewrite (lookup_Some_drop _ _ _ Hj).
Qed.

Lemma ref_ws_elems fuel depth i acc f :
  (i <= length src)%nat ->
  ref_elems src f fuel depth (ref_ws src i) acc = ref_elems src f fuel depth i acc.
Proof using. intros Hi. destruct fuel; [done|]. cbn [ref_elems]. by rewrite ref_ws_idem. Qed.

Lemma ref_ws_members fuel depth i acc f :
  (i <= length src)%nat ->
  ref_members src f fuel depth (ref_ws src i) acc = ref_members src f fuel depth i acc.
Proof using. intros Hi. destruct fuel; [done|]. cbn [ref_members]. by rewrite ref_ws_idem. Qed.

(** A value followed by whitespace and punctuation is not extended. *)
Lemma stops_num i w j c :
  span src i w j -> ws w -> src !! j = Some c -> num_char c = false -> stops num_char (drop i src).
Proof using.
  intros Hs Hw Hj Hc. rewrite stops_lookup. destruct w as [|x w].
  - apply span_nil_inv in Hs as [-> _]. by rewrite Hj.
  - apply span_cons in Hs as [-> _]. inversion Hw; subst. clear - H1.
    unfold IsJSONWhitespace, num_char, IsDigit in *. lia.
Qed.

Lemma ref_str_complete key name i j :
  jstring key name -> span src i key j -> ref_str src i = Ok (j, name).
Proof using.
  intros Hk Hs. destruct Hk as [s dec Hd]. apply span_cons in Hs as [Hc Hs].
  unfold ref_str, str_at. apply span_len in Hs as Hl. rewrite length_app in Hl. simpl in Hl.
  destruct Hs as (Hdr & _ & _). rewrite Hdr, <- app_assoc. simpl.
  rewrite (str_ref_complete s dec) by done. repeat f_equal. lia.
Qed.

Lemma value_at i c u j :
  span src i (c :: u) j -> value_head c = true ->
  src !! i = Some c /\ IsJSONWhitespace c = false.
Proof using. intros [Hc _]%span_cons [Hv _]%value_head_facts. done. Qed.

Definition P_value (k : Z) (s : bytes) (t : tree) : Prop :=
  forall fuel depth i j,
  maxDepth - depth = k -> span src i s j -> (is_number t = true -> stops num_char (drop j src)) ->
  (length src - i < fuel)%nat -> rv fuel depth i = Ok (j, t).

Definition P_elems (k : Z) (s : bytes) (ts : list tree) : Prop :=
  forall vfuel fuel depth i j acc,
  maxDepth - depth = k -> span src i (s ++ ["]"%ch]) j ->
  (length src - i < vfuel)%nat -> (length src - i < fuel)%nat ->
  ref_elems src (rv vfuel) fuel depth i acc = Ok (j, acc ++ ts).

Definition P_members (k : Z) (s : bytes) (ms : list ((bytes * bytes) * tree)) : Prop :=
  forall vfuel fuel depth i j acc,
  maxDepth - depth = k -> span src i (s ++ ["}"%ch]) j ->
  (length src - i < vfuel)%nat -> (length src - i < fuel)%nat ->
  ref_members src (rv vfuel) fuel depth i acc = Ok (j, acc ++ ms).

Lemma ref_body_head f depth i c :
  src !! i = Some c -> depth <= maxDepth ->
  ref_body src maxDepth unexpected f depth i =
  if c =? "n"%ch then ref_lit src lit_null TNull i
  else if c =? "t"%ch then ref_lit src lit_true (TBool true) i
  else if c =? "f"%ch then ref_lit src lit_false (TBool false) i
  else if c =? DQUOTE then
  let* (j, dec) := ref_str src i in Ok (j, TStr (slice src i j) dec)
  else if c =? "["%ch then ref_array src maxDepth f (depth + 1) i
  else if c =? "{"%ch then ref_object src maxDepth f (depth + 1) i
  else if (c =? "-"%ch) || IsDigit c then ref_num src i
  else Err (i, unexpected c).
Proof using. intros Hc Hd. unfold ref_body. rewrite if_false by lia. by rewrite Hc. Qed.

Lemma complete_num k s : 0 <= k -> jnumber s -> P_value k s (TNum s).
Proof using.
  intros Hk Hn [|fuel] depth i j <- Hs Hst Hf; [lia|]. cbn [ref_value].
  destruct (jnumber_head _ Hn) as (c & u & E & Hc). pose proof Hs as Hs'. rewrite E in Hs'.
  apply span_cons in Hs' as [Hi _]. rewrite (ref_body_head _ _ _ _ Hi) by lia.
  do 6 rewrite if_false by (unfold IsDigit in Hc; lia).
  rewrite if_true by (destruct Hc as [->| ->]; [done|apply orb_true_r]).
  unfold ref_num. rewrite (scanNumber_complete _ _ _ _ Hn Hs (Hst eq_refl)).
  by rewrite (span_slice _ _ _ _ Hs).
Qed.

Lemma complete_str k s dec : 0 <= k -> jstring s dec -> P_value k s (TStr s dec).
Proof using.
  intros Hk Hn [|fuel] depth i j <- Hs Hst Hf; [lia|]. cbn [ref_value].
  destruct (jstring_head _ _ Hn) as (u & E). pose proof Hs as Hs'. rewrite E in Hs'.
  apply span_cons in Hs' as [Hi _]. rewrite (ref_body_head _ _ _ _ Hi) by lia. cbn [Z.eqb Pos.eqb].
  rewrite (ref_str_complete _ _ _ _ Hn Hs). simpl. by rewrite (span_slice _ _ _ _ Hs).
Qed.

Lemma complete_arr0 k w :
  1 <= k -> ws w -> P_value k ("["%ch :: w ++ ["]"%ch]) (TArr ("["%ch :: w ++ ["]"%ch]) []).
Proof using.
  intros Hk Hw [|fuel] depth i j <- Hs Hst Hf; [lia|]. cbn [ref_value].
  pose proof Hs as [Hi Hs1]%span_cons. rewrite (ref_body_head _ _ _ _ Hi) by lia. cbn [Z.eqb Pos.eqb].
  apply span_split in Hs1 as [Hs1 [Hc [-> _]%span_nil_inv]%span_cons].
  unfold ref_array. rewrite if_false by lia. rewrite (ref_ws_complete _ _ _ _ Hs1 Hw Hc) by done.
  cbv zeta. rewrite (proj2 (at_byte_spec _ _ _) Hc). by rewrite (span_slice _ _ _ _ Hs).
Qed.

Lemma complete_obj0 k w :
  1 <= k -> ws w -> P_value k ("{"%ch :: w ++ ["}"%ch]) (TObj ("{"%ch :: w ++ ["}"%ch]) []).
Proof using.
  intros Hk Hw [|fuel] depth i j <- Hs Hst Hf; [lia|]. cbn [ref_value].
  pose proof Hs as [Hi Hs1]%span_cons. rewrite (ref_body_head _ _ _ _ Hi) by lia. cbn [Z.eqb Pos.eqb].
  apply span_split in Hs1 as [Hs1 [Hc [-> _]%span_nil_inv]%span_cons].
  unfold ref_object. rewrite if_false by lia. rewrite (ref_ws_complete _ _ _ _ Hs1 Hw Hc) by done.
  cbv zeta. rewrite (proj2 (at_byte_spec _ _ _) Hc). by rewrite (span_slice _ _ _ _ Hs).
Qed.

Lemma complete_lit k lit t c :
  0 <= k -> head lit = Some c ->
  (forall f depth i, src !! i = Some c -> depth <= maxDepth ->
  ref_body src maxDepth unexpected f depth i = ref_lit src lit t i) ->
  P_value k lit t.
Proof using.
  intros Hk Hh Hb [|fuel] depth i j <- Hs Hst Hf; [lia|]. cbn [ref_value].
  assert (Hc : src !! i = Some c).
  { destruct lit; [done|]. simplify_eq/=. by apply span_cons in Hs as [? _]. }
  rewrite Hb by (done || lia). unfold ref_lit. apply span_len in Hs as Hl. apply span_le in Hs as Hle.
  rewrite (proj2 (matchStringAt_span src i lit ltac:(lia))) by (by rewrite <- Hl). by rewrite Hl.
Qed.

(** One element: the reader skips the whitespace on both sides and stands at
the separator. *)
Lemma element_step k w1 s t w2 c r depth i j vfuel :
  P_value k s t -> ws w1 -> ws w2 -> maxDepth - depth = k ->
  span src i (w1 ++ s ++ w2 ++ c :: r) j -> (exists x u, s = x :: u /\ value_head x = true) ->
  IsJSONWhitespace c = false -> num_char c = false -> (length src - i < vfuel)%nat ->
  exists m e, ref_ws src i = m /\ rv vfuel depth m = Ok (e, t) /\ src !! (ref_ws src e) = Some c /\
  span src (S (ref_ws src e)) r j /\ (i < S (ref_ws src e))%nat.
Proof using.
  intros HP Hw1 Hw2 Hd Hs (x & u & Hx & Hhd) Hc Hn Hf.
  apply span_split in Hs as [H1 Hs]. apply span_split in Hs as [H2 Hs].
  apply span_split in Hs as [H3 Hs]. pose proof Hs as [Hcc H4]%span_cons.
  set (m := (i + length w1)%nat) in *. set (e := (m + length s)%nat) in *.
  exists m, e. assert (Hm : ref_ws src i = m).
  { rewrite Hx in H2. destruct (value_at _ _ _ _ H2 Hhd). by eapply ref_ws_complete. }
  assert (He : ref_ws src e = (e + length w2)%nat) by (by eapply ref_ws_complete).
  assert (Hst : stops num_char (drop e src)) by (by eapply stops_num).
  pose proof (span_le _ _ _ _ H1). pose proof (span_le _ _ _ _ H2). pose proof (span_le _ _ _ _ H3).
  rewrite He. split_and!; [done| |done|done|lia]. apply HP; [done|done|done|lia].
Qed.

Lemma complete_elems_one k w1 s t w2 :
  ws w1 -> P_value k s t -> ws w2 -> jvalue k s t -> P_elems k (w1 ++ s ++ w2) [t].
Proof using.
  intros Hw1 HP Hw2 Hv vfuel [|fuel] depth i j acc Hd Hs Hf1 Hf2; [lia|].
  rewrite <- !app_assoc in Hs. cbn [ref_elems].
  destruct (element_step _ _ _ _ _ _ _ _ _ _ vfuel HP Hw1 Hw2 Hd Hs (jvalue_head _ _ _ Hv)
    ltac:(done) ltac:(done) Hf1) as (m & e & -> & -> & Hc & [-> _]%span_nil_inv & _).
  simpl. by rewrite Hc.
Qed.

Lemma complete_elems_cons k w1 s t w2 rest ts :
  ws w1 -> P_value k s t -> ws w2 -> jvalue k s t -> P_elems k rest ts ->
  P_elems k (w1 ++ s ++ w2 ++ ","%ch :: rest) (t :: ts).
Proof using.
  intros Hw1 HP Hw2 Hv HQ vfuel [|fuel] depth i j acc Hd Hs Hf1 Hf2; [lia|].
  rewrite <- !app_assoc in Hs. cbn [ref_elems].
  destruct (element_step _ _ _ _ _ _ _ _ _ _ vfuel HP Hw1 Hw2 Hd Hs (jvalue_head _ _ _ Hv)
    ltac:(done) ltac:(done) Hf1) as (m & e & -> & -> & Hc & Hr & Hlt).
  pose proof (span_le _ _ _ _ Hr). simpl. rewrite Hc. cbn [Z.eqb Pos.eqb]. rewrite (HQ vfuel fuel depth _ j) by (done || lia).
  by rewrite <- app_assoc.
Qed.

(** The name of a member and its colon. *)
Lemma key_step w1 key name w2 r i j :
  ws w1 -> jstring key name -> ws w2 -> span src i (w1 ++ key ++ w2 ++ ":"%ch :: r) j ->
  at_byte src (ref_ws src i) DQUOTE = true /\
  exists e, ref_str src (ref_ws src i) = Ok (e, name) /\ slice src (ref_ws src i) e = key /\
  at_byte src (ref_ws src e) ":"%ch = true /\ span src (S (ref_ws src e)) r j /\ (i <= ref_ws src e)%nat.
Proof using.
  intros Hw1 Hk Hw2 Hs. destruct (jstring_head _ _ Hk) as (u & Hu).
  apply span_split in Hs as [H1 Hs]. apply span_split in Hs as [H2 Hs].
  apply span_split in Hs as [H3 Hs]. pose proof Hs as [Hcc H4]%span_cons.
  pose proof H2 as H2'. rewrite Hu in H2' at 1. pose proof H2' as [Hq _]%span_cons.
  rewrite (ref_ws_complete _ _ _ _ H1 Hw1 Hq) by done. split; [by apply at_byte_spec|].
  rewrite (ref_str_complete _ _ _ _ Hk H2). eexists; split; [done|].
  split; [by apply span_slice|].
  rewrite (ref_ws_complete _ _ _ _ H3 Hw2 Hcc) by done. split_and!; [by apply at_byte_spec|done|].
  apply span_le in H1, H2, H3. lia.
Qed.

Lemma complete_members_one k w1 key name w2 w3 s t w4 :
  ws w1 -> jstring key name -> ws w2 -> ws w3 -> P_value k s t -> ws w4 -> jvalue k s t ->
  P_members k (w1 ++ key ++ w2 ++ ":"%ch :: w3 ++ s ++ w4) [((key, name), t)].
Proof using.
  intros Hw1 Hk Hw2 Hw3 HP Hw4 Hv vfuel [|fuel] depth i j acc Hd Hs Hf1 Hf2; [lia|].
  rewrite <- !app_assoc in Hs. simpl in Hs. rewrite <- !app_assoc in Hs. cbn [ref_members].
  destruct (key_step _ _ _ _ _ _ _ Hw1 Hk Hw2 Hs) as (-> & e & -> & Hkey & Hc & Hr & Hle).
  simpl. rewrite Hc, Hkey.
  destruct (element_step _ _ _ _ _ _ _ _ _ _ vfuel HP Hw3 Hw4 Hd Hr (jvalue_head _ _ _ Hv)
    ltac:(done) ltac:(done) ltac:(lia)) as (m & e' & -> & -> & Hc' & [-> _]%span_nil_inv & _).
  simpl. by rewrite Hc'.
Qed.

Lemma complete_members_cons k w1 key name w2 w3 s t w4 rest ms :
  ws w1 -> jstring key name -> ws w2 -> ws w3 -> P_value k s t -> ws w4 -> jvalue k s t ->
  P_members k rest ms ->
  P_members k (w1 ++ key ++ w2 ++ ":"%ch :: w3 ++ s ++ w4 ++ ","%ch :: rest) (((key, name), t) :: ms).
Proof using.
  intros Hw1 Hk Hw2 Hw3 HP Hw4 Hv HQ vfuel [|fuel] depth i j acc Hd Hs Hf1 Hf2; [lia|].
  rewrite <- !app_assoc in Hs. simpl in Hs. rewrite <- !app_assoc in Hs. cbn [ref_members].
  destruct (key_step _ _ _ _ _ _ _ Hw1 Hk Hw2 Hs) as (-> & e & -> & Hkey & Hc & Hr & Hle).
  simpl. rewrite Hc, Hkey.
  destruct (element_step _ _ _ _ _ _ _ _ _ _ vfuel HP Hw3 Hw4 Hd Hr (jvalue_head _ _ _ Hv)
    ltac:(done) ltac:(done) ltac:(lia)) as (m & e' & -> & -> & Hc' & Hr' & Hlt).
  pose proof (span_le _ _ _ _ Hr'). simpl. rewrite Hc'. cbn [Z.eqb Pos.eqb]. rewrite (HQ vfuel fuel depth _ j) by (done || lia).
  by rewrite <- app_assoc.
Qed.

(** The first byte inside a non-empty container is not the closing bracket. *)
Lemma elems_open k s ts j e :
  jelems k s ts -> span src j (s ++ ["]"%ch]) e -> at_byte src (ref_ws src j) "]"%ch = false.
Proof using.
  intros Hj Hs. assert (H : exists w1 x u r, s = w1 ++ (x :: u) ++ r /\ ws w1 /\ value_head x = true).
  { destruct Hj as [? w1 s t w2 Hw1 Hv|? w1 s t w2 r ts Hw1 Hv];
    destruct (jvalue_head _ _ _ Hv) as (x & u & -> & Hx); exists w1, x, u; eauto. }
  destruct H as (w1 & x & u & r & -> & Hw & Hx). rewrite <- !app_assoc in Hs.
  apply span_split in Hs as [H1 [Hc _]%span_cons]. apply value_head_facts in Hx as (Hx & Hne & _).
  rewrite (ref_ws_complete _ _ _ _ H1 Hw Hc) by done. unfold at_byte. rewrite Hc. lia.
Qed.

Lemma members_open k s ms j e :
  jmembers k s ms -> span src j (s ++ ["}"%ch]) e -> at_byte src (ref_ws src j) "}"%ch = false.
Proof using.
  intros Hj Hs. assert (H : exists w1 u r, s = w1 ++ (DQUOTE :: u) ++ r /\ ws w1).
  { destruct Hj as [? w1 key name ? ? ? ? ? Hw1 Hk|? w1 key name ? ? ? ? ? ? ? Hw1 Hk];
    destruct (jstring_head _ _ Hk) as (u & ->); exists w1, u; eauto. }
  destruct H as (w1 & u & r & -> & Hw). rewrite <- !app_assoc in Hs.
  apply span_split in Hs as [H1 [Hc _]%span_cons].
  rewrite (ref_ws_complete _ _ _ _ H1 Hw Hc) by done. unfold at_byte. by rewrite Hc.
Qed.

Lemma complete_arr k s ts :
  1 <= k -> jelems (k - 1) s ts -> P_elems (k - 1) s ts ->
  P_value k ("["%ch :: s ++ ["]"%ch]) (TArr ("["%ch :: s ++ ["]"%ch]) ts).
Proof using.
  intros Hk Hj HQ [|fuel] depth i j <- Hs Hst Hf; [lia|]. cbn [ref_value].
  pose proof Hs as [Hi Hs1]%span_cons. rewrite (ref_body_head _ _ _ _ Hi) by lia. cbn [Z.eqb Pos.eqb].
  unfold ref_array. rewrite if_false by lia. rewrite (elems_open _ _ _ _ _ Hj Hs1). cbv zeta.
  apply span_le in Hs1 as Hle. rewrite ref_ws_elems by lia.
  rewrite (HQ fuel _ _ _ j) by (done || lia). simpl. by rewrite (span_slice _ _ _ _ Hs).
Qed.

Lemma complete_obj k s ms :
  1 <= k -> jmembers (k - 1) s ms -> P_members (k - 1) s ms ->
  P_value k ("{"%ch :: s ++ ["}"%ch]) (TObj ("{"%ch :: s ++ ["}"%ch]) ms).
Proof using.
  intros Hk Hj HQ [|fuel] depth i j <- Hs Hst Hf; [lia|]. cbn [ref_value].
  pose proof Hs as [Hi Hs1]%span_cons. rewrite (ref_body_head _ _ _ _ Hi) by lia. cbn [Z.eqb Pos.eqb].
  unfold ref_object. rewrite if_false by lia. rewrite (members_open _ _ _ _ _ Hj Hs1). cbv zeta.
  apply span_le in Hs1 as Hle. rewrite ref_ws_members by lia.
  rewrite (HQ fuel _ _ _ j) by (done || lia). simpl. by rewrite (span_slice _ _ _ _ Hs).
Qed.

Lemma complete_all :
  (forall k s t, jvalue k s t -> P_value k s t) /\
  (forall k s ts, jelems k s ts -> P_elems k s ts) /\
  (forall k s ms, jmembers k s ms -> P_members k s ms).
Proof using.
  apply jvalue_mutind; intros.
  1-3: eapply complete_lit; [done|reflexivity|]; intros; by rewrite (ref_body_head _ _ _ _ H).
  - by apply complete_num.
  - by apply complete_str.
  - by apply complete_arr0.
  - by apply complete_arr.
  - by apply complete_obj0.
  - by apply complete_obj.
  - by apply complete_elems_one.
  - by apply complete_elems_cons.
  - by apply complete_members_one.
  - by apply complete_members_cons.
Qed.

(** Completeness of the reader: a value is read, whatever follows it, unless it
    is a number that what follows could extend. *)
Lemma ref_value_complete_next fuel depth i j s t :
  jvalue (maxDepth - depth) s t -> span src i s j -> (is_number t = true -> stops num_char (drop j src)) ->
  (length src - i < fuel)%nat -> rv fuel depth i = Ok (j, t).
Proof using. intros Hv. by apply (proj1 complete_all _ _ _ Hv). Qed.

Lemma ref_value_complete fuel depth i j s t :
  jvalue (maxDepth - depth) s t -> span src i s j -> stops num_char (drop j src) ->
  (length src - i < fuel)%nat -> rv fuel depth i = Ok (j, t).
Proof using. intros. by eapply ref_value_complete_next. Qed.
End Complete.

(** ** Documents *)

Lemma ref_doc_sound src maxDepth unexpected :
  bytes_ok src ->
  match ref_doc src maxDepth unexpected with
  | Ok t => jdoc maxDepth src t
  | Err (o, _) => (o <= length src)%nat
  | _ => False
  end.
Proof.
  intros Hok. unfold ref_doc. destruct (ref_ws_span src 0 ltac:(lia)) as (w1 & Hw1 & Hws1).
  pose proof (span_le _ _ _ _ Hw1).
  pose proof (ref_value_sound src maxDepth unexpected Hok (S (length src)) 0 (ref_ws src 0)
    ltac:(lia) ltac:(lia)) as H'.
  destruct (ref_value _ _ _ _ _ _) as [[j t]|[o m]| |]; simpl in *; [|lia|done|done].
  destruct H' as (Hj & s & Hs & Hv). pose proof (span_le _ _ _ _ Hs).
  destruct (ref_ws_span src j ltac:(lia)) as (w2 & Hw2 & Hws2). pose proof (span_le _ _ _ _ Hw2).
  destruct (Nat.eqb_spec (ref_ws src j) (length src)) as [E|]; [|lia].
  rewrite Z.sub_0_r in Hv. exists w1, s, w2. split_and!; [|done|done|done].
  symmetry. apply span_whole_inv. rewrite <- E. eauto with vj.
Qed.

Lemma ref_doc_complete src maxDepth unexpected t :
  jdoc maxDepth src t -> ref_doc src maxDepth unexpected = Ok t.
Proof.
  intros (w1 & s & w2 & Hsrc & Hw1 & Hv & Hw2). unfold ref_doc.
  pose proof (span_whole src) as Hs. rewrite Hsrc in Hs at 2.
  apply span_split in Hs as [H1 Hs]. apply span_split in Hs as [H2 H3].
  destruct (jvalue_head _ _ _ Hv) as (x & u & Hx & Hhd). pose proof H2 as H2'. rewrite Hx in H2'.
  destruct (value_at _ _ _ _ _ H2' Hhd) as [Hc Hnws].
  rewrite (ref_ws_complete _ _ _ _ _ H1 Hw1 Hc Hnws).
  assert (Hend : forall i w, span src i w (length src) -> ws w -> ref_ws src i = length src).
  { intros i w Hi Hw. eapply advance_complete; [done|done|by rewrite drop_all]. }
  assert (Hst : stops num_char (drop (0 + length w1 + length s) src)).
  { destruct w2 as [|y w2].
    - apply span_nil_inv in H3 as [E _]. by rewrite <- E, drop_all.
    - apply span_cons in H3 as [Hy _]. rewrite (lookup_Some_drop _ _ _ Hy). simpl.
      inversion Hw2 as [|? ? Hb _]; subst. clear - Hb. unfold IsJSONWhitespace, num_char, IsDigit in *. lia. }
  rewrite (ref_value_complete src maxDepth unexpected _ 0 _ (0 + length w1 + length s) s t) by
    (first [done|by rewrite Z.sub_0_r|apply span_le in H1; lia]).
  cbn [res_bind]. rewrite (Hend _ _ H3 Hw2). by rewrite Nat.eqb_refl.
Qed.

(** The grammar is unambiguous: a document has one tree. *)
Lemma jdoc_unique k src t1 t2 : jdoc k src t1 -> jdoc k src t2 -> t1 = t2.
Proof.
  intros H1 H2. apply (ref_doc_complete _ _ (fun _ => EmptyString)) in H1, H2. congruence.
Qed.

Lemma ref_doc_jdoc src maxDepth unexpected t :
  bytes_ok src -> ref_doc src maxDepth unexpected = Ok t <-> jdoc maxDepth src t.
Proof.
  intros Hok. split; [|apply ref_doc_complete]. intros E.
  pose proof (ref_doc_sound src maxDepth unexpected Hok) as H. by rewrite E in H.
Qed.

(** ** The wording of one error does not change where errors are *)

(** Equal results, up to the message of an error. *)
Definition same_place {A} (r1 r2 : res rerr A) : Prop :=
  match r1, r2 with
  | Ok a, Ok b => a = b
  | Err (o1, _), Err (o2, _) => o1 = o2
  | Panic, Panic => True
  | NoFuel, NoFuel => True
  | _, _ => False
  end.

Lemma same_place_refl {A} (r : res rerr A) : same_place r r.
Proof. by destruct r as [a|[o m]| |]. Qed.

Lemma same_place_bind {A B} (r1 r2 : res rerr A) (k1 k2 : A -> res rerr B) :
  same_place r1 r2 -> (forall a, same_place (k1 a) (k2 a)) -> same_place (res_bind r1 k1) (res_bind r2 k2).
Proof. destruct r1 as [a|[o m]| |], r2 as [b|[o' m']| |]; cbn; try done. intros <- H. apply H. Qed.

Section SamePlace.
Context (src : bytes) (maxDepth : Z) (u1 u2 : Z -> string).

Lemma ref_elems_place f1 f2 fuel depth i acc :
  (forall d j, same_place (f1 d j) (f2 d j)) ->
  same_place (ref_elems src f1 fuel depth i acc) (ref_elems src f2 fuel depth i acc).
Proof using.
  intros Hf. revert i acc. induction fuel as [|fuel IH]; intros i acc; [done|]. cbn [ref_elems].
  apply same_place_bind; [apply Hf|]. intros [j t]. repeat case_step; (done || apply IH).
Qed.

Lemma ref_members_place f1 f2 fuel depth i acc :
  (forall d j, same_place (f1 d j) (f2 d j)) ->
  same_place (ref_members src f1 fuel depth i acc) (ref_members src f2 fuel depth i acc).
Proof using.
  intros Hf. revert i acc. induction fuel as [|fuel IH]; intros i acc; [done|]. cbn [ref_members].
  destruct (at_byte src _ DQUOTE); [|done]. apply same_place_bind; [apply same_place_refl|]. intros [j name].
  cbv zeta. destruct (at_byte src _ _); [|done]. apply same_place_bind; [apply Hf|]. intros [k t].
  repeat case_step; (done || apply IH).
Qed.

Lemma ref_value_place fuel depth i :
  same_place (ref_value src maxDepth u1 fuel depth i) (ref_value src maxDepth u2 fuel depth i).
Proof using.
  revert depth i. induction fuel as [|fuel IH]; intros depth i; [done|]. cbn [ref_value]. unfold ref_body.
  destruct (maxDepth <? depth); [done|]. destruct (src !! i) as [c|]; [|done].
  repeat (match goal with |- context [if ?b then _ else _] => destruct b end; try apply same_place_refl); [| |done].
  - unfold ref_array. destruct (maxDepth <? depth + 1); [done|]. cbv zeta. destruct (at_byte _ _ _); [done|].
    apply same_place_bind; [by apply ref_elems_place|]. by intros [k ts].
  - unfold ref_object. destruct (maxDepth <? depth + 1); [done|]. cbv zeta. destruct (at_byte _ _ _); [done|].
    apply same_place_bind; [by apply ref_members_place|]. by intros [k ms].
Qed.

Lemma ref_doc_place : same_place (ref_doc src maxDepth u1) (ref_doc src maxDepth u2).
Proof using.
  unfold ref_doc. apply same_place_bind; [apply ref_value_place|]. intros [i t]. apply same_place_refl.
Qed.
End SamePlace.
