(* ===== verification/Validator.v ===== *)
(** [validate.go]: the strict scalar validator, its number and string scanners,
    and the layout pass that counts containers, elements and members.

    A method of [validator] is a definition that takes the state it changes (the
    cursor and the optional layout) and returns the new one; [src] and
    [maxDepth] never change and are section variables.  [parseValue] recurses
    through arrays and objects, which take it as an argument. *)

From S2P Require Import Prelude Words Utf8 Scanner Lex Grammar StringRef Errors Numbers Reader.

Definition DefaultMaxDepth : Z := 10000.
Definition maxDepthOrDefault (maxDepth : Z) : Z := if maxDepth <=? 0 then DefaultMaxDepth else maxDepth.

(** ** The layout *)

Record layout : Type := mkLayout {
  inline : list Z;         (* [64]int *)
  overflow : list Z;
  ncontainers : nat;
  lvalues : Z;
  lmembers : Z
  }.

Definition layout0 : layout := mkLayout (replicate 64 0) [] 0 0 0.

Definition addContainer (l : layout) : nat * layout :=
  let idx := ncontainers l in
  (idx, mkLayout (inline l)
          (if (length (inline l) <=? idx)%nat then overflow l ++ [0] else overflow l)
          (S idx) (lvalues l) (lmembers l)).

(** [None] when the index is outside the overflow slice: Go panics there. *)
Definition setContainer (l : layout) (idx : nat) (count : Z) : option layout :=
  if (idx <? length (inline l))%nat then
    Some (mkLayout (<[idx:=count]> (inline l)) (overflow l) (ncontainers l) (lvalues l) (lmembers l))
  else if (idx - length (inline l) <? length (overflow l))%nat then
    Some (mkLayout (inline l) (<[(idx - length (inline l))%nat:=count]> (overflow l))
            (ncontainers l) (lvalues l) (lmembers l))
  else None.

Definition count_value (l : layout) : layout :=
  mkLayout (inline l) (overflow l) (ncontainers l) (lvalues l + 1) (lmembers l).
Definition count_member (l : layout) : layout :=
  mkLayout (inline l) (overflow l) (ncontainers l) (lvalues l) (lmembers l + 1).

(** ** Escapes and strings *)

Section Strings.
Context (src : bytes).

Definition v_err {A} (off : nat) (msg : string) : res SyntaxError A := Err (syntax_at src off msg).

(** [validateUnicodeEscape], with [i] at the ['u']. *)
Definition validateUnicodeEscape (i : nat) : res SyntaxError nat :=
  let start := (i - 1)%nat in
  let i := S i in
  let (u, ok) := hex4 src i in
  if negb ok then v_err start "invalid unicode escape"
  else
  let i := (i + 4)%nat in
  if (0xD800 <=? u) && (u <=? 0xDBFF) then
  if (length src <? i + 6)%nat || negb (at_byte src i BSLASH) || negb (at_byte src (i + 1) "u"%ch)
  then v_err start "missing low surrogate"
  else
  let i := (i + 2)%nat in
  let (lo, ok) := hex4 src i in
  if negb ok then v_err start "invalid low surrogate"
  else if (lo <? 0xDC00) || (0xDFFF <? lo) then v_err start "invalid low surrogate"
  else Ok (i + 4)%nat
  else if (0xDC00 <=? u) && (u <=? 0xDFFF) then v_err start "unexpected low surrogate"
  else Ok i.

(** [validateEscape], with [i] at the byte after the backslash. *)
Definition validateEscape (i : nat) : res SyntaxError nat :=
  match src !! i with
  | None => Panic
  | Some c =>
    if (c =? DQUOTE) || (c =? BSLASH) || (c =? "/"%ch) || (c =? "b"%ch) || (c =? "f"%ch)
  || (c =? "n"%ch) || (c =? "r"%ch) || (c =? "t"%ch) then Ok (S i)
    else if c =? "u"%ch then validateUnicodeEscape i
    else v_err (i - 1) "invalid escape sequence"
  end.

(** The loop of [validator.parseString] and of [appendJSONStringToken]. *)
Fixpoint parseString_loop (fuel : nat) (i : nat) : res SyntaxError nat :=
  match fuel with
  | O => NoFuel
  | S fuel =>
    let j := scanStringSpecial src i in
    match src !! j with
    | None => v_err (length src) "unterminated string"
    | Some c =>
      if c =? DQUOTE then Ok (S j)
      else if c =? BSLASH then
  let i := S j in
  if (length src <=? i)%nat then v_err i "unterminated escape sequence"
  else
    let* i := validateEscape i in
    parseString_loop fuel i
      else if c <? 0x20 then v_err j "unescaped control byte in string"
      else
  match scanStringUnicodeRun src j with
  | (_, Some bad) => v_err bad "invalid UTF-8 in string"
  | (next, None) => parseString_loop fuel next
  end
    end
  end.

Definition parseString (i : nat) : res SyntaxError nat :=
  parseString_loop (S (length src)) (S i).

Definition parseNumber (i : nat) : res SyntaxError nat :=
  let (j, msg) := scanNumber src i in
  if msg_ok msg then Ok j else v_err i msg.

Definition parseLiteral (lit : bytes) (i : nat) : res SyntaxError nat :=
  if matchStringAt src i lit then Ok (i + length lit)%nat else v_err i "invalid literal".
End Strings.

(** ** Values *)

Record vstate : Type := mkV { v_i : nat; v_layout : option layout }.

Definition at_i (v : vstate) (i : nat) : vstate := mkV i (v_layout v).

Section Values.
Context (src : bytes) (maxDepth : Z).

Definition v_skipSpace (v : vstate) : vstate := at_i v (SkipSpace src (v_i v)).

(** A method that only moves the cursor. *)
Definition moves (v : vstate) (r : res SyntaxError nat) : res SyntaxError vstate :=
  let* i := r in Ok (at_i v i).

(** [countIndex := -1; if v.layout != nil { countIndex = addContainer() }]. *)
Definition v_open (v : vstate) : option nat * vstate :=
  match v_layout v with
  | None => (None, v)
  | Some l => let (idx, l) := addContainer l in (Some idx, mkV (v_i v) (Some l))
  end.

(** [if countIndex >= 0 { v.layout.setContainer(countIndex, count) }]. *)
Definition v_close (v : vstate) (countIndex : option nat) (count : Z) : res SyntaxError vstate :=
  match countIndex, v_layout v with
  | Some idx, Some l =>
    match setContainer l idx count with
    | Some l => Ok (mkV (v_i v) (Some l))
    | None => Panic
    end
  | Some _, None => Panic
  | None, _ => Ok v
  end.

Definition on_layout (f : layout -> layout) (v : vstate) : vstate :=
  mkV (v_i v) (option_map f (v_layout v)).

Section Methods.
Context (parseValue : Z -> vstate -> res SyntaxError vstate).

Fixpoint parseArray_loop (fuel : nat) (depth : Z) (countIndex : option nat) (count : Z)
  (v : vstate) : res SyntaxError vstate :=
  match fuel with
  | O => NoFuel
  | S fuel =>
    let v := v_skipSpace v in
    let* v := parseValue depth v in
    let count := count + 1 in
    let v := on_layout count_value v in
    let v := v_skipSpace v in
    match src !! v_i v with
    | None => v_err src (v_i v) "unterminated array"
    | Some c =>
      if c =? ","%ch then parseArray_loop fuel depth countIndex count (at_i v (S (v_i v)))
      else if c =? "]"%ch then v_close (at_i v (S (v_i v))) countIndex count
      else v_err src (v_i v) "expected comma or closing bracket in array"
    end
  end.

Definition parseArray (depth : Z) (v : vstate) : res SyntaxError vstate :=
  if maxDepth <? depth then v_err src (v_i v) "maximum nesting depth exceeded"
  else
  let v := at_i v (S (v_i v)) in
  let (countIndex, v) := v_open v in
  let v := v_skipSpace v in
  if at_byte src (v_i v) "]"%ch then Ok (at_i v (S (v_i v)))
  else parseArray_loop (S (length src)) depth countIndex 0 v.

Fixpoint parseObject_loop (fuel : nat) (depth : Z) (countIndex : option nat) (count : Z)
  (v : vstate) : res SyntaxError vstate :=
  match fuel with
  | O => NoFuel
  | S fuel =>
    let v := v_skipSpace v in
    if negb (at_byte src (v_i v) DQUOTE) then v_err src (v_i v) "expected object key string"
    else
    let* v := moves v (parseString src (v_i v)) in
    let v := v_skipSpace v in
    if negb (at_byte src (v_i v) ":"%ch) then v_err src (v_i v) "expected colon after object key"
    else
    let v := v_skipSpace (at_i v (S (v_i v))) in
    let* v := parseValue depth v in
    let count := count + 1 in
    let v := on_layout count_member v in
    let v := v_skipSpace v in
    match src !! v_i v with
    | None => v_err src (v_i v) "unterminated object"
    | Some c =>
      if c =? ","%ch then parseObject_loop fuel depth countIndex count (at_i v (S (v_i v)))
      else if c =? "}"%ch then v_close (at_i v (S (v_i v))) countIndex count
      else v_err src (v_i v) "expected comma or closing brace in object"
    end
  end.

Definition parseObject (depth : Z) (v : vstate) : res SyntaxError vstate :=
  if maxDepth <? depth then v_err src (v_i v) "maximum nesting depth exceeded"
  else
  let v := at_i v (S (v_i v)) in
  let (countIndex, v) := v_open v in
  let v := v_skipSpace v in
  if at_byte src (v_i v) "}"%ch then Ok (at_i v (S (v_i v)))
  else parseObject_loop (S (length src)) depth countIndex 0 v.

Definition parseValue_body (depth : Z) (v : vstate) : res SyntaxError vstate :=
  if maxDepth <? depth then v_err src (v_i v) "maximum nesting depth exceeded"
  else
  match src !! v_i v with
  | None => v_err src (v_i v) "expected value"
  | Some c =>
    if c =? "n"%ch then moves v (parseLiteral src lit_null (v_i v))
    else if c =? "t"%ch then moves v (parseLiteral src lit_true (v_i v))
    else if c =? "f"%ch then moves v (parseLiteral src lit_false (v_i v))
    else if c =? DQUOTE then moves v (parseString src (v_i v))
    else if c =? "["%ch then parseArray (depth + 1) v
    else if c =? "{"%ch then parseObject (depth + 1) v
    else if (c =? "-"%ch) || IsDigit c then moves v (parseNumber src (v_i v))
    else v_err src (v_i v) (unexpected_byte c)
  end.
End Methods.

Fixpoint parseValue (fuel : nat) (depth : Z) (v : vstate) : res SyntaxError vstate :=
  match fuel with
  | O => NoFuel
  | S fuel => parseValue_body (parseValue fuel) depth v
  end.

(** The body [validateOptions] and [countLayout] share. *)
Definition parse_document (l : option layout) : res SyntaxError vstate :=
  let v := v_skipSpace (mkV 0 l) in
  let* v := parseValue (S (length src)) 0 v in
  let v := v_skipSpace v in
  if negb (v_i v =? length src)%nat then v_err src (v_i v) "unexpected data after top-level value"
  else Ok v.
End Values.

Record Options : Type := mkOptions { MaxDepth : Z; ZeroCopy : bool }.

Definition validateOptions (src : bytes) (opts : Options) : res SyntaxError unit :=
  let* _ := parse_document src (maxDepthOrDefault (MaxDepth opts)) None in Ok tt.

(** [Validate] on the portable lane: without the bitmap engine it is the scalar
    validator with default options. *)
Definition Validate (src : bytes) : res SyntaxError unit := validateOptions src (mkOptions 0 false).

Definition countLayout (src : bytes) (maxDepth : Z) : res SyntaxError layout :=
  let* v := parse_document src (maxDepthOrDefault maxDepth) (Some layout0) in
  match v_layout v with Some l => Ok l | None => Panic end.

(** [RequiredIndexEntries] (index.go). *)
Definition RequiredIndexEntries (src : bytes) : res SyntaxError Z :=
  let* l := countLayout src DefaultMaxDepth in Ok (1 + lvalues l + 2 * lmembers l).

(** ** The string scanner follows the reference reader *)

(** A reference outcome as the program reports it: the end position, or a
    [SyntaxError] with its line and column. *)
Definition as_syntax {A B} (src : bytes) (f : A -> B) (r : res rerr A) : res SyntaxError B :=
  match r with
  | Ok a => Ok (f a)
  | Err (o, m) => Err (syntax_at src o m)
  | Panic => Panic
  | NoFuel => NoFuel
  end.

Lemma is_simple_escape_switch c :
  (c =? DQUOTE) || (c =? BSLASH) || (c =? "/"%ch) || (c =? "b"%ch) || (c =? "f"%ch)
  || (c =? "n"%ch) || (c =? "r"%ch) || (c =? "t"%ch) = is_simple_escape c.
Proof. done. Qed.

Lemma validateUnicodeEscape_ref src i :
  src !! i = Some "u"%ch ->
  validateUnicodeEscape src i =
    match esc_ref (drop i src) with
    | EscOk n _ => Ok (i + n)%nat
    | EscErr m => Err (syntax_at src (i - 1) m)
    end.
Proof.
  intros Hi. rewrite (u_escape_ref src i Hi). unfold validateUnicodeEscape, u_escape, v_err.
  replace (S i + 4 + 2)%nat with (i + 7)%nat by lia. replace (S i + 4 + 6)%nat with (i + 11)%nat by lia.
  replace (S i + 4 + 1)%nat with (i + 6)%nat by lia. replace (S i + 4)%nat with (i + 5)%nat by lia.
  cbv zeta. destruct (hex4 src (S i)) as [u [|]]; [|done]. cbn [negb].
  fold (is_high_surrogate u). fold (is_low_surrogate u).
  destruct (is_high_surrogate u); [|by destruct (is_low_surrogate u)].
  destruct (_ || _ || _); [done|]. destruct (hex4 src (i + 7)) as [v [|]]; [|done]. cbn [negb].
  replace ((v <? 0xDC00) || (0xDFFF <? v)) with (negb (is_low_surrogate v))
    by (unfold is_low_surrogate; lia).
  destruct (is_low_surrogate v); [|done]. cbn [negb]. f_equal. lia.
Qed.

Lemma validateEscape_ref src i :
  (i < length src)%nat ->
  validateEscape src i =
    match esc_ref (drop i src) with
    | EscOk n _ => Ok (i + n)%nat
    | EscErr m => Err (syntax_at src (i - 1) m)
    end.
Proof.
  intros Hi. unfold validateEscape. destruct (src !! i) as [c|] eqn:E; [|apply lookup_ge_None in E; lia].
  rewrite is_simple_escape_switch. destruct (is_simple_escape c) eqn:Hs.
  { rewrite (lookup_Some_drop _ _ _ E). simpl. rewrite Hs. f_equal. lia. }
  destruct (Z.eqb_spec c "u"%ch) as [->|Hne]; [by apply validateUnicodeEscape_ref|].
  rewrite (lookup_Some_drop _ _ _ E). cbn [esc_ref]. rewrite Hs. by rewrite if_false by lia.
Qed.

Section StringRefine.
Context (src : bytes).
Hypothesis Hsrc : bytes_ok src.

Lemma parseString_loop_ref fuel i out :
  (i <= length src)%nat -> (length src - i < fuel)%nat ->
  parseString_loop src fuel i = as_syntax src fst (str_at src i out).
Proof using Hsrc.
  revert i out. induction fuel as [|fuel IH]; intros i out Hi Hf; [lia|]. cbn [parseString_loop].
  rewrite (str_at_special src Hsrc i out Hi). rewrite scanStringSpecial_spec by done.
  pose proof (advance_le (fun c => negb (is_string_special c)) src i Hi) as Hj.
  destruct (advance_span (fun c => negb (is_string_special c)) src i Hi) as (s & _ & _ & Hst).
  set (j := advance _ src i) in *. generalize (out ++ slice src i j). clear out. intros out.
  rewrite stops_lookup in Hst. at_pos src j as c E.
  2:{ rewrite str_at_end by by apply lookup_ge_None. apply lookup_ge_None in E.
  by replace j with (length src) by lia. }
  apply lookup_lt_Some in E as Hlt. destruct (Z.eqb_spec c DQUOTE) as [->|Hq].
  { by rewrite str_at_quote. }
  destruct (Z.eqb_spec c BSLASH) as [->|Hb].
  - cbv zeta. destruct (Nat.leb_spec (length src) (S j)); [by rewrite str_at_escape_end|].
    rewrite str_at_escape by done. rewrite validateEscape_ref by done. simpl Nat.sub. rewrite Nat.sub_0_r.
    destruct (esc_ref (drop (S j) src)) as [n d|m] eqn:He; [|done]. cbn [res_bind].
    apply esc_ok_bound in He; [|lia]. apply IH; lia.
  - destruct (Z.ltb_spec c 0x20); [by rewrite (str_at_control _ _ _ _ E)|].
    assert (128 <= c) by (unfold is_string_special in Hst; lia).
    pose proof (str_at_unicode src Hsrc j c out E ltac:(done)) as Hu.
    destruct (scanStringUnicodeRun src j) as [next [bad|]]; destruct Hu as [Hu ->]; [done|].
    apply IH; lia.
Qed.

Lemma parseString_ref i :
  (i < length src)%nat -> parseString src i = as_syntax src fst (ref_str src i).
Proof using Hsrc. intros. apply parseString_loop_ref; lia. Qed.
End StringRefine.

(** ** The layout counts the tree *)

(** What the layout means: the length of every container in the order their
    opening brackets occur, the array elements and the object members. *)
Record counts : Type := mkCounts { c_lens : list Z; c_values : Z; c_members : Z }.

Definition czero : counts := mkCounts [] 0 0.
Definition cadd (a b : counts) : counts :=
  mkCounts (c_lens a ++ c_lens b) (c_values a + c_values b) (c_members a + c_members b).
Definition csum (l : list counts) : counts := foldr cadd czero l.

Fixpoint tree_counts (t : tree) : counts :=
  match t with
  | TArr _ ts =>
      let n := Z.of_nat (length ts) in cadd (mkCounts [n] n 0) (csum (map tree_counts ts))
  | TObj _ ms =>
      let n := Z.of_nat (length ms) in
      cadd (mkCounts [n] 0 n) (csum (map (fun m => tree_counts m.2) ms))
  | _ => czero
  end.

Lemma cadd_assoc a b c : cadd a (cadd b c) = cadd (cadd a b) c.
Proof. unfold cadd. simpl. by rewrite app_assoc, !Z.add_assoc. Qed.
Lemma cadd_zero_r a : cadd a czero = a.
Proof. destruct a. unfold cadd. simpl. by rewrite app_nil_r, !Z.add_0_r. Qed.

(** A layout value represents counts; the unused part of the array is zero. *)
Definition lrep (l : layout) (c : counts) : Prop :=
  length (inline l) = 64%nat /\
  inline l ++ overflow l = c_lens c ++ replicate (64 - length (c_lens c)) 0 /\
  ncontainers l = length (c_lens c) /\ lvalues l = c_values c /\ lmembers l = c_members c.

Lemma lrep_layout0 : lrep layout0 czero.
Proof. split_and!; reflexivity. Qed.

Lemma addContainer_rep l c :
  lrep l c ->
  (addContainer l).1 = length (c_lens c) /\ lrep (addContainer l).2 (cadd c (mkCounts [0] 0 0)).
Proof.
  intros (Hi & Ha & Hn & Hv & Hm). unfold addContainer. simpl. split; [done|].
  split; [done|]. simpl. rewrite length_app, Hn, Hv, Hm. simpl. split_and!; [|lia|lia|lia].
  rewrite Hi. destruct (Nat.leb_spec 64 (length (c_lens c))) as [Hle|Hgt].
  - rewrite app_assoc, Ha. replace (64 - length (c_lens c))%nat with 0%nat by lia.
    replace (64 - (length (c_lens c) + 1))%nat with 0%nat by lia. simpl. by rewrite !app_nil_r.
  - rewrite Ha, <- app_assoc. f_equal.
    by replace (64 - length (c_lens c))%nat with (S (64 - (length (c_lens c) + 1))) by lia.
Qed.

Definition cset (k : nat) (n : Z) (c : counts) : counts :=
  mkCounts (<[k:=n]> (c_lens c)) (c_values c) (c_members c).

Lemma setContainer_rep l c k n :
  lrep l c -> (k < length (c_lens c))%nat ->
  exists l', setContainer l k n = Some l' /\ lrep l' (cset k n c).
Proof.
  intros (Hi & Ha & Hn & Hv & Hm) Hk. unfold setContainer.
  assert (Hlen : (length (inline l) + length (overflow l) >= length (c_lens c))%nat).
  { apply (f_equal length) in Ha. rewrite !length_app in Ha. lia. }
  assert (Hins : <[k:=n]> (inline l ++ overflow l)
    = <[k:=n]> (c_lens c) ++ replicate (64 - length (c_lens c)) 0).
  { rewrite Ha. by apply insert_app_l. }
  destruct (Nat.ltb_spec k (length (inline l))).
  - eexists; split; [done|]. split_and!; simpl; rewrite ?length_insert; try done.
    by rewrite <- Hins, insert_app_l.
  - rewrite (proj2 (Nat.ltb_lt _ _)) by lia. eexists; split; [done|].
    split_and!; simpl; rewrite ?length_insert; try done.
    rewrite <- Hins. replace k with (length (inline l) + (k - length (inline l)))%nat at 2 by lia.
    by rewrite insert_app_r.
Qed.

Definition lay_rep (ol : option layout) (oc : option counts) : Prop :=
  match ol, oc with Some l, Some c => lrep l c | None, None => True | _, _ => False end.

Definition oadd (oc : option counts) (d : counts) : option counts :=
  option_map (fun c => cadd c d) oc.

Lemma oadd_oadd oc a b : oadd (oadd oc a) b = oadd oc (cadd a b).
Proof. destruct oc; simpl; [by rewrite cadd_assoc|done]. Qed.
Lemma oadd_zero oc : oadd oc czero = oc.
Proof. destruct oc; simpl; [by rewrite cadd_zero_r|done]. Qed.

Lemma count_value_rep ol oc :
  lay_rep ol oc -> lay_rep (option_map count_value ol) (oadd oc (mkCounts [] 1 0)).
Proof.
  destruct ol, oc; try done. unfold lay_rep, lrep. simpl.
  rewrite app_nil_r. intros (? & ? & ? & ? & ?). split_and!; (done || lia).
Qed.
Lemma count_member_rep ol oc :
  lay_rep ol oc -> lay_rep (option_map count_member ol) (oadd oc (mkCounts [] 0 1)).
Proof.
  destruct ol, oc; try done. unfold lay_rep, lrep. simpl.
  rewrite app_nil_r. intros (? & ? & ? & ? & ?). split_and!; (done || lia).
Qed.

(** The slot a container reserved. *)
Definition slot (idx : option nat) (oc : option counts) : Prop :=
  match idx, oc with
  | Some k, Some c => (k < length (c_lens c))%nat
  | None, None => True
  | _, _ => False
  end.

Definition oset (idx : option nat) (n : Z) (oc : option counts) : option counts :=
  match idx with Some k => option_map (cset k n) oc | None => oc end.

Lemma v_close_rep v idx n oc :
  lay_rep (v_layout v) oc -> slot idx oc ->
  exists ol, v_close v idx n = Ok (mkV (v_i v) ol) /\ lay_rep ol (oset idx n oc).
Proof.
  intros Hr Hs. unfold v_close. destruct idx as [k|], oc as [c|], v as [i [l|]]; simpl in *; try done.
  - destruct (setContainer_rep l c k n Hr Hs) as (l' & -> & Hl'). by exists (Some l').
  - by exists None.
Qed.

Lemma v_open_rep v oc :
  lay_rep (v_layout v) oc ->
  exists idx ol, v_open v = (idx, mkV (v_i v) ol) /\ lay_rep ol (oadd oc (mkCounts [0] 0 0)) /\
    idx = option_map (fun c => length (c_lens c)) oc.
Proof.
  intros Hr. unfold v_open. destruct v as [i [l|]], oc as [c|]; cbn [v_layout lay_rep] in *; try done.
  - destruct (addContainer_rep l c Hr) as [H1 H2]. destruct (addContainer l) as [k l']. simpl in *.
    exists (Some k), (Some l'). by subst.
  - by exists None, None.
Qed.

Lemma slot_oadd idx oc d : slot idx oc -> slot idx (oadd oc d).
Proof. destruct idx, oc; simpl; try done. rewrite length_app. lia. Qed.

(** Writing the count into the slot opened just before the contents. *)
Lemma oset_open oc n d :
  oset (option_map (fun c => length (c_lens c)) oc) n (oadd (oadd oc (mkCounts [0] 0 0)) d)
  = oadd oc (cadd (mkCounts [n] 0 0) d).
Proof.
  destruct oc as [c|]; simpl; [|done]. unfold cset, cadd. simpl. f_equal. f_equal; [|lia|lia].
  rewrite <- app_assoc. replace (length (c_lens c)) with (length (c_lens c) + 0)%nat at 1 by lia.
  by rewrite insert_app_r.
Qed.

(** ** The validator follows the reference reader *)

Definition elem_counts (t : tree) : counts := cadd (tree_counts t) (mkCounts [] 1 0).
Definition member_counts (m : (bytes * bytes) * tree) : counts := cadd (tree_counts m.2) (mkCounts [] 0 1).

Section Refine.
Context (src : bytes) (maxDepth : Z).
Hypothesis Hsrc : bytes_ok src.
Abbreviation rv := (ref_value src maxDepth unexpected_byte).

(** [r] does what the reference outcome [rr] says, and counts [d]. *)
Definition v_follows {A} (cnt : A -> counts) (oc : option counts)
  (r : res SyntaxError vstate) (rr : res rerr (nat * A)) : Prop :=
  match rr with
  | Ok (j, a) => exists ol, r = Ok (mkV j ol) /\ lay_rep ol (oadd oc (cnt a))
  | Err (o, m) => r = Err (syntax_at src o m)
  | _ => False
  end.

Definition follows_at (pv : Z -> vstate -> res SyntaxError vstate)
  (rvf : Z -> nat -> res rerr (nat * tree)) (depth : Z) (bound : nat) : Prop :=
  forall v oc, (bound <= v_i v <= length src)%nat -> lay_rep (v_layout v) oc ->
  v_follows tree_counts oc (pv depth v) (rvf depth (v_i v)).

Lemma at_i_at_i v i j : at_i (at_i v i) j = at_i v j.
Proof using. done. Qed.

Lemma skip_at v : (v_i v <= length src)%nat -> v_skipSpace src v = at_i v (ref_ws src (v_i v)).
Proof using Hsrc. intros. unfold v_skipSpace. by rewrite SkipSpace_spec. Qed.

Lemma moves_follows v oc (r : res SyntaxError nat) (rr : res rerr (nat * tree)) :
  lay_rep (v_layout v) oc -> r = as_syntax src fst rr -> reads src 0 (v_i v) rr \/ returns rr ->
  (forall j t, rr = Ok (j, t) -> tree_counts t = czero) ->
  v_follows tree_counts oc (moves v r) rr.
Proof using.
  intros Hr -> Hret Hz. destruct rr as [[j t]|[o m]| |]; simpl; [|done| |].
  - rewrite (Hz j t eq_refl), oadd_zero. eexists; eauto.
  - destruct Hret as [|[[? ?]|[? ?]]]; done.
  - destruct Hret as [|[[? ?]|[? ?]]]; done.
Qed.

Lemma csum_cons d l : csum (d :: l) = cadd d (csum l).
Proof using. done. Qed.

Lemma parseArray_loop_ref pv rvf depth bound idx fuel :
  follows_at pv rvf depth bound ->
  (forall i, (bound <= i <= length src)%nat -> reads src (maxDepth - depth) i (rvf depth i)) ->
  forall v oc count acc,
  (bound <= v_i v <= length src)%nat -> (length src - v_i v < fuel)%nat ->
  lay_rep (v_layout v) oc -> slot idx oc -> count = Z.of_nat (length acc) ->
  match ref_elems src rvf fuel depth (v_i v) acc with
  | Ok (j, ts) => exists ts' ol, ts = acc ++ ts' /\
    parseArray_loop src pv fuel depth idx count v = Ok (mkV j ol) /\
    lay_rep ol (oset idx (Z.of_nat (length ts)) (oadd oc (csum (map elem_counts ts'))))
  | Err (o, m) => parseArray_loop src pv fuel depth idx count v = Err (syntax_at src o m)
  | _ => False
  end.
Proof using Hsrc.
  intros Hpv Hrd. induction fuel as [|fuel IH]; intros v oc count acc Hi Hf Hl Hs ->; [lia|].
  cbn [ref_elems parseArray_loop]. rewrite skip_at by lia.
  pose proof (ref_ws_le src (v_i v) ltac:(lia)) as H1. set (i1 := ref_ws src (v_i v)) in *.
  specialize (Hpv (at_i v i1) oc ltac:(simpl; lia) Hl) as Hp. simpl v_i in Hp.
  specialize (Hrd i1 ltac:(lia)) as Hr.
  destruct (rvf depth i1) as [[j t]|[o m]| |]; [| |done|done].
  2:{ simpl in Hp |- *. by rewrite Hp. }
  destruct Hp as (ol & -> & Hol). cbn [res_bind]. destruct Hr as (Hj & s & Hsp & _).
  apply span_le in Hsp. rewrite skip_at by (simpl; lia). cbn [on_layout at_i v_i v_layout].
  apply count_value_rep in Hol. rewrite oadd_oadd in Hol. fold (elem_counts t) in Hol.
  pose proof (ref_ws_le src j ltac:(lia)) as H2. set (k := ref_ws src j) in *.
  at_pos src k as c E; [|done]. apply lookup_lt_Some in E as Hlt.
  destruct (c =? ","%ch).
  - specialize (IH (mkV (S k) (option_map count_value ol)) (oadd oc (elem_counts t))
      (Z.of_nat (length acc) + 1) (acc ++ [t])). simpl v_i in IH.
    specialize (IH ltac:(lia) ltac:(lia) Hol (slot_oadd _ _ _ Hs)
      ltac:(rewrite length_app; simpl; lia)).
    destruct (ref_elems src rvf fuel depth (S k) (acc ++ [t])) as [[j' ts]|[o m]| |]; [|done..].
    destruct IH as (ts' & ol' & -> & Hrun & Hol'). exists (t :: ts'), ol'.
    rewrite <- app_assoc. split; [done|]. split; [done|].
    rewrite oadd_oadd, <- app_assoc in Hol'. exact Hol'.
  - destruct (c =? "]"%ch); [|done].
    destruct (v_close_rep (mkV (S k) (option_map count_value ol)) idx (Z.of_nat (length acc) + 1)
      _ Hol (slot_oadd _ _ _ Hs)) as (ol' & Hc & Hol').
    exists [t], ol'. split; [done|]. split; [exact Hc|].
    rewrite length_app, Nat2Z.inj_add. simpl. by rewrite cadd_zero_r.
Qed.

Lemma csum_elems ts :
  csum (map elem_counts ts) = cadd (mkCounts [] (Z.of_nat (length ts)) 0) (csum (map tree_counts ts)).
Proof using.
  induction ts as [|t ts IH]; [done|]. cbn [map]. rewrite !csum_cons, IH. unfold elem_counts, cadd.
  cbn [c_lens c_values c_members app length]. f_equal; [by rewrite app_nil_r|lia|lia].
Qed.

Lemma csum_members ms :
  csum (map member_counts ms) =
  cadd (mkCounts [] 0 (Z.of_nat (length ms))) (csum (map (fun m => tree_counts m.2) ms)).
Proof using.
  induction ms as [|t ms IH]; [done|]. cbn [map]. rewrite !csum_cons, IH. unfold member_counts, cadd.
  cbn [c_lens c_values c_members app length]. f_equal; [by rewrite app_nil_r|lia|lia].
Qed.

Lemma parseObject_loop_ref pv rvf depth bound idx fuel :
  follows_at pv rvf depth bound ->
  (forall i, (bound <= i <= length src)%nat -> reads src (maxDepth - depth) i (rvf depth i)) ->
  forall v oc count acc,
  (bound <= v_i v <= length src)%nat -> (length src - v_i v < fuel)%nat ->
  lay_rep (v_layout v) oc -> slot idx oc -> count = Z.of_nat (length acc) ->
  match ref_members src rvf fuel depth (v_i v) acc with
  | Ok (j, ms) => exists ms' ol, ms = acc ++ ms' /\
    parseObject_loop src pv fuel depth idx count v = Ok (mkV j ol) /\
    lay_rep ol (oset idx (Z.of_nat (length ms)) (oadd oc (csum (map member_counts ms'))))
  | Err (o, m) => parseObject_loop src pv fuel depth idx count v = Err (syntax_at src o m)
  | _ => False
  end.
Proof using Hsrc.
  intros Hpv Hrd. induction fuel as [|fuel IH]; intros v oc count acc Hi Hf Hl Hs ->; [lia|].
  cbn [ref_members parseObject_loop]. rewrite skip_at by lia. cbn [at_i v_i v_layout].
  pose proof (ref_ws_le src (v_i v) ltac:(lia)) as H1. set (i1 := ref_ws src (v_i v)) in *.
  destruct (at_byte src i1 DQUOTE) eqn:Hq; [|done]. cbn [negb].
  apply at_byte_lt in Hq as Hlt1. apply at_byte_spec in Hq.
  rewrite parseString_ref by done. pose proof (ref_str_sound src Hsrc i1 Hq) as Hstr.
  destruct (ref_str src i1) as [[i2 name]|[o m]| |]; cbn [as_syntax moves res_bind]; [|done..].
  destruct Hstr as (Hi2 & key & Hkey & _). apply span_le in Hkey. cbn [fst].
  rewrite skip_at by (cbn [at_i v_i]; lia). cbn [at_i v_i v_layout].
  pose proof (ref_ws_le src i2 ltac:(lia)) as H2. set (i3 := ref_ws src i2) in *.
  destruct (at_byte src i3 ":"%ch) eqn:Hc; [|done]. cbn [negb]. apply at_byte_lt in Hc.
  rewrite skip_at by (cbn [at_i v_i]; lia). cbn [at_i v_i v_layout].
  pose proof (ref_ws_le src (S i3) ltac:(lia)) as H3. set (i4 := ref_ws src (S i3)) in *.
  rewrite !at_i_at_i.
  specialize (Hpv (at_i v i4) oc ltac:(simpl; lia) Hl) as Hp. cbn [at_i v_i] in Hp.
  specialize (Hrd i4 ltac:(lia)) as Hr.
  destruct (rvf depth i4) as [[j t]|[o m]| |]; [| |done|done].
  2:{ simpl in Hp |- *. by rewrite Hp. }
  destruct Hp as (ol & -> & Hol). cbn [res_bind]. destruct Hr as (Hj & s & Hsp & _).
  apply span_le in Hsp. rewrite skip_at by (simpl; lia). cbn [on_layout at_i v_i v_layout].
  apply count_member_rep in Hol. rewrite oadd_oadd in Hol.
  change (cadd (tree_counts t) (mkCounts [] 0 1)) with (member_counts ((slice src i1 i2, name), t)) in Hol.
  pose proof (ref_ws_le src j ltac:(lia)) as H4. set (k := ref_ws src j) in *.
  at_pos src k as c E; [|done]. apply lookup_lt_Some in E as Hlt.
  destruct (c =? ","%ch).
  - specialize (IH (mkV (S k) (option_map count_member ol)) (oadd oc (member_counts ((slice src i1 i2, name), t)))
      (Z.of_nat (length acc) + 1) (acc ++ [((slice src i1 i2, name), t)])). cbn [v_i] in IH.
    specialize (IH ltac:(lia) ltac:(lia) Hol (slot_oadd _ _ _ Hs)
      ltac:(rewrite length_app; simpl; lia)).
    destruct (ref_members src rvf fuel depth (S k) _) as [[j' ms]|[o m]| |]; [|done..].
    destruct IH as (ms' & ol' & -> & Hrun & Hol'). exists (((slice src i1 i2, name), t) :: ms'), ol'.
    rewrite <- app_assoc. split; [done|]. split; [done|].
    rewrite oadd_oadd, <- app_assoc in Hol'. exact Hol'.
  - destruct (c =? "}"%ch); [|done].
    destruct (v_close_rep (mkV (S k) (option_map count_member ol)) idx (Z.of_nat (length acc) + 1)
      _ Hol (slot_oadd _ _ _ Hs)) as (ol' & Hcl & Hol').
    exists [((slice src i1 i2, name), t)], ol'. split; [done|]. split; [exact Hcl|].
    rewrite length_app, Nat2Z.inj_add. cbn [length map]. rewrite csum_cons. by rewrite cadd_zero_r.
Qed.

Lemma slot_open oc : slot (option_map (fun c => length (c_lens c)) oc) (oadd oc (mkCounts [0] 0 0)).
Proof using. destruct oc; simpl; [|done]. rewrite length_app. simpl. lia. Qed.

Lemma parseArray_ref pv rvf depth v oc :
  follows_at pv rvf depth (S (v_i v)) ->
  (forall i, (S (v_i v) <= i <= length src)%nat -> reads src (maxDepth - depth) i (rvf depth i)) ->
  (v_i v < length src)%nat -> lay_rep (v_layout v) oc ->
  v_follows tree_counts oc (parseArray src maxDepth pv depth v) (ref_array src maxDepth rvf depth (v_i v)).
Proof using Hsrc.
  intros Hpv Hrd Hi Hl. unfold parseArray, ref_array. destruct (maxDepth <? depth); [done|].
  destruct (v_open_rep (at_i v (S (v_i v))) oc Hl) as (idx & ol & -> & Hol & ->).
  rewrite skip_at by (simpl; lia). unfold at_i. cbn [v_i v_layout].
  pose proof (ref_ws_le src (S (v_i v)) ltac:(lia)) as Hle. set (j := ref_ws src (S (v_i v))) in *.
  destruct (at_byte src j "]"%ch); [by eexists|].
  pose proof (parseArray_loop_ref pv rvf depth _ (option_map (fun c => length (c_lens c)) oc)
    (S (length src)) Hpv Hrd (mkV j ol) _ 0 [] ltac:(simpl; lia) ltac:(simpl; lia) Hol
    (slot_open oc) eq_refl) as H. cbn [v_i] in H.
  destruct (ref_elems _ _ _ _ _ _) as [[k ts]|[o m]| |]; [|done..].
  destruct H as (ts' & ol' & -> & -> & Hol'). exists ol'. split; [done|].
  rewrite oset_open, csum_elems, cadd_assoc in Hol'. exact Hol'.
Qed.

Lemma parseObject_ref pv rvf depth v oc :
  follows_at pv rvf depth (S (v_i v)) ->
  (forall i, (S (v_i v) <= i <= length src)%nat -> reads src (maxDepth - depth) i (rvf depth i)) ->
  (v_i v < length src)%nat -> lay_rep (v_layout v) oc ->
  v_follows tree_counts oc (parseObject src maxDepth pv depth v) (ref_object src maxDepth rvf depth (v_i v)).
Proof using Hsrc.
  intros Hpv Hrd Hi Hl. unfold parseObject, ref_object. destruct (maxDepth <? depth); [done|].
  destruct (v_open_rep (at_i v (S (v_i v))) oc Hl) as (idx & ol & -> & Hol & ->).
  rewrite skip_at by (simpl; lia). unfold at_i. cbn [v_i v_layout].
  pose proof (ref_ws_le src (S (v_i v)) ltac:(lia)) as Hle. set (j := ref_ws src (S (v_i v))) in *.
  destruct (at_byte src j "}"%ch); [by eexists|].
  pose proof (parseObject_loop_ref pv rvf depth _ (option_map (fun c => length (c_lens c)) oc)
    (S (length src)) Hpv Hrd (mkV j ol) _ 0 [] ltac:(simpl; lia) ltac:(simpl; lia) Hol
    (slot_open oc) eq_refl) as H. cbn [v_i] in H.
  destruct (ref_members _ _ _ _ _ _) as [[k ms]|[o m]| |]; [|done..].
  destruct H as (ms' & ol' & -> & -> & Hol'). exists ol'. split; [done|].
  rewrite oset_open, csum_members, cadd_assoc in Hol'. exact Hol'.
Qed.

Lemma parseLiteral_follows v oc lit t :
  lay_rep (v_layout v) oc -> tree_counts t = czero ->
  v_follows tree_counts oc (moves v (parseLiteral src lit (v_i v))) (ref_lit src lit t (v_i v)).
Proof using.
  intros Hl Ht. unfold parseLiteral, ref_lit. destruct (matchStringAt src (v_i v) lit); [|done].
  eexists. split; [done|]. by rewrite Ht, oadd_zero.
Qed.

Lemma parseNumber_follows v oc :
  lay_rep (v_layout v) oc ->
  v_follows tree_counts oc (moves v (parseNumber src (v_i v))) (ref_num src (v_i v)).
Proof using.
  intros Hl. unfold parseNumber, ref_num. destruct (scanNumber src (v_i v)) as [j [|]]; [|done].
  eexists. split; [done|]. by rewrite oadd_zero.
Qed.

Lemma parseString_follows v oc :
  lay_rep (v_layout v) oc -> src !! v_i v = Some DQUOTE ->
  v_follows tree_counts oc (moves v (parseString src (v_i v)))
  (let* (j, dec) := ref_str src (v_i v) in Ok (j, TStr (slice src (v_i v) j) dec)).
Proof using Hsrc.
  intros Hl Hq. rewrite parseString_ref by (try done; by eapply lookup_lt_Some).
  pose proof (ref_str_sound src Hsrc _ Hq) as Hs.
  destruct (ref_str src (v_i v)) as [[j dec]|[o m]| |]; [|done..].
  eexists. split; [done|]. by rewrite oadd_zero.
Qed.

(** [parseValue] does exactly what the reference reader does. *)
Lemma parseValue_ref fuel depth v oc :
  (v_i v <= length src)%nat -> (length src - v_i v < fuel)%nat -> lay_rep (v_layout v) oc ->
  v_follows tree_counts oc (parseValue src maxDepth fuel depth v) (rv fuel depth (v_i v)).
Proof using Hsrc.
  revert depth v oc. induction fuel as [|fuel IH]; intros depth v oc Hi Hf Hl; [lia|].
  cbn [parseValue ref_value]. unfold parseValue_body, ref_body.
  destruct (maxDepth <? depth); [done|]. at_pos src (v_i v) as c E; [|done].
  apply lookup_lt_Some in E as Hlt.
  assert (HF : follows_at (parseValue src maxDepth fuel) (rv fuel) (depth + 1) (S (v_i v)))
    by (intros v' oc' Hb Hl'; apply IH; [lia|lia|done]).
  assert (HR : forall i, (S (v_i v) <= i <= length src)%nat ->
    reads src (maxDepth - (depth + 1)) i (rv fuel (depth + 1) i))
    by (intros i Hb; apply ref_value_sound; [done|lia|lia]).
  destruct (c =? "n"%ch); [by apply parseLiteral_follows|].
  destruct (c =? "t"%ch); [by apply parseLiteral_follows|].
  destruct (c =? "f"%ch); [by apply parseLiteral_follows|].
  destruct (Z.eqb_spec c DQUOTE) as [->|]; [by apply parseString_follows|].
  destruct (c =? "["%ch); [by apply parseArray_ref|].
  destruct (c =? "{"%ch); [by apply parseObject_ref|].
  destruct (_ || _); [by apply parseNumber_follows|done].
Qed.

(** The whole document, with or without a layout. *)
Lemma parse_document_ref l oc :
  lay_rep l oc ->
  match ref_doc src maxDepth unexpected_byte with
  | Ok t => exists v, parse_document src maxDepth l = Ok v /\ lay_rep (v_layout v) (oadd oc (tree_counts t))
  | Err (o, m) => parse_document src maxDepth l = Err (syntax_at src o m)
  | _ => False
  end.
Proof using Hsrc.
  intros Hl. unfold ref_doc, parse_document. rewrite skip_at by (simpl; lia).
  unfold at_i. cbn [v_i v_layout].
  pose proof (ref_ws_le src 0 ltac:(lia)) as H0. set (i0 := ref_ws src 0) in *.
  pose proof (parseValue_ref (S (length src)) 0 (mkV i0 l) oc ltac:(simpl; lia) ltac:(simpl; lia) Hl) as H.
  cbn [v_i] in H.
  pose proof (ref_value_sound src maxDepth unexpected_byte Hsrc (S (length src)) 0 i0
    ltac:(lia) ltac:(lia)) as Hr.
  destruct (rv (S (length src)) 0 i0) as [[j t]|[o m]| |]; cbn [v_follows] in H; [| |done|done].
  2:{ by rewrite H. }
  destruct H as (ol & -> & Hol). destruct Hr as (Hj & s & Hs & _). apply span_le in Hs.
  cbn [res_bind]. rewrite skip_at by (simpl; lia). cbn [at_i v_i v_layout].
  destruct (ref_ws src j =? length src)%nat; [|done]. eexists. split; [done|]. exact Hol.
Qed.
End Refine.

Lemma validateOptions_ref src opts :
  bytes_ok src ->
  validateOptions src opts =
    as_syntax src (fun _ => tt) (ref_doc src (maxDepthOrDefault (MaxDepth opts)) unexpected_byte).
Proof.
  intros Hok. unfold validateOptions.
  pose proof (parse_document_ref src (maxDepthOrDefault (MaxDepth opts)) Hok None None I) as H.
  destruct (ref_doc _ _ _) as [t|[o m]| |]; [|by rewrite H|done|done].
  by destruct H as (v & -> & _).
Qed.

(** ** Properties *)

(** C1: validation accepts exactly the documents of the grammar whose arrays and objects nest at most as deep as the options allow. *)
Theorem Validate_grammar src opts :
  bytes_ok src ->
  (validateOptions src opts = Ok tt <-> exists t, jdoc (maxDepthOrDefault (MaxDepth opts)) src t) /\
  (Validate src = Ok tt <-> exists t, jdoc DefaultMaxDepth src t).
Proof.
  intros Hok.
  assert (H : forall o, validateOptions src o = Ok tt <-> exists t, jdoc (maxDepthOrDefault (MaxDepth o)) src t).
  { intros o. rewrite validateOptions_ref by done.
    split; [|by intros (t & Ht%(ref_doc_complete _ _ unexpected_byte)); rewrite Ht].
    pose proof (ref_doc_sound src (maxDepthOrDefault (MaxDepth o)) unexpected_byte Hok) as Hs.
    destruct (ref_doc _ _ _) as [t|[p m]| |]; [by exists t|done..]. }
  split; [apply H|]. apply (H (mkOptions 0 false)).
Qed.

Lemma Validate_grammar_witness :
  let src := js "{'a':[1,-2.5e3,'\u00e9'],'b':{}}" in
  (validateOptions src (mkOptions 1 false) = Ok tt <-> exists t, jdoc 1 src t) /\
  (Validate src = Ok tt <-> exists t, jdoc DefaultMaxDepth src t).
Proof. apply (Validate_grammar _ (mkOptions 1 false)). concrete_bytes. Defined.

(** C19: validation always answers, without a panic: it accepts, or reports the reference reader's error at an offset inside the source with the line and column of that offset. *)
Theorem Validate_reports src opts :
  bytes_ok src ->
  validateOptions src opts = Ok tt \/
  exists off msg, (off <= length src)%nat /\
    ref_doc src (maxDepthOrDefault (MaxDepth opts)) unexpected_byte = Err (off, msg) /\
    validateOptions src opts = Err (mkSyntaxError (Z.of_nat off) (1 + newlines (take off src))
      (1 + Z.of_nat (length (last_line (take off src)))) msg).
Proof.
  intros Hok. rewrite validateOptions_ref by done.
  pose proof (ref_doc_sound src (maxDepthOrDefault (MaxDepth opts)) unexpected_byte Hok) as H.
  destruct (ref_doc _ _ _) as [t|[o m]| |]; [by left|right|done..].
  exists o, m. split; [lia|]. split; [done|]. cbn [as_syntax]. f_equal. unfold syntax_at, syntaxError. cbv zeta.
  rewrite (if_false (_ <? 0)) by lia. rewrite (if_false (_ <? _)) by lia. rewrite Nat2Z.id, line_col_spec. done.
Qed.

Lemma Validate_reports_witness :
  let src := js "[1, tru]" in
  validateOptions src (mkOptions 0 false) = Ok tt \/
  exists off msg, (off <= length src)%nat /\
    ref_doc src DefaultMaxDepth unexpected_byte = Err (off, msg) /\
    validateOptions src (mkOptions 0 false) = Err (mkSyntaxError (Z.of_nat off) (1 + newlines (take off src))
      (1 + Z.of_nat (length (last_line (take off src)))) msg).
Proof. apply (Validate_reports _ (mkOptions 0 false)). concrete_bytes. Defined.

(** The layout pass follows the reference reader. *)
Lemma countLayout_ref src maxDepth :
  bytes_ok src ->
  match ref_doc src (maxDepthOrDefault maxDepth) unexpected_byte with
  | Ok t => exists l, countLayout src maxDepth = Ok l /\ lrep l (tree_counts t)
  | Err (o, m) => countLayout src maxDepth = Err (syntax_at src o m)
  | _ => False
  end.
Proof.
  intros Hok. unfold countLayout.
  pose proof (parse_document_ref src (maxDepthOrDefault maxDepth) Hok (Some layout0) (Some czero) lrep_layout0) as Hp.
  destruct (ref_doc src (maxDepthOrDefault maxDepth) unexpected_byte) as [t|[o m]| |]; [|by rewrite Hp|done|done].
  destruct Hp as ([i [l|]] & -> & Hl); [|done]. exists l. split; [done|exact Hl].
Qed.

Lemma RequiredIndexEntries_ref src :
  bytes_ok src ->
  RequiredIndexEntries src =
    as_syntax src (fun t => 1 + c_values (tree_counts t) + 2 * c_members (tree_counts t))
      (ref_doc src DefaultMaxDepth unexpected_byte).
Proof.
  intros Hok. unfold RequiredIndexEntries. pose proof (countLayout_ref src DefaultMaxDepth Hok) as H.
  change (maxDepthOrDefault DefaultMaxDepth) with DefaultMaxDepth in H.
  destruct (ref_doc src DefaultMaxDepth unexpected_byte) as [t|[o m]| |]; [|by rewrite H|done|done].
  destruct H as (l & -> & (_ & _ & _ & Hv & Hm)). cbn [res_bind as_syntax]. by rewrite Hv, Hm.
Qed.

(** The layout pass and [RequiredIndexEntries] count the document: the length of every container in the order of the opening brackets, the array elements and the object members; the storage is one entry per value and per key. *)
Theorem layout_counts src t :
  bytes_ok src -> jdoc DefaultMaxDepth src t ->
  (exists l, countLayout src 0 = Ok l /\ lrep l (tree_counts t)) /\
  RequiredIndexEntries src = Ok (1 + c_values (tree_counts t) + 2 * c_members (tree_counts t)).
Proof.
  intros Hok Hd. pose proof (countLayout_ref src 0 Hok) as H. change (maxDepthOrDefault 0) with DefaultMaxDepth in H.
  rewrite RequiredIndexEntries_ref by done. rewrite (ref_doc_complete _ _ unexpected_byte _ Hd) in H |- *. done.
Qed.

Lemma layout_counts_witness :
  let src := js "{'a':[1,2],'b':[]}" in
  exists t, (exists l, countLayout src 0 = Ok l /\ lrep l (tree_counts t)) /\
  RequiredIndexEntries src = Ok (1 + c_values (tree_counts t) + 2 * c_members (tree_counts t)).
Proof.
  eexists. apply (layout_counts _ _); [concrete_bytes|].
  apply (ref_doc_jdoc _ _ unexpected_byte); [concrete_bytes|vm_compute; reflexivity].
Defined.

(** the validator's string scanner accepts exactly the string tokens of the grammar: valid UTF-8, no control bytes, well-formed escapes and surrogate pairs. *)
Theorem parseString_grammar src i j :
  bytes_ok src -> src !! i = Some DQUOTE ->
  parseString src i = Ok j <-> exists token dec, span src i token j /\ jstring token dec.
Proof.
  intros Hok Hi. pose proof (lookup_lt_Some _ _ _ Hi) as Hlt. rewrite parseString_ref by done.
  pose proof (ref_str_sound src Hok i Hi) as Hs. split.
  - destruct (ref_str src i) as [[k dec]|[o m]| |]; cbn [as_syntax]; intros; simplify_eq.
    destruct Hs as (_ & s & Hsp & Hj). by exists s, dec.
  - intros (s & dec & Hsp & Hj). by rewrite (ref_str_complete src s dec i j Hj Hsp).
Qed.

Lemma parseString_grammar_witness :
  let src := js "'a\ud83d\ude00b'" in
  parseString src 0 = Ok 16%nat <-> exists token dec, span src 0 token 16 /\ jstring token dec.
Proof. apply (parseString_grammar _ 0 16); [concrete_bytes|reflexivity]. Defined.
