(* ===== verification/FastValid.v ===== *)
(** [valid_fast.go] and the word helpers of [number_digits.go] it uses: the
    bool-only validator behind [Valid].  It reads through an unsafe base pointer;
    a read outside the source is [Panic], so the theorem that it equals the
    reference also says that every unsafe read is in bounds. *)

From S2P Require Import Prelude Words Utf8 Scanner Lex Grammar StringRef Errors Numbers Reader Validator.

(** ** Reads through the base pointer *)

Definition fastByteAt (src : bytes) (i : nat) : res unit Z :=
  match src !! i with Some c => Ok c | None => Panic end.

Definition loadUint64LE (src : bytes) (i : nat) : Z := load64 src i.
Definition loadUint32LE (src : bytes) (i : nat) : Z := load32 src i.

Definition wordTrueLE : Z := Eval cbv in le_word (bs "true").
Definition wordAlseLE : Z := Eval cbv in le_word (bs "alse").
Definition wordNullLE : Z := Eval cbv in le_word (bs "null").

(** The exported forms take an [int] that may be negative. *)
Definition literalNullAt (src : bytes) (i : Z) : bool :=
  if (i <? 0) || (Z.of_nat (length src) - 4 <? i) then false
  else load32 src (Z.to_nat i) =? wordNullLE.
Definition literalTrueAt (src : bytes) (i : Z) : bool :=
  if (i <? 0) || (Z.of_nat (length src) - 4 <? i) then false
  else load32 src (Z.to_nat i) =? wordTrueLE.
Definition literalFalseTailAt (src : bytes) (i : Z) : bool :=
  if (i <? 0) || (Z.of_nat (length src) - 5 <? i) then false
  else load32 src (Z.to_nat i + 1) =? wordAlseLE.

(** ** Digit runs a word at a time *)

Definition digitLower : Z := 0x3030303030303030.
Definition digitUpper : Z := 0x4646464646464646.
Definition digitHigh : Z := 0x8080808080808080.

Definition nonDigitMask8 (x : Z) : Z :=
  Z.land (Z.lor (w64 (x + digitUpper)) (w64 (x - digitLower))) digitHigh.

Fixpoint scanDigitsLong_loop (fuel : nat) (src : bytes) (i : nat) : nat :=
  match fuel with
  | O => i
  | S fuel =>
      if (i + 8 <=? length src)%nat then
        let invalid := nonDigitMask8 (loadUint64LE src i) in
        if negb (invalid =? 0) then (i + Z.to_nat (TrailingZeros64 invalid / 8))%nat
        else scanDigitsLong_loop fuel src (i + 8)
      else skip_digits src i
  end.
Definition scanDigitsLong (src : bytes) (i : nat) : nat := scanDigitsLong_loop (S (length src)) src i.

(** ** Numbers *)

(** The fraction, shared by the two integer loops: nine bytes ahead decide
    whether the word loop is worth it. *)
Definition fast_frac (src : bytes) (i : nat) : nat + nat :=
  if at_byte src i "."%ch then
    let i := S i in
    if at_digit src i then
      if (i + 8 <=? length src)%nat && at_digit src (i + 7) then inl (scanDigitsLong src i)
      else inl (skip_digits src (S i))
    else inr i
  else inl i.

Definition fast_exp (src : bytes) (i : nat) : nat + nat :=
  if at_byte src i "e"%ch || at_byte src i "E"%ch then
    let i := S i in
    let i := if at_byte src i "+"%ch || at_byte src i "-"%ch then S i else i in
    if at_digit src i then inl (skip_digits src (S i)) else inr i
  else inl i.

(** The sign and the first digit; both bytes are read without a bounds check. *)
Definition fast_sign (src : bytes) (i : nat) : res unit (nat + nat) :=
  let* c := fastByteAt src i in
  if c =? "-"%ch then if (length src <=? S i)%nat then Ok (inr (S i)) else Ok (inl (S i))
  else Ok (inl i).

Definition fast_int (digit_loop : nat -> nat) (src : bytes) (i : nat) : res unit (nat + nat) :=
  let* c := fastByteAt src i in
  if c =? "0"%ch then Ok (inl (S i))
  else if isOneNine c then Ok (inl (digit_loop (S i)))
  else Ok (inr i).

(** End, integer flag, ok. *)
Definition fast_number (digit_loop : nat -> nat) (src : bytes) (i : nat) : res unit (nat * bool * bool) :=
  let* s := fast_sign src i in
  match s with
  | inr i => Ok (i, false, false)
  | inl i =>
      let* n := fast_int digit_loop src i in
      match n with
      | inr i => Ok (i, false, false)
      | inl i =>
          match fast_frac src i with
          | inr i => Ok (i, false, false)
          | inl i' =>
              match fast_exp src i' with
              | inr i => Ok (i, false, false)
              | inl j => Ok (j, negb (at_byte src i "."%ch) &&
                             negb (at_byte src i' "e"%ch || at_byte src i' "E"%ch), true)
              end
          end
      end
  end.

Definition scanNumberFastTagged (src : bytes) (i : nat) : res unit (nat * bool * bool) :=
  fast_number (skip_digits src) src i.

(** The variant that tries one eight-digit word before the byte loop. *)
Definition swar_digits (src : bytes) (i : nat) : nat :=
  let i := if (i + 8 <=? length src)%nat && (nonDigitMask8 (loadUint64LE src i) =? 0) then (i + 8)%nat else i in
  skip_digits src i.
Definition scanNumberFastTaggedSWAR (src : bytes) (i : nat) : res unit (nat * bool * bool) :=
  fast_number (swar_digits src) src i.

Definition scanNumberFast (src : bytes) (i : nat) : res unit (nat * bool) :=
  let* (end_, _, ok) := scanNumberFastTagged src i in Ok (end_, ok).

(** ** Strings *)

(** [scanUnicodeEscapeRun] on the portable lane. *)
Definition scanUnicodeEscapeRun (src : bytes) (i : nat) : nat * bool := (i, true).

(** A surrogate or scalar escape whose ['u'] is at [i + 1]: the position after it. *)
Definition fast_unicode (src : bytes) (u : Z) (i : nat) : nat + nat :=
  if (0xD800 <=? u) && (u <=? 0xDBFF) then
    if (length src <? i + 6)%nat || negb (at_byte src i BSLASH) || negb (at_byte src (i + 1) "u"%ch) then inr i
    else
      let (lo, ok) := hex4 src (i + 2) in
      if negb ok || (lo <? 0xDC00) || (0xDFFF <? lo) then inr i
      else inl (i + 6)%nat
  else if (0xDC00 <=? u) && (u <=? 0xDFFF) then inr i
  else inl i.

(** [for i+6 <= len(src) && src[i] == '\\' && src[i+1] == 'u'] *)
Fixpoint unicode_escapes (fuel : nat) (src : bytes) (i : nat) (escaped : bool) : (nat * bool) + (nat * bool) :=
  match fuel with
  | O => inl (i, escaped)
  | S fuel =>
      if (i + 6 <=? length src)%nat && at_byte src i BSLASH && at_byte src (i + 1) "u"%ch then
        let (u, ok) := hex4 src (i + 2) in
        if negb ok then inr (i, true)
        else
          match fast_unicode src u (i + 6) with
          | inr i => inr (i, true)
          | inl i => unicode_escapes fuel src i true
          end
      else inl (i, escaped)
  end.

Fixpoint scanJSONStringFastFrom_loop (fuel : nat) (src : bytes) (i : nat) (escaped : bool) :
    res unit (nat * bool * bool) :=
  match fuel with
  | O => NoFuel
  | S fuel =>
      (* scanUnicodeEscapeRun leaves i where it is on this lane *)
      match unicode_escapes (length src) src (scanUnicodeEscapeRun src i).1 escaped with
      | inr (i, escaped) => Ok (i, escaped, false)
      | inl (i, escaped) =>
          let j := if at_byte src i BSLASH then i else scanStringSpecial src i in
          if (length src <=? j)%nat then Ok (length src, escaped, false)
          else
            let* c := fastByteAt src j in
            if c =? DQUOTE then Ok (S j, escaped, true)
            else if c =? BSLASH then
              let j := S j in
              if (length src <=? j)%nat then Ok (j, true, false)
              else
                let* e := fastByteAt src j in
                if (e =? DQUOTE) || (e =? BSLASH) || (e =? "/"%ch) || (e =? "b"%ch) || (e =? "f"%ch)
                   || (e =? "n"%ch) || (e =? "r"%ch) || (e =? "t"%ch)
                then scanJSONStringFastFrom_loop fuel src (S j) true
                else if e =? "u"%ch then
                  let (u, ok) := hex4 src (S j) in
                  if negb ok then Ok (j, true, false)
                  else
                    match fast_unicode src u (j + 5) with
                    | inr i => Ok (i, true, false)
                    | inl i => scanJSONStringFastFrom_loop fuel src i true
                    end
                else Ok (j, true, false)
            else if c <? 0x20 then Ok (j, escaped, false)
            else
              match scanStringUnicodeRun src j with
              | (_, Some bad) => Ok (bad, escaped, false)
              | (next, None) => scanJSONStringFastFrom_loop fuel src next escaped
              end
      end
  end.

Definition scanJSONStringFastFrom (src : bytes) (i : nat) : res unit (nat * bool * bool) :=
  scanJSONStringFastFrom_loop (S (length src)) src i false.

Definition scanJSONStringFastLong (src : bytes) (i : nat) : res unit (nat * bool * bool) :=
  scanJSONStringFastFrom src (S i).

(** [scanShortJSONString]: at most eight bytes, no exceptional byte. *)
Fixpoint short_loop (fuel : nat) (src : bytes) (i limit : nat) : res unit (nat * bool) :=
  match fuel with
  | O => Ok (0%nat, false)
  | S fuel =>
      if (i <? limit)%nat then
        let* c := fastByteAt src i in
        if c =? DQUOTE then Ok (S i, true)
        else if (c =? BSLASH) || (c <? 0x20) || (0x80 <=? c) then Ok (0%nat, false)
        else short_loop fuel src (S i) limit
      else Ok (0%nat, false)
  end.
Definition scanShortJSONString (src : bytes) (quote : nat) : res unit (nat * bool) :=
  let limit := (quote + 9)%nat in
  let limit := if (length src <? limit)%nat then length src else limit in
  short_loop 9 src (S quote) limit.

Definition scanJSONStringFast (src : bytes) (i : nat) (short : bool) : res unit (nat * bool * bool) :=
  if short then
    let* (end_, ok) := scanShortJSONString src i in
    if ok then Ok (end_, false, true) else scanJSONStringFastLong src i
  else scanJSONStringFastLong src i.

(** One probe of [validStringFast]: the position the word flags, if any. *)
Definition probe (src : bytes) (start : nat) : option nat :=
  let m := stringSpecialMask (loadUint64LE src start) in
  if negb (m =? 0) then Some (start + Z.to_nat (TrailingZeros64 m / 8))%nat else None.

Definition validStringFast (src : bytes) (i : nat) : res unit (nat * bool) :=
  let n := length src in
  let start := S i in
  let long := let* (end_, _, ok) := scanJSONStringFastLong src i in Ok (end_, ok) in
  let tail start :=
    let end_ := scanStringSpecial src start in
    if at_byte src end_ DQUOTE then Ok (S end_, true)
    else let* (end_, _, ok) := scanJSONStringFastFrom src end_ in Ok (end_, ok) in
  if (start + 8 <=? n)%nat then
    match probe src start with
    | Some j =>
        let* c := fastByteAt src j in
        if c =? DQUOTE then Ok (S j, true) else long
    | None =>
        let start := (start + 8)%nat in
        if (start + 8 <=? n)%nat then
          match probe src start with
          | Some j =>
              let* c := fastByteAt src j in
              if c =? DQUOTE then Ok (S j, true) else tail start
          | None => tail (start + 8)%nat
          end
        else tail start
    end
  else long.

(** ** Whitespace and values *)

Definition space_loop_test (c : Z) : bool :=
  negb ((32 <? c) || (negb (c =? 32) && negb (c =? 10) && negb (c =? 13) && negb (c =? 9))).

Definition nextSignificantFast (src : bytes) (i : nat) : nat * Z :=
  let i := advance space_loop_test src i in
  (i, match src !! i with Some c => c | None => 0 end).

Definition skipSpaceFast (src : bytes) (i : nat) : nat := advance space_loop_test src i.

Section Values.
Context (src : bytes).
Abbreviation n := (length src).

Section Body.
Context (vv : nat -> Z -> Z -> res unit (nat * bool)).

Fixpoint fast_object (fuel : nat) (i : nat) (c : Z) (depth : Z) : res unit (nat * bool) :=
  match fuel with
  | O => NoFuel
  | S fuel =>
    if negb (c =? DQUOTE) then Ok (i, false)
    else
    let* (i, ok) := validStringFast src i in
    if negb ok then Ok (i, false)
    else
    let (i, c) := nextSignificantFast src i in
    if (n <=? i)%nat || negb (c =? ":"%ch) then Ok (i, false)
    else
    let (i, c) := nextSignificantFast src (S i) in
    if (n <=? i)%nat then Ok (i, false)
    else
    let* (i, ok) := vv i c (depth + 1) in
    if negb ok then Ok (i, false)
    else
    let (i, c) := nextSignificantFast src i in
    if (n <=? i)%nat then Ok (i, false)
    else if c =? ","%ch then
    let (i, c) := nextSignificantFast src (S i) in
    if (n <=? i)%nat then Ok (i, false) else fast_object fuel i c depth
    else if c =? "}"%ch then Ok (S i, true)
    else Ok (i, false)
  end.

Fixpoint fast_array (fuel : nat) (i : nat) (c : Z) (depth : Z) : res unit (nat * bool) :=
  match fuel with
  | O => NoFuel
  | S fuel =>
    let* (i, ok) := vv i c (depth + 1) in
    if negb ok then Ok (i, false)
    else
    let (i, c) := nextSignificantFast src i in
    if (n <=? i)%nat then Ok (i, false)
    else if c =? ","%ch then
    let (i, c) := nextSignificantFast src (S i) in
    if (n <=? i)%nat then Ok (i, false) else fast_array fuel i c depth
    else if c =? "]"%ch then Ok (S i, true)
    else Ok (i, false)
  end.

Definition validValueFast_body (i : nat) (c : Z) (depth : Z) : res unit (nat * bool) :=
  if c =? "{"%ch then
  if DefaultMaxDepth <=? depth then Ok (i, false)
  else
  let (i, c) := nextSignificantFast src (S i) in
  if (n <=? i)%nat then Ok (i, false)
  else if c =? "}"%ch then Ok (S i, true)
  else fast_object (S n) i c depth
  else if c =? "["%ch then
  if DefaultMaxDepth <=? depth then Ok (i, false)
  else
  let (i, c) := nextSignificantFast src (S i) in
  if (n <=? i)%nat then Ok (i, false)
  else if c =? "]"%ch then Ok (S i, true)
  else fast_array (S n) i c depth
  else if c =? DQUOTE then validStringFast src i
  else if c =? "t"%ch then
  if (n <? i + 4)%nat || negb (loadUint32LE src i =? wordTrueLE) then Ok (i, false) else Ok ((i + 4)%nat, true)
  else if c =? "f"%ch then
  if (n <? i + 5)%nat || negb (loadUint32LE src (i + 1) =? wordAlseLE) then Ok (i, false) else Ok ((i + 5)%nat, true)
  else if c =? "n"%ch then
  if (n <? i + 4)%nat || negb (loadUint32LE src i =? wordNullLE) then Ok (i, false) else Ok ((i + 4)%nat, true)
  else if negb (c =? "-"%ch) && negb (IsDigit c) then Ok (i, false)
  else scanNumberFast src i.
End Body.

Fixpoint validValueFast (fuel : nat) (i : nat) (c : Z) (depth : Z) : res unit (nat * bool) :=
  match fuel with
  | O => NoFuel
  | S fuel => validValueFast_body (validValueFast fuel) i c depth
  end.

Definition validFast : res unit bool :=
  let (i, c) := nextSignificantFast src 0 in
  if (n <=? i)%nat then Ok false
  else
  let* (i, ok) := validValueFast (S n) i c 0 in
  if negb ok then Ok false else Ok ((skipSpaceFast src i =? n)%nat).
End Values.

(** [Valid]: the portable lane has no bitmap engine. *)
Definition Valid (src : bytes) : res unit bool := validFast src.

(** ** Digit runs *)

Definition not_digit (c : Z) : bool := negb (IsDigit c).

Lemma nonDigit_first l :
  bytes_ok l -> length l = 8%nat -> first_flag not_digit l (nonDigitMask8 (le_word l)).
Proof.
  intros Hl Hlen. unfold nonDigitMask8. change digitHigh with high_bits.
  destruct (only_high_land (Z.lor (w64 (le_word l + digitUpper)) (w64 (le_word l - digitLower)))).
  split; [done|done|]. intros k v Hv Hlow.
  pose proof (lane_lt _ _ _ Hlen Hv). pose proof (lane_byte _ _ _ Hl Hv).
  assert (Hd : forall j w, (j < k)%nat -> l !! j = Some w -> 48 <= w <= 57).
  { intros j w Hj Hw. specialize (Hlow j w Hj Hw). unfold not_digit, IsDigit in Hlow. lia. }
  rewrite Z.land_spec, Z.lor_spec, high_bits_lane, andb_true_r by lia.
  change digitUpper with (le_word (replicate 8 0x46)).
  change (le_word l - digitLower) with (le_word l + le_word (replicate 8 (-0x30))).
  rewrite !(lane_shift_testbit l Hlen _ k v Hv) by
    (intros j w Hj Hw; specialize (Hd j w Hj Hw); unfold is_byte; lia).
  by_bytes (fun v => Bool.eqb (Z.testbit (v + 0x46) 7 || Z.testbit (v + -0x30) 7) (not_digit v)).
  by apply eqb_prop.
Qed.

Lemma slice_len {A} (l : list A) i j : (i <= j <= length l)%nat -> length (slice l i j) = (j - i)%nat.
Proof. intros. unfold slice. rewrite length_take, length_drop. lia. Qed.

(** A word that flags nothing passes the scan; one that flags stops it there. *)
Section WordScan.
Context (p : Z -> bool) (mask : Z -> Z) (src : bytes) (i : nat).
Hypothesis Hmask : forall l, bytes_ok l -> length l = 8%nat -> first_flag p l (mask (le_word l)).
Hypothesis Hsrc : bytes_ok src.
Hypothesis Hi : (i + 8 <= length src)%nat.

Lemma word_flag : first_flag p (slice src i (i + 8)) (mask (load64 src i)).
Proof using Hmask Hsrc Hi. apply Hmask; [by apply slice_bytes|rewrite slice_len; lia]. Qed.

Lemma word_clear :
  mask (load64 src i) = 0 ->
  Forall (fun c => negb (p c) = true) (slice src i (i + 8)) /\
  advance (fun c => negb (p c)) src i = advance (fun c => negb (p c)) src (i + 8).
Proof using Hmask Hsrc Hi.
  intros H. pose proof (first_flag_zero _ _ _ word_flag H) as Hf.
  assert (Hf' : Forall (fun c => negb (p c) = true) (slice src i (i + 8))).
  { eapply Forall_impl; [exact Hf|]. simpl. by intros c ->. }
  split; [done|]. eapply advance_skip; [|exact Hf']. apply slice_span. lia.
Qed.

Lemma word_stop :
  mask (load64 src i) <> 0 ->
  (i + Z.to_nat (TrailingZeros64 (mask (load64 src i)) / 8))%nat = advance (fun c => negb (p c)) src i /\
  (advance (fun c => negb (p c)) src i < i + 8)%nat.
Proof using Hmask Hsrc Hi.
  intros H. destruct (first_flag_index p (slice src i (i + 8)) _ ltac:(rewrite slice_len; lia) word_flag H) as [-> Hlt].
  rewrite advance_spec, Nat2Z.id.
  assert (E : take_while (fun c => negb (p c)) (drop i src)
  = take_while (fun c => negb (p c)) (slice src i (i + 8))); [|rewrite E; lia].
  rewrite (drop_slice src i (i + 8)) by lia.
  destruct (take_while_split (fun c => negb (p c)) (slice src i (i + 8))) as (t & Ht & Hst).
  rewrite Ht at 1. rewrite <- app_assoc. apply take_while_app; [apply take_while_all|].
  destruct t; [|done]. rewrite app_nil_r in Ht. rewrite <- Ht, slice_len in Hlt; lia.
Qed.
End WordScan.

Lemma not_not_digit src i : advance (fun c => negb (not_digit c)) src i = skip_digits src i.
Proof.
  unfold skip_digits. rewrite !advance_spec. do 2 f_equal. unfold not_digit.
  induction (drop i src) as [|c l IH]; simpl; [done|]. rewrite negb_involutive. by destruct (IsDigit c); rewrite ?IH.
Qed.

Lemma scanDigitsLong_spec src i :
  bytes_ok src -> (i <= length src)%nat -> scanDigitsLong src i = skip_digits src i.
Proof.
  intros Hok. unfold scanDigitsLong. assert (Hf : (length src - i < S (length src))%nat) by lia.
  revert Hf. generalize (S (length src)) as fuel. intros fuel. revert i.
  induction fuel as [|fuel IH]; intros i Hf Hi; [lia|]. cbn [scanDigitsLong_loop].
  destruct (Nat.leb_spec (i + 8) (length src)); [|done]. cbv zeta. unfold loadUint64LE.
  destruct (Z.eqb_spec (nonDigitMask8 (load64 src i)) 0) as [E|E]; simpl negb; cbv iota.
  - rewrite IH by lia. rewrite <- !not_not_digit. symmetry.
    by apply (word_clear _ nonDigitMask8 src i nonDigit_first).
  - rewrite <- not_not_digit. by apply (word_stop _ nonDigitMask8 src i nonDigit_first).
Qed.

Lemma swar_digits_spec src i :
  bytes_ok src -> (i <= length src)%nat -> swar_digits src i = skip_digits src i.
Proof.
  intros Hok Hi. unfold swar_digits. destruct (Nat.leb_spec (i + 8) (length src)); [|done].
  cbn [andb]. unfold loadUint64LE. destruct (Z.eqb_spec (nonDigitMask8 (load64 src i)) 0) as [E|E]; [|done].
  rewrite <- !not_not_digit. symmetry. by apply (word_clear _ nonDigitMask8 src i nonDigit_first).
Qed.

(** ** The two number scanners *)

Lemma skip_digits_S src i : at_digit src i = true -> skip_digits src (S i) = skip_digits src i.
Proof.
  intros (c & Hc & Hd)%at_digit_spec. unfold skip_digits. symmetry. rewrite advance_unfold at 1.
  by rewrite Hc, Hd.
Qed.

Lemma fast_frac_spec src i : bytes_ok src -> fast_frac src i = scan_frac src i.
Proof.
  intros Hok. unfold fast_frac, scan_frac. destruct (at_byte src i "."%ch) eqn:E; [|done]. cbv zeta.
  apply at_byte_lt in E. destruct (at_digit src (S i)) eqn:Hd; [|done].
  destruct (_ && _); f_equal; [by apply scanDigitsLong_spec|by apply skip_digits_S].
Qed.

Lemma fast_exp_spec src i : fast_exp src i = scan_exp src i.
Proof.
  unfold fast_exp, scan_exp. destruct (_ || _); [|done]. cbv zeta.
  destruct (at_digit src (if _ : bool then _ else _)) eqn:Hd; [|done]. by rewrite skip_digits_S.
Qed.

(** The plain-integer classification: no fraction and no exponent. *)
Definition plain_integer (s : bytes) : bool := forallb (fun c => IsDigit c || (c =? "-"%ch)) s.

Lemma plain_integer_app s t : plain_integer (s ++ t) = plain_integer s && plain_integer t.
Proof. apply forallb_app. Qed.

Lemma plain_digits s : digits s -> plain_integer s = true.
Proof. unfold plain_integer. induction 1 as [|c s Hc _ IH]; [done|]. simpl. by rewrite Hc, IH. Qed.

Lemma plain_int s : jint s -> plain_integer s = true.
Proof.
  destruct 1 as [|c s Hc Hs]; [done|]. apply (plain_digits (c :: s)). constructor; [|done].
  unfold IsDigit, isOneNine in *. lia.
Qed.

Lemma plain_sign s : s = [] \/ s = ["-"%ch] -> plain_integer s = true.
Proof. by intros [->| ->]. Qed.

Lemma plain_frac src i s j : jfrac s -> span src i s j -> scan_frac src i = inl j ->
  plain_integer s = negb (at_byte src i "."%ch).
Proof.
  intros Hs Hsp Hscan. destruct Hs as [|s Hd Hne].
  - apply span_nil_inv in Hsp as [-> _]. unfold scan_frac in Hscan.
    destruct (at_byte src i "."%ch); [|done]. destruct (at_digit src (S i)) eqn:E; [|done].
    destruct (skip_digits_span _ _ E) as (u & Hu & _). apply span_le in Hu. simplify_eq. lia.
  - apply span_cons in Hsp as [Hc _]. by rewrite (proj2 (at_byte_spec _ _ _) Hc).
Qed.

Lemma plain_exp src i s j : jexp s -> span src i s j -> scan_exp src i = inl j ->
  plain_integer s = negb (at_byte src i "e"%ch || at_byte src i "E"%ch).
Proof.
  intros Hs Hsp Hscan. destruct Hs as [|e sg s He _ _ _].
  - apply span_nil_inv in Hsp as [-> _]. unfold scan_exp in Hscan.
    destruct (_ || _); [|done]. cbv zeta in Hscan.
    set (k := if _ : bool then S (S i) else S i) in *.
    assert (S i <= k)%nat by (subst k; case_step; lia).
    destruct (at_digit src k) eqn:E; [|done].
    destruct (skip_digits_span _ _ E) as (u & Hu & _). apply span_le in Hu. simplify_eq. lia.
  - apply span_cons in Hsp as [Hc _]. unfold at_byte. rewrite Hc. by destruct He as [->| ->].
Qed.

(** The digit loop matters only inside the source. *)
Lemma fast_number_ext loop1 loop2 src i :
  (forall j, (j <= length src)%nat -> loop1 j = loop2 j) ->
  fast_number loop1 src i = fast_number loop2 src i.
Proof.
  intros H. unfold fast_number. destruct (fast_sign src i) as [[i1|i1]| | |]; cbn [res_bind]; [|done..].
  assert (Heq : fast_int loop1 src i1 = fast_int loop2 src i1); [|by rewrite Heq].
  unfold fast_int, fastByteAt. at_pos src i1 as c E; [|done]. apply lookup_lt_Some in E.
  cbn [res_bind]. by rewrite H by lia.
Qed.

Lemma fast_number_spec digit_loop src i :
  bytes_ok src -> (i < length src)%nat ->
  (forall j, (j <= length src)%nat -> digit_loop j = skip_digits src j) ->
  exists integer, fast_number digit_loop src i =
    Ok ((scanNumber src i).1, integer, msg_ok (scanNumber src i).2) /\
    (msg_ok (scanNumber src i).2 = true ->
     integer = plain_integer (slice src i (scanNumber src i).1)).
Proof.
  intros Hok Hi Hloop. unfold fast_number, scanNumber, fast_sign, fast_int, fastByteAt.
  destruct (scan_sign src i) as [i1|i1] eqn:E1.
  2:{ unfold scan_sign in E1. at_pos src i as c E; [|apply lookup_ge_None in E; lia]. simpl.
      repeat case_step_in E1; simplify_eq. by eexists. }
  assert (Hs : (let* c := match src !! i with Some c => Ok c | None => Panic end in
                if c =? "-"%ch then if (length src <=? S i)%nat then Ok (inr (S i)) else Ok (inl (S i))
                else Ok (inl i)) = (Ok (inl i1) : res unit (nat + nat))).
  { unfold scan_sign in E1. destruct (src !! i); [|done]. simpl.
    repeat case_step_in E1; simplify_eq; done. }
  rewrite Hs. clear Hs. cbn [res_bind].
  assert (Hb : (i1 < length src)%nat).
  { unfold scan_sign in E1. at_pos src i as c E; [|done]. repeat case_step_in E1; simplify_eq; lia. }
  destruct (src !! i1) as [c|] eqn:Ec; [|apply lookup_ge_None in Ec; lia]. cbn [res_bind].
  apply scan_sign_sound in E1 as (s1 & Hs1 & Hsg).
  assert (Hint : (if c =? "0"%ch then Ok (inl (S i1)) else if isOneNine c
                  then Ok (inl (digit_loop (S i1))) else Ok (inr i1)) =
                 (Ok (scan_int src i1) : res unit (nat + nat))).
  { unfold scan_int. rewrite Ec. repeat case_step; try done. by rewrite Hloop. }
  rewrite Hint. clear Hint. cbn [res_bind].
  destruct (scan_int src i1) as [i2|i2] eqn:E2; [|by eexists].
  apply scan_int_sound in E2 as (s2 & Hs2 & Hj2). apply span_le in Hs2 as L2.
  rewrite fast_frac_spec by done. destruct (scan_frac src i2) as [i3|i3] eqn:E3; [|by eexists].
  rewrite fast_exp_spec. destruct (scan_exp src i3) as [i4|i4] eqn:E4; [|by eexists].
  eexists. split; [done|]. intros _. cbn [fst].
  pose proof E3 as E3'. pose proof E4 as E4'.
  apply scan_frac_sound in E3 as (s3 & Hs3 & Hj3); [|lia]. apply span_le in Hs3 as L3.
  apply scan_exp_sound in E4 as (s4 & Hs4 & Hj4); [|lia].
  assert (Hsp : span src i (s1 ++ s2 ++ s3 ++ s4) i4) by eauto with vj.
  rewrite (span_slice _ _ _ _ Hsp), !plain_integer_app, (plain_sign _ Hsg), (plain_int _ Hj2).
  by rewrite (plain_frac _ _ _ _ Hj3 Hs3 E3'), (plain_exp _ _ _ _ Hj4 Hs4 E4').
Qed.

(** ** Strings *)

Definition has_bs (s : bytes) : bool := existsb (fun c => c =? BSLASH) s.

Lemma has_bs_app s t : has_bs (s ++ t) = has_bs s || has_bs t.
Proof. apply existsb_app. Qed.

Lemma has_bs_slice src i j k :
  (i <= j <= k)%nat -> (k <= length src)%nat ->
  has_bs (slice src i k) = has_bs (slice src i j) || has_bs (slice src j k).
Proof. intros. by rewrite (slice_app _ i j k), has_bs_app by lia. Qed.

Lemma has_bs_head src i j : src !! i = Some BSLASH -> (i < j)%nat -> has_bs (slice src i j) = true.
Proof. intros Hi Hj. by rewrite (slice_cons _ _ _ _ Hj Hi). Qed.

Lemma has_bs_plain s : Forall (fun c => is_string_syntax c = false) s -> has_bs s = false.
Proof.
  induction 1 as [|c s Hc _ IH]; [done|]. simpl. rewrite IH. unfold is_string_syntax in Hc. lia.
Qed.

Lemma fast_unicode_ref src i :
  src !! i = Some "u"%ch ->
  let (u, ok) := hex4 src (S i) in
  if ok then
    match fast_unicode src u (i + 5) with
    | inl k => exists n d, esc_ref (drop i src) = EscOk n d /\ k = (i + n)%nat
    | inr _ => exists m, esc_ref (drop i src) = EscErr m
    end
  else exists m, esc_ref (drop i src) = EscErr m.
Proof.
  intros Hi. rewrite (u_escape_ref src i Hi). unfold u_escape.
  destruct (hex4 src (S i)) as [u [|]]; [|by eexists]. cbn [negb]. unfold fast_unicode.
  fold (is_high_surrogate u). fold (is_low_surrogate u).
  replace (i + 5 + 6)%nat with (i + 11)%nat by lia. replace (i + 5 + 1)%nat with (i + 6)%nat by lia.
  replace (i + 5 + 2)%nat with (i + 7)%nat by lia.
  destruct (is_high_surrogate u).
  2:{ destruct (is_low_surrogate u); [by eexists|]. by eexists _, _. }
  destruct (_ || _ || _); [by eexists|]. destruct (hex4 src (i + 7)) as [v [|]]; [|by eexists].
  cbn [negb orb]. replace ((v <? 0xDC00) || (0xDFFF <? v)) with (negb (is_low_surrogate v))
    by (unfold is_low_surrogate; lia).
  destruct (is_low_surrogate v); cbn [negb]; [|by eexists]. eexists _, _. split; [done|lia].
Qed.

Section FastStrings.
Context (src : bytes).
Hypothesis Hsrc : bytes_ok src.

Lemma unicode_escapes_spec fuel i escaped out :
  (i <= length src)%nat ->
  match unicode_escapes fuel src i escaped with
  | inl (k, e) => (i <= k <= length src)%nat /\ e = escaped || has_bs (slice src i k) /\
    exists out', str_at src i out = str_at src k out'
  | inr _ => exists r, str_at src i out = Err r
  end.
Proof using.
  revert i escaped out. induction fuel as [|fuel IH]; intros i escaped out Hi; cbn [unicode_escapes].
  { rewrite slice_refl, orb_false_r. eauto. }
  destruct (_ && _) eqn:E.
  2:{ rewrite slice_refl, orb_false_r. eauto. }
  apply andb_true_iff in E as [[Hlen Hb%at_byte_spec]%andb_true_iff Hu%at_byte_spec].
  replace (i + 1)%nat with (S i) in Hu by lia.
  pose proof (fast_unicode_ref src (S i) Hu) as H.
  replace (S (S i)) with (i + 2)%nat in H by lia. replace (S i + 5)%nat with (i + 6)%nat in H by lia.
  rewrite (str_at_escape src i out Hb) by lia.
  destruct (hex4 src (i + 2)) as [u [|]]; cbn [negb].
  2:{ destruct H as (m & ->). eauto. }
  destruct (fast_unicode src u (i + 6)) as [k|k].
  2:{ destruct H as (m & ->). eauto. }
  destruct H as (n & d & He & ->). rewrite He. apply esc_ok_bound in He; [|lia].
  specialize (IH (S i + n)%nat true (out ++ d) ltac:(lia)).
  destruct (unicode_escapes fuel src (S i + n) true) as [[k e]|]; [|done].
  destruct IH as (H1 & -> & H2). split; [lia|]. split; [|done].
  rewrite (has_bs_head src i k Hb) by lia. by rewrite orb_true_r.
Qed.

Definition fast_result (escaped : bool) (i : nat) (r : res unit (nat * bool * bool))
  (rr : res rerr (nat * bytes)) : Prop :=
  match rr with
  | Ok (j, _) => r = Ok (j, escaped || has_bs (slice src i j), true) /\ (i < j <= length src)%nat
  | Err _ => exists e b, r = Ok (e, b, false)
  | _ => False
  end.

Lemma fast_result_shift escaped i k r out out' :
  (i <= k <= length src)%nat -> str_at src i out = str_at src k out' ->
  fast_result (escaped || has_bs (slice src i k)) k r (str_at src k out') ->
  fast_result escaped i r (str_at src i out).
Proof using.
  intros Hk Heq H. rewrite Heq. unfold fast_result in *.
  destruct (str_at src k out') as [[j d]| | |]; [|done..]. destruct H as [-> H]. split; [|lia].
  rewrite (has_bs_slice src i k j) by lia. by rewrite orb_assoc.
Qed.

(** Where the scan for the next special byte lands, and what it passed. *)
Lemma special_scan i out :
  (i <= length src)%nat ->
  let j := if at_byte src i BSLASH then i else scanStringSpecial src i in
  (i <= j <= length src)%nat /\ has_bs (slice src i j) = false /\
  (exists out', str_at src i out = str_at src j out') /\
  match src !! j with Some c => is_string_special c = true | None => True end.
Proof using Hsrc.
  intros Hi. destruct (at_byte src i BSLASH) eqn:E; cbv zeta.
  { apply at_byte_spec in E. rewrite slice_refl, E. split_and!; [lia|lia|done|eauto|done]. }
  rewrite scanStringSpecial_spec by done. pose proof (advance_le (fun c => negb (is_string_special c)) src i Hi).
  destruct (advance_span (fun c => negb (is_string_special c)) src i Hi) as (s & Hs & Hf & Hst).
  split; [done|]. rewrite (span_slice _ _ _ _ Hs). split_and!.
  - apply has_bs_plain. eapply Forall_impl; [exact Hf|]. intros c. unfold is_string_syntax, is_string_special. lia.
  - eexists. rewrite (str_at_special src Hsrc i out Hi), scanStringSpecial_spec by done. done.
  - rewrite stops_lookup in Hst. destruct (src !! _); [|done]. by apply negb_false_iff.
Qed.

Lemma fast_loop_spec fuel i escaped out :
  (i <= length src)%nat -> (length src - i < fuel)%nat ->
  fast_result escaped i (scanJSONStringFastFrom_loop fuel src i escaped) (str_at src i out).
Proof using Hsrc.
  revert i escaped out. induction fuel as [|fuel IH]; intros i escaped out Hi Hf; [lia|].
  cbn [scanJSONStringFastFrom_loop scanUnicodeEscapeRun fst].
  pose proof (unicode_escapes_spec (length src) i escaped out Hi) as Hu.
  destruct (unicode_escapes (length src) src i escaped) as [[k e]|[k e]].
  2:{ destruct Hu as [r ->]. simpl. eauto. }
  destruct Hu as (Hk & -> & out1 & Hout1). apply (fast_result_shift _ _ k _ _ out1 Hk Hout1).
  generalize (escaped || has_bs (slice src i k)). clear escaped. intros escaped.
  destruct (special_scan k out1) as (Hj & Hbs & (out2 & Hout2) & Hsp); [lia|].
  set (j := if _ : bool then k else scanStringSpecial src k) in *.
  apply (fast_result_shift _ k j _ _ out2 ltac:(lia) Hout2). rewrite Hbs, orb_false_r.
  destruct (Nat.leb_spec (length src) j).
  { rewrite str_at_end by done. simpl. eauto. }
  unfold fastByteAt. at_pos src j as c E; [|apply lookup_ge_None in E; lia]. cbn [res_bind].
  destruct (Z.eqb_spec c DQUOTE) as [->|Hq].
  { rewrite str_at_quote by done. split; [|lia]. rewrite (slice_cons _ _ _ _ (Nat.lt_succ_diag_r j) E).
  by rewrite slice_refl, orb_false_r. }
  destruct (Z.eqb_spec c BSLASH) as [->|Hb].
  - cbv zeta. destruct (Nat.leb_spec (length src) (S j)).
    { rewrite str_at_escape_end by done. simpl. eauto. }
    destruct (src !! S j) as [x|] eqn:Ex; [|apply lookup_ge_None in Ex; lia]. cbn [res_bind].
    rewrite (str_at_escape src j _ E) by lia. rewrite is_simple_escape_switch.
    assert (Hstep : forall n d k', esc_ref (drop (S j) src) = EscOk n d -> k' = (S j + n)%nat ->
      fast_result escaped j (scanJSONStringFastFrom_loop fuel src k' true) (str_at src (S j + n) (out2 ++ d))).
    { intros n d k' He ->. apply esc_ok_bound in He; [|lia].
    specialize (IH (S j + n)%nat true (out2 ++ d) ltac:(lia) ltac:(lia)).
    unfold fast_result in *. destruct (str_at src (S j + n) (out2 ++ d)) as [[m y]| | |]; [|done..].
    destruct IH as [-> Hm]. split; [|lia]. rewrite (has_bs_head src j m E) by lia.
    by rewrite !orb_true_r. }
    destruct (is_simple_escape x) eqn:Hs.
    { assert (He : esc_ref (drop (S j) src) = EscOk 1 [simple_escape_value x])
      by (rewrite (lookup_Some_drop _ _ _ Ex); simpl; by rewrite Hs).
    pose proof (Hstep _ _ (S (S j)) He ltac:(lia)) as Hst. by rewrite He. }
    destruct (Z.eqb_spec x "u"%ch) as [->|Hxu].
    + pose proof (fast_unicode_ref src (S j) Ex) as Hu. destruct (hex4 src (S (S j))) as [u [|]]; cbn [negb].
      2:{ destruct Hu as (m & ->). simpl. eauto. }
      destruct (fast_unicode src u (S j + 5)) as [k'|k'].
      2:{ destruct Hu as (m & ->). simpl. eauto. }
      destruct Hu as (n & d & He & Hk'). pose proof (Hstep _ _ _ He Hk'). by rewrite He.
    + assert (He : esc_ref (drop (S j) src) = EscErr "invalid escape sequence").
      { rewrite (lookup_Some_drop _ _ _ Ex). cbn [esc_ref]. rewrite Hs. by rewrite if_false by lia. }
      rewrite He. simpl. eauto.
  - destruct (Z.ltb_spec c 0x20).
    { rewrite (str_at_control _ _ _ _ E) by done. simpl. eauto. }
    assert (128 <= c) by (unfold is_string_special in Hsp; lia).
    pose proof (str_at_unicode src Hsrc j c out2 E ltac:(done)) as Hu.
    pose proof (scanStringUnicodeRun_spec src j c Hsrc E ltac:(done)) as Hplain.
    destruct (scanStringUnicodeRun src j) as [next [bad|]]; destruct Hu as [Hu Hu'].
    { rewrite Hu'. simpl. eauto. }
    destruct Hplain as (_ & _ & Hplain).
    apply (fast_result_shift _ j next _ _ _ ltac:(lia) Hu'). rewrite (has_bs_plain _ Hplain), orb_false_r.
    apply IH; lia.
Qed.
End FastStrings.

(** ** Whole strings *)

Definition fast_follows {A} (r : res unit (nat * bool)) (rr : res rerr (nat * A)) : Prop :=
  match rr with
  | Ok (j, _) => r = Ok (j, true)
  | Err _ => exists e, r = Ok (e, false)
  | _ => False
  end.

Section WholeStrings.
Context (src : bytes).
Hypothesis Hsrc : bytes_ok src.

Lemma fast_from_follows i out :
  (i <= length src)%nat ->
  fast_follows (let* (end_, _, ok) := scanJSONStringFastFrom src i in Ok (end_, ok)) (str_at src i out).
Proof using Hsrc.
  intros Hi. pose proof (fast_loop_spec src Hsrc (S (length src)) i false out Hi ltac:(lia)) as H.
  unfold scanJSONStringFastFrom. destruct (str_at src i out) as [[j d]|e| |]; [|  |done|done].
  - destruct H as [-> _]. done.
  - destruct H as (e' & b & ->). by exists e'.
Qed.

Lemma scan_quote i out :
  (i <= length src)%nat -> at_byte src (scanStringSpecial src i) DQUOTE = true ->
  exists out', str_at src i out = Ok (S (scanStringSpecial src i), out').
Proof using Hsrc.
  intros Hi Hq%at_byte_spec. rewrite (str_at_special src Hsrc i out Hi). by rewrite str_at_quote by done; eauto.
Qed.

(** A word without special bytes is passed over. *)
Lemma probe_none i out :
  (i + 8 <= length src)%nat -> probe src i = None ->
  exists out', str_at src i out = str_at src (i + 8) out'.
Proof using Hsrc.
  intros Hi. unfold probe, loadUint64LE. cbv zeta.
  destruct (Z.eqb_spec (stringSpecialMask (load64 src i)) 0) as [E|]; [|done]. intros _.
  destruct (word_clear _ stringSpecialMask src i special_mask_first Hsrc Hi E) as [Hf _].
  eexists. apply str_at_run; [lia|]. apply not_special_plain; [done|by apply slice_bytes].
Qed.

Lemma probe_some i j :
  (i + 8 <= length src)%nat -> probe src i = Some j -> j = scanStringSpecial src i /\ (j < length src)%nat.
Proof using Hsrc.
  intros Hi. unfold probe, loadUint64LE. cbv zeta.
  destruct (Z.eqb_spec (stringSpecialMask (load64 src i)) 0) as [E|E]; [done|]. intros [= <-].
  destruct (word_stop _ stringSpecialMask src i special_mask_first Hsrc Hi E) as [-> Hlt].
  rewrite scanStringSpecial_spec by (done || lia). lia.
Qed.

Lemma tail_follows start out :
  (start <= length src)%nat ->
  fast_follows
  (let end_ := scanStringSpecial src start in
  if at_byte src end_ DQUOTE then Ok (S end_, true)
  else let* (end_, _, ok) := scanJSONStringFastFrom src end_ in Ok (end_, ok))
  (str_at src start out).
Proof using Hsrc.
  intros Hi. cbv zeta. destruct (at_byte src (scanStringSpecial src start) DQUOTE) eqn:E.
  - destruct (scan_quote start out Hi E) as (o & ->). done.
  - rewrite (str_at_special src Hsrc start out Hi). apply fast_from_follows.
    rewrite scanStringSpecial_spec by done. by apply advance_le.
Qed.

Lemma validStringFast_follows i :
  src !! i = Some DQUOTE -> fast_follows (validStringFast src i) (ref_str src i).
Proof using Hsrc.
  intros Hi%lookup_lt_Some. unfold validStringFast, ref_str. cbv zeta.
  assert (Hlong : fast_follows (let* (end_, _, ok) := scanJSONStringFastLong src i in Ok (end_, ok))
    (str_at src (S i) [])) by (apply fast_from_follows; lia).
  destruct (Nat.leb_spec (S i + 8) (length src)) as [H8|]; [|done].
  destruct (probe src (S i)) as [j|] eqn:Hp.
  { apply probe_some in Hp as [Hj Hlt]; [|done]. unfold fastByteAt.
  at_pos src j as c E; [|apply lookup_ge_None in E; lia]. cbn [res_bind].
  destruct (Z.eqb_spec c DQUOTE) as [->|]; [|done].
  destruct (scan_quote (S i) []) as (o & ->); [lia|rewrite <- Hj; by apply at_byte_spec|]. by rewrite Hj. }
  destruct (probe_none (S i) [] H8 Hp) as (o & ->).
  destruct (Nat.leb_spec (S i + 8 + 8) (length src)) as [H16|]; [|apply tail_follows; lia].
  destruct (probe src (S i + 8)) as [j|] eqn:Hp2.
  - apply probe_some in Hp2 as [Hj Hlt]; [|done]. unfold fastByteAt.
    at_pos src j as c E; [|apply lookup_ge_None in E; lia]. cbn [res_bind].
    destruct (Z.eqb_spec c DQUOTE) as [->|]; [|apply tail_follows; lia].
    destruct (scan_quote (S i + 8) o) as (o' & ->); [lia|rewrite <- Hj; by apply at_byte_spec|]. by rewrite Hj.
  - destruct (probe_none (S i + 8) o H16 Hp2) as (o' & ->). apply tail_follows; lia.
Qed.

(** The short-string probe only ever shortcuts the long scan. *)
Lemma short_loop_spec fuel i limit j out :
  (limit <= length src)%nat -> short_loop fuel src i limit = Ok (j, true) ->
  (i < j)%nat /\ has_bs (slice src i j) = false /\ exists d, str_at src i out = Ok (j, d).
Proof using Hsrc.
  intros Hlim. revert i out. induction fuel as [|fuel IH]; intros i out H; [done|]. cbn [short_loop] in H.
  destruct (Nat.ltb_spec i limit); [|done]. unfold fastByteAt in H.
  at_pos src i as c E; [|done]. cbn [res_bind] in H. destruct (Z.eqb_spec c DQUOTE) as [->|Hq].
  { simplify_eq. split; [lia|]. rewrite (slice_cons _ _ _ _ (Nat.lt_succ_diag_r i) E), slice_refl.
  rewrite str_at_quote by done. eauto. }
  destruct ((c =? BSLASH) || (c <? 0x20) || (0x80 <=? c)) eqn:Hc; [done|].
  destruct (IH (S i) (out ++ [c]) H) as (Hj & Hb & d & Hd). split; [lia|].
  rewrite (slice_cons src i j c) by (done || lia). simpl. rewrite Hb. split; [lia|]. exists d.
  rewrite (str_at_run src i (S i)); [| |].
  - rewrite (slice_cons src i (S i) c) by (done || lia). by rewrite slice_refl.
  - lia.
  - rewrite (slice_cons src i (S i) c) by (done || lia). rewrite slice_refl.
    apply not_special_plain; [|].
    + repeat constructor. unfold is_string_special. lia.
    + repeat constructor; unfold is_byte; [lia|]. lia.
Qed.

Lemma short_loop_ok fuel i limit : (limit <= length src)%nat -> exists r, short_loop fuel src i limit = Ok r.
Proof using.
  intros Hlim. revert i. induction fuel as [|fuel IH]; intros i; cbn [short_loop]; [eauto|].
  destruct (Nat.ltb_spec i limit); [|eauto]. unfold fastByteAt.
  at_pos src i as c E; [|apply lookup_ge_None in E; lia]. simpl. repeat case_step; eauto.
Qed.

Lemma scanJSONStringFast_follows i short :
  src !! i = Some DQUOTE ->
  match ref_str src i with
  | Ok (j, _) => scanJSONStringFast src i short = Ok (j, has_bs (slice src (S i) j), true)
  | Err _ => exists e b, scanJSONStringFast src i short = Ok (e, b, false)
  | _ => False
  end.
Proof using Hsrc.
  intros Hi%lookup_lt_Some.
  assert (Hlong : match ref_str src i with
    | Ok (j, _) => scanJSONStringFastLong src i = Ok (j, has_bs (slice src (S i) j), true)
    | Err _ => exists e b, scanJSONStringFastLong src i = Ok (e, b, false)
    | _ => False
    end).
  { pose proof (fast_loop_spec src Hsrc (S (length src)) (S i) false [] ltac:(lia) ltac:(lia)) as H.
  unfold ref_str, scanJSONStringFastLong, scanJSONStringFastFrom.
  destruct (str_at src (S i) []) as [[j d]| | |]; [|done..]. by destruct H as [-> _]. }
  destruct short; [|done]. unfold scanJSONStringFast, scanShortJSONString. cbv zeta.
  set (limit := if _ : bool then length src else (i + 9)%nat).
  assert (Hl : (limit <= length src)%nat) by (subst limit; case_step; lia).
  destruct (short_loop_ok 9 (S i) limit Hl) as ([e ok] & E). rewrite E. cbn [res_bind].
  destruct ok; [|done]. destruct (short_loop_spec 9 (S i) limit e [] Hl E) as (_ & Hb & d & Hd).
  unfold ref_str. by rewrite Hd, Hb.
Qed.
End WholeStrings.

(** ** Values and documents *)

Lemma space_loop_ws c : space_loop_test c = IsJSONWhitespace c.
Proof. unfold space_loop_test, IsJSONWhitespace. lia. Qed.

Lemma advance_ext p q src i : (forall c, p c = q c) -> advance p src i = advance q src i.
Proof.
  intros H. rewrite !advance_spec. do 2 f_equal.
  induction (drop i src) as [|c l IH]; simpl; [done|]. by rewrite H, IH.
Qed.

Lemma skipSpaceFast_ref src i : skipSpaceFast src i = ref_ws src i.
Proof. apply advance_ext, space_loop_ws. Qed.

Lemma nextSignificantFast_ref src i :
  nextSignificantFast src i =
    (ref_ws src i, match src !! (ref_ws src i) with Some c => c | None => 0 end).
Proof. unfold nextSignificantFast. cbv zeta. by rewrite (advance_ext _ _ _ _ space_loop_ws). Qed.

Section FastValues.
Context (src : bytes).
Hypothesis Hsrc : bytes_ok src.
Abbreviation rv := (ref_value src DefaultMaxDepth unexpected_byte).

(** A literal compared in one load, against the byte-wise match. *)
Lemma load32_match i l :
  bytes_ok l -> length l = 4%nat -> (i + 4 <= length src)%nat ->
  (loadUint32LE src i =? le_word l) = matchStringAt src i l.
Proof using Hsrc.
  intros Hl Hlen Hi. apply eq_true_iff_eq. rewrite Z.eqb_eq, matchStringAt_span, Hlen by lia.
  unfold loadUint32LE. split; [by apply load32_inj|]. intros Hs. unfold load32.
  by rewrite (span_slice _ _ _ _ Hs).
Qed.

Lemma word_literal_follows i lit t :
  bytes_ok lit -> length lit = 4%nat -> (i <= length src)%nat ->
  fast_follows (if (length src <? i + 4)%nat || negb (loadUint32LE src i =? le_word lit)
      then Ok (i, false) else Ok ((i + 4)%nat, true)) (ref_lit src lit t i).
Proof using Hsrc.
  intros Hl Hlen Hi. unfold ref_lit. destruct (Nat.ltb_spec (length src) (i + 4)); cbn [orb].
  - destruct (matchStringAt src i lit) eqn:E; [|by eexists].
    apply matchStringAt_span in E; [|done]. apply span_le in E. lia.
  - rewrite load32_match by done. destruct (matchStringAt src i lit); [|by eexists].
    cbn [negb fast_follows]. by rewrite Hlen.
Qed.

Lemma false_literal_follows i :
  src !! i = Some "f"%ch ->
  fast_follows (if (length src <? i + 5)%nat || negb (loadUint32LE src (i + 1) =? wordAlseLE)
      then Ok (i, false) else Ok ((i + 5)%nat, true))
  (ref_lit src lit_false (TBool false) i).
Proof using Hsrc.
  intros Hf. pose proof (lookup_lt_Some _ _ _ Hf) as Hi. unfold ref_lit.
  assert (E : matchStringAt src i lit_false = true <-> span src i ("f"%ch :: bs "alse") (i + 5))
    by (by rewrite matchStringAt_span by lia).
  destruct (Nat.ltb_spec (length src) (i + 5)); cbn [orb].
  - destruct (matchStringAt src i lit_false); [|by eexists].
    destruct (proj1 E eq_refl) as (_ & _ & ?). lia.
  - change wordAlseLE with (le_word (bs "alse")). rewrite load32_match by first [done|lia|repeat constructor; done].
    replace (i + 1)%nat with (S i) by lia.
    assert (E' : matchStringAt src (S i) (bs "alse") = true <-> span src (S i) (bs "alse") (i + 5)).
    { rewrite matchStringAt_span by lia. by replace (S i + length (bs "alse"))%nat with (i + 5)%nat by (simpl; lia). }
    destruct (matchStringAt src i lit_false), (matchStringAt src (S i) (bs "alse")); cbn [negb fast_follows];
      [simpl; by repeat f_equal| | |by eexists].
    + destruct (span_cons _ _ _ _ _ (proj1 E eq_refl)) as [_ H1]. by apply E' in H1.
    + assert (H1 : span src i ("f"%ch :: bs "alse") (i + 5))
        by (apply span_cons_intro; [done|by apply E']). by apply E in H1.
Qed.

Lemma fast_number_follows i :
  (i < length src)%nat -> fast_follows (scanNumberFast src i) (ref_num src i).
Proof using Hsrc.
  intros Hi. unfold scanNumberFast, scanNumberFastTagged, ref_num.
  destruct (fast_number_spec (skip_digits src) src i Hsrc Hi ltac:(done)) as (b & -> & _).
  destruct (scanNumber src i) as [j [|a m]]; simpl; [done|by eexists].
Qed.

Section Containers.
Context (vv : nat -> Z -> Z -> res unit (nat * bool)) (rvf : Z -> nat -> res rerr (nat * tree)).
Context (depth : Z) (bound : nat).
Hypothesis Hvv : forall i c, (bound <= i)%nat -> src !! i = Some c ->
  fast_follows (vv i c (depth + 1)) (rvf (depth + 1) i).
Hypothesis Hrd : forall i, (bound <= i <= length src)%nat ->
  reads src (DefaultMaxDepth - (depth + 1)) i (rvf (depth + 1) i).
Hypothesis Hend : forall i, (length src <= i)%nat -> exists e, rvf (depth + 1) i = Err e.

Lemma fast_array_follows fuel i p c acc :
  (bound <= i <= length src)%nat -> (length src - i < fuel)%nat ->
  ref_ws src i = p -> src !! p = Some c ->
  fast_follows (fast_array src vv fuel p c depth) (ref_elems src rvf fuel (depth + 1) i acc).
Proof using Hvv Hrd Hend Hsrc.
  revert i p c acc. induction fuel as [|fuel IH]; intros i p c acc Hi Hf Hp Hc; [lia|].
  cbn [fast_array ref_elems]. rewrite Hp. pose proof (ref_ws_le src i ltac:(lia)) as H1. rewrite Hp in H1.
  specialize (Hvv p c ltac:(lia) Hc) as Hv. specialize (Hrd p ltac:(lia)) as Hr.
  destruct (rvf (depth + 1) p) as [[j t]|[o m]| |]; cbn [fast_follows res_bind] in Hv |- *; [| |done|done].
  2:{ destruct Hv as (e & ->). by exists e. }
  rewrite Hv. cbn [res_bind negb]. destruct Hr as (Hj & s & Hs & _). apply span_le in Hs.
  rewrite nextSignificantFast_ref. pose proof (ref_ws_le src j ltac:(lia)) as H2.
  set (k := ref_ws src j) in *. at_pos src k as x E.
  2:{ apply lookup_ge_None in E. rewrite if_true by lia. by eexists. }
  apply lookup_lt_Some in E as Hlt. rewrite (if_false (_ <=? _)%nat) by lia.
  destruct (x =? ","%ch).
  - rewrite nextSignificantFast_ref. pose proof (ref_ws_le src (S k) ltac:(lia)) as H3.
    destruct (src !! ref_ws src (S k)) as [y|] eqn:Ey.
    + apply lookup_lt_Some in Ey as Hlt'. rewrite if_false by lia. apply IH; [lia|lia|done|done].
    + apply lookup_ge_None in Ey. rewrite if_true by lia. destruct fuel as [|fuel]; [lia|].
      cbn [ref_elems]. destruct (Hend (ref_ws src (S k)) ltac:(lia)) as (e & ->). by eexists.
  - destruct (x =? "]"%ch); [done|by eexists].
Qed.

Lemma fast_object_follows fuel i p c acc :
  (bound <= i <= length src)%nat -> (length src - i < fuel)%nat ->
  ref_ws src i = p -> src !! p = Some c ->
  fast_follows (fast_object src vv fuel p c depth) (ref_members src rvf fuel (depth + 1) i acc).
Proof using Hvv Hrd Hend Hsrc.
  revert i p c acc. induction fuel as [|fuel IH]; intros i p c acc Hi Hf Hp Hc; [lia|].
  cbn [fast_object ref_members]. rewrite Hp. pose proof (ref_ws_le src i ltac:(lia)) as H1. rewrite Hp in H1.
  unfold at_byte at 1. rewrite Hc. destruct (Z.eqb_spec c DQUOTE) as [->|]; cbn [negb]; [|by eexists].
  pose proof (validStringFast_follows src Hsrc p Hc) as Hv.
  pose proof (ref_str_sound src Hsrc p Hc) as Hs.
  destruct (ref_str src p) as [[i2 name]|e| |]; cbn [fast_follows res_bind] in Hv |- *; [| |done|done].
  2:{ destruct Hv as (e' & ->). by exists e'. }
  rewrite Hv. cbn [res_bind negb]. destruct Hs as (Hi2 & key & Hkey & _). apply span_le in Hkey.
  rewrite nextSignificantFast_ref. pose proof (ref_ws_le src i2 ltac:(lia)) as H2.
  set (i3 := ref_ws src i2) in *. unfold at_byte at 1. at_pos src i3 as x E.
  2:{ apply lookup_ge_None in E. rewrite if_true by lia. by eexists. }
  apply lookup_lt_Some in E as Hlt3.
  destruct (x =? ":"%ch); cbn [negb]; [rewrite if_false by lia|rewrite if_true by lia; by eexists].
  rewrite nextSignificantFast_ref. pose proof (ref_ws_le src (S i3) ltac:(lia)) as H3.
  set (i4 := ref_ws src (S i3)) in *. destruct (src !! i4) as [y|] eqn:Ey.
  2:{ apply lookup_ge_None in Ey. rewrite if_true by lia. destruct (Hend i4 Ey) as (e & ->). by eexists. }
  apply lookup_lt_Some in Ey as Hlt4. rewrite (if_false (_ <=? _)%nat) by lia.
  specialize (Hvv i4 y ltac:(lia) Ey) as Hw. specialize (Hrd i4 ltac:(lia)) as Hr.
  destruct (rvf (depth + 1) i4) as [[j t]|[o m]| |]; cbn [fast_follows res_bind] in Hw |- *; [| |done|done].
  2:{ destruct Hw as (e & ->). by exists e. }
  rewrite Hw. cbn [res_bind negb]. destruct Hr as (Hj & s & Hsp & _). apply span_le in Hsp.
  rewrite nextSignificantFast_ref. pose proof (ref_ws_le src j ltac:(lia)) as H5.
  set (k := ref_ws src j) in *. destruct (src !! k) as [z|] eqn:Ez.
  2:{ apply lookup_ge_None in Ez. rewrite if_true by lia. by eexists. }
  apply lookup_lt_Some in Ez as Hlt. rewrite (if_false (_ <=? _)%nat) by lia.
  destruct (z =? ","%ch).
  - rewrite nextSignificantFast_ref. pose proof (ref_ws_le src (S k) ltac:(lia)) as H6.
    destruct (src !! ref_ws src (S k)) as [w|] eqn:Ew.
    + apply lookup_lt_Some in Ew as Hlt'. rewrite if_false by lia. apply IH; [lia|lia|done|done].
    + apply lookup_ge_None in Ew as Hw'. rewrite if_true by lia. destruct fuel as [|fuel]; [lia|].
      cbn [ref_members]. unfold at_byte. rewrite Ew. by eexists.
  - destruct (z =? "}"%ch); [done|by eexists].
Qed.
End Containers.

Lemma ref_value_end fuel depth i : (length src <= i)%nat -> exists e, rv (S fuel) depth i = Err e.
Proof using.
  intros Hi. cbn [ref_value]. unfold ref_body. case_step; [by eexists|].
  rewrite lookup_ge_None_2 by done. by eexists.
Qed.

Lemma validValueFast_follows fuel i c depth :
  src !! i = Some c -> depth <= DefaultMaxDepth -> (length src - i < fuel)%nat ->
  fast_follows (validValueFast src fuel i c depth) (rv fuel depth i).
Proof using Hsrc.
  revert i c depth. induction fuel as [|fuel IH]; intros i c depth Hc Hd Hf; [lia|].
  pose proof (lookup_lt_Some _ _ _ Hc) as Hi.
  cbn [validValueFast ref_value]. unfold validValueFast_body. rewrite (ref_body_head _ _ _ _ _ _ _ Hc Hd).
  assert (Hend : forall j, (length src <= j)%nat -> exists e, rv fuel (depth + 1) j = Err e).
  { intros j Hj. destruct fuel as [|fuel]; [lia|]. by apply ref_value_end. }
  assert (Hvv : depth < DefaultMaxDepth -> forall j x, (S i <= j)%nat -> src !! j = Some x ->
    fast_follows (validValueFast src fuel j x (depth + 1)) (rv fuel (depth + 1) j)).
  { intros Hlt j x Hj Hx. apply IH; [done|lia|]. apply lookup_lt_Some in Hx. lia. }
  assert (Hrd : forall j, (S i <= j <= length src)%nat ->
    reads src (DefaultMaxDepth - (depth + 1)) j (rv fuel (depth + 1) j)).
  { intros j Hj. apply ref_value_sound; [done|lia|lia]. }
  destruct (Z.eqb_spec c "{"%ch) as [->|].
  { cbn [Z.eqb Pos.eqb]. unfold ref_object.
  destruct (Z.leb_spec DefaultMaxDepth depth); [rewrite if_true by lia; by eexists|].
  rewrite if_false by lia. rewrite nextSignificantFast_ref. cbv zeta.
  pose proof (ref_ws_le src (S i) ltac:(lia)) as H1. unfold at_byte.
  destruct (src !! ref_ws src (S i)) as [x|] eqn:E.
  - apply lookup_lt_Some in E as Hlt. rewrite (if_false (_ <=? _)%nat) by lia. destruct (x =? "}"%ch); [done|].
    pose proof (fast_object_follows _ _ depth (S i) (Hvv ltac:(lia)) Hrd Hend (S (length src))
      (S i) _ _ [] ltac:(lia) ltac:(lia) eq_refl E) as H2.
    rewrite ref_ws_members by lia. unfold fast_follows in *.
    destruct (ref_members _ _ _ _ _ _) as [[j ms]|e| |]; done.
  - apply lookup_ge_None in E as Hge. rewrite if_true by lia. rewrite ref_ws_members by lia.
    cbn [ref_members]. unfold at_byte. rewrite E. by eexists. }
    destruct (Z.eqb_spec c "["%ch) as [->|].
    { cbn [Z.eqb Pos.eqb]. unfold ref_array.
    destruct (Z.leb_spec DefaultMaxDepth depth); [rewrite if_true by lia; by eexists|].
    rewrite if_false by lia. rewrite nextSignificantFast_ref. cbv zeta.
    pose proof (ref_ws_le src (S i) ltac:(lia)) as H1. unfold at_byte.
    destruct (src !! ref_ws src (S i)) as [x|] eqn:E.
  - apply lookup_lt_Some in E as Hlt. rewrite (if_false (_ <=? _)%nat) by lia. destruct (x =? "]"%ch); [done|].
    pose proof (fast_array_follows _ _ depth (S i) (Hvv ltac:(lia)) Hrd Hend (S (length src))
      (S i) _ _ [] ltac:(lia) ltac:(lia) eq_refl E) as H2.
    rewrite ref_ws_elems by lia. unfold fast_follows in *.
    destruct (ref_elems _ _ _ _ _ _) as [[j ms]|e| |]; done.
  - apply lookup_ge_None in E as Hge. rewrite if_true by lia. rewrite ref_ws_elems by lia.
    cbn [ref_elems]. destruct (Hend (ref_ws src (S i)) ltac:(lia)) as (e & ->). by eexists. }
    destruct (Z.eqb_spec c DQUOTE) as [->|].
    { cbn [Z.eqb Pos.eqb]. pose proof (validStringFast_follows src Hsrc i Hc) as H.
    unfold fast_follows in *. destruct (ref_str src i) as [[j d]|e| |]; done. }
    destruct (Z.eqb_spec c "t"%ch) as [->|]; [cbn [Z.eqb Pos.eqb]; by apply word_literal_follows; [repeat constructor|..|lia]|].
    destruct (Z.eqb_spec c "f"%ch) as [->|]; [cbn [Z.eqb Pos.eqb]; by apply false_literal_follows|].
    destruct (Z.eqb_spec c "n"%ch) as [->|]; [by apply word_literal_follows; [repeat constructor|..|lia]|].
    destruct (c =? "-"%ch), (IsDigit c); cbn [negb andb orb];
      first [by apply fast_number_follows|by eexists].
Qed.

(** [Valid] computes the acceptance bit of the reference reader, and none of
its unsafe reads leaves the source. *)
Lemma validFast_ref :
  validFast src = Ok (is_ok (ref_doc src DefaultMaxDepth unexpected_byte)).
Proof using Hsrc.
  unfold validFast, ref_doc. rewrite nextSignificantFast_ref. pose proof (ref_ws_le src 0 ltac:(lia)) as H0.
  set (i := ref_ws src 0) in *. destruct (src !! i) as [c|] eqn:E.
  2:{ apply lookup_ge_None in E. rewrite if_true by lia.
  destruct (ref_value_end (length src) 0 i E) as (e & ->). done. }
  apply lookup_lt_Some in E as Hlt. rewrite (if_false (_ <=? _)%nat) by lia.
  pose proof (validValueFast_follows (S (length src)) i c 0 E ltac:(done) ltac:(lia)) as H.
  pose proof (ref_value_sound src DefaultMaxDepth unexpected_byte Hsrc (S (length src)) 0 i
    ltac:(lia) ltac:(lia)) as Hr.
  destruct (rv (S (length src)) 0 i) as [[j t]|e| |]; cbn [fast_follows] in H; [| |done|done].
  2:{ destruct H as (e' & ->). done. }
  rewrite H. cbn [res_bind negb]. rewrite skipSpaceFast_ref. by destruct (ref_ws src j =? length src)%nat.
Qed.
End FastValues.

(** ** Properties *)

(** C2: the fast validator, with its unchecked byte and word loads, never reads outside the source, always answers, and answers exactly what [Validate] answers. *)
Theorem Valid_is_Validate src :
  bytes_ok src -> FastValid.Valid src = Ok (is_ok (Validate src)).
Proof.
  intros Hok. unfold Valid. rewrite validFast_ref by done. unfold Validate. rewrite validateOptions_ref by done.
  change (maxDepthOrDefault (MaxDepth (mkOptions 0 false))) with DefaultMaxDepth.
  by destruct (ref_doc src DefaultMaxDepth unexpected_byte) as [t|[o m]| |].
Qed.

Lemma Valid_is_Validate_witness :
  let src := js "{'key':[true,null,-1.5],'s':'a\nb'}" in
  FastValid.Valid src = Ok (is_ok (Validate src)).
Proof. apply Valid_is_Validate. concrete_bytes. Defined.

(** the fast number scanners, the one with eight-digit words included, end where the strict scanner ends and accept the same numbers; on an accepted number they report exactly whether it is a plain integer. *)
Theorem fast_number_scanners src i :
  bytes_ok src -> (i < length src)%nat ->
  scanNumberFastTaggedSWAR src i = scanNumberFastTagged src i /\
  scanNumberFast src i = Ok ((scanNumber src i).1, msg_ok (scanNumber src i).2) /\
  exists integer, scanNumberFastTagged src i = Ok ((scanNumber src i).1, integer, msg_ok (scanNumber src i).2) /\
    (msg_ok (scanNumber src i).2 = true -> integer = plain_integer (slice src i (scanNumber src i).1)).
Proof.
  intros Hok Hi. unfold scanNumberFast, scanNumberFastTaggedSWAR, scanNumberFastTagged.
  assert (Heq : fast_number (swar_digits src) src i = fast_number (skip_digits src) src i).
  { apply fast_number_ext. intros j Hj. by apply swar_digits_spec. }
  destruct (fast_number_spec (skip_digits src) src i Hok Hi ltac:(done)) as (integer & Hf & Hp).
  split; [done|]. rewrite Hf. split; [done|]. by exists integer.
Qed.

Lemma fast_number_scanners_witness :
  let src := bs "1234567890123," in
  scanNumberFastTaggedSWAR src 0 = scanNumberFastTagged src 0 /\
  scanNumberFast src 0 = Ok ((scanNumber src 0).1, msg_ok (scanNumber src 0).2) /\
  exists integer, scanNumberFastTagged src 0 = Ok ((scanNumber src 0).1, integer, msg_ok (scanNumber src 0).2) /\
    (msg_ok (scanNumber src 0).2 = true -> integer = plain_integer (slice src 0 (scanNumber src 0).1)).
Proof. apply (fast_number_scanners _ 0); [concrete_bytes|vm_compute; lia]. Defined.

(** the fast string scanners accept the same tokens as the validator's scanner, end at the same position, and the escape flag says whether the token holds a backslash. *)
Theorem fast_string_scanners src i short :
  bytes_ok src -> src !! i = Some DQUOTE ->
  match parseString src i with
  | Ok j => scanJSONStringFast src i short = Ok (j, has_bs (slice src (S i) j), true) /\
      validStringFast src i = Ok (j, true)
  | Err _ => (exists e b, scanJSONStringFast src i short = Ok (e, b, false)) /\
      (exists e, validStringFast src i = Ok (e, false))
  | _ => False
  end.
Proof.
  intros Hok Hi. pose proof (lookup_lt_Some _ _ _ Hi) as Hlt. rewrite parseString_ref by done.
  pose proof (scanJSONStringFast_follows src Hok i short Hi) as H1.
  pose proof (validStringFast_follows src Hok i Hi) as H2.
  destruct (ref_str src i) as [[j d]|[o m]| |]; cbn [as_syntax fst]; done.
Qed.

Lemma fast_string_scanners_witness :
  let src := js "'abcdefghij\u0041klm'" in
  match parseString src 0 with
  | Ok j => scanJSONStringFast src 0 true = Ok (j, has_bs (slice src 1 j), true) /\
      validStringFast src 0 = Ok (j, true)
  | Err _ => (exists e b, scanJSONStringFast src 0 true = Ok (e, b, false)) /\
      (exists e, validStringFast src 0 = Ok (e, false))
  | _ => False
  end.
Proof. apply (fast_string_scanners _ 0 true); [concrete_bytes|reflexivity]. Defined.
