(* ===== verification/ParserString.v ===== *)
(** [parser.parseString] of [parser.go]: the string reader of the materializing
    parser, with its word-at-a-time escape run.  The output arena is modelled by
    the bytes the current string owns in it. *)

From S2P Require Import Prelude Words Utf8 Scanner Lex Grammar StringRef Errors Numbers Reader Validator.

(** [uint16('\\') | uint16('u')<<8]. *)
Definition escapedUnicodePrefixLE : Z := Eval cbv in 92 + 256 * 117.

(** [byte(w >> (8*k))]. *)
Definition word_byte (w : Z) (k : nat) : Z := to_byte (Z.shiftr w (8 * Z.of_nat k)).

Section Parser.
Context (src : bytes).

Definition p_err {A} (off : nat) (msg : string) : res SyntaxError A := Err (syntax_at src off msg).

(** The first loop of [appendUnicodeEscapeRun]: escapes of one code unit, eight
bytes loaded at a time. *)
Fixpoint escape_run_words (fuel : nat) (i : nat) (out : bytes) : res SyntaxError (nat * bytes) :=
  match fuel with
  | O => Ok (i, out)
  | S fuel =>
    if (i + 8 <=? length src)%nat then
    let w := load64 src i in
    if negb (w mod 2 ^ 16 =? escapedUnicodePrefixLE) then Ok (i, out)
    else
    let a := hexNibbleTable (word_byte w 2) in
    let b := hexNibbleTable (word_byte w 3) in
    let c := hexNibbleTable (word_byte w 4) in
    let d := hexNibbleTable (word_byte w 5) in
    if 0x10 <=? Z.lor (Z.lor (Z.lor a b) c) d then p_err i "invalid unicode escape"
    else
  let u := Z.lor (Z.lor (Z.lor (Z.shiftl a 12) (Z.shiftl b 8)) (Z.shiftl c 4)) d in
  if w32 (u - 0xD800) <? 0x800 then Ok (i, out)
  else
    let out :=
      if u <? 0x80 then out ++ [to_byte u]
      else if u <? 0x800 then
        out ++ [Z.lor 0xc0 (to_byte (Z.shiftr u 6)); Z.lor 0x80 (Z.land (to_byte u) 0x3f)]
      else
        out ++ [Z.lor 0xe0 (to_byte (Z.shiftr u 12)); Z.lor 0x80 (Z.land (to_byte (Z.shiftr u 6)) 0x3f);
                Z.lor 0x80 (Z.land (to_byte u) 0x3f)] in
    escape_run_words fuel (i + 6) out
    else Ok (i, out)
  end.

(** The second loop: any escape, surrogate pairs included. *)
Fixpoint escape_run_pairs (fuel : nat) (i : nat) (out : bytes) : res SyntaxError (nat * bytes) :=
  match fuel with
  | O => Ok (i, out)
  | S fuel =>
    if (i + 6 <=? length src)%nat && at_byte src i BSLASH && at_byte src (i + 1) "u"%ch then
    let escapeStart := i in
    let (u, ok) := hex4 src (i + 2) in
    if negb ok then p_err escapeStart "invalid unicode escape"
    else
    let i := (i + 6)%nat in
    let r := u in
    if (0xD800 <=? r) && (r <=? 0xDBFF) then
  if (length src <? i + 6)%nat || negb (at_byte src i BSLASH) || negb (at_byte src (i + 1) "u"%ch)
  then p_err escapeStart "missing low surrogate"
  else
    let (lo, ok) := hex4 src (i + 2) in
    if negb ok || (lo <? 0xDC00) || (0xDFFF <? lo) then p_err escapeStart "invalid low surrogate"
    else escape_run_pairs fuel (i + 6) (appendEscapedRune out (DecodeSurrogates r lo))
    else if (0xDC00 <=? r) && (r <=? 0xDFFF) then p_err escapeStart "unexpected low surrogate"
    else escape_run_pairs fuel i (appendEscapedRune out r)
    else Ok (i, out)
  end.

Definition appendUnicodeEscapeRun (i : nat) (out : bytes) : res SyntaxError (nat * bytes) :=
  let* (i, out) := escape_run_words (length src) i out in
  escape_run_pairs (length src) i out.

(** [parseUnicodeEscape], with [i] at the ['u']. *)
Definition parseUnicodeEscape (i : nat) : res SyntaxError (nat * Z) :=
  let start := (i - 1)%nat in
  let i := S i in
  let (u, ok) := hex4 src i in
  if negb ok then p_err start "invalid unicode escape"
  else
  let i := (i + 4)%nat in
  let r := u in
  if (0xD800 <=? r) && (r <=? 0xDBFF) then
  if (length src <? i + 6)%nat || negb (at_byte src i BSLASH) || negb (at_byte src (i + 1) "u"%ch)
  then p_err start "missing low surrogate"
  else
  let i := (i + 2)%nat in
  let (lo, ok) := hex4 src i in
  if negb ok then p_err start "invalid low surrogate"
  else if (lo <? 0xDC00) || (0xDFFF <? lo) then p_err start "invalid low surrogate"
  else Ok ((i + 4)%nat, DecodeSurrogates r lo)
  else if (0xDC00 <=? r) && (r <=? 0xDFFF) then p_err start "unexpected low surrogate"
  else Ok (i, r).

(** [appendEscape], with [i] at the byte after the backslash. *)
Definition appendEscape (i : nat) (out : bytes) : res SyntaxError (nat * bytes) :=
  match src !! i with
  | None => Panic
  | Some c =>
    if (c =? DQUOTE) || (c =? BSLASH) || (c =? "/"%ch) then Ok (S i, out ++ [c])
    else if c =? "b"%ch then Ok (S i, out ++ [8])
    else if c =? "f"%ch then Ok (S i, out ++ [12])
    else if c =? "n"%ch then Ok (S i, out ++ [10])
    else if c =? "r"%ch then Ok (S i, out ++ [13])
    else if c =? "t"%ch then Ok (S i, out ++ [9])
    else if c =? "u"%ch then
    let* (i, r) := parseUnicodeEscape i in Ok (i, appendEscapedRune out r)
    else p_err (i - 1) "invalid escape sequence"
  end.

(** The main loop.  [out = None] is [outStart < 0]: no escape seen yet. *)
Fixpoint p_string_loop (fuel : nat) (start i chunkStart : nat) (out : option bytes) :
  res SyntaxError (nat * bytes) :=
  match fuel with
  | O => NoFuel
  | S fuel =>
    if (i + 6 <=? length src)%nat && at_byte src i BSLASH && at_byte src (i + 1) "u"%ch then
    let out := default [] out ++ slice src chunkStart i in
    let* (i, out) := appendUnicodeEscapeRun i out in
    p_string_loop fuel start i i (Some out)
    else
    let j := if at_byte src i BSLASH then i else scanStringSpecial src i in
    match src !! j with
    | None => p_err (length src) "unterminated string"
    | Some c =>
  if c =? DQUOTE then
    match out with
    | None => Ok (S j, slice src start j)
    | Some out => Ok (S j, out ++ slice src chunkStart j)
    end
  else if c =? BSLASH then
    let out := default [] out ++ slice src chunkStart j in
    let i := S j in
    if (length src <=? i)%nat then p_err i "unterminated escape sequence"
    else
      let* (i, out) := appendEscape i out in
      p_string_loop fuel start i i (Some out)
  else if c <? 0x20 then p_err j "unescaped control byte in string"
  else
    match scanStringUnicodeRun src j with
    | (_, Some bad) => p_err bad "invalid UTF-8 in string"
    | (next, None) => p_string_loop fuel start next chunkStart out
    end
    end
  end.

(** [parser.parseString], with [i] at the opening quote: the position after the
closing one, and the decoded string. *)
Definition p_parseString (i : nat) : res SyntaxError (nat * bytes) :=
  p_string_loop (S (length src)) (S i) (S i) (S i) None.
End Parser.

(** ** Bytes of a loaded word *)

Lemma word_byte_spec src i k c :
  bytes_ok src -> (i + 8 <= length src)%nat -> (k < 8)%nat -> src !! (i + k)%nat = Some c ->
  word_byte (load64 src i) k = c.
Proof.
  intros Hok Hi Hk Hc. unfold load64, word_byte, to_byte.
  assert (Hl : slice src i (i + 8) !! k = Some c).
  { unfold slice. rewrite lookup_take_lt by lia. by rewrite lookup_drop. }
  pose proof (slice_bytes src i (i + 8) Hok) as Hb. set (l := slice src i (i + 8)) in *.
  rewrite <- (take_drop_middle l k c Hl), le_word_app. cbn [le_word].
  assert (Ht : length (take k l) = k) by (rewrite length_take; apply lookup_lt_Some in Hl; lia).
  rewrite Ht, Z.shiftr_div_pow2 by lia.
  pose proof (le_word_bound (take k l) (Forall_take _ _ _ Hb)) as Hlow. rewrite Ht in Hlow.
  rewrite Z.mul_comm, Z.div_add by lia. rewrite Z.div_small by lia.
  assert (is_byte c) by (by eapply Forall_lookup_1 in Hl). unfold is_byte in *.
  rewrite Z.add_0_l, Z.mul_comm, Z_mod_plus_full. by apply Z.mod_small.
Qed.

Lemma word_low16 src i :
  bytes_ok src -> (i + 8 <= length src)%nat ->
  (load64 src i mod 2 ^ 16 =? escapedUnicodePrefixLE) = at_byte src i BSLASH && at_byte src (i + 1) "u"%ch.
Proof.
  intros Hok Hi. destruct (lookup_lt_is_Some_2 src i) as [a Ha]; [lia|].
  destruct (lookup_lt_is_Some_2 src (i + 1)) as [b Hb]; [lia|].
  unfold load64, at_byte. rewrite Ha, Hb.
  rewrite (slice_cons src i (i + 8) a) by (done || lia). replace (S i) with (i + 1)%nat by lia.
  rewrite (slice_cons src (i + 1) (i + 8) b) by (done || lia). cbn [le_word].
  assert (is_byte a /\ is_byte b) as [Ba Bb] by (split; by eapply Forall_lookup_1).
  unfold is_byte in *.
  replace (a + 256 * (b + 256 * le_word (slice src (S (i + 1)) (i + 8))))
    with (a + 256 * b + le_word (slice src (S (i + 1)) (i + 8)) * 2 ^ 16) by lia.
  rewrite Z_mod_plus_full, Z.mod_small by lia. unfold escapedUnicodePrefixLE. lia.
Qed.

(** ** The escape run follows the reference reader *)

Section ParserRefine.
Context (src : bytes).
Hypothesis Hsrc : bytes_ok src.

(** A partial reading from [i] with [out] decoded so far. *)
Definition reads_on (i : nat) (out : bytes) (r : res SyntaxError (nat * bytes)) : Prop :=
  match r with
  | Ok (k, o) => (i <= k <= length src)%nat /\ str_at src i out = str_at src k o
  | Err e => exists o m, e = syntax_at src o m /\ str_at src i out = Err (o, m)
  | _ => False
  end.

Lemma reads_on_refl i out : (i <= length src)%nat -> reads_on i out (Ok (i, out)).
Proof using. intros. split; [lia|done]. Qed.

Lemma reads_on_bind i out r f :
  reads_on i out r ->
  (forall k o, r = Ok (k, o) -> (i <= k <= length src)%nat -> reads_on k o (f (k, o))) ->
  reads_on i out (res_bind r f).
Proof using.
  intros Hr Hf. destruct r as [[k o]|e| |]; [|done..]. destruct Hr as [Hk Heq]. simpl.
  specialize (Hf k o eq_refl Hk). unfold reads_on in *. rewrite Heq.
  destruct (f (k, o)) as [[k' o']| | |]; [|done..]. split; [lia|]. naive_solver.
Qed.

Lemma reads_on_step i out k o r :
  (i <= k <= length src)%nat -> str_at src i out = str_at src k o -> reads_on k o r -> reads_on i out r.
Proof using.
  intros Hk Heq Hr. unfold reads_on in *. rewrite Heq. destruct r as [[? ?]| | |]; [|done..].
  split; [lia|]. naive_solver.
Qed.

(** The guard both the main loop and the pair loop test. *)
Definition unicode_guard (i : nat) : bool :=
  (i + 6 <=? length src)%nat && at_byte src i BSLASH && at_byte src (i + 1) "u"%ch.

Lemma unicode_guard_spec i :
  unicode_guard i = true ->
  src !! i = Some BSLASH /\ src !! S i = Some "u"%ch /\ (i + 6 <= length src)%nat.
Proof using.
  unfold unicode_guard. intros [[Hl Hb%at_byte_spec]%andb_true_iff Hu%at_byte_spec]%andb_true_iff.
  replace (i + 1)%nat with (S i) in Hu by lia. split_and!; [done|done|lia].
Qed.

Lemma unicode_step i out :
  src !! i = Some BSLASH -> src !! S i = Some "u"%ch ->
  str_at src i out =
  match u_escape src (S i) with
  | EscOk n dec => str_at src (S i + n) (out ++ dec)
  | EscErr msg => Err (i, msg)
  end.
Proof using.
  intros Hb Hu. rewrite (str_at_escape src i out Hb) by by eapply lookup_lt_Some.
  by rewrite u_escape_ref.
Qed.

Lemma u_escape_bound i n d :
  src !! i = Some "u"%ch -> u_escape src i = EscOk n d -> (i < i + n <= length src)%nat.
Proof using.
  intros Hu He. rewrite <- u_escape_ref in He by done. eapply esc_ok_bound; [|done].
  apply lookup_lt_Some in Hu. lia.
Qed.

Lemma hex4_range i u : hex4 src i = (u, true) -> 0 <= u < 65536.
Proof using.
  intros H. pose proof (hex4_hex_of src i) as H4. destruct (hex_of (drop i src)) as [v|] eqn:E.
  - rewrite H in H4. simplify_eq. apply hex_of_some in E as (? & ? & ? & ? & ? & _ & _ & Hr). done.
  - by rewrite H in H4.
Qed.

Lemma surrogate_decode_range u v :
  is_high_surrogate u = true -> is_low_surrogate v = true -> 0 <= DecodeSurrogates u v <= MaxRune.
Proof using.
  unfold is_high_surrogate, is_low_surrogate, DecodeSurrogates, MaxRune, RuneError. intros.
  case_step; lia.
Qed.

Lemma pairs_spec fuel i out :
  (i <= length src)%nat ->
  reads_on i out (escape_run_pairs src fuel i out) /\
  (unicode_guard i = true -> (0 < fuel)%nat ->
  forall k o, escape_run_pairs src fuel i out = Ok (k, o) -> (i < k)%nat).
Proof using.
  revert i out. induction fuel as [|fuel IH]; intros i out Hi; cbn [escape_run_pairs].
  { split; [by apply reads_on_refl|lia]. }
  fold (unicode_guard i). destruct (unicode_guard i) eqn:Hg; [|split; [by apply reads_on_refl|done]].
  apply unicode_guard_spec in Hg as (Hb & Hu & Hl).
  pose proof (unicode_step i out Hb Hu) as Hstep.
  pose proof (fun n d => u_escape_bound (S i) n d Hu) as Hbound. unfold u_escape in Hstep, Hbound.
  replace (S (S i)) with (i + 2)%nat in * by lia. replace (S i + 5)%nat with (i + 6)%nat in * by lia.
  replace (S i + 6)%nat with (i + 7)%nat in * by lia. replace (S i + 7)%nat with (i + 8)%nat in * by lia.
  replace (S i + 11)%nat with (i + 12)%nat in * by lia. cbv zeta.
  destruct (hex4 src (i + 2)) as [u [|]] eqn:Hh; cbn [negb] in *.
  2:{ split; [|done]. eexists _, _. split; [done|exact Hstep]. }
  apply hex4_range in Hh. fold (is_high_surrogate u) (is_low_surrogate u).
  replace (i + 6 + 6)%nat with (i + 12)%nat by lia. replace (i + 6 + 1)%nat with (i + 7)%nat by lia.
  replace (i + 6 + 2)%nat with (i + 8)%nat by lia.
  assert (Hnext : forall k r, 0 <= r <= MaxRune -> (i < k <= length src)%nat ->
    str_at src i out = str_at src k (out ++ encode_rune r) ->
    reads_on i out (escape_run_pairs src fuel k (appendEscapedRune out r)) /\
    (true = true -> (0 < S fuel)%nat -> forall k' o,
    escape_run_pairs src fuel k (appendEscapedRune out r) = Ok (k', o) -> (i < k')%nat)).
  { intros k r Hr Hk Heq. rewrite appendEscapedRune_spec by done.
  destruct (IH k (out ++ encode_rune r) ltac:(lia)) as [Ho _].
  split; [eapply reads_on_step; [|done|done]; lia|]. intros _ _ k' o He. rewrite He in Ho.
  destruct Ho as [Ho _]. lia. }
  destruct (is_high_surrogate u) eqn:Hhi.
  - destruct (_ || _ || _); [split; [|done]; eexists _, _; split; [done|exact Hstep]|].
    destruct (hex4 src (i + 8)) as [v [|]] eqn:Hv; cbn [negb orb] in *.
    2:{ split; [|done]. eexists _, _. split; [done|exact Hstep]. }
    replace ((v <? 0xDC00) || (0xDFFF <? v)) with (negb (is_low_surrogate v))
      by (unfold is_low_surrogate; lia).
    destruct (is_low_surrogate v) eqn:Hlo; cbn [negb].
    + specialize (Hbound _ _ eq_refl). apply Hnext; [by apply surrogate_decode_range|lia|].
      rewrite Hstep. f_equal. lia.
    + split; [|done]. eexists _, _. split; [done|exact Hstep].
  - destruct (is_low_surrogate u); [split; [|done]; eexists _, _; split; [done|exact Hstep]|].
    apply Hnext; [unfold MaxRune; lia|lia|]. rewrite Hstep. f_equal. lia.
Qed.

(** The nibbles of the loaded word are the four hexadecimal digits. *)
Lemma word_hex i a b c d :
  (i + 8 <= length src)%nat ->
  a = hexNibbleTable (word_byte (load64 src i) 2) -> b = hexNibbleTable (word_byte (load64 src i) 3) ->
  c = hexNibbleTable (word_byte (load64 src i) 4) -> d = hexNibbleTable (word_byte (load64 src i) 5) ->
  (hex4 src (i + 2)).2 = negb (0x10 <=? Z.lor (Z.lor (Z.lor a b) c) d) /\
  ((hex4 src (i + 2)).2 = true ->
  (hex4 src (i + 2)).1 = Z.lor (Z.lor (Z.lor (Z.shiftl a 12) (Z.shiftl b 8)) (Z.shiftl c 4)) d).
Proof using Hsrc.
  intros Hi -> -> -> ->.
  assert (Hk : forall k, (2 <= k < 6)%nat -> src !! (i + k)%nat = Some (word_byte (load64 src i) k)).
  { intros k Hk. destruct (lookup_lt_is_Some_2 src (i + k)) as [c Hc]; [lia|].
  by rewrite (word_byte_spec src i k c) by (done || lia). }
  unfold hex4. rewrite (if_false (_ <? _)%nat) by lia.
  replace (i + 2 + 1)%nat with (i + 3)%nat by lia. replace (i + 2 + 2)%nat with (i + 4)%nat by lia.
  replace (i + 2 + 3)%nat with (i + 5)%nat by lia. rewrite !Hk by lia.
  set (a := word_byte _ 2). set (b := word_byte _ 3). set (c := word_byte _ 4). set (d := word_byte _ 5).
  pose proof (hex_combine_ok a b c d) as Hok. unfold hex_combine in *. simpl fst. simpl snd in *.
  split; [lia|]. intros H. rewrite H in Hok. symmetry in Hok. unfold is_hex in Hok.
  pose proof (hexNibble_range a). pose proof (hexNibble_range b). pose proof (hexNibble_range c).
  rewrite !Z.shiftl_mul_pow2 by lia. by rewrite !Z.mod_small by lia.
Qed.

Lemma word_bytes_rune out u :
  0 <= u < 65536 ->
  (if u <? 0x80 then out ++ [to_byte u]
  else if u <? 0x800 then
  out ++ [Z.lor 0xc0 (to_byte (Z.shiftr u 6)); Z.lor 0x80 (Z.land (to_byte u) 0x3f)]
  else
  out ++ [Z.lor 0xe0 (to_byte (Z.shiftr u 12)); Z.lor 0x80 (Z.land (to_byte (Z.shiftr u 6)) 0x3f);
   Z.lor 0x80 (Z.land (to_byte u) 0x3f)]) = out ++ encode_rune u.
Proof using.
  intros Hu. rewrite <- appendEscapedRune_spec by (unfold MaxRune; lia). unfold appendEscapedRune.
  destruct (Z.ltb_spec u 0x80); [by rewrite if_true by lia|]. rewrite (if_false (u <=? 0x7f)) by lia.
  destruct (Z.ltb_spec u 0x800); [by rewrite if_true by lia|]. rewrite (if_false (u <=? 0x7ff)) by lia.
  by rewrite if_true by lia.
Qed.

Lemma words_spec fuel i out :
  (i <= length src)%nat -> reads_on i out (escape_run_words src fuel i out).
Proof using Hsrc.
  revert i out. induction fuel as [|fuel IH]; intros i out Hi; cbn [escape_run_words].
  { by apply reads_on_refl. }
  destruct (Nat.leb_spec (i + 8) (length src)) as [H8|]; [|by apply reads_on_refl]. cbv zeta.
  rewrite word_low16 by done.
  destruct (at_byte src i BSLASH && at_byte src (i + 1) "u"%ch) eqn:E; cbn [negb]; [|by apply reads_on_refl].
  apply andb_true_iff in E as [Hb%at_byte_spec Hu%at_byte_spec].
  replace (i + 1)%nat with (S i) in Hu by lia.
  destruct (word_hex i _ _ _ _ H8 eq_refl eq_refl eq_refl eq_refl) as [Hok Hval].
  pose proof (unicode_step i out Hb Hu) as Hstep. unfold u_escape in Hstep.
  replace (S (S i)) with (i + 2)%nat in * by lia.
  destruct (hex4 src (i + 2)) as [u ok] eqn:Hh. cbn [fst snd] in Hok, Hval.
  destruct (_ <=? Z.lor _ _).
  { subst ok. cbn [negb] in Hstep. eexists _, _. split; [done|exact Hstep]. }
  subst ok. cbn [negb] in Hstep. specialize (Hval eq_refl). rewrite <- Hval.
  apply hex4_range in Hh. unfold w32. destruct (Z.ltb_spec ((u - 0xD800) mod 2 ^ 32) 0x800) as [Hs|Hs].
  { by apply reads_on_refl. }
  assert (Hsur : is_high_surrogate u = false /\ is_low_surrogate u = false).
  { unfold is_high_surrogate, is_low_surrogate. revert Hs. div_lia. }
  destruct Hsur as [H1 H2]. rewrite H1, H2 in Hstep. rewrite word_bytes_rune by done.
  eapply reads_on_step; [|exact Hstep|]; [lia|]. replace (S i + 5)%nat with (i + 6)%nat by lia.
  apply IH. lia.
Qed.

Lemma escape_run_spec i out :
  (i <= length src)%nat ->
  reads_on i out (appendUnicodeEscapeRun src i out) /\
  (unicode_guard i = true ->
  forall k o, appendUnicodeEscapeRun src i out = Ok (k, o) -> (i < k)%nat).
Proof using Hsrc.
  intros Hi. unfold appendUnicodeEscapeRun. pose proof (words_spec (length src) i out Hi) as Hw. split.
  - apply reads_on_bind; [done|]. intros k o _ Hk. apply pairs_spec. lia.
  - intros Hg k o. destruct (escape_run_words src (length src) i out) as [[k1 o1]| | |]; [|done..]. simpl.
    destruct Hw as [Hk1 _]. intros He. destruct (pairs_spec (length src) k1 o1 ltac:(lia)) as [Ho Hp].
    rewrite He in Ho. destruct Ho as [Ho _]. destruct (decide (k1 = i)) as [->|]; [|lia].
    eapply Hp; [done| |done]. apply unicode_guard_spec in Hg. lia.
Qed.

(** One escape, by the byte that follows the backslash. *)
Lemma parseUnicodeEscape_ref i out :
  src !! i = Some "u"%ch ->
  (let* (k, r) := parseUnicodeEscape src i in Ok (k, appendEscapedRune out r)) =
  match esc_ref (drop i src) with
  | EscOk n dec => Ok ((i + n)%nat, out ++ dec)
  | EscErr m => Err (syntax_at src (i - 1) m)
  end.
Proof using.
  intros Hu. rewrite u_escape_ref by done. unfold parseUnicodeEscape, u_escape, p_err. cbv zeta.
  replace (S i + 4 + 6)%nat with (i + 11)%nat by lia. replace (S i + 4 + 1)%nat with (i + 6)%nat by lia.
  replace (S i + 4 + 2)%nat with (i + 7)%nat by lia. replace (S i + 4)%nat with (i + 5)%nat by lia.
  destruct (hex4 src (S i)) as [u [|]] eqn:Hh; cbn [negb]; [|done]. apply hex4_range in Hh.
  fold (is_high_surrogate u) (is_low_surrogate u). destruct (is_high_surrogate u) eqn:Hhi.
  - destruct (_ || _ || _); [done|]. destruct (hex4 src (i + 7)) as [v [|]]; cbn [negb]; [|done].
    replace ((v <? 0xDC00) || (0xDFFF <? v)) with (negb (is_low_surrogate v))
      by (unfold is_low_surrogate; lia).
    destruct (is_low_surrogate v) eqn:Hlo; cbn [negb res_bind]; [|done].
    rewrite appendEscapedRune_spec by by apply surrogate_decode_range. do 2 f_equal. lia.
  - destruct (is_low_surrogate u); [done|]. cbn [res_bind].
    by rewrite appendEscapedRune_spec by (unfold MaxRune; lia).
Qed.

Lemma appendEscape_ref i out :
  (i < length src)%nat ->
  appendEscape src i out =
  match esc_ref (drop i src) with
  | EscOk n dec => Ok ((i + n)%nat, out ++ dec)
  | EscErr m => Err (syntax_at src (i - 1) m)
  end.
Proof using.
  intros Hi. unfold appendEscape. at_pos src i as c E; [|apply lookup_ge_None in E; lia].
  destruct (Z.eqb_spec c "u"%ch) as [->|Hu].
  { cbn [Z.eqb Pos.eqb orb]. by apply parseUnicodeEscape_ref. }
  rewrite (lookup_Some_drop _ _ _ E). cbn [esc_ref]. rewrite (if_false (c =? "u"%ch)) by lia.
  unfold is_simple_escape, simple_escape_value.
  destruct (Z.eqb_spec c DQUOTE) as [->|]; [cbn; do 2 f_equal; lia|].
  destruct (Z.eqb_spec c BSLASH) as [->|]; [cbn; do 2 f_equal; lia|].
  destruct (Z.eqb_spec c "/"%ch) as [->|]; [cbn; do 2 f_equal; lia|]. cbn [orb].
  destruct (Z.eqb_spec c "b"%ch) as [->|]; [cbn; do 2 f_equal; lia|].
  destruct (Z.eqb_spec c "f"%ch) as [->|]; [cbn; do 2 f_equal; lia|].
  destruct (Z.eqb_spec c "n"%ch) as [->|]; [cbn; do 2 f_equal; lia|].
  destruct (Z.eqb_spec c "r"%ch) as [->|]; [cbn; do 2 f_equal; lia|].
  destruct (Z.eqb_spec c "t"%ch) as [->|]; [cbn; do 2 f_equal; lia|]. done.
Qed.

Lemma p_string_loop_ref fuel start i chunk out :
  (start <= chunk <= i)%nat -> (i <= length src)%nat -> (length src - i < fuel)%nat ->
  (out = None -> chunk = start) ->
  p_string_loop src fuel start i chunk out =
  as_syntax src id (str_at src i (default [] out ++ slice src chunk i)).
Proof using Hsrc.
  revert i chunk out. induction fuel as [|fuel IH]; intros i chunk out Hc Hi Hf Hnone; [lia|].
  cbn [p_string_loop]. fold (unicode_guard i). set (acc := default [] out ++ slice src chunk i).
  destruct (unicode_guard i) eqn:Hg.
  { destruct (escape_run_spec i acc Hi) as [Hr Hp]. specialize (Hp Hg). cbv zeta.
  destruct (appendUnicodeEscapeRun src i acc) as [[k o]|e| |]; [|  |done|done].
  - destruct Hr as [Hk ->]. specialize (Hp _ _ eq_refl). cbn [res_bind].
    rewrite IH by (lia || done). cbn [default]. by rewrite slice_refl, app_nil_r.
  - destruct Hr as (o & m & -> & ->). done. }
    clear Hg. destruct (at_byte src i BSLASH) eqn:Hbs.
  - apply at_byte_spec in Hbs. rewrite Hbs. cbn [Z.eqb Pos.eqb]. cbv zeta. fold acc.
    destruct (Nat.leb_spec (length src) (S i)).
    { by rewrite str_at_escape_end. }
    rewrite str_at_escape by done. rewrite appendEscape_ref by done.
    destruct (esc_ref (drop (S i) src)) as [n d|m] eqn:He; cbn [res_bind].
    + apply esc_ok_bound in He; [|lia]. rewrite IH by (lia || done). cbn [default id].
      by rewrite slice_refl, app_nil_r.
    + simpl Nat.sub. by rewrite Nat.sub_0_r.
  - rewrite (str_at_special src Hsrc i acc Hi), scanStringSpecial_spec by done.
    pose proof (advance_le (fun c => negb (is_string_special c)) src i Hi) as Hj.
    destruct (advance_span (fun c => negb (is_string_special c)) src i Hi) as (s & _ & _ & Hst).
    set (j := advance _ src i) in *. rewrite stops_lookup in Hst.
    assert (Hacc : acc ++ slice src i j = default [] out ++ slice src chunk j).
    { unfold acc. by rewrite <- app_assoc, <- slice_app by lia. }
    rewrite Hacc. clear Hacc acc. at_pos src j as c E.
    2:{ rewrite str_at_end by by apply lookup_ge_None. apply lookup_ge_None in E.
    by replace j with (length src) by lia. }
    apply lookup_lt_Some in E as Hlt. destruct (Z.eqb_spec c DQUOTE) as [->|Hq].
    { rewrite str_at_quote by done. destruct out as [o|]; [done|]. by rewrite (Hnone eq_refl). }
    destruct (Z.eqb_spec c BSLASH) as [->|Hb].
    { cbv zeta. destruct (Nat.leb_spec (length src) (S j)); [by rewrite str_at_escape_end|].
    rewrite str_at_escape by done. rewrite appendEscape_ref by done.
    destruct (esc_ref (drop (S j) src)) as [n d|m] eqn:He; cbn [res_bind].
  - apply esc_ok_bound in He; [|lia]. rewrite IH by (lia || done). cbn [default id].
    by rewrite slice_refl, app_nil_r.
  - simpl Nat.sub. by rewrite Nat.sub_0_r. }
    destruct (Z.ltb_spec c 0x20); [by rewrite (str_at_control _ _ _ _ E)|].
    assert (128 <= c) by (unfold is_string_special in Hst; lia).
    pose proof (str_at_unicode src Hsrc j c (default [] out ++ slice src chunk j) E ltac:(done)) as Hu.
    destruct (scanStringUnicodeRun src j) as [next [bad|]]; destruct Hu as [Hu ->]; [done|].
    rewrite IH by (lia || done). by rewrite <- app_assoc, <- slice_app by lia.
Qed.

Lemma p_parseString_ref i :
  (i < length src)%nat -> p_parseString src i = as_syntax src id (ref_str src i).
Proof using Hsrc.
  intros Hi. unfold p_parseString. rewrite p_string_loop_ref by (lia || done).
  cbn [default]. rewrite slice_refl. done.
Qed.
End ParserRefine.

(** ** Properties *)

(** C33: the materializing parser's string reader, with its word-at-a-time escape run, returns the decoded content and the end of every string token, and on anything else reports the validator's own error. *)
Theorem p_parseString_decodes src i :
  bytes_ok src -> src !! i = Some DQUOTE ->
  (forall token dec j, jstring token dec -> span src i token j -> p_parseString src i = Ok (j, dec)) /\
  (forall j dec, p_parseString src i = Ok (j, dec) -> exists token, span src i token j /\ jstring token dec) /\
  (forall e, p_parseString src i = Err e <-> parseString src i = Err e).
Proof.
  intros Hok Hi. pose proof (lookup_lt_Some _ _ _ Hi) as Hlt.
  rewrite p_parseString_ref, parseString_ref by done. pose proof (ref_str_sound src Hok i Hi) as Hs. split_and!.
  - intros token dec j Hj Hsp. by rewrite (ref_str_complete src token dec i j Hj Hsp).
  - intros j dec. destruct (ref_str src i) as [[k d]|[o m]| |]; cbn [as_syntax]; intros; simplify_eq.
    destruct Hs as (_ & s & Hsp & Hj). by exists s.
  - intros e. destruct (ref_str src i) as [[k d]|[o m]| |]; cbn [as_syntax]; split; intros H; by simplify_eq.
Qed.

Lemma p_parseString_decodes_witness :
  let src := js "'\u00e9\ud83d\ude00\n'" in
  (forall token dec j, jstring token dec -> span src 0 token j -> p_parseString src 0 = Ok (j, dec)) /\
  (forall j dec, p_parseString src 0 = Ok (j, dec) -> exists token, span src 0 token j /\ jstring token dec) /\
  (forall e, p_parseString src 0 = Err e <-> parseString src 0 = Err e).
Proof. apply (p_parseString_decodes _ 0); [concrete_bytes|reflexivity]. Defined.
