(* ===== verification/Layout.v ===== *)
(** Renderings of a tree: the same tokens with whitespace chosen per nesting
    level.  The compact text and the indented text are both renderings, and every
    rendering reads back as the same tree, up to the text of its containers. *)

From S2P Require Import Prelude Words Utf8 Scanner Lex Grammar.

(** ** Induction on trees *)

Section TreeInd.
Context (P : tree -> Prop).
Hypothesis Hnull : P TNull.
Hypothesis Hbool : forall b, P (TBool b).
Hypothesis Hnum : forall raw, P (TNum raw).
Hypothesis Hstr : forall raw dec, P (TStr raw dec).
Hypothesis Harr : forall raw ts, Forall P ts -> P (TArr raw ts).
Hypothesis Hobj : forall raw ms, Forall (fun m => P m.2) ms -> P (TObj raw ms).

Fixpoint tree_nested_ind (t : tree) : P t :=
  match t with
  | TNull => Hnull
  | TBool b => Hbool b
  | TNum raw => Hnum raw
  | TStr raw dec => Hstr raw dec
  | TArr raw ts =>
    Harr raw ts ((fix go l : Forall P l :=
    match l with [] => Forall_nil_2 _ | x :: l' => Forall_cons_2 _ _ _ (tree_nested_ind x) (go l') end) ts)
  | TObj raw ms =>
    Hobj raw ms ((fix go l : Forall (fun m => P m.2) l :=
    match l with [] => Forall_nil_2 _ | x :: l' => Forall_cons_2 _ _ _ (tree_nested_ind x.2) (go l') end) ms)
  end.
End TreeInd.

(** The tree without the text of its containers: what whitespace cannot change. *)
Fixpoint erase (t : tree) : tree :=
  match t with
  | TArr _ ts => TArr [] (map erase ts)
  | TObj _ ms => TObj [] (map (fun m => (m.1, erase m.2)) ms)
  | _ => t
  end.

Fixpoint intercalate (sep : bytes) (l : list bytes) : bytes :=
  match l with
  | [] => []
  | [x] => x
  | x :: l' => x ++ sep ++ intercalate sep l'
  end.

Lemma intercalate_cons sep x l :
  intercalate sep (x :: l) = x ++ match l with [] => [] | _ => sep ++ intercalate sep l end.
Proof. destruct l; simpl; [by rewrite app_nil_r|done]. Qed.

Section Render.
Context (sp : nat -> bytes) (colon : bytes).

(** [render d t]: the text of [t] at nesting level [d]. *)
Fixpoint render (d : nat) (t : tree) : bytes :=
  match t with
  | TArr _ [] => ["["%ch; "]"%ch]
  | TArr _ ts =>
    "["%ch :: (sp (S d) ++ intercalate (","%ch :: sp (S d)) (map (render (S d)) ts) ++ sp d) ++ ["]"%ch]
  | TObj _ [] => ["{"%ch; "}"%ch]
  | TObj _ ms =>
    "{"%ch :: (sp (S d) ++
    intercalate (","%ch :: sp (S d)) (map (fun m => m.1.1 ++ ":"%ch :: colon ++ render (S d) m.2) ms) ++
    sp d) ++ ["}"%ch]
  | _ => raw_of t
  end.

Definition render_member (d : nat) (m : (bytes * bytes) * tree) : bytes :=
  m.1.1 ++ ":"%ch :: colon ++ render d m.2.

Lemma render_erase t : forall d, render d (erase t) = render d t.
Proof using.
  induction t as [| | | |raw ts IH|raw ms IH] using tree_nested_ind; intros d; try done.
  - destruct IH as [|x ts Hx IH]; [done|]. cbn [erase map render]. do 4 f_equal. f_equal.
    rewrite Hx. f_equal. rewrite map_map. apply map_ext_Forall. eapply Forall_impl; [exact IH|]. auto.
  - destruct IH as [|x ms Hx IH]; [done|]. cbn [erase map render]. do 4 f_equal. f_equal.
    cbn [fst snd]. rewrite Hx. f_equal. rewrite map_map. apply map_ext_Forall.
    eapply Forall_impl; [exact IH|]. intros y Hy. cbn [fst snd]. by rewrite Hy.
Qed.

Hypothesis Hsp : forall d, ws (sp d).
Hypothesis Hcolon : ws colon.

Definition reread_value (k : Z) (s : bytes) (t : tree) : Prop :=
  forall d, exists t', jvalue k (render d t) t' /\ erase t' = erase t.

Definition reread_elems (k : Z) (s : bytes) (ts : list tree) : Prop :=
  forall d w w1, ws w -> ws w1 ->
  exists ts', jelems k (w1 ++ intercalate (","%ch :: w1) (map (render d) ts) ++ w) ts' /\
  map erase ts' = map erase ts.

Definition erase_member (m : (bytes * bytes) * tree) := (m.1, erase m.2).

Definition reread_members (k : Z) (s : bytes) (ms : list ((bytes * bytes) * tree)) : Prop :=
  forall d w w1, ws w -> ws w1 ->
  exists ms', jmembers k (w1 ++ intercalate (","%ch :: w1) (map (render_member d) ms) ++ w) ms' /\
  map erase_member ms' = map erase_member ms.

Lemma reread_one k w1 s t w2 : reread_value k s t -> reread_elems k (w1 ++ s ++ w2) [t].
Proof using.
  intros H d w v Hw Hv. destruct (H d) as (t' & Ht & He). exists [t']. simpl. split; [by constructor|by rewrite He].
Qed.

Lemma jelems_nonempty k s ts : jelems k s ts -> ts <> [].
Proof using. by destruct 1. Qed.
Lemma jmembers_nonempty k s ms : jmembers k s ms -> ms <> [].
Proof using. by destruct 1. Qed.

Lemma reread_cons k w1 s t w2 rest ts :
  reread_value k s t -> ts <> [] -> reread_elems k rest ts ->
  reread_elems k (w1 ++ s ++ w2 ++ ","%ch :: rest) (t :: ts).
Proof using.
  intros H Hne HQ d w v Hw Hv. destruct (H d) as (t' & Ht & He). destruct (HQ d w v Hw Hv) as (ts' & Hts & Hes).
  exists (t' :: ts'). split; [|simpl; by rewrite He, Hes]. cbn [map]. rewrite intercalate_cons.
  destruct ts as [|u ts]; [done|]. cbn [map]. rewrite <- !app_assoc.
  change ((","%ch :: v) ++ ?x) with (","%ch :: v ++ x).
  rewrite <- (app_nil_l (","%ch :: _)). apply je_cons; [done|done|constructor|done].
Qed.

Lemma reread_member_one k w1 key name w2 w3 s t w4 :
  jstring key name -> reread_value k s t ->
  reread_members k (w1 ++ key ++ w2 ++ ":"%ch :: w3 ++ s ++ w4) [((key, name), t)].
Proof using Hcolon.
  intros Hk H d w v Hw Hv. destruct (H d) as (t' & Ht & He). exists [((key, name), t')].
  split; [|unfold erase_member; simpl; by rewrite He]. cbn [map intercalate]. unfold render_member. cbn [fst snd].
  rewrite <- !app_assoc. cbn [app]. rewrite <- !app_assoc.
  apply (jm_one k v key name [] colon (render d t) t' w); (done || constructor).
Qed.

Lemma reread_member_cons k w1 key name w2 w3 s t w4 rest ms :
  jstring key name -> reread_value k s t -> ms <> [] -> reread_members k rest ms ->
  reread_members k (w1 ++ key ++ w2 ++ ":"%ch :: w3 ++ s ++ w4 ++ ","%ch :: rest) (((key, name), t) :: ms).
Proof using Hcolon.
  intros Hk H Hne HQ d w v Hw Hv. destruct (H d) as (t' & Ht & He). destruct (HQ d w v Hw Hv) as (ms' & Hms & Hes).
  exists (((key, name), t') :: ms'). split; [|unfold erase_member in *; simpl; by rewrite He, Hes].
  cbn [map]. rewrite intercalate_cons. destruct ms as [|u ms]; [done|]. cbn [map].
  unfold render_member at 1. cbn [fst snd]. rewrite <- !app_assoc. cbn [app]. rewrite <- !app_assoc. cbn [app].
  apply (jm_cons k v key name [] colon (render d t) t' []); (done || constructor).
Qed.

Lemma reread_all :
  (forall k s t, jvalue k s t -> reread_value k s t) /\
  (forall k s ts, jelems k s ts -> reread_elems k s ts) /\
  (forall k s ms, jmembers k s ms -> reread_members k s ms).
Proof using Hsp Hcolon.
  apply jvalue_mutind; intros.
  1-5: intros d; eexists; split; [by constructor|done].
  - intros d. exists (TArr ["["%ch; "]"%ch] []). split; [|done]. apply (jv_arr0 k []); [done|constructor].
  - intros d. destruct (H (S d) (sp d) (sp (S d))) as (ts' & Hts & He); [done..|].
    destruct ts as [|u ts]; [by apply jelems_nonempty in j|].
    eexists. split; [apply (jv_arr k _ ts'); [done|exact Hts]|]. cbn [erase]. by rewrite He.
  - intros d. exists (TObj ["{"%ch; "}"%ch] []). split; [|done]. apply (jv_obj0 k []); [done|constructor].
  - intros d. destruct (H (S d) (sp d) (sp (S d))) as (ms' & Hms & He); [done..|].
    destruct ms as [|u ms]; [by apply jmembers_nonempty in j|].
    eexists. split; [apply (jv_obj k _ ms'); [done|exact Hms]|]. cbn [erase]. f_equal. exact He.
  - by apply reread_one.
  - apply reread_cons; [done|by eapply jelems_nonempty|done].
  - by apply reread_member_one.
  - apply reread_member_cons; [done|done|by eapply jmembers_nonempty|done].
Qed.

(** Every rendering of a value is a value with the same tokens. *)
Lemma render_reads k s t d : jvalue k s t -> exists t', jvalue k (render d t) t' /\ erase t' = erase t.
Proof using Hsp Hcolon. intros H. by apply (proj1 reread_all k s t H). Qed.
End Render.

(** ** Texts of the grammar are byte strings *)

Lemma ws_bytes w : ws w -> bytes_ok w.
Proof.
  intros H. eapply Forall_impl; [exact H|]. unfold IsJSONWhitespace, is_byte. intros. lia.
Qed.

Lemma digits_bytes s : digits s -> bytes_ok s.
Proof. intros H. eapply Forall_impl; [exact H|]. unfold IsDigit, is_byte. intros. lia. Qed.

Lemma is_hex_byte c : is_hex c = true -> is_byte c.
Proof. unfold is_hex, hexNibbleTable, is_byte. intros. repeat case_step_in H; lia. Qed.

Lemma hex_of_bytes a b c d u : hex_of [a; b; c; d] = Some u -> bytes_ok [a; b; c; d].
Proof.
  simpl. destruct (is_hex a && is_hex b && is_hex c && is_hex d) eqn:E; [|done]. intros _.
  rewrite !andb_true_iff in E. destruct E as [[[? ?] ?] ?]. repeat constructor; by apply is_hex_byte.
Qed.

Lemma jchar_bytes c d : jchar c d -> bytes_ok c.
Proof.
  destruct 1 as [c Hc|r Hr Hh|e He|a b c d u Hu _|a b c d e f g h u v Hu _ Hv _].
  - constructor; [|done]. unfold is_string_special, is_byte in *. lia.
  - by apply encode_rune_bytes.
  - repeat constructor; unfold is_simple_escape in He; unfold is_byte; lia.
  - apply hex_of_bytes in Hu. do 2 (constructor; [done|]). exact Hu.
  - apply hex_of_bytes in Hu, Hv.
    change (bytes_ok ([BSLASH; "u"%ch] ++ [a; b; c; d] ++ [BSLASH; "u"%ch] ++ [e; f; g; h])).
    rewrite !Forall_app. split_and!; [by repeat constructor|done|by repeat constructor|done].
Qed.

Lemma jstring_bytes s dec : jstring s dec -> bytes_ok s.
Proof.
  destruct 1 as [s dec H]. constructor; [done|]. apply Forall_app. split; [|by repeat constructor].
  induction H as [|c d s dec Hc _ IH]; [constructor|]. apply Forall_app. split; [by eapply jchar_bytes|done].
Qed.

Lemma jnumber_bytes s : jnumber s -> bytes_ok s.
Proof.
  destruct 1 as [sg int frac exp Hsg Hi Hf He]. rewrite !Forall_app. split_and!.
  - destruct Hsg as [->| ->]; by repeat constructor.
  - destruct Hi as [|c s Hc Hs]; [by repeat constructor|]. constructor; [|by apply digits_bytes].
    unfold isOneNine, is_byte in *. lia.
  - destruct Hf as [|s Hs _]; [constructor|]. constructor; [done|by apply digits_bytes].
  - destruct He as [|e sg' s Hee Hsg' Hs _]; [constructor|].
    constructor; [destruct Hee; by subst|]. apply Forall_app. split; [|by apply digits_bytes].
    destruct Hsg' as [->|[->| ->]]; by repeat constructor.
Qed.

Lemma jvalue_bytes_all :
  (forall k s t, jvalue k s t -> bytes_ok s) /\ (forall k s ts, jelems k s ts -> bytes_ok s) /\
  (forall k s ms, jmembers k s ms -> bytes_ok s).
Proof.
  apply jvalue_mutind; intros;
    repeat first [apply Forall_app; split | constructor
                 | by apply ws_bytes | by eapply jstring_bytes | by apply jnumber_bytes | done].
Qed.

Lemma jdoc_bytes k src t : jdoc k src t -> bytes_ok src.
Proof.
  intros (w1 & s & w2 & -> & Hw1 & Hv & Hw2). rewrite !Forall_app.
  split_and!; [by apply ws_bytes|by apply (proj1 jvalue_bytes_all _ _ _ Hv)|by apply ws_bytes].
Qed.
