(* ===== verification/Decode.v ===== *)
(** [strings_decode.go], [strings_decode_checked_default.go] and the escaped
    string comparisons of [node.go] and [contains.go]: four independent decoders
    of JSON string contents.  An index out of range is [Panic]. *)

From S2P Require Import Prelude Words Utf8 Scanner Lex Grammar StringRef FastValid ParserString.

Definition idx (l : bytes) (i : nat) : res unit Z :=
  match l !! i with Some c => Ok c | None => Panic end.

(** [bytes.IndexByte]. *)
Fixpoint IndexByte (l : bytes) (b : Z) : option nat :=
  match l with
  | [] => None
  | c :: l' => if c =? b then Some 0%nat else option_map S (IndexByte l' b)
  end.

Definition decodedSimpleEscapes (c : Z) : Z :=
  if c =? DQUOTE then 34 else if c =? BSLASH then 92 else if c =? "/"%ch then 47
  else if c =? "b"%ch then 8 else if c =? "f"%ch then 12 else if c =? "n"%ch then 10
  else if c =? "r"%ch then 13 else if c =? "t"%ch then 9 else 0.

Definition decodeSimpleEscapeChecked (c : Z) : Z * bool :=
  let decoded := decodedSimpleEscapes c in (decoded, negb (decoded =? 0)).

Definition decodedSimpleEscape (c : Z) : Z :=
  if c =? "b"%ch then 8 else if c =? "f"%ch then 12 else if c =? "n"%ch then 10
  else if c =? "r"%ch then 13 else if c =? "t"%ch then 9 else c.

(** ** The checked decoder *)

(** The switch on the code unit, with [i] just after its four digits. *)
Definition decode_unit (dst raw : bytes) (u : Z) (i : nat) : res unit (bytes * nat * bool) :=
  if u <? 0x0800 then
    Ok (dst ++ [Z.lor 0xC0 (to_byte (Z.shiftr u 6)); Z.lor 0x80 (Z.land (to_byte u) 0x3F)], i, true)
  else if u <? 0xD800 then
    Ok (dst ++ [Z.lor 0xE0 (to_byte (Z.shiftr u 12)); Z.lor 0x80 (Z.land (to_byte (Z.shiftr u 6)) 0x3F);
                Z.lor 0x80 (Z.land (to_byte u) 0x3F)], i, true)
  else if u <=? 0xDBFF then
    if (length raw <? i + 6)%nat || negb (at_byte raw i BSLASH) || negb (at_byte raw (i + 1) "u"%ch)
    then Ok (dst, i, false)
    else
      let* a := idx raw (i + 3) in let a := hexNibbleTable a in
      let* b := idx raw (i + 4) in let b := hexNibbleTable b in
      let* c := idx raw (i + 5) in let c := hexNibbleTable c in
      let* h := idx raw (i + 2) in
      if negb (Z.lor h 0x20 =? "d"%ch) || (a <? 0xC) || (0x10 <=? Z.lor (Z.lor a b) c)
      then Ok (dst, i, false)
      else
        let lo := Z.lor (Z.lor (Z.lor 0xD000 (Z.shiftl a 8)) (Z.shiftl b 4)) c in
        let r := w32 (0x10000 + Z.shiftl (u - 0xD800) 10 + lo - 0xDC00) in
        Ok (dst ++ [Z.lor 0xF0 (to_byte (Z.shiftr r 18)); Z.lor 0x80 (Z.land (to_byte (Z.shiftr r 12)) 0x3F);
                    Z.lor 0x80 (Z.land (to_byte (Z.shiftr r 6)) 0x3F); Z.lor 0x80 (Z.land (to_byte r) 0x3F)],
            (i + 6)%nat, true)
  else if u <=? 0xDFFF then Ok (dst, i, false)
  else
    Ok (dst ++ [Z.lor 0xE0 (to_byte (Z.shiftr u 12)); Z.lor 0x80 (Z.land (to_byte (Z.shiftr u 6)) 0x3F);
                Z.lor 0x80 (Z.land (to_byte u) 0x3F)], i, true).

(** One turn of the loop, at a backslash followed by [u]. *)
Definition decode_escape (dst raw : bytes) (i : nat) : res unit (bytes * nat * bool) :=
  let escape := (i + 1)%nat in
  if (length raw <? escape + 5)%nat then Ok (dst, i, false)
  else
    let slow :=
      let (u, ok) := hex4 raw (escape + 1) in
      if negb ok then Ok (dst, i, false) else decode_unit dst raw u (escape + 5) in
    let* c1 := idx raw (escape + 1) in
    let* c2 := idx raw (escape + 2) in
    if (c1 =? "0"%ch) && (c2 =? "0"%ch) then
      let* h := idx raw (escape + 3) in
      let* l := idx raw (escape + 4) in
      let hi := to_byte (h - "0"%ch) in
      let lo := hexNibbleTable l in
      if (hi <? 8) && (lo <? 0x10) then Ok (dst ++ [Z.lor (Z.shiftl hi 4) lo], (escape + 5)%nat, true)
      else if 0x10 <=? Z.lor (hexNibbleTable h) lo then Ok (dst, i, false)
      else slow
    else slow.

Fixpoint decoded_run (fuel : nat) (dst raw : bytes) (i : nat) : res unit (bytes * nat * bool) :=
  match fuel with
  | O => NoFuel
  | S fuel =>
      if at_byte raw i BSLASH && at_byte raw (i + 1) "u"%ch then
        let* (dst, i, ok) := decode_escape dst raw i in
        if ok then decoded_run fuel dst raw i else Ok (dst, i, false)
      else Ok (dst, i, true)
  end.

Definition appendDecodedUnicodeEscapeRun (dst raw : bytes) (i : nat) : res unit (bytes * nat * bool) :=
  decoded_run (S (length raw)) dst raw i.

(** [append(dst[:start], raw...)]: give up and append the input unchanged. *)
Definition give_back (dst raw : bytes) (start : nat) : res unit bytes := Ok (take start dst ++ raw).

(** The clean run before the next backslash in a short-run stretch: its end, and
    the adapted flag; [None] when no backslash is left. *)
Definition next_backslash (raw : bytes) (i : nat) : option (nat * bool) :=
  let remaining := (length raw - i)%nat in
  if (remaining <? 8)%nat then
    let next := advance (fun c => negb (c =? BSLASH)) raw i in
    if (next =? length raw)%nat then None else Some (next, true)
  else
    let mask := byteEqMask (load64 raw i) BSLASH in
    if negb (mask =? 0) then Some ((i + Z.to_nat (TrailingZeros64 mask / 8))%nat, true)
    else
      match IndexByte (drop (i + 8) raw) BSLASH with
      | None => None
      | Some offset => Some ((i + (8 + offset))%nat, false)
      end.

Fixpoint dense_loop (fuel : nat) (dst raw : bytes) (start i : nat) (shortRuns : bool) : res unit bytes :=
  match fuel with
  | O => NoFuel
  | S fuel =>
      if (i <? length raw - 1)%nat then
        let* c := idx raw i in
        if negb (c =? BSLASH) then
          if negb shortRuns then
            match IndexByte (drop i raw) BSLASH with
            | None => Ok (dst ++ drop i raw)
            | Some offset =>
                dense_loop fuel (dst ++ slice raw i (i + offset)) raw start (i + offset) (offset <? 8)%nat
            end
          else
            match next_backslash raw i with
            | None => Ok (dst ++ drop i raw)
            | Some (next, short) => dense_loop fuel (dst ++ slice raw i next) raw start next short
            end
        else
          let escape := (i + 1)%nat in
          let* c := idx raw escape in
          if c =? "u"%ch then
            let* (dst, i, ok) := appendDecodedUnicodeEscapeRun dst raw i in
            if negb ok then give_back dst raw start else dense_loop fuel dst raw start i shortRuns
          else
            let (decoded, ok) := decodeSimpleEscapeChecked c in
            if negb ok then give_back dst raw start
            else
              let dst := dst ++ [decoded] in
              let i := (escape + 1)%nat in
              if negb shortRuns && (i <? length raw)%nat && negb (at_byte raw i BSLASH) then
                match IndexByte (drop i raw) BSLASH with
                | None => Ok (dst ++ drop i raw)
                | Some offset =>
                    dense_loop fuel (dst ++ slice raw i (i + offset)) raw start (i + offset) (offset <? 8)%nat
                end
              else dense_loop fuel dst raw start i shortRuns
      else if (i =? length raw)%nat then Ok dst
      else
        let* c := idx raw i in
        if negb (c =? BSLASH) then Ok (dst ++ drop i raw) else give_back dst raw start
  end.

Definition appendDecodedJSONStringDense (dst raw : bytes) (start i : nat) : res unit bytes :=
  dense_loop (S (length raw)) dst raw start i true.

(** One escape at [i], in the compact loop: unicode run or simple escape. *)
Definition checked_escape (dst raw : bytes) (i : nat) : res unit (bytes * nat * bool) :=
  let* c := idx raw (i + 1) in
  if c =? "u"%ch then appendDecodedUnicodeEscapeRun dst raw i
  else
    let (decoded, ok) := decodeSimpleEscapeChecked c in
    if negb ok then Ok (dst, i, false) else Ok (dst ++ [decoded], (i + 2)%nat, true).

Fixpoint checked_loop (fuel : nat) (dst raw : bytes) (start i : nat) : res unit bytes :=
  match fuel with
  | O => NoFuel
  | S fuel =>
      if (i <? length raw)%nat then
        if negb (at_byte raw i BSLASH) then
          match IndexByte (drop i raw) BSLASH with
          | None => Ok (dst ++ drop i raw)
          | Some offset =>
              let dst := dst ++ slice raw i (i + offset) in
              let i := (i + offset)%nat in
              if (offset <? 8)%nat then appendDecodedJSONStringDense dst raw start i
              else checked_loop fuel dst raw start i
          end
        else if (length raw <=? i + 1)%nat then give_back dst raw start
        else
          let* (dst, i, ok) := checked_escape dst raw i in
          if negb ok then give_back dst raw start else checked_loop fuel dst raw start i
      else Ok dst
  end.

Definition AppendDecodedJSONString (dst raw : bytes) : res unit bytes :=
  if (length raw =? 0)%nat then Ok dst
  else
    let start := length dst in
    let from (dst : bytes) (i : nat) :=
      if (length raw <=? i + 1)%nat then give_back dst raw start
      else
        let* (dst, i, ok) := checked_escape dst raw i in
        if negb ok then give_back dst raw start else checked_loop (S (length raw)) dst raw start i in
    if negb (at_byte raw 0 BSLASH) then
      match IndexByte (drop 1 raw) BSLASH with
      | None => Ok (dst ++ raw)
      | Some offset =>
          let i := (offset + 1)%nat in
          let dst := dst ++ take i raw in
          if (i <? 8)%nat then appendDecodedJSONStringDense dst raw start i else from dst i
      end
    else from dst 0%nat.

(** ** The trusted decoders

    They run only on contents the validator accepted. *)

(** The rune of a unicode escape whose backslash is at [i - 1], and the position
    after it; shared by the four trusted decoders. *)
Definition trusted_unicode (raw : bytes) (i : nat) : nat * Z :=
  let u := (hex4 raw (i + 1)).1 in
  let i := (i + 5)%nat in
  if (0xD800 <=? u) && (u <=? 0xDBFF) then
    let lo := (hex4 raw (i + 2)).1 in ((i + 6)%nat, DecodeSurrogates u lo)
  else (i, u).

Fixpoint trusted_loop (fuel : nat) (dst raw : bytes) (i : nat) : res unit bytes :=
  match fuel with
  | O => NoFuel
  | S fuel =>
      if (i <? length raw)%nat then
        if negb (at_byte raw i BSLASH) then
          match IndexByte (drop i raw) BSLASH with
          | None => Ok (dst ++ drop i raw)
          | Some j => trusted_loop fuel (dst ++ slice raw i (i + j)) raw (i + j)
          end
        else
          let i := S i in
          let* c := idx raw i in
          if negb (c =? "u"%ch) then trusted_loop fuel (dst ++ [decodedSimpleEscape c]) raw (S i)
          else
            let (i, r) := trusted_unicode raw i in
            trusted_loop fuel (AppendRune dst r) raw i
      else Ok dst
  end.

Definition appendDecodedJSONStringTrusted (dst raw : bytes) : res unit bytes :=
  trusted_loop (S (length raw)) dst raw 0.

(** [tapeKeyEqual] (node.go): compare the contents [raw] of an escaped key with a
    decoded key. *)
Fixpoint key_equal_loop (fuel : nat) (raw key : bytes) (i ki : nat) : res unit bool :=
  match fuel with
  | O => NoFuel
  | S fuel =>
      if (i <? length raw)%nat then
        let* c := idx raw i in
        if negb (c =? BSLASH) then
          if negb (at_byte key ki c) then Ok false else key_equal_loop fuel raw key (S i) (S ki)
        else
          let i := S i in
          let* c := idx raw i in
          if negb (c =? "u"%ch) then
            if negb (at_byte key ki (decodedSimpleEscape c)) then Ok false
            else key_equal_loop fuel raw key (S i) (S ki)
          else
            let (i, r) := trusted_unicode raw i in
            let encoded := EncodeRune r in
            let n := length encoded in
            if (length key <? ki + n)%nat || negb (bool_decide (encoded = slice key ki (ki + n))) then Ok false
            else key_equal_loop fuel raw key i (ki + n)
      else Ok (ki =? length key)%nat
  end.

Definition TapeFlagEscaped : Z := 1.

(** [raw[1:len(raw)-1]]. *)
Definition inner (raw : bytes) : bytes := slice raw 1 (length raw - 1).

Definition tapeKeyEqual (raw : bytes) (flags : Z) (key : bytes) : res unit bool :=
  if Z.land flags TapeFlagEscaped =? 0 then Ok (bool_decide (inner raw = key))
  else key_equal_loop (S (length raw)) (inner raw) key 0 0.

(** [JSONStringByteIter]: the state of the iterator and one step. *)
Record byte_iter : Type := mkIter { it_raw : bytes; it_i : nat; it_encoded : bytes; it_pos : nat }.

Definition iter_start (raw : bytes) : byte_iter := mkIter raw 0 [] 0.

Definition iter_next (it : byte_iter) : res unit (option Z * byte_iter) :=
  let raw := it_raw it in
  let i := it_i it in
  if (it_pos it <? length (it_encoded it))%nat then
    let* b := idx (it_encoded it) (it_pos it) in
    Ok (Some b, mkIter raw i (it_encoded it) (S (it_pos it)))
  else if (i =? length raw)%nat then Ok (None, it)
  else
    let* b := idx raw i in
    if negb (b =? BSLASH) then Ok (Some b, mkIter raw (S i) (it_encoded it) (it_pos it))
    else
      let i := S i in
      let* c := idx raw i in
      if negb (c =? "u"%ch) then
        Ok (Some (decodedSimpleEscape c), mkIter raw (S i) (it_encoded it) (it_pos it))
      else
        let (i, r) := trusted_unicode raw i in
        let encoded := EncodeRune r in
        let* b := idx encoded 0 in
        Ok (Some b, mkIter raw i encoded 1).

(** The comparison loop of [RawJSONStringEqual]. *)
Fixpoint iter_equal (fuel : nat) (a b : byte_iter) : res unit bool :=
  match fuel with
  | O => NoFuel
  | S fuel =>
      let* (ab, a) := iter_next a in
      let* (bb, b) := iter_next b in
      match ab, bb with
      | Some x, Some y => if negb (x =? y) then Ok false else iter_equal fuel a b
      | None, None => Ok true
      | _, _ => Ok false
      end
  end.

Definition RawJSONStringEqual (a : bytes) (aFlags : Z) (b : bytes) (bFlags : Z) : res unit bool :=
  let aEscaped := negb (Z.land aFlags TapeFlagEscaped =? 0) in
  let bEscaped := negb (Z.land bFlags TapeFlagEscaped =? 0) in
  match aEscaped, bEscaped with
  | false, false => Ok (bool_decide (inner a = inner b))
  | false, true => tapeKeyEqual b bFlags (inner a)
  | true, false => tapeKeyEqual a aFlags (inner b)
  | true, true => iter_equal (S (length a)) (iter_start (inner a)) (iter_start (inner b))
  end.

(** [decodedJSONStringRawOffset]. *)
Fixpoint raw_offset_loop (fuel : nat) (raw : bytes) (decodedOffset : nat) (i decoded : nat) : res unit nat :=
  match fuel with
  | O => NoFuel
  | S fuel =>
      if (i <? length raw)%nat then
        if negb (at_byte raw i BSLASH) then
          let i := S i in
          let decoded := S decoded in
          if (decodedOffset <=? decoded)%nat then Ok i else raw_offset_loop fuel raw decodedOffset i decoded
        else
          let escape := i in
          let i := S i in
          let* c := idx raw i in
          if negb (c =? "u"%ch) then
            let i := S i in
            let decoded := S decoded in
            if (decodedOffset <? decoded)%nat then Ok escape
            else if (decodedOffset =? decoded)%nat then Ok i
            else raw_offset_loop fuel raw decodedOffset i decoded
          else
            let (i, r) := trusted_unicode raw i in
            let n := RuneLen r in
            if (decodedOffset <? decoded + n)%nat then Ok escape
            else
              let decoded := (decoded + n)%nat in
              if (decodedOffset =? decoded)%nat then Ok i
              else raw_offset_loop fuel raw decodedOffset i decoded
      else Ok (length raw)
  end.

Definition decodedJSONStringRawOffset (raw : bytes) (decodedOffset : Z) : res unit nat :=
  if decodedOffset <=? 0 then Ok 0%nat
  else raw_offset_loop (S (length raw)) raw (Z.to_nat decodedOffset) 0 0.

(** ** What decoding means *)

(** The reference: copy every byte but an escape, which is replaced by what it
    stands for; [None] at a malformed escape. *)
Fixpoint unesc (l : bytes) (skip : nat) : option bytes :=
  match l with
  | [] => Some []
  | c :: l' =>
      match skip with
      | S k => unesc l' k
      | O =>
          if c =? BSLASH then
            match esc_ref l' with
            | EscOk n dec => option_map (app dec) (unesc l' n)
            | EscErr _ => None
            end
          else option_map (cons c) (unesc l' 0)
      end
  end.

Definition unescape (raw : bytes) : option bytes := unesc raw 0.

Lemma unesc_skip l n : (n <= length l)%nat -> unesc l n = unesc (drop n l) 0.
Proof.
  revert n. induction l as [|c l IH]; intros n Hn.
  - simpl in Hn. by replace n with 0%nat by lia.
  - destruct n as [|n]; [by rewrite drop_0|]. cbn [unesc drop]. apply IH. simpl in Hn. lia.
Qed.

(** What is decoded from position [i] on, after [d]. *)
Definition decode_from (raw : bytes) (i : nat) (d : bytes) : option bytes :=
  option_map (app d) (unesc (drop i raw) 0).

Lemma option_map_app_app (x y : bytes) o : option_map (app x) (option_map (app y) o) = option_map (app (x ++ y)) o.
Proof. destruct o; simpl; [by rewrite app_assoc|done]. Qed.

Lemma decode_from_end raw i d : (length raw <= i)%nat -> decode_from raw i d = Some d.
Proof. intros. unfold decode_from. rewrite drop_ge by done. simpl. by rewrite app_nil_r. Qed.

Lemma decode_from_plain raw i d c :
  raw !! i = Some c -> c <> BSLASH -> decode_from raw i d = decode_from raw (S i) (d ++ [c]).
Proof.
  intros Hc Hne. unfold decode_from. rewrite (lookup_Some_drop _ _ _ Hc). cbn [unesc].
  rewrite if_false by lia. rewrite <- option_map_app_app. f_equal.
Qed.

Lemma decode_from_run raw i j d :
  (i <= j <= length raw)%nat -> Forall (fun c => c <> BSLASH) (slice raw i j) ->
  decode_from raw i d = decode_from raw j (d ++ slice raw i j).
Proof.
  intros Hij. remember (j - i)%nat as n eqn:Hn. revert i d Hij Hn.
  induction n as [|n IH]; intros i d Hij Hn Hf.
  - replace j with i by lia. by rewrite slice_refl, app_nil_r.
  - destruct (lookup_lt_is_Some_2 raw i) as [c Hc]; [lia|].
    rewrite (slice_cons raw i j c) in Hf |- * by (done || lia). inversion Hf as [|? ? H1 H2]; subst.
    rewrite (decode_from_plain raw i d c Hc H1). rewrite (IH (S i)); [|lia|lia|done].
    by rewrite <- app_assoc.
Qed.

Lemma decode_from_escape raw i d :
  raw !! i = Some BSLASH ->
  decode_from raw i d =
    match esc_ref (drop (S i) raw) with
    | EscOk n dec => decode_from raw (S i + n) (d ++ dec)
    | EscErr _ => None
    end.
Proof.
  intros Hb. unfold decode_from. rewrite (lookup_Some_drop _ _ _ Hb). cbn [unesc].
  cbn [Z.eqb Pos.eqb]. apply lookup_lt_Some in Hb.
  destruct (esc_ref (drop (S i) raw)) as [n dec|m] eqn:He; [|done].
  apply esc_ok_bound in He; [|lia]. rewrite unesc_skip by (rewrite length_drop; lia).
  by rewrite drop_drop, option_map_app_app.
Qed.

Lemma unesc_app_run s t :
  Forall (fun c => c <> BSLASH) s -> unesc (s ++ t) 0 = option_map (app s) (unesc t 0).
Proof.
  induction 1 as [|c s Hc _ IH]; [simpl; by destruct (unesc t 0)|]. cbn [app unesc]. rewrite if_false by lia.
  rewrite IH. by destruct (unesc t 0).
Qed.

(** String contents of the grammar decode to what the grammar says. *)
Lemma unesc_jchars s dec : jchars s dec -> unesc s 0 = Some dec.
Proof.
  induction 1 as [|c d s dec Hc Hs IH]; [done|].
  assert (Hplain : forall t, Forall (fun x => x <> BSLASH) t -> unesc (t ++ s) 0 = Some (t ++ dec)).
  { intros t Ht. by rewrite unesc_app_run, IH by done. }
  assert (Hesc : forall t d, jchar (BSLASH :: t) d -> t <> [] -> unesc ((BSLASH :: t) ++ s) 0 = Some (d ++ dec)).
  { intros t d' Ht Hne. cbn [app unesc]. cbn [Z.eqb Pos.eqb]. rewrite (esc_ref_complete _ s _ Ht).
    rewrite unesc_skip by (rewrite length_app; lia). by rewrite drop_app_length, IH. }
  pose proof Hc as Hc'. destruct Hc' as [c Hsp|r Hr Hh| | |]; try (by apply Hesc).
  - apply Hplain. constructor; [|done]. unfold is_string_special in Hsp. lia.
  - apply Hplain. eapply Forall_impl; [by apply encode_rune_high|]. simpl. lia.
Qed.

Lemma IndexByte_spec l b :
  match IndexByte l b with
  | Some n => l !! n = Some b /\ Forall (fun c => c <> b) (take n l)
  | None => Forall (fun c => c <> b) l
  end.
Proof.
  induction l as [|c l IH]; simpl; [constructor|]. destruct (Z.eqb_spec c b) as [->|Hne]; [done|].
  destruct (IndexByte l b); simpl; [|by constructor]. destruct IH. split; [done|]. by constructor.
Qed.

Lemma IndexByte_at raw i :
  (i <= length raw)%nat ->
  match IndexByte (drop i raw) BSLASH with
  | Some n => raw !! (i + n)%nat = Some BSLASH /\ Forall (fun c => c <> BSLASH) (slice raw i (i + n))
  | None => Forall (fun c => c <> BSLASH) (drop i raw)
  end.
Proof.
  intros Hi. pose proof (IndexByte_spec (drop i raw) BSLASH) as H.
  destruct (IndexByte (drop i raw) BSLASH) as [n|]; [|done]. rewrite lookup_drop in H.
  unfold slice. by replace (i + n - i)%nat with n by lia.
Qed.

Lemma decode_from_rest raw i d :
  (i <= length raw)%nat -> Forall (fun c => c <> BSLASH) (drop i raw) ->
  decode_from raw i d = Some (d ++ drop i raw).
Proof.
  intros Hi Hf. rewrite (decode_from_run raw i (length raw)) by (rewrite ?slice_all; (done || lia)).
  by rewrite decode_from_end, slice_all.
Qed.

(** ** One unicode escape of the checked decoder *)

Lemma simple_escape_table c :
  decodeSimpleEscapeChecked c =
    if is_simple_escape c then (simple_escape_value c, true) else (0, false).
Proof.
  unfold decodeSimpleEscapeChecked, decodedSimpleEscapes, is_simple_escape, simple_escape_value.
  destruct (Z.eqb_spec c DQUOTE) as [->|]; [done|]. destruct (Z.eqb_spec c BSLASH) as [->|]; [done|].
  destruct (Z.eqb_spec c "/"%ch) as [->|]; [done|]. repeat case_step; (done || lia).
Qed.

Lemma decoded_simple_value c : decodedSimpleEscape c = simple_escape_value c.
Proof. done. Qed.

(** The second half of a surrogate pair, tested nibble by nibble. *)
Lemma low_nibbles h a b c :
  is_byte h -> is_byte a -> is_byte b -> is_byte c ->
  negb (negb (Z.lor h 0x20 =? "d"%ch) || (hexNibbleTable a <? 0xC) ||
        (0x10 <=? Z.lor (Z.lor (hexNibbleTable a) (hexNibbleTable b)) (hexNibbleTable c))) =
  is_hex h && is_hex a && is_hex b && is_hex c && is_low_surrogate (hex_value h a b c).
Proof.
  intros Hh Ha Hb Hc.
  assert (E : (Z.lor h 0x20 =? "d"%ch) = (hexNibbleTable h =? 13)).
  { pose proof (all_bytes_spec (fun h => Bool.eqb (Z.lor h 0x20 =? "d"%ch) (hexNibbleTable h =? 13)) h eq_refl Hh) as H.
    by apply eqb_prop in H. }
  rewrite E. clear E. pose proof (hexNibble_range h). pose proof (hexNibble_range a).
  pose proof (hexNibble_range b). pose proof (hexNibble_range c). unfold is_hex, is_low_surrogate, hex_value.
  assert (Hor : (0x10 <=? Z.lor (Z.lor (hexNibbleTable a) (hexNibbleTable b)) (hexNibbleTable c)) =
    negb ((hexNibbleTable a <? 16) && (hexNibbleTable b <? 16) && (hexNibbleTable c <? 16))).
  { apply eq_true_iff_eq. rewrite Z.leb_le, negb_true_iff, !andb_false_iff, !Z.ltb_ge.
    pose proof (lor_lt_pow2 (Z.lor (hexNibbleTable a) (hexNibbleTable b)) (hexNibbleTable c) 4) as H4.
    pose proof (lor_lt_pow2 (hexNibbleTable a) (hexNibbleTable b) 4) as H5.
    assert (0 <= Z.lor (hexNibbleTable a) (hexNibbleTable b)) by (apply Z.lor_nonneg; lia).
    change (2 ^ 4) with 16 in *. lia. }
  rewrite Hor. generalize dependent (hexNibbleTable h). generalize dependent (hexNibbleTable a).
  generalize dependent (hexNibbleTable b). generalize dependent (hexNibbleTable c). intros. clear Hor. lia.
Qed.

Lemma hex_of_nibbles a b c d t :
  hex_of (a :: b :: c :: d :: t) =
    if is_hex a && is_hex b && is_hex c && is_hex d then Some (hex_value a b c d) else None.
Proof. done. Qed.

Section Checked.
Context (raw : bytes).
Hypothesis Hraw : bytes_ok raw.

Lemma idx_ok i c : raw !! i = Some c -> idx raw i = Ok c.
Proof using. intros H. unfold idx. by rewrite H. Qed.

Lemma drop_four i :
  (i + 4 <= length raw)%nat ->
  exists a b c d t, drop i raw = a :: b :: c :: d :: t /\
  raw !! i = Some a /\ raw !! (i + 1)%nat = Some b /\ raw !! (i + 2)%nat = Some c /\
  raw !! (i + 3)%nat = Some d.
Proof using.
  intros Hi. destruct (drop i raw) as [|a [|b [|c [|d t]]]] eqn:E;
    try (apply (f_equal length) in E; rewrite length_drop in E; simpl in E; lia).
  exists a, b, c, d, t. split; [done|].
  rewrite <- (Nat.add_0_r i) at 1. rewrite <- !lookup_drop, E. done.
Qed.

Lemma three_byte dst u :
  0x800 <= u < 0x10000 ->
  dst ++ [Z.lor 0xE0 (to_byte (Z.shiftr u 12)); Z.lor 0x80 (Z.land (to_byte (Z.shiftr u 6)) 0x3F);
  Z.lor 0x80 (Z.land (to_byte u) 0x3F)] = dst ++ encode_rune u.
Proof using.
  intros Hu. rewrite <- appendEscapedRune_spec by (unfold MaxRune; lia). unfold appendEscapedRune.
  do 2 rewrite if_false by lia. by rewrite if_true by lia.
Qed.

Lemma four_byte dst r :
  0x10000 <= r <= MaxRune ->
  dst ++ [Z.lor 0xF0 (to_byte (Z.shiftr r 18)); Z.lor 0x80 (Z.land (to_byte (Z.shiftr r 12)) 0x3F);
  Z.lor 0x80 (Z.land (to_byte (Z.shiftr r 6)) 0x3F); Z.lor 0x80 (Z.land (to_byte r) 0x3F)]
  = dst ++ encode_rune r.
Proof using.
  intros Hr. rewrite <- appendEscapedRune_spec by lia. unfold appendEscapedRune.
  do 3 rewrite if_false by lia. done.
Qed.

(** What one escape step may return. *)
Definition escape_step (dst : bytes) (i : nat) (r : res unit (bytes * nat * bool)) (e : esc_result) : Prop :=
  match e with
  | EscOk n d => r = Ok (dst ++ d, (S i + n)%nat, true)
  | EscErr _ => exists k, r = Ok (dst, k, false)
  end.

Lemma decode_unit_ref dst u i :
  raw !! S i = Some "u"%ch -> hex4 raw (i + 2) = (u, true) -> 128 <= u ->
  escape_step dst i (decode_unit dst raw u (i + 6)) (u_escape raw (S i)).
Proof using Hraw.
  intros Hi Hh Hu. pose proof (hex4_range _ _ _ Hh) as Hr. unfold u_escape.
  replace (S (S i)) with (i + 2)%nat by lia. rewrite Hh. cbn [negb].
  replace (S i + 11)%nat with (i + 12)%nat by lia. replace (S i + 5)%nat with (i + 6)%nat by lia.
  replace (S i + 6)%nat with (i + 7)%nat by lia. replace (S i + 7)%nat with (i + 8)%nat by lia.
  unfold decode_unit. replace (i + 6 + 6)%nat with (i + 12)%nat by lia.
  replace (i + 6 + 1)%nat with (i + 7)%nat by lia. replace (i + 6 + 2)%nat with (i + 8)%nat by lia.
  replace (i + 6 + 3)%nat with (i + 9)%nat by lia. replace (i + 6 + 4)%nat with (i + 10)%nat by lia.
  replace (i + 6 + 5)%nat with (i + 11)%nat by lia.
  destruct (Z.ltb_spec u 0x800).
  { rewrite (if_false (is_high_surrogate u)) by (unfold is_high_surrogate; lia).
  rewrite (if_false (is_low_surrogate u)) by (unfold is_low_surrogate; lia). cbn [escape_step].
  rewrite <- appendEscapedRune_spec by (unfold MaxRune; lia). unfold appendEscapedRune.
  rewrite if_false by lia. rewrite if_true by lia. do 3 f_equal. lia. }
  destruct (Z.ltb_spec u 0xD800).
  { rewrite (if_false (is_high_surrogate u)) by (unfold is_high_surrogate; lia).
  rewrite (if_false (is_low_surrogate u)) by (unfold is_low_surrogate; lia). cbn [escape_step].
  rewrite three_byte by lia. do 3 f_equal. lia. }
  destruct (Z.leb_spec u 0xDBFF).
  2:{ rewrite (if_false (is_high_surrogate u)) by (unfold is_high_surrogate; lia).
  destruct (Z.leb_spec u 0xDFFF).
  - rewrite if_true by (unfold is_low_surrogate; lia). by eexists.
  - rewrite if_false by (unfold is_low_surrogate; lia). cbn [escape_step].
    rewrite three_byte by lia. do 3 f_equal. lia. }
    rewrite (if_true (is_high_surrogate u)) by (unfold is_high_surrogate; lia).
    destruct ((length raw <? i + 12)%nat || negb (at_byte raw (i + 6) BSLASH) || negb (at_byte raw (i + 7) "u"%ch)) eqn:Hg;
      [by eexists|].
    destruct (drop_four (i + 8)) as (h & a & b & c & t & Hd & L0 & L1 & L2 & L3).
    { destruct (Nat.ltb_spec (length raw) (i + 12)); [done|lia]. }
    replace (i + 8 + 1)%nat with (i + 9)%nat in * by lia. replace (i + 8 + 2)%nat with (i + 10)%nat in * by lia.
    replace (i + 8 + 3)%nat with (i + 11)%nat in * by lia.
    rewrite (idx_ok _ _ L0), (idx_ok _ _ L1), (idx_ok _ _ L2), (idx_ok _ _ L3). cbn [res_bind].
    assert (is_byte h /\ is_byte a /\ is_byte b /\ is_byte c) as (Bh & Ba & Bb & Bc)
      by (split_and!; by eapply Forall_lookup_1).
    pose proof (low_nibbles h a b c Bh Ba Bb Bc) as Hlow.
    pose proof (hex4_hex_of raw (i + 8)) as H4. rewrite Hd, hex_of_nibbles in H4.
    destruct (_ || _ || (_ <=? _)); cbn [negb] in Hlow.
  - destruct (is_hex h && is_hex a && is_hex b && is_hex c) eqn:Hx.
    + rewrite H4. cbn [negb]. simpl in Hlow. rewrite <- Hlow. by eexists.
    + destruct (hex4 raw (i + 8)) as [v ok]. cbn [snd] in H4. rewrite H4. by eexists.
  - symmetry in Hlow. apply andb_true_iff in Hlow as [Hx Hls]. rewrite Hx in H4.
    rewrite H4, Hls. cbn [negb escape_step].
    assert (Hlo : Z.lor (Z.lor (Z.lor 0xD000 (Z.shiftl (hexNibbleTable a) 8)) (Z.shiftl (hexNibbleTable b) 4))
          (hexNibbleTable c) = hex_value h a b c).
    { assert (Hh13 : hexNibbleTable h = 13).
    { pose proof (hexNibble_range h). pose proof (hexNibble_range a). pose proof (hexNibble_range b).
    pose proof (hexNibble_range c). unfold is_hex, is_low_surrogate, hex_value in *. lia. }
    rewrite <- (hex_combine_value h a b c Hx). unfold hex_combine. cbn [fst]. rewrite Hh13.
    unfold is_hex in Hx. pose proof (hexNibble_range a). pose proof (hexNibble_range b).
    rewrite !Z.shiftl_mul_pow2 by lia. rewrite !Z.mod_small by lia. done. }
    rewrite Hlo. set (v := hex_value h a b c) in *.
    assert (Hr4 : w32 (0x10000 + Z.shiftl (u - 0xD800) 10 + v - 0xDC00) = DecodeSurrogates u v).
    { unfold is_low_surrogate in Hls. unfold w32, DecodeSurrogates. rewrite if_true by lia.
    rewrite Z.shiftl_mul_pow2 by lia. rewrite Z.mod_small by lia. lia. }
    rewrite Hr4, four_byte.
    + do 3 f_equal. lia.
    + unfold is_low_surrogate in Hls. unfold DecodeSurrogates, MaxRune. rewrite if_true by lia. lia.
Qed.

Lemma decode_escape_ref dst i :
  raw !! S i = Some "u"%ch -> escape_step dst i (decode_escape dst raw i) (u_escape raw (S i)).
Proof using Hraw.
  intros Hi. unfold decode_escape. cbv zeta.
  replace (i + 1 + 5)%nat with (i + 6)%nat by lia. replace (i + 1 + 1)%nat with (i + 2)%nat by lia.
  replace (i + 1 + 2)%nat with (i + 3)%nat by lia. replace (i + 1 + 3)%nat with (i + 4)%nat by lia.
  replace (i + 1 + 4)%nat with (i + 5)%nat by lia.
  destruct (Nat.ltb_spec (length raw) (i + 6)) as [Hs|Hs].
  { unfold u_escape, hex4. replace (S (S i)) with (i + 2)%nat by lia.
  rewrite (if_true (_ <? _)%nat) by lia. by eexists. }
  destruct (drop_four (i + 2)) as (c1 & c2 & h & l & t & Hd & L0 & L1 & L2 & L3); [lia|].
  replace (i + 2 + 1)%nat with (i + 3)%nat in * by lia. replace (i + 2 + 2)%nat with (i + 4)%nat in * by lia.
  replace (i + 2 + 3)%nat with (i + 5)%nat in * by lia.
  rewrite (idx_ok _ _ L0), (idx_ok _ _ L1). cbn [res_bind].
  pose proof (hex4_hex_of raw (i + 2)) as H4. rewrite Hd, hex_of_nibbles in H4.
  set (slow := let (u, ok) := hex4 raw (i + 2) in
     if negb ok then Ok (dst, i, false) else decode_unit dst raw u (i + 6)).
  assert (Hslow : (forall u, hex4 raw (i + 2) = (u, true) -> 128 <= u) ->
    escape_step dst i slow (u_escape raw (S i))).
  { intros Hbig. subst slow. destruct (hex4 raw (i + 2)) as [u [|]] eqn:E; cbn [negb].
  - apply decode_unit_ref; [done|done|auto].
  - unfold u_escape. replace (S (S i)) with (i + 2)%nat by lia. rewrite E. by eexists. }
    pose proof (hexNibble_range c1) as R1. pose proof (hexNibble_range c2) as R2.
    pose proof (hexNibble_range h) as R3. pose proof (hexNibble_range l) as R4.
    destruct ((c1 =? "0"%ch) && (c2 =? "0"%ch)) eqn:E00.
    2:{ apply Hslow. intros u Hu. rewrite Hu in H4. destruct (_ && _ && _ && _) eqn:Hx in H4; [|done].
    simplify_eq. unfold hex_value, is_hex in *.
    assert (hexNibbleTable c1 <> 0 \/ hexNibbleTable c2 <> 0); [|lia].
    unfold hexNibbleTable. destruct (Z.eq_dec c1 "0"%ch) as [->|]; [right|left]; repeat case_step; lia. }
    rewrite (idx_ok _ _ L2), (idx_ok _ _ L3). cbn [res_bind].
    assert (c1 = "0"%ch /\ c2 = "0"%ch) as [-> ->] by lia.
    assert (Bh : is_byte h) by by eapply Forall_lookup_1.
    assert (Hhi : to_byte (h - "0"%ch) < 8 -> hexNibbleTable h = to_byte (h - "0"%ch)).
    { unfold is_byte in Bh. unfold to_byte, hexNibbleTable. intros. repeat case_step; div_lia. }
    assert (Hhi2 : 0 <= to_byte (h - "0"%ch)) by (unfold to_byte; div_lia).
    assert (Hhi3 : hexNibbleTable h < 8 -> to_byte (h - "0"%ch) < 8).
    { unfold is_byte in Bh. unfold to_byte, hexNibbleTable. intros. repeat case_step_in H; div_lia. }
    change (is_hex "0"%ch) with true in H4. cbn [andb] in H4. unfold is_hex in H4.
    destruct ((to_byte (h - "0"%ch) <? 8) && (hexNibbleTable l <? 0x10)) eqn:Ef.
  - specialize (Hhi ltac:(lia)). rewrite if_true in H4 by lia.
    unfold u_escape. replace (S (S i)) with (i + 2)%nat by lia. rewrite H4. cbn [negb].
    assert (Hv : hex_value "0"%ch "0"%ch h l = 16 * hexNibbleTable h + hexNibbleTable l)
      by (unfold hex_value; change (hexNibbleTable "0"%ch) with 0; lia).
    rewrite (if_false (is_high_surrogate _)) by (unfold is_high_surrogate; lia).
    rewrite (if_false (is_low_surrogate _)) by (unfold is_low_surrogate; lia). cbn [escape_step].
    rewrite encode_rune_ascii by lia. rewrite (lor_shiftl_add _ 4) by lia.
    replace (S i + 5)%nat with (i + 6)%nat by lia. do 4 f_equal. f_equal. lia.
  - destruct (Z.leb_spec 0x10 (Z.lor (hexNibbleTable h) (hexNibbleTable l))) as [Hbad|Hgood].
    + assert (Hx : (hexNibbleTable h <? 16) && (hexNibbleTable l <? 16) = false).
      { pose proof (lor_lt_pow2 (hexNibbleTable h) (hexNibbleTable l) 4) as H5.
      change (2 ^ 4) with 16 in H5. lia. }
      rewrite Hx in H4. unfold u_escape. replace (S (S i)) with (i + 2)%nat by lia.
      destruct (hex4 raw (i + 2)) as [u ok]. cbn [snd] in H4. rewrite H4. by eexists.
    + apply Hslow. intros u Hu. rewrite Hu in H4. destruct (_ && _) eqn:Hx in H4; [|done]. simplify_eq.
      unfold hex_value. change (hexNibbleTable "0"%ch) with 0. lia.
Qed.

(** A partial decoding from [i], with [d] decoded after the prefix [d0]. *)
Definition decodes_on (d0 : bytes) (i : nat) (d : bytes) (r : res unit (bytes * nat * bool)) : Prop :=
  exists d' k ok, r = Ok (d0 ++ d', k, ok) /\
  if ok : bool then (i <= k <= length raw)%nat /\ decode_from raw i d = decode_from raw k d'
  else decode_from raw i d = None.

Lemma decoded_run_ref d0 fuel i d :
  (i <= length raw)%nat -> (length raw - i < fuel)%nat ->
  decodes_on d0 i d (decoded_run fuel (d0 ++ d) raw i) /\
  (raw !! i = Some BSLASH -> raw !! S i = Some "u"%ch ->
  forall dst k, decoded_run fuel (d0 ++ d) raw i = Ok (dst, k, true) -> (i < k)%nat).
Proof using Hraw.
  revert i d. induction fuel as [|fuel IH]; intros i d Hi Hf; [lia|]. cbn [decoded_run].
  destruct (at_byte raw i BSLASH && at_byte raw (i + 1) "u"%ch) eqn:E.
  2:{ split; [by exists d, i, true|]. intros Hb Hu. exfalso. revert E.
  unfold at_byte. replace (i + 1)%nat with (S i) by lia. by rewrite Hb, Hu. }
  apply andb_true_iff in E as [Hb%at_byte_spec Hu%at_byte_spec]. replace (i + 1)%nat with (S i) in Hu by lia.
  pose proof (decode_escape_ref (d0 ++ d) i Hu) as Hs.
  pose proof (decode_from_escape raw i d Hb) as Hd. rewrite u_escape_ref in Hd by done.
  destruct (u_escape raw (S i)) as [n dec|m] eqn:He; cbn [escape_step] in Hs.
  - apply u_escape_bound in He as Hbd; [|done]. rewrite Hs. cbn [res_bind]. rewrite <- app_assoc.
    destruct (IH (S i + n)%nat (d ++ dec) ltac:(lia) ltac:(lia)) as [(d' & k & ok & Hrun & Hok) _].
    rewrite Hrun. split.
    + exists d', k, ok. split; [done|]. destruct ok; [|congruence]. split; [lia|]. rewrite Hd. apply Hok.
    + intros _ _ dst k' [= _ <- ->]. lia.
  - destruct Hs as (k & ->). cbn [res_bind]. split; [|by intros _ _ ? ? [=]]. by exists d, k, false.
Qed.

Lemma checked_escape_ref d0 i d :
  raw !! i = Some BSLASH -> (i + 1 < length raw)%nat ->
  decodes_on d0 i d (checked_escape (d0 ++ d) raw i) /\
  (forall dst k, checked_escape (d0 ++ d) raw i = Ok (dst, k, true) -> (i < k)%nat).
Proof using Hraw.
  intros Hb Hi. unfold checked_escape.
  destruct (lookup_lt_is_Some_2 raw (i + 1) Hi) as [c Hc]. rewrite (idx_ok _ _ Hc). cbn [res_bind].
  replace (i + 1)%nat with (S i) in Hc by lia. destruct (Z.eqb_spec c "u"%ch) as [->|Hne].
  - destruct (decoded_run_ref d0 (S (length raw)) i d ltac:(lia) ltac:(lia)) as [Hr Hp].
    split; [exact Hr|]. by apply Hp.
  - rewrite simple_escape_table. pose proof (decode_from_escape raw i d Hb) as Hd.
    rewrite (lookup_Some_drop _ _ _ Hc) in Hd. cbn [esc_ref] in Hd. rewrite (if_false (c =? "u"%ch)) in Hd by lia.
    destruct (is_simple_escape c); cbn [negb].
    + split; [|intros ? ? [= _ <-]; lia]. exists (d ++ [simple_escape_value c]), (i + 2)%nat, true.
      rewrite <- app_assoc. split; [done|]. split; [lia|]. rewrite Hd. f_equal. lia.
    + split; [|by intros ? ? [=]]. by exists d, i, false.
Qed.

(** What every continuation of the decoder returns. *)
Definition finishes (d0 : bytes) (i : nat) (d : bytes) (r : res unit bytes) : Prop :=
  r = Ok (d0 ++ default raw (decode_from raw i d)).

Lemma give_back_finishes d0 i d d' :
  decode_from raw i d = None -> finishes d0 i d (give_back (d0 ++ d') raw (length d0)).
Proof using. intros H. unfold finishes, give_back. by rewrite H, take_app_length. Qed.

Lemma rest_finishes d0 i d :
  (i <= length raw)%nat -> Forall (fun c => c <> BSLASH) (drop i raw) ->
  finishes d0 i d (Ok ((d0 ++ d) ++ drop i raw)).
Proof using. intros Hi Hf. unfold finishes. rewrite decode_from_rest by done. by rewrite <- app_assoc. Qed.

Lemma finishes_run d0 i j d r :
  (i <= j <= length raw)%nat -> Forall (fun c => c <> BSLASH) (slice raw i j) ->
  finishes d0 j (d ++ slice raw i j) r -> finishes d0 i d r.
Proof using. intros Hij Hf. unfold finishes. by rewrite (decode_from_run raw i j). Qed.

Lemma index_offset_pos i n :
  raw !! i <> Some BSLASH -> raw !! (i + n)%nat = Some BSLASH -> (0 < n)%nat.
Proof using. intros Hi Hn. destruct n; [|lia]. by rewrite Nat.add_0_r in Hn. Qed.

Lemma next_backslash_ref i :
  (i < length raw)%nat -> raw !! i <> Some BSLASH ->
  match next_backslash raw i with
  | None => Forall (fun c => c <> BSLASH) (drop i raw)
  | Some (next, _) => (i < next <= length raw)%nat /\ Forall (fun c => c <> BSLASH) (slice raw i next)
  end.
Proof using Hraw.
  intros Hi Hne. unfold next_backslash. cbv zeta. set (p := fun c => negb (c =? BSLASH)).
  assert (Hp : forall s, Forall (fun c => p c = true) s -> Forall (fun c => c <> BSLASH) s).
  { intros s Hs. eapply Forall_impl; [exact Hs|]. unfold p. intros. lia. }
  assert (Hgt : (i < advance p raw i)%nat).
  { destruct (lookup_lt_is_Some_2 raw i Hi) as [c Hc]. rewrite advance_unfold, Hc.
  rewrite if_true by (unfold p; destruct (Z.eqb_spec c BSLASH); [congruence|done]). pose proof (advance_le p raw (S i)). lia. }
  pose proof (advance_le p raw i ltac:(lia)) as Hle.
  destruct (advance_span p raw i ltac:(lia)) as (s & Hs & Hf & _).
  destruct (Nat.ltb_spec (length raw - i) 8).
  - destruct (Nat.eqb_spec (advance p raw i) (length raw)) as [E|_].
    + apply Hp. rewrite <- slice_all, <- E. by apply advance_slice; lia.
    + split; [lia|]. apply Hp, advance_slice. lia.
  - assert (Hm : forall l, bytes_ok l -> length l = 8%nat ->
      first_flag (fun c => c =? BSLASH) l (byteEqMask (le_word l) BSLASH)).
    { intros l Hl Hlen. destruct (only_high_land (Z.land (le_word l) 0)) as [_ _].
    assert (Hoh : only_high (byteEqMask (le_word l) BSLASH)) by (unfold byteEqMask; apply only_high_land).
    destruct Hoh. split; [done|done|]. intros k v Hv Hlow. apply eq_lane; [done|done|by split|done|].
    intros j w Hj Hw ->. by specialize (Hlow j _ Hj Hw). }
    destruct (Z.eqb_spec (byteEqMask (load64 raw i) BSLASH) 0) as [E|E]; cbn [negb].
    + destruct (word_clear (fun c => c =? BSLASH) (fun x => byteEqMask x BSLASH) raw i Hm Hraw ltac:(lia) E) as [Hc _].
      pose proof (IndexByte_at raw (i + 8) ltac:(lia)) as H8.
      destruct (IndexByte (drop (i + 8) raw) BSLASH) as [n|].
      * destruct H8 as [Hn Hf8]. apply lookup_lt_Some in Hn. split; [lia|].
        rewrite (slice_app raw i (i + 8)) by lia. apply Forall_app. split; [by apply Hp|].
        by replace (i + (8 + n))%nat with (i + 8 + n)%nat by lia.
      * rewrite (drop_slice raw i (i + 8)) by lia. apply Forall_app. split; [by apply Hp|done].
    + destruct (word_stop (fun c => c =? BSLASH) (fun x => byteEqMask x BSLASH) raw i Hm Hraw ltac:(lia) E) as [-> Hlt].
      fold p. split; [lia|]. apply Hp, advance_slice. lia.
Qed.

Lemma dense_loop_ref d0 fuel i d short :
  (i <= length raw)%nat -> (length raw - i < fuel)%nat ->
  finishes d0 i d (dense_loop fuel (d0 ++ d) raw (length d0) i short).
Proof using Hraw.
  revert i d short. induction fuel as [|fuel IH]; intros i d short Hi Hf; [lia|]. cbn [dense_loop].
  destruct (Nat.ltb_spec i (length raw - 1)) as [Hlt|Hge].
  2:{ destruct (Nat.eqb_spec i (length raw)) as [->|Hne].
  { unfold finishes. by rewrite decode_from_end. }
  destruct (lookup_lt_is_Some_2 raw i) as [c Hc]; [lia|]. rewrite (idx_ok _ _ Hc). cbn [res_bind].
  assert (Hl1 : length raw = S i) by lia.
  destruct (Z.eqb_spec c BSLASH) as [->|Hcb]; cbn [negb].
  - apply give_back_finishes. rewrite (decode_from_escape _ _ _ Hc), drop_ge by lia. done.
  - apply rest_finishes; [lia|]. rewrite (lookup_Some_drop _ _ _ Hc), drop_ge by lia. by repeat constructor. }
    destruct (lookup_lt_is_Some_2 raw i) as [c Hc]; [lia|]. rewrite (idx_ok _ _ Hc). cbn [res_bind].
    assert (Hindex : forall i d (Hi : (i < length raw)%nat), (length raw - i < S fuel)%nat -> raw !! i <> Some BSLASH ->
      finishes d0 i d
      match IndexByte (drop i raw) BSLASH with
      | None => Ok ((d0 ++ d) ++ drop i raw)
      | Some offset =>
      dense_loop fuel ((d0 ++ d) ++ slice raw i (i + offset)) raw (length d0) (i + offset) (offset <? 8)%nat
      end).
    { clear i d Hi Hf Hlt c Hc. intros i d Hi Hf Hne. pose proof (IndexByte_at raw i ltac:(lia)) as Hib.
    destruct (IndexByte (drop i raw) BSLASH) as [n|]; [|apply rest_finishes; [lia|done]].
    destruct Hib as [Hn Hfn]. apply lookup_lt_Some in Hn as Hnl. pose proof (index_offset_pos i n Hne Hn).
    apply (finishes_run _ _ (i + n)); [lia|done|]. rewrite <- app_assoc. apply IH; lia. }
    destruct (Z.eqb_spec c BSLASH) as [->|Hcb]; cbn [negb].
  - replace (i + 1)%nat with (S i) by lia. destruct (lookup_lt_is_Some_2 raw (S i)) as [e He]; [lia|].
    rewrite (idx_ok _ _ He). cbn [res_bind]. destruct (Z.eqb_spec e "u"%ch) as [->|Hne].
    + destruct (decoded_run_ref d0 (S (length raw)) i d ltac:(lia) ltac:(lia)) as [(d' & k & ok & Hrun & Hok) Hp].
      unfold appendDecodedUnicodeEscapeRun. rewrite Hrun in *. cbn [res_bind]. destruct ok; cbn [negb].
      * specialize (Hp Hc He _ _ eq_refl). destruct Hok as [Hk Heq]. unfold finishes. rewrite Heq. apply IH; lia.
      * by apply give_back_finishes.
    + rewrite simple_escape_table. pose proof (decode_from_escape raw i d Hc) as Hd.
      rewrite (lookup_Some_drop _ _ _ He) in Hd. cbn [esc_ref] in Hd. rewrite (if_false (e =? "u"%ch)) in Hd by lia.
      destruct (is_simple_escape e); cbn [negb]; [|by apply give_back_finishes].
      unfold finishes. rewrite Hd. replace (S i + 1)%nat with (S (S i)) by lia.
      rewrite <- (app_assoc d0 d [simple_escape_value e]). set (d1 := d ++ [simple_escape_value e]).
      fold (finishes d0 (S (S i)) d1).
      destruct (negb short && (S (S i) <? length raw)%nat && negb (at_byte raw (S (S i)) BSLASH)) eqn:Eg;
        [|apply IH; lia].
      rewrite !andb_true_iff, !negb_true_iff in Eg. destruct Eg as [[_ Hlt2] Hnb].
      apply Hindex; [lia|lia|]. intros Hb. by rewrite (proj2 (at_byte_spec _ _ _) Hb) in Hnb.
  - destruct short; cbn [negb]; [|by apply Hindex; [lia|lia|naive_solver]].
    pose proof (next_backslash_ref i ltac:(lia) ltac:(naive_solver)) as Hn.
    destruct (next_backslash raw i) as [[next sh]|]; [|apply rest_finishes; [lia|done]].
    destruct Hn as [Hk Hfn]. apply (finishes_run _ _ next); [lia|done|]. rewrite <- app_assoc. apply IH; lia.
Qed.

Lemma checked_loop_ref d0 fuel i d :
  (i <= length raw)%nat -> (length raw - i < fuel)%nat ->
  finishes d0 i d (checked_loop fuel (d0 ++ d) raw (length d0) i).
Proof using Hraw.
  revert i d. induction fuel as [|fuel IH]; intros i d Hi Hf; [lia|]. cbn [checked_loop].
  destruct (Nat.ltb_spec i (length raw)) as [Hlt|].
  2:{ unfold finishes. by rewrite decode_from_end by lia. }
  destruct (at_byte raw i BSLASH) eqn:E; cbn [negb].
  - apply at_byte_spec in E. destruct (Nat.leb_spec (length raw) (i + 1)) as [Hle|Hgt].
    { apply give_back_finishes. rewrite (decode_from_escape _ _ _ E), drop_ge by lia. done. }
    destruct (checked_escape_ref d0 i d E Hgt) as [(d' & k & ok & Hrun & Hok) Hp]. rewrite Hrun in *. cbn [res_bind].
    destruct ok; cbn [negb]; [|by apply give_back_finishes].
    specialize (Hp _ _ eq_refl). destruct Hok as [Hk Heq]. unfold finishes. rewrite Heq. apply IH; lia.
  - assert (Hne : raw !! i <> Some BSLASH) by (intros Hb; by rewrite (proj2 (at_byte_spec _ _ _) Hb) in E).
    pose proof (IndexByte_at raw i ltac:(lia)) as Hib.
    destruct (IndexByte (drop i raw) BSLASH) as [n|]; [|by apply rest_finishes].
    destruct Hib as [Hn Hfn]. apply lookup_lt_Some in Hn as Hnl. pose proof (index_offset_pos i n Hne Hn).
    apply (finishes_run _ _ (i + n)); [lia|done|]. rewrite <- app_assoc.
    destruct (n <? 8)%nat; [apply dense_loop_ref; lia|apply IH; lia].
Qed.

(** The checked decoder never fails: it decodes, or appends its input. *)
Lemma checked_decoder_ref dst :
  AppendDecodedJSONString dst raw = Ok (dst ++ default raw (unescape raw)).
Proof using Hraw.
  unfold AppendDecodedJSONString. destruct (Nat.eqb_spec (length raw) 0) as [E|E].
  { destruct raw; [|done]. by rewrite app_nil_r. }
  cbv zeta. assert (H0 : decode_from raw 0 [] = unescape raw).
  { unfold decode_from, unescape. rewrite drop_0. by destruct (unesc raw 0). }
  rewrite <- H0. assert (Hfrom : forall i d, raw !! i = Some BSLASH ->
    finishes dst i d (if (length raw <=? i + 1)%nat then give_back (dst ++ d) raw (length dst) else
    let* (dst', i', ok) := checked_escape (dst ++ d) raw i in
    if negb ok then give_back dst' raw (length dst) else checked_loop (S (length raw)) dst' raw (length dst) i')).
  { intros i d Hb. destruct (Nat.leb_spec (length raw) (i + 1)) as [Hle|Hgt].
  { apply give_back_finishes. rewrite (decode_from_escape _ _ _ Hb), drop_ge by lia. done. }
  destruct (checked_escape_ref dst i d Hb Hgt) as [(d' & k & ok & Hrun & Hok) Hp]. rewrite Hrun. cbn [res_bind].
  destruct ok; cbn [negb]; [|by apply give_back_finishes].
  destruct Hok as [Hk Heq]. unfold finishes. rewrite Heq. apply checked_loop_ref; lia. }
  destruct (at_byte raw 0 BSLASH) eqn:Eb; cbn [negb].
  { apply at_byte_spec in Eb. specialize (Hfrom 0%nat [] Eb). rewrite app_nil_r in Hfrom. exact Hfrom. }
  assert (Hne : raw !! 0%nat <> Some BSLASH) by (intros Hb; by rewrite (proj2 (at_byte_spec _ _ _) Hb) in Eb).
  pose proof (IndexByte_at raw 1 ltac:(lia)) as Hib.
  destruct (lookup_lt_is_Some_2 raw 0) as [c Hc]; [lia|].
  assert (Hcb : c <> BSLASH) by naive_solver.
  destruct (IndexByte (drop 1 raw) BSLASH) as [n|].
  - destruct Hib as [Hn Hfn]. apply lookup_lt_Some in Hn as Hnl.
    replace (1 + n)%nat with (n + 1)%nat in * by lia.
    assert (Hsl : take (n + 1) raw = slice raw 0 (n + 1)) by (unfold slice; by rewrite drop_0, Nat.sub_0_r).
    rewrite Hsl. assert (Hf : Forall (fun c => c <> BSLASH) (slice raw 0 (n + 1))).
    { rewrite (slice_cons raw 0 (n + 1) c) by (done || lia). by constructor. }
    change (finishes dst 0 [] (if (n + 1 <? 8)%nat
      then appendDecodedJSONStringDense (dst ++ slice raw 0 (n + 1)) raw (length dst) (n + 1)
      else if (length raw <=? n + 1 + 1)%nat then give_back (dst ++ slice raw 0 (n + 1)) raw (length dst) else
      let* (dst', i', ok) := checked_escape (dst ++ slice raw 0 (n + 1)) raw (n + 1) in
      if negb ok then give_back dst' raw (length dst) else checked_loop (S (length raw)) dst' raw (length dst) i')).
    apply (finishes_run _ _ (n + 1)); [lia|done|]. cbn [app].
    destruct (n + 1 <? 8)%nat; [apply dense_loop_ref; lia|by apply Hfrom].
  - rewrite decode_from_rest; [done|lia|].
    rewrite (lookup_Some_drop _ _ _ Hc). by constructor.
Qed.
End Checked.

(** ** The trusted decoders agree with the reference *)

Section Trusted.
Context (raw : bytes).

Lemma trusted_unicode_ref i n d :
  raw !! i = Some "u"%ch -> esc_ref (drop i raw) = EscOk n d ->
  exists r, trusted_unicode raw i = ((i + n)%nat, r) /\ EncodeRune r = d /\ is_scalar r = true.
Proof using.
  intros Hi He. rewrite (u_escape_ref raw i Hi) in He. unfold u_escape in He. unfold trusted_unicode.
  replace (i + 1)%nat with (S i) by lia. replace (i + 5 + 2)%nat with (i + 7)%nat by lia.
  destruct (hex4 raw (S i)) as [u [|]] eqn:Hh; cbn [negb fst] in *; [|done]. apply hex4_range in Hh.
  fold (is_high_surrogate u). destruct (is_high_surrogate u) eqn:Hhi.
  - destruct (_ || _ || _); [done|]. destruct (hex4 raw (i + 7)) as [v [|]]; cbn [negb fst] in *; [|done].
    destruct (is_low_surrogate v) eqn:Hlo; [|done]. simplify_eq. eexists. split; [f_equal; lia|].
    assert (Hs : is_scalar (DecodeSurrogates u v) = true).
    { unfold is_high_surrogate, is_low_surrogate, DecodeSurrogates in *. rewrite if_true by lia.
    apply is_scalar_spec. lia. }
    unfold EncodeRune. by rewrite Hs.
  - destruct (is_low_surrogate u) eqn:Hlo; [done|]. simplify_eq. eexists. split; [done|].
    assert (Hs : is_scalar u = true).
    { apply is_scalar_spec. unfold is_high_surrogate, is_low_surrogate in *. lia. }
    unfold EncodeRune. by rewrite Hs.
Qed.

(** One unit at a position that decodes: a plain byte, a simple escape, or a
rune. *)
Lemma decode_cases i d D :
  decode_from raw i d = Some D -> (i < length raw)%nat ->
  (exists c, raw !! i = Some c /\ c <> BSLASH /\ decode_from raw (S i) (d ++ [c]) = Some D) \/
  (exists e, raw !! i = Some BSLASH /\ raw !! S i = Some e /\ e <> "u"%ch /\
  decode_from raw (S (S i)) (d ++ [decodedSimpleEscape e]) = Some D) \/
  (exists n r, raw !! i = Some BSLASH /\ raw !! S i = Some "u"%ch /\ (0 < n)%nat /\ (S i + n <= length raw)%nat /\
  trusted_unicode raw (S i) = ((S i + n)%nat, r) /\ is_scalar r = true /\
  decode_from raw (S i + n) (d ++ EncodeRune r) = Some D).
Proof using.
  intros H Hi. destruct (lookup_lt_is_Some_2 raw i Hi) as [c Hc].
  destruct (decide (c = BSLASH)) as [->|Hne].
  2:{ left. exists c. rewrite (decode_from_plain raw i d c Hc Hne) in H. done. }
  right. rewrite (decode_from_escape _ _ _ Hc) in H.
  destruct (esc_ref (drop (S i) raw)) as [n x|m] eqn:He; [|done].
  pose proof (esc_ok_bound raw (S i) n x ltac:(lia) He) as Hb.
  destruct (lookup_lt_is_Some_2 raw (S i)) as [e Hse]; [lia|].
  destruct (decide (e = "u"%ch)) as [->|Hu].
  - right. destruct (trusted_unicode_ref (S i) n x Hse He) as (r & Ht & Hx & Hs).
    exists n, r. rewrite Hx. split_and!; (done || lia).
  - left. exists e. rewrite (lookup_Some_drop _ _ _ Hse) in He. cbn [esc_ref] in He.
    rewrite (if_false (e =? "u"%ch)) in He by lia. destruct (is_simple_escape e); simplify_eq.
    split_and!; [done|done|done|]. rewrite decoded_simple_value. by replace (S (S i)) with (S i + 1)%nat by lia.
Qed.

Lemma decode_from_done d D : decode_from raw (length raw) d = Some D -> D = d.
Proof using. rewrite decode_from_end by done. congruence. Qed.

Lemma trusted_loop_ref fuel i d D :
  (i <= length raw)%nat -> (length raw - i < fuel)%nat -> decode_from raw i d = Some D ->
  trusted_loop fuel d raw i = Ok D.
Proof using.
  revert i d. induction fuel as [|fuel IH]; intros i d Hi Hf HD; [lia|]. cbn [trusted_loop].
  destruct (Nat.ltb_spec i (length raw)) as [Hlt|Hge].
  2:{ replace i with (length raw) in HD by lia. by apply decode_from_done in HD as ->. }
  destruct (decode_cases i d D HD Hlt) as [(c & Hc & Hne & _)|[(e & Hb & He & Hu & HD')|(n & r & Hb & He & Hn & Hle & Ht & _ & HD')]].
  - assert (Hnb : raw !! i <> Some BSLASH) by naive_solver.
    unfold at_byte. rewrite Hc. rewrite (if_true (negb _)) by (destruct (Z.eqb_spec c BSLASH); done).
    pose proof (IndexByte_at raw i ltac:(lia)) as Hib.
    destruct (IndexByte (drop i raw) BSLASH) as [n|].
    + destruct Hib as [Hn Hfn]. apply lookup_lt_Some in Hn as Hnl. pose proof (index_offset_pos raw i n Hnb Hn).
      apply IH; [lia|lia|]. by rewrite <- decode_from_run by (done || lia).
    + rewrite decode_from_rest in HD by (done || lia). by simplify_eq.
  - rewrite (proj2 (at_byte_spec _ _ _) Hb). cbn [negb]. rewrite (idx_ok _ _ _ He). cbn [res_bind].
    rewrite (if_true (negb _)) by (destruct (Z.eqb_spec e "u"%ch); done).
    apply lookup_lt_Some in He. apply IH; [lia|lia|done].
  - rewrite (proj2 (at_byte_spec _ _ _) Hb). cbn [negb]. rewrite (idx_ok _ _ _ He). cbn [res_bind Z.eqb Pos.eqb negb].
    rewrite Ht. apply IH; [lia|lia|done].
Qed.

Lemma app_drop_eq {A} (x y key : list A) ki :
  (x ++ y = drop ki key) <-> (ki + length x <= length key \/ x = [])%nat /\ x = slice key ki (ki + length x) /\ y = drop (ki + length x) key.
Proof using.
  unfold slice. replace (ki + length x - ki)%nat with (length x) by lia. rewrite <- drop_drop. split.
  - intros H. rewrite <- H, take_app_length, drop_app_length. split; [|done].
    apply (f_equal length) in H. rewrite length_app, length_drop in H. destruct x; [by right|left]. simpl in *. lia.
  - intros (_ & Hx & ->). rewrite Hx at 1. by rewrite take_drop.
Qed.

Lemma cons_drop_eq (c : Z) (y key : bytes) ki :
  (c :: y = drop ki key) <-> key !! ki = Some c /\ y = drop (S ki) key.
Proof using.
  split.
  - intros H. symmetry in H. split; [by eapply drop_cons_lookup|symmetry; by eapply drop_cons_S].
  - intros [Hk ->]. by rewrite (lookup_Some_drop _ _ _ Hk).
Qed.

Lemma decode_from_app i d x D : decode_from raw i (d ++ x) = Some D <-> exists t, D = d ++ x ++ t /\ decode_from raw i [] = Some t.
Proof using.
  unfold decode_from. destruct (unesc (drop i raw) 0) as [u|]; simpl; [|naive_solver].
  rewrite <- app_assoc. split; [intros [= <-]; eauto|intros (t & -> & [= ->]); done].
Qed.

Lemma key_equal_ref key fuel i ki t :
  (i <= length raw)%nat -> (length raw - i < fuel)%nat -> (ki <= length key)%nat ->
  decode_from raw i [] = Some t ->
  key_equal_loop fuel raw key i ki = Ok (bool_decide (t = drop ki key)).
Proof using.
  revert i ki t. induction fuel as [|fuel IH]; intros i ki t Hi Hf Hk Ht; [lia|]. cbn [key_equal_loop].
  destruct (Nat.ltb_spec i (length raw)) as [Hlt|Hge].
  2:{ replace i with (length raw) in Ht by lia. apply decode_from_done in Ht as ->. f_equal.
  apply eq_true_iff_eq. rewrite bool_decide_eq_true, Nat.eqb_eq. split; [intros ->; by rewrite drop_all|].
  intros H. apply (f_equal length) in H. rewrite length_drop in H. simpl in H. lia. }
  assert (Hone : forall c k t', decode_from raw k [] = Some t' -> (i < k <= length raw)%nat -> t = c :: t' ->
    (if negb (at_byte key ki c) then Ok false else key_equal_loop fuel raw key k (S ki))
    = (Ok (bool_decide (t = drop ki key)) : res unit bool)).
  { intros c k t' Ht' Hik ->. destruct (at_byte key ki c) eqn:E; cbn [negb].
  - apply at_byte_spec in E. apply lookup_lt_Some in E as Hlk. rewrite (IH k (S ki) t') by (done || lia).
    f_equal. apply bool_decide_ext. rewrite cons_drop_eq. naive_solver.
  - f_equal. symmetry. apply bool_decide_eq_false_2. rewrite cons_drop_eq. intros [H _].
    by rewrite (proj2 (at_byte_spec _ _ _) H) in E. }
    destruct (decode_cases i [] t Ht Hlt) as [(c & Hc & Hne & HD)|[(e & Hb & He & Hu & HD)|(n & r & Hb & He & Hn & Hle & Htr & _ & HD)]].
  - rewrite (idx_ok _ _ _ Hc). cbn [res_bind]. rewrite (if_true (negb _)) by (destruct (Z.eqb_spec c BSLASH); done).
    apply decode_from_app in HD as (t' & Heq & Ht'). apply (Hone c (S i) t'); [done|lia|done].
  - rewrite (idx_ok _ _ _ Hb). cbn [res_bind Z.eqb Pos.eqb negb]. rewrite (idx_ok _ _ _ He). cbn [res_bind].
    rewrite (if_true (negb _)) by (destruct (Z.eqb_spec e "u"%ch); done).
    apply decode_from_app in HD as (t' & Heq & Ht'). apply lookup_lt_Some in He.
    apply (Hone _ (S (S i)) t'); [done|lia|done].
  - rewrite (idx_ok _ _ _ Hb). cbn [res_bind Z.eqb Pos.eqb negb]. rewrite (idx_ok _ _ _ He). cbn [res_bind Z.eqb Pos.eqb negb].
    rewrite Htr. apply decode_from_app in HD as (t' & -> & Ht'). cbn [app].
    set (x := EncodeRune r). assert (Hx : x <> []) by apply encode_rune_nonempty.
    destruct (Nat.ltb_spec (length key) (ki + length x)); cbn [orb].
    { f_equal. symmetry. apply bool_decide_eq_false_2. rewrite app_drop_eq. intros ([?|?] & _); [lia|done]. }
    destruct (bool_decide (x = slice key ki (ki + length x))) eqn:Hs; cbn [negb].
    + apply bool_decide_eq_true in Hs. rewrite (IH (S i + n)%nat (ki + length x)%nat t') by (done || lia). f_equal.
      apply bool_decide_ext. rewrite app_drop_eq. naive_solver.
    + apply bool_decide_eq_false in Hs. f_equal. symmetry. apply bool_decide_eq_false_2.
      rewrite app_drop_eq. naive_solver.
Qed.
End Trusted.

(** *** The byte iterator *)

(** The bytes an iterator has still to return. *)
Definition iter_rest (it : byte_iter) (t : bytes) : Prop :=
  (it_i it <= length (it_raw it))%nat /\ (it_pos it <= length (it_encoded it))%nat /\
  exists u, decode_from (it_raw it) (it_i it) [] = Some u /\ t = drop (it_pos it) (it_encoded it) ++ u.

Lemma iter_next_ref it t :
  iter_rest it t ->
  match t with
  | [] => iter_next it = Ok (None, it)
  | b :: t' => exists it', iter_next it = Ok (Some b, it') /\ iter_rest it' t'
  end.
Proof.
  destruct it as [raw i enc pos]. intros (Hi & Hp & u & Hu & ->). unfold iter_next. cbn [it_raw it_i it_encoded it_pos] in *.
  destruct (Nat.ltb_spec pos (length enc)) as [Hlt|Hge].
  { destruct (lookup_lt_is_Some_2 enc pos Hlt) as [b Hb]. rewrite (lookup_Some_drop _ _ _ Hb).
    cbn [app]. rewrite (idx_ok _ _ _ Hb). eexists. split; [done|]. unfold iter_rest. simpl. split_and!; [lia|lia|]. by exists u. }
  rewrite drop_ge by done. cbn [app]. destruct (Nat.eqb_spec i (length raw)) as [->|Hne].
  { apply decode_from_done in Hu as ->. done. }
  assert (Hstep : forall c k t', decode_from raw k [] = Some t' -> (k <= length raw)%nat -> u = c :: t' ->
    match u with [] => (Ok (Some c, mkIter raw k enc pos) : res unit _) = Ok (None, mkIter raw i enc pos)
    | b :: t' => exists it', (Ok (Some c, mkIter raw k enc pos) : res unit _) = Ok (Some b, it') /\ iter_rest it' t' end).
  { intros c k t' Ht' Hk ->. eexists. split; [done|]. unfold iter_rest. simpl. split_and!; [lia|lia|]. exists t'.
    by rewrite drop_ge. }
  destruct (decode_cases raw i [] u Hu ltac:(lia)) as [(c & Hc & Hnb & HD)|[(e & Hb & He & Hnu & HD)|(n & r & Hb & He & Hn & Hle & Htr & _ & HD)]].
  - rewrite (idx_ok _ _ _ Hc). cbn [res_bind]. rewrite (if_true (negb _)) by (destruct (Z.eqb_spec c BSLASH); done).
    apply decode_from_app in HD as (t' & Heq & Ht'). apply (Hstep c (S i) t' Ht'); [lia|done].
  - rewrite (idx_ok _ _ _ Hb). cbn [res_bind Z.eqb Pos.eqb negb]. rewrite (idx_ok _ _ _ He). cbn [res_bind].
    rewrite (if_true (negb _)) by (destruct (Z.eqb_spec e "u"%ch); done).
    apply decode_from_app in HD as (t' & Heq & Ht'). apply lookup_lt_Some in He. apply (Hstep _ (S (S i)) t' Ht'); [lia|done].
  - rewrite (idx_ok _ _ _ Hb). cbn [res_bind Z.eqb Pos.eqb negb]. rewrite (idx_ok _ _ _ He). cbn [res_bind Z.eqb Pos.eqb negb].
    rewrite Htr. apply decode_from_app in HD as (t' & -> & Ht'). cbn [app].
    destruct (EncodeRune r) as [|b x] eqn:Ex; [by apply encode_rune_nonempty in Ex|]. cbn [app].
    eexists. split; [done|]. unfold iter_rest. simpl. split_and!; [lia|lia|]. exists t'. done.
Qed.

Lemma iter_equal_ref fuel a b ta tb :
  iter_rest a ta -> iter_rest b tb -> (length ta < fuel)%nat ->
  iter_equal fuel a b = Ok (bool_decide (ta = tb)).
Proof.
  revert a b ta tb. induction fuel as [|fuel IH]; intros a b ta tb Ha Hb Hf; [lia|]. cbn [iter_equal].
  pose proof (iter_next_ref a ta Ha) as Hna. pose proof (iter_next_ref b tb Hb) as Hnb.
  destruct ta as [|x ta], tb as [|y tb]; cbn [res_bind].
  - by rewrite Hna, Hnb.
  - destruct Hnb as (b' & -> & _). by rewrite Hna.
  - destruct Hna as (a' & -> & _). by rewrite Hnb.
  - destruct Hna as (a' & -> & Ha'). destruct Hnb as (b' & -> & Hb'). cbn [res_bind].
    destruct (Z.eqb_spec x y) as [->|Hne]; cbn [negb].
    + rewrite (IH a' b' ta tb) by (done || (simpl in Hf; lia)). f_equal. apply bool_decide_ext. naive_solver.
    + f_equal. symmetry. apply bool_decide_eq_false_2. naive_solver.
Qed.

(** Decoding never lengthens. *)
Lemma esc_ref_shorter l n d : esc_ref l = EscOk n d -> (length d <= n)%nat.
Proof.
  unfold esc_ref. intros H. pose proof (fun r => encode_rune_length r) as Hr.
  repeat case_step_in H; simplify_eq; simpl; try lia; try (etransitivity; [apply Hr|lia]).
Qed.

Lemma unesc_shorter l n d : unesc l n = Some d -> (length d <= length l)%nat.
Proof.
  revert n d. induction l as [l IH] using (induction_ltof1 _ length). intros n d H.
  destruct l as [|c l]; [simpl in *; by simplify_eq|]. cbn [unesc] in H.
  destruct n as [|n]; [|apply IH in H; [simpl; lia|unfold ltof; simpl; lia]].
  destruct (c =? BSLASH).
  - destruct (esc_ref l) as [n x|] eqn:He; [|done]. apply esc_ref_shorter in He as Hx.
    apply esc_ref_sound in He as (s & t & -> & <- & _ & _).
    rewrite unesc_skip, drop_app_length in H by (rewrite length_app; lia).
    destruct (unesc t 0) as [y|] eqn:Hy; [|done]. simplify_eq/=.
    apply IH in Hy; [|unfold ltof; simpl; rewrite length_app; lia]. rewrite !length_app. lia.
  - destruct (unesc l 0) as [y|] eqn:Hy; [|done]. simplify_eq/=.
    apply IH in Hy; [|unfold ltof; simpl; lia]. lia.
Qed.

(** ** String tokens *)

Lemma inner_token s : inner (DQUOTE :: s ++ [DQUOTE]) = s.
Proof.
  unfold inner, slice. cbn [drop length]. rewrite length_app. cbn [length].
  replace (S (length s + 1) - 1 - 1)%nat with (length s) by lia. rewrite drop_0. by rewrite take_app_length.
Qed.

Lemma jstring_inner raw dec : jstring raw dec -> unescape (inner raw) = Some dec.
Proof. destruct 1 as [s dec Hs]. rewrite inner_token. by apply unesc_jchars. Qed.

Lemma unescape_clean s : has_bs s = false -> unescape s = Some s.
Proof.
  intros H. unfold unescape. rewrite <- (app_nil_r s) at 1. rewrite unesc_app_run.
  - simpl. by rewrite app_nil_r.
  - induction s as [|c s IH]; [done|]. simpl in H. apply orb_false_iff in H as [? ?].
    constructor; [lia|auto].
Qed.

(** The flag a string entry carries: set when its text holds an escape. *)
Definition flag_ok (raw : bytes) (flags : Z) : Prop :=
  Z.land flags TapeFlagEscaped = 0 -> has_bs (inner raw) = false.

Lemma clean_flag raw flags dec :
  jstring raw dec -> flag_ok raw flags -> Z.land flags TapeFlagEscaped = 0 -> inner raw = dec.
Proof.
  intros Hj Hf Hz. apply jstring_inner in Hj. rewrite (unescape_clean _ (Hf Hz)) in Hj. congruence.
Qed.

Lemma decode_from_0 raw d : unescape raw = Some d <-> decode_from raw 0 [] = Some d.
Proof. unfold decode_from, unescape. rewrite drop_0. by destruct (unesc raw 0). Qed.

Lemma inner_length raw : (length (inner raw) <= length raw)%nat.
Proof. unfold inner, slice. rewrite length_take, length_drop. lia. Qed.

Lemma tapeKeyEqual_ref raw flags dec key :
  jstring raw dec -> flag_ok raw flags -> tapeKeyEqual raw flags key = Ok (bool_decide (dec = key)).
Proof.
  intros Hj Hf. unfold tapeKeyEqual. destruct (Z.eqb_spec (Z.land flags TapeFlagEscaped) 0) as [E|E].
  - by rewrite (clean_flag _ _ _ Hj Hf E).
  - apply jstring_inner, decode_from_0 in Hj. pose proof (inner_length raw).
    rewrite (key_equal_ref (inner raw) key _ 0 0 dec) by (done || lia). by rewrite drop_0.
Qed.

Lemma iter_start_rest raw d : unescape raw = Some d -> iter_rest (iter_start raw) d.
Proof. intros H%decode_from_0. split_and!; [simpl; lia|simpl; lia|]. by exists d. Qed.

Lemma RawJSONStringEqual_ref a aFlags da b bFlags db :
  jstring a da -> flag_ok a aFlags -> jstring b db -> flag_ok b bFlags ->
  RawJSONStringEqual a aFlags b bFlags = Ok (bool_decide (da = db)).
Proof.
  intros Ha Hfa Hb Hfb. unfold RawJSONStringEqual.
  destruct (Z.eqb_spec (Z.land aFlags TapeFlagEscaped) 0) as [Ea|Ea],
           (Z.eqb_spec (Z.land bFlags TapeFlagEscaped) 0) as [Eb|Eb]; cbn [negb].
  - by rewrite (clean_flag _ _ _ Ha Hfa Ea), (clean_flag _ _ _ Hb Hfb Eb).
  - rewrite (tapeKeyEqual_ref _ _ _ _ Hb Hfb), (clean_flag _ _ _ Ha Hfa Ea). f_equal. by apply bool_decide_ext.
  - by rewrite (tapeKeyEqual_ref _ _ _ _ Ha Hfa), (clean_flag _ _ _ Hb Hfb Eb).
  - apply jstring_inner in Ha, Hb. apply iter_equal_ref; [by apply iter_start_rest..|].
    apply unesc_shorter in Ha. pose proof (inner_length a). lia.
Qed.

Lemma appendDecodedJSONStringTrusted_ref dst raw dec :
  unescape raw = Some dec -> appendDecodedJSONStringTrusted dst raw = Ok (dst ++ dec).
Proof.
  intros H%decode_from_0. apply trusted_loop_ref; [lia|lia|]. unfold decode_from in *.
  rewrite drop_0 in *. destruct (unesc raw 0); by simplify_eq/=.
Qed.

(** ** The raw offset of a decoded offset *)

(** [i] is a boundary of the raw text, [d1] is what stands before it. *)
(** The escape at [i] decodes to more bytes than are still wanted. *)
Definition src_escape_crosses (raw : bytes) (n i : nat) (d1 dec : bytes) : Prop :=
  exists r k, raw !! i = Some BSLASH /\ decode_from raw (S i + k) (d1 ++ r) = Some dec /\
    (n < length d1 + length r)%nat.

Definition offset_found (raw : bytes) (n i : nat) (dec : bytes) : Prop :=
  exists d1 d2, dec = d1 ++ d2 /\ decode_from raw 0 [] = decode_from raw i d1 /\
    (i <= length raw)%nat /\ (length d1 <= n)%nat /\
    (length d1 = n \/ i = length raw \/
     exists r k, raw !! i = Some BSLASH /\ decode_from raw (S i + k) (d1 ++ r) = Some dec /\
       (n < length d1 + length r)%nat).

Lemma raw_offset_ref raw n fuel i d dec :
  (i <= length raw)%nat -> (length raw - i < fuel)%nat -> (length d < n)%nat ->
  decode_from raw 0 [] = Some dec -> decode_from raw i d = Some dec ->
  exists j, raw_offset_loop fuel raw n i (length d) = Ok j /\ offset_found raw n j dec.
Proof.
  intros Hi Hf Hd H0. revert i d Hi Hf Hd. induction fuel as [|fuel IH]; intros i d Hi Hf Hd HD; [lia|].
  cbn [raw_offset_loop].
  assert (Hpre : forall k x, decode_from raw k x = Some dec -> exists y, dec = x ++ y).
  { intros k x. unfold decode_from. destruct (unesc (drop k raw) 0) as [y|]; [|done]. intros [= <-]. eauto. }
  destruct (Nat.ltb_spec i (length raw)) as [Hlt|Hge].
  2:{ eexists. split; [done|]. destruct (Hpre _ _ HD) as (y & Hy). exists d, y.
      replace i with (length raw) in HD by lia. split_and!; [done|by rewrite H0, HD|lia|lia|auto]. }
  assert (Hat : forall j x, (j <= length raw)%nat -> decode_from raw j x = Some dec -> length x = n ->
    exists k, (Ok j : res unit nat) = Ok k /\ offset_found raw n k dec).
  { intros j x Hj Hx Hn. exists j. split; [done|]. destruct (Hpre _ _ Hx) as (y & Hy). exists x, y.
    split_and!; [done|by rewrite H0, Hx|done|lia|auto]. }
  assert (Hin : forall r k, raw !! i = Some BSLASH -> decode_from raw (S i + k) (d ++ r) = Some dec ->
    (n < length d + length r)%nat -> exists j, (Ok i : res unit nat) = Ok j /\ offset_found raw n j dec).
  { intros r k Hb Hx Hn. exists i. split; [done|]. destruct (Hpre _ _ HD) as (y & Hy). exists d, y.
    split_and!; [done|by rewrite H0, HD|lia|lia|]. right. right. exists r, k. done. }
  destruct (decode_cases raw i d dec HD Hlt) as [(c & Hc & Hne & HD')|[(e & Hb & He & Hu & HD')|(k & r & Hb & He & Hn & Hle & Htr & Hs & HD')]].
  - unfold at_byte. rewrite Hc. rewrite (if_true (negb _)) by (destruct (Z.eqb_spec c BSLASH); done). cbv zeta.
    destruct (Nat.leb_spec n (S (length d))).
    + apply (Hat (S i) _ ltac:(lia) HD'). rewrite length_app. simpl. lia.
    + replace (S (length d)) with (length (d ++ [c])) by (rewrite length_app; simpl; lia).
      apply IH; [lia|lia|rewrite length_app; simpl; lia|done].
  - rewrite (proj2 (at_byte_spec _ _ _) Hb). cbn [negb]. rewrite (idx_ok _ _ _ He). cbn [res_bind].
    rewrite (if_true (negb _)) by (destruct (Z.eqb_spec e "u"%ch); done). cbv zeta. apply lookup_lt_Some in He.
    rewrite (if_false (n <? _)%nat) by lia.
    destruct (Nat.eqb_spec n (S (length d))).
    + apply (Hat (S (S i)) _ ltac:(lia) HD'). rewrite length_app. simpl. lia.
    + replace (S (length d)) with (length (d ++ [decodedSimpleEscape e])) by (rewrite length_app; simpl; lia).
      apply IH; [lia|lia|rewrite length_app; simpl; lia|done].
  - rewrite (proj2 (at_byte_spec _ _ _) Hb). cbn [negb]. rewrite (idx_ok _ _ _ He). cbn [res_bind Z.eqb Pos.eqb negb].
    rewrite Htr. unfold RuneLen. destruct (Nat.ltb_spec n (length d + length (EncodeRune r))).
    + by apply (Hin (EncodeRune r) k).
    + destruct (Nat.eqb_spec n (length d + length (EncodeRune r))).
      * apply (Hat (S i + k)%nat _ ltac:(lia) HD'). rewrite length_app. lia.
      * rewrite <- length_app. apply IH; [lia|lia|rewrite length_app; lia|done].
Qed.

Lemma decodedJSONStringRawOffset_ref raw n dec :
  unescape raw = Some dec -> 0 < n ->
  exists j, decodedJSONStringRawOffset raw n = Ok j /\ offset_found raw (Z.to_nat n) j dec.
Proof.
  intros H%decode_from_0 Hn. unfold decodedJSONStringRawOffset. rewrite if_false by lia.
  apply (raw_offset_ref raw (Z.to_nat n) _ 0 []); [lia|lia|simpl; lia|done|done].
Qed.

(** ** Properties *)

(** Both string decoders append the decoded content of a string token to the destination, and the checked one never panics and appends an undecodable text as it is. *)
Theorem decoders_decode dst raw dec :
  bytes_ok raw -> jstring raw dec ->
  AppendDecodedJSONString dst (inner raw) = Ok (dst ++ dec) /\
  appendDecodedJSONStringTrusted dst (inner raw) = Ok (dst ++ dec) /\
  AppendDecodedJSONString dst raw = Ok (dst ++ default raw (unescape raw)).
Proof.
  intros Hok Hj. apply jstring_inner in Hj as Hu.
  assert (Hin : bytes_ok (inner raw)) by by apply slice_bytes.
  split_and!; [|by apply appendDecodedJSONStringTrusted_ref|by apply checked_decoder_ref].
  rewrite checked_decoder_ref by done. by rewrite Hu.
Qed.

Lemma decoders_decode_witness :
  let raw := js "'a\n\u00e9'" in
  exists dec, AppendDecodedJSONString [1] (inner raw) = Ok ([1] ++ dec) /\
  appendDecodedJSONStringTrusted [1] (inner raw) = Ok ([1] ++ dec) /\
  AppendDecodedJSONString [1] raw = Ok ([1] ++ default raw (unescape raw)).
Proof.
  exists [97; 10; 195; 169]. apply decoders_decode; [concrete_bytes|].
  apply (jstring_intro ([97] ++ [BSLASH; "n"%ch] ++ [BSLASH; "u"%ch; 48; 48; 101; 57] ++ []) ([97] ++ [10] ++ [195; 169] ++ [])).
  apply jchars_cons; [by apply jchar_plain|]. apply jchars_cons; [by apply (jchar_simple "n"%ch)|].
  apply jchars_cons; [|constructor]. by apply (jchar_unicode 48 48 101 57 233).
Defined.

(** comparing the raw spelling of a string token with a query, or two raw spellings with each other, decides equality of the decoded contents, whatever the escapes. *)
Theorem raw_string_comparison a aFlags da b bFlags db key :
  jstring a da -> flag_ok a aFlags -> jstring b db -> flag_ok b bFlags ->
  tapeKeyEqual a aFlags key = Ok (bool_decide (da = key)) /\
  RawJSONStringEqual a aFlags b bFlags = Ok (bool_decide (da = db)).
Proof. intros. split; [by apply tapeKeyEqual_ref|by apply RawJSONStringEqual_ref]. Qed.

Lemma raw_string_comparison_witness :
  let a := js "'\u0041'" in let b := js "'A'" in
  tapeKeyEqual a 1 [65] = Ok (bool_decide ([65] = [65])) /\
  RawJSONStringEqual a 1 b 0 = Ok (bool_decide ([65] = [65])).
Proof.
  apply raw_string_comparison.
  - apply (jstring_intro ([BSLASH; "u"%ch; 48; 48; 52; 49] ++ []) ([65] ++ [])).
    apply jchars_cons; [|constructor]. by apply (jchar_unicode 48 48 52 49 65).
  - by intros H.
  - apply (jstring_intro ([65] ++ []) ([65] ++ [])). apply jchars_cons; [|constructor]. by apply jchar_plain.
  - by intros H.
Defined.

(** the raw offset found for a decoded length is in range, and what was decoded up to it is a prefix of the content: exactly the wanted length, unless the string ends first or the next escape crosses it. *)
Theorem raw_offset_of_decoded raw n dec :
  unescape raw = Some dec -> 0 < n ->
  exists j d1 d2, decodedJSONStringRawOffset raw n = Ok j /\ (j <= length raw)%nat /\ dec = d1 ++ d2 /\
    decode_from raw 0 [] = decode_from raw j d1 /\ (length d1 <= Z.to_nat n)%nat /\
    (length d1 = Z.to_nat n \/ j = length raw \/ src_escape_crosses raw (Z.to_nat n) j d1 dec).
Proof.
  intros Hu Hn. destruct (decodedJSONStringRawOffset_ref raw n dec Hu Hn) as (j & Hj & d1 & d2 & Hd & Hf & Hl & Hlen & Hc).
  exists j, d1, d2. by split_and!.
Qed.

Lemma raw_offset_of_decoded_witness :
  let raw := bs "ab\u0041c" in
  exists j d1 d2, decodedJSONStringRawOffset raw 3 = Ok j /\ (j <= length raw)%nat /\ bs "abAc" = d1 ++ d2 /\
    decode_from raw 0 [] = decode_from raw j d1 /\ (length d1 <= 3)%nat /\
    (length d1 = 3%nat \/ j = length raw \/ src_escape_crosses raw 3 j d1 (bs "abAc")).
Proof. apply (raw_offset_of_decoded (bs "ab\u0041c") 3); [vm_compute; reflexivity|lia]. Defined.
