(* ===== verification/Compact.v ===== *)
(** [compact.go]: compaction by a validating recursive descent that copies every
    accepted token.  A method takes the cursor and the output so far. *)

From S2P Require Import Prelude Words Utf8 Scanner Lex Grammar StringRef Errors Numbers Reader Validator Layout.

Definition plain_unexpected (c : Z) : string := "unexpected byte while parsing value".

(** ** Tokens, shared with the indenter *)

Section Tokens.
Context (src : bytes).

(** [appendJSONNumberToken]. *)
Definition appendJSONNumberToken (dst : bytes) (i : nat) : res SyntaxError (bytes * nat) :=
  let start := i in
  let* i := parseNumber src i in
  Ok (dst ++ slice src start i, i).

(** The loop of [appendJSONStringToken]; escapes go through a fresh validator. *)
Fixpoint string_token_loop (fuel : nat) (dst : bytes) (start i : nat) : res SyntaxError (bytes * nat) :=
  match fuel with
  | O => NoFuel
  | S fuel =>
    let j := scanStringSpecial src i in
    match src !! j with
    | None => v_err src (length src) "unterminated string"
    | Some ch =>
      if ch =? DQUOTE then Ok (dst ++ slice src start (S j), S j)
      else if ch =? BSLASH then
  let i := S j in
  if (length src <=? i)%nat then v_err src i "unterminated escape sequence"
  else
    let* i := validateEscape src i in
    string_token_loop fuel dst start i
      else if ch <? 0x20 then v_err src j "unescaped control byte in string"
      else
  match scanStringUnicodeRun src j with
  | (_, Some bad) => v_err src bad "invalid UTF-8 in string"
  | (next, None) => string_token_loop fuel dst start next
  end
    end
  end.

Definition appendJSONStringToken (dst : bytes) (i : nat) : res SyntaxError (bytes * nat) :=
  string_token_loop (S (length src)) dst i (S i).

Definition c_literal (lit : bytes) (dst : bytes) (i : nat) : res SyntaxError (bytes * nat) :=
  if negb (matchStringAt src i lit) then v_err src i "invalid literal"
  else Ok (dst ++ lit, (i + length lit)%nat).
End Tokens.

(** ** The compactor *)

Section Compactor.
Context (src : bytes) (maxDepth : Z).

Definition c_skipSpace (i : nat) : nat := SkipSpace src i.

Section Methods.
Context (value : Z -> bytes -> nat -> res SyntaxError (bytes * nat)).

Fixpoint c_array_loop (fuel : nat) (depth : Z) (dst : bytes) (i : nat) : res SyntaxError (bytes * nat) :=
  match fuel with
  | O => NoFuel
  | S fuel =>
    let i := c_skipSpace i in
    let* (dst, i) := value depth dst i in
    let i := c_skipSpace i in
    match src !! i with
    | None => v_err src i "unterminated array"
    | Some c =>
      if c =? ","%ch then c_array_loop fuel depth (dst ++ [","%ch]) (S i)
      else if c =? "]"%ch then Ok (dst ++ ["]"%ch], S i)
      else v_err src i "expected comma or closing bracket in array"
    end
  end.

Definition c_array (depth : Z) (dst : bytes) (i : nat) : res SyntaxError (bytes * nat) :=
  if maxDepth <? depth then v_err src i "maximum nesting depth exceeded"
  else
  let dst := dst ++ ["["%ch] in
  let i := c_skipSpace (S i) in
  if at_byte src i "]"%ch then Ok (dst ++ ["]"%ch], S i)
  else c_array_loop (S (length src)) depth dst i.

Fixpoint c_object_loop (fuel : nat) (depth : Z) (dst : bytes) (i : nat) : res SyntaxError (bytes * nat) :=
  match fuel with
  | O => NoFuel
  | S fuel =>
    let i := c_skipSpace i in
    if negb (at_byte src i DQUOTE) then v_err src i "expected object key string"
    else
    let* (dst, i) := appendJSONStringToken src dst i in
    let i := c_skipSpace i in
    if negb (at_byte src i ":"%ch) then v_err src i "expected colon after object key"
    else
    let dst := dst ++ [":"%ch] in
    let i := c_skipSpace (S i) in
    let* (dst, i) := value depth dst i in
    let i := c_skipSpace i in
    match src !! i with
    | None => v_err src i "unterminated object"
    | Some c =>
      if c =? ","%ch then c_object_loop fuel depth (dst ++ [","%ch]) (S i)
      else if c =? "}"%ch then Ok (dst ++ ["}"%ch], S i)
      else v_err src i "expected comma or closing brace in object"
    end
  end.

Definition c_object (depth : Z) (dst : bytes) (i : nat) : res SyntaxError (bytes * nat) :=
  if maxDepth <? depth then v_err src i "maximum nesting depth exceeded"
  else
  let dst := dst ++ ["{"%ch] in
  let i := c_skipSpace (S i) in
  if at_byte src i "}"%ch then Ok (dst ++ ["}"%ch], S i)
  else c_object_loop (S (length src)) depth dst i.

Definition c_value_body (depth : Z) (dst : bytes) (i : nat) : res SyntaxError (bytes * nat) :=
  if maxDepth <? depth then v_err src i "maximum nesting depth exceeded"
  else
  match src !! i with
  | None => v_err src i "expected value"
  | Some c =>
    if c =? "n"%ch then c_literal src lit_null dst i
    else if c =? "t"%ch then c_literal src lit_true dst i
    else if c =? "f"%ch then c_literal src lit_false dst i
    else if c =? DQUOTE then appendJSONStringToken src dst i
    else if c =? "["%ch then c_array (depth + 1) dst i
    else if c =? "{"%ch then c_object (depth + 1) dst i
    else if (c =? "-"%ch) || IsDigit c then appendJSONNumberToken src dst i
    else v_err src i "unexpected byte while parsing value"
  end.
End Methods.

Fixpoint c_value (fuel : nat) (depth : Z) (dst : bytes) (i : nat) : res SyntaxError (bytes * nat) :=
  match fuel with
  | O => NoFuel
  | S fuel => c_value_body (c_value fuel) depth dst i
  end.

(** [appendCompactLimit].  On an error the caller gets [dst] back unchanged in
length. *)
Definition appendCompactLimit (dst : bytes) : res SyntaxError bytes :=
  if bool_decide (src = lit_null) || bool_decide (src = lit_true) || bool_decide (src = lit_false)
  then Ok (dst ++ src)
  else
  let i := c_skipSpace 0 in
  let* (dst, i) := c_value (S (length src)) 0 dst i in
  let i := c_skipSpace i in
  if negb (i =? length src)%nat then v_err src i "unexpected data after top-level value"
  else Ok dst.
End Compactor.

Definition appendCompact (dst src : bytes) (maxDepth : Z) : res SyntaxError bytes :=
  appendCompactLimit src (maxDepthOrDefault maxDepth) dst.
Definition AppendCompact (dst src : bytes) : res SyntaxError bytes := appendCompact dst src DefaultMaxDepth.
Definition Compact (src : bytes) : res SyntaxError bytes := AppendCompact [] src.

(** ** The compact text of a tree *)

Fixpoint compact_of (t : tree) : bytes :=
  match t with
  | TArr _ ts => "["%ch :: intercalate [","%ch] (map compact_of ts) ++ ["]"%ch]
  | TObj _ ms =>
      "{"%ch :: intercalate [","%ch] (map (fun m => m.1.1 ++ ":"%ch :: compact_of m.2) ms) ++ ["}"%ch]
  | _ => raw_of t
  end.

(** It is the rendering without whitespace. *)
Lemma compact_render t : forall d, render (fun _ => []) [] d t = compact_of t.
Proof.
  induction t as [| | | |raw ts IH|raw ms IH] using tree_nested_ind; intros d; try done.
  - destruct IH as [|x ts Hx IH]; [done|]. cbn [render compact_of app map]. rewrite Hx, app_nil_r. do 4 f_equal.
    apply map_ext_Forall. eapply Forall_impl; [exact IH|]. auto.
  - destruct IH as [|x ms Hx IH]; [done|]. cbn [render compact_of app map]. rewrite Hx, app_nil_r. do 4 f_equal.
    apply map_ext_Forall. eapply Forall_impl; [exact IH|]. intros y Hy. cbn [app]. by rewrite Hy.
Qed.

Lemma compact_erase t : compact_of (erase t) = compact_of t.
Proof. rewrite <- !(compact_render _ 0). apply render_erase. Qed.

(** Compacting keeps the document: same tokens, same compact text. *)
Lemma compact_reads k src t :
  jdoc k src t -> exists t', jdoc k (compact_of t) t' /\ erase t' = erase t /\ compact_of t' = compact_of t.
Proof.
  intros (w1 & s & w2 & _ & _ & Hv & _).
  destruct (render_reads (fun _ => []) [] ltac:(constructor) ltac:(constructor) k s t 0 Hv) as (t' & Ht & He).
  rewrite compact_render in Ht. exists t'. split_and!; [|done|].
  - exists [], (compact_of t), []. rewrite app_nil_r. split_and!; [done|constructor|done|constructor].
  - by rewrite <- compact_erase, He, compact_erase.
Qed.

(** ** The compactor follows the reference reader *)

Section Refine.
Context (src : bytes) (maxDepth : Z).
Hypothesis Hsrc : bytes_ok src.
Abbreviation rv := (ref_value src maxDepth plain_unexpected).

(** [r] emits [emit a] after [dst] where the reference reads [a]. *)
Definition emits {A} (emit : A -> bytes) (dst : bytes) (r : res SyntaxError (bytes * nat))
  (rr : res rerr (nat * A)) : Prop :=
  match rr with
  | Ok (j, a) => r = Ok (dst ++ emit a, j)
  | Err (o, m) => r = Err (syntax_at src o m)
  | _ => False
  end.

Lemma string_token_loop_ref fuel dst start i out :
  (i <= length src)%nat -> (length src - i < fuel)%nat ->
  string_token_loop src fuel dst start i =
  as_syntax src (fun r => (dst ++ slice src start r.1, r.1)) (str_at src i out).
Proof using Hsrc.
  intros Hi Hf. assert (H : string_token_loop src fuel dst start i =
    let* j := parseString_loop src fuel i in Ok (dst ++ slice src start j, j)).
  { clear Hi Hf. revert i. induction fuel as [|fuel IH]; intros i; cbn [string_token_loop parseString_loop]; [done|].
  cbv zeta. destruct (src !! scanStringSpecial src i) as [c|]; [|done].
  destruct (c =? DQUOTE); [done|]. destruct (c =? BSLASH).
  - destruct (length src <=? S (scanStringSpecial src i))%nat; [done|].
    destruct (validateEscape src (S (scanStringSpecial src i))); cbn [res_bind]; [apply IH|done..].
  - destruct (c <? 0x20); [done|]. destruct (scanStringUnicodeRun src _) as [next [bad|]]; [done|apply IH]. }
    rewrite H, (parseString_loop_ref src Hsrc fuel i out Hi Hf). by destruct (str_at src i out) as [[j d]|[o m]| |].
Qed.

Lemma string_token_ref dst i :
  (i < length src)%nat ->
  appendJSONStringToken src dst i = as_syntax src (fun r => (dst ++ slice src i r.1, r.1)) (ref_str src i).
Proof using Hsrc. intros Hi. by apply string_token_loop_ref; lia. Qed.

Lemma c_skip i : (i <= length src)%nat -> c_skipSpace src i = ref_ws src i.
Proof using Hsrc. apply SkipSpace_spec, Hsrc. Qed.

Definition emits_at (f : Z -> bytes -> nat -> res SyntaxError (bytes * nat))
  (rvf : Z -> nat -> res rerr (nat * tree)) (depth : Z) (bound : nat) : Prop :=
  forall dst i, (bound <= i <= length src)%nat -> emits compact_of dst (f depth dst i) (rvf depth i).

Definition member_text (m : (bytes * bytes) * tree) : bytes := m.1.1 ++ ":"%ch :: compact_of m.2.

Lemma member_text_eq key name t : member_text ((key, name), t) = key ++ ":"%ch :: compact_of t.
Proof using. done. Qed.

Section Containers.
Context (f : Z -> bytes -> nat -> res SyntaxError (bytes * nat)) (rvf : Z -> nat -> res rerr (nat * tree)).
Context (depth : Z) (bound : nat).
Hypothesis Hf : emits_at f rvf depth bound.
Hypothesis Hrd : forall i, (bound <= i <= length src)%nat -> reads src (maxDepth - depth) i (rvf depth i).

(** From any element on, the loop writes the elements left, separated by
commas, and the bracket. *)
Lemma c_array_loop_ref fuel dst i acc :
  (bound <= i <= length src)%nat -> (length src - i < fuel)%nat ->
  match ref_elems src rvf fuel depth i acc with
  | Ok (j, ts) => exists ts', ts = acc ++ ts' /\ ts' <> [] /\
    c_array_loop src f fuel depth dst i =
    Ok (dst ++ intercalate [","%ch] (map compact_of ts') ++ ["]"%ch], j)
  | Err (o, m) => c_array_loop src f fuel depth dst i = Err (syntax_at src o m)
  | _ => False
  end.
Proof using Hf Hrd Hsrc.
  revert i dst acc. induction fuel as [|fuel IH]; intros i dst acc Hi Hfu; [lia|].
  cbn [c_array_loop ref_elems]. rewrite c_skip by lia. pose proof (ref_ws_le src i ltac:(lia)) as H1.
  set (i1 := ref_ws src i) in *. specialize (Hf dst i1 ltac:(lia)) as He. specialize (Hrd i1 ltac:(lia)) as Hr.
  destruct (rvf depth i1) as [[j t]|[o m]| |]; cbn [emits] in He; [| |done|done].
  2:{ by rewrite He. }
  rewrite He. cbn [res_bind]. destruct Hr as (Hj & s & Hs & _). apply span_le in Hs.
  rewrite c_skip by lia. pose proof (ref_ws_le src j ltac:(lia)) as H2. set (k := ref_ws src j) in *.
  at_pos src k as c E; [|done]. apply lookup_lt_Some in E as Hlt. destruct (c =? ","%ch).
  - specialize (IH (S k) ((dst ++ compact_of t) ++ [","%ch]) (acc ++ [t]) ltac:(lia) ltac:(lia)).
    destruct (ref_elems src rvf fuel depth (S k) (acc ++ [t])) as [[j' ts]|[o m]| |]; [|done..].
    destruct IH as (ts' & -> & Hne & ->). exists (t :: ts'). split; [by rewrite <- app_assoc|]. split; [done|].
    destruct ts' as [|u ts']; [done|]. cbn [map]. rewrite (intercalate_cons _ (compact_of t)).
    by rewrite <- !app_assoc.
  - destruct (c =? "]"%ch); [|done]. exists [t]. split; [done|]. split; [done|]. by rewrite <- app_assoc.
Qed.

Lemma c_object_loop_ref fuel dst i acc :
  (bound <= i <= length src)%nat -> (length src - i < fuel)%nat ->
  match ref_members src rvf fuel depth i acc with
  | Ok (j, ms) => exists ms', ms = acc ++ ms' /\ ms' <> [] /\
    c_object_loop src f fuel depth dst i =
    Ok (dst ++ intercalate [","%ch] (map member_text ms') ++ ["}"%ch], j)
  | Err (o, m) => c_object_loop src f fuel depth dst i = Err (syntax_at src o m)
  | _ => False
  end.
Proof using Hf Hrd Hsrc.
  revert i dst acc. induction fuel as [|fuel IH]; intros i dst acc Hi Hfu; [lia|].
  cbn [c_object_loop ref_members]. rewrite c_skip by lia. pose proof (ref_ws_le src i ltac:(lia)) as H1.
  set (i1 := ref_ws src i) in *. cbv zeta. destruct (at_byte src i1 DQUOTE) eqn:Hq; [|done]. cbn [negb].
  apply at_byte_lt in Hq as Hlt1. apply at_byte_spec in Hq.
  rewrite string_token_ref by done. pose proof (ref_str_sound src Hsrc i1 Hq) as Hstr.
  destruct (ref_str src i1) as [[i2 name]|[o m]| |]; cbn [as_syntax res_bind fst]; [|done..].
  destruct Hstr as (Hi2 & key & Hkey & _). apply span_le in Hkey.
  rewrite c_skip by lia. pose proof (ref_ws_le src i2 ltac:(lia)) as H2. set (i3 := ref_ws src i2) in *.
  destruct (at_byte src i3 ":"%ch) eqn:Hc; [|done]. cbn [negb]. apply at_byte_lt in Hc.
  rewrite c_skip by lia. pose proof (ref_ws_le src (S i3) ltac:(lia)) as H3. set (i4 := ref_ws src (S i3)) in *.
  set (dst1 := (dst ++ slice src i1 i2) ++ [":"%ch]).
  specialize (Hf dst1 i4 ltac:(lia)) as He. specialize (Hrd i4 ltac:(lia)) as Hr.
  destruct (rvf depth i4) as [[j t]|[o m]| |]; cbn [emits] in He; [| |done|done].
  2:{ by rewrite He. }
  rewrite He. cbn [res_bind]. destruct Hr as (Hj & s & Hs & _). apply span_le in Hs.
  rewrite c_skip by lia. pose proof (ref_ws_le src j ltac:(lia)) as H5. set (k := ref_ws src j) in *.
  at_pos src k as c E; [|done]. apply lookup_lt_Some in E as Hlt. destruct (c =? ","%ch).
  - specialize (IH (S k) ((dst1 ++ compact_of t) ++ [","%ch]) (acc ++ [((slice src i1 i2, name), t)]) ltac:(lia) ltac:(lia)).
    destruct (ref_members src rvf fuel depth (S k) _) as [[j' ms]|[o m]| |]; [|done..].
    destruct IH as (ms' & -> & Hne & ->). exists (((slice src i1 i2, name), t) :: ms').
    split; [by rewrite <- app_assoc|]. split; [done|].
    destruct ms' as [|u ms']; [done|]. cbn [map].
    rewrite (intercalate_cons _ (member_text (_, t))). unfold dst1. rewrite member_text_eq.
    rewrite <- !app_assoc. cbn [app]. by rewrite <- ?app_assoc.
  - destruct (c =? "}"%ch); [|done]. exists [((slice src i1 i2, name), t)]. split; [done|]. split; [done|].
    unfold dst1. cbn [map intercalate]. rewrite member_text_eq.
    rewrite <- !app_assoc. cbn [app]. by rewrite <- ?app_assoc.
Qed.

Lemma c_array_ref dst i :
  (i < length src)%nat -> (bound <= S i)%nat ->
  emits compact_of dst (c_array src maxDepth f depth dst i) (ref_array src maxDepth rvf depth i).
Proof using Hf Hrd Hsrc.
  intros Hi Hb. unfold c_array, ref_array. destruct (maxDepth <? depth); [done|]. cbv zeta.
  rewrite c_skip by lia. pose proof (ref_ws_le src (S i) ltac:(lia)) as Hle. set (j := ref_ws src (S i)) in *.
  destruct (at_byte src j "]"%ch); [simpl; by rewrite <- app_assoc|].
  pose proof (c_array_loop_ref (S (length src)) (dst ++ ["["%ch]) j [] ltac:(lia) ltac:(lia)) as H.
  destruct (ref_elems _ _ _ _ _ _) as [[k ts]|[o m]| |]; [|done..].
  destruct H as (ts' & -> & _ & ->). simpl. by rewrite <- app_assoc.
Qed.

Lemma c_object_ref dst i :
  (i < length src)%nat -> (bound <= S i)%nat ->
  emits compact_of dst (c_object src maxDepth f depth dst i) (ref_object src maxDepth rvf depth i).
Proof using Hf Hrd Hsrc.
  intros Hi Hb. unfold c_object, ref_object. destruct (maxDepth <? depth); [done|]. cbv zeta.
  rewrite c_skip by lia. pose proof (ref_ws_le src (S i) ltac:(lia)) as Hle. set (j := ref_ws src (S i)) in *.
  destruct (at_byte src j "}"%ch); [simpl; by rewrite <- app_assoc|].
  pose proof (c_object_loop_ref (S (length src)) (dst ++ ["{"%ch]) j [] ltac:(lia) ltac:(lia)) as H.
  destruct (ref_members _ _ _ _ _ _) as [[k ms]|[o m]| |]; [|done..].
  destruct H as (ms' & -> & _ & ->). simpl. by rewrite <- app_assoc.
Qed.
End Containers.

Lemma c_literal_ref lit t dst i :
  raw_of t = lit -> compact_of t = raw_of t ->
  emits compact_of dst (c_literal src lit dst i) (ref_lit src lit t i).
Proof using.
  intros Ht Hc. unfold c_literal, ref_lit. destruct (matchStringAt src i lit); [|done]. cbn [negb emits].
  by rewrite Hc, Ht.
Qed.

Lemma c_number_ref dst i : emits compact_of dst (appendJSONNumberToken src dst i) (ref_num src i).
Proof using.
  unfold appendJSONNumberToken, parseNumber, ref_num. destruct (scanNumber src i) as [j [|]]; done.
Qed.

Lemma c_string_ref dst i :
  src !! i = Some DQUOTE ->
  emits compact_of dst (appendJSONStringToken src dst i)
  (let* (j, dec) := ref_str src i in Ok (j, TStr (slice src i j) dec)).
Proof using Hsrc.
  intros Hq. rewrite string_token_ref by by eapply lookup_lt_Some.
  pose proof (ref_str_sound src Hsrc i Hq) as Hs. by destruct (ref_str src i) as [[j d]|[o m]| |].
Qed.

Lemma c_value_ref fuel depth dst i :
  (i <= length src)%nat -> (length src - i < fuel)%nat ->
  emits compact_of dst (c_value src maxDepth fuel depth dst i) (rv fuel depth i).
Proof using Hsrc.
  revert depth dst i. induction fuel as [|fuel IH]; intros depth dst i Hi Hf; [lia|].
  cbn [c_value ref_value]. unfold c_value_body, ref_body.
  destruct (maxDepth <? depth); [done|]. at_pos src i as c E; [|done]. apply lookup_lt_Some in E as Hlt.
  assert (HF : emits_at (c_value src maxDepth fuel) (rv fuel) (depth + 1) (S i))
    by (intros dst' j Hb; apply IH; lia).
  assert (HR : forall j, (S i <= j <= length src)%nat -> reads src (maxDepth - (depth + 1)) j (rv fuel (depth + 1) j))
    by (intros j Hb; apply ref_value_sound; [done|lia|lia]).
  destruct (c =? "n"%ch); [by apply c_literal_ref|].
  destruct (c =? "t"%ch); [by apply c_literal_ref|].
  destruct (c =? "f"%ch); [by apply c_literal_ref|].
  destruct (Z.eqb_spec c DQUOTE) as [->|]; [by apply c_string_ref|].
  destruct (c =? "["%ch); [by apply (c_array_ref _ _ _ (S i))|].
  destruct (c =? "{"%ch); [by apply (c_object_ref _ _ _ (S i))|].
  destruct (_ || _); [apply c_number_ref|done].
Qed.

(** The whole call follows the reference, the literal shortcut included. *)
Lemma appendCompactLimit_ref dst :
  0 <= maxDepth ->
  appendCompactLimit src maxDepth dst =
  as_syntax src (fun t => dst ++ compact_of t) (ref_doc src maxDepth plain_unexpected).
Proof using Hsrc.
  intros Hd. unfold appendCompactLimit.
  destruct (_ || _) eqn:Hlit.
  { assert (Hone : forall lit t, src = lit -> jvalue maxDepth lit t -> compact_of t = lit ->
    Ok (dst ++ src) = as_syntax src (fun t => dst ++ compact_of t) (ref_doc src maxDepth plain_unexpected)).
  { intros lit t -> Hv Hc. rewrite (ref_doc_complete lit maxDepth plain_unexpected t).
  - cbn [as_syntax]. by rewrite Hc.
  - exists [], lit, []. rewrite app_nil_r. split_and!; [done|constructor|done|constructor]. }
    rewrite !orb_true_iff, !bool_decide_eq_true in Hlit.
    destruct Hlit as [[H|H]|H]; (eapply Hone; [exact H|by constructor|done]). }
    clear Hlit. cbv zeta. unfold ref_doc. rewrite c_skip by lia. pose proof (ref_ws_le src 0 ltac:(lia)) as H0.
    pose proof (c_value_ref (S (length src)) 0 dst (ref_ws src 0) ltac:(lia) ltac:(lia)) as H.
    pose proof (ref_value_sound src maxDepth plain_unexpected Hsrc (S (length src)) 0 (ref_ws src 0)
      ltac:(lia) ltac:(lia)) as Hr.
    destruct (rv (S (length src)) 0 (ref_ws src 0)) as [[j t]|[o m]| |]; cbn [emits] in H; [| |done|done].
    2:{ by rewrite H. }
    rewrite H. cbn [res_bind]. destruct Hr as (Hj & s & Hs & _). apply span_le in Hs. rewrite c_skip by lia.
    by destruct (ref_ws src j =? length src)%nat.
Qed.
End Refine.

(** ** Properties *)

Lemma appendCompact_ref dst src maxDepth :
  bytes_ok src ->
  appendCompact dst src maxDepth =
    as_syntax src (fun t => dst ++ compact_of t) (ref_doc src (maxDepthOrDefault maxDepth) plain_unexpected).
Proof.
  intros Hok. apply appendCompactLimit_ref; [done|]. unfold maxDepthOrDefault, DefaultMaxDepth. case_match; lia.
Qed.

(** C17: compaction succeeds exactly where validation does; it appends the document's tokens with nothing between them, and it rejects every other input at the offset where validation rejects it. *)
Theorem appendCompact_output dst src maxDepth :
  bytes_ok src ->
  match validateOptions src (mkOptions maxDepth false) with
  | Ok _ => exists t, jdoc (maxDepthOrDefault maxDepth) src t /\ appendCompact dst src maxDepth = Ok (dst ++ compact_of t)
  | Err e => exists e', appendCompact dst src maxDepth = Err e' /\ Offset e' = Offset e
  | _ => False
  end.
Proof.
  intros Hok. rewrite validateOptions_ref, appendCompact_ref by done. cbn [MaxDepth].
  set (d := maxDepthOrDefault maxDepth). pose proof (ref_doc_place src d unexpected_byte plain_unexpected) as Hp.
  pose proof (ref_doc_sound src d unexpected_byte Hok) as Hs.
  destruct (ref_doc src d unexpected_byte) as [t|[o m]| |], (ref_doc src d plain_unexpected) as [t'|[o' m']| |];
    cbn [same_place as_syntax] in *; try done.
  - subst. by exists t'.
  - subst. eexists. split; [done|]. by rewrite !syntax_at_offset.
Qed.

Lemma appendCompact_output_witness :
  let src := js " { 'a' : [ 1 , -0.50E+1 , '\u00e9' ] , 'b' : { } } " in
  match validateOptions src (mkOptions 5 false) with
  | Ok _ => exists t, jdoc 5 src t /\ appendCompact [1] src 5 = Ok ([1] ++ compact_of t)
  | Err e => exists e', appendCompact [1] src 5 = Err e' /\ Offset e' = Offset e
  | _ => False
  end.
Proof. apply (appendCompact_output [1] _ 5). concrete_bytes. Defined.

(** compacting is idempotent and keeps the document: the output is a document with the same tokens, and compacting it again changes nothing. *)
Theorem Compact_idempotent src out :
  bytes_ok src -> Compact src = Ok out ->
  Compact out = Ok out /\
  exists t t', jdoc DefaultMaxDepth src t /\ jdoc DefaultMaxDepth out t' /\ erase t' = erase t.
Proof.
  intros Hok. unfold Compact, AppendCompact. rewrite appendCompact_ref by done.
  change (maxDepthOrDefault DefaultMaxDepth) with DefaultMaxDepth.
  destruct (ref_doc src DefaultMaxDepth plain_unexpected) as [t|[o m]| |] eqn:E; cbn [as_syntax]; [|done..].
  intros [= <-]. apply (ref_doc_jdoc _ _ _ _ Hok) in E. destruct (compact_reads _ _ _ E) as (t' & Ht' & He & Hc).
  split; [|by exists t, t']. rewrite appendCompact_ref by by eapply jdoc_bytes.
  rewrite (ref_doc_complete _ _ _ _ Ht'). cbn [as_syntax app]. by rewrite Hc.
Qed.

Lemma Compact_idempotent_witness :
  let src := bs " [ 1 , { } ] " in let out := bs "[1,{}]" in
  Compact out = Ok out /\
  exists t t', jdoc DefaultMaxDepth src t /\ jdoc DefaultMaxDepth out t' /\ erase t' = erase t.
Proof. apply Compact_idempotent; [concrete_bytes|vm_compute; reflexivity]. Defined.
