(* ===== verification/Indent.v ===== *)
(** [indent.go]: indentation by the same validating descent as compaction, which
    writes a line break and the indentation of the nesting depth between tokens
    and copies every token verbatim. *)

From S2P Require Import Prelude Words Utf8 Scanner Lex Grammar StringRef Errors Numbers Reader Validator Layout Compact.

Definition new_line : Z := 10.

Section Indenter.
Context (src : bytes) (maxDepth : Z) (prefix indent : bytes).

Definition i_skipSpace (i : nat) : nat := SkipSpace src i.

(** [for k := 0; k < depth; k++ { dst = append(dst, indent...) }] *)
Fixpoint append_times (depth : nat) (dst : bytes) : bytes :=
  match depth with
  | O => dst
  | S depth => append_times depth (dst ++ indent)
  end.

Definition newline (depth : Z) (dst : bytes) : bytes :=
  let dst := dst ++ [new_line] in
  let dst := dst ++ prefix in
  if bool_decide (indent = []) then dst else append_times (Z.to_nat depth) dst.

Section Methods.
Context (value : Z -> bytes -> nat -> res SyntaxError (bytes * nat)).

Fixpoint i_array_loop (fuel : nat) (depth : Z) (dst : bytes) (i : nat) : res SyntaxError (bytes * nat) :=
  match fuel with
  | O => NoFuel
  | S fuel =>
    let dst := newline (depth + 1) dst in
    let i := i_skipSpace i in
    let* (dst, i) := value (depth + 1) dst i in
    let i := i_skipSpace i in
    match src !! i with
    | None => v_err src i "unterminated array"
    | Some c =>
      if c =? ","%ch then i_array_loop fuel depth (dst ++ [","%ch]) (S i)
      else if c =? "]"%ch then Ok (newline depth dst ++ ["]"%ch], S i)
      else v_err src i "expected comma or closing bracket in array"
    end
  end.

Definition i_array (depth : Z) (dst : bytes) (i : nat) : res SyntaxError (bytes * nat) :=
  if maxDepth <=? depth then v_err src i "maximum nesting depth exceeded"
  else
  let dst := dst ++ ["["%ch] in
  let i := i_skipSpace (S i) in
  if at_byte src i "]"%ch then Ok (dst ++ ["]"%ch], S i)
  else i_array_loop (S (length src)) depth dst i.

Fixpoint i_object_loop (fuel : nat) (depth : Z) (dst : bytes) (i : nat) : res SyntaxError (bytes * nat) :=
  match fuel with
  | O => NoFuel
  | S fuel =>
    let dst := newline (depth + 1) dst in
    let i := i_skipSpace i in
    if negb (at_byte src i DQUOTE) then v_err src i "expected object key string"
    else
    let* (dst, i) := appendJSONStringToken src dst i in
    let i := i_skipSpace i in
    if negb (at_byte src i ":"%ch) then v_err src i "expected colon after object key"
    else
    let dst := dst ++ [":"%ch; " "%ch] in
    let i := i_skipSpace (S i) in
    let* (dst, i) := value (depth + 1) dst i in
    let i := i_skipSpace i in
    match src !! i with
    | None => v_err src i "unterminated object"
    | Some c =>
      if c =? ","%ch then i_object_loop fuel depth (dst ++ [","%ch]) (S i)
      else if c =? "}"%ch then Ok (newline depth dst ++ ["}"%ch], S i)
      else v_err src i "expected comma or closing brace in object"
    end
  end.

Definition i_object (depth : Z) (dst : bytes) (i : nat) : res SyntaxError (bytes * nat) :=
  if maxDepth <=? depth then v_err src i "maximum nesting depth exceeded"
  else
  let dst := dst ++ ["{"%ch] in
  let i := i_skipSpace (S i) in
  if at_byte src i "}"%ch then Ok (dst ++ ["}"%ch], S i)
  else i_object_loop (S (length src)) depth dst i.

Definition i_value_body (depth : Z) (dst : bytes) (i : nat) : res SyntaxError (bytes * nat) :=
  if maxDepth <? depth then v_err src i "maximum nesting depth exceeded"
  else
  match src !! i with
  | None => v_err src i "expected value"
  | Some c =>
    if c =? "n"%ch then c_literal src lit_null dst i
    else if c =? "t"%ch then c_literal src lit_true dst i
    else if c =? "f"%ch then c_literal src lit_false dst i
    else if c =? DQUOTE then appendJSONStringToken src dst i
    else if c =? "["%ch then i_array depth dst i
    else if c =? "{"%ch then i_object depth dst i
    else if (c =? "-"%ch) || IsDigit c then appendJSONNumberToken src dst i
    else v_err src i "unexpected byte while parsing value"
  end.
End Methods.

Fixpoint i_value (fuel : nat) (depth : Z) (dst : bytes) (i : nat) : res SyntaxError (bytes * nat) :=
  match fuel with
  | O => NoFuel
  | S fuel => i_value_body (i_value fuel) depth dst i
  end.

(** The body of [appendIndentBytes], after its depth default. *)
Definition indent_limit (dst : bytes) : res SyntaxError bytes :=
  let i := i_skipSpace 0 in
  let* (dst, i) := i_value (S (length src)) 0 dst i in
  let trailing := i in
  let i := i_skipSpace i in
  if negb (i =? length src)%nat then v_err src i "unexpected data after top-level value"
  else Ok (if negb (trailing =? i)%nat then dst ++ slice src trailing i else dst).
End Indenter.

Definition appendIndentBytes (dst src prefix indent : bytes) (maxDepth : Z) : res SyntaxError bytes :=
  indent_limit src (maxDepthOrDefault maxDepth) prefix indent dst.

(** ** The indented text of a tree *)

Definition line_break (prefix indent : bytes) (d : nat) : bytes :=
  new_line :: prefix ++ mjoin (replicate d indent).

Definition indent_of (prefix indent : bytes) (d : nat) (t : tree) : bytes :=
  render (line_break prefix indent) [" "%ch] d t.

Lemma append_times_spec indent n dst : append_times indent n dst = dst ++ mjoin (replicate n indent).
Proof.
  revert dst. induction n as [|n IH]; intros dst; simpl; [by rewrite app_nil_r|].
  by rewrite IH, <- app_assoc.
Qed.

Lemma newline_spec prefix indent depth dst :
  newline prefix indent depth dst = dst ++ line_break prefix indent (Z.to_nat depth).
Proof.
  unfold newline, line_break. case_bool_decide as Hi.
  - subst. assert (H : forall n, mjoin (replicate n ([] : bytes)) = []) by (induction n; simpl; auto).
    rewrite H, app_nil_r. by rewrite <- app_assoc.
  - rewrite append_times_spec. by rewrite <- !app_assoc.
Qed.

Lemma line_break_ws prefix indent d : ws prefix -> ws indent -> ws (line_break prefix indent d).
Proof.
  intros Hp Hi. constructor; [done|]. apply ws_app; [done|].
  induction d as [|d IH]; simpl; [constructor|by apply ws_app].
Qed.

(** ** The indenter follows the reference reader *)

Section Refine.
Context (src : bytes) (maxDepth : Z) (prefix indent : bytes).
Hypothesis Hsrc : bytes_ok src.
Abbreviation rv := (ref_value src maxDepth plain_unexpected).
Abbreviation brk := (line_break prefix indent).
Abbreviation text := (indent_of prefix indent).

Definition writes_at (f : Z -> bytes -> nat -> res SyntaxError (bytes * nat))
  (rvf : Z -> nat -> res rerr (nat * tree)) (depth : Z) (bound : nat) : Prop :=
  forall dst i, (bound <= i <= length src)%nat ->
  emits src (text (Z.to_nat depth)) dst (f depth dst i) (rvf depth i).

(** The member [m] at level [d]. *)
Definition member_line (d : nat) (m : (bytes * bytes) * tree) : bytes :=
  m.1.1 ++ ":"%ch :: " "%ch :: text d m.2.

Lemma i_skip i : (i <= length src)%nat -> i_skipSpace src i = ref_ws src i.
Proof using Hsrc. apply SkipSpace_spec, Hsrc. Qed.

(** Everything after the first element of a list of texts. *)
Lemma lines_cons d x l :
  l <> [] ->
  intercalate (","%ch :: brk d) (x :: l) = x ++ ","%ch :: brk d ++ intercalate (","%ch :: brk d) l.
Proof using. intros H. rewrite intercalate_cons. by destruct l. Qed.

Section Containers.
Context (f : Z -> bytes -> nat -> res SyntaxError (bytes * nat)) (rvf : Z -> nat -> res rerr (nat * tree)).
Context (depth : Z) (bound : nat).
Hypothesis Hdepth : 0 <= depth.
Hypothesis Hf : writes_at f rvf (depth + 1) bound.
Hypothesis Hrd : forall i, (bound <= i <= length src)%nat ->
  reads src (maxDepth - (depth + 1)) i (rvf (depth + 1) i).
Abbreviation inner_d := (S (Z.to_nat depth)).

Lemma inner_depth : Z.to_nat (depth + 1) = inner_d.
Proof using Hdepth. lia. Qed.

Lemma i_array_loop_ref fuel dst i acc :
  (bound <= i <= length src)%nat -> (length src - i < fuel)%nat ->
  match ref_elems src rvf fuel (depth + 1) i acc with
  | Ok (j, ts) => exists ts', ts = acc ++ ts' /\ ts' <> [] /\
    i_array_loop src prefix indent f fuel depth dst i =
    Ok (dst ++ brk inner_d ++ intercalate (","%ch :: brk inner_d) (map (text inner_d) ts') ++
    brk (Z.to_nat depth) ++ ["]"%ch], j)
  | Err (o, m) => i_array_loop src prefix indent f fuel depth dst i = Err (syntax_at src o m)
  | _ => False
  end.
Proof using Hf Hrd Hsrc Hdepth.
  revert i dst acc. induction fuel as [|fuel IH]; intros i dst acc Hi Hfu; [lia|].
  cbn [i_array_loop ref_elems]. rewrite i_skip by lia. pose proof (ref_ws_le src i ltac:(lia)) as H1.
  set (i1 := ref_ws src i) in *. cbv zeta. rewrite newline_spec, inner_depth.
  specialize (Hf (dst ++ brk inner_d) i1 ltac:(lia)) as He. specialize (Hrd i1 ltac:(lia)) as Hr.
  destruct (rvf (depth + 1) i1) as [[j t]|[o m]| |]; cbn [emits] in He; [| |done|done].
  2:{ by rewrite He. }
  rewrite He, inner_depth. cbn [res_bind]. destruct Hr as (Hj & s & Hs & _). apply span_le in Hs.
  rewrite i_skip by lia. pose proof (ref_ws_le src j ltac:(lia)) as H2. set (k := ref_ws src j) in *.
  at_pos src k as c E; [|done]. apply lookup_lt_Some in E as Hlt. destruct (c =? ","%ch).
  - set (dst1 := (_ ++ text inner_d t) ++ [","%ch]).
    specialize (IH (S k) dst1 (acc ++ [t]) ltac:(lia) ltac:(lia)).
    destruct (ref_elems src rvf fuel (depth + 1) (S k) (acc ++ [t])) as [[j' ts]|[o m]| |]; [|done..].
    destruct IH as (ts' & -> & Hne & ->). exists (t :: ts'). split; [by rewrite <- app_assoc|]. split; [done|].
    cbn [map]. rewrite lines_cons by by destruct ts'. unfold dst1. by norm_app.
  - destruct (c =? "]"%ch); [|done]. exists [t]. split; [done|]. split; [done|].
    rewrite newline_spec. cbn [map intercalate]. by norm_app.
Qed.

Lemma i_object_loop_ref fuel dst i acc :
  (bound <= i <= length src)%nat -> (length src - i < fuel)%nat ->
  match ref_members src rvf fuel (depth + 1) i acc with
  | Ok (j, ms) => exists ms', ms = acc ++ ms' /\ ms' <> [] /\
    i_object_loop src prefix indent f fuel depth dst i =
    Ok (dst ++ brk inner_d ++ intercalate (","%ch :: brk inner_d) (map (member_line inner_d) ms') ++
    brk (Z.to_nat depth) ++ ["}"%ch], j)
  | Err (o, m) => i_object_loop src prefix indent f fuel depth dst i = Err (syntax_at src o m)
  | _ => False
  end.
Proof using Hf Hrd Hsrc Hdepth.
  revert i dst acc. induction fuel as [|fuel IH]; intros i dst acc Hi Hfu; [lia|].
  cbn [i_object_loop ref_members]. rewrite i_skip by lia. pose proof (ref_ws_le src i ltac:(lia)) as H1.
  set (i1 := ref_ws src i) in *. cbv zeta. rewrite newline_spec, inner_depth.
  destruct (at_byte src i1 DQUOTE) eqn:Hq; [|done]. cbn [negb].
  apply at_byte_lt in Hq as Hlt1. apply at_byte_spec in Hq.
  rewrite string_token_ref by done. pose proof (ref_str_sound src Hsrc i1 Hq) as Hstr.
  destruct (ref_str src i1) as [[i2 name]|[o m]| |]; cbn [as_syntax res_bind fst]; [|done..].
  destruct Hstr as (Hi2 & key & Hkey & _). apply span_le in Hkey.
  rewrite i_skip by lia. pose proof (ref_ws_le src i2 ltac:(lia)) as H2. set (i3 := ref_ws src i2) in *.
  destruct (at_byte src i3 ":"%ch) eqn:Hc; [|done]. cbn [negb]. apply at_byte_lt in Hc.
  rewrite i_skip by lia. pose proof (ref_ws_le src (S i3) ltac:(lia)) as H3. set (i4 := ref_ws src (S i3)) in *.
  set (dst1 := (_ ++ slice src i1 i2) ++ [":"%ch; " "%ch]).
  specialize (Hf dst1 i4 ltac:(lia)) as He. specialize (Hrd i4 ltac:(lia)) as Hr.
  destruct (rvf (depth + 1) i4) as [[j t]|[o m]| |]; cbn [emits] in He; [| |done|done].
  2:{ by rewrite He. }
  rewrite He, inner_depth. cbn [res_bind]. destruct Hr as (Hj & s & Hs & _). apply span_le in Hs.
  rewrite i_skip by lia. pose proof (ref_ws_le src j ltac:(lia)) as H5. set (k := ref_ws src j) in *.
  at_pos src k as c E; [|done]. apply lookup_lt_Some in E as Hlt.
  set (m := ((slice src i1 i2, name), t)).
  assert (Hm : dst1 ++ text inner_d t = dst ++ brk inner_d ++ member_line inner_d m).
  { unfold dst1, m, member_line. cbn [fst snd]. by norm_app. }
  rewrite Hm. destruct (c =? ","%ch).
  - specialize (IH (S k) ((dst ++ brk inner_d ++ member_line inner_d m) ++ [","%ch]) (acc ++ [m])
      ltac:(lia) ltac:(lia)).
    destruct (ref_members src rvf fuel (depth + 1) (S k) _) as [[j' ms]|[o' m']| |]; [|done..].
    destruct IH as (ms' & -> & Hne & ->). exists (m :: ms').
    split; [by rewrite <- app_assoc|]. split; [done|]. cbn [map].
    rewrite lines_cons by by destruct ms'. by norm_app.
  - destruct (c =? "}"%ch); [|done]. exists [m]. split; [done|]. split; [done|].
    rewrite newline_spec. cbn [map intercalate]. by norm_app.
Qed.

Lemma i_array_ref dst i :
  (i < length src)%nat -> (bound <= S i)%nat ->
  emits src (text (Z.to_nat depth)) dst (i_array src maxDepth prefix indent f depth dst i)
  (ref_array src maxDepth rvf (depth + 1) i).
Proof using Hf Hrd Hsrc Hdepth.
  intros Hi Hb. unfold i_array, ref_array.
  replace (maxDepth <=? depth) with (maxDepth <? depth + 1) by lia.
  destruct (maxDepth <? depth + 1); [done|]. cbv zeta.
  rewrite i_skip by lia. pose proof (ref_ws_le src (S i) ltac:(lia)) as Hle. set (j := ref_ws src (S i)) in *.
  destruct (at_byte src j "]"%ch); [simpl; by rewrite <- app_assoc|].
  pose proof (i_array_loop_ref (S (length src)) (dst ++ ["["%ch]) j [] ltac:(lia) ltac:(lia)) as H.
  destruct (ref_elems _ _ _ _ _ _) as [[k ts]|[o m]| |]; [|done..].
  destruct H as (ts' & -> & Hne & ->). destruct ts' as [|u ts']; [done|].
  cbn [res_bind emits app]. unfold indent_of. cbn [render map]. f_equal. f_equal.
  by norm_app.
Qed.

Lemma i_object_ref dst i :
  (i < length src)%nat -> (bound <= S i)%nat ->
  emits src (text (Z.to_nat depth)) dst (i_object src maxDepth prefix indent f depth dst i)
  (ref_object src maxDepth rvf (depth + 1) i).
Proof using Hf Hrd Hsrc Hdepth.
  intros Hi Hb. unfold i_object, ref_object.
  replace (maxDepth <=? depth) with (maxDepth <? depth + 1) by lia.
  destruct (maxDepth <? depth + 1); [done|]. cbv zeta.
  rewrite i_skip by lia. pose proof (ref_ws_le src (S i) ltac:(lia)) as Hle. set (j := ref_ws src (S i)) in *.
  destruct (at_byte src j "}"%ch); [simpl; by rewrite <- app_assoc|].
  pose proof (i_object_loop_ref (S (length src)) (dst ++ ["{"%ch]) j [] ltac:(lia) ltac:(lia)) as H.
  destruct (ref_members _ _ _ _ _ _) as [[k ms]|[o m]| |]; [|done..].
  destruct H as (ms' & -> & Hne & ->). destruct ms' as [|u ms']; [done|].
  cbn [res_bind emits app]. unfold indent_of. cbn [render map]. f_equal. f_equal.
  by norm_app.
Qed.
End Containers.

(** The tokens do not depend on the depth. *)
Lemma emits_token (r : res SyntaxError (bytes * nat)) d dst rr :
  match rr with Ok (_, t) => compact_of t = text d t | _ => True end ->
  emits src compact_of dst r rr -> emits src (text d) dst r rr.
Proof using. destruct rr as [[j t]|[o m]| |]; cbn [emits]; try done. by intros ->. Qed.

Lemma i_value_ref fuel depth dst i :
  0 <= depth -> (i <= length src)%nat -> (length src - i < fuel)%nat ->
  emits src (text (Z.to_nat depth)) dst (i_value src maxDepth prefix indent fuel depth dst i) (rv fuel depth i).
Proof using Hsrc.
  revert depth dst i. induction fuel as [|fuel IH]; intros depth dst i Hd Hi Hf; [lia|].
  cbn [i_value ref_value]. unfold i_value_body, ref_body.
  destruct (maxDepth <? depth); [done|]. at_pos src i as c E; [|done]. apply lookup_lt_Some in E as Hlt.
  assert (HF : writes_at (i_value src maxDepth prefix indent fuel) (rv fuel) (depth + 1) (S i))
    by (intros dst' j Hb; apply IH; lia).
  assert (HR : forall j, (S i <= j <= length src)%nat -> reads src (maxDepth - (depth + 1)) j (rv fuel (depth + 1) j))
    by (intros j Hb; apply ref_value_sound; [done|lia|lia]).
  destruct (c =? "n"%ch);
    [apply emits_token; [unfold ref_lit; by destruct (matchStringAt _ _ _)|by apply c_literal_ref]|].
  destruct (c =? "t"%ch);
    [apply emits_token; [unfold ref_lit; by destruct (matchStringAt _ _ _)|by apply c_literal_ref]|].
  destruct (c =? "f"%ch);
    [apply emits_token; [unfold ref_lit; by destruct (matchStringAt _ _ _)|by apply c_literal_ref]|].
  destruct (Z.eqb_spec c DQUOTE) as [->|].
  { apply emits_token; [by destruct (ref_str src i) as [[]|[]| |]|by apply c_string_ref]. }
  destruct (c =? "["%ch); [by apply (i_array_ref _ _ _ (S i))|].
  destruct (c =? "{"%ch); [by apply (i_object_ref _ _ _ (S i))|].
  destruct (_ || _); [|done]. apply emits_token; [|apply c_number_ref].
  unfold ref_num. by destruct (scanNumber src i) as [j [|]].
Qed.
End Refine.

(** The whole call: the indented text of the document, then the source's own
    trailing whitespace. *)
Section Document.
Context (src : bytes) (maxDepth : Z) (prefix indent : bytes).
Hypothesis Hsrc : bytes_ok src.

Lemma indent_limit_ref dst :
  exists i, (i <= length src)%nat /\ ws (drop i src) /\
  indent_limit src maxDepth prefix indent dst =
  as_syntax src (fun t => dst ++ indent_of prefix indent 0 t ++ drop i src)
  (ref_doc src maxDepth plain_unexpected).
Proof using Hsrc.
  unfold indent_limit, ref_doc. rewrite i_skip by (done || lia). cbv zeta.
  pose proof (ref_ws_le src 0 ltac:(lia)) as H0.
  pose proof (i_value_ref src maxDepth prefix indent Hsrc (S (length src)) 0 dst (ref_ws src 0)
    ltac:(lia) ltac:(lia) ltac:(lia)) as H.
  pose proof (ref_value_sound src maxDepth plain_unexpected Hsrc (S (length src)) 0 (ref_ws src 0)
    ltac:(lia) ltac:(lia)) as Hr.
  assert (Hend : forall e, exists i, (i <= length src)%nat /\ ws (drop i src) /\
    (Err e : res SyntaxError bytes) = Err e) by (intros e; exists (length src); rewrite drop_all; split_and!;
    [lia|constructor|done]).
  destruct (ref_value _ _ _ _ _ _) as [[j t]|[o m]| |]; cbn [emits] in H; [| |done|done].
  2:{ rewrite H. apply Hend. }
  rewrite H. cbn [res_bind]. destruct Hr as (Hj & s & Hs & _). apply span_le in Hs.
  rewrite i_skip by (done || lia). pose proof (ref_ws_le src j ltac:(lia)) as H1.
  destruct (Nat.eqb_spec (ref_ws src j) (length src)) as [He|He]; cbn [negb]; [|apply Hend].
  exists j. split; [lia|]. destruct (advance_span IsJSONWhitespace src j ltac:(lia)) as (w & (Hw & _ & _) & Hall & _).
  fold (ref_ws src j) in Hw. rewrite He, drop_all, app_nil_r in Hw. rewrite Hw. split; [done|].
  cbn [as_syntax]. f_equal. change (Z.to_nat 0) with 0%nat. destruct (Nat.eqb_spec j (ref_ws src j)) as [Hj'|Hj']; cbn [negb].
  - assert (w = []) as ->.
    { rewrite <- Hw, drop_ge by lia. done. }
    by rewrite app_nil_r.
  - rewrite He, slice_all, Hw. by rewrite <- app_assoc.
Qed.
End Document.

(** The indented text is the same document: it reads back to the same tokens
    when the prefix and the indentation are whitespace. *)
Lemma indent_reads k src t prefix indent d :
  jdoc k src t -> ws prefix -> ws indent ->
  exists t', jvalue k (indent_of prefix indent d t) t' /\ erase t' = erase t.
Proof.
  intros (w1 & s & w2 & _ & _ & Hv & _) Hp Hi.
  apply (render_reads (line_break prefix indent) [" "%ch]) with (s := s);
    [intros; by apply line_break_ws|by repeat constructor|done].
Qed.

(** ** Properties *)

Lemma appendIndentBytes_ref dst src prefix indent maxDepth :
  bytes_ok src ->
  exists i, (i <= length src)%nat /\ ws (drop i src) /\
    appendIndentBytes dst src prefix indent maxDepth =
      as_syntax src (fun t => dst ++ indent_of prefix indent 0 t ++ drop i src)
        (ref_doc src (maxDepthOrDefault maxDepth) plain_unexpected).
Proof. intros Hok. by apply indent_limit_ref. Qed.

(** indentation succeeds exactly where validation does; it appends one line per element and member, indented by prefix and depth, then the source's own trailing whitespace, and it rejects every other input at the offset where validation rejects it. *)
Theorem appendIndentBytes_output dst src prefix indent maxDepth :
  bytes_ok src ->
  match validateOptions src (mkOptions maxDepth false) with
  | Ok _ => exists t i, jdoc (maxDepthOrDefault maxDepth) src t /\ ws (drop i src) /\
      appendIndentBytes dst src prefix indent maxDepth = Ok (dst ++ indent_of prefix indent 0 t ++ drop i src)
  | Err e => exists e', appendIndentBytes dst src prefix indent maxDepth = Err e' /\ Offset e' = Offset e
  | _ => False
  end.
Proof.
  intros Hok. rewrite validateOptions_ref by done. cbn [MaxDepth].
  destruct (appendIndentBytes_ref dst src prefix indent maxDepth Hok) as (i & Hi & Hw & ->).
  set (d := maxDepthOrDefault maxDepth). pose proof (ref_doc_place src d unexpected_byte plain_unexpected) as Hp.
  pose proof (ref_doc_sound src d unexpected_byte Hok) as Hs.
  destruct (ref_doc src d unexpected_byte) as [t|[o m]| |], (ref_doc src d plain_unexpected) as [t'|[o' m']| |];
    cbn [same_place as_syntax] in *; try done.
  - subst. by exists t', i.
  - subst. eexists. split; [done|]. by rewrite !syntax_at_offset.
Qed.

Lemma appendIndentBytes_output_witness :
  let src := js "{'a':[1,{}],'b':[]} " in let indent := bs "  " in
  match validateOptions src (mkOptions 0 false) with
  | Ok _ => exists t i, jdoc DefaultMaxDepth src t /\ ws (drop i src) /\
      appendIndentBytes [] src [] indent 0 = Ok ([] ++ indent_of [] indent 0 t ++ drop i src)
  | Err e => exists e', appendIndentBytes [] src [] indent 0 = Err e' /\ Offset e' = Offset e
  | _ => False
  end.
Proof. apply (appendIndentBytes_output [] _ [] (bs "  ") 0). concrete_bytes. Defined.

(** C34: indentation with a whitespace prefix and indentation loses nothing: its output validates under the same depth limit, and compacting it gives what compacting the source gives. *)
Theorem indent_then_compact src prefix indent maxDepth out :
  bytes_ok src -> ws prefix -> ws indent ->
  appendIndentBytes [] src prefix indent maxDepth = Ok out ->
  validateOptions out (mkOptions maxDepth false) = Ok tt /\
  appendCompact [] out maxDepth = appendCompact [] src maxDepth /\ is_ok (appendCompact [] src maxDepth) = true.
Proof.
  intros Hok Hp Hi. destruct (appendIndentBytes_ref [] src prefix indent maxDepth Hok) as (i & _ & Hw & ->).
  rewrite (appendCompact_ref [] src) by done.
  destruct (ref_doc src _ plain_unexpected) as [t|[o m]| |] eqn:E; cbn [as_syntax app]; [|done..].
  intros [= <-]. apply (ref_doc_jdoc _ _ _ _ Hok) in E.
  destruct (indent_reads _ _ _ prefix indent 0 E Hp Hi) as (t' & Hv & He).
  assert (Hd : jdoc (maxDepthOrDefault maxDepth) (indent_of prefix indent 0 t ++ drop i src) t').
  { exists [], (indent_of prefix indent 0 t), (drop i src). by split_and!; [|constructor|..]. }
  pose proof (jdoc_bytes _ _ _ Hd) as Hb. rewrite validateOptions_ref, appendCompact_ref by done. cbn [MaxDepth].
  rewrite !(ref_doc_complete _ _ _ _ Hd). cbn [as_syntax app]. split; [done|]. split; [|done].
  by rewrite <- (compact_erase t'), He, compact_erase.
Qed.

Lemma indent_then_compact_witness :
  let src := bs "[1,[2,3], {}]" in
  exists out, validateOptions out (mkOptions 0 false) = Ok tt /\
  appendCompact [] out 0 = appendCompact [] src 0 /\ is_ok (appendCompact [] src 0) = true.
Proof.
  eexists. apply (indent_then_compact _ (bs " ") (bs "	")); [concrete_bytes|by repeat constructor..|vm_compute; reflexivity].
Defined.
