(* ===== verification/KeyHash.v ===== *)
(** [index_keyhash.go]: the hash of an object key, over its raw bytes with word
    gathers and over a word already loaded.  Every load is checked: [None] is a
    read outside the content. *)

From S2P Require Import Prelude Words.

Definition KeyHashSeed : Z := 0x9E3779B97F4A7C15.
Definition KeyHashMul : Z := 0xFF51AFD7ED558CCD.

Definition KeyHashInit (n : Z) : Z := Z.lxor KeyHashSeed (w64 (w64 n * KeyHashMul)).

Definition KeyHashMix (h w : Z) : Z := w64 (Z.lxor h w * KeyHashMul).

Definition KeyHashFinish (h : Z) : Z :=
  let h := Z.lxor h (Z.shiftr h 29) in
  let h := w64 (h * KeyHashSeed) in
  w32 (Z.shiftr h 32).

(** [*(\*[8]byte)(unsafe.Add(base, i))] and its smaller forms. *)
Definition mem64 (l : bytes) (i : nat) : option Z :=
  if (i + 8 <=? length l)%nat then Some (load64 l i) else None.
Definition mem32 (l : bytes) (i : nat) : option Z :=
  if (i + 4 <=? length l)%nat then Some (load32 l i) else None.
Definition mem8 (l : bytes) (i : nat) : option Z := l !! i.

(** [for i := 8; i < n; i += 8 { h = KeyHashMix(h, load(i - 8)) }] *)
Fixpoint hash_words (fuel : nat) (content : bytes) (i : nat) (h : Z) : option Z :=
  match fuel with
  | O => None
  | S fuel =>
      if (i <? length content)%nat then
        w ← mem64 content (i - 8);
        hash_words fuel content (i + 8) (KeyHashMix h w)
      else Some h
  end.

(** The sub-word gathers. *)
Definition gather4 (content : bytes) : option Z :=
  let n := length content in
  lo ← mem32 content 0;
  hi ← mem32 content (n - 4);
  Some (Z.lor lo (w64 (Z.shiftl hi (8 * (Z.of_nat n - 4))))).

Definition gather1 (content : bytes) : option Z :=
  let n := length content in
  if (0 <? n)%nat then
    a ← mem8 content 0;
    b ← mem8 content (n / 2);
    c ← mem8 content (n - 1);
    Some (Z.lor (Z.lor a (w64 (Z.shiftl b (8 * (Z.of_nat n / 2)))))
                (w64 (Z.shiftl c (8 * (Z.of_nat n - 1)))))
  else Some 0.

Definition HashKeyContent (content : bytes) : option Z :=
  let n := length content in
  let h := KeyHashInit (Z.of_nat n) in
  h ← (if (8 <=? n)%nat then
         h ← hash_words (S n) content 8 h;
         w ← mem64 content (n - 8);
         Some (KeyHashMix h w)
       else if (4 <=? n)%nat then
         w ← gather4 content;
         Some (KeyHashMix h w)
       else
         w ← gather1 content;
         Some (KeyHashMix h w));
  Some (KeyHashFinish h).

(** The first [n] bytes of a word, [0 <= n <= 8]. *)
Definition hashKeyContentWord (word n : Z) : Z :=
  let word := Z.land word (Z.shiftr (2 ^ 64 - 1) (8 * (8 - n))) in
  KeyHashFinish (KeyHashMix (KeyHashInit n) word).

Definition HashKey (key : bytes) : option Z := HashKeyContent key.

(** ** Reference: mix the content word by word *)

(** The words the hash folds in: every full word but the last bytes, then the
    word that ends the content; a short content is one zero-padded word. *)
Fixpoint word_starts (fuel : nat) (n i : nat) : list nat :=
  match fuel with
  | O => []
  | S fuel => if (i <? n)%nat then (i - 8)%nat :: word_starts fuel n (i + 8) else []
  end.

Definition hash_input (content : bytes) : list Z :=
  let n := length content in
  if (8 <=? n)%nat then map (load64 content) (word_starts (S n) n 8 ++ [(n - 8)%nat])
  else [le_word content].

Definition hash_ref (content : bytes) : Z :=
  KeyHashFinish (fold_left KeyHashMix (hash_input content) (KeyHashInit (Z.of_nat (length content)))).

(** ** The gathers rebuild the zero-padded word *)

Lemma le_word_bit l n :
  bytes_ok l -> 0 <= n ->
  Z.testbit (le_word l) n =
    match l !! Z.to_nat (n / 8) with Some v => Z.testbit v (n mod 8) | None => false end.
Proof.
  intros Hl Hn. pose proof (Z.mod_pos_bound n 8 ltac:(lia)) as Hm.
  pose proof (Z.div_mod n 8 ltac:(lia)) as Hd. pose proof (Z.div_pos n 8 Hn ltac:(lia)) as Hq.
  destruct (l !! Z.to_nat (n / 8)) as [v|] eqn:E.
  - replace n with (8 * Z.of_nat (Z.to_nat (n / 8)) + n mod 8) at 1 by lia. by apply le_word_testbit_ok.
  - apply lookup_ge_None in E. apply le_word_testbit_high; [done|lia].
Qed.

(** A slice shifted to its own place is the content's word on those lanes. *)
Lemma shifted_slice_bit l i k n :
  bytes_ok l -> (i + k <= length l)%nat -> 0 <= n ->
  Z.testbit (Z.shiftl (le_word (slice l i (i + k))) (8 * Z.of_nat i)) n =
    (8 * Z.of_nat i <=? n) && (n <? 8 * Z.of_nat (i + k)) && Z.testbit (le_word l) n.
Proof.
  intros Hl Hi Hn. assert (Hs : bytes_ok (slice l i (i + k))) by (by apply Forall_take, Forall_drop).
  rewrite Z.shiftl_spec by done. destruct (Z.leb_spec (8 * Z.of_nat i) n) as [Hle|Hgt]; cbn [andb].
  - rewrite !le_word_bit by (done || lia). unfold slice.
    replace ((n - 8 * Z.of_nat i) / 8) with (n / 8 - Z.of_nat i) by div_lia.
    replace ((n - 8 * Z.of_nat i) mod 8) with (n mod 8) by div_lia.
    destruct (Z.ltb_spec n (8 * Z.of_nat (i + k))) as [Hlt|Hge]; cbn [andb].
    + rewrite lookup_take_lt, lookup_drop by div_lia.
      replace (i + Z.to_nat (n / 8 - Z.of_nat i))%nat with (Z.to_nat (n / 8)) by div_lia. done.
    + by rewrite lookup_take_ge by div_lia.
  - apply Z.testbit_neg_r. lia.
Qed.

(** Slices that cover a content of at most a word together rebuild its word. *)
Lemma le_word_small l : bytes_ok l -> (length l <= 8)%nat -> 0 <= le_word l < 2 ^ 64.
Proof.
  intros Hl Hn. pose proof (le_word_bound l Hl).
  assert (2 ^ (8 * Z.of_nat (length l)) <= 2 ^ 64) by (apply Z.pow_le_mono_r; lia). lia.
Qed.

Lemma shifted_slice_w64 l i k :
  bytes_ok l -> (length l <= 8)%nat -> (i + k <= length l)%nat ->
  w64 (Z.shiftl (le_word (slice l i (i + k))) (8 * Z.of_nat i)) =
    Z.shiftl (le_word (slice l i (i + k))) (8 * Z.of_nat i).
Proof.
  intros Hl Hn Hi. apply Z.mod_small.
  assert (Hs : bytes_ok (slice l i (i + k))) by (by apply Forall_take, Forall_drop).
  pose proof (le_word_bound _ Hs) as Hb. split; [apply Z.shiftl_nonneg; lia|].
  apply pow2_bits; [apply Z.shiftl_nonneg; lia|lia|]. intros n Hm.
  rewrite shifted_slice_bit by (done || lia). rewrite (le_word_testbit_high l n) by (done || lia).
  by rewrite andb_false_r.
Qed.

Lemma slice_prefix (l : bytes) k : slice l 0 (0 + k) = take k l.
Proof. unfold slice. by rewrite drop_0, Nat.sub_0_r. Qed.

Lemma gather4_spec l :
  bytes_ok l -> (4 <= length l < 8)%nat -> gather4 l = Some (le_word l).
Proof.
  intros Hl Hn. unfold gather4, mem32, load32. cbv zeta. do 2 rewrite (proj2 (Nat.leb_le _ _)) by lia.
  cbn [mbind option_bind]. f_equal.
  replace (8 * (Z.of_nat (length l) - 4)) with (8 * Z.of_nat (length l - 4)) by lia.
  rewrite shifted_slice_w64 by (done || lia). apply Z.bits_inj'. intros n Hm.
  rewrite Z.lor_spec, shifted_slice_bit by (done || lia).
  pose proof (shifted_slice_bit l 0 4 n Hl ltac:(lia) Hm) as H0. rewrite Z.shiftl_0_r in H0. rewrite H0.
  destruct (Z.ltb_spec n (8 * Z.of_nat (length l))) as [Hlt|Hge].
  - destruct (Z.testbit (le_word l) n); rewrite ?andb_true_r, ?andb_false_r; [lia|done].
  - rewrite le_word_testbit_high by (done || lia). by rewrite !andb_false_r.
Qed.

Lemma slice_single (l : bytes) i v : l !! i = Some v -> le_word (slice l i (i + 1)) = v.
Proof.
  intros H. unfold slice. rewrite (drop_S _ _ _ H). replace (i + 1 - i)%nat with 1%nat by lia.
  change (le_word [v] = v). cbn [le_word]. lia.
Qed.

Lemma gather1_spec l :
  bytes_ok l -> (length l < 4)%nat -> gather1 l = Some (le_word l).
Proof.
  intros Hl Hn. unfold gather1. destruct (Nat.ltb_spec 0 (length l)) as [Hp|Hz].
  2:{ by destruct l; [|simpl in Hz; lia]. }
  unfold mem8. set (m := (length l / 2)%nat).
  assert (Hm2 : (m < length l)%nat) by (apply Nat.div_lt; lia).
  assert (Hmid : (length l = 3 -> m = 1)%nat) by (unfold m; by intros ->).
  replace (8 * (Z.of_nat (length l) / 2)) with (8 * Z.of_nat m) by (unfold m; rewrite Nat2Z.inj_div; lia).
  destruct (lookup_lt_is_Some_2 l 0 ltac:(lia)) as [a Ha]. destruct (lookup_lt_is_Some_2 l m ltac:(lia)) as [b Hb].
  destruct (lookup_lt_is_Some_2 l (length l - 1) ltac:(lia)) as [c Hc]. rewrite Ha, Hb, Hc.
  cbn [mbind option_bind]. f_equal.
  replace (8 * (Z.of_nat (length l) - 1)) with (8 * Z.of_nat (length l - 1)) by lia.
  rewrite <- (slice_single _ _ _ Ha), <- (slice_single _ _ _ Hb), <- (slice_single _ _ _ Hc).
  rewrite !shifted_slice_w64 by (done || lia). apply Z.bits_inj'. intros n Hpos.
  rewrite !Z.lor_spec, !shifted_slice_bit by (done || lia).
  pose proof (shifted_slice_bit l 0 1 n Hl ltac:(lia) Hpos) as H0. rewrite Z.shiftl_0_r in H0. rewrite H0.
  destruct (Z.ltb_spec n (8 * Z.of_nat (length l))) as [Hlt|Hge].
  - destruct (Z.testbit (le_word l) n); rewrite ?andb_true_r, ?andb_false_r; [lia|done].
  - rewrite (le_word_testbit_high l n) by (done || lia). by rewrite !andb_false_r.
Qed.

(** ** The word loop *)

Lemma hash_words_spec fuel content i h :
  (8 <= i)%nat -> (length content - i < fuel)%nat ->
  hash_words fuel content i h =
    Some (fold_left KeyHashMix (map (load64 content) (word_starts fuel (length content) i)) h).
Proof.
  revert i h. induction fuel as [|fuel IH]; intros i h Hi Hf; [lia|]. cbn [hash_words word_starts].
  destruct (Nat.ltb_spec i (length content)) as [Hlt|]; [|done].
  unfold mem64 at 1. rewrite (proj2 (Nat.leb_le _ _)) by lia. cbn [mbind option_bind map fold_left].
  apply IH; lia.
Qed.

(** Every load of the hash is inside the content, and the result depends on the
    content alone. *)
Lemma HashKeyContent_ref content : bytes_ok content -> HashKeyContent content = Some (hash_ref content).
Proof.
  intros Hl. unfold HashKeyContent, hash_ref, hash_input. cbv zeta.
  destruct (Nat.leb_spec 8 (length content)) as [H8|H8].
  - rewrite hash_words_spec by lia. cbn [mbind option_bind]. unfold mem64.
    rewrite (proj2 (Nat.leb_le _ _)) by lia. cbn [mbind option_bind].
    by rewrite map_app, fold_left_app.
  - destruct (Nat.leb_spec 4 (length content)) as [H4|H4];
      [rewrite gather4_spec by (done || lia)|rewrite gather1_spec by (done || lia)]; done.
Qed.

Lemma hash_ref_short content :
  (length content <= 8)%nat ->
  hash_ref content = KeyHashFinish (KeyHashMix (KeyHashInit (Z.of_nat (length content))) (le_word content)).
Proof.
  intros Hn. unfold hash_ref, hash_input. destruct (Nat.leb_spec 8 (length content)) as [H8|]; [|done].
  assert (length content = 8)%nat as E by lia. rewrite E.
  cbn [word_starts Nat.ltb Nat.leb app map fold_left Nat.sub]. unfold load64, slice.
  rewrite drop_0, take_ge by (rewrite E; lia). done.
Qed.

Lemma word_mask l k :
  bytes_ok l -> (k <= 8)%nat -> length l = 8%nat ->
  Z.land (le_word l) (Z.shiftr (2 ^ 64 - 1) (8 * (8 - Z.of_nat k))) = le_word (take k l).
Proof.
  intros Hl Hk Hlen.
  assert (Hm : Z.shiftr (2 ^ 64 - 1) (8 * (8 - Z.of_nat k)) = Z.ones (8 * Z.of_nat k)).
  { do 9 (destruct k as [|k]; [reflexivity|]). lia. }
  rewrite Hm, Z.land_ones by lia. rewrite <- (take_drop k l) at 1. rewrite le_word_app.
  assert (Ht : length (take k l) = k) by (rewrite length_take; lia). rewrite Ht.
  rewrite Z.mul_comm, Z_mod_plus_full. apply Z.mod_small.
  pose proof (le_word_bound (take k l) (Forall_take _ _ _ Hl)) as Hb. by rewrite Ht in Hb.
Qed.

(** The register variant hashes the first [k] bytes of the loaded word exactly
    as [HashKeyContent] hashes those bytes in memory. *)
Lemma hashKeyContentWord_ref src i k :
  bytes_ok src -> (i + 8 <= length src)%nat -> (k <= 8)%nat ->
  hashKeyContentWord (load64 src i) (Z.of_nat k) = hash_ref (slice src i (i + k)).
Proof.
  intros Hl Hi Hk.
  assert (Hs : slice src i (i + k) = take k (slice src i (i + 8))).
  { unfold slice. rewrite take_take. f_equal. lia. }
  assert (Hlen : length (slice src i (i + 8)) = 8%nat) by (unfold slice; rewrite length_take, length_drop; lia).
  rewrite Hs, hash_ref_short by (rewrite length_take; lia).
  replace (length (take k (slice src i (i + 8)))) with k by (rewrite length_take; lia).
  unfold hashKeyContentWord, load64. cbv zeta. rewrite word_mask; [done| |done|done].
  by apply Forall_take, Forall_drop.
Qed.

(** Hashes are 32-bit words, as the tape's [Next] field needs. *)
Lemma hash_ref_bound content : 0 <= hash_ref content < 2 ^ 32.
Proof. unfold hash_ref, KeyHashFinish, w32. apply Z.mod_pos_bound. done. Qed.

(** ** Properties *)

(** hashing a key reads no byte outside it; the hash is the 32-bit mix of the length and of the key's words, a key shorter than a word counting as one zero-padded word. *)
Theorem HashKey_words key :
  bytes_ok key ->
  HashKey key = Some (hash_ref key) /\ 0 <= hash_ref key < 2 ^ 32.
Proof. intros Hk. split; [by apply HashKeyContent_ref|apply hash_ref_bound]. Qed.

Lemma HashKey_words_witness :
  let key := bs "identifier" in HashKey key = Some (hash_ref key) /\ 0 <= hash_ref key < 2 ^ 32.
Proof. apply HashKey_words. concrete_bytes. Defined.

(** the register variant that hashes a short key from one eight-byte load gives the hash of the key's own bytes, whatever bytes follow the key. *)
Theorem word_hash_agrees src i k :
  bytes_ok src -> (i + 8 <= length src)%nat -> (k <= 8)%nat ->
  HashKeyContent (slice src i (i + k)) = Some (hashKeyContentWord (load64 src i) (Z.of_nat k)).
Proof.
  intros Hok Hi Hk. rewrite hashKeyContentWord_ref by done. apply HashKeyContent_ref.
  by apply Forall_take, Forall_drop.
Qed.

Lemma word_hash_agrees_witness :
  let src := bs "{name:1, more}" in
  HashKeyContent (slice src 1 5) = Some (hashKeyContentWord (load64 src 1) 4).
Proof. apply (word_hash_agrees _ 1 4); [concrete_bytes|vm_compute; lia|lia]. Defined.
