(* ===== verification/Pointer.v ===== *)
(** [pointer.go] and the pointer syntax of [raw.go]: RFC 6901 pointers, their
    tokens, array indices and compiled form.  The seeker walks a pointer through
    the interface [PathOps]; a textual pointer and a compiled one are its two
    instances. *)

From S2P Require Import Prelude Words Utf8 Scanner Lex Grammar StringRef KeyHash.

Definition TILDE : Z := 126.
Definition SLASH : Z := 47.
Definition MaxInt : Z := 2 ^ 63 - 1.

(** [document.PointerError] *)
Record PointerError : Type := mkPointerError { pe_pointer : bytes; pe_message : string }.

(** ** Token syntax *)

(** [validatePointerSyntax], from position [i]. *)
Fixpoint validate_tildes (fuel : nat) (pointer : bytes) (i : nat) : res PointerError unit :=
  match fuel with
  | O => NoFuel
  | S fuel =>
      match pointer !! i with
      | None => Ok tt
      | Some c =>
          if negb (c =? TILDE) then validate_tildes fuel pointer (i + 1)
          else if (length pointer <=? i + 1)%nat
                  || (negb (at_byte pointer (i + 1) "0"%ch) && negb (at_byte pointer (i + 1) "1"%ch)) then
            let msg := "unknown tilde escape"%string in
            let msg := if (length pointer <=? i + 1)%nat then "dangling tilde escape"%string else msg in
            Err (mkPointerError pointer msg)
          else validate_tildes fuel pointer (i + 2)
      end
  end.

Definition validatePointerSyntax (pointer : bytes) : res PointerError unit :=
  match pointer with
  | [] => Ok tt
  | c :: _ =>
      if negb (c =? SLASH) then Err (mkPointerError pointer "pointer must be empty or start with slash")
      else validate_tildes (S (length pointer)) pointer 1
  end.

(** [pointerToken]: the end of the token at [start] and the start of the next. *)
Definition pointerToken (pointer : bytes) (start : nat) : nat * nat :=
  let stop := advance (fun c => negb (c =? SLASH)) pointer start in
  if (stop =? length pointer)%nat then (stop, (length pointer + 1)%nat) else (stop, (stop + 1)%nat).

Fixpoint unescape_loop (fuel : nat) (s : bytes) (i : nat) (out : bytes) : res PointerError bytes :=
  match fuel with
  | O => NoFuel
  | S fuel =>
      match s !! i with
      | None => Ok out
      | Some c =>
          if negb (c =? TILDE) then unescape_loop fuel s (i + 1) (out ++ [c])
          else
            match s !! (i + 1)%nat with
            | None => Err (mkPointerError s "dangling tilde escape")
            | Some d =>
                if d =? "0"%ch then unescape_loop fuel s (i + 2) (out ++ [TILDE])
                else if d =? "1"%ch then unescape_loop fuel s (i + 2) (out ++ [SLASH])
                else Err (mkPointerError s "unknown tilde escape")
            end
      end
  end.

Definition unescapePointerTokenSlow (s : bytes) (first : nat) : res PointerError bytes :=
  unescape_loop (S (length s)) s first (take first s).

Definition unescapePointerToken (s : bytes) : res PointerError bytes :=
  let i := advance (fun c => negb (c =? TILDE)) s 0 in
  if (i <? length s)%nat then unescapePointerTokenSlow s i else Ok s.

(** ** Array indices *)

Inductive pointerIndexKind : Type := pointerIndexInvalid | pointerIndexNumber | pointerIndexDash.

Definition decimal_value (s : bytes) : Z := fold_left (fun n c => n * 10 + (c - "0"%ch)) s 0.

(** [strconv.Atoi] on the non-empty digit strings it is given here. *)
Definition Atoi (s : bytes) : option Z :=
  let n := decimal_value s in if n <=? MaxInt then Some n else None.

Definition classifyPointerIndex (s : bytes) : Z * pointerIndexKind * string :=
  if bool_decide (s = ["-"%ch]) then (0, pointerIndexDash, ""%string)
  else if bool_decide (s = []) then (0, pointerIndexInvalid, "empty array index"%string)
  else if (1 <? length s)%nat && at_byte s 0 "0"%ch then
    (0, pointerIndexInvalid, "array index has leading zero"%string)
  else if existsb (fun c => (c <? "0"%ch) || ("9"%ch <? c)) s then
    (0, pointerIndexInvalid, "array index is not numeric"%string)
  else
    match Atoi s with
    | None => (0, pointerIndexInvalid, "array index overflows int"%string)
    | Some idx => (idx, pointerIndexNumber, ""%string)
    end.

(** [(idx, true, nil)], [(0, false, nil)] or an error. *)
Definition parsePointerIndex (s : bytes) : PointerError + option Z :=
  match classifyPointerIndex s with
  | (idx, pointerIndexNumber, _) => inr (Some idx)
  | (_, pointerIndexDash, _) => inr None
  | (_, pointerIndexInvalid, msg) => inl (mkPointerError s msg)
  end.

(** ** Compiled pointers *)

Record CompiledPointerToken : Type := mkToken {
  Text : bytes;
  Hash : Z;
  index : Z;
  indexKind : pointerIndexKind;
  indexMessage : string
  }.

Record CompiledPointer : Type := mkCompiled { pointer : bytes; Tokens : list CompiledPointerToken }.

Definition arrayIndex (t : CompiledPointerToken) : PointerError + option Z :=
  match indexKind t with
  | pointerIndexNumber => inr (Some (index t))
  | pointerIndexDash => inr None
  | pointerIndexInvalid =>
      let msg := indexMessage t in
      let msg := match msg with EmptyString => "array index is not numeric"%string | _ => msg end in
      inl (mkPointerError (Text t) msg)
  end.

(** The inner loop of [CompilePointer]: the end of the token. *)
Fixpoint token_end (fuel : nat) (pointer : bytes) (stop : nat) : res PointerError nat :=
  match fuel with
  | O => NoFuel
  | S fuel =>
      match pointer !! stop with
      | None => Ok stop
      | Some c =>
          if c =? SLASH then Ok stop
          else if c =? TILDE then
            if (length pointer <=? stop + 1)%nat then Err (mkPointerError pointer "dangling tilde escape")
            else if negb (at_byte pointer (stop + 1) "0"%ch) && negb (at_byte pointer (stop + 1) "1"%ch) then
              Err (mkPointerError pointer "unknown tilde escape")
            else token_end fuel pointer (stop + 2)
          else token_end fuel pointer (stop + 1)
      end
  end.

Definition compile_token (token : bytes) : res PointerError CompiledPointerToken :=
  match classifyPointerIndex token with
  | (index, kind, msg) =>
      match HashKey token with
      | Some h => Ok (mkToken token h index kind msg)
      | None => Panic
      end
  end.

Fixpoint compile_loop (fuel : nat) (p : bytes) (start : nat) (tokens : list CompiledPointerToken) :
    res PointerError CompiledPointer :=
  match fuel with
  | O => NoFuel
  | S fuel =>
      let* stop := token_end (S (length p)) p start in
      let* token := unescapePointerToken (slice p start stop) in
      let* t := compile_token token in
      let tokens := tokens ++ [t] in
      if (stop =? length p)%nat then Ok (mkCompiled p tokens) else compile_loop fuel p (stop + 1) tokens
  end.

Definition CompilePointer (p : bytes) : res PointerError CompiledPointer :=
  match p with
  | [] => Ok (mkCompiled [] [])
  | c :: _ =>
      if negb (c =? SLASH) then Err (mkPointerError p "pointer must be empty or start with slash")
      else compile_loop (S (length p)) p 1 []
  end.

(** ** The specification: RFC 6901 *)

Fixpoint unescape_token (s : bytes) : option bytes :=
  match s with
  | [] => Some []
  | c :: s' =>
      if c =? TILDE then
        match s' with
        | [] => None
        | d :: s'' =>
            if d =? "0"%ch then option_map (cons TILDE) (unescape_token s'')
            else if d =? "1"%ch then option_map (cons SLASH) (unescape_token s'')
            else None
        end
      else option_map (cons c) (unescape_token s')
  end.

Fixpoint split_slash (s : bytes) : list bytes :=
  match s with
  | [] => [[]]
  | c :: s' =>
      if c =? SLASH then [] :: split_slash s'
      else match split_slash s' with t :: ts => (c :: t) :: ts | [] => [[c]] end
  end.

(** The reference tokens of a pointer, [None] when it is not a pointer. *)
Definition pointer_path (p : bytes) : option (list bytes) :=
  match p with
  | [] => Some []
  | c :: s => if c =? SLASH then mapM unescape_token (split_slash s) else None
  end.

(** ** The interface of a pointer being walked *)

Class PathOps (K : Type) : Type := {
  path_done : K -> bool;
  path_key : K -> res PointerError bytes;
  path_index : K -> res PointerError (PointerError + option Z);
  path_next : K -> K
  }.

(** What the seeker relies on: the cursor stands for the tokens left. *)
Class PathLaws (K : Type) `{PathOps K} (rep : K -> list bytes -> Prop) : Prop := {
  path_done_law k path : rep k path -> path_done k = bool_decide (path = []);
  path_key_law k tok path : rep k (tok :: path) -> path_key k = Ok tok;
  path_index_law k tok path : rep k (tok :: path) -> path_index k = Ok (parsePointerIndex tok);
  path_next_law k tok path : rep k (tok :: path) -> rep (path_next k) path
  }.

(** A textual pointer and the position of the current token. *)
Record text_cursor : Type := mkText { tc_pointer : bytes; tc_start : nat }.

Definition text_token (k : text_cursor) : res PointerError bytes :=
  unescapePointerToken (slice (tc_pointer k) (tc_start k) (pointerToken (tc_pointer k) (tc_start k)).1).

#[export] Instance text_path : PathOps text_cursor := {|
  path_done k := (length (tc_pointer k) <? tc_start k)%nat;
  path_key := text_token;
  path_index k := let* token := text_token k in Ok (parsePointerIndex token);
  path_next k := mkText (tc_pointer k) (pointerToken (tc_pointer k) (tc_start k)).2
  |}.

(** A compiled pointer and the index of the current token. *)
Record compiled_cursor : Type := mkComp { cc_pointer : CompiledPointer; cc_index : nat }.

Definition compiled_token (k : compiled_cursor) : res PointerError CompiledPointerToken :=
  match Tokens (cc_pointer k) !! cc_index k with Some t => Ok t | None => Panic end.

#[export] Instance compiled_path : PathOps compiled_cursor := {|
  path_done k := (length (Tokens (cc_pointer k)) <=? cc_index k)%nat;
  path_key k := let* t := compiled_token k in Ok (Text t);
  path_index k := let* t := compiled_token k in Ok (arrayIndex t);
  path_next k := mkComp (cc_pointer k) (S (cc_index k))
  |}.

(** ** Tilde escapes *)

(** The first bad escape of a text. *)
Fixpoint tilde_fault (s : bytes) : option string :=
  match s with
  | [] => None
  | c :: s' =>
      if c =? TILDE then
        match s' with
        | [] => Some "dangling tilde escape"%string
        | d :: s'' => if (d =? "0"%ch) || (d =? "1"%ch) then tilde_fault s'' else Some "unknown tilde escape"%string
        end
      else tilde_fault s'
  end.

(** Induction that takes an escape in one step. *)
Lemma tilde_ind (P : bytes -> Prop) :
  P [] -> P [TILDE] -> (forall d s, P s -> P (d :: s) -> P (TILDE :: d :: s)) ->
  (forall c s, c <> TILDE -> P s -> P (c :: s)) -> forall s, P s.
Proof.
  intros H0 H1 H2 H3 s. enough (P s /\ forall c, P (c :: s)) by tauto.
  induction s as [|d s [IH1 IH2]]; (split; [done || auto|intros c; destruct (decide (c = TILDE)) as [->|]; auto]).
Qed.

Lemma tilde_fault_unescape s : tilde_fault s = None <-> is_Some (unescape_token s).
Proof.
  induction s as [| |d s IH1 IH2|c s Hc IH] using tilde_ind; cbn [tilde_fault unescape_token].
  - split; [by eexists|done].
  - split; [done|by intros [? ?]].
  - change (TILDE =? TILDE) with true. cbn iota. destruct (d =? "0"%ch); cbn [orb];
      [|destruct (d =? "1"%ch)]; [rewrite IH1..|by split; [|intros [? ?]]];
      (split; intros [x Hx]; [rewrite Hx; by eexists|destruct (unescape_token s); [by eexists|done]]).
  - rewrite (proj2 (Z.eqb_neq _ _) Hc), IH. split; intros [x Hx]; [rewrite Hx; by eexists|].
    destruct (unescape_token s); [by eexists|done].
Qed.

Lemma unescape_bytes s d : bytes_ok s -> unescape_token s = Some d -> bytes_ok d.
Proof.
  revert d. induction s as [| |x s IH1 IH2|c s Hc IH] using tilde_ind; cbn [unescape_token]; intros d Hs E.
  - by simplify_eq.
  - done.
  - change (TILDE =? TILDE) with true in E. cbn iota in E. inversion_clear Hs as [|? ? _ Hs']. inversion_clear Hs' as [|? ? _ Hs].
    destruct (x =? "0"%ch); [|destruct (x =? "1"%ch); [|done]];
      (destruct (unescape_token s) as [u|]; [|done]); cbn [option_map] in E; simplify_eq;
      (constructor; [by split|by apply IH1]).
  - rewrite (proj2 (Z.eqb_neq _ _) Hc) in E. inversion_clear Hs.
    destruct (unescape_token s) as [u|]; [|done]. cbn [option_map] in E. simplify_eq. constructor; [done|by apply IH].
Qed.

Lemma no_tilde_unescape s t :
  Forall (fun c => negb (c =? TILDE) = true) s ->
  unescape_token (s ++ t) = option_map (app s) (unescape_token t) /\ tilde_fault (s ++ t) = tilde_fault t.
Proof.
  induction 1 as [|c s Hc _ [IH1 IH2]]; cbn [app unescape_token tilde_fault].
  - split; [by destruct (unescape_token t)|done].
  - apply negb_true_iff in Hc. rewrite Hc, IH1, IH2. split; [by destruct (unescape_token t)|done].
Qed.

Lemma drop_1 (p : bytes) i c s : drop i p = c :: s -> drop (i + 1) p = s.
Proof. intros H. rewrite <- drop_drop. by rewrite H. Qed.

Lemma tilde_tail (p : bytes) i c :
  p !! i = Some c -> exists s, drop i p = c :: s /\ drop (i + 1) p = s /\
    (forall d s', s = d :: s' -> drop (i + 2) p = s') /\
    p !! (i + 1)%nat = head s /\ (length p <=? i + 1)%nat = bool_decide (s = []).
Proof.
  intros H. apply lookup_lt_Some in H as Hlt. pose proof (lookup_Some_drop _ _ _ H) as Hd.
  exists (drop (S i) p). replace (S i) with (i + 1)%nat by lia. split_and!; [by replace (i + 1)%nat with (S i) by lia|done| | |].
  - intros d s' Hs. replace (i + 2)%nat with (i + 1 + 1)%nat by lia. by apply (drop_1 p (i + 1) d).
  - destruct (drop (i + 1) p) as [|d s] eqn:E; [by apply drop_nil_lookup|by apply drop_cons_lookup in E].
  - pose proof (length_drop p (i + 1)) as Hl. case_bool_decide as Hs.
    + rewrite Hs in Hl. simpl in Hl. lia.
    + destruct (drop (i + 1) p); [done|]. simpl in Hl. lia.
Qed.

Lemma validate_tildes_spec fuel p i :
  (i <= length p)%nat -> (length p - i < fuel)%nat ->
  validate_tildes fuel p i =
    match tilde_fault (drop i p) with Some m => Err (mkPointerError p m) | None => Ok tt end.
Proof.
  revert i. induction fuel as [|fuel IH]; intros i Hi Hf; [lia|]. cbn [validate_tildes].
  at_pos p i as c E; [|by rewrite (lookup_None_drop _ _ E)]. apply lookup_lt_Some in E as Hlt.
  destruct (tilde_tail p i c E) as (s & -> & H1 & H2 & H3 & H4). cbn [tilde_fault].
  destruct (c =? TILDE); cbn [negb]; [|by rewrite IH, H1 by lia].
  unfold at_byte. rewrite H3, H4. destruct s as [|d s]; cbn [head]; [done|]. rewrite bool_decide_eq_false_2 by done. cbn [orb].
  rewrite <- negb_orb. destruct ((d =? "0"%ch) || (d =? "1"%ch)) eqn:Ed; cbn [negb]; [|done].
  assert ((i + 1 < length p)%nat) by (by apply (lookup_lt_Some p _ d)). rewrite IH by lia. by rewrite (H2 d s).
Qed.

Lemma unescape_loop_spec fuel s i out :
  (i <= length s)%nat -> (length s - i < fuel)%nat ->
  unescape_loop fuel s i out =
    match tilde_fault (drop i s) with
    | Some m => Err (mkPointerError s m)
    | None => Ok (out ++ default [] (unescape_token (drop i s)))
    end.
Proof.
  revert i out. induction fuel as [|fuel IH]; intros i out Hi Hf; [lia|]. cbn [unescape_loop].
  at_pos s i as c E.
  2:{ rewrite (lookup_None_drop _ _ E). cbn. by rewrite app_nil_r. }
  apply lookup_lt_Some in E as Hlt. destruct (tilde_tail s i c E) as (t & -> & H1 & H2 & H3 & H4).
  cbn [tilde_fault unescape_token].
  destruct (c =? TILDE); cbn [negb].
  - rewrite H3. destruct t as [|d t]; cbn [head]; [done|].
    assert (i + 1 < length s)%nat by (by apply (lookup_lt_Some s _ d)). specialize (H2 d t eq_refl).
    destruct (d =? "0"%ch); [|destruct (d =? "1"%ch); [|done]]; cbn [orb]; rewrite IH, H2 by lia;
      (destruct (tilde_fault t) eqn:Ht; [done|]); apply tilde_fault_unescape in Ht as [u ->]; cbn;
      by rewrite <- app_assoc.
  - rewrite IH, H1 by lia. destruct (tilde_fault t) eqn:Ht; [done|].
    apply tilde_fault_unescape in Ht as [u ->]. cbn. by rewrite <- app_assoc.
Qed.

Lemma unescapePointerToken_spec s :
  match unescape_token s with
  | Some d => unescapePointerToken s = Ok d
  | None => exists m, tilde_fault s = Some m /\ unescapePointerToken s = Err (mkPointerError s m)
  end.
Proof.
  unfold unescapePointerToken. set (p := fun c => negb (c =? TILDE)).
  destruct (advance_span p s 0 ltac:(lia)) as (pre & Hs & Hall & Hst). pose proof (span_le _ _ _ _ Hs) as Hle.
  set (i := advance p s 0) in *. destruct Hs as (Hs & Hlen & _). rewrite drop_0 in Hs.
  destruct (no_tilde_unescape pre (drop i s) Hall) as [Hu Ht]. rewrite <- Hs in Hu, Ht.
  assert (Hpre : take i s = pre).
  { rewrite Hs, Hlen. simpl. apply take_app_length. }
  destruct (Nat.ltb_spec i (length s)) as [Hlt|Hge].
  - unfold unescapePointerTokenSlow. rewrite unescape_loop_spec, Hu, Ht, Hpre by lia.
    destruct (tilde_fault (drop i s)) eqn:Hf.
    + destruct (unescape_token (drop i s)) eqn:E; cbn [option_map]; [|by eexists].
      assert (tilde_fault (drop i s) = None) by (apply tilde_fault_unescape; by eexists). congruence.
    + apply tilde_fault_unescape in Hf as [u ->]. done.
  - rewrite Hu, drop_ge by lia. cbn. rewrite app_nil_r, <- Hpre, take_ge by lia. done.
Qed.

(** ** Segments *)

Definition no_slash (s : bytes) : Prop := Forall (fun c => negb (c =? SLASH) = true) s.

Lemma split_slash_cons s t : no_slash s -> split_slash (s ++ SLASH :: t) = s :: split_slash t.
Proof.
  induction 1 as [|c s Hc _ IH]; [done|]. cbn [app split_slash]. apply negb_true_iff in Hc. by rewrite Hc, IH.
Qed.
Lemma split_slash_one s : no_slash s -> split_slash s = [s].
Proof.
  induction 1 as [|c s Hc _ IH]; [done|]. cbn [split_slash]. apply negb_true_iff in Hc. by rewrite Hc, IH.
Qed.
Lemma split_slash_nonempty s : exists t ts, split_slash s = t :: ts.
Proof.
  destruct s as [|c s]; cbn [split_slash]; [eauto|]. destruct (c =? SLASH); [eauto|].
  destruct (split_slash s); eauto.
Qed.

(** The next segment, whichever way it ends. *)
Lemma split_at p i e :
  (i <= e <= length p)%nat -> no_slash (slice p i e) -> (e = length p \/ p !! e = Some SLASH) ->
  split_slash (drop i p) = slice p i e :: (if (e =? length p)%nat then [] else split_slash (drop (e + 1) p)).
Proof.
  intros Hi Hn He. assert (Hd : drop i p = slice p i e ++ drop e p).
  { unfold slice. rewrite <- (take_drop (e - i) (drop i p)) at 1. rewrite drop_drop. do 3 f_equal. lia. }
  rewrite Hd. destruct (Nat.eqb_spec e (length p)) as [->|Hne].
  - rewrite drop_all, app_nil_r. by rewrite split_slash_one.
  - destruct He as [?|Hs]; [done|]. rewrite (lookup_Some_drop _ _ _ Hs), split_slash_cons by done.
    by replace (S e) with (e + 1)%nat by lia.
Qed.

Lemma pointerToken_spec p i :
  (i <= length p)%nat ->
  let e := (pointerToken p i).1 in
  (i <= e <= length p)%nat /\ no_slash (slice p i e) /\ (e = length p \/ p !! e = Some SLASH) /\
  (pointerToken p i).2 = (if (e =? length p)%nat then length p + 1 else e + 1)%nat.
Proof.
  intros Hi. unfold pointerToken. set (f := fun c => negb (c =? SLASH)).
  destruct (advance_span f p i Hi) as (s & Hs & Hall & Hst). pose proof (span_le _ _ _ _ Hs) as Hle.
  set (e := advance f p i) in *.
  assert (H : (i <= e <= length p)%nat /\ no_slash (slice p i e) /\ (e = length p \/ p !! e = Some SLASH)).
  { split_and!; [lia|lia| |].
    - rewrite (span_slice _ _ _ _ Hs). exact Hall.
    - apply stops_lookup in Hst. destruct (p !! e) as [c|] eqn:E; [|apply lookup_ge_None in E; left; lia].
      right. unfold f in Hst. apply negb_false_iff, Z.eqb_eq in Hst. by rewrite Hst. }
  cbv zeta. destruct (e =? length p)%nat eqn:E; cbn [fst snd]; rewrite E; tauto.
Qed.

Lemma tilde_split s : tilde_fault s = None <-> Forall (fun t => tilde_fault t = None) (split_slash s).
Proof.
  induction s as [| |d s IH1 IH2|c s Hc IH] using tilde_ind.
  - split; [by repeat constructor|done].
  - split; [done|]. intros H. by inversion H.
  - cbn [tilde_fault]. change (TILDE =? TILDE) with true. cbn iota.
    destruct ((d =? "0"%ch) || (d =? "1"%ch)) eqn:Hd.
    + rewrite IH1. cbn [split_slash]. change (TILDE =? SLASH) with false. cbn iota.
      replace (d =? SLASH) with false by (unfold SLASH; lia).
      destruct (split_slash_nonempty s) as (t & ts & ->). rewrite !Forall_cons. cbn [tilde_fault].
      change (TILDE =? TILDE) with true. cbn iota. by rewrite Hd.
    + split; [done|]. cbn [split_slash]. change (TILDE =? SLASH) with false. cbn iota.
      destruct (d =? SLASH).
      * intros H. by inversion H.
      * destruct (split_slash_nonempty s) as (t & ts & ->). intros H. inversion_clear H as [|? ? H1].
        cbn [tilde_fault] in H1. change (TILDE =? TILDE) with true in H1. cbn iota in H1. by rewrite Hd in H1.
  - cbn [tilde_fault split_slash]. rewrite (proj2 (Z.eqb_neq _ _) Hc), IH. destruct (c =? SLASH).
    + rewrite Forall_cons. split; [done|by intros [? ?]].
    + destruct (split_slash_nonempty s) as (t & ts & ->). rewrite !Forall_cons. cbn [tilde_fault].
      by rewrite (proj2 (Z.eqb_neq _ _) Hc).
Qed.

Lemma segments_unescape s :
  tilde_fault s = None -> exists path, mapM unescape_token (split_slash s) = Some path.
Proof.
  intros H%tilde_split. apply mapM_is_Some. eapply Forall_impl; [exact H|].
  intros t Ht. by apply tilde_fault_unescape.
Qed.

(** [validatePointerSyntax] accepts exactly the RFC 6901 pointers. *)
Definition syntax_fault (p : bytes) : option string :=
  match p with
  | [] => None
  | c :: s => if c =? SLASH then tilde_fault s else Some "pointer must be empty or start with slash"%string
  end.

Lemma validatePointerSyntax_spec p :
  validatePointerSyntax p =
    match syntax_fault p with Some m => Err (mkPointerError p m) | None => Ok tt end.
Proof.
  unfold validatePointerSyntax, syntax_fault. destruct p as [|c s]; [done|].
  destruct (c =? SLASH); cbn [negb]; [|done]. by rewrite validate_tildes_spec by (simpl; lia).
Qed.

Lemma syntax_fault_path p : syntax_fault p = None <-> is_Some (pointer_path p).
Proof.
  unfold syntax_fault, pointer_path. destruct p as [|c s]; [by split; [eexists|]|].
  destruct (c =? SLASH); [|split; [done|by intros [? ?]]]. split; [apply segments_unescape|].
  rewrite tilde_split. intros H. apply mapM_is_Some in H. eapply Forall_impl; [exact H|].
  intros t Ht. by apply tilde_fault_unescape.
Qed.

(** ** Compilation *)

Lemma token_end_spec fuel p i :
  (i <= length p)%nat -> (length p - i < fuel)%nat ->
  match token_end fuel p i with
  | Ok e => (i <= e <= length p)%nat /\ no_slash (slice p i e) /\ (e = length p \/ p !! e = Some SLASH) /\
      tilde_fault (drop i p) = tilde_fault (drop e p) /\ tilde_fault (slice p i e) = None
  | Err er => exists m, tilde_fault (drop i p) = Some m /\ er = mkPointerError p m
  | _ => False
  end.
Proof.
  revert i. induction fuel as [|fuel IH]; intros i Hi Hf; [lia|]. cbn [token_end].
  at_pos p i as c E.
  2:{ apply lookup_ge_None in E. rewrite slice_refl. split_and!; (done || lia || (left; lia) || constructor). }
  apply lookup_lt_Some in E as Hlt. destruct (Z.eqb_spec c SLASH) as [->|Hs].
  { rewrite slice_refl. split_and!; (done || lia || (by right) || constructor). }
  destruct (tilde_tail p i c E) as (s & -> & H1 & H2 & H3 & H4). cbn [tilde_fault].
  destruct (Z.eqb_spec c TILDE) as [->|Ht].
  - unfold at_byte. rewrite H3, H4. destruct s as [|d s]; cbn [head]; [rewrite bool_decide_eq_true_2 by done; by eexists|].
    rewrite bool_decide_eq_false_2 by done. rewrite <- negb_orb.
    destruct ((d =? "0"%ch) || (d =? "1"%ch)) eqn:Ed; cbn [negb]; [|by eexists].
    assert (i + 1 < length p)%nat by (by apply (lookup_lt_Some p _ d)).
    specialize (IH (i + 2)%nat ltac:(lia) ltac:(lia)). rewrite (H2 d s eq_refl) in IH.
    destruct (token_end fuel p (i + 2)) as [e|er| |]; [|done..].
    destruct IH as (Hi' & Hn & He & Ht & Hsl).
    rewrite (slice_cons p i e TILDE) by (done || lia). rewrite (slice_cons p (S i) e d); [|lia|].
    2:{ replace (S i) with (i + 1)%nat by lia. done. }
    replace (S (S i)) with (i + 2)%nat by lia. split_and!; [lia|lia| |done|done|].
    + constructor; [done|]. constructor; [unfold SLASH; lia|done].
    + cbn [tilde_fault]. change (TILDE =? TILDE) with true. cbn iota. by rewrite Ed.
  - specialize (IH (i + 1)%nat ltac:(lia) ltac:(lia)). rewrite H1 in IH.
    destruct (token_end fuel p (i + 1)) as [e|er| |]; [|done..]. destruct IH as (Hi' & Hn & He & Hft & Hsl).
    rewrite (slice_cons p i e c) by (done || lia). replace (S i) with (i + 1)%nat by lia.
    split_and!; [lia|lia| |done|done|].
    + constructor; [by apply negb_true_iff, Z.eqb_neq|done].
    + cbn [tilde_fault]. by rewrite (proj2 (Z.eqb_neq _ _) Ht).
Qed.

(** What a compiled token holds. *)
Definition token_for (tok : bytes) (t : CompiledPointerToken) : Prop :=
  Text t = tok /\ Hash t = hash_ref tok /\ (index t, indexKind t, indexMessage t) = classifyPointerIndex tok.

Lemma compile_token_spec tok : bytes_ok tok -> exists t, compile_token tok = Ok t /\ token_for tok t.
Proof.
  intros Hok. unfold compile_token, HashKey. rewrite (HashKeyContent_ref tok Hok).
  destruct (classifyPointerIndex tok) as [[i k] m] eqn:E. eexists. split; [done|]. by split_and!.
Qed.

Lemma invalid_message s i m : classifyPointerIndex s = (i, pointerIndexInvalid, m) -> m <> EmptyString.
Proof. unfold classifyPointerIndex. intros H. repeat case_step_in H; by simplify_eq. Qed.

Lemma token_for_index tok t : token_for tok t -> arrayIndex t = parsePointerIndex tok.
Proof.
  intros (Ht & _ & Hc). unfold arrayIndex, parsePointerIndex. rewrite <- Hc, Ht.
  destruct (indexKind t) eqn:E; [|done..]. symmetry in Hc. apply invalid_message in Hc. by destruct (indexMessage t).
Qed.

Lemma compile_loop_spec fuel p i acc :
  bytes_ok p -> (i <= length p)%nat -> (length p - i < fuel)%nat ->
  match compile_loop fuel p i acc with
  | Ok c => exists path ts, mapM unescape_token (split_slash (drop i p)) = Some path /\
      Forall2 token_for path ts /\ c = mkCompiled p (acc ++ ts) /\ tilde_fault (drop i p) = None
  | Err er => exists m, tilde_fault (drop i p) = Some m /\ er = mkPointerError p m
  | _ => False
  end.
Proof.
  intros Hok. revert i acc. induction fuel as [|fuel IH]; intros i acc Hi Hf; [lia|]. cbn [compile_loop].
  pose proof (token_end_spec (S (length p)) p i Hi ltac:(lia)) as He.
  destruct (token_end _ p i) as [e|er| |]; cbn [res_bind]; [|done..]. destruct He as (Hie & Hn & He & Hft & Hsl).
  pose proof (unescapePointerToken_spec (slice p i e)) as Hu.
  apply tilde_fault_unescape in Hsl as [tok Htok]. rewrite Htok in Hu. rewrite Hu. cbn [res_bind].
  assert (Hb : bytes_ok tok).
  { eapply unescape_bytes; [|exact Htok]. by apply slice_bytes. }
  destruct (compile_token_spec tok Hb) as (t & -> & Ht). cbn [res_bind]. cbv zeta.
  rewrite (split_at p i e) by done. destruct (Nat.eqb_spec e (length p)) as [Hel|Hel].
  - exists [tok], [t]. cbn [mapM]. rewrite Htok. split_and!; [done|by apply Forall2_cons_2, Forall2_nil_2|done|].
    by rewrite Hft, Hel, drop_all.
  - destruct He as [?|Hs]; [done|]. apply lookup_lt_Some in Hs as Hlt.
    specialize (IH (e + 1)%nat (acc ++ [t]) ltac:(lia) ltac:(lia)).
    assert (Hdr : tilde_fault (drop e p) = tilde_fault (drop (e + 1) p)).
    { rewrite (lookup_Some_drop _ _ _ Hs). replace (S e) with (e + 1)%nat by lia. done. }
    rewrite Hft, Hdr. destruct (compile_loop fuel p (e + 1) (acc ++ [t])) as [c|er| |]; [|done..].
    destruct IH as (path & ts & Hp & Hf2 & -> & Hnone). exists (tok :: path), (t :: ts). cbn [mapM].
    rewrite Htok. cbn [mbind option_bind]. rewrite Hp. split_and!; [done|by constructor|by rewrite <- app_assoc|done].
Qed.

(** Compilation: the same errors as the syntax check, else the tokens. *)
Lemma CompilePointer_spec p :
  bytes_ok p ->
  match pointer_path p with
  | Some path => exists ts, CompilePointer p = Ok (mkCompiled p ts) /\ Forall2 token_for path ts
  | None => exists e, validatePointerSyntax p = Err e /\ CompilePointer p = Err e
  end.
Proof.
  intros Hok. pose proof (syntax_fault_path p) as Hsf. pose proof (validatePointerSyntax_spec p) as Hv.
  unfold CompilePointer, pointer_path, syntax_fault in *. destruct p as [|c s].
  { exists []. by split. }
  destruct (c =? SLASH); cbn [negb]; [|by eexists].
  pose proof (compile_loop_spec (S (length (c :: s))) (c :: s) 1 [] Hok ltac:(simpl; lia) ltac:(simpl; lia)) as H.
  change (drop 1 (c :: s)) with s in H. destruct (compile_loop _ _ _ _) as [cp|er| |]; [| |done|done].
  - destruct H as (path & ts & -> & Hf & -> & _). by exists ts.
  - destruct H as (m & Hm & ->). rewrite Hm in *. destruct (mapM unescape_token (split_slash s)); [|by eexists].
    assert (Some m = None) by (apply Hsf; by eexists). done.
Qed.

(** ** The two cursors *)

Definition text_rep (k : text_cursor) (path : list bytes) : Prop :=
  ((length (tc_pointer k) < tc_start k)%nat /\ path = []) \/
  ((tc_start k <= length (tc_pointer k))%nat /\
   mapM unescape_token (split_slash (drop (tc_start k) (tc_pointer k))) = Some path).

Lemma text_rep_cons k tok path :
  text_rep k (tok :: path) ->
  text_token k = Ok tok /\ text_rep (path_next k) path.
Proof.
  intros [[_ ?]|[Hle Hm]]; [done|]. destruct k as [p i]. cbn [tc_pointer tc_start] in *.
  destruct (pointerToken_spec p i Hle) as (Hie & Hn & He & Hnx). set (e := (pointerToken p i).1) in *.
  rewrite (split_at p i e) in Hm by done. cbn [mapM] in Hm.
  pose proof (unescapePointerToken_spec (slice p i e)) as Hu.
  destruct (unescape_token (slice p i e)) as [d|]; [|done]. cbn [mbind option_bind] in Hm.
  destruct (mapM unescape_token (if (e =? length p)%nat then [] else _)) as [path'|] eqn:E; [|done].
  injection Hm as -> ->. split; [by unfold text_token; cbn [tc_pointer tc_start]; fold e|].
  unfold path_next, text_path, text_rep. cbn [tc_pointer tc_start]. rewrite Hnx.
  destruct (Nat.eqb_spec e (length p)) as [Hel|Hel].
  - injection E as <-. left. split; [lia|done].
  - destruct He as [?|Hs]; [done|]. apply lookup_lt_Some in Hs. right. split; [lia|done].
Qed.

#[export] Instance text_laws : PathLaws text_cursor text_rep.
Proof.
  split.
  - intros k path [[Hl ->]|[Hle Hm]]; unfold path_done, text_path.
    + rewrite bool_decide_eq_true_2 by done. by apply Nat.ltb_lt.
    + rewrite bool_decide_eq_false_2; [by apply Nat.ltb_ge|]. intros ->.
      destruct (split_slash_nonempty (drop (tc_start k) (tc_pointer k))) as (t & ts & E). rewrite E in Hm.
      cbn [mapM] in Hm. destruct (unescape_token t); [|done]. cbn in Hm. by destruct (mapM unescape_token ts).
  - intros k tok path [H _]%text_rep_cons. done.
  - intros k tok path [H _]%text_rep_cons. unfold path_index, text_path. by rewrite H.
  - intros k tok path [_ H]%text_rep_cons. done.
Qed.

Definition compiled_rep (k : compiled_cursor) (path : list bytes) : Prop :=
  (cc_index k <= length (Tokens (cc_pointer k)))%nat /\
  Forall2 token_for path (drop (cc_index k) (Tokens (cc_pointer k))).

Lemma compiled_rep_cons k tok path :
  compiled_rep k (tok :: path) ->
  (exists t, compiled_token k = Ok t /\ token_for tok t) /\ compiled_rep (path_next k) path.
Proof.
  intros [Hle H]. inversion H as [|? t ? ts Ht Hf Ed Eq]. subst. symmetry in Eq.
  apply drop_cons_lookup in Eq as Hl. apply lookup_lt_Some in Hl as Hlt. split.
  - exists t. unfold compiled_token. by rewrite Hl.
  - split; cbn [cc_index cc_pointer path_next compiled_path]; [lia|]. by rewrite (drop_cons_S _ _ _ _ Eq).
Qed.

#[export] Instance compiled_laws : PathLaws compiled_cursor compiled_rep.
Proof.
  split.
  - intros k path [Hle H]. unfold path_done, compiled_path. apply Forall2_length in H. rewrite length_drop in H.
    case_bool_decide as Hp; [subst; simpl in H; apply Nat.leb_le; lia|].
    apply Nat.leb_gt. destruct path; [done|]. simpl in H. lia.
  - intros k tok path [(t & H & Ht & _) _]%compiled_rep_cons. unfold path_key, compiled_path. rewrite H. cbn. by rewrite Ht.
  - intros k tok path [(t & H & Ht) _]%compiled_rep_cons. unfold path_index, compiled_path. rewrite H. cbn.
    by rewrite (token_for_index _ _ Ht).
  - intros k tok path [_ H]%compiled_rep_cons. done.
Qed.

(** ** Properties *)

(** a pointer compiles exactly when the syntax check accepts it, with the same error otherwise; the compiled tokens are the RFC 6901 reference tokens in order, each with its unescaped text, its key hash and its array-index classification. *)
Theorem CompilePointer_tokens p :
  bytes_ok p ->
  match validatePointerSyntax p with
  | Ok _ => exists path ts, pointer_path p = Some path /\ CompilePointer p = Ok (mkCompiled p ts) /\
      Forall2 token_for path ts
  | Err e => pointer_path p = None /\ CompilePointer p = Err e
  | _ => False
  end.
Proof.
  intros Hok. pose proof (CompilePointer_spec p Hok) as Hc. pose proof (syntax_fault_path p) as Hsf.
  rewrite validatePointerSyntax_spec in *. destruct (syntax_fault p) as [m|].
  - destruct (pointer_path p) as [path|]; [destruct Hsf as [_ Hsf]; by discriminate Hsf; eexists|].
    destruct Hc as (e & [= <-] & Hc). done.
  - destruct (pointer_path p) as [path|]; [|by destruct Hc as (e & ? & _)]. destruct Hc as (ts & Hc & Hf). eauto.
Qed.

Lemma CompilePointer_tokens_witness :
  let p := bs "/a~1b/~0/10" in
  match validatePointerSyntax p with
  | Ok _ => exists path ts, pointer_path p = Some path /\ CompilePointer p = Ok (mkCompiled p ts) /\
      Forall2 token_for path ts
  | Err e => pointer_path p = None /\ CompilePointer p = Err e
  | _ => False
  end.
Proof. apply CompilePointer_tokens. concrete_bytes. Defined.
