(* ===== verification/Raw.v ===== *)
(** [raw.go]: borrowed raw values and the pointer seeker that finds a value in
    unparsed source.

    A method of [rawSeeker] takes and returns the fields it changes, the cursor
    and [done].  A syntax error is an [Err]; a pointer error is part of the
    result, because the seeker goes on after it. *)

From S2P Require Import Prelude Words Utf8 Scanner Lex Grammar StringRef Errors Numbers Reader Validator FastValid ParserString Layout Decode Pointer.

(** ** Raw values *)

Inductive Kind : Type := Invalid | Null | Bool | Number | String | Array | Object.

Abbreviation RawValue := bytes (only parsing).

Definition raw_Kind (r : RawValue) : Kind :=
  match r with
  | [] => Invalid
  | c :: _ =>
      if c =? "n"%ch then Null
      else if (c =? "t"%ch) || (c =? "f"%ch) then Bool
      else if c =? DQUOTE then String
      else if c =? "["%ch then Array
      else if c =? "{"%ch then Object
      else if (c =? "-"%ch) || IsDigit c then Number
      else Invalid
  end.

Definition raw_IsNull (r : RawValue) : bool :=
  (length r =? 4)%nat && at_byte r 0 "n"%ch && at_byte r 1 "u"%ch && at_byte r 2 "l"%ch && at_byte r 3 "l"%ch.

Definition raw_Bool (r : RawValue) : bool * bool :=
  if (length r =? 4)%nat && at_byte r 0 "t"%ch && at_byte r 1 "r"%ch && at_byte r 2 "u"%ch && at_byte r 3 "e"%ch
  then (true, true)
  else if (length r =? 5)%nat && at_byte r 0 "f"%ch && at_byte r 1 "a"%ch && at_byte r 2 "l"%ch &&
          at_byte r 3 "s"%ch && at_byte r 4 "e"%ch
  then (false, true)
  else (false, false).

Definition raw_NumberBytes (r : RawValue) : bytes * bool :=
  if negb (validNumber r) then ([], false) else (r, true).

(** ** The seeker's string scan *)

Record seeker : Type := mkSeek { s_i : nat; s_done : bool }.

Section Strings.
Context (src : bytes).

(** The loop of [parseStringRaw]: the end of the content, whether it has an
escape, and the cursor after the closing quote. *)
Fixpoint raw_string_loop (fuel : nat) (i : nat) (escaped : bool) : res SyntaxError (nat * bool * nat) :=
  match fuel with
  | O => NoFuel
  | S fuel =>
    let j := scanStringSpecial src i in
    match src !! j with
    | None => v_err src (length src) "unterminated string"
    | Some c =>
      if c =? DQUOTE then Ok (j, escaped, S j)
      else if c =? BSLASH then
  let i := S j in
  if (length src <=? i)%nat then v_err src i "unterminated escape sequence"
  else
    let* i := validateEscape src i in
    raw_string_loop fuel i true
      else if c <? 0x20 then v_err src j "unescaped control byte in string"
      else
  match scanStringUnicodeRun src j with
  | (_, Some bad) => v_err src bad "invalid UTF-8 in string"
  | (next, None) => raw_string_loop fuel next escaped
  end
    end
  end.

(** The content's start and end, whether it has an escape, and the cursor. *)
Definition parseStringRaw (i : nat) : res SyntaxError (nat * nat * bool * nat) :=
  let start := S i in
  let* (stop, escaped, i) := raw_string_loop (S (length src)) start false in
  Ok (start, stop, escaped, i).

Definition keyMatches (token : bytes) (keyStart keyEnd : nat) (escaped : bool) : res SyntaxError bool :=
  if negb escaped then Ok (bool_decide (slice src keyStart keyEnd = token))
  else
  let* (_, key) := p_parseString src (keyStart - 1) in
  Ok (bool_decide (key = token)).

Definition keyString (start stop : nat) (escaped : bool) : res SyntaxError bytes :=
  if negb escaped then Ok (slice src start stop)
  else let* (_, key) := p_parseString src (start - 1) in Ok key.
End Strings.

(** [RawValue.Text], [StringBytes] and [AppendText]: [None] is a value that is
    not a string. *)
Definition raw_Text (r : RawValue) : option (res SyntaxError bytes) :=
  if negb (at_byte r 0 DQUOTE) then None
  else Some (
    let* (start, stop, escaped, i) := parseStringRaw r 0 in
    if negb (i =? length r)%nat then v_err r i "unexpected data after string"
    else if negb escaped then Ok (slice r start stop)
    else
      let* (i, text) := p_parseString r 0 in
      if negb (i =? length r)%nat then v_err r i "unexpected data after string" else Ok text).

Definition raw_StringBytes (r : RawValue) : option bytes :=
  if negb (at_byte r 0 DQUOTE) then None
  else
    match parseStringRaw r 0 with
    | Ok (start, stop, escaped, i) =>
        if negb (i =? length r)%nat || escaped then None else Some (slice r start stop)
    | _ => None
    end.

Definition raw_AppendText (dst : bytes) (r : RawValue) : option (res SyntaxError bytes) :=
  if negb (at_byte r 0 DQUOTE) then None
  else Some (
    let* (start, stop, escaped, i) := parseStringRaw r 0 in
    if negb (i =? length r)%nat then v_err r i "unexpected data after string"
    else if negb escaped then Ok (dst ++ slice r start stop)
    else
      match appendDecodedJSONStringTrusted dst (slice r start stop) with
      | Ok out => Ok out
      | Err _ => Panic
      | Panic => Panic
      | NoFuel => NoFuel
      end).

(** ** The pointer seeker *)

(** The results [(raw, ok, err)] when [err] is nil or a [PointerError]. *)
Record rawres : Type := mkRaw { r_raw : bytes; r_ok : bool; r_err : option PointerError }.

Definition raw_none : rawres := mkRaw [] false None.
Definition raw_fail (e : PointerError) : rawres := mkRaw [] false (Some e).

Section Seek.
Context (src : bytes) (maxDepth : Z) (stopAfterFound : bool).

Definition s_skip (s : seeker) : seeker := mkSeek (SkipSpace src (s_i s)) (s_done s).
Definition s_next (s : seeker) : seeker := mkSeek (S (s_i s)) (s_done s).

(** [skipValue]: a fresh validator at the cursor. *)
Definition skipValue (depth : Z) (s : seeker) : res SyntaxError seeker :=
  let* v := parseValue src maxDepth (S (length src)) depth (mkV (s_i s) None) in
  Ok (mkSeek (v_i v) (s_done s)).

Definition captureValue (depth : Z) (s : seeker) : res SyntaxError (seeker * rawres) :=
  let start := s_i s in
  let* s := skipValue depth s in
  let s := if stopAfterFound then mkSeek (s_i s) true else s in
  Ok (s, mkRaw (slice src start (s_i s)) true None).

(** What the array and object loops do with the answer of the inner lookup:
[raw, ok, err = s.find...(...)] up to the test of [s.done].  [keep] is
[pointerErr] after a lookup without error; [close] is the rest of the
iteration. *)
Definition after_find (close : seeker -> rawres -> res SyntaxError (seeker * rawres))
  (keep : option PointerError) (found : seeker * rawres) : res SyntaxError (seeker * rawres) :=
  let (s, r) := found in
  match r_err r with
  | Some e =>
    if stopAfterFound then Ok (s, raw_fail e)
    else if s_done s then Ok (s, mkRaw (r_raw r) (r_ok r) None)
    else close s (mkRaw (r_raw r) (r_ok r) (Some e))
  | None =>
    if s_done s then Ok (s, mkRaw (r_raw r) (r_ok r) None)
    else close s (mkRaw (r_raw r) (r_ok r) keep)
  end.

Section Walk.
Context {K : Type} `{PathOps K}.
Context (find : Z -> K -> seeker -> res SyntaxError (seeker * rawres)).

(** The element loop.  [index] is [None] when [indexOK] is false. *)
Fixpoint find_array_loop (fuel : nat) (depth : Z) (index : option Z) (next : K) (elem : Z)
  (s : seeker) (raw : rawres) : res SyntaxError (seeker * rawres) :=
  match fuel with
  | O => NoFuel
  | S fuel =>
    let s := s_skip s in
    (* the rest of the iteration, once the element is consumed *)
    let close s raw :=
    let s := s_skip s in
    match src !! s_i s with
    | None => v_err src (s_i s) "unterminated array"
    | Some c =>
      if c =? ","%ch then find_array_loop fuel depth index next (elem + 1) (s_next s) raw
      else if c =? "]"%ch then Ok (s_next s, raw)
      else v_err src (s_i s) "expected comma or closing bracket in array"
    end in
    if bool_decide (index = Some elem) then
    let* found := find depth next s in
    after_find close (r_err raw) found
    else
    let* s := skipValue depth s in
    close s raw
  end.

Definition find_array (depth : Z) (k : K) (s : seeker) : res SyntaxError (seeker * rawres) :=
  if maxDepth <? depth then v_err src (s_i s) "maximum nesting depth exceeded"
  else
  match path_index k with
  | Err e => Ok (s, raw_fail e)
  | Panic => Panic
  | NoFuel => NoFuel
  | Ok (inl e) =>
    if negb stopAfterFound then
    let* s := skipValue (depth - 1) s in Ok (s, raw_fail e)
    else Ok (s, raw_fail e)
  | Ok (inr index) =>
    let s := s_skip (s_next s) in
    if at_byte src (s_i s) "]"%ch then Ok (s_next s, raw_none)
    else find_array_loop (S (length src)) depth index (path_next k) 0 s raw_none
  end.

(** The member loop. *)
Fixpoint find_object_loop (fuel : nat) (depth : Z) (token : bytes) (next : K)
  (s : seeker) (raw : rawres) : res SyntaxError (seeker * rawres) :=
  match fuel with
  | O => NoFuel
  | S fuel =>
    let s := s_skip s in
    if negb (at_byte src (s_i s) DQUOTE) then v_err src (s_i s) "expected object key string"
    else
    let* (keyStart, keyEnd, escaped, i) := parseStringRaw src (s_i s) in
    let* matched := keyMatches src token keyStart keyEnd escaped in
    let s := s_skip (mkSeek i (s_done s)) in
    if negb (at_byte src (s_i s) ":"%ch) then v_err src (s_i s) "expected colon after object key"
    else
    let s := s_skip (s_next s) in
    let close s raw :=
    let s := s_skip s in
    match src !! s_i s with
    | None => v_err src (s_i s) "unterminated object"
    | Some c =>
      if c =? ","%ch then find_object_loop fuel depth token next (s_next s) raw
      else if c =? "}"%ch then Ok (s_next s, raw)
      else v_err src (s_i s) "expected comma or closing brace in object"
    end in
    if matched then
    let* found := find depth next s in
    after_find close None found
    else
    let* s := skipValue depth s in
    close s raw
  end.

Definition find_object (depth : Z) (k : K) (s : seeker) : res SyntaxError (seeker * rawres) :=
  if maxDepth <? depth then v_err src (s_i s) "maximum nesting depth exceeded"
  else
  match path_key k with
  | Err e => Ok (s, raw_fail e)
  | Panic => Panic
  | NoFuel => NoFuel
  | Ok token =>
    let s := s_skip (s_next s) in
    if at_byte src (s_i s) "}"%ch then Ok (s_next s, raw_none)
    else find_object_loop (S (length src)) depth token (path_next k) s raw_none
  end.

Definition find_body (depth : Z) (k : K) (s : seeker) : res SyntaxError (seeker * rawres) :=
  if path_done k then captureValue depth s
  else if maxDepth <? depth then v_err src (s_i s) "maximum nesting depth exceeded"
  else
  match src !! s_i s with
  | None => v_err src (s_i s) "expected value"
  | Some c =>
    if c =? "{"%ch then find_object (depth + 1) k s
    else if c =? "["%ch then find_array (depth + 1) k s
    else let* s := skipValue depth s in Ok (s, raw_none)
  end.
End Walk.

(** [findValue] and [findCompiledValue], by the kind of pointer walked. *)
Fixpoint find_value {K} `{PathOps K} (fuel : nat) (depth : Z) (k : K) (s : seeker) :
  res SyntaxError (seeker * rawres) :=
  match fuel with
  | O => NoFuel
  | S fuel => find_body (find_value fuel) depth k s
  end.

(** [findArray] and [findObject] with their compiled copies: the lookups inside
a container that [findValue] and [findCompiledValue] call. *)
Definition findArray (fuel : nat) (depth : Z) (tokenStart : nat) (pointer : bytes) (s : seeker) :=
  find_array (find_value fuel) depth (mkText pointer tokenStart) s.
Definition findObject (fuel : nat) (depth : Z) (tokenStart : nat) (pointer : bytes) (s : seeker) :=
  find_object (find_value fuel) depth (mkText pointer tokenStart) s.
Definition findCompiledArray (fuel : nat) (depth : Z) (tokenIndex : nat) (pointer : CompiledPointer) (s : seeker) :=
  find_array (find_value fuel) depth (mkComp pointer tokenIndex) s.
Definition findCompiledObject (fuel : nat) (depth : Z) (tokenIndex : nat) (pointer : CompiledPointer) (s : seeker) :=
  find_object (find_value fuel) depth (mkComp pointer tokenIndex) s.

Definition findValue (depth : Z) (tokenStart : nat) (pointer : bytes) (s : seeker) :=
  find_value (S (length src)) depth (mkText pointer tokenStart) s.
Definition findCompiledValue (depth : Z) (tokenIndex : nat) (pointer : CompiledPointer) (s : seeker) :=
  find_value (S (length src)) depth (mkComp pointer tokenIndex) s.
End Seek.

(** The error of a lookup. *)
Inductive raw_error : Type := RSyntax (e : SyntaxError) | RPointer (e : PointerError).

Definition raw_result {A} (r : res SyntaxError A) : res raw_error A :=
  match r with
  | Ok a => Ok a
  | Err e => Err (RSyntax e)
  | Panic => Panic
  | NoFuel => NoFuel
  end.

(** [raw, ok, err := ...; if err != nil { return err }] *)
Definition raw_checked (r : seeker * rawres) : res raw_error (seeker * (bytes * bool)) :=
  match r_err r.2 with
  | Some e => Err (RPointer e)
  | None => Ok (r.1, (r_raw r.2, r_ok r.2))
  end.

Definition raw_trailing (src : bytes) (s : seeker) (raw : bytes * bool) : res raw_error (bytes * bool) :=
  let s := s_skip src s in
  if negb (s_i s =? length src)%nat then Err (RSyntax (syntax_at src (s_i s) "unexpected data after top-level value"))
  else Ok raw.

Definition pointer_checked (pointer : bytes) : res raw_error unit :=
  match validatePointerSyntax pointer with
  | Ok _ => Ok tt
  | Err e => Err (RPointer e)
  | Panic => Panic
  | NoFuel => NoFuel
  end.

Definition GetRawOptions (src pointer : bytes) (opts : Options) : res raw_error (bytes * bool) :=
  let* _ := pointer_checked pointer in
  let maxDepth := maxDepthOrDefault (MaxDepth opts) in
  let s := s_skip src (mkSeek 0 false) in
  let* r := raw_result (if bool_decide (pointer = []) then captureValue src maxDepth false 0 s
                        else findValue src maxDepth false 0 1 pointer s) in
  let* (s, raw) := raw_checked r in
  raw_trailing src s raw.

Definition ScanFirstRawOptions (src pointer : bytes) (opts : Options) : res raw_error (bytes * bool) :=
  let* _ := pointer_checked pointer in
  let maxDepth := maxDepthOrDefault (MaxDepth opts) in
  let s := s_skip src (mkSeek 0 false) in
  let* r := raw_result (if bool_decide (pointer = []) then captureValue src maxDepth true 0 s
                        else findValue src maxDepth true 0 1 pointer s) in
  let* (_, raw) := raw_checked r in Ok raw.

Definition GetRaw (src pointer : bytes) := GetRawOptions src pointer (mkOptions 0 false).
Definition ScanFirstRaw (src pointer : bytes) := ScanFirstRawOptions src pointer (mkOptions 0 false).

(** [CompiledPointer.GetRawOptions] and [CompiledPointer.ScanFirstRawOptions]. *)
Definition compiled_GetRawOptions (p : CompiledPointer) (src : bytes) (opts : Options) : res raw_error (bytes * bool) :=
  let maxDepth := maxDepthOrDefault (MaxDepth opts) in
  let s := s_skip src (mkSeek 0 false) in
  let* r := raw_result (findCompiledValue src maxDepth false 0 0 p s) in
  let* (s, raw) := raw_checked r in
  raw_trailing src s raw.

Definition compiled_ScanFirstRawOptions (p : CompiledPointer) (src : bytes) (opts : Options) :
    res raw_error (bytes * bool) :=
  let maxDepth := maxDepthOrDefault (MaxDepth opts) in
  let s := s_skip src (mkSeek 0 false) in
  let* r := raw_result (findCompiledValue src maxDepth true 0 0 p s) in
  let* (_, raw) := raw_checked r in Ok raw.

Definition compiled_GetRaw (p : CompiledPointer) (src : bytes) := compiled_GetRawOptions p src (mkOptions 0 false).
Definition compiled_ScanFirstRaw (p : CompiledPointer) (src : bytes) :=
  compiled_ScanFirstRawOptions p src (mkOptions 0 false).

(** ** The string scan follows the reference reader *)

Section StringRefine.
Context (src : bytes).
Hypothesis Hsrc : bytes_ok src.

Lemma has_bs_step i j k :
  (i <= j <= k)%nat -> (k <= length src)%nat -> has_bs (slice src i j) = false ->
  has_bs (slice src i k) = has_bs (slice src j k).
Proof using. intros H Hk Hf. by rewrite (has_bs_slice src i j k), Hf by done. Qed.

Lemma raw_string_loop_ref fuel i escaped out :
  (i <= length src)%nat -> (length src - i < fuel)%nat ->
  match str_at src i out with
  | Ok (j, _) => exists stop, j = S stop /\ (i <= stop < length src)%nat /\
    raw_string_loop src fuel i escaped = Ok (stop, escaped || has_bs (slice src i stop), j)
  | Err (o, m) => raw_string_loop src fuel i escaped = Err (syntax_at src o m)
  | _ => False
  end.
Proof using Hsrc.
  revert i escaped out. induction fuel as [|fuel IH]; intros i escaped out Hi Hf; [lia|].
  cbn [raw_string_loop]. rewrite (str_at_special src Hsrc i out Hi). rewrite scanStringSpecial_spec by done.
  set (p := fun c => negb (is_string_special c)). pose proof (advance_le p src i Hi) as Hj.
  assert (Hb : has_bs (slice src i (advance p src i)) = false).
  { apply has_bs_plain. eapply Forall_impl; [apply (advance_slice p src i Hi)|].
  intros c. unfold p, is_string_syntax, is_string_special. lia. }
  set (j := advance p src i) in *. set (out' := out ++ slice src i j). cbv zeta.
  at_pos src j as c E.
  2:{ apply lookup_ge_None in E as Hge. rewrite str_at_end by lia. by replace j with (length src) by lia. }
  apply lookup_lt_Some in E as Hlt. destruct (Z.eqb_spec c DQUOTE) as [->|Hq].
  { rewrite (str_at_quote src j out') by done. exists j. rewrite Hb, orb_false_r. split_and!; (done || lia). }
  destruct (Z.eqb_spec c BSLASH) as [->|Hbs].
  - destruct (Nat.leb_spec (length src) (S j)) as [Hle|Hgt]; [by rewrite str_at_escape_end|].
    rewrite str_at_escape by done. rewrite validateEscape_ref by done.
    pose proof (esc_ok_bound src (S j)) as Hbd. destruct (esc_ref (drop (S j) src)) as [n dec|m]; cbn [res_bind].
    2:{ by replace (S j - 1)%nat with j by lia. }
    specialize (Hbd n dec ltac:(lia) eq_refl). specialize (IH (S j + n)%nat true (out' ++ dec) ltac:(lia) ltac:(lia)).
    destruct (str_at src (S j + n) (out' ++ dec)) as [[e d]|[o m]| |]; [|done..].
    destruct IH as (stop & -> & Hst & ->). exists stop. split; [done|]. split; [lia|].
    rewrite (has_bs_step i j stop) by (done || lia). rewrite (has_bs_head src j stop) by (done || lia). by rewrite orb_true_r.
  - destruct (Z.ltb_spec c 0x20) as [Hc|Hc]; [by rewrite (str_at_control src j c)|].
    pose proof (advance_span p src i Hi) as (w & _ & _ & Hst).
    fold j in Hst. rewrite stops_lookup, E in Hst.
    assert (H128 : 128 <= c).
    { unfold p, is_string_special in Hst. lia. }
    pose proof (str_at_unicode src Hsrc j c out' E H128) as Hu.
    pose proof (scanStringUnicodeRun_spec src j c Hsrc E H128) as Hr.
    destruct (scanStringUnicodeRun src j) as [next [bad|]]; [by destruct Hu as [_ ->]|].
    destruct Hu as [Hn ->]. destruct Hr as (_ & _ & Hp). apply has_bs_plain in Hp.
    specialize (IH next escaped (out' ++ slice src j next) ltac:(lia) ltac:(lia)).
    destruct (str_at src next _) as [[e d]|[o m]| |]; [|done..].
    destruct IH as (stop & -> & Hst' & ->). exists stop. split; [done|]. split; [lia|].
    by rewrite (has_bs_step i j stop), (has_bs_step j next stop) by (done || lia).
Qed.

(** A key or string token: where its content is, and what it decodes to. *)
Lemma parseStringRaw_ref i :
  src !! i = Some DQUOTE ->
  match ref_str src i with
  | Ok (j, dec) => exists stop escaped, j = S stop /\ (S i <= stop < length src)%nat /\
    parseStringRaw src i = Ok (S i, stop, escaped, j) /\
    unescape (slice src (S i) stop) = Some dec /\
    (escaped = false -> slice src (S i) stop = dec)
  | Err (o, m) => parseStringRaw src i = Err (syntax_at src o m)
  | _ => False
  end.
Proof using Hsrc.
  intros Hi. apply lookup_lt_Some in Hi as Hlt. pose proof (ref_str_sound src Hsrc i Hi) as Hs.
  unfold parseStringRaw. pose proof (raw_string_loop_ref (S (length src)) (S i) false [] ltac:(lia) ltac:(lia)) as H.
  unfold ref_str in *. destruct (str_at src (S i) []) as [[j dec]|[o m]| |]; [|by rewrite H|done..].
  destruct H as (stop & -> & Hst & ->). cbn [res_bind orb]. destruct Hs as (Hj & key & Hk & Hjs).
  assert (Hu : unescape (slice src (S i) stop) = Some dec).
  { rewrite <- (jstring_inner _ _ Hjs). f_equal. rewrite <- (span_slice _ _ _ _ Hk).
  rewrite (slice_cons src i (S stop) DQUOTE) by (done || lia). rewrite (slice_app src (S i) stop (S stop)) by lia.
  destruct Hjs as [s d _]. apply span_cons in Hk as [_ Hk]. apply span_split in Hk as [_ Hk].
  apply span_cons in Hk as [Hq Hk]. apply span_nil_inv in Hk as [Hk _].
  rewrite (slice_cons src stop (S stop) DQUOTE), slice_refl by (lia || (rewrite <- Hq; f_equal; lia)).
  by rewrite inner_token. }
  exists stop, (has_bs (slice src (S i) stop)). split_and!; (done || lia || idtac).
  intros Hb. rewrite (unescape_clean _ Hb) in Hu. congruence.
Qed.

Lemma keyMatches_ref i stop j dec escaped token :
  src !! i = Some DQUOTE -> ref_str src i = Ok (j, dec) ->
  (escaped = false -> slice src (S i) stop = dec) ->
  keyMatches src token (S i) stop escaped = Ok (bool_decide (dec = token)).
Proof using Hsrc.
  intros Hi Hr He. unfold keyMatches. destruct escaped; cbn [negb]; [|by rewrite He].
  replace (S i - 1)%nat with i by lia. apply lookup_lt_Some in Hi.
  by rewrite p_parseString_ref, Hr by done.
Qed.
End StringRefine.

(** ** The specification: lookup in the tree *)

Inductive outcome : Type := Found (t : tree) | Absent | Failed (e : PointerError).

Definition decided (o : outcome) : bool := match o with Absent => false | _ => true end.
Definition is_found (o : outcome) : bool := match o with Found _ => true | _ => false end.

Definition select (first : bool) (acc o : outcome) : outcome := if first && decided acc then acc else o.

(** Walk the tokens [path] into [t].  Of several members with the wanted name the
    last decides, or with [first] the first one whose own lookup is decided. *)
Fixpoint resolve (first : bool) (path : list bytes) (t : tree) : outcome :=
  match path with
  | [] => Found t
  | tok :: path =>
      match t with
      | TArr _ ts =>
          match parsePointerIndex tok with
          | inl e => Failed e
          | inr None => Absent
          | inr (Some n) =>
              match ts !! Z.to_nat n with Some t => resolve first path t | None => Absent end
          end
      | TObj _ ms =>
          foldl (select first) Absent
            (map (fun m => resolve first path m.2) (filter (fun m : (bytes * bytes) * tree => m.1.2 = tok) ms))
      | _ => Absent
      end
  end.

Definition out (o : outcome) : rawres :=
  match o with
  | Found t => mkRaw (raw_of t) true None
  | Absent => raw_none
  | Failed e => raw_fail e
  end.

Lemma foldl_select_decided o l : decided o = true -> foldl (select true) o l = o.
Proof. intros H. induction l as [|x l IH]; [done|]. cbn [foldl]. unfold select at 2. by rewrite H. Qed.

Lemma decimal_nonneg tok z :
  existsb (fun c => (c <? "0"%ch) || ("9"%ch <? c)) tok = false -> 0 <= z ->
  0 <= fold_left (fun n c => n * 10 + (c - "0"%ch)) tok z.
Proof.
  revert z. induction tok as [|c tok IH]; intros z Hd Hz; [done|]. cbn [existsb] in Hd.
  apply orb_false_iff in Hd as [H1 H2]. cbn [fold_left]. apply IH; [done|]. lia.
Qed.

Lemma parsePointerIndex_nonneg tok n : parsePointerIndex tok = inr (Some n) -> 0 <= n.
Proof.
  unfold parsePointerIndex, classifyPointerIndex, Atoi, decimal_value.
  case_bool_decide; [done|]. case_bool_decide; [done|].
  destruct (_ && _); [done|]. destruct (existsb _ tok) eqn:Hd; [done|].
  pose proof (decimal_nonneg tok 0 Hd ltac:(lia)). cbv zeta. destruct (_ <=? MaxInt); intros; by simplify_eq.
Qed.

(** ** The seeker finds what the specification says *)

Section SeekRefine.
Context (src : bytes) (maxDepth : Z) (stop : bool).
Hypothesis Hsrc : bytes_ok src.
Abbreviation rv := (ref_value src maxDepth unexpected_byte).

(** The seeker stopped at a decided lookup ([stopAfterFound]). *)
Definition gave_up (r : res SyntaxError (seeker * rawres)) : Prop :=
  stop = true /\ exists i o, decided o = true /\ r = Ok (mkSeek i (is_found o), out o).

(** The outcome [o] of a value that ends at [j]. *)
Definition lands (r : res SyntaxError (seeker * rawres)) (j : nat) (o : outcome) : Prop :=
  if stop && decided o then exists i, r = Ok (mkSeek i (is_found o), out o)
  else r = Ok (mkSeek j false, out o).

Definition seeks {A} (f : A -> outcome) (r : res SyntaxError (seeker * rawres)) (rr : res rerr (nat * A)) : Prop :=
  match rr with
  | Ok (j, a) => lands r j (f a)
  | Err (o, m) => r = Err (syntax_at src o m) \/ gave_up r
  | _ => False
  end.

Lemma skipValue_ref fuel depth i d :
  (i <= length src)%nat -> (length src - i < fuel)%nat ->
  skipValue src maxDepth depth (mkSeek i d) = as_syntax src (fun p => mkSeek p.1 d) (rv fuel depth i).
Proof using Hsrc.
  intros Hi Hf. unfold skipValue. cbn [s_i s_done].
  pose proof (parseValue_ref src maxDepth Hsrc (S (length src)) depth (mkV i None) None ltac:(simpl; lia)
    ltac:(simpl; lia) I) as H. cbn [v_i] in H.
  rewrite (ref_value_fuel src maxDepth unexpected_byte Hsrc fuel (S (length src))) by lia.
  destruct (rv _ depth i) as [[j t]|[o m]| |]; cbn [v_follows] in H; [|by rewrite H|done..].
  destruct H as (ol & -> & _). done.
Qed.

Lemma s_skip_ref i d : (i <= length src)%nat -> s_skip src (mkSeek i d) = mkSeek (ref_ws src i) d.
Proof using Hsrc. intros Hi. unfold s_skip. cbn [s_i s_done]. by rewrite SkipSpace_spec. Qed.

Lemma reads_span k i j t : reads src k i (Ok (j, t)) -> (i < j <= length src)%nat /\ slice src i j = raw_of t.
Proof using.
  intros (Hj & s & Hs & Hv). pose proof (span_le _ _ _ _ Hs). split; [lia|].
  by rewrite (span_slice _ _ _ _ Hs), (jvalue_raw _ _ _ Hv).
Qed.

Lemma captureValue_ref fuel depth i :
  (i <= length src)%nat -> (length src - i < fuel)%nat ->
  seeks Found (captureValue src maxDepth stop depth (mkSeek i false)) (rv fuel depth i).
Proof using Hsrc.
  intros Hi Hf. unfold captureValue. cbn [s_i]. rewrite (skipValue_ref fuel) by done.
  pose proof (ref_value_sound src maxDepth unexpected_byte Hsrc fuel depth i Hi Hf) as Hr.
  destruct (rv fuel depth i) as [[j t]|[o m]| |]; cbn [as_syntax res_bind seeks]; [|by left|done..].
  apply reads_span in Hr as [_ Hr]. unfold lands. destruct stop; cbn [andb decided s_i fst]; rewrite Hr; [by exists j|done].
Qed.

(** The shared step: the inner lookup of a matched element or member. *)
Lemma after_find_ref {A} close (f : A -> outcome) r rr :
  seeks f r rr ->
  match rr with
  | Ok (j, t) =>
    if stop && decided (f t) then gave_up (let* found := r in after_find stop close None found) /\
    lands (let* found := r in after_find stop close None found) j (f t)
    else (let* found := r in after_find stop close None found) = close (mkSeek j false) (out (f t))
  | Err (o, m) => (let* found := r in after_find stop close None found) = Err (syntax_at src o m) \/
    gave_up (let* found := r in after_find stop close None found)
  | _ => False
  end.
Proof using.
  assert (Hgo : forall i o, stop = true -> decided o = true ->
    after_find stop close None (mkSeek i (is_found o), out o) = Ok (mkSeek i (is_found o), out o)).
  { intros i o Hs Hd. unfold after_find. rewrite Hs. by destruct o. }
  destruct rr as [[j t]|[o m]| |]; cbn [seeks]; [| |done|done].
  - unfold lands. destruct (stop && decided (f t)) eqn:E.
    + apply andb_true_iff in E as [Hs Hd]. intros (i & ->). cbn [res_bind]. rewrite Hgo by done.
      split; [|by eexists]. split; [done|]. by exists i, (f t).
    + intros ->. cbn [res_bind after_find s_done r_err].
      apply andb_false_iff in E. unfold after_find. destruct (f t) as [t'| |e]; cbn [out r_err]; [done..|].
      destruct E as [->|?]; done.
  - intros [->|(Hs & i & o' & Hd & ->)]; [by left|right]. cbn [res_bind]. rewrite Hgo by done.
    split; [done|]. by exists i, o'.
Qed.

Section Walk.
Context {K : Type} {HO : PathOps K}.
Context (find : Z -> K -> seeker -> res SyntaxError (seeker * rawres)).
Context (rvf : Z -> nat -> res rerr (nat * tree)) (depth : Z) (bound : nat).
Context (next : K) (path : list bytes).
Hypothesis Hfind : forall i, (bound <= i <= length src)%nat ->
  seeks (resolve stop path) (find depth next (mkSeek i false)) (rvf depth i).
Hypothesis Hskip : forall i, (bound <= i <= length src)%nat ->
  skipValue src maxDepth depth (mkSeek i false) = as_syntax src (fun p => mkSeek p.1 false) (rvf depth i).
Hypothesis Hrd : forall i, (bound <= i <= length src)%nat -> reads src (maxDepth - depth) i (rvf depth i).

(** The elements left, from number [elem]; [o] is the outcome so far. *)
Definition scan_from (index : option Z) (elem : Z) (o : outcome) (ts : list tree) : outcome :=
  match index with
  | Some n => if n <? elem then o else
    match ts !! Z.to_nat (n - elem) with Some t => resolve stop path t | None => o end
  | None => o
  end.

Lemma scan_from_cons index elem o t ts :
  scan_from index elem o (t :: ts) =
  scan_from index (elem + 1) (if bool_decide (index = Some elem) then resolve stop path t else o) ts.
Proof using.
  unfold scan_from. destruct index as [n|]; [|by rewrite bool_decide_eq_false_2].
  destruct (Z.ltb_spec n elem).
  { rewrite bool_decide_eq_false_2 by (intros [=]; lia). by rewrite (proj2 (Z.ltb_lt n (elem + 1))) by lia. }
  destruct (decide (n = elem)) as [->|Hne].
  - rewrite bool_decide_eq_true_2 by done. rewrite (proj2 (Z.ltb_lt _ _)) by lia. by rewrite Z.sub_diag.
  - rewrite bool_decide_eq_false_2 by congruence. rewrite (proj2 (Z.ltb_ge n (elem + 1))) by lia.
    replace (Z.to_nat (n - elem)) with (S (Z.to_nat (n - (elem + 1)))) by lia. done.
Qed.

Lemma scan_from_done index elem o ts :
  (forall n, index = Some n -> n < elem) -> scan_from index elem o ts = o.
Proof using.
  intros H. unfold scan_from. destruct index as [n|]; [|done]. by rewrite (proj2 (Z.ltb_lt _ _)) by auto.
Qed.

Definition elems_seek (index : option Z) (elem : Z) (o : outcome) (acc : list tree)
  (r : res SyntaxError (seeker * rawres)) (rr : res rerr (nat * list tree)) : Prop :=
  match rr with
  | Ok (j, ts) => exists ts', ts = acc ++ ts' /\ lands r j (scan_from index elem o ts')
  | Err (p, m) => r = Err (syntax_at src p m) \/ gave_up r
  | _ => False
  end.

Lemma lands_gave_up r j j' o : stop && decided o = true -> lands r j o -> lands r j' o.
Proof using. unfold lands. by intros ->. Qed.

Lemma find_array_loop_ref index fuel i elem o acc :
  (bound <= i <= length src)%nat -> (length src - i < fuel)%nat ->
  (stop = true -> decided o = false) -> (forall n, index = Some n -> elem <= n -> o = Absent) ->
  elems_seek index elem o acc
  (find_array_loop src maxDepth stop find fuel depth index next elem (mkSeek i false) (out o))
  (ref_elems src rvf fuel depth i acc).
Proof using Hfind Hskip Hrd Hsrc.
  revert i elem o acc. induction fuel as [|fuel IH]; intros i elem o acc Hi Hfu Hu Ho; [lia|].
  cbn [find_array_loop ref_elems]. rewrite s_skip_ref by lia. pose proof (ref_ws_le src i ltac:(lia)) as H1.
  set (i1 := ref_ws src i) in *. cbv zeta. set (close := fun s raw => _).
  specialize (Hrd i1 ltac:(lia)) as Hr.
  (* after an element that leaves the loop running *)
  assert (Hclose : forall j t o', (i1 < j <= length src)%nat -> (stop = true -> decided o' = false) ->
    o' = (if bool_decide (index = Some elem) then resolve stop path t else o) ->
    elems_seek index elem o acc (close (mkSeek j false) (out o'))
    (match src !! ref_ws src j with
    | None => Err (ref_ws src j, "unterminated array"%string)
    | Some c => if c =? ","%ch then ref_elems src rvf fuel depth (S (ref_ws src j)) (acc ++ [t])
    else if c =? "]"%ch then Ok (S (ref_ws src j), acc ++ [t])
    else Err (ref_ws src j, "expected comma or closing bracket in array"%string)
    end)).
  { intros j t o' Hj Hu' Ho'. unfold close. rewrite s_skip_ref by lia. cbn [s_i].
  pose proof (ref_ws_le src j ltac:(lia)) as H2. set (k := ref_ws src j) in *.
  at_pos src k as c E; [|by left]. apply lookup_lt_Some in E as Hlt.
  destruct (c =? ","%ch).
  - unfold s_next. cbn [s_i s_done].
    assert (Hn : forall n, index = Some n -> elem + 1 <= n -> o' = Absent).
    { intros n -> Hn. rewrite Ho', bool_decide_eq_false_2 by (intros [=]; lia). apply (Ho n); [done|lia]. }
    specialize (IH (S k) (elem + 1) o' (acc ++ [t]) ltac:(lia) ltac:(lia) Hu' Hn).
    unfold elems_seek in *. destruct (ref_elems src rvf fuel depth (S k) (acc ++ [t])) as [[e ts]|[p m]| |];
      [|done..]. destruct IH as (ts' & -> & Hl). exists (t :: ts'). split; [by rewrite <- app_assoc|].
    by rewrite scan_from_cons, <- Ho'.
  - destruct (c =? "]"%ch); [|by left]. exists [t]. split; [done|]. rewrite scan_from_cons, <- Ho'.
    assert (Hs : scan_from index (elem + 1) o' [] = o').
    { unfold scan_from. destruct index as [n|]; [|done]. by destruct (n <? elem + 1). }
    rewrite Hs. unfold lands. destruct (stop && decided o') eqn:Ed; [|done].
    apply andb_true_iff in Ed as [Hs' Hd]. by rewrite Hu' in Hd. }
    case_bool_decide as Hidx.
  - assert (o = Absent) as -> by (apply (Ho elem); [done|lia]). cbn [out raw_none r_err].
    pose proof (after_find_ref close (resolve stop path) _ _ (Hfind i1 ltac:(lia))) as Ha.
    destruct (rvf depth i1) as [[j t]|[p m]| |]; cbn [res_bind]; [|done..].
    apply reads_span in Hr as [Hj _]. destruct (stop && decided (resolve stop path t)) eqn:Ed.
    + destruct Ha as [Hg Hl]. pose proof (ref_ws_le src j ltac:(lia)) as H2.
      pose proof (ref_elems_sound src maxDepth rvf depth bound Hrd fuel (S (ref_ws src j)) (acc ++ [t])) as Hrest.
      unfold elems_seek. at_pos src (ref_ws src j) as c E; [|by right]. apply lookup_lt_Some in E as Hlt.
      assert (Hsc : forall ts', scan_from index elem Absent (t :: ts') = resolve stop path t).
      { intros ts'. rewrite scan_from_cons, bool_decide_eq_true_2 by done. apply scan_from_done.
      intros n. rewrite Hidx. intros [=]. lia. }
      destruct (c =? ","%ch).
      * specialize (Hrest ltac:(lia) ltac:(lia)).
        destruct (ref_elems src rvf fuel depth (S (ref_ws src j)) (acc ++ [t])) as [[e ts]|[p m]| |]; [|by right|done..].
        destruct Hrest as (_ & s & ts' & _ & -> & _). exists (t :: ts'). split; [by rewrite <- app_assoc|].
        rewrite Hsc. by apply (lands_gave_up _ j).
      * destruct (c =? "]"%ch); [|by right]. exists [t]. split; [done|]. rewrite Hsc. by apply (lands_gave_up _ j).
    + rewrite Ha. apply Hclose; [lia| |done].
      intros Hs. apply andb_false_iff in Ed as [?|?]; [congruence|done].
  - rewrite Hskip by lia. destruct (rvf depth i1) as [[j t]|[p m]| |]; cbn [as_syntax res_bind fst]; [|by left|done..].
    apply reads_span in Hr as [Hj _]. apply Hclose; [lia|done|done].
Qed.

(** The members left; [o] is the outcome so far. *)
Definition pick (tok : bytes) (o : outcome) (ms : list ((bytes * bytes) * tree)) : outcome :=
  foldl (select stop) o
  (map (fun m => resolve stop path m.2) (filter (fun m : (bytes * bytes) * tree => m.1.2 = tok) ms)).

Lemma pick_cons tok o m ms :
  (stop = true -> decided o = false) ->
  pick tok o (m :: ms) = pick tok (if bool_decide (m.1.2 = tok) then resolve stop path m.2 else o) ms.
Proof using.
  clear Hfind Hskip Hrd. intros Hu. unfold pick. case_bool_decide as Hm.
  - rewrite filter_cons_True by done. cbn [map foldl]. f_equal. unfold select.
    destruct stop; [by rewrite Hu|done].
  - by rewrite filter_cons_False.
Qed.

Lemma pick_decided tok o ms : stop && decided o = true -> pick tok o ms = o.
Proof using.
  intros [Hs Hd]%andb_true_iff. unfold pick. rewrite Hs. exact (foldl_select_decided _ _ Hd).
Qed.

Definition members_seek (tok : bytes) (o : outcome) (acc : list ((bytes * bytes) * tree))
  (r : res SyntaxError (seeker * rawres)) (rr : res rerr (nat * list ((bytes * bytes) * tree))) : Prop :=
  match rr with
  | Ok (j, ms) => exists ms', ms = acc ++ ms' /\ lands r j (pick tok o ms')
  | Err (p, m) => r = Err (syntax_at src p m) \/ gave_up r
  | _ => False
  end.

(** One member read by the reference, the rest of the list not looked at. *)
Lemma members_gave_up tok o acc m j fuel r :
  (bound <= j <= length src)%nat -> (length src - j <= fuel)%nat ->
  (stop = true -> decided o = false) -> m.1.2 = tok ->
  stop && decided (resolve stop path m.2) = true ->
  lands r j (resolve stop path m.2) -> gave_up r ->
  members_seek tok o acc r
  (match src !! ref_ws src j with
  | None => Err (ref_ws src j, "unterminated object"%string)
  | Some c => if c =? ","%ch then ref_members src rvf fuel depth (S (ref_ws src j)) (acc ++ [m])
    else if c =? "}"%ch then Ok (S (ref_ws src j), acc ++ [m])
    else Err (ref_ws src j, "expected comma or closing brace in object"%string)
  end).
Proof using Hrd Hsrc.
  clear Hfind Hskip. intros Hj Hfu Hu Hm Ed Hl Hg. unfold members_seek. pose proof (ref_ws_le src j ltac:(lia)) as H2.
  assert (Hsc : forall ms', pick tok o (m :: ms') = resolve stop path m.2).
  { intros ms'. rewrite pick_cons, bool_decide_eq_true_2 by done. by apply pick_decided. }
  at_pos src (ref_ws src j) as c E; [|by right]. apply lookup_lt_Some in E as Hlt.
  destruct (c =? ","%ch).
  - pose proof (ref_members_sound src maxDepth Hsrc rvf depth bound Hrd fuel (S (ref_ws src j)) (acc ++ [m])
      ltac:(lia) ltac:(lia)) as Hrest.
    destruct (ref_members src rvf fuel depth (S (ref_ws src j)) (acc ++ [m])) as [[e ms]|[p msg]| |]; [|by right|done..].
    destruct Hrest as (_ & s & ms' & _ & -> & _). exists (m :: ms'). split; [by rewrite <- app_assoc|].
    rewrite Hsc. by apply (lands_gave_up _ j).
  - destruct (c =? "}"%ch); [|by right]. exists [m]. split; [done|]. rewrite Hsc. by apply (lands_gave_up _ j).
Qed.

Lemma find_object_loop_ref tok fuel i o acc :
  (bound <= i <= length src)%nat -> (length src - i < fuel)%nat ->
  (stop = true -> decided o = false) ->
  members_seek tok o acc
  (find_object_loop src maxDepth stop find fuel depth tok next (mkSeek i false) (out o))
  (ref_members src rvf fuel depth i acc).
Proof using Hfind Hskip Hrd Hsrc.
  revert i o acc. induction fuel as [|fuel IH]; intros i o acc Hi Hfu Hu; [lia|].
  cbn [find_object_loop ref_members]. rewrite s_skip_ref by lia. pose proof (ref_ws_le src i ltac:(lia)) as H1.
  set (i1 := ref_ws src i) in *. cbn [s_i s_done]. destruct (at_byte src i1 DQUOTE) eqn:Hq; [|by left]. cbn [negb].
  apply at_byte_spec in Hq. pose proof (parseStringRaw_ref src Hsrc i1 Hq) as Hstr.
  destruct (ref_str src i1) as [[i2 name]|[p m]| |] eqn:Hrs; cbn [res_bind]; [|by left; rewrite Hstr|done..].
  destruct Hstr as (kstop & escaped & -> & Hk & -> & _ & Hesc). cbn [res_bind].
  rewrite (keyMatches_ref src Hsrc i1 kstop _ _ _ tok Hq Hrs Hesc). cbn [res_bind].
  rewrite s_skip_ref by lia. cbn [s_i s_done]. pose proof (ref_ws_le src (S kstop) ltac:(lia)) as H2.
  set (i3 := ref_ws src (S kstop)) in *. cbv zeta. destruct (at_byte src i3 ":"%ch) eqn:Hc; [|by left]. cbn [negb].
  apply at_byte_lt in Hc. change (s_next (mkSeek i3 false)) with (mkSeek (S i3) false). rewrite s_skip_ref by lia.
  pose proof (ref_ws_le src (S i3) ltac:(lia)) as H3. set (i4 := ref_ws src (S i3)) in *.
  set (key := slice src i1 (S kstop)). set (close := fun s raw => _).
  specialize (Hrd i4 ltac:(lia)) as Hr.
  assert (Hclose : forall j t o', (i4 < j <= length src)%nat -> (stop = true -> decided o' = false) ->
    o' = (if bool_decide (name = tok) then resolve stop path t else o) ->
    members_seek tok o acc (close (mkSeek j false) (out o'))
    (match src !! ref_ws src j with
    | None => Err (ref_ws src j, "unterminated object"%string)
    | Some c => if c =? ","%ch then ref_members src rvf fuel depth (S (ref_ws src j)) (acc ++ [((key, name), t)])
    else if c =? "}"%ch then Ok (S (ref_ws src j), acc ++ [((key, name), t)])
    else Err (ref_ws src j, "expected comma or closing brace in object"%string)
    end)).
  { intros j t o' Hj Hu' Ho'. unfold close. rewrite s_skip_ref by lia. cbn [s_i].
  pose proof (ref_ws_le src j ltac:(lia)) as H4. at_pos src (ref_ws src j) as c E; [|by left].
  apply lookup_lt_Some in E as Hlt. destruct (c =? ","%ch).
  - unfold s_next. cbn [s_i s_done].
    specialize (IH (S (ref_ws src j)) o' (acc ++ [((key, name), t)]) ltac:(lia) ltac:(lia) Hu').
    unfold members_seek in *. destruct (ref_members src rvf fuel depth (S (ref_ws src j)) _) as [[e ms]|[p m]| |];
      [|done..]. destruct IH as (ms' & -> & Hl). exists (((key, name), t) :: ms').
    split; [by rewrite <- app_assoc|]. rewrite pick_cons by done. cbn [fst snd]. by rewrite <- Ho'.
  - destruct (c =? "}"%ch); [|by left]. exists [((key, name), t)]. split; [done|].
    rewrite pick_cons by done. cbn [fst snd]. rewrite <- Ho'. change (pick tok o' []) with o'. unfold lands.
    destruct (stop && decided o') eqn:Ed; [|done].
    apply andb_true_iff in Ed as [Hs' Hd]. by rewrite Hu' in Hd. }
    case_bool_decide as Hidx.
  - pose proof (after_find_ref close (resolve stop path) _ _ (Hfind i4 ltac:(lia))) as Ha.
    destruct (rvf depth i4) as [[j t]|[p m]| |]; cbn [res_bind]; [|done..].
    apply reads_span in Hr as [Hj _]. destruct (stop && decided (resolve stop path t)) eqn:Ed.
    + destruct Ha as [Hg Hl]. apply (members_gave_up tok o acc ((key, name), t) j fuel); [lia|lia|done|exact Hidx|exact Ed|exact Hl|exact Hg].
    + rewrite Ha. apply Hclose; [lia| |done].
      intros Hs. apply andb_false_iff in Ed as [?|?]; [congruence|done].
  - rewrite Hskip by lia. destruct (rvf depth i4) as [[j t]|[p m]| |]; cbn [as_syntax res_bind fst]; [|by left|done..].
    apply reads_span in Hr as [Hj _]. apply (Hclose j t o); [lia|done|done].
Qed.
End Walk.

Section Cursor.
Context {K : Type} {HO : PathOps K} (rep : K -> list bytes -> Prop) {HL : PathLaws K rep}.

Definition finds_at (find : Z -> K -> seeker -> res SyntaxError (seeker * rawres))
  (rvf : Z -> nat -> res rerr (nat * tree)) (depth : Z) (bound : nat) : Prop :=
  forall k path i, rep k path -> (bound <= i <= length src)%nat ->
  seeks (resolve stop path) (find depth k (mkSeek i false)) (rvf depth i).

Section Containers.
Context (find : Z -> K -> seeker -> res SyntaxError (seeker * rawres)).
Context (rvf : Z -> nat -> res rerr (nat * tree)) (depth : Z) (i : nat).
Hypothesis Hi : (i < length src)%nat.
Hypothesis Hfind : finds_at find rvf depth (S i).
Hypothesis Hskip : forall j, (S i <= j <= length src)%nat ->
  skipValue src maxDepth depth (mkSeek j false) = as_syntax src (fun p => mkSeek p.1 false) (rvf depth j).
Hypothesis Hrd : forall j, (S i <= j <= length src)%nat -> reads src (maxDepth - depth) j (rvf depth j).

Lemma find_array_ref k tok path :
  rep k (tok :: path) ->
  skipValue src maxDepth (depth - 1) (mkSeek i false) =
  as_syntax src (fun p => mkSeek p.1 false) (ref_array src maxDepth rvf depth i) ->
  seeks (resolve stop (tok :: path)) (find_array src maxDepth stop find depth k (mkSeek i false))
  (ref_array src maxDepth rvf depth i).
Proof using Hi Hfind Hskip Hrd Hsrc HL.
  intros Hk Hself. unfold find_array. cbn [s_i]. rewrite (path_index_law (rep:=rep) k tok path Hk).
  pose proof (path_next_law (rep:=rep) k tok path Hk) as Hnext. unfold ref_array in *.
  destruct (maxDepth <? depth); [by left|]. cbv zeta in *.
  change (s_next (mkSeek i false)) with (mkSeek (S i) false). rewrite s_skip_ref by lia. cbn [s_i s_done].
  pose proof (ref_ws_le src (S i) ltac:(lia)) as Hle. set (j := ref_ws src (S i)) in *.
  pose proof (ref_elems_sound src maxDepth rvf depth (S i) Hrd (S (length src)) j [] ltac:(lia) ltac:(lia)) as Hs.
  destruct (parsePointerIndex tok) as [e|index] eqn:Hidx.
  - assert (Hfail : forall raw ts, resolve stop (tok :: path) (TArr raw ts) = Failed e)
      by (intros; cbn [resolve]; by rewrite Hidx).
    destruct (Bool.bool_dec stop true) as [Hst|Hst%not_true_is_false].
    + replace (negb stop) with false by (by rewrite Hst). clear Hself.
      assert (Hg : gave_up (Ok (mkSeek i false, raw_fail e))) by (split; [done|]; by exists i, (Failed e)).
      assert (Hl : forall j' raw ts, lands (Ok (mkSeek i false, raw_fail e)) j' (resolve stop (tok :: path) (TArr raw ts))).
      { intros. rewrite Hfail. unfold lands. rewrite Hst. by exists i. }
      destruct (at_byte src j "]"%ch); [apply Hl|].
      destruct (ref_elems src rvf _ depth j []) as [[e' ts]|[o m]| |]; [apply Hl|by right|done..].
    + replace (negb stop) with true by (by rewrite Hst). rewrite Hself.
      destruct (at_byte src j "]"%ch); cbn [as_syntax res_bind seeks fst];
        [rewrite Hfail; unfold lands; by rewrite Hst|].
      destruct (ref_elems src rvf _ depth j []) as [[e' ts]|[o m]| |]; cbn [as_syntax res_bind seeks fst];
        [rewrite Hfail; unfold lands; by rewrite Hst|by left|done..].
  - clear Hself. destruct (at_byte src j "]"%ch).
    { unfold s_next. cbn [s_i s_done seeks resolve]. rewrite Hidx.
    assert (Ha : match index with
      | Some n => match @nil tree !! Z.to_nat n with Some t => resolve stop path t | None => Absent end
      | None => Absent end = Absent) by by destruct index.
    rewrite Ha. unfold lands. by rewrite andb_false_r. }
    pose proof (find_array_loop_ref find rvf depth (S i) (path_next k) path
      (fun i' Hb => Hfind (path_next k) path i' Hnext Hb) Hskip Hrd index (S (length src)) j 0 Absent []
      ltac:(lia) ltac:(lia) ltac:(done) ltac:(done)) as H.
    destruct (ref_elems src rvf _ depth j []) as [[e' ts]|[o m]| |]; cbn [res_bind elems_seek seeks] in *; [|done..].
    destruct H as (ts' & -> & Hl). cbn [app]. cbn [resolve]. rewrite Hidx.
    unfold scan_from in Hl. destruct index as [n|]; [|done].
    apply parsePointerIndex_nonneg in Hidx. rewrite (proj2 (Z.ltb_ge n 0)) in Hl by done. by rewrite Z.sub_0_r in Hl.
Qed.

Lemma find_object_ref k tok path :
  rep k (tok :: path) ->
  seeks (resolve stop (tok :: path)) (find_object src maxDepth stop find depth k (mkSeek i false))
  (ref_object src maxDepth rvf depth i).
Proof using Hi Hfind Hskip Hrd Hsrc HL.
  intros Hk. unfold find_object. cbn [s_i]. rewrite (path_key_law (rep:=rep) k tok path Hk).
  pose proof (path_next_law (rep:=rep) k tok path Hk) as Hnext. unfold ref_object.
  destruct (maxDepth <? depth); [by left|]. cbv zeta.
  change (s_next (mkSeek i false)) with (mkSeek (S i) false). rewrite s_skip_ref by lia. cbn [s_i s_done].
  pose proof (ref_ws_le src (S i) ltac:(lia)) as Hle. set (j := ref_ws src (S i)) in *.
  destruct (at_byte src j "}"%ch).
  { cbn [seeks resolve]. unfold lands. change (foldl _ Absent _) with Absent. by rewrite andb_false_r. }
  pose proof (find_object_loop_ref find rvf depth (S i) (path_next k) path
    (fun i' Hb => Hfind (path_next k) path i' Hnext Hb) Hskip Hrd tok (S (length src)) j Absent []
    ltac:(lia) ltac:(lia) ltac:(done)) as H.
  destruct (ref_members src rvf _ depth j []) as [[e ms]|[o m]| |]; cbn [res_bind members_seek seeks] in *; [|done..].
  by destruct H as (ms' & -> & Hl).
Qed.
End Containers.

Lemma resolve_scalar tok path t :
  match t with TArr _ _ | TObj _ _ => False | _ => True end -> resolve stop (tok :: path) t = Absent.
Proof using. by destruct t. Qed.

(** The seeker at a value does what [resolve] says of its tree. *)
Lemma find_value_ref fuel depth k path i :
  rep k path -> (i <= length src)%nat -> (length src - i < fuel)%nat ->
  seeks (resolve stop path) (find_value src maxDepth stop fuel depth k (mkSeek i false)) (rv fuel depth i).
Proof using Hsrc HL.
  revert depth k path i. induction fuel as [|fuel IH]; intros depth k path i Hk Hi Hf; [lia|].
  cbn [find_value]. unfold find_body. rewrite (path_done_law (rep:=rep) k path Hk).
  case_bool_decide as Hp; [subst; by apply captureValue_ref|]. destruct path as [|tok path]; [done|].
  cbn [s_i]. pose proof (skipValue_ref (S fuel) depth i false Hi ltac:(lia)) as Hself.
  assert (HF : finds_at (find_value src maxDepth stop fuel) (rv fuel) (depth + 1) (S i))
    by (intros k' path' j Hk' Hb; apply IH; [done|lia|lia]).
  assert (HS : forall j, (S i <= j <= length src)%nat -> skipValue src maxDepth (depth + 1) (mkSeek j false) =
    as_syntax src (fun p => mkSeek p.1 false) (rv fuel (depth + 1) j))
    by (intros j Hb; apply skipValue_ref; lia).
  assert (HR : forall j, (S i <= j <= length src)%nat -> reads src (maxDepth - (depth + 1)) j (rv fuel (depth + 1) j))
    by (intros j Hb; apply ref_value_sound; [done|lia|lia]).
  cbn [ref_value] in *. unfold ref_body in *. destruct (maxDepth <? depth); [by left|].
  at_pos src i as c E; [|by left]. apply lookup_lt_Some in E as Hlt.
  destruct (Z.eqb_spec c "{"%ch) as [->|Hob]; [by apply find_object_ref|].
  destruct (Z.eqb_spec c "["%ch) as [->|Hab].
  { apply find_array_ref; try done. by replace (depth + 1 - 1) with depth by lia. }
  rewrite Hself. clear Hself HF HS HR IH.
  assert (Hsc : forall j t, lands (Ok (mkSeek j false, raw_none)) j Absent) by (intros; unfold lands; by rewrite andb_false_r).
  assert (Hgo : forall rr : res rerr (nat * tree), returns rr ->
    (forall j t, rr = Ok (j, t) -> match t with TArr _ _ | TObj _ _ => False | _ => True end) ->
    seeks (resolve stop (tok :: path))
    (let* s := as_syntax src (fun p => mkSeek p.1 false) rr in Ok (s, raw_none)) rr).
  { intros rr [[[j t] ->]|[[o m] ->]] Ht; cbn [as_syntax res_bind seeks fst]; [|by left].
  rewrite resolve_scalar by by apply (Ht j). by apply Hsc. }
  apply Hgo.
  - destruct (Z.eqb_spec c DQUOTE) as [->|].
    { pose proof (ref_str_sound src Hsrc i E) as Hs. unfold ref_lit.
    destruct (ref_str src i) as [[]|[]| |]; cbn; auto with vj; done. }
    unfold ref_lit, ref_num. destruct (scanNumber src i) as [j [|]]; repeat case_step; auto with vj.
  - intros j t. unfold ref_lit, ref_num. destruct (scanNumber src i) as [j' [|]];
      destruct (ref_str src i) as [[]|[]| |]; cbn [res_bind]; repeat case_step; intros; by simplify_eq.
Qed.
End Cursor.
End SeekRefine.

(** Two cursors on the same tokens give the same lookup, whatever the source. *)
Section CursorExt.
Context (src : bytes) (maxDepth : Z) (stop : bool).
Context {K1 K2 : Type} {O1 : PathOps K1} {O2 : PathOps K2}.
Context (rep1 : K1 -> list bytes -> Prop) (rep2 : K2 -> list bytes -> Prop).
Context {L1 : PathLaws K1 rep1} {L2 : PathLaws K2 rep2}.

Lemma find_array_loop_ext find1 find2 fuel depth index (n1 : K1) (n2 : K2) elem s raw :
  (forall s, find1 depth n1 s = find2 depth n2 s) ->
  find_array_loop src maxDepth stop find1 fuel depth index n1 elem s raw =
  find_array_loop src maxDepth stop find2 fuel depth index n2 elem s raw.
Proof using.
  intros Heq. revert elem s raw. induction fuel as [|fuel IH]; intros elem s raw; [done|]. cbn [find_array_loop].
  rewrite Heq. unfold after_find. case_bool_decide.
  - destruct (find2 depth n2 (s_skip src s)) as [[s' r]| | |]; cbn [res_bind]; [|done..].
    repeat (case_step; try done; try apply IH).
  - destruct (skipValue _ _ _ _); cbn [res_bind]; [|done..]. repeat (case_step; try done; try apply IH).
Qed.

Lemma find_object_loop_ext find1 find2 fuel depth tok (n1 : K1) (n2 : K2) s raw :
  (forall s, find1 depth n1 s = find2 depth n2 s) ->
  find_object_loop src maxDepth stop find1 fuel depth tok n1 s raw =
  find_object_loop src maxDepth stop find2 fuel depth tok n2 s raw.
Proof using.
  intros Heq. revert s raw. induction fuel as [|fuel IH]; intros s raw; [done|]. cbn [find_object_loop].
  destruct (negb _); [done|]. destruct (parseStringRaw _ _) as [[[[? ?] ?] ?]| | |]; cbn [res_bind]; [|done..].
  destruct (keyMatches _ _ _ _ _) as [matched| | |]; cbn [res_bind]; [|done..]. destruct (negb _); [done|].
  rewrite Heq. unfold after_find. destruct matched.
  - destruct (find2 depth n2 _) as [[s' r]| | |]; cbn [res_bind]; [|done..].
    repeat (case_step; try done; try apply IH).
  - destruct (skipValue _ _ _ _); cbn [res_bind]; [|done..]. repeat (case_step; try done; try apply IH).
Qed.

Lemma find_value_ext fuel depth k1 k2 path s :
  rep1 k1 path -> rep2 k2 path ->
  find_value src maxDepth stop fuel depth k1 s = find_value src maxDepth stop fuel depth k2 s.
Proof using L1 L2.
  revert depth k1 k2 path s. induction fuel as [|fuel IH]; intros depth k1 k2 path s H1 H2; [done|].
  cbn [find_value]. unfold find_body.
  rewrite (path_done_law (rep:=rep1) k1 path H1), (path_done_law (rep:=rep2) k2 path H2).
  case_bool_decide; [done|]. destruct path as [|tok path]; [done|].
  pose proof (path_next_law (rep:=rep1) k1 tok path H1) as N1. pose proof (path_next_law (rep:=rep2) k2 tok path H2) as N2.
  destruct (maxDepth <? depth); [done|]. at_pos src (s_i s) as c E; [|done].
  destruct (c =? "{"%ch); [|destruct (c =? "["%ch); [|done]].
  - unfold find_object. rewrite (path_key_law (rep:=rep1) k1 tok path H1), (path_key_law (rep:=rep2) k2 tok path H2).
    destruct (maxDepth <? depth + 1); [done|]. destruct (at_byte _ _ _); [done|].
    apply find_object_loop_ext. intros s'. by apply (IH _ _ _ path).
  - unfold find_array. rewrite (path_index_law (rep:=rep1) k1 tok path H1), (path_index_law (rep:=rep2) k2 tok path H2).
    destruct (maxDepth <? depth + 1); [done|]. destruct (parsePointerIndex tok); [done|].
    destruct (at_byte _ _ _); [done|]. apply find_array_loop_ext. intros s'. by apply (IH _ _ _ path).
Qed.
End CursorExt.

(** ** Whole lookups *)

Definition answer (o : outcome) : bytes * bool := (r_raw (out o), r_ok (out o)).

Section Lookup.
Context (src : bytes) (maxDepth : Z) (path : list bytes).
Hypothesis Hsrc : bytes_ok src.
Abbreviation first_value := (ref_value src maxDepth unexpected_byte (S (length src)) 0 (ref_ws src 0)).

(** A last-wins lookup: syntax errors first, then the lookup's own error, then
the bytes after the value. *)
Lemma get_result_ref r :
  seeks src false (resolve false path) r first_value ->
  (let* r := raw_result r in let* (s, raw) := raw_checked r in raw_trailing src s raw) =
  match first_value with
  | Ok (j, t) =>
    match resolve false path t with
    | Failed e => Err (RPointer e)
    | o => if (ref_ws src j =? length src)%nat then Ok (answer o)
     else Err (RSyntax (syntax_at src (ref_ws src j) "unexpected data after top-level value"))
    end
  | Err (o, m) => Err (RSyntax (syntax_at src o m))
  | Panic => Panic
  | NoFuel => NoFuel
  end.
Proof using Hsrc.
  pose proof (ref_ws_le src 0 ltac:(lia)) as H0.
  pose proof (ref_value_sound src maxDepth unexpected_byte Hsrc (S (length src)) 0 (ref_ws src 0)
    ltac:(lia) ltac:(lia)) as Hr.
  destruct first_value as [[j t]|[o m]| |]; cbn [seeks].
  - unfold lands. cbn [andb]. intros ->. apply reads_span in Hr as [Hj _].
    cbn [raw_result res_bind]. unfold raw_checked. cbn [fst snd].
    destruct (resolve false path t); cbn [out r_err raw_fail raw_none res_bind]; [| |done];
      unfold raw_trailing; rewrite s_skip_ref by (done || lia); cbn [s_i];
      by destruct (ref_ws src j =? length src)%nat.
  - intros [->|[? _]]; done.
  - done.
  - done.
Qed.

Lemma first_value_doc t :
  jdoc maxDepth src t -> exists j, first_value = Ok (j, t) /\ ref_ws src j = length src.
Proof using.
  intros H. apply (ref_doc_complete src maxDepth unexpected_byte) in H. unfold ref_doc in H.
  destruct first_value as [[j t']| | |]; cbn [res_bind] in H; [|done..].
  destruct (Nat.eqb_spec (ref_ws src j) (length src)); [|done]. injection H as ->. eauto.
Qed.
End Lookup.

Section TopLevel.
Context (src : bytes) (p : bytes) (path : list bytes) (opts : Options).
Hypothesis Hsrc : bytes_ok src.
Hypothesis Hpath : pointer_path p = Some path.
Abbreviation depth := (maxDepthOrDefault (MaxDepth opts)).

Lemma pointer_checked_ok : pointer_checked p = Ok tt.
Proof using Hpath.
  unfold pointer_checked. rewrite validatePointerSyntax_spec.
  assert (H : syntax_fault p = None) by (apply syntax_fault_path; by eexists). by rewrite H.
Qed.

Lemma text_start : p <> [] -> text_rep (mkText p 1) path.
Proof using Hpath.
  intros Hne. right. cbn [tc_pointer tc_start]. unfold pointer_path in Hpath. destruct p as [|c s]; [done|].
  split; [simpl; lia|]. change (drop 1 (c :: s)) with s. by destruct (c =? SLASH).
Qed.

(** The lookup of the textual entry points. *)
Lemma text_lookup_ref stop :
  seeks src stop (resolve stop path)
  (if bool_decide (p = []) then captureValue src depth stop 0 (s_skip src (mkSeek 0 false))
  else findValue src depth stop 0 1 p (s_skip src (mkSeek 0 false)))
  (ref_value src depth unexpected_byte (S (length src)) 0 (ref_ws src 0)).
Proof using Hsrc Hpath.
  rewrite s_skip_ref by (done || lia). pose proof (ref_ws_le src 0 ltac:(lia)) as H0. case_bool_decide as Hp.
  - assert (path = []) as -> by (rewrite Hp in Hpath; by injection Hpath). apply captureValue_ref; [done|lia|lia].
  - apply (find_value_ref src depth stop Hsrc text_rep); [by apply text_start|lia|lia].
Qed.

Lemma compiled_start ts : Forall2 token_for path ts -> compiled_rep (mkComp (mkCompiled p ts) 0) path.
Proof using. intros H. split; cbn [cc_index cc_pointer Tokens]; [lia|]. by rewrite drop_0. Qed.

(** The compiled entry points do the same lookup. *)
Lemma compiled_lookup_eq ts stop s :
  Forall2 token_for path ts ->
  findCompiledValue src depth stop 0 0 (mkCompiled p ts) s =
  if bool_decide (p = []) then captureValue src depth stop 0 s else findValue src depth stop 0 1 p s.
Proof using Hpath.
  intros Hf. apply compiled_start in Hf. unfold findCompiledValue, findValue. case_bool_decide as Hp.
  - assert (Hnil : path = []) by (rewrite Hp in Hpath; by injection Hpath). cbn [find_value]. unfold find_body.
    rewrite (path_done_law (rep:=compiled_rep) _ _ Hf), bool_decide_eq_true_2 by done. done.
  - apply (find_value_ext src depth stop compiled_rep text_rep _ _ _ _ path); [done|by apply text_start].
Qed.
End TopLevel.

(** The last-wins lookup of a document. *)
Lemma GetRawOptions_ref src p path opts :
  bytes_ok src -> pointer_path p = Some path ->
  let depth := maxDepthOrDefault (MaxDepth opts) in
  GetRawOptions src p opts =
    match ref_value src depth unexpected_byte (S (length src)) 0 (ref_ws src 0) with
    | Ok (j, t) =>
        match resolve false path t with
        | Failed e => Err (RPointer e)
        | o => if (ref_ws src j =? length src)%nat then Ok (answer o)
               else Err (RSyntax (syntax_at src (ref_ws src j) "unexpected data after top-level value"))
        end
    | Err (o, m) => Err (RSyntax (syntax_at src o m))
    | Panic => Panic
    | NoFuel => NoFuel
    end.
Proof.
  intros Hok Hp. unfold GetRawOptions. rewrite (pointer_checked_ok p path Hp). cbn [res_bind].
  apply (get_result_ref src _ path Hok _ (text_lookup_ref src p path opts Hok Hp false)).
Qed.

Lemma GetRawOptions_doc src p path opts t :
  bytes_ok src -> pointer_path p = Some path -> jdoc (maxDepthOrDefault (MaxDepth opts)) src t ->
  GetRawOptions src p opts = match resolve false path t with Failed e => Err (RPointer e) | o => Ok (answer o) end.
Proof.
  intros Hok Hp (j & Hv & Hj)%first_value_doc. rewrite (GetRawOptions_ref src p path opts Hok Hp). cbv zeta.
  rewrite Hv, Hj, Nat.eqb_refl. by destruct (resolve false path t).
Qed.

(** ** Properties *)

(** C3: looking a pointer up in raw source succeeds only on a document, and finds what walking its reference tokens through the document's tree finds, the last of several equal names deciding; a failed array index is reported as its pointer error. *)
Theorem GetRaw_resolves src p path opts :
  bytes_ok src -> pointer_path p = Some path ->
  (forall t, jdoc (maxDepthOrDefault (MaxDepth opts)) src t ->
     GetRawOptions src p opts =
       match resolve false path t with Failed e => Err (RPointer e) | o => Ok (answer o) end) /\
  (forall r, GetRawOptions src p opts = Ok r ->
     exists t, jdoc (maxDepthOrDefault (MaxDepth opts)) src t /\ r = answer (resolve false path t)).
Proof.
  intros Hok Hp. split; [intros t; by apply GetRawOptions_doc|].
  rewrite (GetRawOptions_ref src p path opts Hok Hp). cbv zeta.
  intros r. set (d := maxDepthOrDefault (MaxDepth opts)). intros H.
  pose proof (ref_doc_jdoc src d unexpected_byte) as Hd. unfold ref_doc in Hd.
  destruct (ref_value src d unexpected_byte _ 0 _) as [[j t]|[o m]| |]; [|done..]. cbn [res_bind] in Hd.
  destruct (ref_ws src j =? length src)%nat; [|by destruct (resolve false path t)].
  exists t. split; [by apply Hd|]. by destruct (resolve false path t); simplify_eq.
Qed.

Lemma GetRaw_resolves_witness :
  let src := js "{'a':[1,{'b':2}],'c':0,'a':[3,{'\u0062':[4]}]}" in let path := [bs "a"; bs "1"; bs "b"] in
  (forall t, jdoc 10000 src t ->
     GetRawOptions src (bs "/a/1/b") (mkOptions 0 false) =
       match resolve false path t with Failed e => Err (RPointer e) | o => Ok (answer o) end) /\
  (forall r, GetRawOptions src (bs "/a/1/b") (mkOptions 0 false) = Ok r ->
     exists t, jdoc 10000 src t /\ r = answer (resolve false path t)).
Proof. apply (GetRaw_resolves _ (bs "/a/1/b") _ (mkOptions 0 false)); [concrete_bytes|reflexivity]. Defined.

(** The first-match scan of a document stops at the first decided lookup: the first member of the wanted name whose own lookup finds a value or fails; on any input it answers without a panic. *)
Theorem ScanFirstRaw_resolves src p path opts :
  bytes_ok src -> pointer_path p = Some path ->
  (forall t, jdoc (maxDepthOrDefault (MaxDepth opts)) src t ->
     ScanFirstRawOptions src p opts =
       match resolve true path t with Failed e => Err (RPointer e) | o => Ok (answer o) end) /\
  returns (ScanFirstRawOptions src p opts).
Proof.
  intros Hok Hp. pose proof (text_lookup_ref src p path opts Hok Hp true) as Hl.
  unfold ScanFirstRawOptions. rewrite (pointer_checked_ok p path Hp). cbn [res_bind].
  set (r := if bool_decide (p = []) then _ else _) in *. clearbody r.
  assert (Hout : forall s o, (let* x := raw_result (Ok (s, out o)) in let* (_, raw) := raw_checked x in Ok raw) =
    match o with Failed e => Err (RPointer e) | _ => Ok (answer o) end) by (intros s [t| |e]; done).
  split.
  - intros t (j & Hv & _)%first_value_doc. rewrite Hv in Hl. cbn [seeks] in Hl. unfold lands in Hl. cbn [andb] in Hl.
    destruct (resolve true path t); cbn [decided] in Hl; [destruct Hl as (i & ->)|subst|destruct Hl as (i & ->)]; apply Hout.
  - destruct (ref_value _ _ _ _ _ _) as [[j t]|[o m]| |]; cbn [seeks] in Hl; [| |done|done].
    + unfold lands in Hl. destruct (true && _); [destruct Hl as (i & ->)|subst];
        rewrite Hout; destruct (resolve true path t); auto with vj.
    + destruct Hl as [->|(_ & i & o' & _ & ->)]; [apply returns_err|]. rewrite Hout. destruct o'; auto with vj.
Qed.

Lemma ScanFirstRaw_resolves_witness :
  let src := js "{'a':{'b':1},'a':{'b':2}}" in let path := [bs "a"; bs "b"] in
  (forall t, jdoc 10000 src t ->
     ScanFirstRawOptions src (bs "/a/b") (mkOptions 0 false) =
       match resolve true path t with Failed e => Err (RPointer e) | o => Ok (answer o) end) /\
  returns (ScanFirstRawOptions src (bs "/a/b") (mkOptions 0 false)).
Proof. apply (ScanFirstRaw_resolves _ (bs "/a/b") _ (mkOptions 0 false)); [concrete_bytes|reflexivity]. Defined.

Lemma compiled_lookups_eq p path ts src opts :
  pointer_path p = Some path -> Forall2 token_for path ts ->
  compiled_GetRawOptions (mkCompiled p ts) src opts = GetRawOptions src p opts /\
  compiled_ScanFirstRawOptions (mkCompiled p ts) src opts = ScanFirstRawOptions src p opts.
Proof.
  intros Hp Hf. unfold compiled_GetRawOptions, compiled_ScanFirstRawOptions, GetRawOptions, ScanFirstRawOptions.
  rewrite (pointer_checked_ok p path Hp). cbn [res_bind]. by rewrite !(compiled_lookup_eq src p path opts Hp ts) by done.
Qed.

(** C35: a compiled pointer does on every input, valid or not, exactly what its textual pointer does. *)
Theorem compiled_pointer_lookups p cp src opts :
  bytes_ok p -> CompilePointer p = Ok cp ->
  compiled_GetRawOptions cp src opts = GetRawOptions src p opts /\
  compiled_ScanFirstRawOptions cp src opts = ScanFirstRawOptions src p opts.
Proof.
  intros Hok Hc. pose proof (CompilePointer_spec p Hok) as Hs.
  destruct (pointer_path p) as [path|] eqn:Hp; [|by destruct Hs as (e & _ & Hs); rewrite Hs in Hc].
  destruct Hs as (ts & Hs & Hf). rewrite Hc in Hs. injection Hs as ->. by apply (compiled_lookups_eq p path).
Qed.

Lemma compiled_pointer_lookups_witness :
  let src := js "{'a':[10,20" in
  exists cp, compiled_GetRawOptions cp src (mkOptions 0 false) = GetRawOptions src (bs "/a/1") (mkOptions 0 false) /\
  compiled_ScanFirstRawOptions cp src (mkOptions 0 false) = ScanFirstRawOptions src (bs "/a/1") (mkOptions 0 false).
Proof. eexists. apply compiled_pointer_lookups; [concrete_bytes|vm_compute; reflexivity]. Defined.

(** The kind of a tree. *)
Definition kind_of (t : tree) : Kind :=
  match t with
  | TNull => Null
  | TBool _ => Bool
  | TNum _ => Number
  | TStr _ _ => String
  | TArr _ _ => Array
  | TObj _ _ => Object
  end.

Lemma not_number c u :
  bytes_ok (c :: u) -> c <> "-"%ch -> IsDigit c = false -> validNumber (c :: u) = false.
Proof.
  intros Hok Hm Hd. apply not_true_is_false. intros (c' & u' & [= <- <-] & Hc)%validNumber_jnumber%jnumber_head; [|done].
  destruct Hc as [?|Hc]; congruence.
Qed.

Lemma at_byte_cons c u b : at_byte (c :: u) 0 b = (c =? b).
Proof. done. Qed.

(** the accessors of a raw value agree with its grammar: the kind is the tree's, the boolean and null tests recognise exactly their literals, and the number accessor exactly the numbers. *)
Theorem raw_accessors k r t :
  jvalue k r t ->
  raw_Kind r = kind_of t /\
  raw_IsNull r = match t with TNull => true | _ => false end /\
  raw_Bool r = match t with TBool b => (b, true) | _ => (false, false) end /\
  raw_NumberBytes r = match t with TNum s => (s, true) | _ => ([], false) end.
Proof.
  intros Hv. pose proof (proj1 jvalue_bytes_all _ _ _ Hv) as Hok.
  assert (Hhead : forall c u, r = c :: u -> c <> "n"%ch -> c <> "t"%ch -> c <> "f"%ch ->
    raw_IsNull r = false /\ raw_Bool r = (false, false)).
  { intros c u -> H1 H2 H3. unfold raw_IsNull, raw_Bool. rewrite !at_byte_cons.
    rewrite !(proj2 (Z.eqb_neq _ _)) by done. by rewrite !andb_false_r. }
  assert (Hnum : forall c u, r = c :: u -> c <> "-"%ch -> IsDigit c = false -> raw_NumberBytes r = ([], false)).
  { intros c u -> H1 H2. unfold raw_NumberBytes. by rewrite not_number. }
  destruct Hv as [k|k|k|k s Hk Hn|k s dec Hk Hs|k w|k s ts|k w|k s ms]; cbn [kind_of].
  1-3: by split_and!.
  - pose proof Hn as Hn'. destruct (jnumber_head s Hn) as (c & u & -> & Hc).
    destruct (Hhead c u eq_refl) as [-> ->]; [unfold IsDigit in Hc; lia..|].
    unfold raw_NumberBytes. apply validNumber_jnumber in Hn' as ->; [|done]. split_and!; [|done..].
    unfold raw_Kind. do 5 rewrite if_false by (unfold IsDigit in Hc; lia). by rewrite if_true by lia.
  - destruct (jstring_head _ _ Hs) as (u & ->). destruct (Hhead _ u eq_refl) as [-> ->]; [done..|].
    by rewrite (Hnum _ u eq_refl).
  - destruct (Hhead "["%ch _ eq_refl) as [-> ->]; [done..|]. by rewrite (Hnum "["%ch _ eq_refl).
  - destruct (Hhead "["%ch _ eq_refl) as [-> ->]; [done..|]. by rewrite (Hnum "["%ch _ eq_refl).
  - destruct (Hhead "{"%ch _ eq_refl) as [-> ->]; [done..|]. by rewrite (Hnum "{"%ch _ eq_refl).
  - destruct (Hhead "{"%ch _ eq_refl) as [-> ->]; [done..|]. by rewrite (Hnum "{"%ch _ eq_refl).
Qed.

Lemma raw_accessors_witness :
  raw_Kind (bs "-1.5") = Number /\ raw_IsNull (bs "-1.5") = false /\
  raw_Bool (bs "-1.5") = (false, false) /\ raw_NumberBytes (bs "-1.5") = (bs "-1.5", true).
Proof.
  apply (raw_accessors 0 (bs "-1.5") (TNum (bs "-1.5"))). apply jv_num; [done|].
  apply (jnumber_intro (bs "-") (bs "1") (bs ".5") []); [by right|by apply (jint_pos "1"%ch []); constructor| |constructor].
  by apply (jfrac_some [53]); repeat constructor.
Defined.

(** the text accessors of a raw string token return its decoded content; the borrowing one only when the spelling is the content. *)
Theorem raw_text r dec dst :
  jstring r dec ->
  raw_Text r = Some (Ok dec) /\ raw_AppendText dst r = Some (Ok (dst ++ dec)) /\
  (forall b, raw_StringBytes r = Some b -> b = dec).
Proof.
  intros Hj. pose proof (jstring_bytes _ _ Hj) as Hok. destruct (jstring_head _ _ Hj) as (u & Hu).
  assert (H0 : r !! 0%nat = Some DQUOTE) by by rewrite Hu.
  assert (Hq : at_byte r 0 DQUOTE = true) by by apply at_byte_spec.
  pose proof (ref_str_complete r r dec 0 (length r) Hj (span_whole r)) as Hr.
  pose proof (parseStringRaw_ref r Hok 0 H0) as Hp. rewrite Hr in Hp.
  destruct Hp as (stop & escaped & Hlen & Hst & Hp & Hun & Hesc).
  unfold raw_Text, raw_AppendText, raw_StringBytes. rewrite Hq, Hp. cbn [negb res_bind].
  rewrite Nat.eqb_refl. cbn [negb orb]. split_and!.
  - f_equal. destruct escaped; cbn [negb]; [|by rewrite Hesc].
    rewrite p_parseString_ref, Hr by (done || lia). cbn [as_syntax id res_bind]. by rewrite Nat.eqb_refl.
  - f_equal. destruct escaped; cbn [negb]; [|by rewrite Hesc].
    by rewrite (appendDecodedJSONStringTrusted_ref dst _ dec).
  - intros b. destruct escaped; [done|]. intros [= <-]. by apply Hesc.
Qed.

Lemma raw_text_witness :
  raw_Text (js "'a\n'") = Some (Ok [97; 10]) /\ raw_AppendText [1] (js "'a\n'") = Some (Ok ([1] ++ [97; 10])) /\
  (forall b, raw_StringBytes (js "'a\n'") = Some b -> b = [97; 10]).
Proof.
  apply raw_text. apply (jstring_intro ([97] ++ [BSLASH; "n"%ch] ++ []) ([97] ++ [10] ++ [])).
  apply jchars_cons; [by apply jchar_plain|]. apply jchars_cons; [by apply (jchar_simple "n"%ch)|constructor].
Defined.
