(* ===== verification/Skip.v ===== *)
(** The non-validating skips of [raw_trusted.go]: over a container with the
    structural masks of [Stage1.v], 64 bytes at a time, over a string and over a
    scalar.  Each is shown to be a bytewise scan on any source, and to consume
    exactly the value on a valid one. *)

From S2P Require Import Prelude Words Utf8 Scanner Stage1 Lex Grammar StringRef Errors Numbers Reader Validator FastValid.

(** ** [math/bits] *)

Fixpoint pos_ones (p : positive) : Z :=
  match p with xH => 1 | xO p => pos_ones p | xI p => 1 + pos_ones p end.

Definition OnesCount64 (x : Z) : Z := match x with Zpos p => pos_ones p | _ => 0 end.

(** ** Containers *)

(** The scan of a block for the close that ends the container, when no open is
    too deep: the loop over the closes, with the number of those passed. *)
Fixpoint close_loop (fuel : nat) (open br nest ordinal : Z) : res SyntaxError (option nat) :=
  match fuel with
  | O => NoFuel
  | S fuel =>
    if br =? 0 then Ok None
    else
    let p := TrailingZeros64 br in
    if nest + OnesCount64 (Z.land open (w64 (Z.shiftl 1 p) - 1)) - ordinal =? 1 then Ok (Some (Z.to_nat p))
    else close_loop fuel open (Z.land br (br - 1)) nest (ordinal + 1)
  end.

(** Where a scan of brackets ends: behind the close of the container, at an open
    that is too deep, or at the end of the bytes with brackets left open. *)
Inductive bracket_end : Type :=
  | Closed (i : nat)
  | TooDeep (i : nat)
  | Nested (nest : Z).

(** The loop over all brackets of a block. *)
Fixpoint bracket_loop (fuel : nat) (open br nest budget : Z) : res SyntaxError bracket_end :=
  match fuel with
  | O => NoFuel
  | S fuel =>
    if br =? 0 then Ok (Nested nest)
    else
    let bit := Z.land br (w64 (not64 br + 1)) in
    let p := Z.to_nat (TrailingZeros64 br) in
    if negb (Z.land open bit =? 0) then
    let nest := nest + 1 in
    if budget <? nest then Ok (TooDeep p) else bracket_loop fuel open (Z.land br (br - 1)) nest budget
    else
    let nest := nest - 1 in
    if nest =? 0 then Ok (Closed p) else bracket_loop fuel open (Z.land br (br - 1)) nest budget
  end.

Section Skip.
Context (src : bytes) (maxDepth : Z).

(** The block at a position; zero padding adds no syntax. *)
Definition block_at (i : nat) : bytes :=
  if (64 <=? length src - i)%nat then take 64 (drop i src)
  else drop i src ++ replicate (64 - (length src - i)) 0.

Fixpoint skip_blocks (fuel : nat) (i : nat) (nest budget : Z) (carry : Stage1Carry) : res SyntaxError nat :=
  match fuel with
  | O => NoFuel
  | S fuel =>
    if (i <? length src)%nat then
    let m := Stage1BlockBrackets (block_at i) in
    let '(escaped, carry) := Stage1Escaped (m_Backslash m) carry in
    let '(inString, carry) := Stage1PrefixXOR (Z.ldiff (m_Quote m) escaped) carry in
    let open := Z.ldiff (m_Open m) inString in
    let closes := Z.ldiff (m_Close m) inString in
    let opened := OnesCount64 open in
    let closed := OnesCount64 closes in
    let next nest := skip_blocks fuel (i + 64) nest budget carry in
    if (0 <? nest - closed) && (nest + opened <=? budget) then next (nest + opened - closed)
    else if nest + opened <=? budget then
      let* found := close_loop 65 open closes nest 0 in
      match found with
      | Some p => Ok (i + p + 1)%nat
      | None => next (nest + opened - closed)
      end
    else
      let* e := bracket_loop 65 open (Z.lor open closes) nest budget in
      match e with
      | Closed p => Ok (i + p + 1)%nat
      | TooDeep p => v_err src (i + p) "maximum nesting depth exceeded"
      | Nested nest => next nest
      end
    else Ok (length src)
  end.

Definition skipComposite (depth : Z) (i : nat) : res SyntaxError nat :=
  skip_blocks (S (length src)) i 0 (maxDepth - depth) (mkCarry 0 0).

(** ** Strings and scalars *)

Fixpoint skipStringTrusted (fuel : nat) (i : nat) : res SyntaxError nat :=
  match fuel with
  | O => NoFuel
  | S fuel =>
    let j := scanStringSyntax src i in
    match src !! j with
    | None => Ok (length src)
    | Some c =>
      if c =? DQUOTE then Ok (S j)
      else if c =? BSLASH then
      let i := (j + 2)%nat in
      if (length src <? i)%nat then Ok (length src) else skipStringTrusted fuel i
      else skipStringTrusted fuel (S j)
    end
  end.

Definition ends_scalar (c : Z) : bool := (c <=? " "%ch) || (c =? ","%ch) || (c =? "}"%ch) || (c =? "]"%ch).

Fixpoint skip_scalar_loop (fuel : nat) (i : nat) : nat :=
  match fuel with
  | O => i
  | S fuel =>
    match src !! i with
    | None => length src
    | Some c => if ends_scalar c then i else skip_scalar_loop fuel (S i)
    end
  end.

Definition skipScalarTrusted (i : nat) : nat := skip_scalar_loop (S (length src - i)) i.

(** [skipValue] of the trusted seeker. *)
Definition skipValueTrusted (depth : Z) (i : nat) : res SyntaxError nat :=
  match src !! i with
  | None => Ok i
  | Some c =>
    if (c =? "{"%ch) || (c =? "["%ch) then skipComposite depth i
    else if c =? DQUOTE then skipStringTrusted (S (length src)) (S i)
    else Ok (skipScalarTrusted i)
  end.
End Skip.

(** ** The bytewise scan of brackets *)

Definition esc_next (c : Z) (esc : bool) : bool := (c =? BSLASH) && negb esc.
Definition str_next (c : Z) (esc str : bool) : bool := xorb str ((c =? DQUOTE) && negb esc).

Fixpoint nest_scan (budget : Z) (l : bytes) (i : nat) (esc str : bool) (nest : Z) : bracket_end :=
  match l with
  | [] => Nested nest
  | c :: l =>
    let str := str_next c esc str in
    let esc := esc_next c esc in
    if is_open c && negb str then
      if budget <? nest + 1 then TooDeep i else nest_scan budget l (S i) esc str (nest + 1)
    else if is_close c && negb str then
      if nest - 1 =? 0 then Closed (S i) else nest_scan budget l (S i) esc str (nest - 1)
    else nest_scan budget l (S i) esc str nest
  end.

Definition scan_result (src : bytes) (e : bracket_end) : res SyntaxError nat :=
  match e with
  | Closed i => Ok i
  | TooDeep i => v_err src i "maximum nesting depth exceeded"
  | Nested _ => Ok (length src)
  end.

Example skip_example : let src := js "[1,{'a]':'\']'},[]],2]" in
  (skipComposite src 5 0 0, scan_result src (nest_scan 5 src 0 false false 0), skipComposite src 1 0 0, scan_result src (nest_scan 1 src 0 false false 0)) =
  (Ok 19%nat, Ok 19%nat, v_err src 3 "maximum nesting depth exceeded", v_err src 3 "maximum nesting depth exceeded").
Proof. vm_compute. reflexivity. Qed.

(** ** Counting bits *)

Fixpoint count (f : nat -> bool) (n : nat) : Z := match n with O => 0 | S n => count f n + Z.b2z (f n) end.

Lemma count_ext f g n : (forall i, (i < n)%nat -> f i = g i) -> count f n = count g n.
Proof. induction n as [|n IH]; intros H; [done|]. cbn [count]. rewrite IH by (intros; apply H; lia). by rewrite H by lia. Qed.

Lemma count_shift f n : count f (S n) = Z.b2z (f 0%nat) + count (fun i => f (S i)) n.
Proof. induction n as [|n IH]; [cbn [count]; lia|]. cbn [count] in *. rewrite IH. lia. Qed.

Lemma count_mono f m n : (m <= n)%nat -> count f m <= count f n.
Proof. induction 1 as [|n H IH]; [done|]. cbn [count]. destruct (f n); cbn [Z.b2z]; lia. Qed.

Lemma count_false f n : (forall i, (i < n)%nat -> f i = false) -> count f n = 0.
Proof. intros H. rewrite (count_ext f (fun _ => false)) by done. clear. induction n as [|n IH]; [done|]. cbn [count]. by rewrite IH. Qed.

Abbreviation bits_of x := (fun i => Z.testbit x (Z.of_nat i)).

Lemma pos_ones_count p n : Zpos p < 2 ^ Z.of_nat n -> pos_ones p = count (bits_of (Zpos p)) n.
Proof.
  revert n. induction p as [p IH|p IH|]; intros n Hn; (destruct n as [|n]; [cbn in Hn; lia|]); rewrite count_shift; cbn [pos_ones].
  - rewrite (IH n) by (rewrite Nat2Z.inj_succ, Z.pow_succ_r in Hn by lia; lia). cbn [Z.of_nat]. rewrite Z.bit0_odd. f_equal. apply count_ext. intros i _.
    rewrite Nat2Z.inj_succ, (Pos2Z.inj_xI p), Z.testbit_odd_succ by lia. done.
  - rewrite (IH n) by (rewrite Nat2Z.inj_succ, Z.pow_succ_r in Hn by lia; lia). cbn [Z.of_nat]. rewrite Z.bit0_odd. cbn [Z.odd Z.b2z]. rewrite Z.add_0_l. apply count_ext. intros i _.
    rewrite Nat2Z.inj_succ, (Pos2Z.inj_xO p), Z.testbit_even_succ by lia. done.
  - rewrite count_false; [done|]. intros i _. apply Z.bits_above_log2; [done|]. cbn. lia.
Qed.

Lemma ones_count x : 0 <= x < 2 ^ 64 -> OnesCount64 x = count (bits_of x) 64.
Proof.
  intros Hx. destruct x as [|p|p]; [|apply pos_ones_count; change (Z.of_nat 64) with 64; lia|lia]. symmetry. apply count_false. intros i _. apply Z.bits_0.
Qed.

Lemma low_mask p n : (p < 64)%nat -> 0 <= n -> Z.testbit (w64 (Z.shiftl 1 (Z.of_nat p)) - 1) n = (n <? Z.of_nat p).
Proof.
  intros Hp Hn. unfold w64. rewrite Z.shiftl_1_l, Z.mod_small by (split; [lia|apply Z.pow_lt_mono_r; lia]).
  rewrite Z.sub_1_r, <- Z.ones_equiv. destruct (Z.ltb_spec n (Z.of_nat p)); [apply Z.ones_spec_low|apply Z.ones_spec_high]; lia.
Qed.

Lemma land_word a b : 0 <= a < 2 ^ 64 -> 0 <= Z.land a b < 2 ^ 64.
Proof.
  intros Ha. assert (0 <= Z.land a b) by (apply Z.land_nonneg; lia). split; [done|]. apply pow2_bits; [done|lia|]. intros n Hn.
  rewrite Z.land_spec. by rewrite (proj1 (pow2_bits a 64 ltac:(lia) ltac:(lia)) ltac:(lia)).
Qed.

Lemma ones_below x p : 0 <= x < 2 ^ 64 -> (p < 64)%nat -> OnesCount64 (Z.land x (w64 (Z.shiftl 1 (Z.of_nat p)) - 1)) = count (bits_of x) p.
Proof.
  intros Hx Hp. rewrite ones_count by by apply land_word.
  assert (H : forall n, count (bits_of (Z.land x (w64 (Z.shiftl 1 (Z.of_nat p)) - 1))) n = count (bits_of x) (Nat.min n p)).
  { induction n as [|n IH]; [done|]. cbn [count]. rewrite IH, Z.land_spec, low_mask by lia. destruct (Z.ltb_spec (Z.of_nat n) (Z.of_nat p)).
    - rewrite andb_true_r. rewrite !Nat.min_l by lia. done.
    - rewrite andb_false_r. rewrite !Nat.min_r by lia. cbn. lia. }
  rewrite H. by rewrite Nat.min_r by lia.
Qed.

Lemma not64_mod x : w64 (not64 x + 1) = w64 (- x).
Proof.
  assert (H : w64 (not64 x) = w64 (Z.lnot x)).
  { apply word_bits; [apply w64_range..|]. intros n Hn. rewrite !w64_bit by lia. rewrite not64_testbit by lia. by rewrite Z.lnot_spec by lia. }
  unfold w64 in *. rewrite <- Zplus_mod_idemp_l, H, Zplus_mod_idemp_l. f_equal. pose proof (Z.add_lnot_diag x). lia.
Qed.


(** The lowest bit of a word, and the word without it. *)
Section Lowest.
Context (br : Z) (j : nat).
Hypothesis Hbr : 0 <= br < 2 ^ 64.
Hypothesis Hj : Z.testbit br (Z.of_nat j) = true.
Hypothesis Hlow : forall i, (i < j)%nat -> Z.testbit br (Z.of_nat i) = false.

Lemma lowest_pos : 0 < br.
Proof using Hbr Hj. clear Hlow. destruct (Z.eq_dec br 0) as [E|]; [|lia]. by rewrite E, Z.bits_0 in Hj. Qed.

Lemma lowest_low i : 0 <= i < Z.of_nat j -> Z.testbit br i = false.
Proof using All. intros Hi. rewrite <- (Z2Nat.id i) by lia. apply Hlow. lia. Qed.

Lemma lowest_index : TrailingZeros64 br = Z.of_nat j.
Proof using All. apply TrailingZeros64_spec; [lia|lia|done|exact lowest_low]. Qed.

Lemma lowest_clear n : Z.testbit (Z.land br (br - 1)) (Z.of_nat n) = Z.testbit br (Z.of_nat n) && negb (n =? j)%nat.
Proof using All.
  rewrite (clear_lowest br (Z.of_nat j)) by (apply lowest_pos || done || exact lowest_low || lia). f_equal.
  destruct (Nat.eqb_spec n j); [rewrite (proj2 (Z.eqb_eq _ _)) by lia|rewrite (proj2 (Z.eqb_neq _ _)) by lia]; done.
Qed.

Lemma lowest_isolated x : (Z.land x (Z.land br (w64 (not64 br + 1))) =? 0) = negb (Z.testbit x (Z.of_nat j)).
Proof using All.
  assert (Hb : forall n, 0 <= n -> Z.testbit (Z.land br (w64 (not64 br + 1))) n = (n =? Z.of_nat j)).
  { intros n Hn. rewrite not64_mod, Z.land_spec. pose proof (clear_lowest br (Z.of_nat j) n lowest_pos ltac:(lia) Hj lowest_low Hn) as Hc. rewrite Z.land_spec in Hc.
    destruct (Z.ltb_spec n 64).
    - rewrite w64_bit by lia. rewrite Z.bits_opp by done. rewrite <- Z.sub_1_r. destruct (Z.eqb_spec n (Z.of_nat j)) as [->|].
      + rewrite Hj in *. cbn [negb andb] in *. by rewrite Hc.
      + cbn [negb] in Hc. rewrite andb_true_r in Hc. destruct (Z.testbit br n), (Z.testbit (br - 1) n); done.
    - rewrite (proj1 (pow2_bits br 64 ltac:(lia) ltac:(lia)) ltac:(lia)) by lia. cbn [andb]. symmetry. apply Z.eqb_neq. intros ->.
      rewrite (proj1 (pow2_bits br 64 ltac:(lia) ltac:(lia)) ltac:(lia)) in Hj by lia. done. }
  destruct (Z.testbit x (Z.of_nat j)) eqn:E; cbn [negb].
  - apply Z.eqb_neq. intros H0. assert (H : Z.testbit (Z.land x (Z.land br (w64 (not64 br + 1)))) (Z.of_nat j) = false) by (by rewrite H0, Z.bits_0).
    rewrite Z.land_spec, E, Hb, Z.eqb_refl in H by lia. done.
  - apply Z.eqb_eq. apply Z.bits_inj'. intros n Hn. rewrite Z.land_spec, Hb, Z.bits_0 by done. destruct (Z.eqb_spec n (Z.of_nat j)) as [->|]; [by rewrite E|apply andb_false_r].
Qed.
End Lowest.

(** ** A block, bracket by bracket *)

(** The brackets of the bytes from [j] on, [r] of them. *)
Fixpoint bracket_walk (op cl : nat -> bool) (budget : Z) (r j : nat) (nest : Z) : bracket_end :=
  match r with
  | O => Nested nest
  | S r =>
    if op j then if budget <? nest + 1 then TooDeep j else bracket_walk op cl budget r (S j) (nest + 1)
    else if cl j then if nest - 1 =? 0 then Closed j else bracket_walk op cl budget r (S j) (nest - 1)
    else bracket_walk op cl budget r (S j) nest
  end.

Lemma walk_ext op op' cl cl' budget r j nest :
  (forall i, (j <= i < j + r)%nat -> op i = op' i /\ cl i = cl' i) -> bracket_walk op cl budget r j nest = bracket_walk op' cl' budget r j nest.
Proof.
  revert j nest. induction r as [|r IH]; intros j nest H; [done|]. cbn [bracket_walk]. destruct (H j ltac:(lia)) as [-> ->].
  rewrite !(IH (S j)) by (intros; apply H; lia). done.
Qed.

Section Block.
Context (open closes budget : Z).
Hypothesis Hopen : 0 <= open < 2 ^ 64.
Hypothesis Hcloses : 0 <= closes < 2 ^ 64.
Abbreviation op := (bits_of open).
Abbreviation cl := (bits_of closes).
Hypothesis Hdis : forall i, op i = true -> cl i = false.

(** No close empties the nesting and no open exceeds the budget. *)
Lemma walk_safe r j nest :
  0 < nest - (count cl (j + r) - count cl j) -> nest + (count op (j + r) - count op j) <= budget ->
  bracket_walk op cl budget r j nest = Nested (nest + (count op (j + r) - count op j) - (count cl (j + r) - count cl j)).
Proof using Hdis.
  revert j nest. induction r as [|r IH]; intros j nest Hc Ho; [rewrite Nat.add_0_r in *; cbn [bracket_walk]; f_equal; lia|]. cbn [bracket_walk].
  replace (j + S r)%nat with (S j + r)%nat in * by lia. specialize (IH (S j)).
  pose proof (count_mono op (S j) (S j + r) ltac:(lia)). pose proof (count_mono cl (S j) (S j + r) ltac:(lia)).
  specialize (Hdis j). change (count op (S j)) with (count op j + Z.b2z (op j)) in *. change (count cl (S j)) with (count cl j + Z.b2z (cl j)) in *.
  destruct (op j); [rewrite (Hdis eq_refl) in *|destruct (cl j)]; cbn [Z.b2z] in *.
  - rewrite (proj2 (Z.ltb_ge _ _)) by lia. rewrite IH by lia. f_equal. lia.
  - rewrite (proj2 (Z.eqb_neq _ _)) by lia. rewrite IH by lia. f_equal. lia.
  - rewrite IH by lia. f_equal. lia.
Qed.

(** What is left of a word from bit [j] on. *)
Definition left_of (x br : Z) (j : nat) : Prop := forall i, (i < 64)%nat -> Z.testbit br (Z.of_nat i) = (j <=? i)%nat && Z.testbit x (Z.of_nat i).

Lemma left_skip x br j : left_of x br j -> Z.testbit x (Z.of_nat j) = false -> left_of x br (S j).
Proof using.
  intros H Hb i Hi. rewrite H by done. destruct (Nat.leb_spec j i), (Nat.leb_spec (S j) i); try done; [|lia]. assert (i = j) as -> by lia. by rewrite Hb.
Qed.

Lemma left_take x br j : 0 <= br < 2 ^ 64 -> (j < 64)%nat -> left_of x br j -> Z.testbit x (Z.of_nat j) = true ->
  Z.testbit br (Z.of_nat j) = true /\ (forall i, (i < j)%nat -> Z.testbit br (Z.of_nat i) = false) /\ left_of x (Z.land br (br - 1)) (S j).
Proof using.
  intros Hr Hj H Hb. assert (H1 : Z.testbit br (Z.of_nat j) = true) by (by rewrite H, Nat.leb_refl, Hb by done).
  assert (H2 : forall i, (i < j)%nat -> Z.testbit br (Z.of_nat i) = false) by (intros i Hi; rewrite H by lia; by rewrite (proj2 (Nat.leb_gt j i)) by lia).
  split_and!; [done..|]. intros i Hi. rewrite (lowest_clear br j) by done. rewrite H by done.
  destruct (Nat.eqb_spec i j) as [->|Hne]; cbn [negb].
  - rewrite andb_false_r. by rewrite (proj2 (Nat.leb_gt (S j) j)) by lia.
  - rewrite andb_true_r. f_equal. destruct (Nat.leb_spec j i), (Nat.leb_spec (S j) i); try done; lia.
Qed.

Lemma left_end x br : 0 <= br < 2 ^ 64 -> left_of x br 64 -> br = 0.
Proof using.
  intros Hr H. apply word_bits; [done|lia|]. intros n Hn. rewrite <- (Z2Nat.id n) by lia. rewrite H, Z.bits_0 by lia. by rewrite (proj2 (Nat.leb_gt 64 (Z.to_nat n))) by lia.
Qed.

Lemma left_nonzero br j : 0 <= br -> Z.testbit br (Z.of_nat j) = true -> (br =? 0) = false.
Proof using. intros _ H. apply Z.eqb_neq. intros ->. by rewrite Z.bits_0 in H. Qed.

Lemma close_loop_walk nest fuel r j br : (r < fuel)%nat -> (j + r = 64)%nat -> 0 <= br < 2 ^ 64 -> left_of closes br j ->
  nest + count op 64 <= budget ->
  match bracket_walk op cl budget r j (nest + count op j - count cl j) with
  | Closed p => close_loop fuel open br nest (count cl j) = Ok (Some p)
  | TooDeep _ => False
  | Nested n => close_loop fuel open br nest (count cl j) = Ok None /\ n = nest + count op 64 - count cl 64
  end.
Proof using Hopen Hcloses Hdis.
  revert fuel j br. induction r as [|r IH]; intros fuel j br Hf Hj Hbr Hl Hb.
  - destruct fuel as [|fuel]; [lia|]. assert (Ej : j = 64%nat) by lia. cbn [bracket_walk close_loop]. rewrite Ej in *. rewrite (left_end closes br Hbr Hl). by split.
  - cbn [bracket_walk]. pose proof (Hdis j) as Hd. pose proof (count_mono op (S j) 64 ltac:(lia)) as Ho.
    assert (Cop : count op (S j) = count op j + Z.b2z (op j)) by done. assert (Ccl : count cl (S j) = count cl j + Z.b2z (cl j)) by done.
    cbv beta in *. destruct (op j) eqn:Eo; [pose proof (Hd eq_refl) as Ec; rewrite Ec in Ccl|destruct (cl j) eqn:Ec]; cbn [Z.b2z] in *.
    + assert (0 <= count cl j) by (apply (count_mono cl 0 j); lia). rewrite (proj2 (Z.ltb_ge _ _)) by lia.
      specialize (IH fuel (S j) br ltac:(lia) ltac:(lia) Hbr (left_skip _ _ _ Hl Ec) Hb).
      rewrite Ccl, Cop, Z.add_0_r in IH. by replace (nest + count op j - count cl j + 1) with (nest + (count op j + 1) - count cl j) by lia.
    + destruct fuel as [|fuel]; [lia|]. cbn [close_loop]. destruct (left_take closes br j Hbr ltac:(lia) Hl Ec) as (H1 & H2 & H3).
      rewrite (left_nonzero br j) by (lia || done). rewrite (lowest_index br j) by done. rewrite ones_below by (done || lia). rewrite Nat2Z.id.
      specialize (IH fuel (S j) (Z.land br (br - 1)) ltac:(lia) ltac:(lia) (land_word _ _ Hbr) H3 Hb).
      rewrite Ccl, Cop, Z.add_0_r in IH.
      destruct (Z.eqb_spec (nest + count op j - count cl j) 1) as [E|E]; [by rewrite (proj2 (Z.eqb_eq _ _)) by lia|].
      rewrite (proj2 (Z.eqb_neq _ _)) by lia. by replace (nest + count op j - count cl j - 1) with (nest + count op j - (count cl j + 1)) by lia.
    + specialize (IH fuel (S j) br ltac:(lia) ltac:(lia) Hbr (left_skip _ _ _ Hl Ec) Hb). by rewrite Ccl, Cop, !Z.add_0_r in IH.
Qed.

Lemma bracket_loop_walk fuel r j br nest : (r < fuel)%nat -> (j + r = 64)%nat -> 0 <= br < 2 ^ 64 -> left_of (Z.lor open closes) br j ->
  bracket_loop fuel open br nest budget = Ok (bracket_walk op cl budget r j nest).
Proof using Hopen Hcloses Hdis.
  revert fuel j br nest. induction r as [|r IH]; intros fuel j br nest Hf Hj Hbr Hl.
  - destruct fuel as [|fuel]; [lia|]. assert (j = 64%nat) as -> by lia. cbn [bracket_walk bracket_loop]. by rewrite (left_end _ br Hbr Hl).
  - cbn [bracket_walk]. pose proof (Z.lor_spec open closes (Z.of_nat j)) as Hlor. destruct (op j || cl j) eqn:E.
    + destruct fuel as [|fuel]; [lia|]. destruct (left_take _ br j Hbr ltac:(lia) Hl Hlor) as (H1 & H2 & H3). cbn [bracket_loop].
      rewrite (left_nonzero br j) by (lia || done). rewrite (lowest_isolated br j) by done. rewrite negb_involutive, (lowest_index br j), Nat2Z.id by done.
      destruct (op j); [|cbn [orb] in E; rewrite E]; (case_match; [done|]; apply IH; [lia|lia|by apply land_word|done]).
    + apply orb_false_iff in E as [-> ->]. apply IH; [lia..|done|by apply left_skip].
Qed.
End Block.

(** ** Blocks and bytes *)

Lemma esc_at_ext f g e i : (forall k, (k < i)%nat -> f k = g k) -> esc_at f e i = esc_at g e i.
Proof. induction i as [|i IH]; intros H; [done|]. cbn [esc_at]. rewrite H, IH by (intros; try apply H; lia). done. Qed.

Lemma str_at_ext f g s i : (forall k, (k < i)%nat -> f k = g k) -> Stage1.str_at f s i = Stage1.str_at g s i.
Proof. induction i as [|i IH]; intros H; [done|]. cbn [Stage1.str_at]. rewrite H, IH by (intros; try apply H; lia). done. Qed.

Section Bytes.
Context (budget : Z) (blk rest : bytes) (i : nat) (e s : bool).
Hypothesis Hlen : length blk = 64%nat.
Abbreviation byte j := (nth j blk 0).
Definition slash_at (j : nat) : bool := byte j =? BSLASH.
Definition q_at (j : nat) : bool := (byte j =? DQUOTE) && negb (esc_at slash_at e j).
Definition op_at (j : nat) : bool := is_open (byte j) && negb (Stage1.str_at q_at s (S j)).
Definition cl_at (j : nat) : bool := is_close (byte j) && negb (Stage1.str_at q_at s (S j)).

Lemma nest_walk r j nest : (j + r = 64)%nat ->
  nest_scan budget (drop j blk ++ rest) (i + j) (esc_at slash_at e j) (Stage1.str_at q_at s j) nest =
  match bracket_walk op_at cl_at budget r j nest with
  | Closed p => Closed (S (i + p))
  | TooDeep p => TooDeep (i + p)
  | Nested n => nest_scan budget rest (i + 64) (esc_at slash_at e 64) (Stage1.str_at q_at s 64) n
  end.
Proof using Hlen.
  revert j nest. induction r as [|r IH]; intros j nest Hj.
  - assert (E : j = 64%nat) by lia. rewrite E. rewrite drop_ge by lia. by cbn [bracket_walk app].
  - destruct (lookup_lt_is_Some_2 blk j) as [c Hc]; [lia|]. rewrite (drop_S _ _ _ Hc). cbn [app nest_scan bracket_walk].
    assert (Hb : byte j = c) by by apply nth_lookup_Some.
    assert (Hs : str_next c (esc_at slash_at e j) (Stage1.str_at q_at s j) = Stage1.str_at q_at s (S j)) by (cbn [Stage1.str_at]; unfold str_next, q_at; by rewrite Hb).
    assert (He : esc_next c (esc_at slash_at e j) = esc_at slash_at e (S j)) by (cbn [esc_at]; unfold esc_next, slash_at; by rewrite Hb).
    assert (Ho : op_at j = is_open c && negb (Stage1.str_at q_at s (S j))) by (unfold op_at; by rewrite Hb).
    assert (Hcl : cl_at j = is_close c && negb (Stage1.str_at q_at s (S j))) by (unfold cl_at; by rewrite Hb).
    rewrite Hs, He, Ho, Hcl. replace (S (i + j)) with (i + S j)%nat by lia. rewrite !IH by lia.
    destruct (is_open c && _); [by destruct (budget <? nest + 1)|]. destruct (is_close c && _); [|done]. destruct (nest - 1 =? 0); [|done]. f_equal. lia.
Qed.
End Bytes.

Lemma nest_scan_zeros budget l k i e s nest : nest_scan budget (l ++ replicate k 0) i e s nest = nest_scan budget l i e s nest.
Proof.
  revert i e s nest. induction l as [|c l IH]; intros i e s nest.
  - cbn [app nest_scan]. revert i e s. induction k as [|k IHk]; intros i e s; [done|]. cbn [replicate nest_scan]. cbn [is_open is_close]. apply IHk.
  - cbn [app nest_scan]. by rewrite !IH.
Qed.

Section Blocks.
Context (src : bytes).
Hypothesis Hsrc : bytes_ok src.

Lemma block_length i : length (block_at src i) = 64%nat.
Proof using.
  unfold block_at. destruct (Nat.leb_spec 64 (length src - i)); [rewrite length_take, length_drop; lia|]. rewrite length_app, length_drop, length_replicate. lia.
Qed.

Lemma block_ok i : bytes_ok (block_at src i).
Proof using Hsrc.
  unfold block_at. case_match; [by apply Forall_take, Forall_drop|]. apply Forall_app. split; [by apply Forall_drop|]. apply Forall_replicate. unfold is_byte. lia.
Qed.

Lemma block_scan budget i e s nest :
  nest_scan budget (drop i src) i e s nest = nest_scan budget (drop 0 (block_at src i) ++ drop (i + 64) src) (i + 0) e s nest.
Proof using.
  rewrite drop_0, Nat.add_0_r. unfold block_at. destruct (Nat.leb_spec 64 (length src - i)).
  - rewrite <- drop_drop. by rewrite take_drop.
  - rewrite (drop_ge src (i + 64)), app_nil_r by lia. by rewrite nest_scan_zeros.
Qed.

Lemma ldiff_word a b : 0 <= a < 2 ^ 64 -> 0 <= b -> 0 <= Z.ldiff a b < 2 ^ 64.
Proof using.
  intros Ha Hb. assert (0 <= Z.ldiff a b) by (apply Z.ldiff_nonneg; lia). split; [done|]. apply pow2_bits; [done|lia|]. intros n Hn.
  rewrite Z.ldiff_spec. by rewrite (proj1 (pow2_bits a 64 ltac:(lia) ltac:(lia)) ltac:(lia)).
Qed.

(** The masks of a block are its bytes, with the state the carries hold. *)
Lemma block_masks i e s :
  let m := Stage1BlockBrackets (block_at src i) in
  let b := slash_at (block_at src i) in let q := q_at (block_at src i) e in
  exists escaped inString, Stage1Escaped (m_Backslash m) (mkCarry (Z.b2z e) (all_ones s)) = (escaped, mkCarry (Z.b2z (esc_at b e 64)) (all_ones s)) /\
  Stage1PrefixXOR (Z.ldiff (m_Quote m) escaped) (mkCarry (Z.b2z (esc_at b e 64)) (all_ones s)) =
    (inString, mkCarry (Z.b2z (esc_at b e 64)) (all_ones (Stage1.str_at q s 64))) /\
  0 <= Z.ldiff (m_Open m) inString < 2 ^ 64 /\ 0 <= Z.ldiff (m_Close m) inString < 2 ^ 64 /\
  forall j, (j < 64)%nat -> Z.testbit (Z.ldiff (m_Open m) inString) (Z.of_nat j) = op_at (block_at src i) e s j /\
    Z.testbit (Z.ldiff (m_Close m) inString) (Z.of_nat j) = cl_at (block_at src i) e s j.
Proof using Hsrc.
  cbv zeta. set (blk := block_at src i). pose proof (block_ok i : bytes_ok blk) as Hblk.
  cbn [Stage1BlockBrackets stage1BlockBracketsPortable m_Quote m_Backslash m_Open m_Close].
  pose proof (planes_bit blk Hblk 2) as P2. pose proof (planes_bit blk Hblk 3) as P3. pose proof (planes_bit blk Hblk 6) as P6. pose proof (planes_bit blk Hblk 7) as P7.
  change (8 * 2) with 16 in P2. change (8 * 3) with 24 in P3. change (8 * 6) with 48 in P6. change (8 * 7) with 56 in P7.
  pose proof (Stage1Escaped_spec (planes blk 24) e (all_ones s) (planes_range blk 24)) as He. destruct (Stage1Escaped _ _) as [escaped c1]. destruct He as (Hr1 & Hb1 & ->).
  assert (Hesc : forall j, (j <= 64)%nat -> esc_at (bits_of (planes blk 24)) e j = esc_at (slash_at blk) e j).
  { intros j Hj. apply esc_at_ext. intros k Hk. by rewrite P3 by lia. }
  rewrite Hesc by lia. pose proof (Stage1PrefixXOR_spec (Z.ldiff (planes blk 16) escaped) (Z.b2z (esc_at (slash_at blk) e 64)) s (ldiff_word _ _ (planes_range blk 16) (proj1 Hr1))) as Hq.
  cbv zeta in Hq. destruct (Stage1PrefixXOR _ _) as [inString c2] eqn:Eq. destruct Hq as (Hr2 & Hb2 & Ec). rewrite Ec in Eq. exists escaped, inString.
  assert (Hstr : forall j, (j <= 64)%nat -> Stage1.str_at (bits_of (Z.ldiff (planes blk 16) escaped)) s j = Stage1.str_at (q_at blk e) s j).
  { intros j Hj. apply str_at_ext. intros k Hk. rewrite Z.ldiff_spec, P2, Hb1, Hesc by lia. done. }
  rewrite Hstr in Eq by lia. split_and!; [done|done|apply ldiff_word; [apply planes_range|lia]..|]. intros j Hj.
  rewrite !Z.ldiff_spec, P6, P7, Hb2, Hstr by lia. done.
Qed.

Lemma skip_blocks_spec fuel i nest budget e s : (length src - i < fuel)%nat ->
  skip_blocks src fuel i nest budget (mkCarry (Z.b2z e) (all_ones s)) = scan_result src (nest_scan budget (drop i src) i e s nest).
Proof using Hsrc.
  revert i nest e s. induction fuel as [|fuel IH]; intros i nest e s Hf; [lia|]. cbn [skip_blocks].
  destruct (Nat.ltb_spec i (length src)) as [Hi|Hi]; [|by rewrite drop_ge by done]. cbv zeta.
  destruct (block_masks i e s) as (escaped & inString & -> & -> & Ho & Hc & Hbits).
  set (op := Z.ldiff (m_Open _) inString) in *. set (cl := Z.ldiff (m_Close _) inString) in *. clearbody op cl.
  rewrite block_scan, (nest_walk budget (block_at src i) (drop (i + 64) src) i e s (block_length i) 64 0) by done.
  rewrite <- (walk_ext (bits_of op) _ (bits_of cl) _ budget 64 0) by (intros j Hj; apply Hbits; lia).
  assert (Hdis : forall j, bits_of op j = true -> bits_of cl j = false).
  { intros j Hj. destruct (Nat.lt_ge_cases j 64) as [Hlt|Hge]; [|by rewrite (proj1 (pow2_bits cl 64 ltac:(lia) ltac:(lia)) ltac:(lia)) by lia].
    destruct (Hbits j Hlt) as [Ebo Ebc]. rewrite Ebo in Hj. rewrite Ebc. unfold op_at, cl_at in *. apply andb_true_iff in Hj as [Hj ->]. unfold is_open, is_close in *. lia. }
  rewrite !ones_count by done.
  assert (Hnext : forall n, skip_blocks src fuel (i + 64) n budget (mkCarry (Z.b2z (esc_at (slash_at (block_at src i)) e 64)) (all_ones (Stage1.str_at (q_at (block_at src i) e) s 64))) = scan_result src (nest_scan budget (drop (i + 64) src) (i + 64) (esc_at (slash_at (block_at src i)) e 64) (Stage1.str_at (q_at (block_at src i) e) s 64) n))
    by (intros n; apply IH; lia).
  destruct ((0 <? nest - count (bits_of cl) 64) && (nest + count (bits_of op) 64 <=? budget)) eqn:Esafe.
  - apply andb_true_iff in Esafe as [H1%Z.ltb_lt H2%Z.leb_le]. rewrite (walk_safe op cl budget Hdis 64 0 nest).
    + change (count _ 0) with 0. rewrite !Z.sub_0_r. apply Hnext.
    + change (count (bits_of cl) 0) with 0. cbn [Nat.add]. lia.
    + change (count (bits_of op) 0) with 0. cbn [Nat.add]. lia.
  - clear Esafe. destruct (Z.leb_spec (nest + count (bits_of op) 64) budget) as [Hb|Hb].
    + pose proof (close_loop_walk op cl budget Ho Hc Hdis nest 65 64 0 cl ltac:(lia) ltac:(lia) Hc) as Hl.
      specialize (Hl ltac:(intros j Hj; by rewrite (proj2 (Nat.leb_le 0 j)) by lia) Hb). change (count _ 0) with 0 in Hl. rewrite Z.add_0_r, Z.sub_0_r in Hl.
      destruct (bracket_walk _ _ _ _ _ _) as [p|p|n].
      * rewrite Hl. cbn [res_bind scan_result]. f_equal. lia.
      * done.
      * destruct Hl as [-> ->]. cbn [res_bind]. apply Hnext.
    + rewrite (bracket_loop_walk op cl budget Ho Hc Hdis 65 64 0 (Z.lor op cl) nest) by (try apply lor_word; try done; try lia; intros j Hj; by rewrite (proj2 (Nat.leb_le 0 j)) by lia).
      cbn [res_bind]. destruct (bracket_walk _ _ _ _ _ _) as [p|p|n]; cbn [scan_result]; [f_equal; lia|done|apply Hnext].
Qed.

(** On any source, the masked skip is the bytewise scan. *)
Lemma skipComposite_scan maxDepth depth i :
  skipComposite src maxDepth depth i = scan_result src (nest_scan (maxDepth - depth) (drop i src) i false false 0).
Proof using Hsrc. unfold skipComposite. apply (skip_blocks_spec _ i 0 (maxDepth - depth) false false). lia. Qed.
End Blocks.

(** ** The scan of a valid text *)

(** A string content as the scanners see it: a backslash takes the next byte along. *)
Inductive calm : bytes -> Prop :=
  | calm_nil : calm []
  | calm_plain c l : c <> DQUOTE -> c <> BSLASH -> calm l -> calm (c :: l)
  | calm_escape c l : calm l -> calm (BSLASH :: c :: l).

Lemma calm_app s t : calm s -> calm t -> calm (s ++ t).
Proof. intros Hs Ht. by induction Hs; [|constructor..]. Qed.

Lemma calm_bytes s : Forall (fun c => is_string_syntax c = false) s -> calm s.
Proof. induction 1 as [|c s Hc _ IH]; [constructor|]. unfold is_string_syntax in Hc. constructor; [lia..|done]. Qed.

Lemma hex_calm c : is_hex c = true -> c <> DQUOTE /\ c <> BSLASH.
Proof. unfold is_hex. intros H. split; intros ->; vm_compute in H; discriminate. Qed.

Lemma hex_of_calm a b c d u : hex_of [a; b; c; d] = Some u -> calm [a; b; c; d].
Proof.
  unfold hex_of. destruct (is_hex a && is_hex b && is_hex c && is_hex d) eqn:E; [|done]. intros _. rewrite !andb_true_iff in E.
  destruct E as [[[Ha Hb] Hc] Hd]. apply hex_calm in Ha, Hb, Hc, Hd. constructor; [tauto..|]. constructor; [tauto..|]. constructor; [tauto..|]. constructor; [tauto..|constructor].
Qed.

Lemma jchars_calm s dec : jchars s dec -> calm s.
Proof.
  induction 1 as [|c d s t Hc _ IH]; [constructor|]. apply calm_app; [|done].
  destruct Hc as [c Hc|r Hr H128|e He|a b c d u Hu _|a b c d e f g h u v Hu _ Hv _].
  - unfold is_string_special in Hc. constructor; [lia..|constructor].
  - apply calm_bytes. eapply Forall_impl; [by apply encode_rune_high|]. intros c Hc. unfold is_string_syntax. cbn beta in Hc. lia.
  - apply calm_escape. constructor.
  - apply calm_escape. by eapply hex_of_calm.
  - apply calm_escape. change [a; b; c; d; BSLASH; "u"%ch; e; f; g; h] with ([a; b; c; d] ++ BSLASH :: "u"%ch :: [e; f; g; h]).
    apply calm_app; [by eapply hex_of_calm|]. apply calm_escape. by eapply hex_of_calm.
Qed.

(** The bytes that mean nothing to the scans. *)
Definition inert (c : Z) : bool := negb ((c =? DQUOTE) || (c =? BSLASH) || is_open c || is_close c).

Lemma ws_inert w : ws w -> Forall (fun c => inert c = true) w.
Proof. intros H. eapply Forall_impl; [exact H|]. intros c. unfold IsJSONWhitespace, inert, is_open, is_close. lia. Qed.

Lemma number_inert s : jnumber s -> Forall (fun c => inert c = true) s.
Proof. intros H%jnumber_chars. eapply Forall_impl; [exact H|]. intros c. unfold number_char, IsDigit, inert, is_open, is_close. lia. Qed.

Section Nest.
Context (budget : Z).
Abbreviation scan := (nest_scan budget).

(** A text that leaves the scan as it was, at a nesting of at least one. *)
Definition passes (k : Z) (s : bytes) : Prop := forall l i n, 1 <= n -> n + k <= budget ->
  scan (s ++ l) i false false n = scan l (i + length s) false false n.

Lemma passes_app k s t : passes k s -> passes k t -> passes k (s ++ t).
Proof using. intros Hs Ht l i n Hn Hk. rewrite <- app_assoc, Hs, Ht by done. f_equal. rewrite length_app. lia. Qed.

Lemma passes_inert k s : Forall (fun c => inert c = true) s -> passes k s.
Proof using.
  induction 1 as [|c s Hc _ IH]; intros l i n Hn Hk; [cbn [app length]; by rewrite Nat.add_0_r|]. cbn [app nest_scan length].
  unfold str_next, esc_next. unfold inert in Hc. replace (c =? DQUOTE) with false by lia. replace (c =? BSLASH) with false by lia.
  replace (is_open c) with false by (destruct (is_open c), (is_close c); lia). replace (is_close c) with false by (destruct (is_open c), (is_close c); lia).
  cbn [andb xorb]. rewrite IH by done. f_equal. lia.
Qed.

Lemma scan_calm s l i n : calm s -> scan (s ++ l) i false true n = scan l (i + length s) false true n.
Proof using.
  intros Hs. revert i. induction Hs as [|c s Hq Hb Hs IH|c s Hs IH]; intros i; [cbn [app length]; by rewrite Nat.add_0_r| |]; cbn [app nest_scan length]; unfold str_next, esc_next.
  - rewrite (proj2 (Z.eqb_neq c DQUOTE) Hq), (proj2 (Z.eqb_neq c BSLASH) Hb). cbn [andb xorb negb]. rewrite !andb_false_r. rewrite IH. f_equal. lia.
  - cbn [andb xorb negb Z.eqb Pos.eqb is_open is_close orb]. rewrite !andb_false_r. rewrite IH. f_equal. lia.
Qed.

Lemma passes_string k s dec : jstring s dec -> passes k s.
Proof using.
  intros [s' d H%jchars_calm] l i n Hn Hk. cbn [app nest_scan length]. unfold str_next, esc_next. cbn [Z.eqb Pos.eqb andb negb xorb is_open is_close orb].
  rewrite <- app_assoc, scan_calm by done. cbn [app nest_scan]. unfold str_next, esc_next. cbn [Z.eqb Pos.eqb andb negb xorb is_open is_close orb].
  f_equal. rewrite length_app. cbn [length]. lia.
Qed.

(** What is between the brackets of a container. *)
Definition within (k : Z) (s : bytes) : Prop := passes (k - 1) s.

Lemma passes_container o c k s : is_open o = true -> is_close c = true -> 1 <= k -> within k s -> passes k (o :: s ++ [c]).
Proof using.
  intros Ho Hc Hk Hs l i n Hn Hb. assert (Ho' : (o =? DQUOTE) = false /\ (o =? BSLASH) = false) by (unfold is_open in Ho; lia).
  assert (Hc' : (c =? DQUOTE) = false /\ (c =? BSLASH) = false /\ is_open c = false) by (unfold is_open, is_close in *; lia).
  destruct Ho' as [Eo1 Eo2], Hc' as (Ec1 & Ec2 & Ec3). cbn [app nest_scan length]. unfold str_next, esc_next. rewrite Ho, Eo1, Eo2. cbn [andb xorb negb].
  rewrite (proj2 (Z.ltb_ge _ _)) by lia. rewrite <- app_assoc, Hs by lia. cbn [app nest_scan]. unfold str_next, esc_next. rewrite Hc, Ec1, Ec2, Ec3. cbn [andb xorb negb].
  rewrite (proj2 (Z.eqb_neq _ _)) by lia. f_equal; [rewrite length_app; cbn [length]; lia|lia].
Qed.

Lemma closes_container o c k s l i : is_open o = true -> is_close c = true -> 1 <= k -> k <= budget -> within k s ->
  scan ((o :: s ++ [c]) ++ l) i false false 0 = Closed (i + length (o :: s ++ [c])).
Proof using.
  intros Ho Hc Hk Hb Hs. assert (Ho' : (o =? DQUOTE) = false /\ (o =? BSLASH) = false) by (unfold is_open in Ho; lia).
  assert (Hc' : (c =? DQUOTE) = false /\ (c =? BSLASH) = false /\ is_open c = false) by (unfold is_open, is_close in *; lia).
  destruct Ho' as [Eo1 Eo2], Hc' as (Ec1 & Ec2 & Ec3). cbn [app nest_scan length]. unfold str_next, esc_next. rewrite Ho, Eo1, Eo2. cbn [andb xorb negb].
  rewrite (proj2 (Z.ltb_ge _ _)) by lia. rewrite <- app_assoc, Hs by lia. cbn [app nest_scan]. unfold str_next, esc_next. rewrite Hc, Ec1, Ec2, Ec3. cbn [andb xorb negb Z.sub Z.opp Z.add Z.eqb].
  f_equal. rewrite length_app. cbn [length]. lia.
Qed.

Lemma comma_inert c : c = ","%ch \/ c = ":"%ch -> forall k, passes k [c].
Proof using. intros Hc k. apply passes_inert. destruct Hc as [->| ->]; by repeat constructor. Qed.

(** Every value passes, and so does the inside of every container. *)
Lemma valid_passes :
  (forall k s t, jvalue k s t -> passes k s) /\ (forall k s ts, jelems k s ts -> passes k s) /\ (forall k s ms, jmembers k s ms -> passes k s).
Proof using.
  assert (Hws : forall k w, ws w -> passes k w) by (intros; by apply passes_inert, ws_inert).
  assert (Hcons : forall k c s, c = ","%ch \/ c = ":"%ch -> passes k s -> passes k (c :: s)) by (intros k c s Hc Hs; apply (passes_app k [c]); [by apply comma_inert|done]).
  apply jvalue_mutind; intros; try (by apply passes_inert; repeat constructor).
  - by apply passes_inert, number_inert.
  - by eapply passes_string.
  - by apply passes_container; [done..|apply Hws].
  - by apply passes_container.
  - by apply passes_container; [done..|apply Hws].
  - by apply passes_container.
  - repeat apply passes_app; auto.
  - repeat apply passes_app; auto.
  - repeat apply passes_app; auto; [by eapply passes_string|]. apply Hcons; [by right|]. repeat apply passes_app; auto.
  - repeat apply passes_app; auto; [by eapply passes_string|]. apply Hcons; [by right|]. repeat apply passes_app; auto.
Qed.
End Nest.

(** ** Strings *)

(** The closing quote of a string content. *)
Fixpoint quote_at (l : bytes) (i : nat) (esc : bool) : option nat :=
  match l with
  | [] => None
  | c :: l =>
    if esc then quote_at l (S i) false
    else if c =? DQUOTE then Some i
    else quote_at l (S i) (c =? BSLASH)
  end.

Lemma quote_at_range l i esc q : quote_at l i esc = Some q -> (i <= q < i + length l)%nat.
Proof.
  revert i esc. induction l as [|c l IH]; intros i esc H; [done|]. cbn [quote_at length] in *. repeat case_match; simplify_eq; try lia; apply IH in H; lia.
Qed.

Lemma quote_at_calm s l i : calm s -> quote_at (s ++ l) i false = quote_at l (i + length s) false.
Proof.
  intros Hs. revert i. induction Hs as [|c s Hq Hb Hs IH|c s Hs IH]; intros i; [cbn [app length]; by rewrite Nat.add_0_r| |]; cbn [app quote_at length].
  - rewrite (proj2 (Z.eqb_neq c DQUOTE) Hq), (proj2 (Z.eqb_neq c BSLASH) Hb), IH. f_equal. lia.
  - rewrite IH. f_equal. lia.
Qed.

Lemma quote_at_string s dec l i : jstring s dec -> quote_at (drop 1 (s ++ l)) i false = Some (i + (length s - 2))%nat.
Proof.
  intros [s' d H%jchars_calm]. change (drop 1 ((DQUOTE :: s' ++ [DQUOTE]) ++ l)) with ((s' ++ [DQUOTE]) ++ l). rewrite <- app_assoc, quote_at_calm by done. cbn [app quote_at Z.eqb Pos.eqb length]. f_equal.
  rewrite length_app. cbn [length]. lia.
Qed.

Section Scans.
Context (src : bytes).
Hypothesis Hsrc : bytes_ok src.

Definition after_string (i : nat) : nat := match quote_at (drop i src) i false with Some q => S q | None => length src end.

(** A turn of the loops over a string: to the next byte of its syntax. *)
Lemma syntax_step i : (i <= length src)%nat ->
  let j := scanStringSyntax src i in
  (i <= j <= length src)%nat /\ Forall (fun c => is_string_syntax c = false) (slice src i j) /\ quote_at (drop i src) i false = quote_at (drop j src) j false.
Proof using Hsrc.
  intros Hi j. subst j. rewrite scanStringSyntax_spec by done. destruct (advance_span (fun c => negb (is_string_syntax c)) src i Hi) as (s & Hs & Hf & _).
  set (j := advance _ _ _) in *. clearbody j. pose proof (span_le _ _ _ _ Hs) as Hle. pose proof (span_len _ _ _ _ Hs) as Hl.
  assert (Hp : Forall (fun c => is_string_syntax c = false) s) by (eapply Forall_impl; [exact Hf|]; intros c Hc; cbn beta in Hc; by apply negb_true_iff).
  split; [lia|]. rewrite (span_slice _ _ _ _ Hs). split; [done|]. destruct Hs as (Hd & _). rewrite Hd. rewrite quote_at_calm by by apply calm_bytes. by rewrite Hl.
Qed.

Lemma quote_at_over j c : src !! j = Some c -> c <> DQUOTE -> quote_at (drop j src) j false = quote_at (drop (S j) src) (S j) (c =? BSLASH).
Proof using. intros Hc Hq. rewrite (lookup_Some_drop _ _ _ Hc). cbn [quote_at]. by rewrite (proj2 (Z.eqb_neq c DQUOTE) Hq). Qed.

Lemma quote_at_escaped j : quote_at (drop j src) j true = quote_at (drop (S j) src) (S j) false.
Proof using.
  destruct (src !! j) as [c|] eqn:E; [by rewrite (lookup_Some_drop _ _ _ E)|]. apply lookup_ge_None in E. by rewrite !drop_ge by lia.
Qed.

Lemma skipStringTrusted_spec fuel i : (i <= length src)%nat -> (length src - i < fuel)%nat -> skipStringTrusted src fuel i = Ok (after_string i).
Proof using Hsrc.
  revert i. induction fuel as [|fuel IH]; intros i Hi Hf; [lia|]. cbn [skipStringTrusted]. pose proof (syntax_step i Hi) as (Hj & _ & Hq). cbv zeta.
  set (j := scanStringSyntax src i) in *. clearbody j. unfold after_string. rewrite Hq. destruct (src !! j) as [c|] eqn:E.
  - apply lookup_lt_Some in E as Hlt. destruct (Z.eqb_spec c DQUOTE) as [->|Hne]; [by rewrite (lookup_Some_drop _ _ _ E)|].
    rewrite (quote_at_over j c) by done. destruct (c =? BSLASH); [|apply IH; lia]. rewrite quote_at_escaped. replace (j + 2)%nat with (S (S j)) by lia.
    destruct (Nat.ltb_spec (length src) (S (S j))) as [Hgt|Hle]; [by rewrite drop_ge by lia|]. apply IH; lia.
  - apply lookup_ge_None in E. by rewrite drop_ge by lia.
Qed.

(** ** Scalars *)

Lemma skip_scalar_advance fuel i : (i <= length src)%nat -> (length src - i < fuel)%nat -> skip_scalar_loop src fuel i = advance (fun c => negb (ends_scalar c)) src i.
Proof using.
  revert i. induction fuel as [|fuel IH]; intros i Hi Hf; [lia|]. cbn [skip_scalar_loop]. rewrite advance_unfold. destruct (src !! i) as [c|] eqn:E.
  - apply lookup_lt_Some in E. destruct (ends_scalar c); cbn [negb]; [done|]. apply IH; lia.
  - apply lookup_ge_None in E. lia.
Qed.

Lemma skipScalarTrusted_advance i : (i <= length src)%nat -> skipScalarTrusted src i = advance (fun c => negb (ends_scalar c)) src i.
Proof using. intros Hi. apply skip_scalar_advance; lia. Qed.

(** What follows a value. *)
Definition delimited (j : nat) : Prop := stops (fun c => negb (ends_scalar c)) (drop j src).

Lemma skip_scalar_valid i s j : span src i s j -> Forall (fun c => ends_scalar c = false) s -> delimited j -> skipScalarTrusted src i = j.
Proof using.
  intros Hs Hf Hd. pose proof (span_le _ _ _ _ Hs). rewrite skipScalarTrusted_advance by lia. apply (advance_complete _ _ _ s); [done| |done].
  eapply Forall_impl; [exact Hf|]. intros c Hc. cbn beta in *. by rewrite Hc.
Qed.

Lemma number_unended s : jnumber s -> Forall (fun c => ends_scalar c = false) s.
Proof using. intros H%jnumber_chars. eapply Forall_impl; [exact H|]. intros c. unfold number_char, IsDigit, ends_scalar. lia. Qed.

(** ** Values *)

Lemma skipComposite_valid maxDepth depth o c s i j : is_open o = true -> is_close c = true -> 1 <= maxDepth - depth -> within (maxDepth - depth) (maxDepth - depth) s ->
  span src i (o :: s ++ [c]) j -> skipComposite src maxDepth depth i = Ok j.
Proof using Hsrc.
  intros Ho Hc Hk Hs Hspan. rewrite skipComposite_scan by done. pose proof (span_len _ _ _ _ Hspan) as ->. destruct Hspan as (Hd & _). rewrite Hd.
  by rewrite (closes_container _ o c (maxDepth - depth)) by (done || lia).
Qed.

(** The skip of a value on a valid text. *)
Lemma skipValueTrusted_valid maxDepth depth i s j t : span src i s j -> jvalue (maxDepth - depth) s t -> delimited j -> skipValueTrusted src maxDepth depth i = Ok j.
Proof using Hsrc.
  intros Hspan Hv Hd. unfold skipValueTrusted.
  assert (Hhead : forall c u, s = c :: u -> src !! i = Some c) by (intros c u ->; by apply span_cons in Hspan as [? _]).
  assert (Hlit : forall c u, s = c :: u -> (c =? "{"%ch) || (c =? "["%ch) = false -> (c =? DQUOTE) = false -> Forall (fun c => ends_scalar c = false) s ->
    match src !! i with
    | None => Ok i
    | Some c => if (c =? "{"%ch) || (c =? "["%ch) then skipComposite src maxDepth depth i
      else if c =? DQUOTE then skipStringTrusted src (S (length src)) (S i) else Ok (skipScalarTrusted src i)
    end = Ok j).
  { intros c u Es H1 H2 Hf. rewrite (Hhead _ _ Es), H1, H2. f_equal. by eapply skip_scalar_valid. }
  assert (Hwithin : forall k s, passes (maxDepth - depth) (k - 1) s -> within (maxDepth - depth) k s) by done.
  inversion Hv as [? Hk|? Hk|? Hk|? ? Hk Hn|? ? dec Hk Hstr|? w Hk Hw|? inner ? Hk Hin|? w Hk Hw|? inner ? Hk Hin]; subst.
  - by eapply Hlit; [reflexivity|done|done|repeat constructor].
  - by eapply Hlit; [reflexivity|done|done|repeat constructor].
  - by eapply Hlit; [reflexivity|done|done|repeat constructor].
  - destruct (jnumber_head s Hn) as (c & u & Es & Hc). eapply Hlit; [exact Es|unfold IsDigit in Hc; lia..|by apply number_unended].
  - destruct (jstring_head _ _ Hstr) as (u & Es). rewrite (Hhead _ _ Es). cbn [Z.eqb Pos.eqb orb]. pose proof (span_le _ _ _ _ Hspan) as Hle. pose proof (span_len _ _ _ _ Hspan) as Hl.
    assert (length s >= 2)%nat by (destruct Hstr; cbn [length]; rewrite length_app; cbn; lia).
    rewrite skipStringTrusted_spec by lia. f_equal. unfold after_string. destruct Hspan as (Hdrop & _).
    replace (drop (S i) src) with (drop 1 (s ++ drop j src)) by (rewrite <- Hdrop, drop_drop; f_equal; lia). rewrite (quote_at_string _ _ _ _ Hstr). lia.
  - rewrite (Hhead _ _ eq_refl). cbn [Z.eqb Pos.eqb orb]. eapply skipComposite_valid; [| |exact Hk| |exact Hspan]; [done..|]. by apply passes_inert, ws_inert.
  - rewrite (Hhead _ _ eq_refl). cbn [Z.eqb Pos.eqb orb]. eapply skipComposite_valid; [| |exact Hk| |exact Hspan]; [done..|]. by eapply (proj1 (proj2 (valid_passes _))).
  - rewrite (Hhead _ _ eq_refl). cbn [Z.eqb Pos.eqb orb]. eapply skipComposite_valid; [| |exact Hk| |exact Hspan]; [done..|]. by apply passes_inert, ws_inert.
  - rewrite (Hhead _ _ eq_refl). cbn [Z.eqb Pos.eqb orb]. eapply skipComposite_valid; [| |exact Hk| |exact Hspan]; [done..|]. by eapply (proj2 (proj2 (valid_passes _))).
Qed.

Lemma nest_scan_range budget l i e s n :
  match nest_scan budget l i e s n with Closed q => (i < q <= i + length l)%nat | TooDeep q => (i <= q < i + length l)%nat | Nested _ => True end.
Proof using.
  revert i e s n. induction l as [|c l IH]; intros i e s n; [done|]. cbn [nest_scan length]. cbv zeta.
  repeat case_match; simplify_eq; try lia; match goal with H : nest_scan budget l ?i' ?e' ?s' ?n' = _ |- _ => specialize (IH i' e' s' n'); rewrite H in IH; lia end.
Qed.

(** On any source, the skip of a value returns, and stays inside the source. *)
Lemma skipValueTrusted_safe maxDepth depth i : (i <= length src)%nat ->
  (exists j, skipValueTrusted src maxDepth depth i = Ok j /\ (i <= j <= length src)%nat) \/ exists e, skipValueTrusted src maxDepth depth i = Err e.
Proof using Hsrc.
  intros Hi. unfold skipValueTrusted. destruct (src !! i) as [c|] eqn:E; [|left; by exists i]. apply lookup_lt_Some in E. destruct (_ || _); [|destruct (c =? DQUOTE)].
  - rewrite skipComposite_scan by done. pose proof (nest_scan_range (maxDepth - depth) (drop i src) i false false 0) as Hr. rewrite length_drop in Hr.
    destruct (nest_scan _ _ _ _ _ _); cbn [scan_result]; [left; eexists; split; [done|lia]|right; by eexists|left; eexists; split; [done|lia]].
  - rewrite skipStringTrusted_spec by lia. left. eexists. split; [done|]. unfold after_string. destruct (quote_at _ _ _) as [q|] eqn:Eq; [|lia].
    apply quote_at_range in Eq. rewrite length_drop in Eq. lia.
  - left. eexists. split; [done|]. rewrite skipScalarTrusted_advance by lia. pose proof (advance_le (fun c => negb (ends_scalar c)) src i Hi). lia.
Qed.
End Scans.

(** ** Property *)

(** C40: on any source, valid or not, the skip of a container that reads 64 bytes at a time through the bit masks of quotes, backslashes and brackets, carries string and escape state from block to block and counts brackets by population count ends where the scan of one byte at a time ends, with the same depth error. *)
Theorem masked_skip_is_bytewise src maxDepth depth i :
  bytes_ok src ->
  skipComposite src maxDepth depth i = scan_result src (nest_scan (maxDepth - depth) (drop i src) i false false 0).
Proof. intros Hsrc. by apply skipComposite_scan. Qed.

Lemma masked_skip_is_bytewise_witness :
  let src := js "[{'a]':'\']'},[[]]" in
  skipComposite src 2 0 0 = scan_result src (nest_scan (2 - 0) (drop 0 src) 0 false false 0).
Proof. apply masked_skip_is_bytewise. concrete_bytes. Defined.
