(* ===== verification/Trusted.v ===== *)
(** [raw_trusted.go]: pointer lookup without validation.  On a document it finds
    what the validating seeker of [Raw.v] finds; on any other source it still
    returns. *)

From S2P Require Import Prelude Words Utf8 Scanner Stage1 Lex Grammar StringRef Errors Numbers Reader Validator FastValid ParserString Layout Decode Pointer Raw Skip.

Section Trusted.
Context (src : bytes) (maxDepth : Z) (lastWins : bool).

(** ** Keys *)

(** The loop of [scanKey]: the end of the content, whether it has an escape, and
    the cursor. *)
Fixpoint scan_key_loop (fuel : nat) (i : nat) (escaped : bool) : res SyntaxError (nat * bool * nat) :=
  match fuel with
  | O => NoFuel
  | S fuel =>
    let j := scanStringSyntax src i in
    match src !! j with
    | None => Ok (length src, escaped, length src)
    | Some c =>
      if c =? DQUOTE then Ok (j, escaped, S j)
      else if c =? BSLASH then
      let i := (j + 2)%nat in
      if (length src <? i)%nat then Ok (length src, true, length src) else scan_key_loop fuel i true
      else scan_key_loop fuel (S j) escaped
    end
  end.

(** The start and end of the content, whether it has an escape, and the cursor. *)
Definition scanKey (i : nat) : res SyntaxError (nat * nat * bool * nat) :=
  let start := S i in
  let* (stop, escaped, i) := scan_key_loop (S (length src)) start false in
  Ok (start, stop, escaped, i).

Definition trustedKeyMatches (token : bytes) (keyStart keyEnd : nat) (escaped : bool) : res SyntaxError bool :=
  if negb escaped then
    if (keyStart <=? keyEnd)%nat && (keyEnd <=? length src)%nat then Ok (bool_decide (slice src keyStart keyEnd = token)) else Panic
  else
    match p_parseString src (keyStart - 1) with
    | Ok (_, key) => Ok (bool_decide (key = token))
    | Err _ => Ok false
    | Panic => Panic
    | NoFuel => NoFuel
    end.

(** ** Lookup *)

Definition t_skipValue (depth : Z) (s : seeker) : res SyntaxError seeker :=
  let* i := skipValueTrusted src maxDepth depth (s_i s) in Ok (mkSeek i (s_done s)).

Definition t_capture (depth : Z) (s : seeker) : res SyntaxError (seeker * rawres) :=
  let start := s_i s in
  let* s := t_skipValue depth s in
  if (s_i s =? start)%nat then Ok (s, raw_none)
  else
  let s := if negb lastWins then mkSeek (s_i s) true else s in
  Ok (s, mkRaw (slice src start (s_i s)) true None).

(** The answer where a container ends: [selected, selectedOK, pointerErr]. *)
Definition t_finish (s : seeker) (acc : rawres) : res SyntaxError (seeker * rawres) := Ok (s, if lastWins then acc else raw_none).

(** What the loops do with the answer of the inner lookup; [keep] is [pointerErr]
    after a lookup without error.  Under [lastWins] only the array loop looks at
    [s.done] ([always]). *)
Definition t_after_find (always : bool) (close : seeker -> rawres -> res SyntaxError (seeker * rawres)) (acc : rawres)
  (keep : option PointerError) (found : seeker * rawres) : res SyntaxError (seeker * rawres) :=
  let (s, r) := found in
  let leave := s_done s && (always || negb lastWins) in
  match r_err r with
  | Some e => if negb lastWins then Ok (s, raw_fail e) else if leave then Ok (s, r) else close s (mkRaw (r_raw r) (r_ok r) (Some e))
  | None => if leave then Ok (s, r) else close s (if lastWins then mkRaw (r_raw r) (r_ok r) keep else acc)
  end.

Section Walk.
Context (find : Z -> compiled_cursor -> seeker -> res SyntaxError (seeker * rawres)).

Fixpoint t_array_loop (fuel : nat) (depth : Z) (index : option Z) (next : compiled_cursor) (elem : Z) (s : seeker) (acc : rawres) :
  res SyntaxError (seeker * rawres) :=
  match fuel with
  | O => NoFuel
  | S fuel =>
    let s := s_skip src s in
    let close s acc :=
    let s := s_skip src s in
    match src !! s_i s with
    | None => t_finish s acc
    | Some c =>
      if c =? ","%ch then t_array_loop fuel depth index next (elem + 1) (s_next s) acc
      else if c =? "]"%ch then t_finish (s_next s) acc
      else Ok (s, raw_none)
    end in
    if bool_decide (index = Some elem) then
    let* found := find depth next s in
    t_after_find true close acc (r_err acc) found
    else
    let* s := t_skipValue depth s in
    close s acc
  end.

Definition t_findArray (depth : Z) (k : compiled_cursor) (s : seeker) : res SyntaxError (seeker * rawres) :=
  if maxDepth <? depth then v_err src (s_i s) "maximum nesting depth exceeded"
  else
  match path_index k with
  | Err e => Ok (s, raw_fail e)
  | Panic => Panic
  | NoFuel => NoFuel
  | Ok (inl e) =>
    if lastWins then
    let* s := t_skipValue (depth - 1) s in Ok (s, raw_fail e)
    else Ok (s, raw_fail e)
  | Ok (inr index) =>
    let s := s_skip src (s_next s) in
    if at_byte src (s_i s) "]"%ch then Ok (s_next s, raw_none)
    else t_array_loop (S (length src)) depth index (path_next k) 0 s raw_none
  end.

Fixpoint t_object_loop (fuel : nat) (depth : Z) (token : bytes) (next : compiled_cursor) (s : seeker) (acc : rawres) :
  res SyntaxError (seeker * rawres) :=
  match fuel with
  | O => NoFuel
  | S fuel =>
    let s := s_skip src s in
    match src !! s_i s with
    | None => t_finish s acc
    | Some c =>
      if c =? "}"%ch then t_finish (s_next s) acc
      else if negb (c =? DQUOTE) then Ok (s, raw_none)
      else
      let* (keyStart, keyEnd, escaped, i) := scanKey (s_i s) in
      let* matched := trustedKeyMatches token keyStart keyEnd escaped in
      let s := s_skip src (mkSeek i (s_done s)) in
      if negb (at_byte src (s_i s) ":"%ch) then Ok (s, raw_none)
      else
      let s := s_skip src (s_next s) in
      let close s acc :=
      let s := s_skip src s in
      match src !! s_i s with
      | None => t_finish s acc
      | Some c =>
        if c =? ","%ch then t_object_loop fuel depth token next (s_next s) acc
        else if c =? "}"%ch then t_finish (s_next s) acc
        else Ok (s, raw_none)
      end in
      if (matched : bool) then
      let* found := find depth next s in
      t_after_find false close acc None found
      else
      let* s := t_skipValue depth s in
      close s acc
    end
  end.

Definition t_findObject (depth : Z) (k : compiled_cursor) (s : seeker) : res SyntaxError (seeker * rawres) :=
  if maxDepth <? depth then v_err src (s_i s) "maximum nesting depth exceeded"
  else
  match path_key k with
  | Err e => Ok (s, raw_fail e)
  | Panic => Panic
  | NoFuel => NoFuel
  | Ok token => t_object_loop (S (length src)) depth token (path_next k) (s_next s) raw_none
  end.

Definition t_find_body (depth : Z) (k : compiled_cursor) (s : seeker) : res SyntaxError (seeker * rawres) :=
  if path_done k then t_capture depth s
  else if maxDepth <? depth then v_err src (s_i s) "maximum nesting depth exceeded"
  else
  match src !! s_i s with
  | None => Ok (s, raw_none)
  | Some c =>
    if c =? "{"%ch then t_findObject (depth + 1) k s
    else if c =? "["%ch then t_findArray (depth + 1) k s
    else let* s := t_skipValue depth s in Ok (s, raw_none)
  end.
End Walk.

(** Each level takes a token. *)
Fixpoint t_find (fuel : nat) (depth : Z) (k : compiled_cursor) (s : seeker) : res SyntaxError (seeker * rawres) :=
  match fuel with
  | O => NoFuel
  | S fuel => t_find_body (t_find fuel) depth k s
  end.
End Trusted.

(** [trustedSeeker.find] from the start of the source. *)
Definition trusted_lookup (src : bytes) (maxDepth : Z) (lastWins : bool) (p : CompiledPointer) : res raw_error (bytes * bool) :=
  let s := s_skip src (mkSeek 0 false) in
  let* r := raw_result (t_find src maxDepth lastWins (S (length (Tokens p))) 0 (mkComp p 0) s) in
  let* (_, raw) := raw_checked r in Ok raw.

Definition compiled_ScanFirstRawTrustedOptions (p : CompiledPointer) (src : bytes) (opts : Options) : res raw_error (bytes * bool) :=
  trusted_lookup src (maxDepthOrDefault (MaxDepth opts)) false p.

Definition ScanFirstRawTrustedOptions (src pointer : bytes) (opts : Options) : res raw_error (bytes * bool) :=
  match CompilePointer pointer with
  | Ok p => compiled_ScanFirstRawTrustedOptions p src opts
  | Err e => Err (RPointer e)
  | Panic => Panic
  | NoFuel => NoFuel
  end.

Definition ScanFirstRawTrusted (src pointer : bytes) := ScanFirstRawTrustedOptions src pointer (mkOptions 0 false).
Definition compiled_ScanFirstRawTrusted (p : CompiledPointer) (src : bytes) := compiled_ScanFirstRawTrustedOptions p src (mkOptions 0 false).
Definition GetRawTrusted (p : CompiledPointer) (src : bytes) : res raw_error (bytes * bool) := trusted_lookup src DefaultMaxDepth true p.

Example trusted_example :
  let src := js " {'a':[1,{'b':2}],'c':'}','a':[3,{'\u0062':[4]}]} " in
  (ScanFirstRawTrusted src (bs "/a/1/b"), ScanFirstRaw src (bs "/a/1/b"), ScanFirstRawTrusted src (bs "/a/x"), ScanFirstRawTrusted src (bs "/z")) =
  (Ok (bs "2", true), Ok (bs "2", true), ScanFirstRaw src (bs "/a/x"), Ok ([], false)) /\
  (let* p := raw_result match CompilePointer (bs "/a/1/b") with Ok p => Ok p | _ => Panic end in GetRawTrusted p src) = Ok (bs "[4]", true).
Proof. split; vm_compute; reflexivity. Qed.

(** ** Keys of a valid source *)

Section Keys.
Context (src : bytes).
Hypothesis Hsrc : bytes_ok src.

Lemma scan_key_loop_spec fuel i escaped q : (i <= length src)%nat -> (length src - i < fuel)%nat -> quote_at (drop i src) i false = Some q ->
  scan_key_loop src fuel i escaped = Ok (q, escaped || has_bs (slice src i q), S q).
Proof using Hsrc.
  revert i escaped. induction fuel as [|fuel IH]; intros i escaped Hi Hf Hq; [lia|]. cbn [scan_key_loop]. pose proof (syntax_step src Hsrc i Hi) as (Hj & Hplain & Hsame). cbv zeta.
  apply has_bs_plain in Hplain. set (j := scanStringSyntax src i) in *. clearbody j. rewrite Hsame in Hq. pose proof (quote_at_range _ _ _ _ Hq) as Hr. rewrite length_drop in Hr.
  destruct (src !! j) as [c|] eqn:E; [|apply lookup_ge_None in E; lia]. rewrite (has_bs_step src i j q) by (done || lia).
  destruct (Z.eqb_spec c DQUOTE) as [->|Hne].
  { rewrite (lookup_Some_drop _ _ _ E) in Hq. injection Hq as <-. by rewrite slice_refl, orb_false_r. }
  rewrite (quote_at_over src j c E Hne) in Hq. destruct (Z.eqb_spec c BSLASH) as [Eb|Hb].
  - rewrite Eb in E. rewrite quote_at_escaped in Hq. replace (j + 2)%nat with (S (S j)) by lia. pose proof (quote_at_range _ _ _ _ Hq) as Hr2. rewrite length_drop in Hr2.
    rewrite (proj2 (Nat.ltb_ge _ _)) by lia. rewrite IH by (done || lia). by rewrite (has_bs_head src j q), orb_true_r by (done || lia).
  - pose proof (quote_at_range _ _ _ _ Hq) as Hr2. rewrite IH by (done || lia). do 4 f_equal. symmetry. apply has_bs_step; [lia..|].
    rewrite (slice_cons src j (S j) c) by (done || lia). rewrite slice_refl. cbn. by rewrite (proj2 (Z.eqb_neq c BSLASH) Hb).
Qed.

(** A key or string token: where its content is. *)
Lemma scanKey_ref i j name : src !! i = Some DQUOTE -> ref_str src i = Ok (j, name) ->
  exists stop escaped, j = S stop /\ (S i <= stop < length src)%nat /\ scanKey src i = Ok (S i, stop, escaped, j) /\
    (escaped = false -> slice src (S i) stop = name).
Proof using Hsrc.
  intros Hi Hr. pose proof (parseStringRaw_ref src Hsrc i Hi) as Hp. rewrite Hr in Hp. destruct Hp as (stop & ? & -> & Hst & _ & Hu & _).
  pose proof (ref_str_sound src Hsrc i Hi) as Hs. rewrite Hr in Hs. destruct Hs as (_ & key & Hk & Hjs).
  assert (Hq : quote_at (drop (S i) src) (S i) false = Some stop).
  { pose proof (span_len _ _ _ _ Hk) as Hl. destruct Hk as (Hd & _). replace (drop (S i) src) with (drop 1 (key ++ drop (S stop) src)) by (rewrite <- Hd, drop_drop; f_equal; lia).
    rewrite (quote_at_string _ _ _ _ Hjs). f_equal. assert (length key >= 2)%nat by (destruct Hjs; cbn [length]; rewrite length_app; cbn; lia). lia. }
  exists stop, (has_bs (slice src (S i) stop)). split_and!; [done|lia|lia| |].
  - unfold scanKey. by rewrite (scan_key_loop_spec _ _ _ stop) by (done || lia).
  - intros Hb. rewrite (unescape_clean _ Hb) in Hu. congruence.
Qed.

Lemma trustedKeyMatches_ref i stop j name escaped token : src !! i = Some DQUOTE -> ref_str src i = Ok (j, name) -> (S i <= stop < length src)%nat ->
  (escaped = false -> slice src (S i) stop = name) -> trustedKeyMatches src token (S i) stop escaped = Ok (bool_decide (name = token)).
Proof using Hsrc.
  intros Hi Hr Hst He. unfold trustedKeyMatches. destruct escaped; cbn [negb].
  - replace (S i - 1)%nat with i by lia. apply lookup_lt_Some in Hi. by rewrite p_parseString_ref, Hr by done.
  - rewrite (proj2 (Nat.leb_le _ _)), (proj2 (Nat.leb_le _ _)) by lia. by rewrite He.
Qed.

Lemma delimited_at j c : src !! ref_ws src j = Some c -> ends_scalar c = true -> delimited src j.
Proof using.
  unfold delimited, ref_ws. rewrite stops_lookup. intros H Hc. rewrite advance_unfold in H. destruct (src !! j) as [d|] eqn:E; [|done].
  destruct (IsJSONWhitespace d) eqn:Ew; [unfold IsJSONWhitespace, ends_scalar in *; lia|]. rewrite E in H. injection H as ->. by rewrite Hc.
Qed.

Lemma delimited_end j : ref_ws src j = length src -> delimited src j.
Proof using.
  unfold delimited, ref_ws. rewrite stops_lookup. intros H. rewrite advance_unfold in H. destruct (src !! j) as [d|] eqn:E; [|done].
  apply lookup_lt_Some in E. destruct (IsJSONWhitespace d) eqn:Ew; [unfold IsJSONWhitespace, ends_scalar in *; lia|]. lia.
Qed.
End Keys.

(** ** The lookup on a valid source *)

Section Valid.
Context (src : bytes) (maxDepth : Z) (lastWins : bool).
Hypothesis Hsrc : bytes_ok src.
Abbreviation stop := (negb lastWins).
Abbreviation rv := (ref_value src maxDepth unexpected_byte).

(** What a loop holds of the outcome so far. *)
Definition held (o : outcome) : rawres := if lastWins then out o else raw_none.
Definition open_yet (o : outcome) : Prop := stop = true -> decided o = false.

Lemma held_absent : r_err (held Absent) = None.
Proof using. unfold held. by destruct lastWins. Qed.

Lemma finish_lands s o : s_done s = false -> open_yet o -> lands stop (t_finish lastWins s (held o)) (s_i s) o.
Proof using.
  unfold open_yet, lands, t_finish, held. destruct s as [i d]. cbn [s_done s_i]. intros -> Ho. destruct lastWins; cbn [negb andb] in *; [done|]. specialize (Ho eq_refl). rewrite Ho. by destruct o.
Qed.

Lemma after_find_lands always close keep o o' j r : lands stop r j o' -> (lastWins = true -> keep = None) -> open_yet o ->
  if stop && decided o' then forall j', lands stop (let* found := r in t_after_find lastWins always close (held o) keep found) j' o'
  else (let* found := r in t_after_find lastWins always close (held o) keep found) = close (mkSeek j false) (held o').
Proof using.
  unfold lands, open_yet, held, t_after_find. destruct lastWins; cbn [negb andb].
  - intros -> Hk _. cbn [res_bind s_done]. rewrite (Hk eq_refl). by destruct o'.
  - destruct (decided o') eqn:E.
    + intros (i & ->) _ _ j'. exists i. cbn [res_bind s_done]. rewrite orb_true_r. destruct o'; done.
    + intros -> _ Ho. cbn [res_bind s_done]. by destruct o'.
Qed.

Section WalkRef.
Context (find : Z -> compiled_cursor -> seeker -> res SyntaxError (seeker * rawres)).
Context (rvf : Z -> nat -> res rerr (nat * tree)) (depth : Z) (bound : nat).
Context (next : compiled_cursor) (path : list bytes).
Hypothesis Hfind : forall i j t, (bound <= i <= length src)%nat -> rvf depth i = Ok (j, t) -> delimited src j ->
  lands stop (find depth next (mkSeek i false)) j (resolve stop path t).
Hypothesis Hskip : forall i j t, (bound <= i <= length src)%nat -> rvf depth i = Ok (j, t) -> delimited src j ->
  t_skipValue src maxDepth depth (mkSeek i false) = Ok (mkSeek j false).
Hypothesis Hrd : forall i, (bound <= i <= length src)%nat -> reads src (maxDepth - depth) i (rvf depth i).

Lemma t_array_loop_ref index fuel i elem o acc e l :
  (bound <= i <= length src)%nat -> (length src - i < fuel)%nat -> open_yet o -> (forall n, index = Some n -> elem <= n -> o = Absent) ->
  ref_elems src rvf fuel depth i acc = Ok (e, l) ->
  exists ts, l = acc ++ ts /\ lands stop (t_array_loop src maxDepth lastWins find fuel depth index next elem (mkSeek i false) (held o)) e (scan_from stop path index elem o ts).
Proof using Hfind Hskip Hrd Hsrc.
  revert i elem o acc. induction fuel as [|fuel IH]; intros i elem o acc Hi Hfu Hu Ho Hr; [lia|]. cbn [t_array_loop ref_elems] in *.
  rewrite (s_skip_ref src Hsrc) by lia. pose proof (ref_ws_le src i ltac:(lia)) as H1. set (i1 := ref_ws src i) in *. cbv zeta in *. set (close := fun s acc => _).
  specialize (Hrd i1 ltac:(lia)) as Hread. destruct (rvf depth i1) as [[j t]|[p m]| |] eqn:Erv; [|done..]. cbn [res_bind] in Hr. apply reads_span in Hread as [Hj _].
  pose proof (ref_ws_le src j ltac:(lia)) as H2. destruct (src !! ref_ws src j) as [c|] eqn:Ec; [|done]. apply lookup_lt_Some in Ec as Hlt.
  assert (Hd : delimited src j). { apply (delimited_at src j c Ec). unfold ends_scalar. destruct (c =? ","%ch) eqn:?; [lia|]. destruct (c =? "]"%ch) eqn:?; [lia|done]. }
  set (o' := if bool_decide (index = Some elem) then resolve stop path t else o).
  assert (Hclose : open_yet o' -> exists ts, l = acc ++ t :: ts /\ lands stop (close (mkSeek j false) (held o')) e (scan_from stop path index elem o (t :: ts))).
  { intros Hu'. unfold close. rewrite (s_skip_ref src Hsrc) by lia. cbn [s_i]. rewrite Ec. destruct (c =? ","%ch).
    - unfold s_next. cbn [s_i s_done]. destruct (IH (S (ref_ws src j)) (elem + 1) o' (acc ++ [t]) ltac:(lia) ltac:(lia) Hu') as (ts & -> & Hl); [|done|].
      + intros n -> Hn. unfold o'. rewrite bool_decide_eq_false_2 by (intros [=]; lia). apply (Ho n); [done|lia].
      + exists ts. rewrite <- app_assoc. split; [done|]. by rewrite scan_from_cons.
    - destruct (c =? "]"%ch); [|done]. injection Hr as <- <-. exists []. split; [done|]. rewrite scan_from_cons. fold o'.
      assert (Hs : scan_from stop path index (elem + 1) o' [] = o') by (unfold scan_from; destruct index as [n|]; [by destruct (n <? elem + 1)|done]). rewrite Hs.
      by apply (finish_lands (mkSeek (S (ref_ws src j)) false)). }
  destruct (bool_decide (index = Some elem)) eqn:Eidx.
  - apply bool_decide_eq_true_1 in Eidx. assert (o = Absent) as -> by (apply (Ho elem); [done|lia]). pose proof (Hfind i1 j t ltac:(lia) Erv Hd) as Hl.
    pose proof (after_find_lands true close (r_err (held Absent)) Absent _ _ _ Hl (fun _ => held_absent) Hu) as Ha. destruct (stop && decided (resolve stop path t)) eqn:Ed.
    + assert (Hts : exists ts, l = acc ++ t :: ts).
      { destruct (c =? ","%ch); [|destruct (c =? "]"%ch); [|done]; injection Hr as _ <-; by exists []].
        pose proof (ref_elems_sound src maxDepth rvf depth bound Hrd fuel (S (ref_ws src j)) (acc ++ [t]) ltac:(lia) ltac:(lia)) as Hs. rewrite Hr in Hs.
        destruct Hs as (_ & _ & ts & _ & -> & _). exists ts. by rewrite <- app_assoc. }
      destruct Hts as (ts & ->). exists (t :: ts). split; [done|]. rewrite scan_from_cons, bool_decide_eq_true_2 by done. rewrite scan_from_done; [apply Ha|]. intros n. rewrite Eidx. intros [=]. lia.
    + rewrite Ha. destruct Hclose as (ts & -> & Hc); [|by exists (t :: ts)]. intros Hs. apply andb_false_iff in Ed as [?|?]; [congruence|done].
  - rewrite (Hskip i1 j t) by (done || lia). cbn [res_bind]. destruct (Hclose Hu) as (ts & -> & Hc). by exists (t :: ts).
Qed.

Lemma t_object_loop_ref tok fuel i o acc e l :
  (bound <= i <= length src)%nat -> (length src - i < fuel)%nat -> open_yet o -> ref_members src rvf fuel depth i acc = Ok (e, l) ->
  exists ms, l = acc ++ ms /\ lands stop (t_object_loop src maxDepth lastWins find fuel depth tok next (mkSeek i false) (held o)) e (pick stop path tok o ms).
Proof using Hfind Hskip Hrd Hsrc.
  revert i o acc. induction fuel as [|fuel IH]; intros i o acc Hi Hfu Hu Hr; [lia|]. cbn [t_object_loop ref_members] in *.
  rewrite (s_skip_ref src Hsrc) by lia. pose proof (ref_ws_le src i ltac:(lia)) as H1. set (i1 := ref_ws src i) in *. cbv zeta in *. cbn [s_i s_done] in *.
  destruct (at_byte src i1 DQUOTE) eqn:Eq; [|done]. apply at_byte_spec in Eq. rewrite Eq. cbn [Z.eqb Pos.eqb negb].
  destruct (ref_str src i1) as [[j1 name]|[p m]| |] eqn:Ers; [|done..]. cbn [res_bind] in Hr. destruct (scanKey_ref src Hsrc i1 j1 name Eq Ers) as (kstop & escaped & -> & Hk & -> & Hesc).
  cbn [res_bind]. rewrite (trustedKeyMatches_ref src Hsrc i1 kstop (S kstop) name) by done. cbn [res_bind]. rewrite (s_skip_ref src Hsrc) by lia. cbn [s_i].
  pose proof (ref_ws_le src (S kstop) ltac:(lia)) as H2. set (i3 := ref_ws src (S kstop)) in *. destruct (at_byte src i3 ":"%ch) eqn:Hc; [|done]. cbn [negb]. apply at_byte_lt in Hc.
  change (s_next (mkSeek i3 false)) with (mkSeek (S i3) false). rewrite (s_skip_ref src Hsrc) by lia. pose proof (ref_ws_le src (S i3) ltac:(lia)) as H3. set (i4 := ref_ws src (S i3)) in *.
  set (close := fun s acc => _). set (key := slice src i1 (S kstop)) in *.
  specialize (Hrd i4 ltac:(lia)) as Hread. destruct (rvf depth i4) as [[j t]|[p m]| |] eqn:Erv; [|done..]. cbn [res_bind] in Hr. apply reads_span in Hread as [Hj _].
  pose proof (ref_ws_le src j ltac:(lia)) as H4. destruct (src !! ref_ws src j) as [c|] eqn:Ec; [|done]. apply lookup_lt_Some in Ec as Hlt.
  assert (Hd : delimited src j). { apply (delimited_at src j c Ec). unfold ends_scalar. destruct (c =? ","%ch) eqn:?; [lia|]. destruct (c =? "}"%ch) eqn:?; [lia|done]. }
  set (o' := if bool_decide (name = tok) then resolve stop path t else o).
  assert (Hclose : open_yet o' -> exists ms, l = acc ++ (((key, name), t) :: ms) /\ lands stop (close (mkSeek j false) (held o')) e (pick stop path tok o (((key, name), t) :: ms))).
  { intros Hu'. unfold close. rewrite (s_skip_ref src Hsrc) by lia. cbn [s_i]. rewrite Ec. destruct (c =? ","%ch).
    - unfold s_next. cbn [s_i s_done]. destruct (IH (S (ref_ws src j)) o' (acc ++ [((key, name), t)]) ltac:(lia) ltac:(lia) Hu' Hr) as (ms & -> & Hl).
      exists ms. rewrite <- app_assoc. split; [done|]. by rewrite pick_cons.
    - destruct (c =? "}"%ch); [|done]. injection Hr as <- <-. exists []. split; [done|]. rewrite pick_cons by done. cbn [fst snd]. fold o'.
      by apply (finish_lands (mkSeek (S (ref_ws src j)) false)). }
  destruct (bool_decide (name = tok)) eqn:Eidx.
  - pose proof (Hfind i4 j t ltac:(lia) Erv Hd) as Hl. pose proof (after_find_lands false close None o _ _ _ Hl ltac:(done) Hu) as Ha. destruct (stop && decided (resolve stop path t)) eqn:Ed.
    + assert (Hms : exists ms, l = acc ++ (((key, name), t) :: ms)).
      { destruct (c =? ","%ch); [|destruct (c =? "}"%ch); [|done]; injection Hr as _ <-; by exists []].
        pose proof (ref_members_sound src maxDepth Hsrc rvf depth bound Hrd fuel (S (ref_ws src j)) (acc ++ [((key, name), t)]) ltac:(lia) ltac:(lia)) as Hs. rewrite Hr in Hs.
        destruct Hs as (_ & _ & ms & _ & -> & _). exists ms. by rewrite <- app_assoc. }
      destruct Hms as (ms & ->). eexists. split; [done|]. rewrite pick_cons by done. cbn [fst snd]. rewrite Eidx. apply andb_true_iff in Ed as [Hs Hdec]. unfold pick. rewrite Hs in *. rewrite foldl_select_decided by done. apply Ha.
    + rewrite Ha. destruct Hclose as (ms & -> & Hcl); [|by eexists]. intros Hs. apply andb_false_iff in Ed as [?|?]; [congruence|done].
  - rewrite (Hskip i4 j t) by (done || lia). cbn [res_bind]. destruct (Hclose Hu) as (ms & -> & Hcl). by eexists.
Qed.
End WalkRef.

Lemma t_skip_ref fuel depth i j t d : (i <= length src)%nat -> (length src - i < fuel)%nat -> rv fuel depth i = Ok (j, t) -> delimited src j ->
  t_skipValue src maxDepth depth (mkSeek i d) = Ok (mkSeek j d).
Proof using Hsrc.
  intros Hi Hf Hr Hd. pose proof (ref_value_sound src maxDepth unexpected_byte Hsrc fuel depth i Hi Hf) as Hs. rewrite Hr in Hs. destruct Hs as (Hj & s & Hspan & Hv).
  unfold t_skipValue. cbn [s_i s_done]. by rewrite (skipValueTrusted_valid src Hsrc maxDepth depth i s j t).
Qed.

Section Containers.
Context (find : Z -> compiled_cursor -> seeker -> res SyntaxError (seeker * rawres)) (fuel : nat) (depth : Z) (i : nat).
Hypothesis Hi : (i < length src)%nat.
Hypothesis Hf : (length src - i <= fuel)%nat.
Context (k : compiled_cursor) (tok : bytes) (path : list bytes).
Hypothesis Hk : compiled_rep k (tok :: path).
Hypothesis Hfind : forall i' j t, (S i <= i' <= length src)%nat -> rv fuel depth i' = Ok (j, t) -> delimited src j ->
  lands stop (find depth (path_next k) (mkSeek i' false)) j (resolve stop path t).

Lemma level_skip i' j t : (S i <= i' <= length src)%nat -> rv fuel depth i' = Ok (j, t) -> delimited src j ->
  t_skipValue src maxDepth depth (mkSeek i' false) = Ok (mkSeek j false).
Proof using Hsrc Hf Hi. intros Hb. apply t_skip_ref; lia. Qed.

Lemma level_reads i' : (S i <= i' <= length src)%nat -> reads src (maxDepth - depth) i' (rv fuel depth i').
Proof using Hsrc Hf Hi. intros Hb. apply ref_value_sound; [done|lia..]. Qed.

Lemma t_findArray_ref j t : ref_array src maxDepth (rv fuel) depth i = Ok (j, t) ->
  t_skipValue src maxDepth (depth - 1) (mkSeek i false) = Ok (mkSeek j false) ->
  lands stop (t_findArray src maxDepth lastWins find depth k (mkSeek i false)) j (resolve stop (tok :: path) t).
Proof using Hsrc Hi Hf Hk Hfind.
  intros Hr Hself. unfold t_findArray, ref_array in *. cbn [s_i]. destruct (maxDepth <? depth); [done|]. cbv zeta in *.
  rewrite (path_index_law (rep:=compiled_rep) k tok path Hk). change (s_next (mkSeek i false)) with (mkSeek (S i) false). rewrite (s_skip_ref src Hsrc) by lia.
  pose proof (ref_ws_le src (S i) ltac:(lia)) as Hle. set (j0 := ref_ws src (S i)) in *. cbn [s_i s_done].
  assert (Harr : exists raw ts, t = TArr raw ts).
  { destruct (at_byte src j0 "]"%ch); [injection Hr as _ <-; eauto|]. destruct (ref_elems _ _ _ _ _ _) as [[]| | |]; [|done..]. injection Hr as _ <-. eauto. }
  destruct (parsePointerIndex tok) as [e|index] eqn:Hidx.
  - destruct Harr as (raw & ts & ->). assert (Hfail : resolve stop (tok :: path) (TArr raw ts) = Failed e) by (cbn [resolve]; by rewrite Hidx).
    rewrite Hfail. unfold lands. destruct lastWins; cbn [negb andb decided]; [by rewrite Hself|by exists i].
  - clear Hself Harr. destruct (at_byte src j0 "]"%ch).
    { injection Hr as <- <-. cbn [resolve]. rewrite Hidx. unfold lands.
      assert (Ha : match index with Some n => match @nil tree !! Z.to_nat n with Some t => resolve stop path t | None => Absent end | None => Absent end = Absent) by by destruct index.
      rewrite Ha. by rewrite andb_false_r. }
    destruct (ref_elems src (rv fuel) _ depth j0 []) as [[e l]| | |] eqn:El; [|done..]. cbn [res_bind] in Hr. injection Hr as <- <-.
    destruct (t_array_loop_ref find (rv fuel) depth (S i) (path_next k) path Hfind level_skip level_reads index (S (length src)) j0 0 Absent [] e l ltac:(lia) ltac:(lia) ltac:(done) ltac:(done) El)
      as (ts & -> & Hl). cbn [app resolve]. rewrite Hidx. unfold scan_from in Hl. assert (Eh : held Absent = raw_none) by (unfold held; by destruct lastWins). rewrite Eh in Hl.
    destruct index as [n|]; [|done]. apply parsePointerIndex_nonneg in Hidx. rewrite (proj2 (Z.ltb_ge n 0)) in Hl by done. by rewrite Z.sub_0_r in Hl.
Qed.

Lemma t_findObject_ref j t : ref_object src maxDepth (rv fuel) depth i = Ok (j, t) ->
  lands stop (t_findObject src maxDepth lastWins find depth k (mkSeek i false)) j (resolve stop (tok :: path) t).
Proof using Hsrc Hi Hf Hk Hfind.
  intros Hr. unfold t_findObject, ref_object in *. cbn [s_i]. destruct (maxDepth <? depth); [done|]. cbv zeta in *.
  rewrite (path_key_law (rep:=compiled_rep) k tok path Hk). change (s_next (mkSeek i false)) with (mkSeek (S i) false).
  pose proof (ref_ws_le src (S i) ltac:(lia)) as Hle. assert (Eh : held Absent = raw_none) by (unfold held; by destruct lastWins).
  destruct (at_byte src (ref_ws src (S i)) "}"%ch) eqn:Eb.
  { injection Hr as <- <-. cbn [t_object_loop resolve]. rewrite (s_skip_ref src Hsrc) by lia. cbn [s_i]. apply at_byte_spec in Eb. rewrite Eb. cbn [Z.eqb Pos.eqb].
    rewrite <- Eh. by apply (finish_lands (mkSeek (S (ref_ws src (S i))) false) Absent). }
  destruct (ref_members src (rv fuel) _ depth _ []) as [[e l]| | |] eqn:El; [|done..]. cbn [res_bind] in Hr. injection Hr as <- <-.
  rewrite ref_ws_members in El by lia.
  destruct (t_object_loop_ref find (rv fuel) depth (S i) (path_next k) path Hfind level_skip level_reads tok (S (length src)) (S i) Absent [] e l ltac:(lia) ltac:(lia) ltac:(done) El)
    as (ms & -> & Hl). by rewrite Eh in Hl.
Qed.
End Containers.

(** The seeker at a value does what [resolve] says of its tree. *)
Lemma t_find_ref tf fuel depth k path i j t : compiled_rep k path -> (length path < tf)%nat -> (i <= length src)%nat -> (length src - i < fuel)%nat ->
  rv fuel depth i = Ok (j, t) -> delimited src j -> lands stop (t_find src maxDepth lastWins tf depth k (mkSeek i false)) j (resolve stop path t).
Proof using Hsrc.
  revert fuel depth k path i j t. induction tf as [|tf IH]; intros fuel depth k path i j t Hk Htf Hi Hf Hr Hd; [lia|]. cbn [t_find]. unfold t_find_body.
  rewrite (path_done_law (rep:=compiled_rep) k path Hk). pose proof (t_skip_ref fuel depth i j t false Hi Hf Hr Hd) as Hself.
  pose proof (ref_value_sound src maxDepth unexpected_byte Hsrc fuel depth i Hi Hf) as Hread. rewrite Hr in Hread. apply reads_span in Hread as [Hj Hslice].
  case_bool_decide as Hp.
  { subst path. unfold t_capture. cbn [s_i]. rewrite Hself. cbn [res_bind s_i s_done resolve]. rewrite (proj2 (Nat.eqb_neq j i)) by lia.
    unfold lands. destruct lastWins; cbn [negb andb decided s_i]; rewrite Hslice; [done|by exists j]. }
  destruct path as [|tok path]; [done|]. cbn [s_i]. destruct fuel as [|fuel]; [lia|]. cbn [ref_value] in Hr. unfold ref_body in Hr. destruct (maxDepth <? depth); [done|].
  destruct (src !! i) as [c|] eqn:E; [|done]. apply lookup_lt_Some in E as Hlt.
  assert (HF : forall i' j t, (S i <= i' <= length src)%nat -> rv fuel (depth + 1) i' = Ok (j, t) -> delimited src j ->
    lands stop (t_find src maxDepth lastWins tf (depth + 1) (path_next k) (mkSeek i' false)) j (resolve stop path t)).
  { intros i' j' t' Hb Hr' Hd'. apply (IH fuel); [by apply (path_next_law (rep:=compiled_rep) k tok)|cbn [length] in Htf; lia|lia|lia|done|done]. }
  destruct (Z.eqb_spec c "{"%ch) as [->|Hob]; [cbn [Z.eqb Pos.eqb] in Hr; apply (t_findObject_ref _ fuel); [done|lia|done|done|done]|].
  destruct (Z.eqb_spec c "["%ch) as [->|Hab].
  { cbn [Z.eqb Pos.eqb] in Hr. apply (t_findArray_ref _ fuel); [done|lia|done|done|done|]. by replace (depth + 1 - 1) with depth by lia. }
  rewrite Hself. cbn [res_bind]. rewrite resolve_scalar; [unfold lands; by rewrite andb_false_r|]. revert Hr. clear. unfold ref_lit, ref_num.
  destruct (scanNumber src i) as [j' [|]]; destruct (ref_str src i) as [[]|[]| |]; cbn [res_bind]; repeat case_step; intros; by simplify_eq.
Qed.
End Valid.

(** What the answer of a decided outcome is. *)
Definition outcome_result (o : outcome) : res raw_error (bytes * bool) := match o with Failed e => Err (RPointer e) | o => Ok (answer o) end.

Lemma trusted_lookup_doc src maxDepth lastWins p path ts t : bytes_ok src -> Forall2 token_for path ts -> jdoc maxDepth src t ->
  trusted_lookup src maxDepth lastWins (mkCompiled p ts) = outcome_result (resolve (negb lastWins) path t).
Proof.
  intros Hsrc Hf (j & Hv & Hj)%first_value_doc. unfold trusted_lookup. cbn [Tokens]. rewrite (s_skip_ref src Hsrc) by lia. pose proof (ref_ws_le src 0 ltac:(lia)) as H0.
  pose proof (t_find_ref src maxDepth lastWins Hsrc (S (length ts)) (S (length src)) 0 (mkComp (mkCompiled p ts) 0) path (ref_ws src 0) j t (compiled_start p path ts Hf)) as Hl.
  apply Forall2_length in Hf. specialize (Hl ltac:(lia) ltac:(lia) ltac:(lia) Hv (delimited_end src j Hj)).
  assert (Hout : forall s o, (let* r := raw_result (Ok (s, out o)) in let* (_, raw) := raw_checked r in Ok raw) = outcome_result o) by (intros s [t'| |e]; done).
  unfold lands in Hl. destruct (negb lastWins && decided _); [destruct Hl as (i & ->)|rewrite Hl]; apply Hout.
Qed.

(** ** The lookup on any source *)

Section Safe.
Context (src : bytes) (maxDepth : Z) (lastWins : bool).
Hypothesis Hsrc : bytes_ok src.

(** A step that returns, with a cursor inside the source and not before [lo]. *)
Definition safe {A} (cursor : A -> nat) (lo : nat) (r : res SyntaxError A) : Prop :=
  (exists a, r = Ok a /\ (lo <= cursor a <= length src)%nat) \/ exists e, r = Err e.

Abbreviation safe_find := (safe (fun x : seeker * rawres => s_i x.1)).

Lemma safe_ok {A} (cursor : A -> nat) lo a : (lo <= cursor a <= length src)%nat -> safe cursor lo (Ok a).
Proof using. intros H. left. by exists a. Qed.

Lemma safe_bind {A B} (ca : A -> nat) (cb : B -> nat) lo (r : res SyntaxError A) (f : A -> res SyntaxError B) :
  safe ca lo r -> (forall a, (lo <= ca a <= length src)%nat -> safe cb (ca a) (f a)) -> safe cb lo (let* a := r in f a).
Proof using.
  intros [(a & -> & Ha)|(e & ->)] Hf; [|right; by exists e]. cbn [res_bind]. destruct (Hf a Ha) as [(b & -> & Hb)|He]; [left; exists b; split; [done|lia]|by right].
Qed.

Lemma safe_weaken {A} (c : A -> nat) lo lo' r : (lo' <= lo)%nat -> safe c lo r -> safe c lo' r.
Proof using. intros Hl [(a & -> & Ha)|He]; [left; exists a; split; [done|lia]|by right]. Qed.

Lemma t_skip_safe depth s : (s_i s <= length src)%nat -> safe s_i (s_i s) (t_skipValue src maxDepth depth s).
Proof using Hsrc.
  intros Hs. unfold t_skipValue. destruct (skipValueTrusted_safe src Hsrc maxDepth depth (s_i s) Hs) as [(j & -> & Hj)|(e & ->)]; [by apply safe_ok|right; by exists e].
Qed.

Lemma skip_space_safe s : (s_i s <= length src)%nat -> (s_i s <= s_i (s_skip src s) <= length src)%nat.
Proof using Hsrc. intros Hs. destruct s as [i d]. rewrite (s_skip_ref src Hsrc) by done. by apply ref_ws_le. Qed.

Lemma scan_key_safe fuel i escaped : (i <= length src)%nat -> (length src - i < fuel)%nat ->
  exists stop e j, scan_key_loop src fuel i escaped = Ok (stop, e, j) /\ (i <= stop <= length src)%nat /\ (i <= j <= length src)%nat.
Proof using Hsrc.
  revert i escaped. induction fuel as [|fuel IH]; intros i escaped Hi Hf; [lia|]. cbn [scan_key_loop]. pose proof (syntax_step src Hsrc i Hi) as (Hj & _). cbv zeta.
  set (j := scanStringSyntax src i) in *. clearbody j. destruct (src !! j) as [c|] eqn:E; [|by eexists _, _, _; split; [done|lia]]. apply lookup_lt_Some in E.
  destruct (c =? DQUOTE); [by eexists _, _, _; split; [done|lia]|]. destruct (c =? BSLASH).
  - destruct (Nat.ltb_spec (length src) (j + 2)); [by eexists _, _, _; split; [done|lia]|].
    destruct (IH (j + 2)%nat true) as (stop & e & j' & -> & ? & ?); [lia..|]. eexists _, _, _. split; [done|lia].
  - destruct (IH (S j) escaped) as (stop & e & j' & -> & ? & ?); [lia..|]. eexists _, _, _. split; [done|lia].
Qed.

Lemma key_matches_safe token i stop escaped : src !! i = Some DQUOTE -> (S i <= stop <= length src)%nat -> exists b, trustedKeyMatches src token (S i) stop escaped = Ok b.
Proof using Hsrc.
  intros Hi Hst. unfold trustedKeyMatches. destruct escaped; cbn [negb].
  - replace (S i - 1)%nat with i by lia. pose proof (ref_str_sound src Hsrc i Hi) as Hs. apply lookup_lt_Some in Hi. rewrite p_parseString_ref by done.
    destruct (ref_str src i) as [[]|[]| |]; cbn [as_syntax id]; first [done|by eexists].
  - rewrite (proj2 (Nat.leb_le _ _)), (proj2 (Nat.leb_le _ _)) by lia. by eexists.
Qed.

Lemma finish_safe s acc lo : (lo <= s_i s <= length src)%nat -> safe_find lo (t_finish lastWins s acc).
Proof using. intros Hs. by apply safe_ok. Qed.

Lemma after_find_safe always close acc keep lo r : safe_find lo r ->
  (forall s acc, (lo <= s_i s <= length src)%nat -> safe_find (s_i s) (close s acc)) -> safe_find lo (let* found := r in t_after_find lastWins always close acc keep found).
Proof using.
  intros Hr Hc. eapply safe_bind; [exact Hr|]. intros [s x] Hs. cbn [fst] in *. unfold t_after_find.
  repeat case_match; solve [by apply Hc|apply safe_ok; cbn [fst]; lia].
Qed.

Section Loops.
Context (find : Z -> compiled_cursor -> seeker -> res SyntaxError (seeker * rawres)) (depth : Z) (next : compiled_cursor).
Hypothesis Hfind : forall s, (s_i s <= length src)%nat -> safe_find (s_i s) (find depth next s).

Lemma t_array_safe index fuel elem s acc : (s_i s <= length src)%nat -> (length src - s_i s < fuel)%nat ->
  safe_find (s_i s) (t_array_loop src maxDepth lastWins find fuel depth index next elem s acc).
Proof using Hfind Hsrc.
  revert elem s acc. induction fuel as [|fuel IH]; intros elem s acc Hs Hf; [lia|]. cbn [t_array_loop]. pose proof (skip_space_safe s Hs) as H1.
  set (s1 := s_skip src s) in *. clearbody s1. cbv zeta. set (close := fun s acc => _). apply (safe_weaken _ (s_i s1)); [lia|].
  assert (Hclose : forall s' acc, (s_i s1 <= s_i s' <= length src)%nat -> safe_find (s_i s') (close s' acc)).
  { intros s' acc' Hs'. unfold close. pose proof (skip_space_safe s' ltac:(lia)) as H2. set (s2 := s_skip src s') in *. clearbody s2.
    destruct (src !! s_i s2) as [c|] eqn:E; [|apply finish_safe; lia]. apply lookup_lt_Some in E. destruct (c =? ","%ch).
    - apply (safe_weaken _ (s_i (s_next s2))); [cbn; lia|]. apply IH; cbn; lia.
    - destruct (c =? "]"%ch); [apply finish_safe|apply safe_ok]; cbn; lia. }
  case_bool_decide.
  - apply after_find_safe; [apply Hfind; lia|done].
  - eapply safe_bind; [apply t_skip_safe; lia|]. intros s' Hs'. by apply Hclose.
Qed.

Lemma t_object_safe tok fuel s acc : (s_i s <= length src)%nat -> (length src - s_i s < fuel)%nat ->
  safe_find (s_i s) (t_object_loop src maxDepth lastWins find fuel depth tok next s acc).
Proof using Hfind Hsrc.
  revert s acc. induction fuel as [|fuel IH]; intros s acc Hs Hf; [lia|]. cbn [t_object_loop]. pose proof (skip_space_safe s Hs) as H1.
  set (s1 := s_skip src s) in *. clearbody s1. cbv zeta. apply (safe_weaken _ (s_i s1)); [lia|].
  destruct (src !! s_i s1) as [c|] eqn:E; [|apply finish_safe; lia]. apply lookup_lt_Some in E as Hlt. destruct (c =? "}"%ch); [apply finish_safe; cbn; lia|].
  destruct (Z.eqb_spec c DQUOTE) as [->|]; cbn [negb]; [|apply safe_ok; cbn; lia]. unfold scanKey.
  destruct (scan_key_safe (S (length src)) (S (s_i s1)) false ltac:(lia) ltac:(lia)) as (kstop & esc & i & -> & Hk & Hi). cbn [res_bind].
  destruct (key_matches_safe tok (s_i s1) kstop esc E ltac:(lia)) as (b & ->). cbn [res_bind].
  pose proof (skip_space_safe (mkSeek i (s_done s1)) ltac:(cbn; lia)) as H2. set (s2 := s_skip src (mkSeek i _)) in *. clearbody s2. cbn [s_i] in H2.
  destruct (at_byte src (s_i s2) ":"%ch) eqn:Ec; cbn [negb]; [|apply safe_ok; cbn; lia]. apply at_byte_lt in Ec.
  pose proof (skip_space_safe (s_next s2) ltac:(cbn; lia)) as H3. set (s3 := s_skip src (s_next s2)) in *. clearbody s3. cbn [s_next s_i] in H3.
  set (close := fun s acc => _). apply (safe_weaken _ (s_i s3)); [lia|].
  assert (Hclose : forall s' acc, (s_i s3 <= s_i s' <= length src)%nat -> safe_find (s_i s') (close s' acc)).
  { intros s' acc' Hs'. unfold close. pose proof (skip_space_safe s' ltac:(lia)) as H4. set (s4 := s_skip src s') in *. clearbody s4.
    destruct (src !! s_i s4) as [d|] eqn:Ed; [|apply finish_safe; lia]. apply lookup_lt_Some in Ed. destruct (d =? ","%ch).
    - apply (safe_weaken _ (s_i (s_next s4))); [cbn; lia|]. apply IH; cbn; lia.
    - destruct (d =? "}"%ch); [apply finish_safe|apply safe_ok]; cbn; lia. }
  destruct b.
  - apply after_find_safe; [apply Hfind; lia|done].
  - eapply safe_bind; [apply t_skip_safe; lia|]. intros s' Hs'. by apply Hclose.
Qed.
End Loops.

Lemma t_find_safe p fuel depth i s : (length (Tokens p) - i < fuel)%nat -> (i <= length (Tokens p))%nat -> (s_i s <= length src)%nat ->
  safe_find (s_i s) (t_find src maxDepth lastWins fuel depth (mkComp p i) s).
Proof using Hsrc.
  revert depth i s. induction fuel as [|fuel IH]; intros depth i s Hf Hi Hs; [lia|]. cbn [t_find]. unfold t_find_body. cbn [path_done compiled_path cc_pointer cc_index].
  destruct (Nat.leb_spec (length (Tokens p)) i) as [Hd|Hd].
  { unfold t_capture. eapply safe_bind; [by apply t_skip_safe|]. intros s' Hs'. repeat case_match; apply safe_ok; cbn; lia. }
  destruct (maxDepth <? depth); [right; by eexists|]. destruct (src !! s_i s) as [c|] eqn:E; [|apply safe_ok; cbn; lia]. apply lookup_lt_Some in E.
  destruct (lookup_lt_is_Some_2 (Tokens p) i Hd) as [t Ht]. assert (Hnext : forall d s, (s_i s <= length src)%nat -> safe_find (s_i s) (t_find src maxDepth lastWins fuel d (mkComp p (S i)) s)) by (intros; apply IH; [lia|lia|done]).
  destruct (c =? "{"%ch); [|destruct (c =? "["%ch)].
  - unfold t_findObject. destruct (maxDepth <? depth + 1); [right; by eexists|]. cbn [path_key path_next compiled_path]. unfold compiled_token. cbn [cc_pointer cc_index]. rewrite Ht. cbn [res_bind].
    apply (safe_weaken _ (s_i (s_next s))); [cbn; lia|]. apply t_object_safe; [by apply Hnext|cbn; lia..].
  - unfold t_findArray. destruct (maxDepth <? depth + 1); [right; by eexists|]. cbn [path_index path_next compiled_path]. unfold compiled_token. cbn [cc_pointer cc_index]. rewrite Ht. cbn [res_bind].
    destruct (arrayIndex t) as [e|index].
    + destruct lastWins; [|apply safe_ok; cbn; lia]. eapply safe_bind; [by apply t_skip_safe|]. intros s' Hs'. apply safe_ok. cbn. lia.
    + pose proof (skip_space_safe (s_next s) ltac:(cbn; lia)) as H1. set (s1 := s_skip src (s_next s)) in *. clearbody s1. cbn [s_next s_i] in H1.
      destruct (at_byte src (s_i s1) "]"%ch) eqn:Eb; [apply at_byte_lt in Eb; apply safe_ok; cbn; lia|]. apply (safe_weaken _ (s_i s1)); [lia|]. apply t_array_safe; [by apply Hnext|lia..].
  - eapply safe_bind; [by apply t_skip_safe|]. intros s' Hs'. apply safe_ok. cbn. lia.
Qed.

Lemma trusted_lookup_returns p : returns (trusted_lookup src maxDepth lastWins p).
Proof using Hsrc.
  unfold trusted_lookup. pose proof (skip_space_safe (mkSeek 0 false) ltac:(cbn; lia)) as H0.
  destruct (t_find_safe p (S (length (Tokens p))) 0 0 (s_skip src (mkSeek 0 false)) ltac:(lia) ltac:(lia) ltac:(lia)) as [([s r] & -> & _)|(e & ->)]; [|apply returns_err].
  cbn [raw_result res_bind]. unfold raw_checked. cbn [fst snd]. destruct (r_err r); cbn [res_bind]; [apply returns_err|apply returns_ok].
Qed.
End Safe.

(** ** Properties *)

(** C36: on a document the trusted lookups find exactly what the validating ones find, first match and last match alike; on any other source they return without a panic. *)
Theorem trusted_is_validating p cp src opts :
  bytes_ok p -> bytes_ok src -> CompilePointer p = Ok cp ->
  (forall t, jdoc (maxDepthOrDefault (MaxDepth opts)) src t -> ScanFirstRawTrustedOptions src p opts = ScanFirstRawOptions src p opts) /\
  (forall t, jdoc DefaultMaxDepth src t -> GetRawTrusted cp src = compiled_GetRawOptions cp src (mkOptions 0 false)) /\
  returns (ScanFirstRawTrustedOptions src p opts) /\ returns (GetRawTrusted cp src).
Proof.
  intros Hp Hsrc Hc. pose proof (CompilePointer_spec p Hp) as Hs.
  destruct (pointer_path p) as [path|] eqn:Hpath; [|by destruct Hs as (e & _ & Hs); rewrite Hs in Hc].
  destruct Hs as (ts & Hs & Hf). rewrite Hc in Hs. injection Hs as ->.
  unfold ScanFirstRawTrustedOptions, GetRawTrusted, compiled_ScanFirstRawTrustedOptions. rewrite Hc.
  assert (Hret : forall maxDepth lastWins cp, returns (trusted_lookup src maxDepth lastWins cp)) by (intros; by apply trusted_lookup_returns).
  split; [|split; [|by split]].
  - intros t Ht. rewrite (trusted_lookup_doc src _ _ p path ts t Hsrc Hf Ht). rewrite (proj1 (ScanFirstRaw_resolves src p path opts Hsrc Hpath) t Ht). cbn [negb]. by destruct (resolve true path t).
  - intros t Ht. rewrite (trusted_lookup_doc src _ _ p path ts t Hsrc Hf Ht). rewrite (proj1 (compiled_lookups_eq p path ts src (mkOptions 0 false) Hpath Hf)). rewrite (GetRawOptions_doc src p path (mkOptions 0 false) t) by done. cbn [negb]. by destruct (resolve false path t).
Qed.

Lemma trusted_is_validating_witness :
  let src := js "{'a':[1,{'b':2}],'c':'}','a':[3,{'\u0062':[4]}]}" in
  exists cp, (forall t, jdoc 10000 src t -> ScanFirstRawTrustedOptions src (bs "/a/1/b") (mkOptions 0 false) = ScanFirstRawOptions src (bs "/a/1/b") (mkOptions 0 false)) /\
  (forall t, jdoc DefaultMaxDepth src t -> GetRawTrusted cp src = compiled_GetRawOptions cp src (mkOptions 0 false)) /\
  returns (ScanFirstRawTrustedOptions src (bs "/a/1/b") (mkOptions 0 false)) /\ returns (GetRawTrusted cp src).
Proof. eexists. apply (trusted_is_validating _ _ _ (mkOptions 0 false)); [concrete_bytes|concrete_bytes|vm_compute; reflexivity]. Defined.
