(* ===== verification/Range.v ===== *)
(** [range.go]: the callback iterators over a top-level array or object.

    A callback may change state of its own and may return an error: it is a
    function of the state, the position or key, and the raw value.  [None] is a
    nil callback. *)

From S2P Require Import Prelude Words Utf8 Scanner Lex Grammar StringRef Errors Numbers Reader Validator FastValid ParserString Layout Decode Pointer Raw.

Inductive each_error (E : Type) : Type := ESyntax (e : SyntaxError) | ECallback (e : E).
Arguments ESyntax {E} e.
Arguments ECallback {E} e.

Section Each.
Context {St E : Type}.

(** The caller's state and how the iteration ended. *)
Abbreviation outcome_of A := (St * res (each_error E) A)%type (only parsing).

(** Continue after a fallible step of the seeker. *)
Definition each_bind {A B} (st : St) (r : res SyntaxError A) (k : A -> outcome_of B) : outcome_of B :=
  match r with
  | Ok a => k a
  | Err e => (st, Err (ESyntax e))
  | Panic => (st, Panic)
  | NoFuel => (st, NoFuel)
  end.

Definition each_err {A} (src : bytes) (st : St) (i : nat) (msg : string) : outcome_of A :=
  (st, Err (ESyntax (syntax_at src i msg))).

(** [if fn != nil { if err := fn(k, v); err != nil { return err } }] *)
Definition call {K} (fn : option (St -> K -> bytes -> St * option E)) (st : St) (k : K) (v : bytes) : St * option E :=
  match fn with
  | None => (st, None)
  | Some f => f st k v
  end.

Section Arrays.
Context (src : bytes) (maxDepth : Z) (fn : option (St -> Z -> bytes -> St * option E)).

Fixpoint each_array_loop (fuel : nat) (depth : Z) (index : Z) (st : St) (s : seeker) : outcome_of seeker :=
  match fuel with
  | O => (st, NoFuel)
  | S fuel =>
    let s := s_skip src s in
    let start := s_i s in
    each_bind st (skipValue src maxDepth depth s) (fun s =>
    let (st, err) := call fn st index (slice src start (s_i s)) in
    match err with
    | Some e => (st, Err (ECallback e))
    | None =>
      let s := s_skip src s in
      match src !! s_i s with
      | None => each_err src st (s_i s) "unterminated array"
      | Some c =>
        if c =? ","%ch then each_array_loop fuel depth (index + 1) st (s_next s)
        else if c =? "]"%ch then (st, Ok (s_next s))
        else each_err src st (s_i s) "expected comma or closing bracket in array"
      end
    end)
  end.

Definition eachArray (depth : Z) (st : St) (s : seeker) : outcome_of seeker :=
  if maxDepth <? depth then each_err src st (s_i s) "maximum nesting depth exceeded"
  else if negb (at_byte src (s_i s) "["%ch) then each_err src st (s_i s) "expected array"
  else
  let s := s_skip src (s_next s) in
  if at_byte src (s_i s) "]"%ch then (st, Ok (s_next s))
  else each_array_loop (S (length src)) depth 0 st s.
End Arrays.

Section Objects.
Context (src : bytes) (maxDepth : Z) (fn : option (St -> bytes -> bytes -> St * option E)).

Fixpoint each_object_loop (fuel : nat) (depth : Z) (st : St) (s : seeker) : outcome_of seeker :=
  match fuel with
  | O => (st, NoFuel)
  | S fuel =>
    let s := s_skip src s in
    if negb (at_byte src (s_i s) DQUOTE) then each_err src st (s_i s) "expected object key string"
    else
    each_bind st (parseStringRaw src (s_i s)) (fun '(keyStart, keyEnd, escaped, i) =>
    each_bind st (keyString src keyStart keyEnd escaped) (fun key =>
    let s := s_skip src (mkSeek i (s_done s)) in
    if negb (at_byte src (s_i s) ":"%ch) then each_err src st (s_i s) "expected colon after object key"
    else
    let s := s_skip src (s_next s) in
    let valueStart := s_i s in
    each_bind st (skipValue src maxDepth depth s) (fun s =>
    let (st, err) := call fn st key (slice src valueStart (s_i s)) in
    match err with
    | Some e => (st, Err (ECallback e))
    | None =>
      let s := s_skip src s in
      match src !! s_i s with
      | None => each_err src st (s_i s) "unterminated object"
      | Some c =>
        if c =? ","%ch then each_object_loop fuel depth st (s_next s)
        else if c =? "}"%ch then (st, Ok (s_next s))
        else each_err src st (s_i s) "expected comma or closing brace in object"
      end
    end)))
  end.

Definition eachObject (depth : Z) (st : St) (s : seeker) : outcome_of seeker :=
  if maxDepth <? depth then each_err src st (s_i s) "maximum nesting depth exceeded"
  else if negb (at_byte src (s_i s) "{"%ch) then each_err src st (s_i s) "expected object"
  else
  let s := s_skip src (s_next s) in
  if at_byte src (s_i s) "}"%ch then (st, Ok (s_next s))
  else each_object_loop (S (length src)) depth st s.
End Objects.

(** What follows the value. *)
Definition each_trailing (src : bytes) (msg : string) (r : outcome_of seeker) : outcome_of unit :=
  let (st, r) := r in
  match r with
  | Ok s =>
    let s := s_skip src s in
    if negb (s_i s =? length src)%nat then each_err src st (s_i s) msg else (st, Ok tt)
  | Err e => (st, Err e)
  | Panic => (st, Panic)
  | NoFuel => (st, NoFuel)
  end.

Definition EachArrayOptions (src : bytes) (opts : Options) fn (st : St) : outcome_of unit :=
  let s := s_skip src (mkSeek 0 false) in
  each_trailing src "unexpected data after top-level array"
  (eachArray src (maxDepthOrDefault (MaxDepth opts)) fn 1 st s).
Definition EachObjectOptions (src : bytes) (opts : Options) fn (st : St) : outcome_of unit :=
  let s := s_skip src (mkSeek 0 false) in
  each_trailing src "unexpected data after top-level object"
  (eachObject src (maxDepthOrDefault (MaxDepth opts)) fn 1 st s).

Definition EachArray (src : bytes) fn (st : St) := EachArrayOptions src (mkOptions 0 false) fn st.
Definition EachObject (src : bytes) fn (st : St) := EachObjectOptions src (mkOptions 0 false) fn st.

(** ** The specification: call in order until an error *)

Fixpoint visit {K} (fn : option (St -> K -> bytes -> St * option E)) (items : list (K * bytes)) (st : St) :
  St * option E :=
  match items with
  | [] => (st, None)
  | (k, v) :: items =>
    match call fn st k v with
    | (st, None) => visit fn items st
    | (st, Some e) => (st, Some e)
    end
  end.

(** The iteration over [items], then [r] unless a callback stopped it. *)
Definition visited {A K} fn (items : list (K * bytes)) (st : St) (r : res (each_error E) A) : outcome_of A :=
  match visit fn items st with
  | (st, None) => (st, r)
  | (st, Some e) => (st, Err (ECallback e))
  end.

Lemma visited_cons {A K} fn (k : K) v items st (r : res (each_error E) A) :
  visited fn ((k, v) :: items) st r =
  match call fn st k v with
  | (st, None) => visited fn items st r
  | (st, Some e) => (st, Err (ECallback e))
  end.
Proof using. unfold visited. cbn [visit]. by destruct (call fn st k v) as [? [?|]]. Qed.

Fixpoint numbered (i : Z) (vs : list bytes) : list (Z * bytes) :=
  match vs with [] => [] | v :: vs => (i, v) :: numbered (i + 1) vs end.

Definition member_item (m : (bytes * bytes) * tree) : bytes * bytes := (m.1.2, raw_of m.2).

(** ** The iterators follow the reference reader *)

Section Refine.
Context (src : bytes) (maxDepth : Z).
Hypothesis Hsrc : bytes_ok src.
Abbreviation rv := (ref_value src maxDepth unexpected_byte (S (length src))).

Lemma each_bind_skip {B} depth i st (k : seeker -> outcome_of B) :
  (i <= length src)%nat ->
  each_bind st (skipValue src maxDepth depth (mkSeek i false)) k =
  match rv depth i with
  | Ok (j, _) => k (mkSeek j false)
  | Err (o, m) => (st, Err (ESyntax (syntax_at src o m)))
  | Panic => (st, Panic)
  | NoFuel => (st, NoFuel)
  end.
Proof using Hsrc.
  intros Hi. rewrite (skipValue_ref src maxDepth Hsrc (S (length src))) by lia.
  by destruct (rv depth i) as [[j t]|[o m]| |].
Qed.

Section Loops.
Context (depth : Z).
Hypothesis Hdepth : forall i, (i <= length src)%nat -> reads src (maxDepth - depth) i (rv depth i).

Lemma each_array_loop_ref fn fuel i index st acc :
  (i <= length src)%nat -> (length src - i < fuel)%nat ->
  match ref_elems src rv fuel depth i acc with
  | Ok (j, ts) => exists ts', ts = acc ++ ts' /\
    each_array_loop src maxDepth fn fuel depth index st (mkSeek i false) =
    visited fn (numbered index (map raw_of ts')) st (Ok (mkSeek j false))
  | Err (o, m) => exists vs,
    each_array_loop src maxDepth fn fuel depth index st (mkSeek i false) =
    visited fn (numbered index vs) st (Err (ESyntax (syntax_at src o m)))
  | _ => False
  end.
Proof using Hsrc Hdepth.
  revert i index st acc. induction fuel as [|fuel IH]; intros i index st acc Hi Hf; [lia|].
  cbn [each_array_loop ref_elems]. rewrite s_skip_ref by (done || lia). cbn [s_i].
  pose proof (ref_ws_le src i ltac:(lia)) as H1. set (i1 := ref_ws src i) in *. cbv zeta.
  rewrite each_bind_skip by lia. specialize (Hdepth i1 ltac:(lia)) as Hr.
  destruct (rv depth i1) as [[j t]|[o m]| |]; cbn [res_bind]; [|by exists []|done..].
  apply reads_span in Hr as [Hj Hraw]. cbn [s_i]. rewrite Hraw, s_skip_ref by (done || lia). cbn [s_i s_done].
  pose proof (ref_ws_le src j ltac:(lia)) as H2. at_pos src (ref_ws src j) as c Hat.
  2:{ exists [raw_of t]. cbn [numbered]. by rewrite visited_cons. }
  apply lookup_lt_Some in Hat as Hlt. unfold s_next. cbn [s_i s_done]. destruct (c =? ","%ch).
  - specialize (IH (S (ref_ws src j)) (index + 1)).
    destruct (call fn st index (raw_of t)) as [st' err] eqn:Ec.
    specialize (IH st' (acc ++ [t]) ltac:(lia) ltac:(lia)).
    destruct (ref_elems src rv fuel depth (S (ref_ws src j)) (acc ++ [t])) as [[e ts]|[o m]| |]; [| |done..].
    + destruct IH as (ts' & -> & IH). exists (t :: ts'). split; [by rewrite <- app_assoc|].
      cbn [map numbered]. rewrite visited_cons, Ec. by destruct err.
    + destruct IH as (vs & IH). exists (raw_of t :: vs). cbn [numbered]. rewrite visited_cons, Ec. by destruct err.
  - destruct (c =? "]"%ch).
    + exists [t]. split; [done|]. cbn [map numbered]. by rewrite visited_cons.
    + exists [raw_of t]. cbn [numbered]. by rewrite visited_cons.
Qed.

Lemma each_object_loop_ref fn fuel i st acc :
  (i <= length src)%nat -> (length src - i < fuel)%nat ->
  match ref_members src rv fuel depth i acc with
  | Ok (j, ms) => exists ms', ms = acc ++ ms' /\
    each_object_loop src maxDepth fn fuel depth st (mkSeek i false) =
    visited fn (map member_item ms') st (Ok (mkSeek j false))
  | Err (o, m) => exists items,
    each_object_loop src maxDepth fn fuel depth st (mkSeek i false) =
    visited fn items st (Err (ESyntax (syntax_at src o m)))
  | _ => False
  end.
Proof using Hsrc Hdepth.
  revert i st acc. induction fuel as [|fuel IH]; intros i st acc Hi Hf; [lia|].
  cbn [each_object_loop ref_members]. rewrite s_skip_ref by (done || lia). cbn [s_i s_done].
  pose proof (ref_ws_le src i ltac:(lia)) as H1. set (i1 := ref_ws src i) in *. cbv zeta.
  destruct (at_byte src i1 DQUOTE) eqn:Hq; [|by exists []]. cbn [negb]. apply at_byte_spec in Hq.
  pose proof (parseStringRaw_ref src Hsrc i1 Hq) as Hstr.
  destruct (ref_str src i1) as [[i2 name]|[o m]| |] eqn:Hrs; cbn [res_bind]; [|by exists []; rewrite Hstr|done..].
  destruct Hstr as (kstop & escaped & -> & Hk & -> & _ & Hesc). cbn [each_bind].
  assert (Hkey : keyString src (S i1) kstop escaped = Ok name).
  { unfold keyString. destruct escaped; cbn [negb]; [|by rewrite Hesc].
  replace (S i1 - 1)%nat with i1 by lia. rewrite p_parseString_ref, Hrs by (done || lia). done. }
  rewrite Hkey. cbn [each_bind]. rewrite s_skip_ref by (done || lia). cbn [s_i s_done].
  pose proof (ref_ws_le src (S kstop) ltac:(lia)) as H2. set (i3 := ref_ws src (S kstop)) in *.
  destruct (at_byte src i3 ":"%ch) eqn:Hc; [|by exists []]. cbn [negb]. apply at_byte_lt in Hc.
  change (s_next (mkSeek i3 false)) with (mkSeek (S i3) false). rewrite s_skip_ref by (done || lia). cbn [s_i].
  pose proof (ref_ws_le src (S i3) ltac:(lia)) as H3. set (i4 := ref_ws src (S i3)) in *.
  rewrite each_bind_skip by lia. specialize (Hdepth i4 ltac:(lia)) as Hr.
  destruct (rv depth i4) as [[j t]|[o m]| |]; cbn [res_bind]; [|by exists []|done..].
  apply reads_span in Hr as [Hj Hraw]. cbn [s_i]. rewrite Hraw, s_skip_ref by (done || lia). cbn [s_i s_done].
  set (m := ((slice src i1 (S kstop), name), t)). change name with m.1.2. change t with m.2.
  pose proof (ref_ws_le src j ltac:(lia)) as H5. at_pos src (ref_ws src j) as c Hat.
  2:{ exists [member_item m]. unfold member_item. by rewrite visited_cons. }
  apply lookup_lt_Some in Hat as Hlt. unfold s_next. cbn [s_i s_done]. destruct (c =? ","%ch).
  - destruct (call fn st m.1.2 (raw_of m.2)) as [st' err] eqn:Ec.
    specialize (IH (S (ref_ws src j)) st' (acc ++ [m]) ltac:(lia) ltac:(lia)).
    destruct (ref_members src rv fuel depth (S (ref_ws src j)) (acc ++ [m])) as [[e ms]|[o msg]| |]; [| |done..].
    + destruct IH as (ms' & -> & IH). exists (m :: ms'). split; [by rewrite <- app_assoc|].
      cbn [map]. unfold member_item at 1. rewrite visited_cons, Ec. by destruct err.
    + destruct IH as (vs & IH). exists (member_item m :: vs). unfold member_item at 1.
      rewrite visited_cons, Ec. by destruct err.
  - destruct (c =? "}"%ch).
    + exists [m]. split; [done|]. cbn [map]. unfold member_item. by rewrite visited_cons.
    + exists [member_item m]. unfold member_item. by rewrite visited_cons.
Qed.
End Loops.

Lemma depth_reads depth i :
  (i <= length src)%nat -> reads src (maxDepth - depth) i (rv depth i).
Proof using Hsrc. intros Hi. apply ref_value_sound; [done|lia|lia]. Qed.

(** The whole value at [i]: as the reference reads it, or the callbacks that
ran before the syntax error. *)
Lemma eachArray_ref fn depth i st :
  (i < length src)%nat -> src !! i = Some "["%ch ->
  match ref_array src maxDepth rv depth i with
  | Ok (j, t) => exists raw ts, t = TArr raw ts /\ eachArray src maxDepth fn depth st (mkSeek i false) =
    visited fn (numbered 0 (map raw_of ts)) st (Ok (mkSeek j false))
  | Err (o, m) => exists vs, eachArray src maxDepth fn depth st (mkSeek i false) =
    visited fn (numbered 0 vs) st (Err (ESyntax (syntax_at src o m)))
  | _ => False
  end.
Proof using Hsrc.
  intros Hi Hc. unfold eachArray, ref_array. cbn [s_i].
  destruct (maxDepth <? depth); [by exists []|]. rewrite (proj2 (at_byte_spec _ _ _) Hc). cbn [negb]. cbv zeta.
  change (s_next (mkSeek i false)) with (mkSeek (S i) false). rewrite s_skip_ref by (done || lia). cbn [s_i].
  pose proof (ref_ws_le src (S i) ltac:(lia)) as H1. set (j := ref_ws src (S i)) in *.
  destruct (at_byte src j "]"%ch); [by eexists _, []|].
  pose proof (each_array_loop_ref depth (depth_reads depth) fn (S (length src)) j 0 st [] ltac:(lia) ltac:(lia)) as H.
  destruct (ref_elems _ _ _ _ _ _) as [[k ts]|[o m]| |]; cbn [res_bind]; [|done..].
  destruct H as (ts' & -> & H). eauto.
Qed.

Lemma eachObject_ref fn depth i st :
  (i < length src)%nat -> src !! i = Some "{"%ch ->
  match ref_object src maxDepth rv depth i with
  | Ok (j, t) => exists raw ms, t = TObj raw ms /\ eachObject src maxDepth fn depth st (mkSeek i false) =
    visited fn (map member_item ms) st (Ok (mkSeek j false))
  | Err (o, m) => exists items, eachObject src maxDepth fn depth st (mkSeek i false) =
    visited fn items st (Err (ESyntax (syntax_at src o m)))
  | _ => False
  end.
Proof using Hsrc.
  intros Hi Hc. unfold eachObject, ref_object. cbn [s_i].
  destruct (maxDepth <? depth); [by exists []|]. rewrite (proj2 (at_byte_spec _ _ _) Hc). cbn [negb]. cbv zeta.
  change (s_next (mkSeek i false)) with (mkSeek (S i) false). rewrite s_skip_ref by (done || lia). cbn [s_i].
  pose proof (ref_ws_le src (S i) ltac:(lia)) as H1. set (j := ref_ws src (S i)) in *.
  destruct (at_byte src j "}"%ch); [by eexists _, []|].
  pose proof (each_object_loop_ref depth (depth_reads depth) fn (S (length src)) j st [] ltac:(lia) ltac:(lia)) as H.
  destruct (ref_members _ _ _ _ _ _) as [[k ms]|[o m]| |]; cbn [res_bind]; [|done..].
  destruct H as (ms' & -> & H). eauto.
Qed.

(** The head of a document that is an array, an object, or neither. *)
Lemma doc_head t :
  jdoc maxDepth src t ->
  let i := ref_ws src 0 in
  (i < length src)%nat /\
  match t with
  | TArr _ _ => src !! i = Some "["%ch /\
    exists j, ref_array src maxDepth rv 1 i = Ok (j, t) /\ (j <= length src)%nat /\ ref_ws src j = length src
  | TObj _ _ => src !! i = Some "{"%ch /\
    exists j, ref_object src maxDepth rv 1 i = Ok (j, t) /\ (j <= length src)%nat /\ ref_ws src j = length src
  | _ => exists c, src !! i = Some c /\ c <> "["%ch /\ c <> "{"%ch
  end.
Proof using Hsrc.
  intros (j & Hv & Hj)%first_value_doc. cbv zeta. pose proof (ref_ws_le src 0 ltac:(lia)) as H0.
  pose proof (depth_reads 0 (ref_ws src 0) ltac:(lia)) as Hr. rewrite Hv in Hr. apply reads_span in Hr as [Hjl _].
  rewrite (ref_value_fuel src maxDepth unexpected_byte Hsrc (S (length src)) (S (S (length src)))) in Hv by lia.
  set (i := ref_ws src 0) in *. split; [lia|]. cbn [ref_value] in Hv. fold (ref_value src maxDepth unexpected_byte (S (length src))) in Hv.
  unfold ref_body in Hv. destruct (maxDepth <? 0); [done|]. at_pos src i as c Hat; [|done].
  destruct (Z.eqb_spec c "["%ch) as [->|Ha].
  { change (0 + 1) with 1 in Hv. pose proof Hv as Hv'. cbn [Z.eqb Pos.eqb] in Hv. pose proof Hv as Hv2. unfold ref_array in Hv.
  destruct (maxDepth <? 1); [done|]. destruct (at_byte _ _ _); [simplify_eq; split; [done|]; eexists; split; [exact Hv2|]; split; (done || lia)|].
  destruct (ref_elems _ _ _ _ _ _) as [[? ?]| | |]; [|done..]. cbn [res_bind] in Hv. simplify_eq.
  split; [done|]. eexists; split; [exact Hv2|]; split; (done || lia). }
  destruct (Z.eqb_spec c "{"%ch) as [->|Ho].
  { change (0 + 1) with 1 in Hv. cbn [Z.eqb Pos.eqb] in Hv. pose proof Hv as Hv2. unfold ref_object in Hv.
  destruct (maxDepth <? 1); [done|]. destruct (at_byte _ _ _); [simplify_eq; split; [done|]; eexists; split; [exact Hv2|]; split; (done || lia)|].
  destruct (ref_members _ _ _ _ _ _) as [[? ?]| | |]; [|done..]. cbn [res_bind] in Hv. simplify_eq.
  split; [done|]. eexists; split; [exact Hv2|]; split; (done || lia). }
  assert (Hsc : exists c0, Some c = Some c0 /\ c0 <> "["%ch /\ c0 <> "{"%ch) by eauto.
  unfold ref_lit, ref_num in Hv. destruct (scanNumber src i) as [j' [|]];
    destruct (ref_str src i) as [[]|[]| |]; cbn [res_bind] in Hv; repeat case_step_in Hv; simplify_eq; exact Hsc.
Qed.
End Refine.

(** ** Whole calls on a document *)

Lemma EachArrayOptions_doc src opts fn st t :
  bytes_ok src -> jdoc (maxDepthOrDefault (MaxDepth opts)) src t ->
  EachArrayOptions src opts fn st =
  match t with
  | TArr _ ts => visited fn (numbered 0 (map raw_of ts)) st (Ok tt)
  | _ => each_err src st (ref_ws src 0) "expected array"
  end.
Proof using.
  intros Hsrc Hdoc. unfold EachArrayOptions. set (d := maxDepthOrDefault (MaxDepth opts)) in *.
  assert (Hd : (d <? 1) = false) by (unfold d, maxDepthOrDefault, DefaultMaxDepth; case_match; lia).
  rewrite s_skip_ref by (done || lia). destruct (doc_head src d Hsrc t Hdoc) as [Hi Hh].
  destruct t as [|b|raw|raw dec|raw ts|raw ms].
  5:{ destruct Hh as (Hc & j & Hr & Hjl & Hj). pose proof (eachArray_ref src d Hsrc fn 1 _ st Hi Hc) as H. rewrite Hr in H.
  destruct H as (raw' & ts' & [= <- <-] & ->). unfold each_trailing, visited.
  destruct (visit fn _ st) as [st' [e|]]; [done|]. rewrite s_skip_ref by (done || lia). cbn [s_i].
  by rewrite Hj, Nat.eqb_refl. }
  all: unfold eachArray; cbn [s_i]; rewrite Hd.
  5: destruct Hh as (Hc & _); unfold at_byte; by rewrite Hc.
  all: destruct Hh as (c & Hc & Hne & _); unfold at_byte; rewrite Hc, (proj2 (Z.eqb_neq _ _) Hne); done.
Qed.

Lemma EachObjectOptions_doc src opts fn st t :
  bytes_ok src -> jdoc (maxDepthOrDefault (MaxDepth opts)) src t ->
  EachObjectOptions src opts fn st =
  match t with
  | TObj _ ms => visited fn (map member_item ms) st (Ok tt)
  | _ => each_err src st (ref_ws src 0) "expected object"
  end.
Proof using.
  intros Hsrc Hdoc. unfold EachObjectOptions. set (d := maxDepthOrDefault (MaxDepth opts)) in *.
  assert (Hd : (d <? 1) = false) by (unfold d, maxDepthOrDefault, DefaultMaxDepth; case_match; lia).
  rewrite s_skip_ref by (done || lia). destruct (doc_head src d Hsrc t Hdoc) as [Hi Hh].
  destruct t as [|b|raw|raw dec|raw ts|raw ms].
  6:{ destruct Hh as (Hc & j & Hr & Hjl & Hj). pose proof (eachObject_ref src d Hsrc fn 1 _ st Hi Hc) as H. rewrite Hr in H.
  destruct H as (raw' & ts' & [= <- <-] & ->). unfold each_trailing, visited.
  destruct (visit fn _ st) as [st' [e|]]; [done|]. rewrite s_skip_ref by (done || lia). cbn [s_i].
  by rewrite Hj, Nat.eqb_refl. }
  all: unfold eachObject; cbn [s_i]; rewrite Hd.
  5: destruct Hh as (Hc & _); unfold at_byte; by rewrite Hc.
  all: destruct Hh as (c & Hc & _ & Hne); unfold at_byte; rewrite Hc, (proj2 (Z.eqb_neq _ _) Hne); done.
Qed.
End Each.

(** ** Properties *)

(** iterating a document that is an array calls the callback on the exact source text of every element, in order and with its index, and stops at the first callback error; on any other document nothing is called and the error is at the value. *)
Theorem EachArray_visits {St E} (fn : option (St -> Z -> bytes -> St * option E)) src opts st t :
  bytes_ok src -> jdoc (maxDepthOrDefault (MaxDepth opts)) src t ->
  EachArrayOptions src opts fn st =
    match t with
    | TArr _ ts => visited fn (numbered 0 (map raw_of ts)) st (Ok tt)
    | _ => each_err src st (ref_ws src 0) "expected array"
    end.
Proof. apply EachArrayOptions_doc. Qed.

Lemma EachArray_visits_witness :
  let src := bs " [1, 2,[3]] " in
  let fn := Some (fun (st : list (Z * bytes)) i v => (st ++ [(i, v)], @None unit)) in
  exists t, jdoc 10000 src t /\
  EachArrayOptions src (mkOptions 0 false) fn [] =
    match t with
    | TArr _ ts => visited fn (numbered 0 (map raw_of ts)) [] (Ok tt)
    | _ => each_err src [] (ref_ws src 0) "expected array"
    end.
Proof.
  cbv zeta. eexists.
  assert (H : jdoc 10000 (bs " [1, 2,[3]] ") (TArr (bs "[1, 2,[3]]") [TNum (bs "1"); TNum (bs "2"); TArr (bs "[3]") [TNum (bs "3")]])).
  { apply (ref_doc_jdoc _ _ unexpected_byte); [concrete_bytes|vm_compute; reflexivity]. }
  split; [exact H|]. apply (EachArray_visits _ _ (mkOptions 0 false)); [concrete_bytes|exact H].
Defined.

(** Iterating a document that is an object calls the callback on the decoded name and the exact source text of every member, in order and duplicates included, and stops at the first callback error; on any other document nothing is called and the error is at the value. *)
Theorem EachObject_visits {St E} (fn : option (St -> bytes -> bytes -> St * option E)) src opts st t :
  bytes_ok src -> jdoc (maxDepthOrDefault (MaxDepth opts)) src t ->
  EachObjectOptions src opts fn st =
    match t with
    | TObj _ ms => visited fn (map member_item ms) st (Ok tt)
    | _ => each_err src st (ref_ws src 0) "expected object"
    end.
Proof. apply EachObjectOptions_doc. Qed.

Lemma EachObject_visits_witness :
  let src := js "{'a':1,'\u0061':[2]}" in
  let fn := Some (fun (st : list (bytes * bytes)) k v => (st ++ [(k, v)], @None unit)) in
  exists t, jdoc 10000 src t /\
  EachObjectOptions src (mkOptions 0 false) fn [] =
    match t with
    | TObj _ ms => visited fn (map member_item ms) [] (Ok tt)
    | _ => each_err src [] (ref_ws src 0) "expected object"
    end.
Proof.
  cbv zeta. eexists.
  assert (H : ref_doc (js "{'a':1,'\u0061':[2]}") 10000 unexpected_byte =
    Ok (TObj (js "{'a':1,'\u0061':[2]}") [((js "'a'", bs "a"), TNum (bs "1"));
      ((js "'\u0061'", bs "a"), TArr (bs "[2]") [TNum (bs "2")])])) by (vm_compute; reflexivity).
  apply ref_doc_jdoc in H; [|concrete_bytes]. split; [exact H|].
  apply (EachObject_visits _ _ (mkOptions 0 false)); [concrete_bytes|exact H].
Defined.
