(* ===== verification/NumberEqual.v ===== *)
(** [number_equal.go]: exact comparison of two JSON number spellings, without
    converting either to a binary number.

    Positions that may be the sentinel -1 are [Z]; int64 and uint64 arithmetic
    wraps.  An index read outside the slice is a panic of the model. *)

From S2P Require Import Prelude Words Lex Grammar Numbers Decode.

Definition i64 (x : Z) : Z := (x + 2 ^ 63) mod 2 ^ 64 - 2 ^ 63.

Record decNumber : Type := mkDec {
  zero : bool;
  neg : bool;
  sigFirst : Z;
  sigLast : Z;
  dot : Z;
  weight : Z;
  expFits : bool;
  expNeg : bool;
  expDigits : bytes;
  adj : Z
  }.

(** [for j := from; j < to; j++ { if src[j] != '0' { break } }] *)
Fixpoint next_nonzero (n : nat) (src : bytes) (j : nat) : res unit (option nat) :=
  match n with
  | O => Ok None
  | S n => let* c := idx src j in if c =? "0"%ch then next_nonzero n src (S j) else Ok (Some j)
  end.

(** [for j := to - 1; j >= from; j-- { if src[j] != '0' { break } }], [n] positions. *)
Fixpoint prev_nonzero (n : nat) (src : bytes) (from : nat) : res unit (option nat) :=
  match n with
  | O => Ok None
  | S n => let* c := idx src (from + n) in if c =? "0"%ch then prev_nonzero n src from else Ok (Some (from + n)%nat)
  end.

(** The same scan with no lower bound: reading before the slice panics. *)
Definition last_nonzero (src : bytes) (stop : nat) : res unit nat :=
  let* j := prev_nonzero stop src 0 in
  match j with Some j => Ok j | None => Panic end.

Definition digits_int64 (ds : bytes) : Z := fold_left (fun e c => i64 (e * 10 + (c - "0"%ch))) ds 0.
Definition digits_uint64 (ds : bytes) : Z := fold_left (fun m c => w64 (m * 10 + (c - "0"%ch))) ds 0.

(** The exponent: sign, digits after the leading zeros, whether they fit, value. *)
Definition parse_exponent (src : bytes) (i : nat) : res unit (bool * bytes * bool * Z) :=
  if (i <? length src)%nat then
    let i := S i in
    let* c := idx src i in
    let (expNeg, i) := if c =? "+"%ch then (false, S i) else if c =? "-"%ch then (true, S i) else (false, i) in
    let i := advance (fun c => c =? "0"%ch) src i in
    let ds := drop i src in
    if (length ds <=? 18)%nat then
      let exp := digits_int64 ds in
      Ok (expNeg, ds, true, if expNeg then i64 (- exp) else exp)
    else Ok (expNeg, ds, false, 0)
  else Ok (false, [], true, 0).

(** The fraction: the position of its point and the range of its digits. *)
Definition parse_fraction (src : bytes) (intEnd : nat) : Z * nat * nat * nat :=
  if at_byte src intEnd "."%ch then
    let fracEnd := advance IsDigit src (S intEnd) in (Z.of_nat intEnd, S intEnd, fracEnd, fracEnd)
  else (-1, 0%nat, 0%nat, intEnd).

(** The first significant digit and its decimal position, if there is one. *)
Definition parse_first (src : bytes) (intStart intEnd fracStart fracEnd : nat) : res unit (option (Z * Z)) :=
  let* c := idx src intStart in
  if negb (c =? "0"%ch) then Ok (Some (Z.of_nat intStart, Z.of_nat (intEnd - intStart) - 1))
  else
    let* j := next_nonzero (fracEnd - fracStart) src fracStart in
    Ok (option_map (fun j => (Z.of_nat j, - Z.of_nat (j - fracStart) - 1)) j).

Definition parse_last (src : bytes) (intEnd fracStart fracEnd : nat) : res unit nat :=
  let* j := prev_nonzero (fracEnd - fracStart) src fracStart in
  match j with Some j => Ok j | None => last_nonzero src intEnd end.

Definition parseDecNumber (src : bytes) : res unit decNumber :=
  let* c := idx src 0 in
  let (neg, intStart) := if c =? "-"%ch then (true, 1%nat) else (false, 0%nat) in
  let intEnd := advance IsDigit src intStart in
  let '(dot, fracStart, fracEnd, i) := parse_fraction src intEnd in
  let* (expNeg, expDigits, expFits, exp) := parse_exponent src i in
  let* first := parse_first src intStart intEnd fracStart fracEnd in
  match first with
  | None => Ok (mkDec true neg (-1) 0 dot 0 expFits expNeg expDigits 0)
  | Some (sigFirst, adj) =>
      let weight := if expFits then i64 (exp + adj) else 0 in
      let* last := parse_last src intEnd fracStart fracEnd in
      Ok (mkDec false neg sigFirst (Z.of_nat last) dot weight expFits expNeg expDigits adj)
  end.

(** ** The exponent weight *)

Definition decWeightTermSmallLimit : Z := 10000000000000000000.

Definition absInt64 (v : Z) : Z := if v <? 0 then w64 (- v) else w64 v.

Definition decSignedAdd (neg : bool) (m adj : Z) : bool * Z :=
  let a := absInt64 adj in
  if Bool.eqb neg (adj <? 0) then (neg && negb (w64 (m + a) =? 0), w64 (m + a))
  else if a <=? m then (neg && negb (m =? a), w64 (m - a))
  else (negb neg, w64 (a - m)).

(** The loop that writes digits into the twenty-byte buffer from its end. *)
Fixpoint decimal_loop (fuel : nat) (v : Z) (buf : bytes) : bytes :=
  match fuel with
  | O => buf
  | S fuel =>
      let buf := ("0"%ch + v mod 10) :: buf in
      let v := v / 10 in
      if v =? 0 then buf else decimal_loop fuel v buf
  end.
Definition appendDecimalUint64 (dst : bytes) (v : Z) : bytes := dst ++ decimal_loop 20 v [].

(** [for i := len(out) - 1; i >= 0 && u != 0; i--], [i + 1] positions left. *)
Fixpoint add_digits (i : nat) (out : bytes) (u : Z) : bytes :=
  match i with
  | O => out
  | S i =>
      if u =? 0 then out
      else
        let c := default 0 (out !! i) in
        let s := c - "0"%ch + u mod 10 in
        let u := u / 10 in
        let (s, u) := if 10 <=? s then (s - 10, u + 1) else (s, u) in
        add_digits i (<[i := "0"%ch + s]> out) u
  end.

Definition decDigitsAddUint64 (digits : bytes) (u : Z) : bytes :=
  let out := add_digits (length digits + 1) ("0"%ch :: digits) u in
  if at_byte out 0 "0"%ch then drop 1 out else out.

Fixpoint sub_digits (i : nat) (out : bytes) (u borrow : Z) : bytes :=
  match i with
  | O => out
  | S i =>
      if (u =? 0) && (borrow =? 0) then out
      else
        let sub := u mod 10 + borrow in
        let u := u / 10 in
        let have := default 0 (out !! i) - "0"%ch in
        if sub <=? have then sub_digits i (<[i := "0"%ch + have - sub]> out) u 0
        else sub_digits i (<[i := "0"%ch + have + 10 - sub]> out) u 1
  end.

(** [for start < len(out)-1 && out[start] == '0' { start++ }; return out[start:]] *)
Fixpoint strip_zeros (out : bytes) : bytes :=
  match out with
  | [] => out
  | c :: rest => match rest with [] => out | _ => if c =? "0"%ch then strip_zeros rest else out end
  end.

Definition decDigitsSubUint64 (digits : bytes) (u : Z) : bytes :=
  strip_zeros (sub_digits (length digits) digits u 0).

Definition decWeightTerm (d : decNumber) : bool * bool * Z * bytes :=
  if (length (expDigits d) <=? 19)%nat then
    let m := digits_uint64 (expDigits d) in
    let (neg, mag) := decSignedAdd (expNeg d) m (adj d) in
    if mag <? decWeightTermSmallLimit then (neg, true, mag, []) else (neg, false, 0, appendDecimalUint64 [] mag)
  else
    let digits := if Bool.eqb (expNeg d) (adj d <? 0) then decDigitsAddUint64 (expDigits d) (absInt64 (adj d))
                  else decDigitsSubUint64 (expDigits d) (absInt64 (adj d)) in
    if (length digits <=? 19)%nat && (digits_uint64 digits <? decWeightTermSmallLimit)
    then (expNeg d, true, digits_uint64 digits, [])
    else (expNeg d, false, 0, digits).

Definition decWeightEqual (a b : decNumber) : bool :=
  if expFits a && expFits b then weight a =? weight b
  else
    match decWeightTerm a, decWeightTerm b with
    | (an, aSmall, aMag, aDigits), (bn, bSmall, bMag, bDigits) =>
        if negb (Bool.eqb aSmall bSmall) then false
        else if aSmall then Bool.eqb an bn && (aMag =? bMag)
        else Bool.eqb an bn && bool_decide (aDigits = bDigits)
    end.

(** ** The digit comparison *)

Fixpoint equal_digits (fuel : nat) (a b : bytes) (da db : decNumber) (i j : Z) : res unit bool :=
  match fuel with
  | O => NoFuel
  | S fuel =>
      let i := if i =? dot da then i + 1 else i in
      let j := if j =? dot db then j + 1 else j in
      let aMore := i <=? sigLast da in
      let bMore := j <=? sigLast db in
      if negb aMore || negb bMore then Ok (Bool.eqb aMore bMore)
      else
        let* x := idx a (Z.to_nat i) in
        let* y := idx b (Z.to_nat j) in
        if negb (x =? y) then Ok false else equal_digits fuel a b da db (i + 1) (j + 1)
  end.

Definition JSONNumberEqual (a b : bytes) : res unit bool :=
  if bool_decide (a = b) then Ok true
  else
    let* da := parseDecNumber a in
    let* db := parseDecNumber b in
    if zero da || zero db then Ok (Bool.eqb (zero da) (zero db))
    else if negb (Bool.eqb (neg da) (neg db)) || negb (decWeightEqual da db) then Ok false
    else equal_digits (S (length a)) a b da db (sigFirst da) (sigFirst db).

(** ** Values of digit strings *)

(** The value of a digit string, most significant digit first. *)
Definition dval (ds : bytes) : Z := fold_left (fun n c => n * 10 + (c - "0"%ch)) ds 0.

Lemma dval_acc ds z : fold_left (fun n c => n * 10 + (c - "0"%ch)) ds z = z * 10 ^ Z.of_nat (length ds) + dval ds.
Proof.
  unfold dval. revert z. induction ds as [|c ds IH]; intros z; cbn [fold_left length]; [lia|].
  rewrite IH, (IH (0 * 10 + _)). rewrite Nat2Z.inj_succ, Z.pow_succ_r by lia. lia.
Qed.

Lemma dval_cons c ds : dval (c :: ds) = (c - "0"%ch) * 10 ^ Z.of_nat (length ds) + dval ds.
Proof. unfold dval at 1. cbn [fold_left]. by rewrite dval_acc. Qed.

Lemma dval_app l1 l2 : dval (l1 ++ l2) = dval l1 * 10 ^ Z.of_nat (length l2) + dval l2.
Proof. unfold dval at 1. rewrite fold_left_app. by rewrite dval_acc. Qed.

Lemma dval_snoc ds c : dval (ds ++ [c]) = dval ds * 10 + (c - "0"%ch).
Proof. rewrite dval_app. unfold dval at 2. cbn [fold_left length]. lia. Qed.

Lemma pow10_pos n : 0 < 10 ^ Z.of_nat n.
Proof. apply Z.pow_pos_nonneg; lia. Qed.

Lemma dval_bound ds : digits ds -> 0 <= dval ds < 10 ^ Z.of_nat (length ds).
Proof.
  induction 1 as [|c ds Hc _ IH]; [done|]. rewrite dval_cons. cbn [length].
  rewrite Nat2Z.inj_succ, Z.pow_succ_r by lia. unfold IsDigit in Hc. nia.
Qed.

(** A digit string without a leading zero. *)
Definition canonical (ds : bytes) : Prop :=
  digits ds /\ match ds with c :: _ => c <> "0"%ch | [] => True end.

Lemma canonical_lower c ds : canonical (c :: ds) -> 10 ^ Z.of_nat (length ds) <= dval (c :: ds).
Proof.
  intros [Hd Hc]. inversion_clear Hd as [|? ? H1 H2]. apply dval_bound in H2. rewrite dval_cons.
  unfold IsDigit in H1. pose proof (pow10_pos (length ds)). nia.
Qed.

Lemma dval_zeros ds : Forall (fun c => c = "0"%ch) ds -> dval ds = 0.
Proof. induction 1 as [|c ds -> _ IH]; [done|]. rewrite dval_cons, IH. lia. Qed.

Lemma dval_inj_len a b : digits a -> digits b -> length a = length b -> dval a = dval b -> a = b.
Proof.
  intros Ha. revert b. induction Ha as [|c a Hc Ha IH]; intros b Hb Hl Hv; [by destruct b|].
  destruct Hb as [|d b Hd Hb]; [done|]. injection Hl as Hl. rewrite !dval_cons, Hl in Hv.
  pose proof (dval_bound a Ha) as Ba. pose proof (dval_bound b Hb) as Bb. rewrite Hl in Ba.
  unfold IsDigit in *. pose proof (pow10_pos (length b)). assert (c = d) as -> by nia. f_equal. apply IH; [done..|lia].
Qed.

(** Canonical strings of the same value are the same string. *)
Lemma canonical_inj a b : canonical a -> canonical b -> dval a = dval b -> a = b.
Proof.
  intros Ha Hb Hv. apply dval_inj_len; [apply Ha|apply Hb| |done].
  destruct a as [|c a], b as [|d b]; [done| | |].
  - apply canonical_lower in Hb. pose proof (pow10_pos (length b)). change (dval []) with 0 in Hv. lia.
  - apply canonical_lower in Ha. pose proof (pow10_pos (length a)). change (dval []) with 0 in Hv. lia.
  - pose proof (canonical_lower _ _ Ha) as La. pose proof (canonical_lower _ _ Hb) as Lb.
    destruct Ha as [Ha _]. destruct Hb as [Hb _]. apply dval_bound in Ha, Hb. cbn [length] in *.
    assert (Hmono : forall n m, (n < m)%nat -> 10 ^ Z.of_nat (S n) <= 10 ^ Z.of_nat m)
      by (intros; apply Z.pow_le_mono_r; lia).
    destruct (Nat.lt_trichotomy (length a) (length b)) as [H|[->|H]]; [|done|]; apply Hmono in H; lia.
Qed.

Lemma dval_insert ds i c d :
  ds !! i = Some d ->
  dval (<[i:=c]> ds) = dval ds + (c - d) * 10 ^ Z.of_nat (length ds - 1 - i).
Proof.
  revert i. induction ds as [|x ds IH]; intros i Hi; [done|]. destruct i as [|i].
  - change (<[0%nat:=c]> (x :: ds)) with (c :: ds). injection Hi as ->. rewrite !dval_cons. cbn [length].
    replace (S (length ds) - 1 - 0)%nat with (length ds) by lia. lia.
  - change (<[S i:=c]> (x :: ds)) with (x :: <[i:=c]> ds). change (ds !! i = Some d) in Hi.
    rewrite !dval_cons, length_insert, (IH _ Hi). cbn [length].
    replace (S (length ds) - 1 - S i)%nat with (length ds - 1 - i)%nat by lia. lia.
Qed.

Lemma digits_insert ds i c : digits ds -> IsDigit c = true -> digits (<[i:=c]> ds).
Proof. intros Hd Hc. by apply Forall_insert. Qed.

Lemma digits_lookup ds i : digits ds -> (i < length ds)%nat -> exists c, ds !! i = Some c /\ 0 <= c - "0"%ch < 10.
Proof.
  intros Hd Hi. destruct (lookup_lt_is_Some_2 ds i Hi) as [c Hc]. exists c. split; [done|].
  eapply Forall_lookup_1 in Hd; [|exact Hc]. unfold IsDigit in Hd. simpl in Hd. lia.
Qed.

(** ** Addition and subtraction of a word *)

Lemma pow10_S n : 10 ^ Z.of_nat (S n) = 10 * 10 ^ Z.of_nat n.
Proof. rewrite Nat2Z.inj_succ, Z.pow_succ_r by lia. done. Qed.

Lemma add_digits_spec i out u :
  digits out -> (i <= length out)%nat -> 0 <= u ->
  dval out + u * 10 ^ Z.of_nat (length out - i) < 10 ^ Z.of_nat (length out) ->
  let r := add_digits i out u in
  digits r /\ length r = length out /\ dval r = dval out + u * 10 ^ Z.of_nat (length out - i).
Proof.
  revert out u. induction i as [|i IH]; intros out u Hd Hi Hu Hb; cbn [add_digits].
  - rewrite Nat.sub_0_r in *. pose proof (dval_bound out Hd). assert (u = 0) as -> by nia. split_and!; (done || lia).
  - destruct (Z.eqb_spec u 0) as [->|Hne]; [cbv zeta; split_and!; (done || lia)|].
    destruct (digits_lookup out i Hd ltac:(lia)) as (c & Hc & Hcd). rewrite Hc. change (default 0 (Some c)) with c.
    set (k := (length out - S i)%nat) in *. assert (Hk : (length out - i = S k)%nat) by lia.
    assert (Hins : forall s v, 0 <= s < 10 -> 0 <= v -> s + 10 * v = c - "0"%ch + u ->
      let r := add_digits i (<[i:="0"%ch + s]> out) v in
      digits r /\ length r = length out /\ dval r = dval out + u * 10 ^ Z.of_nat k).
    { intros s v Hs Hv Heq. assert (Hdi : digits (<[i:="0"%ch + s]> out)) by (apply digits_insert; [done|unfold IsDigit; lia]).
      assert (Hval : dval (<[i:="0"%ch + s]> out) + v * 10 ^ Z.of_nat (S k) = dval out + u * 10 ^ Z.of_nat k).
      { rewrite (dval_insert _ _ _ c Hc).
        replace (length out - 1 - i)%nat with k by lia. rewrite pow10_S.
        replace u with (s + 10 * v - c + "0"%ch) by lia. ring. }
      specialize (IH (<[i:="0"%ch + s]> out) v Hdi). rewrite length_insert, Hk in IH.
      destruct IH as (H1 & H2 & H3); [lia|lia|lia|]. cbv zeta. split_and!; [done|done|lia]. }
    cbv zeta in *. pose proof (Z.div_mod u 10 ltac:(lia)). pose proof (Z.mod_pos_bound u 10 ltac:(lia)).
    pose proof (Z.div_pos u 10 ltac:(lia) ltac:(lia)).
    destruct (Z.leb_spec 10 (c - "0"%ch + u mod 10)); apply Hins; lia.
Qed.

Lemma sub_digits_spec i out u b :
  digits out -> (i <= length out)%nat -> 0 <= u -> 0 <= b <= 1 ->
  0 <= dval out - (u + b) * 10 ^ Z.of_nat (length out - i) ->
  let r := sub_digits i out u b in
  digits r /\ length r = length out /\ dval r = dval out - (u + b) * 10 ^ Z.of_nat (length out - i).
Proof.
  revert out u b. induction i as [|i IH]; intros out u b Hd Hi Hu Hb Hpos; cbn [sub_digits].
  - rewrite Nat.sub_0_r in *. pose proof (dval_bound out Hd). assert (u = 0 /\ b = 0) as [-> ->] by nia.
    cbv zeta. split_and!; (done || lia).
  - destruct ((u =? 0) && (b =? 0)) eqn:Hz; [cbv zeta; split_and!; [done|done|]|].
    { assert (u = 0 /\ b = 0) as [-> ->] by lia. lia. }
    destruct (digits_lookup out i Hd ltac:(lia)) as (c & Hc & Hcd). rewrite Hc. change (default 0 (Some c)) with c.
    set (k := (length out - S i)%nat) in *. assert (Hk : (length out - i = S k)%nat) by lia.
    assert (Hins : forall x s b', x = "0"%ch + s -> 0 <= s < 10 -> 0 <= b' <= 1 ->
      s - 10 * (u / 10 + b') = c - "0"%ch - (u + b) ->
      let r := sub_digits i (<[i:=x]> out) (u / 10) b' in
      digits r /\ length r = length out /\ dval r = dval out - (u + b) * 10 ^ Z.of_nat k).
    { intros x s b' -> Hs Hb' Heq.
      assert (Hdi : digits (<[i:="0"%ch + s]> out)) by (apply digits_insert; [done|unfold IsDigit; lia]).
      assert (Hval : dval (<[i:="0"%ch + s]> out) - (u / 10 + b') * 10 ^ Z.of_nat (S k) = dval out - (u + b) * 10 ^ Z.of_nat k).
      { rewrite (dval_insert _ _ _ c Hc).
        replace (length out - 1 - i)%nat with k by lia. rewrite pow10_S. revert Heq. generalize (u / 10). intros q Heq.
        replace (u + b) with (c - "0"%ch - s + 10 * (q + b')) by lia. ring. }
      specialize (IH (<[i:="0"%ch + s]> out) (u / 10) b' Hdi). rewrite length_insert, Hk in IH.
      pose proof (Z.div_pos u 10 ltac:(lia) ltac:(lia)).
      destruct IH as (H1 & H2 & H3); [lia|lia|lia|lia|]. cbv zeta. split_and!; [done|done|lia]. }
    cbv zeta in *. pose proof (Z.div_mod u 10 ltac:(lia)). pose proof (Z.mod_pos_bound u 10 ltac:(lia)).
    destruct (Z.leb_spec (u mod 10 + b) (c - "0"%ch)).
    + apply (Hins _ (c - "0"%ch - (u mod 10 + b))); lia.
    + apply (Hins _ (c - "0"%ch + 10 - (u mod 10 + b))); lia.
Qed.

(** ** The weight as a canonical integer *)

Lemma canonical_of_value ds : digits ds -> 10 ^ Z.of_nat (length ds) <= 10 * dval ds -> canonical ds.
Proof.
  intros Hd Hv. split; [done|]. destruct ds as [|c ds]; [done|]. intros ->.
  inversion_clear Hd as [|? ? _ H]. apply dval_bound in H. rewrite dval_cons in Hv.
  cbn [length] in Hv. rewrite pow10_S in Hv. lia.
Qed.

Lemma strip_zeros_spec ds :
  digits ds -> 0 < dval ds -> canonical (strip_zeros ds) /\ dval (strip_zeros ds) = dval ds.
Proof.
  induction 1 as [|c ds Hc Hd IH]; intros Hv; [done|]. destruct ds as [|d ds].
  - cbn [strip_zeros]. split; [|done]. split; [by repeat constructor|]. intros ->. cbn in Hv. lia.
  - change (strip_zeros (c :: d :: ds)) with (if c =? "0"%ch then strip_zeros (d :: ds) else c :: d :: ds).
    destruct (Z.eqb_spec c "0"%ch) as [->|Hne].
    + assert (Heq : dval ("0"%ch :: d :: ds) = dval (d :: ds)) by (rewrite (dval_cons "0"%ch); lia).
      rewrite Heq in *. by apply IH.
    + split; [|done]. split; [by constructor|done].
Qed.

Lemma decDigitsAddUint64_spec ds u :
  canonical ds -> ds <> [] -> 0 <= u < 10 ^ Z.of_nat (length ds) ->
  canonical (decDigitsAddUint64 ds u) /\ dval (decDigitsAddUint64 ds u) = dval ds + u /\
  (length ds <= length (decDigitsAddUint64 ds u))%nat.
Proof.
  intros Hc Hne Hu. pose proof (proj1 Hc) as Hd. pose proof (dval_bound _ Hd).
  assert (Hlow : 10 ^ Z.of_nat (length ds) <= 10 * dval ds).
  { destruct ds as [|c t]; [done|]. pose proof (canonical_lower _ _ Hc). cbn [length]. rewrite pow10_S. lia. }
  assert (Hz : dval ("0"%ch :: ds) = dval ds) by (rewrite dval_cons; lia).
  pose proof (add_digits_spec (length ds + 1) ("0"%ch :: ds) u) as (H1 & H2 & H3).
  { by constructor. } { cbn [length]. lia. } { lia. }
  { rewrite Hz. cbn [length]. replace (S (length ds) - (length ds + 1))%nat with 0%nat by lia. rewrite pow10_S. lia. }
  rewrite Hz in H3. cbn [length] in *. replace (S (length ds) - (length ds + 1))%nat with 0%nat in H3 by lia.
  change (10 ^ Z.of_nat 0) with 1 in H3. unfold decDigitsAddUint64.
  destruct (add_digits (length ds + 1) ("0"%ch :: ds) u) as [|c out]; [done|]. injection H2 as H2.
  unfold at_byte. cbn [lookup list_lookup]. destruct (Z.eqb_spec c "0"%ch) as [->|Hnz].
  - change (drop 1 ("0"%ch :: out)) with out. rewrite dval_cons in H3. inversion_clear H1.
    split_and!; [apply canonical_of_value; [done|rewrite H2; lia]|lia|lia].
  - split_and!; [by split|lia|simpl; lia].
Qed.

Lemma decDigitsSubUint64_spec ds u :
  digits ds -> 0 <= u < dval ds ->
  canonical (decDigitsSubUint64 ds u) /\ dval (decDigitsSubUint64 ds u) = dval ds - u.
Proof.
  intros Hd Hu. pose proof (sub_digits_spec (length ds) ds u 0 Hd) as (H1 & _ & H3); [lia|lia|lia| |].
  { rewrite Nat.sub_diag. change (10 ^ Z.of_nat 0) with 1. lia. }
  rewrite Nat.sub_diag in H3. change (10 ^ Z.of_nat 0) with 1 in H3.
  unfold decDigitsSubUint64. destruct (strip_zeros_spec _ H1); [lia|]. split; [done|lia].
Qed.

Lemma decimal_loop_app fuel v buf : decimal_loop fuel v buf = decimal_loop fuel v [] ++ buf.
Proof.
  revert v buf. induction fuel as [|fuel IH]; intros v buf; [done|]. cbn [decimal_loop]. cbv zeta.
  case_step; [done|]. rewrite IH. symmetry. rewrite IH. rewrite <- app_assoc. done.
Qed.

Lemma decimal_loop_spec fuel v :
  0 < v < 10 ^ Z.of_nat fuel -> canonical (decimal_loop fuel v []) /\ dval (decimal_loop fuel v []) = v /\
  decimal_loop fuel v [] <> [].
Proof.
  revert v. induction fuel as [|fuel IH]; intros v Hv; [cbn in Hv; lia|]. rewrite pow10_S in Hv.
  cbn [decimal_loop]. cbv zeta. pose proof (Z.div_mod v 10 ltac:(lia)). pose proof (Z.mod_pos_bound v 10 ltac:(lia)).
  pose proof (Z.div_pos v 10 ltac:(lia) ltac:(lia)).
  assert (Hdig : IsDigit ("0"%ch + v mod 10) = true) by (unfold IsDigit; lia).
  destruct (Z.eqb_spec (v / 10) 0) as [Hz|Hz].
  - split_and!; [|cbn; lia|done]. split; [by repeat constructor|lia].
  - rewrite decimal_loop_app. destruct (IH (v / 10)) as ((Hd & Hz0) & Hval & Hne); [lia|].
    split_and!; [split|rewrite dval_snoc, Hval; lia|by destruct (decimal_loop _ _ _)].
    + apply Forall_app. split; [done|by repeat constructor].
    + by destruct (decimal_loop fuel (v / 10) []).
Qed.

Lemma digits_uint64_dval ds : digits ds -> (length ds <= 19)%nat -> digits_uint64 ds = dval ds.
Proof.
  unfold digits_uint64, dval. intros Hd. induction ds as [|c ds IH] using rev_ind; [done|].
  rewrite length_app. cbn [length]. intros Hl. rewrite !fold_left_app. cbn [fold_left].
  apply Forall_app in Hd as [Hd Hc]. rewrite IH by (done || lia).
  inversion_clear Hc as [|? ? Hcd _]. pose proof (dval_bound ds Hd) as Hb. unfold dval in Hb.
  assert (10 ^ Z.of_nat (length ds) <= 10 ^ 18) by (apply Z.pow_le_mono_r; lia).
  unfold IsDigit in Hcd. unfold w64. apply Z.mod_small. lia.
Qed.

Lemma digits_int64_dval ds : digits ds -> (length ds <= 18)%nat -> digits_int64 ds = dval ds.
Proof.
  unfold digits_int64, dval. intros Hd. induction ds as [|c ds IH] using rev_ind; [done|].
  rewrite length_app. cbn [length]. intros Hl. rewrite !fold_left_app. cbn [fold_left].
  apply Forall_app in Hd as [Hd Hc]. rewrite IH by (done || lia).
  inversion_clear Hc as [|? ? Hcd _]. pose proof (dval_bound ds Hd) as Hb. unfold dval in Hb.
  assert (10 ^ Z.of_nat (length ds) <= 10 ^ 17) by (apply Z.pow_le_mono_r; lia).
  unfold IsDigit in Hcd. unfold i64. rewrite Z.mod_small; lia.
Qed.

Definition signed (neg : bool) (n : Z) : Z := if neg then - n else n.

(** What [decWeightTerm] computes: the integer [W], either as a sign and a word
    below the limit or as a sign and its canonical digits. *)
Definition term_of (W : Z) (t : bool * bool * Z * bytes) : Prop :=
  let '(neg, small, mag, ds) := t in
  neg = (W <? 0) /\ small = (Z.abs W <? decWeightTermSmallLimit) /\
  if small then mag = Z.abs W /\ ds = [] else mag = 0 /\ canonical ds /\ dval ds = Z.abs W.

(** The exponent fields of a decomposition, for the exact exponent [E]. *)
Record exp_fields (d : decNumber) (E : Z) : Prop := {
  ef_canonical : canonical (expDigits d);
  ef_value : E = signed (expNeg d) (dval (expDigits d));
  ef_fits : expFits d = (length (expDigits d) <=? 18)%nat;
  ef_weight : expFits d = true -> weight d = E + adj d;
  ef_adj : - 2 ^ 62 < adj d < 2 ^ 62
  }.

Lemma absInt64_abs v : - 2 ^ 62 < v < 2 ^ 62 -> absInt64 v = Z.abs v.
Proof. unfold absInt64, w64. intros. case_step; rewrite Z.mod_small by lia; lia. Qed.

Lemma decSignedAdd_spec neg m a :
  0 <= m < 10 ^ 19 -> - 2 ^ 62 < a < 2 ^ 62 ->
  decSignedAdd neg m a = (signed neg m + a <? 0, Z.abs (signed neg m + a)).
Proof.
  intros Hm Ha. unfold decSignedAdd. rewrite absInt64_abs by done. cbv zeta. unfold w64, signed.
  destruct neg, (Z.ltb_spec a 0); cbn [Bool.eqb]; try (rewrite Z.mod_small by lia; f_equal; lia);
    destruct (Z.leb_spec (Z.abs a) m); try (rewrite Z.mod_small by lia); f_equal; cbn [andb negb]; lia.
Qed.

Lemma canonical_len_le ds n : canonical ds -> (0 < n)%nat -> (length ds <= n)%nat <-> dval ds < 10 ^ Z.of_nat n.
Proof.
  intros Hc Hn. pose proof (dval_bound _ (proj1 Hc)) as Hb. destruct ds as [|c ds].
  - cbn [length]. pose proof (pow10_pos n). change (dval []) with 0. split; lia.
  - pose proof (canonical_lower _ _ Hc) as Hl. cbn [length] in *. split; intros H.
    + assert (10 ^ Z.of_nat (S (length ds)) <= 10 ^ Z.of_nat n) by (apply Z.pow_le_mono_r; lia). lia.
    + destruct (Nat.le_gt_cases (S (length ds)) n) as [|Hgt]; [done|].
      assert (10 ^ Z.of_nat n <= 10 ^ Z.of_nat (length ds)) by (apply Z.pow_le_mono_r; lia). lia.
Qed.

(** The tail of the wide branch: digits of the magnitude to a term. *)
Lemma wide_term W neg ds :
  neg = (W <? 0) -> canonical ds -> dval ds = Z.abs W ->
  term_of W (if (length ds <=? 19)%nat && (digits_uint64 ds <? decWeightTermSmallLimit)
             then (neg, true, digits_uint64 ds, []) else (neg, false, 0, ds)).
Proof.
  intros Hneg Hc Hv. pose proof (canonical_len_le ds 19 Hc ltac:(lia)) as Hl.
  change (10 ^ Z.of_nat 19) with decWeightTermSmallLimit in Hl.
  destruct (Nat.leb_spec (length ds) 19) as [Hle|Hgt]; cbn [andb].
  - rewrite digits_uint64_dval by (done || apply Hc). apply Hl in Hle as Hlt.
    rewrite (proj2 (Z.ltb_lt _ _) Hlt). unfold term_of. split_and!; [done|lia|lia|done].
  - assert (decWeightTermSmallLimit <= dval ds) by lia. unfold term_of. split_and!; [done|lia|done|done|done].
Qed.

Lemma decWeightTerm_spec d E : exp_fields d E -> term_of (E + adj d) (decWeightTerm d).
Proof.
  intros [Hc -> _ _ Ha]. pose proof (dval_bound _ (proj1 Hc)) as Hb. unfold decWeightTerm.
  pose proof (canonical_len_le _ 19 Hc ltac:(lia)) as Hl. change (Z.of_nat 19) with 19 in Hl.
  destruct (Nat.leb_spec (length (expDigits d)) 19) as [Hle|Hgt].
  - apply Hl in Hle as Hlt. rewrite digits_uint64_dval by (done || apply Hc). cbv zeta.
    rewrite decSignedAdd_spec by lia. set (W := signed _ _ + adj d).
    assert (Z.abs W < 10 ^ 20) by (unfold W, signed; case_step; lia).
    destruct (Z.ltb_spec (Z.abs W) decWeightTermSmallLimit) as [Hs|Hs].
    { unfold term_of. split_and!; [done|lia|done|done]. }
    unfold decWeightTermSmallLimit in Hs.
    destruct (decimal_loop_spec 20 (Z.abs W)) as (H1 & H2 & _); [change (Z.of_nat 20) with 20; lia|].
    unfold term_of, appendDecimalUint64. rewrite app_nil_l. unfold decWeightTermSmallLimit. split_and!; [done|lia|done|done|done].
  - assert (Hbig : 10 ^ 19 <= dval (expDigits d)) by lia.
    assert (10 ^ 19 <= 10 ^ Z.of_nat (length (expDigits d))) by (apply Z.pow_le_mono_r; lia).
    rewrite absInt64_abs by done. cbv zeta.
    destruct (Bool.eqb (expNeg d) (adj d <? 0)) eqn:Heq.
    + apply eqb_prop in Heq.
      destruct (decDigitsAddUint64_spec (expDigits d) (Z.abs (adj d))) as (H1 & H2 & _);
        [done|by intros Hnil; rewrite Hnil in Hgt; simpl in Hgt; lia|lia|].
      apply wide_term; [|done|]; rewrite ?H2; unfold signed; destruct (expNeg d); lia.
    + apply eqb_false_iff in Heq.
      destruct (decDigitsSubUint64_spec (expDigits d) (Z.abs (adj d))) as (H1 & H2); [apply Hc|lia|].
      apply wide_term; [|done|]; rewrite ?H2; unfold signed; destruct (expNeg d); lia.
Qed.

Lemma decWeightEqual_spec da db Ea Eb :
  exp_fields da Ea -> exp_fields db Eb -> decWeightEqual da db = (Ea + adj da =? Eb + adj db).
Proof.
  intros Ha Hb. unfold decWeightEqual. destruct (expFits da && expFits db) eqn:Hf.
  { apply andb_prop in Hf as [Hfa Hfb]. by rewrite (ef_weight _ _ Ha Hfa), (ef_weight _ _ Hb Hfb). }
  apply decWeightTerm_spec in Ha, Hb. set (Wa := Ea + adj da) in *. set (Wb := Eb + adj db) in *.
  destruct (decWeightTerm da) as [[[an asm] am] ad], (decWeightTerm db) as [[[bn bsm] bm] bd].
  destruct Ha as (-> & -> & Ha), Hb as (-> & -> & Hb). apply eq_true_iff_eq. rewrite Z.eqb_eq.
  destruct (Z.ltb_spec (Z.abs Wa) decWeightTermSmallLimit) as [H1|H1],
           (Z.ltb_spec (Z.abs Wb) decWeightTermSmallLimit) as [H2|H2]; cbn [Bool.eqb negb].
  - destruct Ha as [-> _], Hb as [-> _]. rewrite andb_true_iff, eqb_true_iff, Z.eqb_eq. lia.
  - split; [done|lia].
  - split; [done|lia].
  - destruct Ha as (_ & Hca & Hva), Hb as (_ & Hcb & Hvb).
    rewrite andb_true_iff, eqb_true_iff, bool_decide_eq_true. split.
    + intros [Hs ->]. lia.
    + intros Heq. split; [by rewrite Heq|]. apply canonical_inj; [done..|]. by rewrite Hva, Hvb, Heq.
Qed.

(** ** The digits from a position to the last significant one *)

Definition rest (src : bytes) (last dot i : Z) : bytes :=
  let seg := take (Z.to_nat (last + 1 - i)) (drop (Z.to_nat i) src) in
  if i <=? dot then delete (Z.to_nat (dot - i)) seg else seg.

Lemma rest_done src last dot i : last < i -> rest src last dot i = [].
Proof. intros H. unfold rest. replace (Z.to_nat (last + 1 - i)) with 0%nat by lia. by case_step. Qed.

Lemma seg_step src last i :
  0 <= i <= last -> last < Z.of_nat (length src) ->
  exists c, idx src (Z.to_nat i) = (Ok c : res unit Z) /\
    take (Z.to_nat (last + 1 - i)) (drop (Z.to_nat i) src)
    = c :: take (Z.to_nat (last + 1 - (i + 1))) (drop (Z.to_nat (i + 1)) src).
Proof.
  intros Hi Hl. destruct (lookup_lt_is_Some_2 src (Z.to_nat i)) as [c Hc]; [lia|]. exists c.
  unfold idx. rewrite Hc. split; [done|]. rewrite (drop_S _ _ _ Hc).
  replace (Z.to_nat (last + 1 - i)) with (S (Z.to_nat (last + 1 - (i + 1)))) by lia.
  replace (Z.to_nat (i + 1)) with (S (Z.to_nat i)) by lia. done.
Qed.

Lemma rest_step src last dot i :
  0 <= i <= last -> last < Z.of_nat (length src) -> i <> dot ->
  exists c, idx src (Z.to_nat i) = (Ok c : res unit Z) /\ rest src last dot i = c :: rest src last dot (i + 1).
Proof.
  intros Hi Hl Hd. destruct (seg_step src last i Hi Hl) as (c & Hc & Hs). exists c. split; [done|].
  unfold rest. rewrite Hs. destruct (Z.leb_spec i dot); destruct (Z.leb_spec (i + 1) dot); [|lia|lia|done].
  replace (Z.to_nat (dot - i)) with (S (Z.to_nat (dot - (i + 1)))) by lia. done.
Qed.

Lemma rest_skip src last dot :
  0 <= dot -> last < Z.of_nat (length src) -> rest src last dot dot = rest src last dot (dot + 1).
Proof.
  intros Hd Hl. destruct (Z.le_gt_cases dot last) as [H|H]; [|rewrite !rest_done by lia; done].
  destruct (seg_step src last dot ltac:(lia) Hl) as (c & _ & Hs). unfold rest. rewrite Hs.
  rewrite Z.leb_refl, Z.sub_diag. by replace (dot + 1 <=? dot) with false by lia.
Qed.

(** Enough fuel is one more than the bytes left of the first number: the loop
    reads in range and decides whether the digit strings agree. *)
Lemma equal_digits_spec fuel a b da db i j :
  sigLast da < Z.of_nat (length a) -> sigLast db < Z.of_nat (length b) ->
  0 <= i -> 0 <= j -> Z.of_nat (length a) - i < Z.of_nat fuel -> (0 < fuel)%nat ->
  equal_digits fuel a b da db i j
  = Ok (bool_decide (rest a (sigLast da) (dot da) i = rest b (sigLast db) (dot db) j)).
Proof.
  intros Ha Hb. revert i j. induction fuel as [|fuel IH]; intros i j Hi Hj Hf H0; [lia|].
  cbn [equal_digits]. cbv zeta.
  assert (Hskip : forall (s : bytes) l d k, l < Z.of_nat (length s) -> 0 <= k ->
    exists k', (if k =? d then k + 1 else k) = k' /\ rest s l d k = rest s l d k' /\ k' <> d /\ k <= k').
  { intros s l d k Hl Hk. eexists. split; [reflexivity|]. destruct (Z.eqb_spec k d) as [->|]; [|done].
    split_and!; [by apply rest_skip|lia|lia]. }
  destruct (Hskip a (sigLast da) (dot da) i Ha Hi) as (i' & -> & -> & Hdi & Hii).
  destruct (Hskip b (sigLast db) (dot db) j Hb Hj) as (j' & -> & -> & Hdj & Hjj). clear Hskip.
  destruct (Z.leb_spec i' (sigLast da)) as [H1|H1]; cbn [negb orb].
  - destruct (rest_step a (sigLast da) (dot da) i' ltac:(lia) Ha Hdi) as (x & Hx & ->).
    destruct (Z.leb_spec j' (sigLast db)) as [H2|H2]; cbn [negb orb Bool.eqb].
    + destruct (rest_step b (sigLast db) (dot db) j' ltac:(lia) Hb Hdj) as (y & Hy & ->). rewrite Hx, Hy. cbn.
      destruct (Z.eqb_spec x y) as [->|Hne]; cbn [negb].
      * rewrite IH by lia. f_equal. apply bool_decide_ext. split; [by intros ->|by intros [= ?]].
      * f_equal. symmetry. apply bool_decide_eq_false. by intros [= ? _].
    + rewrite (rest_done b) by lia. f_equal.
  - rewrite (rest_done a) by lia. destruct (Z.leb_spec j' (sigLast db)) as [H2|H2]; cbn [Bool.eqb].
    + destruct (rest_step b (sigLast db) (dot db) j' ltac:(lia) Hb Hdj) as (y & _ & ->). f_equal.
    + by rewrite (rest_done b) by lia.
Qed.

(** ** Leading and trailing zeros *)

Definition zeros (n : nat) : bytes := replicate n "0"%ch.
Definition all_zero (s : bytes) : Prop := Forall (fun c => c = "0"%ch) s.

Lemma all_zero_zeros s : all_zero s -> s = zeros (length s).
Proof. induction 1 as [|c s -> _ IH]; [done|]. cbn [length]. unfold zeros in *. cbn [replicate]. by f_equal. Qed.

Lemma zeros_all n : all_zero (zeros n).
Proof. by apply Forall_replicate. Qed.

Lemma first_split s : all_zero s \/ exists z c t, s = zeros z ++ c :: t /\ c <> "0"%ch.
Proof.
  induction s as [|c s IH]; [by left; constructor|]. destruct (Z.eq_dec c "0"%ch) as [->|Hc].
  - destruct IH as [IH|(z & c & t & -> & Hc)]; [left; by constructor|right; by exists (S z), c, t].
  - right. by exists 0%nat, c, s.
Qed.

Lemma last_split s : all_zero s \/ exists t c m, s = t ++ c :: zeros m /\ c <> "0"%ch.
Proof.
  induction s as [|d s IH]; [by left; constructor|].
  destruct IH as [IH|(t & c & m & -> & Hc)]; [|right; by exists (d :: t), c, m].
  destruct (Z.eq_dec d "0"%ch) as [->|Hd]; [left; by constructor|]. right. exists [], d, (length s).
  by rewrite <- all_zero_zeros.
Qed.

Lemma trim_split z c t A d m :
  zeros z ++ c :: t = A ++ d :: zeros m -> d <> "0"%ch -> exists k, A = zeros z ++ k /\ c :: t = k ++ d :: zeros m.
Proof.
  intros Heq Hd. apply app_eq_inv in Heq as [(k & Hz & Hk)|(k & -> & Hk)]; [|by exists k].
  destruct k as [|x k].
  - rewrite app_nil_r in Hz. exists []. by rewrite app_nil_r.
  - injection Hk as <- _. pose proof (zeros_all z) as Hall. rewrite Hz in Hall.
    apply Forall_app in Hall as [_ Hall]. by inversion_clear Hall.
Qed.

Lemma span_lookup (l : bytes) i s j k : span l i s j -> (k < length s)%nat -> l !! (i + k)%nat = s !! k.
Proof. intros (H & _) Hk. rewrite <- lookup_drop, H. by apply lookup_app_l. Qed.

Lemma span_idx (l : bytes) i s j k c : span l i s j -> s !! k = Some c -> idx l (i + k) = (Ok c : res unit Z).
Proof.
  intros Hs Hc. pose proof (lookup_lt_Some _ _ _ Hc). unfold idx. by rewrite (span_lookup _ _ _ _ _ Hs), Hc.
Qed.

Lemma next_nonzero_none src i s j : span src i s j -> all_zero s -> next_nonzero (length s) src i = Ok None.
Proof.
  intros Hsp Hs. revert i Hsp. induction Hs as [|c s -> _ IH]; intros i Hsp; [done|].
  apply span_cons in Hsp as [Hc Hsp]. cbn [length next_nonzero]. unfold idx. rewrite Hc. cbn. by apply IH.
Qed.

Lemma next_nonzero_some src i z c t j :
  span src i (zeros z ++ c :: t) j -> c <> "0"%ch ->
  next_nonzero (length (zeros z ++ c :: t)) src i = Ok (Some (i + z)%nat).
Proof.
  intros Hsp Hc. revert i Hsp. induction z as [|z IH]; intros i Hsp.
  - change (zeros 0 ++ c :: t) with (c :: t) in *. apply span_cons in Hsp as [Hi _]. cbn [length next_nonzero].
    unfold idx. rewrite Hi. cbn. rewrite (proj2 (Z.eqb_neq _ _) Hc). by rewrite Nat.add_0_r.
  - change (zeros (S z) ++ c :: t) with ("0"%ch :: zeros z ++ c :: t) in *. apply span_cons in Hsp as [Hi Hsp].
    cbn [length next_nonzero]. unfold idx. rewrite Hi. cbn [res_bind]. rewrite Z.eqb_refl, (IH _ Hsp). do 2 f_equal. lia.
Qed.

Lemma prev_nonzero_step src i s c j :
  span src i (s ++ [c]) j ->
  prev_nonzero (length (s ++ [c])) src i
  = if c =? "0"%ch then prev_nonzero (length s) src i else Ok (Some (i + length s)%nat).
Proof.
  intros Hsp. rewrite length_app, Nat.add_1_r. cbn [prev_nonzero].
  rewrite (span_idx _ _ _ _ (length s) c Hsp); [done|]. by rewrite lookup_app_r, Nat.sub_diag by lia.
Qed.

Lemma span_init (l : bytes) i s t j : span l i (s ++ t) j -> span l i s (i + length s).
Proof. intros H. by apply span_split in H as [H _]. Qed.

Lemma prev_nonzero_none src i s j : span src i s j -> all_zero s -> prev_nonzero (length s) src i = Ok None.
Proof.
  revert j. induction s as [|c s IH] using rev_ind; intros j Hsp Hs; [done|].
  apply Forall_app in Hs as [Hs Hc]. inversion_clear Hc as [|? ? -> _].
  rewrite (prev_nonzero_step _ _ _ _ _ Hsp). cbn. eapply IH; [|done]. by eapply span_init.
Qed.

Lemma zeros_snoc m : zeros (S m) = zeros m ++ ["0"%ch].
Proof. unfold zeros. by rewrite replicate_S_end. Qed.

Lemma prev_nonzero_some src i t c m j :
  span src i (t ++ c :: zeros m) j -> c <> "0"%ch ->
  prev_nonzero (length (t ++ c :: zeros m)) src i = Ok (Some (i + length t)%nat).
Proof.
  intros Hsp Hc. revert j Hsp. induction m as [|m IH]; intros j Hsp.
  - change (t ++ c :: zeros 0) with (t ++ [c]) in *. rewrite (prev_nonzero_step _ _ _ _ _ Hsp). by rewrite (proj2 (Z.eqb_neq _ _) Hc).
  - replace (t ++ c :: zeros (S m)) with ((t ++ c :: zeros m) ++ ["0"%ch]) in *
      by (rewrite zeros_snoc; by rewrite <- app_assoc).
    rewrite (prev_nonzero_step _ _ _ _ _ Hsp). cbn. eapply IH. by eapply span_init.
Qed.

(** ** Where the digits of a number lie *)

Record num_layout (src int fr : bytes) (i0 i1 fs fe : nat) (dt : Z) : Prop := {
  nl_before : span src 0 (take i0 src) i0;
  nl_int : span src i0 int i1;
  nl_frac : span src fs fr fe;
  nl_jint : jint int;
  nl_dot : dt = -1 /\ fr = [] \/ dt = Z.of_nat i1 /\ fs = S i1 /\ fr <> []
  }.

Section Layout.
Context (src int fr : bytes) (i0 i1 fs fe : nat) (dt : Z).
Hypothesis L : num_layout src int fr i0 i1 fs fe dt.

(** The position of the [k]-th digit. *)
Definition dpos (k : nat) : nat := i0 + k + (if (dt <? 0) || (k <? length int)%nat then 0 else 1).

Lemma layout_ends : i1 = (i0 + length int)%nat /\ fe = (fs + length fr)%nat.
Proof using L. destruct L as [_ H1 H2 _ _]. by apply span_len in H1, H2. Qed.

Lemma dpos_lookup k : (k < length (int ++ fr))%nat -> src !! dpos k = (int ++ fr) !! k.
Proof using L.
  intros Hk. pose proof layout_ends as [-> _]. destruct L as [_ H1 H2 _ Hd]. unfold dpos. rewrite length_app in Hk.
  destruct (Nat.ltb_spec k (length int)) as [Hlt|Hge].
  - rewrite orb_true_r, Nat.add_0_r, (span_lookup _ _ _ _ _ H1) by done. by rewrite lookup_app_l.
  - destruct Hd as [[-> ->]|(-> & -> & _)]; [simpl in Hk; lia|]. rewrite lookup_app_r by done.
    rewrite (proj2 (Z.ltb_ge _ _)) by lia. cbn [orb]. rewrite <- (span_lookup _ _ _ _ _ H2) by lia. f_equal. lia.
Qed.

Lemma dpos_next k :
  (k < length (int ++ fr))%nat ->
  Z.of_nat (dpos k) <> dt /\
  (Z.of_nat (dpos (S k)) = Z.of_nat (dpos k) + 1 \/
  Z.of_nat (dpos k) + 1 = dt /\ Z.of_nat (dpos (S k)) = dt + 1).
Proof using L.
  intros Hk. pose proof layout_ends as [-> _]. destruct L as [_ _ _ _ Hd]. unfold dpos. rewrite length_app in Hk.
  destruct Hd as [[-> ->]|(-> & _ & _)]; cbn [Z.ltb Z.compare orb length] in *; [lia|].
  rewrite (proj2 (Z.ltb_ge _ _)) by lia. cbn [orb].
  destruct (Nat.ltb_spec k (length int)), (Nat.ltb_spec (S k) (length int)); lia.
Qed.

(** The digits from the [k]-th to the [l]-th, read past the point. *)
Lemma rest_digits l n k :
  (l < length (int ++ fr))%nat -> (k + n = S l)%nat ->
  rest src (Z.of_nat (dpos l)) dt (Z.of_nat (dpos k)) = take n (drop k (int ++ fr)).
Proof using L.
  intros Hl. assert (Hin : Z.of_nat (dpos l) < Z.of_nat (length src)).
  { pose proof (dpos_lookup l Hl) as H. destruct (lookup_lt_is_Some_2 _ _ Hl) as [c Hc]. rewrite Hc in H.
  apply lookup_lt_Some in H. lia. }
  assert (Hmono : forall k, (k <= l)%nat -> Z.of_nat (dpos k) <= Z.of_nat (dpos l)).
  { intros j Hj. unfold dpos. destruct (dt <? 0); cbn [orb]; [lia|].
  destruct (Nat.ltb_spec j (length int)), (Nat.ltb_spec l (length int)); lia. }
  revert k. induction n as [|n IH]; intros k Hk.
  - rewrite rest_done; [done|]. replace k with (S l) by lia. destruct (dpos_next l Hl). lia.
  - destruct (dpos_next k ltac:(lia)) as [Hne Hnext].
    destruct (rest_step src (Z.of_nat (dpos l)) dt (Z.of_nat (dpos k))) as (c & Hc & ->); [|done|done|].
    { split; [lia|apply Hmono; lia]. }
    unfold idx in Hc. rewrite Nat2Z.id, dpos_lookup in Hc by lia.
    destruct ((int ++ fr) !! k) as [c'|] eqn:Hk'; [|done]. injection Hc as ->. rewrite (drop_S _ _ _ Hk').
    cbn [take]. f_equal. rewrite <- IH by lia. destruct Hnext as [->|[He ->]]; [done|].
    rewrite He. apply rest_skip; [lia|done].
Qed.

Lemma parse_first_spec :
  (all_zero (int ++ fr) /\ parse_first src i0 i1 fs fe = Ok None) \/
  exists z c t, int ++ fr = zeros z ++ c :: t /\ c <> "0"%ch /\
  parse_first src i0 i1 fs fe = Ok (Some (Z.of_nat (dpos z), Z.of_nat (length int) - 1 - Z.of_nat z)).
Proof using L.
  pose proof layout_ends as [He Hf]. pose proof L as [_ H1 H2 Hj Hd]. unfold parse_first, dpos.
  replace (fe - fs)%nat with (length fr) by lia. replace (i1 - i0)%nat with (length int) by lia.
  destruct (jint_head _ Hj) as (d & t & -> & _). pose proof (span_cons _ _ _ _ _ H1) as [Hi0 _].
  unfold idx. rewrite !Hi0. cbn [res_bind]. destruct (Z.eqb_spec d "0"%ch) as [->|Hne]; cbn [negb].
  - assert (t = []) as -> by (inversion Hj; [done|subst; unfold isOneNine in *; lia]).
    destruct (first_split fr) as [Hz|(z & c & s & -> & Hc)].
    + left. rewrite (next_nonzero_none _ _ _ _ H2 Hz). split; [by constructor|done].
    + right. exists (S z), c, s. split_and!; [done|done|]. rewrite (next_nonzero_some _ _ _ _ _ _ H2 Hc). cbn.
      do 2 f_equal. destruct Hd as [[_ Hd]|(-> & -> & _)]; [by destruct z|].
      simpl in He. rewrite He, (proj2 (Z.ltb_ge _ _)) by lia. cbn. f_equal; lia.
  - right. exists 0%nat, d, (t ++ fr). split_and!; [done|done|]. do 2 f_equal. cbn [length].
    rewrite (proj2 (Nat.ltb_lt 0 (S (length t)))) by lia. rewrite orb_true_r. f_equal; lia.
Qed.

Lemma parse_last_spec :
  all_zero (int ++ fr) \/
  exists t c m, int ++ fr = t ++ c :: zeros m /\ c <> "0"%ch /\ parse_last src i1 fs fe = Ok (dpos (length t)).
Proof using L.
  pose proof layout_ends as [He Hf]. pose proof L as [H0 H1 H2 Hj Hd]. unfold parse_last, dpos.
  replace (fe - fs)%nat with (length fr) by lia. destruct (last_split fr) as [Hz|(t & c & m & -> & Hc)].
  - rewrite (prev_nonzero_none _ _ _ _ H2 Hz). cbn [res_bind].
    destruct (last_split int) as [Hi|(t & c & m & -> & Hc)]; [left; by apply Forall_app|]. right.
    exists t, c, (m + length fr)%nat. split_and!; [|done|].
    { rewrite (all_zero_zeros _ Hz) at 1. unfold zeros. rewrite replicate_add. by norm_app. }
    pose proof (span_app _ _ _ _ _ _ H0 H1) as H01. rewrite app_assoc in H01. unfold last_nonzero.
    pose proof (span_len _ _ _ _ H01) as Hl. cbn [Nat.add] in Hl. rewrite Hl at 1.
    rewrite (prev_nonzero_some _ _ _ _ _ _ H01 Hc). cbn [res_bind]. f_equal.
    apply span_len in H0. rewrite !length_app. cbn [length].
    rewrite (proj2 (Nat.ltb_lt _ (length t + _))) by lia. rewrite orb_true_r. lia.
  - right. exists (int ++ t), c, m. split_and!; [by norm_app|done|].
    rewrite (prev_nonzero_some _ _ _ _ _ _ H2 Hc). cbn [res_bind]. f_equal.
    destruct Hd as [[_ Hd]|(-> & -> & _)]; [by destruct t|]. rewrite length_app.
    rewrite (proj2 (Z.ltb_ge _ _)), (proj2 (Nat.ltb_ge _ _)) by lia. cbn [orb]. lia.
Qed.
End Layout.

(** A significand: no leading and no trailing zero. *)
Definition trimmed (s : bytes) : Prop :=
  digits s /\ exists c t k d, s = c :: t /\ c <> "0"%ch /\ s = k ++ [d] /\ d <> "0"%ch.

(** What the decomposition holds for the digits [ds], [n] of them integral. *)
Definition sig_fields (src ds : bytes) (n : nat) (d : decNumber) : Prop :=
  if zero d then dval ds = 0
  else exists z s m, ds = zeros z ++ s ++ zeros m /\ trimmed s /\
       adj d = Z.of_nat n - 1 - Z.of_nat z /\ 0 <= sigFirst d /\ sigLast d < Z.of_nat (length src) /\
       rest src (sigLast d) (dot d) (sigFirst d) = s.

Lemma sig_fields_intro src int fr i0 i1 fs fe dt z c t t' c' m first last :
  num_layout src int fr i0 i1 fs fe dt -> digits (int ++ fr) ->
  int ++ fr = zeros z ++ c :: t -> c <> "0"%ch -> int ++ fr = t' ++ c' :: zeros m -> c' <> "0"%ch ->
  first = Z.of_nat (dpos int i0 dt z) -> last = Z.of_nat (dpos int i0 dt (length t')) ->
  forall ng w f en ed,
  sig_fields src (int ++ fr) (length int) (mkDec false ng first last dt w f en ed (Z.of_nat (length int) - 1 - Z.of_nat z)).
Proof.
  intros L Hd Hz Hc Hm Hc' -> -> *. rewrite Hz in Hm. destruct (trim_split _ _ _ _ _ _ Hm Hc') as (k & -> & Hk).
  assert (Hs : int ++ fr = zeros z ++ (k ++ [c']) ++ zeros m) by (rewrite Hz, Hk; by norm_app).
  exists z, (k ++ [c']), m. cbn.
  assert (Hlen : (length (zeros z ++ k) < length (int ++ fr))%nat) by (rewrite Hs, !length_app; cbn [length]; lia).
  split_and!; [done| |done|lia| |].
  - split; [unfold digits in *; rewrite Hs, !Forall_app in Hd; apply Forall_app; tauto|].
    exists c, (tail (k ++ [c'])), k, c'. split_and!; [|done..].
    destruct k; cbn [app tail] in *; by simplify_eq.
  - pose proof (dpos_lookup _ _ _ _ _ _ _ _ L _ Hlen) as H. destruct (lookup_lt_is_Some_2 _ _ Hlen) as [x Hx].
    rewrite Hx in H. apply lookup_lt_Some in H. lia.
  - rewrite (rest_digits _ _ _ _ _ _ _ _ L _ (length (k ++ [c'])) z Hlen).
    2:{ rewrite !length_app. unfold zeros. rewrite length_replicate. cbn [length]. lia. }
    rewrite Hs. rewrite drop_app_length' by (unfold zeros; by rewrite length_replicate). by rewrite take_app_length.
Qed.

(** ** The value of a number *)

(** The exponent of a number, and its mantissa and scale: [m * 10 ^ e]. *)
Inductive jexp_val : bytes -> Z -> Prop :=
  | jev_none : jexp_val [] 0
  | jev_some e sgn s :
    e = "e"%ch \/ e = "E"%ch -> sgn = [] \/ sgn = ["+"%ch] \/ sgn = ["-"%ch] -> digits s -> s <> [] ->
    jexp_val (e :: sgn ++ s) (signed (bool_decide (sgn = ["-"%ch])) (dval s)).

Inductive jfrac_val : bytes -> bytes -> Prop :=
  | jfv_none : jfrac_val [] []
  | jfv_some s : digits s -> s <> [] -> jfrac_val ("."%ch :: s) s.

Inductive jnumber_val : bytes -> Z -> Z -> Prop :=
  | jnumber_val_intro sgn int frac fr exp e :
    sgn = [] \/ sgn = ["-"%ch] -> jint int -> jfrac_val frac fr -> jexp_val exp e ->
    jnumber_val (sgn ++ int ++ frac ++ exp)
      (signed (bool_decide (sgn = ["-"%ch])) (dval (int ++ fr))) (e - Z.of_nat (length fr)).

Lemma jnumber_val_exists s : jnumber s -> exists m e, jnumber_val s m e.
Proof.
  destruct 1 as [sgn int frac exp Hs Hi Hf He].
  assert (exists fr, jfrac_val frac fr) as [fr Hfr] by (destruct Hf; eexists; by constructor).
  assert (exists e, jexp_val exp e) as [e Hev] by (destruct He; eexists; by constructor).
  eexists _, _. by econstructor.
Qed.

Lemma dval_all_zero s : all_zero s -> dval s = 0.
Proof. apply dval_zeros. Qed.

Lemma dval_zeros_app n s : dval (zeros n ++ s) = dval s.
Proof. rewrite dval_app, (dval_zeros (zeros n)) by apply zeros_all. lia. Qed.

Lemma dval_app_zeros s n : dval (s ++ zeros n) = dval s * 10 ^ Z.of_nat n.
Proof. rewrite dval_app, (dval_zeros (zeros n)) by apply zeros_all. unfold zeros. rewrite length_replicate. lia. Qed.

(** The exponent parser. *)
Lemma parse_exponent_spec src i exp e :
  span src i exp (length src) -> jexp_val exp e ->
  exists en ds x, parse_exponent src i = Ok (en, ds, (length ds <=? 18)%nat, x) /\
    canonical ds /\ e = signed en (dval ds) /\ ((length ds <= 18)%nat -> x = e).
Proof.
  intros Hsp He. unfold parse_exponent. destruct He as [|ec sgn s Hec Hsgn Hd Hne].
  { apply span_nil_inv in Hsp as [<- _]. rewrite Nat.ltb_irrefl. exists false, [], 0. split_and!; [done|split; [constructor|done]|done|done]. }
  apply span_cons in Hsp as [Hi Hsp]. apply lookup_lt_Some in Hi as Hlt. rewrite (proj2 (Nat.ltb_lt _ _)) by done.
  destruct (span_split _ _ _ _ _ Hsp) as [_ Hs].
  assert (Hsign : exists c, idx src (S i) = (Ok c : res unit Z) /\
    (if c =? "+"%ch then (false, S (S i)) else if c =? "-"%ch then (true, S (S i)) else (false, S i))
    = (bool_decide (sgn = ["-"%ch]), (S i + length sgn)%nat)).
  { destruct Hsgn as [->|[->| ->]]; cbn [app length] in *.
    2,3: apply span_cons in Hsp as [Hc _]; unfold idx; rewrite Hc; eexists; (split; [done|]);
         cbn; f_equal; lia.
    destruct s as [|c s]; [done|]. apply span_cons in Hsp as [Hc _]. unfold idx. rewrite Hc. exists c.
    split; [done|]. inversion_clear Hd as [|? ? Hcd _]. unfold IsDigit in Hcd.
    rewrite !(proj2 (Z.eqb_neq _ _)) by lia. rewrite bool_decide_eq_false_2 by done. f_equal. lia. }
  destruct Hsign as (c & -> & Hc). cbn [res_bind]. rewrite Hc. clear c Hc Hsp.
  set (j := (S i + length sgn)%nat) in *. apply span_le in Hs as Hj.
  destruct (advance_span (fun c => c =? "0"%ch) src j ltac:(lia)) as (zs & Hz & Hzs & Hst).
  set (k := advance _ src j) in *. pose proof (span_le _ _ _ _ Hz) as Hk.
  assert (Hsplit : s = zs ++ drop k src).
  { destruct Hs as (Hs & _). destruct Hz as (Hz & _). rewrite drop_all, app_nil_r in Hs. congruence. }
  assert (Hds : digits (drop k src)) by (rewrite Hsplit in Hd; by apply Forall_app in Hd as [_ Hd]).
  assert (Hval : dval s = dval (drop k src)).
  { rewrite Hsplit. rewrite dval_app, dval_zeros; [lia|]. eapply Forall_impl; [exact Hzs|]. simpl. lia. }
  assert (Hcan : canonical (drop k src)).
  { split; [done|]. destruct (drop k src) as [|d t]; [done|]. simpl in Hst. lia. }
  rewrite Hval. destruct (Nat.leb_spec (length (drop k src)) 18) as [Hle|Hgt].
  - eexists _, _, _. rewrite (proj2 (Nat.leb_le _ _) Hle). split_and!; [done..|]. intros _.
    rewrite digits_int64_dval by done. pose proof (dval_bound _ Hds).
    assert (10 ^ Z.of_nat (length (drop k src)) <= 10 ^ 18) by (apply Z.pow_le_mono_r; lia).
    unfold signed. case_bool_decide; [|done]. unfold i64. rewrite Z.mod_small; lia.
  - eexists _, _, _. rewrite (proj2 (Nat.leb_gt _ _) Hgt). split_and!; [done..|]. lia.
Qed.

(** ** The decomposition of a number *)

Lemma jint_digits s : jint s -> digits s.
Proof. destruct 1 as [|c s Hc Hs]; [by repeat constructor|]. constructor; [|done]. unfold IsDigit, isOneNine in *. lia. Qed.

Lemma jexp_val_jexp s e : jexp_val s e -> jexp s.
Proof. destruct 1; by constructor. Qed.

Lemma jfrac_val_digits frac fr : jfrac_val frac fr -> digits fr.
Proof. destruct 1; [constructor|done]. Qed.

Lemma jexp_head_stop src i s e p :
  jexp_val s e -> span src i s (length src) -> p "e"%ch = false -> p "E"%ch = false -> stops p (drop i src).
Proof.
  intros He Hsp H1 H2. rewrite stops_lookup. destruct s as [|c s].
  - apply span_nil_inv in Hsp as [<- _]. by rewrite lookup_ge_None_2.
  - apply span_cons in Hsp as [-> _]. by destruct (jexp_head _ c s (jexp_val_jexp _ _ He) eq_refl) as [->| ->].
Qed.

(** The ranges found by the digit loops are those of the grammar. *)
Lemma parse_fraction_spec src int i0 i1 i2 frac fr exp e :
  span src 0 (take i0 src) i0 -> span src i0 int i1 -> jint int -> jfrac_val frac fr -> jexp_val exp e ->
  span src i1 frac i2 -> span src i2 exp (length src) ->
  advance IsDigit src i0 = i1 /\
  exists dt fs fe, parse_fraction src i1 = (dt, fs, fe, i2) /\ num_layout src int fr i0 i1 fs fe dt.
Proof.
  intros H0 H1 Hj Hf He H2 H3. split.
  - apply (advance_complete _ _ _ int); [done|by apply jint_digits|]. rewrite stops_lookup. destruct Hf as [|s Hd Hne].
    + apply span_nil_inv in H2 as [-> _]. rewrite <- stops_lookup. by eapply jexp_head_stop.
    + by apply span_cons in H2 as [-> _].
  - unfold parse_fraction. destruct Hf as [|s Hd Hne].
    + apply span_nil_inv in H2 as [-> _].
      assert (Hst : stops (fun c => c =? "."%ch) (drop i1 src)) by (by eapply jexp_head_stop).
      rewrite stops_lookup in Hst. unfold at_byte. exists (-1), 0%nat, 0%nat.
      destruct (src !! i1) as [c|] eqn:Hc; [rewrite Hst|]; (split; [done|]); constructor; auto; apply span_nil; lia.
    + apply span_cons in H2 as [Hc H2]. unfold at_byte. rewrite Hc, Z.eqb_refl.
      rewrite (advance_complete _ _ _ s i2 H2 Hd) by (by eapply jexp_head_stop).
      exists (Z.of_nat i1), (S i1), i2. split; [done|]. constructor; auto.
Qed.

Lemma i64_small x : - 2 ^ 63 <= x < 2 ^ 63 -> i64 x = x.
Proof. intros. unfold i64. rewrite Z.mod_small; lia. Qed.

Lemma dval_trimmed_pos s n m : trimmed s -> 0 < dval (zeros n ++ s ++ zeros m).
Proof.
  intros [Hd (c & t & _ & _ & -> & Hc & _)]. rewrite dval_zeros_app, dval_app_zeros.
  pose proof (canonical_lower c t (conj Hd Hc)). pose proof (pow10_pos (length t)). pose proof (pow10_pos m). nia.
Qed.

(** The decomposition of a number of the grammar: it never reads outside the
    slice, and holds the sign, the significant digits and the exponent. *)
Lemma parseDecNumber_spec src sgn int frac fr exp e :
  src = sgn ++ int ++ frac ++ exp -> Z.of_nat (length src) < 2 ^ 62 ->
  sgn = [] \/ sgn = ["-"%ch] -> jint int -> jfrac_val frac fr -> jexp_val exp e ->
  exists d, parseDecNumber src = Ok d /\ neg d = bool_decide (sgn = ["-"%ch]) /\
    sig_fields src (int ++ fr) (length int) d /\ (zero d = false -> exp_fields d e).
Proof.
  intros Hsrc Hlen Hsgn Hj Hf He.
  pose proof (span_whole src) as Hw. rewrite Hsrc in Hw at 2.
  destruct (span_split _ _ _ _ _ Hw) as [H0 H']. destruct (span_split _ _ _ _ _ H') as [H1 H''].
  destruct (span_split _ _ _ _ _ H'') as [H2 H3]. clear Hw H' H''. rewrite Nat.add_0_l in *.
  set (i0 := length sgn) in *. set (i1 := (i0 + length int)%nat) in *. set (i2 := (i1 + length frac)%nat) in *.
  assert (Ht : span src 0 (take i0 src) i0) by (rewrite (f_equal (take i0) Hsrc); unfold i0; by rewrite take_app_length).
  destruct (parse_fraction_spec _ _ _ _ _ _ _ _ _ Ht H1 Hj Hf He H2 H3) as (Hint & dt & fs & fe & Hfr & L).
  destruct (parse_exponent_spec _ _ _ _ H3 He) as (en & ds & x & Hex & Hcan & Hev & Hx).
  assert (Hsign : exists c, idx src 0 = (Ok c : res unit Z) /\
    (if c =? "-"%ch then (true, 1%nat) else (false, 0%nat)) = (bool_decide (sgn = ["-"%ch]), i0)).
  { subst i0. destruct (jint_head _ Hj) as (c & t & -> & Hc). rewrite Hsrc. destruct Hsgn as [->| ->].
    - exists c. split; [done|]. unfold IsDigit in Hc. by rewrite (proj2 (Z.eqb_neq _ _)) by lia.
    - by exists "-"%ch. }
  destruct Hsign as (c & Hc & Hsign). unfold parseDecNumber. rewrite Hc. cbn [res_bind]. rewrite Hsign, Hint, Hfr, Hex.
  cbn [res_bind]. clear c Hc Hsign.
  assert (Hd : digits (int ++ fr)) by (apply Forall_app; split; [by apply jint_digits|by eapply jfrac_val_digits]).
  destruct (parse_first_spec _ _ _ _ _ _ _ _ L) as [[Hz ->]|(z & c & t & Hz & Hc & ->)]; cbn [res_bind].
  { eexists. split_and!; [done|done|by apply dval_all_zero|done]. }
  destruct (parse_last_spec _ _ _ _ _ _ _ _ L) as [Hall|(t' & c' & m & Hm & Hc' & ->)]; cbn [res_bind].
  { rewrite Hz in Hall. apply Forall_app in Hall as [_ Hall]. by inversion_clear Hall. }
  eexists. split_and!; [reflexivity|done|by eapply sig_fields_intro|intros _].
  assert (Hzl : (z < length (int ++ fr))%nat).
  { rewrite Hz, length_app. unfold zeros. rewrite length_replicate. cbn [length]. lia. }
  assert (Hfl : (length fr <= length frac)%nat) by (destruct Hf; simpl; lia).
  assert (Hll : (length (int ++ fr) <= length src)%nat) by (rewrite Hsrc, !length_app; lia).
  rewrite length_app in *. constructor; cbn; [done|done|done| |lia].
  intros Hfit. rewrite Hfit. apply Nat.leb_le in Hfit. rewrite (Hx Hfit). apply i64_small.
  pose proof (dval_bound _ (proj1 Hcan)). assert (10 ^ Z.of_nat (length ds) <= 10 ^ 18) by (apply Z.pow_le_mono_r; lia).
  rewrite Hev. unfold signed. destruct en; lia.
Qed.

(** ** Equality of decimals *)

(** [m1 * 10 ^ e1 = m2 * 10 ^ e2], scaled to integers. *)
Definition same_decimal (m1 e1 m2 e2 : Z) : Prop :=
  m1 * 10 ^ (e1 - Z.min e1 e2) = m2 * 10 ^ (e2 - Z.min e1 e2).

Lemma same_decimal_scale m1 e1 m2 e2 k :
  k <= e1 -> k <= e2 -> same_decimal m1 e1 m2 e2 <-> m1 * 10 ^ (e1 - k) = m2 * 10 ^ (e2 - k).
Proof.
  intros H1 H2. unfold same_decimal.
  assert (Hs : forall e, Z.min e1 e2 <= e -> 10 ^ (e - k) = 10 ^ (e - Z.min e1 e2) * 10 ^ (Z.min e1 e2 - k)).
  { intros e He. rewrite <- Z.pow_add_r by lia. f_equal. lia. }
  rewrite (Hs e1), (Hs e2) by lia. assert (0 < 10 ^ (Z.min e1 e2 - k)) by (apply Z.pow_pos_nonneg; lia).
  rewrite !Z.mul_assoc. split; [by intros ->|]. intros H'. by apply Z.mul_cancel_r in H'; [|lia].
Qed.

Lemma trailing_unique t c m t' c' m' :
  t ++ c :: zeros m = t' ++ c' :: zeros m' -> c <> "0"%ch -> c' <> "0"%ch -> t ++ [c] = t' ++ [c'] /\ m = m'.
Proof.
  assert (Hhalf : forall (k : bytes) x y n n', x :: zeros n' = k ++ y :: zeros n -> y <> "0"%ch -> k = [] /\ x = y /\ n = n').
  { intros k x y n n' H Hy. destruct k as [|z k].
    - injection H as -> H. apply (f_equal length) in H. unfold zeros in H. by rewrite !length_replicate in H.
    - injection H as _ H. pose proof (zeros_all n') as Hall. rewrite H in Hall.
      apply Forall_app in Hall as [_ Hall]. by inversion_clear Hall. }
  intros H Hc Hc'. apply app_eq_inv in H as [(k & -> & H)|(k & -> & H)];
    apply Hhalf in H as (-> & -> & ->); (done || by rewrite app_nil_r).
Qed.

Lemma trimmed_unique a b p q : trimmed a -> trimmed b -> dval a * 10 ^ Z.of_nat p = dval b * 10 ^ Z.of_nat q -> a = b /\ p = q.
Proof.
  intros (Ha & ca & ta & ka & xa & Ea & Na & Ka & Ma) (Hb & cb & tb & kb & xb & Eb & Nb & Kb & Mb) Hv.
  assert (Happ : forall (s : bytes) c t n, digits s -> s = c :: t -> c <> "0"%ch -> canonical (s ++ zeros n)).
  { intros s c t n Hs -> Hc. split; [|done]. apply Forall_app. split; [done|]. by apply Forall_replicate. }
  assert (Heq : a ++ zeros p = b ++ zeros q).
  { apply canonical_inj; [by eapply Happ|by eapply Happ|by rewrite !dval_app_zeros]. }
  rewrite Ka, Kb in Heq |- *. rewrite <- !app_assoc in Heq. cbn [app] in Heq. by apply trailing_unique.
Qed.

Lemma signed_pos_inj x y n m : 0 < n -> 0 < m -> signed x n = signed y m <-> x = y /\ n = m.
Proof. unfold signed. destruct x, y; intros; (split; [intros; split; (done || lia)|intros [? ?]; (done || lia)]). Qed.

Lemma signed_mul x n k : signed x n * k = signed x (n * k).
Proof. unfold signed. destruct x; lia. Qed.

(** Two significands and decimal positions are those of one value exactly when
    they are the same. *)
Lemma scientific_unique na nb sa sb za zb ma mb ea eb Wa Wb :
  trimmed sa -> trimmed sb -> Wa = ea + Z.of_nat ma + Z.of_nat (length sa) -> Wb = eb + Z.of_nat mb + Z.of_nat (length sb) ->
  same_decimal (signed na (dval (zeros za ++ sa ++ zeros ma))) ea (signed nb (dval (zeros zb ++ sb ++ zeros mb))) eb
  <-> na = nb /\ Wa = Wb /\ sa = sb.
Proof.
  intros Ha Hb -> ->. rewrite (same_decimal_scale _ _ _ _ (Z.min ea eb)) by lia.
  rewrite !signed_mul. pose proof (dval_trimmed_pos sa za ma Ha). pose proof (dval_trimmed_pos sb zb mb Hb).
  assert (Hp : forall e, 0 <= e -> 0 < 10 ^ e) by (intros; apply Z.pow_pos_nonneg; lia).
  rewrite signed_pos_inj by (apply Z.mul_pos_pos; [done|apply Hp; lia]).
  rewrite !dval_zeros_app, !dval_app_zeros, <- !Z.mul_assoc, <- !Z.pow_add_r by lia.
  replace (Z.of_nat ma + (ea - Z.min ea eb)) with (Z.of_nat (ma + Z.to_nat (ea - Z.min ea eb))) by lia.
  replace (Z.of_nat mb + (eb - Z.min ea eb)) with (Z.of_nat (mb + Z.to_nat (eb - Z.min ea eb))) by lia.
  split.
  - intros [-> Hv]. apply trimmed_unique in Hv as [-> Hpq]; [|done..]. split_and!; [done|lia|done].
  - intros (-> & HW & ->). split; [done|]. do 3 f_equal. lia.
Qed.

Lemma sig_fields_zero src ds n d : sig_fields src ds n d -> (zero d = true <-> dval ds = 0).
Proof.
  unfold sig_fields. destruct (zero d); [done|]. intros (z & s & m & -> & Ht & _).
  pose proof (dval_trimmed_pos s z m Ht). split; [done|lia].
Qed.

Lemma same_decimal_zero x y n m e f :
  n = 0 \/ m = 0 -> same_decimal (signed x n) e (signed y m) f <-> (n = 0 <-> m = 0).
Proof.
  intros Hz. unfold same_decimal. assert (Hp : forall k, 0 <= k -> 0 < 10 ^ k) by (intros; apply Z.pow_pos_nonneg; lia).
  pose proof (Hp (e - Z.min e f) ltac:(lia)). pose proof (Hp (f - Z.min e f) ltac:(lia)).
  unfold signed. destruct Hz as [-> | ->]; destruct x, y; split; intros; nia.
Qed.

(** What a decomposition says of the value. *)
Lemma parseDecNumber_value src m e :
  jnumber_val src m e -> Z.of_nat (length src) < 2 ^ 62 ->
  exists d ds n e0, parseDecNumber src = Ok d /\ m = signed (neg d) (dval ds) /\
    e = e0 - Z.of_nat (length ds - n) /\ (n <= length ds)%nat /\
    sig_fields src ds n d /\ (zero d = false -> exp_fields d e0).
Proof.
  intros Hv Hl. destruct Hv as [sgn int frac fr exp e0 Hs Hi Hf He].
  destruct (parseDecNumber_spec _ _ _ _ _ _ _ eq_refl Hl Hs Hi Hf He) as (d & H1 & H2 & H3 & H4).
  exists d, (int ++ fr), (length int), e0. split_and!; [done|by rewrite H2| |rewrite length_app; lia|done|done].
  rewrite length_app. do 2 f_equal. lia.
Qed.

(** The comparison after the two decompositions. *)
Lemma compare_decomposed a b da db dsa dsb na nb ea eb :
  sig_fields a dsa na da -> sig_fields b dsb nb db -> (na <= length dsa)%nat -> (nb <= length dsb)%nat ->
  (zero da = false -> exp_fields da ea) -> (zero db = false -> exp_fields db eb) ->
  exists r,
    (if zero da || zero db then Ok (Bool.eqb (zero da) (zero db))
     else if negb (Bool.eqb (neg da) (neg db)) || negb (decWeightEqual da db) then Ok false
     else equal_digits (S (length a)) a b da db (sigFirst da) (sigFirst db)) = Ok r /\
    (r = true <-> same_decimal (signed (neg da) (dval dsa)) (ea - Z.of_nat (length dsa - na))
                               (signed (neg db) (dval dsb)) (eb - Z.of_nat (length dsb - nb))).
Proof.
  intros Ha Hb La Lb Xa Xb. pose proof (sig_fields_zero _ _ _ _ Ha) as Za. pose proof (sig_fields_zero _ _ _ _ Hb) as Zb.
  destruct (zero da || zero db) eqn:Hz.
  { eexists. split; [done|]. rewrite same_decimal_zero, eqb_true_iff by (apply orb_prop in Hz; tauto).
    destruct (zero da), (zero db); intuition congruence. }
  apply orb_false_elim in Hz as [Hza Hzb]. unfold sig_fields in Ha, Hb. rewrite Hza in Ha. rewrite Hzb in Hb.
  destruct Ha as (za & sa & ma & Eda & Ta & Aa & Fa & La' & Ra). destruct Hb as (zb & sb & mb & Edb & Tb & Ab & Fb & Lb' & Rb).
  rewrite (decWeightEqual_spec _ _ _ _ (Xa Hza) (Xb Hzb)).
  assert (Hiff : same_decimal (signed (neg da) (dval dsa)) (ea - Z.of_nat (length dsa - na))
    (signed (neg db) (dval dsb)) (eb - Z.of_nat (length dsb - nb)) <->
    neg da = neg db /\ ea + adj da = eb + adj db /\ sa = sb).
  { subst dsa dsb. rewrite (scientific_unique _ _ _ _ _ _ _ _ _ _ (ea + adj da + 1) (eb + adj db + 1) Ta Tb).
    - split; intros (? & ? & ?); split_and!; (done || lia).
    - rewrite Aa. rewrite !length_app in *. unfold zeros in *. rewrite !length_replicate in *. lia.
    - rewrite Ab. rewrite !length_app in *. unfold zeros in *. rewrite !length_replicate in *. lia. }
  setoid_rewrite Hiff. clear Hiff.
  destruct (Bool.eqb (neg da) (neg db)) eqn:Hn; cbn [negb orb].
  2:{ exists false. split; [done|]. apply eqb_false_iff in Hn. split; [done|tauto]. }
  apply eqb_prop in Hn. destruct (Z.eqb_spec (ea + adj da) (eb + adj db)) as [Hw|Hw]; cbn [negb].
  2:{ exists false. split; [done|]. split; [done|tauto]. }
  rewrite equal_digits_spec by lia. rewrite Ra, Rb. eexists. split; [done|]. rewrite bool_decide_eq_true. tauto.
Qed.

Lemma JSONNumberEqual_spec a b ma ea mb eb :
  jnumber_val a ma ea -> jnumber_val b mb eb -> Z.of_nat (length a) < 2 ^ 62 -> Z.of_nat (length b) < 2 ^ 62 ->
  exists r, JSONNumberEqual a b = Ok r /\ (r = true <-> same_decimal ma ea mb eb).
Proof.
  intros Ha Hb La Lb.
  destruct (parseDecNumber_value _ _ _ Ha La) as (da & dsa & na & xa & Pa & -> & -> & Na & Sa & Xa).
  destruct (parseDecNumber_value _ _ _ Hb Lb) as (db & dsb & nb & xb & Pb & -> & -> & Nb & Sb & Xb).
  destruct (compare_decomposed _ _ _ _ _ _ _ _ _ _ Sa Sb Na Nb Xa Xb) as (r & Hr & Hiff).
  unfold JSONNumberEqual. case_bool_decide as Hab.
  2:{ rewrite Pa, Pb. cbn [res_bind]. by exists r. }
  subst b. rewrite Pa in Pb. injection Pb as <-. exists true. split; [done|]. rewrite <- Hiff.
  split; [intros _|done]. destruct (zero da) eqn:Hz; cbn [orb Bool.eqb] in Hr; [congruence|].
  rewrite eqb_reflx, (decWeightEqual_spec _ _ _ _ (Xa eq_refl) (Xa eq_refl)), Z.eqb_refl in Hr. cbn [negb orb] in Hr.
  unfold sig_fields in Sa. rewrite Hz in Sa. destruct Sa as (_ & _ & _ & _ & _ & _ & Fa & Ll & _).
  rewrite equal_digits_spec in Hr by lia. rewrite bool_decide_eq_true_2 in Hr by done. congruence.
Qed.

(** C37: two number spellings shorter than 2^62 bytes compare equal exactly when they denote the same decimal value, whatever the length of their digits and exponents: the comparison reads only inside both slices and its 64-bit exponent arithmetic, with the digit-string fallback for exponents past 18 digits, never overflows. *)
Theorem JSONNumberEqual_value a b ma ea mb eb :
  jnumber_val a ma ea -> jnumber_val b mb eb ->
  Z.of_nat (length a) < 2 ^ 62 -> Z.of_nat (length b) < 2 ^ 62 ->
  exists r, JSONNumberEqual a b = Ok r /\ (r = true <-> same_decimal ma ea mb eb).
Proof. apply JSONNumberEqual_spec. Qed.

Lemma JSONNumberEqual_value_witness :
  (exists r, JSONNumberEqual (bs "-1.50e3") (bs "-15e+00000000000000000000002") = Ok r /\
             (r = true <-> same_decimal (-150) 1 (-15) 2)) /\
  JSONNumberEqual (bs "-1.50e3") (bs "-15e+00000000000000000000002") = Ok true /\
  JSONNumberEqual (bs "10e99999999999999999999") (bs "1e100000000000000000000") = Ok true.
Proof.
  split; [|split; vm_compute; reflexivity]. apply JSONNumberEqual_value.
  - refine (jnumber_val_intro (bs "-") (bs "1") (bs ".50") (bs "50") (bs "e3") 3 _ _ _ _).
    + by right.
    + apply (jint_pos "1"%ch []); [reflexivity|constructor].
    + apply (jfv_some (bs "50")); [by repeat constructor|done].
    + apply (jev_some "e"%ch [] (bs "3")); [by left|by left|by repeat constructor|done].
  - refine (jnumber_val_intro (bs "-") (bs "15") [] [] (bs "e+00000000000000000000002") 2 _ _ _ _).
    + by right.
    + apply (jint_pos "1"%ch (bs "5")); [done|by repeat constructor].
    + constructor.
    + apply (jev_some "e"%ch (bs "+") (bs "00000000000000000000002")); [by left|by right; left|by repeat constructor|done].
  - vm_compute. reflexivity.
  - vm_compute. reflexivity.
Defined.
