(* ===== verification/Digits.v ===== *)
(** The digit kernels of [number_digits.go] and [simd/digits.go], the integer
    readers of [node.go] and [raw.go] that use them.  Eight digits are reduced in
    one word by three multiplications; wider runs combine two or three words,
    anchored so that each load ends with the number. *)

From S2P Require Import Prelude Words Utf8 Scanner Lex Grammar StringRef Errors Numbers Reader Validator FastValid Layout NumberEqual.

(** ** Kernels *)

Definition parse8DigitsWord (x : Z) : Z :=
  let x := Z.shiftr (w64 (Z.land x 0x0f0f0f0f0f0f0f0f * 2561)) 8 in
  let x := Z.shiftr (w64 (Z.land x 0x00ff00ff00ff00ff * 6553601)) 16 in
  Z.shiftr (w64 (Z.land x 0x0000ffff0000ffff * 42949672960001)) 32.

(** An unsafe load of eight bytes of the source. *)
Definition word_at (src : bytes) (i : nat) : res unit Z :=
  if (i + 8 <=? length src)%nat then Ok (loadUint64LE src i) else Panic.

Definition All8Digits (src : bytes) (i : nat) : res unit bool :=
  let* w := word_at src i in Ok (nonDigitMask8 w =? 0).
Definition All16Digits (src : bytes) (i : nat) : res unit bool :=
  let* hi := word_at src i in
  if negb (nonDigitMask8 hi =? 0) then Ok false
  else let* lo := word_at src (i + 8) in Ok (nonDigitMask8 lo =? 0).

Definition parse8Digits (src : bytes) (i : nat) : res unit Z :=
  let* w := word_at src i in Ok (parse8DigitsWord w).
Definition parse16Digits (src : bytes) (i : nat) : res unit Z :=
  let* hi := word_at src i in
  let* lo := word_at src (i + 8) in
  Ok (w64 (parse8DigitsWord hi * 100000000 + parse8DigitsWord lo)).

(** The [k] digits in the top bytes of a word, [k] in [1, 8]. *)
Definition parseTrailingDigits (word : Z) (k : Z) : Z :=
  let s := (8 - k) * 8 in
  parse8DigitsWord (Z.lor (Z.land word (w64 (Z.shiftl (2 ^ 64 - 1) s))) (Z.shiftr digitLower (64 - s))).

(** [for ; i < end; i++ { value = value*10 + uint64(b - '0') }], [n] bytes. *)
Fixpoint digits_loop (n : nat) (src : bytes) (i : nat) (value : Z) : res unit Z :=
  match n with
  | O => Ok value
  | S n =>
      let* b := fastByteAt src i in
      digits_loop n src (S i) (w64 (value * 10 + (b - "0"%ch) mod 256))
  end.

Definition parseTapeDigitsUint64 (src : bytes) (i end_ : nat) : res unit (Z * bool) :=
  let d := Z.of_nat end_ - Z.of_nat i in
  let slow := let* value := digits_loop (end_ - i) src i 0 in Ok (value, true) in
  if d <=? 8 then
    if (8 <=? end_)%nat then
      let* word := word_at src (end_ - 8) in Ok (parseTrailingDigits word d, true)
    else slow
  else if d <=? 16 then
    if (16 <=? end_)%nat then
      let* word := word_at src (end_ - 16) in
      let* lo := parse8Digits src (end_ - 8) in
      Ok (w64 (parseTrailingDigits word (d - 8) * 100000000 + lo), true)
    else slow
  else if d <=? 19 then
    if (24 <=? end_)%nat then
      let* word := word_at src (end_ - 24) in
      let* lo := parse16Digits src (end_ - 16) in
      Ok (w64 (parseTrailingDigits word (d - 16) * 10000000000000000 + lo), true)
    else slow
  else Ok (0, false).

(** ** Integers of validated spellings (node.go) *)

Definition int64 (x : Z) : Z := (x + 2 ^ 63) mod 2 ^ 64 - 2 ^ 63.

(** The 20-digit loop: [None] is [return 0, false]. *)
Fixpoint checked_digits (n : nat) (src : bytes) (i : nat) (value : Z) : res unit (option Z) :=
  match n with
  | O => Ok (Some value)
  | S n =>
      let* b := fastByteAt src i in
      let digit := (b - "0"%ch) mod 256 in
      if (2 ^ 64 - 1 - digit) / 10 <? value then Ok None
      else checked_digits n src (S i) (w64 (value * 10 + digit))
  end.

Definition tapeUint64 (src : bytes) (start end_ : nat) : res unit (Z * bool) :=
  let* (value, ok) := parseTapeDigitsUint64 src start end_ in
  if (ok : bool) then Ok (value, true)
  else if negb (Z.of_nat end_ - Z.of_nat start =? 20) then Ok (0, false)
  else
    let* r := checked_digits (end_ - start) src start 0 in
    match r with Some value => Ok (value, true) | None => Ok (0, false) end.

(** The sign and range checks shared by [TapeInt64] and [RawValue.Int64]. *)
Definition signed_result (negative : bool) (value : Z) : Z * bool :=
  if negative then if 2 ^ 63 <? value then (0, false) else (int64 (- int64 value), true)
  else if 2 ^ 63 - 1 <? value then (0, false) else (int64 value, true).

Definition TapeInt64 (src : bytes) (start end_ : nat) : res unit (Z * bool) :=
  let* c := fastByteAt src start in
  let negative := c =? "-"%ch in
  let i := if negative then S start else start in
  let* (value, ok) := parseTapeDigitsUint64 src i end_ in
  if negb ok then Ok (0, false) else Ok (signed_result negative value).

(** ** strconv.ParseInt (base 10, 64 bits) *)

(** Digits into a [uint64]: [None] is a syntax error; a range error stops the
    loop with the greatest value and [false]. *)
Fixpoint parse_uint_loop (s : bytes) (n : Z) : option (Z * bool) :=
  match s with
  | [] => Some (n, true)
  | c :: s =>
      if negb (IsDigit c) then None
      else if (2 ^ 64 - 1) / 10 + 1 <=? n then Some (2 ^ 64 - 1, false)
      else
        let n := n * 10 in
        let n1 := w64 (n + (c - "0"%ch)) in
        if n1 <? n then Some (2 ^ 64 - 1, false) else parse_uint_loop s n1
  end.
Definition ParseUint64 (s : bytes) : option (Z * bool) :=
  if (length s =? 0)%nat then None else parse_uint_loop s 0.

(** The value and whether the error is nil. *)
Definition ParseInt64 (s : bytes) : Z * bool :=
  let negative := match s with c :: _ => c =? "-"%ch | [] => false end in
  let plus := match s with c :: _ => c =? "+"%ch | [] => false end in
  match ParseUint64 (if negative || plus then drop 1 s else s) with
  | None => (0, false)
  | Some (un, ok) =>
      if negb negative && (2 ^ 63 <=? un) then (2 ^ 63 - 1, false)
      else if negative && (2 ^ 63 <? un) then (- 2 ^ 63, false)
      else (if negative then - un else un, ok)
  end.

(** ** Raw values (raw.go) *)

Definition raw_Int64 (src : bytes) : res unit (Z * bool) :=
  if (length src =? 0)%nat then Ok (0, false)
  else
    let* (end_, integer, ok) := scanNumberFastTagged src 0 in
    if negb ok || negb (end_ =? length src)%nat || negb integer then Ok (0, false)
    else
      let* c := fastByteAt src 0 in
      let negative := c =? "-"%ch in
      let i := if negative then 1%nat else 0%nat in
      let* (value, ok) := parseTapeDigitsUint64 src i end_ in
      if negb ok then Ok (ParseInt64 src) else Ok (signed_result negative value).

Definition raw_Uint64 (src : bytes) : res unit (Z * bool) :=
  if (length src =? 0)%nat then Ok (0, false)
  else
    let* (end_, integer, ok) := scanNumberFastTagged src 0 in
    if negb ok || negb (end_ =? length src)%nat || negb integer then Ok (0, false)
    else
      let* c := fastByteAt src 0 in
      if c =? "-"%ch then Ok (0, false) else tapeUint64 src 0 end_.

(** Bounds of the elements of a literal list. *)
Ltac forall_lia := unfold is_byte; repeat (apply Forall_cons_2; [lia|]); apply Forall_nil_2.

(** ** Masks over limbs *)

Lemma small_bits a k i : 0 <= k -> 0 <= a < 2 ^ k -> k <= i -> Z.testbit a i = false.
Proof. intros Hk Ha Hi. rewrite <- (Z.mod_small a (2 ^ k)) by done. by apply Z.mod_pow2_bits_high. Qed.

Lemma land_small k a m : 0 <= k -> 0 <= a < 2 ^ k -> 0 <= m < 2 ^ k -> 0 <= Z.land a m < 2 ^ k.
Proof.
  intros Hk Ha Hm. assert (0 <= Z.land a m) by (apply Z.land_nonneg; lia). split; [done|].
  apply pow2_bits; [done..|]. intros i Hi. rewrite Z.land_spec. by rewrite (small_bits a k i).
Qed.

Lemma land_limb k a b m n :
  0 <= k -> 0 <= a < 2 ^ k -> 0 <= m < 2 ^ k ->
  Z.land (a + 2 ^ k * b) (m + 2 ^ k * n) = Z.land a m + 2 ^ k * Z.land b n.
Proof.
  intros Hk Ha Hm. rewrite !(Z.add_comm _ (2 ^ k * _)), !(Z.mul_comm (2 ^ k)).
  pose proof (land_small k a m Hk Ha Hm) as Hs. rewrite <- !(lor_shiftl_add _ k) by done.
  apply Z.bits_inj'. intros i Hi. rewrite !Z.land_spec, !Z.lor_spec, !Z.land_spec. destruct (Z.ltb_spec i k).
  - by rewrite !Z.shiftl_spec_low by lia.
  - rewrite !Z.shiftl_spec, Z.land_spec by lia. rewrite (small_bits a k i), (small_bits m k i) by done.
    by rewrite !orb_false_r.
Qed.

Lemma lor_limb k a b m n :
  0 <= k -> 0 <= a < 2 ^ k -> 0 <= m < 2 ^ k ->
  Z.lor (a + 2 ^ k * b) (m + 2 ^ k * n) = Z.lor a m + 2 ^ k * Z.lor b n.
Proof.
  intros Hk Ha Hm. rewrite !(Z.add_comm _ (2 ^ k * _)), !(Z.mul_comm (2 ^ k)).
  assert (Hs : 0 <= Z.lor a m < 2 ^ k).
  { split; [apply Z.lor_nonneg; lia|apply lor_lt_pow2; lia]. }
  rewrite <- !(lor_shiftl_add _ k) by done. rewrite Z.shiftl_lor. apply Z.bits_inj'. intros i Hi.
  rewrite !Z.lor_spec. by destruct (Z.testbit (Z.shiftl b k) i), (Z.testbit a i), (Z.testbit (Z.shiftl n k) i), (Z.testbit m i).
Qed.

Lemma land_lanes l m :
  bytes_ok l -> bytes_ok m -> length l = length m -> Z.land (le_word l) (le_word m) = le_word (zip_with Z.land l m).
Proof.
  intros Hl. revert m. induction Hl as [|a l Ha Hl IH]; intros m Hm Hlen; [by destruct m|].
  destruct Hm as [|b m Hb Hm]; [done|]. cbn [le_word zip_with]. change 256 with (2 ^ 8).
  injection Hlen as Hlen. unfold is_byte in *. rewrite land_limb by lia. by rewrite IH.
Qed.

Lemma lor_lanes l m :
  bytes_ok l -> bytes_ok m -> length l = length m -> Z.lor (le_word l) (le_word m) = le_word (zip_with Z.lor l m).
Proof.
  intros Hl. revert m. induction Hl as [|a l Ha Hl IH]; intros m Hm Hlen; [by destruct m|].
  destruct Hm as [|b m Hb Hm]; [done|]. cbn [le_word zip_with]. change 256 with (2 ^ 8).
  injection Hlen as Hlen. unfold is_byte in *. rewrite lor_limb by lia. by rewrite IH.
Qed.

(** ** Eight digits in three multiplications *)

Lemma digit_nibble c : IsDigit c = true -> Z.land c 15 = c - "0"%ch.
Proof.
  unfold IsDigit. intros H. change 15 with (Z.ones 4). rewrite Z.land_ones by lia.
  change (2 ^ 4) with 16. div_lia.
Qed.

Lemma digit_byte c : IsDigit c = true -> is_byte c.
Proof. unfold IsDigit, is_byte. lia. Qed.

(** The word product of a multiplication step: its middle limbs. *)
Lemma middle_limbs s lo q r x :
  0 <= s <= 64 -> 0 <= lo < 2 ^ s -> 0 <= q < 2 ^ (64 - s) -> x = lo + 2 ^ s * q + 2 ^ 64 * r ->
  Z.shiftr (w64 x) s = q.
Proof.
  intros Hs Hlo Hq ->. unfold w64. rewrite Z.shiftr_div_pow2 by lia.
  assert (Hp : 2 ^ 64 = 2 ^ s * 2 ^ (64 - s)) by (rewrite <- Z.pow_add_r by lia; f_equal; lia).
  rewrite (Z.mul_comm (2 ^ 64)), Z_mod_plus_full. rewrite Z.mod_small by nia.
  rewrite Z.mul_comm, Z.div_add by lia. rewrite Z.div_small by done. lia.
Qed.

Lemma parse_step1 d0 d1 d2 d3 d4 d5 d6 d7 :
  Forall (fun d => 0 <= d < 10) [d0; d1; d2; d3; d4; d5; d6; d7] ->
  Z.shiftr (w64 (le_word [d0; d1; d2; d3; d4; d5; d6; d7] * 2561)) 8
  = le_word [10 * d0 + d1; 10 * d1 + d2; 10 * d2 + d3; 10 * d3 + d4; 10 * d4 + d5; 10 * d5 + d6; 10 * d6 + d7].
Proof.
  intros H. repeat (apply Forall_cons in H as [? H]).
  apply (middle_limbs 8 d0 _ (10 * d7)); cbn [le_word]; lia.
Qed.

Lemma parse_step2 p0 p1 p2 p3 :
  Forall (fun p => 0 <= p < 100) [p0; p1; p2; p3] ->
  Z.shiftr (w64 ((p0 + 2 ^ 16 * (p1 + 2 ^ 16 * (p2 + 2 ^ 16 * p3))) * 6553601)) 16
  = 100 * p0 + p1 + 2 ^ 16 * (100 * p1 + p2 + 2 ^ 16 * (100 * p2 + p3)).
Proof.
  intros H. repeat (apply Forall_cons in H as [? H]). apply (middle_limbs 16 p0 _ (100 * p3)); lia.
Qed.

Lemma parse_step3 q0 q1 :
  0 <= q0 < 10000 -> 0 <= q1 < 10000 ->
  Z.shiftr (w64 ((q0 + 2 ^ 32 * q1) * 42949672960001)) 32 = 10000 * q0 + q1.
Proof. intros H0 H1. apply (middle_limbs 32 q0 _ (10000 * q1)); lia. Qed.

Lemma nibbles l : digits l -> zip_with Z.land l (replicate (length l) 15) = map (fun c => c - "0"%ch) l.
Proof. induction 1 as [|c l Hc _ IH]; [done|]. cbn [length replicate zip_with map]. by rewrite IH, digit_nibble. Qed.

Lemma parse8DigitsWord_ok l : digits l -> length l = 8%nat -> parse8DigitsWord (le_word l) = dval l.
Proof.
  intros Hd Hl. unfold parse8DigitsWord.
  change 0x0f0f0f0f0f0f0f0f with (le_word (replicate 8 15)). rewrite <- Hl.
  rewrite land_lanes; [|by apply digits_bytes| |by rewrite length_replicate].
  2:{ by apply Forall_replicate. }
  rewrite nibbles by done.
  destruct l as [|c0 [|c1 [|c2 [|c3 [|c4 [|c5 [|c6 [|c7 [|? ?]]]]]]]]]; try discriminate Hl. clear Hl.
  unfold digits, IsDigit in *. repeat (apply Forall_cons in Hd as [? Hd]). cbn [map]. rewrite parse_step1 by forall_lia.
  change 0x00ff00ff00ff00ff with (le_word [255; 0; 255; 0; 255; 0; 255]).
  rewrite land_lanes; [|forall_lia..|done]. cbn [zip_with].
  rewrite !Z.land_0_r. change 255 with (Z.ones 8). rewrite !Z.land_ones by lia. change (2 ^ 8) with 256.
  rewrite !Z.mod_small by lia. cbn [le_word].
  match goal with |- context [Z.shiftr (w64 (?x * 6553601)) 16] =>
    match x with ?p0 + 256 * (0 + 256 * (?p1 + 256 * (0 + 256 * (?p2 + 256 * (0 + 256 * (?p3 + 256 * 0)))))) =>
      replace x with (p0 + 2 ^ 16 * (p1 + 2 ^ 16 * (p2 + 2 ^ 16 * p3))) by lia end end.
  rewrite parse_step2 by forall_lia.
  change 0x0000ffff0000ffff with (Z.ones 16 + 2 ^ 16 * (0 + 2 ^ 16 * Z.ones 16)).
  rewrite !land_limb by (change (Z.ones 16) with (2 ^ 16 - 1); lia). rewrite Z.land_0_r, !Z.land_ones by lia.
  rewrite !Z.mod_small by lia. rewrite !dval_cons. cbn [length].
  match goal with |- context [Z.shiftr (w64 (?x * 42949672960001)) 32] =>
    match x with ?q0 + 2 ^ 16 * (0 + 2 ^ 16 * ?q1) => replace x with (q0 + 2 ^ 32 * q1) by lia end end.
  rewrite parse_step3 by lia. change (dval []) with 0. lia.
Qed.

(** ** Digits in the top lanes *)

(** Lanes below [n] become [c]; a mask keeps the others. *)
Lemma keep_top n k l : bytes_ok l -> length l = (n + k)%nat ->
  zip_with Z.land l (replicate n 0 ++ replicate k 255) = replicate n 0 ++ drop n l.
Proof.
  revert l. induction n as [|n IH]; intros l Hl Hlen.
  - rewrite drop_0. cbn [replicate app]. revert k Hlen. induction Hl as [|b l Hb Hl IH]; intros k Hk; [by destruct k|].
    destruct k as [|k]; [done|]. cbn [replicate zip_with]. rewrite IH by (simpl in Hk; lia).
    f_equal. change 255 with (Z.ones 8). rewrite Z.land_ones by lia. by apply Z.mod_small.
  - destruct Hl as [|b l Hb Hl]; [done|]. cbn [replicate app zip_with drop]. rewrite Z.land_0_r. f_equal.
    apply IH; [done|]. simpl in Hlen. lia.
Qed.

Lemma fill_bottom n k c l : length l = k ->
  zip_with Z.lor (replicate n 0 ++ l) (replicate n c ++ replicate k 0) = replicate n c ++ l.
Proof.
  intros <-. induction n as [|n IH]; cbn [replicate app zip_with]; [|by rewrite IH].
  induction l as [|b l IH]; [done|]. cbn [length replicate zip_with]. by rewrite Z.lor_0_r, IH.
Qed.

Lemma top_masks n k : (n + k = 8)%nat -> (1 <= k)%nat ->
  w64 (Z.shiftl (2 ^ 64 - 1) ((8 - Z.of_nat k) * 8)) = le_word (replicate n 0 ++ replicate k 255) /\
  Z.shiftr digitLower (64 - (8 - Z.of_nat k) * 8) = le_word (replicate n "0"%ch ++ replicate k 0).
Proof.
  intros Hn Hk. replace n with (8 - k)%nat by lia. assert (Hk8 : (k <= 8)%nat) by lia. clear n Hn.
  do 9 (destruct k as [|k]; [first [lia|by split]|]). lia.
Qed.

Lemma parseTrailingDigits_ok l k :
  bytes_ok l -> length l = 8%nat -> (1 <= k <= 8)%nat -> digits (drop (8 - k) l) ->
  parseTrailingDigits (le_word l) (Z.of_nat k) = dval (drop (8 - k) l).
Proof.
  intros Hl Hlen Hk Hd. unfold parseTrailingDigits. cbv zeta.
  assert (Hn : (8 - k + k = 8)%nat) by lia. destruct (top_masks (8 - k) k Hn ltac:(lia)) as [-> ->].
  assert (Hr : forall n c, is_byte c -> bytes_ok (replicate n c)) by (intros; by apply Forall_replicate).
  assert (Hdl : length (drop (8 - k) l) = k) by (rewrite length_drop; lia).
  rewrite land_lanes; [|done|apply Forall_app; split; by apply Hr|by rewrite length_app, !length_replicate, Hn].
  rewrite keep_top by (done || lia).
  rewrite lor_lanes; [| | |by rewrite !length_app, !length_replicate, Hdl].
  2:{ apply Forall_app; split; [by apply Hr|by apply Forall_drop]. }
  2:{ apply Forall_app; split; by apply Hr. }
  rewrite fill_bottom by done. rewrite parse8DigitsWord_ok.
  - rewrite dval_app, dval_zeros by (by apply Forall_replicate). lia.
  - apply Forall_app; split; [by apply Forall_replicate|done].
  - rewrite length_app, length_replicate. lia.
Qed.

(** ** Digit runs of the source *)

Section Runs.
Context (src : bytes).
Hypothesis Hsrc : bytes_ok src.

Lemma digits_slice i j k : (i <= j <= k)%nat -> (k <= length src)%nat ->
  digits (slice src i k) -> digits (slice src i j) /\ digits (slice src j k).
Proof using. intros H Hk Hd. rewrite (slice_app _ i j k) in Hd by done. by apply Forall_app in Hd. Qed.

Lemma word_at_ok j : (j + 8 <= length src)%nat -> word_at src j = Ok (le_word (slice src j (j + 8))).
Proof using. intros H. unfold word_at. by rewrite (proj2 (Nat.leb_le _ _) H). Qed.

Lemma word_digits j : (j + 8 <= length src)%nat -> digits (slice src j (j + 8)) ->
  parse8Digits src j = Ok (dval (slice src j (j + 8))).
Proof using.
  intros H Hd. unfold parse8Digits. rewrite word_at_ok by done. cbn [res_bind]. f_equal.
  apply parse8DigitsWord_ok; [done|]. rewrite slice_len; lia.
Qed.

Lemma double_word_digits j : (j + 16 <= length src)%nat -> digits (slice src j (j + 16)) ->
  parse16Digits src j = Ok (dval (slice src j (j + 16))).
Proof using.
  intros H Hd. destruct (digits_slice j (j + 8) (j + 16)) as [Ha Hb]; [lia..|done|].
  unfold parse16Digits. rewrite !word_at_ok by lia. cbn [res_bind].
  replace (j + 8 + 8)%nat with (j + 16)%nat by lia.
  rewrite (slice_app _ j (j + 8) (j + 16)), dval_app by lia.
  assert (La : length (slice src j (j + 8)) = 8%nat) by (rewrite slice_len; lia).
  assert (Lb : length (slice src (j + 8) (j + 16)) = 8%nat) by (rewrite slice_len; lia).
  rewrite !parse8DigitsWord_ok by done. apply dval_bound in Ha, Hb. rewrite Lb in *. rewrite La in *.
  f_equal. unfold w64. rewrite Z.mod_small by lia. lia.
Qed.

(** A word anchored at the end of a short run. *)
Lemma trailing_digits i j : (i < j)%nat -> (j - i <= 8)%nat -> (8 <= j <= length src)%nat -> digits (slice src i j) ->
  parseTrailingDigits (le_word (slice src (j - 8) (j - 8 + 8))) (Z.of_nat (j - i)) = dval (slice src i j).
Proof using Hsrc.
  intros Hij Hw Hj Hd. assert (E : drop (8 - (j - i)) (slice src (j - 8) (j - 8 + 8)) = slice src i j).
  { unfold slice. rewrite skipn_firstn_comm, drop_drop. f_equal; [lia|]. f_equal. lia. }
  rewrite parseTrailingDigits_ok; [by rewrite E|by apply slice_bytes|rewrite slice_len; lia|lia|by rewrite E].
Qed.

Lemma digits_loop_ok n i value :
  (i + n <= length src)%nat -> digits (slice src i (i + n)) -> 0 <= value ->
  value * 10 ^ Z.of_nat n + dval (slice src i (i + n)) < 2 ^ 64 ->
  digits_loop n src i value = Ok (value * 10 ^ Z.of_nat n + dval (slice src i (i + n))).
Proof using.
  revert i value. induction n as [|n IH]; intros i value Hi Hd Hv Hb; cbn [digits_loop].
  { rewrite Nat.add_0_r. unfold slice. rewrite Nat.sub_diag. change (dval (take 0 _)) with 0. f_equal. lia. }
  destruct (lookup_lt_is_Some_2 src i ltac:(lia)) as [c Hc].
  rewrite (slice_cons _ i (i + S n) c) in * by (done || lia). replace (i + S n)%nat with (S i + n)%nat in * by lia.
  apply Forall_cons in Hd as [Hc' Hd]. rewrite dval_cons in *.
  assert (Hsl : length (slice src (S i) (S i + n)) = n) by (rewrite slice_len; lia). rewrite Hsl in *.
  pose proof (dval_bound _ Hd) as Bd. rewrite Hsl in Bd. pose proof (pow10_pos n) as Hp.
  rewrite Nat2Z.inj_succ, Z.pow_succ_r in * by lia. unfold IsDigit in Hc'.
  unfold fastByteAt. rewrite Hc. cbn [res_bind]. rewrite (Z.mod_small (c - _)) by lia.
  unfold w64. rewrite Z.mod_small by nia. rewrite IH; [|lia|done|lia|nia]. f_equal. lia.
Qed.

Lemma run_value_bound i j : (i <= j <= length src)%nat -> (j - i <= 19)%nat -> digits (slice src i j) ->
  0 <= dval (slice src i j) < 10 ^ 19.
Proof using.
  intros H Hw Hd. apply dval_bound in Hd as Hb. rewrite slice_len in Hb by lia.
  assert (10 ^ Z.of_nat (j - i) <= 10 ^ 19) by (apply Z.pow_le_mono_r; lia). lia.
Qed.

Lemma slow_digits i j : (i <= j <= length src)%nat -> (j - i <= 19)%nat -> digits (slice src i j) ->
  digits_loop (j - i) src i 0 = Ok (dval (slice src i j)).
Proof using.
  intros H Hw Hd. pose proof (run_value_bound i j H Hw Hd) as Hb. replace j with (i + (j - i))%nat in Hd, Hb by lia.
  rewrite digits_loop_ok by (done || lia). replace (i + (j - i))%nat with j by lia. done.
Qed.

(** A run of two words or three: the leading digits and a full word group. *)
Lemma split_run i m j : (i < m <= j)%nat -> (j <= length src)%nat -> digits (slice src i j) ->
  digits (slice src i m) /\ digits (slice src m j) /\
  dval (slice src i j) = dval (slice src i m) * 10 ^ Z.of_nat (j - m) + dval (slice src m j).
Proof using.
  intros H Hj Hd. destruct (digits_slice i m j) as [Ha Hb]; [lia..|done|]. split_and!; [done..|].
  rewrite (slice_app _ i m j), dval_app, slice_len by lia. done.
Qed.

Lemma parseTape_ok i j :
  (i < j <= length src)%nat -> digits (slice src i j) ->
  parseTapeDigitsUint64 src i j = Ok (if (j - i <=? 19)%nat then (dval (slice src i j), true) else (0, false)).
Proof using Hsrc.
  intros H Hd. unfold parseTapeDigitsUint64. cbv zeta. rewrite <- Nat2Z.inj_sub by lia.
  destruct (Nat.leb_spec (j - i) 19) as [Hw|Hw]; [|by rewrite !if_false by lia].
  assert (Hslow : (let* value := digits_loop (j - i) src i 0 in Ok (value, true)) = (Ok (dval (slice src i j), true) : res unit _)).
  { by rewrite slow_digits by (done || lia). }
  pose proof (run_value_bound i j ltac:(lia) Hw Hd) as Hb. unfold w64.
  destruct (Z.leb_spec (Z.of_nat (j - i)) 8).
  { destruct (Nat.leb_spec 8 j); [|done]. rewrite word_at_ok by lia. cbn [res_bind].
  by rewrite trailing_digits by (done || lia). }
  destruct (Z.leb_spec (Z.of_nat (j - i)) 16).
  { destruct (Nat.leb_spec 16 j); [|done]. destruct (split_run i (j - 8) j) as (Ha & Hc & E); [lia..|done|].
  rewrite word_at_ok by lia. cbn [res_bind].
  replace (Z.of_nat (j - i) - 8) with (Z.of_nat (j - 8 - i)) by lia. replace (j - 16)%nat with (j - 8 - 8)%nat by lia.
  rewrite trailing_digits by (done || lia). rewrite word_digits by (done || (replace (j - 8 + 8)%nat with j by lia; done) || lia).
  replace (j - 8 + 8)%nat with j by lia. cbn [res_bind]. replace (j - (j - 8))%nat with 8%nat in E by lia.
  change (10 ^ Z.of_nat 8) with 100000000 in E. rewrite <- E, Z.mod_small by lia. done. }
  rewrite if_true by lia. destruct (Nat.leb_spec 24 j); [|done].
  destruct (split_run i (j - 16) j) as (Ha & Hc & E); [lia..|done|].
  rewrite word_at_ok by lia. cbn [res_bind].
  replace (Z.of_nat (j - i) - 16) with (Z.of_nat (j - 16 - i)) by lia. replace (j - 24)%nat with (j - 16 - 8)%nat by lia.
  rewrite trailing_digits by (done || lia). rewrite double_word_digits by (done || (replace (j - 16 + 16)%nat with j by lia; done) || lia).
  replace (j - 16 + 16)%nat with j by lia. cbn [res_bind]. replace (j - (j - 16))%nat with 16%nat in E by lia.
  change (10 ^ Z.of_nat 16) with 10000000000000000 in E. rewrite <- E, Z.mod_small by lia. done.
Qed.

Lemma checked_digits_ok n i value :
  (i + n <= length src)%nat -> digits (slice src i (i + n)) -> 0 <= value < 2 ^ 64 ->
  let v := value * 10 ^ Z.of_nat n + dval (slice src i (i + n)) in
  checked_digits n src i value = Ok (if v <? 2 ^ 64 then Some v else None).
Proof using.
  intros Hi Hd Hv v. subst v. revert i value Hi Hd Hv. induction n as [|n IH]; intros i value Hi Hd Hv; cbn [checked_digits].
  { rewrite Nat.add_0_r. unfold slice. rewrite Nat.sub_diag. change (dval (take 0 _)) with 0. rewrite if_true by lia.
  do 2 f_equal. lia. }
  destruct (lookup_lt_is_Some_2 src i ltac:(lia)) as [c Hc].
  rewrite (slice_cons _ i (i + S n) c) in * by (done || lia). replace (i + S n)%nat with (S i + n)%nat in * by lia.
  apply Forall_cons in Hd as [Hc' Hd]. rewrite dval_cons in *.
  assert (Hsl : length (slice src (S i) (S i + n)) = n) by (rewrite slice_len; lia). rewrite Hsl in *.
  pose proof (dval_bound _ Hd) as Bd. rewrite Hsl in Bd. pose proof (pow10_pos n) as Hp.
  rewrite Nat2Z.inj_succ, Z.pow_succ_r in * by lia. unfold IsDigit in Hc'.
  unfold fastByteAt. rewrite Hc. cbn [res_bind]. cbv zeta. rewrite (Z.mod_small (c - _)) by lia.
  destruct (Z.ltb_spec ((2 ^ 64 - 1 - (c - "0"%ch)) / 10) value) as [Hlt|Hge].
  - rewrite if_false; [done|]. assert (2 ^ 64 - 1 - (c - "0"%ch) < 10 * value) by div_lia. nia.
  - assert (10 * value <= 2 ^ 64 - 1 - (c - "0"%ch)) by div_lia. unfold w64. rewrite Z.mod_small by lia.
    rewrite IH by (done || lia). replace ((value * 10 + (c - "0"%ch)) * 10 ^ Z.of_nat n + dval (slice src (S i) (S i + n)))
      with (value * (10 * 10 ^ Z.of_nat n) + ((c - "0"%ch) * 10 ^ Z.of_nat n + dval (slice src (S i) (S i + n)))) by lia. done.
Qed.
End Runs.

(** ** Integer spellings *)

(** The value of an integer spelling. *)
Definition int_value (raw : bytes) : Z :=
  match raw with c :: ds => if c =? "-"%ch then - dval ds else dval raw | [] => 0 end.

Definition is_negative (raw : bytes) : bool := match raw with c :: _ => c =? "-"%ch | [] => false end.

(** What a 64-bit read of a number's spelling gives. *)
Definition int64_of (raw : bytes) : Z * bool :=
  if plain_integer raw && (- 2 ^ 63 <=? int_value raw) && (int_value raw <? 2 ^ 63) then (int_value raw, true) else (0, false).
Definition uint64_of (raw : bytes) : Z * bool :=
  if plain_integer raw && negb (is_negative raw) && (int_value raw <? 2 ^ 64) then (int_value raw, true) else (0, false).

(** The digits of an integer spelling: no redundant zero. *)
Definition int_digits (ds : bytes) : Prop := digits ds /\ ds <> [] /\ (length ds = 1%nat \/ canonical ds).

Lemma jint_int_digits s : jint s -> int_digits s.
Proof.
  destruct 1 as [|c s Hc Hs].
  - split_and!; [by constructor|done|by left].
  - assert (Hd : IsDigit c = true) by (unfold IsDigit, isOneNine in *; lia).
    split_and!; [by constructor|done|]. right. split; [by constructor|]. unfold isOneNine in Hc. lia.
Qed.

Lemma int_digits_long ds n : int_digits ds -> (n < length ds)%nat -> (1 <= n)%nat -> 10 ^ Z.of_nat n <= dval ds.
Proof.
  intros (_ & _ & [H1|Hc]) Hl Hn; [lia|]. destruct ds as [|c ds]; [simpl in Hl; lia|].
  apply canonical_lower in Hc. simpl in Hl. assert (10 ^ Z.of_nat n <= 10 ^ Z.of_nat (length ds)); [|lia].
  apply Z.pow_le_mono_r; lia.
Qed.

Lemma plain_number raw :
  jnumber raw -> plain_integer raw = true -> exists sgn ds, raw = sgn ++ ds /\ (sgn = [] \/ sgn = ["-"%ch]) /\ int_digits ds.
Proof.
  intros Hn. destruct Hn as [sgn int frac exp Hs Hi Hf He]. rewrite !plain_integer_app, !andb_true_iff.
  intros (_ & _ & Hpf & Hpe). destruct Hf as [|ds _ _]; [|done]. destruct He as [|e sg ds [->| ->] _ _ _]; [|done..].
  exists sgn, int. rewrite !app_nil_r. split_and!; [done..|by apply jint_int_digits].
Qed.

(** The two shapes of an integer spelling. *)
Lemma plain_cases raw : jnumber raw -> plain_integer raw = true ->
  (exists ds, raw = "-"%ch :: ds /\ int_digits ds /\ is_negative raw = true /\ int_value raw = - dval ds) \/
  (int_digits raw /\ is_negative raw = false /\ int_value raw = dval raw).
Proof.
  intros Hn Hp. destruct (plain_number raw Hn Hp) as (sgn & ds & -> & [->| ->] & Hd).
  - right. destruct ds as [|c ds]; [by destruct Hd as (_ & ? & _)|]. pose proof Hd as (Hds & _ & _).
    apply Forall_cons in Hds as [Hc _]. unfold IsDigit in Hc. cbn [app is_negative int_value].
    rewrite (proj2 (Z.eqb_neq c "-"%ch)) by lia. done.
  - left. exists ds. by split_and!.
Qed.

Lemma signed_result_ok (negative : bool) value :
  0 <= value < 2 ^ 64 ->
  let v := if negative then - value else value in
  signed_result negative value = if (- 2 ^ 63 <=? v) && (v <? 2 ^ 63) then (v, true) else (0, false).
Proof.
  intros Hv v. unfold signed_result, v. assert (Hi : forall x, - 2 ^ 63 <= x < 2 ^ 63 -> int64 x = x).
  { intros x Hx. unfold int64. rewrite Z.mod_small by lia. lia. }
  destruct negative.
  - destruct (Z.ltb_spec (2 ^ 63) value); [by rewrite if_false by lia|]. rewrite if_true by lia.
    destruct (decide (value = 2 ^ 63)) as [->|]; [done|]. rewrite (Hi value) by lia. by rewrite Hi by lia.
  - destruct (Z.ltb_spec (2 ^ 63 - 1) value); [by rewrite if_false by lia|]. rewrite if_true by lia. by rewrite Hi by lia.
Qed.

Section Reads.
Context (src : bytes).
Hypothesis Hsrc : bytes_ok src.

Lemma run_parse i j ds : span src i ds j -> int_digits ds ->
  parseTapeDigitsUint64 src i j = Ok (if (length ds <=? 19)%nat then (dval ds, true) else (0, false)).
Proof using Hsrc.
  intros Hs (Hd & Hne & _). apply span_le in Hs as Hle. apply span_len in Hs as Hlen.
  assert (0 < length ds)%nat by (destruct ds; [done|simpl; lia]).
  rewrite parseTape_ok by (rewrite ?(span_slice _ _ _ _ Hs); (done || lia)). rewrite (span_slice _ _ _ _ Hs).
  by replace (j - i)%nat with (length ds) by lia.
Qed.

Lemma short_run ds : int_digits ds -> (length ds <= 19)%nat -> 0 <= dval ds < 2 ^ 64.
Proof using.
  intros (Hd & _) Hl. apply dval_bound in Hd. assert (10 ^ Z.of_nat (length ds) <= 10 ^ 19) by (apply Z.pow_le_mono_r; lia). lia.
Qed.

(** The digits behind the sign of an integer spelling. *)
Lemma signed_parse i j raw :
  span src i raw j -> jnumber raw -> plain_integer raw = true ->
  exists c ds, src !! i = Some c /\ int_digits ds /\ int_value raw = (if c =? "-"%ch then - dval ds else dval ds) /\
  parseTapeDigitsUint64 src (if c =? "-"%ch then S i else i) j = Ok (if (length ds <=? 19)%nat then (dval ds, true) else (0, false)).
Proof using Hsrc.
  intros Hs Hn Hp. destruct (plain_cases raw Hn Hp) as [(ds & -> & Hd & _ & ->)|(Hd & Hneg & ->)].
  - apply span_cons in Hs as [Hc Hs]. exists "-"%ch, ds. rewrite Z.eqb_refl. split_and!; [done..|by apply run_parse].
  - destruct raw as [|c raw]; [by destruct Hd as (_ & ? & _)|]. apply span_cons in Hs as Hc. destruct Hc as [Hc _].
    cbn [is_negative] in Hneg. exists c, (c :: raw). rewrite Hneg. split_and!; [done..|by apply run_parse].
Qed.

Lemma long_run ds : int_digits ds -> (19 < length ds)%nat -> 10 ^ 19 <= dval ds.
Proof using. intros Hd Hl. apply (int_digits_long ds 19); (done || lia). Qed.

Lemma TapeInt64_ok i j raw :
  span src i raw j -> jnumber raw -> plain_integer raw = true -> TapeInt64 src i j = Ok (int64_of raw).
Proof using Hsrc.
  intros Hs Hn Hp. destruct (signed_parse i j raw Hs Hn Hp) as (c & ds & Hc & Hd & Hv & Hr).
  unfold TapeInt64, int64_of, fastByteAt. rewrite Hc, Hp, Hv. cbn [res_bind andb]. cbv zeta. rewrite Hr.
  destruct (Nat.leb_spec (length ds) 19) as [Hl|Hl]; cbn [res_bind negb].
  - f_equal. by apply signed_result_ok, short_run.
  - pose proof (long_run ds Hd Hl). rewrite if_false; [done|]. destruct (c =? "-"%ch); lia.
Qed.

Lemma tapeUint64_ok i j raw :
  span src i raw j -> int_digits raw ->
  tapeUint64 src i j = Ok (if dval raw <? 2 ^ 64 then (dval raw, true) else (0, false)).
Proof using Hsrc.
  intros Hs Hd. unfold tapeUint64. rewrite (run_parse _ _ _ Hs Hd). apply span_le in Hs as Hle. apply span_len in Hs as Hlen.
  destruct (Nat.leb_spec (length raw) 19) as [Hl|Hl]; cbn [res_bind].
  { pose proof (short_run raw Hd Hl). by rewrite if_true by lia. }
  destruct (Z.eqb_spec (Z.of_nat j - Z.of_nat i) 20) as [E|E]; cbn [negb].
  - assert (Hr : slice src i (i + (j - i)) = raw) by (replace (i + (j - i))%nat with j by lia; by apply span_slice).
    rewrite checked_digits_ok by (rewrite ?Hr; try apply Hd; lia). rewrite Hr. cbn [res_bind].
    change (0 * _ + dval raw) with (dval raw). by destruct (_ <? _).
  - pose proof (int_digits_long raw 20 Hd ltac:(lia) ltac:(lia)). by rewrite if_false by lia.
Qed.
End Reads.

(** ** Raw values *)

Lemma parse_uint_loop_ok s n : digits s -> 0 <= n < 2 ^ 64 ->
  let v := n * 10 ^ Z.of_nat (length s) + dval s in
  parse_uint_loop s n = Some (if v <? 2 ^ 64 then (v, true) else (2 ^ 64 - 1, false)).
Proof.
  intros Hd. revert n. induction Hd as [|c s Hc Hd IH]; intros n Hn; cbv zeta; cbn [parse_uint_loop length].
  { change (dval []) with 0. rewrite if_true by lia. do 2 f_equal. lia. }
  rewrite Hc, dval_cons, Nat2Z.inj_succ, Z.pow_succ_r by lia. cbn [negb]. cbv zeta. unfold IsDigit in Hc.
  apply dval_bound in Hd as Hb. pose proof (pow10_pos (length s)) as Hp. change ((2 ^ 64 - 1) / 10 + 1) with 1844674407370955162.
  destruct (Z.leb_spec 1844674407370955162 n); [rewrite if_false; [done|]; nia|]. unfold w64.
  destruct (Z.leb_spec (2 ^ 64) (n * 10 + (c - "0"%ch))) as [Ho|Ho].
  - replace (n * 10 + (c - "0"%ch)) with (n * 10 + (c - "0"%ch) - 2 ^ 64 + 1 * 2 ^ 64) by lia.
    rewrite Z_mod_plus_full, Z.mod_small by lia. rewrite if_true by lia. rewrite if_false; [done|]. nia.
  - rewrite Z.mod_small by lia. rewrite if_false by lia. rewrite IH by lia. cbv zeta.
    replace ((n * 10 + (c - "0"%ch)) * 10 ^ Z.of_nat (length s) + dval s)
      with (n * (10 * 10 ^ Z.of_nat (length s)) + ((c - "0"%ch) * 10 ^ Z.of_nat (length s) + dval s)) by lia. done.
Qed.

Lemma ParseUint64_ok s : digits s -> s <> [] -> ParseUint64 s = Some (if dval s <? 2 ^ 64 then (dval s, true) else (2 ^ 64 - 1, false)).
Proof.
  intros Hd Hne. unfold ParseUint64. rewrite (proj2 (Nat.eqb_neq _ _)) by (by destruct s).
  rewrite parse_uint_loop_ok by (done || lia). cbv zeta. change (0 * _ + dval s) with (dval s). done.
Qed.

(** A spelling of more than nineteen digits is a range error. *)
Lemma ParseInt64_range s :
  jnumber s -> plain_integer s = true -> 2 ^ 63 < Z.abs (int_value s) -> (ParseInt64 s).2 = false.
Proof.
  intros Hn Hp Hv. destruct (plain_cases s Hn Hp) as [(ds & -> & (Hd & Hne & _) & _ & E)|((Hd & Hne & _) & _ & E)].
  - rewrite E in Hv. apply dval_bound in Hd as Hb. unfold ParseInt64. cbn [drop orb].
    rewrite Z.eqb_refl. cbn [orb]. rewrite drop_0, (ParseUint64_ok ds Hd Hne).
    destruct (dval ds <? 2 ^ 64); cbn [negb andb]; by rewrite if_true by lia.
  - rewrite E in Hv. destruct s as [|c s]; [done|]. apply dval_bound in Hd as Hb. apply Forall_cons in Hd as Hc. destruct Hc as [Hc _].
    unfold IsDigit in Hc. unfold ParseInt64. rewrite (proj2 (Z.eqb_neq c "-"%ch)), (proj2 (Z.eqb_neq c "+"%ch)) by lia.
    cbn [orb negb andb]. rewrite (ParseUint64_ok _ Hd Hne).
    destruct (dval (c :: s) <? 2 ^ 64); by rewrite if_true by lia.
Qed.

Section RawReads.
Context (src : bytes).
Hypothesis Hsrc : bytes_ok src.

(** One pass accepts exactly the plain integers. *)
Lemma raw_scan : src <> [] -> exists j integer,
  scanNumberFastTagged src 0 = Ok (j, integer, msg_ok (scanNumber src 0).2) /\
  negb (msg_ok (scanNumber src 0).2) || negb (j =? length src)%nat || negb integer = negb (validNumber src && plain_integer src).
Proof using Hsrc.
  intros Hne. assert (Hl : (0 < length src)%nat) by (destruct src; [done|simpl; lia]).
  destruct (fast_number_spec (skip_digits src) src 0 Hsrc Hl ltac:(done)) as (integer & Hf & Hp).
  exists (scanNumber src 0).1, integer. split; [done|]. unfold validNumber. destruct (scanNumber src 0) as [j m]. cbn [fst snd] in *.
  destruct (msg_ok m) eqn:Em; cbn [negb orb andb].
  - destruct (Nat.eqb_spec j (length src)) as [->|]; cbn [negb orb andb]; [|done].
    rewrite Hp by done. by rewrite (span_slice _ _ _ _ (span_whole src)).
  - done.
Qed.

Lemma raw_Int64_ok : exists n,
  raw_Int64 src = Ok (n, validNumber src && (int64_of src).2) /\
  (validNumber src && (int64_of src).2 = true -> n = int_value src).
Proof using Hsrc.
  unfold raw_Int64. destruct (decide (src = [])) as [->|Hne]; [by exists 0|].
  rewrite (proj2 (Nat.eqb_neq _ _)) by (by destruct src).
  destruct (raw_scan Hne) as (j & integer & -> & Hc). cbn [res_bind]. rewrite Hc.
  destruct (validNumber src) eqn:Hv; cbn [andb negb]; [|by exists 0].
  apply validNumber_jnumber in Hv; [|done].
  destruct (plain_integer src) eqn:Hp; cbn [andb negb].
  2:{ exists 0. unfold int64_of. by rewrite Hp. }
  assert (Hj : j = length src).
  { destruct (j =? length src)%nat eqn:E; [by apply Nat.eqb_eq in E|]. by rewrite orb_true_r in Hc. }
  subst j. destruct (signed_parse src Hsrc 0 (length src) src (span_whole src) Hv Hp) as (c & ds & Hc0 & Hd & Hi & Hr).
  unfold fastByteAt. rewrite Hc0. cbn [res_bind]. cbv zeta. rewrite Hr. unfold int64_of. rewrite Hp, Hi.
  destruct (Nat.leb_spec (length ds) 19) as [Hl|Hl]; cbn [res_bind negb andb].
  - rewrite signed_result_ok by (by apply short_run). cbv zeta. case_step; by eexists.
  - pose proof (long_run ds Hd Hl) as Hb. rewrite if_false by (destruct (c =? "-"%ch); lia).
    exists (ParseInt64 src).1. split; [|done]. cbn [snd].
    rewrite <- (ParseInt64_range src); [by destruct (ParseInt64 src)|done..|]. rewrite Hi. destruct (c =? "-"%ch); lia.
Qed.

Lemma raw_Uint64_ok : raw_Uint64 src = Ok (if validNumber src then uint64_of src else (0, false)).
Proof using Hsrc.
  unfold raw_Uint64. destruct (decide (src = [])) as [->|Hne]; [done|].
  rewrite (proj2 (Nat.eqb_neq _ _)) by (by destruct src).
  destruct (raw_scan Hne) as (j & integer & -> & Hc). cbn [res_bind]. rewrite Hc.
  destruct (validNumber src) eqn:Hv; cbn [andb negb]; [|done].
  apply validNumber_jnumber in Hv; [|done]. unfold uint64_of.
  destruct (plain_integer src) eqn:Hp; cbn [andb negb]; [|done].
  assert (Hj : j = length src).
  { destruct (j =? length src)%nat eqn:E; [by apply Nat.eqb_eq in E|]. by rewrite orb_true_r in Hc. }
  subst j. destruct (plain_cases src Hv Hp) as [(ds & -> & _ & -> & _)|(Hd & Hneg & ->)]; [done|]. rewrite Hneg.
  unfold fastByteAt. destruct src as [|c s]; [done|]. cbn [lookup list_lookup res_bind]. cbn [is_negative] in Hneg. rewrite Hneg.
  by rewrite (tapeUint64_ok _ Hsrc _ _ _ (span_whole _) Hd).
Qed.
End RawReads.
