(* ===== verification/DecoderCursor.v ===== *)
(** [decoder_cursor.go], [decoder_error_path.go] and the error values of [typed.go]: the pull
    parser under the typed decoder.  A cursor is a position,
    a depth and the one flag that changes while decoding; the source, the depth
    limit and the other flags are fixed.  Strings are their contents: the blocks
    owned strings are copied into are not modelled, and the structural tape is
    inactive. *)

From S2P Require Import Prelude Words Utf8 Scanner Lex Grammar StringRef Errors Numbers Reader Validator FastValid ParserString Layout NumberEqual Digits.

(** ** Errors *)

Record DecodeError : Type := mkDecodeError {
  de_Offset : nat;
  de_Path : bytes;
  de_Type : option string;
  de_TypeName : string;
  de_Reason : string
  }.

Record decodePathError : Type := mkDecodePath { dp_cause : DecodeError; dp_reversed : bytes }.

(** The Go [error] values a decode returns. *)
Inductive derr : Type :=
  | DSyntax (e : SyntaxError)
  | DDecode (e : DecodeError)
  | DPath (e : decodePathError).

Definition with_path (e : DecodeError) (path : bytes) : DecodeError :=
  mkDecodeError (de_Offset e) path (de_Type e) (de_TypeName e) (de_Reason e).

Definition decodePathBufferThreshold : Z := 256.

Definition newReversedDecodePath (path : bytes) : bytes := rev path.

Definition reversed_prepend (buffer segment : bytes) : bytes :=
  (match last buffer with
   | Some c => if c =? "["%ch then buffer else buffer ++ ["."%ch]
   | None => buffer
   end) ++ rev segment.

Definition newDecodePathError (e : DecodeError) : decodePathError :=
  mkDecodePath e (newReversedDecodePath (de_Path e)).

Definition finishDecodeError (err : derr) : derr :=
  match err with
  | DPath e => DDecode (with_path (dp_cause e) (rev (dp_reversed e)))
  | _ => err
  end.

Definition prependDecodePathField (err : derr) (name : bytes) : derr :=
  match err with
  | DPath e => DPath (mkDecodePath (dp_cause e) (reversed_prepend (dp_reversed e) name))
  | DDecode e =>
      if decodePathBufferThreshold <=? Z.of_nat (length (de_Path e)) then
        let path := newDecodePathError e in
        DPath (mkDecodePath (dp_cause path) (reversed_prepend (dp_reversed path) name))
      else
        DDecode (with_path e
          (match de_Path e with
           | [] => name
           | c :: _ => if c =? "["%ch then name ++ de_Path e else name ++ "."%ch :: de_Path e
           end))
  | DSyntax _ => err
  end.

Definition prependDecodePathIndex (err : derr) (index : nat) : derr :=
  let segment := "["%ch :: Itoa (Z.of_nat index) ++ ["]"%ch] in
  match err with
  | DPath e => DPath (mkDecodePath (dp_cause e) (reversed_prepend (dp_reversed e) segment))
  | DDecode e =>
      if decodePathBufferThreshold <=? Z.of_nat (length (de_Path e)) then
        let path := newDecodePathError e in
        DPath (mkDecodePath (dp_cause path) (reversed_prepend (dp_reversed path) segment))
      else
        DDecode (with_path e
          (match de_Path e with
           | [] => segment ++ de_Path e
           | c :: _ => if c =? "["%ch then segment ++ de_Path e else segment ++ "."%ch :: de_Path e
           end))
  | DSyntax _ => err
  end.

Definition retagCompiledError (err : derr) (typ : string) : derr :=
  let retag e := mkDecodeError (de_Offset e) (de_Path e) (Some typ) EmptyString (de_Reason e) in
  match err with
  | DDecode e => DDecode (retag e)
  | DPath e => DPath (mkDecodePath (retag (dp_cause e)) (dp_reversed e))
  | DSyntax _ => err
  end.

(** ** The cursor *)

(** The flags that do not change during a decode. *)
Record decoderFlags : Type := mkFlags {
  decoderZeroCopy : bool;
  decoderDisallowUnknown : bool;
  decoderCaseSensitive : bool;
  decoderReplace : bool;
  decoderUseNumber : bool
  }.

Record DecoderOptions : Type := mkDecoderOptions {
  do_MaxDepth : Z;
  do_ZeroCopy : bool;
  do_DisallowUnknownFields : bool;
  do_CaseSensitive : bool;
  do_UseNumber : bool;
  do_Replace : bool;
  do_InlineFields : bool
  }.

Record decoderCursor : Type := mkCursor { d_i : nat; d_depth : Z; decoderExpectedSlow : bool }.

(** [newDecoderCursor]: the flags and the cursor it starts with. *)
Definition flags_of (opts : DecoderOptions) : decoderFlags :=
  mkFlags (do_ZeroCopy opts) (do_DisallowUnknownFields opts) (do_CaseSensitive opts) (do_Replace opts)
    (do_UseNumber opts).
Definition newDecoderCursor : decoderCursor := mkCursor 0 0 false.

Definition set_i (c : decoderCursor) (i : nat) : decoderCursor := mkCursor i (d_depth c) (decoderExpectedSlow c).
Definition enter (c : decoderCursor) : decoderCursor := mkCursor (S (d_i c)) (d_depth c + 1) (decoderExpectedSlow c).
Definition leave (c : decoderCursor) (i : nat) : decoderCursor := mkCursor i (d_depth c - 1) (decoderExpectedSlow c).

(** An unsafe read of the source in a decoder. *)
Definition unsafe {A} (r : res unit A) : res derr A :=
  match r with Ok a => Ok a | NoFuel => NoFuel | _ => Panic end.

Definition load16 (src : bytes) (i : nat) : res unit Z :=
  if (i + 2 <=? length src)%nat then Ok (le_word (slice src i (i + 2))) else Panic.
Definition quoteColonLE : Z := Eval cbv in le_word [DQUOTE; ":"%ch].

(** [i < len(src) && p(src[i])] *)
Definition at_sat (src : bytes) (i : nat) (p : Z -> bool) : bool :=
  match src !! i with Some c => p c | None => false end.

Section Cursor.
Context (src : bytes) (maxDepth : Z) (flags : decoderFlags).
Context (Quote : bytes -> string).

Definition d_err {A} (offset : nat) (reason : string) : res derr A := Err (DSyntax (syntax_at src offset reason)).

(** [expected] and [genericError]. *)
Definition d_expected {A} (c : decoderCursor) (typeName jsonType : string) : res derr A :=
  Err (DDecode (mkDecodeError (d_i c) [] None typeName (String.append "expected " jsonType))).
Definition genericError {A} (T : string) (offset : nat) (reason : string) : res derr A :=
  Err (DDecode (mkDecodeError offset [] (Some T) EmptyString reason)).
Definition genericExpected {A} (T : string) (c : decoderCursor) (jsonType : string) : res derr A :=
  genericError T (d_i c) (String.append "expected " jsonType).

Definition d_skipSpace (c : decoderCursor) : decoderCursor := set_i c (SkipSpace src (d_i c)).
Definition skipSpaceAt (i : nat) : nat := skipSpaceIndent src i.

Definition finishSlow (c : decoderCursor) : res derr unit :=
  let c := d_skipSpace c in
  if negb (d_i c =? length src)%nat then d_err (d_i c) "unexpected data after top-level value" else Ok tt.
Definition d_Finish (c : decoderCursor) : res derr unit :=
  if (d_i c =? length src)%nat then Ok tt else finishSlow c.

Definition notNullFast (c : decoderCursor) : bool :=
  at_sat src (d_i c) (fun b => (32 <? b) && negb (b =? "n"%ch)).

Definition null_at (c : decoderCursor) : bool := literalNullAt src (Z.of_nat (d_i c)).

Definition tryNullSlow (c : decoderCursor) : res derr (bool * decoderCursor) :=
  let c := d_skipSpace c in
  if negb (at_byte src (d_i c) "n"%ch) then Ok (false, c)
  else if negb (null_at c) then d_err (d_i c) "invalid literal"
  else Ok (true, set_i c (d_i c + 4)).
Definition TryNull (c : decoderCursor) : res derr (bool * decoderCursor) :=
  if notNullFast c then Ok (false, c) else tryNullSlow c.

(** ** Containers *)

(** [beginObjectSlow] and [beginArraySlow], by the delimiter and its name. *)
Definition begin_slow (open : Z) (jsonType typeName : string) (c : decoderCursor) : res derr decoderCursor :=
  let c := d_skipSpace c in
  if negb (at_byte src (d_i c) open) then d_expected c typeName jsonType
  else if maxDepth <=? d_depth c then d_err (d_i c) "maximum nesting depth exceeded"
  else Ok (enter c).

Definition d_BeginObject (typeName : string) (c : decoderCursor) : res derr decoderCursor :=
  if at_byte src (d_i c) "{"%ch && (d_depth c <? maxDepth) then Ok (enter c)
  else begin_slow "{"%ch "object" typeName c.
Definition d_BeginArray (typeName : string) (c : decoderCursor) : res derr decoderCursor :=
  if at_byte src (d_i c) "["%ch && (d_depth c <? maxDepth) then Ok (enter c)
  else begin_slow "["%ch "array" typeName c.

(** The gap after a colon: a single space is stepped over in line. *)
Definition skip_gap (c : decoderCursor) : decoderCursor :=
  if at_sat src (d_i c) (fun b => b <=? 32) then
    if at_byte src (d_i c) 32 && at_sat src (S (d_i c)) (fun b => 32 <? b) then set_i c (S (d_i c))
    else d_skipSpace c
  else c.

(** [parseOwnedString] and [stringToken]'s slow path: the parser's reader. *)
Definition parse_string (c : decoderCursor) : res derr (bytes * decoderCursor) :=
  match p_parseString src (d_i c) with
  | Ok (j, text) => Ok (text, set_i c j)
  | Err e => Err (DSyntax e)
  | Panic => Panic
  | NoFuel => NoFuel
  end.

(** [parser.typedKey] *)
Definition p_typedKey (c : decoderCursor) : res derr (bytes * decoderCursor) :=
  let start := S (d_i c) in
  let end_ := scanStringSpecial src start in
  if at_byte src end_ DQUOTE then Ok (slice src start end_, set_i c (S end_)) else parse_string c.

Definition typedKey (c : decoderCursor) : res derr (bytes * decoderCursor) :=
  let start := S (d_i c) in
  let special := scanStringSpecial src start in
  if at_byte src special DQUOTE then Ok (slice src start special, set_i c (S special))
  else if at_byte src special BSLASH then parse_string c
  else p_typedKey c.

(** The key, the colon and the gaps, from the opening quote. *)
Definition key_slow (c : decoderCursor) : res derr (option bytes * decoderCursor) :=
  let c := d_skipSpace c in
  if negb (at_byte src (d_i c) DQUOTE) then d_err (d_i c) "expected object key string"
  else
    let keyStart := S (d_i c) in
    let* (key, c) :=
      if (keyStart + 8 <=? length src)%nat then
        let mask := stringSpecialMask (load64 src keyStart) in
        let keyEnd := (keyStart + Z.to_nat (TrailingZeros64 mask / 8))%nat in
        if negb (mask =? 0) && at_byte src keyEnd DQUOTE
        then Ok (slice src keyStart keyEnd, set_i c (S keyEnd))
        else typedKey c
      else typedKey c in
    let c := d_skipSpace c in
    if negb (at_byte src (d_i c) ":"%ch) then d_err (d_i c) "expected colon after object key"
    else Ok (Some key, d_skipSpace (set_i c (S (d_i c)))).

Definition nextObjectFieldSlow (first : bool) (c : decoderCursor) : res derr (option bytes * decoderCursor) :=
  let c := d_skipSpace c in
  match src !! d_i c with
  | None => d_err (d_i c) "unterminated object"
  | Some b =>
      if negb first then
        if b =? "}"%ch then Ok (None, leave c (S (d_i c)))
        else if b =? ","%ch then key_slow (set_i c (S (d_i c)))
        else d_err (d_i c) "expected comma or closing brace in object"
      else if b =? "}"%ch then Ok (None, leave c (S (d_i c)))
      else key_slow c
  end.

(** The packed key path of [NextObjectField], with [i] at the opening quote; it
    starts over on the slow path when the key is not plain. *)
Definition key_fast (first : bool) (c : decoderCursor) (i : nat) : res derr (option bytes * decoderCursor) :=
  let keyStart := S i in
  let plain keyEnd :=
    let* other := if (length src <? keyEnd + 2)%nat then Ok true
                  else let* w := unsafe (load16 src keyEnd) in Ok (negb (w =? quoteColonLE)) in
    if (other : bool) then nextObjectFieldSlow first c
    else Ok (Some (slice src keyStart keyEnd), skip_gap (set_i c (keyEnd + 2))) in
  if (keyStart + 8 <=? length src)%nat then
    let mask := stringSpecialMask (load64 src keyStart) in
    if mask =? 0 then nextObjectFieldSlow first c
    else plain (keyStart + Z.to_nat (TrailingZeros64 mask / 8))%nat
  else plain (scanStringSpecial src keyStart).

(** [None] is the end of the object. *)
Definition NextObjectField (first : bool) (c : decoderCursor) : res derr (option bytes * decoderCursor) :=
  let c := if at_sat src (d_i c) (fun b => b <=? 32) then set_i c (skipSpaceAt (d_i c)) else c in
  let i := d_i c in
  match src !! i with
  | None => nextObjectFieldSlow first c
  | Some b =>
      if first then
        if b =? "}"%ch then Ok (None, leave c (S i))
        else if negb (b =? DQUOTE) then nextObjectFieldSlow first c
        else key_fast first c i
      else if b =? "}"%ch then Ok (None, leave c (S i))
      else if b =? ","%ch then
        let i := S i in
        let i := if at_sat src i (fun b => b <=? 32) then skipSpaceAt i else i in
        if negb (at_byte src i DQUOTE) then nextObjectFieldSlow first c else key_fast first c i
      else nextObjectFieldSlow first c
  end.

Definition nextArrayElementSlow (first : bool) (c : decoderCursor) : res derr (bool * decoderCursor) :=
  let c := d_skipSpace c in
  match src !! d_i c with
  | None => d_err (d_i c) "unterminated array"
  | Some b =>
      if negb first then
        if b =? "]"%ch then Ok (false, leave c (S (d_i c)))
        else if b =? ","%ch then Ok (true, d_skipSpace (set_i c (S (d_i c))))
        else d_err (d_i c) "expected comma or closing bracket in array"
      else if b =? "]"%ch then Ok (false, leave c (S (d_i c)))
      else Ok (true, d_skipSpace c)
  end.

Definition NextArrayElement (first : bool) (c : decoderCursor) : res derr (bool * decoderCursor) :=
  let c := if at_sat src (d_i c) (fun b => b <=? 32) then set_i c (skipSpaceAt (d_i c)) else c in
  let i := d_i c in
  match src !! i with
  | None => nextArrayElementSlow first c
  | Some b =>
      if first then
        if b =? "]"%ch then Ok (false, leave c (S i))
        else if 32 <? b then Ok (true, c)
        else nextArrayElementSlow first c
      else if b =? "]"%ch then Ok (false, leave c (S i))
      else if b =? ","%ch then
        let c := set_i c (S i) in
        Ok (true, if at_sat src (d_i c) (fun b => b <=? 32) then set_i c (skipSpaceAt (d_i c)) else c)
      else nextArrayElementSlow first c
  end.

(** [Skip]: the strict validator from the cursor's depth. *)
Definition d_Skip (c : decoderCursor) : res derr decoderCursor :=
  match parseValue src maxDepth (S (length src)) (d_depth c) (mkV (d_i c) None) with
  | Ok v => Ok (set_i c (v_i v))
  | Err e => Err (DSyntax e)
  | Panic => Panic
  | NoFuel => NoFuel
  end.

Definition Unknown (typeName : string) (key : bytes) (c : decoderCursor) : res derr decoderCursor :=
  if decoderDisallowUnknown flags then
    Err (DDecode (mkDecodeError (d_i c) [] None typeName (String.append "unknown field " (Quote key))))
  else d_Skip c.

Definition CaseSensitive : bool := decoderCaseSensitive flags.
End Cursor.

(** ** The member and element steps, read byte by byte *)

(** The key at [i] (after any space), its colon, and the position of its value. *)
Definition ref_key (src : bytes) (i : nat) : res rerr (nat * option bytes) :=
  let i := ref_ws src i in
  if at_byte src i DQUOTE then
    let* (j, name) := ref_str src i in
    let i := ref_ws src j in
    if at_byte src i ":"%ch then Ok (ref_ws src (S i), Some name)
    else Err (i, "expected colon after object key"%string)
  else Err (i, "expected object key string"%string).

(** The next member of an object, or its end. *)
Definition ref_field (src : bytes) (first : bool) (i : nat) : res rerr (nat * option bytes) :=
  let i := ref_ws src i in
  match src !! i with
  | None => Err (i, "unterminated object"%string)
  | Some b =>
      if b =? "}"%ch then Ok (S i, None)
      else if first then ref_key src i
      else if b =? ","%ch then ref_key src (S i)
      else Err (i, "expected comma or closing brace in object"%string)
  end.

(** The next element of an array, or its end. *)
Definition ref_elem (src : bytes) (first : bool) (i : nat) : res rerr (nat * bool) :=
  let i := ref_ws src i in
  match src !! i with
  | None => Err (i, "unterminated array"%string)
  | Some b =>
      if b =? "]"%ch then Ok (S i, false)
      else if first then Ok (i, true)
      else if b =? ","%ch then Ok (ref_ws src (S i), true)
      else Err (i, "expected comma or closing bracket in array"%string)
  end.

(** A reference outcome as the outcome of a cursor method; [live] tells a
    position inside the container from the one behind its end. *)
Definition step_result {A} (src : bytes) (live : A -> bool) (c : decoderCursor) (r : res rerr (nat * A)) :
  res derr (A * decoderCursor) :=
  match r with
  | Ok (j, a) => Ok (a, if live a then set_i c j else leave c j)
  | Err (o, m) => Err (DSyntax (syntax_at src o m))
  | Panic => Panic
  | NoFuel => NoFuel
  end.

Definition is_live (key : option bytes) : bool := match key with Some _ => true | None => false end.

Lemma set_i_set_i c i j : set_i (set_i c i) j = set_i c j.
Proof. done. Qed.
Lemma leave_set_i c i j : leave (set_i c i) j = leave c j.
Proof. done. Qed.
Lemma set_i_same c : set_i c (d_i c) = c.
Proof. by destruct c. Qed.
Lemma set_i_eq c i : i = d_i c -> set_i c i = c.
Proof. intros ->. apply set_i_same. Qed.

Section Steps.
Context (src : bytes) (maxDepth : Z).
Hypothesis Hsrc : bytes_ok src.

Lemma d_skipSpace_ref c : (d_i c <= length src)%nat -> d_skipSpace src c = set_i c (ref_ws src (d_i c)).
Proof using Hsrc. intros H. unfold d_skipSpace, ref_ws. by rewrite SkipSpace_spec. Qed.

Lemma skipSpaceAt_ref i : (i <= length src)%nat -> skipSpaceAt src i = ref_ws src i.
Proof using Hsrc. apply skipSpaceIndent_spec. done. Qed.

(** Nothing to skip where the byte is above the space. *)
Lemma ref_ws_high i : at_sat src i (fun b => b <=? 32) = false -> ref_ws src i = i.
Proof using.
  intros H. unfold ref_ws. apply advance_stop, stops_lookup. unfold at_sat in H.
  destruct (src !! i); [|done]. unfold IsJSONWhitespace. lia.
Qed.

(** The two ways the methods skip space in line. *)
Lemma skip_at_ref i : (i <= length src)%nat ->
  (if at_sat src i (fun b => b <=? 32) then skipSpaceAt src i else i) = ref_ws src i.
Proof using Hsrc.
  intros H. destruct (at_sat src i _) eqn:E; [by apply skipSpaceAt_ref|by rewrite ref_ws_high].
Qed.

Lemma skip_cursor_ref c : (d_i c <= length src)%nat ->
  (if at_sat src (d_i c) (fun b => b <=? 32) then set_i c (skipSpaceAt src (d_i c)) else c) = set_i c (ref_ws src (d_i c)).
Proof using Hsrc.
  intros H. destruct (at_sat src (d_i c) _) eqn:E; [by rewrite skipSpaceAt_ref|].
  by rewrite ref_ws_high, set_i_same.
Qed.

Lemma skip_gap_ref c : (d_i c <= length src)%nat -> skip_gap src c = set_i c (ref_ws src (d_i c)).
Proof using Hsrc.
  intros H. unfold skip_gap. destruct (at_sat src (d_i c) _) eqn:E; [|by rewrite ref_ws_high, set_i_same].
  destruct (at_byte src (d_i c) 32 && _) eqn:E2; [|by apply d_skipSpace_ref].
  apply andb_true_iff in E2 as [H1%at_byte_spec H2]. f_equal. unfold ref_ws. rewrite advance_unfold, H1.
  change (IsJSONWhitespace 32) with true. cbv iota. symmetry. apply advance_stop, stops_lookup.
  unfold at_sat in H2. destruct (src !! S (d_i c)); [|done]. unfold IsJSONWhitespace. lia.
Qed.

(** A key or string without specials is its own content. *)
Lemma plain_key_text i : (i < length src)%nat ->
  at_byte src (scanStringSpecial src (S i)) DQUOTE = true ->
  ref_str src i = Ok (S (scanStringSpecial src (S i)), slice src (S i) (scanStringSpecial src (S i))).
Proof using Hsrc.
  intros Hi Hq%at_byte_spec. unfold ref_str. rewrite str_at_special by (done || lia). by rewrite str_at_quote.
Qed.

Lemma special_le i : (i <= length src)%nat -> (i <= scanStringSpecial src i <= length src)%nat.
Proof using Hsrc. intros. rewrite scanStringSpecial_spec by done. by apply advance_le. Qed.

Lemma special_mask_scan i :
  (i + 8 <= length src)%nat -> stringSpecialMask (load64 src i) <> 0 ->
  (i + Z.to_nat (TrailingZeros64 (stringSpecialMask (load64 src i)) / 8))%nat = scanStringSpecial src i.
Proof using Hsrc.
  intros Hi Hm. rewrite scanStringSpecial_spec, <- scan_ref_all by (done || lia).
  apply (word_hit_some stringSpecialMask); [|done|lia|].
  - intros l ??. by apply special_mask_first.
  - unfold word_hit. by rewrite (proj2 (Z.eqb_neq _ _)).
Qed.

Lemma parse_string_ref c : (d_i c < length src)%nat ->
  parse_string src c = match ref_str src (d_i c) with
    | Ok (j, text) => Ok (text, set_i c j) | Err (o, m) => Err (DSyntax (syntax_at src o m))
    | Panic => Panic | NoFuel => NoFuel end.
Proof using Hsrc.
  intros H. unfold parse_string. rewrite p_parseString_ref by done. by destruct (ref_str src (d_i c)) as [[]|[]| |].
Qed.

Lemma typedKey_ref c : (d_i c < length src)%nat ->
  typedKey src c = match ref_str src (d_i c) with
    | Ok (j, text) => Ok (text, set_i c j) | Err (o, m) => Err (DSyntax (syntax_at src o m))
    | Panic => Panic | NoFuel => NoFuel end.
Proof using Hsrc.
  intros H. unfold typedKey, p_typedKey. destruct (at_byte src _ DQUOTE) eqn:E; [by rewrite plain_key_text|].
  destruct (at_byte src _ BSLASH); by apply parse_string_ref.
Qed.

Lemma ref_str_bound i j name : src !! i = Some DQUOTE -> ref_str src i = Ok (j, name) -> (S i < j <= length src)%nat.
Proof using Hsrc.
  intros Hq E. pose proof (ref_str_sound src Hsrc i Hq) as H. rewrite E in H. destruct H as (_ & s & Hs & Hj).
  apply span_le in Hs as Hle. apply span_len in Hs. destruct Hj. cbn [length] in Hs. rewrite length_app in Hs. simpl in Hs. lia.
Qed.

Lemma key_slow_ref c : (d_i c <= length src)%nat ->
  key_slow src c = step_result src is_live c (ref_key src (d_i c)).
Proof using Hsrc.
  intros Hi. unfold key_slow, ref_key. rewrite d_skipSpace_ref by done. cbv zeta. cbn [set_i d_i].
  pose proof (ref_ws_le src (d_i c) Hi) as Hw. set (i := ref_ws src (d_i c)) in *.
  destruct (at_byte src i DQUOTE) eqn:Hq; cbn [negb]; [|done]. apply at_byte_lt in Hq as Hlt.
  match goal with |- res_bind ?r _ = _ => assert (Em : r = match ref_str src i with
    | Ok (j, text) => Ok (text, set_i c j) | Err (o, m) => Err (DSyntax (syntax_at src o m))
    | Panic => Panic | NoFuel => NoFuel end) end.
  { destruct (Nat.leb_spec (S i + 8) (length src)) as [H8|]; [|by apply (typedKey_ref (set_i c i))].
    destruct (negb _ && _) eqn:Em; [|by apply (typedKey_ref (set_i c i))].
    apply andb_true_iff in Em as [Hm Hk]. revert Hk. rewrite special_mask_scan by (done || lia).
    intros Hk. by rewrite plain_key_text. }
  rewrite Em. apply at_byte_spec in Hq. destruct (ref_str src i) as [[j name]|[o m]| |] eqn:Es; cbn [res_bind]; [|done..].
  destruct (ref_str_bound _ _ _ Hq Es). rewrite d_skipSpace_ref by (simpl; lia). cbn [set_i d_i d_depth decoderExpectedSlow].
  destruct (at_byte src (ref_ws src j) ":"%ch) eqn:Hc; cbn [negb]; [|done]. apply at_byte_lt in Hc.
  rewrite d_skipSpace_ref by (simpl; lia). done.
Qed.

Lemma nextObjectFieldSlow_ref first c : (d_i c <= length src)%nat ->
  nextObjectFieldSlow src first c = step_result src is_live c (ref_field src first (d_i c)).
Proof using Hsrc.
  intros Hi. unfold nextObjectFieldSlow, ref_field. rewrite d_skipSpace_ref by done. cbv zeta. cbn [set_i d_i].
  at_pos src (ref_ws src (d_i c)) as b E; [|done]. apply lookup_lt_Some in E as Hlt.
  assert (Hk : forall k, (k <= length src)%nat -> key_slow src (set_i c k) = step_result src is_live c (ref_key src k))
    by (intros k Hk; by apply (key_slow_ref (set_i c k))).
  destruct first; cbn [negb]; (destruct (b =? "}"%ch); [done|]); [apply (Hk (ref_ws src (d_i c))); lia|].
  destruct (b =? ","%ch); [apply (Hk (S (ref_ws src (d_i c)))); lia|done].
Qed.

Lemma quote_colon i : (i + 2 <= length src)%nat ->
  exists w, load16 src i = Ok w /\ (w =? quoteColonLE) = at_byte src i DQUOTE && at_byte src (i + 1) ":"%ch.
Proof using Hsrc.
  intros Hi. unfold load16. rewrite (proj2 (Nat.leb_le _ _) Hi). eexists. split; [done|].
  destruct (lookup_lt_is_Some_2 src i ltac:(lia)) as [a Ha].
  destruct (lookup_lt_is_Some_2 src (i + 1) ltac:(lia)) as [b Hb].
  assert (Hab : slice src i (i + 2) = [a; b]).
  { apply span_slice. apply span_cons_intro; [done|]. replace (i + 2)%nat with (S (S i)) by lia.
    apply span_one. by replace (S i) with (i + 1)%nat by lia. }
  rewrite Hab. unfold at_byte. rewrite Ha, Hb. cbn [le_word]. unfold quoteColonLE.
  assert (is_byte a) by (by eapply Forall_lookup_1). assert (is_byte b) by (by eapply Forall_lookup_1).
  unfold is_byte in *. lia.
Qed.

Lemma key_plain_ref i : src !! i = Some DQUOTE ->
  let e := scanStringSpecial src (S i) in
  at_byte src e DQUOTE = true -> at_byte src (e + 1) ":"%ch = true ->
  ref_key src i = Ok (ref_ws src (e + 2), Some (slice src (S i) e)).
Proof using Hsrc.
  intros Hq e He Hc. apply lookup_lt_Some in Hq as Hlt. unfold ref_key.
  assert (Hw : ref_ws src i = i) by (apply ref_ws_high; unfold at_sat; by rewrite Hq). rewrite Hw.
  rewrite (proj2 (at_byte_spec _ _ _) Hq), plain_key_text by done. cbn [res_bind]. fold e.
  replace (e + 1)%nat with (S e) in Hc by lia. apply at_byte_spec in Hc as Hc2.
  assert (Hw2 : ref_ws src (S e) = S e) by (apply ref_ws_high; unfold at_sat; by rewrite Hc2).
  rewrite Hw2, Hc. by replace (e + 2)%nat with (S (S e)) by lia.
Qed.

Lemma key_fast_ref first c i : (d_i c <= length src)%nat -> src !! i = Some DQUOTE ->
  ref_field src first (d_i c) = ref_key src i ->
  key_fast src first c i = step_result src is_live c (ref_field src first (d_i c)).
Proof using Hsrc.
  intros Hi Hq Href. apply lookup_lt_Some in Hq as Hlt. unfold key_fast. cbv zeta.
  assert (Hp : forall e, e = scanStringSpecial src (S i) ->
    (let* other := if (length src <? e + 2)%nat then Ok true
                   else let* w := unsafe (load16 src e) in Ok (negb (w =? quoteColonLE)) in
     if (other : bool) then nextObjectFieldSlow src first c
     else Ok (Some (slice src (S i) e), skip_gap src (set_i c (e + 2)))) =
    step_result src is_live c (ref_field src first (d_i c))).
  { intros e ->. set (e := scanStringSpecial src (S i)). destruct (Nat.ltb_spec (length src) (e + 2)) as [Hs|Hs].
    { by apply nextObjectFieldSlow_ref. }
    destruct (quote_colon e Hs) as (w & -> & Hw). cbn [unsafe res_bind]. rewrite Hw.
    destruct (at_byte src e DQUOTE && _) eqn:E; cbn [negb]; [|by apply nextObjectFieldSlow_ref].
    apply andb_true_iff in E as [He Hc]. rewrite Href, key_plain_ref by done. fold e. cbn [step_result is_live].
    rewrite skip_gap_ref by done. done. }
  destruct (Nat.leb_spec (S i + 8) (length src)) as [H8|H8]; [|by apply Hp].
  destruct (Z.eqb_spec (stringSpecialMask (load64 src (S i))) 0) as [E|E]; [by apply nextObjectFieldSlow_ref|].
  by apply Hp, special_mask_scan.
Qed.

Lemma ref_field_ws first i : (i <= length src)%nat -> ref_field src first (ref_ws src i) = ref_field src first i.
Proof using. intros. unfold ref_field. by rewrite ref_ws_idem. Qed.

Lemma ref_elem_ws first i : (i <= length src)%nat -> ref_elem src first (ref_ws src i) = ref_elem src first i.
Proof using. intros. unfold ref_elem. by rewrite ref_ws_idem. Qed.

Lemma ref_key_ws i : (i <= length src)%nat -> ref_key src (ref_ws src i) = ref_key src i.
Proof using. intros. unfold ref_key. by rewrite ref_ws_idem. Qed.

(** The packed key path changes nothing. *)
Lemma NextObjectField_ref first c : (d_i c <= length src)%nat ->
  NextObjectField src first c = step_result src is_live c (ref_field src first (d_i c)).
Proof using Hsrc.
  intros Hi. unfold NextObjectField. rewrite skip_cursor_ref by done. cbv zeta. cbn [set_i d_i].
  pose proof (ref_ws_le src (d_i c) Hi) as Hw. set (i := ref_ws src (d_i c)) in *.
  assert (Hr : forall r, r = step_result src is_live (set_i c i) (ref_field src first i) ->
    r = step_result src is_live c (ref_field src first (d_i c))).
  { intros r ->. subst i. rewrite ref_field_ws by done. by destruct (ref_field src first (d_i c)) as [[? []]|[]| |]. }
  apply Hr. assert (Hslow : nextObjectFieldSlow src first (set_i c i) = step_result src is_live (set_i c i) (ref_field src first i))
    by (apply nextObjectFieldSlow_ref; simpl; lia).
  assert (Hid : ref_ws src i = i) by (subst i; by apply ref_ws_idem).
  at_pos src i as b E; [|done]. apply lookup_lt_Some in E as Hlt.
  assert (Hrest : b <> "}"%ch -> ref_field src first i =
    if first then ref_key src i else if b =? ","%ch then ref_key src (S i)
    else Err (i, "expected comma or closing brace in object"%string)).
  { intros Hb. unfold ref_field. rewrite Hid, E. by rewrite (proj2 (Z.eqb_neq _ _) Hb). }
  assert (Hend : b = "}"%ch -> Ok (None, leave c (S i)) = step_result src is_live (set_i c i) (ref_field src first i)).
  { intros ->. unfold ref_field. rewrite Hid, E. done. }
  destruct first; (destruct (Z.eqb_spec b "}"%ch) as [Hb|Hb]; [by apply Hend|]).
  - destruct (Z.eqb_spec b DQUOTE) as [->|]; cbn [negb]; [|done]. apply key_fast_ref; [simpl; lia|done|]. by apply Hrest.
  - destruct (Z.eqb_spec b ","%ch) as [->|]; [|done]. rewrite skip_at_ref by lia. cbv zeta.
    destruct (at_byte src (ref_ws src (S i)) DQUOTE) eqn:Hq; cbn [negb]; [|done].
    apply key_fast_ref; [simpl; lia|by apply at_byte_spec|]. cbn [set_i d_i]. rewrite Hrest by done.
    cbn. by rewrite ref_key_ws by lia.
Qed.

Lemma nextArrayElementSlow_ref first c : (d_i c <= length src)%nat ->
  nextArrayElementSlow src first c = step_result src id c (ref_elem src first (d_i c)).
Proof using Hsrc.
  intros Hi. unfold nextArrayElementSlow, ref_elem. rewrite d_skipSpace_ref by done. cbv zeta. cbn [set_i d_i].
  at_pos src (ref_ws src (d_i c)) as b E; [|done]. apply lookup_lt_Some in E as Hlt.
  destruct first; cbn [negb]; (destruct (b =? "]"%ch); [done|]).
  - rewrite d_skipSpace_ref by (simpl; lia). cbn [set_i d_i step_result id]. by rewrite ref_ws_idem by lia.
  - destruct (b =? ","%ch); [|done]. rewrite d_skipSpace_ref by (simpl; lia). done.
Qed.

Lemma NextArrayElement_ref first c : (d_i c <= length src)%nat ->
  NextArrayElement src first c = step_result src id c (ref_elem src first (d_i c)).
Proof using Hsrc.
  intros Hi. unfold NextArrayElement. rewrite skip_cursor_ref by done. cbv zeta. cbn [set_i d_i].
  pose proof (ref_ws_le src (d_i c) Hi) as Hw. set (i := ref_ws src (d_i c)) in *.
  assert (Hslow : nextArrayElementSlow src first (set_i c i) = step_result src id c (ref_elem src first (d_i c))).
  { rewrite nextArrayElementSlow_ref by (simpl; lia). cbn [set_i d_i]. subst i. rewrite ref_elem_ws by done.
    by destruct (ref_elem src first (d_i c)) as [[? []]|[]| |]. }
  at_pos src i as b E; [|done]. apply lookup_lt_Some in E as Hlt.
  assert (Hr : ref_elem src first (d_i c) = if b =? "]"%ch then Ok (S i, false) else if first then Ok (i, true)
    else if b =? ","%ch then Ok (ref_ws src (S i), true)
    else Err (i, "expected comma or closing bracket in array"%string)).
  { unfold ref_elem. fold i. by rewrite E. }
  rewrite Hr in *. destruct first; (destruct (b =? "]"%ch); [done|]).
  - by destruct (32 <? b).
  - destruct (b =? ","%ch); [|done]. pose proof (skip_cursor_ref (set_i c (S i)) ltac:(simpl; lia)) as Hs.
    cbn [step_result id]. do 2 f_equal. exact Hs.
Qed.

(** ** Whole values *)

Lemma word_literal_ref i lit : bytes_ok lit -> length lit = 4%nat -> (i <= length src)%nat ->
  (if (Z.of_nat i <? 0) || (Z.of_nat (length src) - 4 <? Z.of_nat i) then false
   else load32 src (Z.to_nat (Z.of_nat i)) =? le_word lit) = matchStringAt src i lit.
Proof using Hsrc.
  intros Hl Hlen Hi. rewrite Nat2Z.id.
  destruct (Z.ltb_spec (Z.of_nat i) 0); [lia|]. cbn [orb].
  destruct (Z.ltb_spec (Z.of_nat (length src) - 4) (Z.of_nat i)).
  - destruct (matchStringAt src i lit) eqn:E; [|done]. apply matchStringAt_span, span_le in E; [lia|done].
  - by apply load32_match; (done || lia).
Qed.

Lemma literal_null_ref i : (i <= length src)%nat -> literalNullAt src (Z.of_nat i) = matchStringAt src i lit_null.
Proof using Hsrc. intros. apply (word_literal_ref i lit_null); [concrete_bytes|done|done]. Qed.
Lemma literal_true_ref i : (i <= length src)%nat -> literalTrueAt src (Z.of_nat i) = matchStringAt src i lit_true.
Proof using Hsrc. intros. apply (word_literal_ref i lit_true); [concrete_bytes|done|done]. Qed.

Lemma literal_false_ref i : src !! i = Some "f"%ch -> literalFalseTailAt src (Z.of_nat i) = matchStringAt src i lit_false.
Proof using Hsrc.
  intros Hf. pose proof (false_literal_follows src Hsrc i Hf) as H. unfold ref_lit in H. unfold literalFalseTailAt.
  rewrite Nat2Z.id. destruct (Z.ltb_spec (Z.of_nat i) 0); [lia|]. cbn [orb]. unfold loadUint32LE in H.
  destruct (Nat.ltb_spec (length src) (i + 5)); destruct (Z.ltb_spec (Z.of_nat (length src) - 5) (Z.of_nat i)); try lia; cbn [orb] in H.
  - destruct (matchStringAt src i lit_false); [|done]. cbn in H. by simplify_eq.
  - destruct (matchStringAt src i lit_false), (load32 src (i + 1) =? wordAlseLE); cbn in H; try done; by destruct H.
Qed.

Lemma d_Skip_ref c : (d_i c <= length src)%nat ->
  d_Skip src maxDepth c = match ref_value src maxDepth unexpected_byte (S (length src)) (d_depth c) (d_i c) with
    | Ok (j, _) => Ok (set_i c j) | Err (o, m) => Err (DSyntax (syntax_at src o m))
    | Panic => Panic | NoFuel => NoFuel end.
Proof using Hsrc.
  intros Hi. unfold d_Skip. pose proof (parseValue_ref src maxDepth Hsrc (S (length src)) (d_depth c) (mkV (d_i c) None) None
    ltac:(done) ltac:(simpl; lia) ltac:(done)) as H. cbn [v_i v_layout] in H.
  destruct (ref_value _ _ _ _ _ _) as [[j t]|[o m]| |]; cbn [v_follows] in H; [|by rewrite H|done..].
  destruct H as (ol & -> & _). done.
Qed.

Lemma TryNull_ref c : (d_i c <= length src)%nat ->
  let i := ref_ws src (d_i c) in
  TryNull src c =
    if at_byte src i "n"%ch then
      if matchStringAt src i lit_null then Ok (true, set_i c (i + 4))
      else Err (DSyntax (syntax_at src i "invalid literal"))
    else Ok (false, set_i c i).
Proof using Hsrc.
  intros Hi i. unfold TryNull, notNullFast. destruct (at_sat src (d_i c) _) eqn:E.
  { assert (Hw : i = d_i c) by (apply ref_ws_high; unfold at_sat in *; destruct (src !! d_i c); [lia|done]).
    rewrite Hw. unfold at_byte. unfold at_sat in E. destruct (src !! d_i c); [|done].
    rewrite if_false by lia. by rewrite set_i_same. }
  unfold tryNullSlow. rewrite d_skipSpace_ref by done. fold i. cbv zeta. cbn [set_i d_i].
  destruct (at_byte src i "n"%ch); cbn [negb]; [|done]. unfold null_at. cbn [set_i d_i].
  pose proof (ref_ws_le src (d_i c) Hi). rewrite literal_null_ref by (subst i; lia).
  by destruct (matchStringAt src i lit_null).
Qed.

(** Opening a container at its delimiter. *)
Lemma begin_open_ref open jsonType typeName c : src !! d_i c = Some open -> IsJSONWhitespace open = false ->
  (if at_byte src (d_i c) open && (d_depth c <? maxDepth) then Ok (enter c)
   else begin_slow src maxDepth open jsonType typeName c) =
  if maxDepth <=? d_depth c then Err (DSyntax (syntax_at src (d_i c) depth_msg)) else Ok (enter c).
Proof using Hsrc.
  intros Ho Hw. apply lookup_lt_Some in Ho as Hlt. rewrite (proj2 (at_byte_spec _ _ _) Ho). cbn [andb].
  destruct (Z.ltb_spec (d_depth c) maxDepth); [by rewrite if_false by lia|].
  unfold begin_slow. rewrite d_skipSpace_ref by lia. unfold ref_ws. rewrite advance_stop.
  2:{ apply stops_lookup. by rewrite Ho. }
  rewrite set_i_same. by rewrite (proj2 (at_byte_spec _ _ _) Ho).
Qed.

(** Not at the delimiter: the type does not fit. *)
Lemma begin_other_ref open jsonType typeName c : (d_i c <= length src)%nat -> IsJSONWhitespace open = false ->
  at_byte src (ref_ws src (d_i c)) open = false ->
  (if at_byte src (d_i c) open && (d_depth c <? maxDepth) then Ok (enter c)
   else begin_slow src maxDepth open jsonType typeName c) =
  d_expected (set_i c (ref_ws src (d_i c))) typeName jsonType.
Proof using Hsrc.
  intros Hi Hw Ho. assert (Hf : at_byte src (d_i c) open = false).
  { destruct (at_byte src (d_i c) open) eqn:E; [|done]. rewrite <- Ho. symmetry. apply at_byte_spec in E.
    unfold ref_ws. rewrite advance_stop; [by apply at_byte_spec|]. apply stops_lookup. by rewrite E. }
  rewrite Hf. cbn [andb]. unfold begin_slow. rewrite d_skipSpace_ref by done. cbv zeta. cbn [set_i d_i]. by rewrite Ho.
Qed.

(** ** Containers, step by step *)

Section Pull.
Context (rvf : Z -> nat -> res rerr (nat * tree)).

(** The elements an element loop visits. *)
Fixpoint pull_elems (fuel : nat) (depth : Z) (first : bool) (i : nat) (acc : list tree) : res rerr (nat * list tree) :=
  match fuel with
  | O => NoFuel
  | S fuel =>
      let* (i, more) := ref_elem src first i in
      if (more : bool) then let* (i, t) := rvf depth i in pull_elems fuel depth false i (acc ++ [t]) else Ok (i, acc)
  end.

(** The members a member loop visits, by name. *)
Fixpoint pull_members (fuel : nat) (depth : Z) (first : bool) (i : nat) (acc : list (bytes * tree)) :
  res rerr (nat * list (bytes * tree)) :=
  match fuel with
  | O => NoFuel
  | S fuel =>
      let* (i, key) := ref_field src first i in
      match key with
      | Some name => let* (i, t) := rvf depth i in pull_members fuel depth false i (acc ++ [(name, t)])
      | None => Ok (i, acc)
      end
  end.

Lemma pull_elems_S fuel depth first i acc :
  pull_elems (S fuel) depth first i acc =
  let* (i, more) := ref_elem src first i in
  if (more : bool) then let* (i, t) := rvf depth i in pull_elems fuel depth false i (acc ++ [t]) else Ok (i, acc).
Proof using. done. Qed.

Lemma pull_members_S fuel depth first i acc :
  pull_members (S fuel) depth first i acc =
  let* (i, key) := ref_field src first i in
  match key with
  | Some name => let* (i, t) := rvf depth i in pull_members fuel depth false i (acc ++ [(name, t)])
  | None => Ok (i, acc)
  end.
Proof using. done. Qed.

Context (depth : Z) (bound : nat).
Hypothesis Hrv : forall i, (bound <= i <= length src)%nat -> reads src (maxDepth - depth) i (rvf depth i).

Lemma ref_elem_bound first i j more : (i <= length src)%nat -> ref_elem src first i = Ok (j, more) ->
  (i <= j <= length src)%nat /\ (more = true -> j = ref_ws src j).
Proof using.
  intros Hi H. unfold ref_elem in H. pose proof (ref_ws_le src i Hi) as Hw.
  at_pos src (ref_ws src i) as b E; [|done]. apply lookup_lt_Some in E as Hlt.
  destruct (b =? "]"%ch); [by simplify_eq; split; [lia|]|]. destruct first; [simplify_eq|].
  { split; [lia|]. intros _. by rewrite ref_ws_idem by done. }
  destruct (b =? ","%ch); [|done]. simplify_eq. pose proof (ref_ws_le src (S (ref_ws src i)) ltac:(lia)).
  split; [lia|]. intros _. by rewrite ref_ws_idem by lia.
Qed.

Lemma pull_elems_ref fuel i acc : (bound <= i <= length src)%nat -> (length src - i < fuel)%nat ->
  ref_elems src rvf fuel depth i acc =
  let* (i, t) := rvf depth (ref_ws src i) in pull_elems fuel depth false i (acc ++ [t]).
Proof using Hrv.
  revert i acc. induction fuel as [|fuel IH]; intros i acc Hi Hf; [lia|]. cbn [ref_elems pull_elems].
  pose proof (ref_ws_le src i ltac:(lia)) as Hw. pose proof (Hrv (ref_ws src i) ltac:(lia)) as Hr.
  destruct (rvf depth (ref_ws src i)) as [[j t]|[o m]| |]; cbn [res_bind]; [|done..].
  cbn [reads] in Hr. destruct Hr as (Hj & s & Hs%span_le & _). unfold ref_elem.
  pose proof (ref_ws_le src j ltac:(lia)) as Hw2. at_pos src (ref_ws src j) as b E; [|done].
  apply lookup_lt_Some in E as Hlt. destruct (Z.eqb_spec b ","%ch) as [->|Hb]; [|by destruct (b =? "]"%ch)].
  cbn [res_bind Z.eqb Pos.eqb]. rewrite IH by lia. done.
Qed.

Definition names (ms : list ((bytes * bytes) * tree)) : list (bytes * tree) := map (fun m => (m.1.2, m.2)) ms.

Lemma ref_key_bound i j key : (i <= length src)%nat -> ref_key src i = Ok (j, key) ->
  (i < j <= length src)%nat /\ j = ref_ws src j /\ is_Some key.
Proof using Hsrc.
  intros Hi H. unfold ref_key in H. cbv zeta in H. pose proof (ref_ws_le src i Hi) as Hw.
  destruct (at_byte src (ref_ws src i) DQUOTE) eqn:Hq; [|done]. apply at_byte_spec in Hq.
  destruct (ref_str src (ref_ws src i)) as [[k name]|[]| |] eqn:Es; cbn [res_bind] in H; [|done..].
  destruct (ref_str_bound _ _ _ Hq Es). pose proof (ref_ws_le src k ltac:(lia)) as Hw2.
  destruct (at_byte src (ref_ws src k) ":"%ch) eqn:Hc; [|done]. apply at_byte_lt in Hc. simplify_eq.
  pose proof (ref_ws_le src (S (ref_ws src k)) ltac:(lia)). split_and!; [lia|lia| |by eexists].
  by rewrite ref_ws_idem by lia.
Qed.

Lemma ref_field_bound first i j key : (i <= length src)%nat -> ref_field src first i = Ok (j, key) ->
  (i < j <= length src)%nat /\ (is_Some key -> j = ref_ws src j).
Proof using Hsrc.
  intros Hi H. unfold ref_field in H. pose proof (ref_ws_le src i Hi) as Hw. cbv zeta in H.
  at_pos src (ref_ws src i) as b E; [|done]. apply lookup_lt_Some in E as Hlt.
  destruct (b =? "}"%ch); [simplify_eq; split; [lia|by intros []]|].
  assert (Hk : forall k, (i <= k <= length src)%nat -> ref_key src k = Ok (j, key) ->
    (i < j <= length src)%nat /\ (is_Some key -> j = ref_ws src j)).
  { intros k Hk Hr. destruct (ref_key_bound k j key ltac:(lia) Hr) as (? & ? & _). split; [lia|done]. }
  destruct first; [by apply (Hk (ref_ws src i)); [lia|]|]. destruct (b =? ","%ch); [|done].
  by apply (Hk (S (ref_ws src i))); [lia|].
Qed.

Lemma pull_members_ref fuel i acc : (bound <= i <= length src)%nat -> (length src - i < fuel)%nat ->
  (let* (k, ms) := ref_members src rvf fuel depth i acc in Ok (k, names ms)) =
  let* (i, key) := ref_key src i in
  match key with
  | Some name => let* (i, t) := rvf depth i in pull_members fuel depth false i (names acc ++ [(name, t)])
  | None => NoFuel
  end.
Proof using Hsrc Hrv.
  revert i acc. induction fuel as [|fuel IH]; intros i acc Hi Hf; [lia|]. cbn [ref_members pull_members].
  destruct (ref_key src i) as [[j key]|[o m]| |] eqn:Ek.
  1:{ destruct (ref_key_bound i j key ltac:(lia) Ek) as (Hj & _ & [name ->]). unfold ref_key in Ek. cbv zeta in *.
  destruct (at_byte src (ref_ws src i) DQUOTE); [|done].
  destruct (ref_str src (ref_ws src i)) as [[k nm]|[]| |]; cbn [res_bind] in *; [|done..].
  destruct (at_byte src (ref_ws src k) ":"%ch); [|done]. simplify_eq.
  pose proof (Hrv (ref_ws src (S (ref_ws src k))) ltac:(lia)) as Hr.
  destruct (rvf depth (ref_ws src (S (ref_ws src k)))) as [[v t]|[o m]| |]; cbn [res_bind]; [|done..].
  cbn [reads] in Hr. destruct Hr as (Hv & s & Hs%span_le & _). unfold ref_field. cbv zeta.
  pose proof (ref_ws_le src v ltac:(lia)) as Hw2. at_pos src (ref_ws src v) as b E; [|done].
  apply lookup_lt_Some in E as Hlt. destruct (Z.eqb_spec b ","%ch) as [->|Hb].
  - cbn [res_bind Z.eqb Pos.eqb]. rewrite IH by lia. unfold names. rewrite map_app.
    destruct (ref_key src (S (ref_ws src v))) as [[j2 [n2|]]|[]| |] eqn:Ek2; cbn [res_bind]; try done.
    by destruct (ref_key_bound _ _ None ltac:(by exact Hlt) Ek2) as (_ & _ & []).
  - destruct (b =? "}"%ch); [|done]. cbn [res_bind]. unfold names. by rewrite map_app. }
  all: revert Ek; unfold ref_key; cbv zeta; cbn [res_bind].
  all: destruct (at_byte src (ref_ws src i) DQUOTE); [|by intros; simplify_eq].
  all: destruct (ref_str src (ref_ws src i)) as [[k nm]|[]| |]; cbn [res_bind]; try (by intros; simplify_eq).
  all: destruct (at_byte src (ref_ws src k) ":"%ch); by intros; simplify_eq.
Qed.

(** Two readings succeed together, with the same result. *)
Definition same_outcome {A} (r r' : res rerr A) : Prop :=
  match r, r' with Ok a, Ok b => a = b | Err _, Err _ => True | _, _ => False end.

Lemma same_refl {A} (r : res rerr A) : r <> Panic -> r <> NoFuel -> same_outcome r r.
Proof using. by destruct r. Qed.

Lemma value_at_end : (bound <= length src)%nat -> exists e, rvf depth (length src) = Err e.
Proof using Hrv.
  intros Hb. pose proof (Hrv (length src) ltac:(lia)) as H. destruct (rvf depth (length src)) as [[j t]|e| |]; [|by eexists|done..].
  cbn [reads] in H. destruct H as (Hj & s & Hs%span_le & _). lia.
Qed.

(** An element loop started behind a bracket reads the array. *)
Lemma pull_array i : (i < length src)%nat -> (bound <= S i)%nat -> depth <= maxDepth ->
  same_outcome (let* (k, ts) := pull_elems (S (S (length src))) depth true (S i) [] in Ok (k, TArr (slice src i k) ts))
    (ref_array src maxDepth rvf depth i).
Proof using Hsrc Hrv.
  intros Hi Hb Hd. unfold ref_array. rewrite if_false by lia. cbv zeta. rewrite pull_elems_S. unfold ref_elem at 1. cbv zeta.
  pose proof (ref_ws_le src (S i) ltac:(lia)) as Hw. set (j := ref_ws src (S i)) in *.
  assert (Hid : ref_ws src j = j) by (subst j; apply ref_ws_idem; lia).
  at_pos src j as b E.
  - unfold at_byte. rewrite E. destruct (b =? "]"%ch); [done|]. cbn [res_bind].
    pose proof (ref_elems_sound src maxDepth rvf depth bound Hrv (S (length src)) j [] ltac:(lia) ltac:(lia)) as Hs.
    rewrite (pull_elems_ref (S (length src)) j []) in * by lia. rewrite Hid in *.
    match goal with |- same_outcome (res_bind ?r _) _ => destruct r as [[]| | |] end; cbn [res_bind] in *; done.
  - apply lookup_ge_None in E. assert (Hj : j = length src) by lia. unfold at_byte. rewrite (lookup_ge_None_2 src j) by lia.
    cbn [res_bind]. rewrite pull_elems_ref, Hid, Hj by lia. destruct (value_at_end ltac:(lia)) as [e ->]. done.
Qed.

Lemma pull_object i : (i < length src)%nat -> (bound <= S i)%nat -> depth <= maxDepth ->
  match pull_members (S (S (length src))) depth true (S i) [], ref_object src maxDepth rvf depth i with
  | Ok (k, nms), Ok (k', t) => k = k' /\ exists ms, t = TObj (slice src i k) ms /\ nms = names ms
  | Err _, Err _ => True
  | _, _ => False
  end.
Proof using Hsrc Hrv.
  intros Hi Hb Hd. unfold ref_object. rewrite if_false by lia. cbv zeta. rewrite pull_members_S. unfold ref_field at 1. cbv zeta.
  pose proof (ref_ws_le src (S i) ltac:(lia)) as Hw. set (j := ref_ws src (S i)) in *.
  assert (Hid : ref_ws src j = j) by (subst j; apply ref_ws_idem; lia).
  at_pos src j as b E.
  - unfold at_byte. rewrite E. destruct (b =? "}"%ch); [by split; [|eexists]|].
    pose proof (ref_members_sound src maxDepth Hsrc rvf depth bound Hrv (S (length src)) j [] ltac:(lia) ltac:(lia)) as Hs.
    pose proof (pull_members_ref (S (length src)) j [] ltac:(lia) ltac:(lia)) as Hp. cbn [names map] in Hp.
    destruct (ref_key src j) as [[k [name|]]|[o m]| |]; cbn [res_bind app] in *.
    + rewrite <- Hp. destruct (ref_members src rvf (S (length src)) depth j []) as [[v' ms]|[]| |]; cbn [res_bind]; try done.
      split; [done|]. by eexists.
    + by destruct (ref_members src rvf (S (length src)) depth j []) as [[]|[]| |].
    + by destruct (ref_members src rvf (S (length src)) depth j []) as [[]|[]| |].
    + by destruct (ref_members src rvf (S (length src)) depth j []) as [[]|[]| |].
    + by destruct (ref_members src rvf (S (length src)) depth j []) as [[]|[]| |].
  - apply lookup_ge_None in E. assert (Hj : j = length src) by lia. unfold at_byte. rewrite (lookup_ge_None_2 src j) by lia.
    cbn [res_bind ref_members]. rewrite Hid. unfold at_byte. rewrite (lookup_ge_None_2 src j) by lia. done.
Qed.
End Pull.
End Steps.
