(* ===== verification/DecoderScalar.v ===== *)
(** [decoder_cursor_scalar.go]: the scalar methods of the pull parser, generic in
    the destination type, and [stringToken].  A method takes the value the destination
    holds and returns the one it leaves there.  An integer type is its width. *)

From S2P Require Import Prelude Words Utf8 Scanner Lex Grammar StringRef Errors Numbers Reader Validator FastValid ParserString Layout NumberEqual Digits DecoderCursor.

Section Scalars.
Context (src : bytes) (flags : decoderFlags).
(** Whether the storage of a string lies in the source. *)
Context (aliases : bytes -> bool).

(** ** Strings *)

(** [ownedString]: the copy has the bytes of the span. *)
Definition ownedString (start end_ : nat) : bytes := if (start =? end_)%nat then [] else slice src start end_.

Definition reuseOwnedString (existing : bytes) (start end_ : nat) : bool :=
  if decoderZeroCopy flags || negb (length existing =? end_ - start)%nat then false
  else if (length existing =? 0)%nat then true
  else if aliases existing then false
  else bool_decide (existing = slice src start end_).

Definition keep_or_copy (dst : bytes) (start end_ : nat) : bytes :=
  if reuseOwnedString dst start end_ then dst else ownedString start end_.

(** [stringToken]: [None] of the type name, as the error has no type. *)
Definition stringToken (c : decoderCursor) : res derr (bytes * decoderCursor) :=
  if negb (at_byte src (d_i c) DQUOTE) then d_expected c EmptyString "string"
  else
    let start := S (d_i c) in
    let end_ := scanStringSpecial src start in
    if at_byte src end_ DQUOTE then Ok (slice src start end_, set_i c (S end_)) else parse_string src c.

Definition stringSpecial (dst : bytes) (c : decoderCursor) (end_ : nat) : res derr (bytes * decoderCursor) :=
  if at_sat src end_ (fun b => 128 <=? b) then
    let unicodeStart := end_ in
    let end_ := scanStringSyntax src end_ in
    if at_byte src end_ DQUOTE && Utf8.Valid (slice src unicodeStart end_)
    then Ok (keep_or_copy dst (S (d_i c)) end_, set_i c (S end_))
    else parse_string src c
  else parse_string src c.

(** The scan from the opening quote shared by [String] and [stringSlow]. *)
Definition string_at (dst : bytes) (c : decoderCursor) : res derr (bytes * decoderCursor) :=
  let start := S (d_i c) in
  let (end_, short) := scanStringSpecialShort src start in
  let end_ := if (short : bool) then end_ else scanStringSpecial src start in
  if at_byte src end_ DQUOTE then Ok (keep_or_copy dst start end_, set_i c (S end_))
  else stringSpecial dst c end_.

(** The null prologue of the scalar methods: zero under [Replace], else kept. *)
Definition null_scalar {A} (zero dst : A) (c : decoderCursor) : res derr (A * decoderCursor) :=
  if negb (null_at src c) then d_err src (d_i c) "invalid literal"
  else Ok (if decoderReplace flags then zero else dst, set_i c (d_i c + 4)).

Definition stringSlow (T : string) (dst : bytes) (c : decoderCursor) : res derr (bytes * decoderCursor) :=
  if at_byte src (d_i c) "n"%ch then null_scalar [] dst c
  else if negb (at_byte src (d_i c) DQUOTE) then genericExpected T c "string"
  else string_at dst c.

Definition d_String (T : string) (dst : bytes) (c : decoderCursor) : res derr (bytes * decoderCursor) :=
  if at_byte src (d_i c) DQUOTE then string_at dst c else stringSlow T dst c.

(** ** Booleans *)

Definition true_at (c : decoderCursor) : bool := literalTrueAt src (Z.of_nat (d_i c)).
Definition false_at (c : decoderCursor) : bool := literalFalseTailAt src (Z.of_nat (d_i c)).

Definition boolSlow (T : string) (dst : bool) (c : decoderCursor) : res derr (bool * decoderCursor) :=
  match src !! d_i c with
  | None => genericExpected T c "boolean"
  | Some b =>
      if b =? "n"%ch then null_scalar false dst c
      else if b =? "t"%ch then
        if negb (true_at c) then d_err src (d_i c) "invalid literal" else Ok (true, set_i c (d_i c + 4))
      else if b =? "f"%ch then
        if negb (false_at c) then d_err src (d_i c) "invalid literal" else Ok (false, set_i c (d_i c + 5))
      else genericExpected T c "boolean"
  end.

Definition d_Bool (T : string) (dst : bool) (c : decoderCursor) : res derr (bool * decoderCursor) :=
  if at_byte src (d_i c) "t"%ch && true_at c then Ok (true, set_i c (d_i c + 4))
  else if at_byte src (d_i c) "f"%ch && false_at c then Ok (false, set_i c (d_i c + 5))
  else boolSlow T dst c.

(** ** Numbers *)

Definition numberToken (T : string) (c : decoderCursor) : res derr (nat * nat) :=
  if negb (at_sat src (d_i c) (fun b => (b =? "-"%ch) || IsDigit b)) then genericExpected T c "number"
  else
    let start := d_i c in
    let* (end_, ok) := unsafe (scanNumberFast src start) in
    if negb ok then d_err src start (scanNumber src start).2 else Ok (start, end_).

Definition d_Number (T : string) (dst : bytes) (c : decoderCursor) : res derr (bytes * decoderCursor) :=
  if at_byte src (d_i c) "n"%ch then null_scalar [] dst c
  else if at_byte src (d_i c) DQUOTE then
    let* (content, c) := d_String "string" [] c in
    if negb (validNumber content) then genericError T (d_i c) "string is not a valid number spelling"
    else Ok (content, c)
  else
    let* (start, end_) := numberToken T c in
    Ok (ownedString start end_, set_i c end_).

(** The digit loop with its overflow test against [limit]. *)
Fixpoint checked_run (fuel : nat) (limit : Z) (overflow : derr) (i : nat) (value : Z) : res derr (nat * Z) :=
  match fuel with
  | O => NoFuel
  | S fuel =>
      if (i <? length src)%nat then
        let* b := unsafe (fastByteAt src i) in
        if IsDigit b then
          let digit := (b - "0"%ch) mod 256 in
          if (limit / 10 <? value) || ((value =? limit / 10) && (limit mod 10 <? digit)) then Err overflow
          else checked_run fuel limit overflow (S i) (w64 (value * 10 + digit))
        else Ok (i, value)
      else Ok (i, value)
  end.

(** The words of digits read before that loop. *)
Definition wide_digits (width limit : Z) (overflow : derr) (i : nat) : res derr (nat * Z) :=
  let narrow i value := if (width <=? 16) && (limit <? value) then Err overflow else Ok (i, value) in
  if (i + 8 <=? length src)%nat then
    let* word := unsafe (word_at src i) in
    let invalid := nonDigitMask8 word in
    if negb (invalid =? 0) then
      let k := TrailingZeros64 invalid / 8 in
      let s := (8 - k) * 8 in
      narrow (i + Z.to_nat k)%nat (parse8DigitsWord (Z.lor (w64 (Z.shiftl word s)) (Z.shiftr digitLower (64 - s))))
    else
      let* all := if (i + 16 <=? length src)%nat then unsafe (All16Digits src i) else Ok false in
      if (all : bool) then
        let* value := unsafe (parse16Digits src i) in
        if limit <? value then Err overflow else Ok ((i + 16)%nat, value)
      else narrow (i + 8)%nat (parse8DigitsWord word)
  else Ok (i, 0).

(** The digits of [Int] and [Uint], from the first one. *)
Definition integer_digits (width limit : Z) (overflow : derr) (start i : nat) : res derr (nat * Z) :=
  let* b := unsafe (fastByteAt src i) in
  if b =? "0"%ch then
    let i := S i in
    let* more := if (i <? length src)%nat then let* b := unsafe (fastByteAt src i) in Ok (IsDigit b) else Ok false in
    if (more : bool) then d_err src start "invalid leading zero in number" else Ok (i, 0)
  else
    let* (i, value) := wide_digits width limit overflow i in
    checked_run (S (length src)) limit overflow i value.

(** The fraction or exponent test behind the digits: an error, or nothing. *)
Definition fraction_check (T : string) (start i : nat) (message : string) : res derr unit :=
  if (i <? length src)%nat then
    let* b := unsafe (fastByteAt src i) in
    if (b =? "."%ch) || (b =? "e"%ch) || (b =? "E"%ch) then
      let* (_, ok) := unsafe (scanNumberFast src start) in
      if negb ok then d_err src start (scanNumber src start).2 else genericError T start message
    else Ok tt
  else Ok tt.

(** [T(x)] for a signed type of [width] bits. *)
Definition signed_of (width x : Z) : Z := (x + 2 ^ (width - 1)) mod 2 ^ width - 2 ^ (width - 1).

Definition overflow_err (T : string) (start : nat) (message : string) : derr :=
  DDecode (mkDecodeError start [] (Some T) EmptyString message).

Definition d_Int (T : string) (width dst : Z) (c : decoderCursor) : res derr (Z * decoderCursor) :=
  if at_byte src (d_i c) "n"%ch then null_scalar 0 dst c
  else
    let start := d_i c in
    if (length src <=? start)%nat then genericExpected T c "number"
    else
      let* b := unsafe (fastByteAt src start) in
      let negative := b =? "-"%ch in
      let i := if negative then S start else start in
      if negative && (i =? length src)%nat then d_err src start "invalid number"
      else
        let* b := unsafe (fastByteAt src i) in
        if negb (IsDigit b) then genericExpected T c "number"
        else
          let limit := if negative then 2 ^ (width - 1) else 2 ^ (width - 1) - 1 in
          let* (i, value) := integer_digits width limit (overflow_err T start "integer overflow") start i in
          let* _ := fraction_check T start i "fractional number cannot be stored in an integer" in
          Ok (if negative then signed_of width (int64 (- int64 value)) else signed_of width value, set_i c i).

Definition d_Uint (T : string) (width dst : Z) (c : decoderCursor) : res derr (Z * decoderCursor) :=
  if at_byte src (d_i c) "n"%ch then null_scalar 0 dst c
  else
    let start := d_i c in
    if (length src <=? start)%nat then genericExpected T c "number"
    else
      let* b := unsafe (fastByteAt src start) in
      if negb (IsDigit b) then genericExpected T c "number"
      else
        let limit := 2 ^ width - 1 in
        let* (i, value) := integer_digits width limit (overflow_err T start "unsigned integer overflow") start start in
        let* _ := fraction_check T start i "fractional number cannot be stored in an unsigned integer" in
        Ok (value mod 2 ^ width, set_i c i).
End Scalars.

(** ** What each scalar destination takes from a value *)

Section Spec.
Context (replace : bool).

Definition bool_val (dst : bool) (t : tree) : option bool :=
  match t with TBool b => Some b | TNull => Some (if replace then false else dst) | _ => None end.
Definition string_val (dst : bytes) (t : tree) : option bytes :=
  match t with TStr _ dec => Some dec | TNull => Some (if replace then [] else dst) | _ => None end.
Definition number_val (dst : bytes) (t : tree) : option bytes :=
  match t with
  | TNum raw => Some raw
  | TStr _ dec => if validNumber dec then Some dec else None
  | TNull => Some (if replace then [] else dst)
  | _ => None
  end.
Definition int_val (width dst : Z) (t : tree) : option Z :=
  match t with
  | TNum raw =>
      if plain_integer raw && (- 2 ^ (width - 1) <=? int_value raw) && (int_value raw <? 2 ^ (width - 1))
      then Some (int_value raw) else None
  | TNull => Some (if replace then 0 else dst)
  | _ => None
  end.
Definition uint_val (width dst : Z) (t : tree) : option Z :=
  match t with
  | TNum raw =>
      if plain_integer raw && negb (is_negative raw) && (int_value raw <? 2 ^ width) then Some (int_value raw) else None
  | TNull => Some (if replace then 0 else dst)
  | _ => None
  end.
End Spec.

(** A method follows the reference reading of a value: it leaves the value the
    destination takes, and fails when there is none or the text is no value.  An
    integer method also fails on a zero with a digit behind it, which no reader
    of the whole text accepts. *)
Definition scalar_follows {A} (src : bytes) (c : decoderCursor) (r : res derr (A * decoderCursor))
  (rr : res rerr (nat * tree)) (val : tree -> option A) : Prop :=
  match rr with
  | Ok (j, t) =>
      match val t with
      | Some v => r = Ok (v, set_i c j) \/ (at_digit src j = true /\ exists e, r = Err e)
      | None => exists e, r = Err e
      end
  | Err _ => exists e, r = Err e
  | _ => False
  end.

(** ** Digit runs *)

Section DigitRuns.
Context (src : bytes).
Hypothesis Hsrc : bytes_ok src.

Lemma shifted_word l k : bytes_ok l -> length l = 8%nat -> (1 <= k < 8)%nat ->
  Z.lor (w64 (Z.shiftl (le_word l) ((8 - Z.of_nat k) * 8))) (Z.shiftr digitLower (64 - (8 - Z.of_nat k) * 8)) =
  le_word (replicate (8 - k) "0"%ch ++ take k l).
Proof using.
  intros Hl Hlen Hk. destruct (top_masks (8 - k) k ltac:(lia) ltac:(lia)) as [_ ->].
  assert (Ht : length (take k l) = k) by (rewrite length_take; lia).
  assert (Hok : bytes_ok (replicate (8 - k) 0 ++ take k l)).
  { apply Forall_app; split; [by apply Forall_replicate|by apply Forall_take]. }
  assert (Hw : w64 (Z.shiftl (le_word l) ((8 - Z.of_nat k) * 8)) = le_word (replicate (8 - k) 0 ++ take k l)).
  { pose proof (le_word_bound _ Hok) as Hb. rewrite length_app, length_replicate, Ht in Hb.
    replace (8 * Z.of_nat (8 - k + k)) with 64 in Hb by lia.
    rewrite Z.shiftl_mul_pow2 by lia. rewrite <- (take_drop k l) at 1. rewrite le_word_app, Ht.
    rewrite le_word_app, length_replicate in *. assert (Hz : forall n, le_word (replicate n 0) = 0).
    { induction n as [|n IH]; [done|]. cbn [replicate le_word]. lia. }
    rewrite Hz in *. unfold w64. replace ((8 - Z.of_nat k) * 8) with (8 * Z.of_nat (8 - k)) by lia.
    rewrite Z.mul_add_distr_r, (Z.mul_comm (2 ^ _ * _)), Z.mul_assoc, <- Z.pow_add_r by lia.
    replace (8 * Z.of_nat (8 - k) + 8 * Z.of_nat k) with 64 by lia.
    rewrite (Z.mul_comm (2 ^ 64)), Z_mod_plus_full. rewrite Z.mod_small by lia. lia. }
  rewrite Hw, lor_lanes, fill_bottom; [done..| |].
  - apply Forall_app; split; by apply Forall_replicate.
  - rewrite !length_app, !length_replicate, Ht. done.
Qed.

Lemma short_digits l k : bytes_ok l -> length l = 8%nat -> (1 <= k < 8)%nat -> digits (take k l) ->
  parse8DigitsWord (Z.lor (w64 (Z.shiftl (le_word l) ((8 - Z.of_nat k) * 8))) (Z.shiftr digitLower (64 - (8 - Z.of_nat k) * 8))) =
  dval (take k l).
Proof using.
  intros Hl Hlen Hk Hd. rewrite shifted_word by done. rewrite parse8DigitsWord_ok.
  - rewrite dval_app, dval_zeros by (by apply Forall_replicate). lia.
  - apply Forall_app; split; [by apply Forall_replicate|done].
  - rewrite length_app, length_replicate, length_take. lia.
Qed.

Lemma run_digits i j : (i <= length src)%nat -> (i <= j <= skip_digits src i)%nat -> digits (slice src i j).
Proof using.
  intros Hi Hj. destruct (advance_span IsDigit src i Hi) as (s & Hs & Hd & _). apply span_le in Hs as Hle.
  fold (skip_digits src i) in *. rewrite <- (span_slice _ _ _ _ Hs) in Hd.
  by destruct (digits_slice src i j (skip_digits src i) ltac:(lia) ltac:(lia) Hd).
Qed.

Lemma skip_digits_le i : (i <= length src)%nat -> (i <= skip_digits src i <= length src)%nat.
Proof using. apply advance_le. Qed.

(** More digits, a greater value. *)
Lemma run_mono i j k : (i <= j <= k)%nat -> (k <= skip_digits src i)%nat -> (i <= length src)%nat ->
  dval (slice src i k) = dval (slice src i j) * 10 ^ Z.of_nat (k - j) + dval (slice src j k) /\
  0 <= dval (slice src i j) <= dval (slice src i k).
Proof using.
  intros H Hk Hi. pose proof (skip_digits_le i Hi) as Hle.
  pose proof (run_digits i k Hi ltac:(lia)) as Hd. destruct (digits_slice src i j k ltac:(lia) ltac:(lia) Hd) as [Ha Hb].
  rewrite (slice_app src i j k), dval_app, (slice_len src j k) by lia. pose proof (dval_bound _ Ha). pose proof (dval_bound _ Hb).
  pose proof (pow10_pos (k - j)). split; [done|]. nia.
Qed.

Lemma digit_byte_at i : (i < skip_digits src i)%nat -> exists b, src !! i = Some b /\ IsDigit b = true.
Proof using.
  intros H. unfold skip_digits in H. rewrite advance_unfold in H. destruct (src !! i) as [b|]; [|lia].
  exists b. destruct (IsDigit b); [done|lia].
Qed.

Lemma skip_digits_inner i j : (i <= j <= skip_digits src i)%nat -> (i <= length src)%nat -> skip_digits src j = skip_digits src i.
Proof using.
  intros H Hi. unfold skip_digits. symmetry. eapply advance_skip; [apply slice_span|by apply run_digits].
  pose proof (skip_digits_le i Hi). lia.
Qed.

Lemma slice_one i b : src !! i = Some b -> slice src i (S i) = [b].
Proof using. intros H. by apply span_slice, span_one. Qed.

Lemma checked_run_ok fuel limit overflow i m :
  0 <= limit < 2 ^ 64 -> (i <= m <= skip_digits src i)%nat -> (i <= length src)%nat -> (length src - m < fuel)%nat ->
  dval (slice src i m) <= limit ->
  checked_run src fuel limit overflow m (dval (slice src i m)) =
    if dval (slice src i (skip_digits src i)) <=? limit
    then Ok (skip_digits src i, dval (slice src i (skip_digits src i))) else Err overflow.
Proof using.
  intros Hl Hm Hi. revert m Hm. induction fuel as [|fuel IH]; intros m Hm Hf Hv; [lia|].
  pose proof (skip_digits_le i Hi) as Hle. cbn [checked_run]. set (e := skip_digits src i) in *.
  assert (Hstop : m = e -> Ok (m, dval (slice src i m)) =
    (if dval (slice src i e) <=? limit then Ok (e, dval (slice src i e)) else Err overflow : res derr _)).
  { intros ->. by rewrite if_true by lia. }
  destruct (Nat.ltb_spec m (length src)) as [Hlt|Hge]; [|apply Hstop; lia]. unfold fastByteAt.
  destruct (lookup_lt_is_Some_2 src m Hlt) as [b Hb]. rewrite Hb. cbn [unsafe res_bind].
  pose proof (skip_digits_inner i m Hm Hi) as Hs. destruct (IsDigit b) eqn:Hd.
  2:{ apply Hstop. fold e in Hs. rewrite <- Hs. unfold skip_digits. by rewrite advance_unfold, Hb, Hd. }
  assert (Hme : (S m <= e)%nat).
  { fold e in Hs. rewrite <- Hs. rewrite <- skip_digits_S by (apply at_digit_spec; eauto).
    apply skip_digits_le. lia. }
  destruct (run_mono i m (S m) ltac:(lia) ltac:(lia) Hi) as [Hs1 Hs2].
  destruct (run_mono i (S m) e ltac:(lia) ltac:(lia) Hi) as [_ Hs3].
  rewrite (slice_one _ _ Hb) in Hs1. replace (S m - m)%nat with 1%nat in Hs1 by lia.
  change (10 ^ Z.of_nat 1) with 10 in Hs1. change (dval [b]) with (0 * 10 + (b - "0"%ch)) in Hs1.
  unfold IsDigit in Hd. cbv zeta. rewrite (Z.mod_small (b - _)) by lia.
  destruct (_ || _) eqn:Ho.
  - rewrite if_false by div_lia. done.
  - unfold w64. rewrite Z.mod_small by div_lia. replace (_ * 10 + _) with (dval (slice src i (S m))) by lia.
    apply IH; [lia|lia|div_lia].
Qed.

(** What the words read ahead of the loop. *)
Lemma wide_digits_ok width limit overflow i b :
  (width <= 16 \/ 99999999 <= limit) -> 0 <= limit -> src !! i = Some b -> IsDigit b = true ->
  let e := skip_digits src i in
  (exists m, (i <= m <= e)%nat /\ dval (slice src i m) <= limit /\
     wide_digits src width limit overflow i = Ok (m, dval (slice src i m))) \/
  (limit < dval (slice src i e) /\ wide_digits src width limit overflow i = Err overflow).
Proof using Hsrc.
  intros Hw Hl Hb Hd e. apply lookup_lt_Some in Hb as Hi. pose proof (skip_digits_le i ltac:(lia)) as Hle. fold e in Hle.
  unfold wide_digits. destruct (Nat.leb_spec (i + 8) (length src)) as [H8|H8].
  2:{ left. exists i. rewrite slice_refl. change (dval []) with 0. split_and!; [lia|lia|done|done]. }
  rewrite word_at_ok by done. cbn [unsafe res_bind]. cbv zeta.
  assert (Hok8 : bytes_ok (slice src i (i + 8))) by by apply slice_bytes.
  assert (Hl8 : length (slice src i (i + 8)) = 8%nat) by (rewrite slice_len; lia).
  assert (Hnarrow : forall m, (i <= m <= e)%nat -> (m - i <= 8)%nat ->
    (exists m', (i <= m' <= e)%nat /\ dval (slice src i m') <= limit /\
      (if (width <=? 16) && (limit <? dval (slice src i m)) then Err overflow else Ok (m, dval (slice src i m)) : res derr _) =
        Ok (m', dval (slice src i m'))) \/
    (limit < dval (slice src i e) /\
      (if (width <=? 16) && (limit <? dval (slice src i m)) then Err overflow else Ok (m, dval (slice src i m)) : res derr _) = Err overflow)).
  { intros m Hm Hm8. destruct (run_mono i m e Hm ltac:(lia) ltac:(lia)) as [_ Hv].
    pose proof (run_digits i m ltac:(lia) Hm) as Hdm. apply dval_bound in Hdm. rewrite slice_len in Hdm by lia.
    assert (10 ^ Z.of_nat (m - i) <= 10 ^ 8) by (apply Z.pow_le_mono_r; lia).
    destruct (width <=? 16) eqn:E16; cbn [andb].
    - destruct (Z.ltb_spec limit (dval (slice src i m))); [right; split; [lia|done]|left; exists m; split_and!; [lia|lia|done|done]].
    - left. exists m. split_and!; [lia|lia| |done]. lia. }
  destruct (Z.eqb_spec (nonDigitMask8 (le_word (slice src i (i + 8)))) 0) as [E|E]; cbn [negb].
  - destruct (word_clear not_digit nonDigitMask8 src i nonDigit_first Hsrc H8 E) as [_ Hadv]. rewrite !not_not_digit in Hadv. fold e in Hadv.
    pose proof (skip_digits_le (i + 8) ltac:(lia)) as Hle8. rewrite <- Hadv in Hle8.
    destruct (Nat.leb_spec (i + 16) (length src)) as [H16|H16]; cbn [res_bind].
    + assert (Hn : parse8DigitsWord (le_word (slice src i (i + 8))) = dval (slice src i (i + 8))).
      { apply parse8DigitsWord_ok; [apply run_digits; lia|done]. }
      unfold All16Digits. rewrite word_at_ok by done. cbn [res_bind]. rewrite E. cbn [negb Z.eqb]. rewrite word_at_ok by lia. cbn [res_bind unsafe].
      destruct (Z.eqb_spec (nonDigitMask8 (le_word (slice src (i + 8) (i + 8 + 8)))) 0) as [E2|E2].
      * destruct (word_clear not_digit nonDigitMask8 src (i + 8) nonDigit_first Hsrc ltac:(lia) E2) as [_ Hadv2]. rewrite !not_not_digit in Hadv2.
        pose proof (skip_digits_le (i + 8 + 8) ltac:(lia)). rewrite <- Hadv2, <- Hadv in H.
        rewrite double_word_digits by (try apply run_digits; lia || done). cbn [unsafe res_bind].
        destruct (run_mono i (i + 16) e ltac:(lia) ltac:(lia) ltac:(lia)) as [_ Hv].
        destruct (Z.ltb_spec limit (dval (slice src i (i + 16)))); [right; split; [lia|done]|left].
        exists (i + 16)%nat. split_and!; [lia|lia|done|done].
      * rewrite Hn. apply Hnarrow; lia.
    + rewrite parse8DigitsWord_ok; [|apply run_digits; lia|done]. apply Hnarrow; lia.
  - destruct (word_stop not_digit nonDigitMask8 src i nonDigit_first Hsrc H8 E) as [Hadv Hlt]. rewrite !not_not_digit in Hadv, Hlt. fold e in Hadv, Hlt.
    unfold load64 in Hadv. set (q := TrailingZeros64 (nonDigitMask8 (le_word (slice src i (i + 8)))) / 8) in *.
    assert (Hei : (i < e)%nat).
    { subst e. rewrite <- skip_digits_S by (apply at_digit_spec; eauto). apply skip_digits_le. lia. }
    assert (Hq : q = Z.of_nat (e - i)) by lia. rewrite Hadv, Hq.
    assert (Ht : take (e - i) (slice src i (i + 8)) = slice src i e).
    { unfold slice. rewrite take_take. f_equal. lia. }
    rewrite short_digits, Ht; [apply Hnarrow; lia|done|done|lia|]. rewrite Ht. apply run_digits; lia.
Qed.

(** The digits of an integer, against the scanner's integer part. *)
Lemma integer_digits_ok width limit overflow start i b :
  (width <= 16 \/ 99999999 <= limit) -> 0 <= limit < 2 ^ 64 -> src !! i = Some b -> IsDigit b = true ->
  exists e, scan_int src i = inl e /\ (i < e <= length src)%nat /\ digits (slice src i e) /\ 0 <= dval (slice src i e) /\
  ((at_digit src e = true /\ exists err, integer_digits src width limit overflow start i = Err err) \/
   (at_digit src e = false /\
    integer_digits src width limit overflow start i =
      if dval (slice src i e) <=? limit then Ok (e, dval (slice src i e)) else Err overflow)).
Proof using Hsrc.
  intros Hw Hl Hb Hd. apply lookup_lt_Some in Hb as Hi. unfold integer_digits, scan_int, fastByteAt. rewrite Hb.
  cbn [unsafe res_bind]. destruct (Z.eqb_spec b "0"%ch) as [->|Hne].
  - exists (S i). rewrite (slice_one _ _ Hb). change (dval ["0"%ch]) with 0.
    split_and!; [done|lia|lia|by repeat constructor|lia|]. cbv zeta. unfold at_digit.
    destruct (Nat.ltb_spec (S i) (length src)) as [Hs|Hs].
    + destruct (lookup_lt_is_Some_2 src (S i) Hs) as [d Hd2]. rewrite Hd2. cbn [unsafe res_bind].
      destruct (IsDigit d); [left; by eauto|right]. by rewrite if_true by lia.
    + rewrite (lookup_ge_None_2 src (S i)) by lia. cbn [res_bind]. right. by rewrite if_true by lia.
  - assert (Hon : isOneNine b = true) by (unfold isOneNine, IsDigit in *; lia). rewrite Hon.
    assert (Hat : at_digit src i = true) by (apply at_digit_spec; eauto).
    rewrite (skip_digits_S _ _ Hat). set (e := skip_digits src i).
    assert (Hei : (i < e <= length src)%nat).
    { subst e. rewrite <- skip_digits_S by done. pose proof (skip_digits_le (S i) ltac:(lia)). lia. }
    pose proof (run_digits i e ltac:(lia) ltac:(lia)) as Hde. pose proof (dval_bound _ Hde).
    exists e. split_and!; [done|lia|lia|done|lia|]. right. split.
    { pose proof (skip_digits_inner i e ltac:(lia) ltac:(lia)) as Hs. fold e in Hs. unfold skip_digits in Hs. rewrite advance_unfold in Hs.
      unfold at_digit. destruct (src !! e) as [d|]; [|done]. destruct (IsDigit d); [|done].
      pose proof (advance_le IsDigit src (S e)). destruct (decide (e < length src)%nat); [lia|].
      rewrite advance_spec, drop_ge in Hs by lia. simpl in Hs. lia. }
    destruct (wide_digits_ok width limit overflow i b Hw ltac:(lia) Hb Hd) as [(m & Hm & Hv & ->)|[Hv ->]]; cbn [res_bind].
    + rewrite checked_run_ok by (done || lia). done.
    + fold e in Hv. by rewrite if_false by lia.
Qed.
End DigitRuns.

(** ** Numbers *)

Definition fraction_char (b : Z) : bool := (b =? "."%ch) || (b =? "e"%ch) || (b =? "E"%ch).

Section Numbers.
Context (src : bytes).
Hypothesis Hsrc : bytes_ok src.

Lemma scanNumberFast_ref i : (i < length src)%nat ->
  scanNumberFast src i = Ok ((scanNumber src i).1, msg_ok (scanNumber src i).2).
Proof using Hsrc.
  intros Hi. unfold scanNumberFast, scanNumberFastTagged.
  by destruct (fast_number_spec (skip_digits src) src i Hsrc Hi ltac:(done)) as (integer & -> & _).
Qed.

(** Where a fraction or an exponent follows, the number is not plain. *)
Lemma scan_fraction start i e b :
  scan_sign src start = inl i -> scan_int src i = inl e -> src !! e = Some b -> (start <= e)%nat ->
  fraction_char b = true ->
  forall j, scanNumber src start = (j, EmptyString) -> plain_integer (slice src start j) = false.
Proof using.
  intros Hs Hi Hb Hle Hf j Hj. unfold scanNumber in Hj. rewrite Hs, Hi in Hj. apply lookup_lt_Some in Hb as Hlt.
  assert (Hej : (e < j <= length src)%nat).
  { destruct (scan_frac src e) as [k|k] eqn:Ek; [|done]. destruct (scan_exp src k) as [j'|] eqn:Ej; [|done]. simplify_eq.
    pose proof Ek as (s1 & Hs1 & _)%scan_frac_sound; [|lia]. pose proof Ej as (s2 & Hs2 & _)%scan_exp_sound; [|by apply span_le in Hs1; lia].
    apply span_le in Hs1, Hs2. split; [|lia]. unfold scan_frac in Ek. destruct (at_byte src e "."%ch) eqn:Ed.
    - destruct (at_digit src (S e)) eqn:Ea; [|done]. simplify_eq. pose proof (skip_digits_le src (S e) ltac:(lia)). lia.
    - simplify_eq. unfold scan_exp in Ej. assert (He : at_byte src k "e"%ch || at_byte src k "E"%ch = true).
      { unfold fraction_char, at_byte in *. rewrite Hb in *. lia. }
      rewrite He in Ej. cbv zeta in Ej. destruct (at_byte src (S k) "+"%ch || _);
        (destruct (at_digit src _) eqn:Ea in Ej; [|done]); simplify_eq;
        apply at_digit_spec in Ea as (d & Hd%lookup_lt_Some & _).
      + pose proof (skip_digits_le src (S (S k)) ltac:(lia)). lia.
      + pose proof (skip_digits_le src (S k) ltac:(lia)). lia. }
  rewrite (slice_app src start e j), (slice_cons src e j b) by (lia || done).
  rewrite plain_integer_app. cbn [plain_integer forallb]. unfold fraction_char, IsDigit in *.
  destruct (plain_integer (slice src start e)); [|done]. cbn [andb].
  apply andb_false_iff. left. lia.
Qed.

Lemma fraction_cases T message start i e :
  scan_sign src start = inl i -> scan_int src i = inl e -> (start < length src)%nat -> (start <= e)%nat ->
  ((exists err, fraction_check src T start e message = Err err) /\
   forall j, scanNumber src start = (j, EmptyString) -> plain_integer (slice src start j) = false) \/
  (fraction_check src T start e message = Ok tt /\ scanNumber src start = (e, EmptyString)).
Proof using Hsrc.
  intros Hs Hi Hlt Hle. unfold fraction_check. assert (Hplain : at_sat src e fraction_char = false ->
    scanNumber src start = (e, EmptyString)).
  { intros Hf. unfold scanNumber. rewrite Hs, Hi. unfold scan_frac, scan_exp, at_byte, at_sat, fraction_char in *.
    destruct (src !! e) as [b|] eqn:E; [rewrite !if_false by lia; rewrite E; by rewrite if_false by lia|]. cbn. by rewrite E. }
  destruct (Nat.ltb_spec e (length src)) as [He|He].
  2:{ right. split; [done|]. apply Hplain. unfold at_sat. by rewrite lookup_ge_None_2. }
  destruct (lookup_lt_is_Some_2 src e He) as [b Hb]. unfold fastByteAt. rewrite Hb. cbn [unsafe res_bind].
  fold (fraction_char b). destruct (fraction_char b) eqn:Hf.
  - left. split; [|by eapply scan_fraction]. rewrite scanNumberFast_ref by done. cbn [unsafe res_bind].
    destruct (msg_ok _); by eexists.
  - right. split; [done|]. apply Hplain. unfold at_sat. by rewrite Hb.
Qed.

Definition number_head (b : Z) : bool := (b =? "-"%ch) || IsDigit b.

(** A failed method follows a failed reading and a value that does not fit. *)
Lemma follows_err {A} c (r : res derr (A * decoderCursor)) rr val e :
  r = Err e -> returns rr -> (forall j t, rr = Ok (j, t) -> val t = None) -> scalar_follows src c r rr val.
Proof using.
  intros -> Hr Hv. destruct rr as [[j t]| | |]; cbn [scalar_follows]; [|by eexists|by destruct Hr as [[]|[]]..].
  rewrite (Hv j t eq_refl). by eexists.
Qed.

Lemma ref_num_returns i : returns (ref_num src i).
Proof using. unfold ref_num. destruct (scanNumber src i) as [j []]; auto with vj. Qed.

Lemma ref_num_result i j t : ref_num src i = Ok (j, t) -> scanNumber src i = (j, EmptyString) /\ t = TNum (slice src i j).
Proof using. unfold ref_num. destruct (scanNumber src i) as [k []]; [|done]. by intros [= <- <-]. Qed.

(** The widths of Go's integer types. *)
Definition int_width (w : Z) : Prop := w = 8 \/ w = 16 \/ w = 32 \/ w = 64.

Lemma signed_of_small width x : 0 < width -> - 2 ^ (width - 1) <= x < 2 ^ (width - 1) -> signed_of width x = x.
Proof using.
  intros Hw Hx. unfold signed_of. assert (2 ^ width = 2 * 2 ^ (width - 1)).
  { replace width with (1 + (width - 1)) at 1 by lia. rewrite Z.pow_add_r by lia. lia. }
  rewrite Z.mod_small by lia. lia.
Qed.

Lemma negated_value width v : int_width width -> 0 <= v <= 2 ^ (width - 1) -> signed_of width (int64 (- int64 v)) = - v.
Proof using.
  intros Hw Hv. assert (Hle : 2 ^ (width - 1) <= 2 ^ 63) by (apply Z.pow_le_mono_r; [lia|destruct Hw as [ -> |[ -> |[ -> | -> ]]]; lia]).
  assert (Hi : int64 (- int64 v) = - v).
  { unfold int64. destruct (decide (v = 2 ^ 63)) as [->|]; [done|]. rewrite (Z.mod_small (v + _)) by lia.
    rewrite Z.mod_small by lia. lia. }
  rewrite Hi. destruct (decide (v = 2 ^ (width - 1))) as [->|].
  - unfold signed_of. destruct Hw as [ -> |[ -> |[ -> | -> ]]]; done.
  - apply signed_of_small; [destruct Hw as [ -> |[ -> |[ -> | -> ]]]; lia|lia].
Qed.

Lemma width_limit w : int_width w -> (w <= 16 \/ 99999999 <= 2 ^ (w - 1) - 1) /\ 0 < 2 ^ (w - 1) <= 2 ^ 63 /\ 2 ^ w = 2 * 2 ^ (w - 1).
Proof using. intros [ -> |[ -> |[ -> | -> ]]]; lia. Qed.

(** The common part of the two integer methods, behind the sign. *)
Lemma integer_follows T w limit overflow message (f : Z -> Z) (val : tree -> option Z) c i b :
  (w <= 16 \/ 99999999 <= limit) -> 0 <= limit < 2 ^ 64 ->
  scan_sign src (d_i c) = inl i -> (d_i c <= i)%nat -> src !! i = Some b -> IsDigit b = true ->
  (forall raw, plain_integer raw = false -> val (TNum raw) = None) ->
  (forall e, (i < e <= length src)%nat -> digits (slice src i e) ->
    val (TNum (slice src (d_i c) e)) = if dval (slice src i e) <=? limit then Some (f (dval (slice src i e))) else None) ->
  scalar_follows src c
    (let* (j, value) := integer_digits src w limit overflow (d_i c) i in
     let* _ := fraction_check src T (d_i c) j message in
     Ok (f value, set_i c j)) (ref_num src (d_i c)) val.
Proof using Hsrc.
  intros Hw Hl Hs Hle Hb Hd Hnp Hval. apply lookup_lt_Some in Hb as Hlt.
  destruct (integer_digits_ok src Hsrc w limit overflow (d_i c) i b Hw Hl Hb Hd) as (e & Hi & He & Hde & Hv0 & Hcase).
  destruct (fraction_cases T message (d_i c) i e Hs Hi ltac:(lia) ltac:(lia)) as [[[err Hf] Hnot]|[Hf Hn]].
  - assert (Hr : exists err', (let* (j, value) := integer_digits src w limit overflow (d_i c) i in
      let* _ := fraction_check src T (d_i c) j message in Ok (f value, set_i c j)) = Err err').
    { destruct Hcase as [[_ [err' ->]]|[_ ->]]; cbn [res_bind]; [by eexists|].
      destruct (_ <=? _); cbn [res_bind]; [rewrite Hf|]; by eexists. }
    destruct Hr as [err' Hr]. eapply follows_err; [exact Hr|apply ref_num_returns|].
    intros j t (Hj & ->)%ref_num_result. by apply Hnp, Hnot.
  - assert (Hrn : ref_num src (d_i c) = Ok (e, TNum (slice src (d_i c) e))) by (unfold ref_num; by rewrite Hn).
    rewrite Hrn. cbn [scalar_follows]. rewrite Hval by (done || lia).
    destruct Hcase as [[Hat [err' ->]]|[_ ->]]; cbn [res_bind].
    + destruct (_ <=? _); [right; split; [done|by eexists]|by eexists].
    + destruct (dval (slice src i e) <=? limit); cbn [res_bind]; [|by eexists]. rewrite Hf. by left.
Qed.

Lemma plain_spelling s : digits s -> plain_integer s = true.
Proof using. intros H. apply forallb_forall. intros x Hx%list_elem_of_In. eapply Forall_forall in H; [|exact Hx]. by rewrite H. Qed.

Context (flags : decoderFlags).
Abbreviation replace := (decoderReplace flags).

Lemma d_Int_num T w dst c b : int_width w -> src !! d_i c = Some b -> number_head b = true ->
  scalar_follows src c (d_Int src flags T w dst c) (ref_num src (d_i c)) (int_val replace w dst).
Proof using Hsrc.
  intros Hw Hb Hh. apply lookup_lt_Some in Hb as Hlt. destruct (width_limit w Hw) as (Hlim & Hp & _).
  assert (Hnp : forall raw, plain_integer raw = false -> int_val replace w dst (TNum raw) = None).
  { intros raw Hraw. cbn [int_val]. by rewrite Hraw. }
  unfold d_Int, at_byte. rewrite Hb, if_false by (unfold number_head, IsDigit in Hh; lia). cbv zeta.
  rewrite (proj2 (Nat.leb_gt _ _)) by done. unfold fastByteAt at 1. rewrite Hb. cbn [unsafe res_bind].
  destruct (Z.eqb_spec b "-"%ch) as [->|Hneg]; cbn [andb].
  - destruct (Nat.eqb_spec (S (d_i c)) (length src)) as [He|He].
    { eapply follows_err; [done|apply ref_num_returns|]. intros j t (Hj & _)%ref_num_result. exfalso. revert Hj.
      unfold scanNumber, scan_sign. rewrite Hb. rewrite (proj2 (Nat.leb_le _ _)) by lia. done. }
    assert (Hss : scan_sign src (d_i c) = inl (S (d_i c))).
    { unfold scan_sign. rewrite Hb. by rewrite (proj2 (Nat.leb_gt _ _)) by lia. }
    destruct (lookup_lt_is_Some_2 src (S (d_i c)) ltac:(lia)) as [d Hd]. unfold fastByteAt at 1. rewrite Hd. cbn [unsafe res_bind].
    destruct (IsDigit d) eqn:Hdig; cbn [negb].
    + apply (integer_follows T w _ _ _ (fun v => signed_of w (int64 (- int64 v))) _ c (S (d_i c)) d); try done; try lia.
      intros e He' Hde. cbn [int_val]. pose proof (dval_bound _ Hde) as Hv.
      rewrite (slice_cons src (d_i c) e "-"%ch) by (lia || done). cbn [int_value].
      change (plain_integer (?x :: ?l)) with ((IsDigit x || (x =? "-"%ch)) && plain_integer l).
      rewrite (plain_spelling _ Hde), Z.eqb_refl. cbn [andb]. rewrite orb_true_r. cbn [andb].
      destruct (Z.leb_spec (dval (slice src (S (d_i c)) e)) (2 ^ (w - 1))).
      * rewrite if_true by lia. rewrite negated_value by (done || lia). done.
      * by rewrite if_false by lia.
    + eapply follows_err; [done|apply ref_num_returns|]. intros j t (Hj & _)%ref_num_result. exfalso. revert Hj.
      unfold scanNumber, scan_int. rewrite Hss, Hd. by rewrite !if_false by (unfold isOneNine, IsDigit in *; lia).
  - assert (Hdig : IsDigit b = true) by (unfold number_head in Hh; lia).
    assert (Hss : scan_sign src (d_i c) = inl (d_i c)).
    { unfold scan_sign. rewrite Hb. by rewrite (proj2 (Z.eqb_neq _ _) Hneg). }
    unfold fastByteAt at 1. rewrite Hb. cbn [unsafe res_bind]. rewrite Hdig. cbn [negb].
    apply (integer_follows T w _ _ _ (signed_of w) _ c (d_i c) b); try done; try lia.
    intros e He Hde. cbn [int_val]. pose proof (dval_bound _ Hde) as Hv.
    assert (Hiv : int_value (slice src (d_i c) e) = dval (slice src (d_i c) e)).
    { rewrite (slice_cons src (d_i c) e b) by (lia || done). cbn [int_value]. by rewrite (proj2 (Z.eqb_neq _ _) Hneg). }
    rewrite (plain_spelling _ Hde), Hiv. cbn [andb].
    destruct (Z.leb_spec (dval (slice src (d_i c) e)) (2 ^ (w - 1) - 1)).
    + rewrite if_true by lia. by rewrite signed_of_small by (destruct Hw as [ -> |[ -> |[ -> | -> ]]]; lia).
    + by rewrite if_false by lia.
Qed.

Lemma d_Uint_num T w dst c b : int_width w -> src !! d_i c = Some b -> number_head b = true ->
  scalar_follows src c (d_Uint src flags T w dst c) (ref_num src (d_i c)) (uint_val replace w dst).
Proof using Hsrc.
  intros Hw Hb Hh. apply lookup_lt_Some in Hb as Hlt. destruct (width_limit w Hw) as (Hlim & Hp & Hpw).
  unfold d_Uint, at_byte. rewrite Hb, if_false by (unfold number_head, IsDigit in Hh; lia). cbv zeta.
  rewrite (proj2 (Nat.leb_gt _ _)) by done. unfold fastByteAt at 1. rewrite Hb. cbn [unsafe res_bind].
  destruct (IsDigit b) eqn:Hdig; cbn [negb].
  - assert (Hneg : b <> "-"%ch) by (unfold IsDigit in Hdig; lia).
    assert (Hss : scan_sign src (d_i c) = inl (d_i c)).
    { unfold scan_sign. rewrite Hb. by rewrite (proj2 (Z.eqb_neq _ _) Hneg). }
    apply (integer_follows T w _ _ _ (fun v => v mod 2 ^ w) _ c (d_i c) b); try done; try lia.
    { intros raw Hraw. cbn [uint_val]. by rewrite Hraw. }
    intros e He Hde. cbn [uint_val]. pose proof (dval_bound _ Hde) as Hv. rewrite (plain_spelling _ Hde).
    rewrite (slice_cons src (d_i c) e b) in * by (lia || done). cbn [int_value is_negative].
    rewrite (proj2 (Z.eqb_neq _ _) Hneg). cbn [negb andb].
    destruct (Z.leb_spec (dval (b :: slice src (S (d_i c)) e)) (2 ^ w - 1)).
    + rewrite if_true by lia. by rewrite Z.mod_small by lia.
    + by rewrite if_false by lia.
  - assert (b = "-"%ch) as -> by (unfold number_head in Hh; rewrite Hdig, orb_false_r in Hh; lia).
    eapply follows_err; [done|apply ref_num_returns|]. intros j t (Hj & ->)%ref_num_result. cbn [uint_val].
    pose proof (scanNumber_number _ _ _ Hj) as (s & Hs & Hjn). rewrite (span_slice _ _ _ _ Hs).
    destruct (jnumber_head _ Hjn) as (h & t & -> & _). apply span_cons in Hs as [Hh' _]. simplify_eq.
    cbn [is_negative]. rewrite Z.eqb_refl. cbn [negb]. by rewrite andb_false_r.
Qed.
End Numbers.

(** ** The methods against the reading of a value *)

Definition is_container (t : tree) : bool := match t with TArr _ _ | TObj _ _ => true | _ => false end.

Section Values.
Context (src : bytes) (maxDepth : Z) (flags : decoderFlags) (aliases : bytes -> bool).
Hypothesis Hsrc : bytes_ok src.
Abbreviation rv := (ref_value src maxDepth unexpected_byte).
Abbreviation replace := (decoderReplace flags).

Lemma rv_returns fuel depth i : (i <= length src)%nat -> (length src - i < fuel)%nat -> returns (rv fuel depth i).
Proof using Hsrc.
  intros Hi Hf. pose proof (ref_value_sound src maxDepth unexpected_byte Hsrc fuel depth i Hi Hf) as H.
  destruct (rv fuel depth i) as [[]|[]| |]; auto with vj; done.
Qed.

(** The readings a head byte selects. *)
Inductive head_case (i : nat) : option Z -> res rerr (nat * tree) -> Prop :=
  | HC_end e : head_case i None (Err e)
  | HC_null : head_case i (Some "n"%ch) (ref_lit src lit_null TNull i)
  | HC_true : head_case i (Some "t"%ch) (ref_lit src lit_true (TBool true) i)
  | HC_false : head_case i (Some "f"%ch) (ref_lit src lit_false (TBool false) i)
  | HC_string : head_case i (Some DQUOTE) (let* (j, dec) := ref_str src i in Ok (j, TStr (slice src i j) dec))
  | HC_number b : number_head b = true -> head_case i (Some b) (ref_num src i)
  | HC_array rr : returns rr -> (forall j t, rr = Ok (j, t) -> exists raw ts, t = TArr raw ts) -> head_case i (Some "["%ch) rr
  | HC_object rr : returns rr -> (forall j t, rr = Ok (j, t) -> exists raw ms, t = TObj raw ms) -> head_case i (Some "{"%ch) rr
  | HC_other b e : value_head b = false -> head_case i (Some b) (Err e).

Lemma ref_array_shape rvf depth i j t : ref_array src maxDepth rvf depth i = Ok (j, t) -> exists raw ts, t = TArr raw ts.
Proof using.
  unfold ref_array. destruct (maxDepth <? depth); [done|]. cbv zeta. destruct (at_byte _ _ _); [intros [= <- <-]; eauto|].
  destruct (ref_elems _ _ _ _ _ _) as [[]| | |]; cbn [res_bind]; [|done..]. intros [= <- <-]. eauto.
Qed.
Lemma ref_object_shape rvf depth i j t : ref_object src maxDepth rvf depth i = Ok (j, t) -> exists raw ms, t = TObj raw ms.
Proof using.
  unfold ref_object. destruct (maxDepth <? depth); [done|]. cbv zeta. destruct (at_byte _ _ _); [intros [= <- <-]; eauto|].
  destruct (ref_members _ _ _ _ _ _) as [[]| | |]; cbn [res_bind]; [|done..]. intros [= <- <-]. eauto.
Qed.

Lemma value_head_case fuel depth i : depth <= maxDepth -> (i <= length src)%nat -> (length src - i < fuel)%nat ->
  head_case i (src !! i) (rv fuel depth i).
Proof using Hsrc.
  intros Hd Hi Hf. pose proof (rv_returns fuel depth i Hi Hf) as Hr. destruct fuel as [|fuel]; [lia|].
  cbn [ref_value] in *. unfold ref_body in *. rewrite if_false in * by lia. at_pos src i as b E; [|constructor].
  destruct (Z.eqb_spec b "n"%ch) as [->|H1]; [constructor|]. destruct (Z.eqb_spec b "t"%ch) as [->|H2]; [constructor|].
  destruct (Z.eqb_spec b "f"%ch) as [->|H3]; [constructor|]. destruct (Z.eqb_spec b DQUOTE) as [->|H4]; [constructor|].
  destruct (Z.eqb_spec b "["%ch) as [->|H5]; [constructor; [done|intros; by eapply ref_array_shape]|].
  destruct (Z.eqb_spec b "{"%ch) as [->|H6]; [constructor; [done|intros; by eapply ref_object_shape]|].
  fold (number_head b). destruct (number_head b) eqn:Hn; [by constructor|]. constructor.
  unfold value_head, number_head in *. lia.
Qed.

(** The head byte of the text of a tree. *)
Definition tree_head (t : tree) (b : Z) : bool :=
  match t with
  | TNull => b =? "n"%ch
  | TBool v => if v then b =? "t"%ch else b =? "f"%ch
  | TStr _ _ => b =? DQUOTE
  | TNum _ => number_head b
  | TArr _ _ => b =? "["%ch
  | TObj _ _ => b =? "{"%ch
  end.

Lemma ref_str_cases i : returns (ref_str src i).
Proof using.
  unfold ref_str, str_at. destruct (str_ref_returns (drop (S i) src) 0 (S i) []) as [H1 H2].
  destruct (str_ref _ _ _ _) as [[]|[]| |]; auto with vj; done.
Qed.

Lemma head_case_returns i hb rr : head_case i hb rr -> returns rr.
Proof using.
  destruct 1; auto with vj.
  1-3: unfold ref_lit; destruct (matchStringAt _ _ _); auto with vj.
  - destruct (ref_str_cases i) as [[[j dec] ->]|[[o m] ->]]; cbn [res_bind]; auto with vj.
  - apply ref_num_returns.
Qed.

Lemma head_case_tree i hb rr j t : head_case i hb rr -> rr = Ok (j, t) -> exists b, hb = Some b /\ tree_head t b = true.
Proof using.
  destruct 1 as [e| | | | |b Hb|rr Hr Ha|rr Hr Ho|b e Hb]; intros Ht; try done; try (eexists; split; [reflexivity|]).
  1-3: unfold ref_lit in Ht; destruct (matchStringAt _ _ _); [|done]; by simplify_eq.
  - destruct (ref_str src i) as [[]| | |]; cbn [res_bind] in Ht; [|done..]. by simplify_eq.
  - unfold ref_num in Ht. destruct (scanNumber src i) as [? []]; [|done]. by simplify_eq.
  - by destruct (Ha _ _ Ht) as (? & ? & ->).
  - by destruct (Ho _ _ Ht) as (? & ? & ->).
Qed.

(** A method that fails at a head byte follows a reading without a value for it. *)
Lemma follows_fail {A} c (r : res derr (A * decoderCursor)) rr val e hb :
  head_case (d_i c) hb rr -> r = Err e -> (forall t b, hb = Some b -> tree_head t b = true -> val t = None) ->
  scalar_follows src c r rr val.
Proof using.
  intros Hh Hr Hv. eapply follows_err; [exact Hr|by eapply head_case_returns|].
  intros j t Ht. destruct (head_case_tree _ _ _ _ _ Hh Ht) as (b & Hb & Hth). by eapply Hv.
Qed.

Lemma null_follows {A} (zero dst : A) c val : (d_i c <= length src)%nat -> val TNull = Some (if replace then zero else dst) ->
  scalar_follows src c (null_scalar src flags zero dst c) (ref_lit src lit_null TNull (d_i c)) val.
Proof using Hsrc.
  intros Hi Hv. unfold null_scalar, null_at, ref_lit. rewrite literal_null_ref by done.
  destruct (matchStringAt src (d_i c) lit_null); cbn [negb scalar_follows]; [|by eexists]. rewrite Hv. by left.
Qed.

(** *** Strings *)

Lemma keep_or_copy_content dst i j : (i <= j <= length src)%nat -> keep_or_copy src flags aliases dst i j = slice src i j.
Proof using.
  intros H. unfold keep_or_copy, reuseOwnedString, ownedString.
  assert (Hc : (if (i =? j)%nat then [] else slice src i j) = slice src i j).
  { destruct (Nat.eqb_spec i j) as [->|]; [by rewrite slice_refl|done]. }
  rewrite Hc. destruct (decoderZeroCopy flags || negb (length dst =? j - i)%nat) eqn:E; [done|].
  apply orb_false_iff in E as [_ E]. destruct (Nat.eqb_spec (length dst) (j - i)) as [El|]; [|done].
  destruct (Nat.eqb_spec (length dst) 0) as [E0|].
  - destruct dst; [|done]. simpl in El. replace j with i by lia. by rewrite slice_refl.
  - destruct (aliases dst); [done|]. by case_bool_decide.
Qed.

Lemma short_scan i : (i <= length src)%nat ->
  (let (e, short) := scanStringSpecialShort src i in if (short : bool) then e else scanStringSpecial src i) = scanStringSpecial src i.
Proof using Hsrc.
  intros Hi. unfold scanStringSpecialShort. destruct (8 <=? length src - i)%nat; [done|].
  rewrite scan_tail_spec, scan_ref_all, scanStringSpecial_spec, !advance_spec by (done || lia).
  do 2 f_equal. induction (drop i src) as [|b l IH]; [done|]. cbn [take_while]. rewrite IH.
  unfold is_string_special. replace ((b <? 32) || (128 <=? b) || (b =? DQUOTE) || (b =? BSLASH))
    with ((b =? DQUOTE) || (b =? BSLASH) || (b <? 32) || (128 <=? b)) by lia. done.
Qed.

(** What a string method leaves, from the reading of the token. *)
Definition str_result (c : decoderCursor) (r : res rerr (nat * bytes)) : res derr (bytes * decoderCursor) :=
  match r with
  | Ok (j, text) => Ok (text, set_i c j) | Err (o, m) => Err (DSyntax (syntax_at src o m))
  | Panic => Panic | NoFuel => NoFuel end.

Lemma stringSpecial_ref dst c : src !! d_i c = Some DQUOTE ->
  stringSpecial src flags aliases dst c (scanStringSpecial src (S (d_i c))) = str_result c (ref_str src (d_i c)).
Proof using Hsrc.
  intros Hq. apply lookup_lt_Some in Hq as Hlt. unfold stringSpecial.
  pose proof (special_le src Hsrc (S (d_i c)) ltac:(lia)) as He. set (e := scanStringSpecial src (S (d_i c))) in *.
  destruct (at_sat src e _); [|by apply parse_string_ref]. cbv zeta.
  destruct (at_byte src _ DQUOTE && _) eqn:E; [|by apply parse_string_ref].
  apply andb_true_iff in E as [Hq2%at_byte_spec Hv].
  pose proof (advance_le (fun b => negb (is_string_syntax b)) src e ltac:(lia)) as Hle.
  rewrite <- scanStringSyntax_spec in Hle by (done || lia). rewrite keep_or_copy_content by lia.
  unfold ref_str. rewrite (str_at_special src Hsrc) by lia. fold e. cbn [app].
  assert (Hrun : plain_run (slice src e (scanStringSyntax src e))).
  { split; [by apply Valid_spec; [by apply bytes_nonneg, slice_bytes|]|].
    rewrite scanStringSyntax_spec by (done || lia). eapply Forall_impl; [apply advance_slice; lia|].
    simpl. intros b. by destruct (is_string_syntax b). }
  rewrite (str_at_run src e (scanStringSyntax src e)) by (done || lia).
  rewrite str_at_quote by done. cbn [str_result]. by rewrite <- slice_app by lia.
Qed.

Lemma string_at_ref dst c : src !! d_i c = Some DQUOTE ->
  string_at src flags aliases dst c = str_result c (ref_str src (d_i c)).
Proof using Hsrc.
  intros Hq. apply lookup_lt_Some in Hq as Hlt. unfold string_at. pose proof (short_scan (S (d_i c)) ltac:(lia)) as Hs.
  destruct (scanStringSpecialShort src (S (d_i c))) as [e short]. cbv zeta. rewrite Hs.
  destruct (at_byte src _ DQUOTE) eqn:E; [|by apply stringSpecial_ref].
  pose proof (special_le src Hsrc (S (d_i c)) ltac:(lia)). rewrite keep_or_copy_content by lia. by rewrite plain_key_text.
Qed.

Lemma stringToken_ref c : src !! d_i c = Some DQUOTE -> stringToken src c = str_result c (ref_str src (d_i c)).
Proof using Hsrc.
  intros Hq. apply lookup_lt_Some in Hq as Hlt. unfold stringToken. rewrite (proj2 (at_byte_spec _ _ _) Hq). cbn [negb]. cbv zeta.
  destruct (at_byte src _ DQUOTE) eqn:E; [by rewrite plain_key_text|by apply parse_string_ref].
Qed.

Lemma d_String_quote T dst c : src !! d_i c = Some DQUOTE ->
  d_String src flags aliases T dst c = str_result c (ref_str src (d_i c)).
Proof using Hsrc. intros Hq. unfold d_String. rewrite (proj2 (at_byte_spec _ _ _) Hq). by apply string_at_ref. Qed.

Lemma d_String_ref T dst c rr : head_case (d_i c) (src !! d_i c) rr -> (d_i c <= length src)%nat ->
  scalar_follows src c (d_String src flags aliases T dst c) rr (string_val replace dst).
Proof using Hsrc.
  intros Hh Hi. remember (src !! d_i c) as hb eqn:Eh. symmetry in Eh.
  destruct (decide (hb = Some DQUOTE)) as [->|Hnq].
  { rewrite d_String_quote by done. inversion Hh; subst; try done.
    destruct (ref_str_cases (d_i c)) as [[[j dec] E]|[[o m] E]]; rewrite E; cbn; [by left|by eexists]. }
  assert (Hs : d_String src flags aliases T dst c = stringSlow src flags aliases T dst c).
  { unfold d_String, at_byte. rewrite Eh. destruct hb as [b|]; [|done]. by rewrite (proj2 (Z.eqb_neq _ _)) by congruence. }
  rewrite Hs. unfold stringSlow, at_byte. rewrite Eh. destruct (decide (hb = Some "n"%ch)) as [->|Hnn].
  { inversion Hh; subst; try done. by apply null_follows. }
  eapply follows_fail; [exact Hh| |].
  - destruct hb as [b|]; [|reflexivity]. rewrite !(proj2 (Z.eqb_neq _ _)) by congruence. reflexivity.
  - intros [|v| | | |] b -> Hb; cbn [tree_head] in Hb; try done; apply Z.eqb_eq in Hb; congruence.
Qed.

(** *** Booleans *)

Lemma literal_bool T dst c (b : bool) : let lit := if b then lit_true else lit_false in
  src !! d_i c = Some (if b then "t"%ch else "f"%ch) ->
  scalar_follows src c (d_Bool src flags T dst c) (ref_lit src lit (TBool b) (d_i c)) (bool_val replace dst).
Proof using Hsrc.
  intros lit Hb. apply lookup_lt_Some in Hb as Hlt. unfold d_Bool, boolSlow, true_at, false_at, at_byte, ref_lit. rewrite Hb.
  destruct b; subst lit; cbn [Z.eqb Pos.eqb andb].
  - rewrite literal_true_ref by (done || lia). destruct (matchStringAt src (d_i c) lit_true); cbn [negb scalar_follows bool_val];
      [by left|by eexists].
  - rewrite literal_false_ref by done. destruct (matchStringAt src (d_i c) lit_false); cbn [negb scalar_follows bool_val];
      [by left|by eexists].
Qed.

Lemma d_Bool_ref T dst c rr : head_case (d_i c) (src !! d_i c) rr -> (d_i c <= length src)%nat ->
  scalar_follows src c (d_Bool src flags T dst c) rr (bool_val replace dst).
Proof using Hsrc.
  intros Hh Hi. remember (src !! d_i c) as hb eqn:Eh. symmetry in Eh.
  destruct (decide (hb = Some "t"%ch)) as [->|Ht]; [inversion Hh; subst; try done; by apply (literal_bool T dst c true)|].
  destruct (decide (hb = Some "f"%ch)) as [->|Hf]; [inversion Hh; subst; try done; by apply (literal_bool T dst c false)|].
  assert (Hs : d_Bool src flags T dst c = boolSlow src flags T dst c).
  { unfold d_Bool, at_byte. rewrite Eh. destruct hb as [b|]; [|done]. by rewrite !(proj2 (Z.eqb_neq _ _)) by congruence. }
  rewrite Hs. unfold boolSlow. rewrite Eh. destruct (decide (hb = Some "n"%ch)) as [->|Hnn].
  { inversion Hh; subst; try done. by apply null_follows. }
  eapply follows_fail; [exact Hh| |].
  - destruct hb as [b|]; [|reflexivity]. rewrite !(proj2 (Z.eqb_neq _ _)) by congruence. reflexivity.
  - intros [|[]| | | |] b -> Hb; cbn [tree_head] in Hb; try done; apply Z.eqb_eq in Hb; congruence.
Qed.

(** *** Numbers *)

Lemma number_or_not (hb : option Z) :
  (exists b, hb = Some b /\ number_head b = true) \/ (forall b, hb = Some b -> number_head b = false).
Proof using. destruct hb as [b|]; [|by right]. destruct (number_head b) eqn:E; [left; eauto|right; congruence]. Qed.

Lemma numberToken_ref T c b : src !! d_i c = Some b -> number_head b = true ->
  match ref_num src (d_i c) with
  | Ok (j, _) => numberToken src T c = Ok (d_i c, j)
  | _ => exists e, numberToken src T c = Err e
  end.
Proof using Hsrc.
  intros Hb Hh. apply lookup_lt_Some in Hb as Hlt. unfold numberToken, at_sat. rewrite Hb. fold (number_head b). rewrite Hh.
  cbn [negb]. rewrite scanNumberFast_ref by done. cbn [unsafe res_bind]. unfold ref_num.
  destruct (scanNumber src (d_i c)) as [j m]. cbn [fst snd]. destruct m; cbn [msg_ok negb]; [done|by eexists].
Qed.

Lemma d_Number_ref T dst c rr : head_case (d_i c) (src !! d_i c) rr -> (d_i c <= length src)%nat ->
  scalar_follows src c (d_Number src flags aliases T dst c) rr (number_val replace dst).
Proof using Hsrc.
  intros Hh Hi. remember (src !! d_i c) as hb eqn:Eh. symmetry in Eh. unfold d_Number, at_byte. rewrite Eh.
  destruct (decide (hb = Some "n"%ch)) as [->|Hnn]; [inversion Hh; subst; try done; by apply null_follows|].
  destruct (decide (hb = Some DQUOTE)) as [->|Hnq].
  { rewrite d_String_quote by done. inversion Hh; subst; try done. cbn [Z.eqb Pos.eqb].
    destruct (ref_str_cases (d_i c)) as [[[j dec] E]|[[o m] E]]; rewrite E; cbn [str_result res_bind scalar_follows number_val]; [|by eexists].
    destruct (validNumber dec); cbn [negb]; [by left|by eexists]. }
  assert (Hs : match hb with Some c0 => c0 =? "n"%ch | None => false end = false /\ match hb with Some c0 => c0 =? DQUOTE | None => false end = false).
  { destruct hb as [b|]; [|done]. by rewrite !(proj2 (Z.eqb_neq _ _)) by congruence. }
  destruct Hs as [-> ->]. destruct (number_or_not hb) as [(b & -> & Hb)|Hnot].
  - pose proof (numberToken_ref T c b Eh Hb) as Ht. inversion Hh; subst; try done.
    2:{ unfold value_head, number_head in *. lia. }
    destruct (ref_num src (d_i c)) as [[j t]| | |] eqn:E; cbn [scalar_follows];
      [|by destruct Ht as [e' ->]; eexists|by destruct (ref_num_returns src (d_i c)) as [[]|[]]; congruence..].
    apply ref_num_result in E as [Hj ->]. cbn [number_val]. rewrite Ht. cbn [res_bind]. left. f_equal. f_equal. unfold ownedString.
    destruct (Nat.eqb_spec (d_i c) j) as [<-|]; [by rewrite slice_refl|done].
  - eapply follows_fail; [exact Hh| |].
    + unfold numberToken, at_sat. rewrite Eh. destruct hb as [b|]; [|reflexivity]. fold (number_head b).
      by rewrite Hnot.
    + intros [| | | | |] hd -> Hb; cbn [tree_head] in Hb; try done; try (apply Z.eqb_eq in Hb; congruence). rewrite Hnot in Hb; done.
Qed.

(** The integer methods, away from a number and from null. *)
Lemma integer_ref {A} c (r : res derr (A * decoderCursor)) rr (zero dst : A) val :
  head_case (d_i c) (src !! d_i c) rr -> (d_i c <= length src)%nat ->
  (src !! d_i c = Some "n"%ch -> r = null_scalar src flags zero dst c) -> val TNull = Some (if replace then zero else dst) ->
  (forall b, src !! d_i c = Some b -> number_head b = true -> scalar_follows src c r (ref_num src (d_i c)) val) ->
  ((forall b, src !! d_i c = Some b -> b <> "n"%ch /\ number_head b = false) -> exists e, r = Err e) ->
  (forall t, match t with TNull | TNum _ => True | _ => val t = None end) ->
  scalar_follows src c r rr val.
Proof using Hsrc.
  intros Hh Hi Hn Hv Hnum Herr Hval. remember (src !! d_i c) as hb eqn:Eh. symmetry in Eh.
  destruct (decide (hb = Some "n"%ch)) as [->|Hnn].
  { rewrite Hn by done. inversion Hh; subst; try done. by apply null_follows. }
  destruct (number_or_not hb) as [(b & -> & Hb)|Hnot].
  - specialize (Hnum b eq_refl Hb). inversion Hh; subst; try done. unfold value_head, number_head in *. lia.
  - destruct Herr as [e He].
    { intros b ->. split; [congruence|by apply Hnot]. }
    eapply follows_fail; [exact Hh|exact He|]. intros t b -> Hb. specialize (Hval t). destruct t; try done.
    + cbn in Hb. apply Z.eqb_eq in Hb. congruence.
    + cbn in Hb. rewrite Hnot in Hb; done.
Qed.

Lemma d_Int_ref T w dst c rr : int_width w -> head_case (d_i c) (src !! d_i c) rr -> (d_i c <= length src)%nat ->
  scalar_follows src c (d_Int src flags T w dst c) rr (int_val replace w dst).
Proof using Hsrc.
  intros Hw Hh Hi. apply (integer_ref c _ rr 0 dst); [done|done| |done| | |by intros []].
  - intros E. unfold d_Int, at_byte. by rewrite E.
  - intros b Hb Hn. by eapply d_Int_num.
  - intros Hother. unfold d_Int, at_byte. destruct (src !! d_i c) as [b|] eqn:E.
    + destruct (Hother b eq_refl) as [Hn Hh']. rewrite (proj2 (Z.eqb_neq _ _) Hn). apply lookup_lt_Some in E as Hlt.
      rewrite (proj2 (Nat.leb_gt _ _)) by done. unfold fastByteAt. rewrite E. cbn [unsafe res_bind].
      unfold number_head in Hh'. apply orb_false_iff in Hh' as [H1 H2]. rewrite H1. cbn [andb]. rewrite E. cbn [unsafe res_bind].
      rewrite H2. by eexists.
    + apply lookup_ge_None in E. rewrite (proj2 (Nat.leb_le _ _)) by done. by eexists.
Qed.

Lemma d_Uint_ref T w dst c rr : int_width w -> head_case (d_i c) (src !! d_i c) rr -> (d_i c <= length src)%nat ->
  scalar_follows src c (d_Uint src flags T w dst c) rr (uint_val replace w dst).
Proof using Hsrc.
  intros Hw Hh Hi. apply (integer_ref c _ rr 0 dst); [done|done| |done| | |by intros []].
  - intros E. unfold d_Uint, at_byte. by rewrite E.
  - intros b Hb Hn. by eapply d_Uint_num.
  - intros Hother. unfold d_Uint, at_byte. destruct (src !! d_i c) as [b|] eqn:E.
    + destruct (Hother b eq_refl) as [Hn Hh']. rewrite (proj2 (Z.eqb_neq _ _) Hn). apply lookup_lt_Some in E as Hlt.
      rewrite (proj2 (Nat.leb_gt _ _)) by done. unfold fastByteAt. rewrite E. cbn [unsafe res_bind].
      unfold number_head in Hh'. apply orb_false_iff in Hh' as [H1 H2]. rewrite H2. by eexists.
    + apply lookup_ge_None in E. rewrite (proj2 (Nat.leb_le _ _)) by done. by eexists.
Qed.
End Values.

(** ** The property *)

(** What a scalar method has to do with a reading of the value under the cursor:
    store what the destination takes and step behind the value, or fail. *)
Definition decodes {A} (c : decoderCursor) (rr : res rerr (nat * tree)) (val : tree -> option A)
  (r : res derr (A * decoderCursor)) : Prop :=
  match rr with
  | Ok (j, t) => match val t with Some v => r = Ok (v, set_i c j) | None => exists e, r = Err e end
  | Err _ => exists e, r = Err e
  | _ => False
  end.

Lemma follows_decodes {A} src c (r : res derr (A * decoderCursor)) rr val :
  (forall j t, rr = Ok (j, t) -> at_digit src j = false) -> scalar_follows src c r rr val -> decodes c rr val r.
Proof.
  intros Hd H. destruct rr as [[j t]| | |]; cbn in *; [|done..]. specialize (Hd j t eq_refl).
  destruct (val t); [|done]. destruct H as [H|[H _]]; [done|congruence].
Qed.

(** C39: with the cursor on any text (where no digit follows the value found there, so that the text is no number with a redundant zero), the scalar methods of the pull parser do what the grammar and the destination type say: Bool takes a boolean, String the decoded text, Number a number or a string spelling one, and Int and Uint at 8, 16, 32 and 64 bits store exactly the integer spelled when it has no fraction or exponent and lies in the range of the type; null keeps or zeroes the destination; everything else (overflow by any digit string, minus signs on unsigned types, other kinds, malformed text) is an error, and no word or byte read leaves the source *)
Theorem scalars_decode src maxDepth flags aliases T w c :
  bytes_ok src -> int_width w -> d_depth c <= maxDepth -> (d_i c <= length src)%nat ->
  let rr := ref_value src maxDepth unexpected_byte (S (length src)) (d_depth c) (d_i c) in
  (forall j t, rr = Ok (j, t) -> at_digit src j = false) ->
  (forall dst, decodes c rr (bool_val (decoderReplace flags) dst) (d_Bool src flags T dst c)) /\
  (forall dst, decodes c rr (string_val (decoderReplace flags) dst) (d_String src flags aliases T dst c)) /\
  (forall dst, decodes c rr (number_val (decoderReplace flags) dst) (d_Number src flags aliases T dst c)) /\
  (forall dst, decodes c rr (int_val (decoderReplace flags) w dst) (d_Int src flags T w dst c)) /\
  (forall dst, decodes c rr (uint_val (decoderReplace flags) w dst) (d_Uint src flags T w dst c)).
Proof.
  intros Hs Hw Hd Hi rr Hn. pose proof (value_head_case src maxDepth Hs (S (length src)) _ _ Hd Hi ltac:(lia)) as Hh.
  split_and!; intros dst; apply (follows_decodes src); try exact Hn.
  - by apply d_Bool_ref.
  - by apply d_String_ref.
  - by apply d_Number_ref.
  - by apply d_Int_ref.
  - by apply d_Uint_ref.
Qed.

(** [-128 ] into an [int8] and a [uint8]. *)
Lemma scalars_decode_witness :
  let src := bs "-128 " in let flags := mkFlags false false false false false in
  let rr := ref_value src 10 unexpected_byte (S (length src)) 0 0 in
  rr = Ok (4%nat, TNum (bs "-128")) /\ int_val false 8 0 (TNum (bs "-128")) = Some (-128) /\
  decodes newDecoderCursor rr (int_val false 8 0) (d_Int src flags "int8" 8 0 newDecoderCursor) /\
  decodes newDecoderCursor rr (uint_val false 8 0) (d_Uint src flags "uint8" 8 0 newDecoderCursor).
Proof.
  cbv zeta.
  destruct (scalars_decode (bs "-128 ") 10 (mkFlags false false false false false) (fun _ => false) "int8" 8 newDecoderCursor)
    as (_ & _ & _ & Hint & _); [concrete_bytes|by left|by vm_compute|vm_compute; lia| |].
  { intros j t E. vm_compute in E. injection E as <- _. reflexivity. }
  destruct (scalars_decode (bs "-128 ") 10 (mkFlags false false false false false) (fun _ => false) "uint8" 8 newDecoderCursor)
    as (_ & _ & _ & _ & Huint); [concrete_bytes|by left|by vm_compute|vm_compute; lia| |].
  { intros j t E. vm_compute in E. injection E as <- _. reflexivity. }
  split_and!; [by vm_compute|by vm_compute|exact (Hint 0)|exact (Huint 0)].
Defined.
