(* ===== verification/FieldFold.v ===== *)
(** Case folding of member names: [strings.EqualFold] and the canonical spelling of
    [typed_hook_api_fields.go].  The Unicode fold table is an instance of
    [CaseFolding]. *)

From S2P Require Import Prelude Words Utf8 Scanner Lex Grammar StringRef Numbers Reader FastValid ParserString.

(** ** Simple case folding *)

(** The least rune of the orbit of [unicode.SimpleFold] that holds a rune. *)
Class CaseFolding : Type := least_fold : Z -> Z.

Definition upper_ascii (r : Z) : bool := ("A"%ch <=? r) && (r <=? "Z"%ch).
Definition lower_ascii (r : Z) : bool := ("a"%ch <=? r) && (r <=? "z"%ch).

(** What the code relies on of the table: ASCII letters fold with their other
    case, the other ASCII characters and the replacement character with nothing. *)
Class FoldingLaws `{CaseFolding} : Prop := {
  least_fold_ascii r : 0 <= r < 128 -> least_fold r = if lower_ascii r then r - 32 else r;
  least_fold_high r : 128 <= r -> least_fold r < 128 -> upper_ascii (least_fold r) = true;
  least_fold_error r : least_fold r = least_fold RuneError -> r = RuneError;
  least_fold_scalar r : is_scalar r = true -> is_scalar (least_fold r) = true
  }.

Section Folding.
Context `{CaseFolding}.

(** The runes a [range] loop over a string visits. *)
Fixpoint runes_loop (fuel : nat) (p : bytes) : list Z :=
  match fuel, p with
  | S fuel, _ :: _ => let rn := DecodeRune p in rn.1 :: runes_loop fuel (drop rn.2 p)
  | _, _ => []
  end.
Definition runes (p : bytes) : list Z := runes_loop (length p) p.

(** [strings.EqualFold]: equal under simple case folding, rune by rune. *)
Definition EqualFold (s t : bytes) : bool := bool_decide (map least_fold (runes s) = map least_fold (runes t)).

Fixpoint fieldFoldPrefix_loop (fuel : nat) (key : bytes) (i : nat) : nat :=
  match fuel with
  | O => i
  | S fuel =>
      match key !! i with
      | Some c => if upper_ascii c || (128 <=? c) then i else fieldFoldPrefix_loop fuel key (S i)
      | None => length key
      end
  end.
Definition fieldFoldPrefix (key : bytes) : nat := fieldFoldPrefix_loop (S (length key)) key 0.

Definition folded_rune (r : Z) : Z :=
  let folded := least_fold r in
  if upper_ascii folded then folded + 32 else folded.

Fixpoint appendFoldedFieldKey_loop (fuel : nat) (dst key : bytes) (i : nat) : bytes :=
  match fuel with
  | O => dst
  | S fuel =>
      match key !! i with
      | None => dst
      | Some c =>
          if c <? 128 then
            appendFoldedFieldKey_loop fuel (dst ++ [if upper_ascii c then c + 32 else c]) key (S i)
          else
            let (r, size) := DecodeRune (drop i key) in
            appendFoldedFieldKey_loop fuel (AppendRune dst (folded_rune r)) key (i + size)
      end
  end.
Definition appendFoldedFieldKey (dst key : bytes) : bytes := appendFoldedFieldKey_loop (S (length key)) dst key 0.

Definition foldFieldKey (key : bytes) : bytes :=
  let prefix := fieldFoldPrefix key in
  if (prefix =? length key)%nat then key
  else appendFoldedFieldKey (take prefix key) (drop prefix key).
End Folding.

(** ** Runes *)

Lemma runes_loop_fuel f1 f2 p : (length p <= f1)%nat -> (length p <= f2)%nat -> runes_loop f1 p = runes_loop f2 p.
Proof.
  revert f2 p. induction f1 as [|f1 IH]; intros f2 [|c p] H1 H2; try (simpl in *; lia); destruct f2 as [|f2]; try (simpl in *; lia); try done.
  cbn [runes_loop]. pose proof (DecodeRune_width (c :: p) ltac:(done)). f_equal. apply IH; rewrite length_drop; simpl in *; lia.
Qed.

Lemma runes_step p : p <> [] -> runes p = (DecodeRune p).1 :: runes (drop (DecodeRune p).2 p).
Proof.
  intros Hp. unfold runes at 1. pose proof (DecodeRune_width p Hp). destruct p as [|c p]; [done|]. cbn [length runes_loop]. f_equal.
  apply runes_loop_fuel; [|done]. rewrite length_drop. simpl in *. lia.
Qed.

Lemma runes_encode r t : is_scalar r = true -> runes (encode_rune r ++ t) = r :: runes t.
Proof.
  intros Hr. rewrite runes_step.
  - rewrite DecodeRune_encode by done. cbn [fst snd]. by rewrite drop_app_length.
  - pose proof (encode_rune_nonempty r). by destruct (encode_rune r).
Qed.

Lemma runes_ascii c t : 0 <= c < 128 -> runes (c :: t) = c :: runes t.
Proof.
  intros Hc. rewrite runes_step by done. unfold DecodeRune. by rewrite (proj2 (Z.ltb_lt _ _)) by lia.
Qed.

(** A text no rune of which is special. *)
Definition good_rune (r : Z) : Prop := r <> RuneError /\ is_string_syntax r = false.
Abbreviation plain_name l := (Forall good_rune (runes l)).

Lemma good_runes_plain l : bytes_ok l -> plain_name l -> plain_run l.
Proof.
  remember (length l) as n eqn:En. assert (Hn : (length l <= n)%nat) by lia. clear En. revert l Hn.
  induction n as [|n IH]; intros [|c l] Hn Hl Hg; try (simpl in *; lia); try (split; constructor).
  pose proof (DecodeRune_width (c :: l) ltac:(done)) as Hw. rewrite runes_step in Hg by done.
  destruct (DecodeRune (c :: l)) as [r k] eqn:E. cbn [fst snd] in *. inversion Hg as [|? ? [He Hsyn] Hrest]; subst.
  assert (Hbad : decode_bad (r, k) = false) by (unfold decode_bad; cbn [fst]; by rewrite (proj2 (Z.eqb_neq _ _) He)).
  destruct (DecodeRune_good (c :: l) r k E Hbad ltac:(done)) as (Hr & Hk & t & Ht).
  { intros b Hb. simplify_eq/=. inversion Hl; subst. unfold is_byte in *. lia. }
  assert (Hdrop : drop k (c :: l) = t) by (rewrite Ht, Hk; apply drop_app_length). rewrite Hdrop in *.
  assert (Hlt : (length t <= n)%nat) by (rewrite <- Hdrop, length_drop; simpl in *; lia).
  destruct (IH t Hlt) as [Hu Hs]; [rewrite <- Hdrop; by apply Forall_drop|done|]. rewrite Ht. split; [by constructor|].
  apply Forall_app; split; [|done]. destruct (Z.ltb_spec r 128) as [Ha|Ha].
  - rewrite encode_rune_ascii by done. by repeat constructor.
  - eapply Forall_impl; [by apply encode_rune_high|]. simpl. unfold is_string_syntax. intros b Hb. lia.
Qed.

Lemma DecodeRune_nonneg p : bytes_ok p -> 0 <= (DecodeRune p).1.
Proof.
  intros Hp. destruct p as [|c p]; [done|]. destruct (decode_bad (DecodeRune (c :: p))) eqn:E.
  - unfold decode_bad in E. apply andb_true_iff in E as [->%Z.eqb_eq _]. done.
  - destruct (DecodeRune (c :: p)) as [r k] eqn:Ed. destruct (DecodeRune_good (c :: p) r k Ed E ltac:(done)) as (Hr & _).
    { intros b Hb. simplify_eq/=. inversion Hp; subst. unfold is_byte in *. lia. }
    apply is_scalar_spec in Hr. cbn [fst]. lia.
Qed.

Lemma runes_nonneg p : bytes_ok p -> Forall (fun r => 0 <= r) (runes p).
Proof.
  remember (length p) as n eqn:En. assert (Hn : (length p <= n)%nat) by lia. clear En. revert p Hn.
  induction n as [|n IH]; intros [|c p] Hn Hp; try (simpl in *; lia); try by constructor.
  rewrite runes_step by done. pose proof (DecodeRune_width (c :: p) ltac:(done)) as Hw.
  constructor; [by apply DecodeRune_nonneg|]. apply IH; [rewrite length_drop; simpl in *; lia|by apply Forall_drop].
Qed.

(** ** Folding *)

(** Two bytes equal up to the case of an ASCII letter. *)
Definition letter (c : Z) : bool := lower_ascii (Z.lor c 32).
Definition ascii_fold (x y : Z) : Prop := x = y \/ (letter x = true /\ y = Z.lxor x 32).

Lemma letter_cases c : is_byte c -> letter c = true ->
  ("A"%ch <= c <= "Z"%ch /\ Z.lxor c 32 = c + 32) \/ ("a"%ch <= c <= "z"%ch /\ Z.lxor c 32 = c - 32).
Proof.
  intros Hc Hl. assert (H : forallb (fun n => let c := Z.of_nat n in negb (letter c) ||
    ((("A"%ch <=? c) && (c <=? "Z"%ch) && (Z.lxor c 32 =? c + 32)) || (("a"%ch <=? c) && (c <=? "z"%ch) && (Z.lxor c 32 =? c - 32))))
    (seq 0 256) = true) by (vm_compute; reflexivity).
  rewrite forallb_forall in H. unfold is_byte in Hc. specialize (H (Z.to_nat c)). rewrite in_seq in H. cbv zeta in H.
  rewrite Z2Nat.id in H by lia. rewrite Hl in H. cbn [negb orb] in H. specialize (H ltac:(lia)). lia.
Qed.

Lemma ascii_fold_low x y : is_byte x -> ascii_fold x y -> x = y \/ (x < 128 /\ y < 128).
Proof. intros Hx [->|[Hl ->]]; [by left|right]. destruct (letter_cases x Hx Hl) as [[? ->]|[? ->]]; lia. Qed.

Lemma DecodeRune_fold x a b : bytes_ok a -> 128 <= x -> Forall2 ascii_fold a b -> DecodeRune (x :: a) = DecodeRune (x :: b).
Proof.
  intros Ha Hx Hab. assert (Hlow : forall c b0, c < 128 -> second_ok b0 c = false /\ is_cont c = false).
  { intros c b0 Hc. unfold second_ok, second_lo, is_cont. split; [|lia]. repeat case_match; lia. }
  unfold DecodeRune. destruct (x <? 128); [done|]. destruct Hab as [|a1 b1 a b H1 Hab]; [done|].
  inversion Ha as [|? ? Hb1 Ha']; subst. apply ascii_fold_low in H1 as [->|[L1 M1]]; [| |done].
  2:{ destruct (Hlow a1 x L1) as [-> _], (Hlow b1 x M1) as [-> _]. cbn [andb]. destruct Hab as [|? ? ? ? ? Hab]; [by repeat case_match|].
      destruct Hab; by repeat case_match. }
  destruct (_ && _); [done|]. destruct Hab as [|a2 b2 a b H2 Hab]; [done|]. inversion Ha' as [|? ? Hb2 Ha2]; subst.
  apply ascii_fold_low in H2 as [->|[L2 M2]]; [| |done].
  2:{ destruct (Hlow a2 x L2) as [_ ->], (Hlow b2 x M2) as [_ ->]. rewrite !andb_false_r. cbn [andb]. destruct Hab; by repeat case_match. }
  destruct (_ && _); [done|]. destruct Hab as [|a3 b3 a b H3 Hab]; [done|]. inversion Ha2 as [|? ? Hb3 Ha3]; subst.
  apply ascii_fold_low in H3 as [->|[L3 M3]]; [done| |done].
  destruct (Hlow a3 x L3) as [_ ->], (Hlow b3 x M3) as [_ ->]. by rewrite !andb_false_r.
Qed.

Section FoldLaws.
Context `{FoldingLaws}.

Lemma least_fold_letter x y : is_byte x -> ascii_fold x y -> least_fold x = least_fold y.
Proof using All.
  intros Hx [->|[Hl ->]]; [done|].
  destruct (letter_cases x Hx Hl) as [[Hr ->]|[Hr ->]]; rewrite !least_fold_ascii by lia; unfold lower_ascii; repeat case_match; lia.
Qed.

Lemma fold_runes_ascii a b : bytes_ok a -> Forall2 ascii_fold a b -> map least_fold (runes a) = map least_fold (runes b).
Proof using All.
  remember (length a) as n eqn:En. assert (Hn : (length a <= n)%nat) by lia. clear En. revert a b Hn.
  induction n as [|n IH]; intros a b Hn Ha Hab; (destruct Hab as [|x y a b Hxy Hab]; [done|]); [simpl in Hn; lia|].
  inversion Ha as [|? ? Hx Ha']; subst. destruct (Z.ltb_spec x 128) as [Hlt|Hge].
  - assert (0 <= y < 128).
    { destruct Hxy as [->|[Hl ->]]; [unfold is_byte in *; lia|]. destruct (letter_cases x Hx Hl) as [[? ->]|[? ->]]; lia. }
    unfold is_byte in Hx. rewrite !runes_ascii by lia. cbn [map]. f_equal; [by apply least_fold_letter|]. apply IH; [simpl in Hn; lia|done..].
  - assert (y = x) as -> by (destruct (ascii_fold_low _ _ Hx Hxy); lia).
    rewrite (runes_step (x :: a)), (runes_step (x :: b)) by done. rewrite <- (DecodeRune_fold x a b) by done.
    pose proof (DecodeRune_width (x :: a) ltac:(done)). cbn [map]. f_equal. apply IH.
    + rewrite length_drop. simpl in *. lia.
    + by apply Forall_drop.
    + apply Forall2_drop. by constructor.
Qed.

Lemma EqualFold_ascii a b : bytes_ok a -> Forall2 ascii_fold a b -> EqualFold a b = true.
Proof using All. intros. unfold EqualFold. by apply bool_decide_eq_true_2, fold_runes_ascii. Qed.

Lemma fold_good r r' : 0 <= r -> 0 <= r' -> least_fold r = least_fold r' -> good_rune r -> good_rune r'.
Proof using All.
  intros Hr Hr' E [Hg1 Hg2]. split.
  - intros ->. by apply Hg1, least_fold_error.
  - destruct (is_string_syntax r') eqn:Hs; [|done]. exfalso. unfold is_string_syntax in *.
    rewrite (least_fold_ascii r') in E by lia. rewrite if_false in E by (unfold lower_ascii; lia).
    destruct (Z.ltb_spec r 128) as [Hlt|Hge].
    + rewrite least_fold_ascii in E by lia. unfold lower_ascii in E. case_match; lia.
    + assert (Hlow : least_fold r < 128) by lia. pose proof (least_fold_high r Hge Hlow) as Hu. unfold upper_ascii in Hu. lia.
Qed.

(** What folds to a plain name is a plain text. *)
Lemma EqualFold_plain name key : bytes_ok name -> bytes_ok key -> plain_name name -> EqualFold name key = true -> plain_run key.
Proof using All.
  intros Hn Hk Hp E. unfold EqualFold in E. apply bool_decide_eq_true_1 in E. apply good_runes_plain; [done|].
  pose proof (runes_nonneg _ Hn) as H1. pose proof (runes_nonneg _ Hk) as H2. revert E H1 H2 Hp. generalize (runes name) (runes key).
  clear -H0. intros l1 l2. revert l1. induction l2 as [|r2 l2 IH]; intros [|r1 l1] E H1 H2 Hp; try done; try by constructor.
  cbn [map] in E. injection E as E1 E2. apply Forall_cons in H1 as [], H2 as [], Hp as []. constructor; [by apply (fold_good r1)|by apply (IH l1)].
Qed.

(** *** The folded spelling of a name *)

Lemma DecodeRune_scalar p : bytes_ok p -> p <> [] -> is_scalar (DecodeRune p).1 = true.
Proof using.
  intros Hp Hne. destruct (DecodeRune p) as [r k] eqn:E. destruct (decode_bad (r, k)) eqn:Eb.
  - unfold decode_bad in Eb. apply andb_true_iff in Eb as [Hr%Z.eqb_eq _]. cbn [fst] in *. by subst.
  - destruct (DecodeRune_good p r k E Eb Hne) as (Hr & _); [|done]. intros c Hc. destruct p; simplify_eq/=.
    inversion Hp; subst. unfold is_byte in *. lia.
Qed.

Lemma runes_scalar p : bytes_ok p -> Forall (fun r => is_scalar r = true) (runes p).
Proof using.
  remember (length p) as n eqn:En. assert (Hn : (length p <= n)%nat) by lia. clear En. revert p Hn.
  induction n as [|n IH]; intros [|c p] Hn Hp; try (simpl in *; lia); try by constructor.
  rewrite runes_step by done. pose proof (DecodeRune_width (c :: p) ltac:(done)) as Hw.
  constructor; [by apply DecodeRune_scalar|]. apply IH; [rewrite length_drop; simpl in *; lia|by apply Forall_drop].
Qed.

Lemma least_fold_not_lower r : 0 <= r -> lower_ascii (least_fold r) = false.
Proof using All.
  intros Hr. destruct (lower_ascii (least_fold r)) eqn:E; [|done]. exfalso. unfold lower_ascii in E. destruct (Z.ltb_spec r 128).
  - rewrite least_fold_ascii in E by lia. unfold lower_ascii in E. repeat case_match; lia.
  - assert (Hlow : least_fold r < 128) by lia. pose proof (least_fold_high r ltac:(lia) Hlow) as Hu. unfold upper_ascii in Hu. lia.
Qed.

Lemma folded_rune_eq r r' : 0 <= r -> 0 <= r' -> folded_rune r = folded_rune r' <-> least_fold r = least_fold r'.
Proof using All.
  intros Hr Hr'. unfold folded_rune. split; [|by intros ->]. pose proof (least_fold_not_lower r Hr) as H1.
  pose proof (least_fold_not_lower r' Hr') as H2. unfold lower_ascii, upper_ascii in *. repeat case_match; lia.
Qed.

Lemma folded_rune_scalar r : is_scalar r = true -> is_scalar (folded_rune r) = true.
Proof using All.
  intros Hr%least_fold_scalar. unfold folded_rune. destruct (upper_ascii (least_fold r)) eqn:E; [|done].
  unfold upper_ascii in E. apply is_scalar_spec. lia.
Qed.

Lemma folded_rune_ascii c : 0 <= c < 128 -> folded_rune c = if upper_ascii c then c + 32 else c.
Proof using All.
  intros Hc. unfold folded_rune. rewrite least_fold_ascii by done. unfold lower_ascii, upper_ascii. repeat case_match; lia.
Qed.

Definition folded_text (l : list Z) : bytes := concat (map (fun r => EncodeRune (folded_rune r)) l).

Lemma folded_ascii c : 0 <= c < 128 -> EncodeRune (folded_rune c) = [if upper_ascii c then c + 32 else c].
Proof using All.
  intros Hc. rewrite folded_rune_ascii by done. unfold EncodeRune. rewrite if_true.
  - apply encode_rune_ascii. unfold upper_ascii. case_match; lia.
  - apply is_scalar_spec. unfold upper_ascii. case_match; lia.
Qed.

Lemma append_folded_ref fuel dst key i : bytes_ok key -> (length key - i < fuel)%nat ->
  appendFoldedFieldKey_loop fuel dst key i = dst ++ folded_text (runes (drop i key)).
Proof using All.
  intros Hk. revert dst i. induction fuel as [|fuel IH]; intros dst i Hf; [lia|]. cbn [appendFoldedFieldKey_loop].
  destruct (key !! i) as [c|] eqn:E.
  - assert (Hc : is_byte c) by exact (Forall_lookup_1 _ _ _ _ Hk E). unfold is_byte in Hc. apply lookup_lt_Some in E as Hlt.
    destruct (Z.ltb_spec c 128).
    + rewrite IH by lia. rewrite (drop_S _ _ _ E), runes_ascii by lia. unfold folded_text. cbn [map concat].
      rewrite folded_ascii by lia. by rewrite <- app_assoc.
    + assert (Hne : drop i key <> []) by (rewrite (drop_S _ _ _ E); done). rewrite runes_step by done.
      pose proof (DecodeRune_width _ Hne) as Hw. destruct (DecodeRune (drop i key)) as [r k]. cbn [fst snd] in *.
      rewrite IH by lia. rewrite drop_drop. unfold folded_text, AppendRune. cbn [map concat]. by rewrite <- app_assoc.
  - apply lookup_ge_None in E. rewrite drop_ge by done. unfold folded_text. by rewrite app_nil_r.
Qed.

Lemma fold_prefix_ref fuel key i : (i <= length key)%nat -> Forall (fun c => 0 <= c < 128 /\ upper_ascii c = false) (take i key) -> bytes_ok key ->
  (fieldFoldPrefix_loop fuel key i <= length key)%nat /\
  Forall (fun c => 0 <= c < 128 /\ upper_ascii c = false) (take (fieldFoldPrefix_loop fuel key i) key).
Proof using.
  revert i. induction fuel as [|fuel IH]; intros i Hi Hp Hk; [done|]. cbn [fieldFoldPrefix_loop].
  destruct (key !! i) as [c|] eqn:E.
  - destruct (_ || _) eqn:Ec; [done|]. apply lookup_lt_Some in E as Hlt. apply IH; [lia| |done].
    rewrite (take_S_r _ _ _ E). apply Forall_app; split; [done|]. constructor; [|done].
    assert (Hc : is_byte c) by exact (Forall_lookup_1 _ _ _ _ Hk E). unfold is_byte in Hc. apply orb_false_iff in Ec as [-> ?]. split; [lia|done].
  - apply lookup_ge_None in E. assert (i = length key) by lia. subst. done.
Qed.

Lemma folded_text_plain l t : Forall (fun c => 0 <= c < 128 /\ upper_ascii c = false) l -> folded_text (runes (l ++ t)) = l ++ folded_text (runes t).
Proof using All.
  induction 1 as [|c l [Hc Hu] Hl IH]; [done|]. cbn [app]. rewrite runes_ascii by done. unfold folded_text in *. cbn [map concat].
  rewrite IH, folded_ascii, Hu by done. done.
Qed.

Lemma foldFieldKey_ref key : bytes_ok key -> foldFieldKey key = folded_text (runes key).
Proof using All.
  intros Hk. unfold foldFieldKey. destruct (fold_prefix_ref (S (length key)) key 0 ltac:(lia) ltac:(constructor) Hk) as [Hle Hp].
  fold (fieldFoldPrefix key) in *. set (p := fieldFoldPrefix key) in *. destruct (Nat.eqb_spec p (length key)) as [E|].
  - rewrite E, firstn_all in Hp. rewrite <- (app_nil_r key) at 2. rewrite folded_text_plain by done. unfold folded_text. by rewrite app_nil_r.
  - unfold appendFoldedFieldKey. rewrite append_folded_ref by (first [by apply Forall_drop|lia]). rewrite drop_0.
    by rewrite <- folded_text_plain, take_drop by done.
Qed.

Lemma runes_folded_text l : Forall (fun r => is_scalar r = true) l -> runes (folded_text l) = map folded_rune l.
Proof using All.
  induction 1 as [|r l Hr Hl IH]; [done|]. unfold folded_text in *. cbn [map concat]. unfold EncodeRune at 1.
  rewrite if_true by (by apply folded_rune_scalar). rewrite runes_encode by (by apply folded_rune_scalar). by rewrite IH.
Qed.

(** The canonical spelling decides the fold comparison. *)
Lemma foldFieldKey_EqualFold a b : bytes_ok a -> bytes_ok b -> EqualFold a b = bool_decide (foldFieldKey a = foldFieldKey b).
Proof using All.
  intros Ha Hb. unfold EqualFold. apply bool_decide_ext. rewrite !foldFieldKey_ref by done.
  pose proof (runes_scalar a Ha) as Sa. pose proof (runes_scalar b Hb) as Sb.
  pose proof (runes_nonneg a Ha) as Na. pose proof (runes_nonneg b Hb) as Nb.
  assert (Hmap : map least_fold (runes a) = map least_fold (runes b) <-> map folded_rune (runes a) = map folded_rune (runes b)).
  { revert Na Nb. generalize (runes a) (runes b). intros l1. clear Sa Sb. induction l1 as [|r1 l1 IH]; intros [|r2 l2] N1 N2; try done.
    apply Forall_cons in N1 as [], N2 as []. cbn [map]. pose proof (folded_rune_eq r1 r2 ltac:(done) ltac:(done)) as Hr.
    specialize (IH l2 ltac:(done) ltac:(done)). split; intros [= E1 E2]; f_equal; tauto. }
  rewrite Hmap. split.
  - intros E. unfold folded_text. rewrite <- !(map_map folded_rune EncodeRune). by rewrite E.
  - intros E%(f_equal runes). by rewrite !runes_folded_text in E.
Qed.
End FoldLaws.

(** The part of the table the ASCII letters are in: with the other case of each, and
    with the long s and the Kelvin sign. *)
Definition ascii_folding : CaseFolding := fun r =>
  if lower_ascii r then r - 32 else if r =? 0x17F then "S"%ch else if r =? 0x212A then "K"%ch else r.

Lemma ascii_folding_laws : @FoldingLaws ascii_folding.
Proof.
  split; unfold least_fold, ascii_folding.
  - intros r Hr. destruct (lower_ascii r); [done|]. rewrite !(proj2 (Z.eqb_neq _ _)) by lia. done.
  - intros r Hr. unfold lower_ascii, upper_ascii. case_match; [lia|]. do 2 (case_match; [done|]). lia.
  - intros r E. assert (E2 : ascii_folding r = RuneError) by exact E. clear E. unfold ascii_folding, lower_ascii, RuneError in *.
    case_match; [lia|]. case_match; [lia|]. case_match; [lia|done].
  - intros r. unfold lower_ascii. case_match; [unfold is_scalar, is_surrogate, MaxRune; lia|]. case_match; [done|]. by case_match.
Qed.
