(* ===== verification/OpenAddr.v ===== *)
(** Open addressing: the places a hash probes in a table of [2 ^ bits] slots, and how
    many slots of a table are taken.  Shared by the field table of a record plan
    and the object probe. *)

From S2P Require Import Prelude Words.

Section Places.
Context (bits : Z).
Hypothesis Hbits : 0 <= bits <= 31.
Abbreviation cap := (Z.to_nat (2 ^ bits)).
Abbreviation mask := (2 ^ bits - 1).

Definition home (hash : Z) : nat := Z.to_nat (hash mod 2 ^ bits).
(** The place [d] steps after the home of [hash]. *)
Definition place (hash : Z) (d : nat) : nat := ((home hash + d) mod cap)%nat.

Lemma cap_pos : (0 < cap)%nat /\ 2 ^ bits <= 2 ^ 31.
Proof using Hbits. split; [|by apply Z.pow_le_mono_r; lia]. assert (0 < 2 ^ bits) by (apply Z.pow_pos_nonneg; lia). lia. Qed.

Lemma place_lt hash d : (place hash d < cap)%nat.
Proof using Hbits. apply Nat.mod_upper_bound. pose proof cap_pos. lia. Qed.

Lemma place_0 hash : Z.land hash mask = Z.of_nat (place hash 0).
Proof using Hbits.
  replace mask with (Z.ones bits) by (rewrite Z.ones_equiv; lia). rewrite Z.land_ones by lia. pose proof cap_pos.
  unfold place, home. pose proof (Z.mod_pos_bound hash (2 ^ bits) ltac:(lia)). rewrite Nat.add_0_r, Nat.mod_small by lia. lia.
Qed.

Lemma place_S hash d : Z.land (w32 (Z.of_nat (place hash d) + 1)) mask = Z.of_nat (place hash (S d)).
Proof using Hbits.
  pose proof cap_pos as [Hc Hb]. pose proof (place_lt hash d) as Hl. unfold w32. rewrite Z.mod_small by lia.
  replace mask with (Z.ones bits) by (rewrite Z.ones_equiv; lia). rewrite Z.land_ones by lia.
  unfold place at 2. rewrite Nat.add_succ_r, <- Nat.add_1_r, <- Nat.Div0.add_mod_idemp_l. fold (place hash d).
  rewrite Nat2Z.inj_mod, Z2Nat.id by lia. f_equal. lia.
Qed.

(** Every place is some distance from a home. *)
Lemma place_to hash p : (p < cap)%nat -> exists d, (d < cap)%nat /\ place hash d = p.
Proof using Hbits.
  intros Hp. pose proof cap_pos as [Hc Hb]. pose proof (Z.mod_pos_bound hash (2 ^ bits) ltac:(lia)).
  assert (Hh : (home hash < cap)%nat) by (unfold home; lia). unfold place.
  destruct (Nat.le_gt_cases (home hash) p) as [Hle|Hgt].
  - exists (p - home hash)%nat. split; [lia|]. replace (home hash + (p - home hash))%nat with p by lia. by apply Nat.mod_small.
  - exists (cap - home hash + p)%nat. split; [lia|]. symmetry. apply (Nat.mod_unique _ _ 1); lia.
Qed.
End Places.

(** ** The load of a table *)

Section Load.
Context {A : Type} (occupied : A -> bool).
Implicit Types (table : list A).

Definition table_load table : nat := list_sum (map (fun s => if occupied s then 1 else 0)%nat table).

Lemma load_insert table p s x :
  table !! p = Some s ->
  (table_load (<[p := x]> table) + (if occupied s then 1 else 0) = table_load table + (if occupied x then 1 else 0))%nat.
Proof using.
  revert p. unfold table_load, list_sum. induction table as [|y table IH]; intros p Hp; [done|]. destruct p as [|p].
  - injection Hp as ->. change (<[0%nat := x]> (s :: table)) with (x :: table). cbn [map foldr]. lia.
  - specialize (IH p Hp). change (<[S p := x]> (y :: table)) with (y :: <[p := x]> table). cbn [map foldr]. lia.
Qed.

Lemma load_empty n x : occupied x = false -> table_load (replicate n x) = 0%nat.
Proof using. intros Hx. unfold table_load, list_sum. induction n as [|n IH]; [done|]. cbn [replicate map foldr]. by rewrite Hx, IH. Qed.

Lemma load_room table : (table_load table < length table)%nat -> exists p s, table !! p = Some s /\ occupied s = false.
Proof using.
  unfold table_load, list_sum. induction table as [|y table IH]; intros H; [simpl in H; lia|]. destruct (occupied y) eqn:E.
  - cbn [map foldr length] in H. rewrite E in H. destruct IH as (p & s & Hp & Hs); [lia|]. by exists (S p), s.
  - by exists 0%nat, y.
Qed.
End Load.
