(* ===== verification/FieldTable.v ===== *)
(** Member names of compiled records: the packed key words and the lookup table of
    [typed_compile.go] and [typed.go], and the field sets of
    [typed_hook_api_fields.go]. *)

From S2P Require Import Prelude Words Utf8 Scanner Lex Grammar StringRef Numbers Reader FastValid ParserString OpenAddr FieldFold.
From stdpp Require Import gmap.
Open Scope Z_scope.

(** ** Packed keys *)

(** One struct member of a decode plan.  [tf_node] and [tf_slot] stand for its
    node and its offset, [tf_hop] for the index of its embedded-pointer path. *)
Record typedField : Type := mkField {
  tf_name : bytes;
  tf_slot : nat;
  tf_node : nat;
  tf_seen : Z;
  tf_key : Z;
  tf_keyMask : Z;
  tf_keyFold : Z;
  tf_pos : nat;
  tf_hop : option nat;
  tf_keyLen : Z
  }.

Definition set_keyFold (f : typedField) (fold : Z) : typedField :=
  mkField (tf_name f) (tf_slot f) (tf_node f) (tf_seen f) (tf_key f) (tf_keyMask f) fold (tf_pos f) (tf_hop f) (tf_keyLen f).

(** The loop over the first bytes of a name. *)
Fixpoint pack_bytes (chars : bytes) (byteIndex : Z) (key fold : Z) : Z * Z :=
  match chars with
  | [] => (key, fold)
  | char :: chars =>
      let key := Z.lor key (w64 (Z.shiftl char (byteIndex * 8))) in
      let lower := Z.lor char 0x20 in
      let fold := if ("a"%ch <=? lower) && (lower <=? "z"%ch) then Z.lor fold (w64 (Z.shiftl 0x20 (byteIndex * 8))) else fold in
      pack_bytes chars (byteIndex + 1) key fold
  end.

(** Key, mask, fold bits and length. *)
Definition pack_key (name : bytes) : Z * Z * Z * Z :=
  let n := Z.of_nat (length name) in
  if n <=? 7 then
    let (key, fold) := pack_bytes name 0 0 0 in
    let key := Z.lor key (w64 (Z.shiftl DQUOTE (n * 8))) in
    if n <=? 6 then (Z.lor key (w64 (Z.shiftl ":"%ch ((n + 1) * 8))), Z.shiftr (2 ^ 64 - 1) ((6 - n) * 8), fold, n)
    else (key, 2 ^ 64 - 1, fold, n)
  else if n <=? 255 then
    let (key, fold) := pack_bytes (take 8 name) 0 0 0 in
    (key, 2 ^ 64 - 1, fold, n)
  else (0, 0, 0, 0).

(** A field before its key is packed: what the field resolution gives. *)
Record resolvedField : Type := mkResolved { rf_name : bytes; rf_slot : nat; rf_node : nat; rf_hop : option nat }.

Definition compile_field (fieldIndex : nat) (r : resolvedField) : typedField :=
  let seen := if (fieldIndex <? 64)%nat then Z.shiftl 1 (Z.of_nat fieldIndex) else 0 in
  let '(key, mask, fold, len) := pack_key (rf_name r) in
  mkField (rf_name r) (rf_slot r) (rf_node r) seen key mask fold fieldIndex (rf_hop r) len.

(** ** Ambiguous names *)

Section Compile.
Context `{CaseFolding}.

Definition zero_fold (fields : list typedField) (i : nat) : list typedField :=
  alter (fun f => set_keyFold f 0) i fields.

(** The inner loop over [j < i] of the short form. *)
Fixpoint ambiguous_below (fields : list typedField) (i : nat) (n : nat) (j : nat) : list typedField :=
  match n with
  | O => fields
  | S n =>
      let fields :=
        match fields !! i, fields !! j with
        | Some f, Some g => if EqualFold (tf_name f) (tf_name g) then zero_fold (zero_fold fields i) j else fields
        | _, _ => fields
        end in
      ambiguous_below fields i n (S j)
  end.

Fixpoint ambiguous_short (fields : list typedField) (n : nat) (i : nat) : list typedField :=
  match n with
  | O => fields
  | S n => ambiguous_short (ambiguous_below fields i i 0) n (S i)
  end.

Fixpoint ambiguous_map (fields : list typedField) (first : gmap bytes nat) (n : nat) (i : nat) : list typedField :=
  match n with
  | O => fields
  | S n =>
      match fields !! i with
      | None => fields
      | Some f =>
          let key := foldFieldKey (tf_name f) in
          match first !! key with
          | Some j => ambiguous_map (zero_fold (zero_fold fields i) j) first n (S i)
          | None => ambiguous_map fields (<[key := i]> first) n (S i)
          end
      end
  end.

Definition disableAmbiguousFieldFolds (fields : list typedField) : list typedField :=
  if (length fields <=? 8)%nat then ambiguous_short fields (length fields) 0
  else ambiguous_map fields ∅ (length fields) 0.
End Compile.

(** ** The lookup table *)

Fixpoint hash_name_words (fuel : nat) (name : bytes) (h : Z) : bytes * Z :=
  match fuel with
  | O => (name, h)
  | S fuel =>
      if (8 <=? length name)%nat then
        let h := Z.lxor h (load64 name 0) in
        hash_name_words fuel (drop 8 name) (w64 (h * 0xbf58476d1ce4e5b9))
      else (name, h)
  end.

Fixpoint tail_word (name : bytes) (i : Z) (tail : Z) : Z :=
  match name with
  | [] => tail
  | c :: name => tail_word name (i + 1) (Z.lor tail (w64 (Z.shiftl c (8 * i))))
  end.

Definition fieldNameHash (name : bytes) : Z :=
  let h := w64 (Z.of_nat (length name) * 0x9e3779b97f4a7c15) in
  let (name, h) := hash_name_words (S (length name)) name h in
  let h := Z.lxor h (tail_word name 0 0) in
  let h := Z.lxor h (Z.shiftr h 30) in
  let h := w64 (h * 0xbf58476d1ce4e5b9) in
  let h := Z.lxor h (Z.shiftr h 27) in
  w32 (Z.lxor h (Z.shiftr h 32)).

Fixpoint table_size (fuel : nat) (n tableSize : Z) : Z :=
  match fuel with
  | O => tableSize
  | S fuel => if tableSize <? n * 2 then table_size fuel n (tableSize * 2) else tableSize
  end.

(** The free slot an insertion probes to: an index outside the table is a panic. *)
Fixpoint free_slot (fuel : nat) (table : list Z) (mask slot : Z) : res unit Z :=
  match fuel with
  | O => NoFuel
  | S fuel =>
      match table !! Z.to_nat slot with
      | None => Panic
      | Some entry => if entry =? 0 then Ok slot else free_slot fuel table mask (Z.land (w32 (slot + 1)) mask)
      end
  end.

Fixpoint fill_table (fields : list typedField) (table : list Z) (mask : Z) (i : Z) : res unit (list Z) :=
  match fields with
  | [] => Ok table
  | f :: fields =>
      let* slot := free_slot (S (length table)) table mask (Z.land (fieldNameHash (tf_name f)) mask) in
      fill_table fields (<[Z.to_nat slot := w32 (i + 1)]> table) mask (i + 1)
  end.

(** The table of a record of eight fields or more, and its mask. *)
Definition build_table (fields : list typedField) : res unit (option (list Z) * Z) :=
  let n := Z.of_nat (length fields) in
  if n <? 8 then Ok (None, 0)
  else
    let tableSize := table_size 64 n 16 in
    let mask := tableSize - 1 in
    let* table := fill_table fields (replicate (Z.to_nat tableSize) 0) mask 0 in
    Ok (Some table, mask).

Section Find.
Context `{CaseFolding}.

Definition findFieldFold (fields : list typedField) (key : bytes) : option typedField :=
  List.find (fun f => EqualFold (tf_name f) key) fields.

Definition find_exact (fields : list typedField) (key : bytes) : option typedField :=
  List.find (fun f => bool_decide (tf_name f = key)) fields.

Fixpoint probe_table (fuel : nat) (fields : list typedField) (table : list Z) (mask : Z) (key : bytes) (slot : Z) :
  res unit (option typedField) :=
  match fuel with
  | O => NoFuel
  | S fuel =>
      match table !! Z.to_nat slot with
      | None => Panic
      | Some entry =>
          if entry =? 0 then Ok None
          else
            match fields !! Z.to_nat (entry - 1) with
            | None => Panic
            | Some field =>
                if bool_decide (tf_name field = key) then Ok (Some field)
                else probe_table fuel fields table mask key (Z.land (w32 (slot + 1)) mask)
            end
      end
  end.

Definition findFieldSlow (fields : list typedField) (fieldTable : option (list Z)) (fieldTableMask : Z) (key : bytes)
  (fold : bool) : res unit (option typedField) :=
  let* exact :=
    match fieldTable with
    | Some table => probe_table (S (length table)) fields table fieldTableMask key (Z.land (fieldNameHash key) fieldTableMask)
    | None => Ok (find_exact fields key)
    end in
  match exact with
  | Some field => Ok (Some field)
  | None => Ok (if fold then findFieldFold fields key else None)
  end.

(** The field a name selects: an exact match first, then a folded one. *)
Definition choose (fields : list typedField) (fold : bool) (key : bytes) : option typedField :=
  match find_exact fields key with
  | Some field => Some field
  | None => if fold then findFieldFold fields key else None
  end.
End Find.

(** ** Packed words *)

Definition fold_bit (c : Z) : Z := if letter c then 32 else 0.

Lemma le_word_snoc l c : bytes_ok l -> is_byte c -> (length l < 8)%nat ->
  Z.lor (le_word l) (w64 (Z.shiftl c (Z.of_nat (length l) * 8))) = le_word (l ++ [c]).
Proof.
  intros Hl Hc Hn. pose proof (le_word_bound l Hl) as Hb. set (n := Z.of_nat (length l)) in *.
  rewrite le_word_app. cbn [le_word]. fold n. assert (Hw : w64 (Z.shiftl c (n * 8)) = Z.shiftl c (n * 8)).
  { unfold w64, is_byte in *. apply Z.mod_small. rewrite Z.shiftl_mul_pow2 by lia. split; [lia|].
    assert (Hp : 2 ^ (n * 8) * 2 ^ 8 <= 2 ^ 64) by (rewrite <- Z.pow_add_r by lia; apply Z.pow_le_mono_r; lia).
    assert (0 < 2 ^ (n * 8)) by lia. nia. }
  rewrite Hw, Z.lor_comm, lor_shiftl_add by (replace (n * 8) with (8 * n) by lia; lia). replace (n * 8) with (8 * n) by lia. lia.
Qed.

Lemma fold_bit_byte c : is_byte (fold_bit c).
Proof. unfold fold_bit, is_byte. case_match; lia. Qed.

Lemma le_word_nil_end l : le_word (l ++ [0]) = le_word l.
Proof. rewrite le_word_app. cbn [le_word]. lia. Qed.

Lemma pack_bytes_ref chars done : bytes_ok (done ++ chars) -> (length (done ++ chars) <= 8)%nat ->
  pack_bytes chars (Z.of_nat (length done)) (le_word done) (le_word (map fold_bit done)) =
  (le_word (done ++ chars), le_word (map fold_bit (done ++ chars))).
Proof.
  revert done. induction chars as [|c chars IH]; intros done Hb Hn; [by rewrite app_nil_r|]. cbn [pack_bytes].
  rewrite length_app in Hn. cbn [length] in Hn. apply Forall_app in Hb as [Hd [Hc Hcs]%Forall_cons].
  rewrite le_word_snoc by (done || lia). fold (lower_ascii (Z.lor c 32)). fold (letter c).
  assert (Hf : (if letter c then Z.lor (le_word (map fold_bit done)) (w64 (Z.shiftl 32 (Z.of_nat (length done) * 8)))
                else le_word (map fold_bit done)) = le_word (map fold_bit (done ++ [c]))).
  { rewrite map_app. cbn [map]. unfold fold_bit at 4. destruct (letter c); [|by rewrite le_word_nil_end].
    rewrite <- le_word_snoc; [by rewrite length_map| |done|by rewrite length_map; lia].
    apply Forall_map, Forall_true. apply fold_bit_byte. }
  rewrite Hf. replace (Z.of_nat (length done) + 1) with (Z.of_nat (length (done ++ [c]))) by (rewrite length_app; cbn [length]; lia).
  rewrite IH; rewrite <- ?app_assoc; cbn [app]; [done| |].
  - by apply Forall_app; split; [|constructor].
  - rewrite length_app. cbn [length]. lia.
Qed.

(** The bytes the key word of a name stands for. *)
Definition key_bytes (name : bytes) : bytes :=
  if (length name <=? 6)%nat then name ++ [DQUOTE; ":"%ch] else if (length name <=? 7)%nat then name ++ [DQUOTE] else take 8 name.

Lemma key_bytes_length name : (2 <= length (key_bytes name) <= 8)%nat.
Proof.
  unfold key_bytes. destruct (Nat.leb_spec (length name) 6); [|destruct (Nat.leb_spec (length name) 7)];
    rewrite ?length_app, ?length_take; cbn [length]; lia.
Qed.

Lemma key_bytes_ok name : bytes_ok name -> bytes_ok (key_bytes name).
Proof.
  intros Hn. unfold key_bytes. repeat case_match; try (apply Forall_app; split; [done|repeat constructor; done]). by apply Forall_take.
Qed.

Lemma pack_key_ref name : bytes_ok name ->
  pack_key name =
  if (length name <=? 255)%nat
  then (le_word (key_bytes name), 2 ^ (8 * Z.of_nat (length (key_bytes name))) - 1, le_word (map fold_bit (take 8 name)), Z.of_nat (length name))
  else (0, 0, 0, 0).
Proof.
  intros Hn. unfold pack_key, key_bytes.
  assert (Hp : forall l, bytes_ok l -> (length l <= 8)%nat -> pack_bytes l 0 0 0 = (le_word l, le_word (map fold_bit l)))
    by (intros l Hl Hlen; by apply (pack_bytes_ref l [])).
  destruct (Z.leb_spec (Z.of_nat (length name)) 7) as [H7|H7].
  - rewrite (proj2 (Nat.leb_le (length name) 255)) by lia. rewrite Hp by (done || lia).
    rewrite (le_word_snoc name DQUOTE) by (done || lia). rewrite take_ge by lia.
    destruct (Z.leb_spec (Z.of_nat (length name)) 6) as [H6|H6].
    + rewrite (proj2 (Nat.leb_le _ 6)) by lia. replace (Z.of_nat (length name) + 1) with (Z.of_nat (length (name ++ [DQUOTE])))
        by (rewrite length_app; cbn [length]; lia).
      rewrite le_word_snoc by (try (apply Forall_app; split); try done; try (by repeat constructor); rewrite length_app; cbn [length]; lia).
      rewrite <- app_assoc. cbn [app]. repeat f_equal. rewrite length_app. cbn [length].
      assert (Hc : forallb (fun n => Z.shiftr (2 ^ 64 - 1) ((6 - Z.of_nat n) * 8) =? 2 ^ (8 * Z.of_nat (n + 2)) - 1) (seq 0 7) = true) by reflexivity.
      rewrite forallb_forall in Hc. apply Z.eqb_eq, Hc, in_seq. lia.
    + rewrite (proj2 (Nat.leb_gt _ 6)), (proj2 (Nat.leb_le _ 7)) by lia. assert (Hl : length name = 7%nat) by lia.
      rewrite length_app, Hl. done.
  - destruct (Z.leb_spec (Z.of_nat (length name)) 255).
    + rewrite (proj2 (Nat.leb_le _ 255)), (proj2 (Nat.leb_gt _ 6)), (proj2 (Nat.leb_gt _ 7)) by lia.
      rewrite Hp by (first [by apply Forall_take|rewrite length_take; lia]). rewrite length_take, Nat.min_l by lia. done.
    + by rewrite (proj2 (Nat.leb_gt _ 255)) by lia.
Qed.

Lemma le_word_mod l m : bytes_ok l -> (m <= length l)%nat -> le_word l mod 2 ^ (8 * Z.of_nat m) = le_word (take m l).
Proof.
  intros Hl Hm. rewrite <- (take_drop m l) at 1. rewrite le_word_app, length_take, Nat.min_l by done.
  pose proof (le_word_bound (take m l) ltac:(by apply Forall_take)) as Hb. rewrite length_take, Nat.min_l in Hb by done.
  rewrite Z.mul_comm, Z_mod_plus_full. by apply Z.mod_small.
Qed.

(** The masked difference of a word and a key. *)
Lemma masked_diff w k : bytes_ok w -> bytes_ok k -> (length k <= length w)%nat ->
  Z.land (Z.lxor (le_word w) (le_word k)) (2 ^ (8 * Z.of_nat (length k)) - 1) = Z.lxor (le_word (take (length k) w)) (le_word k).
Proof.
  intros Hw Hk Hlen. replace (2 ^ _ - 1) with (Z.ones (8 * Z.of_nat (length k))) by (rewrite Z.ones_equiv; lia).
  rewrite Z.land_comm. rewrite <- le_word_mod by done. pose proof (le_word_bound k Hk) as Hb.
  rewrite <- (Z.mod_small (le_word k) (2 ^ (8 * Z.of_nat (length k)))) at 2 by done. rewrite <- !Z.land_ones by lia.
  apply Z.bits_inj. intros i. rewrite ?Z.land_spec, ?Z.lxor_spec, ?Z.land_spec. by destruct (Z.testbit (le_word w) i), (Z.testbit (le_word k) i), (Z.testbit (Z.ones _) i).
Qed.

Lemma masked_exact w k : bytes_ok w -> bytes_ok k -> (length k <= length w)%nat ->
  Z.land (Z.lxor (le_word w) (le_word k)) (2 ^ (8 * Z.of_nat (length k)) - 1) = 0 -> take (length k) w = k.
Proof.
  intros Hw Hk Hlen. rewrite masked_diff by done. intros E%Z.lxor_eq. apply le_word_inj; [by apply Forall_take|done| |done].
  rewrite length_take. lia.
Qed.

(** A difference within the fold bits. *)
Lemma masked_folded w k f i a b : bytes_ok w -> bytes_ok k -> bytes_ok f -> (length k <= length w)%nat ->
  Z.ldiff (Z.land (Z.lxor (le_word w) (le_word k)) (2 ^ (8 * Z.of_nat (length k)) - 1)) (le_word f) = 0 ->
  k !! i = Some a -> w !! i = Some b -> Z.ldiff (Z.lxor b a) (default 0 (f !! i)) = 0.
Proof.
  intros Hw Hk Hf Hlen. rewrite masked_diff by done. intros E Ha Hb. apply lookup_lt_Some in Ha as Hi.
  apply Z.bits_inj_0. intros j. destruct (Z.ltb_spec j 0); [by apply Z.testbit_neg_r|].
  rewrite Z.ldiff_spec, Z.lxor_spec. assert (is_byte a) by exact (Forall_lookup_1 _ _ _ _ Hk Ha). assert (is_byte b) by exact (Forall_lookup_1 _ _ _ _ Hw Hb).
  destruct (Z.ltb_spec j 8) as [Hj|Hj].
  2:{ assert (Hh : forall x, is_byte x -> Z.testbit x j = false).
      { intros x Hx. unfold is_byte in Hx. by apply (proj1 (pow2_bits x 8 ltac:(lia) ltac:(lia)) ltac:(lia)). }
      by rewrite (Hh a), (Hh b). }
  pose proof (f_equal (fun x => Z.testbit x (8 * Z.of_nat i + j)) E) as Et. cbn beta in Et.
  rewrite Z.testbit_0_l, Z.ldiff_spec, Z.lxor_spec in Et.
  rewrite (le_word_testbit_ok (take _ w) i b), (le_word_testbit_ok k i a) in Et by (try done; try lia; try (by apply Forall_take); by rewrite lookup_take_lt).
  destruct (f !! i) as [c|] eqn:Ec; cbn [default].
  - by rewrite (le_word_testbit_ok f i c) in Et.
  - rewrite (le_word_testbit_high f) in Et; [by rewrite Z.testbit_0_l|done|]. apply lookup_ge_None in Ec. lia.
Qed.

Lemma fold_lane a b : is_byte a -> is_byte b -> Z.ldiff (Z.lxor b a) (fold_bit a) = 0 -> ascii_fold a b.
Proof.
  intros Ha Hb. unfold fold_bit, ascii_fold. destruct (letter a).
  - intros E. assert (Hx : Z.lxor b a = 0 \/ Z.lxor b a = 32).
    { assert (H : forallb (fun n => let x := Z.of_nat n in negb (Z.ldiff x 32 =? 0) || (x =? 0) || (x =? 32)) (seq 0 256) = true)
        by (vm_compute; reflexivity).
      rewrite forallb_forall in H. pose proof (lxor_byte b a Hb Ha) as Hl. unfold is_byte in Hl.
      specialize (H (Z.to_nat (Z.lxor b a))). rewrite in_seq in H. cbv zeta in H. rewrite Z2Nat.id, E in H by lia.
      specialize (H ltac:(lia)). cbn [negb orb Z.eqb] in H. lia. }
    destruct Hx as [Hx|Hx]; [left; by apply Z.lxor_eq in Hx|right]. split; [done|].
    rewrite <- Hx, Z.lxor_comm, Z.lxor_assoc, Z.lxor_nilpotent, Z.lxor_0_r. done.
  - rewrite Z.ldiff_0_r. intros E%Z.lxor_eq. by left.
Qed.

(** ** Fields that no other field folds to *)

Section Ambiguity.
Context `{FoldingLaws}.

(** The lists the passes lead from one to the other: some fold words cleared. *)
Definition cleared (f f' : typedField) : Prop := f' = f \/ f' = set_keyFold f 0.
Definition zeroed (fields : list typedField) (i : nat) : Prop := forall f, fields !! i = Some f -> tf_keyFold f = 0.
Definition name_at (fields : list typedField) (i : nat) : option bytes := tf_name <$> fields !! i.
Definition clash (fields : list typedField) (i j : nat) : Prop :=
  exists a b, name_at fields i = Some a /\ name_at fields j = Some b /\ EqualFold a b = true.

#[local] Instance cleared_reflexive : Reflexive cleared.
Proof using. intros f. by left. Qed.
#[local] Instance cleared_transitive : Transitive cleared.
Proof using. intros f g h [->| ->] [->| ->]; unfold cleared; auto. Qed.

Lemma zero_fold_cleared fields i : Forall2 cleared fields (zero_fold fields i).
Proof using.
  unfold zero_fold. revert i. induction fields as [|f fields IH]; intros [|i]; cbn; constructor.
  - by right.
  - reflexivity.
  - by left.
  - apply IH.
Qed.

Lemma zero_fold_zeroed fields i : zeroed (zero_fold fields i) i.
Proof using. intros f Hf. unfold zero_fold in Hf. rewrite list_lookup_alter, decide_True in Hf by done. by destruct (fields !! i); simplify_eq/=. Qed.

Lemma cleared_zeroed l l' i : Forall2 cleared l l' -> zeroed l i -> zeroed l' i.
Proof using.
  intros Hc Hz f' Hf'. destruct (Forall2_lookup_r _ _ _ _ _ Hc Hf') as (f & Hf & [->| ->]); [by apply Hz|done].
Qed.

Lemma cleared_name l l' i : Forall2 cleared l l' -> name_at l' i = name_at l i.
Proof using.
  intros Hc. unfold name_at. destruct (l' !! i) as [f'|] eqn:E.
  - by destruct (Forall2_lookup_r _ _ _ _ _ Hc E) as (f & -> & [->| ->]).
  - apply lookup_ge_None in E. rewrite <- (Forall2_length _ _ _ Hc) in E. by rewrite lookup_ge_None_2.
Qed.

Lemma cleared_clash l l' i j : Forall2 cleared l l' -> clash l i j -> clash l' i j.
Proof using. intros Hc (a & b & Ha & Hb & E). exists a, b. by rewrite !(cleared_name l l'). Qed.

(** Both ends of a clash are cleared. *)
Definition settled (fields : list typedField) (i j : nat) : Prop := clash fields i j -> zeroed fields i /\ zeroed fields j.

Lemma cleared_settled l l' i j : Forall2 cleared l l' -> settled l i j -> settled l' i j.
Proof using.
  intros Hc Hs (a & b & Ha & Hb & E). rewrite !(cleared_name l l') in * by done. destruct Hs as [H1 H2]; [by exists a, b|].
  split; by eapply cleared_zeroed.
Qed.

Lemma ambiguous_below_ref n j i fields :
  let l := ambiguous_below fields i n j in
  Forall2 cleared fields l /\ forall k, (j <= k < j + n)%nat -> settled l i k.
Proof using.
  revert j fields. induction n as [|n IH]; intros j fields; cbn [ambiguous_below]; cbv zeta.
  { split; [reflexivity|lia]. }
  match goal with |- Forall2 _ _ (ambiguous_below ?l _ _ _) /\ _ => set (l1 := l) end.
  assert (Hl1 : Forall2 cleared fields l1 /\ settled l1 i j).
  { unfold l1. destruct (fields !! i) as [f|] eqn:Ei; [destruct (fields !! j) as [g|] eqn:Ej|].
    - destruct (EqualFold (tf_name f) (tf_name g)) eqn:E.
      + split; [etrans; apply zero_fold_cleared|]. intros _. split; [|apply zero_fold_zeroed].
        eapply cleared_zeroed; [apply zero_fold_cleared|apply zero_fold_zeroed].
      + split; [reflexivity|]. intros (a & b & Ha & Hb & E'). unfold name_at in *. rewrite Ei in Ha. rewrite Ej in Hb.
        simplify_eq/=. congruence.
    - split; [reflexivity|]. intros (a & b & Ha & Hb & E'). unfold name_at in *. by rewrite Ej in Hb.
    - split; [reflexivity|]. intros (a & b & Ha & Hb & E'). unfold name_at in *. by rewrite Ei in Ha. }
  destruct Hl1 as [Hc1 Hs1]. destruct (IH (S j) l1) as [Hc2 Hs2]. split; [by etrans|].
  intros k Hk. destruct (decide (k = j)) as [->|]; [by eapply cleared_settled|]. apply Hs2. lia.
Qed.

Lemma ambiguous_short_ref n i fields :
  let l := ambiguous_short fields n i in
  Forall2 cleared fields l /\ forall a k, (i <= a < i + n)%nat -> (k < a)%nat -> settled l a k.
Proof using.
  revert i fields. induction n as [|n IH]; intros i fields; cbn [ambiguous_short]; cbv zeta.
  { split; [reflexivity|lia]. }
  destruct (ambiguous_below_ref i 0 i fields) as [Hc1 Hs1]. destruct (IH (S i) (ambiguous_below fields i i 0)) as [Hc2 Hs2].
  split; [by etrans|]. intros a k Ha Hk. destruct (decide (a = i)) as [->|].
  - eapply cleared_settled; [done|]. apply Hs1. lia.
  - apply Hs2; lia.
Qed.

Definition names_ok (fields : list typedField) : Prop := forall i a, name_at fields i = Some a -> bytes_ok a.

(** The map of the long form after [i] fields: the first field of every spelling,
    and every later one of the same spelling cleared together with it. *)
Record map_ok (i : nat) (fields : list typedField) (first : gmap bytes nat) : Prop := {
  mo_below : forall key j, first !! key = Some j -> (j < i)%nat /\ exists a, name_at fields j = Some a /\ foldFieldKey a = key;
  mo_all : forall k a, (k < i)%nat -> name_at fields k = Some a ->
    exists j, first !! foldFieldKey a = Some j /\ (j = k \/ (zeroed fields k /\ zeroed fields j))
  }.

Lemma map_ok_cleared i fields fields' first : Forall2 cleared fields fields' -> map_ok i fields first -> map_ok i fields' first.
Proof using.
  intros Hc [Hb Ha]. split.
  - intros key j Hj. rewrite (cleared_name _ _ _ Hc). by apply Hb.
  - intros k a Hk Hn. rewrite (cleared_name _ _ _ Hc) in Hn. destruct (Ha k a Hk Hn) as (j & Hj & [->|[H1 H2]]); [eauto|].
    exists j. split; [done|right]. split; by eapply cleared_zeroed.
Qed.

Lemma map_ok_settled i fields first a k : names_ok fields -> map_ok i fields first -> (a < i)%nat -> (k < i)%nat -> a <> k -> settled fields a k.
Proof using All.
  intros Hn [Hb Hall] Ha Hk Hne (x & y & Hx & Hy & E). rewrite foldFieldKey_EqualFold in E by eauto.
  apply bool_decide_eq_true_1 in E. destruct (Hall a x Ha Hx) as (j & Hj & Hja). destruct (Hall k y Hk Hy) as (j' & Hj' & Hjk).
  rewrite E, Hj' in Hj. injection Hj as ->. destruct Hja as [->|[Z1 Z2]], Hjk as [->|[Z3 Z4]]; try done.
Qed.

Lemma ambiguous_map_ref n i fields first : names_ok fields -> map_ok i fields first -> (i + n <= length fields)%nat ->
  let l := ambiguous_map fields first n i in
  Forall2 cleared fields l /\ forall a k, (a < i + n)%nat -> (k < i + n)%nat -> a <> k -> settled l a k.
Proof using All.
  revert i fields first. induction n as [|n IH]; intros i fields first Hn Hok Hlen; cbn [ambiguous_map]; cbv zeta.
  { split; [reflexivity|]. intros a k Ha Hk. rewrite Nat.add_0_r in *. by eapply map_ok_settled. }
  destruct (lookup_lt_is_Some_2 fields i ltac:(lia)) as [f Hf]. rewrite Hf. destruct (first !! foldFieldKey (tf_name f)) as [j|] eqn:E.
  - set (l1 := zero_fold (zero_fold fields i) j). assert (Hc : Forall2 cleared fields l1) by (etrans; apply zero_fold_cleared).
    assert (Hz : zeroed l1 i /\ zeroed l1 j).
    { split; [|apply zero_fold_zeroed]. eapply cleared_zeroed; [apply zero_fold_cleared|apply zero_fold_zeroed]. }
    destruct (IH (S i) l1 first) as [Hc2 Hs].
    + intros k a. rewrite (cleared_name _ _ _ Hc). apply Hn.
    + pose proof (map_ok_cleared _ _ _ _ Hc Hok) as Hok1. split.
      * intros key k Hk. destruct (mo_below _ _ _ Hok1 key k Hk) as [? ?]. split; [lia|done].
      * intros k a Hk Ha. destruct (decide (k = i)) as [->|]; [|apply (mo_all _ _ _ Hok1); [lia|done]].
        rewrite (cleared_name _ _ _ Hc) in Ha. unfold name_at in Ha. rewrite Hf in Ha. simplify_eq/=. exists j. by split; [|right].
    + rewrite <- (Forall2_length _ _ _ Hc). lia.
    + split; [by etrans|]. intros a k Ha Hk. apply Hs; lia.
  - destruct (IH (S i) fields (<[foldFieldKey (tf_name f) := i]> first)) as [Hc2 Hs]; [done| |lia|].
    + split.
      * intros key k Hk. apply lookup_insert_Some in Hk as [[<- <-]|[Hne Hk]].
        { split; [lia|]. exists (tf_name f). unfold name_at. by rewrite Hf. }
        destruct (mo_below _ _ _ Hok key k Hk) as [? ?]. split; [lia|done].
      * intros k a Hk Ha. destruct (decide (k = i)) as [->|].
        { unfold name_at in Ha. rewrite Hf in Ha. simplify_eq/=. exists i. rewrite lookup_insert_eq. by split; [|left]. }
        destruct (mo_all _ _ _ Hok k a ltac:(lia) Ha) as (j & Hj & Hz). exists j. split; [|done].
        rewrite lookup_insert_ne; [done|]. congruence.
    + split; [done|]. intros a k Ha Hk. apply Hs; lia.
Qed.

Lemma settled_sym fields i j : settled fields i j -> settled fields j i.
Proof using.
  intros Hs (a & b & Ha & Hb & E). destruct Hs as [H1 H2]; [|done]. exists b, a. split_and!; [done..|].
  unfold EqualFold in *. rewrite bool_decide_eq_true in *. done.
Qed.

Lemma disable_ref fields : names_ok fields ->
  let l := disableAmbiguousFieldFolds fields in
  Forall2 cleared fields l /\ forall i j, i <> j -> settled l i j.
Proof using All.
  intros Hn. unfold disableAmbiguousFieldFolds.
  assert (Hfin : forall l, Forall2 cleared fields l ->
    (forall a k, (a < length fields)%nat -> (k < a)%nat -> settled l a k) -> forall i j, i <> j -> settled l i j).
  { intros l Hc Hs i j Hne (a & b & Ha & Hb & E).
    assert (Hlt : forall k x, name_at l k = Some x -> (k < length fields)%nat).
    { intros k x Hx. unfold name_at in Hx. destruct (l !! k) eqn:El; [|done]. apply lookup_lt_Some in El. by rewrite (Forall2_length _ _ _ Hc). }
    destruct (Nat.lt_ge_cases i j).
    - apply (settled_sym l j i); [apply Hs; [by eapply Hlt|done]|by exists a, b].
    - apply Hs; [by eapply Hlt|lia|by exists a, b]. }
  destruct (length fields <=? 8)%nat; cbv zeta.
  - destruct (ambiguous_short_ref (length fields) 0 fields) as [Hc Hs]. split; [done|]. apply Hfin; [done|].
    intros a k Ha Hk. apply Hs; lia.
  - destruct (ambiguous_map_ref (length fields) 0 fields ∅) as [Hc Hs]; [done| |lia|].
    { split; [|lia]. intros key j Hj. by rewrite lookup_empty in Hj. }
    split; [done|]. apply Hfin; [done|]. intros a k Ha Hk. apply Hs; lia.
Qed.
End Ambiguity.

(** ** The lookup table finds what a scan finds *)

Section Lookup.
Context (fields : list typedField) (bits : Z).
Hypothesis Hbits : 0 <= bits <= 31.
Hypothesis Hnames : NoDup (map tf_name fields).
Hypothesis Hroom : (length fields < Z.to_nat (2 ^ bits))%nat.
Abbreviation cap := (Z.to_nat (2 ^ bits)).
Abbreviation mask := (2 ^ bits - 1).
Abbreviation place := (OpenAddr.place bits).
Abbreviation taken := (fun e => negb (e =? 0)).

(** After [p] fields: every entry is one of them plus one, and every field is
    reached from its home over taken slots. *)
Record table_ok (p : nat) (table : list Z) : Prop := {
  ft_len : length table = cap;
  ft_slot : forall s e, table !! s = Some e -> e <> 0 -> exists i, (i < p)%nat /\ e = Z.of_nat i + 1;
  ft_have : forall i f, (i < p)%nat -> fields !! i = Some f -> exists d,
    table !! place (fieldNameHash (tf_name f)) d = Some (Z.of_nat i + 1) /\
    forall d', (d' < d)%nat -> exists e, table !! place (fieldNameHash (tf_name f)) d' = Some e /\ e <> 0;
  ft_load : (table_load taken table <= p)%nat
  }.

(** The nearest slot with a property some slot has. *)
Lemma nearest (P : Z -> bool) table hash q e : length table = cap -> table !! q = Some e -> P e = true ->
  exists d e', (d < cap)%nat /\ table !! place hash d = Some e' /\ P e' = true /\
  forall d', (d' < d)%nat -> exists e'', table !! place hash d' = Some e'' /\ P e'' = false.
Proof using Hbits.
  clear Hroom Hnames. intros Hlen Hq He. apply lookup_lt_Some in Hq as Hqlt. rewrite Hlen in Hqlt.
  destruct (place_to bits Hbits hash q Hqlt) as (D & HD & Hplace).
  assert (H : forall n d, (n + d = D)%nat -> (forall d', (d' < d)%nat -> exists e'', table !! place hash d' = Some e'' /\ P e'' = false) ->
    exists d e', (d < cap)%nat /\ table !! place hash d = Some e' /\ P e' = true /\
    forall d', (d' < d)%nat -> exists e'', table !! place hash d' = Some e'' /\ P e'' = false).
  { induction n as [|n IH]; intros d Hd Hbefore.
    { exists d, e. split_and!; [lia| |done|done]. replace d with D by lia. by rewrite Hplace. }
    destruct (lookup_lt_is_Some_2 table (place hash d)) as [x Hx]; [rewrite Hlen; by apply place_lt|].
    destruct (P x) eqn:E; [exists d, x; split_and!; [lia|done..]|]. apply (IH (S d)); [lia|]. intros d' Hd'.
    destruct (decide (d' = d)) as [->|]; [by exists x|apply Hbefore; lia]. }
  apply (H D 0%nat); lia.
Qed.

Lemma empty_slot p table : table_ok p table -> (p < cap)%nat -> exists q e, table !! q = Some e /\ (e =? 0) = true.
Proof using.
  clear Hroom Hnames Hbits. intros Hok Hp. destruct (load_room taken table) as (q & e & Hq & He).
  - rewrite (ft_len _ _ Hok). pose proof (ft_load _ _ Hok). lia.
  - exists q, e. by apply negb_false_iff in He.
Qed.

Lemma free_slot_run table hash d n fuel : (d + n < d + fuel)%nat -> table !! place hash (d + n) = Some 0 ->
  (forall d', (d' < d + n)%nat -> exists e, table !! place hash d' = Some e /\ (e =? 0) = false) ->
  free_slot fuel table mask (Z.of_nat (place hash d)) = Ok (Z.of_nat (place hash (d + n))).
Proof using Hbits.
  clear Hroom Hnames. revert d fuel. induction n as [|n IH]; intros d [|fuel] Hf Hend Hrun; try lia; cbn [free_slot]; rewrite Nat2Z.id.
  { rewrite Nat.add_0_r in *. by rewrite Hend. }
  destruct (Hrun d ltac:(lia)) as (e & -> & ->). rewrite place_S by done. replace (d + S n)%nat with (S d + n)%nat in * by lia.
  apply IH; [lia|done..].
Qed.

Lemma fields_table_insert p f table : table_ok p table -> fields !! p = Some f ->
  exists table', fill_table [f] table mask (Z.of_nat p) = Ok table' /\ table_ok (S p) table'.
Proof using Hbits Hroom.
  intros Hok Hf. apply lookup_lt_Some in Hf as Hlt. set (hash := fieldNameHash (tf_name f)).
  destruct (empty_slot p table Hok ltac:(lia)) as (q & e & Hq & He).
  destruct (nearest (fun e => e =? 0) table hash q e (ft_len _ _ Hok) Hq He) as (d & x & Hd & Hx & Hx0 & Hrun).
  apply Z.eqb_eq in Hx0 as ->. cbn [fill_table]. fold hash. rewrite (place_0 bits Hbits), (ft_len _ _ Hok).
  rewrite (free_slot_run table hash 0 d) by (done || lia). cbn [res_bind Nat.add]. rewrite Nat2Z.id.
  pose proof (cap_pos bits Hbits) as [_ Hb]. assert (Hw : w32 (Z.of_nat p + 1) = Z.of_nat p + 1) by (unfold w32; rewrite Z.mod_small; lia).
  rewrite Hw. eexists. split; [done|]. apply lookup_lt_Some in Hx as Hxlt. split.
  - rewrite length_insert. apply Hok.
  - intros s y Hy Hy0. apply list_lookup_insert_Some in Hy as [(<- & <- & _)|[_ Hy]]; [by exists p; split; [lia|]|].
    destruct (ft_slot _ _ Hok s y Hy Hy0) as (i & Hi & ->). exists i. split; [lia|done].
  - intros i g Hi Hg. destruct (decide (i = p)) as [->|].
    + rewrite Hf in Hg. injection Hg as <-. exists d. fold hash. split; [by apply list_lookup_insert_eq|].
      intros d' Hd'. destruct (Hrun d' Hd') as (y & Hy & Hy0). exists y. split; [|lia].
      rewrite list_lookup_insert_ne; [done|]. intros E. rewrite E, Hy in Hx. by simplify_eq.
    + destruct (ft_have _ _ Hok i g ltac:(lia) Hg) as (di & Hdi & Hbefore). exists di. split.
      * rewrite list_lookup_insert_ne; [done|]. intros E. rewrite <- E, Hx in Hdi. injection Hdi. lia.
      * intros d' Hd'. destruct (Hbefore d' Hd') as (y & Hy & Hy0).
        destruct (decide (place hash d = place (fieldNameHash (tf_name g)) d')) as [E|E].
        { exists (Z.of_nat p + 1). split; [|lia]. rewrite <- E. by apply list_lookup_insert_eq. }
        exists y. by rewrite list_lookup_insert_ne.
  - pose proof (load_insert taken table _ _ (Z.of_nat p + 1) Hx) as Hl. cbn [negb Z.eqb] in Hl.
    pose proof (ft_load _ _ Hok). destruct (Z.eqb_spec (Z.of_nat p + 1) 0); cbn [negb] in Hl; lia.
Qed.

Lemma fill_table_cons f fs table i :
  fill_table (f :: fs) table mask i = let* table := fill_table [f] table mask i in fill_table fs table mask (i + 1).
Proof using. cbn [fill_table]. by destruct (free_slot _ _ _ _). Qed.

Lemma fill_table_ref fs p table : drop p fields = fs -> (p <= length fields)%nat -> table_ok p table ->
  exists table', fill_table fs table mask (Z.of_nat p) = Ok table' /\ table_ok (length fields) table'.
Proof using Hbits Hroom.
  revert p table. induction fs as [|f fs IH]; intros p table Hd Hp Hok.
  - exists table. split; [done|]. apply (f_equal length) in Hd. rewrite length_drop in Hd. simpl in Hd.
    by replace (length fields) with p by lia.
  - apply drop_cons_lookup in Hd as Hf. apply lookup_lt_Some in Hf as Hlt. destruct (fields_table_insert p f table Hok Hf) as (t1 & E1 & Hok1).
    rewrite fill_table_cons, E1. cbn [res_bind]. replace (Z.of_nat p + 1) with (Z.of_nat (S p)) by lia.
    apply IH; [by eapply drop_cons_S|lia|done].
Qed.

Lemma table_start : table_ok 0 (replicate cap 0).
Proof using.
  clear Hroom Hnames Hbits. split; [apply length_replicate| |lia|by rewrite load_empty]. intros s e (-> & _)%lookup_replicate. done.
Qed.

Lemma find_exact_Some i f : fields !! i = Some f -> find_exact fields (tf_name f) = Some f.
Proof using Hnames.
  clear Hroom. revert i. induction fields as [|g l IH]; intros i Hf; [done|]. cbn [map] in Hnames. apply NoDup_cons in Hnames as [Hg Hl].
  unfold find_exact in *. cbn [List.find]. destruct i as [|i].
  - injection Hf as ->. by rewrite bool_decide_eq_true_2.
  - cbn in Hf. rewrite bool_decide_eq_false_2; [by apply (IH Hl i)|]. intros E. apply Hg. rewrite E.
    apply list_elem_of_fmap. exists f. split; [done|]. by eapply list_elem_of_lookup_2.
Qed.

Lemma find_exact_None key : (forall i f, fields !! i = Some f -> tf_name f <> key) -> find_exact fields key = None.
Proof using.
  intros Hno. unfold find_exact. destruct (List.find _ fields) as [f|] eqn:E; [|done]. apply find_some in E as [Hin Hk].
  apply bool_decide_eq_true_1 in Hk. apply list_elem_of_In, list_elem_of_lookup in Hin as [i Hi]. by destruct (Hno i f Hi).
Qed.

Lemma probe_table_run table hash key d n fuel r : (n < fuel)%nat ->
  (forall d', (d' < d + n)%nat -> exists e f, table !! place hash d' = Some e /\ (e =? 0) = false /\
    fields !! Z.to_nat (e - 1) = Some f /\ tf_name f <> key) ->
  probe_table (fuel - n) fields table mask key (Z.of_nat (place hash (d + n))) = r ->
  probe_table fuel fields table mask key (Z.of_nat (place hash d)) = r.
Proof using Hbits.
  clear Hroom Hnames. revert d fuel. induction n as [|n IH]; intros d [|fuel] Hf Hrun Hr; try lia.
  { by rewrite Nat.sub_0_r, Nat.add_0_r in Hr. }
  cbn [probe_table]. rewrite Nat2Z.id. destruct (Hrun d ltac:(lia)) as (e & f & -> & -> & -> & Hne).
  rewrite bool_decide_eq_false_2 by done. rewrite place_S by done. apply IH; [lia| |].
  - intros d' Hd'. apply Hrun. lia.
  - by replace (S d + n)%nat with (d + S n)%nat by lia.
Qed.

Lemma probe_table_ref table key : table_ok (length fields) table ->
  probe_table (S (length table)) fields table mask key (Z.land (fieldNameHash key) mask) = Ok (find_exact fields key).
Proof using Hbits Hnames Hroom.
  intros Hok. set (hash := fieldNameHash key).
  set (P := fun e => (e =? 0) || match fields !! Z.to_nat (e - 1) with Some f => bool_decide (tf_name f = key) | None => false end).
  destruct (empty_slot _ table Hok ltac:(lia)) as (q & e & Hq & He).
  destruct (nearest P table hash q e (ft_len _ _ Hok) Hq) as (d & x & Hd & Hx & HP & Hrun); [by unfold P; rewrite He|].
  assert (Hfield : forall d' y, table !! place hash d' = Some y -> (y =? 0) = false ->
    exists f, fields !! Z.to_nat (y - 1) = Some f /\ y = Z.of_nat (Z.to_nat (y - 1)) + 1).
  { intros d' y Hy Hy0. destruct (ft_slot _ _ Hok _ y Hy ltac:(lia)) as (i & Hi & ->).
    replace (Z.to_nat (Z.of_nat i + 1 - 1)) with i by lia. destruct (lookup_lt_is_Some_2 fields i Hi) as [f Hf]. by exists f. }
  rewrite (place_0 bits Hbits). apply (probe_table_run table hash key 0 d).
  { rewrite (ft_len _ _ Hok). lia. }
  { intros d' Hd'. destruct (Hrun d' Hd') as (y & Hy & HPy). unfold P in HPy. apply orb_false_iff in HPy as [Hy0 Hyf].
    destruct (Hfield d' y Hy Hy0) as (f & Hf & _). rewrite Hf in Hyf. apply bool_decide_eq_false_1 in Hyf. by exists y, f. }
  replace (S (length table) - d)%nat with (S (length table - d)) by (rewrite (ft_len _ _ Hok); lia). cbn [probe_table Nat.add].
  rewrite Nat2Z.id, Hx. unfold P in HP. destruct (x =? 0) eqn:Hx0.
  - f_equal. symmetry. apply find_exact_None. intros i f Hf <-. apply lookup_lt_Some in Hf as Hi.
    destruct (ft_have _ _ Hok i f Hi Hf) as (di & Hdi & Hbefore). fold hash in Hdi, Hbefore.
    destruct (Nat.lt_trichotomy di d) as [Hlt|[->|Hgt]].
    + destruct (Hrun di Hlt) as (y & Hy & HPy). rewrite Hdi in Hy. injection Hy as <-. unfold P in HPy.
      replace (Z.to_nat (Z.of_nat i + 1 - 1)) with i in HPy by lia. rewrite Hf, bool_decide_eq_true_2, orb_true_r in HPy by done. done.
    + rewrite Hx in Hdi. injection Hdi. lia.
    + destruct (Hbefore d Hgt) as (y & Hy & Hy0). rewrite Hx in Hy. injection Hy as <-. lia.
  - destruct (Hfield d x Hx Hx0) as (f & Hf & _). cbn [orb] in HP. rewrite Hf in *. rewrite HP. apply bool_decide_eq_true_1 in HP as <-.
    by rewrite (find_exact_Some _ _ Hf).
Qed.
End Lookup.

Lemma table_size_ref fuel n k : 0 <= k <= 31 -> 0 <= n < 2 ^ 30 -> (31 - k < Z.of_nat fuel) ->
  exists k', k <= k' <= 31 /\ table_size fuel n (2 ^ k) = 2 ^ k' /\ 2 * n <= 2 ^ k'.
Proof.
  revert k. induction fuel as [|fuel IH]; intros k Hk Hn Hf; [lia|]. cbn [table_size].
  destruct (Z.ltb_spec (2 ^ k) (n * 2)); [|exists k; split_and!; lia].
  assert (k < 31). { destruct (Z.eq_dec k 31) as [->|]; lia. }
  replace (2 ^ k * 2) with (2 ^ (k + 1)) by (rewrite Z.pow_add_r by lia; lia).
  destruct (IH (k + 1) ltac:(lia) Hn ltac:(lia)) as (k' & Hk' & E & Hle). exists k'. split_and!; [lia..|done|done].
Qed.

Section Choose.
Context `{FoldingLaws}.

Lemma findFieldSlow_ref fields key fold : NoDup (map tf_name fields) -> Z.of_nat (length fields) < 2 ^ 30 ->
  exists table mask, build_table fields = Ok (table, mask) /\
  findFieldSlow fields table mask key fold = Ok (choose fields fold key).
Proof using.
  intros Hnd Hlen. unfold build_table. destruct (Z.ltb_spec (Z.of_nat (length fields)) 8) as [Hlt|Hge].
  - exists None, 0. split; [done|]. unfold findFieldSlow, choose. cbn [res_bind]. by destruct (find_exact fields key).
  - destruct (table_size_ref 64 (Z.of_nat (length fields)) 4) as (k & Hk & E & Hle); [lia|lia|lia|]. change (2 ^ 4) with 16 in E.
    cbv zeta. rewrite E. destruct (fill_table_ref fields k ltac:(lia) ltac:(lia) fields 0 (replicate (Z.to_nat (2 ^ k)) 0)) as (t & Ht & Hok);
      [done|lia|by apply table_start|]. change (Z.of_nat 0) with 0 in Ht. rewrite Ht. cbn [res_bind]. eexists _, _. split; [done|].
    unfold findFieldSlow, choose. rewrite (probe_table_ref fields k) by (done || lia). cbn [res_bind]. by destruct (find_exact fields key).
Qed.
End Choose.

(** ** The fields of a record plan *)

Definition packed (f : typedField) : Prop :=
  exists fold, pack_key (tf_name f) = (tf_key f, tf_keyMask f, fold, tf_keyLen f) /\ (tf_keyFold f = fold \/ tf_keyFold f = 0).

Section Record.
Context `{FoldingLaws}.

Definition compile_fields (rs : list resolvedField) : list typedField := disableAmbiguousFieldFolds (imap compile_field rs).

(** What a decoder relies on of a record's fields. *)
Record record_ok (fields : list typedField) : Prop := {
  ro_distinct : NoDup (map tf_name fields);
  ro_bytes : names_ok fields;
  ro_plain : forall i f, fields !! i = Some f -> plain_name (tf_name f);
  ro_packed : forall i f, fields !! i = Some f -> packed f;
  ro_pos : forall i f, fields !! i = Some f -> tf_pos f = i;
  ro_settled : forall i j, i <> j -> settled fields i j
  }.

Lemma compile_field_name i r : tf_name (compile_field i r) = rf_name r.
Proof using. unfold compile_field. by destruct (pack_key (rf_name r)) as [[[]]]. Qed.

(** A compiled field carries its resolved field. *)
Definition compiled_from (r : resolvedField) (f : typedField) : Prop :=
  tf_name f = rf_name r /\ tf_slot f = rf_slot r /\ tf_node f = rf_node r /\ tf_hop f = rf_hop r.

Lemma compile_lookup rs i f : Forall (fun r => bytes_ok (rf_name r)) rs -> compile_fields rs !! i = Some f ->
  exists r, rs !! i = Some r /\ cleared (compile_field i r) f.
Proof using All.
  intros Hb Hf. unfold compile_fields in Hf. destruct (disable_ref (imap compile_field rs)) as [Hc _].
  - intros k a. unfold name_at. rewrite list_lookup_imap. destruct (rs !! k) as [r|] eqn:E; [|done].
    intros Ha. simplify_eq/=. rewrite compile_field_name. exact (Forall_lookup_1 _ _ _ _ Hb E).
  - destruct (Forall2_lookup_r _ _ _ _ _ Hc Hf) as (g & Hg & Hgf). rewrite list_lookup_imap in Hg.
    destruct (rs !! i) as [r|]; [|done]. simplify_eq/=. by exists r.
Qed.

Lemma cleared_from i r f : cleared (compile_field i r) f -> compiled_from r f /\ tf_pos f = i.
Proof using.
  unfold compile_field, compiled_from. destruct (pack_key (rf_name r)) as [[[key mask] fold] len]. by intros [->| ->].
Qed.

Lemma compile_from rs : Forall (fun r => bytes_ok (rf_name r)) rs -> Forall2 compiled_from rs (compile_fields rs).
Proof using All.
  intros Hb. assert (Hlen : length (compile_fields rs) = length rs).
  { unfold compile_fields. destruct (disable_ref (imap compile_field rs)) as [Hc _].
    - intros k a. unfold name_at. rewrite list_lookup_imap. destruct (rs !! k) as [r|] eqn:E; [|done].
      intros Ha. simplify_eq/=. rewrite compile_field_name. exact (Forall_lookup_1 _ _ _ _ Hb E).
    - by rewrite <- (Forall2_length _ _ _ Hc), length_imap. }
  apply Forall2_same_length_lookup_2; [done|]. intros i r f Hr Hf. destruct (compile_lookup rs i f Hb Hf) as (r' & Hr' & Hc).
  simplify_eq. by apply cleared_from in Hc as [? _].
Qed.

Lemma compile_names rs : Forall (fun r => bytes_ok (rf_name r)) rs -> map tf_name (compile_fields rs) = map rf_name rs.
Proof using All.
  intros Hb. pose proof (compile_from rs Hb) as Hf. induction Hf as [|r f rs fs (Hn & _) _ IH]; [done|]. cbn [map].
  rewrite Hn. f_equal. apply IH. by apply Forall_cons in Hb as [].
Qed.

Lemma compile_fields_ok rs : Forall (fun r => bytes_ok (rf_name r) /\ plain_name (rf_name r)) rs -> NoDup (map rf_name rs) ->
  record_ok (compile_fields rs).
Proof using All.
  intros Hrs Hnd. assert (Hb : Forall (fun r => bytes_ok (rf_name r)) rs) by (eapply Forall_impl; [exact Hrs|by intros ? []]).
  assert (Hat : forall i f, compile_fields rs !! i = Some f -> exists r, rs !! i = Some r /\ cleared (compile_field i r) f /\
    compiled_from r f /\ tf_pos f = i /\ bytes_ok (tf_name f) /\ plain_name (tf_name f)).
  { intros i f Hf. destruct (compile_lookup rs i f Hb Hf) as (r & Hr & Hc). pose proof (cleared_from _ _ _ Hc) as [Hfrom Hpos].
    exists r. pose proof (Forall_lookup_1 _ _ _ _ Hrs Hr) as [H1 H2]. destruct Hfrom as (Hn & ?). rewrite Hn. done. }
  split.
  - by rewrite compile_names.
  - intros i a Ha. unfold name_at in Ha. destruct (compile_fields rs !! i) as [f|] eqn:E; [|done]. simplify_eq/=.
    by destruct (Hat i f E) as (? & _ & _ & _ & _ & ? & _).
  - intros i f Hf. by destruct (Hat i f Hf) as (? & _ & _ & _ & _ & _ & ?).
  - intros i f Hf. destruct (Hat i f Hf) as (r & _ & Hc & (Hn & _) & _). unfold packed. rewrite Hn. unfold compile_field in Hc.
    destruct (pack_key (rf_name r)) as [[[key mask] fold] len]. exists fold. destruct Hc as [->| ->]; cbn; auto.
  - intros i f Hf. by destruct (Hat i f Hf) as (? & _ & _ & _ & ? & _).
  - unfold compile_fields. destruct (disable_ref (imap compile_field rs)) as [_ Hs]; [|done].
    intros k a. unfold name_at. rewrite list_lookup_imap. destruct (rs !! k) as [r|] eqn:E; [|done].
    intros Ha. simplify_eq/=. rewrite compile_field_name. exact (Forall_lookup_1 _ _ _ _ Hb E).
Qed.

Lemma choose_exact fields fold i f : record_ok fields -> fields !! i = Some f -> choose fields fold (tf_name f) = Some f.
Proof using. intros Hok Hf. unfold choose. by rewrite (find_exact_Some fields (ro_distinct _ Hok) i f Hf). Qed.

(** Where a packed fold match is allowed, no other field competes. *)
Lemma choose_folded fields i f key : record_ok fields -> fields !! i = Some f -> tf_keyFold f <> 0 ->
  EqualFold (tf_name f) key = true -> choose fields true key = Some f.
Proof using.
  intros Hok Hf Hz E. assert (Honly : forall j g, fields !! j = Some g -> EqualFold (tf_name g) key = true -> g = f).
  { intros j g Hg Eg. destruct (decide (i = j)) as [->|Hne]; [congruence|]. exfalso. apply Hz.
    destruct (ro_settled _ Hok i j Hne) as [Hi _]; [|by apply Hi]. exists (tf_name f), (tf_name g). unfold name_at. rewrite Hf, Hg.
    split_and!; [done..|]. unfold EqualFold in *. rewrite bool_decide_eq_true in *. congruence. }
  unfold choose, find_exact, findFieldFold. destruct (List.find (fun g => bool_decide (tf_name g = key)) fields) as [g|] eqn:Ex.
  - apply find_some in Ex as [[j Hj]%list_elem_of_In%list_elem_of_lookup Hk%bool_decide_eq_true_1]. f_equal. eapply Honly; [done|].
    subst key. unfold EqualFold. by apply bool_decide_eq_true_2.
  - destruct (List.find (fun g => EqualFold (tf_name g) key) fields) as [g|] eqn:Ef.
    + apply find_some in Ef as [[j Hj]%list_elem_of_In%list_elem_of_lookup Hk]. f_equal. by eapply Honly.
    + pose proof (find_none _ _ Ef f) as Hn. cbn beta in Hn. rewrite E in Hn. discriminate Hn. by apply list_elem_of_In, (list_elem_of_lookup_2 _ i).
Qed.
End Record.
