(* ===== verification/FieldMatch.v ===== *)
(** [typed_compiled_record_structural_fields.go], the portable part: the next member of a
    record, tried against the field the plan expects first.  A packed compare of
    eight source bytes recognises the name, its closing quote and the colon; the
    slow path retries with the case bits masked out.  Whatever the path, the
    member goes to the field the whole name selects. *)

From S2P Require Import Prelude Words Utf8 Scanner Lex Grammar StringRef Errors Numbers Reader Validator FastValid ParserString Layout NumberEqual Digits DecoderCursor DecoderScalar FieldFold FieldTable.

(** The three results of [nextObjectFieldExpectedSlow]: the end of the object, the
    expected field, or another key. *)
Inductive member : Type :=
  | NoMember
  | Matched
  | Member (key : bytes).

Section Match.
Context (src : bytes) (flags : decoderFlags).
Context `{CaseFolding}.

(** The cursor behind the colon at [keyEnd + 1], with the unchecked reads of the
    fast path. *)
Definition after_colon (c : decoderCursor) (keyEnd : nat) : res derr decoderCursor :=
  let c := set_i c (keyEnd + 2) in
  let i := d_i c in
  if (i <? length src)%nat then
    let* b := unsafe (fastByteAt src i) in
    if b <=? 32 then
      let* one :=
        if (b =? 32) && (i + 1 <? length src)%nat then let* b := unsafe (fastByteAt src (i + 1)) in Ok (32 <? b) else Ok false in
      Ok (if (one : bool) then set_i c (i + 1) else d_skipSpace src c)
    else Ok c
  else Ok c.

(** [None] is a mismatch, which leaves the cursor alone. *)
Definition matchObjectFieldExpected (first : bool) (expected : typedField) (c : decoderCursor) : res derr (option decoderCursor) :=
  let n := length src in
  let i := d_i c in
  let i := if at_sat src i (fun b => b <=? 32) then skipSpaceIndent src i else i in
  if (n <=? i)%nat || (tf_keyMask expected =? 0) then Ok None
  else
    let* at_key :=
      if first then
        let* b := unsafe (fastByteAt src i) in Ok (if b =? DQUOTE then Some i else None)
      else
        let* b := unsafe (fastByteAt src i) in
        if negb (b =? ","%ch) then Ok None
        else
          let i := S i in
          let i := if at_sat src i (fun b => b <=? 32) then skipSpaceIndent src i else i in
          if (n <=? i)%nat then Ok None
          else let* b := unsafe (fastByteAt src i) in Ok (if b =? DQUOTE then Some i else None) in
    match at_key with
    | None => Ok None
    | Some i =>
        let keyStart := S i in
        if (n <? keyStart + 8)%nat then Ok None
        else
          let* word := unsafe (word_at src keyStart) in
          if negb (Z.land (Z.lxor word (tf_key expected)) (tf_keyMask expected) =? 0) then Ok None
          else
            let keyEnd := (keyStart + Z.to_nat (tf_keyLen expected))%nat in
            if tf_keyLen expected <=? 6 then let* c := after_colon c keyEnd in Ok (Some c)
            else
              let* other := if (n <? keyEnd + 2)%nat then Ok true
                            else let* w := unsafe (load16 src keyEnd) in Ok (negb (w =? quoteColonLE)) in
              if (other : bool) then Ok None
              else if (7 <? tf_keyLen expected) && negb (matchStringAt src (keyStart + 8) (drop 8 (tf_name expected)))
              then Ok None
              else let* c := after_colon c keyEnd in Ok (Some c)
    end.

Definition next_member (first : bool) (c : decoderCursor) : res derr (member * decoderCursor) :=
  let* (key, c) := NextObjectField src first c in
  Ok (match key with Some key => Member key | None => NoMember end, c).

(** The packed compare of the slow path: whether the expected field matches. *)
Definition expected_name (expected : typedField) (word : Z) (keyStart : nat) : bool :=
  let mask := tf_keyMask expected in
  if mask =? 0 then false
  else
    let diff := Z.land (Z.lxor word (tf_key expected)) mask in
    let foldedHead := negb (diff =? 0) in
    let fold := negb (decoderCaseSensitive flags) in
    if foldedHead && negb ((Z.ldiff diff (tf_keyFold expected) =? 0) && fold) then false
    else
      let keyEnd := (keyStart + Z.to_nat (tf_keyLen expected))%nat in
      if tf_keyLen expected <=? 6 then true
      else
        let matchedName :=
          if tf_keyLen expected <=? 7 then true
          else if (keyEnd + 1 <? length src)%nat && at_byte src keyEnd DQUOTE then
            (negb foldedHead && matchStringAt src (keyStart + 8) (drop 8 (tf_name expected))) ||
            (negb (tf_keyFold expected =? 0) && fold && EqualFold (slice src keyStart keyEnd) (tf_name expected))
          else false in
        matchedName && at_byte src (keyEnd + 1) ":"%ch.

Definition nextObjectFieldExpectedSlow (first : bool) (expected : typedField) (c : decoderCursor) : res derr (member * decoderCursor) :=
  let at_key i :=
    let keyStart := S i in
    if (length src <? keyStart + 8)%nat then next_member first c
    else
      let word := load64 src keyStart in
      if expected_name expected word keyStart
      then Ok (Matched, skip_gap src (set_i c (keyStart + Z.to_nat (tf_keyLen expected) + 2)))
      else
        let special := stringSpecialMask word in
        let keyEnd :=
          if negb (special =? 0) then (keyStart + Z.to_nat (TrailingZeros64 special / 8))%nat
          else scanStringSpecial src (keyStart + 8) in
        if negb (at_byte src keyEnd DQUOTE) || negb (at_byte src (keyEnd + 1) ":"%ch) then next_member first c
        else Ok (Member (slice src keyStart keyEnd), skip_gap src (set_i c (keyEnd + 2))) in
  let i := d_i c in
  let i := if at_sat src i (fun b => b <=? 32) then skipSpaceAt src i else i in
  match src !! i with
  | None => next_member first c
  | Some b =>
      if first then
        if b =? "}"%ch then Ok (NoMember, leave c (S i))
        else if negb (b =? DQUOTE) then next_member first c
        else at_key i
      else if b =? "}"%ch then Ok (NoMember, leave c (S i))
      else if b =? ","%ch then
        let i := S i in
        let i := if at_sat src i (fun b => b <=? 32) then skipSpaceAt src i else i in
        if negb (at_byte src i DQUOTE) then next_member first c else at_key i
      else next_member first c
  end.

Definition set_slow (c : decoderCursor) : decoderCursor := mkCursor (d_i c) (d_depth c) true.

(** The two attempts of the member loop: a first miss sends the rest of the decode
    to the slow path. *)
Definition expected_member (first : bool) (expected : typedField) (c : decoderCursor) : res derr (member * decoderCursor) :=
  let* fast := if decoderExpectedSlow c then Ok None else matchObjectFieldExpected first expected c in
  match fast with
  | Some c => Ok (Matched, c)
  | None => nextObjectFieldExpectedSlow first expected (set_slow c)
  end.
End Match.

(** ** The packed compare *)

Section Packed.
Context (src : bytes) (flags : decoderFlags).
Context `{FoldingLaws}.
Hypothesis Hsrc : bytes_ok src.

(** A plain text between quotes, with a colon behind it, is the key. *)
Lemma key_span_ref i actual j : src !! i = Some DQUOTE -> plain_run actual -> span src (S i) (actual ++ [DQUOTE; ":"%ch]) j ->
  ref_key src i = Ok (ref_ws src j, Some actual).
Proof using Hsrc.
  intros Hq Hp [Ha [Hq2 [Hc Hj%span_nil_inv]%span_cons]%span_cons]%span_split. destruct Hj as [-> _].
  pose proof (span_le _ _ _ _ Ha) as Hle. pose proof (span_slice _ _ _ _ Ha) as Hs. unfold ref_key.
  assert (Hw : ref_ws src i = i) by (apply ref_ws_high; unfold at_sat; by rewrite Hq). rewrite Hw.
  rewrite (proj2 (at_byte_spec _ _ _) Hq). unfold ref_str. rewrite (str_at_run src (S i) (S i + length actual)) by (try rewrite Hs; done || lia).
  rewrite Hs. rewrite str_at_quote by done. cbn [res_bind app].
  assert (Hw2 : ref_ws src (S (S i + length actual)) = S (S i + length actual)) by (apply ref_ws_high; unfold at_sat; by rewrite Hc).
  by rewrite Hw2, (proj2 (at_byte_spec _ _ _) Hc).
Qed.

Lemma word_span ks m : (m <= 8)%nat -> (ks + 8 <= length src)%nat ->
  span src ks (take m (slice src ks (ks + 8))) (ks + m).
Proof using.
  intros Hm Hks. replace (take m (slice src ks (ks + 8))) with (slice src ks (ks + m)).
  - apply slice_span. lia.
  - unfold slice. rewrite take_take. f_equal. lia.
Qed.

Lemma word_bytes ks : (ks + 8 <= length src)%nat -> bytes_ok (slice src ks (ks + 8)) /\ length (slice src ks (ks + 8)) = 8%nat.
Proof using Hsrc. intros Hks. split; [by apply slice_bytes|]. rewrite slice_len; lia. Qed.

(** The exact compare. *)
Lemma exact_head f ks : bytes_ok (tf_name f) -> packed f -> tf_keyMask f <> 0 -> (ks + 8 <= length src)%nat ->
  Z.land (Z.lxor (load64 src ks) (tf_key f)) (tf_keyMask f) = 0 ->
  span src ks (key_bytes (tf_name f)) (ks + length (key_bytes (tf_name f))) /\ tf_keyLen f = Z.of_nat (length (tf_name f)).
Proof using Hsrc.
  intros Hb (fold & Hp & _) Hm Hks E. rewrite pack_key_ref in Hp by done. destruct (length (tf_name f) <=? 255)%nat; [|simplify_eq; congruence].
  injection Hp as Hkey Hmask _ Hlen. rewrite <- Hkey, <- Hmask in E. destruct (word_bytes ks Hks) as [Hw Hwl].
  pose proof (key_bytes_length (tf_name f)) as Hkl. unfold load64 in E. apply masked_exact in E; [|done|by apply key_bytes_ok|lia].
  split; [|done]. rewrite <- E at 1. by apply word_span; [lia|].
Qed.

(** The folded compare of a name of at most seven bytes. *)
Lemma folded_head f ks : bytes_ok (tf_name f) -> packed f -> (length (tf_name f) <= 7)%nat -> (ks + 8 <= length src)%nat ->
  let diff := Z.land (Z.lxor (load64 src ks) (tf_key f)) (tf_keyMask f) in
  Z.ldiff diff (tf_keyFold f) = 0 -> tf_keyFold f <> 0 ->
  exists actual, Forall2 ascii_fold (tf_name f) actual /\
  span src ks (actual ++ drop (length (tf_name f)) (key_bytes (tf_name f))) (ks + length (key_bytes (tf_name f))).
Proof using Hsrc.
  intros Hb (fold & Hp & Hfold) Hn Hks diff E Hz. destruct Hfold as [Hfold|]; [|congruence]. subst diff.
  set (name := tf_name f) in *. rewrite pack_key_ref in Hp by done. rewrite (proj2 (Nat.leb_le _ _)) in Hp by lia.
  injection Hp as Hkey Hmask Hfo _. rewrite Hfold in E. rewrite <- Hkey, <- Hmask, <- Hfo in E. rewrite take_ge in E by lia.
  destruct (word_bytes ks Hks) as [Hw Hwl]. unfold load64 in E. set (w := slice src ks (ks + 8)) in *. set (k := key_bytes name) in *.
  pose proof (key_bytes_length name) as Hkl. fold k in Hkl. assert (Hk : bytes_ok k) by (by apply key_bytes_ok).
  assert (Hkn : take (length name) k = name /\ (length name < length k)%nat).
  { unfold k, key_bytes. destruct (Nat.leb_spec (length name) 6); [|rewrite (proj2 (Nat.leb_le _ 7)) by done];
      (split; [apply take_app_length|rewrite length_app; cbn [length]; lia]). }
  destruct Hkn as [Hkn Hlt]. assert (Hlane := fun i a b => masked_folded w k (map fold_bit name) i a b Hw Hk).
  assert (Hf : bytes_ok (map fold_bit name)) by (apply Forall_map, Forall_true; apply fold_bit_byte).
  assert (Hsplit : take (length k) w = take (length name) w ++ drop (length name) k).
  { rewrite <- (take_drop (length name) (take (length k) w)). rewrite take_take, Nat.min_l by lia. f_equal.
    apply list_eq. intros i. rewrite !lookup_drop. destruct (Nat.lt_ge_cases (length name + i) (length k)) as [Hi|Hi].
    2:{ rewrite !lookup_ge_None_2; [done|done|]. rewrite length_take. lia. }
    rewrite lookup_take_lt by done. destruct (lookup_lt_is_Some_2 w (length name + i) ltac:(lia)) as [b Hb2].
    destruct (lookup_lt_is_Some_2 k (length name + i) Hi) as [a Ha]. specialize (Hlane _ a b Hf ltac:(lia) E Ha Hb2).
    rewrite lookup_ge_None_2 in Hlane by (rewrite length_map; lia). cbn [default] in Hlane. rewrite Z.ldiff_0_r in Hlane.
    apply Z.lxor_eq in Hlane as ->. by rewrite Hb2. }
  exists (take (length name) w). split; [|rewrite <- Hsplit; by apply word_span; [lia|]].
  apply Forall2_same_length_lookup_2; [rewrite length_take; lia|]. intros i a b Ha Hb2. apply lookup_lt_Some in Ha as Hi.
  rewrite lookup_take_lt in Hb2 by done. assert (Hka : k !! i = Some a) by (rewrite <- Hkn in Ha; by rewrite lookup_take_lt in Ha).
  specialize (Hlane i a b Hf ltac:(lia) E Hka Hb2). rewrite list_lookup_fmap, Ha in Hlane. cbn [fmap option_fmap option_map default] in Hlane.
  apply fold_lane; [exact (Forall_lookup_1 _ _ _ _ Hb Ha)|exact (Forall_lookup_1 _ _ _ _ Hw Hb2)|done].
Qed.
(** The texts a compare accepts for a field. *)
Definition selects (f : typedField) (fold : bool) (actual : bytes) : Prop :=
  actual = tf_name f \/ (fold = true /\ tf_keyFold f <> 0 /\ EqualFold (tf_name f) actual = true).

Lemma EqualFold_sym a b : EqualFold a b = EqualFold b a.
Proof using. unfold EqualFold. apply bool_decide_ext. split; congruence. Qed.

(** The quote and the colon behind a name that ends at [e]. *)
Lemma close_span ks actual : span src ks actual (ks + length actual) ->
  at_byte src (ks + length actual) DQUOTE = true -> at_byte src (ks + length actual + 1) ":"%ch = true ->
  span src ks (actual ++ [DQUOTE; ":"%ch]) (ks + length actual + 2).
Proof using.
  intros Ha Hq%at_byte_spec Hc%at_byte_spec. eapply span_app; [exact Ha|]. apply span_cons_intro; [done|].
  replace (ks + length actual + 2)%nat with (S (S (ks + length actual))) by lia. apply span_one.
  by replace (S (ks + length actual)) with (ks + length actual + 1)%nat by lia.
Qed.

(** The quote is part of the word for a name of seven bytes, and the colon for a shorter one. *)
Lemma short_span f ks actual : (length (tf_name f) <= 7)%nat -> length actual = length (tf_name f) ->
  span src ks (actual ++ drop (length (tf_name f)) (key_bytes (tf_name f))) (ks + length (key_bytes (tf_name f))) ->
  (if (length (tf_name f) <=? 6)%nat then true else at_byte src (ks + length (tf_name f) + 1) ":"%ch) = true ->
  span src ks (actual ++ [DQUOTE; ":"%ch]) (ks + length (tf_name f) + 2).
Proof using.
  intros Hn Hl Hs Hc. unfold key_bytes in Hs. destruct (Nat.leb_spec (length (tf_name f)) 6).
  - rewrite drop_app_length in Hs. by rewrite length_app, Nat.add_assoc in Hs.
  - rewrite (proj2 (Nat.leb_le _ 7)), drop_app_length in Hs by done. apply span_split in Hs as [Hs [Hq _]%span_cons].
    rewrite <- Hl in *. apply close_span; [done|by apply at_byte_spec|done].
Qed.

Lemma expected_name_ref f ks : bytes_ok (tf_name f) -> packed f -> (ks + 8 <= length src)%nat ->
  expected_name src flags f (load64 src ks) ks = true ->
  exists actual, span src ks (actual ++ [DQUOTE; ":"%ch]) (ks + Z.to_nat (tf_keyLen f) + 2) /\
  selects f (negb (decoderCaseSensitive flags)) actual.
Proof using All.
  intros Hb Hp Hks. unfold expected_name. destruct (Z.eqb_spec (tf_keyMask f) 0) as [|Hm]; [done|]. cbv zeta.
  assert (Hlen : tf_keyLen f = Z.of_nat (length (tf_name f))).
  { destruct Hp as (fold & Hp & _). rewrite pack_key_ref in Hp by done. destruct (_ <=? 255)%nat; by simplify_eq. }
  rewrite Hlen, Nat2Z.id. set (n := length (tf_name f)) in *. set (diff := Z.land _ _). set (fold := negb (decoderCaseSensitive flags)).
  destruct (Z.eqb_spec diff 0) as [Hd|Hd]; cbn [negb andb].
  - destruct (exact_head f ks Hb Hp Hm Hks Hd) as [Hs _]. unfold key_bytes in Hs. fold n in Hs.
    destruct (Z.leb_spec (Z.of_nat n) 6) as [H6|H6].
    { intros _. exists (tf_name f). split; [|by left]. rewrite (proj2 (Nat.leb_le n 6)) in Hs by lia.
      by rewrite length_app, Nat.add_assoc in Hs. }
    rewrite (proj2 (Nat.leb_gt n 6)) in Hs by lia. destruct (Z.leb_spec (Z.of_nat n) 7) as [H7|H7].
    { intros Hc. exists (tf_name f). split; [|by left]. rewrite (proj2 (Nat.leb_le n 7)) in Hs by lia.
      apply span_split in Hs as [Hs [Hq _]%span_cons]. apply close_span; [done|by apply at_byte_spec|done]. }
    rewrite (proj2 (Nat.leb_gt n 7)) in Hs by lia. rewrite length_take, Nat.min_l in Hs by lia.
    destruct ((ks + n + 1 <? length src)%nat && at_byte src (ks + n) DQUOTE) eqn:Hq; [|done].
    apply andb_true_iff in Hq as [Hlt%Nat.ltb_lt Hq]. intros [[Ht|Ht]%orb_true_iff Hc]%andb_true_iff.
    + exists (tf_name f). split; [|by left]. apply close_span; [|done..]. apply matchStringAt_span in Ht; [|lia].
      rewrite <- (take_drop 8 (tf_name f)) at 1. eapply span_app; [exact Hs|]. rewrite length_drop in Ht. fold n in Ht |- *.
      by replace (ks + n)%nat with (ks + 8 + (n - 8))%nat by lia.
    + apply andb_true_iff in Ht as [[Hz Hf]%andb_true_iff He]. exists (slice src ks (ks + n)).
      assert (Hsl : length (slice src ks (ks + n)) = n) by (rewrite slice_len; lia). split.
      * rewrite <- Hsl at 2. apply close_span; rewrite ?Hsl; [|done..]. apply slice_span. lia.
      * right. split_and!; [done|lia|]. by rewrite EqualFold_sym.
  - destruct ((Z.ldiff diff (tf_keyFold f) =? 0) && fold) eqn:Hfold; cbn [negb]; [|done].
    apply andb_true_iff in Hfold as [Hl%Z.eqb_eq Hf].
    assert (Hz : tf_keyFold f <> 0) by (intros E; rewrite E, Z.ldiff_0_r in Hl; done).
    assert (Hshort : (n <= 7)%nat -> (if (n <=? 6)%nat then true else at_byte src (ks + n + 1) ":"%ch) = true ->
      exists actual, span src ks (actual ++ [DQUOTE; ":"%ch]) (ks + n + 2) /\ selects f fold actual).
    { intros Hn Hc. destruct (folded_head f ks Hb Hp Hn Hks Hl Hz) as (actual & Hall & Hs). exists actual. split.
      - apply short_span; [done|symmetry; by eapply Forall2_length|done..].
      - right. split_and!; [done..|]. by apply EqualFold_ascii. }
    destruct (Z.leb_spec (Z.of_nat n) 6) as [H6|H6].
    { intros _. apply Hshort; [lia|]. by rewrite (proj2 (Nat.leb_le n 6)) by lia. }
    destruct (Z.leb_spec (Z.of_nat n) 7) as [H7|H7].
    { intros Hc. apply Hshort; [lia|]. by rewrite (proj2 (Nat.leb_gt n 6)) by lia. }
    destruct ((ks + n + 1 <? length src)%nat && at_byte src (ks + n) DQUOTE) eqn:Hq; [|done].
    apply andb_true_iff in Hq as [Hlt%Nat.ltb_lt Hq]. cbn [orb]. intros [Ht Hc]%andb_true_iff.
    apply andb_true_iff in Ht as [_ He]. exists (slice src ks (ks + n)).
    assert (Hsl : length (slice src ks (ks + n)) = n) by (rewrite slice_len; lia). split.
    + rewrite <- Hsl at 2. apply close_span; rewrite ?Hsl; [|done..]. apply slice_span. lia.
    + right. split_and!; [done|done|]. by rewrite EqualFold_sym.
Qed.
Lemma after_colon_ref c e : (e + 2 <= length src)%nat -> after_colon src c e = Ok (set_i c (ref_ws src (e + 2))).
Proof using Hsrc.
  intros He. pose proof (skip_gap_ref src Hsrc (set_i c (e + 2)) ltac:(done)) as Hg. cbn [set_i d_i] in Hg.
  change (set_i (set_i c (e + 2)) ?j) with (set_i c j) in Hg.
  assert (Hgoal : after_colon src c e = Ok (skip_gap src (set_i c (e + 2)))); [|by rewrite Hgoal; f_equal].
  clear Hg. unfold after_colon, skip_gap, at_sat, at_byte. cbv zeta. cbn [set_i d_i].
  destruct (Nat.ltb_spec (e + 2) (length src)) as [Hlt|Hge].
  2:{ by rewrite lookup_ge_None_2. }
  destruct (lookup_lt_is_Some_2 src (e + 2) Hlt) as [b Hb]. unfold fastByteAt. rewrite Hb. cbn [unsafe res_bind].
  destruct (b <=? 32); [|done]. replace (S (e + 2)) with (e + 2 + 1)%nat by lia. destruct (b =? 32); cbn [andb res_bind]; [|done].
  destruct (Nat.ltb_spec (e + 2 + 1) (length src)) as [Hlt2|Hge2].
  - destruct (lookup_lt_is_Some_2 src (e + 2 + 1) Hlt2) as [b2 Hb2]. rewrite Hb2. cbn [unsafe res_bind]. by destruct (32 <? b2).
  - by rewrite lookup_ge_None_2 by done.
Qed.

(** The position of the quote a step looks at: behind the comma, but for the first member. *)
Lemma ref_field_key (first : bool) i k : (i <= length src)%nat ->
  (if first then k = ref_ws src i else src !! ref_ws src i = Some ","%ch /\ k = ref_ws src (S (ref_ws src i))) ->
  src !! k = Some DQUOTE -> ref_field src first i = ref_key src k.
Proof using Hsrc.
  intros Hi Hk Hq. pose proof (ref_ws_le src i Hi) as Hw. unfold ref_field. cbv zeta. destruct first.
  - subst k. by rewrite Hq.
  - destruct Hk as [Hc ->]. rewrite Hc. cbn [Z.eqb Pos.eqb]. apply lookup_lt_Some in Hc. by rewrite ref_key_ws by lia.
Qed.

Lemma skip_fast_ref i : (i <= length src)%nat -> (if at_sat src i (fun b => b <=? 32) then skipSpaceIndent src i else i) = ref_ws src i.
Proof using Hsrc. apply skip_at_ref. done. Qed.

(** The fast path answers a member the reference reads under the field's own name,
    or leaves the cursor alone. *)
Lemma match_expected_ref (first : bool) f c : bytes_ok (tf_name f) -> plain_name (tf_name f) -> packed f -> (d_i c <= length src)%nat ->
  matchObjectFieldExpected src first f c = Ok None \/
  exists j, matchObjectFieldExpected src first f c = Ok (Some (set_i c j)) /\ ref_field src first (d_i c) = Ok (j, Some (tf_name f)).
Proof using Hsrc.
  intros Hb Hplain Hp Hi. unfold matchObjectFieldExpected. cbv zeta. rewrite skip_fast_ref by done.
  pose proof (ref_ws_le src (d_i c) Hi) as Hw. set (i := ref_ws src (d_i c)) in *.
  destruct (Nat.leb_spec (length src) i) as [|Hlt]; cbn [orb]; [by left|]. destruct (Z.eqb_spec (tf_keyMask f) 0) as [|Hm]; [by left|].
  destruct (lookup_lt_is_Some_2 src i Hlt) as [b E]. unfold fastByteAt. rewrite !E. cbn [unsafe res_bind].
  assert (Hrest : forall k, (if first then k = i else src !! i = Some ","%ch /\ k = ref_ws src (S i)) -> src !! k = Some DQUOTE ->
    let r : res derr (option decoderCursor) := if (length src <? S k + 8)%nat then Ok None
      else let* word := unsafe (word_at src (S k)) in
      if negb (Z.land (Z.lxor word (tf_key f)) (tf_keyMask f) =? 0) then Ok None
      else
        let keyEnd := (S k + Z.to_nat (tf_keyLen f))%nat in
        if tf_keyLen f <=? 6 then let* c := after_colon src c keyEnd in Ok (Some c)
        else
          let* other := if (length src <? keyEnd + 2)%nat then Ok true
                        else let* w := unsafe (load16 src keyEnd) in Ok (negb (w =? quoteColonLE)) in
          if (other : bool) then Ok None
          else if (7 <? tf_keyLen f) && negb (matchStringAt src (S k + 8) (drop 8 (tf_name f))) then Ok None
          else let* c := after_colon src c keyEnd in Ok (Some c) in
    r = Ok None \/ exists j, r = Ok (Some (set_i c j)) /\ ref_field src first (d_i c) = Ok (j, Some (tf_name f))).
  { intros k Hk Hq r. subst r. destruct (Nat.ltb_spec (length src) (S k + 8)) as [|H8]; [by left|].
    unfold word_at. rewrite (proj2 (Nat.leb_le _ _) H8). cbn [unsafe res_bind]. unfold loadUint64LE.
    destruct (Z.eqb_spec (Z.land (Z.lxor (load64 src (S k)) (tf_key f)) (tf_keyMask f)) 0) as [Hd|]; cbn [negb]; [|by left].
    destruct (exact_head f (S k) Hb Hp Hm H8 Hd) as [Hs Hl]. cbv zeta. rewrite Hl, Nat2Z.id. set (n := length (tf_name f)) in *.
    assert (Hdone : span src (S k) (tf_name f ++ [DQUOTE; ":"%ch]) (S k + n + 2) ->
      (let* c := after_colon src c (S k + n) in Ok (Some c)) = Ok None \/
      exists j, (let* c := after_colon src c (S k + n) in Ok (Some c)) = Ok (Some (set_i c j)) /\
      ref_field src first (d_i c) = Ok (j, Some (tf_name f))).
    { intros Hsp. pose proof (span_le _ _ _ _ Hsp). right. exists (ref_ws src (S k + n + 2)). rewrite after_colon_ref by lia. split; [done|].
      rewrite (ref_field_key first (d_i c) k) by done. apply key_span_ref; [done|by apply good_runes_plain|done]. }
    destruct (Z.leb_spec (Z.of_nat n) 6) as [H6|H6].
    { apply Hdone. unfold key_bytes in Hs. fold n in Hs. rewrite (proj2 (Nat.leb_le n 6)) in Hs by lia.
      by rewrite length_app, Nat.add_assoc in Hs. }
    destruct (Nat.ltb_spec (length src) (S k + n + 2)) as [|Hle]; [by left|].
    destruct (quote_colon src Hsrc (S k + n) Hle) as (w & Hw16 & Hqc). rewrite Hw16. cbn [unsafe res_bind]. rewrite Hqc.
    destruct (at_byte src (S k + n) DQUOTE && at_byte src (S k + n + 1) ":"%ch) eqn:Ec; cbn [negb]; [|by left].
    apply andb_true_iff in Ec as [Hq2 Hc2]. unfold key_bytes in Hs. fold n in Hs. rewrite (proj2 (Nat.leb_gt n 6)) in Hs by lia.
    destruct (Z.ltb_spec 7 (Z.of_nat n)) as [H7|H7]; cbn [andb].
    - destruct (matchStringAt src (S k + 8) (drop 8 (tf_name f))) eqn:Ht; cbn [negb]; [|by left]. apply Hdone.
      rewrite (proj2 (Nat.leb_gt n 7)) in Hs by lia. rewrite length_take, Nat.min_l in Hs by lia. apply close_span; [|done..].
      apply matchStringAt_span in Ht; [|lia]. rewrite <- (take_drop 8 (tf_name f)) at 1. eapply span_app; [exact Hs|].
      rewrite length_drop in Ht. fold n in Ht |- *. by replace (S k + n)%nat with (S k + 8 + (n - 8))%nat by lia.
    - apply Hdone. rewrite (proj2 (Nat.leb_le n 7)) in Hs by lia. apply span_split in Hs as [Hs _]. by apply close_span. }
  destruct first.
  - destruct (Z.eqb_spec b DQUOTE) as [->|]; [|by left]. exact (Hrest i eq_refl E).
  - destruct (Z.eqb_spec b ","%ch) as [->|]; cbn [negb res_bind]; [|by left]. rewrite skip_fast_ref by lia.
    pose proof (ref_ws_le src (S i) ltac:(lia)) as Hw2. destruct (Nat.leb_spec (length src) (ref_ws src (S i))) as [|Hlt2]; [by left|].
    destruct (lookup_lt_is_Some_2 src _ Hlt2) as [b2 E2]. rewrite !E2. cbn [unsafe res_bind].
    destruct (Z.eqb_spec b2 DQUOTE) as [->|]; [|by left]. exact (Hrest _ (conj E eq_refl) E2).
Qed.
(** An answer of the step: the reference's member, given by its name or by the field
    its name selects. *)
Definition answers (f : typedField) (key : option bytes) (m : member) : Prop :=
  match key with
  | None => m = NoMember
  | Some name => m = Member name \/ (m = Matched /\ selects f (negb (decoderCaseSensitive flags)) name)
  end.

Definition step_answers (f : typedField) (c : decoderCursor) (rr : res rerr (nat * option bytes)) (r : res derr (member * decoderCursor)) : Prop :=
  match rr with
  | Ok (j, key) => exists m, r = Ok (m, if is_live key then set_i c j else leave c j) /\ answers f key m
  | Err (o, msg) => r = Err (DSyntax (syntax_at src o msg))
  | _ => False
  end.

Lemma ref_key_returns i : returns (ref_key src i).
Proof using Hsrc.
  unfold ref_key. cbv zeta. destruct (at_byte _ _ _); [|by eauto with vj]. apply returns_bind; [by apply ref_str_cases|].
  intros [j name] _. destruct (at_byte _ _ _); by eauto with vj.
Qed.

Lemma ref_field_returns first i : returns (ref_field src first i).
Proof using Hsrc.
  unfold ref_field. cbv zeta. destruct (src !! _) as [b|]; [|by eauto with vj]. destruct (b =? _); [by eauto with vj|].
  destruct first; [apply ref_key_returns|]. destruct (b =? _); [apply ref_key_returns|by eauto with vj].
Qed.

Lemma next_member_answers first f c : (d_i c <= length src)%nat ->
  step_answers f c (ref_field src first (d_i c)) (next_member src first c).
Proof using Hsrc.
  intros Hi. unfold next_member. rewrite NextObjectField_ref by done. unfold step_answers, step_result.
  pose proof (ref_field_returns first (d_i c)) as Hr.
  destruct (ref_field src first (d_i c)) as [[j [name|]]|[o m]| |]; cbn [res_bind is_live].
  - exists (Member name). split; [done|by left].
  - by exists NoMember.
  - done.
  - destruct Hr as [[]|[]]; congruence.
  - destruct Hr as [[]|[]]; congruence.
Qed.

Lemma selects_plain f fold actual : bytes_ok (tf_name f) -> plain_name (tf_name f) -> bytes_ok actual -> selects f fold actual -> plain_run actual.
Proof using All.
  intros Hb Hp Ha [->|(_ & _ & E)]; [by apply good_runes_plain|]. by apply (EqualFold_plain (tf_name f)).
Qed.

(** The scan of a key without specials, from its word or behind it. *)
Lemma special_skip ks : (ks + 8 <= length src)%nat -> stringSpecialMask (load64 src ks) = 0 ->
  scanStringSpecial src (ks + 8) = scanStringSpecial src ks.
Proof using Hsrc.
  intros Hks Hm. rewrite !scanStringSpecial_spec, <- !scan_ref_all by (done || lia). symmetry.
  apply (word_hit_none stringSpecialMask); [|done|lia|].
  - intros l ??. by apply special_mask_first.
  - unfold word_hit. by rewrite Hm.
Qed.

Lemma slow_key_answers first f c k : bytes_ok (tf_name f) -> plain_name (tf_name f) -> packed f -> (d_i c <= length src)%nat ->
  src !! k = Some DQUOTE -> ref_field src first (d_i c) = ref_key src k ->
  let keyStart := S k in
  step_answers f c (ref_field src first (d_i c))
    (if (length src <? keyStart + 8)%nat then next_member src first c
     else
       let word := load64 src keyStart in
       if expected_name src flags f word keyStart
       then Ok (Matched, skip_gap src (set_i c (keyStart + Z.to_nat (tf_keyLen f) + 2)))
       else
         let special := stringSpecialMask word in
         let keyEnd :=
           if negb (special =? 0) then (keyStart + Z.to_nat (TrailingZeros64 special / 8))%nat
           else scanStringSpecial src (keyStart + 8) in
         if negb (at_byte src keyEnd DQUOTE) || negb (at_byte src (keyEnd + 1) ":"%ch) then next_member src first c
         else Ok (Member (slice src keyStart keyEnd), skip_gap src (set_i c (keyEnd + 2)))).
Proof using All.
  intros Hb Hplain Hp Hi Hq Href keyStart. subst keyStart. destruct (Nat.ltb_spec (length src) (S k + 8)) as [|H8]; [by apply next_member_answers|].
  cbv zeta. destruct (expected_name src flags f (load64 src (S k)) (S k)) eqn:E.
  - destruct (expected_name_ref f (S k) Hb Hp H8 E) as (actual & Hs & Hsel). pose proof (span_le _ _ _ _ Hs) as Hle.
    pose proof (span_split _ _ _ _ _ Hs) as [Ha%span_slice _].
    assert (Hab : bytes_ok actual) by (rewrite <- Ha; by apply slice_bytes).
    pose proof (selects_plain _ _ _ Hb Hplain Hab Hsel) as Hrun. rewrite Href, (key_span_ref k actual _ Hq Hrun Hs).
    cbn [step_answers is_live]. exists Matched. rewrite skip_gap_ref by (done || (cbn [set_i d_i]; lia)). split; [done|]. by right.
  - assert (He : (if negb (stringSpecialMask (load64 src (S k)) =? 0)
        then (S k + Z.to_nat (TrailingZeros64 (stringSpecialMask (load64 src (S k))) / 8))%nat
        else scanStringSpecial src (S k + 8)) = scanStringSpecial src (S k)).
    { destruct (Z.eqb_spec (stringSpecialMask (load64 src (S k))) 0); cbn [negb]; [by apply special_skip|by apply special_mask_scan]. }
    rewrite He. set (e := scanStringSpecial src (S k)). destruct (at_byte src e DQUOTE) eqn:Hq2; cbn [negb orb]; [|by apply next_member_answers].
    destruct (at_byte src (e + 1) ":"%ch) eqn:Hc; cbn [negb]; [|by apply next_member_answers].
    rewrite Href, (key_plain_ref src Hsrc k Hq Hq2 Hc). fold e. cbn [step_answers is_live]. apply at_byte_lt in Hc as Hlt.
    eexists. rewrite skip_gap_ref by (done || (cbn [set_i d_i]; lia)). split; [done|by left].
Qed.

Lemma expected_slow_answers first f c : bytes_ok (tf_name f) -> plain_name (tf_name f) -> packed f -> (d_i c <= length src)%nat ->
  step_answers f c (ref_field src first (d_i c)) (nextObjectFieldExpectedSlow src flags first f c).
Proof using All.
  intros Hb Hplain Hp Hi. unfold nextObjectFieldExpectedSlow. cbv zeta. rewrite skip_at_ref by done.
  pose proof (ref_ws_le src (d_i c) Hi) as Hw. set (i := ref_ws src (d_i c)) in *.
  at_pos src i as b E; [|by apply next_member_answers]. apply lookup_lt_Some in E as Hlt.
  assert (Hend : b = "}"%ch -> step_answers f c (ref_field src first (d_i c)) (Ok (NoMember, leave c (S i)))).
  { intros ->. unfold ref_field. fold i. rewrite E. cbn. by exists NoMember. }
  destruct first; (destruct (Z.eqb_spec b "}"%ch) as [Hb2|Hb2]; [by apply Hend|]).
  - destruct (Z.eqb_spec b DQUOTE) as [->|]; cbn [negb]; [|by apply next_member_answers].
    apply (slow_key_answers true); [done..|]. by apply ref_field_key.
  - destruct (Z.eqb_spec b ","%ch) as [->|]; [|by apply next_member_answers]. rewrite skip_at_ref by (done || lia).
    destruct (at_byte src (ref_ws src (S i)) DQUOTE) eqn:Hq; cbn [negb]; [|by apply next_member_answers].
    apply at_byte_spec in Hq. apply (slow_key_answers false); [done..|]. by apply ref_field_key.
Qed.

(** The member step of a record: the outcome of the reference reading, the field
    being the one the whole name selects. *)
Lemma expected_member_answers fields p f first c :
  record_ok fields -> fields !! p = Some f -> (d_i c <= length src)%nat ->
  exists c0, (c0 = c \/ c0 = set_slow c) /\
  match ref_field src first (d_i c) with
  | Ok (j, key) => exists m, expected_member src flags first f c = Ok (m, if is_live key then set_i c0 j else leave c0 j) /\
      match key with
      | None => m = NoMember
      | Some name => m = Member name \/ (m = Matched /\ choose fields (negb (decoderCaseSensitive flags)) name = Some f)
      end
  | Err (o, msg) => expected_member src flags first f c = Err (DSyntax (syntax_at src o msg))
  | _ => False
  end.
Proof using All.
  intros Hok Hf Hi. assert (Hb : bytes_ok (tf_name f)) by (apply (ro_bytes _ Hok p); unfold name_at; by rewrite Hf).
  pose proof (ro_plain _ Hok p f Hf) as Hplain. pose proof (ro_packed _ Hok p f Hf) as Hp. unfold expected_member.
  assert (Hslow : exists c0, (c0 = c \/ c0 = set_slow c) /\
    match ref_field src first (d_i c) with
    | Ok (j, key) => exists m, nextObjectFieldExpectedSlow src flags first f (set_slow c) = Ok (m, if is_live key then set_i c0 j else leave c0 j) /\
        match key with
        | None => m = NoMember
        | Some name => m = Member name \/ (m = Matched /\ choose fields (negb (decoderCaseSensitive flags)) name = Some f)
        end
    | Err (o, msg) => nextObjectFieldExpectedSlow src flags first f (set_slow c) = Err (DSyntax (syntax_at src o msg))
    | _ => False
    end).
  { exists (set_slow c). split; [by right|]. pose proof (expected_slow_answers first f (set_slow c) Hb Hplain Hp Hi) as Ha.
    cbn [set_slow d_i] in Ha. unfold step_answers in Ha. destruct (ref_field src first (d_i c)) as [[j key]|[o msg]| |]; [|done..].
    destruct Ha as (m & -> & Hm). exists m. split; [done|]. destruct key as [name|]; [|done]. destruct Hm as [->|[-> Hsel]]; [by left|right].
    split; [done|]. destruct Hsel as [->|(Hfo & Hz & E)]; [by apply (choose_exact fields _ p)|]. rewrite Hfo. by apply (choose_folded fields p). }
  destruct (decoderExpectedSlow c); cbn [res_bind]; [done|].
  destruct (match_expected_ref first f c Hb Hplain Hp Hi) as [->|(j & -> & ->)]; cbn [res_bind]; [done|].
  exists c. split; [by left|]. exists Matched. cbn [is_live]. split; [done|right]. split; [done|]. by apply (choose_exact fields _ p).
Qed.
End Packed.

(** The step of the member loop at a position: the packed compare while the plan
    expects a field there. *)
Definition member_at (src : bytes) (flags : decoderFlags) `{CaseFolding} (fields : list typedField) (position : nat) (first : bool)
  (c : decoderCursor) : res derr (member * decoderCursor) :=
  match fields !! position with
  | Some field => expected_member src flags first field c
  | None => next_member src first c
  end.

(** The field a step's answer goes to. *)
Definition member_field `{CaseFolding} (fields : list typedField) (table : option (list Z)) (mask : Z) (fold : bool) (position : nat) (m : member) :
  res unit (option typedField) :=
  match m with
  | Member key => findFieldSlow fields table mask key fold
  | _ => Ok (fields !! position)
  end.

Section Step.
Context (src : bytes) (flags : decoderFlags) `{FoldingLaws}.
Hypothesis Hsrc : bytes_ok src.

Lemma member_at_ref fields position first c : record_ok fields -> (d_i c <= length src)%nat ->
  match ref_field src first (d_i c) with
  | Ok (j, key) => exists m c', member_at src flags fields position first c = Ok (m, c') /\ d_i c' = j /\
    d_depth c' = (if is_live key then d_depth c else d_depth c - 1) /\
    match key with
    | None => m = NoMember
    | Some name => m = Member name \/ (m = Matched /\ is_Some (fields !! position) /\ choose fields (negb (decoderCaseSensitive flags)) name = fields !! position)
    end
  | Err (o, msg) => member_at src flags fields position first c = Err (DSyntax (syntax_at src o msg))
  | _ => False
  end.
Proof using All.
  intros Hok Hi. unfold member_at. destruct (fields !! position) as [f|] eqn:Hf.
  - destruct (expected_member_answers src flags Hsrc fields position f first c Hok Hf Hi) as (c0 & Hc0 & Ha).
    destruct (ref_field src first (d_i c)) as [[j key]|[o msg]| |]; [|done..]. destruct Ha as (m & -> & Hm).
    eexists m, _. split; [done|]. assert (Hd : d_depth c0 = d_depth c) by (by destruct Hc0 as [-> | ->]).
    destruct key; cbn [is_live set_i leave d_i d_depth]; rewrite Hd; naive_solver.
  - unfold next_member. rewrite NextObjectField_ref by done. pose proof (ref_field_returns src Hsrc first (d_i c)) as Hr.
    destruct (ref_field src first (d_i c)) as [[j key]|[o msg]| |]; cbn [step_result res_bind]; [|done|destruct Hr as [[]|[]]; congruence..].
    eexists _, _. split; [done|]. destruct key; cbn; auto.
Qed.

Lemma member_field_ref fields table mask fold position m name : record_ok fields -> Z.of_nat (length fields) < 2 ^ 30 ->
  build_table fields = Ok (table, mask) ->
  m = Member name \/ (m = Matched /\ is_Some (fields !! position) /\ choose fields fold name = fields !! position) ->
  member_field fields table mask fold position m = Ok (choose fields fold name).
Proof using.
  intros Hok Hlen Ht [->|(-> & _ & Hc)]; cbn [member_field]; [|by rewrite Hc].
  destruct (findFieldSlow_ref fields name fold (ro_distinct _ Hok) Hlen) as (t & m0 & Ht2 & E). rewrite Ht2 in Ht. by simplify_eq.
Qed.
End Step.

(** C30: A step of the member loop of a record reads exactly one member of the object as the reference reading does, with its error, its end and its key, whatever field the plan expected there and whether the packed compare took part; and the member goes to the field its whole name selects among all fields: the one of that name, else (unless names are case-sensitive) the first whose name folds to it. The record is any the compiler makes of distinct plain names, with its packed keys, its disabled folds and its hash table. *)
Theorem member_selected (src : bytes) (flags : decoderFlags) `{FoldingLaws} (rs : list resolvedField) (position : nat) (first : bool) (c : decoderCursor) :
  bytes_ok src -> Forall (fun r => bytes_ok (rf_name r) /\ plain_name (rf_name r)) rs -> NoDup (map rf_name rs) ->
  Z.of_nat (length rs) < 2 ^ 30 -> (d_i c <= length src)%nat ->
  let fields := compile_fields rs in
  let fold := negb (decoderCaseSensitive flags) in
  exists table mask, build_table fields = Ok (table, mask) /\
  match ref_field src first (d_i c) with
  | Ok (j, key) => exists m c', member_at src flags fields position first c = Ok (m, c') /\ d_i c' = j /\
    match key with
    | None => m = NoMember
    | Some name => m <> NoMember /\ member_field fields table mask fold position m = Ok (choose fields fold name)
    end
  | Err (o, msg) => member_at src flags fields position first c = Err (DSyntax (syntax_at src o msg))
  | _ => False
  end.
Proof.
  intros Hsrc Hrs Hnd Hlen Hi fields fold. pose proof (compile_fields_ok rs Hrs Hnd) as Hok. fold fields in Hok.
  assert (Hl : Z.of_nat (length fields) < 2 ^ 30).
  { rewrite <- (length_map tf_name). subst fields. rewrite compile_names, length_map; [done|]. eapply Forall_impl; [exact Hrs|by intros ? []]. }
  destruct (findFieldSlow_ref fields [] fold (ro_distinct _ Hok) Hl) as (table & mask & Ht & _). exists table, mask. split; [done|].
  pose proof (member_at_ref src flags Hsrc fields position first c Hok Hi) as Ha.
  destruct (ref_field src first (d_i c)) as [[j key]|[o msg]| |]; [|done..]. destruct Ha as (m & c' & E & Hj & _ & Hm).
  exists m, c'. split_and!; [done..|]. destruct key as [name|]; [|done].
  split; [by destruct Hm as [-> | [-> _]]|by apply (member_field_ref fields table mask fold position)].
Qed.

(** Nine members, so that the record has a table; "Key" and "key" fold alike. *)
Definition sample_fields : list resolvedField :=
  imap (fun i s => mkResolved s i 0 None) [bs "id"; bs "Name"; bs "description"; bs "Key"; bs "a"; bs "b"; bs "c"; bs "d"; bs "key"].

(** A member whose name folds to the expected field's. *)
Lemma member_selected_witness :
  let src := js "{'NAME':1}" in let c := set_i newDecoderCursor 1 in let flags := mkFlags false false false false false in
  let fields := @compile_fields ascii_folding sample_fields in
  exists table mask, build_table fields = Ok (table, mask) /\
  exists m c', @member_at src flags ascii_folding fields 1 true c = Ok (m, c') /\ d_i c' = 8%nat /\
  @member_field ascii_folding fields table mask true 1 m = Ok (fields !! 1%nat).
Proof.
  pose proof (@member_selected (js "{'NAME':1}") (mkFlags false false false false false) ascii_folding ascii_folding_laws sample_fields 1 true
    (set_i newDecoderCursor 1)) as Hm.
  destruct Hm as (table & mask & Ht & Hm);
    [concrete_bytes|repeat constructor; vm_compute; congruence|apply (bool_decide_eq_true_1 (NoDup _)); vm_compute; reflexivity|vm_compute; reflexivity|vm_compute; lia|].
  exists table, mask. split; [exact Ht|]. cbv zeta in Hm.
  assert (E : ref_field (js "{'NAME':1}") true (d_i (set_i newDecoderCursor 1)) = Ok (8%nat, Some (bs "NAME"))) by (vm_compute; reflexivity).
  rewrite E in Hm. destruct Hm as (m & c' & Em & Hj & _ & Hf). exists m, c'. split; [exact Em|]. split; [exact Hj|].
  transitivity (Ok (@choose ascii_folding (@compile_fields ascii_folding sample_fields) true (bs "NAME")) : res unit (option typedField)).
  - exact Hf.
  - vm_compute. reflexivity.
Defined.
