(* ===== verification/TypedPlan.v ===== *)
(** Compiled decode plans ([typed_plan.go], [typed_decode_plan.go]) and the Go values
    they describe.  A plan is a graph of nodes, by number; a value is a tree.  A
    struct is the list of its fields' values, embedded structs flattened as their
    offsets are; a slice has, beside its elements, the stale contents of its spare
    capacity, behind which fresh memory is zero. *)

From S2P Require Import Prelude Words Utf8 Scanner Lex Grammar StringRef Numbers Reader FastValid ParserString NumberEqual Digits DecoderCursor DecoderScalar OpenAddr FieldFold FieldTable.
From stdpp Require Import gmap.
Open Scope Z_scope.

(** ** Values *)

(** The keys of a Go map: strings, or integers. *)
Abbreviation map_key := (bytes + Z)%type.

(** Of a pointer, only what it points to: two pointers of one destination are taken
    to be different objects. *)
#[warnings="-register-all"] Inductive gval : Type :=
  | VBool (b : bool)
  | VString (s : bytes)
  | VInt (z : Z)
  | VUint (z : Z)
  | VStruct (slots : list gval)
  | VSlice (s : option (list gval * list gval))
  | VArray (l : list gval)
  | VPointer (p : option gval)
  | VMap (m : option (gmap map_key gval)).

(** ** Nodes *)

(** The kinds of the plans modelled: those of merge plans, without floats, byte
    slices, interfaces and custom methods. *)
Inductive typedKind : Type :=
  | typedBool
  | typedString
  | typedNumber
  | typedInt
  | typedUint
  | typedStruct
  | typedSlice
  | typedArray
  | typedPointer
  | typedMap.

#[export] Instance typedKind_eq_dec : EqDecision typedKind.
Proof. solve_decision. Defined.

Inductive typedMapKeyKind : Type := mapKeyString | mapKeyInt | mapKeyUint.

(** One embedded pointer on the way to a promoted field; [hop_zero] is what
    [reflect.New] allocates for it. *)
Record typedFieldHop : Type := mkHop { hop_slot : nat; hop_zero : gval; hop_pointee : string; hop_unexported : bool }.

(** [tn_zero] is the zero value of the type; [tn_slots] has the node of every slot
    of a struct, [None] for a slot outside the plan. *)
Record typedNode : Type := mkTyped {
  tn_kind : typedKind;
  tn_bits : Z;
  tn_elem : nat;
  tn_length : nat;
  tn_name : string;
  tn_zero : gval;
  tn_mapKeyKind : typedMapKeyKind;
  tn_keyBits : Z;
  tn_keyName : string;
  tn_slots : list (option nat);
  tn_fields : list typedField;
  tn_fieldTable : option (list Z);
  tn_fieldTableMask : Z;
  tn_fieldHops : list (list typedFieldHop)
  }.

Abbreviation plan := (list typedNode).

(** ** Types *)

Section Types.
Context `{CaseFolding} (p : plan).

#[warnings="-register-all"] Inductive has_type : nat -> gval -> Prop :=
  | HT_bool n nd b : p !! n = Some nd -> tn_kind nd = typedBool -> has_type n (VBool b)
  | HT_string n nd s : p !! n = Some nd -> tn_kind nd = typedString -> has_type n (VString s)
  | HT_number n nd s : p !! n = Some nd -> tn_kind nd = typedNumber -> has_type n (VString s)
  | HT_int n nd z : p !! n = Some nd -> tn_kind nd = typedInt -> - 2 ^ (tn_bits nd - 1) <= z < 2 ^ (tn_bits nd - 1) -> has_type n (VInt z)
  | HT_uint n nd z : p !! n = Some nd -> tn_kind nd = typedUint -> 0 <= z < 2 ^ tn_bits nd -> has_type n (VUint z)
  | HT_struct n nd slots : p !! n = Some nd -> tn_kind nd = typedStruct -> Forall2 slot_type (tn_slots nd) slots -> has_type n (VStruct slots)
  | HT_slice_nil n nd : p !! n = Some nd -> tn_kind nd = typedSlice -> has_type n (VSlice None)
  | HT_slice n nd l stale : p !! n = Some nd -> tn_kind nd = typedSlice ->
      Forall (has_type (tn_elem nd)) l -> Forall (has_type (tn_elem nd)) stale -> has_type n (VSlice (Some (l, stale)))
  | HT_array n nd l : p !! n = Some nd -> tn_kind nd = typedArray -> length l = tn_length nd ->
      Forall (has_type (tn_elem nd)) l -> has_type n (VArray l)
  | HT_pointer_nil n nd : p !! n = Some nd -> tn_kind nd = typedPointer -> has_type n (VPointer None)
  | HT_pointer n nd v : p !! n = Some nd -> tn_kind nd = typedPointer -> has_type (tn_elem nd) v -> has_type n (VPointer (Some v))
  | HT_map_nil n nd : p !! n = Some nd -> tn_kind nd = typedMap -> has_type n (VMap None)
  | HT_map n nd m : p !! n = Some nd -> tn_kind nd = typedMap ->
      (forall k v, m !! k = Some v -> key_type nd k /\ has_type (tn_elem nd) v) -> has_type n (VMap (Some m))
with slot_type : option nat -> gval -> Prop :=
  | ST_outside v : slot_type None v
  | ST_node n v : has_type n v -> slot_type (Some n) v
with key_type : typedNode -> map_key -> Prop :=
  | KT_string nd s : tn_mapKeyKind nd = mapKeyString -> key_type nd (inl s)
  | KT_int nd z : tn_mapKeyKind nd = mapKeyInt -> - 2 ^ (tn_keyBits nd - 1) <= z < 2 ^ (tn_keyBits nd - 1) -> key_type nd (inr z)
  | KT_uint nd z : tn_mapKeyKind nd = mapKeyUint -> 0 <= z < 2 ^ tn_keyBits nd -> key_type nd (inr z).

(** A field's path from the slots of its struct. *)
Inductive path_type : list (option nat) -> list typedFieldHop -> nat -> nat -> Prop :=
  | PT_slot slots slot n : slots !! slot = Some (Some n) -> path_type slots [] slot n
  | PT_hop slots hop hops slot n q pnd snd_ : slots !! hop_slot hop = Some (Some q) -> p !! q = Some pnd -> tn_kind pnd = typedPointer ->
      p !! tn_elem pnd = Some snd_ -> tn_kind snd_ = typedStruct -> has_type (tn_elem pnd) (hop_zero hop) ->
      path_type (tn_slots snd_) hops slot n -> path_type slots (hop :: hops) slot n.

(** The embedded pointers on the way to a field. *)
Definition field_hops (nd : typedNode) (f : typedField) : option (list typedFieldHop) :=
  match tf_hop f with None => Some [] | Some h => tn_fieldHops nd !! h end.

(** What the compiler makes of a Go type.  [rank] bounds the nesting by value and the
    chains of pointers below a node: a Go type has a finite size, and a pointer
    type without a value at the end of its chain cannot be decoded into. *)
Record node_ok (rank : nat -> nat) (n : nat) (nd : typedNode) : Prop := {
  no_rank : (rank n < length p)%nat;
  no_bits : tn_kind nd = typedInt \/ tn_kind nd = typedUint -> int_width (tn_bits nd);
  no_zero : has_type n (tn_zero nd);
  no_elem : tn_kind nd = typedSlice \/ tn_kind nd = typedArray \/ tn_kind nd = typedPointer \/ tn_kind nd = typedMap ->
    (tn_elem nd < length p)%nat;
  no_array : tn_kind nd = typedArray -> (rank (tn_elem nd) < rank n)%nat;
  no_chain : forall e, tn_kind nd = typedPointer -> p !! tn_elem nd = Some e -> tn_kind e = typedPointer ->
    (rank (tn_elem nd) < rank n)%nat;
  no_record : tn_kind nd = typedStruct -> record_ok (tn_fields nd);
  no_size : tn_kind nd = typedStruct -> Z.of_nat (length (tn_fields nd)) < 2 ^ 30;
  no_table : tn_kind nd = typedStruct -> build_table (tn_fields nd) = Ok (tn_fieldTable nd, tn_fieldTableMask nd);
  no_fields : forall i f, tn_kind nd = typedStruct -> tn_fields nd !! i = Some f ->
    exists hops, field_hops nd f = Some hops /\ path_type (tn_slots nd) hops (tf_slot f) (tf_node f) /\
    (hops = [] -> (rank (tf_node f) < rank n)%nat)
  }.

Definition plan_ok : Prop := exists rank, forall n nd, p !! n = Some nd -> node_ok rank n nd.
End Types.
