(* ===== verification/TypedDecode.v ===== *)
(** [typed_compiled.go], [typed_compiled_record.go], [typed_compiled_sequence.go],
    [typed_compiled_sequence_array.go], [typed_compiled_value.go], [typed_reset.go]
    and [decodeTypedDocument] of [typed.go]: the decoders that run a plan, in merge
    mode and without the structural tape.  Each takes the value the destination
    holds and returns the one it leaves there, on an error too.  How much fresh
    memory a growing slice takes is not modelled. *)

From S2P Require Import Prelude Words Utf8 Scanner Lex Grammar StringRef Errors Numbers Reader Validator FastValid ParserString Layout NumberEqual Digits DecoderCursor DecoderScalar OpenAddr FieldFold FieldTable FieldMatch TypedPlan.
From stdpp Require Import gmap.
Open Scope Z_scope.

(** A decoder's outcome: what it leaves in the destination, and its result. *)
Definition outcome (A : Type) : Type := gval * res derr A.

Definition outcome_bind {A B} (m : outcome A) (k : gval -> A -> outcome B) : outcome B :=
  match m with
  | (v, Ok a) => k v a
  | (v, Err e) => (v, Err e)
  | (v, Panic) => (v, Panic)
  | (v, NoFuel) => (v, NoFuel)
  end.

Notation "'let@' v ; x := m 'in' k" := (outcome_bind m (fun v x => k))
  (at level 10, v name, x pattern, m at level 200, k at level 200).

(** An outcome with its error wrapped. *)
Definition wrap_error {A} (f : derr -> derr) (m : outcome A) : outcome A :=
  match m with (v, Err e) => (v, Err (f e)) | _ => m end.

(** An outcome for a part of the destination, as one for the whole. *)
Definition within {A} (put : gval -> gval) (m : outcome A) : outcome A := (put m.1, m.2).

(** ** Map keys *)

(** [Value.OverflowInt] and [Value.OverflowUint]. *)
Definition OverflowInt (bits x : Z) : bool := (x <? - 2 ^ (bits - 1)) || (2 ^ (bits - 1) <=? x).
Definition OverflowUint (bits x : Z) : bool := 2 ^ bits <=? x.

Definition setMapKeyValue (nd : typedNode) (key : bytes) : map_key + string :=
  let bad := inr (String.append "cannot parse map key as " (tn_keyName nd)) in
  match tn_mapKeyKind nd with
  | mapKeyString => inl (inl key)
  | mapKeyInt =>
      let (parsed, ok) := ParseInt64 key in
      if negb ok || OverflowInt (tn_keyBits nd) parsed then bad else inl (inr parsed)
  | mapKeyUint =>
      match ParseUint64 key with
      | Some (parsed, ok) => if negb ok || OverflowUint (tn_keyBits nd) parsed then bad else inl (inr parsed)
      | None => bad
      end
  end.

(** ** Resets *)

Section Reset.
Context (p : plan).

Definition reset_fields (reset : nat -> gval -> option gval) (fields : list typedField) (slots : list gval) : option (list gval) :=
  foldl (fun acc f =>
    slots ← acc;
    match tf_hop f with
    | Some _ => Some slots
    | None => v ← slots !! tf_slot f; v' ← reset (tf_node f) v; Some (<[tf_slot f := v']> slots)
    end) (Some slots) fields.

(** [resetTyped]; a merge plan has no embedded-pointer resets. *)
Fixpoint resetTyped (fuel : nat) (n : nat) (v : gval) : option gval :=
  match fuel with
  | O => None
  | S fuel =>
      match p !! n with
      | None => None
      | Some nd =>
      match tn_kind nd with
      | typedBool => Some (VBool false)
      | typedString | typedNumber => Some (VString [])
      | typedInt => Some (VInt 0)
      | typedUint => Some (VUint 0)
      | typedStruct =>
          match v with
          | VStruct slots => option_map VStruct (reset_fields (resetTyped fuel) (tn_fields nd) slots)
          | _ => None
          end
      | typedSlice => Some (VSlice None)
      | typedArray => match v with VArray l => option_map VArray (mapM (resetTyped fuel (tn_elem nd)) l) | _ => None end
      | typedPointer => Some (VPointer None)
      | typedMap => Some (VMap None)
      end
      end
  end.

Definition zeroTypedArrayTail (n : nat) (l : list gval) (from : nat) : option (list gval) :=
  option_map (app (take from l)) (mapM (resetTyped (length p) n) (drop from l)).
End Reset.

(** ** Decoders *)

Section Decode.
Context `{CaseFolding} (src : bytes) (maxDepth : Z) (flags : decoderFlags).
Context (Quote : bytes -> string) (aliases : bytes -> bool) (p : plan).

Definition zero_of (n : nat) : res derr gval := match p !! n with Some nd => Ok (tn_zero nd) | None => Panic end.

(** A scalar method: the destination changes on success only. *)
Definition store_scalar {A} (inj : A -> gval) (nd : typedNode) (dst : gval) (r : res derr (A * decoderCursor)) : outcome decoderCursor :=
  match r with
  | Ok (v, c) => (inj v, Ok c)
  | Err e => (dst, Err (retagCompiledError e (tn_name nd)))
  | Panic => (dst, Panic)
  | NoFuel => (dst, NoFuel)
  end.

Definition decode_scalar (nd : typedNode) (dst : gval) (c : decoderCursor) : outcome decoderCursor :=
  match tn_kind nd, dst with
  | typedBool, VBool b => store_scalar VBool nd dst (d_Bool src flags (tn_name nd) b c)
  | typedString, VString s => store_scalar VString nd dst (d_String src flags aliases (tn_name nd) s c)
  | typedNumber, VString s => store_scalar VString nd dst (d_Number src flags aliases (tn_name nd) s c)
  | typedInt, VInt z => store_scalar VInt nd dst (d_Int src flags (tn_name nd) (tn_bits nd) z c)
  | typedUint, VUint z => store_scalar VUint nd dst (d_Uint src flags (tn_name nd) (tn_bits nd) z c)
  | _, _ => (dst, Panic)
  end.

(** Whether the value is null, and the cursor behind it then. *)
Definition read_null (c : decoderCursor) : res derr (bool * decoderCursor) :=
  if notNullFast src c then Ok (false, c) else TryNull src c.

Definition open_container (open : Z) (begin_ : decoderCursor -> res derr decoderCursor) (c : decoderCursor) :
  res derr (bool * decoderCursor) :=
  if at_byte src (d_i c) open && (d_depth c <? maxDepth) then Ok (false, enter c)
  else
    let* (null, c) := read_null c in
    if (null : bool) then Ok (true, c) else let* c := begin_ c in Ok (false, c).

Section Body.
(** The decoder of a node, one level down. *)
Context (rec : nat -> gval -> decoderCursor -> outcome decoderCursor).

(** *** Structs *)

(** [resolveDecodeHops] and the write through the pointer it returns. *)
Fixpoint decode_hops (hops : list typedFieldHop) (slot : nat) (k : gval -> decoderCursor -> outcome decoderCursor)
  (v : gval) (c : decoderCursor) : outcome decoderCursor :=
  match v with
  | VStruct slots =>
      match hops with
      | [] =>
          match slots !! slot with
          | Some x => within (fun x => VStruct (<[slot := x]> slots)) (k x c)
          | None => (v, Panic)
          end
      | hop :: hops =>
          let down x := within (fun x => VStruct (<[hop_slot hop := VPointer (Some x)]> slots)) (decode_hops hops slot k x c) in
          match slots !! hop_slot hop with
          | Some (VPointer (Some x)) => down x
          | Some (VPointer None) =>
              if hop_unexported hop then
                (v, Err (DDecode (mkDecodeError (d_i c) [] None (hop_pointee hop) "cannot set embedded pointer to unexported struct type")))
              else down (hop_zero hop)
          | _ => (v, Panic)
          end
      end
  | _ => (v, Panic)
  end.

Definition decode_field (nd : typedNode) (f : typedField) (dst : gval) (c : decoderCursor) : outcome decoderCursor :=
  match field_hops nd f with
  | None => (dst, Panic)
  | Some hops => wrap_error (fun e => prependDecodePathField e (tf_name f)) (decode_hops hops (tf_slot f) (rec (tf_node f)) dst c)
  end.

(** The field a member goes to, and the position after it. *)
Definition select_field (nd : typedNode) (position : nat) (m : member) : res derr (option (typedField * nat)) :=
  let* f := unsafe (member_field (tn_fields nd) (tn_fieldTable nd) (tn_fieldTableMask nd) (negb (CaseSensitive flags)) position m) in
  Ok (option_map (fun f => (f, match m with Member _ => S (tf_pos f) | _ => S position end)) f).

Fixpoint decode_members (fuel : nat) (nd : typedNode) (position : nat) (first : bool) (dst : gval) (c : decoderCursor) : outcome decoderCursor :=
  match fuel with
  | O => (dst, NoFuel)
  | S fuel =>
      let@ dst; (m, c) := (dst, member_at src flags (tn_fields nd) position first c) in
      match m with
      | NoMember => (dst, Ok c)
      | _ =>
          let@ dst; selected := (dst, select_field nd position m) in
          match selected, m with
          | Some (field, position), _ =>
              let@ dst; c := decode_field nd field dst c in
              decode_members fuel nd position false dst c
          | None, Member key =>
              let@ dst; c := (dst, Unknown src maxDepth flags Quote (tn_name nd) key c) in
              decode_members fuel nd position false dst c
          | None, _ => (dst, Panic)
          end
      end
  end.

Definition decodeCompiledStruct (nd : typedNode) (dst : gval) (c : decoderCursor) : outcome decoderCursor :=
  let@ dst; (null, c) := (dst, open_container "{"%ch (d_BeginObject src maxDepth (tn_name nd)) c) in
  if (null : bool) then (dst, Ok c) else decode_members (S (S (length src))) nd 0 true dst c.

(** *** Slices *)

(** A slice header over its backing array, [None] for a nil slice; [index] is its
    length, and behind the array's known contents fresh memory is zero. *)
Definition header_of (v : gval) : res derr (option (list gval)) :=
  match v with
  | VSlice None => Ok None
  | VSlice (Some (l, stale)) => Ok (Some (l ++ stale))
  | _ => Panic
  end.
Definition header_value (h : option (list gval)) (index : nat) : gval :=
  match h with
  | None => VSlice None
  | Some array => VSlice (Some (take index array, drop index array))
  end.
Definition elementAt (h : option (list gval)) (zero : gval) (index : nat) : gval := default zero (default [] h !! index).
Definition set_element (h : option (list gval)) (index : nat) (v : gval) : option (list gval) :=
  let array := default [] h in
  Some (if (index <? length array)%nat then <[index := v]> array else array ++ [v]).

Definition emptySlice : gval := VSlice (Some ([], [])).

(** The loop over the elements; [next] is the step to an element. *)
Fixpoint decode_elements (next : bool -> decoderCursor -> res derr (bool * decoderCursor)) (fuel : nat) (nd : typedNode)
  (h : option (list gval)) (index : nat) (first : bool) (c : decoderCursor) : outcome decoderCursor :=
  match fuel with
  | O => (header_value h index, NoFuel)
  | S fuel =>
      let@ v; (more, c) := (header_value h index, next first c) in
      if negb more then (if (index =? 0)%nat then emptySlice else v, Ok c)
      else
        let@ v; zero := (v, zero_of (tn_elem nd)) in
        let '(x, r) := rec (tn_elem nd) (elementAt h zero index) c in
        let h := set_element h index x in
        let@ v; c := wrap_error (fun e => prependDecodePathIndex e index) (header_value h (S index), r) in
        decode_elements next fuel nd h (S index) false c
  end.

(** [scalarSliceAdvance], with the cursor behind a delimiter it recognised. *)
Definition scalarSliceAdvance (first : bool) (c : decoderCursor) : option decoderCursor :=
  if first then None
  else if negb (at_byte src (d_i c) ","%ch) then None
  else
    let c := set_i c (S (d_i c)) in
    Some (if at_sat src (d_i c) (fun b => b <=? 32) then set_i c (skipSpaceAt src (d_i c)) else c).

Definition scalar_next (first : bool) (c : decoderCursor) : res derr (bool * decoderCursor) :=
  match scalarSliceAdvance first c with
  | Some c => Ok (true, c)
  | None => NextArrayElement src first c
  end.

Definition scalarSliceReserveMinBytes : nat := 4096.

(** [for end > c.i && IsJSONWhitespace(c.src[end-1]) { end-- }] *)
Fixpoint trim_end (i end_ : nat) : nat :=
  match end_ with
  | O => O
  | S e => if (i <? end_)%nat && at_sat src e IsJSONWhitespace then trim_end i e else end_
  end.

Definition initialScalarSliceCapacity (c : decoderCursor) : nat :=
  if negb (d_depth c =? 1) || (length src - d_i c <? scalarSliceReserveMinBytes)%nat then 0%nat
  else
    let end_ := trim_end (d_i c) (length src) in
    if (end_ <=? d_i c)%nat || negb (at_byte src (end_ - 1) "]"%ch) then 0%nat
    else
      let values := slice src (d_i c) (end_ - 1) in
      let start := SkipSpace values 0 in
      if (start =? length values)%nat then 0%nat
      else
        let values := drop start values in
        if existsb (fun b => b =? DQUOTE) values then 0%nat
        else
          let capacity := (length (filter (fun b => b = ","%ch) values) + 1)%nat in
          Nat.min capacity ((length values + 1) / 2).

(** The integer loops of [decodeCompiledRootInt64Slice] and its unsigned twin;
    the fixed-width shape they try first is the SIMD lane's. *)
Definition decode_int_slice (nd : typedNode) (h : option (list gval)) (c : decoderCursor) : outcome decoderCursor :=
  let h :=
    if (length (default [] h) =? 0)%nat && negb (initialScalarSliceCapacity c =? 0)%nat then Some [] else h in
  decode_elements scalar_next (S (S (length src))) nd h 0 true c.

Definition is_int64 (n : nat) : bool :=
  match p !! n with
  | Some nd => (bool_decide (tn_kind nd = typedInt) || bool_decide (tn_kind nd = typedUint)) && (tn_bits nd =? 64)
  | None => false
  end.

Definition decodeCompiledSlice (nd : typedNode) (dst : gval) (c : decoderCursor) : outcome decoderCursor :=
  let@ dst; (null, c) := (dst, open_container "["%ch (d_BeginArray src maxDepth (tn_name nd)) c) in
  if (null : bool) then (VSlice None, Ok c)
  else
    let@ dst; h := (dst, header_of dst) in
    if is_int64 (tn_elem nd) then decode_int_slice nd h c
    else decode_elements (NextArrayElement src) (S (S (length src))) nd h 0 true c.

(** *** Arrays *)

Fixpoint decode_array (fuel : nat) (nd : typedNode) (l : list gval) (index : nat) (first : bool) (c : decoderCursor) : outcome decoderCursor :=
  match fuel with
  | O => (VArray l, NoFuel)
  | S fuel =>
      let@ v; (more, c) := (VArray l, NextArrayElement src first c) in
      if negb more then
        match zeroTypedArrayTail p (tn_elem nd) l index with
        | Some l => (VArray l, Ok c)
        | None => (v, Panic)
        end
      else if (index <? tn_length nd)%nat then
        match l !! index with
        | None => (v, Panic)
        | Some x =>
            let '(x, r) := rec (tn_elem nd) x c in
            let l := <[index := x]> l in
            let@ v; c := wrap_error (fun e => prependDecodePathIndex e index) (VArray l, r) in
            decode_array fuel nd l (S index) false c
        end
      else
        let@ v; c := (v, d_Skip src maxDepth c) in
        decode_array fuel nd l (S index) false c
  end.

Definition decodeCompiledArray (nd : typedNode) (dst : gval) (c : decoderCursor) : outcome decoderCursor :=
  let@ dst; (null, c) := (dst, open_container "["%ch (d_BeginArray src maxDepth (tn_name nd)) c) in
  if (null : bool) then (dst, Ok c)
  else
    match dst with
    | VArray l => decode_array (S (S (length src))) nd l 0 true c
    | _ => (dst, Panic)
    end.

(** *** Pointers *)

(** Floyd's check that a chain of pointer types ends. *)
Definition pointer_elem (n : nat) : option nat :=
  match p !! n with
  | Some nd => if bool_decide (tn_kind nd = typedPointer) then Some (tn_elem nd) else None
  | None => None
  end.
Fixpoint chain_cycle (fuel : nat) (slow fast : nat) : res derr bool :=
  match fuel with
  | O => NoFuel
  | S fuel =>
      match pointer_elem fast with
      | None => Ok false
      | Some fast =>
          match pointer_elem fast with
          | None => Ok false
          | Some fast =>
              match pointer_elem slow with
              | None => Panic
              | Some slow => if (fast =? slow)%nat then Ok true else chain_cycle fuel slow fast
              end
          end
      end
  end.
Definition typedPointerChainCycle (n : nat) : res derr bool := chain_cycle (S (length p)) n n.

(** The chain below a pointer, allocating as it goes; two pointers of a destination
    being different objects, the search for a cycle of values finds none. *)
Fixpoint pointer_chain (fuel : nat) (n : nat) (v : gval) (c : decoderCursor) : outcome decoderCursor :=
  match fuel with
  | O => (v, NoFuel)
  | S fuel =>
      match pointer_elem n with
      | None => rec n v c
      | Some e =>
          match v with
          | VPointer q =>
              let@ v; zero := (v, zero_of e) in
              within (fun x => VPointer (Some x)) (pointer_chain fuel e (default zero q) c)
          | _ => (v, Panic)
          end
      end
  end.

Definition type_name (n : nat) : string := match p !! n with Some nd => tn_name nd | None => EmptyString end.

Definition decodePointerChain (n : nat) (v : gval) (c : decoderCursor) : outcome decoderCursor :=
  let@ v; cycle := (v, typedPointerChainCycle n) in
  if (cycle : bool) then
    (v, Err (DDecode (mkDecodeError (d_i c) [] (Some (type_name n)) EmptyString "cyclic pointer chain in decode destination")))
  else pointer_chain (S (length p)) n v c.

Definition decodeCompiledPointer (nd : typedNode) (dst : gval) (c : decoderCursor) : outcome decoderCursor :=
  let@ dst; (null, c) := (dst, read_null c) in
  if (null : bool) then (VPointer None, Ok c)
  else
    match dst with
    | VPointer q =>
        let@ dst; zero := (dst, zero_of (tn_elem nd)) in
        let x := default zero q in
        within (fun x => VPointer (Some x))
          (match pointer_elem (tn_elem nd) with
           | Some _ => decodePointerChain (tn_elem nd) x c
           | None => rec (tn_elem nd) x c
           end)
    | _ => (dst, Panic)
    end.

(** *** Maps *)

Fixpoint decode_entries (fuel : nat) (nd : typedNode) (m : gmap map_key gval) (first : bool) (c : decoderCursor) : outcome decoderCursor :=
  match fuel with
  | O => (VMap (Some m), NoFuel)
  | S fuel =>
      let@ v; (key, c) := (VMap (Some m), NextObjectField src first c) in
      match key with
      | None => (v, Ok c)
      | Some key =>
          let@ v; zero := (v, zero_of (tn_elem nd)) in
          let '(x, r) := rec (tn_elem nd) zero c in
          let@ v; c := wrap_error (fun e => prependDecodePathField e key) (v, r) in
          match setMapKeyValue nd key with
          | inl k => decode_entries fuel nd (<[k := x]> m) false c
          | inr reason =>
              (v, Err (prependDecodePathField (DDecode (mkDecodeError (d_i c) [] (Some (tn_keyName nd)) EmptyString reason)) key))
          end
      end
  end.

Definition decodeCompiledMap (nd : typedNode) (dst : gval) (c : decoderCursor) : outcome decoderCursor :=
  let@ dst; (null, c) := (dst, read_null c) in
  if (null : bool) then (VMap None, Ok c)
  else
    let@ dst; c := (dst, d_BeginObject src maxDepth (tn_name nd) c) in
    match dst with
    | VMap m => decode_entries (S (S (length src))) nd (default ∅ m) true c
    | _ => (dst, Panic)
    end.

(** *** Values *)

(** [decodeCompiled]; the switches on field operations and element kinds in the
    loops above are the same dispatch. *)
Definition decode_body (n : nat) (dst : gval) (c : decoderCursor) : outcome decoderCursor :=
  match p !! n with
  | None => (dst, Panic)
  | Some nd =>
      match tn_kind nd with
      | typedStruct => decodeCompiledStruct nd dst c
      | typedSlice => decodeCompiledSlice nd dst c
      | typedArray => decodeCompiledArray nd dst c
      | typedPointer => decodeCompiledPointer nd dst c
      | typedMap => decodeCompiledMap nd dst c
      | _ => decode_scalar nd dst c
      end
  end.
End Body.

Fixpoint decodeCompiled (fuel : nat) (n : nat) (dst : gval) (c : decoderCursor) : outcome decoderCursor :=
  match fuel with
  | O => (dst, NoFuel)
  | S fuel => decode_body (decodeCompiled fuel) n dst c
  end.
End Decode.

(** [decodeTypedDocument], without a structural tape. *)
Definition decodeTypedDocument `{CaseFolding} (Quote : bytes -> string) (aliases : bytes -> bool) (src : bytes)
  (options : DecoderOptions) (p : plan) (root : nat) (dst : gval) : gval * res derr unit :=
  let c := d_skipSpace src newDecoderCursor in
  let@ v; c := wrap_error finishDecodeError
    (decodeCompiled src (do_MaxDepth options) (flags_of options) Quote aliases p (S (S (2 * length src))) root dst c) in
  (v, d_Finish src c).
