(* ===== verification/TypedSpec.v ===== *)
(** What decoding means: the value a document's tree assigns to a destination of a
    planned type, by recursion on the tree and with no cursor, no key compare and
    no loop over bytes.  [None] is a document that does not fit the type.  The
    lemmas here are about resets, pointer chains and map keys; [TypedRun.v] shows
    that the decoders do what [assign] says. *)

From S2P Require Import Prelude Words Utf8 Scanner Lex Grammar StringRef Errors Numbers Reader Validator FastValid ParserString Layout NumberEqual Digits DecoderCursor DecoderScalar OpenAddr FieldFold FieldTable FieldMatch TypedPlan TypedDecode.
From stdpp Require Import gmap.
Open Scope Z_scope.

(** ** The assignment *)

Section Assign.
Context `{CaseFolding} (flags : decoderFlags) (p : plan).

(** How a subtree is assigned: the node, and the value it finds. *)
Abbreviation assigner := (nat -> gval -> option gval).

Fixpoint assign_hops (hops : list typedFieldHop) (slot : nat) (k : gval -> option gval) (v : gval) : option gval :=
  match v with
  | VStruct slots =>
    match hops with
    | [] => x ← slots !! slot; x' ← k x; Some (VStruct (<[slot := x']> slots))
    | hop :: hops =>
      q ← slots !! hop_slot hop;
      x ← match q with
      | VPointer (Some x) => Some x
      | VPointer None => if hop_unexported hop then None else Some (hop_zero hop)
      | _ => None
      end;
      x' ← assign_hops hops slot k x;
      Some (VStruct (<[hop_slot hop := VPointer (Some x')]> slots))
    end
  | _ => None
  end.

(** A member goes to the field its name selects; an unknown one is ignored, or
    refused. *)
Definition assign_member (nd : typedNode) (name : bytes) (a : assigner) (v : gval) : option gval :=
  match FieldTable.choose (tn_fields nd) (negb (decoderCaseSensitive flags)) name with
  | Some f => hops ← field_hops nd f; assign_hops hops (tf_slot f) (a (tf_node f)) v
  | None => if decoderDisallowUnknown flags then None else Some v
  end.

(** Members in document order: a repeated name is assigned again. *)
Fixpoint assign_members (nd : typedNode) (ms : list (bytes * assigner)) (v : gval) : option gval :=
  match ms with
  | [] => Some v
  | (name, a) :: ms => v ← assign_member nd name a v; assign_members nd ms v
  end.

(** Elements, each on the one the backing array holds, else on zero. *)
Fixpoint assign_seq (e : nat) (zero : gval) (elems : list assigner) (old : list gval) : option (list gval) :=
  match elems with
  | [] => Some []
  | a :: elems =>
    x ← a e (default zero (head old));
    xs ← assign_seq e zero elems (tail old);
    Some (x :: xs)
  end.

Fixpoint assign_entries (nd : typedNode) (zero : gval) (ms : list (bytes * assigner)) (m : gmap map_key gval) : option gval :=
  match ms with
  | [] => Some (VMap (Some m))
  | (name, a) :: ms =>
    x ← a (tn_elem nd) zero;
    match setMapKeyValue nd name with
    | inl k => assign_entries nd zero ms (<[k := x]> m)
    | inr _ => None
    end
  end.

Definition assign_slice (nd : typedNode) (elems : list assigner) (v : gval) : option gval :=
  old ← match v with VSlice None => Some [] | VSlice (Some (l, stale)) => Some (l ++ stale) | _ => None end;
  e ← p !! tn_elem nd;
  xs ← assign_seq (tn_elem nd) (tn_zero e) elems old;
  Some (match xs with [] => emptySlice | _ => VSlice (Some (xs, drop (length xs) old)) end).

(** Elements past the array's length are dropped; those past the document's are
    reset. *)
Definition assign_array (nd : typedNode) (elems : list assigner) (v : gval) : option gval :=
  match v with
  | VArray l =>
    e ← p !! tn_elem nd;
    xs ← assign_seq (tn_elem nd) (tn_zero e) (take (tn_length nd) elems) l;
    rest ← mapM (resetTyped p (length p) (tn_elem nd)) (drop (length xs) l);
    Some (VArray (xs ++ rest))
  | _ => None
  end.

(** A node that is not a pointer. *)
Definition assign_base (t : tree) (elems : list assigner) (members : list (bytes * assigner)) (n : nat) (v : gval) : option gval :=
  nd ← p !! n;
  match tn_kind nd, v, t with
  | typedBool, VBool b, _ => VBool <$> bool_val false b t
  | typedString, VString s, _ => VString <$> string_val false s t
  | typedNumber, VString s, _ => VString <$> number_val false s t
  | typedInt, VInt z, _ => VInt <$> int_val false (tn_bits nd) z t
  | typedUint, VUint z, _ => VUint <$> uint_val false (tn_bits nd) z t
  | typedStruct, _, TNull => Some v
  | typedStruct, _, TObj _ _ => assign_members nd members v
  | typedSlice, _, TNull => Some (VSlice None)
  | typedSlice, _, TArr _ _ => assign_slice nd elems v
  | typedArray, _, TNull => Some v
  | typedArray, _, TArr _ _ => assign_array nd elems v
  | typedMap, _, TNull => Some (VMap None)
  | typedMap, VMap m, TObj _ _ => e ← p !! tn_elem nd; assign_entries nd (tn_zero e) members (default ∅ m)
  | _, _, _ => None
  end.

(** A chain of pointers, allocated where it is nil. *)
Fixpoint through (fuel : nat) (n : nat) (v : gval) (k : nat -> gval -> option gval) : option gval :=
  match fuel with
  | O => None
  | S fuel =>
    match pointer_elem p n, v with
    | None, _ => k n v
    | Some e, VPointer q =>
      nd ← p !! e;
      x ← through fuel e (default (tn_zero nd) q) k;
      Some (VPointer (Some x))
    | Some _, _ => None
    end
  end.

Definition assign_body (t : tree) (elems : list assigner) (members : list (bytes * assigner)) : assigner := fun n v =>
  match pointer_elem p n, t with
  | Some _, TNull => Some (VPointer None)
  | Some _, _ => through (S (S (length p))) n v (assign_base t elems members)
  | None, _ => assign_base t elems members n v
  end.

Fixpoint assign (t : tree) : assigner :=
  match t with
  | TArr _ ts => assign_body t (map assign ts) []
  | TObj _ ms => assign_body t [] (map (fun m => (m.1.2, assign m.2)) ms)
  | _ => assign_body t [] []
  end.

(** Of the members of a tree only the decoded names matter. *)
Definition named (ms : list (bytes * tree)) : list (bytes * assigner) := map (fun m => (m.1, assign m.2)) ms.

Lemma named_names ms : named (names ms) = map (fun m => (m.1.2, assign m.2)) ms.
Proof using. unfold named, names. by rewrite map_map. Qed.

(** The assignment of a scalar tree, and of the others, at a base node. *)
Lemma assign_base_eq t n v : pointer_elem p n = None ->
  assign t n v = assign_base t (match t with TArr _ ts => map assign ts | _ => [] end)
  (match t with TObj _ ms => named (names ms) | _ => [] end) n v.
Proof using. intros Hn. destruct t; cbn [assign]; unfold assign_body; rewrite ?Hn, ?named_names; done. Qed.

Lemma assign_pointer_eq t n v e : pointer_elem p n = Some e -> t <> TNull ->
  assign t n v = through (S (S (length p))) n v (assign t).
Proof using.
  intros Hn Ht. assert (Hb : forall elems members, assign t = assign_body t elems members ->
    through (S (S (length p))) n v (assign_base t elems members) = through (S (S (length p))) n v (assign t)).
  { intros elems members E. generalize (S (S (length p))) n v. intros fuel. induction fuel as [|fuel IH]; intros n' v'; [done|]. cbn [through].
  destruct (pointer_elem p n') as [e'|] eqn:E'; [|rewrite E; unfold assign_body; by rewrite E'].
  destruct v'; try done. destruct (p !! e'); [|done]. cbn. by rewrite IH. }
  destruct t; try done; cbn [assign] in *; unfold assign_body at 1; rewrite Hn; by apply Hb.
Qed.
End Assign.

(** ** Types *)

Section Types.
Context `{CaseFolding} (p : plan) (rank : nat -> nat).
Hypothesis Hp : forall n nd, p !! n = Some nd -> node_ok p rank n nd.

Lemma has_type_node n v : has_type p n v -> is_Some (p !! n).
Proof using. inversion 1; eauto. Qed.

Lemma path_type_slot slots slot n : path_type p slots [] slot n -> slots !! slot = Some (Some n).
Proof using. by inversion 1. Qed.

Lemma slot_at slots vs slot n : Forall2 (slot_type p) slots vs -> slots !! slot = Some (Some n) ->
  exists x, vs !! slot = Some x /\ has_type p n x.
Proof using.
  intros Hvs Hs. destruct (Forall2_lookup_l _ _ _ _ _ Hvs Hs) as (x & Hx & Ht). exists x. split; [done|]. by inversion Ht.
Qed.

Lemma slot_insert slots vs slot n x : Forall2 (slot_type p) slots vs -> slots !! slot = Some (Some n) -> has_type p n x ->
  Forall2 (slot_type p) slots (<[slot := x]> vs).
Proof using.
  intros Hvs Hs Hx. rewrite <- (list_insert_id slots slot (Some n)) by done. apply Forall2_insert; [done|by constructor].
Qed.

(** *** Resets *)

Lemma reset_fields_ok (reset : nat -> gval -> option gval) slots fields vs :
  (forall f, In f fields -> tf_hop f = None -> exists n, slots !! tf_slot f = Some (Some n) /\ n = tf_node f /\
  forall v, has_type p n v -> exists v', reset n v = Some v' /\ has_type p n v') ->
  Forall2 (slot_type p) slots vs ->
  exists vs', reset_fields reset fields vs = Some vs' /\ Forall2 (slot_type p) slots vs'.
Proof using.
  unfold reset_fields. revert vs. induction fields as [|f fields IH]; intros vs Hf Hvs; [by exists vs|]. cbn [foldl]. cbn [mbind option_bind].
  destruct (tf_hop f) as [h|] eqn:Hh; [apply IH; [|done]; intros g Hg; apply Hf; by right|].
  destruct (Hf f ltac:(by left) Hh) as (n & Hs & -> & Hr). destruct (slot_at _ _ _ _ Hvs Hs) as (x & Hx & Ht).
  destruct (Hr x Ht) as (x' & E & Ht'). rewrite Hx. cbn [mbind option_bind]. rewrite E. cbn [mbind option_bind].
  apply IH; [intros g Hg; apply Hf; by right|by eapply slot_insert].
Qed.

Lemma mapM_types (f : gval -> option gval) (P : gval -> Prop) l : Forall P l -> (forall v, P v -> exists v', f v = Some v' /\ P v') ->
  exists l', mapM f l = Some l' /\ Forall P l' /\ length l' = length l.
Proof using.
  intros Hl Hf. induction Hl as [|x l Hx Hl (l' & E & Hl' & Hlen)]; [by exists []|]. destruct (Hf x Hx) as (x' & Ex & Hx').
  exists (x' :: l'). cbn [mapM]. rewrite Ex. cbn. rewrite E. cbn. by rewrite Hlen; auto.
Qed.

(** A reset value is a value of its type; the nesting by value bounds the recursion. *)
Lemma resetTyped_ok fuel n v : (rank n < fuel)%nat -> has_type p n v -> exists v', resetTyped p fuel n v = Some v' /\ has_type p n v'.
Proof using Hp.
  revert n v. induction fuel as [|fuel IH]; intros n v Hf Hv; [lia|]. cbn [resetTyped]. destruct (has_type_node _ _ Hv) as [nd Hnd]. rewrite Hnd.
  pose proof (Hp n nd Hnd) as Hok. destruct (tn_kind nd) eqn:Hk; (inversion Hv; simplify_eq; try congruence).
  all: try (eexists; split; [reflexivity|econstructor; eauto; fail]).
  - eexists. split; [reflexivity|]. econstructor; eauto. assert (0 < 2 ^ (tn_bits nd - 1)); [|lia].
    destruct (no_bits _ _ _ _ Hok ltac:(by left)) as [-> |[-> |[-> | ->]]]; lia.
  - eexists. split; [reflexivity|]. econstructor; eauto. lia.
  - assert (Hfs : forall f, In f (tn_fields nd) -> tf_hop f = None -> exists n', tn_slots nd !! tf_slot f = Some (Some n') /\ n' = tf_node f /\
      forall v, has_type p n' v -> exists v', resetTyped p fuel n' v = Some v' /\ has_type p n' v').
    { intros f [i Hi]%list_elem_of_In%list_elem_of_lookup Hh.
      destruct (no_fields _ _ _ _ Hok i f Hk Hi) as (hops & Eh & Hpath & Hr). unfold field_hops in Eh. rewrite Hh in Eh. simplify_eq.
      apply path_type_slot in Hpath. exists (tf_node f). split_and!; [done..|]. intros x Hx. apply IH; [|done]. specialize (Hr eq_refl). lia. }
    destruct (reset_fields_ok (resetTyped p fuel) (tn_slots nd) (tn_fields nd) slots Hfs) as (vs' & E & Hvs); [done|].
    rewrite E. eexists. split; [reflexivity|]. by econstructor; eauto.
  - match goal with Hl : Forall _ _ |- _ => destruct (mapM_types (resetTyped p fuel (tn_elem nd)) _ _ Hl) as (l' & E & Hl' & Hlen) end.
    + intros x Hx. apply IH; [|done]. pose proof (no_array _ _ _ _ Hok Hk). lia.
    + rewrite E. eexists. split; [reflexivity|]. econstructor; eauto. congruence.
Qed.

(** *** Pointer chains *)

Definition edge (x y : nat) : Prop := pointer_elem p x = Some y.

Lemma edge_node x y : edge x y -> exists nd, p !! x = Some nd /\ tn_kind nd = typedPointer /\ tn_elem nd = y.
Proof using. unfold edge, pointer_elem. destruct (p !! x) as [nd|]; [|done]. case_bool_decide; [|done]. intros [= <-]. eauto. Qed.

Lemma edge_rank x y z : edge x y -> edge y z -> (rank y < rank x)%nat.
Proof using Hp.
  intros (nd & Hx & Hk & <-)%edge_node (nd' & Hy & Hk' & _)%edge_node. by apply (no_chain _ _ _ _ (Hp _ _ Hx) nd').
Qed.

Lemma edge_chain x y z : tc edge x y -> edge y z -> (rank y < rank x)%nat.
Proof using Hp.
  intros Hxy. revert z. induction Hxy as [x y Hxy|x y w Hxy Hyw IH]; intros z Hz; [by eapply edge_rank|].
  pose proof (IH _ Hz). assert (exists y', edge y y') as [y' Hy'] by (inversion Hyw; eauto). pose proof (edge_rank _ _ _ Hxy Hy'). lia.
Qed.

Lemma edge_lt x y : edge x y -> (rank x < length p)%nat.
Proof using Hp. intros (nd & Hx & _)%edge_node. exact (no_rank _ _ _ _ (Hp _ _ Hx)). Qed.

(** Floyd's check lets every chain of a compiled plan pass. *)
Lemma chain_cycle_ok fuel slow fast : rtc edge slow fast -> (0 < fuel)%nat -> (forall y, edge fast y -> (rank fast + 1 < fuel)%nat) ->
  chain_cycle p fuel slow fast = Ok false.
Proof using Hp.
  revert slow fast. induction fuel as [|fuel IH]; intros slow fast Hsf H0 Hf; [lia|]. cbn [chain_cycle].
  destruct (pointer_elem p fast) as [f1|] eqn:E1; [|done]. destruct (pointer_elem p f1) as [f2|] eqn:E2; [|done]. fold (edge fast f1) in E1. fold (edge f1 f2) in E2.
  assert (exists s1, edge slow s1 /\ rtc edge s1 f1) as (s1 & Es & Hs).
  { inversion Hsf as [|? s1 ? Hs1 Hr]; subst; [by exists f1|]. exists s1. split; [done|]. eapply rtc_r; [exact Hr|exact E1]. }
  rewrite Es. destruct (Nat.eqb_spec f2 s1) as [->|Hne].
  - exfalso. assert (Hc : tc edge s1 s1) by (by eapply tc_rtc_l; [exact Hs|by constructor]).
  assert (exists y, edge s1 y) as [y Hy] by (inversion Hc; eauto). pose proof (edge_chain _ _ _ Hc Hy). lia.
  - pose proof (edge_rank _ _ _ E1 E2). specialize (Hf _ E1). apply IH; [by eapply rtc_r|lia|]. intros y Hy. pose proof (edge_rank _ _ _ E2 Hy). lia.
Qed.

Lemma chain_acyclic n : typedPointerChainCycle p n = Ok false.
Proof using Hp.
  unfold typedPointerChainCycle. apply chain_cycle_ok; [done|lia|]. intros y Hy. pose proof (edge_lt _ _ Hy). lia.
Qed.
(** *** Map keys *)

Lemma parse_uint_range s n x ok : 0 <= n < 2 ^ 64 -> parse_uint_loop s n = Some (x, ok) -> 0 <= x < 2 ^ 64.
Proof using.
  revert n. induction s as [|c s IH]; intros n Hn E; cbn [parse_uint_loop] in E; [by simplify_eq|].
  destruct (negb (IsDigit c)); [done|]. destruct (_ <=? n); [simplify_eq; lia|]. cbv zeta in E.
  destruct (_ <? _); [simplify_eq; lia|]. apply IH in E; [done|]. apply Z.mod_pos_bound. lia.
Qed.

Lemma ParseUint64_range s x ok : ParseUint64 s = Some (x, ok) -> 0 <= x < 2 ^ 64.
Proof using. unfold ParseUint64. destruct (_ =? _)%nat; [done|]. apply parse_uint_range. lia. Qed.

Lemma setMapKeyValue_type nd name k : setMapKeyValue nd name = inl k -> key_type p nd k.
Proof using.
  unfold setMapKeyValue. destruct (tn_mapKeyKind nd) eqn:Hk; [by intros [= <-]; constructor| |].
  - destruct (ParseInt64 name) as [x ok]. destruct (negb ok); [done|]. cbn [orb]. destruct (OverflowInt _ _) eqn:Ho; [done|]. intros [= <-].
  apply KT_int; [done|]. unfold OverflowInt in Ho. lia.
  - destruct (ParseUint64 name) as [[x ok]|] eqn:E; [|done]. apply ParseUint64_range in E. destruct (negb ok); [done|]. cbn [orb].
  destruct (OverflowUint _ _) eqn:Ho; [done|]. intros [= <-]. apply KT_uint; [done|]. unfold OverflowUint in Ho. lia.
Qed.
End Types.
