(* ===== verification/TypedTrack.v ===== *)
(** The relation between an outcome of a decoder and the reference reading of the
    value under its cursor, and the one lemma per shape of loop: a sequence of
    members or elements is read item by item. *)

From S2P Require Import Prelude Words Utf8 Scanner Lex Grammar StringRef Errors Numbers Reader Validator FastValid ParserString Layout NumberEqual Digits DecoderCursor DecoderScalar OpenAddr FieldFold FieldTable FieldMatch TypedPlan TypedDecode.
From stdpp Require Import gmap.
Open Scope Z_scope.

Section Track.
Context (src : bytes) (maxDepth : Z).
Hypothesis Hsrc : bytes_ok src.

Definition value_at (depth : Z) (i : nat) : res rerr (nat * tree) := ref_value src maxDepth unexpected_byte (S (length src)) depth i.

(** A cursor at the head of a value. *)
Record ready (c : decoderCursor) : Prop := {
  rd_le : (d_i c <= length src)%nat;
  rd_ws : ref_ws src (d_i c) = d_i c;
  rd_depth : d_depth c <= maxDepth
  }.

Definition fails {A} (out : outcome A) : Prop := exists e, out.2 = Err e.

(** The outcome leaves a [P], and the value that [a] makes of the tree read; a
    digit behind a number may be refused early, where the reference refuses it next. *)
Definition tracks (P : gval -> Prop) (a : tree -> option gval) (c : decoderCursor) (out : outcome decoderCursor) : Prop :=
  P out.1 /\
  match value_at (d_depth c) (d_i c) with
  | Ok (j, t) =>
    match a t with
    | Some w => (out.1 = w /\ exists c', out.2 = Ok c' /\ d_i c' = j /\ d_depth c' = d_depth c) \/ (at_digit src j = true /\ fails out)
    | None => fails out
    end
  | Err _ => fails out
  | _ => False
  end.

Lemma value_returns depth i : (i <= length src)%nat -> returns (value_at depth i).
Proof using Hsrc. intros Hi. apply rv_returns; [done..|lia]. Qed.

Lemma value_bound depth i j t : (i <= length src)%nat -> value_at depth i = Ok (j, t) -> (i < j <= length src)%nat.
Proof using Hsrc.
  intros Hi E. pose proof (ref_value_sound src maxDepth unexpected_byte Hsrc (S (length src)) depth i Hi ltac:(lia)) as Hr.
  unfold value_at in E. rewrite E in Hr. destruct Hr as (Hlt & s & Hs & _). pose proof (span_le _ _ _ _ Hs). lia.
Qed.

Lemma value_case c : ready c -> head_case src (d_i c) (src !! d_i c) (value_at (d_depth c) (d_i c)).
Proof using Hsrc. intros [Hi _ Hd]. apply value_head_case; [done..|lia]. Qed.

Lemma value_tree c j t : ready c -> value_at (d_depth c) (d_i c) = Ok (j, t) -> exists b, src !! d_i c = Some b /\ tree_head t b = true.
Proof using Hsrc. intros Hc E. eapply head_case_tree; [by apply value_case|exact E]. Qed.

Lemma tracks_err P a c v e : ready c -> P v -> (forall j t, value_at (d_depth c) (d_i c) = Ok (j, t) -> a t = None) ->
  tracks P a c (v, Err e).
Proof using Hsrc.
  intros Hc Hv Ha. split; [done|]. pose proof (value_returns (d_depth c) (d_i c) (rd_le _ Hc)) as Hr.
  destruct (value_at (d_depth c) (d_i c)) as [[j t]|[o m]| |]; [rewrite (Ha j t eq_refl)| |destruct Hr as [[]|[]]; congruence..]; by eexists.
Qed.

Lemma tracks_within P Q a c out put : tracks P a c out -> (forall x, P x -> Q (put x)) ->
  tracks Q (fun t => put <$> a t) c (within put out).
Proof using.
  intros [Hp Ht] Hq. split; [by apply Hq|]. unfold within. destruct (value_at _ _) as [[j t]|[]| |]; try done.
  destruct (a t) as [w|]; [|done]. destruct Ht as [[-> ?]|?]; [by left|by right].
Qed.

Lemma tracks_wrap P a c out f : tracks P a c out -> tracks P a c (wrap_error f out).
Proof using.
  intros [Hp Ht]. destruct out as [v r]. destruct r as [c'|e| |]; [by split| |by split|by split]. split; [done|]. unfold fails in *. cbn [fst snd wrap_error] in *.
  destruct (value_at _ _) as [[j t]|[]| |]; [|by eauto..]. destruct (a t); [|by eauto].
  destruct Ht as [(_ & c' & E & _)|[Hd _]]; [congruence|]. right. eauto.
Qed.

Lemma tracks_ext P a a' c out : (forall j t, value_at (d_depth c) (d_i c) = Ok (j, t) -> a t = a' t) -> tracks P a c out -> tracks P a' c out.
Proof using.
  intros Ha [Hp Ht]. split; [done|]. destruct (value_at _ _) as [[j t]|[]| |] eqn:E; [|done..]. by rewrite <- (Ha j t eq_refl).
Qed.

Lemma tracks_weaken (P Q : gval -> Prop) a c out : (forall v, P v -> Q v) -> tracks P a c out -> tracks Q a c out.
Proof using. intros Hpq [Hp Ht]. split; [by apply Hpq|done]. Qed.

(** ** Null and the openings of containers *)

Lemma read_null_cases c : ready c ->
  (read_null src c = Ok (true, set_i c (d_i c + 4)) /\ value_at (d_depth c) (d_i c) = Ok ((d_i c + 4)%nat, TNull)) \/
  (read_null src c = Ok (false, c) /\ src !! d_i c <> Some "n"%ch) \/
  (exists e, read_null src c = Err e) /\ (exists e, value_at (d_depth c) (d_i c) = Err e).
Proof using Hsrc.
  intros Hc. pose proof (rd_le _ Hc) as Hi. unfold read_null. destruct (notNullFast src c) eqn:E.
  { right; left. split; [done|]. unfold notNullFast, at_sat in E. intros En. by rewrite En in E. }
  rewrite TryNull_ref by done. cbv zeta. rewrite (rd_ws _ Hc), (set_i_same c). destruct (at_byte src (d_i c) "n"%ch) eqn:En.
  - apply at_byte_spec in En. pose proof (value_case c Hc) as Hh. rewrite En in Hh. inversion Hh as [|Hr| | | |b Hb| | |b e Hb]; subst; try done.
  unfold ref_lit. change (length lit_null) with 4%nat. destruct (matchStringAt src (d_i c) lit_null); [by left|right; right]. by eauto.
  - right; left. split; [done|]. intros E2. apply at_byte_spec in E2. congruence.
Qed.

Lemma not_null_tree c j t : ready c -> src !! d_i c <> Some "n"%ch -> value_at (d_depth c) (d_i c) = Ok (j, t) -> t <> TNull.
Proof using Hsrc. intros Hc Hn E ->. destruct (value_tree _ _ _ Hc E) as (b & Hb & Ht). cbn in Ht. apply Z.eqb_eq in Ht. congruence. Qed.

(** The trees a container that opens with a byte can hold. *)
Definition opens (open : Z) (t : tree) : bool :=
  match t with TArr _ _ => open =? "["%ch | TObj _ _ => open =? "{"%ch | _ => false end.

Lemma begin_cases open jsonType typeName c : open = "["%ch \/ open = "{"%ch -> ready c ->
  let r := if at_byte src (d_i c) open && (d_depth c <? maxDepth) then Ok (enter c) else begin_slow src maxDepth open jsonType typeName c in
  (r = Ok (enter c) /\ src !! d_i c = Some open /\ d_depth c < maxDepth) \/
  ((exists e, r = Err e) /\ forall j t, value_at (d_depth c) (d_i c) = Ok (j, t) -> opens open t = false).
Proof using Hsrc.
  intros Ho Hc. pose proof (rd_le _ Hc) as Hi. cbv zeta. assert (Hw : IsJSONWhitespace open = false) by (by destruct Ho as [-> | ->]).
  destruct (decide (src !! d_i c = Some open)) as [E|E].
  - rewrite begin_open_ref by done. destruct (Z.leb_spec maxDepth (d_depth c)) as [Hd|Hd]; [|by left]. right. split; [by eauto|]. intros j t Et. exfalso.
  unfold value_at in Et. cbn [ref_value] in Et. unfold ref_body in Et. rewrite E in Et. destruct (maxDepth <? d_depth c); [done|].
  destruct Ho as [-> | ->]; cbn -[ref_array ref_object] in Et; [unfold ref_array in Et|unfold ref_object in Et];
    by rewrite (proj2 (Z.ltb_lt maxDepth (d_depth c + 1))) in Et by lia.
  - right. rewrite begin_other_ref; [|done..|]; [|rewrite (rd_ws _ Hc); destruct (at_byte src (d_i c) open) eqn:Eb; [by apply at_byte_spec in Eb|done]].
  split; [by eexists|]. intros j t Et. destruct (value_tree _ _ _ Hc Et) as (b & Hb & Ht). destruct t; try done; cbn in Ht |- *;
    apply Z.eqb_eq in Ht; subst b; apply Z.eqb_neq; intros ->; congruence.
Qed.

Lemma open_container_cases open jsonType typeName c : open = "["%ch \/ open = "{"%ch -> ready c ->
  let begin_ c := if at_byte src (d_i c) open && (d_depth c <? maxDepth) then Ok (enter c) else begin_slow src maxDepth open jsonType typeName c in
  let r := open_container src maxDepth open begin_ c in
  (r = Ok (true, set_i c (d_i c + 4)) /\ value_at (d_depth c) (d_i c) = Ok ((d_i c + 4)%nat, TNull)) \/
  (r = Ok (false, enter c) /\ src !! d_i c = Some open /\ d_depth c < maxDepth) \/
  ((exists e, r = Err e) /\ forall j t, value_at (d_depth c) (d_i c) = Ok (j, t) -> t <> TNull /\ opens open t = false).
Proof using Hsrc.
  intros Ho Hc begin_ r. subst r. unfold open_container. destruct (at_byte src (d_i c) open && (d_depth c <? maxDepth)) eqn:Eo.
  { right; left. apply andb_true_iff in Eo as [E%at_byte_spec Hd%Z.ltb_lt]. done. }
  destruct (read_null_cases c Hc) as [[-> E]|[[-> Hn]|[[e ->] [e' E]]]]; cbn [res_bind].
  - by left.
  - destruct (begin_cases open jsonType typeName c Ho Hc) as [(E & ?)|[[e E] Hr]]; [right; left|right; right]; subst begin_; cbv beta; rewrite E; cbn [res_bind].
  + done.
  + split; [by eexists|]. intros j t Et. split; [by eapply not_null_tree|by eapply Hr].
  - right; right. split; [by eauto|]. intros j t Et. congruence.
Qed.

(** ** Sequences *)

(** The values inside a container. *)
Abbreviation inner_value := (ref_value src maxDepth unexpected_byte (length src)).

Lemma inner_value_at depth i : (1 <= i <= length src)%nat -> inner_value depth i = value_at depth i.
Proof using Hsrc. intros Hi. apply (ref_value_fuel src maxDepth unexpected_byte Hsrc); lia. Qed.

Section Seq.
Context {K : Type} (step : bool -> nat -> res rerr (nat * option K)) (depth : Z).

(** Items until the step finds the end, with their keys. *)
Fixpoint seq_read (fuel : nat) (first : bool) (i : nat) : res rerr (nat * list (K * tree)) :=
  match fuel with
  | O => NoFuel
  | S fuel =>
    let* (i, key) := step first i in
    match key with
    | None => Ok (i, [])
    | Some k => let* (i, t) := value_at depth i in let* (i, items) := seq_read fuel false i in Ok (i, (k, t) :: items)
    end
  end.

Hypothesis step_returns : forall first i, returns (step first i).
Hypothesis step_bound : forall first i j key, (i <= length src)%nat -> step first i = Ok (j, key) ->
  (i <= j <= length src)%nat /\ (is_Some key -> ref_ws src j = j).
Hypothesis step_digit : forall i, at_digit src i = true -> exists e, step false i = Err e.

Lemma seq_read_returns fuel first i : (i <= length src)%nat -> (length src - i < fuel)%nat -> returns (seq_read fuel first i).
Proof using Hsrc step_returns step_bound.
  revert first i. induction fuel as [|fuel IH]; intros first i Hi Hf; [lia|]. cbn [seq_read]. apply returns_bind; [done|].
  intros [j key] Es. destruct (step_bound _ _ _ _ Hi Es) as [Hj _]. destruct key as [k|]; [|by apply returns_ok].
  apply returns_bind; [apply value_returns; lia|]. intros [i' t] Ev. pose proof (value_bound _ _ _ _ (proj2 Hj) Ev) as Hb.
  apply returns_bind; [apply IH; lia|]. intros [j' items] _. apply returns_ok.
Qed.

(** The outcome of a loop, against the items that are left. *)
Definition seq_tracks (P : gval -> Prop) (a : list (K * tree) -> option gval) (first : bool) (fuel : nat) (c : decoderCursor)
  (out : outcome decoderCursor) : Prop :=
  P out.1 /\
  match seq_read fuel first (d_i c) with
  | Ok (j, items) =>
    match a items with
    | Some w => out.1 = w /\ exists c', out.2 = Ok c' /\ d_i c' = j /\ d_depth c' = depth - 1
    | None => fails out
    end
  | Err _ => fails out
  | _ => False
  end.

Lemma seq_tracks_err (P : gval -> Prop) a first fuel c v e : step first (d_i c) = Err e -> P v -> forall e', seq_tracks P a first (S fuel) c (v, Err e').
Proof using. intros Es Hv e'. split; [done|]. cbn [seq_read]. rewrite Es. cbn [res_bind]. by eexists. Qed.

Lemma seq_tracks_end (P : gval -> Prop) a first fuel c v c' j : step first (d_i c) = Ok (j, None) -> P v -> a [] = Some v ->
  d_i c' = j -> d_depth c' = depth - 1 -> seq_tracks P a first (S fuel) c (v, Ok c').
Proof using. intros Es Hv Ha Hj Hd. split; [done|]. cbn [seq_read]. rewrite Es. cbn [res_bind]. rewrite Ha. eauto. Qed.

(** One item: the outcome [o] of its value, and of the loop behind it. *)
Lemma seq_tracks_more (P Q : gval -> Prop) a b A first fuel c c1 j k o out :
  (d_i c <= length src)%nat -> (length src - d_i c <= fuel)%nat -> (depth <= maxDepth) ->
  step first (d_i c) = Ok (j, Some k) -> d_i c1 = j -> d_depth c1 = depth ->
  (ready c1 -> tracks Q b c1 o) ->
  (Q o.1 -> forall e, o.2 = Err e -> P out.1 /\ fails out) ->
  (forall c2, Q o.1 -> o.2 = Ok c2 -> (j < d_i c2 <= length src)%nat -> d_depth c2 = depth -> seq_tracks P (A o.1) false fuel c2 out) ->
  (forall t items, a ((k, t) :: items) = (x ← b t; A x items)) ->
  seq_tracks P a first (S fuel) c out.
Proof using Hsrc step_bound step_digit step_returns.
  intros Hi Hf Hd Es Hj Hd1 Ho Herr Hok Ha. destruct (step_bound _ _ _ _ Hi Es) as [Hb Hws]. destruct Ho as [HQ Ht].
  { split; [lia|rewrite Hj; apply Hws; by eexists|lia]. }
  unfold seq_tracks. cbn [seq_read]. rewrite Es. cbn [res_bind]. rewrite Hd1, Hj in Ht.
  destruct (value_at depth j) as [[i' t]|[]| |] eqn:Ev; [|destruct Ht as [e He]; cbn [res_bind]; by apply (Herr HQ e)|done..]. cbn [res_bind].
  pose proof (value_bound _ _ _ _ (proj2 Hb) Ev) as Hb'. pose proof (seq_read_returns fuel false i' ltac:(lia) ltac:(lia)) as Hr.
  destruct (b t) as [w|] eqn:Eb.
  - destruct Ht as [(<- & c2 & Ec & Hc2 & Hd2)|[Hdig [e He]]].
  + destruct (Hok c2 HQ Ec) as [HP Hs]; [lia|congruence|]. split; [done|]. rewrite Hc2 in Hs.
    destruct (seq_read fuel false i') as [[j' items]|[]| |]; cbn [res_bind]; [|done..]. by rewrite Ha, Eb.
  + destruct (Herr HQ e He) as [HP Hout]. split; [done|]. destruct fuel as [|fuel]; [lia|]. cbn [seq_read].
    destruct (step_digit i' Hdig) as [e' ->]. done.
  - destruct Ht as [e He]. destruct (Herr HQ e He) as [HP Hout]. split; [done|].
  destruct (seq_read fuel false i') as [[j' items]|[]| |]; cbn [res_bind]; [by rewrite Ha, Eb|done|destruct Hr as [[]|[]]; congruence..].
Qed.
End Seq.

Definition elem_step (first : bool) (i : nat) : res rerr (nat * option unit) :=
  let* (j, more) := ref_elem src first i in Ok (j, if (more : bool) then Some tt else None).

Lemma ref_elem_returns first i : returns (ref_elem src first i).
Proof using.
  unfold ref_elem. destruct (src !! _) as [b|]; [|by eauto with vj]. destruct (b =? _); [by eauto with vj|].
  destruct first; [by eauto with vj|]. destruct (b =? _); by eauto with vj.
Qed.

Lemma elem_returns first i : returns (elem_step first i).
Proof using. apply returns_bind; [apply ref_elem_returns|]. intros [j more] _. apply returns_ok. Qed.

Lemma elem_bound first i j key : (i <= length src)%nat -> elem_step first i = Ok (j, key) ->
  (i <= j <= length src)%nat /\ (is_Some key -> ref_ws src j = j).
Proof using Hsrc.
  intros Hi E. unfold elem_step in E. destruct (ref_elem src first i) as [[j' more]|[]| |] eqn:Er; cbn [res_bind] in E; simplify_eq.
  destruct (ref_elem_bound src first i j more Hi Er) as [Hj Hw]. split; [done|]. destruct more; [intros _; symmetry; by apply Hw|by intros []].
Qed.

(** A digit is neither a delimiter nor whitespace. *)
Lemma digit_at i : at_digit src i = true -> exists b, src !! i = Some b /\ IsDigit b = true /\ ref_ws src i = i.
Proof using Hsrc.
  intros (b & E & Hb)%at_digit_spec. exists b. split_and!; [done..|]. apply ref_ws_high. unfold at_sat. rewrite E. unfold IsDigit in Hb. lia.
Qed.

Lemma elem_digit i : at_digit src i = true -> exists e, elem_step false i = Err e.
Proof using Hsrc.
  intros (b & E & Hb & Hw)%digit_at. unfold elem_step, ref_elem. rewrite Hw, E. unfold IsDigit in Hb.
  rewrite !(proj2 (Z.eqb_neq _ _)) by lia. by eexists.
Qed.

Lemma field_bound first i j key : (i <= length src)%nat -> ref_field src first i = Ok (j, key) ->
  (i <= j <= length src)%nat /\ (is_Some key -> ref_ws src j = j).
Proof using Hsrc. intros Hi E. destruct (ref_field_bound src Hsrc first i j key Hi E) as [Hj Hw]. split; [lia|]. intros Hk. by rewrite <- Hw. Qed.

Lemma field_digit i : at_digit src i = true -> exists e, ref_field src false i = Err e.
Proof using Hsrc.
  intros (b & E & Hb & Hw)%digit_at. unfold ref_field. rewrite Hw, E. unfold IsDigit in Hb.
  rewrite !(proj2 (Z.eqb_neq _ _)) by lia. by eexists.
Qed.

Lemma pull_elems_seq depth fuel first i acc : (1 <= i <= length src)%nat ->
  pull_elems src inner_value fuel depth first i acc = let* (j, items) := seq_read elem_step depth fuel first i in Ok (j, acc ++ map snd items).
Proof using Hsrc.
  revert first i acc. induction fuel as [|fuel IH]; intros first i acc Hi; [done|]. rewrite pull_elems_S. cbn [seq_read].
  pose proof (elem_bound first i) as Hb. unfold elem_step in *. destruct (ref_elem src first i) as [[j more]|[]| |]; cbn [res_bind] in *; try done.
  destruct (Hb _ _ (proj2 Hi) eq_refl) as [Hj _]. destruct more; [|cbn [res_bind map]; by rewrite app_nil_r]. rewrite inner_value_at by lia.
  destruct (value_at depth j) as [[i' t]|[]| |] eqn:Ev; cbn [res_bind]; try done. pose proof (value_bound _ _ _ _ (proj2 Hj) Ev).
  rewrite IH by lia. destruct (seq_read _ _ _ _ _) as [[j' items]|[]| |]; cbn [res_bind map]; try done. by rewrite <- app_assoc.
Qed.

Lemma pull_members_seq depth fuel first i acc : (1 <= i <= length src)%nat ->
  pull_members src inner_value fuel depth first i acc = let* (j, items) := seq_read (ref_field src) depth fuel first i in Ok (j, acc ++ items).
Proof using Hsrc.
  revert first i acc. induction fuel as [|fuel IH]; intros first i acc Hi; [done|]. rewrite pull_members_S. cbn [seq_read].
  destruct (ref_field src first i) as [[j key]|[]| |] eqn:Er; cbn [res_bind]; try done. destruct (field_bound _ _ _ _ (proj2 Hi) Er) as [Hj _].
  destruct key as [name|]; [|cbn [res_bind]; by rewrite app_nil_r]. rewrite inner_value_at by lia.
  destruct (value_at depth j) as [[i' t]|[]| |] eqn:Ev; cbn [res_bind]; try done. pose proof (value_bound _ _ _ _ (proj2 Hj) Ev).
  rewrite IH by lia. destruct (seq_read _ _ _ _ _) as [[j' items]|[]| |]; cbn [res_bind]; try done. by rewrite <- app_assoc.
Qed.

Lemma inner_reads depth i : (1 <= i <= length src)%nat -> reads src (maxDepth - depth) i (inner_value depth i).
Proof using Hsrc. intros Hi. apply ref_value_sound; [done|lia..]. Qed.

(** The value under a cursor that opens a container. *)
Lemma array_tracks (P : gval -> Prop) A a c out : ready c -> src !! d_i c = Some "["%ch -> d_depth c < maxDepth ->
  (forall raw items, a (TArr raw (map snd items)) = A items) ->
  seq_tracks elem_step (d_depth c + 1) P A true (S (S (length src))) (enter c) out -> tracks P a c out.
Proof using Hsrc.
  intros Hc Eb Hd Ha [HP Hs]. split; [done|]. apply lookup_lt_Some in Eb as Hlt. cbn [enter d_i] in Hs.
  pose proof (pull_array src maxDepth Hsrc inner_value (d_depth c + 1) 1 ltac:(intros; by apply inner_reads) (d_i c) Hlt ltac:(lia) ltac:(lia)) as Hp.
  rewrite pull_elems_seq in Hp by lia.
  assert (Ev : value_at (d_depth c) (d_i c) = ref_array src maxDepth inner_value (d_depth c + 1) (d_i c)).
  { unfold value_at. cbn [ref_value]. unfold ref_body. rewrite Eb, (proj2 (Z.ltb_ge _ _)) by lia. done. }
  rewrite Ev. destruct (seq_read _ _ _ _ _) as [[k items]|[]| |]; [| |done..]; cbn [res_bind app] in Hp;
  (destruct (ref_array _ _ _ _ _) as [[k' t]|[]| |]; cbn in Hp; try done).
  injection Hp as <- <-. rewrite Ha. destruct (A items); [|done]. destruct Hs as (-> & c' & Ec & Hj & Hd'). left. split; [done|]. exists c'.
  split_and!; [done..|lia].
Qed.

Lemma object_tracks (P : gval -> Prop) A a c out : ready c -> src !! d_i c = Some "{"%ch -> d_depth c < maxDepth ->
  (forall raw ms, a (TObj raw ms) = A (names ms)) ->
  seq_tracks (ref_field src) (d_depth c + 1) P A true (S (S (length src))) (enter c) out -> tracks P a c out.
Proof using Hsrc.
  intros Hc Eb Hd Ha [HP Hs]. split; [done|]. apply lookup_lt_Some in Eb as Hlt. cbn [enter d_i] in Hs.
  pose proof (pull_object src maxDepth Hsrc inner_value (d_depth c + 1) 1 ltac:(intros; by apply inner_reads) (d_i c) Hlt ltac:(lia) ltac:(lia)) as Hp.
  rewrite pull_members_seq in Hp by lia.
  assert (Ev : value_at (d_depth c) (d_i c) = ref_object src maxDepth inner_value (d_depth c + 1) (d_i c)).
  { unfold value_at. cbn [ref_value]. unfold ref_body. rewrite Eb, (proj2 (Z.ltb_ge _ _)) by lia. done. }
  rewrite Ev. destruct (seq_read _ _ _ _ _) as [[k items]|[]| |]; [| |done..]; cbn [res_bind app] in Hp;
  (destruct (ref_object _ _ _ _ _) as [[k' t]|[]| |]; try done).
  destruct Hp as (<- & ms & -> & ->). rewrite (Ha _ ms). destruct (A (names ms)); [|done]. destruct Hs as (-> & c' & Ec & Hj & Hd'). left.
  split; [done|]. exists c'. split_and!; [done..|lia].
Qed.
End Track.
