(* ===== verification/TypedRun.v ===== *)
(** The decoders of [TypedDecode.v] do what [assign] of [TypedSpec.v] says: one lemma
    per kind, and the theorems about whole documents. *)

From S2P Require Import Prelude Words Utf8 Scanner Lex Grammar StringRef Errors Numbers Reader Validator FastValid ParserString Layout NumberEqual Digits DecoderCursor DecoderScalar OpenAddr FieldFold FieldTable FieldMatch TypedPlan TypedDecode TypedSpec TypedTrack.
From stdpp Require Import gmap.
Open Scope Z_scope.

(** ** Backing arrays *)

(** A backing array with an element written: both ways of writing it. *)
Definition written (array : list gval) (index : nat) (x : gval) : list gval := take index array ++ x :: drop (S index) array.

Lemma written_take array index x : (index <= length array)%nat -> take (S index) (written array index x) = take index array ++ [x].
Proof.
  intros Hi. unfold written. rewrite take_app_ge by (rewrite length_take; lia). rewrite length_take, Nat.min_l by done.
  replace (S index - index)%nat with 1%nat by lia. done.
Qed.

Lemma written_drop array index x k : (index <= length array)%nat -> (index < k)%nat -> drop k (written array index x) = drop k array.
Proof.
  intros Hi Hk. unfold written. rewrite drop_app_ge by (rewrite length_take; lia). rewrite length_take, Nat.min_l by done.
  replace (k - index)%nat with (S (k - S index)) by lia. cbn [drop]. rewrite drop_drop. f_equal. lia.
Qed.

Lemma written_length array index x : (index <= length array)%nat -> (S index <= length (written array index x))%nat.
Proof. intros Hi. unfold written. rewrite length_app, length_take. cbn [length]. lia. Qed.

Lemma written_Forall (P : gval -> Prop) array index x : Forall P array -> P x -> Forall P (written array index x).
Proof. intros Ha Hx. unfold written. apply Forall_app. split; [by apply Forall_take|]. constructor; [done|by apply Forall_drop]. Qed.

Lemma tail_drop_S (l : list gval) i : tail (drop i l) = drop (S i) l.
Proof. revert i. induction l as [|x l IH]; intros [|i]; cbn; auto. Qed.

Lemma set_element_written h index x : (index <= length (default [] h))%nat -> set_element h index x = Some (written (default [] h) index x).
Proof.
  intros Hi. unfold set_element, written. f_equal. destruct (Nat.ltb_spec index (length (default [] h))) as [Hlt|Hge].
  - by apply insert_take_drop.
  - by rewrite take_ge, drop_ge by lia.
Qed.

Lemma head_drop (l : list gval) i : head (drop i l) = l !! i.
Proof. revert i. induction l as [|x l IH]; intros [|i]; cbn; auto. Qed.

(** What a loop leaves that has read [index] elements into the array and reads the
    trees of [xs] next. *)
Definition slice_rest (array : list gval) (index : nat) (xs : list gval) : gval :=
  if (index + length xs =? 0)%nat then emptySlice else VSlice (Some (take index array ++ xs, drop (index + length xs) array)).

Lemma slice_rest_cons array index x xs : (index <= length array)%nat ->
  slice_rest array index (x :: xs) = slice_rest (written array index x) (S index) xs.
Proof.
  intros Hi. unfold slice_rest. cbn [length]. rewrite (proj2 (Nat.eqb_neq _ 0)) by (lia). rewrite (proj2 (Nat.eqb_neq _ 0)) by (lia).
  rewrite written_take, written_drop by (lia). rewrite <- app_assoc. cbn [app]. by replace (index + S (length xs))%nat with (S index + length xs)%nat by lia.
Qed.

Section Run.
Context `{FoldingLaws} (src : bytes) (maxDepth : Z) (flags : decoderFlags).
Context (Quote : bytes -> string) (aliases : bytes -> bool) (p : plan) (rank : nat -> nat).
Hypothesis Hsrc : bytes_ok src.
Hypothesis Hp : forall n nd, p !! n = Some nd -> node_ok p rank n nd.
Hypothesis Hmerge : decoderReplace flags = false.

Abbreviation ready := (ready src maxDepth).
Abbreviation tracks := (tracks src maxDepth).
Abbreviation elem_tracks := (seq_tracks src maxDepth (elem_step src)).
Abbreviation member_tracks := (seq_tracks src maxDepth (ref_field src)).
Abbreviation asg := (assign flags p).
Abbreviation decoder := (nat -> gval -> decoderCursor -> outcome decoderCursor).

(** What a loop or a record asks of the decoder of its parts. *)
Definition part_tracks (rec : decoder) (n : nat) (v : gval) (c : decoderCursor) : Prop :=
  tracks (has_type p n) (fun t => asg t n v) c (rec n v c).
Definition parts_track (rec : decoder) (lo : nat) : Prop :=
  forall n v c, has_type p n v -> ready c -> (lo < d_i c)%nat -> part_tracks rec n v c.

Ltac elem_item := eapply (seq_tracks_more src maxDepth Hsrc (elem_step src) _ (elem_returns src) (elem_bound src Hsrc) (elem_digit src Hsrc)).
Ltac member_item := eapply (seq_tracks_more src maxDepth Hsrc (ref_field src) _ (ref_field_returns src Hsrc) (field_bound src Hsrc) (field_digit src Hsrc)).

Lemma base_node n nd : p !! n = Some nd -> tn_kind nd <> typedPointer -> pointer_elem p n = None.
Proof using. intros Hn Hk. unfold pointer_elem. rewrite Hn. by rewrite bool_decide_eq_false_2. Qed.

(** ** Scalars *)

Lemma value_number c j raw : ready c -> value_at src maxDepth (d_depth c) (d_i c) = Ok (j, TNum raw) -> jnumber raw.
Proof using Hsrc.
  clear Hmerge. intros Hc E. pose proof (ref_value_sound src maxDepth unexpected_byte Hsrc (S (length src)) (d_depth c) (d_i c) (rd_le _ _ _ Hc) ltac:(lia)) as Hr.
  unfold value_at in E. rewrite E in Hr. destruct Hr as (_ & s & _ & Hv). by inversion Hv.
  Qed.

Lemma store_tracks {A} (inj : A -> gval) (P : gval -> Prop) nd v c (r : res derr (A * decoderCursor)) val :
  scalar_follows src c r (value_at src maxDepth (d_depth c) (d_i c)) val -> P v -> (forall j t x, value_at src maxDepth (d_depth c) (d_i c) = Ok (j, t) -> val t = Some x -> P (inj x)) ->
  tracks P (fun t => inj <$> val t) c (store_scalar inj nd v r).
Proof using.
  unfold scalar_follows, TypedTrack.tracks. destruct (value_at _ _ _ _) as [[j t]|[o m]| |]; try done.
  - destruct (val t) as [x|] eqn:Ev; cbn [fmap option_fmap option_map].
  + intros [->|[Hd [e ->]]] Hv Hx; cbn [store_scalar fst]; (split; [by eauto|]).
    * left. split; [done|]. by eexists.
    * right. split; [done|]. by eexists.
  + intros [e ->] Hv _. split; [done|]. by eexists.
  - intros [e ->] Hv _. split; [done|]. by eexists.
Qed.

Lemma scalar_tracks n nd v c : p !! n = Some nd -> has_type p n v -> ready c ->
  tn_kind nd = typedBool \/ tn_kind nd = typedString \/ tn_kind nd = typedNumber \/ tn_kind nd = typedInt \/ tn_kind nd = typedUint ->
  tracks (has_type p n) (fun t => asg t n v) c (decode_scalar src flags aliases nd v c).
Proof using All.
  intros Hn Hv Hc Hk. pose proof (value_case src maxDepth Hsrc c Hc) as Hh. pose proof (rd_le _ _ _ Hc) as Hi.
  assert (Hbase : forall t, asg t n v = assign_base flags p t (match t with TArr _ ts => map asg ts | _ => [] end)
  (match t with TObj _ ms => named flags p (names ms) | _ => [] end) n v).
  { intros t. apply assign_base_eq, (base_node _ nd); [done|]. intros E. rewrite E in Hk. naive_solver. }
  pose proof (no_bits _ _ _ _ (Hp _ _ Hn)) as Hw. unfold decode_scalar.
  destruct Hk as [Hk|[Hk|[Hk|[Hk|Hk]]]]; rewrite Hk in *; (inversion Hv; simplify_eq; try congruence);
  (eapply tracks_ext; [intros j t _; symmetry; rewrite Hbase; unfold assign_base; rewrite Hn; cbn [mbind option_bind]; rewrite Hk; reflexivity|]);
  (eapply store_tracks; [|done|]).
  - rewrite <- Hmerge. by apply d_Bool_ref.
  - intros j t x _ _. by eapply HT_bool.
  - rewrite <- Hmerge. by apply d_String_ref.
  - intros j t x _ _. by eapply HT_string.
  - rewrite <- Hmerge. by apply d_Number_ref.
  - intros j t x _ _. by eapply HT_number.
  - rewrite <- Hmerge. apply d_Int_ref; auto.
  - intros j t x Et Hx. eapply HT_int; [done..|]. destruct t; simplify_eq/=; [done|]. destruct (plain_integer raw); [|done]. cbn [andb] in Hx.
  case_match; simplify_eq. lia.
  - rewrite <- Hmerge. apply d_Uint_ref; auto.
  - intros j t x Et Hx. eapply HT_uint; [done..|]. destruct t; simplify_eq/=; [done|]. destruct (plain_integer raw && negb (is_negative raw)) eqn:Ep; [|done].
  cbn [andb] in Hx. case_match; simplify_eq. split; [|lia]. pose proof Ep as [_ Hneg%negb_true_iff]%andb_true_iff.
  destruct (plain_cases raw) as [(ds & -> & _ & En & _)|((Hds & _) & _ & ->)]; [|by apply andb_true_iff in Ep as [? _]|congruence|by apply dval_bound].
  by apply (value_number c j).
Qed.
(** ** Records *)

Abbreviation record_of slots := (fun v => exists vs, v = VStruct vs /\ Forall2 (slot_type p) slots vs).

(** The walk through embedded pointers, around a decoder of the field. *)
Lemma hops_tracks slots hops slot n vs c (k : gval -> decoderCursor -> outcome decoderCursor) (ka : gval -> tree -> option gval) :
  path_type p slots hops slot n -> Forall2 (slot_type p) slots vs -> ready c ->
  (forall x, has_type p n x -> tracks (has_type p n) (ka x) c (k x c)) ->
  tracks (record_of slots) (fun t => assign_hops hops slot (fun x => ka x t) (VStruct vs)) c (decode_hops hops slot k (VStruct vs) c).
Proof using All.
  intros Hpath. revert vs. induction Hpath as [slots slot n Hs|slots hop hops slot n q pnd snd_ Hq Hpn Hpk Hsn Hsk Hz Hpath IH]; intros vs Hvs Hc Hk.
  - destruct (slot_at p _ _ _ _ Hvs Hs) as (x & Hx & Ht). cbn [decode_hops assign_hops]. rewrite Hx.
  eapply tracks_ext; [|apply (tracks_within _ _ (has_type p n) _ (ka x)); [by apply Hk|]].
  + intros j t _. cbn [mbind option_bind]. by destruct (ka x t).
  + intros y Hy. eexists. split; [done|]. by eapply slot_insert.
  - destruct (slot_at p _ _ _ _ Hvs Hq) as (x & Hx & Ht). cbn [decode_hops assign_hops]. rewrite Hx.
  assert (Hdown : forall y, has_type p (tn_elem pnd) y ->
    tracks (record_of slots) (fun t => x' ← assign_hops hops slot (fun x => ka x t) y; Some (VStruct (<[hop_slot hop := VPointer (Some x')]> vs))) c
      (within (fun x => VStruct (<[hop_slot hop := VPointer (Some x)]> vs)) (decode_hops hops slot k y c))).
  { intros y Hy. inversion Hy; simplify_eq; try congruence.
    eapply tracks_ext; [|eapply tracks_within; [by apply IH|]].
    - intros j t _. cbn [mbind option_bind]. by destruct (assign_hops _ _ _ _).
    - intros z (zs & -> & Hzs). eexists. split; [done|]. eapply slot_insert; [done..|]. eapply HT_pointer; [done..|]. by eapply HT_struct. }
  inversion Ht; simplify_eq; try congruence.
  + destruct (hop_unexported hop).
    * apply tracks_err; [done..|by exists vs|]. intros j t _. done.
    * eapply tracks_ext; [|by apply Hdown]. done.
  + eapply tracks_ext; [|by apply Hdown]. done.
Qed.

Lemma field_tracks rec n nd f i v c : p !! n = Some nd -> tn_kind nd = typedStruct -> tn_fields nd !! i = Some f -> has_type p n v -> ready c ->
  (forall x, has_type p (tf_node f) x -> part_tracks rec (tf_node f) x c) ->
  tracks (has_type p n) (fun t => hops ← field_hops nd f; assign_hops hops (tf_slot f) (asg t (tf_node f)) v) c (decode_field rec nd f v c).
Proof using All.
  intros Hn Hk Hf Hv Hc Hrec. destruct (no_fields _ _ _ _ (Hp n nd Hn) i f Hk Hf) as (hops & Eh & Hpath & _).
  unfold decode_field. rewrite Eh. cbn [mbind option_bind]. apply tracks_wrap. inversion Hv; simplify_eq; try congruence.
  apply (tracks_weaken _ _ (record_of (tn_slots nd))); [|by apply (hops_tracks _ _ _ (tf_node f) _ _ _ (fun x t => asg t (tf_node f) x))].
  intros w (ws & -> & Hws). by eapply HT_struct.
Qed.

Lemma choose_lookup fields fold name f : FieldTable.choose fields fold name = Some f -> exists i, fields !! i = Some f.
Proof using.
  unfold FieldTable.choose, find_exact, findFieldFold. intros E. assert (Hin : In f fields).
  { destruct (List.find _ fields) as [g|] eqn:Eg; [injection E as ->; apply find_some in Eg; apply Eg|]. destruct fold; [|done]. apply find_some in E. apply E. }
  by apply list_elem_of_In, list_elem_of_lookup in Hin.
Qed.

(** An outcome that fails whatever is left to read. *)
Lemma seq_tracks_none {K} (step : bool -> nat -> res rerr (nat * option K)) depth (P : gval -> Prop) first fuel c v e :
  returns (seq_read src maxDepth step depth fuel first (d_i c)) -> P v ->
  seq_tracks src maxDepth step depth P (fun _ => None) first fuel c (v, Err e).
Proof using.
  intros Hr Hv. split; [done|]. destruct (seq_read _ _ _ _ _ _) as [[j items]|[]| |]; [by eexists|by eexists|destruct Hr as [[]|[]]; congruence..].
Qed.

(** A value that is passed over, and an unknown member. *)
Lemma skip_tracks (P : gval -> Prop) v c : P v -> ready c -> tracks P (fun _ => Some v) c (v, d_Skip src maxDepth c).
Proof using Hsrc.
  clear Hmerge. intros Hv Hc. split; [done|]. pose proof (rd_le _ _ _ Hc) as Hi. rewrite d_Skip_ref by done. fold (value_at src maxDepth (d_depth c) (d_i c)).
  pose proof (value_returns src maxDepth Hsrc (d_depth c) (d_i c) Hi) as Hr.
  destruct (value_at _ _ _ _) as [[j t]|[o m]| |]; [|by eexists|destruct Hr as [[]|[]]; congruence..].
  left. split; [done|]. by eexists.
Qed.

Lemma unknown_tracks nd name (P : gval -> Prop) v c : P v -> ready c ->
  tracks P (fun _ => if decoderDisallowUnknown flags then None else Some v) c (v, Unknown src maxDepth flags Quote (tn_name nd) name c).
Proof using Hsrc.
  clear Hmerge. intros Hv Hc. unfold Unknown. destruct (decoderDisallowUnknown flags); [by apply tracks_err|by apply skip_tracks].
Qed.

(** The member loop: what each member does, in order. *)
Lemma members_track rec n nd fuel position first v c lo :
  p !! n = Some nd -> tn_kind nd = typedStruct -> has_type p n v -> parts_track rec lo ->
  (lo < d_i c)%nat -> (d_i c <= length src)%nat -> (length src - d_i c < fuel)%nat -> d_depth c <= maxDepth ->
  member_tracks (d_depth c) (has_type p n) (fun ms => assign_members flags nd (named flags p ms) v) first fuel c
  (decode_members src maxDepth flags Quote rec fuel nd position first v c).
Proof using All.
  intros Hn Hk Hv Hrec. revert position first v c Hv. induction fuel as [|fuel IH]; intros position first v c Hv Hlo Hi Hf Hd; [lia|].
  cbn [decode_members]. pose proof (Hp n nd Hn) as Hok. pose proof (no_record _ _ _ _ Hok Hk) as Hrec_ok.
  pose proof (member_at_ref src flags Hsrc (tn_fields nd) position first c Hrec_ok Hi) as Hm.
  destruct (ref_field src first (d_i c)) as [[j key]|[o msg]| |] eqn:Er; [|rewrite Hm; cbn [outcome_bind]; by eapply seq_tracks_err|done..].
  destruct Hm as (m & c1 & -> & Hj & Hd1 & Hm). cbn [outcome_bind]. destruct key as [name|].
  2:{ subst m. cbn [is_live] in Hd1. by eapply seq_tracks_end. }
  cbn [is_live] in Hd1. destruct (field_bound src Hsrc _ _ _ _ Hi Er) as [Hb Hws].
  assert (Hsel : select_field flags nd position m = Ok (option_map (fun f => (f, match m with Member _ => S (tf_pos f) | _ => S position end))
  (FieldTable.choose (tn_fields nd) (negb (decoderCaseSensitive flags)) name))).
  { unfold select_field, CaseSensitive. rewrite (member_field_ref _ _ _ _ _ _ name Hrec_ok (no_size _ _ _ _ Hok Hk) (no_table _ _ _ _ Hok Hk) Hm). done. }
  set (selected := FieldTable.choose (tn_fields nd) (negb (decoderCaseSensitive flags)) name) in *.
  assert (Hadd : forall t items, assign_members flags nd (named flags p ((name, t) :: items)) v =
    (x ← assign_member flags nd name (asg t) v; assign_members flags nd (named flags p items) x)) by done.
  destruct selected as [f|] eqn:Ec.
  - match goal with |- seq_tracks _ _ _ _ _ _ _ _ _ ?o =>
      assert (Hout : exists position', o = let@ dst; c := decode_field rec nd f v c1 in decode_members src maxDepth flags Quote rec fuel nd position' false dst c)
    end.
    { rewrite Hsel. destruct Hm as [->|[-> _]]; cbn [outcome_bind option_map]; by eexists. }
    destruct Hout as [position' ->]. destruct (choose_lookup _ _ _ _ Ec) as [i Hfi].
    member_item; [exact Hi|lia|exact Hd|exact Er|exact Hj|exact Hd1| | | |exact Hadd].
    + intros Hc1. eapply tracks_ext; [|eapply (field_tracks rec n nd f i v c1); [done..|]].
      * intros j' t _. unfold assign_member. fold selected. by rewrite Ec.
      * intros x Hx. apply Hrec; [done..|lia].
    + destruct (decode_field rec nd f v c1) as [w r]. cbn [fst snd]. intros Hw e ->. split; [done|by eexists].
    + destruct (decode_field rec nd f v c1) as [w r]. cbn [fst snd]. intros c2 Hw -> Hc2 Hd2. cbn [outcome_bind]. rewrite <- Hd2.
      apply IH; (done || lia).
  - destruct Hm as [->|(_ & [f Hf'] & Hc)]; [|exfalso; congruence]. rewrite Hsel. cbn [outcome_bind option_map].
    member_item; [exact Hi|lia|exact Hd|exact Er|exact Hj|exact Hd1| | | |exact Hadd].
    + intros Hc1. unfold assign_member. fold selected. rewrite Ec. by apply unknown_tracks.
    + cbn [fst snd]. intros _ e ->. split; [done|by eexists].
    + cbn [fst snd]. intros c2 _ -> Hc2 Hd2. cbn [outcome_bind]. rewrite <- Hd2. apply IH; (done || lia).
Qed.
(** ** Elements *)

Lemma header_type n nd h index : p !! n = Some nd -> tn_kind nd = typedSlice -> Forall (has_type p (tn_elem nd)) (default [] h) ->
  has_type p n (header_value h index).
Proof using.
  intros Hn Hk Hh. destruct h as [l|]; cbn [header_value]; [|by eapply HT_slice_nil]. eapply HT_slice; [done..|by apply Forall_take|by apply Forall_drop].
Qed.

Lemma elem_zero n nd : p !! n = Some nd -> tn_kind nd = typedSlice \/ tn_kind nd = typedArray \/ tn_kind nd = typedPointer \/ tn_kind nd = typedMap ->
  exists e, p !! tn_elem nd = Some e /\ zero_of p (tn_elem nd) = Ok (tn_zero e) /\ has_type p (tn_elem nd) (tn_zero e).
Proof using Hp.
  intros Hn Hk. destruct (lookup_lt_is_Some_2 p _ (no_elem _ _ _ _ (Hp n nd Hn) Hk)) as [e He]. exists e. unfold zero_of. rewrite He.
  split_and!; [done..|]. apply (no_zero _ _ _ _ (Hp _ _ He)).
Qed.

Definition slice_assigns (nd : typedNode) (zero : gval) (array : list gval) (index : nat) (items : list (unit * tree)) : option gval :=
  xs ← assign_seq (tn_elem nd) zero (map asg (map snd items)) (drop index array); Some (slice_rest array index xs).

Lemma elements_track rec next n nd e fuel h index first c lo :
  (forall first c, (d_i c <= length src)%nat -> next first c = step_result src id c (ref_elem src first (d_i c))) ->
  p !! n = Some nd -> tn_kind nd = typedSlice -> p !! tn_elem nd = Some e -> Forall (has_type p (tn_elem nd)) (default [] h) ->
  (index <= length (default [] h))%nat -> (h = None -> index = 0%nat) -> parts_track rec lo ->
  (lo < d_i c)%nat -> (d_i c <= length src)%nat -> (length src - d_i c < fuel)%nat -> d_depth c <= maxDepth ->
  elem_tracks (d_depth c) (has_type p n) (slice_assigns nd (tn_zero e) (default [] h) index) first fuel c
  (decode_elements p rec next fuel nd h index first c).
Proof using All.
  intros Hnext Hn Hk He Hh Hix Hnone Hrec. revert h index first c Hh Hix Hnone.
  induction fuel as [|fuel IH]; intros h index first c Hh Hix Hnone Hlo Hi Hf Hd; [lia|]. cbn [decode_elements]. rewrite Hnext by done.
  destruct (elem_zero n nd Hn ltac:(by left)) as (e' & He' & Hz & Hzt). assert (e' = e) as -> by congruence. rewrite Hz.
  pose proof (header_type n nd h index Hn Hk Hh) as Hv. assert (Es := elem_bound src Hsrc first (d_i c)). unfold elem_step in Es.
  pose proof (ref_elem_returns src first (d_i c)) as Hr.
  destruct (ref_elem src first (d_i c)) as [[j more]|[o msg]| |] eqn:Er; [| |destruct Hr as [[]|[]]; congruence..]; cbn [step_result outcome_bind].
  2:{ eapply seq_tracks_err; [|done]. unfold elem_step. by rewrite Er. }
  destruct more; cbn [id negb].
  2:{ eapply seq_tracks_end; [unfold elem_step; by rewrite Er|by destruct (index =? 0)%nat; [eapply HT_slice|]| |done|done].
  cbn. unfold slice_rest. rewrite Nat.add_0_r, app_nil_r. destruct (Nat.eqb_spec index 0); [done|]. by destruct h as [l|]; [|exfalso; auto]. }
  destruct (Es _ _ Hi eq_refl) as [Hb _]. cbn [outcome_bind].
  assert (Hel : has_type p (tn_elem nd) (elementAt h (tn_zero e) index)).
  { unfold elementAt. destruct (default [] h !! index) as [x|] eqn:Ex; [|done]. exact (Forall_lookup_1 _ _ _ _ Hh Ex). }
  elem_item; [exact Hi|lia|exact Hd|unfold elem_step; by rewrite Er|by instantiate (1 := set_i c j)|done| | | |].
  - intros Hc1. apply (Hrec (tn_elem nd) (elementAt h (tn_zero e) index)); [done..|cbn; lia].
  - destruct (rec _ _ _) as [x r]. cbn [fst snd]. intros Hx err ->. rewrite set_element_written by done. cbn. split; [|by eexists].
  apply (header_type n nd (Some _)); [done..|by apply written_Forall].
  - destruct (rec _ _ _) as [x r]. cbn [fst snd]. intros c2 Hx -> Hc2 Hd2. rewrite set_element_written by done. cbn [wrap_error outcome_bind].
  rewrite <- Hd2. apply (IH (Some (written (default [] h) index x))); cbn [default]; [by apply written_Forall|by apply written_length|done|lia..].
  - intros t items. unfold slice_assigns. cbn [map snd assign_seq]. rewrite head_drop. fold (elementAt h (tn_zero e) index).
  destruct (asg t (tn_elem nd) (elementAt h (tn_zero e) index)) as [x|]; [|done]. cbn [mbind option_bind]. change (default [] (Some ?w)) with w.
    rewrite tail_drop_S, written_drop by lia.
    destruct (assign_seq _ _ _ _) as [xs|]; [|done]. cbn [mbind option_bind]. by rewrite slice_rest_cons.
Qed.
(** The scalar loops step as the general one. *)
Lemma scalar_next_ref first c : (d_i c <= length src)%nat -> scalar_next src first c = step_result src id c (ref_elem src first (d_i c)).
Proof using Hsrc.
  clear Hmerge. intros Hi. unfold scalar_next, scalarSliceAdvance. destruct first; [by apply NextArrayElement_ref|].
  destruct (at_byte src (d_i c) ","%ch) eqn:Eb; cbn [negb]; [|by apply NextArrayElement_ref]. apply at_byte_spec in Eb. apply lookup_lt_Some in Eb as Hlt.
  assert (Hw : ref_ws src (d_i c) = d_i c) by (apply ref_ws_high; unfold at_sat; by rewrite Eb).
  unfold ref_elem. rewrite Hw, Eb. cbn [Z.eqb Pos.eqb step_result id set_i d_i]. f_equal. f_equal.
  rewrite <- (skip_at_ref src Hsrc (S (d_i c))) by lia. by destruct (at_sat _ _ _).
Qed.

(** The arrays of a fixed length. *)
Definition array_assigns (nd : typedNode) (zero : gval) (l : list gval) (index : nat) (items : list (unit * tree)) : option gval :=
  xs ← assign_seq (tn_elem nd) zero (take (tn_length nd - index) (map asg (map snd items))) (drop index l);
  rest ← mapM (resetTyped p (length p) (tn_elem nd)) (drop (index + length xs) l);
  Some (VArray (take index l ++ xs ++ rest)).

Lemma array_tail_ok n nd l from : p !! n = Some nd -> tn_kind nd = typedArray -> length l = tn_length nd -> Forall (has_type p (tn_elem nd)) l ->
  exists rest, mapM (resetTyped p (length p) (tn_elem nd)) (drop from l) = Some rest /\ has_type p n (VArray (take from l ++ rest)).
Proof using Hp.
  intros Hn Hk Hl Ht. destruct (lookup_lt_is_Some_2 p _ (no_elem _ _ _ _ (Hp n nd Hn) ltac:(by right; left))) as [e He].
  destruct (mapM_types (resetTyped p (length p) (tn_elem nd)) (has_type p (tn_elem nd)) (drop from l)) as (rest & E & Hr & Hlen).
  { by apply Forall_drop. }
  { intros v Hv. apply (resetTyped_ok p rank Hp); [|done]. exact (no_rank _ _ _ _ (Hp _ _ He)). }
  exists rest. split; [done|]. eapply HT_array; [done..| |apply Forall_app; split; [by apply Forall_take|done]].
  rewrite length_app, Hlen, <- length_app, take_drop. done.
Qed.

Lemma array_track rec n nd e fuel l index first c lo :
  p !! n = Some nd -> tn_kind nd = typedArray -> p !! tn_elem nd = Some e -> length l = tn_length nd -> Forall (has_type p (tn_elem nd)) l ->
  parts_track rec lo ->
  (lo < d_i c)%nat -> (d_i c <= length src)%nat -> (length src - d_i c < fuel)%nat -> d_depth c <= maxDepth ->
  elem_tracks (d_depth c) (has_type p n) (array_assigns nd (tn_zero e) l index) first fuel c
  (decode_array src maxDepth p rec fuel nd l index first c).
Proof using All.
  intros Hn Hk He Hlen Hl Hrec. revert l index first c Hlen Hl.
  induction fuel as [|fuel IH]; intros l index first c Hlen Hl Hlo Hi Hf Hd; [lia|]. cbn [decode_array]. rewrite NextArrayElement_ref by done.
  assert (Hv : has_type p n (VArray l)) by (by eapply HT_array). assert (Es := elem_bound src Hsrc first (d_i c)). unfold elem_step in Es.
  pose proof (ref_elem_returns src first (d_i c)) as Hr.
  destruct (ref_elem src first (d_i c)) as [[j more]|[o msg]| |] eqn:Er; [| |destruct Hr as [[]|[]]; congruence..]; cbn [step_result outcome_bind].
  2:{ eapply seq_tracks_err; [|done]. unfold elem_step. by rewrite Er. }
  destruct more; cbn [id negb].
  2:{ destruct (array_tail_ok n nd l index Hn Hk Hlen Hl) as (rest & E & Ht). unfold zeroTypedArrayTail. rewrite E. cbn [option_map].
  eapply seq_tracks_end; [unfold elem_step; by rewrite Er|done| |done|done]. unfold array_assigns. cbn [map]. rewrite take_nil. cbn [assign_seq mbind option_bind length].
  by rewrite Nat.add_0_r, E. }
  destruct (Es _ _ Hi eq_refl) as [Hb _]. destruct (Nat.ltb_spec index (tn_length nd)) as [Hix|Hix].
  - destruct (lookup_lt_is_Some_2 l index ltac:(lia)) as [x0 Hx0]. rewrite Hx0. pose proof (Forall_lookup_1 _ _ _ _ Hl Hx0) as Hx0t. cbn beta in Hx0t.
  elem_item; [exact Hi|lia|exact Hd|unfold elem_step; by rewrite Er|by instantiate (1 := set_i c j)|done| | | |].
  + intros Hc1. apply (Hrec (tn_elem nd) x0); [done..|cbn; lia].
  + destruct (rec _ _ _) as [x r]. cbn [fst snd]. intros Hx err ->. cbn. split; [|by eexists].
    eapply HT_array; [done..|by rewrite length_insert|by apply Forall_insert].
  + destruct (rec _ _ _) as [x r]. cbn [fst snd]. intros c2 Hx -> Hc2 Hd2. cbn [wrap_error outcome_bind].
    rewrite <- Hd2. apply (IH (<[index := x]> l)); [by rewrite length_insert|by apply Forall_insert|lia..].
  + intros t items. unfold array_assigns. cbn [map snd]. replace (tn_length nd - index)%nat with (S (tn_length nd - S index)) by lia.
    cbn [take assign_seq]. rewrite head_drop, Hx0. cbn [default from_option id]. rewrite tail_drop_S.
    destruct (asg t (tn_elem nd) x0) as [x|]; [|done]. cbn [mbind option_bind]. rewrite insert_take_drop by lia. fold (written l index x).
    rewrite !written_drop by lia. destruct (assign_seq _ _ _ _) as [xs|]; [|done]. cbn [mbind option_bind length].
    rewrite written_take, written_drop by lia. replace (index + S (length xs))%nat with (S index + length xs)%nat by lia.
    destruct (mapM _ _) as [rest|]; [|done]. cbn [mbind option_bind]. by rewrite <- app_assoc.
  - elem_item; [exact Hi|lia|exact Hd|unfold elem_step; by rewrite Er|by instantiate (1 := set_i c j)|done| | | |].
  + intros Hc1. apply (skip_tracks (has_type p n) (VArray l)); done.
  + cbn [fst snd]. intros _ err ->. split; [done|by eexists].
  + cbn [fst snd]. intros c2 _ -> Hc2 Hd2. cbn [outcome_bind].
      instantiate (1 := fun _ => array_assigns nd (tn_zero e) l (S index)). rewrite <- Hd2. apply (IH l (S index)); (done || lia).
  + intros t items. unfold array_assigns. cbn [mbind option_bind]. replace (tn_length nd - index)%nat with 0%nat by lia.
    replace (tn_length nd - S index)%nat with 0%nat by lia. rewrite !take_0. cbn [assign_seq mbind option_bind length plus].
      rewrite !(drop_ge l), !(take_ge l) by lia. done.
Qed.

(** ** Maps *)

Lemma map_insert_type n nd m k x : p !! n = Some nd -> tn_kind nd = typedMap -> has_type p n (VMap (Some m)) -> key_type p nd k ->
  has_type p (tn_elem nd) x -> has_type p n (VMap (Some (<[k := x]> m))).
Proof using.
  intros Hn Hk Hm Hkey Hx. inversion Hm; simplify_eq. eapply HT_map; [done..|]. intros k' v' [[<- <-]|[_ Hl]]%lookup_insert_Some; [done|by auto].
Qed.

Lemma entries_track rec n nd e fuel m first c lo :
  p !! n = Some nd -> tn_kind nd = typedMap -> p !! tn_elem nd = Some e -> has_type p n (VMap (Some m)) -> parts_track rec lo ->
  (lo < d_i c)%nat -> (d_i c <= length src)%nat -> (length src - d_i c < fuel)%nat -> d_depth c <= maxDepth ->
  member_tracks (d_depth c) (has_type p n) (fun ms => assign_entries nd (tn_zero e) (named flags p ms) m) first fuel c
  (decode_entries src p rec fuel nd m first c).
Proof using All.
  intros Hn Hk He Hm Hrec. revert m first c Hm. induction fuel as [|fuel IH]; intros m first c Hm Hlo Hi Hf Hd; [lia|].
  cbn [decode_entries]. rewrite NextObjectField_ref by done. destruct (elem_zero n nd Hn ltac:(auto)) as (e' & He' & Hz & Hzt). assert (e' = e) as -> by congruence.
  pose proof (ref_field_returns src Hsrc first (d_i c)) as Hr.
  destruct (ref_field src first (d_i c)) as [[j key]|[o msg]| |] eqn:Er; [| |destruct Hr as [[]|[]]; congruence..]; cbn [step_result outcome_bind].
  2:{ by eapply seq_tracks_err. }
  destruct (field_bound src Hsrc _ _ _ _ Hi Er) as [Hb _]. destruct key as [name|]; cbn [is_live].
  2:{ by eapply seq_tracks_end. }
  rewrite Hz. cbn [outcome_bind].
  member_item; [exact Hi|lia|exact Hd|exact Er|by instantiate (1 := set_i c j)|done| | | |].
  - intros Hc1. apply (Hrec (tn_elem nd) (tn_zero e)); [done..|cbn; lia].
  - destruct (rec _ _ _) as [x r]. cbn [fst snd]. intros Hx err ->. cbn. split; [done|by eexists].
  - destruct (rec _ _ _) as [x r]. cbn [fst snd]. intros c2 Hx -> Hc2 Hd2. cbn [wrap_error outcome_bind].
  instantiate (1 := fun x items => match setMapKeyValue nd name with inl k => assign_entries nd (tn_zero e) (named flags p items) (<[k := x]> m) | inr _ => None end).
  cbn beta. destruct (setMapKeyValue nd name) as [k|reason] eqn:Ek.
  + rewrite <- Hd2. apply IH; [|lia..]. eapply map_insert_type; [done..|by eapply setMapKeyValue_type|done].
  + apply seq_tracks_none; [|done]. apply (seq_read_returns src maxDepth Hsrc (ref_field src) _ (ref_field_returns src Hsrc) (field_bound src Hsrc)); lia.
  - intros t items. done.
Qed.
(** ** Containers *)

(** A container opens, or is null, or is refused. *)
Lemma open_tracks open jsonType typeName (P : gval -> Prop) v v0 a c (k : gval -> bool * decoderCursor -> outcome decoderCursor) :
  open = "["%ch \/ open = "{"%ch -> ready c -> P v -> P v0 -> a TNull = Some v0 ->
  (forall t, t <> TNull -> opens open t = false -> a t = None) ->
  (forall c', k v (true, c') = (v0, Ok c')) ->
  (src !! d_i c = Some open -> d_depth c < maxDepth -> tracks P a c (k v (false, enter c))) ->
  let begin_ c := if at_byte src (d_i c) open && (d_depth c <? maxDepth) then Ok (enter c) else begin_slow src maxDepth open jsonType typeName c in
  tracks P a c (outcome_bind (v, open_container src maxDepth open begin_ c) k).
Proof using Hsrc.
  clear Hmerge. intros Ho Hc Hv Hv0 Hnull Hother Hk Hbody begin_.
  destruct (open_container_cases src maxDepth Hsrc open jsonType typeName c Ho Hc) as [[E Ev]|[(E & Eb & Hd)|[[e E] Hno]]]; fold begin_ in E; rewrite E; cbn [outcome_bind].
  - rewrite Hk. split; [done|]. rewrite Ev, Hnull. left. split; [done|]. by eexists.
  - by apply Hbody.
  - apply tracks_err; [done..|]. intros j t Et. destruct (Hno j t Et). by apply Hother.
Qed.

Lemma struct_tracks rec n nd v c : p !! n = Some nd -> tn_kind nd = typedStruct -> has_type p n v -> ready c -> parts_track rec (d_i c) ->
  tracks (has_type p n) (fun t => asg t n v) c (decodeCompiledStruct src maxDepth flags Quote rec nd v c).
Proof using All.
  intros Hn Hk Hv Hc Hrec. assert (Hbase : forall t, _) by (intros t; exact (assign_base_eq flags p t n v (base_node _ _ Hn ltac:(congruence)))).
  unfold assign_base in Hbase. rewrite Hn in Hbase. cbn [mbind option_bind] in Hbase. rewrite Hk in Hbase.
  unfold decodeCompiledStruct. eapply (open_tracks "{"%ch "object" (tn_name nd)); [by right|done|done|exact Hv|by rewrite Hbase| |done|].
  - intros t Ht Hf. rewrite Hbase. by destruct t.
  - intros Eb Hd. apply lookup_lt_Some in Eb as Hlt. eapply (object_tracks src maxDepth Hsrc _ (fun ms => assign_members flags nd (named flags p ms) v)); [done..| |].
  + intros raw ms. by rewrite Hbase.
  + apply (members_track rec n nd _ 0 true v (enter c) (d_i c)); cbn [enter d_i d_depth]; (done || lia).
Qed.

Lemma slice_tracks rec n nd v c : p !! n = Some nd -> tn_kind nd = typedSlice -> has_type p n v -> ready c -> parts_track rec (d_i c) ->
  tracks (has_type p n) (fun t => asg t n v) c (decodeCompiledSlice src maxDepth p rec nd v c).
Proof using All.
  intros Hn Hk Hv Hc Hrec. assert (Hbase : forall t, _) by (intros t; exact (assign_base_eq flags p t n v (base_node _ _ Hn ltac:(congruence)))).
  unfold assign_base in Hbase. rewrite Hn in Hbase. cbn [mbind option_bind] in Hbase. rewrite Hk in Hbase.
  destruct (elem_zero n nd Hn ltac:(by left)) as (e & He & _ & _).
  assert (exists h, header_of v = Ok h /\ Forall (has_type p (tn_elem nd)) (default [] h) /\
  forall elems, assign_slice p nd elems v = (xs ← assign_seq (tn_elem nd) (tn_zero e) elems (default [] h); Some (slice_rest (default [] h) 0 xs)))
  as (h & Eh & Hh & Hsl).
  { assert (Hrest : forall old elems, (xs ← assign_seq (tn_elem nd) (tn_zero e) elems old;
    Some (match xs with [] => emptySlice | _ => VSlice (Some (xs, drop (length xs) old)) end)) =
    (xs ← assign_seq (tn_elem nd) (tn_zero e) elems old; Some (slice_rest old 0 xs))).
  { intros old elems. destruct (assign_seq _ _ _ _) as [[|x xs]|]; done. }
  inversion Hv; simplify_eq; try congruence; (eexists; split; [reflexivity|]).
  - split; [constructor|]. intros elems. unfold assign_slice. rewrite He. cbn [mbind option_bind]. apply Hrest.
  - split; [by apply Forall_app|]. intros elems. unfold assign_slice. rewrite He. cbn [mbind option_bind]. apply Hrest. }
  unfold decodeCompiledSlice.
  eapply (open_tracks "["%ch "array" (tn_name nd)); [by left|done|done|by eapply HT_slice_nil|by rewrite Hbase; destruct v| |done|].
  - intros t Ht Hf. rewrite Hbase. by destruct v, t.
  - intros Eb Hd. apply lookup_lt_Some in Eb as Hlt.
  eapply (array_tracks src maxDepth Hsrc _ (slice_assigns nd (tn_zero e) (default [] h) 0)); [done..| |].
  + intros raw items. rewrite Hbase. unfold slice_assigns. rewrite drop_0, <- Hsl. by destruct v.
  + rewrite Eh. cbn [outcome_bind]. destruct (is_int64 p (tn_elem nd)).
    * unfold decode_int_slice.
      set (h' := if (length (default [] h) =? 0)%nat && negb (initialScalarSliceCapacity src (enter c) =? 0)%nat then Some [] else h).
      assert (Eh' : default [] h' = default [] h).
      { subst h'. destruct (Nat.eqb_spec (length (default [] h)) 0) as [E0|]; cbn [andb]; [|done].
        destruct (negb _); [|done]. by apply nil_length_inv in E0 as ->. }
      rewrite <- Eh' in *. apply (elements_track rec _ n nd e _ h' 0 true (enter c) (d_i c)); cbn [enter d_i d_depth]; try (done || lia).
      intros first c0. by apply scalar_next_ref.
    * apply (elements_track rec _ n nd e _ h 0 true (enter c) (d_i c)); cbn [enter d_i d_depth]; try (done || lia).
      intros first c0. by apply NextArrayElement_ref.
Qed.

Lemma fixed_tracks rec n nd v c : p !! n = Some nd -> tn_kind nd = typedArray -> has_type p n v -> ready c -> parts_track rec (d_i c) ->
  tracks (has_type p n) (fun t => asg t n v) c (decodeCompiledArray src maxDepth p rec nd v c).
Proof using All.
  intros Hn Hk Hv Hc Hrec. assert (Hbase : forall t, _) by (intros t; exact (assign_base_eq flags p t n v (base_node _ _ Hn ltac:(congruence)))).
  unfold assign_base in Hbase. rewrite Hn in Hbase. cbn [mbind option_bind] in Hbase. rewrite Hk in Hbase.
  destruct (elem_zero n nd Hn ltac:(auto)) as (e & He & _ & _). inversion Hv as [| | | | | | | |? ? l Hn' _ Hlen Hl| | | |]; simplify_eq; try congruence.
  unfold decodeCompiledArray. eapply (open_tracks "["%ch "array" (tn_name nd)); [by left|done|done|exact Hv|by rewrite Hbase| |done|].
  - intros t Ht Hf. rewrite Hbase. by destruct t.
  - intros Eb Hd. apply lookup_lt_Some in Eb as Hlt. eapply (array_tracks src maxDepth Hsrc _ (array_assigns nd (tn_zero e) l 0)); [done..| |].
  + intros raw items. rewrite Hbase. unfold array_assigns, assign_array. rewrite He, drop_0, Nat.sub_0_r. done.
  + apply (array_track rec n nd e _ l 0 true (enter c) (d_i c)); cbn [enter d_i d_depth]; (done || lia).
Qed.

Lemma map_tracks rec n nd v c : p !! n = Some nd -> tn_kind nd = typedMap -> has_type p n v -> ready c -> parts_track rec (d_i c) ->
  tracks (has_type p n) (fun t => asg t n v) c (decodeCompiledMap src maxDepth p rec nd v c).
Proof using All.
  intros Hn Hk Hv Hc Hrec. assert (Hbase : forall t, _) by (intros t; exact (assign_base_eq flags p t n v (base_node _ _ Hn ltac:(congruence)))).
  unfold assign_base in Hbase. rewrite Hn in Hbase. cbn [mbind option_bind] in Hbase. rewrite Hk in Hbase.
  destruct (elem_zero n nd Hn ltac:(auto)) as (e & He & _ & _).
  assert (exists m, v = VMap m /\ has_type p n (VMap (Some (default ∅ m)))) as (m & -> & Hm).
  { inversion Hv; simplify_eq; try congruence; (eexists; split; [reflexivity|]); [|done]. eapply HT_map; [done..|]. intros k x Hx.
    change ((∅ : gmap map_key gval) !! k = Some x) in Hx. by rewrite lookup_empty in Hx. }
  unfold decodeCompiledMap. destruct (read_null_cases src maxDepth Hsrc c Hc) as [[-> Ev]|[[-> Hnn]|[[err ->] [e' Ev]]]]; cbn [outcome_bind].
  - split; [by eapply HT_map_nil|]. rewrite Ev, Hbase. left. split; [done|]. by eexists.
  - assert (Hbeg := begin_cases src maxDepth Hsrc "{"%ch "object" (tn_name nd) c ltac:(by right) Hc). cbv zeta in Hbeg. fold (d_BeginObject src maxDepth (tn_name nd) c) in Hbeg.
  destruct Hbeg as [(-> & Eb & Hd)|[[err ->] Hno]]; cbn [outcome_bind].
  + apply lookup_lt_Some in Eb as Hlt. eapply (object_tracks src maxDepth Hsrc _ (fun ms => assign_entries nd (tn_zero e) (named flags p ms) (default ∅ m))); [done..| |].
    * intros raw ms. rewrite Hbase, He. done.
    * apply (entries_track rec n nd e _ (default ∅ m) true (enter c) (d_i c)); cbn [enter d_i d_depth]; (done || lia).
  + apply tracks_err; [done..|]. intros j t Et. rewrite Hbase. specialize (Hno j t Et). pose proof (not_null_tree src maxDepth Hsrc c j t Hc Hnn Et). by destruct t.
  - apply tracks_err; [done..|]. intros j t Et. congruence.
Qed.
(** ** Pointers *)

(** A cursor whose value is not null decodes through every pointer of a chain. *)
Lemma chain_tracks rec fuel n v c : ready c -> has_type p n v -> (0 < fuel)%nat -> (forall e, pointer_elem p n = Some e -> (rank n + 2 <= fuel)%nat) ->
  (forall n v, pointer_elem p n = None -> has_type p n v -> part_tracks rec n v c) ->
  tracks (has_type p n) (fun t => through p fuel n v (fun n v => asg t n v)) c (pointer_chain p rec fuel n v c).
Proof using All.
  intros Hc. revert n v. induction fuel as [|fuel IH]; intros n v Hv H1 Hf Hrec; [lia|]. cbn [pointer_chain through].
  destruct (pointer_elem p n) as [e|] eqn:En; [|by apply Hrec]. pose proof (Hf e eq_refl) as Hfe.
  destruct (edge_node p n e En) as (nd & Hn & Hk & <-). destruct (elem_zero n nd Hn ltac:(auto)) as (ed & He & Hz & Hzt). rewrite Hz, He.
  assert (exists q, v = VPointer q /\ has_type p (tn_elem nd) (default (tn_zero ed) q)) as (q & -> & Hq).
  { inversion Hv; simplify_eq; try congruence; by eexists. }
  cbn [outcome_bind mbind option_bind]. eapply tracks_ext; [|eapply tracks_within; [apply (IH (tn_elem nd) (default (tn_zero ed) q)); [done|lia| |done]|]].
  - intros j t _. cbn [mbind option_bind]. by destruct (through _ _ _ _ _).
  - intros e' He'. pose proof (edge_rank p rank Hp n (tn_elem nd) e' En He'). lia.
  - intros x Hx. by eapply HT_pointer.
Qed.

Lemma pointer_tracks rec n nd v c : p !! n = Some nd -> tn_kind nd = typedPointer -> has_type p n v -> ready c ->
  (forall n v, pointer_elem p n = None -> has_type p n v -> part_tracks rec n v c) ->
  tracks (has_type p n) (fun t => asg t n v) c (decodeCompiledPointer src p rec nd v c).
Proof using All.
  intros Hn Hk Hv Hc Hrec. assert (En : pointer_elem p n = Some (tn_elem nd)) by (unfold pointer_elem; rewrite Hn; by rewrite bool_decide_eq_true_2).
  destruct (elem_zero n nd Hn ltac:(auto)) as (e & He & Hz & Hzt).
  assert (exists q, v = VPointer q /\ has_type p (tn_elem nd) (default (tn_zero e) q)) as (q & -> & Hq).
  { inversion Hv; simplify_eq; try congruence; by eexists. }
  unfold decodeCompiledPointer. destruct (read_null_cases src maxDepth Hsrc c Hc) as [[-> Ev]|[[-> Hnn]|[[err ->] [e' Ev]]]]; cbn [outcome_bind].
  - split; [by eapply HT_pointer_nil|]. rewrite Ev. cbn [assign]. unfold assign_body. rewrite En. left. split; [done|]. by eexists.
  - rewrite Hz. cbn [outcome_bind]. set (x := default (tn_zero e) q) in *.
  assert (Hthrough : tracks (has_type p (tn_elem nd)) (fun t => through p (S (length p)) (tn_elem nd) x (fun n v => asg t n v)) c
    (match pointer_elem p (tn_elem nd) with Some _ => decodePointerChain p rec (tn_elem nd) x c | None => rec (tn_elem nd) x c end)).
  { assert (Hch : tracks (has_type p (tn_elem nd)) (fun t => through p (S (length p)) (tn_elem nd) x (fun n v => asg t n v)) c
      (pointer_chain p rec (S (length p)) (tn_elem nd) x c)).
    { apply chain_tracks; [done..|lia| |done]. intros e' Ee. pose proof (edge_lt p rank Hp _ _ Ee). lia. }
    destruct (pointer_elem p (tn_elem nd)) as [e'|] eqn:Ee; [|by cbn [pointer_chain] in Hch; rewrite Ee in Hch].
    unfold decodePointerChain. rewrite (chain_acyclic p rank Hp). exact Hch. }
  eapply tracks_ext; [|eapply tracks_within; [exact Hthrough|]].
  + intros j t Et. rewrite (assign_pointer_eq flags p t n _ _ En (not_null_tree src maxDepth Hsrc c j t Hc Hnn Et)).
    set (fuel := S (length p)). cbn [through]. rewrite En, He. cbn [mbind option_bind]. fold x. by destruct (through p fuel _ _ _).
  + intros y Hy. by eapply HT_pointer.
  - apply tracks_err; [done..|]. intros j t Et. congruence.
Qed.

(** ** Values *)

Definition cost (n : nat) : nat := match pointer_elem p n with Some _ => 1 | None => 0 end.

(** Two turns for each byte that is left: a value takes at least one byte, and the
    pointers around it one turn more. *)
Lemma decode_tracks fuel n v c : has_type p n v -> ready c -> (2 * (length src - d_i c) + cost n < fuel)%nat ->
  part_tracks (decodeCompiled src maxDepth flags Quote aliases p fuel) n v c.
Proof using All.
  revert n v c. induction fuel as [|fuel IH]; intros n v c Hv Hc Hf; [lia|]. unfold part_tracks. cbn [decodeCompiled]. unfold decode_body.
  destruct (has_type_node p n v Hv) as [nd Hn]. rewrite Hn. pose proof (rd_le _ _ _ Hc) as Hi.
  assert (Hparts : parts_track (decodeCompiled src maxDepth flags Quote aliases p fuel) (d_i c)).
  { intros n' v' c' Hv' Hc' Hlt. apply IH; [done..|]. pose proof (rd_le _ _ _ Hc'). unfold cost. destruct (pointer_elem p n'); lia. }
  destruct (tn_kind nd) eqn:Hk.
  1-5: by apply (scalar_tracks n nd); auto 7.
  - by apply struct_tracks.
  - by apply slice_tracks.
  - by apply fixed_tracks.
  - apply pointer_tracks; [done..|]. intros n' v' En' Hv'. apply IH; [done..|]. unfold cost in *. rewrite En'.
  unfold pointer_elem in Hf. rewrite Hn, bool_decide_eq_true_2 in Hf by done. lia.
  - by apply map_tracks.
Qed.

(** ** Documents *)

(** The whole document, as the reference reads it. *)
Lemma document_ref root v : has_type p root v -> 0 <= maxDepth ->
  let out := decodeCompiled src maxDepth flags Quote aliases p (S (S (2 * length src))) root v (d_skipSpace src newDecoderCursor) in
  has_type p root out.1 /\
  match ref_doc src maxDepth unexpected_byte with
  | Ok t =>
    match asg t root v with
    | Some w => out.1 = w /\ exists c, out.2 = Ok c /\ d_Finish src c = Ok tt
    | None => fails out
    end
  | Err _ => fails out \/ exists c e, out.2 = Ok c /\ d_Finish src c = Err e
  | _ => False
  end.
Proof using All.
  intros Hv Hmax. rewrite d_skipSpace_ref by (done || (cbn; lia)). cbn [newDecoderCursor d_i set_i].
  set (c := set_i newDecoderCursor (ref_ws src 0)). pose proof (ref_ws_le src 0 ltac:(lia)) as Hw.
  assert (Hc : ready c) by (split; [by cbn; lia|by apply ref_ws_idem; lia|done]).
  assert (Ht := decode_tracks (S (S (2 * length src))) root v c Hv Hc ltac:(unfold cost; destruct (pointer_elem p root); cbn; lia)).
  cbv zeta. set (out := decodeCompiled _ _ _ _ _ _ _ _ _ _) in *. unfold part_tracks in Ht. fold out in Ht. destruct Ht as [Htype Ht]. split; [done|].
  unfold ref_doc. cbn [c set_i d_i d_depth newDecoderCursor] in Ht. fold (value_at src maxDepth 0 (ref_ws src 0)).
  destruct (value_at src maxDepth 0 (ref_ws src 0)) as [[j t]|[o m]| |] eqn:Ev; cbn [res_bind]; [|by left|done..].
  pose proof (value_bound src maxDepth Hsrc _ _ _ _ (proj2 Hw) Ev) as Hj.
  assert (Hfin : forall c', d_i c' = j -> d_Finish src c' = if (ref_ws src j =? length src)%nat then Ok tt
  else Err (DSyntax (syntax_at src (ref_ws src j) "unexpected data after top-level value"))).
  { intros c' <-. unfold d_Finish. pose proof (ref_ws_le src (d_i c') (proj2 Hj)) as Hwj. destruct (Nat.eqb_spec (d_i c') (length src)) as [E|E].
  - by rewrite (proj2 (Nat.eqb_eq _ _)) by lia.
  - unfold finishSlow. rewrite d_skipSpace_ref by (done || lia). cbn [set_i d_i]. by destruct (_ =? _)%nat. }
  destruct (Nat.eqb_spec (ref_ws src j) (length src)) as [E|E]; cbn [negb].
  - destruct (asg t root v) as [w|]; [|done]. destruct Ht as [(Hout & c' & Ec & Hj' & _)|[Hdig _]].
  + split; [done|]. exists c'. split; [done|]. by rewrite Hfin.
  + exfalso. destruct (digit_at src Hsrc j Hdig) as (b & Eb & _ & Hwj). apply lookup_lt_Some in Eb. lia.
  - destruct (asg t root v) as [w|]; [|by left]. destruct Ht as [(Hout & c' & Ec & Hj' & _)|[_ Hf]]; [right|by left].
  exists c'. eexists. split; [done|]. by rewrite Hfin.
Qed.
End Run.

(** ** A plan *)

(** [type T struct { *Inner; Name string; List [2]int8; Next *T; Tags map[int8][]string }]
    with [type Inner struct { ID int8 }]: a promoted field, a recursive type, an
    array and a map. *)
Module Sample.
#[local] Existing Instance ascii_folding.

Definition node (kind : typedKind) (bits : Z) (elem len : nat) (name : string) (zero : gval) : typedNode :=
  mkTyped kind bits elem len name zero mapKeyInt 8 "int8" [] [] None 0 [].
Definition record_node (name : string) (zero : gval) (slots : list (option nat)) (rs : list resolvedField) (hops : list (list typedFieldHop)) : typedNode :=
  mkTyped typedStruct 0 0 0 name zero mapKeyString 0 "" slots (compile_fields rs) None 0 hops.

Definition inner_zero : gval := VStruct [VInt 0].
Definition zero : gval := VStruct [VPointer None; VString []; VArray [VInt 0; VInt 0]; VPointer None; VMap None].

Definition inner_fields : list resolvedField := [mkResolved (bs "id") 0 3 None].
Definition fields : list resolvedField :=
  [mkResolved (bs "id") 0 3 (Some 0%nat); mkResolved (bs "name") 1 4 None; mkResolved (bs "list") 2 5 None; mkResolved (bs "next") 3 6 None;
 mkResolved (bs "tags") 4 7 None].

Definition sample : plan := [
  record_node "T" zero [Some 1%nat; Some 4%nat; Some 5%nat; Some 6%nat; Some 7%nat] fields [[mkHop 0 inner_zero "Inner" false]];
  node typedPointer 0 2 0 "*Inner" (VPointer None);
  record_node "Inner" inner_zero [Some 3%nat] inner_fields [];
  node typedInt 8 0 0 "int8" (VInt 0);
  node typedString 0 0 0 "string" (VString []);
  node typedArray 0 3 2 "[2]int8" (VArray [VInt 0; VInt 0]);
  node typedPointer 0 0 0 "*T" (VPointer None);
  node typedMap 0 8 0 "map[int8][]string" (VMap None);
  node typedSlice 0 4 0 "[]string" (VSlice None)].

Definition doc : bytes := js "{'NEXT':{'id':5,'list':[1,2,3],'extra':[]},'ID':-7,'name':'x','tags':{'1':['a'],'-2':[],'1':['b','c']},'list':[9]}".
Definition options : DecoderOptions := mkDecoderOptions 10 false false false false false false.

(** What the document leaves in a zero destination. *)
Definition decoded : gval :=
  VStruct [VPointer (Some (VStruct [VInt (-7)])); VString (bs "x"); VArray [VInt 9; VInt 0];
  VPointer (Some (VStruct [VPointer (Some (VStruct [VInt 5])); VString []; VArray [VInt 1; VInt 2]; VPointer None; VMap None]));
  VMap (Some (<[inr 1 := VSlice (Some ([VString (bs "b"); VString (bs "c")], []))]> (<[inr (-2) := emptySlice]> ∅)))].

Definition rank (n : nat) : nat := nth n [2; 0; 1; 0; 0; 1; 0; 0; 0]%nat 0%nat.

Ltac typed := repeat (first
  [ eapply HT_struct; [reflexivity|reflexivity|cbn [tn_slots record_node]]
  | eapply HT_pointer_nil; [reflexivity|reflexivity] | eapply HT_map_nil; [reflexivity|reflexivity] | eapply HT_slice_nil; [reflexivity|reflexivity]
  | eapply HT_string; [reflexivity|reflexivity] | eapply HT_int; [reflexivity|reflexivity|cbn; lia]
  | eapply HT_array; [reflexivity|reflexivity|reflexivity|] | constructor ]).

Lemma names_ok rs : forallb (fun r => bool_decide (bytes_ok (rf_name r)) && forallb (fun r => negb (r =? RuneError) && negb (is_string_syntax r)) (runes (rf_name r))) rs = true ->
  Forall (fun r => bytes_ok (rf_name r) /\ plain_name (rf_name r)) rs.
Proof.
  rewrite forallb_forall, List.Forall_forall. intros Hr r Hin. specialize (Hr r Hin). apply andb_true_iff in Hr as [Hb Hg].
  split; [by apply bool_decide_eq_true_1 in Hb|]. rewrite forallb_forall in Hg. apply List.Forall_forall. intros x Hx. specialize (Hg x Hx).
  unfold good_rune. destruct (Z.eqb_spec x RuneError), (is_string_syntax x); done.
Qed.

Lemma record_fields_ok rs : forallb (fun r => bool_decide (bytes_ok (rf_name r)) && forallb (fun r => negb (r =? RuneError) && negb (is_string_syntax r)) (runes (rf_name r))) rs = true ->
  bool_decide (NoDup (map rf_name rs)) = true -> record_ok (compile_fields rs).
Proof.
  intros Hn Hd. pose proof ascii_folding_laws. apply compile_fields_ok; [by apply names_ok|by apply bool_decide_eq_true_1 in Hd].
Qed.

Lemma record_node_ok (q : plan) (rk : nat -> nat) n name zero slots rs hops :
  (rk n < length q)%nat -> has_type q n zero -> q !! n = Some (record_node name zero slots rs hops) ->
  record_ok (compile_fields rs) -> Z.of_nat (length rs) < 8 -> length (compile_fields rs) = length rs ->
  (forall i f, compile_fields rs !! i = Some f -> exists h, field_hops (record_node name zero slots rs hops) f = Some h /\
  path_type q slots h (tf_slot f) (tf_node f) /\ (h = [] -> (rk (tf_node f) < rk n)%nat)) ->
  node_ok q rk n (record_node name zero slots rs hops).
Proof.
  intros Hr Hz Hn Hok Hlen Hl Hf. split; cbn [tn_kind record_node tn_fields tn_fieldTable tn_fieldTableMask tn_zero tn_slots] in *; try done.
  - by intros [].
  - by intros [|[|[]]].
  - intros _. lia.
  - intros _. unfold build_table. by rewrite (proj2 (Z.ltb_lt _ _)) by lia.
  - intros i f _ Hi. exact (Hf i f Hi).
Qed.

Lemma zero_type : has_type sample 0 zero.
Proof. unfold zero. typed. Qed.

Lemma sample_ok : plan_ok sample.
Proof.
  exists rank. intros n nd Hn. destruct n as [|[|[|[|[|[|[|[|[|n]]]]]]]]]; [injection Hn as <-..|done].
  1: { apply record_node_ok; [cbn; lia|exact zero_type|reflexivity|apply record_fields_ok; vm_compute; reflexivity|reflexivity|vm_compute; reflexivity|].
  intros i f Hi. destruct i as [|[|[|[|[|i]]]]]; [vm_compute in Hi; injection Hi as <-; eexists; (split; [reflexivity|])..|vm_compute in Hi; discriminate].
  1: { split; [|done]. eapply PT_hop; [reflexivity..|unfold inner_zero; typed|]. by apply PT_slot. }
  all: (split; [by apply PT_slot|intros _; vm_compute; lia]). }
  2: { apply record_node_ok; [cbn; lia|unfold inner_zero; typed|reflexivity|apply record_fields_ok; vm_compute; reflexivity|reflexivity|vm_compute; reflexivity|].
  intros i f Hi. destruct i as [|i]; [vm_compute in Hi; injection Hi as <-; eexists; (split; [reflexivity|])|vm_compute in Hi; discriminate].
  split; [by apply PT_slot|intros _; vm_compute; lia]. }
  all: split; cbn [tn_kind node tn_bits tn_elem tn_zero]; try done; try (by typed); try (intros _; vm_compute; lia); try (vm_compute; lia).
  all: first [by intros [E|E]; discriminate E|intros e _ He; injection He as <-; discriminate].
Qed.
End Sample.

(** ** What decoding does *)

Lemma decode_document `{FoldingLaws} (Quote : bytes -> string) (aliases : bytes -> bool) (src : bytes) (options : DecoderOptions)
  (p : plan) (root : nat) (dst : gval) :
  bytes_ok src -> plan_ok p -> has_type p root dst -> 0 <= do_MaxDepth options -> do_Replace options = false ->
  let out := decodeTypedDocument Quote aliases src options p root dst in
  returns out.2 /\
  forall w, out = (w, Ok tt) <-> exists t, jdoc (do_MaxDepth options) src t /\ assign (flags_of options) p t root dst = Some w.
Proof.
  intros Hsrc [rank Hp] Hdst Hmax Hmerge. unfold decodeTypedDocument.
  destruct (document_ref src (do_MaxDepth options) (flags_of options) Quote aliases p rank Hsrc Hp Hmerge root dst Hdst Hmax) as [_ Hdoc].
  set (out := decodeCompiled _ _ _ _ _ _ _ _ _ _) in *. setoid_rewrite <- (ref_doc_jdoc src _ unexpected_byte _ Hsrc).
  destruct (ref_doc _ _ _) as [t|e| |]; [| |done..].
  - destruct (assign _ _ t root dst) as [w|] eqn:Ea.
  + destruct Hdoc as (Hw & c & Ec & Hf). destruct out as [v r]. cbn [fst snd] in *. subst. cbn [wrap_error outcome_bind]. rewrite Hf.
    split; [apply returns_ok|]. intros w'. split; [intros [= <-]; by exists t|]. intros (t' & [= <-] & Ea'). congruence.
  + destruct Hdoc as [e Ee]. destruct out as [v r]. cbn [fst snd] in *. subst. cbn [wrap_error outcome_bind].
    split; [by right; eexists|]. intros w'. split; [done|]. intros (t' & [= <-] & Ea'). congruence.
  - assert (Hfail : exists v err, (let@ v; c := wrap_error finishDecodeError out in (v, d_Finish src c)) = (v, Err err)).
  { destruct Hdoc as [[e' Ee]|(c & e' & Ec & Hf)]; destruct out as [v r]; cbn [fst snd] in *; subst; cbn [wrap_error outcome_bind]; rewrite ?Hf; by eexists _, _. }
  destruct Hfail as (v & err & ->). cbn [snd]. split; [by right; eexists|]. intros w. split; [done|]. by intros (t & ? & _).
Qed.

(** C7: Decoding a document into a destination of a compiled type, in merge mode, succeeds with a value exactly when the document is a JSON text within the depth limit and its tree assigns that value to the destination, and it fails with an error otherwise: it never panics, never reads outside the source and always returns. The assignment is defined by recursion on the tree: members go to the fields their whole names select, through embedded pointers, in document order; elements go onto those the backing array holds; arrays drop what is too long and reset what is missing; pointers are allocated where nil; null leaves scalars, structs and arrays, and clears pointers, slices and maps; integers are in the range of their width. *)
Theorem decode_assigns `{FoldingLaws} (Quote : bytes -> string) (aliases : bytes -> bool) (src : bytes) (options : DecoderOptions)
  (p : plan) (root : nat) (dst : gval) :
  bytes_ok src -> plan_ok p -> has_type p root dst -> 0 <= do_MaxDepth options -> do_Replace options = false ->
  let out := decodeTypedDocument Quote aliases src options p root dst in
  returns out.2 /\
  forall w, out = (w, Ok tt) <-> exists t, jdoc (do_MaxDepth options) src t /\ assign (flags_of options) p t root dst = Some w.
Proof. apply decode_document. Qed.

Lemma decode_assigns_witness :
  @decodeTypedDocument ascii_folding (fun _ => EmptyString) (fun _ => false) Sample.doc Sample.options Sample.sample 0 Sample.zero = (Sample.decoded, Ok tt).
Proof.
  apply (@decode_assigns ascii_folding ascii_folding_laws (fun _ => EmptyString) (fun _ => false) Sample.doc Sample.options Sample.sample 0 Sample.zero);
    [concrete_bytes|exact Sample.sample_ok|exact Sample.zero_type|vm_compute; congruence|reflexivity|].
  destruct (ref_doc Sample.doc 10 unexpected_byte) as [t|e| |] eqn:E; [|vm_compute in E; discriminate..].
  exists t. split; [apply (ref_doc_jdoc Sample.doc 10 unexpected_byte t); [concrete_bytes|exact E]|].
  vm_compute in E. injection E as <-. vm_compute. reflexivity.
Defined.

(** C8: Whatever the document, and on every error path, decoding leaves the destination a value of its type: integers in the range of their width, arrays of their length, records with the fields of the plan, maps with keys of the key type. *)
Theorem decode_keeps_type `{FoldingLaws} (Quote : bytes -> string) (aliases : bytes -> bool) (src : bytes) (options : DecoderOptions)
  (p : plan) (root : nat) (dst : gval) :
  bytes_ok src -> plan_ok p -> has_type p root dst -> 0 <= do_MaxDepth options -> do_Replace options = false ->
  has_type p root (decodeTypedDocument Quote aliases src options p root dst).1.
Proof.
  intros Hsrc [rank Hp] Hdst Hmax Hmerge. unfold decodeTypedDocument.
  destruct (document_ref src (do_MaxDepth options) (flags_of options) Quote aliases p rank Hsrc Hp Hmerge root dst Hdst Hmax) as [Ht _].
  set (out := decodeCompiled _ _ _ _ _ _ _ _ _ _) in *. by destruct out as [v [c|e| |]].
Qed.

(** An integer out of range, after a field that was stored. *)
Lemma decode_keeps_type_witness :
  let out := @decodeTypedDocument ascii_folding (fun _ => EmptyString) (fun _ => false) (js "{'name':'x','id':300}") Sample.options Sample.sample 0 Sample.zero in
  (exists e, out.2 = Err e) /\ has_type Sample.sample 0 out.1.
Proof.
  split; [eexists; vm_compute; reflexivity|].
  apply (@decode_keeps_type ascii_folding ascii_folding_laws (fun _ => EmptyString) (fun _ => false) (js "{'name':'x','id':300}") Sample.options Sample.sample 0 Sample.zero);
    [concrete_bytes|exact Sample.sample_ok|exact Sample.zero_type|vm_compute; congruence|reflexivity].
Defined.
