(* ===== verification/EncodeString.v ===== *)
(** [encoder_string.go] and the routines of [x/scanner] it adds to the scanners:
    the JSON spelling of a string.

    A destination slice is its bytes and the bytes of its spare capacity.  The
    short path writes whole words into the spare capacity: a store that leaves
    the result is a panic of the model. *)

From S2P Require Import Prelude Words Utf8 Scanner Lex Grammar StringRef Layout Decode.

(** ** The line separator scan (x/scanner/scan_generic.go) *)

(** [window[k+1] == 0x80 && (window[k+2] == 0xa8 || window[k+2] == 0xa9)] *)
Definition separator_tail (src : bytes) (k : nat) : res unit bool :=
  let* a := idx src (k + 1) in
  if a =? 0x80 then let* b := idx src (k + 2) in Ok ((b =? 0xa8) || (b =? 0xa9)) else Ok false.

(** [for candidates != 0 { ...; candidates &= candidates - 1 }] *)
Fixpoint candidate_loop (fuel : nat) (window : bytes) (candidates : Z) : res unit bool :=
  match fuel with
  | O => NoFuel
  | S fuel =>
      if candidates =? 0 then Ok false
      else
        let offset := Z.to_nat (TrailingZeros64 candidates / 8) in
        if (8 <=? offset)%nat then Ok false
        else
          let* hit := separator_tail window offset in
          if hit then Ok true else candidate_loop fuel window (Z.land candidates (candidates - 1))
  end.

(** [for i+10 <= len(src) { ... }]: a hit, or the position reached. *)
Fixpoint window_loop (fuel : nat) (src : bytes) (i : nat) : res unit (option nat) :=
  match fuel with
  | O => NoFuel
  | S fuel =>
      if (i + 10 <=? length src)%nat then
        let window := slice src i (i + 10) in
        let* hit := candidate_loop 65 window (byteEqMask (load64 window 0) 0xe2) in
        if hit then Ok None else window_loop fuel src (i + 8)
      else Ok (Some i)
  end.

(** [for i+2 < len(src) { ...; i++ }] *)
Fixpoint separator_loop (fuel : nat) (src : bytes) (i : nat) : res unit bool :=
  match fuel with
  | O => NoFuel
  | S fuel =>
      if (i + 2 <? length src)%nat then
        let* c := idx src i in
        let* hit := if c =? 0xe2 then separator_tail src i else Ok false in
        if hit then Ok true else separator_loop fuel src (S i)
      else Ok false
  end.

(** [bytes.IndexByte(src, 0xe2)] is the end of the run of other bytes. *)
Definition hasJSONLineSeparatorScalar (src : bytes) (start : nat) : res unit bool :=
  let src := drop start src in
  let i := advance (fun c => negb (c =? 0xe2)) src 0 in
  if (length src <=? i)%nat then Ok false
  else
    let* hit := if (i + 2 <? length src)%nat then separator_tail src i else Ok false in
    if hit then Ok true
    else
      let* r := window_loop (S (length src)) src (S i) in
      match r with
      | None => Ok true
      | Some i => separator_loop (S (length src)) src i
      end.

Definition validUTF8NoLineSeparatorFast (src : bytes) : res unit bool :=
  if Valid src then let* h := hasJSONLineSeparatorScalar src 0 in Ok (negb h) else Ok false.

(** ** Fused prefix copies (x/scanner/api.go, scan_default.go) *)

(** The position of the first byte to escape, and the destination after the
    copy; [None] is -1.  [overlap] says whether the two slices share storage. *)
Definition copy_prefix (scan : bytes -> nat -> nat) (overlap : bool) (dst src : bytes) : option (nat * bytes) :=
  if (length dst <? length src)%nat then None
  else if overlap then None
  else let stop := scan src 0%nat in Some (stop, take stop src ++ drop stop dst).

Definition CopyStringPrefix : bool -> bytes -> bytes -> option (nat * bytes) := copy_prefix scanStringSpecialScalar.
Definition CopyHTMLStringPrefix : bool -> bytes -> bytes -> option (nat * bytes) := copy_prefix scanEncodedHTMLSpecialScalar.

(** ** Short clean strings *)

(** Little-endian stores at an offset of a buffer. *)
Definition le_bytes (n : nat) (w : Z) : bytes := map (fun k => w / 2 ^ (8 * Z.of_nat k) mod 256) (seq 0 n).
Definition store (n : nat) (buf : bytes) (off : nat) (w : Z) : res unit bytes :=
  if (off + n <=? length buf)%nat then Ok (take off buf ++ le_bytes n w ++ drop (off + n) buf) else Panic.

(** Unsafe little-endian loads from a string. *)
Definition load (n : nat) (s : bytes) (off : nat) : res unit Z :=
  if (off + n <=? length s)%nat then Ok (le_word (slice s off (off + n))) else Panic.

(** The zero-padded word image of a string of at most seven bytes. *)
Definition short_word (s : bytes) : res unit Z :=
  let n := length s in
  if (4 <=? n)%nat then
    let* a := load 4 s 0 in
    let* b := load 4 s (n - 4) in
    Ok (Z.lor a (w64 (Z.shiftl b (Z.of_nat (n - 4) * 8))))
  else if (2 <=? n)%nat then
    let* a := load 2 s 0 in
    let* b := load 2 s (n - 2) in
    Ok (Z.lor a (w64 (Z.shiftl b (Z.of_nat (n - 2) * 8))))
  else load 1 s 0.

Definition special_mask (escapeHTML : bool) (w : Z) : Z :=
  if escapeHTML then htmlStringSpecialMask w else stringSpecialMask w.

(** The quoted string, in [n + 2] bytes of the spare capacity; [None] defers to
    the general path. *)
Definition appendShortCleanJSONString (spare s : bytes) (escapeHTML : bool) : res unit (option bytes) :=
  let n := length s in
  if (length spare <? n + 2)%nat then Ok None
  else
    let region := take (n + 2) spare in
    if (8 <=? n)%nat then
      let* w0 := load 8 s 0 in
      let* w1 := load 8 s (n - 8) in
      if negb (Z.lor (special_mask escapeHTML w0) (special_mask escapeHTML w1) =? 0) then Ok None
      else
        let region := <[0%nat := DQUOTE]> region in
        let* region := store 8 region 1 w0 in
        let* region := store 8 region (1 + n - 8) w1 in
        Ok (Some (<[(1 + n)%nat := DQUOTE]> region))
    else
      let* w := short_word s in
      if negb (Z.land (special_mask escapeHTML w) (w64 (Z.shiftl 1 (8 * Z.of_nat n)) - 1) =? 0) then Ok None
      else
        let w := Z.lor (w64 (Z.shiftl w 8)) DQUOTE in
        let* region :=
          if (6 <=? n)%nat then store 8 region 0 w
          else if (2 <=? n)%nat then
            let* region := store 4 region 0 (w mod 2 ^ 32) in
            store 4 region (n - 2) (Z.shiftr w (Z.of_nat (n - 2) * 8) mod 2 ^ 32)
          else store 2 region 0 (w mod 2 ^ 16) in
        Ok (Some (<[(1 + n)%nat := DQUOTE]> region)).

(** ** The encoder *)

Definition encodeHexDigits : bytes := Eval cbv in bs "0123456789abcdef".
Definition hex_digit (n : Z) : Z := default 0 (encodeHexDigits !! Z.to_nat n).

(** The [switch] on an ASCII byte to escape. *)
Definition escape_ascii (c : Z) : bytes :=
  if c =? DQUOTE then [BSLASH; DQUOTE]
  else if c =? BSLASH then [BSLASH; BSLASH]
  else if c =? 8 then [BSLASH; "b"%ch]
  else if c =? 12 then [BSLASH; "f"%ch]
  else if c =? 10 then [BSLASH; "n"%ch]
  else if c =? 13 then [BSLASH; "r"%ch]
  else if c =? 9 then [BSLASH; "t"%ch]
  else [BSLASH; "u"%ch; "0"%ch; "0"%ch; hex_digit (Z.shiftr c 4); hex_digit (Z.land c 0xF)].

Definition escape_separator (r : Z) : bytes :=
  [BSLASH; "u"%ch; "2"%ch; "0"%ch; "2"%ch; hex_digit (Z.land r 0xF)].

Definition is_separator (r : Z) : bool := (r =? 0x2028) || (r =? 0x2029).

Definition next_stop (unicodeClean escapeHTML : bool) (s : bytes) (i : nat) : nat :=
  if unicodeClean && escapeHTML then scanEncodedHTMLSyntaxScalar s i
  else if unicodeClean then scanStringSyntax s i
  else if escapeHTML then scanEncodedHTMLSpecialScalar s i
  else scanStringSpecial s i.

Fixpoint encode_loop (fuel : nat) (unicodeClean escapeHTML : bool) (s : bytes) (i start : nat) (dst : bytes) : res unit bytes :=
  match fuel with
  | O => NoFuel
  | S fuel =>
      let finish := Ok (dst ++ drop start s ++ [DQUOTE]) in
      if (length s <=? i)%nat then finish
      else
        let i := next_stop unicodeClean escapeHTML s i in
        if (length s <=? i)%nat then finish
        else
          let* c := idx s i in
          if c <? 0x80 then
            encode_loop fuel unicodeClean escapeHTML s (S i) (S i) (dst ++ slice s start i ++ escape_ascii c)
          else
            let (r, size) := DecodeRune (drop i s) in
            if (r =? RuneError) && (size =? 1)%nat then
              encode_loop fuel unicodeClean escapeHTML s (S i) (S i) (AppendRune (dst ++ slice s start i) RuneError)
            else if is_separator r then
              encode_loop fuel unicodeClean escapeHTML s (i + size) (i + size) (dst ++ slice s start i ++ escape_separator r)
            else encode_loop fuel unicodeClean escapeHTML s (i + size) start dst
  end.

(** The general path after the prefix: [start] is where the bytes not yet
    copied begin. *)
Definition encode_rest (escapeHTML : bool) (s : bytes) (first start : nat) (dst : bytes) : res unit bytes :=
  let* c := idx s first in
  let* unicodeClean := if 0x80 <=? c then validUTF8NoLineSeparatorFast (drop first s) else Ok false in
  encode_loop (S (length s)) unicodeClean escapeHTML s first start dst.

(** [slices.Grow]: the spare capacity after room for [n] bytes is made. *)
Definition grow (spare : bytes) (n : nat) : bytes :=
  if (n <=? length spare)%nat then spare else spare ++ replicate (n - length spare) 0.

Definition fusedCopyMinBytes : nat := 16.

Definition appendEncodedJSONString (dst spare : bytes) (overlap : bool) (s : bytes) (escapeHTML : bool) : res unit bytes :=
  let fused := (fusedCopyMinBytes <=? length s)%nat in
  if (length s =? 0)%nat then Ok (dst ++ [DQUOTE; DQUOTE])
  else
    let* short := if negb fused then appendShortCleanJSONString spare s escapeHTML else Ok None in
    match short with
    | Some out => Ok (dst ++ out)
    | None =>
        let spare := if fused then grow spare (length s + 2) else spare in
        let dst := dst ++ [DQUOTE] in
        let region := take (length s) (drop 1 spare) in
        match (if fused then (if escapeHTML then CopyHTMLStringPrefix else CopyStringPrefix) overlap region s else None) with
        | Some (first, region) =>
            if (first =? length s)%nat then Ok (dst ++ region ++ [DQUOTE])
            else encode_rest escapeHTML s first first (dst ++ take first region)
        | None =>
            let first := if escapeHTML then scanEncodedHTMLSpecialScalar s 0 else scanStringSpecial s 0 in
            if (first =? length s)%nat then Ok (dst ++ s ++ [DQUOTE])
            else encode_rest escapeHTML s first 0 dst
        end
    end.

(** ** The reference: one character at a time *)

Definition needs_escape (escapeHTML : bool) (c : Z) : bool :=
  if escapeHTML then is_html_syntax c else is_string_syntax c.

(** The first character of [p]: its spelling, its decoded content and its width. *)
Definition encode_char (escapeHTML : bool) (p : bytes) : bytes * bytes * nat :=
  match p with
  | [] => ([], [], 0%nat)
  | c :: _ =>
      if c <? 0x80 then (if needs_escape escapeHTML c then escape_ascii c else [c], [c], 1%nat)
      else
        let (r, size) := DecodeRune p in
        if decode_bad (r, size) then (encode_rune RuneError, encode_rune RuneError, 1%nat)
        else if is_separator r then (escape_separator r, encode_rune r, size)
        else (take size p, take size p, size)
  end.

Fixpoint encode_ref (fuel : nat) (escapeHTML : bool) (p : bytes) : bytes * bytes :=
  match fuel, p with
  | S fuel, _ :: _ =>
      let '(out, dec, size) := encode_char escapeHTML p in
      let rest := encode_ref fuel escapeHTML (drop size p) in
      (out ++ rest.1, dec ++ rest.2)
  | _, _ => ([], [])
  end.

(** The spelling between the quotes, and the content it stands for: [s] with
    each invalid byte replaced by U+FFFD. *)
Definition encoded (escapeHTML : bool) (s : bytes) : bytes := (encode_ref (length s) escapeHTML s).1.
Definition sanitized (s : bytes) : bytes := (encode_ref (length s) false s).2.

(** ** The separator scan misses nothing *)

(** A lane that borrows is flagged whatever the lanes below it borrow. *)
Lemma borrow_testbit w k c :
  Forall (fun v => -1 <= v < 255) w -> w !! k = Some (-1) -> -1 <= c <= 0 ->
  Z.testbit (le_word w + c) (8 * Z.of_nat k + 7) = true.
Proof.
  intros Hw. revert k c. induction Hw as [|v w Hv _ IH]; intros k c Hk Hc; [done|]. cbn [le_word]. destruct k as [|k].
  - injection Hk as ->. replace (8 * Z.of_nat 0 + 7) with 7 by lia.
    rewrite <- (Z.mod_pow2_bits_low _ 8) by lia.
    replace (-1 + 256 * le_word w + c) with ((-1 + c) + le_word w * 2 ^ 8) by lia. rewrite Z_mod_plus_full.
    assert (Hc' : c = 0 \/ c = -1) by lia. by destruct Hc' as [-> | ->].
  - replace (8 * Z.of_nat (S k) + 7) with (8 * Z.of_nat k + 7 + 8) by lia.
    rewrite <- Z.div_pow2_bits by lia. change (2 ^ 8) with 256.
    replace ((v + 256 * le_word w + c) / 256) with (le_word w + (v + c) / 256) by div_lia.
    apply IH; [done|div_lia].
Qed.

Lemma eq_lane_hit l k b :
  bytes_ok l -> length l = 8%nat -> is_byte b -> l !! k = Some b ->
  Z.testbit (byteEqMask (le_word l) b) (8 * Z.of_nat k + 7) = true.
Proof.
  intros Hl Hlen Hb Hk. pose proof (lane_lt _ _ _ Hlen Hk). unfold byteEqMask.
  rewrite rep_byte by done. set (u := map (fun v => Z.lxor v b) l).
  assert (Hy : Z.lxor (le_word l) (le_word (replicate 8 b)) = le_word u).
  { rewrite <- Hlen. apply (le_word_bitwise Z.lxor xorb);
      first [done | intros; apply Z.lxor_spec | intros; by apply lxor_byte]. }
  assert (Hu : bytes_ok u).
  { apply Forall_map. eapply Forall_impl; [done|]. intros. by apply lxor_byte. }
  assert (Huk : u !! k = Some 0) by (unfold u; by rewrite list_lookup_fmap, Hk; simpl; rewrite Z.lxor_nilpotent).
  rewrite Hy, !Z.land_spec, high_bits_lane, andb_true_r by lia. rewrite not64_testbit by lia.
  rewrite (lane_testbit _ Hu _ _ Huk), Z.bits_0, andb_true_r.
  change (le_word u - 0x0101010101010101) with (le_word u + le_word (replicate 8 (-1))).
  assert (Hul : length u = 8%nat) by (unfold u; by rewrite length_map).
  unfold w64. rewrite Z.mod_pow2_bits_low by lia. rewrite <- Hul, <- le_word_add_const.
  rewrite <- (Z.add_0_r (le_word _)). apply borrow_testbit; [|by rewrite list_lookup_fmap, Huk|lia].
  apply Forall_map. eapply Forall_impl; [done|]. unfold is_byte. simpl. lia.
Qed.

(** The separator bytes at a position. *)
Definition separator_at (src : bytes) (k : nat) : Prop :=
  src !! k = Some 0xe2 /\ src !! (k + 1)%nat = Some 0x80 /\
  (src !! (k + 2)%nat = Some 0xa8 \/ src !! (k + 2)%nat = Some 0xa9).

Lemma separator_tail_ok src k :
  (k + 2 < length src)%nat -> exists b, separator_tail src k = Ok b /\ (separator_at src k -> b = true).
Proof.
  intros Hk. unfold separator_tail, separator_at.
  destruct (lookup_lt_is_Some_2 src (k + 1)) as [a Ha]; [lia|].
  destruct (lookup_lt_is_Some_2 src (k + 2)) as [c Hc]; [lia|].
  unfold idx. rewrite Ha, Hc. cbn [res_bind]. case_step; eexists; (split; [done|]).
  - intros (_ & _ & [[= ->]|[= ->]]); done.
  - intros (_ & [= ->] & _). done.
Qed.

Lemma candidate_loop_ok fuel window c t :
  length window = 10%nat -> only_high c -> 0 <= t -> 65 - t <= Z.of_nat fuel -> (0 < fuel)%nat ->
  (forall i, 0 <= i < t -> Z.testbit c i = false) ->
  exists b, candidate_loop fuel window c = Ok b /\
    forall k, Z.testbit c (8 * Z.of_nat k + 7) = true -> separator_at window k -> b = true.
Proof.
  intros Hw. revert c t. induction fuel as [|fuel IH]; intros c t Hc Ht Hf H0 Hlow; [lia|]. cbn [candidate_loop].
  destruct (Z.eqb_spec c 0) as [->|Hne].
  { exists false. split; [done|]. intros k. by rewrite Z.bits_0. }
  destruct Hc as [Hpos Hhi]. destruct (TrailingZeros64_least c ltac:(lia)) as (T0 & T1 & T2).
  set (T := TrailingZeros64 c) in *. destruct (Hhi T T0 T1) as [T64 Tmod]. cbv zeta.
  destruct (Nat.leb_spec 8 (Z.to_nat (T / 8))) as [Hge|Hlt]; [exfalso; div_lia|].
  assert (HtT : t <= T) by (destruct (Z.le_gt_cases t T); [done|]; rewrite Hlow in T1 by lia; done).
  destruct (separator_tail_ok window (Z.to_nat (T / 8))) as (b & -> & Hb); [lia|]. cbn [res_bind]. destruct b.
  { by exists true. }
  destruct (IH (Z.land c (c - 1)) (T + 1)) as (r & -> & Hr); [|lia|lia|lia| |].
  - split; [apply Z.land_nonneg; by left|]. intros n Hn.
    rewrite (clear_lowest c T) by (done || lia). intros [H _]%andb_prop. by apply Hhi.
  - intros i Hi. rewrite (clear_lowest c T) by (done || lia). destruct (Z.eqb_spec i T) as [->|]; [by rewrite andb_false_r|].
    rewrite T2 by lia. done.
  - exists r. split; [done|]. intros k Hk Hsep. destruct (Z.eq_dec (8 * Z.of_nat k + 7) T) as [HkT|HkT].
    + assert (k = Z.to_nat (T / 8)) as -> by div_lia. by apply Hb in Hsep.
    + apply (Hr k); [|done]. rewrite (clear_lowest c T) by (done || lia). rewrite Hk. simpl. lia.
Qed.

Lemma separator_at_slice src i k :
  (k < 8)%nat -> separator_at src (i + k) -> separator_at (slice src i (i + 10)) k.
Proof.
  unfold separator_at, slice. intros Hk. replace (i + 10 - i)%nat with 10%nat by lia.
  rewrite !lookup_take_lt by lia. rewrite !lookup_drop, !Nat.add_assoc. done.
Qed.

Lemma window_loop_ok fuel src i :
  bytes_ok src -> (i <= length src)%nat -> (length src - i < fuel)%nat ->
  exists r, window_loop fuel src i = Ok r /\
    match r with
    | None => True
    | Some j => (i <= j)%nat /\ forall k, (i <= k < j)%nat -> ~ separator_at src k
    end.
Proof.
  intros Hok. revert i. induction fuel as [|fuel IH]; intros i Hi Hf; [lia|]. cbn [window_loop]. cbv zeta.
  destruct (Nat.leb_spec (i + 10) (length src)) as [Hle|Hgt].
  2:{ exists (Some i). split; [done|]. split; [done|lia]. }
  set (w := slice src i (i + 10)). assert (Hw : length w = 10%nat) by (unfold w; rewrite slice_length; lia).
  assert (Hwok : bytes_ok w) by (by apply Forall_take, Forall_drop).
  assert (Hl8 : length (slice w 0 (0 + 8)) = 8%nat) by (rewrite slice_length; lia).
  destruct (candidate_loop_ok 65 w (byteEqMask (load64 w 0) 0xe2) 0) as (b & -> & Hb);
    [done|unfold byteEqMask; apply only_high_land|lia|lia|lia|lia|]. cbn [res_bind].
  destruct b; [by exists None|]. destruct (IH (i + 8)%nat) as (r & -> & Hr); [lia|lia|].
  exists r. split; [done|]. destruct r as [j|]; [|done]. destruct Hr as [Hj Hr]. split; [lia|].
  intros k Hk Hsep. destruct (Nat.lt_ge_cases k (i + 8)) as [Hlt|Hge]; [|by apply (Hr k); [lia|]].
  replace k with (i + (k - i))%nat in Hsep by lia. apply separator_at_slice in Hsep; [|lia].
  enough (false = true) by done. apply (Hb (k - i)%nat); [|done]. apply eq_lane_hit; [|done|done|].
  - by apply Forall_take, Forall_drop.
  - unfold slice at 1. rewrite lookup_take_lt by lia. rewrite lookup_drop. apply Hsep.
Qed.

Lemma separator_loop_ok fuel src i :
  (length src - i < fuel)%nat ->
  exists b, separator_loop fuel src i = Ok b /\ (b = false -> forall k, (i <= k)%nat -> ~ separator_at src k).
Proof.
  revert i. induction fuel as [|fuel IH]; intros i Hf; [lia|]. cbn [separator_loop].
  destruct (Nat.ltb_spec (i + 2) (length src)) as [Hlt|Hge].
  2:{ exists false. split; [done|]. intros _ k Hk (_ & _ & [H|H]); apply lookup_lt_Some in H; lia. }
  destruct (lookup_lt_is_Some_2 src i) as [c Hc]; [lia|]. rewrite (idx_ok _ _ _ Hc). cbn [res_bind].
  destruct (separator_tail_ok src i Hlt) as (b & Hb & Hsep). rewrite Hb.
  destruct (IH (S i) ltac:(lia)) as (r & Hr & Hrest). destruct (Z.eqb_spec c 0xe2) as [->|Hne]; cbn [res_bind].
  - destruct b; [by exists true|]. exists r. split; [done|]. intros Hf' k Hk. destruct (Nat.eq_dec k i) as [->|].
    + intros H. by apply Hsep in H.
    + apply Hrest; [done|lia].
  - exists r. split; [done|]. intros Hf' k Hk. destruct (Nat.eq_dec k i) as [->|].
    + intros [H _]. congruence.
    + apply Hrest; [done|lia].
Qed.

(** The scan always answers, and a negative answer is right. *)
Lemma hasJSONLineSeparatorScalar_ok src :
  bytes_ok src ->
  exists b, hasJSONLineSeparatorScalar src 0 = Ok b /\ (b = false -> forall k, ~ separator_at src k).
Proof.
  intros Hok. unfold hasJSONLineSeparatorScalar. rewrite drop_0. cbv zeta.
  destruct (advance_span (fun c => negb (c =? 0xe2)) src 0 ltac:(lia)) as (s & Hs & Hall & _).
  set (i := advance _ src 0) in *. pose proof (span_le _ _ _ _ Hs) as Hi.
  assert (Hbefore : forall k, (k < i)%nat -> ~ separator_at src k).
  { intros k Hk [H _]. pose proof (span_len _ _ _ _ Hs) as Hl. destruct Hs as (Hs & _). rewrite drop_0 in Hs.
    rewrite Hs, lookup_app_l in H by lia.
    pose proof (Forall_lookup_1 _ _ _ _ Hall H) as Hx. simpl in Hx. done. }
  destruct (Nat.leb_spec (length src) i) as [Hge|Hlt].
  { exists false. split; [done|]. intros _ k Hk. apply (Hbefore k); [|done]. destruct Hk as [Hk _]. apply lookup_lt_Some in Hk. lia. }
  assert (Htail : exists b, (if (i + 2 <? length src)%nat then separator_tail src i else Ok false) = Ok b /\
                            (separator_at src i -> b = true)).
  { destruct (Nat.ltb_spec (i + 2) (length src)); [by apply separator_tail_ok|]. exists false. split; [done|].
    intros (_ & _ & [Hx|Hx]); apply lookup_lt_Some in Hx; lia. }
  destruct Htail as (b & -> & Hb). cbn [res_bind]. destruct b; [by exists true|].
  destruct (window_loop_ok (S (length src)) src (S i) Hok) as (r & -> & Hr); [lia|lia|]. cbn [res_bind].
  destruct r as [j|]; [|by exists true]. destruct Hr as [Hj Hr].
  destruct (separator_loop_ok (S (length src)) src j) as (r & -> & Hrest); [lia|].
  exists r. split; [done|]. intros Hf k Hk. destruct (Nat.lt_trichotomy k i) as [H|[->|H]].
  - by apply (Hbefore k).
  - by apply Hb in Hk.
  - destruct (Nat.lt_ge_cases k j); [apply (Hr k); [lia|done]|]. by apply (Hrest Hf k).
Qed.

(** ** Texts without separators *)

Inductive clean_text : bytes -> Prop :=
  | clean_nil : clean_text []
  | clean_cons r t : is_scalar r = true -> is_separator r = false -> clean_text t -> clean_text (encode_rune r ++ t).

Lemma clean_text_app s t : clean_text s -> clean_text t -> clean_text (s ++ t).
Proof. induction 1; [done|]. intros. rewrite <- app_assoc. constructor; auto. Qed.

Lemma utf8_text_clean p : utf8_text p -> (forall k, ~ separator_at p k) -> clean_text p.
Proof.
  induction 1 as [|r t Hr _ IH]; intros Hsep; [constructor|]. constructor; [done| |].
  - destruct (is_separator r) eqn:Hs; [|done]. exfalso. apply (Hsep 0%nat). unfold is_separator in Hs.
    apply orb_prop in Hs as [->%Z.eqb_eq| ->%Z.eqb_eq]; unfold separator_at; cbn; tauto.
  - apply IH. intros k (H1 & H2 & H3). apply (Hsep (length (encode_rune r) + k)%nat). unfold separator_at.
    rewrite <- !Nat.add_assoc, !lookup_app_r by lia. rewrite !Nat.add_sub_swap, !Nat.sub_diag by lia. done.
Qed.

Lemma validUTF8NoLineSeparatorFast_ok src :
  bytes_ok src -> exists b, validUTF8NoLineSeparatorFast src = Ok b /\ (b = true -> clean_text src).
Proof.
  intros Hok. unfold validUTF8NoLineSeparatorFast. destruct (Utf8.Valid src) eqn:Hv; [|by exists false].
  destruct (hasJSONLineSeparatorScalar_ok src Hok) as (b & -> & Hb). exists (negb b). split; [done|].
  intros Hn. destruct b; [done|]. apply utf8_text_clean; [|by apply Hb]. apply Valid_spec; [|done].
  eapply Forall_impl; [exact Hok|]. unfold is_byte. simpl. lia.
Qed.

(** ** The reference, by its first character *)

Lemma encode_char_size h p : p <> [] -> (1 <= (encode_char h p).2 <= length p)%nat.
Proof.
  intros Hp. destruct p as [|c p]; [done|]. unfold encode_char. case_step; [simpl; lia|].
  pose proof (DecodeRune_width (c :: p) Hp). destruct (DecodeRune (c :: p)) as [r n]. simpl in *.
  repeat case_step; simpl; lia.
Qed.

Lemma encode_ref_fuel h p fuel : (length p <= fuel)%nat -> encode_ref fuel h p = encode_ref (length p) h p.
Proof.
  assert (Hgen : forall n m q, (length q <= n)%nat -> (length q <= m)%nat -> encode_ref n h q = encode_ref m h q).
  { induction n as [|n IH]; intros m q Hn Hm; [by destruct q, m; try (simpl in *; lia)|].
    destruct q as [|c q]; [by destruct m|]. destruct m as [|m]; [simpl in Hm; lia|]. cbn [encode_ref].
    pose proof (encode_char_size h (c :: q) ltac:(done)) as Hs. destruct (encode_char h (c :: q)) as [[o d] n'].
    cbn [snd] in Hs. rewrite (IH m); [done| |]; rewrite length_drop; simpl in *; lia. }
  intros. by apply Hgen.
Qed.

Lemma encoded_step h p o d n :
  p <> [] -> encode_char h p = (o, d, n) ->
  encode_ref (length p) h p = (o ++ encoded h (drop n p), d ++ (encode_ref (length (drop n p)) h (drop n p)).2).
Proof.
  intros Hp He. pose proof (encode_char_size h p Hp) as Hs. rewrite He in Hs. cbn [snd] in Hs.
  destruct p as [|c p]; [done|]. cbn [length]. cbn [encode_ref]. rewrite He.
  rewrite encode_ref_fuel by (rewrite length_drop; simpl in *; lia). done.
Qed.

Lemma encoded_cons h p o d n : p <> [] -> encode_char h p = (o, d, n) -> encoded h p = o ++ encoded h (drop n p).
Proof. intros Hp He. unfold encoded at 1. by rewrite (encoded_step _ _ _ _ _ Hp He). Qed.

Lemma encoded_nil h : encoded h [] = [].
Proof. done. Qed.

(** Bytes that are copied as they are. *)
Definition plain (h : bool) (c : Z) : Prop := c < 128 /\ needs_escape h c = false.

Lemma encoded_plain h u t : Forall (plain h) u -> encoded h (u ++ t) = u ++ encoded h t.
Proof.
  induction 1 as [|c u [Hc Hn] _ IH]; [done|]. cbn [app]. rewrite <- IH.
  apply (encoded_cons h (c :: u ++ t) [c] [c] 1%nat); [done|]. unfold encode_char.
  by rewrite (proj2 (Z.ltb_lt _ _) Hc), Hn.
Qed.

Lemma encoded_escape h c t : c < 128 -> needs_escape h c = true -> encoded h (c :: t) = escape_ascii c ++ encoded h t.
Proof.
  intros Hc Hn. apply (encoded_cons h (c :: t) _ [c] 1%nat); [done|]. unfold encode_char.
  by rewrite (proj2 (Z.ltb_lt _ _) Hc), Hn.
Qed.

Lemma encode_char_rune h r t :
  is_scalar r = true -> 128 <= r ->
  encode_char h (encode_rune r ++ t) =
  (if is_separator r then escape_separator r else encode_rune r, encode_rune r, length (encode_rune r)).
Proof.
  intros Hr Hge. pose proof (encode_rune_high r Hr Hge) as Hh. pose proof (DecodeRune_encode r t Hr) as Hd.
  pose proof (decode_bad_encode r Hr) as Hb. unfold encode_char.
  destruct (encode_rune r ++ t) as [|c q] eqn:He.
  { destruct (encode_rune r) eqn:Hn; [by apply encode_rune_nonempty in Hn|done]. }
  assert (Hc : 128 <= c).
  { destruct (encode_rune r) as [|x l] eqn:Hn; [by apply encode_rune_nonempty in Hn|]. injection He as -> _.
    inversion_clear Hh. lia. }
  rewrite (proj2 (Z.ltb_ge _ _) Hc), Hd, Hb. destruct (is_separator r); [done|].
  rewrite <- He. by rewrite take_app_length.
Qed.

(** A run of a clean text up to an ASCII byte is copied as it is. *)
Lemma encoded_clean h u t :
  clean_text (u ++ t) -> Forall (fun c => needs_escape h c = false) u ->
  match t with [] => True | c :: _ => c < 128 end ->
  encoded h (u ++ t) = u ++ encoded h t /\ clean_text t.
Proof.
  remember (u ++ t) as p eqn:Hp. intros Hc. revert u Hp. induction Hc as [|r p Hr Hs Hc IH]; intros u Hp Hu Ht.
  { symmetry in Hp. apply app_nil in Hp as [-> ->]. by split; [|constructor]. }
  destruct u as [|c u]; [cbn [app] in *; subst t; split; [done|by constructor]|].
  assert (Hpre : exists u', c :: u = encode_rune r ++ u' /\ p = u' ++ t).
  { destruct (Z.lt_ge_cases r 128) as [Hlt|Hge].
    - rewrite encode_rune_ascii in Hp |- * by done. injection Hp as -> Hp. by exists u.
    - apply app_eq_inv in Hp as [(k & He & Hk)|(k & He & Hk)]; [|by exists k].
      destruct k as [|x k]; [exists []; rewrite app_nil_r in *; by subst|]. exfalso. subst t.
      pose proof (encode_rune_high r Hr Hge) as Hh. rewrite He in Hh. apply Forall_app in Hh as [_ Hh].
      inversion_clear Hh. simpl in Ht. lia. }
  destruct Hpre as (u' & Hcu & ->). rewrite Hcu in Hu |- *. apply Forall_app in Hu as [Hur Hu].
  destruct (IH u' eq_refl Hu Ht) as [IHe IHc]. split; [|done]. rewrite <- app_assoc, <- IHe.
  destruct (Z.lt_ge_cases r 128) as [Hlt|Hge].
  - rewrite encode_rune_ascii in * by done. inversion_clear Hur. apply (encoded_plain h [r]). by repeat constructor.
  - erewrite encoded_cons; [|by destruct (encode_rune r) eqn:Hn; [apply encode_rune_nonempty in Hn|]|by apply encode_char_rune].
    rewrite Hs. by rewrite drop_app_length.
Qed.

(** ** The main loop *)

Lemma needs_escape_ascii h c : needs_escape h c = true -> c < 128.
Proof. unfold needs_escape, is_html_syntax, is_string_syntax. case_step; lia. Qed.

(** Where the loop stops, and what it passes over. *)
Lemma next_stop_ok clean h s i :
  bytes_ok s -> (i <= length s)%nat ->
  exists u, span s i u (next_stop clean h s i) /\
    Forall (fun c => needs_escape h c = false /\ (clean = false -> c < 128)) u /\
    match s !! next_stop clean h s i with
    | None => True
    | Some c => if clean then needs_escape h c = true else needs_escape h c = true \/ 128 <= c
    end.
Proof.
  intros Hok Hi. set (p := fun c => negb (needs_escape h c) && (clean || (c <? 128))).
  assert (Heq : next_stop clean h s i = advance p s i).
  { assert (Hext : forall q, (forall c, q c = p c) -> advance q s i = advance p s i).
    { intros q Hq. rewrite !advance_spec. do 2 f_equal. induction (drop i s) as [|c l IH]; [done|]. simpl. by rewrite Hq, IH. }
    unfold next_stop. destruct clean, h; cbn [andb];
      rewrite ?scanEncodedHTMLSyntaxScalar_spec, ?scanStringSyntax_spec, ?scanEncodedHTMLSpecialScalar_spec, ?scanStringSpecial_spec by done;
      apply Hext; intros c; unfold p, needs_escape, is_html_special, is_string_special, is_html_syntax, is_string_syntax; lia. }
  rewrite Heq. destruct (advance_span p s i Hi) as (u & Hu & Hall & Hst). exists u. split; [done|]. split.
  - eapply Forall_impl; [exact Hall|]. unfold p. intros c Hc. destruct clean; lia.
  - rewrite stops_lookup in Hst. destruct (s !! advance p s i) as [c|]; [|done]. unfold p in Hst. destruct clean; lia.
Qed.

Lemma clean_text_tail c t : clean_text (c :: t) -> c < 128 -> clean_text t.
Proof.
  remember (c :: t) as p eqn:Hp. destruct 1 as [|r q Hr _ Hq]; [done|]. intros Hc.
  destruct (Z.lt_ge_cases r 128) as [Hlt|Hge]; [rewrite encode_rune_ascii in Hp by done; by injection Hp as _ ->|].
  pose proof (encode_rune_high r Hr Hge) as Hh.
  destruct (encode_rune r) eqn:Hn; [by apply encode_rune_nonempty in Hn|]. injection Hp as -> _. inversion_clear Hh. lia.
Qed.

Lemma encode_char_high h p r n :
  (exists c t, p = c :: t /\ 128 <= c) -> DecodeRune p = (r, n) ->
  encode_char h p = (if (r =? RuneError) && (n =? 1)%nat then (encode_rune RuneError, encode_rune RuneError, 1%nat)
                     else if is_separator r then (escape_separator r, encode_rune r, n) else (take n p, take n p, n)).
Proof. intros (c & t & -> & Hc) Hd. unfold encode_char. by rewrite (proj2 (Z.ltb_ge _ _) Hc), Hd. Qed.

Lemma drop_from_slice (s : bytes) i j : (i <= j <= length s)%nat -> drop i s = slice s i j ++ drop j s.
Proof.
  intros Hj. unfold slice. rewrite <- (take_drop (j - i) (drop i s)) at 1. f_equal. rewrite drop_drop. f_equal. lia.
Qed.

Lemma slice_nil (s : bytes) i : slice s i i = [].
Proof. unfold slice. by rewrite Nat.sub_diag. Qed.

(** The text a stop passes over is copied as it is. *)
Lemma next_stop_run clean h s i :
  bytes_ok s -> (i <= length s)%nat -> (clean = true -> clean_text (drop i s)) ->
  encoded h (drop i s) = slice s i (next_stop clean h s i) ++ encoded h (drop (next_stop clean h s i) s) /\
  (clean = true -> clean_text (drop (next_stop clean h s i) s)).
Proof.
  intros Hok Hi Hcl. destruct (next_stop_ok clean h s i Hok Hi) as (u & Hu & Hall & Hst).
  rewrite (span_slice _ _ _ _ Hu). destruct Hu as (Hu & _). set (j := next_stop clean h s i) in *. rewrite Hu. destruct clean.
  - specialize (Hcl eq_refl). rewrite Hu in Hcl. destruct (encoded_clean h u (drop j s)) as [H1 H2]; [done| | |done].
    + eapply Forall_impl; [exact Hall|]. by intros c [H _].
    + destruct (drop j s) as [|c t] eqn:Hd; [done|]. apply drop_cons_lookup in Hd. rewrite Hd in Hst.
      by eapply needs_escape_ascii.
  - split; [|done]. apply encoded_plain. eapply Forall_impl; [exact Hall|]. intros c [H1 H2]. split; [by apply H2|done].
Qed.

(** The loop spells what is left, after the bytes from [start] not yet copied. *)
Lemma encode_loop_ok fuel clean h s i start dst :
  bytes_ok s -> (start <= i <= length s)%nat -> (length s - i < fuel)%nat -> (clean = true -> clean_text (drop i s)) ->
  encode_loop fuel clean h s i start dst = Ok (dst ++ slice s start i ++ encoded h (drop i s) ++ [DQUOTE]).
Proof.
  intros Hok. revert i start dst. induction fuel as [|fuel IH]; intros i start dst Hi Hf Hcl; [lia|].
  cbn [encode_loop]. destruct (Nat.leb_spec (length s) i) as [Hge|Hlt].
  { replace i with (length s) in * by lia. rewrite (drop_from_slice s start (length s)), drop_all, encoded_nil by lia. by norm_app. }
  destruct (next_stop_ok clean h s i Hok ltac:(lia)) as (u & Hu%span_le & _ & Hst).
  destruct (next_stop_run clean h s i Hok ltac:(lia) Hcl) as [-> Hclj]. set (j := next_stop clean h s i) in *. cbv zeta.
  rewrite (app_assoc (slice s start i)), (app_assoc (slice s start i)), <- (slice_split s start i j) by lia.
  rewrite <- (app_assoc (slice s start j)).
  destruct (Nat.leb_spec (length s) j) as [Hge|Hltj].
  { replace j with (length s) in * by lia. rewrite (drop_from_slice s start (length s)), drop_all, encoded_nil by lia. by norm_app. }
  destruct (lookup_lt_is_Some_2 s j Hltj) as [c Hc]. rewrite (idx_ok _ _ _ Hc). cbn [res_bind]. rewrite Hc in Hst.
  pose proof (drop_S _ _ _ Hc) as Hd. destruct (Z.ltb_spec c 128) as [Hasc|Hhigh].
  - assert (Hn : needs_escape h c = true) by (destruct clean; [done|destruct Hst as [?|?]; [done|lia]]).
    rewrite IH; [|lia|lia|].
    + rewrite slice_nil, Hd, (encoded_escape h c) by done. by norm_app.
    + intros H. specialize (Hclj H). rewrite Hd in Hclj. by apply clean_text_tail in Hclj.
  - destruct clean; [apply needs_escape_ascii in Hst; lia|].
    assert (Hne : drop j s <> []) by (by rewrite Hd).
    pose proof (DecodeRune_width _ Hne) as Hw. destruct (DecodeRune (drop j s)) as [r n] eqn:Hr. cbn [snd] in Hw.
    rewrite length_drop in Hw. pose proof (encode_char_high h (drop j s) r n ltac:(eauto) Hr) as Hec.
    destruct ((r =? RuneError) && (n =? 1)%nat).
    { rewrite IH by (lia || done). rewrite (encoded_cons h (drop j s) _ _ _ Hne Hec), slice_nil, drop_drop, Nat.add_1_r.
      unfold AppendRune, EncodeRune. change (is_scalar RuneError) with true. cbv iota. by norm_app. }
    destruct (is_separator r).
    { rewrite IH by (lia || done). rewrite (encoded_cons h (drop j s) _ _ _ Hne Hec), slice_nil, drop_drop. by norm_app. }
    rewrite IH by (lia || done). rewrite (encoded_cons h (drop j s) _ _ _ Hne Hec), drop_drop.
    rewrite (slice_split s start j (j + n)) by lia. replace (slice s j (j + n)) with (take n (drop j s)).
    + by norm_app.
    + unfold slice. f_equal. lia.
Qed.

(** ** The short path *)

Lemma le_word_take l n : bytes_ok l -> (n <= length l)%nat -> le_word (take n l) = le_word l mod 2 ^ (8 * Z.of_nat n).
Proof.
  intros Hl Hn. rewrite <- (take_drop n l) at 2. rewrite le_word_app, length_take_le by done.
  pose proof (le_word_bound (take n l) (Forall_take _ _ _ Hl)) as Hb. rewrite length_take_le in Hb by done.
  rewrite Z.mul_comm, Z_mod_plus_full. by rewrite Z.mod_small.
Qed.

Lemma le_word_drop l n : bytes_ok l -> (n <= length l)%nat -> le_word (drop n l) = Z.shiftr (le_word l) (8 * Z.of_nat n).
Proof.
  intros Hl Hn. rewrite <- (take_drop n l) at 2. rewrite le_word_app, length_take_le by done.
  pose proof (le_word_bound (take n l) (Forall_take _ _ _ Hl)) as Hb. rewrite length_take_le in Hb by done.
  rewrite Z.shiftr_div_pow2 by lia. rewrite Z.mul_comm, Z.div_add by lia. by rewrite Z.div_small.
Qed.

Lemma le_bytes_word m l : bytes_ok l -> le_bytes m (le_word l) = take m (l ++ replicate m 0).
Proof.
  intros Hl. apply list_eq. intros k. unfold le_bytes. rewrite list_lookup_fmap.
  destruct (Nat.lt_ge_cases k m) as [Hk|Hk].
  2:{ rewrite (lookup_ge_None_2 (seq 0 m)) by (rewrite length_seq; lia). cbn.
      by rewrite lookup_ge_None_2 by (rewrite length_take; lia). }
  rewrite lookup_seq_lt by done. cbn. rewrite lookup_take_lt by done.
  destruct (Nat.lt_ge_cases k (length l)) as [Hkl|Hkl].
  - rewrite lookup_app_l by done. destruct (lookup_lt_is_Some_2 l k Hkl) as [c Hc]. rewrite Hc. f_equal.
    pose proof (le_word_drop l k Hl ltac:(lia)) as Hd. rewrite Z.shiftr_div_pow2 in Hd by lia.
    rewrite <- Hd, (drop_S _ _ _ Hc). cbn [le_word]. pose proof (Forall_lookup_1 _ _ _ _ Hl Hc) as Hb. unfold is_byte in Hb.
    rewrite Z.mul_comm, Z_mod_plus_full. by rewrite Z.mod_small.
  - rewrite lookup_app_r by done. rewrite lookup_replicate_2 by lia. f_equal.
    pose proof (le_word_bound l Hl). rewrite Z.div_small; [done|]. split; [lia|].
    apply Z.lt_le_trans with (2 ^ (8 * Z.of_nat (length l))); [lia|]. apply Z.pow_le_mono_r; lia.
Qed.

Lemma le_bytes_mod m w : le_bytes m (w mod 2 ^ (8 * Z.of_nat m)) = le_bytes m w.
Proof.
  unfold le_bytes. apply map_ext_in. intros k Hk%in_seq.
  apply Z.bits_inj'. intros i Hi. change 256 with (2 ^ 8). destruct (Z.ltb_spec i 8).
  - rewrite !Z.mod_pow2_bits_low, !Z.div_pow2_bits by lia. by rewrite Z.mod_pow2_bits_low by lia.
  - by rewrite !Z.mod_pow2_bits_high by lia.
Qed.

Lemma le_word_zeros n : le_word (replicate n 0) = 0.
Proof. induction n as [|n IH]; [done|]. cbn [replicate le_word]. by rewrite IH. Qed.

Lemma load_ok n s off : (off + n <= length s)%nat -> load n s off = Ok (le_word (slice s off (off + n))).
Proof. intros H. unfold load. by rewrite (proj2 (Nat.leb_le _ _) H). Qed.

(** Overlapping halves assemble the word. *)
Lemma lor_halves W a k :
  0 <= k <= a -> Z.lor (W mod 2 ^ a) (Z.shiftl (Z.shiftr W k) k) = W.
Proof.
  intros Hk. apply Z.bits_inj'. intros i Hi. rewrite Z.lor_spec. destruct (Z.ltb_spec i k).
  - rewrite Z.shiftl_spec_low, orb_false_r by done. rewrite Z.mod_pow2_bits_low; [done|lia].
  - rewrite Z.shiftl_spec_high, Z.shiftr_spec by lia. replace (i - k + k) with i by lia.
    destruct (Z.ltb_spec i a); [rewrite Z.mod_pow2_bits_low by done; by destruct (Z.testbit W i)|].
    by rewrite Z.mod_pow2_bits_high by lia.
Qed.

Lemma short_halves s m :
  bytes_ok s -> (m <= length s <= 7)%nat -> (length s <= 2 * m)%nat ->
  Z.lor (le_word (slice s 0 (0 + m))) (w64 (Z.shiftl (le_word (slice s (length s - m) (length s - m + m))) (Z.of_nat (length s - m) * 8)))
  = le_word s.
Proof.
  intros Hok Hm Hm2. unfold slice. replace (0 + m - 0)%nat with m by lia.
  replace (length s - m + m - (length s - m))%nat with m by lia. rewrite drop_0.
  rewrite (take_ge (drop (length s - m) s)) by (rewrite length_drop; lia).
  rewrite le_word_take, le_word_drop by (done || lia). rewrite (Z.mul_comm _ 8).
  set (W := le_word s). pose proof (le_word_bound s Hok) as Hb. fold W in Hb.
  assert (HW : W < 2 ^ 56) by (apply Z.lt_le_trans with (2 ^ (8 * Z.of_nat (length s))); [lia|apply Z.pow_le_mono_r; lia]).
  assert (Hs : Z.shiftl (Z.shiftr W (8 * Z.of_nat (length s - m))) (8 * Z.of_nat (length s - m)) <= W).
  { rewrite Z.shiftl_mul_pow2, Z.shiftr_div_pow2 by lia. rewrite Z.mul_comm. apply Z.mul_div_le. apply Z.pow_pos_nonneg; lia. }
  unfold w64. rewrite (Z.mod_small (Z.shiftl _ _)).
  - apply lor_halves. lia.
  - split; [apply Z.shiftl_nonneg, Z.shiftr_nonneg; lia|lia].
Qed.

Lemma short_word_ok s : bytes_ok s -> (1 <= length s <= 7)%nat -> short_word s = Ok (le_word s).
Proof.
  intros Hok Hl. unfold short_word. destruct (Nat.leb_spec 4 (length s)).
  { rewrite !load_ok by lia. cbn [res_bind]. f_equal. by apply short_halves; [|lia|lia]. }
  destruct (Nat.leb_spec 2 (length s)).
  { rewrite !load_ok by lia. cbn [res_bind]. f_equal. by apply short_halves; [|lia|lia]. }
  rewrite load_ok by lia. unfold slice. f_equal. f_equal. rewrite drop_0. apply take_ge. lia.
Qed.

Definition special (h : bool) (c : Z) : bool := if h then is_html_special c else is_string_special c.

Lemma special_mask_exact h : exact_mask (special_mask h) (special h).
Proof. intros l Hl Hlen. destruct h; [by apply html_special_mask_first|by apply special_mask_first]. Qed.

Lemma special_plain h c : special h c = false -> plain h c.
Proof. unfold special, plain, needs_escape, is_html_special, is_string_special, is_html_syntax, is_string_syntax. destruct h; lia. Qed.

(** The flags of the first [n] lanes alone. *)
Lemma low_lanes_clear p l m n :
  first_flag p l m -> Z.land m (Z.ones (8 * Z.of_nat n)) = 0 -> Forall (fun c => p c = false) (take n l).
Proof.
  intros Hff Hz. apply Forall_lookup_2. intros k. induction (lt_wf k) as [k _ IH]. intros v Hv.
  apply lookup_take_Some in Hv as [Hv Hk]. rewrite <- (ff_lane _ _ _ Hff k v Hv).
  - assert (Hb : Z.testbit (Z.land m (Z.ones (8 * Z.of_nat n))) (8 * Z.of_nat k + 7) = false) by (rewrite Hz; apply Z.bits_0).
    rewrite Z.land_spec, Z.ones_spec_low, andb_true_r in Hb by lia. done.
  - intros j w Hj Hw. apply (IH j Hj). apply lookup_take_Some. split; [done|lia].
Qed.

Lemma store_ok n buf off w :
  (off + n <= length buf)%nat -> store n buf off w = Ok (take off buf ++ le_bytes n w ++ drop (off + n) buf).
Proof. intros H. unfold store. by rewrite (proj2 (Nat.leb_le _ _) H). Qed.

Lemma le_bytes_slice n s off :
  bytes_ok s -> (off + n <= length s)%nat -> le_bytes n (le_word (slice s off (off + n))) = slice s off (off + n).
Proof.
  intros Hok H. rewrite le_bytes_word by (by apply Forall_take, Forall_drop).
  rewrite take_app_le by (rewrite slice_length; lia). apply take_ge. rewrite slice_length; lia.
Qed.

(** Two overlapping words cover a string of eight to sixteen bytes. *)
Lemma long_stores s region :
  bytes_ok s -> (8 <= length s <= 16)%nat -> length region = (length s + 2)%nat ->
  (let* r := store 8 (<[0%nat := DQUOTE]> region) 1 (le_word (slice s 0 (0 + 8))) in
   let* r := store 8 r (1 + length s - 8) (le_word (slice s (length s - 8) (length s - 8 + 8))) in
   Ok (Some (<[(1 + length s)%nat := DQUOTE]> r)))
  = (Ok (Some (DQUOTE :: s ++ [DQUOTE])) : res unit (option bytes)).
Proof.
  intros Hok Hl Hr. rewrite store_ok by (rewrite length_insert; lia). cbn [res_bind]. rewrite le_bytes_slice by (done || lia).
  destruct region as [|x region]; [simpl in Hr; lia|]. simpl in Hr. change (<[0%nat:=DQUOTE]> (x :: region)) with (DQUOTE :: region).
  change (take 1 (DQUOTE :: region)) with [DQUOTE]. cbn [app].
  assert (Hsl : length (slice s 0 (0 + 8)) = 8%nat) by (rewrite slice_length; lia).
  rewrite store_ok by (cbn [length]; rewrite length_app, Hsl, length_drop; simpl; lia).
  cbn [res_bind]. rewrite le_bytes_slice by (done || lia). do 2 f_equal.
  replace (1 + length s - 8)%nat with (S (length s - 8)) by lia. cbn [take app Nat.add drop]. f_equal.
  unfold slice. rewrite drop_0. cbn [Nat.sub]. replace (length s - 8 + 8 - (length s - 8))%nat with 8%nat by lia.
  replace (length s - 8 + 8)%nat with (length s) by lia.
  rewrite take_app_le by (rewrite length_take; lia). rewrite take_take, Nat.min_l by lia.
  rewrite (take_ge (drop (length s - 8) s)) by (rewrite length_drop; lia). rewrite app_assoc, take_drop.
  rewrite drop_app_ge by (rewrite length_take; lia). rewrite length_take, drop_drop.
  assert (Hlast : length (drop (8 + (length s - 8 `min` length s)) region) = 1%nat) by (rewrite length_drop; lia).
  destruct (drop _ region) as [|y [|? ?]]; [done| |done].
  change (<[S (length s):=DQUOTE]> (DQUOTE :: s ++ [y])) with (DQUOTE :: <[length s:=DQUOTE]> (s ++ [y])).
  by rewrite insert_app_r_alt, Nat.sub_diag by lia.
Qed.

Lemma quoted_word s : bytes_ok s -> (length s <= 7)%nat -> Z.lor (w64 (Z.shiftl (le_word s) 8)) DQUOTE = le_word (DQUOTE :: s).
Proof.
  intros Hok Hl. pose proof (le_word_bound s Hok) as Hb.
  assert (2 ^ (8 * Z.of_nat (length s)) <= 2 ^ 56) by (apply Z.pow_le_mono_r; lia).
  unfold w64. rewrite Z.shiftl_mul_pow2, Z.mod_small, <- Z.shiftl_mul_pow2 by lia.
  rewrite lor_shiftl_add by lia. cbn [le_word]. lia.
Qed.

(** One or two stores of the quoted word cover a shorter string. *)
Lemma short_stores s region :
  bytes_ok s -> (1 <= length s <= 7)%nat -> length region = (length s + 2)%nat ->
  (let* r :=
     if (6 <=? length s)%nat then store 8 region 0 (le_word (DQUOTE :: s))
     else if (2 <=? length s)%nat then
       let* r := store 4 region 0 (le_word (DQUOTE :: s) mod 2 ^ 32) in
       store 4 r (length s - 2) (Z.shiftr (le_word (DQUOTE :: s)) (Z.of_nat (length s - 2) * 8) mod 2 ^ 32)
     else store 2 region 0 (le_word (DQUOTE :: s) mod 2 ^ 16) in
   Ok (Some (<[(1 + length s)%nat := DQUOTE]> r)))
  = (Ok (Some (DQUOTE :: s ++ [DQUOTE])) : res unit (option bytes)).
Proof.
  intros Hok Hl Hr. assert (Hq : bytes_ok (DQUOTE :: s)) by (constructor; [by split|done]).
  assert (Hshift : Z.shiftr (le_word (DQUOTE :: s)) (Z.of_nat (length s - 2) * 8) = le_word (drop (length s - 2) (DQUOTE :: s))).
  { rewrite Z.mul_comm, <- le_word_drop by (done || simpl; lia). done. }
  rewrite Hshift. clear Hshift. change (2 ^ 32) with (2 ^ (8 * Z.of_nat 4)). change (2 ^ 16) with (2 ^ (8 * Z.of_nat 2)).
  assert (Hb4 : forall l, bytes_ok l -> le_bytes 4 (le_word l mod 2 ^ (8 * Z.of_nat 4)) = take 4 (l ++ replicate 4 0)).
  { intros l H. by rewrite le_bytes_mod, le_bytes_word. }
  assert (Hb2 : forall l, bytes_ok l -> le_bytes 2 (le_word l mod 2 ^ (8 * Z.of_nat 2)) = take 2 (l ++ replicate 2 0)).
  { intros l H. by rewrite le_bytes_mod, le_bytes_word. }
  assert (Hd : bytes_ok (drop (length s - 2) (DQUOTE :: s))) by (by apply Forall_drop).
  destruct (Nat.leb_spec 6 (length s)).
  { rewrite store_ok by lia. rewrite le_bytes_word by done.
    do 8 try (destruct s as [|? s]); try (simpl in *; lia);
    do 10 try (destruct region as [|? region]); try (simpl in *; lia); reflexivity. }
  destruct (Nat.leb_spec 2 (length s)).
  - rewrite store_ok by lia. cbn [res_bind]. rewrite Hb4 by done.
    rewrite store_ok by (rewrite !length_app, !length_take, !length_app, length_replicate, length_drop; cbn [length]; lia).
    rewrite Hb4 by done.
    do 6 try (destruct s as [|? s]); try (simpl in *; lia);
    do 8 try (destruct region as [|? region]); try (simpl in *; lia); reflexivity.
  - rewrite store_ok by lia. rewrite Hb2 by done.
    do 2 try (destruct s as [|? s]); try (simpl in *; lia);
    do 4 try (destruct region as [|? region]); try (simpl in *; lia); reflexivity.
Qed.

(** The short path writes the quoted string, and only when every byte is plain. *)
Lemma appendShort_ok spare s h :
  bytes_ok s -> (1 <= length s <= 16)%nat ->
  exists r, appendShortCleanJSONString spare s h = Ok r /\
    match r with None => True | Some out => out = DQUOTE :: s ++ [DQUOTE] /\ Forall (plain h) s end.
Proof.
  intros Hok Hl. unfold appendShortCleanJSONString.
  destruct (Nat.ltb_spec (length spare) (length s + 2)) as [|Hsp]; [by exists None|]. cbv zeta.
  assert (Hr : length (take (length s + 2) spare) = (length s + 2)%nat) by (rewrite length_take; lia).
  pose proof (special_mask_exact h) as Hm.
  assert (Hplain : forall l, Forall (fun c => special h c = false) l -> Forall (plain h) l)
    by (intros l H; eapply Forall_impl; [exact H|]; intros c; apply special_plain).
  destruct (Nat.leb_spec 8 (length s)) as [H8|H8].
  - rewrite !load_ok by lia. cbn [res_bind]. match goal with |- context [Z.lor ?x ?y =? 0] => destruct (Z.eqb_spec (Z.lor x y) 0) as [Hz|] end; cbn [negb]; [|by exists None].
    apply Z.lor_eq_0_iff in Hz as [Hz1 Hz2]. rewrite (long_stores s _ Hok) by (done || lia).
    eexists. split; [reflexivity|]. split; [done|]. apply Hplain.
    assert (Hw : forall off, (off + 8 <= length s)%nat -> special_mask h (le_word (slice s off (off + 8))) = 0 ->
      Forall (fun c => special h c = false) (slice s off (off + 8))).
    { intros off Ho Hz. eapply first_flag_zero; [|exact Hz]. apply Hm; [by apply Forall_take, Forall_drop|rewrite slice_length; lia]. }
    apply Hw in Hz1, Hz2; [|lia..]. unfold slice in Hz1, Hz2. rewrite drop_0 in Hz1.
    rewrite (take_ge (drop _ s)) in Hz2 by (rewrite length_drop; lia).
    rewrite <- (take_drop (length s - 8) s). apply Forall_app. split; [|done].
    replace (length s - 8)%nat with (Nat.min (length s - 8) (0 + 8 - 0)) by lia. rewrite <- take_take. by apply Forall_take.
  - rewrite short_word_ok by (done || lia). cbn [res_bind].
    match goal with |- context [Z.land ?x ?y =? 0] => destruct (Z.eqb_spec (Z.land x y) 0) as [Hz|] end; cbn [negb]; [|by exists None].
    rewrite quoted_word by (done || lia). rewrite (short_stores s _ Hok) by (done || lia).
    eexists. split; [reflexivity|]. split; [done|]. apply Hplain.
    set (l := s ++ replicate (8 - length s) 0).
    assert (Hlok : bytes_ok l) by (apply Forall_app; split; [done|by apply Forall_replicate]).
    assert (Hll : length l = 8%nat) by (unfold l; rewrite length_app, length_replicate; lia).
    assert (Hlw : le_word l = le_word s).
    { unfold l. rewrite le_word_app, le_word_zeros. lia. }
    rewrite <- (take_app_length s (replicate (8 - length s) 0)). fold l.
    apply (low_lanes_clear _ l (special_mask h (le_word l)) (length s)); [by apply Hm|]. rewrite Hlw, <- Hz. f_equal.
    unfold w64. rewrite Z.shiftl_1_l, Z.mod_small.
    + rewrite Z.ones_equiv. lia.
    + split; [apply Z.pow_nonneg; lia|apply Z.pow_lt_mono_r; lia].
Qed.

(** ** The whole encoder *)

Lemma encode_rest_ok h s first start dst :
  bytes_ok s -> (start <= first < length s)%nat ->
  encode_rest h s first start dst = Ok (dst ++ slice s start first ++ encoded h (drop first s) ++ [DQUOTE]).
Proof.
  intros Hok Hf. unfold encode_rest. destruct (lookup_lt_is_Some_2 s first) as [c Hc]; [lia|].
  rewrite (idx_ok _ _ _ Hc). cbn [res_bind]. destruct (128 <=? c).
  - destruct (validUTF8NoLineSeparatorFast_ok (drop first s)) as (b & -> & Hb); [by apply Forall_drop|].
    cbn [res_bind]. by apply encode_loop_ok; [|lia|lia|].
  - cbn [res_bind]. by apply encode_loop_ok; [|lia|lia|].
Qed.

(** The prefix scan passes over plain bytes. *)
Lemma prefix_plain (h : bool) s :
  bytes_ok s ->
  let first := if h then scanEncodedHTMLSpecialScalar s 0 else scanStringSpecialScalar s 0 in
  (first <= length s)%nat /\ Forall (plain h) (take first s).
Proof.
  intros Hok. cbv zeta.
  assert (Heq : (if h then scanEncodedHTMLSpecialScalar s 0 else scanStringSpecialScalar s 0)
                = advance (fun c => negb (special h c)) s 0).
  { destruct h; [by rewrite scanEncodedHTMLSpecialScalar_spec by (done || lia)|].
    change (scanStringSpecialScalar s 0) with (scanStringSpecial s 0). by rewrite scanStringSpecial_spec by (done || lia). }
  rewrite Heq. destruct (advance_span (fun c => negb (special h c)) s 0 ltac:(lia)) as (u & Hu & Hall & _).
  pose proof (span_le _ _ _ _ Hu) as Hle. split; [lia|]. apply span_slice in Hu. unfold slice in Hu.
  rewrite drop_0, Nat.sub_0_r in Hu. rewrite Hu. eapply Forall_impl; [exact Hall|]. intros c Hc.
  apply special_plain. simpl in Hc. by destruct (special h c).
Qed.

Lemma encoded_prefix h s n : Forall (plain h) (take n s) -> encoded h s = take n s ++ encoded h (drop n s).
Proof. intros H. rewrite <- (take_drop n s) at 1. by apply encoded_plain. Qed.

(** The copy leaves the prefix at the start of the region. *)
Lemma copy_prefix_ok (h : bool) overlap region s first region' :
  (if h then CopyHTMLStringPrefix else CopyStringPrefix) overlap region s = Some (first, region') ->
  first = (if h then scanEncodedHTMLSpecialScalar s 0 else scanStringSpecialScalar s 0) /\
  region' = take first s ++ drop first region /\ (length s <= length region)%nat.
Proof.
  destruct h; unfold CopyHTMLStringPrefix, CopyStringPrefix, copy_prefix;
    (destruct (Nat.ltb_spec (length region) (length s)); [done|]); destruct overlap; intros; simplify_eq; done.
Qed.

(** Whatever path is taken, the output is the quoted spelling. *)
Lemma appendEncodedJSONString_ok dst spare overlap s h :
  bytes_ok s -> appendEncodedJSONString dst spare overlap s h = Ok (dst ++ DQUOTE :: encoded h s ++ [DQUOTE]).
Proof.
  intros Hok. unfold appendEncodedJSONString. cbv zeta. destruct (Nat.eqb_spec (length s) 0) as [H0|H0].
  { by destruct s. }
  assert (Hall : forall n, (n <= length s)%nat -> n = length s -> Forall (plain h) (take n s) -> encoded h s = s).
  { intros n _ -> H. rewrite (encoded_prefix h s (length s) H), take_ge, drop_all, encoded_nil by lia. apply app_nil_r. }
  destruct (prefix_plain h s Hok) as [Hle Hpl]. cbv zeta in Hle, Hpl.
  assert (Hshort : exists r, (if negb (fusedCopyMinBytes <=? length s)%nat then appendShortCleanJSONString spare s h else Ok None) = Ok r /\
    match r with None => True | Some out => out = DQUOTE :: s ++ [DQUOTE] /\ Forall (plain h) s end).
  { destruct (Nat.leb_spec fusedCopyMinBytes (length s)) as [|Hlt]; [by exists None|]. unfold fusedCopyMinBytes in Hlt.
    apply appendShort_ok; [done|lia]. }
  destruct Hshort as (r & -> & Hr). cbn [res_bind]. destruct r as [out|].
  { destruct Hr as [-> Hp]. rewrite (Hall (length s)) by (done || by rewrite take_ge). done. }
  change (scanStringSpecial s 0) with (scanStringSpecialScalar s 0).
  set (region := take (length s) _).
  destruct (if (fusedCopyMinBytes <=? length s)%nat then _ else None) as [[first region']|] eqn:Hcp.
  - destruct (fusedCopyMinBytes <=? length s)%nat; [|done].
    apply copy_prefix_ok in Hcp as (Hfirst & -> & Hreg). rewrite <- Hfirst in Hle, Hpl.
    destruct (Nat.eqb_spec first (length s)) as [Heq|Hne].
    + rewrite (Hall first Hle Heq Hpl), Heq, take_ge by lia.
      rewrite drop_ge by (unfold region; rewrite length_take; lia). by norm_app.
    + rewrite encode_rest_ok by (done || lia). rewrite (encoded_prefix h s first Hpl), slice_nil.
      rewrite take_app_le by (rewrite length_take; lia). rewrite take_take, Nat.min_id. by norm_app.
  - clear Hcp. set (first := if h then _ else _) in *. destruct (Nat.eqb_spec first (length s)) as [Heq|Hne].
    + rewrite (Hall first Hle Heq Hpl). by norm_app.
    + rewrite encode_rest_ok by (done || lia). rewrite (encoded_prefix h s first Hpl). unfold slice.
      rewrite drop_0, Nat.sub_0_r. by norm_app.
Qed.

(** ** What the spelling stands for *)

Definition html_byte (c : Z) : bool := (c =? "<"%ch) || (c =? ">"%ch) || (c =? "&"%ch).

(** The properties of the spelling of one character. *)
Record char_spelled (h : bool) (o d : bytes) : Prop := {
  cs_char : jchar o d;
  cs_clean : clean_text o;
  cs_html : h = true -> Forall (fun c => html_byte c = false) o
  }.

Lemma clean_ascii l : Forall (fun c => 0 <= c < 128) l -> clean_text l.
Proof.
  induction 1 as [|c l Hc _ IH]; [constructor|]. change (c :: l) with ([c] ++ l).
  rewrite <- (encode_rune_ascii c) by lia. apply clean_cons; [unfold is_scalar, is_surrogate, MaxRune; lia|unfold is_separator; lia|done].
Qed.

(** An escape sequence, checked on all its ASCII bytes by evaluation. *)
Definition escape_check (c : Z) : bool :=
  forallb (fun x => (0 <=? x) && (x <? 128) && negb (html_byte x)) (escape_ascii c) &&
  match escape_ascii c with
  | [b; e] => (b =? BSLASH) && is_simple_escape e && (simple_escape_value e =? c)
  | [b; u; x; y; z; w] =>
      (b =? BSLASH) && (u =? "u"%ch) && match hex_of [x; y; z; w] with Some v => v =? c | None => false end
  | _ => false
  end.

Lemma escape_spelled h c : is_byte c -> c < 128 -> char_spelled h (escape_ascii c) [c].
Proof.
  intros Hb Hc. by_bytes (fun c => (128 <=? c) || escape_check c).
  assert (Hk : escape_check c = true) by (destruct (Z.leb_spec 128 c); [lia|done]). unfold escape_check in Hk.
  apply andb_prop in Hk as [Hall Hk]. rewrite forallb_forall in Hall.
  assert (Hf : Forall (fun x => 0 <= x < 128 /\ html_byte x = false) (escape_ascii c)).
  { apply Forall_forall. intros x Hx%list_elem_of_In. apply Hall in Hx. destruct (html_byte x); [|split; [lia|done]].
    by rewrite andb_false_r in Hx. }
  split.
  - clear H Hall Hf. destruct (escape_ascii c) as [|b [|e [|x [|y [|z [|w [|? ?]]]]]]]; try done.
    + rewrite !andb_true_iff, !Z.eqb_eq in Hk. destruct Hk as [[-> He] <-]. by apply jchar_simple.
    + rewrite !andb_true_iff, !Z.eqb_eq in Hk. destruct Hk as [[-> ->] Hx].
      destruct (hex_of [x; y; z; w]) as [v|] eqn:Hh; [|done]. apply Z.eqb_eq in Hx as ->.
      rewrite <- (encode_rune_ascii c) by done. apply jchar_unicode; [done|]. unfold is_byte, is_surrogate in *. lia.
  - apply clean_ascii. eapply Forall_impl; [exact Hf|]. by intros x [Hx _].
  - intros _. eapply Forall_impl; [exact Hf|]. by intros x [_ Hx].
Qed.

Lemma separator_spelled h r : is_separator r = true -> char_spelled h (escape_separator r) (encode_rune r).
Proof.
  unfold is_separator. intros Hs. apply orb_prop in Hs as [->%Z.eqb_eq| ->%Z.eqb_eq].
  - split; [by apply jchar_unicode|by apply clean_ascii; repeat constructor|by repeat constructor].
  - split; [by apply jchar_unicode|by apply clean_ascii; repeat constructor|by repeat constructor].
Qed.

Lemma rune_spelled h r : is_scalar r = true -> 128 <= r -> is_separator r = false -> char_spelled h (encode_rune r) (encode_rune r).
Proof.
  intros Hr Hge Hs. split; [by apply jchar_utf8|rewrite <- (app_nil_r (encode_rune r)); by constructor; [..|constructor]|].
  intros _. eapply Forall_impl; [by apply encode_rune_high|]. unfold html_byte. simpl. lia.
Qed.

Lemma plain_spelled h c : is_byte c -> plain h c -> char_spelled h [c] [c].
Proof.
  unfold plain, needs_escape, is_byte. intros Hb [Hc Hn].
  split; [apply jchar_plain|apply clean_ascii|intros ->; constructor; [|constructor]].
  - unfold is_string_special, is_html_syntax, is_string_syntax in *. destruct h; lia.
  - constructor; [lia|constructor].
  - unfold html_byte, is_html_syntax in *. lia.
Qed.

Lemma encode_char_spelled h p o d n :
  bytes_ok p -> p <> [] -> encode_char h p = (o, d, n) -> char_spelled h o d.
Proof.
  intros Hok Hp He. destruct p as [|c p]; [done|]. inversion_clear Hok as [|? ? Hc Hp']. unfold encode_char in He.
  destruct (Z.ltb_spec c 128) as [Hlt|Hge].
  - destruct (needs_escape h c) eqn:Hn; simplify_eq; [by apply escape_spelled|by apply plain_spelled].
  - destruct (DecodeRune (c :: p)) as [r m] eqn:Hd. destruct (decode_bad (r, m)) eqn:Hb.
    { simplify_eq. by apply rune_spelled. }
    destruct (DecodeRune_good _ _ _ Hd Hb ltac:(done)) as (Hr & -> & t & Ht); [intros ? [= <-]; unfold is_byte in Hc; lia|].
    assert (Hge' : 128 <= r).
    { destruct (Z.lt_ge_cases r 128) as [Hl|]; [|done]. rewrite encode_rune_ascii in Ht by done. injection Ht as -> _. lia. }
    destruct (is_separator r) eqn:Hs; simplify_eq; [by apply separator_spelled|].
    rewrite Ht, take_app_length. by apply rune_spelled.
Qed.

Lemma encode_char_content h p : (encode_char h p).1.2 = (encode_char false p).1.2 /\ (encode_char h p).2 = (encode_char false p).2.
Proof.
  unfold encode_char. destruct p as [|c p]; [done|]. case_step; [done|]. destruct (DecodeRune (c :: p)).
  repeat case_step; done.
Qed.

Lemma encode_ref_content h fuel p : (encode_ref fuel h p).2 = (encode_ref fuel false p).2.
Proof.
  revert p. induction fuel as [|fuel IH]; intros p; [done|]. destruct p as [|c p]; [done|]. cbn [encode_ref].
  destruct (encode_char_content h (c :: p)) as [H1 H2].
  destruct (encode_char h (c :: p)) as [[o d] n], (encode_char false (c :: p)) as [[o' d'] n']. simpl in *. subst. by rewrite IH.
Qed.

(** The spelling is a JSON string content for the sanitized string, and valid
    UTF-8 free of line separators, and of HTML metacharacters when asked. *)
Lemma encoded_spelled h s :
  bytes_ok s ->
  jchars (encoded h s) (sanitized s) /\ clean_text (encoded h s) /\
  (h = true -> Forall (fun c => html_byte c = false) (encoded h s)).
Proof.
  unfold sanitized. rewrite <- (encode_ref_content h). remember (length s) as n eqn:Hn.
  revert s Hn. induction (lt_wf n) as [n _ IH]. intros s -> Hok. destruct s as [|c s].
  { split_and!; [constructor|constructor|constructor]. }
  destruct (encode_char h (c :: s)) as [[o d] m] eqn:He. pose proof (encode_char_size h (c :: s) ltac:(done)) as Hs.
  rewrite He in Hs. cbn [snd] in Hs. destruct (encode_char_spelled _ _ _ _ _ Hok ltac:(done) He) as [C1 C2 C3].
  rewrite (encoded_cons h (c :: s) o d m) by done. rewrite (encoded_step h (c :: s) o d m) by done. cbn [snd].
  destruct (IH (length (drop m (c :: s)))) with (s := drop m (c :: s)) as (I1 & I2 & I3);
    [rewrite length_drop; simpl in *; lia|done|by apply Forall_drop|].
  split_and!; [by constructor|by apply clean_text_app|]. intros Hh. apply Forall_app. auto.
Qed.

Lemma sanitized_utf8 s : utf8_text s -> sanitized s = s.
Proof.
  unfold sanitized. induction 1 as [|r t Hr _ IH]; [done|].
  assert (Hne : encode_rune r ++ t <> []) by (destruct (encode_rune r) eqn:Hn; [by apply encode_rune_nonempty in Hn|done]).
  destruct (Z.lt_ge_cases r 128) as [Hlt|Hge].
  - rewrite encode_rune_ascii in * by done.
    rewrite (encoded_step false ([r] ++ t) (if needs_escape false r then escape_ascii r else [r]) [r] 1%nat Hne).
    + cbn [snd app]. change (drop 1 (r :: t)) with (drop 0 t). by rewrite drop_0, IH.
    + unfold encode_char. simpl. by rewrite (proj2 (Z.ltb_lt _ _) Hlt).
  - rewrite (encoded_step false _ _ _ _ Hne (encode_char_rune false r t Hr Hge)). simpl. by rewrite drop_app_length, IH.
Qed.

Lemma appendEncoded_token dst spare overlap s h out :
  bytes_ok s -> appendEncodedJSONString dst spare overlap s h = Ok out ->
  exists raw, out = dst ++ raw /\ jstring raw (sanitized s).
Proof.
  intros Hok. rewrite appendEncodedJSONString_ok by done. intros [= <-]. eexists. split; [done|].
  constructor. by apply encoded_spelled.
Qed.

(** The decoder undoes the encoder. *)
Lemma decode_encoded dst spare overlap s h :
  bytes_ok s ->
  exists raw, appendEncodedJSONString dst spare overlap s h = Ok (dst ++ raw) /\
    AppendDecodedJSONString [] (inner raw) = Ok (sanitized s).
Proof.
  intros Hok. destruct (appendEncoded_token dst spare overlap s h _ Hok (appendEncodedJSONString_ok _ _ _ _ _ Hok)) as (raw & Hraw & Hj).
  exists raw. split; [by rewrite appendEncodedJSONString_ok, Hraw|].
  rewrite checked_decoder_ref by (apply slice_bytes; by eapply jstring_bytes). by rewrite (jstring_inner _ _ Hj).
Qed.

(** ** Properties *)

(** The string encoder never panics or reads outside its string, and appends exactly the quoted reference spelling, whichever way it goes: the word-at-a-time path for short clean strings writing into spare capacity, the fused prefix copy, or the general loop in its four scanning modes. *)
Theorem appendEncodedJSONString_output dst spare overlap s escapeHTML :
  bytes_ok s ->
  appendEncodedJSONString dst spare overlap s escapeHTML = Ok (dst ++ DQUOTE :: encoded escapeHTML s ++ [DQUOTE]).
Proof. apply appendEncodedJSONString_ok. Qed.

Lemma appendEncodedJSONString_output_witness :
  appendEncodedJSONString [] (replicate 12 7) false (bs "a<b") true = Ok (DQUOTE :: encoded true (bs "a<b") ++ [DQUOTE]) /\
  encoded true (bs "a<b") = bs "a\u003cb" /\
  appendEncodedJSONString [] (replicate 12 7) false (bs "clean") true = Ok (js "'clean'").
Proof.
  split; [apply (appendEncodedJSONString_output [] (replicate 12 7) false (bs "a<b") true); concrete_bytes|].
  split; vm_compute; reflexivity.
Defined.

(** C38: decoding the encoder's output gives the string back, with each byte that is not part of valid UTF-8 replaced by U+FFFD, so a valid UTF-8 string comes back unchanged. *)
Theorem encode_then_decode dst spare overlap s escapeHTML :
  bytes_ok s ->
  exists raw, appendEncodedJSONString dst spare overlap s escapeHTML = Ok (dst ++ raw) /\
    jstring raw (sanitized s) /\ AppendDecodedJSONString [] (inner raw) = Ok (sanitized s) /\
    (utf8_text s -> sanitized s = s).
Proof.
  intros Hok. destruct (decode_encoded dst spare overlap s escapeHTML Hok) as (raw & Hr & Hd). exists raw.
  destruct (appendEncoded_token _ _ _ _ _ _ Hok Hr) as (raw' & ->%app_inv_head & Hj).
  split_and!; [done|done|done|apply sanitized_utf8].
Qed.

Lemma encode_then_decode_witness :
  exists raw, appendEncodedJSONString [] [] false [34; 195; 169; 255] false = Ok ([] ++ raw) /\
    jstring raw (sanitized [34; 195; 169; 255]) /\
    AppendDecodedJSONString [] (inner raw) = Ok (sanitized [34; 195; 169; 255]) /\
    (utf8_text [34; 195; 169; 255] -> sanitized [34; 195; 169; 255] = [34; 195; 169; 255]).
Proof. apply (encode_then_decode [] [] false [34; 195; 169; 255] false). concrete_bytes. Defined.

(** the encoder's output is always valid UTF-8 without the line separators U+2028 and U+2029, and in HTML mode it holds no angle bracket and no ampersand, so it can be embedded in a script element. *)
Theorem encoded_safe dst spare overlap s escapeHTML :
  bytes_ok s ->
  exists content, appendEncodedJSONString dst spare overlap s escapeHTML = Ok (dst ++ DQUOTE :: content ++ [DQUOTE]) /\
    clean_text content /\ (escapeHTML = true -> Forall (fun c => html_byte c = false) content).
Proof.
  intros Hok. exists (encoded escapeHTML s). split; [by apply appendEncodedJSONString_ok|].
  by apply encoded_spelled.
Qed.

Lemma encoded_safe_witness :
  exists content, appendEncodedJSONString [] [] false [226; 128; 168; 60; 128] true = Ok ([] ++ DQUOTE :: content ++ [DQUOTE]) /\
    clean_text content /\ (true = true -> Forall (fun c => html_byte c = false) content).
Proof. apply (encoded_safe [] [] false [226; 128; 168; 60; 128] true). concrete_bytes. Defined.

(** [ByteEqualMask64] of x/scanner is documented as the mask of the lanes equal
    to a value; a lane one above an equal lane is flagged as well. *)
Lemma byteEqMask_extra_lane : byteEqMask (le_word [0xe2; 0xe3; 0; 0; 0; 0; 0; 0]) 0xe2 = le_word [0x80; 0x80; 0; 0; 0; 0; 0; 0].
Proof. reflexivity. Qed.
