(* ===== verification/EncodeInt.v ===== *)
(** [encoder_int.go] and the formatting kernels of [simd/digits.go]: decimal
    integers written two digits at a time, or eight at once, into the spare
    capacity of the destination.  A call returns the bytes it appends; [spare] is
    what the spare capacity holds before.  A store that leaves the result, or a
    table read past its end, is a panic of the model. *)

From S2P Require Import Prelude Words Utf8 Scanner Lex Grammar StringRef Errors Numbers Reader Validator FastValid Layout Decode NumberEqual Digits EncodeString.

(** ** strconv.AppendUint, base 10 *)

Fixpoint udec_loop (fuel : nat) (v : Z) : bytes :=
  match fuel with
  | O => []
  | S fuel => if v <? 10 then ["0"%ch + v] else udec_loop fuel (v / 10) ++ ["0"%ch + v mod 10]
  end.

(** A [uint64] has at most twenty digits. *)
Definition FormatUint (v : Z) : bytes := udec_loop 20 v.

(** ** Kernels (simd/digits.go) *)

Definition encodeTwoFourDigitChunks (hi lo : Z) : Z :=
  let merged := Z.lor hi (w64 (Z.shiftl lo 32)) in
  let top := Z.land (Z.shiftr (w64 (merged * 10486)) 20) (Z.lor 0x7f (Z.shiftl 0x7f 32)) in
  let bottom := w64 (merged - 100 * top) in
  let hundreds := w64 (w64 (Z.shiftl bottom 16) + top) in
  let tens := Z.shiftr (w64 (hundreds * 103)) 10 in
  let tens := Z.land tens 0x000f000f000f000f in
  w64 (tens + w64 (Z.shiftl (w64 (hundreds - 10 * tens)) 8)).

(** The word of eight ASCII digits. *)
Definition eight_digits (value : Z) : Z := w64 (0x3030303030303030 + encodeTwoFourDigitChunks (value / 10000) (value mod 10000)).

Definition Store8Digits (buf : bytes) (off : nat) (value : Z) : res unit bytes := store 8 buf off (eight_digits value).

Definition Store16Digits (buf : bytes) (off : nat) (value : Z) : res unit bytes :=
  let hi := value / 100000000 in
  let lo := value - hi * 100000000 in
  let* buf := store 8 buf off (eight_digits hi) in
  store 8 buf (off + 8) (eight_digits lo).

(** ** Digit pairs *)

Definition encodeDigitPairs : bytes := Eval cbv in bs
  "00010203040506070809101112131415161718192021222324252627282930313233343536373839404142434445464748495051525354555657585960616263646566676869707172737475767778798081828384858687888990919293949596979899".

Definition pair_at (pair : Z) : res unit bytes :=
  let k := Z.to_nat (pair * 2) in
  if (k + 2 <=? length encodeDigitPairs)%nat then Ok (slice encodeDigitPairs k (k + 2)) else Panic.

(** [storeCompactDigitPair] at an offset of the result. *)
Definition storeCompactDigitPair (buf : bytes) (off : nat) (pair : Z) : res unit bytes :=
  let* d := pair_at pair in
  if (off + 2 <=? length buf)%nat then Ok (take off buf ++ d ++ drop (off + 2) buf) else Panic.

Definition pow10Uint64 : list Z := map (fun k => 10 ^ Z.of_nat k) (seq 0 20).

(** [bits.Len64] *)
Definition Len64 (v : Z) : Z := if v <=? 0 then 0 else Z.log2 v + 1.

Definition digit_count (v : Z) : res unit nat :=
  let digits := Z.to_nat (Z.shiftr (Len64 v * 1233) 12 + 1) in
  match pow10Uint64 !! (digits - 1)%nat with
  | Some p => Ok (if v <? p then (digits - 1)%nat else digits)
  | None => Panic
  end.

(** One arm of the fallthrough switch, [n] times: the pair below goes in at
    [i - 2]. *)
Fixpoint pair_steps (n : nat) (buf : bytes) (i : nat) (v : Z) : res unit (bytes * nat * Z) :=
  match n with
  | O => Ok (buf, i, v)
  | S n =>
      if (i <? 2)%nat then Panic
      else
        let* buf := storeCompactDigitPair buf (i - 2) (v mod 100) in
        pair_steps n buf (i - 2) (v / 100)
  end.

Definition switch_arm (v : Z) : nat :=
  if 100000000 <=? v then 4 else if 1000000 <=? v then 3 else if 10000 <=? v then 2 else if 100 <=? v then 1 else 0.

Definition write_pairs (buf : bytes) (v : Z) : res unit bytes :=
  let* (buf, i, v) := pair_steps (switch_arm v) buf (length buf) v in
  if 10 <=? v then if (i <? 2)%nat then Panic else storeCompactDigitPair buf (i - 2) v
  else if (i <? 1)%nat then Panic else Ok (<[(i - 1)%nat := ("0"%ch + v) mod 256]> buf).

(** ** The unsigned formatter *)

Definition appendCompactUint9 (spare : bytes) (v : Z) : res unit bytes :=
  if (length spare <? 9)%nat then Ok (FormatUint v)
  else
    let hi := v / 100000000 in
    let lo := v - hi * 100000000 in
    let buf := <[0%nat := ("0"%ch + hi) mod 256]> (take 9 spare) in
    Store8Digits buf 1 lo.

Definition appendCompactUint10 (spare : bytes) (v : Z) : res unit bytes :=
  if (length spare <? 10)%nat then Ok (FormatUint v)
  else
    let hi := v / 100000000 in
    let lo := v - hi * 100000000 in
    let* buf := storeCompactDigitPair (take 10 spare) 0 hi in
    Store8Digits buf 2 lo.

Section Formatter.
(** [appendCompactUint], for the high part of a large value. *)
Context (appendCompactUint : bytes -> Z -> res unit bytes).

Definition appendCompactUintLarge (spare : bytes) (v : Z) : res unit bytes :=
  let* digits := digit_count v in
  if (length spare <? digits)%nat then Ok (FormatUint v)
  else if v <? 10 ^ 16 then
  let* block := Store16Digits (replicate 16 0) 0 v in
  if (16 <? digits)%nat then Panic else Ok (drop (16 - digits) block)
  else
  let hi := v / 10 ^ 16 in
  let lo := v - hi * 10 ^ 16 in
  let* high := appendCompactUint spare hi in
  let spare := drop (length high) spare in
  if (length spare <? 16)%nat then Panic
  else let* low := Store16Digits (take 16 spare) 0 lo in Ok (high ++ low).

Definition appendCompactUint_body (spare : bytes) (v : Z) : res unit bytes :=
  if v <? 10 then Ok [("0"%ch + v) mod 256]
  else if v <? 100 then
  let* a := idx encodeDigitPairs (Z.to_nat (v * 2)) in
  let* b := idx encodeDigitPairs (Z.to_nat (v * 2 + 1)) in
  Ok [a; b]
  else if 10 ^ 10 <=? v then appendCompactUintLarge spare v
  else if 10 ^ 9 <=? v then appendCompactUint10 spare v
  else if 10 ^ 8 <=? v then appendCompactUint9 spare v
  else
  let* digits := digit_count v in
  if (length spare <? digits)%nat then Ok (FormatUint v)
  else
  let buf := take digits spare in
  if (digits =? 8)%nat then Store8Digits buf 0 v else write_pairs buf v.
End Formatter.

Fixpoint uint_fuel (fuel : nat) (spare : bytes) (v : Z) : res unit bytes :=
  match fuel with
  | O => NoFuel
  | S fuel => appendCompactUint_body (uint_fuel fuel) spare v
  end.

(** The high part of a value is below 10^4, so the recursion is one level. *)
Definition appendCompactUint (spare : bytes) (v : Z) : res unit bytes := uint_fuel 2 spare v.

(** ** Signs and separators *)

(** The spare capacity once [n] bytes have been appended. *)
Definition spare_after (spare : bytes) (n : nat) : bytes := drop n (grow spare n).

Definition appendCompactInt (spare : bytes) (v : Z) : res unit bytes :=
  if v <? 0 then let* d := appendCompactUint (spare_after spare 1) (w64 (int64 (- v))) in Ok ("-"%ch :: d)
  else appendCompactUint spare (w64 v).

Definition appendCommaCompactUint (spare : bytes) (v : Z) : res unit bytes :=
  if v <? 10 then Ok [","%ch; ("0"%ch + v) mod 256]
  else if v <? 100 then
    let* a := idx encodeDigitPairs (Z.to_nat (v * 2)) in
    let* b := idx encodeDigitPairs (Z.to_nat (v * 2 + 1)) in
    Ok [","%ch; a; b]
  else
    let* digits := digit_count v in
    if (10 ^ 16 <=? v) || (length spare <? digits + 1)%nat then
      let* d := appendCompactUint (spare_after spare 1) v in Ok (","%ch :: d)
    else
      let* block := Store16Digits (replicate 16 0) 0 v in
      if (16 <? digits)%nat then Panic else Ok (","%ch :: drop (16 - digits) block).

Definition appendCommaCompactInt (spare : bytes) (v : Z) : res unit bytes :=
  if v <? 0 then
    let* d := appendCompactUint (spare_after spare 2) (w64 (int64 (- v))) in Ok (","%ch :: "-"%ch :: d)
  else appendCommaCompactUint spare (w64 v).

(** ** Fixed-width decimals *)

(** The last [n] digits of a value. *)
Fixpoint dec_pad (n : nat) (v : Z) : bytes :=
  match n with
  | O => []
  | S n => dec_pad n (v / 10) ++ ["0"%ch + v mod 10]
  end.

Lemma dec_pad_length n v : length (dec_pad n v) = n.
Proof. revert v. induction n as [|n IH]; intros v; [done|]. cbn [dec_pad]. rewrite length_app, IH. simpl. lia. Qed.

Lemma dec_pad_split a b v : dec_pad (a + b) v = dec_pad a (v / 10 ^ Z.of_nat b) ++ dec_pad b v.
Proof.
  revert v. induction b as [|b IH]; intros v.
  - cbn [dec_pad]. rewrite Nat.add_0_r, app_nil_r. change (10 ^ Z.of_nat 0) with 1. by rewrite Z.div_1_r.
  - rewrite Nat.add_succ_r. cbn [dec_pad]. rewrite IH, Nat2Z.inj_succ, Z.pow_succ_r by lia.
    rewrite Z.div_div by (try lia; apply pow10_pos). by rewrite app_assoc.
Qed.

Lemma dec_pad_one v : 0 <= v < 10 -> dec_pad 1 v = ["0"%ch + v].
Proof. intros H. cbn [dec_pad app]. by rewrite Z.mod_small. Qed.

Lemma dec_pad_mod n v w : v mod 10 ^ Z.of_nat n = w mod 10 ^ Z.of_nat n -> dec_pad n v = dec_pad n w.
Proof.
  revert v w. induction n as [|n IH]; intros v w H; [done|]. cbn [dec_pad].
  rewrite Nat2Z.inj_succ, Z.pow_succ_r in H by lia. pose proof (pow10_pos n) as Hp.
  rewrite !Z.rem_mul_r in H by lia.
  pose proof (Z.mod_pos_bound v 10 ltac:(lia)). pose proof (Z.mod_pos_bound w 10 ltac:(lia)).
  rewrite (IH (v / 10) (w / 10)) by lia. by replace (v mod 10) with (w mod 10) by lia.
Qed.

Lemma dec_pad_digits n v : digits (dec_pad n v).
Proof.
  revert v. induction n as [|n IH]; intros v; [constructor|]. cbn [dec_pad]. apply Forall_app. split; [apply IH|].
  constructor; [|done]. unfold IsDigit. pose proof (Z.mod_pos_bound v 10). lia.
Qed.

Lemma dec_pad_value n v : 0 <= v < 10 ^ Z.of_nat n -> dval (dec_pad n v) = v.
Proof.
  revert v. induction n as [|n IH]; intros v H; [change (10 ^ Z.of_nat 0) with 1 in H; change (dval (dec_pad 0 v)) with 0; lia|].
  rewrite Nat2Z.inj_succ, Z.pow_succ_r in H by lia. cbn [dec_pad]. rewrite dval_snoc, IH by div_lia. div_lia.
Qed.

Lemma udec_loop_pad fuel d v :
  (1 <= d <= fuel)%nat -> v < 10 ^ Z.of_nat d -> (d = 1%nat /\ 0 <= v \/ 10 ^ (Z.of_nat d - 1) <= v) -> udec_loop fuel v = dec_pad d v.
Proof.
  revert d v. induction fuel as [|fuel IH]; intros d v Hd Hv Hl; [lia|]. cbn [udec_loop].
  destruct d as [|d]; [lia|]. replace (Z.of_nat (S d) - 1) with (Z.of_nat d) in Hl by lia.
  destruct (Z.ltb_spec v 10) as [H10|H10].
  - destruct d as [|d]; [destruct Hl as [[_ ?]|Hl]; [|change (10 ^ Z.of_nat 0) with 1 in Hl]; by rewrite dec_pad_one by lia|].
    assert (10 <= 10 ^ Z.of_nat (S d)) by (change 10 with (10 ^ 1) at 1; apply Z.pow_le_mono_r; lia). lia.
  - destruct d as [|d]; [change (10 ^ Z.of_nat 1) with 10 in Hv; lia|]. change (dec_pad (S (S d)) v) with (dec_pad (S d) (v / 10) ++ ["0"%ch + v mod 10]).
    destruct Hl as [[? _]|Hl]; [lia|]. f_equal. rewrite !Nat2Z.inj_succ, !Z.pow_succ_r in * by lia.
    apply IH; [lia|rewrite Nat2Z.inj_succ, Z.pow_succ_r by lia; div_lia|]. right.
    replace (Z.succ (Z.of_nat d) - 1) with (Z.of_nat d) by lia. replace (Z.of_nat (S d) - 1) with (Z.of_nat d) by lia. div_lia.
Qed.

(** ** Eight digits in one word *)

Lemma two_four a b c d :
  Forall (fun x => 0 <= x < 100) [a; b; c; d] ->
  encodeTwoFourDigitChunks (100 * a + b) (100 * c + d)
  = le_word [a / 10; a mod 10; b / 10; b mod 10; c / 10; c mod 10; d / 10; d mod 10].
Proof.
  intros H. repeat (apply Forall_cons in H as [? H]). unfold encodeTwoFourDigitChunks. cbv zeta.
  assert (Hmerged : Z.lor (100 * a + b) (w64 (Z.shiftl (100 * c + d) 32)) = 100 * a + b + 2 ^ 32 * (100 * c + d)).
  { rewrite Z.lor_comm. unfold w64. rewrite (Z.shiftl_mul_pow2 (100 * c + d)), Z.mod_small, <- Z.shiftl_mul_pow2 by lia.
    rewrite lor_shiftl_add by lia. lia. }
  rewrite Hmerged.
  assert (Htop : Z.land (Z.shiftr (w64 ((100 * a + b + 2 ^ 32 * (100 * c + d)) * 10486)) 20) (Z.lor 0x7f (Z.shiftl 0x7f 32)) = a + 2 ^ 32 * c).
  { rewrite (middle_limbs 20 (24 * a + 10486 * b) (a + 2 ^ 12 * (24 * c + 10486 * d) + 2 ^ 32 * c) 0) by lia.
    change (Z.lor 0x7f (Z.shiftl 0x7f 32)) with (Z.ones 7 + 2 ^ 32 * Z.ones 7). rewrite land_limb by (change (Z.ones 7) with 127; lia).
    rewrite !Z.land_ones by lia. rewrite (Z.mod_small c) by lia. f_equal.
    replace (a + 2 ^ 12 * (24 * c + 10486 * d)) with (a + 2 ^ 5 * (24 * c + 10486 * d) * 2 ^ 7) by lia.
    rewrite Z_mod_plus_full. apply Z.mod_small. lia. }
  rewrite Htop. unfold w64. rewrite (Z.shiftl_mul_pow2 _ 16) by lia. rewrite (Z.mod_small (_ - _)) by lia.
  replace (100 * a + b + 2 ^ 32 * (100 * c + d) - 100 * (a + 2 ^ 32 * c)) with (b + 2 ^ 32 * d) by lia.
  rewrite (Z.mod_small ((b + 2 ^ 32 * d) * 2 ^ 16)), (Z.mod_small (_ + (a + _))) by lia.
  set (hundreds := (b + 2 ^ 32 * d) * 2 ^ 16 + (a + 2 ^ 32 * c)).
  assert (Hq : forall x, 0 <= x < 100 -> x = 10 * (x / 10) + x mod 10 /\ 0 <= x / 10 < 10 /\ 0 <= x mod 10 < 10) by (intros; div_lia).
  destruct (Hq a) as (Ea & Ba & Ra), (Hq b) as (Eb & Bb & Rb), (Hq c) as (Ec & Bc & Rc), (Hq d) as (Ed & Bd & Rd); try done.
  set (qa := a / 10) in *. set (ra := a mod 10) in *. set (qb := b / 10) in *. set (rb := b mod 10) in *.
  set (qc := c / 10) in *. set (rc := c mod 10) in *. set (qd := d / 10) in *. set (rd := d mod 10) in *.
  clearbody qa ra qb rb qc rc qd rd. clear Hq Hmerged Htop.
  assert (Htens : Z.land (Z.shiftr (w64 (hundreds * 103)) 10) 0x000f000f000f000f = qa + 2 ^ 16 * (qb + 2 ^ 16 * (qc + 2 ^ 16 * qd))).
  { rewrite (middle_limbs 10 (6 * qa + 103 * ra) (qa + 2 ^ 6 * (6 * qb + 103 * rb) + 2 ^ 16 * (qb + 2 ^ 6 * (6 * qc + 103 * rc)
      + 2 ^ 16 * (qc + 2 ^ 6 * (6 * qd + 103 * rd) + 2 ^ 16 * qd))) 0) by (unfold hundreds; lia).
    change 0x000f000f000f000f with (Z.ones 4 + 2 ^ 16 * (Z.ones 4 + 2 ^ 16 * (Z.ones 4 + 2 ^ 16 * Z.ones 4))).
    rewrite !land_limb by (change (Z.ones 4) with 15; lia). rewrite !Z.land_ones by lia.
    assert (Hm : forall q s, 0 <= q < 10 -> (q + 2 ^ 6 * s) mod 2 ^ 4 = q).
    { intros q s Hq. replace (q + 2 ^ 6 * s) with (q + 4 * s * 2 ^ 4) by lia. rewrite Z_mod_plus_full. apply Z.mod_small. lia. }
    rewrite !Hm by done. rewrite Z.mod_small by lia. done. }
  unfold w64 in Htens. rewrite Htens. unfold hundreds. rewrite (Z.mod_small (_ - _)) by lia.
  rewrite Z.shiftl_mul_pow2 by lia. rewrite (Z.mod_small (_ * 2 ^ 8)) by lia. rewrite Z.mod_small by lia. cbn [le_word]. lia.
Qed.

Lemma dec_pad_4 v : 0 <= v < 10000 ->
  dec_pad 4 v = map (Z.add "0"%ch) [v / 100 / 10; v / 100 mod 10; v mod 100 / 10; v mod 100 mod 10].
Proof.
  intros H. assert (v / 10 / 10 / 10 mod 10 = v / 100 / 10 /\ v / 10 / 10 mod 10 = v / 100 mod 10 /\
    v / 10 mod 10 = v mod 100 / 10 /\ v mod 10 = v mod 100 mod 10) as (E1 & E2 & E3 & E4).
  { rewrite !Z.div_div by lia. split_and!; div_lia. }
  cbn [dec_pad app map]. by rewrite E1, E2, E3, E4.
Qed.

Lemma eight_digits_ok v : 0 <= v < 10 ^ 8 -> eight_digits v = le_word (dec_pad 8 v).
Proof.
  intros H. unfold eight_digits. assert (Hh : 0 <= v / 10000 < 10000) by div_lia.
  assert (Hl : 0 <= v mod 10000 < 10000) by div_lia.
  pose proof (Z.div_mod (v / 10000) 100 ltac:(lia)) as E1. pose proof (Z.div_mod (v mod 10000) 100 ltac:(lia)) as E2.
  rewrite E1, E2. rewrite two_four by (repeat (apply Forall_cons_2; [div_lia|]); apply Forall_nil_2).
  change (dec_pad 8 v) with (dec_pad (4 + 4) v). rewrite (dec_pad_split 4 4 v), (dec_pad_4 (v / 10 ^ Z.of_nat 4)) by exact Hh.
  rewrite (dec_pad_mod 4 v (v mod 10000)) by (change (10 ^ Z.of_nat 4) with 10000; by rewrite Z.mod_mod by lia).
  rewrite (dec_pad_4 (v mod 10000)) by done. change (10 ^ Z.of_nat 4) with 10000.
  set (l := [_; _; _; _; _; _; _; _]).
  assert (Hb : Forall (fun x => 0 <= x < 10) l) by (repeat (apply Forall_cons_2; [div_lia|]); apply Forall_nil_2).
  rewrite <- map_app. cbn [app]. fold l. rewrite (map_ext (Z.add "0"%ch) (fun x => x + "0"%ch)) by (intros; lia).
  rewrite le_word_add_const. change (le_word (replicate (length l) "0"%ch)) with 0x3030303030303030.
  rewrite Z.add_comm. unfold w64. apply Z.mod_small. unfold l in *. repeat (apply Forall_cons in Hb as [? Hb]). cbn [le_word]. lia.
Qed.

Lemma store_digits n buf off v : (off + 8 <= length buf)%nat -> n = 8%nat -> 0 <= v < 10 ^ 8 ->
  store n buf off (eight_digits v) = Ok (take off buf ++ dec_pad 8 v ++ drop (off + 8) buf).
Proof.
  intros Ho -> Hv. rewrite store_ok by done. rewrite eight_digits_ok by done.
  rewrite le_bytes_word by apply digits_bytes, dec_pad_digits.
  rewrite take_app_le by (by rewrite dec_pad_length). rewrite (take_ge (dec_pad 8 v)) by (by rewrite dec_pad_length). done.
Qed.

Lemma Store8Digits_ok buf off v : (off + 8 <= length buf)%nat -> 0 <= v < 10 ^ 8 ->
  Store8Digits buf off v = Ok (take off buf ++ dec_pad 8 v ++ drop (off + 8) buf).
Proof. intros Ho Hv. by apply store_digits. Qed.

Lemma Store16Digits_ok buf v : length buf = 16%nat -> 0 <= v < 10 ^ 16 -> Store16Digits buf 0 v = Ok (dec_pad 16 v).
Proof.
  intros Hl Hv. unfold Store16Digits. cbv zeta. change (10 ^ 16) with 10000000000000000 in Hv.
  rewrite store_digits by (done || lia || div_lia). cbn [res_bind take app Nat.add].
  rewrite take_0. cbn [app]. rewrite store_digits; [|rewrite length_app, dec_pad_length, length_drop; lia|done|div_lia].
  rewrite take_app_length' by (by rewrite dec_pad_length). rewrite (drop_ge (dec_pad 8 _ ++ _)) by (rewrite length_app, dec_pad_length, length_drop; lia).
  rewrite app_nil_r.
  change (dec_pad 16 v) with (dec_pad (8 + 8) v). rewrite (dec_pad_split 8 8 v). change (10 ^ Z.of_nat 8) with 100000000. do 2 f_equal.
  apply dec_pad_mod. change (10 ^ Z.of_nat 8) with 100000000.
  replace (v - v / 100000000 * 100000000) with (v mod 100000000) by (rewrite Z.mod_eq by lia; lia). by rewrite Z.mod_mod by lia.
Qed.

Lemma pair_at_ok p : 0 <= p < 100 -> pair_at p = Ok (dec_pad 2 p).
Proof.
  intros H. assert (Hall : forallb (fun k => match pair_at (Z.of_nat k) with Ok d => bool_decide (d = dec_pad 2 (Z.of_nat k)) | _ => false end) (seq 0 100) = true)
    by (vm_compute; reflexivity).
  rewrite forallb_forall in Hall. specialize (Hall (Z.to_nat p)). rewrite Z2Nat.id in Hall by lia.
  specialize (Hall ltac:(apply in_seq; lia)). destruct (pair_at p); try done. apply bool_decide_eq_true in Hall. by subst.
Qed.

Lemma store_pair_ok buf off p : (off + 2 <= length buf)%nat -> 0 <= p < 100 ->
  storeCompactDigitPair buf off p = Ok (take off buf ++ dec_pad 2 p ++ drop (off + 2) buf).
Proof. intros Ho Hp. unfold storeCompactDigitPair. rewrite pair_at_ok by done. cbn [res_bind]. by rewrite (proj2 (Nat.leb_le _ _)). Qed.

(** ** The number of digits *)

Definition has_digits (d : nat) (v : Z) : Prop := (1 <= d <= 20)%nat /\ 10 ^ (Z.of_nat d - 1) <= v < 10 ^ Z.of_nat d.

(** 1233/4096 approximates the logarithm of two within one digit. *)
Lemma digit_estimate L : (1 <= L <= 64)%nat ->
  let d := Z.to_nat (Z.shiftr (Z.of_nat L * 1233) 12 + 1) in
  (1 <= d <= 20)%nat /\ 2 ^ Z.of_nat L <= 10 ^ Z.of_nat d /\ (d = 1%nat \/ 10 ^ (Z.of_nat d - 2) <= 2 ^ (Z.of_nat L - 1)).
Proof.
  intros HL d.
  assert (Hall : forallb (fun L => let d := Z.to_nat (Z.shiftr (Z.of_nat L * 1233) 12 + 1) in
     (1 <=? d)%nat && (d <=? 20)%nat && (2 ^ Z.of_nat L <=? 10 ^ Z.of_nat d) && ((d =? 1)%nat || (10 ^ (Z.of_nat d - 2) <=? 2 ^ (Z.of_nat L - 1)))) (seq 1 64) = true)
    by (vm_compute; reflexivity).
  rewrite forallb_forall in Hall. specialize (Hall L ltac:(apply in_seq; lia)). cbv zeta in Hall. fold d in Hall.
  rewrite !andb_true_iff, orb_true_iff in Hall. destruct Hall as [[[H1 H2] H3] H4].
  apply Nat.leb_le in H1, H2. apply Z.leb_le in H3. split_and!; [done..|].
  destruct H4 as [H4|H4]; [left; by apply Nat.eqb_eq|right; by apply Z.leb_le].
Qed.

Lemma digit_count_ok v : 1 <= v < 2 ^ 64 -> exists d, digit_count v = Ok d /\ has_digits d v.
Proof.
  intros H. unfold digit_count, Len64. rewrite if_false by lia.
  pose proof (Z.log2_spec v ltac:(lia)) as Hlog. pose proof (Z.log2_nonneg v) as Hnn.
  assert (Hlt : Z.log2 v < 64) by (apply Z.log2_lt_pow2; lia).
  replace (Z.log2 v + 1) with (Z.of_nat (Z.to_nat (Z.log2 v + 1))) by lia.
  destruct (digit_estimate (Z.to_nat (Z.log2 v + 1)) ltac:(lia)) as (Hd & Hu & Hlo). rewrite Z2Nat.id in * by lia.
  set (d := Z.to_nat (Z.shiftr ((Z.log2 v + 1) * 1233) 12 + 1)) in *. clearbody d. cbv zeta.
  replace (Z.log2 v + 1 - 1) with (Z.log2 v) in Hlo by lia. replace (Z.succ (Z.log2 v)) with (Z.log2 v + 1) in Hlog by lia.
  assert (Hp : pow10Uint64 !! (d - 1)%nat = Some (10 ^ Z.of_nat (d - 1))).
  { unfold pow10Uint64. rewrite list_lookup_fmap, lookup_seq_lt by lia. done. }
  rewrite Hp. eexists. split; [done|]. unfold has_digits. replace (Z.of_nat (d - 1)) with (Z.of_nat d - 1) by lia.
  destruct (Z.ltb_spec v (10 ^ (Z.of_nat d - 1))) as [Hv|Hv]; [|lia].
  destruct Hlo as [->|Hlo]; [change (10 ^ (Z.of_nat 1 - 1)) with 1 in Hv; lia|].
  assert (d <> 1%nat) by (intros ->; change (10 ^ (Z.of_nat 1 - 1)) with 1 in Hv; lia).
  replace (Z.of_nat (d - 1) - 1) with (Z.of_nat d - 2) by lia. replace (Z.of_nat (d - 1)) with (Z.of_nat d - 1) by lia. lia.
Qed.

Lemma FormatUint_pad d v : has_digits d v -> FormatUint v = dec_pad d v.
Proof. intros [Hd Hv]. apply udec_loop_pad; [done|lia|right; lia]. Qed.

Lemma has_digits_unique d d' v : has_digits d v -> has_digits d' v -> d = d'.
Proof.
  intros [H1 H2] [H3 H4]. destruct (Nat.lt_trichotomy d d') as [Hlt|[->|Hlt]]; [|done|].
  - assert (10 ^ Z.of_nat d <= 10 ^ (Z.of_nat d' - 1)) by (apply Z.pow_le_mono_r; lia). lia.
  - assert (10 ^ Z.of_nat d' <= 10 ^ (Z.of_nat d - 1)) by (apply Z.pow_le_mono_r; lia). lia.
Qed.

(** ** The formatter *)

Lemma pair_steps_ok n buf i v : (2 * n <= i <= length buf)%nat -> 0 <= v ->
  pair_steps n buf i v = Ok (take (i - 2 * n) buf ++ dec_pad (2 * n) v ++ drop i buf, (i - 2 * n)%nat, v / 10 ^ Z.of_nat (2 * n)).
Proof.
  revert buf i v. induction n as [|n IH]; intros buf i v Hi Hv; cbn [pair_steps].
  { replace (2 * 0)%nat with 0%nat by lia. rewrite Nat.sub_0_r. change (10 ^ Z.of_nat 0) with 1. rewrite Z.div_1_r.
    cbn [dec_pad app]. by rewrite take_drop. }
  rewrite (proj2 (Nat.ltb_ge _ _)) by lia. rewrite store_pair_ok by (lia || div_lia). cbn [res_bind].
  rewrite IH; [|rewrite !length_app, length_take, dec_pad_length, length_drop; lia|div_lia].
  replace (2 * S n)%nat with (2 * n + 2)%nat by lia. rewrite dec_pad_split. change (10 ^ Z.of_nat 2) with 100.
  replace (i - 2 - 2 * n)%nat with (i - (2 * n + 2))%nat by lia. replace (i - 2 + 2)%nat with i by lia.
  assert (E : v / 100 / 10 ^ Z.of_nat (2 * n) = v / 10 ^ Z.of_nat (2 * n + 2)).
  { rewrite Z.div_div by (try lia; apply pow10_pos). f_equal. rewrite Nat2Z.inj_add, Z.pow_add_r by lia. change (10 ^ Z.of_nat 2) with 100. lia. }
  rewrite E. do 3 f_equal. rewrite take_app_le by (rewrite length_take; lia). rewrite take_take, Nat.min_l by lia. f_equal.
  rewrite drop_app_length' by (rewrite length_take; lia). rewrite <- app_assoc. do 2 f_equal.
  apply dec_pad_mod. change (10 ^ Z.of_nat 2) with 100. by rewrite Z.mod_mod by lia.
Qed.

Lemma switch_arm_ok d v : has_digits d v -> 100 <= v < 10 ^ 8 -> (2 * switch_arm v + 1 <= d <= 2 * switch_arm v + 2)%nat /\ (1 <= switch_arm v <= 3)%nat.
Proof.
  intros Hd Hv. assert (Hb : forall k, (1 <= k <= 20)%nat -> 10 ^ (Z.of_nat k - 1) <= v < 10 ^ Z.of_nat k -> k = d).
  { intros k Hk Hkv. by apply (has_digits_unique _ _ v). }
  unfold switch_arm. rewrite if_false by lia.
  destruct (Z.leb_spec 1000000 v); [|destruct (Z.leb_spec 10000 v); [|rewrite if_true by lia]].
  - destruct (Z.ltb_spec v 10000000); [rewrite <- (Hb 7%nat) by (try lia; by split)|rewrite <- (Hb 8%nat) by (try lia; by split)]; lia.
  - destruct (Z.ltb_spec v 100000); [rewrite <- (Hb 5%nat) by (try lia; by split)|rewrite <- (Hb 6%nat) by (try lia; by split)]; lia.
  - destruct (Z.ltb_spec v 1000); [rewrite <- (Hb 3%nat) by (try lia; by split)|rewrite <- (Hb 4%nat) by (try lia; by split)]; lia.
Qed.

Lemma write_pairs_ok buf d v : has_digits d v -> 100 <= v < 10 ^ 8 -> length buf = d -> write_pairs buf v = Ok (dec_pad d v).
Proof.
  intros Hd Hv Hl. unfold write_pairs. destruct (switch_arm_ok d v Hd Hv) as [Hk Hk3]. set (k := switch_arm v) in *. clearbody k.
  rewrite pair_steps_ok by lia. cbn [res_bind]. rewrite drop_all, app_nil_r.
  destruct Hd as [_ Hd]. pose proof (pow10_pos (2 * k)) as Hp.
  assert (Hw : 10 ^ (Z.of_nat d - 1 - Z.of_nat (2 * k)) <= v / 10 ^ Z.of_nat (2 * k) < 10 ^ (Z.of_nat d - Z.of_nat (2 * k))).
  { split.
    - apply Z.div_le_lower_bound; [done|]. rewrite <- Z.pow_add_r by lia. replace (Z.of_nat (2 * k) + _) with (Z.of_nat d - 1) by lia. lia.
    - apply Z.div_lt_upper_bound; [done|]. rewrite <- Z.pow_add_r by lia. replace (Z.of_nat (2 * k) + _) with (Z.of_nat d) by lia. lia. }
  set (w := v / 10 ^ Z.of_nat (2 * k)) in *.
  assert (Hcase : (d = 2 * k + 1 \/ d = 2 * k + 2)%nat) by lia. destruct Hcase as [E|E]; rewrite Hl, E in *.
  - replace (2 * k + 1 - 2 * k)%nat with 1%nat by lia. replace (Z.of_nat (2 * k + 1) - Z.of_nat (2 * k)) with 1 in Hw by lia.
    change (10 ^ 1) with 10 in Hw. rewrite (proj2 (Z.leb_gt 10 w)) by lia. cbn [Nat.ltb Nat.leb Nat.sub].
    destruct buf as [|b buf]; [simpl in Hl; lia|]. cbn [take app]. f_equal.
    replace (Z.of_nat (2 * k + 1) - 1 - Z.of_nat (2 * k)) with 0 in Hw by lia. change (10 ^ 0) with 1 in Hw.
    rewrite (Nat.add_comm (2 * k) 1), dec_pad_split. fold w. rewrite dec_pad_one by lia. rewrite Z.mod_small by lia. done.
  - replace (2 * k + 2 - 2 * k)%nat with 2%nat by lia.
    replace (Z.of_nat (2 * k + 2) - 1 - Z.of_nat (2 * k)) with 1 in Hw by lia. replace (Z.of_nat (2 * k + 2) - Z.of_nat (2 * k)) with 2 in Hw by lia.
    change (10 ^ 1) with 10 in Hw. change (10 ^ 2) with 100 in Hw. rewrite (proj2 (Z.leb_le 10 w)) by lia. cbn [Nat.ltb Nat.leb Nat.sub].
    rewrite store_pair_ok by (rewrite ?length_app, ?length_take, ?dec_pad_length; lia). rewrite take_0. cbn [app Nat.add].
    rewrite drop_app_length' by (rewrite length_take; lia). rewrite (Nat.add_comm (2 * k) 2), dec_pad_split. done.
Qed.

Lemma small_digit v : 0 <= v < 10 -> Ok [("0"%ch + v) mod 256] = (Ok (FormatUint v) : res unit bytes).
Proof. intros H. rewrite Z.mod_small by lia. unfold FormatUint. cbn [udec_loop]. by rewrite if_true by lia. Qed.

Lemma pair_digits v : 10 <= v < 100 ->
  (let* a := idx encodeDigitPairs (Z.to_nat (v * 2)) in
   let* b := idx encodeDigitPairs (Z.to_nat (v * 2 + 1)) in Ok [a; b]) = (Ok (FormatUint v) : res unit bytes).
Proof.
  intros H. rewrite (FormatUint_pad 2) by (split; [lia|exact H]).
  change (dec_pad 2 v) with ["0"%ch + v / 10 mod 10; "0"%ch + v mod 10].
  pose proof (pair_at_ok v ltac:(lia)) as Hp. unfold pair_at in Hp. case_step_in Hp; [|done]. injection Hp as Hp.
  replace (Z.to_nat (v * 2 + 1)) with (Z.to_nat (v * 2) + 1)%nat by lia. set (k := Z.to_nat (v * 2)) in *.
  assert (Hl : forall j c, ["0"%ch + v / 10 mod 10; "0"%ch + v mod 10] !! j = Some c -> idx encodeDigitPairs (k + j) = Ok c).
  { intros j c Hj. rewrite <- Hp in Hj. unfold slice in Hj. apply lookup_take_Some in Hj as [Hj _]. rewrite lookup_drop in Hj.
    unfold idx. by rewrite Hj. }
  rewrite <- (Nat.add_0_r k) at 1. rewrite (Hl 0%nat _ eq_refl). cbn [res_bind]. by rewrite (Hl 1%nat _ eq_refl).
Qed.

(** Two parts of a value with the leading digits known. *)
Lemma digits_split d m v : has_digits d v -> (m < d)%nat -> FormatUint v = dec_pad (d - m) (v / 10 ^ Z.of_nat m) ++ dec_pad m v.
Proof. intros Hd Hm. rewrite (FormatUint_pad d) by done. rewrite <- dec_pad_split. f_equal. lia. Qed.

Lemma low_part m v : dec_pad m (v - v / 10 ^ Z.of_nat m * 10 ^ Z.of_nat m) = dec_pad m v.
Proof.
  apply dec_pad_mod. pose proof (pow10_pos m). replace (v - v / 10 ^ Z.of_nat m * 10 ^ Z.of_nat m) with (v mod 10 ^ Z.of_nat m) by (rewrite Z.mod_eq by lia; lia).
  by rewrite Z.mod_mod by lia.
Qed.

Lemma Uint9_ok spare v : 10 ^ 8 <= v < 10 ^ 9 -> appendCompactUint9 spare v = Ok (FormatUint v).
Proof.
  intros H. unfold appendCompactUint9. destruct (Nat.ltb_spec (length spare) 9); [done|]. cbv zeta.
  change (10 ^ 8) with 100000000 in H. change (10 ^ 9) with 1000000000 in H.
  rewrite Store8Digits_ok; [|rewrite length_insert, length_take; lia|div_lia].
  rewrite (digits_split 9 8 v) by (split || lia; (lia || split; lia)).
  change (10 ^ Z.of_nat 8) with 100000000. rewrite dec_pad_one by div_lia.
  pose proof (low_part 8 v) as Hlow. change (10 ^ Z.of_nat 8) with 100000000 in Hlow. rewrite Hlow.
  destruct spare as [|b spare]; [simpl in *; lia|]. rewrite firstn_cons. change (<[0%nat:=?x]> (b :: ?l)) with (x :: l).
  rewrite Z.mod_small by div_lia. cbn [take app Nat.add]. rewrite drop_ge; [by rewrite app_nil_r|]. cbn [length]. rewrite length_take. lia.
Qed.

Lemma Uint10_ok spare v : 10 ^ 9 <= v < 10 ^ 10 -> appendCompactUint10 spare v = Ok (FormatUint v).
Proof.
  intros H. unfold appendCompactUint10. destruct (Nat.ltb_spec (length spare) 10); [done|]. cbv zeta.
  rewrite (digits_split 10 8 v); [|split; [lia|exact H]|lia]. pose proof (low_part 8 v) as Hlow.
  change (10 ^ Z.of_nat 8) with 100000000 in *. change (10 ^ 10) with 10000000000 in H. change (10 ^ 9) with 1000000000 in H.
  rewrite store_pair_ok by (rewrite ?length_take; first [lia|div_lia]). cbn [res_bind]. rewrite take_0. cbn [app Nat.add Nat.sub].
  rewrite Store8Digits_ok; [|rewrite length_app, dec_pad_length, length_drop, length_take; lia|div_lia].
  rewrite Hlow, take_app_length' by (by rewrite dec_pad_length).
  rewrite (drop_ge (dec_pad 2 _ ++ _)) by (rewrite length_app, dec_pad_length, length_drop, length_take; lia). by rewrite app_nil_r.
Qed.

(** Short values do not recurse. *)
Lemma uint_body_small rec spare v : 0 <= v < 10 ^ 8 -> appendCompactUint_body rec spare v = Ok (FormatUint v).
Proof.
  intros H. unfold appendCompactUint_body.
  destruct (Z.ltb_spec v 10); [by apply small_digit; lia|]. destruct (Z.ltb_spec v 100); [by apply pair_digits; lia|].
  rewrite !(proj2 (Z.leb_gt _ _)) by lia.
  destruct (digit_count_ok v ltac:(lia)) as (d & -> & Hd). cbn [res_bind].
  destruct (Nat.ltb_spec (length spare) d) as [|Hroom]; [done|]. cbv zeta. rewrite (FormatUint_pad d) by done.
  destruct (Nat.eqb_spec d 8) as [->|Hd8].
  - rewrite Store8Digits_ok by (rewrite ?length_take; lia). rewrite take_0, drop_ge by (rewrite length_take; lia). by rewrite app_nil_r.
  - apply write_pairs_ok; [done|lia|]. rewrite length_take. lia.
Qed.

(** The digits of a value at the end of a block of sixteen. *)
Lemma block_digits d v : has_digits d v -> v < 10 ^ 16 ->
  (16 <? d)%nat = false /\ drop (16 - d) (dec_pad 16 v) = dec_pad d v.
Proof.
  intros [Hd [Hlo _]] H. assert (Hd16 : (d <= 16)%nat).
  { destruct (Nat.le_gt_cases d 16); [done|]. assert (10 ^ 16 <= 10 ^ (Z.of_nat d - 1)) by (apply Z.pow_le_mono_r; lia). lia. }
  split; [by apply Nat.ltb_ge|].
  replace (dec_pad 16 v) with (dec_pad (16 - d + d) v) by (f_equal; lia). rewrite dec_pad_split.
  by rewrite drop_app_length' by (by rewrite dec_pad_length).
Qed.

Section Large.
Context (rec : bytes -> Z -> res unit bytes).
Hypothesis Hrec : forall spare v, 0 <= v < 10 ^ 8 -> rec spare v = Ok (FormatUint v).

Lemma Large_ok spare v : 10 ^ 10 <= v < 2 ^ 64 -> appendCompactUintLarge rec spare v = Ok (FormatUint v).
Proof using Hrec.
  intros H. unfold appendCompactUintLarge. destruct (digit_count_ok v ltac:(lia)) as (d & -> & Hd). cbn [res_bind].
  destruct (Nat.ltb_spec (length spare) d) as [|Hroom]; [done|]. destruct (Z.ltb_spec v (10 ^ 16)) as [H16|H16].
  - rewrite Store16Digits_ok by (rewrite ?length_replicate; (done || lia)). cbn [res_bind].
    destruct (block_digits d v Hd H16) as [-> ->]. by rewrite (FormatUint_pad d).
  - assert (Hd17 : (16 < d)%nat).
    { destruct Hd as [_ [_ Hd]]. destruct (Nat.le_gt_cases d 16); [|lia]. assert (10 ^ Z.of_nat d <= 10 ^ 16) by (apply Z.pow_le_mono_r; lia). lia. }
    rewrite (digits_split d 16 v Hd Hd17). pose proof (low_part 16 v) as Hlow. change (10 ^ Z.of_nat 16) with (10 ^ 16) in *.
    assert (Hhi : 1 <= v / 10 ^ 16 < 10000) by (split; [apply Z.div_le_lower_bound; lia|apply Z.div_lt_upper_bound; lia]).
    rewrite Hrec by lia. cbn [res_bind].
    assert (Hh : has_digits (d - 16) (v / 10 ^ 16)).
    { destruct Hd as [Hr Hd]. split; [lia|]. split.
  - apply Z.div_le_lower_bound; [lia|]. rewrite <- Z.pow_add_r by lia. replace (16 + _) with (Z.of_nat d - 1) by lia. lia.
  - apply Z.div_lt_upper_bound; [lia|]. rewrite <- Z.pow_add_r by lia. replace (16 + _) with (Z.of_nat d) by lia. lia. }
    rewrite (FormatUint_pad _ _ Hh), dec_pad_length, length_drop. rewrite (proj2 (Nat.ltb_ge _ _)) by lia.
    rewrite Store16Digits_ok; [by cbn [res_bind]; rewrite Hlow|rewrite length_take, length_drop; lia|].
    rewrite <- Z.mul_comm, <- Z.mod_eq by lia. apply Z.mod_pos_bound. lia.
Qed.

Lemma uint_body_ok spare v : 0 <= v < 2 ^ 64 -> appendCompactUint_body rec spare v = Ok (FormatUint v).
Proof using Hrec.
  intros H. destruct (Z.ltb_spec v (10 ^ 8)); [apply uint_body_small; lia|]. unfold appendCompactUint_body.
  rewrite !(proj2 (Z.ltb_ge _ _)) by lia. destruct (Z.leb_spec (10 ^ 10) v); [by apply Large_ok; lia|].
  destruct (Z.leb_spec (10 ^ 9) v); [by apply Uint10_ok; lia|]. rewrite if_true by lia. by apply Uint9_ok; lia.
Qed.
End Large.

Lemma appendCompactUint_ok spare v : 0 <= v < 2 ^ 64 -> appendCompactUint spare v = Ok (FormatUint v).
Proof.
  intros H. unfold appendCompactUint. cbn [uint_fuel]. apply uint_body_ok; [|done]. intros; by apply uint_body_small.
Qed.

Definition FormatInt (v : Z) : bytes := if v <? 0 then "-"%ch :: FormatUint (- v) else FormatUint v.

Lemma negated v : - 2 ^ 63 <= v < 0 -> w64 (int64 (- v)) = - v.
Proof.
  intros H. unfold w64, int64. destruct (decide (v = - 2 ^ 63)) as [->|]; [done|].
  rewrite (Z.mod_small (- v + 2 ^ 63)) by lia. rewrite Z.mod_small by lia. lia.
Qed.

Lemma appendCompactInt_ok spare v : - 2 ^ 63 <= v < 2 ^ 63 -> appendCompactInt spare v = Ok (FormatInt v).
Proof.
  intros H. unfold appendCompactInt, FormatInt. destruct (Z.ltb_spec v 0).
  - rewrite negated, appendCompactUint_ok by lia. done.
  - unfold w64. rewrite Z.mod_small by lia. apply appendCompactUint_ok. lia.
Qed.

Lemma appendCommaCompactUint_ok spare v : 0 <= v < 2 ^ 64 -> appendCommaCompactUint spare v = Ok (","%ch :: FormatUint v).
Proof.
  intros H. unfold appendCommaCompactUint. destruct (Z.ltb_spec v 10).
  { pose proof (small_digit v ltac:(lia)) as E. injection E as E. by rewrite <- E. }
  destruct (Z.ltb_spec v 100).
  { pose proof (pair_digits v ltac:(lia)) as E. destruct (idx _ _); cbn [res_bind] in *; try done.
    destruct (idx _ _); cbn [res_bind] in *; try done. injection E as E. by rewrite <- E. }
  destruct (digit_count_ok v ltac:(lia)) as (d & -> & Hd). cbn [res_bind].
  destruct (Z.leb_spec (10 ^ 16) v) as [H16|H16]; cbn [orb]; [by rewrite appendCompactUint_ok|].
  destruct (Nat.ltb_spec (length spare) (d + 1)); [by rewrite appendCompactUint_ok|].
  rewrite Store16Digits_ok by (rewrite ?length_replicate; (done || lia)). cbn [res_bind].
  destruct (block_digits d v Hd H16) as [-> ->]. by rewrite (FormatUint_pad d).
Qed.

Lemma appendCommaCompactInt_ok spare v : - 2 ^ 63 <= v < 2 ^ 63 -> appendCommaCompactInt spare v = Ok (","%ch :: FormatInt v).
Proof.
  intros H. unfold appendCommaCompactInt, FormatInt. destruct (Z.ltb_spec v 0).
  - rewrite negated, appendCompactUint_ok by lia. done.
  - unfold w64. rewrite Z.mod_small by lia. apply appendCommaCompactUint_ok. lia.
Qed.

(** ** What is written is a JSON number *)

Lemma FormatUint_digits v : 0 <= v < 2 ^ 64 -> int_digits (FormatUint v) /\ dval (FormatUint v) = v /\ jint (FormatUint v).
Proof.
  intros H. destruct (decide (v = 0)) as [->|Hv].
  { split_and!; [|done|constructor]. split_and!; [by constructor|done|by left]. }
  destruct (digit_count_ok v ltac:(lia)) as (d & _ & Hd). rewrite (FormatUint_pad d) by done. destruct Hd as [Hd Hr].
  pose proof (dec_pad_digits d v) as Hdig. pose proof (dec_pad_length d v) as Hlen. pose proof (dec_pad_value d v ltac:(lia)) as Hval.
  destruct (dec_pad d v) as [|c ds]; [simpl in Hlen; lia|]. apply Forall_cons in Hdig as Hc. destruct Hc as [Hc Hds].
  assert (Hc0 : c <> "0"%ch).
  { intros ->. rewrite dval_cons in Hval. apply dval_bound in Hds. simpl in Hlen. replace (Z.of_nat d - 1) with (Z.of_nat (length ds)) in Hr by lia. lia. }
  split_and!; [|done|].
  - split_and!; [done..|]. right. by split.
  - constructor; [|done]. unfold IsDigit, isOneNine in *. lia.
Qed.

Lemma FormatInt_number v : - 2 ^ 63 <= v < 2 ^ 64 ->
  jnumber (FormatInt v) /\ plain_integer (FormatInt v) = true /\ int_value (FormatInt v) = v /\ is_negative (FormatInt v) = (v <? 0).
Proof.
  intros H. unfold FormatInt. destruct (Z.ltb_spec v 0).
  - destruct (FormatUint_digits (- v) ltac:(lia)) as ((Hd & _) & Hv & Hj). split_and!; [| |cbn [int_value]; rewrite Z.eqb_refl; lia|done].
    + rewrite <- (app_nil_r (FormatUint (- v))). apply (jnumber_intro ["-"%ch] _ [] []); [by right|done|constructor..].
    + by apply plain_digits in Hd.
  - destruct (FormatUint_digits v ltac:(lia)) as ((Hd & Hne & _) & Hv & Hj). split_and!.
    + rewrite <- (app_nil_r (FormatUint v)). apply (jnumber_intro [] _ [] []); [by left|done|constructor..].
    + by apply plain_digits.
    + destruct (FormatUint v) as [|c s]; [done|]. apply Forall_cons in Hd as [Hc _]. unfold IsDigit in Hc. cbn [int_value].
      by rewrite (proj2 (Z.eqb_neq c "-"%ch)) by lia.
    + destruct (FormatUint v) as [|c s]; [done|]. apply Forall_cons in Hd as [Hc _]. unfold IsDigit in Hc. cbn [is_negative].
      by rewrite (proj2 (Z.eqb_neq c "-"%ch)) by lia.
Qed.

(** ** Properties *)

(** C25: the integer formatters write, whatever the capacity of the destination, exactly the decimal digits of the value, with a minus sign or after a comma; the text is a JSON number, and reading it back gives the value, over the whole ranges of both 64-bit types. *)
Theorem integers_roundtrip spare v :
  (0 <= v < 2 ^ 64 ->
   appendCompactUint spare v = Ok (FormatUint v) /\ appendCommaCompactUint spare v = Ok (","%ch :: FormatUint v) /\
   jnumber (FormatUint v) /\ raw_Uint64 (FormatUint v) = Ok (v, true)) /\
  (- 2 ^ 63 <= v < 2 ^ 63 ->
   appendCompactInt spare v = Ok (FormatInt v) /\ appendCommaCompactInt spare v = Ok (","%ch :: FormatInt v) /\
   jnumber (FormatInt v) /\ raw_Int64 (FormatInt v) = Ok (v, true)).
Proof.
  split; intros H.
  - assert (E : FormatInt v = FormatUint v) by (unfold FormatInt; by rewrite if_false by lia).
    destruct (FormatInt_number v ltac:(lia)) as (Hj & Hp & Hv & Hneg). rewrite E in *.
    split_and!; [by apply appendCompactUint_ok|by apply appendCommaCompactUint_ok|done|].
    rewrite raw_Uint64_ok by (by apply jnumber_bytes). rewrite (proj2 (validNumber_jnumber _ (jnumber_bytes _ Hj)) Hj).
    unfold uint64_of. by rewrite Hp, Hv, Hneg, if_true by lia.
  - destruct (FormatInt_number v ltac:(lia)) as (Hj & Hp & Hv & _).
    split_and!; [by apply appendCompactInt_ok|by apply appendCommaCompactInt_ok|done|].
    destruct (raw_Int64_ok _ (jnumber_bytes _ Hj)) as (n & -> & Hn). rewrite (proj2 (validNumber_jnumber _ (jnumber_bytes _ Hj)) Hj) in *.
    unfold int64_of in *. rewrite Hp, Hv, if_true in * by lia. by rewrite Hn.
Qed.

Lemma integers_roundtrip_witness :
  (appendCompactUint (replicate 3 7) 12345678901234567890 = Ok (FormatUint 12345678901234567890) /\
   raw_Uint64 (FormatUint 12345678901234567890) = Ok (12345678901234567890, true)) /\
  raw_Int64 (FormatInt (- 2 ^ 63)) = Ok (- 2 ^ 63, true).
Proof.
  split.
  - destruct (proj1 (integers_roundtrip (replicate 3 7) 12345678901234567890) ltac:(lia)) as (H1 & _ & _ & H2). by split.
  - apply (proj2 (integers_roundtrip [] (- 2 ^ 63))). lia.
Defined.
