(* ===== verification/EncodePlan.v ===== *)
(** [typed_encode_plan.go] and the encoder's half of [typed_compile.go]: the field
    program a record is compiled to, without custom marshalers, interfaces, floats,
    byte slices, inline maps and quoted fields.  The records held by value are
    spliced into the program of the record around them, the fields paired, and the
    short names packed in blocks. *)

From S2P Require Import Prelude Words Utf8 Scanner Lex Grammar StringRef Errors Numbers Reader Validator FastValid ParserString Decode Digits EncodeString EncodeInt OpenAddr FieldFold FieldTable TypedPlan.
From stdpp Require Import gmap sorting.
Open Scope Z_scope.

(** ** Programs *)

(** The operations of a field; [OpPointer] is left to the generic dispatch. *)
Inductive typedOp : Type :=
  | typedOpBool | typedOpString | typedOpNumber | typedOpInt (bits : Z) | typedOpUint (bits : Z)
  | typedOpStruct | typedOpSlice | typedOpArray | typedOpPointer | typedOpMap.

#[export] Instance typedOp_eq_dec : EqDecision typedOp.
Proof. solve_decision. Defined.

Definition op_of (nd : typedNode) : typedOp :=
  match tn_kind nd with
  | typedBool => typedOpBool
  | typedString => typedOpString
  | typedNumber => typedOpNumber
  | typedInt => typedOpInt (tn_bits nd)
  | typedUint => typedOpUint (tn_bits nd)
  | typedStruct => typedOpStruct
  | typedSlice => typedOpSlice
  | typedArray => typedOpArray
  | typedPointer => typedOpPointer
  | typedMap => typedOpMap
  end.

Inductive typedEncPairOp : Type :=
  | typedEncPairFallback | typedEncPairStringString | typedEncPairSliceInt64 | typedEncPairMapMap
  | typedEncPairInt64Bool | typedEncPairInt64Int64 | typedEncPairStringInt64 | typedEncPairInt64String.

(** [ef_offset] is the path of slots through records held by value; [ef_op] is
    [None], [typedOpInvalid], where the node was not complete when the field was
    compiled: the node of a recursive type around it. *)
Record typedEncField : Type := mkEncField {
  ef_name : bytes;
  ef_node : nat;
  ef_offset : list nat;
  ef_hop : option nat;
  ef_op : option typedOp;
  ef_pairOp : typedEncPairOp;
  ef_nameLen : nat;
  ef_nameBlock : nat;
  ef_omitEmpty : bool;
  ef_omitZero : bool
  }.

Record typedEncodeProgram : Type := mkProgram {
  encFields : list typedEncField;
  encNameData : bytes;
  encClose : bytes;
  encPaths : list bytes;
  encFusedExtra : Z
  }.

(** A field as the field resolution gives it. *)
Record resolvedEnc : Type := mkResolvedEnc {
  er_name : bytes;
  er_slot : nat;
  er_node : nat;
  er_hop : option nat;
  er_omitEmpty : bool;
  er_omitZero : bool
  }.

(** The encoder's part of a record's node; [es_hops] has the slots of the embedded
    pointers on the way to a promoted field. *)
Record encStruct : Type := mkEncStruct {
  es_resolved : list resolvedEnc;
  es_hops : list (list nat);
  encSimple : bool;
  es_program : typedEncodeProgram
  }.

Abbreviation programs := (list (option encStruct)).

Definition set_name (f : typedEncField) (name : bytes) : typedEncField :=
  mkEncField name (ef_node f) (ef_offset f) (ef_hop f) (ef_op f) (ef_pairOp f) (ef_nameLen f) (ef_nameBlock f) (ef_omitEmpty f) (ef_omitZero f).
Definition set_pairOp (f : typedEncField) (op : typedEncPairOp) : typedEncField :=
  mkEncField (ef_name f) (ef_node f) (ef_offset f) (ef_hop f) (ef_op f) op (ef_nameLen f) (ef_nameBlock f) (ef_omitEmpty f) (ef_omitZero f).
Definition set_block (f : typedEncField) (len block : nat) : typedEncField :=
  mkEncField (ef_name f) (ef_node f) (ef_offset f) (ef_hop f) (ef_op f) (ef_pairOp f) len block (ef_omitEmpty f) (ef_omitZero f).

Section Compile.
Context (escapeHTML : bool) (p : plan) (ep : programs).
(** The nodes complete when the record is compiled. *)
Context (complete : nat -> bool).

Definition encOp_of (n : nat) : option typedOp := if complete n then option_map op_of (p !! n) else None.

Definition program_of (n : nat) : option encStruct := match ep !! n with Some (Some s) => Some s | _ => None end.

(** *** The fields, one by one *)

Definition compile_enc_field (r : resolvedEnc) : res unit (typedEncField * bytes) :=
  let* quoted := appendEncodedJSONString [] [] false (er_name r) escapeHTML in
  Ok (mkEncField (","%ch :: quoted ++ [":"%ch]) (er_node r) [er_slot r] (er_hop r) (encOp_of (er_node r))
  typedEncPairFallback 0 0 (er_omitEmpty r) (er_omitZero r), er_name r).

Fixpoint compile_enc_fields (rs : list resolvedEnc) : res unit (list (typedEncField * bytes)) :=
  match rs with
  | [] => Ok []
  | r :: rs => let* f := compile_enc_field r in let* fs := compile_enc_fields rs in Ok (f :: fs)
  end.

(** *** Fusion of records held by value *)

Definition scalar_op (op : option typedOp) : bool :=
  match op with
  | Some (typedOpBool | typedOpString | typedOpNumber | typedOpInt _ | typedOpUint _) => true
  | _ => false
  end.

Definition fuseEligible (f : typedEncField) : option typedEncodeProgram :=
  match ef_op f, program_of (ef_node f) with
  | Some typedOpStruct, Some s =>
    if encSimple s && forallb (fun child => scalar_op (ef_op child)) (encFields (es_program s)) then Some (es_program s) else None
  | _, _ => None
  end.

Definition splice (f : typedEncField) (path pending : bytes) (j : nat) (child : typedEncField * bytes) : typedEncField * bytes :=
  let (c, childPath) := child in
  let name := if (j =? 0)%nat then pending ++ ef_name f ++ "{"%ch :: ef_name c else ef_name c in
  (mkEncField name (ef_node c) (ef_offset f ++ ef_offset c) (ef_hop c) (ef_op c) typedEncPairFallback 0 0 (ef_omitEmpty c) (ef_omitZero c),
 path ++ "."%ch :: childPath).

(** The loop over the fields: the fused fields, what is pending, and the levels. *)
Fixpoint fuse_loop (fields : list (typedEncField * bytes)) (pending : bytes) (extra : Z) : list (typedEncField * bytes) * bytes * Z :=
  match fields with
  | [] => ([], pending, extra)
  | (f, path) :: fields =>
    match fuseEligible f with
    | None =>
      let '(out, close, extra) := fuse_loop fields [] extra in
      ((set_name f (pending ++ ef_name f), path) :: out, close, extra)
    | Some child =>
      let extra := Z.max extra (encFusedExtra child + 1) in
      match encFields child with
      | [] => fuse_loop fields (pending ++ ef_name f ++ "{"%ch :: encClose child) extra
      | _ =>
        let '(out, close, extra) := fuse_loop fields (encClose child) extra in
        (imap (splice f path pending) (zip (encFields child) (encPaths child)) ++ out, close, extra)
      end
    end
  end.

Definition fuseSimpleStructFields (fields : list (typedEncField * bytes)) : list (typedEncField * bytes) * bytes * Z :=
  if existsb (fun f => match fuseEligible f.1 with Some _ => true | None => false end) fields then
  let '(out, pending, extra) := fuse_loop fields [] 0 in (out, pending ++ ["}"%ch], extra)
  else (fields, ["}"%ch], 0).

(** *** Pairs and packed names *)

Definition classifyTypedEncPair (first second : option typedOp) : typedEncPairOp :=
  match first, second with
  | Some typedOpString, Some typedOpString => typedEncPairStringString
  | Some typedOpSlice, Some (typedOpInt 64) => typedEncPairSliceInt64
  | Some typedOpMap, Some typedOpMap => typedEncPairMapMap
  | Some (typedOpInt 64), Some typedOpBool => typedEncPairInt64Bool
  | Some (typedOpInt 64), Some (typedOpInt 64) => typedEncPairInt64Int64
  | Some typedOpString, Some (typedOpInt 64) => typedEncPairStringInt64
  | Some (typedOpInt 64), Some typedOpString => typedEncPairInt64String
  | _, _ => typedEncPairFallback
  end.

Fixpoint classify_pairs (fields : list typedEncField) : list typedEncField :=
  match fields with
  | f :: g :: fields => set_pairOp f (classifyTypedEncPair (ef_op f) (ef_op g)) :: g :: classify_pairs fields
  | _ => fields
  end.

Definition strip_comma (fields : list typedEncField) : list typedEncField :=
  match fields with f :: fields => set_name f (drop 1 (ef_name f)) :: fields | [] => [] end.

Fixpoint minimumTypedEncodedBytes (fuel : nat) (n : nat) (op : option typedOp) : Z :=
  match fuel with
  | O => 1
  | S fuel =>
    match op, p !! n with
    | Some typedOpBool, _ => 4
    | Some (typedOpString | typedOpStruct | typedOpSlice | typedOpMap), _ => 2
    | Some typedOpArray, Some nd =>
      if (tn_length nd =? 0)%nat then 2
      else
      let element := minimumTypedEncodedBytes fuel (tn_elem nd) (encOp_of (tn_elem nd)) in
      if (2 ^ 63 - 1 - 1) / Z.of_nat (tn_length nd) <=? element then 1 else 1 + Z.of_nat (tn_length nd) * (element + 1)
    | _, _ => 1
    end
  end.

Definition blockBytes : Z := 16.

(** The backward loop: which names may be stored as a whole block. *)
Definition name_lengths (fields : list typedEncField) : list typedEncField :=
  (foldr (fun field (acc : list typedEncField * Z) =>
  let (out, tailMin) := acc in
  let valueMin := minimumTypedEncodedBytes (S (length p)) (ef_node field) (ef_op field) in
  let tailMin := if blockBytes - tailMin <=? valueMin then blockBytes else tailMin + valueMin in
  let n := Z.of_nat (length (ef_name field)) in
  let field := if (n <=? blockBytes) && (blockBytes - n <=? tailMin) then set_block field (length (ef_name field)) (ef_nameBlock field) else field in
  (field :: out, if blockBytes - tailMin <=? n then blockBytes else tailMin + n)) ([], 1) fields).1.

(** The forward loop: the blocks themselves. *)
Fixpoint name_blocks (fields : list typedEncField) (data : bytes) : list typedEncField * bytes :=
  match fields with
  | [] => ([], data)
  | field :: fields =>
    let block := (length data / 16)%nat in
    let '(field, data) :=
    if negb (ef_nameLen field =? 0)%nat && (Z.of_nat block <=? 65535)
    then (set_block field (ef_nameLen field) block, data ++ take 16 (ef_name field ++ replicate 16 0))
    else (set_block field 0 (ef_nameBlock field), data) in
    let (out, data) := name_blocks fields data in (field :: out, data)
  end.

(** The encoder's part of [compileStructural]. *)
Definition compile_struct (rs : list resolvedEnc) (hops : list (list nat)) : res unit encStruct :=
  let* fields := compile_enc_fields rs in
  let simple := forallb (fun r => match er_hop r with Some _ => false | None => negb (er_omitEmpty r || er_omitZero r) end) rs in
  if simple then
  let '(fused, close, extra) := fuseSimpleStructFields fields in
  let named := name_lengths (strip_comma (classify_pairs (map fst fused))) in
  let (packed, data) := name_blocks named [] in
  Ok (mkEncStruct rs hops true (mkProgram packed data close (map snd fused) extra))
  else Ok (mkEncStruct rs hops false (mkProgram (map fst fields) [] [] (map snd fields) 0)).
End Compile.
