(* ===== verification/TypedEncode.v ===== *)
(** [encoder.go], [encoder_execute.go], [encoder_execute_record.go],
    [encoder_execute_record_specialized.go], [encoder_execute_sequence.go] and
    [encoder_execute_value.go]: the encoder that runs the compiled programs over a
    value, without custom marshalers, interfaces, floats, byte slices, inline maps
    and quoted fields.  The destination [e.dst] is threaded; the depth and the
    pointer run, which every path restores, are arguments, and so are the bytes the
    spare capacity holds behind each destination. *)

From S2P Require Import Prelude Words Utf8 Scanner Lex Grammar StringRef Errors Numbers Reader Validator FastValid ParserString Decode Digits EncodeString EncodeInt OpenAddr FieldFold FieldTable TypedPlan EncodePlan.
From stdpp Require Import gmap sorting.
Open Scope Z_scope.

Abbreviation enc := (res go_error bytes).

Definition encode_error {A} (reason : string) : res go_error A := Err (EEncode (mkEncodeError [] reason)).
Definition too_deep : string := "maximum nesting depth exceeded".

(** A call with no error of its own. *)
Definition plain_call {A} (r : res unit A) : res go_error A :=
  match r with Ok a => Ok a | NoFuel => NoFuel | _ => Panic end.

(** ** Reading the source *)

Definition as_bool (v : gval) : res go_error bool := match v with VBool b => Ok b | _ => Panic end.
Definition as_string (v : gval) : res go_error bytes := match v with VString s => Ok s | _ => Panic end.
Definition as_int (v : gval) : res go_error Z := match v with VInt z => Ok z | _ => Panic end.
Definition as_uint (v : gval) : res go_error Z := match v with VUint z => Ok z | _ => Panic end.

(** The value at an offset: a path of slots. *)
Fixpoint at_path (path : list nat) (v : gval) : option gval :=
  match path with
  | [] => Some v
  | slot :: path => match v with VStruct slots => x ← slots !! slot; at_path path x | _ => None end
  end.
Definition source_at (path : list nat) (v : gval) : res go_error gval := match at_path path v with Some x => Ok x | None => Panic end.

(** [resolveResetHops]: [None] behind a nil embedded pointer. *)
Fixpoint resolveResetHops (hops : list nat) (v : gval) : res go_error (option gval) :=
  match hops with
  | [] => Ok (Some v)
  | hop :: hops =>
    let* q := source_at [hop] v in
    match q with
    | VPointer None => Ok None
    | VPointer (Some x) => resolveResetHops hops x
    | _ => Panic
    end
  end.

(** *** What is omitted *)

Definition typedValueIsEmpty (p : plan) (n : nat) (v : gval) : res go_error bool :=
  match p !! n with
  | None => Panic
  | Some nd =>
    match tn_kind nd, v with
    | typedBool, VBool b => Ok (negb b)
    | (typedString | typedNumber), VString s => Ok (length s =? 0)%nat
    | typedInt, VInt z => Ok (z =? 0)
    | typedUint, VUint z => Ok (z =? 0)
    | typedSlice, VSlice None => Ok true
    | typedSlice, VSlice (Some (l, _)) => Ok (length l =? 0)%nat
    | typedArray, _ => Ok (tn_length nd =? 0)%nat
    | typedPointer, VPointer q => Ok (match q with None => true | Some _ => false end)
    | typedMap, VMap None => Ok true
    | typedMap, VMap (Some m) => Ok (bool_decide (m = ∅))
    | typedStruct, _ => Ok false
    | _, _ => Panic
    end
  end.

(** [reflect.Value.IsZero] *)
Fixpoint IsZero (v : gval) : bool :=
  match v with
  | VBool b => negb b
  | VString s => (length s =? 0)%nat
  | VInt z | VUint z => z =? 0
  | VStruct l | VArray l => forallb IsZero l
  | VSlice s => match s with None => true | Some _ => false end
  | VPointer q => match q with None => true | Some _ => false end
  | VMap m => match m with None => true | Some _ => false end
  end.

(** The default of [typedValueIsZero]: its method cases are custom code. *)
Definition typedValueIsZero (v : gval) : bool := IsZero v.

Definition typedValueShouldOmit (p : plan) (f : typedEncField) (v : gval) : res go_error bool :=
  let* empty := if ef_omitEmpty f then typedValueIsEmpty p (ef_node f) v else Ok false in
  Ok (empty || ef_omitZero f && typedValueIsZero v).

(** ** Map entries *)

Fixpoint bytes_le (a b : bytes) : bool :=
  match a, b with
  | [], _ => true
  | _ :: _, [] => false
  | x :: a, y :: b => (x <? y) || (x =? y) && bytes_le a b
  end.

Definition entry_le {A} (a b : bytes * A) : Prop := bytes_le a.1 b.1 = true.
#[export] Instance entry_le_dec {A} (a b : bytes * A) : Decision (entry_le a b).
Proof. unfold entry_le. apply _. Defined.

(** ** The encoder *)

Section Encode.
Context (spare : bytes -> bytes) (Quote : bytes -> string) (escapeHTML : bool) (p : plan) (ep : programs).
(** The order a map is iterated in. *)
Context (iterate : gmap map_key gval -> list (map_key * gval)).

Definition put_string (s dst : bytes) : enc := plain_call (appendEncodedJSONString dst (spare dst) false s escapeHTML).
Definition put_int (z : Z) (dst : bytes) : enc := let* d := plain_call (appendCompactInt (spare dst) z) in Ok (dst ++ d).
Definition put_uint (z : Z) (dst : bytes) : enc := let* d := plain_call (appendCompactUint (spare dst) z) in Ok (dst ++ d).
Definition put_comma_int (z : Z) (dst : bytes) : enc := let* d := plain_call (appendCommaCompactInt (spare dst) z) in Ok (dst ++ d).
Definition put_comma_uint (z : Z) (dst : bytes) : enc := let* d := plain_call (appendCommaCompactUint (spare dst) z) in Ok (dst ++ d).
Definition put_bool (b : bool) (dst : bytes) : enc := Ok (dst ++ (if b then lit_true else lit_false)).

Definition encodeNumberLiteral (literal dst : bytes) : enc :=
  let literal := if (length literal =? 0)%nat then ["0"%ch] else literal in
  if negb (validNumber literal) then encode_error (String.append "invalid number literal " (Quote literal))
  else Ok (dst ++ literal).

(** The reads and appends the field dispatches and [encodeKind] share. *)
Definition encode_bool (v : gval) (dst : bytes) : enc := let* b := as_bool v in put_bool b dst.
Definition encode_string (v : gval) (dst : bytes) : enc := let* s := as_string v in put_string s dst.
Definition encode_number (v : gval) (dst : bytes) : enc := let* s := as_string v in encodeNumberLiteral s dst.
Definition encode_int (v : gval) (dst : bytes) : enc := let* z := as_int v in put_int z dst.
Definition encode_uint (v : gval) (dst : bytes) : enc := let* z := as_uint v in put_uint z dst.

(** The opening bracket written over the comma of the first element. *)
Definition overwrite (dst : bytes) (start : nat) (c : Z) : enc :=
  if (start <? length dst)%nat then Ok (<[start := c]> dst) else Panic.

Definition at_index (index : nat) (r : enc) : enc := map_err (fun e => prependEncodePathIndex e (Z.of_nat index)) r.

(** An error of the field at an index of [encPaths]. *)
Definition at_field (paths : list bytes) (i : nat) (r : enc) : enc :=
  match r with
  | Err e => match paths !! i with Some name => Err (prependEncodePathField e name) | None => Panic end
  | _ => r
  end.

Definition appendSimpleFieldName (packed : bytes) (f : typedEncField) (dst : bytes) : enc :=
  if (ef_nameLen f =? 0)%nat || (length (spare dst) <? 16)%nat then Ok (dst ++ ef_name f)
  else
    let block := slice packed (ef_nameBlock f * 16) (ef_nameBlock f * 16 + 16) in
    if (length block <? 16)%nat then Panic else Ok (dst ++ take (Nat.min (ef_nameLen f) 16) block).

Section Body.
(** The encoder of a node, at a depth and a pointer run. *)
Context (rec : Z -> Z -> nat -> gval -> bytes -> enc).
Context (depth ptrRun : Z).

(** *** Structs *)

(** At the depth of the fields. *)
Definition encodeStructFieldValue (f : typedEncField) (v : gval) (dst : bytes) : enc :=
  match ef_op f with
  | Some typedOpBool => encode_bool v dst
  | Some typedOpString => encode_string v dst
  | Some typedOpNumber => encode_number v dst
  | Some (typedOpInt _) => encode_int v dst
  | Some (typedOpUint _) => encode_uint v dst
  | _ => rec depth ptrRun (ef_node f) v dst
  end.

(** A pair of fields, the second of them behind its name. *)
Definition encode_pair (program : typedEncodeProgram) (i : nat) (first second : typedEncField) (x y : gval) (dst : bytes) : enc :=
  let name := appendSimpleFieldName (encNameData program) second in
  let fail := at_field (encPaths program) in
  match ef_pairOp first with
  | typedEncPairStringString => let* dst := encode_string x dst in let* dst := name dst in encode_string y dst
  | typedEncPairSliceInt64 =>
    let* dst := fail i (rec depth ptrRun (ef_node first) x dst) in let* dst := name dst in encode_int y dst
  | typedEncPairMapMap =>
    let* dst := fail i (rec depth ptrRun (ef_node first) x dst) in
    let* dst := name dst in fail (S i) (rec depth ptrRun (ef_node second) y dst)
  | typedEncPairInt64Bool => let* dst := encode_int x dst in let* dst := name dst in encode_bool y dst
  | typedEncPairInt64Int64 => let* dst := encode_int x dst in let* dst := name dst in encode_int y dst
  | typedEncPairStringInt64 => let* dst := encode_string x dst in let* dst := name dst in encode_int y dst
  | typedEncPairInt64String => let* dst := encode_int x dst in let* dst := name dst in encode_string y dst
  | typedEncPairFallback =>
    let* dst := fail i (encodeStructFieldValue first x dst) in
    let* dst := name dst in fail (S i) (encodeStructFieldValue second y dst)
  end.

Fixpoint encode_pairs (program : typedEncodeProgram) (i : nat) (fields : list typedEncField) (v : gval) (dst : bytes) : enc :=
  match fields with
  | first :: second :: fields =>
    let* dst := appendSimpleFieldName (encNameData program) first dst in
    let* x := source_at (ef_offset first) v in
    let* y := source_at (ef_offset second) v in
    let* dst := encode_pair program i first second x y dst in
    encode_pairs program (S (S i)) fields v dst
  | [field] =>
    let* dst := appendSimpleFieldName (encNameData program) field dst in
    let* x := source_at (ef_offset field) v in
    match ef_op field with
    | Some typedOpString => encode_string x dst
    | Some (typedOpInt 64) => encode_int x dst
    | Some typedOpBool => encode_bool x dst
    | _ => at_field (encPaths program) i (encodeStructFieldValue field x dst)
    end
  | [] => Ok dst
  end.

Definition encodeSimpleStructPairs (program : typedEncodeProgram) (v : gval) (dst : bytes) : enc :=
  let* dst := encode_pairs program 0 (encFields program) v dst in
  if (length (encClose program) =? 1)%nat then Ok (dst ++ ["}"%ch]) else Ok (dst ++ encClose program).

(** The loop of [encodeStruct] over the fields of a record that is not simple. *)
Fixpoint encode_members (s : encStruct) (i : nat) (fields : list typedEncField) (first : bool) (v : gval) (dst : bytes) : enc :=
  match fields with
  | [] => Ok (dst ++ ["}"%ch])
  | f :: fields =>
    let* base :=
    match ef_hop f with
    | None => Ok (Some v)
    | Some h => match es_hops s !! h with Some hops => resolveResetHops hops v | None => Panic end
    end in
    match base with
    | None => encode_members s (S i) fields first v dst
    | Some base =>
      let* x := source_at (ef_offset f) base in
      let* omit := if ef_omitEmpty f || ef_omitZero f then typedValueShouldOmit p f x else Ok false in
      if (omit : bool) then encode_members s (S i) fields first v dst
      else
        let dst := dst ++ (if first then drop 1 (ef_name f) else ef_name f) in
        let* dst := at_field (encPaths (es_program s)) i (encodeStructFieldValue f x dst) in
        encode_members s (S i) fields false v dst
    end
  end.
End Body.

Section Node.
Context (rec : Z -> Z -> nat -> gval -> bytes -> enc).
Context (depth ptrRun : Z).

Definition encodeStruct (n : nat) (v : gval) (dst : bytes) : enc :=
  match program_of ep n with
  | None => Panic
  | Some s =>
    if DefaultMaxDepth <=? depth + encFusedExtra (es_program s) then encode_error too_deep
    else
    let dst := dst ++ ["{"%ch] in
    if encSimple s then encodeSimpleStructPairs rec (depth + 1) ptrRun (es_program s) v dst
    else encode_members rec (depth + 1) ptrRun s 0 (encFields (es_program s)) true v dst
  end.

(** *** Slices and arrays *)

(** A loop with a comma before every element but the first. *)
Fixpoint encode_elements (one : gval -> bytes -> enc) (index : nat) (l : list gval) (dst : bytes) : enc :=
  match l with
  | [] => Ok (dst ++ ["]"%ch])
  | x :: l =>
    let dst := if (0 <? index)%nat then dst ++ [","%ch] else dst in
    let* dst := at_index index (one x dst) in
    encode_elements one (S index) l dst
  end.

(** A loop whose elements bring their comma. *)
Fixpoint comma_elements (one : gval -> bytes -> enc) (index : nat) (l : list gval) (dst : bytes) : enc :=
  match l with
  | [] => Ok dst
  | x :: l => let* dst := at_index index (one x dst) in comma_elements one (S index) l dst
  end.

Definition encode_int_slice (one : gval -> bytes -> enc) (l : list gval) (dst : bytes) : enc :=
  let start := length dst in
  let* dst := comma_elements one 0 l dst in
  let* dst := if (length l =? 0)%nat then Ok (dst ++ ["["%ch]) else overwrite dst start "["%ch in
  Ok (dst ++ ["]"%ch]).

Definition encodeStructSlice (e : nat) (l : list gval) (dst : bytes) : enc :=
  let depth := depth + 1 in
  let plain := encode_elements (rec depth ptrRun e) 0 l (dst ++ ["["%ch]) in
  match program_of ep e with
  | None => Panic
  | Some s =>
    if encSimple s && negb (length l =? 0)%nat then
    if DefaultMaxDepth <=? depth + encFusedExtra (es_program s) then encode_error too_deep
    else
      let start := length dst in
      let one x dst := encodeSimpleStructPairs rec (depth + 1) ptrRun (es_program s) x (dst ++ [","%ch; "{"%ch]) in
      let* dst := comma_elements one 0 l dst in
      let* dst := overwrite dst start "["%ch in
      Ok (dst ++ ["]"%ch])
    else plain
  end.

Definition encodeSlice (nd : typedNode) (v : gval) (dst : bytes) : enc :=
  match v, p !! tn_elem nd with
  | VSlice None, _ => Ok (dst ++ lit_null)
  | VSlice (Some (l, _)), Some e =>
    if DefaultMaxDepth <=? depth then encode_error too_deep
    else
    match op_of e with
    | typedOpStruct => encodeStructSlice (tn_elem nd) l dst
    | typedOpInt 64 => encode_int_slice (fun x dst => let* z := as_int x in put_comma_int z dst) l dst
    | typedOpUint 64 => encode_int_slice (fun x dst => let* z := as_uint x in put_comma_uint z dst) l dst
    | typedOpString => encode_elements encode_string 0 l (dst ++ ["["%ch])
    | _ => encode_elements (rec (depth + 1) ptrRun (tn_elem nd)) 0 l (dst ++ ["["%ch])
    end
  | _, _ => Panic
  end.

Definition encodeArray (nd : typedNode) (v : gval) (dst : bytes) : enc :=
  if DefaultMaxDepth <=? depth then encode_error too_deep
  else
    match v with
    | VArray l =>
      if (length l =? tn_length nd)%nat then encode_elements (rec (depth + 1) ptrRun (tn_elem nd)) 0 l (dst ++ ["["%ch]) else Panic
    | _ => Panic
    end.

(** *** Maps *)

(** The name of a key, appended to the arena of the numeric keys. *)
Definition key_entry (nd : typedNode) (k : map_key) (arena : bytes) : res go_error (bytes * bytes) :=
  match tn_mapKeyKind nd, k with
  | mapKeyString, inl s => Ok (s, arena)
  | mapKeyInt, inr z =>
    let* d := plain_call (if z <? 0 then appendCompactInt (spare arena) z else appendCompactUint (spare arena) (w64 z)) in
    Ok (d, arena ++ d)
  | mapKeyUint, inr z => let* d := plain_call (appendCompactUint (spare arena) z) in Ok (d, arena ++ d)
  | _, _ => Panic
  end.

Fixpoint map_entries (nd : typedNode) (l : list (map_key * gval)) (arena : bytes) : res go_error (list (bytes * gval)) :=
  match l with
  | [] => Ok []
  | (k, x) :: l =>
    let* (name, arena) := key_entry nd k arena in
    let* entries := map_entries nd l arena in
    Ok ((name, x) :: entries)
  end.

Fixpoint encode_entries (e : nat) (index : nat) (entries : list (bytes * gval)) (dst : bytes) : enc :=
  match entries with
  | [] => Ok (dst ++ ["}"%ch])
  | (name, x) :: entries =>
    let dst := if (0 <? index)%nat then dst ++ [","%ch] else dst in
    let* dst := put_string name dst in
    let dst := dst ++ [":"%ch] in
    let* dst := map_err (fun err => prependEncodePathField err name) (rec (depth + 1) ptrRun e x dst) in
    encode_entries e (S index) entries dst
  end.

Definition encodeMap (nd : typedNode) (v : gval) (dst : bytes) : enc :=
  match v with
  | VMap None => Ok (dst ++ lit_null)
  | VMap (Some m) =>
    if DefaultMaxDepth <=? depth then encode_error too_deep
    else if (length (iterate m) =? 0)%nat then Ok (dst ++ ["{"%ch; "}"%ch])
    else
    let* entries := map_entries nd (iterate m) [] in
    encode_entries (tn_elem nd) 0 (merge_sort entry_le entries) (dst ++ ["{"%ch])
  | _ => Panic
  end.

(** *** Values *)

Definition encodePointer (nd : typedNode) (v : gval) (dst : bytes) : enc :=
  match v with
  | VPointer None => Ok (dst ++ lit_null)
  | VPointer (Some x) =>
    if DefaultMaxDepth <=? ptrRun then encode_error too_deep else rec depth (ptrRun + 1) (tn_elem nd) x dst
  | _ => Panic
  end.

Definition encodeKind (n : nat) (v : gval) (dst : bytes) : enc :=
  match p !! n with
  | None => Panic
  | Some nd =>
    match tn_kind nd with
    | typedBool => encode_bool v dst
    | typedString => encode_string v dst
    | typedNumber => encode_number v dst
    | typedInt => encode_int v dst
    | typedUint => encode_uint v dst
    | typedStruct => encodeStruct n v dst
    | typedSlice => encodeSlice nd v dst
    | typedArray => encodeArray nd v dst
    | typedMap => encodeMap nd v dst
    | typedPointer => encodePointer nd v dst
    end
  end.
End Node.

Fixpoint encode (fuel : nat) (depth ptrRun : Z) (n : nat) (v : gval) (dst : bytes) : enc :=
  match fuel with
  | O => NoFuel
  | S fuel => encodeKind (encode fuel) depth ptrRun n v dst
  end.

(** Every level of the recursion goes one container deeper or follows one more
    pointer, and both have the same limit. *)
Definition encode_fuel : nat := S (S (Z.to_nat (2 * DefaultMaxDepth))).

Definition AppendJSON (dst : bytes) (root : nat) (v : gval) : enc := map_err finishEncodeError (encode encode_fuel 0 0 root v dst).
Definition Marshal (root : nat) (v : gval) : enc := AppendJSON [] root v.
End Encode.
