(* ===== verification/EncodeSpec.v ===== *)
(** What encoding means: the tree a value of a planned type is described by, field
    after field as they are resolved, with no fusion, no pairs and no packed names.
    [None] is a value that cannot be encoded: one that nests too deep, or with a
    number that is none.  [EncodeFuse.v] and [EncodeRun.v] show that the compiled
    programs write the text of this tree. *)

From S2P Require Import Prelude Words Utf8 Scanner Lex Grammar StringRef Errors Numbers Reader Validator FastValid ParserString Layout Decode Digits EncodeString EncodeInt OpenAddr FieldFold FieldTable TypedPlan EncodePlan TypedEncode.
From stdpp Require Import gmap sorting.
Open Scope Z_scope.

(** ** Compact text *)

Definition quoted (h : bool) (s : bytes) : bytes := DQUOTE :: encoded h s ++ [DQUOTE].

Definition arr_text (l : list bytes) : bytes := "["%ch :: intercalate [","%ch] l ++ ["]"%ch].
Definition obj_text (l : list bytes) : bytes := "{"%ch :: intercalate [","%ch] l ++ ["}"%ch].
Definition member_text (m : (bytes * bytes) * tree) : bytes := m.1.1 ++ ":"%ch :: raw_of m.2.

Definition arr (ts : list tree) : tree := TArr (arr_text (map raw_of ts)) ts.
Definition obj (ms : list ((bytes * bytes) * tree)) : tree := TObj (obj_text (map member_text ms)) ms.

(** ** The fields of a record *)

(** The value at a slot behind embedded pointers, [Some None] behind a nil one. *)
Fixpoint behind (hops : list nat) (slot : nat) (v : gval) : option (option gval) :=
  match v with
  | VStruct slots =>
    match hops with
    | [] => Some <$> slots !! slot
    | hop :: hops =>
      match slots !! hop with
      | Some (VPointer None) => Some None
      | Some (VPointer (Some x)) => behind hops slot x
      | _ => None
      end
    end
  | _ => None
  end.

Definition enc_hops (s : encStruct) (r : resolvedEnc) : option (list nat) :=
  match er_hop r with None => Some [] | Some h => es_hops s !! h end.

(** What [omitempty] omits. *)
Definition is_empty (v : gval) : bool :=
  match v with
  | VBool b => negb b
  | VString s => (length s =? 0)%nat
  | VInt z | VUint z => z =? 0
  | VStruct _ => false
  | VSlice None | VPointer None | VMap None => true
  | VSlice (Some (l, _)) | VArray l => (length l =? 0)%nat
  | VPointer (Some _) => false
  | VMap (Some m) => bool_decide (m = ∅)
  end.

Definition omitted (r : resolvedEnc) (v : gval) : bool := er_omitEmpty r && is_empty v || er_omitZero r && IsZero v.

Section Describe.
Context (escapeHTML : bool) (p : plan) (ep : programs).

Definition name_of (s : bytes) : bytes * bytes := (quoted escapeHTML s, sanitized s).

(** The value of a field, [Some None] where the field is omitted. *)
Definition present (s : encStruct) (v : gval) (r : resolvedEnc) : option (option gval) :=
  hops ← enc_hops s r;
  x ← behind hops (er_slot r) v;
  Some (match x with Some x => if omitted r x then None else Some x | None => None end).

(** The entries of a map, by the bytes of their names. *)
Definition key_name (nd : typedNode) (k : map_key) : option bytes :=
  match tn_mapKeyKind nd, k with
  | mapKeyString, inl s => Some s
  | mapKeyInt, inr z => Some (FormatInt z)
  | mapKeyUint, inr z => Some (FormatUint z)
  | _, _ => None
  end.

Definition sorted_entries (nd : typedNode) (m : gmap map_key gval) : option (list (bytes * gval)) :=
  merge_sort entry_le <$> mapM (fun e => (fun name => (name, e.2)) <$> key_name nd e.1) (map_to_list m).

Section Body.
(** The descriptions of the values one container down, and one pointer further. *)
Context (down further : nat -> gval -> option tree).

Definition describe_field (s : encStruct) (v : gval) (r : resolvedEnc) : option (list ((bytes * bytes) * tree)) :=
  x ← present s v r;
  match x with
  | None => Some []
  | Some x => t ← down (er_node r) x; Some [(name_of (er_name r), t)]
  end.

Definition describe_struct (n : nat) (v : gval) : option tree :=
  s ← program_of ep n;
  ms ← mapM (describe_field s v) (es_resolved s);
  Some (obj (concat ms)).

Definition describe_scalar (nd : typedNode) (v : gval) : option tree :=
  match tn_kind nd, v with
  | typedBool, VBool b => Some (TBool b)
  | typedString, VString s => Some (TStr (quoted escapeHTML s) (sanitized s))
  | typedNumber, VString s =>
    let literal := if (length s =? 0)%nat then ["0"%ch] else s in
    if validNumber literal then Some (TNum literal) else None
  | typedInt, VInt z => Some (TNum (FormatInt z))
  | typedUint, VUint z => Some (TNum (FormatUint z))
  | _, _ => None
  end.

Definition describe_body (shallow near : bool) (n : nat) (v : gval) : option tree :=
  nd ← p !! n;
  match tn_kind nd, v with
  | typedStruct, _ => if shallow then describe_struct n v else None
  | typedSlice, VSlice None => Some TNull
  | typedSlice, VSlice (Some (l, _)) | typedArray, VArray l =>
    if shallow then arr <$> mapM (down (tn_elem nd)) l else None
  | typedMap, VMap None => Some TNull
  | typedMap, VMap (Some m) =>
    if shallow then
      entries ← sorted_entries nd m;
      obj <$> mapM (fun e => t ← down (tn_elem nd) e.2; Some (name_of e.1, t)) entries
    else None
  | typedPointer, VPointer None => Some TNull
  | typedPointer, VPointer (Some x) => if near then further (tn_elem nd) x else None
  | _, _ => describe_scalar nd v
  end.
End Body.

(** At a depth of containers and a run of pointers, below both limits. *)
Fixpoint describe (fuel : nat) (depth run : Z) (n : nat) (v : gval) : option tree :=
  match fuel with
  | O => None
  | S fuel =>
    describe_body (describe fuel (depth + 1) run) (describe fuel depth (run + 1)) (depth <? DefaultMaxDepth) (run <? DefaultMaxDepth) n v
  end.
End Describe.
