(* ===== verification/EncodeFuse.v ===== *)
(** What the compiled program of a record writes: the text of the record, its
    members in the order the fields are resolved, although the records held by
    value are spliced into it, its fields are paired and its short names packed. *)

From S2P Require Import Prelude Words Utf8 Scanner Lex Grammar StringRef Errors Numbers Reader Validator FastValid ParserString Layout Decode Digits DecoderScalar EncodeString EncodeInt OpenAddr FieldFold FieldTable TypedPlan EncodePlan TypedEncode EncodeSpec.
From stdpp Require Import gmap sorting.
Open Scope Z_scope.

(** ** Texts that may be missing *)

Definition cat (a b : option bytes) : option bytes := s ← a; t ← b; Some (s ++ t).

Lemma cat_assoc a b c : cat (cat a b) c = cat a (cat b c).
Proof. destruct a as [a|], b as [b|], c as [c|]; cbn; try done. by rewrite app_assoc. Qed.
Lemma cat_nil_l a : cat (Some []) a = a.
Proof. by destruct a. Qed.
Lemma cat_nil_r a : cat a (Some []) = a.
Proof. destruct a; cbn; [by rewrite app_nil_r|done]. Qed.
Lemma cat_Some a b : cat (Some a) (Some b) = Some (a ++ b).
Proof. done. Qed.
Lemma cat_Some_l a b c : cat (Some (a ++ b)) c = cat (Some a) (cat (Some b) c).
Proof. by rewrite <- cat_Some, cat_assoc. Qed.
Lemma cat_None a : cat a None = None.
Proof. by destruct a. Qed.

(** Elements each behind a comma. *)
Definition commas (l : list bytes) : bytes := concat (map (cons ","%ch) l).

Lemma intercalate_commas l : intercalate [","%ch] l = drop 1 (commas l).
Proof.
  destruct l as [|x l]; [done|]. unfold commas. cbn [map concat]. change (drop 1 ((","%ch :: x) ++ concat (map (cons ","%ch) l))) with (x ++ concat (map (cons ","%ch) l)).
  revert x. induction l as [|y l IH]; intros x; [by rewrite app_nil_r|]. by rewrite intercalate_cons, IH.
Qed.

(** [mapM] and texts. *)
Lemma mapM_fmap {A B C} (f : A -> option B) (g : B -> C) l : map g <$> mapM f l = mapM (fun x => g <$> f x) l.
Proof.
  induction l as [|x l IH]; [done|]. cbn [mapM]. cbn in *. rewrite <- IH. destruct (f x); cbn; [|done]. by destruct (mapM f l).
Qed.

Lemma mapM_eq {A B} (f g : A -> option B) l : Forall (fun x => f x = g x) l -> mapM f l = mapM g l.
Proof. induction 1 as [|x l Hx _ IH]; [done|]. cbn [mapM]. by rewrite Hx, IH. Qed.

Lemma Forall2_chain {A B C} (P : A -> B -> Prop) (Q : B -> C -> Prop) (R : A -> C -> Prop) l k m :
  (forall x y z, P x y -> Q y z -> R x z) -> Forall2 P l k -> Forall2 Q k m -> Forall2 R l m.
Proof. intros H Hlk. revert m. induction Hlk; intros m Hkm; inversion Hkm; subst; constructor; eauto. Qed.

(** ** The program's text *)

Section Emission.
(** The text of a node's value. *)
Context (txt : nat -> gval -> option bytes).

Definition leaf (f : typedEncField) (v : gval) : option bytes := x ← at_path (ef_offset f) v; txt (ef_node f) x.

Fixpoint emission (fields : list typedEncField) (v : gval) : option bytes :=
  match fields with
  | [] => Some []
  | f :: fields => cat (Some (ef_name f)) (cat (leaf f v) (emission fields v))
  end.

Definition program_text (program : typedEncodeProgram) (v : gval) : option bytes := cat (emission (encFields program) v) (Some (encClose program)).

Lemma emission_app fields fields' v : emission (fields ++ fields') v = cat (emission fields v) (emission fields' v).
Proof. induction fields as [|f fields IH]; [by rewrite cat_nil_l|]. cbn [emission app]. by rewrite IH, !cat_assoc. Qed.

(** *** Splicing *)

Lemma at_path_app path path' v : at_path (path ++ path') v = x ← at_path path v; at_path path' x.
Proof.
  revert v. induction path as [|slot path IH]; intros v; [done|]. cbn [at_path app]. destruct v; try done. destruct (_ !! slot); cbn; [apply IH|done].
Qed.

Lemma leaf_splice f path pending j c v x : at_path (ef_offset f) v = Some x -> leaf (splice f path pending j c).1 v = leaf c.1 x.
Proof. intros Hx. destruct c as [c cp]. unfold leaf. cbn [splice fst ef_offset ef_node]. by rewrite at_path_app, Hx. Qed.

Lemma emission_splice_rest f path pending children k v x : at_path (ef_offset f) v = Some x ->
  emission (map fst (imap (fun j => splice f path pending (S k + j)) children)) v = emission (map fst children) x.
Proof.
  intros Hx. revert k. induction children as [|c children IH]; intros k; [done|]. cbn [imap map emission]. rewrite (leaf_splice _ _ _ _ _ _ _ Hx).
  replace (ef_name (splice f path pending (S k + 0) c).1) with (ef_name c.1) by (by destruct c). do 2 f_equal. by rewrite <- (IH (S k)).
Qed.

Lemma emission_splice f path pending children v x : at_path (ef_offset f) v = Some x -> children <> [] ->
  emission (map fst (imap (splice f path pending) children)) v = cat (Some (pending ++ ef_name f ++ ["{"%ch])) (emission (map fst children) x).
Proof.
  intros Hx Hne. destruct children as [|c children]; [done|]. cbn [imap map emission]. rewrite (leaf_splice _ _ _ _ _ _ _ Hx).
  replace (ef_name (splice f path pending 0 c).1) with ((pending ++ ef_name f ++ ["{"%ch]) ++ ef_name c.1) by (destruct c; cbn; by norm_app).
  rewrite cat_Some_l. do 3 f_equal. apply (emission_splice_rest f path pending children 0 v x Hx).
Qed.

(** *** Fusion *)

Section Fuse.
Context (ep : programs).

(** A record spliced into the program around it is described by its own program. *)
Definition fusible (v : gval) (f : typedEncField) : Prop := forall child, fuseEligible ep f = Some child ->
  length (encPaths child) = length (encFields child) /\
  exists x, at_path (ef_offset f) v = Some x /\ txt (ef_node f) x = cat (Some ["{"%ch]) (program_text child x).

Lemma fuse_text fields pending extra out close extra' v : fuse_loop ep fields pending extra = (out, close, extra') ->
  Forall (fun f => fusible v f.1) fields ->
  cat (emission (map fst out) v) (Some close) = cat (Some pending) (emission (map fst fields) v).
Proof.
  intros E Hf. revert pending extra out close extra' E. induction Hf as [|[f path] fields Hf _ IH]; intros pending extra out close extra' E; cbn [fuse_loop] in E.
  { injection E as <- <- <-. cbn [map emission]. by rewrite cat_nil_r, cat_nil_l. }
  cbn [map fst emission] in *. destruct (fuseEligible ep f) as [child|] eqn:Ef.
  - destruct (Hf child Ef) as (Hlen & x & Hx & Et). unfold leaf. rewrite Hx. cbn [mbind option_bind]. rewrite Et. unfold program_text.
    destruct (encFields child) as [|c cs] eqn:Ec.
    + rewrite (IH _ _ _ _ _ E), cat_nil_l. rewrite <- !cat_assoc, !cat_Some. by norm_app.
    + rewrite <- Ec in *. destruct (fuse_loop ep fields (encClose child) _) as [[out' close'] e] eqn:E'. injection E as <- <- <-.
      rewrite map_app, emission_app, cat_assoc, (IH _ _ _ _ _ E'), (emission_splice f path pending _ v x Hx).
      2: { intros Hz. apply (f_equal length) in Hz. rewrite length_zip_with, Ec in Hz. rewrite Ec in Hlen. by rewrite Hlen, Nat.min_id in Hz. }
      rewrite fst_zip by lia. rewrite !cat_Some_l, !cat_assoc. done.
  - destruct (fuse_loop ep fields [] extra) as [[out' close'] e] eqn:E'. injection E as <- <- <-. cbn [map fst emission set_name ef_name].
    rewrite !cat_assoc, (IH _ _ _ _ _ E'), cat_nil_l, cat_Some_l. done.
Qed.

Lemma fuseSimple_text fields out close extra v : fuseSimpleStructFields ep fields = (out, close, extra) ->
  Forall (fun f => fusible v f.1) fields ->
  cat (emission (map fst out) v) (Some close) = cat (emission (map fst fields) v) (Some ["}"%ch]).
Proof.
  unfold fuseSimpleStructFields. intros E Hf. destruct (existsb _ fields); [|by injection E as <- <- <-].
  destruct (fuse_loop ep fields [] 0) as [[out' pending] e] eqn:E'. injection E as <- <- <-.
  rewrite <- cat_Some, <- cat_assoc, (fuse_text _ _ _ _ _ _ _ E' Hf). by rewrite cat_nil_l.
Qed.

(** The levels fused are those of the deepest record. *)
Lemma fuse_extra fields pending extra out close extra' : fuse_loop ep fields pending extra = (out, close, extra') ->
  extra <= extra' /\
  (forall f path child, In (f, path) fields -> fuseEligible ep f = Some child -> encFusedExtra child + 1 <= extra') /\
  (extra' = extra \/ exists f path child, In (f, path) fields /\ fuseEligible ep f = Some child /\ extra' = encFusedExtra child + 1).
Proof using.
  revert pending extra out close extra'. induction fields as [|[f path] fields IH]; intros pending extra out close extra' E; cbn [fuse_loop] in E.
  { injection E as <- <- <-. split_and!; [lia|done|by left]. }
  destruct (fuseEligible ep f) as [child|] eqn:Ef.
  - assert (E' : exists pending' out' close', fuse_loop ep fields pending' (Z.max extra (encFusedExtra child + 1)) = (out', close', extra')).
    { destruct (encFields child); [by eexists _, _, _|]. destruct (fuse_loop ep fields (encClose child) _) as [[out' close'] e] eqn:E'.
      injection E as <- <- <-. by eexists _, _, _. }
    destruct E' as (? & ? & ? & E'). destruct (IH _ _ _ _ _ E') as (H1 & H2 & H3). split_and!; [lia| |].
    + intros g q c [[= <- <-]|Hin] Hg; [rewrite Ef in Hg; injection Hg as <-; lia|by eapply H2].
    + destruct H3 as [->|(g & q & c & Hin & Hg & ->)]; [|right; exists g, q, c; split_and!; [by right|done..]].
      destruct (Z.max_spec extra (encFusedExtra child + 1)) as [[_ ->]|[_ ->]]; [right|by left]. exists f, path, child. split_and!; [by left|done..].
  - destruct (fuse_loop ep fields [] extra) as [[out' close'] e] eqn:E'. injection E as <- <- <-. destruct (IH _ _ _ _ _ E') as (H1 & H2 & H3). split_and!; [lia| |].
    + intros g q c [[= <- <-]|Hin] Hg; [congruence|by eapply H2].
    + destruct H3 as [->|(g & q & c & Hin & Hg & ->)]; [by left|]. right. exists g, q, c. split_and!; [by right|done..].
Qed.
End Fuse.
End Emission.

(** ** Pairs and packed names keep the fields *)

(** What the text of a field depends on, and what its pair does. *)
Definition same (f g : typedEncField) : Prop :=
  ef_name f = ef_name g /\ ef_node f = ef_node g /\ ef_offset f = ef_offset g /\ ef_op f = ef_op g.
Definition same_pair (f g : typedEncField) : Prop := same f g /\ ef_pairOp f = ef_pairOp g.

Lemma same_field_refl f : same f f.
Proof. done. Qed.
Lemma same_trans f g h : same f g -> same g h -> same f h.
Proof. unfold same. intros (-> & -> & -> & ->) (-> & -> & -> & ->). done. Qed.

Lemma emission_same txt fs gs v : Forall2 same fs gs -> emission txt fs v = emission txt gs v.
Proof.
  induction 1 as [|f g fs gs (E1 & E2 & E3 & _) _ IH]; [done|]. cbn [emission]. unfold leaf. by rewrite E1, E2, E3, IH.
Qed.

(** *** Pairs *)

Fixpoint pairs_ok (fields : list typedEncField) : Prop :=
  match fields with
  | f :: g :: fields => ef_pairOp f = classifyTypedEncPair (ef_op f) (ef_op g) /\ pairs_ok fields
  | _ => True
  end.

Lemma pair_ind (P : list typedEncField -> Prop) : P [] -> (forall f, P [f]) -> (forall f g l, P l -> P (f :: g :: l)) -> forall l, P l.
Proof.
  intros H0 H1 H2 l. assert (Hb : P l /\ forall f, P (f :: l)); [|by apply Hb]. induction l as [|x l [IH1 IH2]]; [by auto|]. auto.
Qed.

Lemma classify_pairs_ok fields : pairs_ok (classify_pairs fields) /\ Forall2 same (classify_pairs fields) fields.
Proof.
  induction fields as [|f|f g l [IH1 IH2]] using pair_ind; [by repeat constructor..|]. cbn [classify_pairs pairs_ok]. split; [by split|]. by repeat constructor.
Qed.

Lemma pairs_ok_same fs gs : Forall2 same_pair fs gs -> pairs_ok gs -> pairs_ok fs.
Proof.
  revert gs. induction fs as [|f|f g l IH] using pair_ind; intros gs Hs; [done..|]. inversion Hs as [|? f' ? ? [(_ & _ & _ & E1) E2] Hs']; subst.
  inversion Hs' as [|? g' ? ? [(_ & _ & _ & E3) _] Hl]; subst. cbn [pairs_ok]. rewrite E1, E2, E3. intros [H1 H2]. split; [done|by eapply IH].
Qed.

(** *** Packed names *)

(** The first [encNameLen] bytes of a field's block are its name. *)
Definition block_ok (data : bytes) (f : typedEncField) : Prop := ef_nameLen f <> 0%nat ->
  ef_nameLen f = length (ef_name f) /\ (length (ef_name f) <= 16)%nat /\
  (ef_nameBlock f * 16 + 16 <= length data)%nat /\
  slice data (ef_nameBlock f * 16) (ef_nameBlock f * 16 + 16) = take 16 (ef_name f ++ replicate 16 0).

Definition packable (f : typedEncField) : Prop := ef_nameLen f <> 0%nat -> ef_nameLen f = length (ef_name f) /\ (length (ef_name f) <= 16)%nat.

Lemma name_lengths_ok p complete fields : Forall (fun f => ef_nameLen f = 0%nat) fields ->
  Forall packable (name_lengths p complete fields) /\ Forall2 same_pair (name_lengths p complete fields) fields.
Proof.
  unfold name_lengths. intros H. induction H as [|f fields Hf _ [IH1 IH2]]; [by repeat constructor|]. cbn [foldr].
  destruct (foldr _ ([], 1) fields) as [out tailMin]. cbn [fst] in *. case_match eqn:Hc; cbn [fst].
  - split; constructor; [|done|by repeat split|done]. unfold packable. cbn [set_block ef_nameLen ef_name]. intros _. split; [done|]. unfold blockBytes in Hc. lia.
  - split; constructor; [|done|by repeat split|done]. unfold packable. lia.
Qed.

Lemma slice_app_l (l l' : bytes) i j : (j <= length l)%nat -> slice (l ++ l') i j = slice l i j.
Proof.
  intros H. unfold slice. destruct (Nat.le_gt_cases i (length l)).
  - rewrite drop_app_le by done. rewrite take_app_le; [done|]. rewrite length_drop. lia.
  - replace (j - i)%nat with 0%nat by lia. by rewrite !take_0.
Qed.

Lemma block_ok_app data data' f : block_ok data f -> block_ok (data ++ data') f.
Proof.
  intros H Hn. destruct (H Hn) as (H1 & H2 & H3 & H4). split_and!; [done..|rewrite length_app; lia|]. by rewrite slice_app_l.
Qed.

Lemma name_blocks_ok fields data out data' : name_blocks fields data = (out, data') -> Forall packable fields -> (exists k, length data = (16 * k)%nat) ->
  (exists ext, data' = data ++ ext) /\ Forall (block_ok data') out /\ Forall2 same_pair out fields.
Proof.
  intros E Hp. revert data out data' E. induction Hp as [|f fields Hf _ IH]; intros data out data' E [k Hk]; cbn [name_blocks] in E.
  { injection E as <- <-. split_and!; [exists []; by rewrite app_nil_r|constructor..]. }
  cbv zeta in E. destruct (negb (ef_nameLen f =? 0)%nat && _) eqn:Hc.
  - set (block := take 16 (ef_name f ++ replicate 16 0)) in *. assert (Hb : length block = 16%nat) by (unfold block; rewrite length_take, length_app, length_replicate; lia).
    destruct (name_blocks fields (data ++ block)) as [out' d] eqn:E'. injection E as <- <-.
    destruct (IH _ _ _ E' ltac:(exists (S k); rewrite length_app; lia)) as ((ext & ->) & H1 & H2). apply andb_true_iff in Hc as [Hn _].
    split_and!; [exists (block ++ ext); by rewrite app_assoc| |by repeat constructor].
    constructor; [|done]. apply block_ok_app. intros _.
    assert (Hd : (length data / 16)%nat = k) by (rewrite Hk, Nat.mul_comm, Nat.div_mul; lia). cbn in Hd. rewrite Hd.
    cbn [set_block ef_nameLen ef_name ef_nameBlock].
    destruct Hf as [Hf1 Hf2]; [by destruct (Nat.eqb_spec (ef_nameLen f) 0)|].
    split_and!; [done..|rewrite length_app, Hb, Hk; lia|]. replace (k * 16)%nat with (length data) by lia. unfold slice.
    rewrite drop_app_length. replace (length data + 16 - length data)%nat with (length block) by lia. by rewrite firstn_all.
  - destruct (name_blocks fields data) as [out' d] eqn:E'. injection E as <- <-.
    destruct (IH _ _ _ E' ltac:(by exists k)) as (H0 & H1 & H2). split_and!; [done| |by repeat constructor]. constructor; [|done]. by intros [].
Qed.

(** ** Plans *)

(** The slots of the embedded pointers on the way to a field, and its own. *)
Inductive enc_path (p : plan) : list (option nat) -> list nat -> nat -> nat -> Prop :=
  | EP_slot slots slot n : slots !! slot = Some (Some n) -> enc_path p slots [] slot n
  | EP_hop slots hop hops slot n q pnd snd_ : slots !! hop = Some (Some q) -> p !! q = Some pnd -> tn_kind pnd = typedPointer ->
      p !! tn_elem pnd = Some snd_ -> tn_kind snd_ = typedStruct -> enc_path p (tn_slots snd_) hops slot n ->
      enc_path p slots (hop :: hops) slot n.

(** What the compiler makes of a record for the encoder.  [eo_body] excludes the
    records whose members are all records without members: see [EncodeValue.v]. *)
Record enc_record_ok (escapeHTML : bool) (p : plan) (ep : programs) (rank : nat -> nat) (n : nat) (nd : typedNode) (s : encStruct) : Prop := {
  eo_program : program_of ep n = Some s;
  eo_compiled : exists complete, compile_struct escapeHTML p ep complete (es_resolved s) (es_hops s) = Ok s;
  eo_names : Forall (fun r => bytes_ok (er_name r)) (es_resolved s);
  eo_fields : Forall (fun r => exists hops, enc_hops s r = Some hops /\ enc_path p (tn_slots nd) hops (er_slot r) (er_node r) /\
    (hops = [] -> (rank (er_node r) < rank n)%nat)) (es_resolved s);
  eo_body : encSimple s = true -> es_resolved s <> [] -> encFields (es_program s) <> []
  }.

Record enc_node_ok (escapeHTML : bool) (p : plan) (ep : programs) (rank : nat -> nat) (n : nat) (nd : typedNode) : Prop := {
  en_bits : tn_kind nd = typedInt \/ tn_kind nd = typedUint -> int_width (tn_bits nd);
  en_key : tn_kind nd = typedMap -> tn_mapKeyKind nd <> mapKeyString -> int_width (tn_keyBits nd);
  en_elem : tn_kind nd = typedSlice \/ tn_kind nd = typedArray \/ tn_kind nd = typedPointer \/ tn_kind nd = typedMap ->
    (tn_elem nd < length p)%nat;
  en_record : tn_kind nd = typedStruct -> exists s, enc_record_ok escapeHTML p ep rank n nd s
  }.

Definition encoder_ok (escapeHTML : bool) (p : plan) (ep : programs) : Prop :=
  exists rank, forall n nd, p !! n = Some nd -> enc_node_ok escapeHTML p ep rank n nd.

(** *** The fields a record is compiled to *)

Section Compile.
Context (h : bool) (p : plan) (ep : programs) (complete : nat -> bool).

Definition enc_field (r : resolvedEnc) : typedEncField :=
  mkEncField (","%ch :: quoted h (er_name r) ++ [":"%ch]) (er_node r) [er_slot r] (er_hop r) (encOp_of p complete (er_node r))
    typedEncPairFallback 0 0 (er_omitEmpty r) (er_omitZero r).

Lemma compile_enc_fields_ok rs : Forall (fun r => bytes_ok (er_name r)) rs ->
  compile_enc_fields h p complete rs = Ok (map (fun r => (enc_field r, er_name r)) rs).
Proof using.
  induction 1 as [|r rs Hr _ IH]; [done|]. cbn [compile_enc_fields]. unfold compile_enc_field. rewrite appendEncodedJSONString_ok by done.
  cbn [res_bind]. by rewrite IH.
Qed.

(** The members' texts, where no field is omitted or promoted. *)
Definition member_texts (txt : nat -> gval -> option bytes) (rs : list resolvedEnc) (v : gval) : option (list bytes) :=
  mapM (fun r => x ← at_path [er_slot r] v; s ← txt (er_node r) x; Some (quoted h (er_name r) ++ ":"%ch :: s)) rs.

Lemma emission_fields txt rs v : emission txt (map enc_field rs) v = commas <$> member_texts txt rs v.
Proof using.
  induction rs as [|r rs IH]; [done|]. cbn [map emission]. rewrite IH. unfold member_texts, leaf. cbn [mapM enc_field ef_offset ef_node ef_name].
  destruct (at_path [er_slot r] v) as [x|]; [|done]. cbn [mbind option_bind]. destruct (txt (er_node r) x) as [s|]; [|done]. cbn [mbind option_bind].
  destruct (mapM _ rs) as [l|]; [|done]. cbn. unfold commas. cbn [map concat]. f_equal. by norm_app.
Qed.

(** *** What the compiled program is made of *)

Lemma fuse_loop_in fields pending extra out close extra' g q : fuse_loop ep fields pending extra = (out, close, extra') -> In (g, q) out ->
  (exists f, In (f, q) fields /\ fuseEligible ep f = None /\ exists pre, g = set_name f (pre ++ ef_name f)) \/
  (exists f path child pre j c, In (f, path) fields /\ fuseEligible ep f = Some child /\ In c (zip (encFields child) (encPaths child)) /\
    (g, q) = splice f path pre j c).
Proof using.
  revert pending extra out close extra'. induction fields as [|[f path] fields IH]; intros pending extra out close extra' E Hin; cbn [fuse_loop] in E; [by injection E as <- <- <-|].
  assert (Hlater : forall pending extra out close extra', fuse_loop ep fields pending extra = (out, close, extra') -> In (g, q) out ->
    (exists f', In (f', q) ((f, path) :: fields) /\ fuseEligible ep f' = None /\ exists pre, g = set_name f' (pre ++ ef_name f')) \/
    (exists f' path' child pre j c, In (f', path') ((f, path) :: fields) /\ fuseEligible ep f' = Some child /\ In c (zip (encFields child) (encPaths child)) /\
      (g, q) = splice f' path' pre j c)).
  { intros ? ? ? ? ? E' Hin'. destruct (IH _ _ _ _ _ E' Hin') as [(f' & Hf & H)|(f' & path' & child & pre & j & c & Hf & H)]; [left|right].
    - exists f'. split; [by right|done].
    - exists f', path', child, pre, j, c. split; [by right|done]. }
  destruct (fuseEligible ep f) as [child|] eqn:Ef.
  - destruct (encFields child) as [|c0 cs] eqn:Ec; [by eapply Hlater|]. rewrite <- Ec in *.
    destruct (fuse_loop ep fields (encClose child) _) as [[out' close'] e] eqn:E'. injection E as <- <- <-. apply in_app_or in Hin as [Hin|Hin]; [|by eapply Hlater].
    right. apply list_elem_of_In, elem_of_lookup_imap in Hin as (j & c & E & Hc). exists f, path, child, pending, j, c.
    split_and!; [by left|done|by eapply list_elem_of_In, list_elem_of_lookup_2|done].
  - destruct (fuse_loop ep fields [] extra) as [[out' close'] e] eqn:E'. injection E as <- <- <-. destruct Hin as [[= <- <-]|Hin]; [|by eapply Hlater].
    left. exists f. split_and!; [by left|done|by exists pending].
Qed.

Lemma fuse_names fields pending extra out close extra' : fuse_loop ep fields pending extra = (out, close, extra') ->
  Forall (fun f => ef_name f.1 <> [] /\ forall child, fuseEligible ep f.1 = Some child -> length (encPaths child) = length (encFields child)) fields ->
  match out with f :: _ => ef_name f.1 <> [] | [] => True end.
Proof using.
  intros E Hf. revert pending extra out close extra' E. induction Hf as [|[f path] fields [Hf Hc] _ IH]; intros pending extra out close extra' E; cbn [fuse_loop] in E.
  { by injection E as <- <- <-. }
  cbn [fst] in *. destruct (fuseEligible ep f) as [child|].
  - specialize (Hc child eq_refl). destruct (encFields child) as [|c0 cs]; [by eapply IH|]. destruct (fuse_loop ep fields (encClose child) _) as [[out' close'] e].
    injection E as <- <- <-. destruct (encPaths child) as [|q qs]; [done|]. cbn. by destruct pending, (ef_name f).
  - destruct (fuse_loop ep fields [] extra) as [[out' close'] e]. injection E as <- <- <-. cbn. by destruct pending.
Qed.

Lemma strip_text txt fields v : match fields with f :: _ => ef_name f <> [] | [] => True end ->
  emission txt (strip_comma fields) v = drop 1 <$> emission txt fields v.
Proof using.
  destruct fields as [|f fields]; [done|]. intros Hf. cbn [strip_comma emission set_name ef_name]. unfold leaf. cbn [ef_offset ef_node].
  destruct (_ ≫= _) as [s|]; [|done]. destruct (emission txt fields v) as [t|]; [|done]. cbn. by destruct (ef_name f).
Qed.

Lemma strip_same fs gs : Forall2 same fs gs -> Forall2 same (strip_comma fs) (strip_comma gs).
Proof using.
  intros [|f g fs' gs' (E1 & E2 & E3 & E4) Hs]; [constructor|]. constructor; [|done]. unfold same. cbn. by rewrite E1.
Qed.

Lemma pairs_strip fs : pairs_ok fs -> pairs_ok (strip_comma fs).
Proof using. by destruct fs as [|f [|g fs]]. Qed.

Definition simple_record (rs : list resolvedEnc) : bool :=
  forallb (fun r => match er_hop r with Some _ => false | None => negb (er_omitEmpty r || er_omitZero r) end) rs.

(** A compiled record, simple or not. *)
Lemma compile_struct_inv rs hops s : compile_struct h p ep complete rs hops = Ok s -> Forall (fun r => bytes_ok (er_name r)) rs ->
  let fields := map (fun r => (enc_field r, er_name r)) rs in
  encSimple s = simple_record rs /\
  if encSimple s then
    exists fused, fuseSimpleStructFields ep fields = (fused, encClose (es_program s), encFusedExtra (es_program s)) /\
      encPaths (es_program s) = map snd fused /\
      (Forall (fun f => ef_nameLen f.1 = 0%nat) fused ->
       Forall2 same (encFields (es_program s)) (strip_comma (map fst fused)) /\
       pairs_ok (encFields (es_program s)) /\ Forall (block_ok (encNameData (es_program s))) (encFields (es_program s)))
  else encFields (es_program s) = map enc_field rs /\ encPaths (es_program s) = map er_name rs /\ encFusedExtra (es_program s) = 0.
Proof using.
  intros E Hn. cbv zeta. unfold compile_struct in E. rewrite (compile_enc_fields_ok rs Hn) in E. cbn [res_bind] in E. fold (simple_record rs) in E.
  destruct (simple_record rs).
  - destruct (fuseSimpleStructFields ep _) as [[fused close] extra] eqn:Ef. set (stripped := strip_comma _) in E.
    destruct (name_blocks _ []) as [packed data] eqn:Eb. injection E as <-. cbn [encSimple es_program encClose encFusedExtra encPaths encFields encNameData].
    split; [done|]. exists fused. split_and!; [done..|]. intros Hz.
    destruct (classify_pairs_ok (map fst fused)) as [Hp Hs]. assert (Hs' : Forall2 same stripped (strip_comma (map fst fused))) by (by apply strip_same).
    destruct (name_lengths_ok p complete stripped) as [Hl1 Hl2].
    { assert (Hc : Forall (fun f => ef_nameLen f = 0%nat) (classify_pairs (map fst fused))).
      { clear -Hz. assert (Hz' : Forall (fun f => ef_nameLen f = 0%nat) (map fst fused)) by (by apply Forall_map). revert Hz'. generalize (map fst fused).
        intros l. induction l as [|f|f g l IH] using pair_ind; [done..|]. intros [Hf [Hg Hl]%Forall_cons]%Forall_cons. cbn. by repeat constructor; auto. }
      unfold stripped. destruct (classify_pairs (map fst fused)); [done|]. apply Forall_cons in Hc as [? ?]. by constructor. }
    destruct (name_blocks_ok _ _ _ _ Eb Hl1 ltac:(by exists 0%nat)) as (_ & Hb1 & Hb2).
    assert (Hb3 : Forall2 same_pair packed stripped).
    { eapply Forall2_chain; [|exact Hb2|exact Hl2]. intros ? ? ? [S1 P1] [S2 P2]. split; [by eapply same_trans|congruence]. }
    split_and!; [|eapply pairs_ok_same; [exact Hb3|by apply pairs_strip]|done].
    eapply Forall2_chain; [|eapply Forall2_impl; [exact Hb3|by intros ? ? []]|exact Hs']. apply same_trans.
  - injection E as <-. cbn. by rewrite !map_map.
Qed.
End Compile.

(** ** The programs of a plan *)

Section Plan.
Context (h : bool) (p : plan) (ep : programs) (rank : nat -> nat).
Hypothesis He : forall n nd, p !! n = Some nd -> enc_node_ok h p ep rank n nd.

Definition op_ok (f : typedEncField) : Prop :=
  match ef_op f with Some op => exists nd, p !! ef_node f = Some nd /\ op = op_of nd | None => True end.

(** A field is found in every value of the record's type. *)
Definition placed (n : nat) (f : typedEncField) : Prop :=
  forall v, has_type p n v -> exists x, at_path (ef_offset f) v = Some x /\ has_type p (ef_node f) x.

Record program_facts (n : nat) (program : typedEncodeProgram) : Prop := {
  pf_placed : Forall (placed n) (encFields program);
  pf_op : Forall op_ok (encFields program);
  pf_paths : length (encPaths program) = length (encFields program);
  pf_pairs : pairs_ok (encFields program);
  pf_blocks : Forall (block_ok (encNameData program)) (encFields program)
  }.

Lemma eligible_inv f child : fuseEligible ep f = Some child ->
  ef_op f = Some typedOpStruct /\ exists s, program_of ep (ef_node f) = Some s /\ encSimple s = true /\ child = es_program s /\
    Forall (fun c => scalar_op (ef_op c) = true) (encFields child).
Proof using.
  unfold fuseEligible. destruct (ef_op f) as [[]|]; try done. destruct (program_of ep (ef_node f)) as [s|]; [|done].
  destruct (encSimple s) eqn:Hs; [|done]. cbn [andb]. destruct (forallb _ _) eqn:Hf; [|done]. intros [= <-]. split; [done|]. exists s. split_and!; [done..|].
  rewrite forallb_forall in Hf. by apply List.Forall_forall.
Qed.

Lemma struct_node f nd : p !! ef_node f = Some nd -> typedOpStruct = op_of nd -> tn_kind nd = typedStruct.
Proof using. unfold op_of. by destruct (tn_kind nd). Qed.

Lemma slot_found slots vs slot n : Forall2 (slot_type p) slots vs -> slots !! slot = Some (Some n) -> exists x, vs !! slot = Some x /\ has_type p n x.
Proof using.
  intros Hvs Hs. destruct (Forall2_lookup_l _ _ _ _ _ Hvs Hs) as (x & Hx & Ht). exists x. split; [done|]. by inversion Ht.
Qed.

Lemma struct_value n nd v : p !! n = Some nd -> tn_kind nd = typedStruct -> has_type p n v ->
  exists slots, v = VStruct slots /\ Forall2 (slot_type p) (tn_slots nd) slots.
Proof using. intros Hn Hk Hv. inversion Hv; simplify_eq; try congruence. by eexists. Qed.

(** The fields of a record as they are resolved. *)
Lemma enc_field_ok complete n nd r s : p !! n = Some nd -> tn_kind nd = typedStruct -> enc_record_ok h p ep rank n nd s -> In r (es_resolved s) ->
  er_hop r = None -> placed n (enc_field h p complete r) /\ op_ok (enc_field h p complete r) /\ (rank (er_node r) < rank n)%nat.
Proof using.
  intros Hn Hk Hs Hr Hh. pose proof (eo_fields _ _ _ _ _ _ _ Hs) as Hf. rewrite List.Forall_forall in Hf. destruct (Hf r Hr) as (hops & E & Hp & Hrank).
  unfold enc_hops in E. rewrite Hh in E. injection E as <-. inversion Hp as [? ? ? Hslot|]; subst. split_and!; [| |by apply Hrank].
  - intros v Hv. destruct (struct_value _ _ _ Hn Hk Hv) as (vs & -> & Hvs). destruct (slot_found _ _ _ _ Hvs Hslot) as (x & Hx & Ht). exists x.
    cbn [enc_field ef_offset ef_node at_path]. by rewrite Hx.
  - unfold op_ok. cbn [enc_field ef_op ef_node]. unfold encOp_of. destruct (complete (er_node r)); [|done].
    destruct (p !! er_node r) as [nd'|] eqn:En; [|done]. cbn. by exists nd'.
Qed.

Lemma simple_hop rs r : simple_record rs = true -> In r rs -> er_hop r = None /\ er_omitEmpty r = false /\ er_omitZero r = false.
Proof using.
  unfold simple_record. rewrite forallb_forall. intros H Hr. specialize (H r Hr). destruct (er_hop r); [done|]. by destruct (er_omitEmpty r), (er_omitZero r).
Qed.

Lemma fused_in fields fused close extra : fuseSimpleStructFields ep fields = (fused, close, extra) ->
  (fused = fields /\ close = ["}"%ch] /\ extra = 0 /\ forall f, In f fields -> fuseEligible ep f.1 = None) \/
  exists close', fuse_loop ep fields [] 0 = (fused, close', extra) /\ close = close' ++ ["}"%ch].
Proof using.
  unfold fuseSimpleStructFields. destruct (existsb _ fields) eqn:Ee.
  - destruct (fuse_loop ep fields [] 0) as [[out pending] e] eqn:E. intros [= <- <- <-]. right. by exists pending.
  - intros [= <- <- <-]. left. split_and!; [done..|]. intros f Hf. destruct (fuseEligible ep f.1) eqn:Ef; [|done]. exfalso.
    assert (existsb (fun f => match fuseEligible ep f.1 with Some _ => true | None => false end) fields = true); [|congruence].
    apply existsb_exists. exists f. split; [done|]. by rewrite Ef.
Qed.

Lemma fused_lengths fields fused close extra : fuseSimpleStructFields ep fields = (fused, close, extra) ->
  Forall (fun f => ef_nameLen f.1 = 0%nat) fields -> Forall (fun f => ef_nameLen f.1 = 0%nat) fused.
Proof using.
  rewrite !List.Forall_forall. intros E Hf [g q] Hin. destruct (fused_in _ _ _ _ E) as [(-> & _)|(close' & El & _)]; [by apply Hf|].
  destruct (fuse_loop_in ep _ _ _ _ _ _ _ _ El Hin) as [(f & Hin' & _ & pre & ->)|(f & path & child & pre & j & [c cp] & _ & _ & _ & Hg)].
  - exact (Hf _ Hin').
  - cbn [splice] in Hg. by injection Hg as -> ->.
Qed.

Lemma simple_facts n nd s : p !! n = Some nd -> tn_kind nd = typedStruct -> enc_record_ok h p ep rank n nd s -> encSimple s = true ->
  program_facts n (es_program s).
Proof using He.
  remember (rank n) as r eqn:Hr. revert n nd s Hr. induction (lt_wf r) as [r _ IH]. intros n nd s -> Hn Hk Hs Hsimple.
  destruct (eo_compiled _ _ _ _ _ _ _ Hs) as [complete E]. destruct (compile_struct_inv _ _ _ _ _ _ _ E (eo_names _ _ _ _ _ _ _ Hs)) as [Hsr Hinv].
  rewrite Hsimple in *. destruct Hinv as (fused & Ef & Hpaths & Hpasses). set (fields := map _ (es_resolved s)) in *.
  assert (Hfields : forall f, In f fields -> placed n f.1 /\ op_ok f.1 /\
    (fuseEligible ep f.1 <> None -> exists c, p !! ef_node f.1 = Some c /\ tn_kind c = typedStruct /\ (rank (ef_node f.1) < rank n)%nat)).
  { intros f (q & <- & Hq)%in_map_iff. cbn [fst]. destruct (simple_hop _ _ (eq_sym Hsr) Hq) as [Hh _].
    destruct (enc_field_ok complete n nd q s Hn Hk Hs Hq Hh) as (H1 & H2 & H3). split_and!; [done..|]. intros Hel.
    destruct (fuseEligible ep _) as [child|] eqn:Ec; [|done]. destruct (eligible_inv _ _ Ec) as [Hop _]. unfold op_ok in H2. rewrite Hop in H2.
    destruct H2 as (c & Hc & Hco). exists c. split_and!; [done|by apply (struct_node (enc_field h p complete q))|done]. }
  assert (Hfused : forall g q, In (g, q) fused -> placed n g /\ op_ok g).
  { intros g q Hin. destruct (fused_in _ _ _ _ Ef) as [(-> & _)|(close' & El & _)]; [destruct (Hfields _ Hin) as (? & ? & _); done|].
    destruct (fuse_loop_in _ _ _ _ _ _ _ _ _ El Hin) as [(f & Hf & _ & pre & ->)|(f & path & child & pre & j & c & Hf & Hel & Hc & Hg)].
    - destruct (Hfields _ Hf) as (? & ? & _). done.
    - destruct (Hfields _ Hf) as (Hpl & _ & Hst). cbn [fst] in *. destruct Hst as (cn & Hcn & Hck & Hrank); [by rewrite Hel|].
      destruct (eligible_inv _ _ Hel) as (_ & cs & Hprog & Hcs & -> & _). destruct (en_record _ _ _ _ _ _ (He _ _ Hcn) Hck) as [cs' Hrec].
      pose proof (eo_program _ _ _ _ _ _ _ Hrec) as Hp2. rewrite Hprog in Hp2. injection Hp2 as <-.
      destruct (IH _ Hrank _ _ _ eq_refl Hcn Hck Hrec Hcs) as [F1 F2 F3 _ _]. destruct c as [c cp]. cbn [splice] in Hg. injection Hg as -> ->.
      apply in_combine_l in Hc. rewrite List.Forall_forall in F1, F2. split; [|by apply (F2 c)].
      intros v Hv. destruct (Hpl v Hv) as (x & Hx & Ht). destruct (F1 c Hc x Ht) as (y & Hy & Hty). exists y. cbn [ef_offset ef_node].
      by rewrite at_path_app, Hx. }
  destruct Hpasses as (Hsame & Hpairs & Hblocks).
  { apply (fused_lengths _ _ _ _ Ef). apply List.Forall_forall. by intros f (q & <- & _)%in_map_iff. }
  assert (Hall : Forall (fun g => placed n g /\ op_ok g) (strip_comma (map fst fused))).
  { assert (Hall : Forall (fun g => placed n g /\ op_ok g) (map fst fused)).
    { apply List.Forall_forall. intros g ([g' q] & <- & Hin)%in_map_iff. by apply (Hfused _ _ Hin). }
    destruct (map fst fused); [done|]. apply Forall_cons in Hall as [? ?]. by constructor. }
  assert (Hfinal : Forall (fun g => placed n g /\ op_ok g) (encFields (es_program s))).
  { revert Hall. clear -Hsame. induction Hsame as [|f g fs gs (E1 & E2 & E3 & E4) _ IH]; [done|]. intros [[Hpl Hop] Hl]%Forall_cons. constructor; [|by apply IH].
    unfold placed, op_ok. rewrite E2, E3, E4. done. }
  split; [by eapply Forall_impl; [exact Hfinal|intros ? []]|by eapply Forall_impl; [exact Hfinal|intros ? []]| |done|done].
  rewrite Hpaths, length_map. apply Forall2_length in Hsame. rewrite Hsame. destruct fused; cbn; rewrite ?length_map; done.
Qed.
End Plan.
