(* ===== verification/EncodeText.v ===== *)
(** The program of a simple record writes the text of its description, where the
    levels spliced into it are within the depth limit. *)

From S2P Require Import Prelude Words Utf8 Scanner Lex Grammar StringRef Errors Numbers Reader Validator FastValid ParserString Layout Decode Digits DecoderScalar EncodeString EncodeInt OpenAddr FieldFold FieldTable TypedPlan EncodePlan TypedEncode EncodeSpec EncodeFuse.
From stdpp Require Import gmap sorting.
Open Scope Z_scope.

Section Text.
Context (h : bool) (p : plan) (ep : programs) (rank : nat -> nat).
Hypothesis He : forall n nd, p !! n = Some nd -> enc_node_ok h p ep rank n nd.

(** The text of a value's description. *)
Definition text (fuel : nat) (depth run : Z) (n : nat) (v : gval) : option bytes := raw_of <$> describe h p ep fuel depth run n v.

(** Enough fuel for the levels the limits leave. *)
Definition enough (fuel : nat) (depth run : Z) : Prop := 1 + Z.max 0 (DefaultMaxDepth - depth) + Z.max 0 (DefaultMaxDepth - run) < Z.of_nat fuel.

(** *** Scalars *)

Definition scalar_kind (nd : typedNode) : Prop :=
  match tn_kind nd with typedBool | typedString | typedNumber | typedInt | typedUint => True | _ => False end.

Lemma describe_scalar_node fuel depth run n nd v : p !! n = Some nd -> scalar_kind nd ->
  describe h p ep (S fuel) depth run n v = describe_scalar h nd v.
Proof using. intros Hn Hk. cbn [describe]. unfold describe_body. rewrite Hn. cbn [mbind option_bind]. unfold scalar_kind in Hk. by destruct (tn_kind nd). Qed.

Lemma scalar_op_kind f : op_ok p f -> scalar_op (ef_op f) = true -> exists nd, p !! ef_node f = Some nd /\ scalar_kind nd /\ ef_op f = Some (op_of nd).
Proof using.
  unfold op_ok. destruct (ef_op f) as [op|]; [|done]. intros (nd & Hn & ->) Hs. exists nd. split_and!; [done| |done]. unfold scalar_kind, op_of in *. by destruct (tn_kind nd).
Qed.

(** The text of scalar fields is the same at every depth. *)
Lemma emission_scalars fields v fuel depth run fuel' depth' run' : Forall (op_ok p) fields -> Forall (fun c => scalar_op (ef_op c) = true) fields ->
  emission (text (S fuel) depth run) fields v = emission (text (S fuel') depth' run') fields v.
Proof using.
  intros Ho Hs. induction Ho as [|f fields Hf _ IH]; [done|]. apply Forall_cons in Hs as [Hsf Hs]. cbn [emission]. rewrite (IH Hs). do 2 f_equal.
  unfold leaf. destruct (at_path (ef_offset f) v) as [x|]; [|done]. cbn [mbind option_bind]. unfold text.
  destruct (scalar_op_kind f Hf Hsf) as (nd & Hn & Hk & _). by rewrite !(describe_scalar_node _ _ _ _ _ _ Hn Hk).
Qed.

(** *** Members *)

Lemma describe_members_text down s v rs : Forall (fun r => er_hop r = None /\ er_omitEmpty r = false /\ er_omitZero r = false) rs -> (exists vs, v = VStruct vs) ->
  (fun ms => map member_text (concat ms)) <$> mapM (describe_field h down s v) rs = member_texts h (fun n x => raw_of <$> down n x) rs v.
Proof using.
  intros Hrs [vs ->]. induction Hrs as [|r rs (H1 & H2 & H3) _ IH]; [done|]. unfold member_texts in *. cbn [mapM]. rewrite <- IH. clear IH.
  unfold describe_field, present, enc_hops. rewrite H1. cbn [mbind option_bind behind at_path fmap option_fmap option_map].
  destruct (vs !! er_slot r) as [x|]; [|done]. cbn. unfold omitted. rewrite H2, H3. cbn. destruct (down (er_node r) x) as [t|]; [|done]. cbn.
  by destruct (mapM _ rs).
Qed.

Lemma member_texts_None txt rs v r x : In r rs -> at_path [er_slot r] v = Some x -> txt (er_node r) x = None -> member_texts h txt rs v = None.
Proof using.
  intros Hr Hx Ht. unfold member_texts. induction rs as [|r' rs IH]; [done|]. cbn [mapM]. destruct Hr as [->|Hr].
  - rewrite Hx. cbn [mbind option_bind]. by rewrite Ht.
  - destruct (at_path [er_slot r'] v) as [y|]; [|done]. cbn [mbind option_bind]. destruct (txt (er_node r') y); [|done]. cbn [mbind option_bind]. by rewrite IH.
Qed.

Lemma member_texts_length txt rs v l : member_texts h txt rs v = Some l -> length l = length rs.
Proof using. intros E. unfold member_texts in E. apply mapM_Some_1 in E. by rewrite (Forall2_length _ _ _ E). Qed.

(** What is left once the first comma is stripped. *)
Lemma stripped_text a l close : a <> [] -> l <> [] -> a ++ close = commas l ++ ["}"%ch] -> "{"%ch :: drop 1 a ++ close = obj_text l.
Proof using.
  intros Ha Hl E. unfold obj_text. rewrite intercalate_commas. destruct a as [|c a]; [done|]. destruct l as [|x l]; [done|].
  unfold commas in *. cbn in E |- *. rewrite ?drop_0. congruence.
Qed.

Lemma emission_head txt f fields v a : emission txt (f :: fields) v = Some a -> ef_name f <> [] -> a <> [].
Proof using.
  cbn [emission]. destruct (leaf txt f v), (emission txt fields v); cbn; try done. intros [= <-] Hf. by destruct (ef_name f).
Qed.

(** *** Simple records *)

Lemma fused_extra fields fused close extra : fuseSimpleStructFields ep fields = (fused, close, extra) ->
  0 <= extra /\
  (forall f child, In f fields -> fuseEligible ep f.1 = Some child -> encFusedExtra child + 1 <= extra) /\
  (extra = 0 \/ exists f child, In f fields /\ fuseEligible ep f.1 = Some child /\ extra = encFusedExtra child + 1).
Proof using.
  intros Ef. destruct (fused_in ep _ _ _ _ Ef) as [(_ & _ & Hx & Hnone)|(close' & El & _)].
  - split_and!; [lia|intros f child Hf; by rewrite Hnone|by left].
  - destruct (fuse_extra ep _ _ _ _ _ _ El) as (H1 & H2 & H3). split_and!; [done|intros [f q] child; apply H2|].
    destruct H3 as [H3|(f & q & child & H3)]; [by left|right]. by exists (f, q), child.
Qed.

Lemma extra_nonneg n nd s : enc_record_ok h p ep rank n nd s -> 0 <= encFusedExtra (es_program s).
Proof using.
  intros Hs. destruct (eo_compiled _ _ _ _ _ _ _ Hs) as [complete E]. destruct (compile_struct_inv _ _ _ _ _ _ _ E (eo_names _ _ _ _ _ _ _ Hs)) as [_ Hinv].
  destruct (encSimple s); [|destruct Hinv as (_ & _ & ->); done]. destruct Hinv as (fused & Ef & _). by apply fused_extra in Ef as (? & _).
Qed.

Section Record.
Context (n : nat) (nd : typedNode) (s : encStruct) (complete : nat -> bool).
Hypothesis Hn : p !! n = Some nd.
Hypothesis Hk : tn_kind nd = typedStruct.
Hypothesis Hs : enc_record_ok h p ep rank n nd s.
Hypothesis Hsr : simple_record (es_resolved s) = true.

Abbreviation raw_fields := (map (fun r => (enc_field h p complete r, er_name r)) (es_resolved s)).

Lemma record_text fuel depth run v : has_type p n v ->
  text (S fuel) depth run n v = if DefaultMaxDepth <=? depth then None else obj_text <$> member_texts h (text fuel (depth + 1) run) (es_resolved s) v.
Proof using Hn Hk Hs Hsr.
  intros Hv. destruct (struct_value p n nd v Hn Hk Hv) as (vs & -> & _). unfold text at 1. cbn [describe]. unfold describe_body. rewrite Hn.
  cbn [mbind option_bind]. rewrite Hk. destruct (Z.ltb_spec depth DefaultMaxDepth); [|by rewrite (proj2 (Z.leb_le _ _)) by lia].
  rewrite (proj2 (Z.leb_gt _ _)) by lia. unfold describe_struct. rewrite (eo_program _ _ _ _ _ _ _ Hs). cbn [mbind option_bind].
  unfold text. rewrite <- (describe_members_text (describe h p ep fuel (depth + 1) run) s) by
    (try (by eexists); apply List.Forall_forall; intros r Hr; by apply (simple_hop (es_resolved s))).
  by destruct (mapM _ (es_resolved s)).
Qed.

(** The records spliced into this one. *)
Lemma spliced_record f child v : In f raw_fields -> fuseEligible ep f.1 = Some child -> has_type p n v ->
  (rank (ef_node f.1) < rank n)%nat /\ (exists cn cs, p !! ef_node f.1 = Some cn /\ tn_kind cn = typedStruct /\
    enc_record_ok h p ep rank (ef_node f.1) cn cs /\ encSimple cs = true /\ child = es_program cs) /\
  Forall (fun c => scalar_op (ef_op c) = true) (encFields child) /\
  exists q x, In q (es_resolved s) /\ ef_node f.1 = er_node q /\ ef_offset f.1 = [er_slot q] /\ at_path [er_slot q] v = Some x /\ has_type p (er_node q) x.
Proof using He Hn Hk Hs Hsr.
  intros (q & <- & Hq)%in_map_iff Hel Hv. cbn [fst] in *. destruct (simple_hop _ _ Hsr Hq) as [Hh _].
  destruct (enc_field_ok h p ep rank complete n nd q s Hn Hk Hs Hq Hh) as (H1 & H2 & H3). split; [done|].
  destruct (eligible_inv ep _ _ Hel) as (Hop & cs & Hprog & Hcs & Hc & Hsc). unfold op_ok in H2. rewrite Hop in H2. destruct H2 as (cn & Hcn & Hco).
  pose proof (struct_node p _ cn Hcn Hco) as Hck. destruct (en_record _ _ _ _ _ _ (He _ _ Hcn) Hck) as [cs' Hrec].
  pose proof (eo_program _ _ _ _ _ _ _ Hrec) as Hp2. rewrite Hprog in Hp2. injection Hp2 as <-. destruct (H1 v Hv) as (x & Hx & Hxt).
  split_and!; [by exists cn, cs|done|by exists q, x].
Qed.

(** What the fused program writes, given what the spliced records' do. *)
Lemma fused_text txt fused v : fuseSimpleStructFields ep raw_fields = (fused, encClose (es_program s), encFusedExtra (es_program s)) ->
  Forall2 same (encFields (es_program s)) (strip_comma (map fst fused)) -> encSimple s = true ->
  Forall (fun f => fusible txt ep v f.1) raw_fields ->
  cat (Some ["{"%ch]) (program_text txt (es_program s) v) = obj_text <$> member_texts h txt (es_resolved s) v.
Proof using Hs Hsr.
  intros Ef Hsame Hsimple Hfus. pose proof (fuseSimple_text txt ep _ _ _ _ v Ef Hfus) as Et. unfold program_text. rewrite (emission_same txt _ _ v Hsame).
  rewrite map_map in Et. rewrite (map_ext _ (enc_field h p complete)), emission_fields in Et by done.
  assert (Hname : match map fst fused with f :: _ => ef_name f <> [] | [] => True end).
  { destruct (fused_in ep _ _ _ _ Ef) as [(-> & _)|(close & El & _)]; [by destruct (es_resolved s)|].
    assert (Hc : match fused with f :: _ => ef_name f.1 <> [] | [] => True end); [|by destruct fused].
    apply (fuse_names ep _ _ _ _ _ _ El). apply List.Forall_forall. intros f Hf. split; [by apply in_map_iff in Hf as (q & <- & _)|].
    rewrite List.Forall_forall in Hfus. intros child Hel. by destruct (Hfus f Hf child Hel). }
  rewrite strip_text by done. destruct (emission txt (map fst fused) v) as [a|] eqn:Ea.
  2: { cbn in Et |- *. destruct (member_texts h txt (es_resolved s) v); [done|]. done. }
  destruct (member_texts h txt (es_resolved s) v) as [l|] eqn:El; [|done]. cbn in Et |- *. injection Et as Et. f_equal.
  pose proof (member_texts_length _ _ _ _ El) as Hlen. destruct (map fst fused) as [|f fs] eqn:Efs.
  - assert (Hz : encFields (es_program s) = []) by (by inversion Hsame). destruct (es_resolved s) as [|r rs] eqn:Er.
    + destruct l; [|done]. cbn in Ea. injection Ea as <-. cbn in *. by rewrite Et.
    + exfalso. by apply (eo_body _ _ _ _ _ _ _ Hs Hsimple); [rewrite Er|].
  - apply stripped_text; [by eapply emission_head| |done]. intros ->. destruct (es_resolved s); [|done]. destruct (fused_in ep _ _ _ _ Ef) as [(-> & _)|(close & El' & _)]; [done|].
    cbn in El'. by injection El' as <- _ _.
Qed.
End Record.

Lemma simple_text n nd s : p !! n = Some nd -> tn_kind nd = typedStruct -> enc_record_ok h p ep rank n nd s -> encSimple s = true ->
  forall fuel depth run v, has_type p n v -> enough fuel depth run ->
  text fuel depth run n v =
    if DefaultMaxDepth <=? depth + encFusedExtra (es_program s) then None
    else cat (Some ["{"%ch]) (program_text (text (pred fuel) (depth + 1) run) (es_program s) v).
Proof using He.
  remember (rank n) as r eqn:Hr. revert n nd s Hr. induction (lt_wf r) as [r _ IH]. intros n nd s -> Hn Hk Hs Hsimple fuel depth run v Hv Hfuel.
  destruct fuel as [|fuel]; [unfold enough in Hfuel; lia|]. cbn [pred].
  destruct (eo_compiled _ _ _ _ _ _ _ Hs) as [complete E]. destruct (compile_struct_inv _ _ _ _ _ _ _ E (eo_names _ _ _ _ _ _ _ Hs)) as [Hsr Hinv].
  rewrite Hsimple in *. symmetry in Hsr. destruct Hinv as (fused & Ef & Hpaths & Hpasses). rewrite (record_text n nd s Hn Hk Hs Hsr) by done.
  destruct Hpasses as (Hsame & _).
  { apply (fused_lengths _ _ _ _ _ Ef). apply List.Forall_forall. by intros f (q & <- & _)%in_map_iff. }
  set (fields := map _ (es_resolved s)) in *. set (T := text fuel (depth + 1) run).
  destruct (fused_extra _ _ _ _ Ef) as (Hx0 & Hxle & Hx).
  destruct (Z.leb_spec DefaultMaxDepth depth) as [Hd|Hd]; [by rewrite (proj2 (Z.leb_le _ _)) by lia|].
  assert (Hfuel' : enough fuel (depth + 1) run) by (unfold enough in *; lia).
  destruct (Z.leb_spec DefaultMaxDepth (depth + encFusedExtra (es_program s))) as [Hde|Hde].
  - destruct Hx as [Hx|(f & child & Hf & Hel & Hx)]; [lia|].
    destruct (spliced_record n nd s complete Hn Hk Hs Hsr f child v Hf Hel Hv) as (Hrank & (cn & cs & Hcn & Hck & Hcr & Hcs & ->) & _ & q & x & Hq & Enode & _ & Hxa & Hxt).
    rewrite <- Enode in *. rewrite (member_texts_None T (es_resolved s) v q x Hq Hxa); [done|]. rewrite <- Enode. unfold T.
    rewrite (IH _ Hrank _ _ _ eq_refl Hcn Hck Hcr Hcs _ _ _ _ Hxt Hfuel'). by rewrite (proj2 (Z.leb_le _ _)) by lia.
  - symmetry. apply (fused_text n nd s complete Hs Hsr T fused v Ef Hsame Hsimple). apply List.Forall_forall. intros f Hf child Hel.
    destruct (spliced_record n nd s complete Hn Hk Hs Hsr f child v Hf Hel Hv) as (Hrank & (cn & cs & Hcn & Hck & Hcr & Hcs & ->) & Hsc & q & x & Hq & Enode & Eoff & Hxa & Hxt).
    rewrite <- Enode in *. pose proof (simple_facts h p ep rank He _ cn cs Hcn Hck Hcr Hcs) as [_ Hop Hlen _ _]. split; [done|]. exists x. rewrite Eoff. split; [done|].
    pose proof (Hxle f _ Hf Hel). pose proof (extra_nonneg _ _ _ Hcr). unfold T. rewrite (IH _ Hrank _ _ _ eq_refl Hcn Hck Hcr Hcs _ _ _ _ Hxt Hfuel'). rewrite (proj2 (Z.leb_gt _ _)) by lia.
    unfold program_text. f_equal. f_equal. destruct fuel as [|[|fuel]]; [unfold enough in *; lia..|]. cbn [pred]. by apply emission_scalars.
Qed.
End Text.
