(* ===== verification/EncodeKeys.v ===== *)
(** The entries of a map: their names are distinct, and so their order is the same
    whatever order the map is iterated in. *)

From S2P Require Import Prelude Words Utf8 Scanner Lex Grammar StringRef Errors Numbers Reader Validator FastValid ParserString Layout Decode NumberEqual Digits DecoderScalar EncodeString EncodeInt OpenAddr FieldFold FieldTable TypedPlan EncodePlan TypedEncode EncodeSpec EncodeFuse.
From stdpp Require Import gmap sorting.
Open Scope Z_scope.

(** ** The order of names *)

Lemma bytes_le_total a b : bytes_le a b = true \/ bytes_le b a = true.
Proof.
  revert b. induction a as [|x a IH]; intros b; [by left|]. destruct b as [|y b]; [by right|]. cbn [bytes_le].
  destruct (Z.lt_trichotomy x y) as [H|[->|H]]; [left|rewrite Z.ltb_irrefl, Z.eqb_refl; apply IH|right]; by rewrite (proj2 (Z.ltb_lt _ _) H).
Qed.

Lemma bytes_le_cons x y a b : bytes_le (x :: a) (y :: b) = true -> x < y \/ x = y /\ bytes_le a b = true.
Proof. cbn [bytes_le]. destruct (Z.ltb_spec x y); [by left|]. destruct (Z.eqb_spec x y); [by right|done]. Qed.

Lemma bytes_le_trans a b c : bytes_le a b = true -> bytes_le b c = true -> bytes_le a c = true.
Proof.
  revert b c. induction a as [|x a IH]; intros b c Hab Hbc; [done|]. destruct b as [|y b]; [done|]. destruct c as [|z c]; [done|].
  apply bytes_le_cons in Hab, Hbc. cbn [bytes_le]. destruct (Z.ltb_spec x z); [done|]. assert (x = z /\ bytes_le a b = true /\ bytes_le b c = true) as (-> & Hab' & Hbc').
  { destruct Hab as [Hab|[Ex Hab]], Hbc as [Hbc|[Ey Hbc]]; first [exfalso; lia|by split_and!; [lia|..]]. }
  rewrite Z.eqb_refl. cbn [orb andb]. by eapply IH.
Qed.

Lemma bytes_le_antisym a b : bytes_le a b = true -> bytes_le b a = true -> a = b.
Proof.
  revert b. induction a as [|x a IH]; intros [|y b] Hab Hba; [done..|]. apply bytes_le_cons in Hab, Hba.
  destruct Hab as [Hab|[-> Hab]], Hba as [Hba|[E Hba]]; try (exfalso; lia). f_equal. by apply IH.
Qed.

#[export] Instance entry_le_total {A} : Total (@entry_le A).
Proof. intros a b. apply bytes_le_total. Qed.
#[export] Instance entry_le_trans {A} : Transitive (@entry_le A).
Proof. intros a b c. apply bytes_le_trans. Qed.

(** Entries with distinct names have one sorted order. *)
Lemma sorted_once {A} (l k : list (bytes * A)) : NoDup (map fst l) -> l ≡ₚ k -> merge_sort entry_le l = merge_sort entry_le k.
Proof.
  intros Hnd Hp. apply (Sorted_unique_strong entry_le); [|apply Sorted_merge_sort, _|apply Sorted_merge_sort, _|by rewrite !merge_sort_Permutation].
  intros x y Hx Hy Hxy Hyx. rewrite merge_sort_Permutation in Hx, Hy. rewrite <- Hp in Hy. assert (E : x.1 = y.1) by (by apply bytes_le_antisym).
  apply list_elem_of_lookup in Hx as [i Hi], Hy as [j Hj]. assert (i = j) as ->; [|congruence].
  apply (NoDup_lookup (map fst l) _ _ x.1 Hnd); rewrite list_lookup_fmap; [by rewrite Hi|by rewrite Hj, E].
Qed.

(** ** Names of keys *)

Section Keys.
Context (p : plan) (nd : typedNode).
Hypothesis Hbits : tn_mapKeyKind nd <> mapKeyString -> int_width (tn_keyBits nd).

Lemma key_width : tn_mapKeyKind nd <> mapKeyString -> 2 ^ (tn_keyBits nd - 1) <= 2 ^ 63 /\ 2 ^ tn_keyBits nd <= 2 ^ 64.
Proof using Hbits. intros H. destruct (Hbits H) as [-> |[-> |[-> | ->]]]; lia. Qed.

Definition keyed (k : map_key) : bytes := default [] (key_name nd k).

Lemma key_named k : key_type p nd k -> key_name nd k = Some (keyed k).
Proof using. unfold keyed, key_name. by intros [? ? ->|? ? ->|? ? ->]. Qed.

Lemma key_entry_ok spare k arena : key_type p nd k -> exists arena', key_entry spare nd k arena = Ok (keyed k, arena').
Proof using Hbits.
  intros Hk. unfold key_entry, keyed, key_name. inversion Hk as [? s E|? z E Hz|? z E Hz]; subst; rewrite E; [by eexists|..];
    (destruct key_width as [H1 H2]; [congruence|]); cbn [default].
  - destruct (Z.ltb_spec z 0).
    + rewrite appendCompactInt_ok by lia. by eexists.
    + unfold w64. rewrite Z.mod_small by lia. rewrite appendCompactUint_ok by lia. eexists. unfold FormatInt. by rewrite (proj2 (Z.ltb_ge _ _)).
  - rewrite appendCompactUint_ok by lia. by eexists.
Qed.

Lemma keyed_inj k k' : key_type p nd k -> key_type p nd k' -> keyed k = keyed k' -> k = k'.
Proof using Hbits.
  intros Hk Hk'. unfold keyed, key_name. inversion Hk as [? s E|? z E Hz|? z E Hz]; subst; inversion Hk' as [? s' E'|? z' E' Hz'|? z' E' Hz']; subst; try congruence; rewrite E;
    change (default [] (Some ?x)) with x.
  - by intros ->.
  - destruct key_width as [H1 H2]; [congruence|]. intros Hf. f_equal. destruct (FormatInt_number z ltac:(lia)) as (_ & _ & <- & _).
    destruct (FormatInt_number z' ltac:(lia)) as (_ & _ & <- & _). by rewrite Hf.
  - destruct key_width as [H1 H2]; [congruence|]. intros Hf. f_equal. destruct (FormatUint_digits z ltac:(lia)) as (_ & <- & _).
    destruct (FormatUint_digits z' ltac:(lia)) as (_ & <- & _). by rewrite Hf.
Qed.

Definition entry_of (e : map_key * gval) : bytes * gval := (keyed e.1, e.2).

Lemma map_entries_ok spare l arena : Forall (fun e => key_type p nd e.1) l -> map_entries spare nd l arena = Ok (map entry_of l).
Proof using Hbits.
  intros Hl. revert arena. induction Hl as [|[k x] l Hk _ IH]; intros arena; [done|]. cbn [map_entries]. destruct (key_entry_ok spare k arena Hk) as [arena' ->].
  cbn [res_bind]. by rewrite IH.
Qed.

Lemma entries_named l : Forall (fun e => key_type p nd e.1) l -> mapM (fun e => (fun name => (name, e.2)) <$> key_name nd e.1) l = Some (map entry_of l).
Proof using.
  induction 1 as [|[k x] l Hk _ IH]; [done|]. cbn [mapM]. cbn [fst snd] in *. rewrite (key_named k Hk). cbn. by rewrite IH.
Qed.

Lemma entries_distinct (m : gmap map_key gval) : Forall (fun e => key_type p nd e.1) (map_to_list m) -> NoDup (map fst (map entry_of (map_to_list m))).
Proof using Hbits.
  rewrite map_map. pose proof (NoDup_fst_map_to_list m) as Hnd. intros Hk. revert Hnd. generalize (map_to_list m) Hk. clear m Hk. intros l Hk.
  induction Hk as [|[k x] l Hk Hl IH]; [constructor|]. cbn. rewrite !NoDup_cons. intros [Hn Hnd]. split; [|by apply IH].
  intros ([k' x'] & E & Hin)%list_elem_of_fmap. cbn in E. rewrite Forall_forall in Hl. apply keyed_inj in E; [|done|exact (Hl _ Hin)].
  apply Hn, list_elem_of_fmap. by exists (k', x').
Qed.

(** Any iteration of the map gives the entries of the description. *)
Lemma entries_ok spare m l : l ≡ₚ map_to_list m -> Forall (fun e => key_type p nd e.1) (map_to_list m) ->
  exists entries, map_entries spare nd l [] = Ok entries /\ sorted_entries nd m = Some (merge_sort entry_le entries) /\ entries ≡ₚ map entry_of (map_to_list m).
Proof using Hbits.
  intros Hl Hk. assert (Hkl : Forall (fun e => key_type p nd e.1) l) by (by rewrite Hl). exists (map entry_of l).
  split_and!; [by apply map_entries_ok| |by rewrite Hl]. unfold sorted_entries. rewrite entries_named by done. cbn. f_equal.
  apply sorted_once; [by apply entries_distinct|by rewrite Hl].
Qed.
End Keys.
