(* ===== verification/EncodeRun.v ===== *)
(** The encoder writes the text of a value's description behind the destination, or
    fails with an encode error where there is none: it never panics and the fuel
    never runs out. *)

From S2P Require Import Prelude Words Utf8 Scanner Lex Grammar StringRef Errors Numbers Reader Validator FastValid ParserString Layout Decode NumberEqual Digits DecoderScalar EncodeString EncodeInt OpenAddr FieldFold FieldTable TypedPlan EncodePlan TypedEncode EncodeSpec EncodeFuse EncodeText EncodeKeys.
From stdpp Require Import gmap sorting.
Open Scope Z_scope.

(** ** Values made of bytes *)

#[warnings="-register-all"] Inductive bytes_value : gval -> Prop :=
  | BV_bool b : bytes_value (VBool b)
  | BV_string s : bytes_ok s -> bytes_value (VString s)
  | BV_int z : bytes_value (VInt z)
  | BV_uint z : bytes_value (VUint z)
  | BV_struct l : Forall bytes_value l -> bytes_value (VStruct l)
  | BV_slice_nil : bytes_value (VSlice None)
  | BV_slice l stale : Forall bytes_value l -> bytes_value (VSlice (Some (l, stale)))
  | BV_array l : Forall bytes_value l -> bytes_value (VArray l)
  | BV_pointer_nil : bytes_value (VPointer None)
  | BV_pointer x : bytes_value x -> bytes_value (VPointer (Some x))
  | BV_map_nil : bytes_value (VMap None)
  | BV_map m : (forall k x, m !! k = Some x -> match k with inl s => bytes_ok s | inr _ => True end /\ bytes_value x) -> bytes_value (VMap (Some m)).

Lemma bytes_at_path path v x : bytes_value v -> at_path path v = Some x -> bytes_value x.
Proof.
  revert v. induction path as [|slot path IH]; intros v Hv E; [by injection E as <-|]. cbn [at_path] in E. inversion Hv as [| | | |l Hl| | | | | | |]; subst; try done.
  destruct (l !! slot) as [y|] eqn:Ey; [|done]. apply (IH y); [|done]. by eapply Forall_lookup_1.
Qed.

Lemma bytes_behind hops slot v x : bytes_value v -> behind hops slot v = Some (Some x) -> bytes_value x.
Proof.
  revert v. induction hops as [|hop hops IH]; intros v Hv E; (destruct v as [| | | |l| | | |]; try done); inversion Hv as [| | | |? Hl| | | | | | |]; subst; cbn [behind] in E.
  - destruct (l !! slot) as [y|] eqn:Ey; [|done]. injection E as <-. by eapply Forall_lookup_1.
  - destruct (l !! hop) as [[| | | | | | |[y|]|]|] eqn:Ey; try done. apply (IH y); [|done]. pose proof (Forall_lookup_1 _ _ _ _ Hl Ey) as Hq. by inversion Hq.
Qed.

(** ** Outcomes *)

Section Gives.
Context (Quote : bytes -> string).

(** The errors of an encoder without custom code. *)
Definition refusal (e : go_error) : Prop :=
  match e with
  | EEncode c | EPath (mkPathError c _) => Reason c = too_deep \/ exists literal, Reason c = String.append "invalid number literal " (Quote literal)
  | EOther _ => False
  end.

Lemma refusal_field e name : refusal e -> refusal (prependEncodePathField e name).
Proof using. destruct e as [c|[c buf]|]; cbn; [|done..]. by destruct (encodePathBufferThreshold <=? _). Qed.
Lemma refusal_index e i : refusal e -> refusal (prependEncodePathIndex e i).
Proof using. destruct e as [c|[c buf]|]; cbn; [|done..]. by destruct (encodePathBufferThreshold <=? _). Qed.

Definition gives (r : enc) (dst : bytes) (o : option bytes) : Prop :=
  match o with Some s => r = Ok (dst ++ s) | None => exists e, r = Err e /\ refusal e end.

Lemma gives_ok dst s : gives (Ok (dst ++ s)) dst (Some s).
Proof using. done. Qed.

Lemma gives_here dst : gives (Ok dst) dst (Some []).
Proof using. cbn. by rewrite app_nil_r. Qed.

Lemma gives_bind r k dst o o' : gives r dst o -> (forall s, o = Some s -> gives (k (dst ++ s)) (dst ++ s) o') -> gives (let* d := r in k d) dst (cat o o').
Proof using.
  destruct o as [s|]; cbn [gives].
  - intros -> Hk. cbn [res_bind]. specialize (Hk s eq_refl). destruct o' as [t|]; cbn in Hk |- *; [|done]. by rewrite Hk, app_assoc.
  - intros (e & -> & He) _. cbn. by exists e.
Qed.

Lemma gives_step r k dst o o' : gives r dst o -> (forall dst, gives (k dst) dst o') -> gives (let* d := r in k d) dst (cat o o').
Proof using. intros Hr Hk. apply gives_bind; [done|]. intros s _. apply Hk. Qed.

Lemma gives_after dst s r o : gives r (dst ++ s) o -> gives r dst (cat (Some s) o).
Proof using. destruct o as [t|]; cbn; [|done]. by rewrite app_assoc. Qed.

Lemma gives_error dst : gives (encode_error too_deep) dst None.
Proof using. eexists. split; [done|by left]. Qed.

Lemma gives_at_index i r dst o : gives r dst o -> gives (at_index i r) dst o.
Proof using. destruct o as [s|]; cbn; [by intros ->|]. intros (e & -> & He). eexists. split; [done|by apply refusal_index]. Qed.

Lemma gives_map_field name r dst o : gives r dst o -> gives (map_err (fun e => prependEncodePathField e name) r) dst o.
Proof using. destruct o as [s|]; cbn; [by intros ->|]. intros (e & -> & He). eexists. split; [done|by apply refusal_field]. Qed.

Lemma gives_at_field paths i r dst o : (i < length paths)%nat -> gives r dst o -> gives (at_field paths i r) dst o.
Proof using.
  intros Hi. destruct o as [s|]; cbn; [by intros ->|]. intros (e & -> & He). cbn. destruct (lookup_lt_is_Some_2 paths i Hi) as [name ->].
  eexists. split; [done|by apply refusal_field].
Qed.
End Gives.

(** ** Omission *)

Lemma is_empty_ok p n v : has_type p n v -> typedValueIsEmpty p n v = Ok (is_empty v).
Proof.
  intros Hv. unfold typedValueIsEmpty. inversion Hv as [? ? ? Hn Hk|? ? ? Hn Hk|? ? ? Hn Hk|? ? ? Hn Hk|? ? ? Hn Hk|? ? ? Hn Hk|? ? Hn Hk|? ? ? ? Hn Hk
    |? ? ? Hn Hk Hlen|? ? Hn Hk|? ? ? Hn Hk|? ? Hn Hk|? ? ? Hn Hk]; subst; rewrite Hn, Hk; cbn; try done. by rewrite Hlen.
Qed.

Lemma should_omit_ok p f r v : has_type p (ef_node f) v -> ef_omitEmpty f = er_omitEmpty r -> ef_omitZero f = er_omitZero r ->
  typedValueShouldOmit p f v = Ok (omitted r v).
Proof.
  intros Hv E1 E2. unfold typedValueShouldOmit, omitted. rewrite E1, E2. destruct (er_omitEmpty r); [rewrite (is_empty_ok _ _ _ Hv)|]; cbn [res_bind andb orb]; done.
Qed.

Lemma behind_resolves hops slot v o : behind hops slot v = Some o ->
  match o with
  | Some x => exists base, resolveResetHops hops v = Ok (Some base) /\ at_path [slot] base = Some x
  | None => resolveResetHops hops v = Ok None
  end.
Proof.
  revert v. induction hops as [|hop hops IH]; intros v E; (destruct v as [| | | |l| | | |]; try done); cbn [behind] in E.
  - destruct (l !! slot) as [x|] eqn:Ex; [|done]. injection E as <-. eexists. split; [done|]. cbn. by rewrite Ex.
  - cbn [resolveResetHops]. unfold source_at. cbn [at_path]. destruct (l !! hop) as [[| | | | | | |[x|]|]|]; try done; cbn [mbind option_bind res_bind].
    + by apply IH.
    + by injection E as <-.
Qed.

Lemma behind_typed p slots hops slot n vs : enc_path p slots hops slot n -> Forall2 (slot_type p) slots vs ->
  exists o, behind hops slot (VStruct vs) = Some o /\ forall x, o = Some x -> has_type p n x.
Proof.
  intros Hp. revert vs. induction Hp as [slots slot n Hslot|slots hop hops slot n q pnd snd_ Hq Hqn Hqk Hsn Hsk _ IH]; intros vs Hvs; cbn [behind].
  - destruct (slot_found _ _ _ _ _ Hvs Hslot) as (x & -> & Ht). eexists. split; [done|]. by intros ? [= <-].
  - destruct (slot_found _ _ _ _ _ Hvs Hq) as (x & -> & Ht). inversion Ht; simplify_eq; try congruence.
    + eexists. split; [done|]. done.
    + destruct (struct_value p (tn_elem pnd) snd_ v Hsn Hsk ltac:(done)) as (vs' & -> & Hvs'). by apply IH.
Qed.

(** The entries of a map of a type. *)
Lemma entry_typed p nd m name x : (tn_mapKeyKind nd <> mapKeyString -> int_width (tn_keyBits nd)) ->
  (forall k v, m !! k = Some v -> key_type p nd k /\ has_type p (tn_elem nd) v) ->
  (forall k x, m !! k = Some x -> match k with inl s => bytes_ok s | inr _ => True end /\ bytes_value x) ->
  (name, x) ∈ map (entry_of nd) (map_to_list m) -> has_type p (tn_elem nd) x /\ bytes_value x /\ bytes_ok name.
Proof.
  intros Hbits Hm Hbm Hin. apply list_elem_of_fmap in Hin as ([k y] & [= -> ->] & Hky%elem_of_map_to_list).
  destruct (Hm k y Hky) as [Hkt Hyt], (Hbm k y Hky) as [Hkb Hyb]. split_and!; [done..|].
  cbn [fst]. unfold keyed, key_name. inversion Hkt as [? s0 Ek|? z Ek Hz|? z Ek Hz]; subst; rewrite Ek; change (default [] (Some ?x)) with x; [done|..].
  all: destruct (key_width nd Hbits ltac:(congruence)) as [Hw1 Hw2].
  - apply jnumber_bytes. by apply (FormatInt_number z ltac:(lia)).
  - destruct (FormatUint_digits z ltac:(lia)) as ((Hdig & _) & _). eapply Forall_impl; [exact Hdig|]. intros c Hc. by apply digit_byte.
Qed.

(** ** The encoder *)

Section Run.
Context (spare : bytes -> bytes) (Quote : bytes -> string) (h : bool) (p : plan) (ep : programs).
Context (iterate : gmap map_key gval -> list (map_key * gval)) (rank : nat -> nat).
Hypothesis He : forall n nd, p !! n = Some nd -> enc_node_ok h p ep rank n nd.
Hypothesis Hiter : forall m, iterate m ≡ₚ map_to_list m.

Abbreviation Gives := (gives Quote).
Abbreviation T := (text h p ep).

(** *** Scalars *)

Lemma put_string_ok s dst : bytes_ok s -> Gives (put_string spare h s dst) dst (Some (quoted h s)).
Proof using. intros Hs. unfold put_string. by rewrite appendEncodedJSONString_ok. Qed.

Lemma put_int_ok z dst : - 2 ^ 63 <= z < 2 ^ 63 -> Gives (put_int spare z dst) dst (Some (FormatInt z)).
Proof using. intros Hz. unfold put_int. by rewrite appendCompactInt_ok. Qed.

Lemma put_uint_ok z dst : 0 <= z < 2 ^ 64 -> Gives (put_uint spare z dst) dst (Some (FormatUint z)).
Proof using. intros Hz. unfold put_uint. by rewrite appendCompactUint_ok. Qed.

Lemma width_range nd z : int_width (tn_bits nd) -> - 2 ^ (tn_bits nd - 1) <= z < 2 ^ (tn_bits nd - 1) -> - 2 ^ 63 <= z < 2 ^ 63.
Proof using. intros [-> |[-> |[-> | ->]]] Hz; lia. Qed.
Lemma width_urange nd z : int_width (tn_bits nd) -> 0 <= z < 2 ^ tn_bits nd -> 0 <= z < 2 ^ 64.
Proof using. intros [-> |[-> |[-> | ->]]] Hz; lia. Qed.

(** The appends of a scalar operation. *)
Definition scalar_encoder (op : typedOp) : option (gval -> bytes -> enc) :=
  match op with
  | typedOpBool => Some encode_bool
  | typedOpString => Some (encode_string spare h)
  | typedOpNumber => Some (encode_number Quote)
  | typedOpInt _ => Some (encode_int spare)
  | typedOpUint _ => Some (encode_uint spare)
  | _ => None
  end.

Lemma scalar_gives fuel depth run n nd x run_op dst : p !! n = Some nd -> has_type p n x -> bytes_value x -> scalar_encoder (op_of nd) = Some run_op ->
  Gives (run_op x dst) dst (T (S fuel) depth run n x).
Proof using He.
  intros Hn Hx Hb Hop. assert (Hsk : scalar_kind nd) by (unfold op_of, scalar_kind in *; by destruct (tn_kind nd)).
  unfold text. rewrite (describe_scalar_node h p ep _ _ _ _ _ _ Hn Hsk). unfold describe_scalar.
  unfold scalar_kind, op_of in *. inversion Hx as [? ? b Hn' Hk|? ? s Hn' Hk|? ? s Hn' Hk|? ? z Hn' Hk Hz|? ? z Hn' Hk Hz|? ? ? Hn' Hk|? ? Hn' Hk|? ? ? ? Hn' Hk
    |? ? ? Hn' Hk Hlen|? ? Hn' Hk|? ? ? Hn' Hk|? ? Hn' Hk|? ? ? Hn' Hk]; subst; rewrite Hn in Hn'; injection Hn' as <-; rewrite Hk in *; try done; injection Hop as <-.
  - done.
  - inversion Hb; subst. by apply put_string_ok.
  - unfold encode_number, encodeNumberLiteral. cbn [as_string res_bind]. destruct (validNumber _); [done|]. eexists. split; [done|]. right. by eexists.
  - apply put_int_ok. eapply width_range; [|done]. apply (en_bits _ _ _ _ _ _ (He _ _ Hn)). by left.
  - apply put_uint_ok. eapply width_urange; [|done]. apply (en_bits _ _ _ _ _ _ (He _ _ Hn)). by right.
Qed.

(** The integers of a slice, behind their commas. *)
Lemma comma_int fuel depth run n nd x dst : p !! n = Some nd -> op_of nd = typedOpInt 64 -> has_type p n x ->
  Gives (let* z := as_int x in put_comma_int spare z dst) dst (cat (Some [","%ch]) (T (S fuel) depth run n x)).
Proof using.
  intros Hn Ho Hx. assert (Hk : tn_kind nd = typedInt /\ tn_bits nd = 64) by (unfold op_of in Ho; by destruct (tn_kind nd); try done; injection Ho).
  destruct Hk as [Hk Hw]. inversion Hx; simplify_eq; try congruence. rewrite Hw in *. cbn [as_int res_bind]. unfold put_comma_int. rewrite appendCommaCompactInt_ok by lia.
  unfold text. rewrite (describe_scalar_node h p ep _ _ _ _ nd _ Hn) by (unfold scalar_kind; by rewrite Hk). unfold describe_scalar. by rewrite Hk.
Qed.

Lemma comma_uint fuel depth run n nd x dst : p !! n = Some nd -> op_of nd = typedOpUint 64 -> has_type p n x ->
  Gives (let* z := as_uint x in put_comma_uint spare z dst) dst (cat (Some [","%ch]) (T (S fuel) depth run n x)).
Proof using.
  intros Hn Ho Hx. assert (Hk : tn_kind nd = typedUint /\ tn_bits nd = 64) by (unfold op_of in Ho; by destruct (tn_kind nd); try done; injection Ho).
  destruct Hk as [Hk Hw]. inversion Hx; simplify_eq; try congruence. rewrite Hw in *. cbn [as_uint res_bind]. unfold put_comma_uint. rewrite appendCommaCompactUint_ok by lia.
  unfold text. rewrite (describe_scalar_node h p ep _ _ _ _ nd _ Hn) by (unfold scalar_kind; by rewrite Hk). unfold describe_scalar. by rewrite Hk.
Qed.

(** *** Records *)

Section Fields.
Context (rec : Z -> Z -> nat -> gval -> bytes -> enc) (depth run : Z) (fuel : nat).
(** What the encoder of the nodes below does. *)
Hypothesis Hrec : forall n v dst, has_type p n v -> bytes_value v -> Gives (rec depth run n v dst) dst (T (S fuel) depth run n v).

Abbreviation txt := (T (S fuel) depth run).

Lemma field_value_ok f x dst : op_ok p f -> has_type p (ef_node f) x -> bytes_value x ->
  Gives (encodeStructFieldValue spare Quote h rec depth run f x dst) dst (txt (ef_node f) x).
Proof using He Hrec.
  intros Ho Hx Hb. unfold encodeStructFieldValue, op_ok in *. destruct (ef_op f) as [op|]; [|by apply Hrec]. destruct Ho as (nd & Hn & ->).
  destruct (scalar_encoder (op_of nd)) as [g|] eqn:Hg.
  - pose proof (scalar_gives fuel depth run _ nd x g dst Hn Hx Hb Hg) as H. destruct (op_of nd); try done; by injection Hg as <-.
  - destruct (op_of nd); try done; by apply Hrec.
Qed.

(** A scalar field read by its own code. *)
Lemma scalar_field f x dst op g : op_ok p f -> ef_op f = Some op -> scalar_encoder op = Some g -> has_type p (ef_node f) x -> bytes_value x ->
  Gives (g x dst) dst (txt (ef_node f) x).
Proof using He. intros Ho E Hg Hx Hb. unfold op_ok in Ho. rewrite E in Ho. destruct Ho as (nd & Hn & ->). by eapply scalar_gives. Qed.

Lemma name_ok data f dst : block_ok data f -> Gives (appendSimpleFieldName spare data f dst) dst (Some (ef_name f)).
Proof using.
  intros Hb. unfold appendSimpleFieldName. destruct (Nat.eqb_spec (ef_nameLen f) 0) as [|Hz]; [done|]. cbn [orb]. destruct (_ <? 16)%nat; [done|].
  destruct (Hb Hz) as (-> & Hlen & _ & ->). assert (Ht : length (take 16 (ef_name f ++ replicate 16 0)) = 16%nat) by (rewrite length_take, length_app, length_replicate; lia).
  rewrite Ht. cbn [Nat.ltb]. rewrite Nat.min_l by lia. rewrite take_take, Nat.min_l by lia. cbn. by rewrite take_app_length.
Qed.

Lemma classify_inv a b :
  match classifyTypedEncPair a b with
  | typedEncPairFallback => True
  | typedEncPairStringString => a = Some typedOpString /\ b = Some typedOpString
  | typedEncPairSliceInt64 => a = Some typedOpSlice /\ b = Some (typedOpInt 64)
  | typedEncPairMapMap => a = Some typedOpMap /\ b = Some typedOpMap
  | typedEncPairInt64Bool => a = Some (typedOpInt 64) /\ b = Some typedOpBool
  | typedEncPairInt64Int64 => a = Some (typedOpInt 64) /\ b = Some (typedOpInt 64)
  | typedEncPairStringInt64 => a = Some typedOpString /\ b = Some (typedOpInt 64)
  | typedEncPairInt64String => a = Some (typedOpInt 64) /\ b = Some typedOpString
  end.
Proof using. unfold classifyTypedEncPair. by repeat case_match; subst. Qed.

Lemma pair_ok program i f g x y dst : length (encPaths program) = length (encFields program) -> (S i < length (encFields program))%nat ->
  op_ok p f -> op_ok p g -> ef_pairOp f = classifyTypedEncPair (ef_op f) (ef_op g) -> block_ok (encNameData program) g ->
  has_type p (ef_node f) x -> has_type p (ef_node g) y -> bytes_value x -> bytes_value y ->
  Gives (encode_pair spare Quote h rec depth run program i f g x y dst) dst (cat (txt (ef_node f) x) (cat (Some (ef_name g)) (txt (ef_node g) y))).
Proof using He Hrec.
  intros Hlen Hi Hf Hg Hpair Hblock Hx Hy Hbx Hby. unfold encode_pair. pose proof (classify_inv (ef_op f) (ef_op g)) as Hc. rewrite <- Hpair in Hc.
  assert (Hscalar : forall e op k z dst, op_ok p e -> ef_op e = Some op -> scalar_encoder op = Some k -> has_type p (ef_node e) z -> bytes_value z ->
    Gives (k z dst) dst (txt (ef_node e) z)) by (intros; by eapply scalar_field).
  destruct (ef_pairOp f); (apply gives_step; [|intros dst2; apply gives_step; [by apply name_ok|intros dst3]]);
    try (lazymatch type of Hc with _ /\ _ => destruct Hc as [Ea Eb] end; first [by eapply (Hscalar f); [done|exact Ea|done..]|by eapply (Hscalar g); [done|exact Eb|done..]]).
  all: apply gives_at_field; [lia|]; first [by apply field_value_ok|by apply Hrec].
Qed.

Lemma pairs_run program n v i fields dst : length (encPaths program) = length (encFields program) -> (i + length fields = length (encFields program))%nat ->
  has_type p n v -> bytes_value v -> Forall (placed p n) fields -> Forall (op_ok p) fields -> pairs_ok fields -> Forall (block_ok (encNameData program)) fields ->
  Gives (encode_pairs spare Quote h rec depth run program i fields v dst) dst (emission txt fields v).
Proof using He Hrec.
  intros Hlen Hi Hv Hb Hpl Hop Hpairs Hbl. revert i dst Hi Hpl Hop Hpairs Hbl.
  assert (Hfind : forall f, placed p n f -> exists x, source_at (ef_offset f) v = Ok x /\ has_type p (ef_node f) x /\ bytes_value x /\ leaf txt f v = txt (ef_node f) x).
  { intros f Hf. destruct (Hf v Hv) as (x & Hx & Ht). exists x. unfold source_at, leaf. rewrite Hx. split_and!; [done..|by eapply bytes_at_path|done]. }
  induction fields as [|f|f g fields IH] using pair_ind; intros i dst Hi Hpl Hop Hpairs Hbl; cbn [encode_pairs emission].
  - apply gives_here.
  - apply Forall_cons in Hpl as [Hpl _], Hop as [Hop _], Hbl as [Hbl _]. apply gives_step; [by apply name_ok|]. intros dst2.
    destruct (Hfind f Hpl) as (x & -> & Hx & Hbx & ->). cbn [res_bind]. rewrite cat_nil_r. simpl in Hi.
    assert (Hgen : Gives (at_field (encPaths program) i (encodeStructFieldValue spare Quote h rec depth run f x dst2)) dst2 (txt (ef_node f) x)).
    { apply gives_at_field; [lia|by apply field_value_ok]. }
    repeat case_match; try exact Hgen; by eapply scalar_field.
  - apply Forall_cons in Hpl as [Hpf [Hpg Hpl]%Forall_cons], Hop as [Hof [Hog Hop]%Forall_cons], Hbl as [Hbf [Hbg Hbl]%Forall_cons].
    destruct Hpairs as [Hpair Hpairs]. apply gives_step; [by apply name_ok|]. intros dst2.
    destruct (Hfind f Hpf) as (x & -> & Hx & Hbx & ->), (Hfind g Hpg) as (y & -> & Hy & Hby & ->). cbn [res_bind]. simpl in Hi.
    rewrite <- !cat_assoc, (cat_assoc (txt (ef_node f) x)). apply gives_step; [by apply pair_ok; (done || lia)|]. intros dst3. apply IH; (done || lia).
Qed.

Lemma simple_run n nd s v dst : p !! n = Some nd -> tn_kind nd = typedStruct -> enc_record_ok h p ep rank n nd s -> encSimple s = true ->
  has_type p n v -> bytes_value v ->
  Gives (encodeSimpleStructPairs spare Quote h rec depth run (es_program s) v dst) dst (program_text txt (es_program s) v).
Proof using He Hrec.
  intros Hn Hk Hs Hsimple Hv Hb. destruct (simple_facts h p ep rank He n nd s Hn Hk Hs Hsimple) as [F1 F2 F3 F4 F5].
  unfold encodeSimpleStructPairs, program_text. apply gives_step; [by apply (pairs_run (es_program s) n)|]. intros dst2.
  destruct (eo_compiled _ _ _ _ _ _ _ Hs) as [complete E]. destruct (compile_struct_inv _ _ _ _ _ _ _ E (eo_names _ _ _ _ _ _ _ Hs)) as [_ Hinv].
  rewrite Hsimple in Hinv. destruct Hinv as (fused & Ef & _). assert (Hclose : exists pre, encClose (es_program s) = pre ++ ["}"%ch]).
  { destruct (fused_in ep _ _ _ _ Ef) as [(_ & -> & _)|(pre & _ & ->)]; [by exists []|by exists pre]. }
  destruct Hclose as [pre ->]. rewrite length_app. destruct pre; cbn [length Nat.add Nat.eqb app]; [done|]. by destruct (length pre).
Qed.

(** *** Records with promoted or omitted fields *)

Definition field_texts (s : encStruct) (v : gval) (rs : list resolvedEnc) : option (list bytes) :=
  (fun ls => concat ls) <$> mapM (fun r => x ← present s v r; match x with None => Some [] | Some x => t ← txt (er_node r) x; Some [quoted h (er_name r) ++ ":"%ch :: t] end) rs.

Lemma enc_members_run n nd s v complete : p !! n = Some nd -> tn_kind nd = typedStruct -> enc_record_ok h p ep rank n nd s -> has_type p n v -> bytes_value v ->
  length (encPaths (es_program s)) = length (es_resolved s) ->
  forall rs i (first : bool) dst, (i + length rs = length (es_resolved s))%nat -> (forall r, In r rs -> In r (es_resolved s)) ->
  Gives (encode_members spare Quote h p rec depth run s i (map (enc_field h p complete) rs) first v dst) dst
    ((fun l => (if first then drop 1 (commas l) else commas l) ++ ["}"%ch]) <$> field_texts s v rs).
Proof using He Hrec.
  intros Hn Hk Hs Hv Hb Hlen rs. destruct (struct_value p n nd v Hn Hk Hv) as (vs & -> & Hvs).
  induction rs as [|r rs IH]; intros i first dst Hi Hrs; [by destruct first|]. cbn [map encode_members]. simpl in Hi.
  pose proof (eo_fields _ _ _ _ _ _ _ Hs) as Hf. rewrite List.Forall_forall in Hf. destruct (Hf r (Hrs r ltac:(by left))) as (hops & Eh & Hpath & _).
  destruct (behind_typed p _ _ _ _ vs Hpath Hvs) as (o & Eo & Ho). pose proof (behind_resolves _ _ _ _ Eo) as Hres.
  assert (Hskip : present s (VStruct vs) r = Some None -> field_texts s (VStruct vs) (r :: rs) = field_texts s (VStruct vs) rs).
  { intros Ep. unfold field_texts. cbn [mapM]. rewrite Ep. cbn. by destruct (mapM _ rs). }
  assert (Ep : present s (VStruct vs) r = Some (match o with Some x => if omitted r x then None else Some x | None => None end)).
  { unfold present. rewrite Eh. cbn. by rewrite Eo. }
  replace (match ef_hop (enc_field h p complete r) with Some h0 => _ | None => _ end) with (resolveResetHops hops (VStruct vs)).
  2: { unfold enc_hops in Eh. cbn [enc_field ef_hop]. destruct (er_hop r) as [hh|]; [by rewrite Eh|by injection Eh as <-]. }
  destruct o as [x|].
  - destruct Hres as (base & -> & Hx). cbn [res_bind enc_field ef_offset]. unfold source_at. rewrite Hx. cbn [res_bind].
    pose proof (Ho x eq_refl) as Hxt. pose proof (bytes_behind _ _ _ _ Hb Eo) as Hxb.
    change (mkEncField _ _ _ _ _ _ _ _ _ _) with (enc_field h p complete r).
    assert (Eom : (if ef_omitEmpty (enc_field h p complete r) || ef_omitZero (enc_field h p complete r) then typedValueShouldOmit p (enc_field h p complete r) x else Ok false) = Ok (omitted r x)).
    { rewrite (should_omit_ok p (enc_field h p complete r) r x) by done. cbn [enc_field ef_omitEmpty ef_omitZero]. unfold omitted.
      by destruct (er_omitEmpty r), (er_omitZero r). }
    rewrite Eom. cbn [res_bind]. destruct (omitted r x); [rewrite Hskip by done; apply IH; [lia|intros q Hq; apply Hrs; by right]|].
    replace (field_texts s (VStruct vs) (r :: rs)) with (t ← txt (er_node r) x; l ← field_texts s (VStruct vs) rs; Some ((quoted h (er_name r) ++ ":"%ch :: t) :: l)).
    2: { unfold field_texts. cbn [mapM]. rewrite Ep. cbn [mbind option_bind]. destruct (txt (er_node r) x); [|done]. cbn [mbind option_bind]. by destruct (mapM _ rs). }
    set (pre := if first then _ else _).
    replace ((fun l => (if first then drop 1 (commas l) else commas l) ++ ["}"%ch]) <$> (t ← txt (er_node r) x; l ← field_texts s (VStruct vs) rs; Some ((quoted h (er_name r) ++ ":"%ch :: t) :: l)))
      with (cat (Some pre) (cat (txt (er_node r) x) ((fun l => commas l ++ ["}"%ch]) <$> field_texts s (VStruct vs) rs))).
    2: { destruct (txt (er_node r) x) as [t|]; [|done]. cbn. destruct (field_texts s (VStruct vs) rs) as [l|]; [|done]. cbn. f_equal.
      unfold pre, commas. cbn [enc_field ef_name]. destruct first; cbn; rewrite ?drop_0; by norm_app. }
    apply gives_after. apply gives_step.
    + apply gives_at_field; [lia|]. apply field_value_ok; [|done..]. unfold op_ok. cbn [enc_field ef_op ef_node]. unfold encOp_of.
      destruct (complete (er_node r)); [|done]. destruct (p !! er_node r) as [nd'|] eqn:En; [by exists nd'|done].
    + intros dst2. apply (IH (S i) false); [lia|intros q Hq; apply Hrs; by right].
  - rewrite Hres. cbn [res_bind]. rewrite Hskip by done. apply IH; [lia|intros q Hq; apply Hrs; by right].
Qed.
End Fields.

(** *** Loops *)

(** What follows the elements behind [index] others. *)
Definition rest_text (index : nat) (close : bytes) (l : list bytes) : bytes := (if (0 <? index)%nat then commas l else intercalate [","%ch] l) ++ close.

Lemma rest_cons index close o o' : (fun l => rest_text index close l) <$> (x ← o; l ← o'; Some (x :: l)) =
  cat (Some (if (0 <? index)%nat then [","%ch] else [])) (cat o (rest_text (S index) close <$> o')).
Proof using.
  destruct o as [x|]; [|done]. destruct o' as [l|]; [|done]. unfold cat, rest_text. cbn [mbind option_bind fmap option_fmap option_map]. f_equal.
  rewrite !intercalate_commas. change (0 <? S index)%nat with true. unfold commas. destruct (0 <? index)%nat; cbn; rewrite ?drop_0; by norm_app.
Qed.

Lemma enc_elements_run one tx l : (forall x dst, In x l -> Gives (one x dst) dst (tx x)) ->
  forall index dst, Gives (encode_elements one index l dst) dst (rest_text index ["]"%ch] <$> mapM tx l).
Proof using.
  induction l as [|x l IH]; intros Hone index dst; cbn [encode_elements mapM]; [cbn; unfold rest_text; by case_match|].
  rewrite (rest_cons index ["]"%ch] (tx x) (mapM tx l)).
  replace (if (0 <? index)%nat then dst ++ [","%ch] else dst) with (dst ++ (if (0 <? index)%nat then [","%ch] else [])) by (case_match; [done|by rewrite app_nil_r]).
  apply gives_after, gives_step; [apply gives_at_index, Hone; by left|]. intros dst2. apply IH. intros y dst3 Hy. apply Hone. by right.
Qed.

Lemma comma_run one tx l : (forall x dst, In x l -> Gives (one x dst) dst (cat (Some [","%ch]) (tx x))) ->
  forall index dst, Gives (comma_elements one index l dst) dst (commas <$> mapM tx l).
Proof using.
  induction l as [|x l IH]; intros Hone index dst; cbn [comma_elements mapM]; [apply gives_here|].
  replace (commas <$> (y ← tx x; k ← mapM tx l; mret (y :: k))) with (cat (cat (Some [","%ch]) (tx x)) (commas <$> mapM tx l)).
  2: { destruct (tx x); [|done]. cbn [mbind option_bind]. by destruct (mapM tx l). }
  apply gives_step; [apply gives_at_index, Hone; by left|]. intros dst2. apply IH. intros y dst3 Hy. apply Hone. by right.
Qed.

(** The bracket written over the first comma. *)
Lemma overwritten r dst (o : option (list bytes)) : Gives r dst (commas <$> o) -> (forall l, o = Some l -> l <> []) ->
  Gives (let* d := r in let* d := overwrite d (length dst) "["%ch in Ok (d ++ ["]"%ch])) dst (arr_text <$> o).
Proof using.
  destruct o as [l|]; cbn [fmap option_fmap option_map gives].
  - intros -> Hl. cbn [res_bind]. specialize (Hl l eq_refl). destruct l as [|x l]; [done|]. unfold commas, arr_text. rewrite intercalate_commas. unfold commas.
    cbn [map concat]. unfold overwrite. rewrite length_app. cbn [app length]. rewrite (proj2 (Nat.ltb_lt _ _)) by lia. cbn [res_bind].
    rewrite insert_app_r_alt, Nat.sub_diag by lia. cbn [list_insert]. f_equal. by norm_app.
  - intros (e & -> & Hre) _. by exists e.
Qed.

Lemma int_slice_run one tx l dst : (forall x dst, In x l -> Gives (one x dst) dst (cat (Some [","%ch]) (tx x))) ->
  Gives (encode_int_slice one l dst) dst (arr_text <$> mapM tx l).
Proof using.
  intros Hone. unfold encode_int_slice. destruct l as [|x l]; [cbn; by rewrite <- app_assoc|]. cbn [length Nat.eqb].
  apply overwritten; [by apply comma_run|]. intros k Hk ->. apply mapM_Some_1 in Hk. inversion Hk.
Qed.

Lemma entries_run rec depth run e tx entries : (forall name x dst, In (name, x) entries -> Gives (rec (depth + 1) run e x dst) dst (tx x)) ->
  Forall (fun m => bytes_ok m.1) entries -> forall index dst,
  Gives (encode_entries spare h rec depth run e index entries dst) dst
    (rest_text index ["}"%ch] <$> mapM (fun m => t ← tx m.2; Some (quoted h m.1 ++ ":"%ch :: t)) entries).
Proof using.
  intros Hrec Hb. induction Hb as [|[name x] entries Hn Hb IH]; intros index dst; cbn [encode_entries mapM]; [cbn; unfold rest_text; by case_match|]. cbn [fst snd] in *.
  rewrite (rest_cons index ["}"%ch] (t ← tx x; Some (quoted h name ++ ":"%ch :: t)) (mapM _ entries)).
  replace (if (0 <? index)%nat then dst ++ [","%ch] else dst) with (dst ++ (if (0 <? index)%nat then [","%ch] else [])) by (case_match; [done|by rewrite app_nil_r]).
  apply gives_after. replace (t ← tx x; Some (quoted h name ++ ":"%ch :: t)) with (cat (Some (quoted h name)) (cat (Some [":"%ch]) (tx x))).
  2: { destruct (tx x); [|done]. done. }
  rewrite !cat_assoc. apply gives_step; [by apply put_string_ok|]. intros dst2. apply gives_after. apply gives_step.
  - apply gives_map_field, (Hrec name). by left.
  - intros dst3. apply IH. intros name' y dst4 Hy. apply (Hrec name'). by right.
Qed.

(** *** The text of a container *)

Lemma seq_text fuel depth run n nd v l : p !! n = Some nd ->
  (tn_kind nd = typedArray /\ v = VArray l) \/ (tn_kind nd = typedSlice /\ exists stale, v = VSlice (Some (l, stale))) ->
  T (S fuel) depth run n v = if DefaultMaxDepth <=? depth then None else arr_text <$> mapM (T fuel (depth + 1) run (tn_elem nd)) l.
Proof using.
  intros Hn Hv. unfold text at 1. cbn [describe]. unfold describe_body. rewrite Hn. cbn [mbind option_bind].
  assert (E : raw_of <$> (if depth <? DefaultMaxDepth then arr <$> mapM (describe h p ep fuel (depth + 1) run (tn_elem nd)) l else None) =
    if DefaultMaxDepth <=? depth then None else arr_text <$> mapM (T fuel (depth + 1) run (tn_elem nd)) l).
  { destruct (Z.ltb_spec depth DefaultMaxDepth); [rewrite (proj2 (Z.leb_gt _ _)) by lia|by rewrite (proj2 (Z.leb_le _ _)) by lia].
    unfold text. rewrite <- (mapM_fmap (describe h p ep fuel (depth + 1) run (tn_elem nd)) raw_of). by destruct (mapM _ l). }
  destruct Hv as [[Hk ->]|[Hk [stale ->]]]; rewrite Hk; exact E.
Qed.

Lemma map_text fuel depth run n nd m entries : p !! n = Some nd -> tn_kind nd = typedMap -> sorted_entries nd m = Some entries ->
  T (S fuel) depth run n (VMap (Some m)) = if DefaultMaxDepth <=? depth then None
    else obj_text <$> mapM (fun e => t ← T fuel (depth + 1) run (tn_elem nd) e.2; Some (quoted h e.1 ++ ":"%ch :: t)) entries.
Proof using.
  intros Hn Hk Hs. unfold text at 1. cbn [describe]. unfold describe_body. rewrite Hn. cbn [mbind option_bind]. rewrite Hk.
  destruct (Z.ltb_spec depth DefaultMaxDepth); [rewrite (proj2 (Z.leb_gt _ _)) by lia|by rewrite (proj2 (Z.leb_le _ _)) by lia].
  rewrite Hs. cbn [mbind option_bind]. rewrite (mapM_eq _ (fun e => member_text <$> (t ← describe h p ep fuel (depth + 1) run (tn_elem nd) e.2; Some (name_of h e.1, t)))).
  - rewrite <- (mapM_fmap _ member_text). by destruct (mapM _ entries).
  - apply Forall_forall. intros e _. unfold text. by destruct (describe _ _ _ _ _ _ _ e.2).
Qed.

Lemma fields_text down s v rs : (fun ms => map member_text (concat ms)) <$> mapM (describe_field h down s v) rs =
  (fun ls => concat ls) <$> mapM (fun r => x ← present s v r;
    match x with None => Some [] | Some x => t ← raw_of <$> down (er_node r) x; Some [quoted h (er_name r) ++ ":"%ch :: t] end) rs.
Proof using.
  induction rs as [|r rs IH]; [done|]. cbn [mapM]. change (describe_field h down s v r) with (x ← present s v r;
    match x with None => Some [] | Some x => t ← down (er_node r) x; Some [(name_of h (er_name r), t)] end). destruct (present s v r) as [[x|]|]; cbn [mbind option_bind]; [| |done].
  - destruct (down (er_node r) x) as [t|]; [|done]. cbn [mbind option_bind fmap option_fmap option_map].
    destruct (mapM (describe_field h down s v) rs), (mapM _ rs); cbn in *; congruence.
  - destruct (mapM (describe_field h down s v) rs), (mapM _ rs); cbn in *; congruence.
Qed.

Lemma members_text fuel depth run n nd s v : p !! n = Some nd -> tn_kind nd = typedStruct -> program_of ep n = Some s ->
  T (S (S fuel)) depth run n v = if DefaultMaxDepth <=? depth then None else obj_text <$> field_texts (depth + 1) run fuel s v (es_resolved s).
Proof using.
  intros Hn Hk Hs. unfold field_texts, text. rewrite <- (fields_text (describe h p ep (S fuel) (depth + 1) run)).
  generalize (S fuel). intros g. cbn [describe]. unfold describe_body. rewrite Hn. cbn [mbind option_bind]. rewrite Hk.
  destruct (Z.ltb_spec depth DefaultMaxDepth); [rewrite (proj2 (Z.leb_gt _ _)) by lia|by rewrite (proj2 (Z.leb_le _ _)) by lia].
  unfold describe_struct. rewrite Hs. cbn [mbind option_bind]. by destruct (mapM _ (es_resolved s)).
Qed.

(** *** Nodes *)

Section Node.
Context (rec : Z -> Z -> nat -> gval -> bytes -> enc) (depth run : Z) (fuel : nat).
Hypothesis Hfuel : enough (S (S fuel)) depth run.
Hypothesis Hrec : forall d r g n v dst, (d = depth + 1 /\ r = run /\ depth < DefaultMaxDepth) \/ (d = depth + 2 /\ r = run /\ depth + 1 < DefaultMaxDepth) \/
  (d = depth /\ r = run + 1 /\ run < DefaultMaxDepth) -> enough g d r -> has_type p n v -> bytes_value v -> Gives (rec d r n v dst) dst (T g d r n v).

Lemma struct_run n nd v dst : p !! n = Some nd -> tn_kind nd = typedStruct -> has_type p n v -> bytes_value v ->
  Gives (encodeStruct spare Quote h p ep rec depth run n v dst) dst (T (S (S fuel)) depth run n v).
Proof using He Hfuel Hrec.
  intros Hn Hk Hv Hb. destruct (en_record _ _ _ _ _ _ (He _ _ Hn) Hk) as [s Hs]. unfold encodeStruct. rewrite (eo_program _ _ _ _ _ _ _ Hs).
  pose proof (extra_nonneg h p ep rank _ _ _ Hs) as Hx.
  assert (Hdown : depth < DefaultMaxDepth -> forall n v dst, has_type p n v -> bytes_value v -> Gives (rec (depth + 1) run n v dst) dst (T (S fuel) (depth + 1) run n v)).
  { intros Hd n' v' dst' Hv' Hb'. apply Hrec; [by left|unfold enough in *; lia|done..]. }
  destruct (encSimple s) eqn:Hsimple.
  - rewrite (simple_text h p ep rank He n nd s Hn Hk Hs Hsimple _ _ _ v Hv Hfuel). cbn [pred].
    destruct (Z.leb_spec DefaultMaxDepth (depth + encFusedExtra (es_program s))) as [Hd|Hd]; [apply gives_error|].
    apply gives_after. apply (simple_run rec (depth + 1) run fuel (Hdown ltac:(lia)) n nd); done.
  - destruct (eo_compiled _ _ _ _ _ _ _ Hs) as [complete E]. destruct (compile_struct_inv _ _ _ _ _ _ _ E (eo_names _ _ _ _ _ _ _ Hs)) as [_ Hinv].
    rewrite Hsimple in Hinv. destruct Hinv as (Hf & Hp & Hz). rewrite Hz, Z.add_0_r, (members_text fuel depth run n nd s v Hn Hk (eo_program _ _ _ _ _ _ _ Hs)).
    destruct (Z.leb_spec DefaultMaxDepth depth) as [Hd|Hd]; [apply gives_error|]. rewrite Hf.
    replace (obj_text <$> field_texts (depth + 1) run fuel s v (es_resolved s)) with
      (cat (Some ["{"%ch]) ((fun l => drop 1 (commas l) ++ ["}"%ch]) <$> field_texts (depth + 1) run fuel s v (es_resolved s))).
    2: { destruct (field_texts _ _ _ _ _ _) as [l|]; [|done]. cbn. unfold obj_text. by rewrite intercalate_commas. }
    apply gives_after. apply (enc_members_run rec (depth + 1) run fuel (Hdown ltac:(lia)) n nd s v complete Hn Hk Hs Hv Hb ltac:(by rewrite Hp, length_map) _ 0 true); done.
Qed.

Lemma elem_record nd : op_of nd = typedOpStruct -> tn_kind nd = typedStruct.
Proof using. intros Ho. unfold op_of in Ho. by destruct (tn_kind nd). Qed.

(** The plain loop over elements. *)
Lemma plain_elements e l dst : depth < DefaultMaxDepth -> Forall (has_type p e) l -> Forall bytes_value l ->
  Gives (encode_elements (rec (depth + 1) run e) 0 l (dst ++ ["["%ch])) dst (arr_text <$> mapM (T (S fuel) (depth + 1) run e) l).
Proof using Hfuel Hrec.
  intros Hd Hl Hb. replace (arr_text <$> mapM (T (S fuel) (depth + 1) run e) l) with (cat (Some ["["%ch]) (rest_text 0 ["]"%ch] <$> mapM (T (S fuel) (depth + 1) run e) l)).
  2: { by destruct (mapM _ l). }
  apply gives_after, enc_elements_run. intros x dst2 Hx. rewrite Forall_forall in Hl, Hb. apply list_elem_of_In in Hx.
  apply Hrec; [by left|unfold enough in *; lia|by apply Hl|by apply Hb].
Qed.

Lemma struct_slice_run e nd l dst : p !! e = Some nd -> tn_kind nd = typedStruct -> depth < DefaultMaxDepth -> Forall (has_type p e) l -> Forall bytes_value l ->
  Gives (encodeStructSlice spare Quote h ep rec depth run e l dst) dst (arr_text <$> mapM (T (S fuel) (depth + 1) run e) l).
Proof using He Hfuel Hrec.
  intros Hn Hk Hd Hl Hb. unfold encodeStructSlice. destruct (en_record _ _ _ _ _ _ (He _ _ Hn) Hk) as [s Hs]. rewrite (eo_program _ _ _ _ _ _ _ Hs).
  destruct (encSimple s) eqn:Hsimple; cbn [andb]; [|by apply plain_elements]. destruct (Nat.eqb_spec (length l) 0) as [Hz|Hz]; cbn [negb]; [by apply plain_elements|].
  assert (Hfuel' : enough (S fuel) (depth + 1) run) by (unfold enough in *; lia).
  assert (Et : forall x, In x l -> T (S fuel) (depth + 1) run e x = if DefaultMaxDepth <=? depth + 1 + encFusedExtra (es_program s) then None
    else cat (Some ["{"%ch]) (program_text (T fuel (depth + 1 + 1) run) (es_program s) x)).
  { intros x Hx. rewrite Forall_forall in Hl. apply list_elem_of_In in Hx. by rewrite (simple_text h p ep rank He e nd s Hn Hk Hs Hsimple _ _ _ x (Hl x Hx) Hfuel'). }
  destruct (Z.leb_spec DefaultMaxDepth (depth + 1 + encFusedExtra (es_program s))) as [Hde|Hde].
  - destruct l as [|x l]; [done|]. cbn [mapM]. rewrite (Et x ltac:(by left)). apply gives_error.
  - pose proof (extra_nonneg h p ep rank _ _ _ Hs) as Hx0. destruct fuel as [|g]; [unfold enough in *; lia|].
    apply overwritten; [|intros k Hk' ->; by destruct l; [|apply mapM_Some_1 in Hk'; inversion Hk']].
    apply comma_run. intros x dst2 Hx. rewrite (Et x Hx). rewrite Forall_forall in Hl, Hb. apply list_elem_of_In in Hx.
    rewrite <- cat_assoc, cat_Some. apply gives_after. apply (simple_run rec (depth + 1 + 1) run g) with (n := e) (nd := nd); try done; [|by apply Hl|by apply Hb].
    intros n' v' dst' Hv' Hb'. replace (depth + 1 + 1) with (depth + 2) by lia. apply Hrec; [right; left; lia|unfold enough in *; lia|done..].
Qed.

Lemma slice_run n nd v dst : p !! n = Some nd -> tn_kind nd = typedSlice -> has_type p n v -> bytes_value v ->
  Gives (encodeSlice spare Quote h p ep rec depth run nd v dst) dst (T (S (S fuel)) depth run n v).
Proof using He Hfuel Hrec.
  intros Hn Hk Hv Hb. destruct (lookup_lt_is_Some_2 p (tn_elem nd)) as [e Hen]; [apply (en_elem _ _ _ _ _ _ (He _ _ Hn)); by left|].
  inversion Hv as [| | | | | |? ? Hn' Hk'|? ? l stale Hn' Hk' Hl _| | | | |]; simplify_eq; try congruence; unfold encodeSlice.
  { unfold text. cbn [describe]. unfold describe_body. rewrite Hn. cbn [mbind option_bind]. by rewrite Hk. }
  inversion Hb as [| | | | | |? ? Hbl| | | | |]; subst. rewrite Hen, (seq_text (S fuel) depth run n nd _ l Hn) by (right; split; [done|by eexists]).
  destruct (Z.leb_spec DefaultMaxDepth depth) as [Hd|Hd]; [apply gives_error|].
  assert (Helem : forall x, In x l -> has_type p (tn_elem nd) x /\ bytes_value x).
  { intros x Hx%list_elem_of_In. rewrite Forall_forall in Hl, Hbl. auto. }
  assert (Hplain := plain_elements (tn_elem nd) l dst Hd Hl Hbl).
  assert (Hstring : op_of e = typedOpString -> Gives (encode_elements (encode_string spare h) 0 l (dst ++ ["["%ch])) dst
    (arr_text <$> mapM (T (S fuel) (depth + 1) run (tn_elem nd)) l)).
  { intros Ho. replace (arr_text <$> _) with (cat (Some ["["%ch]) (rest_text 0 ["]"%ch] <$> mapM (T (S fuel) (depth + 1) run (tn_elem nd)) l)) by (by destruct (mapM _ l)).
    apply gives_after, enc_elements_run. intros x dst2 Hx. destruct (Helem x Hx) as [Hxt Hxb]. eapply (scalar_gives fuel _ _ _ e); [done..|]. by rewrite Ho. }
  assert (Hcomma : op_of e = typedOpInt 64 -> Gives (encode_int_slice (fun x dst => let* z := as_int x in put_comma_int spare z dst) l dst) dst
    (arr_text <$> mapM (T (S fuel) (depth + 1) run (tn_elem nd)) l)).
  { intros Ho. apply int_slice_run. intros x dst2 Hx. destruct (Helem x Hx) as [Hxt Hxb]. by eapply comma_int. }
  assert (Hucomma : op_of e = typedOpUint 64 -> Gives (encode_int_slice (fun x dst => let* z := as_uint x in put_comma_uint spare z dst) l dst) dst
    (arr_text <$> mapM (T (S fuel) (depth + 1) run (tn_elem nd)) l)).
  { intros Ho. apply int_slice_run. intros x dst2 Hx. destruct (Helem x Hx) as [Hxt Hxb]. by eapply comma_uint. }
  assert (Hstruct : op_of e = typedOpStruct -> Gives (encodeStructSlice spare Quote h ep rec depth run (tn_elem nd) l dst) dst
    (arr_text <$> mapM (T (S fuel) (depth + 1) run (tn_elem nd)) l)).
  { intros Ho. apply (struct_slice_run _ e); [done|by apply elem_record|done..]. }
  clear -Hplain Hstring Hcomma Hucomma Hstruct. repeat case_match; subst; try exact Hplain; first [by apply Hstring|by apply Hcomma|by apply Hucomma|by apply Hstruct].
Qed.

Lemma array_run n nd v dst : p !! n = Some nd -> tn_kind nd = typedArray -> has_type p n v -> bytes_value v ->
  Gives (encodeArray rec depth run nd v dst) dst (T (S (S fuel)) depth run n v).
Proof using Hfuel Hrec.
  intros Hn Hk Hv Hb. inversion Hv as [| | | | | | | |? ? l Hn' Hk' Hlen Hl| | | |]; simplify_eq; try congruence; unfold encodeArray.
  inversion Hb as [| | | | | | |? Hbl| | | |]; subst. rewrite (seq_text (S fuel) depth run n nd _ l Hn) by (by left).
  destruct (Z.leb_spec DefaultMaxDepth depth) as [Hd|Hd]; [apply gives_error|]. rewrite (proj2 (Nat.eqb_eq _ _)) by done. by apply plain_elements.
Qed.

Lemma map_run n nd v dst : p !! n = Some nd -> tn_kind nd = typedMap -> has_type p n v -> bytes_value v ->
  Gives (encodeMap spare h iterate rec depth run nd v dst) dst (T (S (S fuel)) depth run n v).
Proof using He Hfuel Hiter Hrec.
  intros Hn Hk Hv Hb. inversion Hv as [| | | | | | | | | | |? ? Hn' Hk'|? ? m Hn' Hk' Hm]; simplify_eq; try congruence; unfold encodeMap.
  { unfold text. cbn [describe]. unfold describe_body. rewrite Hn. cbn [mbind option_bind]. by rewrite Hk. }
  inversion Hb as [| | | | | | | | | | |? Hbm]; subst.
  assert (Hkeys : Forall (fun e => key_type p nd e.1) (map_to_list m)).
  { apply Forall_forall. intros [k x] Hin%elem_of_map_to_list. by apply (Hm k x). }
  destruct (entries_ok p nd (en_key _ _ _ _ _ _ (He _ _ Hn) Hk) spare m (iterate m) (Hiter m) Hkeys) as (entries & Eent & Esort & Hperm).
  rewrite (map_text (S fuel) depth run n nd m _ Hn Hk Esort). destruct (Z.leb_spec DefaultMaxDepth depth) as [Hd|Hd]; [apply gives_error|].
  destruct (Nat.eqb_spec (length (iterate m)) 0) as [Hz|Hz].
  { apply length_zero_iff_nil in Hz. pose proof (Hiter m) as Hp. rewrite Hz in Hp. apply Permutation_nil_l in Hp. rewrite <- Hp in Hperm. symmetry in Hperm.
    apply Permutation_nil_l in Hperm. rewrite <- Hperm. done. }
  rewrite Eent. cbn [res_bind]. set (sorted := merge_sort entry_le entries).
  assert (Hin : forall name x, In (name, x) sorted -> has_type p (tn_elem nd) x /\ bytes_value x /\ bytes_ok name).
  { intros name x Hin. apply list_elem_of_In in Hin. unfold sorted in Hin. rewrite merge_sort_Permutation, Hperm in Hin.
    exact (entry_typed p nd m name x (en_key _ _ _ _ _ _ (He _ _ Hn) Hk) Hm Hbm Hin). }
  replace (obj_text <$> _) with (cat (Some ["{"%ch]) (rest_text 0 ["}"%ch] <$> mapM (fun e => t ← T (S fuel) (depth + 1) run (tn_elem nd) e.2; Some (quoted h e.1 ++ ":"%ch :: t)) sorted))
    by (by destruct (mapM _ sorted)).
  apply gives_after, (entries_run rec depth run (tn_elem nd) (T (S fuel) (depth + 1) run (tn_elem nd))).
  - intros name x dst2 Hx. destruct (Hin name x Hx) as (H1 & H2 & _). apply Hrec; [by left|unfold enough in *; lia|done..].
  - apply List.Forall_forall. intros [name x] Hx. by apply (Hin name x).
Qed.

Lemma pointer_run n nd v dst : p !! n = Some nd -> tn_kind nd = typedPointer -> has_type p n v -> bytes_value v ->
  Gives (encodePointer rec depth run nd v dst) dst (T (S (S fuel)) depth run n v).
Proof using Hfuel Hrec.
  intros Hn Hk Hv Hb. inversion Hv as [| | | | | | | | |? ? Hn' Hk'|? ? x Hn' Hk' Hx| |]; simplify_eq; try congruence; unfold encodePointer, text; cbn [describe]; unfold describe_body;
    rewrite Hn; cbn [mbind option_bind]; rewrite Hk; [done|]. inversion Hb; subst.
  destruct (Z.leb_spec DefaultMaxDepth run) as [Hd|Hd]; [rewrite (proj2 (Z.ltb_ge _ _)) by lia; apply gives_error|]. rewrite (proj2 (Z.ltb_lt _ _)) by lia.
  apply (Hrec depth (run + 1) (S fuel)); [by right; right|unfold enough in *; lia|done..].
Qed.

Lemma kind_run n v dst : has_type p n v -> bytes_value v ->
  Gives (encodeKind spare Quote h p ep iterate rec depth run n v dst) dst (T (S (S fuel)) depth run n v).
Proof using He Hfuel Hiter Hrec.
  intros Hv Hb. assert (Hn : exists nd, p !! n = Some nd) by (inversion Hv; by eexists). destruct Hn as [nd Hn]. unfold encodeKind. rewrite Hn.
  destruct (tn_kind nd) eqn:Hk; try (by eapply scalar_gives; [done..|unfold op_of; by rewrite Hk]).
  - by eapply struct_run.
  - by apply slice_run.
  - by apply array_run.
  - by apply pointer_run.
  - by apply map_run.
Qed.
End Node.

(** *** The encoder *)

Lemma encode_gives fuel fuel' depth run n v dst : enough fuel depth run -> enough fuel' depth run -> has_type p n v -> bytes_value v ->
  Gives (TypedEncode.encode spare Quote h p ep iterate fuel depth run n v dst) dst (T fuel' depth run n v).
Proof using He Hiter.
  revert fuel' depth run n v dst. induction fuel as [|fuel IH]; intros fuel' depth run n v dst Hf Hf' Hv Hb; [unfold enough in Hf; lia|]. cbn [TypedEncode.encode].
  destruct fuel' as [|[|fuel']]; [unfold enough in Hf'; lia..|]. apply kind_run; [done| |done..].
  intros d r g n' v' dst' Hdr Hg Hv' Hb'. apply IH; [unfold enough in *; lia|done..].
Qed.
End Run.
