(* ===== verification/EncodeSample.v ===== *)
(** A plan for both directions, on which the properties of the encoder are shown to
    apply: a record spliced into a simple one, an omitted field, a recursive type,
    and a map. *)

From S2P Require Import Prelude Words Utf8 Scanner Lex Grammar StringRef Errors Numbers Reader Validator FastValid ParserString Layout Decode NumberEqual Digits DecoderScalar OpenAddr FieldFold FieldTable FieldMatch TypedPlan TypedDecode TypedSpec TypedRun EncodeString EncodeInt EncodePlan TypedEncode EncodeSpec EncodeFuse EncodeText EncodeKeys EncodeRun.
From stdpp Require Import gmap sorting.
Open Scope Z_scope.

(** [type T struct { Next *T `json:"next,omitempty"`; At Point; Tags map[int8][]string; All []Point }],
    [type Point struct { Name string; Pos Pos; Size int64 }] and
    [type Pos struct { X, Y int64 }], with their fields in lower case. *)
Module Shapes.
#[local] Existing Instance ascii_folding.
Import TypedRun.Sample.

Definition pos_zero : gval := VStruct [VInt 0; VInt 0].
Definition point_zero : gval := VStruct [VString []; pos_zero; VInt 0].
Definition t_zero : gval := VStruct [VPointer None; point_zero; VMap None; VSlice None].

Definition pos_fields : list resolvedField := [mkResolved (bs "x") 0 5 None; mkResolved (bs "y") 1 5 None].
Definition point_fields : list resolvedField := [mkResolved (bs "name") 0 4 None; mkResolved (bs "pos") 1 3 None; mkResolved (bs "size") 2 5 None].
Definition t_fields : list resolvedField :=
  [mkResolved (bs "next") 0 1 None; mkResolved (bs "at") 1 2 None; mkResolved (bs "tags") 2 6 None; mkResolved (bs "all") 3 8 None].

Definition shapes : plan := [
  record_node "T" t_zero [Some 1%nat; Some 2%nat; Some 6%nat; Some 8%nat] t_fields [];
  node typedPointer 0 0 0 "*T" (VPointer None);
  record_node "Point" point_zero [Some 4%nat; Some 3%nat; Some 5%nat] point_fields [];
  record_node "Pos" pos_zero [Some 5%nat; Some 5%nat] pos_fields [];
  node typedString 0 0 0 "string" (VString []);
  node typedInt 64 0 0 "int64" (VInt 0);
  node typedMap 0 7 0 "map[int8][]string" (VMap None);
  node typedSlice 0 4 0 "[]string" (VSlice None);
  node typedSlice 0 2 0 "[]Point" (VSlice None)].

Definition rank (n : nat) : nat := nth n [3; 0; 2; 1; 0; 0; 0; 0; 0]%nat 0%nat.

(** *** The encoder's half *)

Definition resolved (omitEmpty : bool) (r : resolvedField) : resolvedEnc :=
  mkResolvedEnc (rf_name r) (rf_slot r) (rf_node r) None omitEmpty false.
Definition pos_enc : list resolvedEnc := map (resolved false) pos_fields.
Definition point_enc : list resolvedEnc := map (resolved false) point_fields.
Definition t_enc : list resolvedEnc := match t_fields with f :: fs => resolved true f :: map (resolved false) fs | [] => [] end.

(** The records in the order they are compiled. *)
Definition compiled (ep : programs) (rs : list resolvedEnc) : option encStruct :=
  match compile_struct true shapes ep (fun _ => true) rs [] with Ok s => Some s | _ => None end.
Definition with_pos : programs := [None; None; None; compiled [] pos_enc].
Definition with_point : programs := [None; None; compiled with_pos point_enc; compiled [] pos_enc].
Definition programs : programs := Eval vm_compute in [compiled with_point t_enc; None; compiled with_pos point_enc; compiled [] pos_enc].

(** *** Both halves are what the compiler makes *)

Lemma shapes_ok : plan_ok shapes.
Proof.
  exists rank. intros n nd Hn. destruct n as [|[|[|[|[|[|[|[|[|n]]]]]]]]]; [injection Hn as <-..|done].
  1: { apply record_node_ok; [cbn; lia|unfold t_zero, point_zero, pos_zero; typed|reflexivity|apply record_fields_ok; vm_compute; reflexivity|reflexivity|vm_compute; reflexivity|].
  intros i f Hi. destruct i as [|[|[|[|i]]]]; [vm_compute in Hi; injection Hi as <-; eexists; (split; [reflexivity|])..|vm_compute in Hi; discriminate].
  all: (split; [by apply PT_slot|intros _; vm_compute; lia]). }
  2: { apply record_node_ok; [cbn; lia|unfold point_zero, pos_zero; typed|reflexivity|apply record_fields_ok; vm_compute; reflexivity|reflexivity|vm_compute; reflexivity|].
  intros i f Hi. destruct i as [|[|[|i]]]; [vm_compute in Hi; injection Hi as <-; eexists; (split; [reflexivity|])..|vm_compute in Hi; discriminate].
  all: (split; [by apply PT_slot|intros _; vm_compute; lia]). }
  2: { apply record_node_ok; [cbn; lia|unfold pos_zero; typed|reflexivity|apply record_fields_ok; vm_compute; reflexivity|reflexivity|vm_compute; reflexivity|].
  intros i f Hi. destruct i as [|[|i]]; [vm_compute in Hi; injection Hi as <-; eexists; (split; [reflexivity|])..|vm_compute in Hi; discriminate].
  all: (split; [by apply PT_slot|intros _; vm_compute; lia]). }
  all: split; cbn [tn_kind node tn_bits tn_elem tn_zero]; try done; try (by typed); try (intros _; vm_compute; lia); try (vm_compute; lia).
  all: first [by intros [E|E]; discriminate E|intros e _ He; injection He as <-; discriminate|idtac].
  all: intros _; right; right; by right.
Qed.

Lemma record_enc_ok n nd s rs : program_of programs n = Some s -> es_resolved s = rs -> es_hops s = [] ->
  compile_struct true shapes programs (fun _ => true) rs [] = Ok s -> forallb (fun r => bool_decide (bytes_ok (er_name r))) rs = true ->
  forallb (fun r => bool_decide (er_hop r = None) && bool_decide (tn_slots nd !! er_slot r = Some (Some (er_node r))) && (rank (er_node r) <? rank n)%nat) rs = true ->
  encFields (es_program s) <> [] -> enc_record_ok true shapes programs rank n nd s.
Proof.
  intros Hs Hr Hh Hc Hb Hf Hne. rewrite forallb_forall in Hb, Hf. split; [done|by exists (fun _ => true); rewrite Hr, Hh| | |done].
  - rewrite Hr. apply List.Forall_forall. intros r Hin. specialize (Hb r Hin). by apply bool_decide_eq_true_1 in Hb.
  - rewrite Hr. apply List.Forall_forall. intros r Hin. specialize (Hf r Hin). apply andb_true_iff in Hf as [Hf Hrank]. apply andb_true_iff in Hf as [H1 H2].
    apply bool_decide_eq_true_1 in H1, H2. apply Nat.ltb_lt in Hrank. exists []. unfold enc_hops. rewrite H1. split_and!; [done|by constructor|done].
Qed.

Lemma programs_ok : encoder_ok true shapes programs.
Proof.
  exists rank. intros n nd Hn. destruct n as [|[|[|[|[|[|[|[|[|n]]]]]]]]]; [injection Hn as <-..|done].
  all: split; cbn [tn_kind record_node node tn_bits tn_elem tn_mapKeyKind tn_keyBits]; try done.
  all: try (by intros [E|E]; discriminate E).
  all: try (intros _; cbn; lia).
  all: try (intros _; right; right; by right).
  all: try (by intros _ _; left).
  all: try (by intros [E|[E|[E|E]]]; discriminate E).
  all: intros _; eexists; eapply record_enc_ok; [reflexivity|reflexivity|reflexivity|vm_compute; reflexivity|vm_compute; reflexivity|vm_compute; reflexivity|discriminate].
Qed.

(** A value, and its text. *)
Definition point (name : string) (x y size : Z) : gval := VStruct [VString (bs name); VStruct [VInt x; VInt y]; VInt size].
Definition tags : gmap map_key gval := <[inr 10 := VSlice (Some ([VString (bs "a<b")], []))]> (<[inr (-2) := VSlice None]> (<[inr 9 := VSlice (Some ([], []))]> ∅)).
Definition value : gval :=
  VStruct [VPointer (Some (VStruct [VPointer None; point "q" 0 0 0; VMap None; VSlice None])); point "p" 1 (-2) 3; VMap (Some tags);
    VSlice (Some ([point "r" 7 8 9; point "" 0 0 0], []))].
Definition json : bytes := js ("{'next':{'at':{'name':'q','pos':{'x':0,'y':0},'size':0},'tags':null,'all':null},'at':{'name':'p','pos':{'x':1,'y':-2},'size':3}," ++
  "'tags':{'-2':null,'10':['a\u003cb'],'9':[]},'all':[{'name':'r','pos':{'x':7,'y':8},'size':9},{'name':'','pos':{'x':0,'y':0},'size':0}]}").

Ltac typed_all := repeat first
  [ progress typed | eapply HT_pointer; [reflexivity|reflexivity|cbn [tn_elem node]] | eapply HT_slice; [reflexivity|reflexivity|cbn [tn_elem node]|] ].

Lemma value_type : has_type shapes 0 value.
Proof.
  unfold value, point. typed_all.
  eapply HT_map; [reflexivity|reflexivity|]. cbn [tn_elem node]. intros k v Hk. unfold tags in Hk. rewrite !lookup_insert_Some, lookup_empty in Hk.
  destruct Hk as [[<- <-]|[_ [[<- <-]|[_ [[<- <-]|[_ Hk]]]]]]; [..|done]; (split; [apply KT_int; [done|cbn; lia]|]); typed_all.
Qed.

Ltac bytes_all := repeat match goal with
  | |- bytes_value (VMap (Some _)) => apply BV_map
  | |- bytes_value _ => constructor
  | |- Forall bytes_value _ => constructor
  | |- Forall is_byte _ => concrete_bytes
  end.

Lemma value_bytes : bytes_value value.
Proof.
  unfold value, point. bytes_all. intros k v Hk. unfold tags in Hk. rewrite !lookup_insert_Some, lookup_empty in Hk.
  destruct Hk as [[<- <-]|[_ [[<- <-]|[_ [[<- <-]|[_ Hk]]]]]]; [..|done]; (split; [done|]); bytes_all.
Qed.

Lemma value_json : raw_of <$> describe true shapes programs encode_fuel 0 0 0 value = Some json.
Proof. vm_compute. reflexivity. Qed.
End Shapes.
