(* ===== verification/EncodeValue.v ===== *)
(** The encoder as a whole: what [AppendJSON] returns, that it is a strict JSON
    text, and the plan of a record of empty records, for which it is not. *)

From S2P Require Import Prelude Words Utf8 Scanner Lex Grammar StringRef Errors Numbers Reader Validator FastValid ParserString Layout Decode NumberEqual Digits DecoderScalar EncodeString EncodeInt OpenAddr FieldFold FieldTable TypedPlan EncodePlan TypedEncode EncodeSpec EncodeFuse EncodeText EncodeKeys EncodeRun EncodeSample.
From stdpp Require Import gmap sorting.
Open Scope Z_scope.

(** ** A description is a value of the grammar *)

Lemma jelems_list k ts : Forall (fun t => jvalue k (raw_of t) t) ts -> ts <> [] -> jelems k (intercalate [","%ch] (map raw_of ts)) ts.
Proof.
  intros H. induction H as [|t ts Ht Hts IH]; intros Hne; [done|]. destruct ts as [|t' ts].
  - cbn [map intercalate]. pose proof (je_one k [] (raw_of t) t [] ltac:(constructor) Ht ltac:(constructor)) as E. cbn in E. by rewrite app_nil_r in E.
  - cbn [map]. rewrite intercalate_cons. change (raw_of t' :: map raw_of ts) with (map raw_of (t' :: ts)). cbn [map].
    apply (je_cons k [] (raw_of t) t [] _ (t' :: ts)); [constructor|done|constructor|]. by apply IH.
Qed.

Lemma jmembers_list k ms : Forall (fun m => jstring m.1.1 m.1.2 /\ jvalue k (raw_of m.2) m.2) ms -> ms <> [] ->
  jmembers k (intercalate [","%ch] (map member_text ms)) ms.
Proof.
  intros H. induction H as [|[[key name] t] ms [Hs Ht] Hms IH]; intros Hne; [done|]. cbn [fst snd] in *. destruct ms as [|m ms].
  - cbn [map intercalate]. unfold member_text. cbn [fst snd].
    pose proof (jm_one k [] key name [] [] (raw_of t) t [] ltac:(constructor) Hs ltac:(constructor) ltac:(constructor) Ht ltac:(constructor)) as E.
    cbn in E. by rewrite app_nil_r in E.
  - cbn [map]. rewrite intercalate_cons. cbn [map]. unfold member_text at 1. cbn [fst snd]. rewrite <- app_assoc. cbn [app].
    apply (jm_cons k [] key name [] [] (raw_of t) t [] _ (m :: ms)); [constructor|done|constructor|constructor|done|constructor|]. by apply IH.
Qed.

Lemma jvalue_arr k ts : 1 <= k -> Forall (fun t => jvalue (k - 1) (raw_of t) t) ts -> jvalue k (raw_of (arr ts)) (arr ts).
Proof.
  intros Hk Hts. unfold arr, arr_text. cbn [raw_of]. destruct ts as [|t ts]; [apply (jv_arr0 k []); [done|constructor]|]. apply jv_arr; [done|]. by apply jelems_list.
Qed.

Lemma jvalue_obj k ms : 1 <= k -> Forall (fun m => jstring m.1.1 m.1.2 /\ jvalue (k - 1) (raw_of m.2) m.2) ms -> jvalue k (raw_of (obj ms)) (obj ms).
Proof.
  intros Hk Hms. unfold obj, obj_text. cbn [raw_of]. destruct ms as [|m ms]; [apply (jv_obj0 k []); [done|constructor]|]. apply jv_obj; [done|]. by apply jmembers_list.
Qed.

Lemma quoted_value h s : bytes_ok s -> jstring (quoted h s) (sanitized s).
Proof. intros Hs. unfold quoted. constructor. by apply encoded_spelled. Qed.

Section Value.
Context (h : bool) (p : plan) (ep : programs) (rank : nat -> nat).
Hypothesis He : forall n nd, p !! n = Some nd -> enc_node_ok h p ep rank n nd.

Lemma scalar_jvalue k nd n v t : p !! n = Some nd -> describe_scalar h nd v = Some t -> has_type p n v -> bytes_value v -> 0 <= k -> jvalue k (raw_of t) t.
Proof using He.
  intros Hn E Hv Hb Hk. unfold describe_scalar in E.
  inversion Hv as [? ? b Hn' Hk'|? ? s Hn' Hk'|? ? s Hn' Hk'|? ? z Hn' Hk' Hz|? ? z Hn' Hk' Hz|? ? ? Hn' Hk'|? ? Hn' Hk'|? ? ? ? Hn' Hk'
    |? ? ? Hn' Hk' Hlen|? ? Hn' Hk'|? ? ? Hn' Hk'|? ? Hn' Hk'|? ? ? Hn' Hk']; subst; rewrite Hn in Hn'; injection Hn' as <-; rewrite Hk' in E; try done.
  - injection E as <-. destruct b; by constructor.
  - injection E as <-. constructor; [done|]. apply quoted_value. by inversion Hb.
  - cbv zeta in E. destruct (validNumber _) eqn:Ev; [|done]. injection E as <-. constructor; [done|]. apply validNumber_jnumber; [|done]. case_match; [by repeat constructor|by inversion Hb].
  - injection E as <-. constructor; [done|]. apply FormatInt_number. pose proof (width_range nd z (en_bits _ _ _ _ _ _ (He _ _ Hn) ltac:(by left)) Hz). lia.
  - injection E as <-. constructor; [done|]. apply (width_urange nd z) in Hz; [|apply (en_bits _ _ _ _ _ _ (He _ _ Hn)); by right].
    pose proof (FormatInt_number z ltac:(lia)) as (Hj & _). unfold FormatInt in Hj. by rewrite (proj2 (Z.ltb_ge _ _)) in Hj by lia.
Qed.

Lemma elems_jvalue (down : gval -> option tree) k l ts : mapM down l = Some ts -> (forall x t, In x l -> down x = Some t -> jvalue k (raw_of t) t) ->
  Forall (fun t => jvalue k (raw_of t) t) ts.
Proof using.
  intros E H. apply mapM_Some_1 in E. induction E as [|x t l ts Hx _ IH]; [done|]. constructor; [apply (H x); [by left|done]|]. apply IH. intros y u Hy. apply H. by right.
Qed.

Lemma describe_jvalue fuel depth run n v t : describe h p ep fuel depth run n v = Some t -> has_type p n v -> bytes_value v ->
  forall k, 0 <= k -> DefaultMaxDepth - depth <= k -> jvalue k (raw_of t) t.
Proof using He.
  revert depth run n v t. induction fuel as [|fuel IH]; intros depth run n v t E Hv Hb k H0 Hk; [done|]. cbn [describe] in E. unfold describe_body in E.
  assert (Hn : exists nd, p !! n = Some nd) by (inversion Hv; by eexists). destruct Hn as [nd Hn]. rewrite Hn in E. cbn [mbind option_bind] in E.
  assert (Hscalar : describe_scalar h nd v = Some t -> jvalue k (raw_of t) t) by (intros; by eapply scalar_jvalue).
  destruct (tn_kind nd) eqn:Hkd; try exact (Hscalar E).
  - destruct (Z.ltb_spec depth DefaultMaxDepth); [|done]. destruct (struct_value p n nd v Hn Hkd Hv) as (vs & -> & Hvs). unfold describe_struct in E.
    destruct (en_record _ _ _ _ _ _ (He _ _ Hn) Hkd) as [s Hs]. rewrite (eo_program _ _ _ _ _ _ _ Hs) in E. cbn [mbind option_bind] in E.
    destruct (mapM _ (es_resolved s)) as [ms|] eqn:Em; [|done]. injection E as <-. apply jvalue_obj; [lia|].
    apply mapM_Some_1 in Em. pose proof (eo_names _ _ _ _ _ _ _ Hs) as Hnames. pose proof (eo_fields _ _ _ _ _ _ _ Hs) as Hf.
    clear Hscalar. revert Em Hnames Hf. generalize (es_resolved s). intros rs Em Hnames Hf. induction Em as [|r mr rs ms Er _ IHm]; [constructor|]. apply Forall_cons in Hnames as [Hname Hnames], Hf as [(hops & Eh & Hpath & _) Hf]. cbn [concat].
    apply Forall_app. split; [|by apply IHm]. unfold describe_field, present in Er. rewrite Eh in Er. cbn [mbind option_bind] in Er.
    destruct (behind_typed p _ _ _ _ vs Hpath Hvs) as (o & Eo & Ho). rewrite Eo in Er. cbn [mbind option_bind] in Er. destruct o as [x|]; [|by injection Er as <-].
    destruct (omitted r x); [by injection Er as <-|]. destruct (describe _ _ _ _ _ _ _ x) as [u|] eqn:Eu; [|done]. injection Er as <-. constructor; [|constructor]. cbn [name_of fst snd]. split.
    + by apply quoted_value.
    + eapply IH; [exact Eu|by apply Ho|by eapply bytes_behind|lia..].
  - destruct v as [| | | | |[[l stale]|]| | |]; try exact (Hscalar E); [|injection E as <-; by constructor]. destruct (Z.ltb_spec depth DefaultMaxDepth); [|done].
    destruct (mapM _ l) as [ts|] eqn:Em; [|done]. injection E as <-. apply jvalue_arr; [lia|]. eapply elems_jvalue; [exact Em|]. intros x u Hx%list_elem_of_In Hu.
    inversion Hv as [| | | | | | |? ? ? ? Hn' _ Hl _| | | | |]; simplify_eq. inversion Hb as [| | | | | |? ? Hbl| | | | |]; subst. rewrite Forall_forall in Hl, Hbl.
    eapply IH; [exact Hu|by apply Hl|by apply Hbl|lia..].
  - destruct v as [| | | | | |l| |]; try exact (Hscalar E). destruct (Z.ltb_spec depth DefaultMaxDepth); [|done].
    destruct (mapM _ l) as [ts|] eqn:Em; [|done]. injection E as <-. apply jvalue_arr; [lia|]. eapply elems_jvalue; [exact Em|]. intros x u Hx%list_elem_of_In Hu.
    inversion Hv as [| | | | | | | |? ? ? Hn' _ _ Hl| | | |]; simplify_eq. inversion Hb as [| | | | | | |? Hbl| | | |]; subst. rewrite Forall_forall in Hl, Hbl.
    eapply IH; [exact Hu|by apply Hl|by apply Hbl|lia..].
  - destruct v as [| | | | | | |[x|]|]; try exact (Hscalar E); [|injection E as <-; by constructor]. destruct (run <? DefaultMaxDepth); [|done].
    inversion Hv; simplify_eq. inversion Hb; subst. by eapply IH.
  - destruct v as [| | | | | | | |[m|]]; try exact (Hscalar E); [|injection E as <-; by constructor]. destruct (Z.ltb_spec depth DefaultMaxDepth); [|done].
    inversion Hv as [| | | | | | | | | | | |? ? ? Hn' _ Hm]; simplify_eq. inversion Hb as [| | | | | | | | | | |? Hbm]; subst.
    assert (Hkeys : Forall (fun e => key_type p nd e.1) (map_to_list m)) by (apply Forall_forall; intros [kk x] Hin%elem_of_map_to_list; by apply (Hm kk x)).
    pose proof (en_key _ _ _ _ _ _ (He _ _ Hn) Hkd) as Hbits. destruct (entries_ok p nd Hbits (fun l => l) m (map_to_list m) ltac:(done) Hkeys) as (entries & _ & Esort & Hperm).
    rewrite Esort in E. cbn [mbind option_bind] in E. destruct (mapM _ (merge_sort _ entries)) as [ms|] eqn:Em; [|done]. injection E as <-. apply jvalue_obj; [lia|].
    assert (Hin : Forall (fun e => has_type p (tn_elem nd) e.2 /\ bytes_value e.2 /\ bytes_ok e.1) (merge_sort entry_le entries)).
    { apply Forall_forall. intros [name x] Hin. rewrite merge_sort_Permutation, Hperm in Hin. exact (entry_typed p nd m name x Hbits Hm Hbm Hin). }
    clear Hscalar. apply mapM_Some_1 in Em. revert Em Hin. generalize (merge_sort entry_le entries). intros l Em Hin.
    induction Em as [|[name x] mm l ms Ex _ IHm]; [constructor|]. apply Forall_cons in Hin as [(Hxt & Hxb & Hname) Hin]. cbn [fst snd] in *.
    constructor; [|by apply IHm]. destruct (describe _ _ _ _ _ _ _ x) as [u|] eqn:Eu; [|done]. injection Ex as <-. cbn [name_of fst snd]. split; [by apply quoted_value|].
    eapply IH; [exact Eu|done..|lia|lia].
Qed.
End Value.

(** ** [AppendJSON] *)

Section Append.
Context (spare : bytes -> bytes) (Quote : bytes -> string) (escapeHTML : bool) (p : plan) (ep : programs).
Context (iterate : gmap map_key gval -> list (map_key * gval)).
Hypothesis Hiter : forall m, iterate m ≡ₚ map_to_list m.
Hypothesis Hok : encoder_ok escapeHTML p ep.

Abbreviation append := (AppendJSON spare Quote escapeHTML p ep iterate).
Abbreviation described := (describe escapeHTML p ep encode_fuel 0 0).

Lemma encode_fuel_enough : enough encode_fuel 0 0.
Proof using. unfold enough, encode_fuel, DefaultMaxDepth. lia. Qed.

Lemma append_spec dst root v : has_type p root v -> bytes_value v ->
  match described root v with
  | Some t => append dst root v = Ok (dst ++ raw_of t) /\ forall k, DefaultMaxDepth <= k -> jvalue k (raw_of t) t
  | None => exists e, append dst root v = Err (EEncode e) /\
      (Reason e = too_deep \/ exists literal, Reason e = String.append "invalid number literal " (Quote literal))
  end.
Proof using Hiter Hok.
  intros Hv Hb. destruct Hok as [rank He]. unfold AppendJSON.
  pose proof (encode_gives spare Quote escapeHTML p ep iterate rank He Hiter encode_fuel encode_fuel 0 0 root v dst encode_fuel_enough encode_fuel_enough Hv Hb) as Hg.
  unfold text in Hg. destruct (described root v) as [t|] eqn:Et; cbn [fmap option_fmap option_map gives] in Hg.
  - rewrite Hg. split; [done|]. intros k Hk. eapply (describe_jvalue escapeHTML p ep rank He); [exact Et|done..|unfold DefaultMaxDepth in *; lia|lia].
  - destruct Hg as (e & -> & Hr). cbn [map_err]. destruct e as [c|[c buf]|]; [|cbn in *|done]; by eexists.
Qed.
End Append.

(** ** A record of empty records *)

(** [type T struct { E struct{} `json:"E"` }]: the only member is spliced into the
    literal that closes the record, and the record has no field left from whose
    name the leading comma could be stripped. *)
Module EmptyMembers.
Definition empty_node (zero : gval) (slots : list (option nat)) : typedNode :=
  mkTyped typedStruct 0 0 0 "" zero mapKeyString 0 "" slots [] None 0 [].
Definition empties : plan := [empty_node (VStruct [VStruct []]) [Some 1%nat]; empty_node (VStruct []) []].
Definition member : resolvedEnc := mkResolvedEnc (bs "E") 0 1 None false false.
Definition compiled (ep : programs) (rs : list resolvedEnc) : option encStruct :=
  match compile_struct true empties ep (fun _ => true) rs [] with Ok s => Some s | _ => None end.
Definition programs : programs := Eval vm_compute in [compiled [None; compiled [] []] [member]; compiled [] []].
Definition value : gval := VStruct [VStruct []].
Definition record : encStruct := match program_of programs 0 with Some s => s | None => mkEncStruct [] [] true (mkProgram [] [] [] [] 0) end.
End EmptyMembers.

(** *** Any such record *)

Section EmptyRecords.
Context (h : bool) (p : plan) (ep : programs).

(** A member, neither promoted nor omitted, whose type is a record without
    members, complete when the record around it is compiled. *)
Record empty_member (complete : nat -> bool) (r : resolvedEnc) : Prop := {
  em_name : bytes_ok (er_name r);
  em_plain : er_hop r = None /\ er_omitEmpty r = false /\ er_omitZero r = false;
  em_node : exists nd, p !! er_node r = Some nd /\ tn_kind nd = typedStruct;
  em_complete : complete (er_node r) = true;
  em_program : exists complete' s, compile_struct h p ep complete' [] [] = Ok s /\ program_of ep (er_node r) = Some s
  }.

Definition empty_text (r : resolvedEnc) : bytes := quoted h (er_name r) ++ bs ":{}".

(** The program of a record without members. *)
Definition bare : encStruct := mkEncStruct [] [] true (mkProgram [] [] ["}"%ch] [] 0).

Lemma empty_program complete r : empty_member complete r -> program_of ep (er_node r) = Some bare.
Proof using. intros [_ _ _ _ (c & s & [= <-] & E)]. exact E. Qed.

Lemma empty_eligible complete r : empty_member complete r -> fuseEligible ep (enc_field h p complete r) = Some (es_program bare).
Proof using.
  intros Hr. unfold fuseEligible, enc_field. cbn [ef_op ef_node]. destruct (em_node _ _ Hr) as (nd & En & Ek).
  unfold encOp_of. rewrite (em_complete _ _ Hr), En. cbn [option_map]. unfold op_of. by rewrite Ek, (empty_program complete r Hr).
Qed.

(** All the members move into the closing literal. *)
Lemma fuse_empty complete rs pending extra : Forall (empty_member complete) rs ->
  fuse_loop ep (map (fun r => (enc_field h p complete r, er_name r)) rs) pending extra =
  ([], pending ++ commas (map empty_text rs), match rs with [] => extra | _ => Z.max extra 1 end).
Proof using.
  intros H. revert pending extra. induction H as [|r rs Hr _ IH]; intros pending extra; [by rewrite app_nil_r|]. cbn [map fuse_loop].
  rewrite (empty_eligible complete r Hr). cbn [es_program encFields bare encFusedExtra encClose]. rewrite IH.
  f_equal; [|destruct rs; lia]. f_equal. unfold commas, empty_text. cbn [map concat enc_field ef_name]. by norm_app.
Qed.

Lemma empty_compiled complete rs hops : Forall (empty_member complete) rs -> rs <> [] ->
  compile_struct h p ep complete rs hops = Ok (mkEncStruct rs hops true (mkProgram [] [] (commas (map empty_text rs) ++ ["}"%ch]) [] 1)).
Proof using.
  intros Hrs Hne. unfold compile_struct. rewrite compile_enc_fields_ok by (eapply Forall_impl; [exact Hrs|]; intros r Hr; by apply Hr). cbn [res_bind].
  assert (Hs : forallb (fun r => match er_hop r with Some _ => false | None => negb (er_omitEmpty r || er_omitZero r) end) rs = true).
  { apply forallb_forall. intros r Hin. rewrite List.Forall_forall in Hrs. destruct (em_plain _ _ (Hrs r Hin)) as (-> & -> & ->). done. }
  rewrite Hs. unfold fuseSimpleStructFields. destruct rs as [|r rs]; [done|]. pose proof Hrs as [Hr _]%Forall_cons.
  assert (Hex : existsb (fun f => match fuseEligible ep f.1 with Some _ => true | None => false end)
    (map (fun r => (enc_field h p complete r, er_name r)) (r :: rs)) = true) by (cbn [map existsb fst]; by rewrite (empty_eligible complete r Hr)).
  rewrite Hex. by rewrite (fuse_empty complete (r :: rs) [] 0 Hrs).
Qed.

(** The description of a value of the record. *)
Lemma empty_described complete fuel n nd s vs : p !! n = Some nd -> tn_kind nd = typedStruct -> program_of ep n = Some s ->
  Forall (empty_member complete) (es_resolved s) -> Forall (fun r => tn_slots nd !! er_slot r = Some (Some (er_node r))) (es_resolved s) ->
  Forall2 (slot_type p) (tn_slots nd) vs ->
  describe h p ep (S (S fuel)) 0 0 n (VStruct vs) = Some (obj (map (fun r => (name_of h (er_name r), obj [])) (es_resolved s))).
Proof using.
  intros Hn Hk Hs Hrs Hslots Hvs. set (down := describe h p ep (S fuel) 1 0).
  assert (Hfield : forall r, In r (es_resolved s) -> describe_field h down s (VStruct vs) r = Some [(name_of h (er_name r), obj [])]).
  { intros r Hin. rewrite List.Forall_forall in Hrs, Hslots. pose proof (Hrs r Hin) as Hr. destruct (em_plain _ _ Hr) as (Eh & Ee & Ez). destruct (em_node _ _ Hr) as (cnd & Ecn & Eck).
    destruct (slot_found p _ _ _ _ Hvs (Hslots r Hin)) as (x & Hx & Ht). destruct (struct_value p _ _ _ Ecn Eck Ht) as (cvs & -> & _).
    unfold describe_field, present, enc_hops. rewrite Eh. cbn [mbind option_bind behind]. rewrite Hx. cbn. unfold omitted. rewrite Ee, Ez. cbn [andb orb].
    unfold down. cbn [describe]. unfold describe_body. rewrite Ecn. cbn [mbind option_bind]. rewrite Eck. unfold describe_struct. by rewrite (empty_program complete r Hr). }
  change (describe h p ep (S (S fuel)) 0 0 n (VStruct vs)) with (describe_body h p ep down (describe h p ep (S fuel) 0 1) true true n (VStruct vs)).
  unfold describe_body. rewrite Hn. cbn [mbind option_bind]. rewrite Hk. unfold describe_struct. rewrite Hs. cbn [mbind option_bind].
  assert (Hm : mapM (describe_field h down s (VStruct vs)) (es_resolved s) = Some (map (fun r => [(name_of h (er_name r), obj [])]) (es_resolved s))).
  { clear Hrs Hslots. induction (es_resolved s) as [|r rs IH]; [done|]. cbn [mapM map]. rewrite Hfield by (by left). rewrite IH by (intros; apply Hfield; by right). done. }
  rewrite Hm. cbn [mbind option_bind]. do 2 f_equal. clear. induction (es_resolved s) as [|r rs IH]; [done|]. cbn [map concat app]. by rewrite IH.
Qed.

(** No JSON text opens a record with a comma. *)
Lemma comma_first k s t : ~ jdoc k ("{"%ch :: ","%ch :: s) t.
Proof using.
  intros Ht. apply (ref_doc_complete _ _ unexpected_byte) in Ht. unfold ref_doc in Ht.
  assert (E : ref_ws ("{"%ch :: ","%ch :: s) 0 = 0%nat) by done. rewrite E in Ht. cbn [ref_value] in Ht. unfold ref_body in Ht.
  destruct (k <? 0); [done|]. change (("{"%ch :: ","%ch :: s) !! 0%nat) with (Some "{"%ch) in Ht. cbn [Z.eqb Pos.eqb] in Ht.
  unfold ref_object in Ht. destruct (k <? 0 + 1); [done|]. assert (E1 : ref_ws ("{"%ch :: ","%ch :: s) 1 = 1%nat) by done.
  rewrite E1 in Ht. cbn [ref_members] in Ht. rewrite E1 in Ht. by cbn in Ht.
Qed.
End EmptyRecords.

(** ** Properties *)

(** C9: Encoding a value of a compiled type, a finite tree of any depth, whose programs keep a field of every record that has members ([encoder_ok], which leaves out the records all of whose members are records without members), appends, to whatever destination and whatever its spare capacity holds, the compact text of the value's description, or fails with an encode error when there is none; it never panics and always returns. The description is by recursion on the resolved fields: the programs that splice the records held by value into one list, run fields in pairs, copy short names in blocks of sixteen bytes, overwrite the first comma of a slice with its bracket and sort the entries of maps write exactly that text, which is a strict JSON text within the depth limit; an error is of the depth, which bounds containers and runs of pointers, or of a number literal. *)
Theorem AppendJSON_describes (spare : bytes -> bytes) (Quote : bytes -> string) (escapeHTML : bool) (p : plan) (ep : programs)
  (iterate : gmap map_key gval -> list (map_key * gval)) (dst : bytes) (root : nat) (v : gval) :
  (forall m, iterate m ≡ₚ map_to_list m) -> encoder_ok escapeHTML p ep -> has_type p root v -> bytes_value v ->
  match describe escapeHTML p ep encode_fuel 0 0 root v with
  | Some t => AppendJSON spare Quote escapeHTML p ep iterate dst root v = Ok (dst ++ raw_of t) /\ jvalue DefaultMaxDepth (raw_of t) t
  | None => exists e, AppendJSON spare Quote escapeHTML p ep iterate dst root v = Err (EEncode e) /\
      (Reason e = too_deep \/ exists literal, Reason e = String.append "invalid number literal " (Quote literal))
  end.
Proof.
  intros Hiter Hok Hv Hb. pose proof (append_spec spare Quote escapeHTML p ep iterate Hiter Hok dst root v Hv Hb) as H.
  destruct (describe _ _ _ _ _ _ _ _) as [t|]; [|done]. destruct H as [H Hj]. split; [done|]. by apply Hj.
Qed.

(** Into a destination whose spare capacity takes the name blocks. *)
Lemma AppendJSON_describes_witness :
  AppendJSON (fun _ => replicate 64 7) (fun _ => EmptyString) true Shapes.shapes Shapes.programs map_to_list (bs "out ") 0 Shapes.value = Ok (bs "out " ++ Shapes.json).
Proof.
  pose proof (AppendJSON_describes (fun _ => replicate 64 7) (fun _ => EmptyString) true Shapes.shapes Shapes.programs map_to_list (bs "out ") 0 Shapes.value
    ltac:(done) Shapes.programs_ok Shapes.value_type Shapes.value_bytes) as H.
  pose proof Shapes.value_json as Hj. destruct (describe _ _ _ _ _ _ _ _) as [t|]; [|discriminate Hj]. injection Hj as <-. apply H.
Defined.

(** C18: Encoding a record with at least one member, all of whose members are neither promoted nor optional and are records without members, gives a text that is not JSON at any depth: an opening brace, a comma, the members and a closing brace. The description of the value is that text without the first comma, and is JSON. *)
Theorem empty_members_break spare Quote (h : bool) (p : plan) (ep : programs) iterate (complete : nat -> bool) (root : nat) (nd : typedNode) (s : encStruct) (v : gval) :
  p !! root = Some nd -> tn_kind nd = typedStruct -> program_of ep root = Some s ->
  compile_struct h p ep complete (es_resolved s) (es_hops s) = Ok s ->
  es_resolved s <> [] -> Forall (empty_member h p ep complete) (es_resolved s) ->
  Forall (fun r => tn_slots nd !! er_slot r = Some (Some (er_node r))) (es_resolved s) -> has_type p root v ->
  let members := intercalate [","%ch] (map (empty_text h) (es_resolved s)) in
  Marshal spare Quote h p ep iterate root v = Ok (bs "{," ++ members ++ bs "}") /\
  (forall k t, ~ jdoc k (bs "{," ++ members ++ bs "}") t) /\
  (exists t, describe h p ep encode_fuel 0 0 root v = Some t /\ raw_of t = bs "{" ++ members ++ bs "}" /\ jvalue DefaultMaxDepth (raw_of t) t).
Proof.
  intros Hn Hk Hs Hc Hne Hrs Hslots Hv members. rewrite (empty_compiled h p ep complete _ (es_hops s) Hrs Hne) in Hc. injection Hc as Hc.
  assert (Hm : commas (map (empty_text h) (es_resolved s)) = bs "," ++ members).
  { unfold members. rewrite intercalate_commas. by destruct (es_resolved s). }
  rewrite Hm in Hc. destruct (struct_value p root nd v Hn Hk Hv) as (vs & -> & Hvs). split_and!.
  - unfold Marshal, AppendJSON, encode_fuel. generalize (Z.to_nat (2 * DefaultMaxDepth)). intros fuel.
    cbn [TypedEncode.encode]. unfold encodeKind, encodeStruct. rewrite Hn, Hk, Hs, <- Hc. cbn [encSimple es_program encFusedExtra].
    unfold encodeSimpleStructPairs. cbn [encode_pairs encFields encClose res_bind app].
    rewrite (proj2 (Nat.eqb_neq _ 1)) by (rewrite !length_app; cbn; lia). cbn [map_err DefaultMaxDepth Z.add Z.leb Z.compare Pos.compare Pos.compare_cont]. f_equal.
  - intros k t. apply comma_first.
  - eexists. split; [by apply (empty_described h p ep complete _ root nd s vs)|]. split.
    + unfold obj, obj_text. cbn [raw_of]. rewrite map_map. done.
    + apply jvalue_obj; [done|]. apply List.Forall_map. eapply Forall_impl; [exact Hrs|]. intros r Hr. cbn [fst snd name_of]. split; [by apply quoted_value, Hr|].
      apply (jv_obj0 _ []); [done|constructor].
Qed.

(** [type T struct { E struct{} }]. *)
Lemma empty_members_break_witness :
  Marshal (fun _ => []) (fun _ => EmptyString) true EmptyMembers.empties EmptyMembers.programs map_to_list 0 EmptyMembers.value = Ok (js "{,'E':{}}") /\
  (forall k t, ~ jdoc k (js "{,'E':{}}") t) /\
  exists t, describe true EmptyMembers.empties EmptyMembers.programs encode_fuel 0 0 0 EmptyMembers.value = Some t /\ raw_of t = js "{'E':{}}" /\ jvalue DefaultMaxDepth (raw_of t) t.
Proof.
  assert (Hslot : tn_slots (EmptyMembers.empty_node (VStruct [VStruct []]) [Some 1%nat]) !! 0%nat = Some (Some 1%nat)) by done.
  exact (empty_members_break (fun _ => []) (fun _ => EmptyString) true EmptyMembers.empties EmptyMembers.programs map_to_list (fun _ => true) 0
    (EmptyMembers.empty_node (VStruct [VStruct []]) [Some 1%nat]) EmptyMembers.record EmptyMembers.value eq_refl eq_refl eq_refl eq_refl
    ltac:(discriminate)
    ltac:(constructor; [constructor; [concrete_bytes|by split_and!|by eexists|done|by eexists (fun _ => true), _]|constructor])
    ltac:(constructor; [exact Hslot|constructor])
    ltac:(repeat (econstructor; [reflexivity|reflexivity|]; repeat constructor))).
Defined.
