(* ===== verification/RoundTrip.v ===== *)
(** Encoding and decoding compose: a canonical value is what decoding its own
    encoding leaves in a zero destination.  The proof goes through the two
    specifications: the tree that describes a value assigns the value. *)

From S2P Require Import Prelude Words Utf8 Scanner Lex Grammar StringRef Errors Numbers Reader Validator FastValid ParserString Layout Decode NumberEqual Digits DecoderCursor DecoderScalar OpenAddr FieldFold FieldTable FieldMatch TypedPlan TypedDecode TypedSpec TypedTrack TypedRun EncodeString EncodeInt EncodePlan TypedEncode EncodeSpec EncodeFuse EncodeText EncodeKeys EncodeRun EncodeSample EncodeValue.
From stdpp Require Import gmap sorting.
Open Scope Z_scope.

(** ** Plans of one type for both directions *)

(** The zero value of a composite type, by its parts. *)
Definition zero_form (p : plan) (nd : typedNode) : Prop :=
  match tn_kind nd with
  | typedStruct => exists zs, tn_zero nd = VStruct zs /\
      forall f, In f (tn_fields nd) -> exists c, p !! tf_node f = Some c /\ zs !! tf_slot f = Some (tn_zero c)
  | typedSlice => tn_zero nd = VSlice None
  | typedArray => exists c, p !! tn_elem nd = Some c /\ tn_zero nd = VArray (replicate (tn_length nd) (tn_zero c))
  | typedPointer => tn_zero nd = VPointer None
  | typedMap => tn_zero nd = VMap None
  | _ => True
  end.

(** The two halves of a record have the same fields, none behind an embedded
    pointer; the names of fields are valid UTF-8. *)
Record both_ways (p : plan) (ep : programs) (n : nat) (nd : typedNode) : Prop := {
  bw_zero : zero_form p nd;
  bw_key : tn_kind nd = typedMap -> tn_mapKeyKind nd <> mapKeyString -> int_width (tn_keyBits nd);
  bw_fields : tn_kind nd = typedStruct -> exists s, program_of ep n = Some s /\
    map (fun f => (tf_name f, tf_slot f, tf_node f)) (tn_fields nd) = map (fun r => (er_name r, er_slot r, er_node r)) (es_resolved s) /\
    Forall (fun f => tf_hop f = None) (tn_fields nd) /\ Forall (fun r => er_hop r = None) (es_resolved s) /\
    NoDup (map er_slot (es_resolved s)) /\ Forall (fun r => utf8_text (er_name r)) (es_resolved s)
  }.

Definition two_way (p : plan) (ep : programs) : Prop := forall n nd, p !! n = Some nd -> both_ways p ep n nd.

(** ** Canonical values *)

Definition nil_value (v : gval) : bool := match v with VSlice None | VPointer None | VMap None => true | _ => false end.

(** The values that JSON can tell apart: strings are valid UTF-8, numbers are
    spelled, what is omitted or outside the fields is zero, slices have no spare
    elements, and no pointer points to a nil. *)
#[warnings="-register-all"] Inductive canonical (p : plan) (ep : programs) : nat -> gval -> Prop :=
  | CN_bool n b : canonical p ep n (VBool b)
  | CN_string n nd s : p !! n = Some nd -> tn_kind nd = typedString -> utf8_text s -> canonical p ep n (VString s)
  | CN_number n nd s : p !! n = Some nd -> tn_kind nd = typedNumber -> validNumber s = true -> canonical p ep n (VString s)
  | CN_int n z : canonical p ep n (VInt z)
  | CN_uint n z : canonical p ep n (VUint z)
  | CN_struct n nd s zs slots : p !! n = Some nd -> tn_kind nd = typedStruct -> program_of ep n = Some s -> tn_zero nd = VStruct zs ->
      (forall r x, In r (es_resolved s) -> slots !! er_slot r = Some x -> canonical p ep (er_node r) x /\ (omitted r x = true -> zs !! er_slot r = Some x)) ->
      (forall i, ~ In i (map er_slot (es_resolved s)) -> slots !! i = zs !! i) -> canonical p ep n (VStruct slots)
  | CN_slice_nil n : canonical p ep n (VSlice None)
  | CN_slice n nd l : p !! n = Some nd -> Forall (canonical p ep (tn_elem nd)) l -> canonical p ep n (VSlice (Some (l, [])))
  | CN_array n nd l : p !! n = Some nd -> Forall (canonical p ep (tn_elem nd)) l -> canonical p ep n (VArray l)
  | CN_pointer_nil n : canonical p ep n (VPointer None)
  | CN_pointer n nd x : p !! n = Some nd -> nil_value x = false -> canonical p ep (tn_elem nd) x -> canonical p ep n (VPointer (Some x))
  | CN_map_nil n : canonical p ep n (VMap None)
  | CN_map n nd m : p !! n = Some nd ->
      (forall k x, m !! k = Some x -> match k with inl s => utf8_text s | inr _ => True end /\ canonical p ep (tn_elem nd) x) -> canonical p ep n (VMap (Some m)).

(** ** Names of keys read back *)

Lemma ascii_utf8 s : Forall (fun c => 0 <= c < 128) s -> utf8_text s.
Proof.
  intros H. induction H as [|c s Hc _ IH]; [constructor|]. change (c :: s) with ([c] ++ s). rewrite <- (encode_rune_ascii c) by lia.
  constructor; [|done]. apply is_scalar_spec; lia.
Qed.

Lemma ascii_sanitized s : Forall (fun c => 0 <= c < 128) s -> sanitized s = s.
Proof. intros H. by apply sanitized_utf8, ascii_utf8. Qed.

Lemma FormatUint_ascii z : 0 <= z < 2 ^ 64 -> Forall (fun c => 0 <= c < 128) (FormatUint z).
Proof.
  intros Hz. destruct (FormatUint_digits z Hz) as ((Hd & _) & _). eapply Forall_impl; [exact Hd|]. intros c Hc. unfold IsDigit in Hc. lia.
Qed.

Lemma ParseUint64_back z : 0 <= z < 2 ^ 64 -> ParseUint64 (FormatUint z) = Some (z, true).
Proof.
  intros Hz. destruct (FormatUint_digits z Hz) as ((Hd & Hne & _) & Hv & _). rewrite ParseUint64_ok by done. rewrite Hv. by rewrite if_true by lia.
Qed.

Lemma ParseInt64_back z : - 2 ^ 63 <= z < 2 ^ 63 -> ParseInt64 (FormatInt z) = (z, true).
Proof.
  intros Hz. unfold FormatInt. destruct (Z.ltb_spec z 0).
  - unfold ParseInt64. rewrite Z.eqb_refl. cbn [orb drop]. rewrite drop_0, ParseUint64_back by lia. cbn [negb andb]. rewrite if_false by lia. f_equal. lia.
  - pose proof (ParseUint64_back z ltac:(lia)) as E. destruct (FormatUint_digits z ltac:(lia)) as ((Hd & Hne & _) & _).
    destruct (FormatUint z) as [|c s]; [done|]. apply Forall_cons in Hd as [Hc _]. unfold IsDigit in Hc. unfold ParseInt64.
    rewrite (proj2 (Z.eqb_neq c "-"%ch)), (proj2 (Z.eqb_neq c "+"%ch)) by lia. cbn [orb]. rewrite E. cbn [negb andb]. by rewrite if_false by lia.
Qed.

Lemma key_back p nd k : (tn_mapKeyKind nd <> mapKeyString -> int_width (tn_keyBits nd)) -> key_type p nd k ->
  match k with inl s => utf8_text s | inr _ => True end -> setMapKeyValue nd (sanitized (keyed nd k)) = inl k.
Proof.
  intros Hbits Hk Hu. unfold keyed, key_name, setMapKeyValue. inversion Hk as [? s E|? z E Hz|? z E Hz]; subst; rewrite E; change (default [] (Some ?x)) with x.
  - by rewrite sanitized_utf8.
  - destruct (key_width nd Hbits ltac:(congruence)) as [H1 H2]. rewrite ascii_sanitized.
    + rewrite ParseInt64_back by lia. cbn [negb orb]. unfold OverflowInt. by rewrite if_false by lia.
    + unfold FormatInt. case_match; [constructor; [lia|]|]; apply FormatUint_ascii; lia.
  - destruct (key_width nd Hbits ltac:(congruence)) as [H1 H2]. rewrite ascii_sanitized by (apply FormatUint_ascii; lia).
    rewrite ParseUint64_back by lia. cbn [negb orb]. unfold OverflowUint. by rewrite if_false by lia.
Qed.

(** ** The description of a canonical value assigns it *)

Section Back.
Context `{FoldingLaws} (flags : decoderFlags) (h : bool) (p : plan) (ep : programs) (rank : nat -> nat).
Hypothesis Hp : forall n nd, p !! n = Some nd -> node_ok p rank n nd.
Hypothesis Hw : two_way p ep.

Abbreviation asg := (assign flags p).
Abbreviation desc := (describe h p ep).

(** The pointers a chain below a node may still follow. *)
Definition chain_room (n fuel : nat) : Prop := match pointer_elem p n with Some _ => (rank n + 2 <= fuel)%nat | None => (1 <= fuel)%nat end.

(** What the tree of a value does to a zero destination. *)
Definition restores (t : tree) (n : nat) (v : gval) : Prop := forall nd, p !! n = Some nd ->
  asg t n (tn_zero nd) = Some v /\ (nil_value v = false -> t <> TNull /\ forall fuel, chain_room n fuel -> through p fuel n (tn_zero nd) (asg t) = Some v).

Lemma restores_base t n v nd : p !! n = Some nd -> tn_kind nd <> typedPointer -> (nil_value v = false -> t <> TNull) ->
  asg t n (tn_zero nd) = Some v -> restores t n v.
Proof using.
  intros Hn Hk Ht E nd' Hn'. rewrite Hn in Hn'. injection Hn' as <-. split; [done|]. intros Hv. split; [by apply Ht|]. intros fuel Hf.
  assert (Hpe : pointer_elem p n = None) by (unfold pointer_elem; rewrite Hn; by rewrite bool_decide_eq_false_2).
  unfold chain_room in Hf. rewrite Hpe in Hf. destruct fuel as [|fuel]; [lia|]. cbn [through]. by rewrite Hpe.
Qed.

Lemma base_elem n nd : p !! n = Some nd -> tn_kind nd <> typedPointer -> pointer_elem p n = None.
Proof using. intros Hn Hk. unfold pointer_elem. rewrite Hn. by rewrite bool_decide_eq_false_2. Qed.

(** *** Scalars *)

Lemma scalar_restores n nd v t : p !! n = Some nd -> describe_scalar h nd v = Some t -> has_type p n v -> canonical p ep n v -> restores t n v.
Proof using Hp.
  intros Hn E Hv Hc. assert (Hnp : tn_kind nd <> typedPointer) by (unfold describe_scalar in E; by destruct (tn_kind nd)).
  assert (Ht : t <> TNull) by (unfold describe_scalar in E; intros ->; destruct (tn_kind nd), v; try discriminate E; by case_match).
  apply (restores_base t n v nd Hn Hnp); [done|]. pose proof (no_zero _ _ _ _ (Hp n nd Hn)) as Hz. rewrite (assign_base_eq flags p t n _ (base_elem n nd Hn Hnp)).
  unfold assign_base. rewrite Hn. cbn [mbind option_bind]. unfold describe_scalar in E. pose proof (no_bits _ _ _ _ (Hp n nd Hn)) as Hbits.
  inversion Hv as [? ? b Hn' Hk|? ? s Hn' Hk|? ? s Hn' Hk|? ? z Hn' Hk Hzr|? ? z Hn' Hk Hzr|? ? ? Hn' Hk|? ? Hn' Hk|? ? ? ? Hn' Hk
    |? ? ? Hn' Hk Hlen|? ? Hn' Hk|? ? ? Hn' Hk|? ? Hn' Hk|? ? ? Hn' Hk]; subst; rewrite Hn in Hn'; injection Hn' as <-; rewrite Hk in *; try discriminate E;
    inversion Hz as [? ? b' Hn2 Hk2|? ? s' Hn2 Hk2|? ? s' Hn2 Hk2|? ? z' Hn2 Hk2 Hzr2|? ? z' Hn2 Hk2 Hzr2|? ? ? Hn2 Hk2|? ? Hn2 Hk2|? ? ? ? Hn2 Hk2
    |? ? ? Hn2 Hk2 Hlen2|? ? Hn2 Hk2|? ? ? Hn2 Hk2|? ? Hn2 Hk2|? ? ? Hn2 Hk2]; subst; rewrite Hn in Hn2; injection Hn2 as <-; rewrite Hk in Hk2; try discriminate Hk2.
  - by injection E as <-.
  - injection E as <-. cbn. rewrite sanitized_utf8; [done|]. inversion Hc; simplify_eq; [done|congruence].
  - assert (Hvn : validNumber s = true) by (inversion Hc; simplify_eq; [congruence|done]). destruct (Nat.eqb_spec (length s) 0) as [El|El].
    + by destruct s.
    + rewrite Hvn in E. by injection E as <-.
  - injection E as <-. destruct (FormatInt_number z) as (_ & Hpl & Hval & _).
    { pose proof (width_range nd z (Hbits ltac:(by left)) Hzr). lia. }
    cbn [int_val]. rewrite Hpl, Hval. rewrite (proj2 (Z.leb_le _ _)), (proj2 (Z.ltb_lt _ _)) by lia. done.
  - injection E as <-. pose proof (width_urange nd z (Hbits ltac:(by right)) Hzr) as Hr.
    assert (EF : FormatUint z = FormatInt z) by (unfold FormatInt; by rewrite (proj2 (Z.ltb_ge _ _)) by lia).
    destruct (FormatInt_number z ltac:(lia)) as (_ & Hpl & Hval & Hneg). rewrite EF. cbn [uint_val]. rewrite Hpl, Hval, Hneg.
    rewrite (proj2 (Z.ltb_ge z 0)), (proj2 (Z.ltb_lt _ _)) by lia. done.
Qed.

(** *** Records *)

Lemma assign_members_app nd ms ms' v : assign_members flags nd (ms ++ ms') v = v ← assign_members flags nd ms v; assign_members flags nd ms' v.
Proof using. revert v. induction ms as [|[name a] ms IH]; intros v; [done|]. cbn [app assign_members]. destruct (assign_member _ _ _ _ _); [apply IH|done]. Qed.

Lemma members_restore nd s (zs slots : list gval) : tn_kind nd = typedStruct -> record_ok (tn_fields nd) ->
  Forall (fun f => tf_hop f = None) (tn_fields nd) ->
  map (fun f => (tf_name f, tf_slot f, tf_node f)) (tn_fields nd) = map (fun r => (er_name r, er_slot r, er_node r)) (es_resolved s) ->
  forall down rs ms, (forall r, In r rs -> In r (es_resolved s)) -> NoDup (map er_slot rs) -> Forall (fun r => er_hop r = None) rs ->
  Forall (fun r => utf8_text (er_name r)) rs ->
  mapM (describe_field h down s (VStruct slots)) rs = Some ms ->
  (forall r x t, In r rs -> slots !! er_slot r = Some x -> down (er_node r) x = Some t ->
    exists z, zs !! er_slot r = Some z /\ asg t (er_node r) z = Some x) ->
  (forall r x, In r rs -> slots !! er_slot r = Some x -> omitted r x = true -> zs !! er_slot r = Some x) ->
  forall cur : list gval, (forall r, In r rs -> cur !! er_slot r = zs !! er_slot r) ->
  exists cur' : list gval, assign_members flags nd (map (fun m => (m.1.2, asg m.2)) (concat ms)) (VStruct cur) = Some (VStruct cur') /\
    (forall i, In i (map er_slot rs) -> cur' !! i = slots !! i) /\ (forall i, ~ In i (map er_slot rs) -> cur' !! i = cur !! i).
Proof using All.
  intros Hk Hrec Hhop Hsame down rs. induction rs as [|r rs IH]; intros ms Hin Hnd Hh Hu Em Hdown Hom cur Hcur.
  { injection Em as <-. exists cur. by split_and!. }
  cbn [mapM] in Em. destruct (describe_field h down s (VStruct slots) r) as [mr|] eqn:Er; [|done]. cbn [mbind option_bind] in Em.
  destruct (mapM _ rs) as [ms'|] eqn:Em'; [|done]. injection Em as <-. cbn [map] in Hnd. apply NoDup_cons in Hnd as [Hni Hnd].
  apply Forall_cons in Hh as [Hhr Hh], Hu as [Hur Hu]. cbn [concat]. rewrite map_app.
  unfold describe_field, present, enc_hops in Er. rewrite Hhr in Er. cbn [mbind option_bind behind] in Er.
  destruct (slots !! er_slot r) as [x|] eqn:Ex; [|done]. cbn [fmap option_fmap option_map mbind option_bind] in Er.
  assert (Hstep : exists cur1, assign_members flags nd (map (fun m => (m.1.2, asg m.2)) mr) (VStruct cur) = Some (VStruct cur1) /\
    cur1 !! er_slot r = Some x /\ forall i, i <> er_slot r -> cur1 !! i = cur !! i).
  { destruct (omitted r x) eqn:Eo.
    - injection Er as <-. exists cur. split_and!; [done| |done]. rewrite (Hcur r ltac:(by left)). apply (Hom r x); [by left|done..].
    - destruct (down (er_node r) x) as [t|] eqn:Ed; [|done]. injection Er as <-. destruct (Hdown r x t ltac:(by left) Ex Ed) as (z & Hz & Ha).
      cbn [map assign_members name_of fst snd]. unfold assign_member. rewrite (sanitized_utf8 _ Hur).
      assert (Hf : exists i f, tn_fields nd !! i = Some f /\ tf_name f = er_name r /\ tf_slot f = er_slot r /\ tf_node f = er_node r).
      { assert (Hr : In (er_name r, er_slot r, er_node r) (map (fun f => (tf_name f, tf_slot f, tf_node f)) (tn_fields nd))).
        { rewrite Hsame. apply in_map_iff. exists r. split; [done|]. apply Hin. by left. }
        apply in_map_iff in Hr as (f & [= E1 E2 E3] & Hf). apply list_elem_of_In, list_elem_of_lookup in Hf as [i Hi]. by exists i, f. }
      destruct Hf as (i & f & Hi & E1 & E2 & E3). rewrite <- E1, (choose_exact _ _ _ _ Hrec Hi). cbn [mbind option_bind].
      unfold field_hops. rewrite (Forall_lookup_1 _ _ _ _ Hhop Hi). cbn [mbind option_bind assign_hops]. rewrite E2, E3, (Hcur r ltac:(by left)), Hz.
      cbn [mbind option_bind]. rewrite Ha. cbn [mbind option_bind]. eexists. split_and!; [done| |].
      + apply list_lookup_insert_eq. rewrite <- (Hcur r ltac:(by left)) in Hz. by eapply lookup_lt_Some.
      + intros j Hj. by apply list_lookup_insert_ne. }
  destruct Hstep as (cur1 & E1 & Hx & Hother).
  destruct (IH ms' ltac:(intros; apply Hin; by right) Hnd Hh Hu eq_refl ltac:(intros; eapply Hdown; [by right|done..]) ltac:(intros; eapply Hom; [by right|done..]) cur1) as (cur' & E2 & H1 & H2).
  { intros q Hq. rewrite Hother; [apply Hcur; by right|]. intros E. apply Hni. rewrite <- E. apply list_elem_of_In, in_map_iff. by exists q. }
  exists cur'. split_and!.
  - rewrite assign_members_app, E1. done.
  - intros i [<-|Hi]; [|by apply H1]. rewrite H2; [by rewrite Hx, Ex|]. intros Hi. by apply Hni, list_elem_of_In.
  - intros i Hi. rewrite H2 by (intros Hi'; apply Hi; by right). apply Hother. intros ->. apply Hi. by left.
Qed.

Lemma record_restores n nd s slots down ms raw : p !! n = Some nd -> tn_kind nd = typedStruct -> program_of ep n = Some s -> has_type p n (VStruct slots) ->
  canonical p ep n (VStruct slots) -> mapM (describe_field h down s (VStruct slots)) (es_resolved s) = Some ms ->
  (forall r x t, In r (es_resolved s) -> has_type p (er_node r) x -> canonical p ep (er_node r) x -> down (er_node r) x = Some t -> restores t (er_node r) x) ->
  restores (TObj raw (concat ms)) n (VStruct slots).
Proof using All.
  intros Hn Hk Hs Hv Hc Em Hdown. destruct (Hw n nd Hn) as [Hz _ Hb]. destruct (Hb Hk) as (s' & Hs' & Hsame & Hhop & Hhope & Hnd & Hu). rewrite Hs in Hs'. injection Hs' as <-.
  unfold zero_form in Hz. rewrite Hk in Hz. destruct Hz as (zs & Ez & Hzs). assert (Hnp : tn_kind nd <> typedPointer) by congruence.
  apply (restores_base _ n _ nd Hn Hnp); [done|]. rewrite (assign_base_eq flags p _ n _ (base_elem n nd Hn Hnp)). unfold assign_base. rewrite Hn. cbn [mbind option_bind].
  rewrite Hk, Ez. cbn [named names]. rewrite named_names. pose proof (no_record _ _ _ _ (Hp n nd Hn) Hk) as Hrec. pose proof (no_fields _ _ _ _ (Hp n nd Hn)) as Hfields.
  inversion Hc as [| | | | |? ? ? zs' ? Hn' _ Hs' Hz' Hin Hout| | | | | | |]; subst. rewrite Hn in Hn'; injection Hn' as <-. rewrite Hs in Hs'; injection Hs' as <-. rewrite Ez in Hz'; injection Hz' as <-.
  assert (Hfield : forall r, In r (es_resolved s) -> exists i f, tn_fields nd !! i = Some f /\ tf_slot f = er_slot r /\ tf_node f = er_node r).
  { intros r Hr. assert (Hr' : In (er_name r, er_slot r, er_node r) (map (fun f => (tf_name f, tf_slot f, tf_node f)) (tn_fields nd))) by (rewrite Hsame; apply in_map_iff; by exists r).
    apply in_map_iff in Hr' as (f & [= _ E2 E3] & Hf). apply list_elem_of_In, list_elem_of_lookup in Hf as [i Hi]. by exists i, f. }
  destruct (struct_value p n nd _ Hn Hk Hv) as (? & [= <-] & Hvs).
  assert (Htyped : forall r x, In r (es_resolved s) -> slots !! er_slot r = Some x -> has_type p (er_node r) x).
  { intros r x Hr Hx. destruct (Hfield r Hr) as (i & f & Hi & E2 & E3). destruct (Hfields i f Hk Hi) as (hops & Eh & Hpath & _).
    unfold field_hops in Eh. rewrite (Forall_lookup_1 _ _ _ _ Hhop Hi) in Eh. injection Eh as <-. apply path_type_slot in Hpath. rewrite E2, E3 in Hpath.
    destruct (slot_at p _ _ _ _ Hvs Hpath) as (y & Hy & Ht). congruence. }
  destruct (members_restore nd s zs slots Hk Hrec Hhop Hsame down (es_resolved s) ms) with (cur := zs) as (cur' & E & H1 & H2); try done.
  - intros r x t Hr Hx Ht. destruct (Hfield r Hr) as (i & f & Hi & E2 & E3). destruct (Hzs f) as (c & Hcn & Hcz); [by eapply list_elem_of_In, list_elem_of_lookup_2|].
    exists (tn_zero c). rewrite <- E2. split; [done|]. destruct (Hin r x Hr Hx) as [Hcx _].
    destruct (Hdown r x t Hr (Htyped r x Hr Hx) Hcx Ht c) as [Ha _]; [by rewrite <- E3|done].
  - intros r x Hr Hx Ho. by destruct (Hin r x Hr Hx) as [_ ?]; auto.
  - rewrite E. f_equal. f_equal. apply list_eq. intros i. destruct (in_dec Nat.eq_dec i (map er_slot (es_resolved s))) as [Hi|Hi]; [by apply H1|]. by rewrite H2, Hout.
Qed.

(** *** Sequences *)

Lemma seq_restores e zero (ts : list tree) l old : Forall2 (fun t x => asg t e zero = Some x) ts l -> Forall (eq zero) old ->
  assign_seq e zero (map asg ts) old = Some l.
Proof using.
  intros Hl. revert old. induction Hl as [|t x ts l Hx _ IH]; intros old Ho; [done|]. cbn [map assign_seq].
  replace (default zero (head old)) with zero by (by destruct Ho). rewrite Hx. cbn [mbind option_bind]. rewrite IH; [done|]. by destruct Ho.
Qed.

Lemma elements_restore e c (ts : list tree) l (down : gval -> option tree) : p !! e = Some c -> mapM down l = Some ts ->
  (forall x t, In x l -> down x = Some t -> restores t e x) -> Forall2 (fun t x => asg t e (tn_zero c) = Some x) ts l.
Proof using.
  intros Hc Em H1. apply mapM_Some_1 in Em. induction Em as [|x t l ts Hx _ IH]; constructor.
  - by destruct (H1 x t ltac:(by left) Hx c Hc).
  - apply IH. intros y u Hy. apply H1. by right.
Qed.

Lemma slice_restores n nd c ts l raw (down : gval -> option tree) : p !! n = Some nd -> tn_kind nd = typedSlice -> p !! tn_elem nd = Some c ->
  mapM down l = Some ts -> (forall x t, In x l -> down x = Some t -> restores t (tn_elem nd) x) -> restores (TArr raw ts) n (VSlice (Some (l, []))).
Proof using Hw.
  intros Hn Hk Hc Em Hdown. assert (Hnp : tn_kind nd <> typedPointer) by congruence. apply (restores_base _ n _ nd Hn Hnp); [done|].
  rewrite (assign_base_eq flags p _ n _ (base_elem n nd Hn Hnp)). unfold assign_base. rewrite Hn. cbn [mbind option_bind]. rewrite Hk.
  destruct (Hw n nd Hn) as [Hz _ _]. unfold zero_form in Hz. rewrite Hk in Hz. rewrite Hz. cbn [assign_slice mbind option_bind]. unfold assign_slice. cbn [mbind option_bind].
  rewrite Hc. cbn [mbind option_bind]. rewrite (seq_restores _ _ ts l) by (try constructor; by eapply elements_restore). cbn [mbind option_bind].
  destruct l as [|x l]; [done|]. by rewrite drop_nil.
Qed.

Lemma array_restores n nd c ts l raw (down : gval -> option tree) : p !! n = Some nd -> tn_kind nd = typedArray -> p !! tn_elem nd = Some c -> length l = tn_length nd ->
  mapM down l = Some ts -> (forall x t, In x l -> down x = Some t -> restores t (tn_elem nd) x) -> restores (TArr raw ts) n (VArray l).
Proof using Hw.
  intros Hn Hk Hc Hlen Em Hdown. assert (Hnp : tn_kind nd <> typedPointer) by congruence. apply (restores_base _ n _ nd Hn Hnp); [done|].
  rewrite (assign_base_eq flags p _ n _ (base_elem n nd Hn Hnp)). unfold assign_base. rewrite Hn. cbn [mbind option_bind]. rewrite Hk.
  destruct (Hw n nd Hn) as [Hz _ _]. unfold zero_form in Hz. rewrite Hk in Hz. destruct Hz as (c' & Hc' & ->). rewrite Hc in Hc'. injection Hc' as <-.
  unfold assign_array. rewrite Hc. cbn [mbind option_bind]. pose proof (elements_restore _ _ _ _ _ Hc Em Hdown) as Hl.
  rewrite take_ge by (rewrite length_map, (Forall2_length _ _ _ Hl); lia).
  rewrite (seq_restores _ _ ts l _ Hl) by (by apply Forall_replicate). cbn [mbind option_bind].
  rewrite drop_ge by (rewrite length_replicate; lia). cbn. by rewrite app_nil_r.
Qed.

(** *** Maps *)

Lemma inserts_map (m : gmap map_key gval) l : l ≡ₚ map_to_list m -> foldl (fun m e => <[e.1 := e.2]> m) ∅ l = m.
Proof using.
  intros Hl. assert (E : foldl (fun m e => <[e.1 := e.2]> m) (∅ : gmap map_key gval) l = list_to_map (reverse l)).
  { clear. induction l as [|e l IH] using rev_ind; [done|]. rewrite foldl_snoc, reverse_snoc, IH. by destruct e. }
  rewrite E.
  rewrite <- (list_to_map_to_list m). apply list_to_map_proper; [|by rewrite reverse_Permutation].
  rewrite reverse_Permutation, Hl. apply NoDup_fst_map_to_list.
Qed.

Lemma entries_restore nd zero (down : gval -> option tree) l ms m : mapM (fun e => t ← down e.2; Some (name_of h e.1, t)) (map (entry_of nd) l) = Some ms ->
  (forall k x, In (k, x) l -> setMapKeyValue nd (sanitized (keyed nd k)) = inl k) ->
  (forall k x t, In (k, x) l -> down x = Some t -> asg t (tn_elem nd) zero = Some x) ->
  assign_entries nd zero (map (fun e => (e.1.2, asg e.2)) ms) m = Some (VMap (Some (foldl (fun m e => <[e.1 := e.2]> m) m l))).
Proof using.
  revert ms m. induction l as [|[k x] l IH]; intros ms m Em Hk Hd; [by injection Em as <-|]. cbn [map mapM] in Em. cbn [entry_of fst snd] in Em.
  destruct (down x) as [t|] eqn:Et; [|done]. cbn [mbind option_bind] in Em. destruct (mapM _ (map (entry_of nd) l)) as [ms'|] eqn:Em'; [|done]. injection Em as <-.
  cbn [map assign_entries name_of fst snd]. rewrite (Hd k x t ltac:(by left) Et). cbn [mbind option_bind]. rewrite (Hk k x) by (by left). cbn [foldl fst snd].
  apply (IH _ _ eq_refl); [intros k' y Hy; apply (Hk k' y); by right|intros k' y u Hy; apply (Hd k' y); by right].
Qed.

Lemma map_restores n nd c m entries ms raw (down : gval -> option tree) : p !! n = Some nd -> tn_kind nd = typedMap -> p !! tn_elem nd = Some c ->
  sorted_entries nd m = Some entries -> mapM (fun e => t ← down e.2; Some (name_of h e.1, t)) entries = Some ms ->
  (forall k x, m !! k = Some x -> key_type p nd k /\ match k with inl s => utf8_text s | inr _ => True end) ->
  (forall k x t, m !! k = Some x -> down x = Some t -> restores t (tn_elem nd) x) -> restores (TObj raw ms) n (VMap (Some m)).
Proof using Hw.
  intros Hn Hk Hc Es Em Hkeys Hdown. assert (Hnp : tn_kind nd <> typedPointer) by congruence. apply (restores_base _ n _ nd Hn Hnp); [done|].
  rewrite (assign_base_eq flags p _ n _ (base_elem n nd Hn Hnp)). unfold assign_base. rewrite Hn. cbn [mbind option_bind]. rewrite Hk.
  destruct (Hw n nd Hn) as [Hz Hbits _]. unfold zero_form in Hz. rewrite Hk in Hz. rewrite Hz. cbn [named names]. rewrite named_names, Hc. cbn [mbind option_bind].
  assert (Hkt : Forall (fun e => key_type p nd e.1) (map_to_list m)) by (apply Forall_forall; intros [k x] Hin%elem_of_map_to_list; by apply (Hkeys k x)).
  destruct (entries_ok p nd (Hbits Hk) (fun l => l) m (map_to_list m) ltac:(done) Hkt) as (es & _ & Es' & Hperm). rewrite Es in Es'. injection Es' as ->.
  destruct (Permutation_map_inv (entry_of nd) (l1 := merge_sort entry_le es) (map_to_list m)) as (l & El & Hl); [by rewrite merge_sort_Permutation|]. rewrite El in Em.
  assert (Hin : forall k x, In (k, x) l -> m !! k = Some x) by (intros k x Hx; apply elem_of_map_to_list; rewrite Hl; by apply list_elem_of_In).
  change (default ∅ None) with (∅ : gmap map_key gval). rewrite (entries_restore nd (tn_zero c) down l ms ∅ Em).
  - do 3 f_equal. by apply inserts_map.
  - intros k x Hx. destruct (Hkeys k x (Hin k x Hx)) as [Hkk Hu]. by apply (key_back p nd k (Hbits Hk) Hkk).
  - intros k x t Hx Ht. by destruct (Hdown k x t (Hin k x Hx) Ht c Hc).
Qed.

(** *** Pointers *)

Lemma pointer_restores n nd c x t : p !! n = Some nd -> tn_kind nd = typedPointer -> p !! tn_elem nd = Some c -> nil_value x = false ->
  restores t (tn_elem nd) x -> restores t n (VPointer (Some x)).
Proof using Hp Hw.
  intros Hn Hk Hc Hx Hr nd' Hn'. rewrite Hn in Hn'. injection Hn' as <-. destruct (Hr c Hc) as [_ Hd]. destruct (Hd Hx) as [Ht Hthrough].
  destruct (Hw n nd Hn) as [Hz _ _]. unfold zero_form in Hz. rewrite Hk in Hz. rewrite Hz.
  assert (Hpe : pointer_elem p n = Some (tn_elem nd)) by (unfold pointer_elem; rewrite Hn; by rewrite bool_decide_eq_true_2).
  assert (Hgo : forall fuel, chain_room n fuel -> through p fuel n (VPointer None) (asg t) = Some (VPointer (Some x))).
  { intros fuel Hf. unfold chain_room in Hf. rewrite Hpe in Hf. destruct fuel as [|fuel]; [lia|]. cbn [through]. rewrite Hpe, Hc. cbn [mbind option_bind default].
    change (default (tn_zero c) None) with (tn_zero c). rewrite Hthrough; [done|]. unfold chain_room. destruct (pointer_elem p (tn_elem nd)) as [e|] eqn:Ee; [|lia].
    pose proof (edge_rank p rank Hp n (tn_elem nd) e Hpe Ee). lia. }
  split; [|by split]. rewrite (assign_pointer_eq flags p t n _ _ Hpe Ht). apply Hgo. unfold chain_room. rewrite Hpe. pose proof (edge_lt p rank Hp _ _ Hpe). lia.
Qed.

(** ** The whole value *)

Lemma describe_restores fuel depth run n v t : desc fuel depth run n v = Some t -> has_type p n v -> canonical p ep n v -> restores t n v.
Proof using All.
  revert depth run n v t. induction fuel as [|fuel IH]; intros depth run n v t E Hv Hc; [done|]. cbn [describe] in E. unfold describe_body in E.
  assert (Hn : exists nd, p !! n = Some nd) by (inversion Hv; by eexists). destruct Hn as [nd Hn]. rewrite Hn in E. cbn [mbind option_bind] in E.
  assert (Hscalar : describe_scalar h nd v = Some t -> restores t n v) by (intros; by eapply scalar_restores).
  assert (Hnull : tn_kind nd <> typedPointer -> nil_value v = true -> assign flags p TNull n (tn_zero nd) = Some v -> t = TNull -> restores t n v).
  { intros Hnp Hnil Ha ->. apply (restores_base _ n _ nd Hn Hnp); [by rewrite Hnil|done]. }
  assert (Helem : tn_kind nd = typedSlice \/ tn_kind nd = typedArray \/ tn_kind nd = typedPointer \/ tn_kind nd = typedMap -> exists c, p !! tn_elem nd = Some c).
  { intros Hk. apply lookup_lt_is_Some_2. by apply (no_elem _ _ _ _ (Hp n nd Hn)). }
  destruct (tn_kind nd) eqn:Hk; try exact (Hscalar E).
  - destruct (depth <? DefaultMaxDepth); [|done]. destruct (struct_value p n nd v Hn Hk Hv) as (vs & -> & _). unfold describe_struct in E.
    destruct (program_of ep n) as [s|] eqn:Es; [|done]. cbn [mbind option_bind] in E. destruct (mapM _ (es_resolved s)) as [ms|] eqn:Em; [|done]. injection E as <-.
    eapply record_restores; [done..|exact Em|]. intros r x u _ Hx Hcx Hu. by eapply IH.
  - destruct v as [| | | | |[[l stale]|]| | |]; try exact (Hscalar E).
    + destruct (depth <? DefaultMaxDepth); [|done]. destruct (mapM _ l) as [ts|] eqn:Em; [|done]. injection E as <-.
      inversion Hc as [| | | | | | |? ? ? Hn' Hcl| | | | |]; subst. rewrite Hn in Hn'. injection Hn' as <-. destruct (Helem ltac:(by left)) as [c Hcn].
      eapply slice_restores; [done..|]. intros x u Hx%list_elem_of_In Hu. inversion Hv as [| | | | | | |? ? ? ? Hn' _ Hl _| | | | |]; simplify_eq.
      rewrite Forall_forall in Hl, Hcl. eapply IH; [exact Hu|by apply Hl|by apply Hcl].
    + injection E as <-. apply Hnull; [congruence|done| |done]. rewrite (assign_base_eq flags p _ n _ (base_elem n nd Hn ltac:(congruence))). unfold assign_base.
      rewrite Hn. cbn [mbind option_bind]. by rewrite Hk.
  - destruct v as [| | | | | |l| |]; try exact (Hscalar E). destruct (depth <? DefaultMaxDepth); [|done]. destruct (mapM _ l) as [ts|] eqn:Em; [|done]. injection E as <-.
    inversion Hc as [| | | | | | | |? ? ? Hn' Hcl| | | |]; subst. rewrite Hn in Hn'. injection Hn' as <-. destruct (Helem ltac:(by right; left)) as [c Hcn].
    inversion Hv as [| | | | | | | |? ? ? Hn' _ Hlen Hl| | | |]; simplify_eq.
    eapply array_restores; [done..|]. intros x u Hx%list_elem_of_In Hu. rewrite Forall_forall in Hl, Hcl. eapply IH; [exact Hu|by apply Hl|by apply Hcl].
  - destruct v as [| | | | | | |[x|]|]; try exact (Hscalar E).
    + destruct (run <? DefaultMaxDepth); [|done]. destruct (Helem ltac:(by right; right; left)) as [c Hcn]. inversion Hc; simplify_eq. inversion Hv; simplify_eq.
      eapply pointer_restores; [done..|]. by eapply IH.
    + injection E as <-. intros nd' Hn'. rewrite Hn in Hn'. injection Hn' as <-. split; [|done]. cbn [assign]. unfold assign_body, pointer_elem.
      rewrite Hn. by rewrite bool_decide_eq_true_2.
  - destruct v as [| | | | | | | |[m|]]; try exact (Hscalar E).
    + destruct (depth <? DefaultMaxDepth); [|done]. destruct (sorted_entries nd m) as [entries|] eqn:Es; [|done]. cbn [mbind option_bind] in E.
      destruct (mapM _ entries) as [ms|] eqn:Em; [|done]. injection E as <-. destruct (Helem ltac:(by right; right; right)) as [c Hcn].
      inversion Hv as [| | | | | | | | | | | |? ? ? Hn' _ Hm]; simplify_eq. inversion Hc as [| | | | | | | | | | | |? ? ? Hn' Hcm]; simplify_eq.
      eapply map_restores; [done..|exact Em| |].
      * intros k x Hx. split; [by apply (Hm k x)|by apply (Hcm k x)].
      * intros k x u Hx Hu. eapply IH; [exact Hu|by apply (Hm k x)|by apply (Hcm k x)].
    + injection E as <-. apply Hnull; [congruence|done| |done]. rewrite (assign_base_eq flags p _ n _ (base_elem n nd Hn ltac:(congruence))). unfold assign_base.
      rewrite Hn. cbn [mbind option_bind]. rewrite Hk. destruct (Hw n nd Hn) as [Hz _ _]. unfold zero_form in Hz. rewrite Hk in Hz. by rewrite Hz.
Qed.
End Back.

(** ** The sample goes both ways *)

Module Both.
#[local] Existing Instance ascii_folding.
Import EncodeSample.Shapes TypedRun.Sample.

Lemma ascii_text s : forallb (fun c => (0 <=? c) && (c <? 128)) s = true -> utf8_text s.
Proof. rewrite forallb_forall. intros H. apply ascii_utf8, List.Forall_forall. intros c Hc. specialize (H c Hc). lia. Qed.

Lemma names_text rs : forallb (fun r => forallb (fun c => (0 <=? c) && (c <? 128)) (er_name r)) rs = true -> Forall (fun r => utf8_text (er_name r)) rs.
Proof. rewrite forallb_forall. intros H. apply List.Forall_forall. intros r Hr. by apply ascii_text, H. Qed.

Lemma none_all {A} (hop : A -> option nat) l : forallb (fun x => bool_decide (hop x = None)) l = true -> Forall (fun x => hop x = None) l.
Proof. rewrite forallb_forall. intros H. apply List.Forall_forall. intros x Hx. specialize (H x Hx). by apply bool_decide_eq_true_1 in H. Qed.

Ltac record_zero :=
  eexists; split; [reflexivity|]; let f := fresh "f" in let Hf := fresh "Hf" in intros f Hf; vm_compute in Hf;
  repeat (destruct Hf as [<-|Hf]; [eexists; split; reflexivity|]); destruct Hf.
Ltac record_halves :=
  intros _; eexists; split_and!;
  [reflexivity|vm_compute; reflexivity|apply none_all; vm_compute; reflexivity|apply none_all; vm_compute; reflexivity
  |refine (bool_decide_eq_true_1 _ _); vm_compute; reflexivity|apply names_text; vm_compute; reflexivity].

Lemma shapes_two_way : two_way shapes programs.
Proof.
  intros n nd Hn. destruct n as [|[|[|[|[|[|[|[|[|n]]]]]]]]]; [injection Hn as <-..|done].
  all: split; cbn [tn_kind record_node node]; try done; try (by intros _ _; left).
  all: first [record_zero|record_halves].
Qed.

Lemma struct_canonical n nd s zs slots : shapes !! n = Some nd -> tn_kind nd = typedStruct -> program_of programs n = Some s -> tn_zero nd = VStruct zs ->
  Forall2 (fun r x => canonical shapes programs (er_node r) x /\ (omitted r x = true -> zs !! er_slot r = Some x)) (es_resolved s) slots ->
  map er_slot (es_resolved s) = seq 0 (length zs) -> canonical shapes programs n (VStruct slots).
Proof.
  intros Hn Hk Hs Hz Hf Hslots. pose proof (Forall2_length _ _ _ Hf) as Hl. assert (Hlen : length zs = length (es_resolved s)).
  { apply (f_equal length) in Hslots. by rewrite length_map, length_seq in Hslots. }
  eapply CN_struct; [done..| |].
  - intros r x Hr Hx. apply list_elem_of_In, list_elem_of_lookup in Hr as [i Hi]. assert (er_slot r = i) as Ei.
    { assert (Hi' : map er_slot (es_resolved s) !! i = Some (er_slot r)) by (by rewrite list_lookup_fmap, Hi). rewrite Hslots in Hi'.
      apply lookup_seq in Hi' as [? _]. lia. }
    rewrite Ei in *. destruct (Forall2_lookup_l _ _ _ _ _ Hf Hi) as (y & Hy & Hc). rewrite Hx in Hy. injection Hy as <-. by rewrite Ei in Hc.
  - intros i Hi. rewrite Hslots, in_seq in Hi. rewrite !lookup_ge_None_2 by lia. done.
Qed.

Lemma value_canonical : canonical shapes programs 0 value.
Proof.
  assert (Hpos : forall x y, canonical shapes programs 3 (VStruct [VInt x; VInt y])).
  { intros x y. eapply struct_canonical; [reflexivity|reflexivity|reflexivity|reflexivity| |reflexivity]. repeat constructor; done. }
  assert (Hpoint : forall name x y size, utf8_text (bs name) -> canonical shapes programs 2 (point name x y size)).
  { intros name x y size Hname. eapply struct_canonical; [reflexivity|reflexivity|reflexivity|reflexivity| |reflexivity].
    constructor; [split; [by eapply CN_string; [reflexivity|reflexivity|]|done]|]. constructor; [split; [apply Hpos|done]|].
    constructor; [split; [constructor|done]|constructor]. }
  assert (Htags : canonical shapes programs 6 (VMap (Some tags))).
  { eapply CN_map; [reflexivity|]. cbn [tn_elem node]. intros k x Hk. unfold tags in Hk. rewrite !lookup_insert_Some, lookup_empty in Hk.
    destruct Hk as [[<- <-]|[_ [[<- <-]|[_ [[<- <-]|[_ Hk]]]]]]; [..|done]; (split; [done|]).
    - eapply CN_slice; [reflexivity|]. constructor; [|constructor]. cbn [tn_elem node]. eapply CN_string; [reflexivity|reflexivity|apply ascii_text; reflexivity].
    - constructor.
    - eapply CN_slice; [reflexivity|constructor]. }
  assert (Hu : utf8_text (bs "p") /\ utf8_text (bs "q") /\ utf8_text (bs "r") /\ utf8_text (bs "")) by (split_and!; apply ascii_text; reflexivity).
  destruct Hu as (Hup & Huq & Hur & Hu0).
  assert (Ht : forall nx pt tg pts, canonical shapes programs 1 nx -> canonical shapes programs 2 pt -> canonical shapes programs 6 tg -> canonical shapes programs 8 pts ->
    (is_empty nx = true -> nx = VPointer None) -> canonical shapes programs 0 (VStruct [nx; pt; tg; pts])).
  { intros nx pt tg pts H1 H2 H3 H4 He. eapply struct_canonical; [reflexivity|reflexivity|reflexivity|reflexivity| |reflexivity].
    constructor; [split; [done|intros Ho; rewrite He; [done|by apply orb_true_iff in Ho as [Ho|Ho]]]|]. do 3 (constructor; [by split|]). constructor. }
  apply Ht; [|by apply Hpoint|exact Htags| |done].
  - eapply CN_pointer; [reflexivity|reflexivity|]. cbn [tn_elem node]. apply Ht; [constructor|by apply Hpoint|constructor|constructor|done].
  - eapply CN_slice; [reflexivity|]. cbn [tn_elem node]. repeat constructor; by apply Hpoint.
Qed.
End Both.

(** ** Properties *)

(** C10: Marshalling and unmarshalling compose: when a canonical value of a type is encoded, decoding the output into a zero destination of the type gives the value back, whatever the options of the decoder that allow the encoder's depth. Through both compiled programs: spliced and packed fields one way, the member matcher, the pointer chains and the map keys the other. The type's fields are the same both ways, none behind an embedded pointer and their names valid UTF-8 ([two_way]), and its programs keep a field of every record that has members ([encoder_ok]). *)
Theorem marshal_unmarshal `{FoldingLaws} (spare : bytes -> bytes) (Quote : bytes -> string) (aliases : bytes -> bool) (escapeHTML : bool) (p : plan) (ep : programs)
  (iterate : gmap map_key gval -> list (map_key * gval)) (options : DecoderOptions) (root : nat) (nd : typedNode) (v : gval) (out : bytes) :
  (forall m, iterate m ≡ₚ map_to_list m) -> plan_ok p -> encoder_ok escapeHTML p ep -> two_way p ep ->
  p !! root = Some nd -> has_type p root v -> bytes_value v -> canonical p ep root v ->
  DefaultMaxDepth <= do_MaxDepth options -> do_Replace options = false ->
  Marshal spare Quote escapeHTML p ep iterate root v = Ok out ->
  decodeTypedDocument Quote aliases out options p root (tn_zero nd) = (v, Ok tt).
Proof.
  intros Hiter Hp He Hw Hn Hv Hb Hc Hmax Hmerge Hout.
  pose proof (append_spec spare Quote escapeHTML p ep iterate Hiter He [] root v Hv Hb) as Hs. unfold Marshal in Hout. rewrite Hout in Hs.
  destruct (describe escapeHTML p ep encode_fuel 0 0 root v) as [t|] eqn:Et; [|by destruct Hs as (e & ? & _)]. destruct Hs as [[= ->] Hj].
  pose proof (Hj _ Hmax) as Hjm. pose proof (proj1 jvalue_bytes_all _ _ _ Hjm) as Hbytes. destruct Hp as [rank Hp].
  pose proof (no_zero _ _ _ _ (Hp _ _ Hn)) as Hz.
  apply (decode_document Quote aliases _ options p root _ Hbytes (ex_intro _ rank Hp) Hz); [unfold DefaultMaxDepth in Hmax; lia|done|].
  exists t. split; [exists [], (raw_of t), []; rewrite app_nil_r; by repeat constructor|].
  by destruct (describe_restores (flags_of options) escapeHTML p ep rank Hp Hw _ _ _ _ _ _ Et Hv Hc nd Hn).
Qed.

Lemma marshal_unmarshal_witness :
  let options := mkDecoderOptions 10000 false false false false false false in
  exists root, Shapes.shapes !! 0%nat = Some root /\
  Marshal (fun _ => []) (fun _ => EmptyString) true Shapes.shapes Shapes.programs map_to_list 0 Shapes.value = Ok Shapes.json /\
  @decodeTypedDocument ascii_folding (fun _ => EmptyString) (fun _ => false) Shapes.json options Shapes.shapes 0 (tn_zero root) = (Shapes.value, Ok tt).
Proof.
  intros options. destruct (Shapes.shapes !! 0%nat) as [root|] eqn:Hroot; [|discriminate Hroot]. exists root.
  assert (E : Marshal (fun _ => []) (fun _ => EmptyString) true Shapes.shapes Shapes.programs map_to_list 0 Shapes.value = Ok Shapes.json) by (vm_compute; reflexivity).
  assert (Hmax : DefaultMaxDepth <= do_MaxDepth options) by (vm_compute; congruence).
  exact (conj eq_refl (conj E (@marshal_unmarshal ascii_folding ascii_folding_laws (fun _ => []) (fun _ => EmptyString) (fun _ => false) true Shapes.shapes
    Shapes.programs map_to_list options 0 root Shapes.value Shapes.json (fun m => reflexivity _) Shapes.shapes_ok Shapes.programs_ok Both.shapes_two_way
    Hroot Shapes.value_type Shapes.value_bytes Both.value_canonical Hmax eq_refl E))).
Defined.
