(* ===== verification/TimeFormat.v ===== *)
(** [simd/time.go] and [simd/time_date.go]: RFC 3339 times as JSON strings, with
    the memo of the last date and clock, and the civil date of an absolute day.

    A [time.Time] is what the code asks of it: its Unix second, the offset of its
    zone and its nanosecond.  A call returns the bytes it appends and the memo. *)

From S2P Require Import Prelude Words Utf8 Scanner Lex Grammar StringRef Errors Numbers Reader Validator FastValid Layout Decode NumberEqual Digits EncodeString EncodeInt.

Record Time : Type := mkTime { t_Unix : Z; t_Offset : Z; t_Nanosecond : Z }.

(** ** Civil dates (time_date.go) *)

Definition secondsPerDay : Z := 86400.
Definition absoluteYears : Z := 292277022400.
Definition marchThruDecember : Z := 306.
(** 365.2425 is 146097 days in 400 years. *)
Definition absoluteToInternal : Z := Eval vm_compute in - (absoluteYears / 400 * 146097 + marchThruDecember) * secondsPerDay.
Definition unixToInternal : Z := Eval vm_compute in (1969 * 365 + 1969 / 4 - 1969 / 100 + 1969 / 400) * secondsPerDay.
Definition unixToAbsolute : Z := Eval vm_compute in unixToInternal - absoluteToInternal.

(** Year, month and day. *)
Definition absDaysToDate (days : Z) : Z * Z * Z :=
  let d := w64 (4 * days + 3) in
  let century := d / 146097 in
  let cd := Z.lor (w32 (d mod 146097)) 3 in
  let product := 2939745 * cd in
  let cyear := product / 2 ^ 32 in
  let lo := product mod 2 ^ 32 in
  let ayday := lo / 2939745 / 4 in
  let md := w32 (2141 * ayday + 197913) in
  let day := Z.land md 0xFFFF / 2141 + 1 in
  let janFeb := if marchThruDecember <=? ayday then 1 else 0 in
  let year := int64 (w64 (w64 (century * 100) - absoluteYears)) + cyear + janFeb in
  let month := w32 (Z.shiftr md 16 - janFeb * 12) in
  (year, month, day).

(** ** The fixed-width prefix (digits.go) *)

Definition timePrefixBytes : nat := 20.
Definition maxTimeBytes : nat := 37.

(** A copy over the front of a buffer, and a byte at an index of it. *)
Definition copy_front (src dst : bytes) : bytes := take (length dst) src ++ drop (length src) dst.
Definition put (buf : bytes) (i : nat) (b : Z) : res unit bytes :=
  if (i <? length buf)%nat then Ok (<[i := b]> buf) else Panic.
Fixpoint put_all (buf : bytes) (l : list (nat * Z)) : res unit bytes :=
  match l with [] => Ok buf | (i, b) :: l => let* buf := put buf i b in put_all buf l end.

(** [byte(x) + '0'] *)
Definition ascii_digit (x : Z) : Z := (x + "0"%ch) mod 256.

Definition dateTimeTemplate : bytes := Eval cbv in js "'0000-00-00T00:00:00".

Definition storeDateTimeParts (dst : bytes) (year month day hour minute second : Z) : res unit bytes :=
  let* digits := Store8Digits (replicate 16 0) 0 (year * 10000 + month * 100 + day) in
  let* digits := Store8Digits digits 8 (hour * 1000000 + minute * 10000 + second * 100) in
  let dst := copy_front dateTimeTemplate dst in
  let digit k := nth k digits 0 in
  put_all dst (zip [1; 2; 3; 4; 6; 7; 9; 10; 12; 13; 15; 16; 18; 19]%nat (map digit (seq 0 14))).

(** ** The tail (time.go) *)

(** [for nanosecond%10 == 0 { nanosecond /= 10; fractionDigits-- }] *)
Fixpoint strip_nanos (fuel : nat) (nanosecond : Z) (fractionDigits : nat) : res unit (Z * nat) :=
  match fuel with
  | O => NoFuel
  | S fuel =>
      if nanosecond mod 10 =? 0 then strip_nanos fuel (nanosecond / 10) (fractionDigits - 1)
      else Ok (nanosecond, fractionDigits)
  end.

(** [copy(out[i:], bytes)]: what fits. *)
Definition copy_at (out : bytes) (i : nat) (src : bytes) : res unit bytes :=
  if (i <=? length out)%nat then Ok (take i out ++ copy_front (take (length out - i) src) (drop i out)) else Panic.

Definition write_fraction (out : bytes) (i : nat) (nanosecond : Z) : res unit (bytes * nat) :=
  if nanosecond =? 0 then Ok (out, i)
  else
    let* (nanosecond, fractionDigits) := strip_nanos 10 nanosecond 9 in
    let* out := put out i "."%ch in
    let i := S i in
    let* out :=
      if (fractionDigits =? 9)%nat then
        let* out := put out i (ascii_digit (nanosecond / 100000000)) in
        let* fraction := Store8Digits (replicate 8 0) 0 (nanosecond mod 100000000) in
        copy_at out (S i) fraction
      else
        let* fraction := Store8Digits (replicate 8 0) 0 nanosecond in
        copy_at out i (drop (8 - fractionDigits) fraction) in
    Ok (out, (i + fractionDigits)%nat).

Definition write_zone (out : bytes) (i : nat) (offset zoneMinutes : Z) : res unit (bytes * nat) :=
  if offset =? 0 then let* out := put out i "Z"%ch in Ok (out, S i)
  else
    let* out := put out i (if zoneMinutes <? 0 then "-"%ch else "+"%ch) in
    let zoneMinutes := if zoneMinutes <? 0 then - zoneMinutes else zoneMinutes in
    let* out := put_all out [((i + 1)%nat, ascii_digit (zoneMinutes / 600)); ((i + 2)%nat, ascii_digit (zoneMinutes / 60 mod 10));
      ((i + 3)%nat, ":"%ch); ((i + 4)%nat, ascii_digit (zoneMinutes / 10 mod 6)); ((i + 5)%nat, ascii_digit (zoneMinutes mod 10))] in
    Ok (out, (i + 6)%nat).

Definition appendTimeTail (out : bytes) (nanosecond offset zoneMinutes : Z) : res unit (bytes * nat) :=
  let* (out, i) := write_fraction out timePrefixBytes nanosecond in
  let* (out, i) := write_zone out i offset zoneMinutes in
  let* out := put out i DQUOTE in
  Ok (out, S i).

(** ** The memo *)

(** [state] is a bit for the prefix and a bit for the date. *)
Record TimeCache : Type := mkTimeCache { tc_absSec : Z; tc_days : Z; tc_state : Z; tc_prefix : bytes }.
Definition timeCachePrefix : Z := 1.
Definition timeCacheDate : Z := 2.
Definition noTimeCache : TimeCache := mkTimeCache 0 0 0 (replicate timePrefixBytes 0).

Definition errTimeYear : string := "Time.AppendText: year outside of range [0,9999]".
Definition errTimeZone : string := "Time.AppendText: timezone hour outside of range [0,23]".


(** A kernel that panics. *)
Definition lift {A} (r : res unit A) : res string A :=
  match r with Ok a => Ok a | Err _ => Panic | Panic => Panic | NoFuel => NoFuel end.

Definition zone_checked {A} (offset : Z) (k : Z -> res string A) : res string A :=
  let zoneMinutes := Z.quot offset 60 in
  if (zoneMinutes <=? -24 * 60) || (24 * 60 <=? zoneMinutes) then Err errTimeZone else k zoneMinutes.

(** The spare capacity the output is written in, and what is kept of it. *)
Definition time_out (spare : bytes) : bytes := take maxTimeBytes (grow spare maxTimeBytes).

Definition finish_time (out : bytes) (value : Time) (zoneMinutes : Z) (cache : option TimeCache) : res string (bytes * option TimeCache) :=
  let* (out, n) := lift (appendTimeTail out (t_Nanosecond value) (t_Offset value) zoneMinutes) in
  if (length out <? n)%nat then Panic else Ok (take n out, cache).

(** The arms of [AppendTimeCached]: the same second, the same day, another day. *)
Definition same_second (spare : bytes) (value : Time) (c : TimeCache) : res string (bytes * option TimeCache) :=
  zone_checked (t_Offset value) (fun zoneMinutes =>
    finish_time (copy_front (tc_prefix c) (time_out spare)) value zoneMinutes (Some c)).

Definition clock_of (abs : Z) : Z * Z * Z :=
  let clock := w32 (abs mod secondsPerDay) in (clock / 3600, clock / 60 mod 60, clock mod 60).

Definition same_day (spare : bytes) (value : Time) (abs : Z) (c : TimeCache) : res string (bytes * option TimeCache) :=
  let '(hour, minute, second) := clock_of abs in
  zone_checked (t_Offset value) (fun zoneMinutes =>
    let* out := lift (put_all (copy_front (tc_prefix c) (time_out spare))
      [(12%nat, ascii_digit (hour / 10)); (13%nat, ascii_digit (hour mod 10)); (15%nat, ascii_digit (minute / 10));
       (16%nat, ascii_digit (minute mod 10)); (18%nat, ascii_digit (second / 10)); (19%nat, ascii_digit (second mod 10))]) in
    finish_time out value zoneMinutes
      (Some (mkTimeCache abs (tc_days c) (Z.lor timeCachePrefix timeCacheDate) (take timePrefixBytes out)))).

Definition another_day (spare : bytes) (value : Time) (abs : Z) (cache : option TimeCache) : res string (bytes * option TimeCache) :=
  let '(hour, minute, second) := clock_of abs in
  let days := abs / secondsPerDay in
  let '(year, month, day) := absDaysToDate days in
  if 10000 <=? w64 year then Err errTimeYear
  else
    zone_checked (t_Offset value) (fun zoneMinutes =>
      let* out := lift (storeDateTimeParts (time_out spare) (w32 year) month day hour minute second) in
      finish_time out value zoneMinutes
        (option_map (fun _ => mkTimeCache abs days (Z.lor timeCachePrefix timeCacheDate) (take timePrefixBytes out)) cache)).

Definition abs_seconds (value : Time) : Z := w64 (int64 (int64 (t_Unix value + t_Offset value) + unixToAbsolute)).

Definition AppendTimeCached (spare : bytes) (value : Time) (cache : option TimeCache) : res string (bytes * option TimeCache) :=
  let abs := abs_seconds value in
  match cache with
  | Some c =>
      if negb (Z.land (tc_state c) timeCachePrefix =? 0) && (tc_absSec c =? abs) then same_second spare value c
      else if negb (Z.land (tc_state c) timeCacheDate =? 0) && (tc_days c =? abs / secondsPerDay) then same_day spare value abs c
      else another_day spare value abs cache
  | None => another_day spare value abs None
  end.

Definition AppendTime (spare : bytes) (value : Time) : res string bytes :=
  let* (out, _) := AppendTimeCached spare value None in Ok out.

(** ** The civil calendar *)

Definition leap (y : Z) : bool := (y mod 4 =? 0) && (negb (y mod 100 =? 0) || (y mod 400 =? 0)).

Definition days_in_month (y m : Z) : Z :=
  if m =? 2 then if leap y then 29 else 28
  else if (m =? 4) || (m =? 6) || (m =? 9) || (m =? 11) then 30 else 31.

Definition valid_date (y m d : Z) : Prop := 1 <= m <= 12 /\ 1 <= d <= days_in_month y m.

(** Days from 1 January of the year 1 to 1 January of a year, and to the first of
    a month within a year. *)
Definition year_start (y : Z) : Z := 365 * (y - 1) + (y - 1) / 4 - (y - 1) / 100 + (y - 1) / 400.
Definition common_month_start (m : Z) : Z := nth (Z.to_nat (m - 1)) [0; 31; 59; 90; 120; 151; 181; 212; 243; 273; 304; 334] 0.
Definition month_start (y m : Z) : Z := common_month_start m + if leap y && (2 <? m) then 1 else 0.

Definition civil_days (y m d : Z) : Z := year_start y + month_start y m + (d - 1).

(** The counts follow the months and the years. *)
Lemma month_start_next y m : 1 <= m < 12 -> month_start y (m + 1) = month_start y m + days_in_month y m.
Proof.
  intros H. unfold month_start, days_in_month, common_month_start.
  assert (Hm : In m [1; 2; 3; 4; 5; 6; 7; 8; 9; 10; 11]) by (simpl; lia).
  repeat (destruct Hm as [<-|Hm]; [by destruct (leap y)|]). done.
Qed.
Lemma leap_start y : year_start (y + 1) = year_start y + 365 + if leap y then 1 else 0.
Proof.
  unfold year_start, leap.
  destruct (Z.eqb_spec (y mod 4) 0), (Z.eqb_spec (y mod 100) 0), (Z.eqb_spec (y mod 400) 0); cbn [andb negb orb]; div_lia.
Qed.
Lemma year_start_next y : year_start (y + 1) = year_start y + month_start y 12 + days_in_month y 12.
Proof.
  rewrite leap_start. unfold month_start, days_in_month. change (common_month_start 12) with 334.
  change (2 <? 12) with true. rewrite andb_true_r. cbn [Z.eqb Pos.eqb orb]. lia.
Qed.

(** ** The date of an absolute day *)

(** The day of a March-based year, by one multiplication. *)
Lemma march_day ayday : 0 <= ayday <= 365 ->
  let md := w32 (2141 * ayday + 197913) in
  let d := Z.land md 0xFFFF / 2141 + 1 in
  let jf := if marchThruDecember <=? ayday then 1 else 0 in
  let m := w32 (Z.shiftr md 16 - jf * 12) in
  (1 <= m <= 12) /\ (1 <= d <= days_in_month 1 m \/ ayday = 365 /\ m = 2 /\ d = 29) /\
  (jf = if m <=? 2 then 1 else 0) /\ common_month_start m + (d - 1) = ayday + 59 - 365 * jf.
Proof.
  intros H.
  assert (Hall : forallb (fun a => let ayday := Z.of_nat a in
      let md := w32 (2141 * ayday + 197913) in
      let d := Z.land md 0xFFFF / 2141 + 1 in
      let jf := if marchThruDecember <=? ayday then 1 else 0 in
      let m := w32 (Z.shiftr md 16 - jf * 12) in
      (1 <=? m) && (m <=? 12) && ((1 <=? d) && (d <=? days_in_month 1 m) || (ayday =? 365) && (m =? 2) && (d =? 29)) &&
      (jf =? if m <=? 2 then 1 else 0) && (common_month_start m + (d - 1) =? ayday + 59 - 365 * jf)) (seq 0 366) = true)
    by (vm_compute; reflexivity).
  rewrite forallb_forall in Hall. specialize (Hall (Z.to_nat ayday) ltac:(apply in_seq; lia)). rewrite Z2Nat.id in Hall by lia.
  cbv zeta in *. rewrite !andb_true_iff, orb_true_iff, !andb_true_iff in Hall. lia.
Qed.

(** The year of the century and the day of the year, by one multiplication. *)
Lemma century_split cd : 0 <= cd < 146100 ->
  2939745 * cd / 2 ^ 32 = cd / 1461 /\ 2939745 * cd mod 2 ^ 32 / 2939745 / 4 = cd mod 1461 / 4.
Proof.
  intros H. pose proof (Z.div_mod cd 1461 ltac:(lia)) as E. pose proof (Z.mod_pos_bound cd 1461 ltac:(lia)) as Hs.
  assert (Hq : 0 <= cd / 1461 <= 99) by div_lia. set (q := cd / 1461) in *. set (s := cd mod 1461) in *. clearbody q s.
  assert (Hp : 2939745 * cd = q * 2 ^ 32 + (149 * q + 2939745 * s)) by lia.
  assert (Hd : 2939745 * cd / 2 ^ 32 = q) by (rewrite Hp, Z.div_add_l, Z.div_small by lia; lia).
  assert (Hm : 2939745 * cd mod 2 ^ 32 = 149 * q + 2939745 * s) by (rewrite Hp, Z.add_comm, Z_mod_plus_full; apply Z.mod_small; lia).
  rewrite Hd, Hm. split; [done|]. replace (149 * q + 2939745 * s) with (s * 2939745 + 149 * q) by lia.
  rewrite Z.div_add_l, (Z.div_small (149 * q)) by lia. f_equal. lia.
Qed.

Lemma lor_three r : 0 <= r -> Z.lor r 3 = r / 4 * 4 + 3.
Proof.
  intros H. rewrite (Z.div_mod r 4) at 1 by lia. change 3 with (Z.ones 2) at 1. rewrite (Z.mul_comm 4).
  change 4 with (2 ^ 2) at 2. rewrite <- (lor_shiftl_add (r / 4) 2 (r mod 4)) by (try lia; apply Z.mod_pos_bound; lia).
  rewrite <- Z.lor_assoc. replace (Z.lor (r mod 4) (Z.ones 2)) with 3.
  - by rewrite lor_shiftl_add by lia.
  - pose proof (Z.mod_pos_bound r 4 ltac:(lia)). assert (Hr : r mod 4 = 0 \/ r mod 4 = 1 \/ r mod 4 = 2 \/ r mod 4 = 3) by lia.
    destruct Hr as [->|[->|[->| ->]]]; done.
Qed.

(** 1 March of the year before 400 * 730692556 years. *)
Definition absolute_epoch : Z := Eval vm_compute in civil_days (- absoluteYears) 3 1.

Lemma absDaysToDate_ok days : 0 <= days < 2 ^ 48 ->
  let '(y, m, d) := absDaysToDate days in valid_date y m d /\ civil_days y m d = days + absolute_epoch.
Proof.
  intros H. unfold absDaysToDate. cbv zeta.
  replace (w64 (4 * days + 3)) with (4 * days + 3) by (unfold w64; rewrite Z.mod_small; lia).
  pose proof (Z.div_mod (4 * days + 3) 146097 ltac:(lia)) as Ec. pose proof (Z.mod_pos_bound (4 * days + 3) 146097 ltac:(lia)) as Br.
  assert (Bc : 0 <= (4 * days + 3) / 146097 < 2 ^ 36) by div_lia.
  set (c := (4 * days + 3) / 146097) in *. set (r := (4 * days + 3) mod 146097) in *. clearbody c r.
  replace (w32 r) with r by (unfold w32; rewrite Z.mod_small; lia). rewrite lor_three by lia.
  assert (Bcd : 0 <= r / 4 * 4 + 3 < 146100) by div_lia. destruct (century_split _ Bcd) as [-> ->].
  assert (Hy : int64 (w64 (w64 (c * 100) - absoluteYears)) = c * 100 - absoluteYears).
  { unfold w64, int64. rewrite (Z.mod_small (c * 100)) by lia. change absoluteYears with 292277022400.
    rewrite Zplus_mod_idemp_l. rewrite Z.mod_small by lia. lia. }
  rewrite Hy. set (q := (r / 4 * 4 + 3) / 1461). set (ayday := (r / 4 * 4 + 3) mod 1461 / 4).
  assert (Bq : 0 <= q <= 99) by (unfold q; div_lia). assert (Ba : 0 <= ayday <= 365) by (unfold ayday; div_lia).
  assert (Hleap : ayday = 365 -> q mod 4 = 3 /\ (q = 99 -> c mod 4 = 3)) by (unfold ayday, q; div_lia).
  assert (Hdays : days = 36524 * c + c / 4 + 365 * q + q / 4 + ayday) by (unfold ayday, q; div_lia).
  clearbody q ayday. pose proof (march_day ayday Ba) as Hm. cbv zeta in Hm.
  set (m := w32 _) in *. set (d := Z.land _ _ / 2141 + 1) in *. set (jf := if _ : bool then 1 else 0) in *. clearbody m d jf.
  destruct Hm as (Bm & Hd & Ejf & Hstart). set (Y := c * 100 - absoluteYears + q).
  assert (HY : year_start (Y + 1) = days - ayday + 306 + absolute_epoch).
  { unfold year_start, Y. change absoluteYears with 292277022400. change absolute_epoch with (-106751990354238). div_lia. }
  assert (Hst : month_start (Y + jf) m + year_start (Y + jf) = common_month_start m + year_start (Y + 1) - 365 * (1 - jf)).
  { unfold month_start. destruct (Z.leb_spec m 2); subst jf.
    - rewrite (proj2 (Z.ltb_ge 2 m)), andb_false_r by lia. lia.
    - rewrite (proj2 (Z.ltb_lt 2 m)), andb_true_r, Z.add_0_r by lia. rewrite leap_start. lia. }
  split; [split; [done|]|unfold civil_days; lia].
  destruct Hd as [Hd|(Ha & -> & ->)].
  - assert (days_in_month 1 m <= days_in_month (Y + jf) m); [|lia]. unfold days_in_month. change (leap 1) with false.
    repeat case_step; lia.
  - unfold days_in_month. cbn [Z.eqb Pos.eqb]. replace (leap (Y + jf)) with true; [lia|]. symmetry. subst jf. cbn.
    destruct (Hleap Ha) as [Hq Hc]. unfold leap, Y. change absoluteYears with 292277022400.
    rewrite andb_true_iff, orb_true_iff, negb_true_iff, !Z.eqb_eq, Z.eqb_neq. destruct (decide (q = 99)) as [->|Hq99].
    + specialize (Hc eq_refl). split; [|right]; div_lia.
    + split; [|left]; div_lia.
Qed.

(** ** The text of a time *)

(** The quote, the date and the clock: twenty bytes. *)
Definition date_time (y m d h mi s : Z) : bytes :=
  DQUOTE :: dec_pad 4 y ++ ["-"%ch] ++ dec_pad 2 m ++ ["-"%ch] ++ dec_pad 2 d ++ ["T"%ch] ++
  dec_pad 2 h ++ [":"%ch] ++ dec_pad 2 mi ++ [":"%ch] ++ dec_pad 2 s.

Fixpoint trim_zeros (l : bytes) : bytes :=
  match l with
  | [] => []
  | c :: l => match trim_zeros l with [] => if c =? "0"%ch then [] else [c] | t => c :: t end
  end.

(** Nine digits of nanoseconds without the trailing zeros. *)
Definition fraction_text (nanosecond : Z) : bytes :=
  if nanosecond =? 0 then [] else "."%ch :: trim_zeros (dec_pad 9 nanosecond).

Definition zone_text (offset : Z) : bytes :=
  if offset =? 0 then ["Z"%ch]
  else
    let zone := Z.quot offset 60 in
    (if zone <? 0 then "-"%ch else "+"%ch) :: dec_pad 2 (Z.abs zone / 60) ++ [":"%ch] ++ dec_pad 2 (Z.abs zone mod 60).

Definition absolute_text (abs : Z) : bytes :=
  let '(y, m, d) := absDaysToDate (abs / secondsPerDay) in
  let '(h, mi, s) := clock_of abs in
  date_time (w32 y) m d h mi s.

Definition tail_text (value : Time) : bytes := fraction_text (t_Nanosecond value) ++ zone_text (t_Offset value) ++ [DQUOTE].

(** ** Writing in sequence *)

(** The first [length s] bytes of the output are [s]. *)
Definition written (out s : bytes) : Prop := length out = maxTimeBytes /\ take (length s) out = s.

Lemma put_next out s b : written out s -> (length s < maxTimeBytes)%nat ->
  exists out', put out (length s) b = Ok out' /\ written out' (s ++ [b]).
Proof.
  intros [Hl Ht] Hs. exists (<[length s := b]> out). unfold put. rewrite (proj2 (Nat.ltb_lt _ _)) by lia. split; [done|].
  split; [by rewrite length_insert|]. rewrite length_app, Nat.add_1_r. rewrite (take_S_r _ _ b) by (apply list_lookup_insert_eq; lia).
  by rewrite take_insert_ge, Ht by lia.
Qed.

Lemma put_at out s i b : written out s -> i = length s -> (i < maxTimeBytes)%nat ->
  exists out', put out i b = Ok out' /\ written out' (s ++ [b]).
Proof. intros H -> Hi. by apply put_next. Qed.

Lemma copy_next out s i src : written out s -> i = length s -> (i + length src <= maxTimeBytes)%nat ->
  exists out', copy_at out i src = Ok out' /\ written out' (s ++ src).
Proof.
  intros [Hl Ht] -> Hs. unfold copy_at. rewrite (proj2 (Nat.leb_le _ _)) by lia. eexists. split; [done|].
  rewrite (take_ge src) by lia. unfold copy_front. rewrite (take_ge src) by (rewrite length_drop; lia). rewrite Ht. split.
  - rewrite !length_app, !length_drop. lia.
  - rewrite length_app, app_assoc. apply take_app_length'. by rewrite length_app.
Qed.

Lemma written_nth out s t : written out s -> s = t -> written out t.
Proof. by intros H <-. Qed.

Lemma trim_zeros_snoc l c : trim_zeros (l ++ [c]) = if c =? "0"%ch then trim_zeros l else l ++ [c].
Proof.
  induction l as [|a l IH]; cbn [app trim_zeros].
  - by destruct (c =? "0"%ch).
  - rewrite IH. destruct (c =? "0"%ch); [done|]. by destruct l.
Qed.

Lemma trim_zeros_length l : (length (trim_zeros l) <= length l)%nat.
Proof.
  induction l as [|a l IH]; [done|]. cbn [trim_zeros]. destruct (trim_zeros l); [case_step; simpl; lia|simpl in *; lia].
Qed.

Lemma strip_nanos_ok fuel n f : 0 < n < 10 ^ Z.of_nat f -> (f < fuel)%nat ->
  exists n' f', strip_nanos fuel n f = Ok (n', f') /\ (1 <= f' <= f)%nat /\ 0 < n' < 10 ^ Z.of_nat f' /\ trim_zeros (dec_pad f n) = dec_pad f' n'.
Proof.
  revert n f. induction fuel as [|fuel IH]; intros n f Hn Hf; [lia|]. cbn [strip_nanos].
  destruct f as [|f]; [change (10 ^ Z.of_nat 0) with 1 in Hn; lia|]. cbn [dec_pad]. rewrite trim_zeros_snoc.
  destruct (Z.eqb_spec (n mod 10) 0) as [E|E].
  - rewrite E. change ("0"%ch + 0 =? "0"%ch) with true. rewrite Nat2Z.inj_succ, Z.pow_succ_r in Hn by lia.
    destruct (IH (n / 10) f) as (n' & f' & H1 & H2 & H3 & H4); [div_lia|lia|]. cbn [Nat.sub]. rewrite Nat.sub_0_r.
    exists n', f'. split_and!; (done || lia).
  - rewrite (proj2 (Z.eqb_neq _ _)) by lia. exists n, (S f). split_and!; (done || lia).
Qed.

Lemma write_fraction_ok out s n : written out s -> length s = timePrefixBytes -> 0 <= n < 10 ^ 9 ->
  exists out', write_fraction out timePrefixBytes n = Ok (out', (timePrefixBytes + length (fraction_text n))%nat) /\
    written out' (s ++ fraction_text n) /\ (length (fraction_text n) <= 10)%nat.
Proof.
  intros Hw Hs Hn. unfold write_fraction, fraction_text. destruct (Z.eqb_spec n 0) as [->|Hn0].
  { exists out. rewrite app_nil_r. split_and!; [done|done|simpl; lia]. }
  destruct (strip_nanos_ok 10 n 9) as (n' & f & -> & Hf & Hn' & ->); [change (10 ^ Z.of_nat 9) with (10 ^ 9); lia|lia|]. cbn [res_bind].
  destruct (put_at out s timePrefixBytes "."%ch Hw) as (out1 & -> & Hw1); [by rewrite Hs|cbv; lia|]. cbn [res_bind length].
  rewrite dec_pad_length. change timePrefixBytes with 20%nat in *. change maxTimeBytes with 37%nat in *.
  destruct (Nat.eqb_spec f 9) as [->|Hf9].
  - change (10 ^ Z.of_nat 9) with 1000000000 in Hn'. unfold ascii_digit.
    destruct (put_at out1 _ 21%nat ((n' / 100000000 + "0"%ch) mod 256) Hw1) as (out2 & -> & Hw2); [rewrite length_app, Hs; done|cbv; lia|]. cbn [res_bind].
    rewrite Store8Digits_ok by (rewrite ?length_replicate; first [lia|div_lia]). cbn [res_bind take app Nat.add drop replicate]. rewrite app_nil_r.
    destruct (copy_next out2 _ 22%nat (dec_pad 8 (n' mod 100000000)) Hw2) as (out3 & -> & Hw3);
      [rewrite !length_app, Hs; done|rewrite dec_pad_length; cbv; lia|]. cbn [res_bind].
    exists out3. split_and!; [done| |lia]. eapply written_nth; [exact Hw3|]. rewrite <- !app_assoc. do 2 f_equal.
    change (dec_pad 9 n') with (dec_pad (1 + 8) n'). rewrite dec_pad_split. change (10 ^ Z.of_nat 8) with 100000000.
    rewrite dec_pad_one by div_lia. cbn [app]. f_equal; [rewrite Z.mod_small by div_lia; lia|].
    apply dec_pad_mod. change (10 ^ Z.of_nat 8) with 100000000. by rewrite Z.mod_mod by lia.
  - assert (Hp : 10 ^ Z.of_nat f <= 10 ^ 8) by (apply Z.pow_le_mono_r; lia).
    rewrite Store8Digits_ok by (rewrite ?length_replicate; lia). cbn [res_bind take app Nat.add drop replicate]. rewrite app_nil_r.
    replace (dec_pad 8 n') with (dec_pad (8 - f + f) n') by (f_equal; lia). rewrite dec_pad_split, drop_app_length' by (by rewrite dec_pad_length).
    destruct (copy_next out1 _ 21%nat (dec_pad f n') Hw1) as (out3 & -> & Hw3);
      [rewrite !length_app, Hs; done|rewrite dec_pad_length; change maxTimeBytes with 37%nat; lia|]. cbn [res_bind].
    exists out3. split_and!; [do 2 f_equal; lia| |lia]. eapply written_nth; [exact Hw3|]. by rewrite <- !app_assoc.
Qed.

Lemma ascii_pair z k : 0 <= z < 100 -> k = z / 10 -> [ascii_digit k; ascii_digit (z mod 10)] = dec_pad 2 z.
Proof.
  intros Hz ->. cbn [dec_pad app]. unfold ascii_digit. rewrite (Z.mod_small (z / 10)) by div_lia.
  rewrite (Z.mod_small (z / 10 + _)), (Z.mod_small (z mod 10 + _)) by div_lia. by rewrite !(Z.add_comm _ "0"%ch).
Qed.

Lemma minute_tens a : 0 <= a -> a / 10 mod 6 = a mod 60 / 10.
Proof.
  intros H. pose proof (Z.div_mod a 60 ltac:(lia)) as E. pose proof (Z.mod_pos_bound a 60 ltac:(lia)) as B.
  replace (a / 10) with (a mod 60 / 10 + a / 60 * 6) by (rewrite E at 3; replace (60 * (a / 60) + a mod 60) with (a / 60 * 6 * 10 + a mod 60) by lia;
    rewrite Z.div_add_l by lia; lia).
  rewrite Z_mod_plus_full. apply Z.mod_small. div_lia.
Qed.

Lemma put_all_cons out s i b l : written out s -> i = length s -> (i < maxTimeBytes)%nat ->
  exists out', put_all out ((i, b) :: l) = put_all out' l /\ written out' (s ++ [b]).
Proof. intros H -> Hi. destruct (put_next out s b H Hi) as (out' & E & Hw). exists out'. cbn [put_all]. by rewrite E. Qed.

Lemma write_zone_ok out s i offset : written out s -> i = length s -> (i <= 30)%nat ->
  -24 * 60 < Z.quot offset 60 < 24 * 60 ->
  exists out', write_zone out i offset (Z.quot offset 60) = Ok (out', (i + length (zone_text offset))%nat) /\ written out' (s ++ zone_text offset).
Proof.
  intros Hw Hi Hb Hz. unfold write_zone, zone_text. assert (HN : maxTimeBytes = 37%nat) by done. destruct (Z.eqb_spec offset 0) as [->|Ho].
  { destruct (put_at out s i "Z"%ch Hw Hi ltac:(lia)) as (out1 & -> & Hw1). cbn [res_bind length]. exists out1. split; [do 2 f_equal; lia|done]. }
  set (z := Z.quot offset 60) in *. cbv zeta. set (sign := if z <? 0 then "-"%ch else "+"%ch).
  replace (if z <? 0 then - z else z) with (Z.abs z) by (destruct (Z.ltb_spec z 0); lia). set (a := Z.abs z). assert (Ha : 0 <= a < 1440) by lia. clearbody a z.
  destruct (put_at out s i sign Hw Hi ltac:(lia)) as (out1 & -> & Hw1). cbn [res_bind].
  destruct (put_all_cons out1 _ (i + 1) (ascii_digit (a / 600)) [((i + 2)%nat, ascii_digit (a / 60 mod 10)); ((i + 3)%nat, ":"%ch);
    ((i + 4)%nat, ascii_digit (a / 10 mod 6)); ((i + 5)%nat, ascii_digit (a mod 10))] Hw1) as (out2 & -> & Hw2); [rewrite length_app, Hi; simpl; lia|lia|].
  destruct (put_all_cons out2 _ (i + 2) (ascii_digit (a / 60 mod 10)) [((i + 3)%nat, ":"%ch);
    ((i + 4)%nat, ascii_digit (a / 10 mod 6)); ((i + 5)%nat, ascii_digit (a mod 10))] Hw2) as (out3 & -> & Hw3); [rewrite !length_app, Hi; simpl; lia|lia|].
  destruct (put_all_cons out3 _ (i + 3) ":"%ch [((i + 4)%nat, ascii_digit (a / 10 mod 6)); ((i + 5)%nat, ascii_digit (a mod 10))] Hw3)
    as (out4 & -> & Hw4); [rewrite !length_app, Hi; simpl; lia|lia|].
  destruct (put_all_cons out4 _ (i + 4) (ascii_digit (a / 10 mod 6)) [((i + 5)%nat, ascii_digit (a mod 10))] Hw4) as (out5 & -> & Hw5);
    [rewrite !length_app, Hi; simpl; lia|lia|].
  destruct (put_all_cons out5 _ (i + 5) (ascii_digit (a mod 10)) [] Hw5) as (out6 & -> & Hw6); [rewrite !length_app, Hi; simpl; lia|lia|].
  cbn [put_all res_bind length]. exists out6. split; [do 2 f_equal; rewrite !length_app, !dec_pad_length; cbn [length]; lia|].
  eapply written_nth; [exact Hw6|]. rewrite <- !app_assoc. cbn [app]. do 2 f_equal.
  rewrite <- (ascii_pair (a / 60) (a / 600)) by div_lia. rewrite <- (ascii_pair (a mod 60) (a / 10 mod 6)) by (first [by apply minute_tens|div_lia]).
  replace (a mod 60 mod 10) with (a mod 10) by div_lia. done.
Qed.

Lemma tail_ok out s value : written out s -> length s = timePrefixBytes -> 0 <= t_Nanosecond value < 10 ^ 9 ->
  -24 * 60 < Z.quot (t_Offset value) 60 < 24 * 60 ->
  exists out', appendTimeTail out (t_Nanosecond value) (t_Offset value) (Z.quot (t_Offset value) 60)
    = Ok (out', length (s ++ tail_text value)) /\ written out' (s ++ tail_text value).
Proof.
  intros Hw Hs Hn Hz. unfold appendTimeTail, tail_text. destruct (write_fraction_ok out s _ Hw Hs Hn) as (out1 & -> & Hw1 & Hl1). cbn [res_bind].
  assert (H20 : timePrefixBytes = 20%nat) by done. assert (HN : maxTimeBytes = 37%nat) by done.
  destruct (write_zone_ok out1 _ (timePrefixBytes + length (fraction_text (t_Nanosecond value))) (t_Offset value) Hw1) as (out2 & -> & Hw2);
    [by rewrite length_app, Hs|lia|done|]. cbn [res_bind].
  assert (Hzl : (length (zone_text (t_Offset value)) <= 6)%nat).
  { unfold zone_text. case_step; [simpl; lia|]. cbn [length]. rewrite !length_app, !dec_pad_length. simpl. lia. }
  destruct (put_at out2 _ (timePrefixBytes + length (fraction_text (t_Nanosecond value)) + length (zone_text (t_Offset value))) DQUOTE Hw2)
    as (out3 & -> & Hw3); [rewrite !length_app, Hs; lia|lia|]. cbn [res_bind].
  rewrite <- !app_assoc in Hw3. exists out3. split; [|done]. do 2 f_equal. rewrite !length_app, Hs. cbn [length]. lia.
Qed.

(** ** The prefix *)

Lemma time_out_length spare : length (time_out spare) = maxTimeBytes.
Proof.
  unfold time_out, grow. rewrite length_take. destruct (Nat.leb_spec maxTimeBytes (length spare)); [lia|].
  rewrite length_app, length_replicate. lia.
Qed.

Lemma dec_pad_2 v : exists a b, dec_pad 2 v = [a; b].
Proof. by eexists _, _. Qed.
Lemma dec_pad_four v : exists a b c d, dec_pad 4 v = [a; b; c; d].
Proof. by eexists _, _, _, _. Qed.

Lemma packed_digits a b c n m v : 0 <= a -> 0 <= b < 10 ^ Z.of_nat n -> 0 <= c < 10 ^ Z.of_nat m ->
  v = (a * 10 ^ Z.of_nat n + b) * 10 ^ Z.of_nat m + c -> forall k, dec_pad (k + n + m) v = dec_pad k a ++ dec_pad n b ++ dec_pad m c.
Proof.
  intros Ha Hb Hc -> k. pose proof (pow10_pos n). pose proof (pow10_pos m). rewrite dec_pad_split, Z.div_add_l, (Z.div_small c), Z.add_0_r by lia.
  rewrite dec_pad_split, Z.div_add_l, (Z.div_small b), Z.add_0_r by lia. rewrite <- app_assoc. f_equal. f_equal.
  - apply dec_pad_mod. rewrite Z.add_comm, Z_mod_plus_full. by rewrite Z.mod_small.
  - apply dec_pad_mod. rewrite Z.add_comm, Z_mod_plus_full. by rewrite Z.mod_small.
Qed.

Lemma written_prefix l rest : length (l ++ rest) = maxTimeBytes -> written (l ++ rest) l.
Proof. intros H. split; [done|]. by apply take_app_length'. Qed.

Lemma copy_front_all src dst : (length src <= length dst)%nat -> copy_front src dst = src ++ drop (length src) dst.
Proof. intros H. unfold copy_front. by rewrite take_ge. Qed.

Lemma date_time_length y m d h mi s : length (date_time y m d h mi s) = timePrefixBytes.
Proof. unfold date_time. cbn [length]. rewrite !length_app, !dec_pad_length. done. Qed.

Lemma storeDateTimeParts_ok out y m d h mi s : length out = maxTimeBytes ->
  0 <= y < 10000 -> 0 <= m < 100 -> 0 <= d < 100 -> 0 <= h < 100 -> 0 <= mi < 100 -> 0 <= s < 100 ->
  exists out', storeDateTimeParts out y m d h mi s = Ok out' /\ written out' (date_time y m d h mi s).
Proof.
  intros Hl Hy Hm Hd Hh Hmi Hs. unfold storeDateTimeParts.
  rewrite Store8Digits_ok by (rewrite ?length_replicate; lia). cbn [res_bind take app Nat.add drop replicate].
  rewrite Store8Digits_ok by (rewrite ?length_app, ?dec_pad_length; simpl; lia). cbn [res_bind].
  rewrite copy_front_all by (rewrite Hl; cbv; lia).
  pose proof (packed_digits y m d 2 2 (y * 10000 + m * 100 + d) ltac:(lia) ltac:(simpl; lia) ltac:(simpl; lia) ltac:(simpl; lia) 4) as E1.
  pose proof (packed_digits (h * 100 + mi) s 0 2 2 (h * 1000000 + mi * 10000 + s * 100) ltac:(lia) ltac:(simpl; lia) ltac:(simpl; lia) ltac:(simpl; lia) 4) as E2.
  pose proof (packed_digits h mi 0 2 0 (h * 100 + mi) ltac:(lia) ltac:(simpl; lia) ltac:(simpl; lia) ltac:(simpl; lia) 2) as E3.
  change (2 + 2 + 0)%nat with 4%nat in E3. change (4 + 2 + 2)%nat with 8%nat in *. rewrite E3 in E2. rewrite E1, E2. clear E1 E2 E3.
  unfold date_time. destruct (dec_pad_four y) as (y3 & y2 & y1 & y0 & ->), (dec_pad_2 m) as (m1 & m0 & ->), (dec_pad_2 d) as (d1 & d0 & ->),
    (dec_pad_2 h) as (h1 & h0 & ->), (dec_pad_2 mi) as (i1 & i0 & ->), (dec_pad_2 s) as (s1 & s0 & ->).
  do 20 (destruct out as [|? out]; [done|]). eexists. split; [reflexivity|].
  match goal with |- written _ ?l => change (written (l ++ out) l) end. by apply written_prefix.
Qed.

(** The clock of the same day over a cached prefix. *)
Lemma same_day_ok out y m d h mi s h' mi' s' : length out = maxTimeBytes -> 0 <= h < 100 -> 0 <= mi < 100 -> 0 <= s < 100 ->
  exists out', put_all (copy_front (date_time y m d h' mi' s') out)
      [(12%nat, ascii_digit (h / 10)); (13%nat, ascii_digit (h mod 10)); (15%nat, ascii_digit (mi / 10));
       (16%nat, ascii_digit (mi mod 10)); (18%nat, ascii_digit (s / 10)); (19%nat, ascii_digit (s mod 10))] = Ok out' /\
    written out' (date_time y m d h mi s).
Proof.
  intros Hl Hh Hmi Hs. rewrite copy_front_all by (rewrite Hl, date_time_length; cbv; lia).
  unfold date_time. rewrite <- (ascii_pair h _ Hh eq_refl), <- (ascii_pair mi _ Hmi eq_refl), <- (ascii_pair s _ Hs eq_refl).
  destruct (dec_pad_four y) as (y3 & y2 & y1 & y0 & ->), (dec_pad_2 m) as (m1 & m0 & ->), (dec_pad_2 d) as (d1 & d0 & ->),
    (dec_pad_2 h') as (h1 & h0 & ->), (dec_pad_2 mi') as (i1 & i0 & ->), (dec_pad_2 s') as (s1 & s0 & ->).
  do 20 (destruct out as [|? out]; [done|]). eexists. split; [reflexivity|].
  match goal with |- written _ ?l => change (written (l ++ out) l) end. by apply written_prefix.
Qed.

Lemma cached_ok out y m d h mi s : length out = maxTimeBytes -> written (copy_front (date_time y m d h mi s) out) (date_time y m d h mi s).
Proof.
  intros Hl. pose proof (date_time_length y m d h mi s) as Hd. rewrite copy_front_all by (rewrite Hl, Hd; cbv; lia).
  apply written_prefix. rewrite length_app, length_drop, Hl, Hd. done.
Qed.

(** ** The memo is transparent *)

Definition year_of (abs : Z) : Z := (absDaysToDate (abs / secondsPerDay)).1.1.
Definition year_fits (abs : Z) : bool := w64 (year_of abs) <? 10000.
Definition zone_fits (offset : Z) : bool := (-24 * 60 <? Z.quot offset 60) && (Z.quot offset 60 <? 24 * 60).

(** A memo that is set holds the text of its second, whose year fits. *)
Definition coherent (c : TimeCache) : Prop :=
  tc_state c = 0 \/
  tc_state c = 3 /\ tc_days c = tc_absSec c / secondsPerDay /\ tc_prefix c = absolute_text (tc_absSec c) /\
  year_fits (tc_absSec c) = true.
Definition coherent_memo (cache : option TimeCache) : Prop := match cache with Some c => coherent c | None => True end.

Lemma zone_checked_ok {A} offset (k : Z -> res string A) :
  zone_checked offset k = if zone_fits offset then k (Z.quot offset 60) else Err errTimeZone.
Proof. unfold zone_checked, zone_fits. cbv zeta. destruct (_ && _) eqn:E; [by rewrite if_false by lia|by rewrite if_true by lia]. Qed.

Lemma finish_ok out s value cache : written out s -> length s = timePrefixBytes -> 0 <= t_Nanosecond value < 10 ^ 9 ->
  zone_fits (t_Offset value) = true ->
  finish_time out value (Z.quot (t_Offset value) 60) cache = Ok (s ++ tail_text value, cache).
Proof.
  intros Hw Hs Hn Hz. unfold zone_fits in Hz. destruct (tail_ok out s value Hw Hs Hn ltac:(lia)) as (out' & E & Hl & Ht).
  unfold finish_time. rewrite E. cbn [lift res_bind]. apply (f_equal length) in Ht as Hlt. rewrite length_take in Hlt.
  rewrite (proj2 (Nat.ltb_ge _ _)) by lia. by rewrite Ht.
Qed.

Lemma clock_range abs : 0 <= abs -> let '(h, mi, s) := clock_of abs in
  0 <= h < 24 /\ 0 <= mi < 60 /\ 0 <= s < 60 /\ h * 3600 + mi * 60 + s = abs mod secondsPerDay.
Proof.
  intros H. unfold clock_of. pose proof (Z.mod_pos_bound abs secondsPerDay ltac:(done)) as B. unfold w32.
  change secondsPerDay with 86400 in *. rewrite Z.mod_small by lia. set (c := abs mod 86400) in *. clearbody c. div_lia.
Qed.

Section Memo.
Context (spare : bytes) (value : Time).
Hypothesis Hn : 0 <= t_Nanosecond value < 10 ^ 9.

Lemma abs_range : 0 <= abs_seconds value < 2 ^ 64.
Proof using. clear Hn. apply Z.mod_pos_bound. lia. Qed.

Lemma day_range : 0 <= abs_seconds value / secondsPerDay < 2 ^ 48.
Proof using. clear Hn. pose proof abs_range. change secondsPerDay with 86400. div_lia. Qed.

(** The whole text, once the year and the zone are accepted. *)
Definition whole : bytes := absolute_text (abs_seconds value) ++ tail_text value.

Lemma another_day_ok cache : exists cache', coherent_memo cache' /\
  another_day spare value (abs_seconds value) cache =
  if year_fits (abs_seconds value) then if zone_fits (t_Offset value) then Ok (whole, cache') else Err errTimeZone
  else Err errTimeYear.
Proof using Hn.
  unfold another_day, whole, absolute_text, year_fits, year_of. pose proof (absDaysToDate_ok _ day_range) as Hd.
  pose proof (clock_range _ (proj1 abs_range)) as Hc.
  destruct (absDaysToDate _) as [[y m] d] eqn:Ed. destruct (clock_of _) as [[h mi] s] eqn:Ec. cbn [fst].
  destruct Hd as [[Hm Hday] _]. assert (d <= 31) by (unfold days_in_month in Hday; repeat case_step_in Hday; lia).
  destruct (Z.ltb_spec (w64 y) 10000) as [Hy|Hy].
  2:{ exists None. split; [done|]. by rewrite if_true by lia. }
  rewrite if_false by lia. rewrite zone_checked_ok. destruct (zone_fits _) eqn:Hz; [|by exists None].
  assert (Hy32 : 0 <= w32 y < 10000).
  { unfold w32, w64 in *. pose proof (Z.mod_pos_bound y (2 ^ 64) ltac:(lia)).
  replace (y mod 2 ^ 32) with ((y mod 2 ^ 64) mod 2 ^ 32); [rewrite Z.mod_small; lia|].
  apply Z.mod_mod_divide. by exists (2 ^ 32). }
  destruct (storeDateTimeParts_ok (time_out spare) (w32 y) m d h mi s (time_out_length spare)) as (out & E & Hw); try lia.
  rewrite E. cbn [lift res_bind]. rewrite (finish_ok out _ value _ Hw (date_time_length _ _ _ _ _ _) Hn Hz).
  eexists. split; [|done]. destruct cache as [c|]; [|done]. cbn [option_map coherent_memo]. right.
  cbn [tc_state tc_days tc_absSec tc_prefix]. split_and!; [done..| |].
  - unfold absolute_text. rewrite Ed, Ec. destruct Hw as [_ <-]. by rewrite date_time_length.
  - unfold year_fits, year_of. rewrite Ed. cbn [fst]. lia.
Qed.

Lemma memo_ok cache : coherent_memo cache -> exists cache', coherent_memo cache' /\
  AppendTimeCached spare value cache =
  if year_fits (abs_seconds value) then if zone_fits (t_Offset value) then Ok (whole, cache') else Err errTimeZone
  else Err errTimeYear.
Proof using Hn.
  intros Hc. unfold AppendTimeCached. destruct cache as [c|]; [|apply another_day_ok]. destruct Hc as [H0|(H3 & Hday & Hpre & Hy)].
  { rewrite H0. cbn [Z.land Z.eqb negb andb]. apply another_day_ok. }
  rewrite H3. change (negb (Z.land 3 timeCachePrefix =? 0)) with true. change (negb (Z.land 3 timeCacheDate =? 0)) with true. cbn [andb].
  destruct (Z.eqb_spec (tc_absSec c) (abs_seconds value)) as [E|E].
  { exists (Some c). split; [by right|]. unfold same_second, whole. rewrite zone_checked_ok, <- E, Hy. destruct (zone_fits _) eqn:Hz; [|done].
  rewrite Hpre. unfold absolute_text. destruct (absDaysToDate _) as [[y m] d]. destruct (clock_of _) as [[h mi] s].
  by rewrite (finish_ok _ _ value _ (cached_ok _ _ _ _ _ _ _ (time_out_length spare)) (date_time_length _ _ _ _ _ _) Hn Hz). }
  destruct (Z.eqb_spec (tc_days c) (abs_seconds value / secondsPerDay)) as [Ed|Ed]; [|apply another_day_ok].
  rewrite Hday in Ed. unfold same_day, whole. pose proof (clock_range _ (proj1 abs_range)) as Hclk.
  assert (Hy' : year_fits (abs_seconds value) = true) by (unfold year_fits, year_of in *; by rewrite <- Ed). rewrite Hy'.
  destruct (clock_of (abs_seconds value)) as [[h mi] s] eqn:Ec. rewrite zone_checked_ok. destruct (zone_fits _) eqn:Hz.
  2:{ exists None. by split. }
  rewrite Hpre. unfold absolute_text. rewrite Ed, Ec. destruct (absDaysToDate _) as [[y m] d] eqn:Edate.
  destruct (clock_of (tc_absSec c)) as [[h' mi'] s'].
  destruct (same_day_ok (time_out spare) (w32 y) m d h mi s h' mi' s' (time_out_length spare)) as (out & E' & Hw); try lia.
  rewrite E'. cbn [lift res_bind]. rewrite (finish_ok out _ value _ Hw (date_time_length _ _ _ _ _ _) Hn Hz).
  eexists. split; [|done]. right. cbn [tc_state tc_days tc_absSec tc_prefix]. split_and!; [done|by rewrite Hday| |done].
  unfold absolute_text. rewrite Edate, Ec. destruct Hw as [_ <-]. by rewrite date_time_length.
Qed.
End Memo.

(** ** What is written is a JSON string *)

Definition time_char (c : Z) : Prop := is_string_special c = false.

Lemma digits_plain l : digits l -> Forall time_char l.
Proof. intros H. eapply Forall_impl; [exact H|]. intros c Hc. unfold time_char, is_string_special, is_string_syntax. unfold IsDigit in Hc. lia. Qed.

Lemma trim_zeros_digits l : digits l -> digits (trim_zeros l).
Proof.
  induction 1 as [|c l Hc _ IH]; [constructor|]. cbn [trim_zeros]. destruct (trim_zeros l); [case_step; [constructor|by constructor]|by constructor].
Qed.

#[local] Hint Resolve digits_plain dec_pad_digits trim_zeros_digits : vj.

Ltac plain_text :=
  repeat first [by auto with vj | apply Forall_cons_2; [done|] | apply Forall_nil_2 | apply Forall_app; split].

Lemma date_time_chars y m d h mi s : exists body, date_time y m d h mi s = DQUOTE :: body /\ Forall time_char body.
Proof. eexists. split; [done|]. plain_text. Qed.

Lemma tail_chars value : exists body, tail_text value = body ++ [DQUOTE] /\ Forall time_char body.
Proof.
  unfold tail_text. eexists (fraction_text _ ++ zone_text _). split; [by rewrite app_assoc|]. apply Forall_app. split.
  - unfold fraction_text. case_step; plain_text.
  - unfold zone_text. case_step; [plain_text|]. apply Forall_cons_2; [by destruct (_ <? 0)|]. plain_text.
Qed.

Lemma plain_string body : Forall time_char body -> jstring (DQUOTE :: body ++ [DQUOTE]) body.
Proof.
  intros H. constructor. induction H as [|c l Hc _ IH]; [constructor|]. apply (jchars_cons [c] [c]); [by constructor|done].
Qed.

Lemma whole_string value : exists body, whole value = DQUOTE :: body ++ [DQUOTE] /\ jstring (whole value) body.
Proof.
  unfold whole, absolute_text. destruct (absDaysToDate _) as [[y m] d]. destruct (clock_of _) as [[h mi] s].
  destruct (date_time_chars (w32 y) m d h mi s) as (b1 & -> & H1), (tail_chars value) as (b2 & -> & H2).
  exists (b1 ++ b2). cbn [app]. rewrite !app_assoc. split; [done|]. apply plain_string. by apply Forall_app.
Qed.

(** ** Properties *)

(** C27: a time is appended as a quoted RFC 3339 text whose date, in the proleptic Gregorian calendar, and clock are those of its second in its zone, with the nanoseconds it has and no trailing zero, and the zone in whole minutes; years outside four digits and zones of a day or more are the two errors; the memo, whatever it remembers, never changes the text. *)
Theorem AppendTime_text spare value cache :
  coherent_memo cache -> - 2 ^ 62 <= t_Unix value < 2 ^ 62 -> - 2 ^ 31 <= t_Offset value < 2 ^ 31 -> 0 <= t_Nanosecond value < 10 ^ 9 ->
  exists y m d h mi s, valid_date y m d /\ 0 <= h < 24 /\ 0 <= mi < 60 /\ 0 <= s < 60 /\
    civil_days y m d * 86400 + h * 3600 + mi * 60 + s = t_Unix value + t_Offset value + civil_days 1970 1 1 * 86400 /\
    exists cache', coherent_memo cache' /\
      AppendTimeCached spare value cache =
        if (0 <=? y) && (y <? 10000) then
          if zone_fits (t_Offset value) then Ok (date_time y m d h mi s ++ tail_text value, cache') else Err errTimeZone
        else Err errTimeYear.
Proof.
  intros Hc Hu Ho Hn. destruct (memo_ok spare value Hn cache Hc) as (cache' & Hc' & ->).
  pose proof (absDaysToDate_ok _ (day_range value)) as Hd. pose proof (clock_range _ (proj1 (abs_range value))) as Hclk.
  unfold whole, absolute_text, year_fits, year_of.
  destruct (absDaysToDate _) as [[y m] d]. destruct (clock_of _) as [[h mi] s]. cbn [fst]. destruct Hd as [Hv Hdays], Hclk as (Hh & Hmi & Hs & Hclk).
  assert (Hsum : abs_seconds value = t_Unix value + t_Offset value + unixToAbsolute).
  { unfold abs_seconds, int64, w64. change unixToAbsolute with 9223372028741760000. set (x := t_Unix value + t_Offset value) in *.
    assert (Bx : - 2 ^ 63 <= x < 2 ^ 63) by lia. rewrite (Z.mod_small (x + 2 ^ 63)) by lia.
    replace (x + 2 ^ 63 - 2 ^ 63) with x by lia. rewrite Zminus_mod_idemp_l.
    replace (x + 9223372028741760000 + 2 ^ 63 - 2 ^ 63) with (x + 9223372028741760000) by lia. apply Z.mod_small. lia. }
  pose proof (day_range value) as Bd. pose proof (Z.div_mod (abs_seconds value) 86400 ltac:(lia)) as Edm.
  change secondsPerDay with 86400 in *. change absolute_epoch with (-106751990354238) in Hdays.
  assert (Hy : - 2 ^ 62 <= y < 2 ^ 62).
  { destruct Hv as [Hm Hday]. assert (B1 : 0 <= month_start y m <= 335).
    { unfold month_start, common_month_start. assert (Hc12 : Forall (fun x => 0 <= x <= 334) [0; 31; 59; 90; 120; 151; 181; 212; 243; 273; 304; 334]) by forall_lia.
      destruct (nth_in_or_default (Z.to_nat (m - 1)) [0; 31; 59; 90; 120; 151; 181; 212; 243; 273; 304; 334] 0) as [Hin| ->]; [|case_step; lia].
      apply list_elem_of_In in Hin. rewrite Forall_forall in Hc12. apply Hc12 in Hin. case_step; lia. }
    assert (B2 : days_in_month y m <= 31) by (unfold days_in_month; repeat case_step; lia).
    unfold civil_days, year_start in Hdays. div_lia. }
  exists y, m, d, h, mi, s. split_and!; try done; try lia.
  - change (civil_days 1970 1 1) with 719162. change unixToAbsolute with 9223372028741760000 in Hsum. lia.
  - exists cache'. split; [done|]. unfold w64.
    assert (Hmod : y mod 2 ^ 64 = if y <? 0 then y + 2 ^ 64 else y).
    { destruct (Z.ltb_spec y 0); [|apply Z.mod_small; lia]. rewrite <- (Z_mod_plus_full y 1 (2 ^ 64)). rewrite Z.mod_small; lia. }
    rewrite Hmod. destruct (Z.ltb_spec y 0); [by rewrite !if_false by lia|]. rewrite (proj2 (Z.leb_le 0 y)) by lia.
    cbn [andb]. destruct (Z.ltb_spec y 10000); [|done]. unfold w32. by rewrite Z.mod_small by lia.
Qed.

Lemma AppendTime_text_witness :
  let value := mkTime 1709210096 3600 123450000 in
  exists y m d h mi s, valid_date y m d /\ 0 <= h < 24 /\ 0 <= mi < 60 /\ 0 <= s < 60 /\
    civil_days y m d * 86400 + h * 3600 + mi * 60 + s = t_Unix value + t_Offset value + civil_days 1970 1 1 * 86400 /\
    exists cache', coherent_memo cache' /\
      AppendTimeCached [] value (Some noTimeCache) =
        if (0 <=? y) && (y <? 10000) then
          if zone_fits (t_Offset value) then Ok (date_time y m d h mi s ++ tail_text value, cache') else Err errTimeZone
        else Err errTimeYear.
Proof. apply AppendTime_text; [by left|simpl; lia..]. Defined.
