(* ===== verification/StreamWriter.v ===== *)
(** [stream_writer.go]: the streaming writer, a state machine over one reused
    buffer and a stack of open containers.

    The sink is any deterministic [io.Writer]: what it answers to a call is a
    function of the payloads it was handed before.  The writer's state keeps those
    payloads, so that the theorems can speak of what the sink has seen.  The typed
    encoders and the float formatter are arguments: a typed encoder is the text it
    appends or its error. *)

From S2P Require Import Prelude Words Utf8 Scanner Lex Grammar StringRef Errors Numbers Reader Validator FastValid Layout Decode NumberEqual Digits EncodeString EncodeInt TimeFormat.

Record streamFrame : Type := mkFrame { fr_kind : Z; fr_members : nat; fr_afterKey : bool }.

(** The stack has its innermost frame first; [w_sent] is what the sink was handed. *)
Record Writer : Type := mkWriter {
  w_sent : list bytes; w_buf : bytes; w_flushAt : Z; w_err : option string;
  w_escapeHTML : bool; w_timeCache : TimeCache; w_stack : list streamFrame; w_started : bool }.

Definition set_buf (w : Writer) (buf : bytes) : Writer :=
  mkWriter (w_sent w) buf (w_flushAt w) (w_err w) (w_escapeHTML w) (w_timeCache w) (w_stack w) (w_started w).
Definition set_stack (w : Writer) (stack : list streamFrame) : Writer :=
  mkWriter (w_sent w) (w_buf w) (w_flushAt w) (w_err w) (w_escapeHTML w) (w_timeCache w) stack (w_started w).
Definition set_started (w : Writer) (started : bool) : Writer :=
  mkWriter (w_sent w) (w_buf w) (w_flushAt w) (w_err w) (w_escapeHTML w) (w_timeCache w) (w_stack w) started.
Definition set_err (w : Writer) (err : option string) : Writer :=
  mkWriter (w_sent w) (w_buf w) (w_flushAt w) err (w_escapeHTML w) (w_timeCache w) (w_stack w) (w_started w).
Definition set_time (w : Writer) (c : TimeCache) : Writer :=
  mkWriter (w_sent w) (w_buf w) (w_flushAt w) (w_err w) (w_escapeHTML w) c (w_stack w) (w_started w).
Definition set_sent (w : Writer) (sent : list bytes) : Writer :=
  mkWriter sent (w_buf w) (w_flushAt w) (w_err w) (w_escapeHTML w) (w_timeCache w) (w_stack w) (w_started w).

Definition append_buf (w : Writer) (s : bytes) : Writer := set_buf w (w_buf w ++ s).

Definition defaultWriterSize : Z := 32 * 1024.
Definition newWriterWithFlushThreshold (size : Z) : Writer :=
  mkWriter [] [] (if size <? 512 then 512 else size) None true noTimeCache [] false.
Definition NewWriter : Writer := newWriterWithFlushThreshold defaultWriterSize.

Definition SetEscapeHTML (w : Writer) (escape : bool) : Writer :=
  mkWriter (w_sent w) (w_buf w) (w_flushAt w) (w_err w) escape (w_timeCache w) (w_stack w) (w_started w).

(** A method returns the writer and its error. *)
Definition call : Type := res unit (Writer * option string).

Definition fail (w : Writer) (err : string) : call :=
  let w := match w_err w with None => set_err w (Some err) | Some _ => w end in
  Ok (w, w_err w).

Definition ErrShortWrite : string := "short write".

Section Methods.
(** The sink: the count and error of a call, from the payloads before it. *)
Context (Write : list bytes -> bytes -> Z * option string).
(** The spare capacity the runtime leaves behind a buffer. *)
Context (spare : bytes -> bytes).
(** [appendJSONFloat] at 64 bits: the text it appends, or its error. *)
Context (float : Type) (appendJSONFloat : float -> bytes + string).

Definition flush (w : Writer) : call :=
  if (length (w_buf w) =? 0)%nat then Ok (w, None)
  else
  let (n, err) := Write (w_sent w) (w_buf w) in
  let w := set_sent w (w_sent w ++ [w_buf w]) in
  let err := match err with
           | None => if negb (n =? Z.of_nat (length (w_buf w))) then Some ErrShortWrite else None
           | Some e => Some e
           end in
  match err with
  | Some e => fail w e
  | None => Ok (set_buf w [], None)
  end.

Definition maybeFlush (w : Writer) : call :=
  if Z.of_nat (length (w_buf w)) <? w_flushAt w then Ok (w, None) else flush w.

(** The writer, and whether a value may be written. *)
Definition beforeValue (w : Writer) : Writer * bool :=
  match w_err w with
  | Some _ => (w, false)
  | None =>
  match w_stack w with
  | [] =>
      if w_started w then (set_err w (Some "vibejson: second top-level token value without Newline"%string), false)
      else (set_started w true, true)
  | frame :: _ =>
      if fr_kind frame =? "{"%ch then
        if negb (fr_afterKey frame) then (set_err w (Some "vibejson: object value without a preceding Key"%string), false)
        else (w, true)
      else (if (0 <? fr_members frame)%nat then append_buf w [","%ch] else w, true)
  end
  end.

Definition afterValue (w : Writer) : call :=
  match w_stack w with
  | frame :: stack => Ok (set_stack w (mkFrame (fr_kind frame) (S (fr_members frame)) false :: stack), None)
  | [] => maybeFlush w
  end.

(** The shape of every value method. *)
Definition value_method (w : Writer) (write : Writer -> call) : call :=
  let (w, ok) := beforeValue w in
  if negb ok then Ok (w, w_err w) else write w.

Definition RawUnchecked (w : Writer) (value : bytes) : call :=
  value_method w (fun w => afterValue (append_buf w value)).

Definition BeginObject (w : Writer) : call :=
  value_method w (fun w => Ok (set_stack (append_buf w ["{"%ch]) (mkFrame "{"%ch 0 false :: w_stack w), None)).

Definition BeginArray (w : Writer) : call :=
  value_method w (fun w => Ok (set_stack (append_buf w ["["%ch]) (mkFrame "["%ch 0 false :: w_stack w), None)).

Definition EndObject (w : Writer) : call :=
  match w_err w with
  | Some _ => Ok (w, w_err w)
  | None =>
  match w_stack w with
  | frame :: stack =>
      if negb (fr_kind frame =? "{"%ch) || fr_afterKey frame then fail w "vibejson: EndObject without a matching open object"
      else afterValue (append_buf (set_stack w stack) ["}"%ch])
  | [] => fail w "vibejson: EndObject without a matching open object"
  end
  end.

Definition EndArray (w : Writer) : call :=
  match w_err w with
  | Some _ => Ok (w, w_err w)
  | None =>
  match w_stack w with
  | frame :: stack =>
      if negb (fr_kind frame =? "["%ch) then fail w "vibejson: EndArray without a matching open array"
      else afterValue (append_buf (set_stack w stack) ["]"%ch])
  | [] => fail w "vibejson: EndArray without a matching open array"
  end
  end.

(** A string through the encoder; the text is not in the writer's buffer. *)
Definition append_string (w : Writer) (s : bytes) : res unit Writer :=
  let* buf := appendEncodedJSONString (w_buf w) (spare (w_buf w)) false s (w_escapeHTML w) in
  Ok (set_buf w buf).

Definition Key (w : Writer) (name : bytes) : call :=
  match w_err w with
  | Some _ => Ok (w, w_err w)
  | None =>
  match w_stack w with
  | frame :: stack =>
      if negb (fr_kind frame =? "{"%ch) || fr_afterKey frame then fail w "vibejson: Key outside an object member position"
      else
        let w := if (0 <? fr_members frame)%nat then append_buf w [","%ch] else w in
        let* w := append_string w name in
        let w := append_buf w [":"%ch] in
        Ok (set_stack w (mkFrame (fr_kind frame) (fr_members frame) true :: stack), None)
  | [] => fail w "vibejson: Key outside an object member position"
  end
  end.

Definition String (w : Writer) (s : bytes) : call :=
  value_method w (fun w => let* w := append_string w s in afterValue w).

Definition Int (w : Writer) (v : Z) : call :=
  value_method w (fun w => let* d := appendCompactInt (spare (w_buf w)) v in afterValue (append_buf w d)).
Definition Uint (w : Writer) (v : Z) : call :=
  value_method w (fun w => let* d := appendCompactUint (spare (w_buf w)) v in afterValue (append_buf w d)).

Definition Float64 (w : Writer) (v : float) : call :=
  value_method w (fun w =>
  match appendJSONFloat v with
  | inr err => fail w err
  | inl d => afterValue (append_buf w d)
  end).

Definition Bool (w : Writer) (v : bool) : call :=
  value_method w (fun w => afterValue (append_buf w (if v then lit_true else lit_false))).
Definition Null (w : Writer) : call :=
  value_method w (fun w => afterValue (append_buf w lit_null)).

Definition WriteTime (w : Writer) (t : Time) : call :=
  value_method w (fun w =>
  match AppendTimeCached (spare (w_buf w)) t (Some (w_timeCache w)) with
  | Err err => fail w err
  | Ok (d, cache) => afterValue (append_buf (set_time w (default (w_timeCache w) cache)) d)
  | Panic => Panic
  | NoFuel => NoFuel
  end).

(** [EncodeTo]: [enc] is what the compiled encoder appends, or its error. *)
Definition EncodeTo (w : Writer) (enc : bytes + string) : call :=
  match w_err w with
  | Some _ => Ok (w, w_err w)
  | None =>
  if negb (length (w_stack w) =? 0)%nat then fail w "vibejson: EncodeTo inside an unfinished token value"
  else if w_started w then fail w "vibejson: second top-level value without Newline"
  else
    match enc with
    | inr err => fail w err
    | inl d => maybeFlush (set_started (append_buf w d) true)
    end
  end.

Definition Newline (w : Writer) : call :=
  match w_err w with
  | Some _ => Ok (w, w_err w)
  | None =>
  if negb (length (w_stack w) =? 0)%nat then fail w "vibejson: Newline inside an unfinished token value"
  else maybeFlush (set_started (append_buf w [10]) false)
  end.

Definition Flush (w : Writer) : call :=
  match w_err w with
  | Some _ => Ok (w, w_err w)
  | None =>
  if negb (length (w_stack w) =? 0)%nat then fail w "vibejson: Flush inside an unfinished token value"
  else flush w
  end.

Definition Close (w : Writer) : call := Flush w.

(** ** Sequences of calls *)

Inductive op : Type :=
  | OpRaw (value : bytes) | OpBeginObject | OpEndObject | OpBeginArray | OpEndArray
  | OpKey (name : bytes) | OpString (s : bytes) | OpInt (v : Z) | OpUint (v : Z) | OpFloat (v : float)
  | OpBool (v : bool) | OpNull | OpTime (t : Time) | OpEncode (enc : bytes + string)
  | OpNewline | OpFlush | OpClose | OpEscapeHTML (escape : bool).

Definition step (w : Writer) (o : op) : call :=
  match o with
  | OpRaw v => RawUnchecked w v
  | OpBeginObject => BeginObject w
  | OpEndObject => EndObject w
  | OpBeginArray => BeginArray w
  | OpEndArray => EndArray w
  | OpKey name => Key w name
  | OpString s => String w s
  | OpInt v => Int w v
  | OpUint v => Uint w v
  | OpFloat v => Float64 w v
  | OpBool v => Bool w v
  | OpNull => Null w
  | OpTime t => WriteTime w t
  | OpEncode enc => EncodeTo w enc
  | OpNewline => Newline w
  | OpFlush => Flush w
  | OpClose => Close w
  | OpEscapeHTML escape => Ok (SetEscapeHTML w escape, None)
  end.

(** Every call of a program that ignores the errors. *)
Fixpoint run (w : Writer) (ops : list op) : res unit Writer :=
  match ops with
  | [] => Ok w
  | o :: ops => let* (w, _) := step w o in run w ops
  end.
End Methods.

Arguments OpRaw {float} _.
Arguments OpBeginObject {float}.
Arguments OpEndObject {float}.
Arguments OpBeginArray {float}.
Arguments OpEndArray {float}.
Arguments OpKey {float} _.
Arguments OpString {float} _.
Arguments OpInt {float} _.
Arguments OpUint {float} _.
Arguments OpFloat {float} _.
Arguments OpBool {float} _.
Arguments OpNull {float}.
Arguments OpTime {float} _.
Arguments OpEncode {float} _.
Arguments OpNewline {float}.
Arguments OpFlush {float}.
Arguments OpClose {float}.
Arguments OpEscapeHTML {float} _.

(** ** Growing containers *)

Lemma jvalue_weaken :
  (forall k s t, jvalue k s t -> forall k', k <= k' -> jvalue k' s t) /\
  (forall k s ts, jelems k s ts -> forall k', k <= k' -> jelems k' s ts) /\
  (forall k s ms, jmembers k s ms -> forall k', k <= k' -> jmembers k' s ms).
Proof.
  apply jvalue_mutind; intros; constructor; try done; try lia; auto with lia.
Qed.

Lemma elems_snoc k s ts v t : jelems k s ts -> jvalue k v t -> jelems k (s ++ ","%ch :: v) (ts ++ [t]).
Proof.
  intros Hs Hv. assert (Hone : jelems k v [t]).
  { rewrite <- (app_nil_r v). apply (je_one k [] v t []); [constructor|done|constructor]. }
  induction Hs as [k w1 s t' w2 H1 Ht H2|k w1 s t' w2 rest ts H1 Ht H2 _ IH].
  - rewrite <- !app_assoc. by apply je_cons.
  - rewrite <- !app_assoc. cbn [app]. apply je_cons; [done..|]. by apply IH.
Qed.

Lemma member_one k key name v t : jstring key name -> jvalue k v t -> jmembers k (key ++ ":"%ch :: v) [((key, name), t)].
Proof. intros Hk Hv. rewrite <- (app_nil_r v). apply (jm_one k [] key name [] [] v t []); (done || constructor). Qed.

Lemma members_snoc k s ms key name v t : jmembers k s ms -> jstring key name -> jvalue k v t ->
  jmembers k (s ++ ","%ch :: key ++ ":"%ch :: v) (ms ++ [((key, name), t)]).
Proof.
  intros Hs Hk Hv. pose proof (member_one k key name v t Hk Hv) as Hone.
  induction Hs as [k w1 key' name' w2 w3 s t' w4 H1 Hk' H2 H3 Ht H4|k w1 key' name' w2 w3 s t' w4 rest ms H1 Hk' H2 H3 Ht H4 _ IH].
  - repeat (rewrite <- !app_assoc; cbn [app]). by apply jm_cons.
  - repeat (rewrite <- !app_assoc; cbn [app]). apply jm_cons; [done..|]. by apply IH.
Qed.

(** The text between the brackets so far: nothing, or complete parts. *)
Definition elems_so_far (body : bytes) (ts : list tree) : Prop :=
  (body = [] /\ ts = []) \/ exists k, 0 <= k /\ jelems k body ts.
Definition members_so_far (body : bytes) (ms : list ((bytes * bytes) * tree)) : Prop :=
  (body = [] /\ ms = []) \/ exists k, 0 <= k /\ jmembers k body ms.
Definition comma_if (n : nat) : bytes := if (0 <? n)%nat then [","%ch] else [].

Definition is_value (v : bytes) (t : tree) : Prop := exists k, jvalue k v t.

Lemma jelems_ne k s ts : jelems k s ts -> (0 < length ts)%nat.
Proof. destruct 1; simpl; lia. Qed.
Lemma jmembers_ne k s ms : jmembers k s ms -> (0 < length ms)%nat.
Proof. destruct 1; simpl; lia. Qed.

Lemma value_budget v t : is_value v t -> exists k, 0 <= k /\ forall k', k <= k' -> jvalue k' v t.
Proof. intros [k H]. exists (Z.max 0 k). split; [lia|]. intros k' Hk. apply (proj1 jvalue_weaken k); [done|lia]. Qed.

Lemma elems_add body ts v t : elems_so_far body ts -> is_value v t ->
  elems_so_far (body ++ comma_if (length ts) ++ v) (ts ++ [t]).
Proof.
  intros Hb Hv. destruct (value_budget v t Hv) as (kv & Hkv & Hv'). right. destruct Hb as [[-> ->]|(k & Hk & Hb)].
  - exists kv. split; [done|]. cbn [comma_if length Nat.ltb Nat.leb app]. rewrite <- (app_nil_r v).
    apply (je_one kv [] v t []); [constructor|by apply Hv'|constructor].
  - exists (Z.max k kv). split; [lia|]. apply jelems_ne in Hb as Hl. unfold comma_if. rewrite (proj2 (Nat.ltb_lt _ _) Hl). cbn [app].
    apply elems_snoc; [|apply Hv'; lia]. apply (proj1 (proj2 jvalue_weaken) k); [done|lia].
Qed.

Lemma members_add body ms key name v t : members_so_far body ms -> jstring key name -> is_value v t ->
  members_so_far (body ++ comma_if (length ms) ++ key ++ [":"%ch] ++ v) (ms ++ [((key, name), t)]).
Proof.
  intros Hb Hk Hv. destruct (value_budget v t Hv) as (kv & Hkv & Hv'). right. destruct Hb as [[-> ->]|(k & Hk0 & Hb)].
  - exists kv. split; [done|]. cbn [comma_if length Nat.ltb Nat.leb app]. apply member_one; [done|by apply Hv'].
  - exists (Z.max k kv). split; [lia|]. apply jmembers_ne in Hb as Hl. unfold comma_if. rewrite (proj2 (Nat.ltb_lt _ _) Hl). cbn [app].
    apply members_snoc; [|done|apply Hv'; lia]. apply (proj2 (proj2 jvalue_weaken) k); [done|lia].
Qed.

Lemma array_closed body ts : elems_so_far body ts -> is_value ("["%ch :: body ++ ["]"%ch]) (TArr ("["%ch :: body ++ ["]"%ch]) ts).
Proof.
  intros [[-> ->]|(k & Hk & Hb)].
  - exists 1. apply (jv_arr0 1 []); [lia|constructor].
  - exists (k + 1). apply jv_arr; [lia|]. by replace (k + 1 - 1) with k by lia.
Qed.
Lemma object_closed body ms : members_so_far body ms -> is_value ("{"%ch :: body ++ ["}"%ch]) (TObj ("{"%ch :: body ++ ["}"%ch]) ms).
Proof.
  intros [[-> ->]|(k & Hk & Hb)].
  - exists 1. apply (jv_obj0 1 []); [lia|constructor].
  - exists (k + 1). apply jv_obj; [lia|]. by replace (k + 1 - 1) with k by lia.
Qed.

(** ** The text of an unfinished value *)

(** [unfinished stack s]: [s] opens the containers of the stack and completes
    the parts the frames have counted; [ready stack s]: a value may follow. *)
Inductive unfinished : list streamFrame -> bytes -> Prop :=
  | un_array stack r body ts : ready stack r -> elems_so_far body ts ->
    unfinished (mkFrame "["%ch (length ts) false :: stack) (r ++ "["%ch :: body)
  | un_object stack r body ms : ready stack r -> members_so_far body ms ->
    unfinished (mkFrame "{"%ch (length ms) false :: stack) (r ++ "{"%ch :: body)
  | un_key stack r body ms key name : ready stack r -> members_so_far body ms -> jstring key name ->
    unfinished (mkFrame "{"%ch (length ms) true :: stack) (r ++ "{"%ch :: body ++ comma_if (length ms) ++ key ++ [":"%ch])
with ready : list streamFrame -> bytes -> Prop :=
  | rd_top : ready [] []
  | rd_element n stack s : unfinished (mkFrame "["%ch n false :: stack) s ->
    ready (mkFrame "["%ch n false :: stack) (s ++ comma_if n)
  | rd_member n stack s : unfinished (mkFrame "{"%ch n true :: stack) s -> ready (mkFrame "{"%ch n true :: stack) s.

(** Lines: complete values, each before a line feed, and empty lines. *)
Inductive lines : bytes -> Prop :=
  | ln_nil : lines []
  | ln_empty s : lines s -> lines (s ++ [10])
  | ln_value s v t : lines s -> is_value v t -> lines (s ++ v ++ [10]).

(** What the sink may be handed: lines, and possibly one complete value. *)
Definition settled (s : bytes) : Prop :=
  exists done v, s = done ++ v /\ lines done /\ (v = [] \/ exists t, is_value v t).

(** Counting a part. *)
Definition bump (stack : list streamFrame) : list streamFrame :=
  match stack with frame :: stack => mkFrame (fr_kind frame) (S (fr_members frame)) false :: stack | [] => [] end.

Lemma value_done stack r v t : ready stack r -> is_value v t -> stack <> [] -> unfinished (bump stack) (r ++ v).
Proof.
  intros Hr Hv Hne. destruct Hr as [|n stack s Hu|n stack s Hu]; [done| |]; cbn [bump fr_kind fr_members].
  - inversion Hu as [stack' r body ts Hr Hb| |]; subst. rewrite <- !app_assoc. cbn [app].
    replace (S (length ts)) with (length (ts ++ [t])) by (rewrite length_app; simpl; lia).
    apply un_array; [done|]. by apply elems_add.
  - inversion Hu as [| |stack' r body ms key name Hr Hb Hk]; subst.
    replace (S (length ms)) with (length (ms ++ [((key, name), t)])) by (rewrite length_app; simpl; lia).
    repeat (rewrite <- !app_assoc; cbn [app]). apply un_object; [done|]. by apply (members_add body ms key name v t).
Qed.

(** ** The invariant *)

(** What the calls made so far have produced: what the sink saw, then the buffer. *)
Definition emitted (w : Writer) : bytes := concat (w_sent w) ++ w_buf w.

(** Where a writer stands after [text], the text since the last line. *)
Definition position (stack : list streamFrame) (started : bool) (text : bytes) : Prop :=
  match stack with
  | [] => if started then exists t, is_value text t else text = []
  | _ :: _ => started = true /\ unfinished stack text
  end.

Record good (w : Writer) : Prop := {
  g_time : coherent (w_timeCache w);
  g_sent : settled (concat (w_sent w));
  g_live : w_err w = None -> exists done text, emitted w = done ++ text /\ lines done /\ position (w_stack w) (w_started w) text }.

(** A value may be written next. *)
Record at_value (w : Writer) : Prop := {
  a_time : coherent (w_timeCache w);
  a_sent : settled (concat (w_sent w));
  a_err : w_err w = None;
  a_started : w_started w = true;
  a_text : exists done r, emitted w = done ++ r /\ lines done /\ ready (w_stack w) r }.

(** The answer of a method: the state is good and the answer is the sticky error. *)
Definition answers (r : call) : Prop := exists w, r = Ok (w, w_err w) /\ good w.

Lemma coherent_none : coherent noTimeCache.
Proof. by left. Qed.

Lemma settled_nil : settled [].
Proof. exists [], []. split_and!; [done|constructor|by left]. Qed.

Lemma settled_lines s text : lines s -> (text = [] \/ exists t, is_value text t) -> settled (s ++ text).
Proof. intros Hl Ht. by exists s, text. Qed.

Lemma emitted_append w s : emitted (append_buf w s) = emitted w ++ s.
Proof. unfold emitted, append_buf, set_buf. cbn. by rewrite app_assoc. Qed.

Lemma emitted_comma w n : emitted (if (0 <? n)%nat then append_buf w [","%ch] else w) = emitted w ++ comma_if n.
Proof. unfold comma_if. destruct (0 <? n)%nat; [apply emitted_append|by rewrite app_nil_r]. Qed.

Lemma new_good size : good (newWriterWithFlushThreshold size).
Proof.
  constructor; [apply coherent_none|apply settled_nil|]. intros _. exists [], []. split_and!; [done|constructor|done].
Qed.

Lemma answers_ok w e : e = w_err w -> good w -> answers (Ok (w, e)).
Proof. intros ->. by exists w. Qed.

(** A failure keeps the state good whatever the buffer holds. *)
Lemma fail_answers w err : coherent (w_timeCache w) -> settled (concat (w_sent w)) -> answers (fail w err).
Proof.
  intros Ht Hs. unfold fail. destruct (w_err w) eqn:E; eexists; (split; [done|]); constructor; try done; cbn; congruence.
Qed.

Section Steps.
Context (Write : list bytes -> bytes -> Z * option string) (spare : bytes -> bytes).
Context (float : Type) (appendJSONFloat : float -> bytes + string).

Lemma sticky w : good w -> w_err w <> None -> answers (Ok (w, w_err w)).
Proof. by exists w. Qed.

(** Flushing at a top-level boundary. *)
Lemma flush_answers w : good w -> w_stack w = [] -> w_err w = None -> answers (flush Write w).
Proof.
  intros [Ht Hs Hl] Hst He. unfold flush. case_step; [exists w; by rewrite He|].
  destruct (Hl He) as (s & text & Hem & Hln & Hp). rewrite Hst in Hp. cbn [position] in Hp.
  assert (Hsent : settled (concat (w_sent w ++ [w_buf w]))).
  { rewrite concat_app. cbn [concat]. rewrite app_nil_r. unfold emitted in Hem. rewrite Hem.
  apply settled_lines; [done|]. destruct (w_started w); [by right|by left]. }
  destruct (Write _ _) as [n e]. destruct (match e with Some _ => _ | None => _ end) as [e'|].
  { by apply fail_answers. }
  apply answers_ok; [by symmetry|]. constructor; [done|done|]. intros _. exists s, text.
  split_and!; [|done|cbn; rewrite Hst; done]. unfold emitted in *. cbn. rewrite concat_app. cbn. by rewrite !app_nil_r.
Qed.

Lemma maybeFlush_answers w : good w -> w_stack w = [] -> w_err w = None -> answers (maybeFlush Write w).
Proof.
  intros Hg Hst He. unfold maybeFlush. case_step; [exists w; by rewrite He|by apply flush_answers].
Qed.

(** The end of a value. *)
Lemma afterValue_answers w s r v t : coherent (w_timeCache w) -> settled (concat (w_sent w)) -> w_err w = None -> w_started w = true ->
  emitted w = s ++ r ++ v -> lines s -> ready (w_stack w) r -> is_value v t -> answers (afterValue Write w).
Proof.
  intros Ht Hs He Hstd Hem Hl Hr Hv. unfold afterValue. destruct (w_stack w) as [|frame stack] eqn:Est.
  - apply maybeFlush_answers; [|done|done]. constructor; [done|done|]. intros _. exists s, (r ++ v).
  split_and!; [done|done|]. rewrite Est, Hstd. inversion Hr; subst. by exists t.
  - apply answers_ok; [by symmetry|]. constructor; [done|done|]. intros _. exists s, (r ++ v). split_and!; [done|done|].
  cbn. split; [done|]. by apply (value_done (frame :: stack) r v t).
Qed.

Lemma write_text w v t : at_value w -> is_value v t -> answers (afterValue Write (append_buf w v)).
Proof.
  intros [Ht Hs He Hstd (s & r & Hem & Hl & Hr)] Hv. apply (afterValue_answers _ s r v t); try done.
  rewrite emitted_append, Hem. by rewrite <- app_assoc.
Qed.

(** [value_method] reaches its body only where a value may be written. *)
Lemma value_method_answers w write :
  good w -> (forall w', at_value w' -> answers (write w')) -> answers (value_method w write).
Proof.
  intros Hg Hw. unfold value_method, beforeValue. destruct (w_err w) as [e|] eqn:He; cbn [negb].
  { exists w. by rewrite He. }
  destruct Hg as [Ht Hs Hl]. destruct (Hl He) as (s & text & Hem & Hln & Hp).
  destruct (w_stack w) as [|frame stack] eqn:Est; cbn [position] in Hp.
  - destruct (w_started w); cbn [negb]; [exists (set_err w (Some "vibejson: second top-level token value without Newline"%string)); split; [done|by constructor]|]. subst text.
  apply Hw. constructor; try done. exists s, []. split_and!; [done|done|]. cbn. rewrite Est. constructor.
  - destruct Hp as [Hstd Hu]. assert (Hkind : fr_kind frame = "{"%ch \/ fr_kind frame = "["%ch) by (inversion Hu; subst; cbn; auto).
  destruct (Z.eqb_spec (fr_kind frame) "{"%ch) as [Hk|Hk]; cbn [negb].
  + destruct (fr_afterKey frame) eqn:Hak; cbn [negb]; [|eexists; split; [done|]; constructor; [done|done|discriminate]].
    apply Hw. constructor; try done. exists s, text. split_and!; [done|done|]. rewrite Est. destruct frame as [k n ak]. cbn in *. subst k ak. by constructor.
  + apply Hw. destruct Hkind as [|Hk']; [done|]. destruct frame as [k n ak]. cbn [fr_kind fr_members] in *. subst k.
    assert (ak = false) as -> by by inversion Hu.
    assert (Hr : ready (mkFrame "["%ch n false :: stack) (text ++ comma_if n)) by by apply rd_element.
    constructor; try by destruct (0 <? n)%nat. exists s, (text ++ comma_if n). rewrite emitted_comma, Hem, <- app_assoc.
    split_and!; [done|done|]. by destruct (0 <? n)%nat; cbn [append_buf set_buf w_stack]; rewrite Est.
Qed.
End Steps.

Lemma number_is_value s : jnumber s -> is_value s (TNum s).
Proof. intros H. exists 0. by constructor. Qed.
Lemma string_is_value s dec : jstring s dec -> is_value s (TStr s dec).
Proof. intros H. exists 0. by constructor. Qed.

(** What the caller promises: raw and pre-encoded texts are JSON values, strings
    are bytes, integers and nanoseconds have their Go ranges. *)
Definition op_ok {float} (o : op float) : Prop :=
  match o with
  | OpRaw v => exists t, is_value v t
  | OpKey s | OpString s => bytes_ok s
  | OpInt v => - 2 ^ 63 <= v < 2 ^ 63
  | OpUint v => 0 <= v < 2 ^ 64
  | OpTime t => 0 <= t_Nanosecond t < 10 ^ 9
  | OpEncode (inl d) => exists t, is_value d t
  | _ => True
  end.

Section Run.
Context (Write : list bytes -> bytes -> Z * option string) (spare : bytes -> bytes).
Context (float : Type) (appendJSONFloat : float -> bytes + string).
Context (Hfloat : forall v d, appendJSONFloat v = inl d -> jnumber d).

Lemma begin_array_answers w : at_value w ->
  answers (Ok (set_stack (append_buf w ["["%ch]) (mkFrame "["%ch 0 false :: w_stack w), None)).
Proof.
  intros [Ht Hs He Hstd (s & r & Hem & Hl & Hr)]. apply answers_ok; [by symmetry|]. constructor; [done..|]. intros _.
  exists s, (r ++ ["["%ch]). split_and!; [rewrite app_assoc, <- Hem; apply (emitted_append w)|done|]. cbn. split; [done|].
  apply (un_array _ r [] []); [done|by left].
Qed.

Lemma begin_object_answers w : at_value w ->
  answers (Ok (set_stack (append_buf w ["{"%ch]) (mkFrame "{"%ch 0 false :: w_stack w), None)).
Proof.
  intros [Ht Hs He Hstd (s & r & Hem & Hl & Hr)]. apply answers_ok; [by symmetry|]. constructor; [done..|]. intros _.
  exists s, (r ++ ["{"%ch]). split_and!; [rewrite app_assoc, <- Hem; apply (emitted_append w)|done|]. cbn. split; [done|].
  apply (un_object _ r [] []); [done|by left].
Qed.

(** The calls made outside a value position start alike. *)
Lemma live_answers w k : good w -> (w_err w = None -> answers k) ->
  answers (match w_err w with Some _ => Ok (w, w_err w) | None => k end).
Proof. intros Hg Hk. destruct (w_err w) as [e|] eqn:E; [|by apply Hk]. exists w. by rewrite E. Qed.

Lemma misuse_answers w err : good w -> answers (fail w err).
Proof. intros [Ht Hs _]. by apply fail_answers. Qed.

(** Closing a container is the end of the value its frame was opened for. *)
Lemma close_answers w frame stack c : good w -> w_err w = None -> w_stack w = frame :: stack ->
  (fr_kind frame = "{"%ch /\ fr_afterKey frame = false /\ c = "}"%ch \/ fr_kind frame = "["%ch /\ c = "]"%ch) ->
  answers (afterValue Write (append_buf (set_stack w stack) [c])).
Proof.
  intros [Ht Hs Hl] He Hst Hc. destruct (Hl He) as (s & text & Hem & Hln & Hp). rewrite Hst in Hp. destruct Hp as [Hstd Hu].
  assert (exists r v t, text ++ [c] = r ++ v /\ ready stack r /\ is_value v t) as (r & v & t & Htext & Hr & Hv).
  { inversion Hu as [stack' r body ts Hr Hb|stack' r body ms Hr Hb|]; subst; cbn [fr_kind fr_afterKey] in Hc.
  - destruct Hc as [(? & _)|[_ ->]]; [done|]. exists r. eexists _, _. split_and!; [by rewrite <- app_assoc|done|by apply array_closed].
  - destruct Hc as [(_ & _ & ->)|[? _]]; [|done]. exists r. eexists _, _. split_and!; [by rewrite <- app_assoc|done|by apply object_closed].
  - by destruct Hc as [(_ & ? & _)|[? _]]. }
  apply (afterValue_answers Write _ s r v t); try done. rewrite <- Htext, app_assoc, <- Hem. apply (emitted_append (set_stack w stack)).
Qed.

Lemma EndObject_answers w : good w -> answers (EndObject Write w).
Proof.
  intros Hg. unfold EndObject. apply live_answers; [done|]. intros He. destruct (w_stack w) as [|frame stack] eqn:Est; [by apply misuse_answers|].
  destruct (_ || _) eqn:E; [by apply misuse_answers|]. apply (close_answers w frame); try done. left.
  apply orb_false_iff in E as [E1 E2]. apply negb_false_iff, Z.eqb_eq in E1. done.
Qed.

Lemma EndArray_answers w : good w -> answers (EndArray Write w).
Proof.
  intros Hg. unfold EndArray. apply live_answers; [done|]. intros He. destruct (w_stack w) as [|frame stack] eqn:Est; [by apply misuse_answers|].
  destruct (negb _) eqn:E; [by apply misuse_answers|]. apply (close_answers w frame); try done. right.
  apply negb_false_iff, Z.eqb_eq in E. done.
Qed.

Lemma append_string_text w s : bytes_ok s -> exists raw, append_string spare w s = Ok (append_buf w raw) /\ jstring raw (sanitized s).
Proof.
  intros Hok. unfold append_string. destruct (appendEncodedJSONString _ _ _ _ _) as [out| | |] eqn:E; rewrite appendEncodedJSONString_ok in E by done; try done.
  rewrite <- appendEncodedJSONString_ok with (spare := spare (w_buf w)) (overlap := false) in E by done.
  destruct (appendEncoded_token _ _ _ _ _ _ Hok E) as (raw & -> & H). by exists raw.
Qed.

Lemma Key_answers w name : bytes_ok name -> good w -> answers (Key spare w name).
Proof.
  intros Hok Hg. unfold Key. apply live_answers; [done|]. intros He. destruct (w_stack w) as [|frame stack] eqn:Est; [by apply misuse_answers|].
  destruct (_ || _) eqn:E; [by apply misuse_answers|]. apply orb_false_iff in E as [E1 E2]. apply negb_false_iff, Z.eqb_eq in E1.
  destruct Hg as [Ht Hs Hl]. destruct (Hl He) as (s & text & Hem & Hln & Hp). rewrite Est in Hp. destruct Hp as [Hstd Hu].
  destruct frame as [k n ak]; cbn [fr_kind fr_afterKey fr_members] in *. subst k ak. cbv zeta.
  pose proof (emitted_comma w n) as Hc. set (w1 := if (0 <? n)%nat then _ else w) in *.
  assert (Hw1 : w_timeCache w1 = w_timeCache w /\ w_sent w1 = w_sent w /\ w_err w1 = None /\ w_started w1 = true) by by (subst w1; destruct (0 <? n)%nat).
  destruct Hw1 as (H1 & H2 & H3 & H4). clearbody w1.
  destruct (append_string_text w1 name Hok) as (raw & -> & Hraw). cbn [res_bind]. apply answers_ok; [by symmetry|].
  constructor; [cbn; congruence|cbn; congruence|]. intros _. inversion Hu as [|stack' r body ms Hr Hb|]; subst.
  exists s, (r ++ "{"%ch :: body ++ comma_if (length ms) ++ raw ++ [":"%ch]). split_and!; [|done|].
  - etransitivity; [apply (emitted_append (append_buf w1 raw))|]. rewrite emitted_append, Hc, Hem. repeat (rewrite <- !app_assoc; cbn [app]). done.
  - cbn. split; [done|]. by apply (un_key _ r body ms raw (sanitized name)).
Qed.

Lemma EncodeTo_answers w enc : (forall d, enc = inl d -> exists t, is_value d t) -> good w -> answers (EncodeTo Write w enc).
Proof.
  intros Henc Hg. unfold EncodeTo. apply live_answers; [done|]. intros He.
  destruct (w_stack w) as [|frame stack] eqn:Est; cbn [length Nat.eqb negb]; [|by apply misuse_answers].
  destruct (w_started w) eqn:Hst; [by apply misuse_answers|]. destruct enc as [d|err]; [|by apply misuse_answers].
  apply maybeFlush_answers; [|done|done]. destruct Hg as [Ht Hs Hl]. constructor; [done..|]. intros _.
  destruct (Hl He) as (s & text & Hem & Hln & Hp). rewrite Est, Hst in Hp. cbn in Hp. subst text. exists s, d.
  split_and!; [etransitivity; [apply (emitted_append w)|]; by rewrite Hem, app_nil_r|done|]. cbn. rewrite Est. by apply Henc.
Qed.

Lemma Newline_answers w : good w -> answers (Newline Write w).
Proof.
  intros Hg. unfold Newline. apply live_answers; [done|]. intros He.
  destruct (w_stack w) as [|frame stack] eqn:Est; cbn [length Nat.eqb negb]; [|by apply misuse_answers].
  apply maybeFlush_answers; [|done|done]. destruct Hg as [Ht Hs Hl]. constructor; [done..|]. intros _.
  destruct (Hl He) as (s & text & Hem & Hln & Hp). rewrite Est in Hp. cbn in Hp. exists (s ++ text ++ [10]), [].
  split_and!; [etransitivity; [apply (emitted_append w)|]; by rewrite Hem, <- app_assoc, app_nil_r| |by cbn; rewrite Est].
  destruct (w_started w); [destruct Hp as [t Hv]; by apply (ln_value s text t)|subst text; by apply ln_empty].
Qed.

Lemma Flush_answers w : good w -> answers (Flush Write w).
Proof.
  intros Hg. unfold Flush. apply live_answers; [done|]. intros He.
  destruct (w_stack w) as [|frame stack] eqn:Est; cbn [length Nat.eqb negb]; [by apply flush_answers|by apply misuse_answers].
Qed.

Lemma WriteTime_answers w t : 0 <= t_Nanosecond t < 10 ^ 9 -> at_value w ->
  answers (match AppendTimeCached (spare (w_buf w)) t (Some (w_timeCache w)) with
  | Err err => fail w err
  | Ok (d, cache) => afterValue Write (append_buf (set_time w (default (w_timeCache w) cache)) d)
  | Panic => Panic
  | NoFuel => NoFuel
  end).
Proof.
  intros Hn [Ht Hs He Hstd Htext]. destruct (memo_ok (spare (w_buf w)) t Hn (Some (w_timeCache w)) Ht) as (cache & Hc & ->).
  case_step; [|by apply fail_answers]. case_step; [|by apply fail_answers].
  destruct (whole_string t) as (body & _ & Hstr). apply (write_text Write (set_time w _) _ (TStr (whole t) body)); [|by apply string_is_value].
  constructor; try done. by destruct cache.
Qed.

(** Every call leaves a good state and answers with the sticky error. *)
Lemma step_answers w o : op_ok o -> good w ->
  exists w' e, step Write spare float appendJSONFloat w o = Ok (w', e) /\ good w' /\ (e = w_err w' \/ exists escape, o = OpEscapeHTML escape).
Proof.
  intros Hok Hg.
  assert (Hans : forall r, answers r -> exists w' e, r = Ok (w', e) /\ good w' /\ (e = w_err w' \/ exists escape, o = OpEscapeHTML escape)).
  { intros r (w' & -> & Hw'). exists w', (w_err w'). by split_and!; [..|left]. }
  destruct o as [v| | | | |name|s|v|v|v|v| |t|enc| | | |escape]; cbn [step op_ok] in *;
  [apply Hans..|].
  - apply value_method_answers; [done|]. intros w' Hw. destruct Hok as [t Ht]. by apply (write_text _ _ _ t).
  - apply value_method_answers; [done|]. intros w' Hw. by apply begin_object_answers.
  - by apply EndObject_answers.
  - apply value_method_answers; [done|]. intros w' Hw. by apply begin_array_answers.
  - by apply EndArray_answers.
  - by apply Key_answers.
  - apply value_method_answers; [done|]. intros w' Hw. destruct (append_string_text w' s Hok) as (raw & -> & Hraw).
  apply (write_text _ _ _ (TStr raw (sanitized s))); [done|by apply string_is_value].
  - apply value_method_answers; [done|]. intros w' Hw. rewrite appendCompactInt_ok by done.
  apply (write_text _ _ _ (TNum (FormatInt v))); [done|]. apply number_is_value, FormatInt_number. lia.
  - apply value_method_answers; [done|]. intros w' Hw. rewrite appendCompactUint_ok by done.
  apply (write_text _ _ _ (TNum (FormatUint v))); [done|]. apply number_is_value. pose proof (FormatInt_number v ltac:(lia)) as [Hj _].
  unfold FormatInt in Hj. by rewrite if_false in Hj by lia.
  - apply value_method_answers; [done|]. intros w' Hw. destruct (appendJSONFloat v) as [d|err] eqn:E.
  + apply (write_text _ _ _ (TNum d)); [done|]. by apply number_is_value, (Hfloat v).
  + destruct Hw. by apply fail_answers.
  - apply value_method_answers; [done|]. intros w' Hw. apply (write_text _ _ _ (TBool v)); [done|].
  exists 0. destruct v; by constructor.
  - apply value_method_answers; [done|]. intros w' Hw. apply (write_text _ _ _ TNull); [done|]. exists 0. by constructor.
  - apply value_method_answers; [done|]. intros w' Hw. by apply WriteTime_answers.
  - apply EncodeTo_answers; [|done]. by intros d ->.
  - by apply Newline_answers.
  - by apply Flush_answers.
  - by apply Flush_answers.
  - exists (SetEscapeHTML w escape), None. split_and!; [done| |by right; exists escape].
  destruct Hg. by constructor.
Qed.

Lemma run_good w ops : Forall op_ok ops -> good w -> exists w', run Write spare float appendJSONFloat w ops = Ok w' /\ good w'.
Proof.
  intros Hok. revert w. induction Hok as [|o ops Ho _ IH]; intros w Hg; [by exists w|].
  destruct (step_answers w o Ho Hg) as (w' & e & E & Hg' & _). cbn [run]. rewrite E. cbn [res_bind]. by apply IH.
Qed.

(** After an error nothing changes but the escaping flag. *)
Lemma stuck_step w o : w_err w <> None -> exists w' e, step Write spare float appendJSONFloat w o = Ok (w', e) /\
  w_err w' = w_err w /\ w_sent w' = w_sent w.
Proof.
  intros He. destruct (w_err w) as [err|] eqn:E; [|done].
  destruct o; cbn [step]; unfold RawUnchecked, BeginObject, BeginArray, EndObject, EndArray, Key, String, Int, Uint, Float64, Bool, Null,
  WriteTime, EncodeTo, Newline, Close, Flush, value_method, beforeValue; rewrite ?E; cbn [negb]; by eexists _, _.
Qed.

Lemma run_stuck ops : forall w w', w_err w <> None -> run Write spare float appendJSONFloat w ops = Ok w' ->
  w_err w' = w_err w /\ w_sent w' = w_sent w.
Proof.
  induction ops as [|o ops IH]; intros w w' He; cbn [run]; [by intros [= <-]|].
  destruct (stuck_step w o He) as (w1 & e & -> & H1 & H2). cbn [res_bind]. intros Hr. destruct (IH w1 w') as [H3 H4]; [congruence|done|]. split; congruence.
Qed.
End Run.

(** ** Writing a structured value *)

Inductive item : Type :=
  | INull | IBool (b : bool) | IInt (v : Z) | IUint (v : Z) | IString (s : bytes)
  | IArray (l : list item) | IObject (l : list (bytes * item)).

Lemma item_induction (P : item -> Prop) :
  P INull -> (forall b, P (IBool b)) -> (forall v, P (IInt v)) -> (forall v, P (IUint v)) -> (forall s, P (IString s)) ->
  (forall l, Forall P l -> P (IArray l)) -> (forall l, Forall (fun m => P m.2) l -> P (IObject l)) -> forall v, P v.
Proof.
  intros Hn Hb Hi Hu Hs Ha Ho. fix IH 1. intros [|b|v|v|s|l|l].
  - apply Hn.
  - apply Hb.
  - apply Hi.
  - apply Hu.
  - apply Hs.
  - apply Ha. induction l as [|x l IHl]; [constructor|]. constructor; [apply IH|apply IHl].
  - apply Ho. induction l as [|x l IHl]; [constructor|]. constructor; [apply IH|apply IHl].
Qed.

(** The calls that write an item. *)
Fixpoint calls {float} (v : item) : list (op float) :=
  match v with
  | INull => [OpNull]
  | IBool b => [OpBool b]
  | IInt v => [OpInt v]
  | IUint v => [OpUint v]
  | IString s => [OpString s]
  | IArray l => OpBeginArray :: concat (map calls l) ++ [OpEndArray]
  | IObject l => OpBeginObject :: concat (map (fun m => OpKey m.1 :: calls m.2) l) ++ [OpEndObject]
  end.

(** Parts with a comma before each but the first of a container. *)
Fixpoint parts (n : nat) (l : list bytes) : bytes :=
  match l with [] => [] | x :: l => comma_if n ++ x ++ parts (S n) l end.

Definition quoted (h : bool) (s : bytes) : bytes := DQUOTE :: encoded h s ++ [DQUOTE].

(** The compact text of an item. *)
Fixpoint render (h : bool) (v : item) : bytes :=
  match v with
  | INull => lit_null
  | IBool b => if b then lit_true else lit_false
  | IInt v | IUint v => FormatInt v
  | IString s => quoted h s
  | IArray l => "["%ch :: parts 0 (map (render h) l) ++ ["]"%ch]
  | IObject l => "{"%ch :: parts 0 (map (fun m => quoted h m.1 ++ ":"%ch :: render h m.2) l) ++ ["}"%ch]
  end.

Fixpoint item_ok (v : item) : Prop :=
  match v with
  | INull | IBool _ => True
  | IInt v => - 2 ^ 63 <= v < 2 ^ 63
  | IUint v => 0 <= v < 2 ^ 64
  | IString s => bytes_ok s
  | IArray l => Forall id (map item_ok l)
  | IObject l => Forall id (map (fun m => bytes_ok m.1 /\ item_ok m.2) l)
  end.

(** The tree of a text that spells an item; invalid UTF-8 reads back replaced. *)
Inductive spells : item -> tree -> Prop :=
  | sp_null : spells INull TNull
  | sp_bool b : spells (IBool b) (TBool b)
  | sp_int v raw : int_value raw = v -> plain_integer raw = true -> spells (IInt v) (TNum raw)
  | sp_uint v raw : int_value raw = v -> plain_integer raw = true -> spells (IUint v) (TNum raw)
  | sp_string s raw : spells (IString s) (TStr raw (sanitized s))
  | sp_array l raw ts : Forall2 spells l ts -> spells (IArray l) (TArr raw ts)
  | sp_object l raw ms : Forall2 (fun m n => n.1.2 = sanitized m.1 /\ spells m.2 n.2) l ms -> spells (IObject l) (TObj raw ms).

Lemma quoted_string h s : bytes_ok s -> jstring (quoted h s) (sanitized s).
Proof. intros Hok. constructor. by apply encoded_spelled. Qed.

Lemma int_item v : - 2 ^ 63 <= v < 2 ^ 64 -> is_value (FormatInt v) (TNum (FormatInt v)).
Proof. intros H. apply number_is_value. by apply FormatInt_number. Qed.

(** The compact text is a JSON value that spells the item. *)
Lemma render_spells h v : item_ok v -> exists t, is_value (render h v) t /\ spells v t.
Proof.
  induction v as [|b|v|v|s|l IH|l IH] using item_induction; cbn [item_ok]; intros Hok.
  - exists TNull. split; [exists 0; by constructor|constructor].
  - exists (TBool b). split; [exists 0; destruct b; by constructor|constructor].
  - exists (TNum (FormatInt v)). split; [by apply int_item; lia|]. constructor; apply FormatInt_number; lia.
  - exists (TNum (FormatInt v)). split; [by apply int_item; lia|]. constructor; apply FormatInt_number; lia.
  - exists (TStr (quoted h s) (sanitized s)). split; [by apply string_is_value, quoted_string|constructor].
  - assert (Hall : forall body us n, elems_so_far body us -> length us = n -> exists ts,
      elems_so_far (body ++ parts n (map (render h) l)) (us ++ ts) /\ Forall2 spells l ts).
    { induction IH as [|x l IHx _ IHl]; intros body us n Hb Hn; cbn [map parts].
      - exists []. rewrite !app_nil_r. split; [done|constructor].
      - apply Forall_cons_1 in Hok as [Hx Hl]. destruct (IHx Hx) as (t & Ht & Hs).
        destruct (IHl Hl (body ++ comma_if n ++ render h x) (us ++ [t]) (S n)) as (ts & Hts & Hsp).
        { rewrite <- Hn. by apply elems_add. }
        { rewrite length_app, Hn. simpl. lia. }
        exists (t :: ts). split; [|by constructor]. by rewrite <- !app_assoc in Hts. }
    destruct (Hall [] [] 0%nat) as (ts & Hts & Hsp); [by left|done|]. eexists. split; [by apply array_closed|by constructor].
  - assert (Hall : forall body us n, members_so_far body us -> length us = n -> exists ms,
      members_so_far (body ++ parts n (map (fun m => quoted h m.1 ++ ":"%ch :: render h m.2) l)) (us ++ ms) /\
      Forall2 (fun m n => n.1.2 = sanitized m.1 /\ spells m.2 n.2) l ms).
    { induction IH as [|[k x] l IHx _ IHl]; intros body us n Hb Hn; cbn [map parts fst snd].
      - exists []. rewrite !app_nil_r. split; [done|constructor].
      - apply Forall_cons_1 in Hok as [[Hk Hx] Hl]. cbn [fst snd] in *. destruct (IHx Hx) as (t & Ht & Hs).
        destruct (IHl Hl (body ++ comma_if n ++ quoted h k ++ [":"%ch] ++ render h x) (us ++ [((quoted h k, sanitized k), t)]) (S n)) as (ts & Hts & Hsp).
        { rewrite <- Hn. apply members_add; [done|by apply quoted_string|done]. }
        { rewrite length_app, Hn. simpl. lia. }
        exists (((quoted h k, sanitized k), t) :: ts). split; [|by constructor].
        repeat (rewrite <- !app_assoc in Hts; cbn [app] in Hts). by repeat (rewrite <- !app_assoc; cbn [app]). }
    destruct (Hall [] [] 0%nat) as (ts & Hts & Hsp); [by left|done|]. eexists. split; [by apply object_closed|by constructor].
Qed.

Section Writing.
Context (Write : list bytes -> bytes -> Z * option string) (spare : bytes -> bytes).
Context (float : Type) (appendJSONFloat : float -> bytes + string).

Let runw : Writer -> list (op float) -> res unit Writer := run Write spare float appendJSONFloat.

Lemma run_app w a b : runw w (a ++ b) = let* w := runw w a in runw w b.
Proof.
  revert w. induction a as [|o a IH]; intros w; [done|]. unfold runw in *. cbn [app run].
  destruct (step _ _ _ _ w o) as [[w' e]| | |]; cbn [res_bind]; [apply IH|done..].
Qed.

Lemma append_append w a b : append_buf (append_buf w a) b = append_buf w (a ++ b).
Proof. unfold append_buf, set_buf. cbn. by rewrite app_assoc. Qed.

Lemma string_run w s : bytes_ok s -> append_string spare w s = Ok (append_buf w (quoted (w_escapeHTML w) s)).
Proof. intros Hok. unfold append_string. by rewrite appendEncodedJSONString_ok. Qed.

(** Where a value may be written the writer has no error and the same stack. *)
Lemma beforeValue_same w w1 : beforeValue w = (w1, true) ->
  w_err w1 = None /\ w_stack w1 = w_stack w /\ w_escapeHTML w1 = w_escapeHTML w.
Proof.
  unfold beforeValue. destruct (w_err w) eqn:E; [done|]. destruct (w_stack w) as [|f st] eqn:Est; repeat case_step; intros [= <-]; by rewrite <- ?Est.
Qed.

Definition after (r : call) (ops : list (op float)) : res unit Writer := let* (w, _) := r in runw w ops.

(** Inside a container: a part leads to the state after its text. *)
Definition part_done (w : Writer) (n : nat) (frame : streamFrame) (stack : list streamFrame) (text : bytes) : Writer :=
  set_stack (append_buf w text) (mkFrame (fr_kind frame) n false :: stack).

Lemma element_before w n stack : w_err w = None -> w_stack w = mkFrame "["%ch n false :: stack ->
  beforeValue w = (append_buf w (comma_if n), true).
Proof.
  intros He Hs. unfold beforeValue. rewrite He, Hs. cbn [fr_kind fr_members]. unfold comma_if. case_step; [done|].
  case_step; [done|]. unfold append_buf, set_buf. rewrite app_nil_r. by destruct w.
Qed.

(** Writing an item is [beforeValue], its text and [afterValue]. *)
Definition writes (v : item) : Prop := forall ops w w1, item_ok v -> beforeValue w = (w1, true) ->
  runw w (calls v ++ ops) = after (afterValue Write (append_buf w1 (render (w_escapeHTML w) v))) ops.

Lemma no_part w n k stack : w_stack w = mkFrame k n false :: stack -> part_done w n (mkFrame k n false) stack [] = w.
Proof. intros H. destruct w. cbn in *. subst. unfold part_done, append_buf. cbn. by rewrite app_nil_r. Qed.

Lemma part_part w n m k stack a b : part_done (part_done w n k stack a) m k stack b = part_done w m k stack (a ++ b).
Proof. unfold part_done, append_buf. cbn. by rewrite app_assoc. Qed.

Lemma elements_run l : Forall writes l -> forall ops n w stack, Forall id (map item_ok l) -> w_err w = None ->
  w_stack w = mkFrame "["%ch n false :: stack ->
  runw w (concat (map calls l) ++ ops) =
  runw (part_done w (n + length l) (mkFrame "["%ch n false) stack (parts n (map (render (w_escapeHTML w)) l))) ops.
Proof.
  induction 1 as [|x l Hx _ IH]; intros ops n w stack Hok He Hst; cbn [map concat parts length app].
  - by rewrite Nat.add_0_r, no_part.
  - apply Forall_cons_1 in Hok as [Hok Hl]. rewrite <- app_assoc. rewrite (Hx _ w _ Hok (element_before w n stack He Hst)).
  unfold after, afterValue. rewrite append_append. cbn [w_stack append_buf set_buf]. rewrite Hst. cbn [res_bind fr_kind fr_members].
  rewrite (IH ops (S n) _ stack Hl); [|done|done]. f_equal. unfold part_done. cbn. unfold append_buf, set_buf, set_stack. cbn.
  f_equal; [by rewrite <- !app_assoc|]. do 2 f_equal. lia.
Qed.

Lemma Key_run w name n stack : bytes_ok name -> w_err w = None -> w_stack w = mkFrame "{"%ch n false :: stack ->
  Key spare w name =
  Ok (set_stack (append_buf w (comma_if n ++ quoted (w_escapeHTML w) name ++ [":"%ch])) (mkFrame "{"%ch n true :: stack), None).
Proof.
  intros Hok He Hst. unfold Key. rewrite He, Hst. cbn [fr_kind fr_members fr_afterKey negb orb]. rewrite Z.eqb_refl. cbn [negb orb]. cbv zeta.
  rewrite string_run by done. cbn [res_bind]. unfold comma_if. case_step.
  - rewrite !append_append. done.
  - by rewrite append_append.
Qed.

Lemma members_run l : Forall (fun m => writes m.2) l -> forall ops n w stack, Forall id (map (fun m => bytes_ok m.1 /\ item_ok m.2) l) ->
  w_err w = None -> w_stack w = mkFrame "{"%ch n false :: stack ->
  runw w (concat (map (fun m => OpKey m.1 :: calls m.2) l) ++ ops) =
  runw (part_done w (n + length l) (mkFrame "{"%ch n false) stack
  (parts n (map (fun m => quoted (w_escapeHTML w) m.1 ++ ":"%ch :: render (w_escapeHTML w) m.2) l))) ops.
Proof.
  induction 1 as [|[k x] l Hx _ IH]; intros ops n w stack Hok He Hst; cbn [map concat parts length app fst snd].
  - by rewrite Nat.add_0_r, no_part.
  - apply Forall_cons_1 in Hok as [[Hk Hok] Hl]. cbn [fst snd] in *. rewrite <- app_assoc.
  transitivity (runw (set_stack (append_buf w (comma_if n ++ quoted (w_escapeHTML w) k ++ [":"%ch])) (mkFrame "{"%ch n true :: stack))
    (calls x ++ (concat (map (fun m => OpKey m.1 :: calls m.2) l) ++ ops))).
  { unfold runw at 1. cbn [run step]. by rewrite (Key_run w k n stack). }
  rewrite (Hx _ _ (set_stack (append_buf w (comma_if n ++ quoted (w_escapeHTML w) k ++ [":"%ch])) (mkFrame "{"%ch n true :: stack)) Hok).
  2:{ unfold beforeValue. cbn. by rewrite He. }
  unfold after, afterValue. cbn [w_stack append_buf set_buf set_stack res_bind fr_kind fr_members].
  rewrite (IH ops (S n) _ stack Hl); [|done|done]. f_equal. unfold part_done. cbn. unfold append_buf, set_buf, set_stack. cbn.
  f_equal; [by repeat (rewrite <- !app_assoc; cbn [app])|]. do 2 f_equal. lia.
Qed.

Lemma calls_run v : writes v.
Proof.
  unfold writes. induction v as [|b|v|v|s|l IH|l IH] using item_induction; cbn [item_ok]; intros ops w w1 Hok Hb;
  destruct (beforeValue_same w w1 Hb) as (He & Hst & Hh); cbn [calls app].
  1-5: unfold runw, after, step, Null, Bool, Int, Uint, String, value_method; cbn [run step].
  1-5: unfold Null, Bool, Int, Uint, String, value_method; rewrite Hb; cbn [negb].
  - done.
  - by destruct b.
  - rewrite appendCompactInt_ok by done. done.
  - rewrite appendCompactUint_ok by done. cbn [res_bind render]. unfold FormatInt. by rewrite if_false by lia.
  - rewrite string_run by done. cbn [res_bind]. by rewrite Hh.
  - unfold runw at 1. cbn [run step]. unfold BeginArray, value_method. rewrite Hb. cbn [negb res_bind]. fold runw. rewrite <- app_assoc.
  rewrite (elements_run l IH _ 0 _ (w_stack w1) Hok); [|done|done]. cbn [render].
  unfold runw, after. cbn [app run step]. unfold EndArray. cbn. rewrite He. cbn. unfold after, append_buf, set_buf, set_stack. cbn.
  rewrite Hh. by repeat (rewrite <- !app_assoc; cbn [app]).
  - unfold runw at 1. cbn [run step]. unfold BeginObject, value_method. rewrite Hb. cbn [negb res_bind]. fold runw. rewrite <- app_assoc.
  rewrite (members_run l IH _ 0 _ (w_stack w1) Hok); [|done|done]. cbn [render].
  unfold runw, after. cbn [app run step]. unfold EndObject. cbn. rewrite He. cbn. unfold after, append_buf, set_buf, set_stack. cbn.
  rewrite Hh. by repeat (rewrite <- !app_assoc; cbn [app]).
Qed.
End Writing.

(** A sink that takes everything. *)
Definition accepting (sent : list bytes) (p : bytes) : Z * option string := (Z.of_nat (length p), None).

Lemma accepted_flush w : w_err w = None -> exists sent,
  flush accepting w = Ok (set_buf (set_sent w sent) [], None) /\ concat sent = emitted w.
Proof.
  intros He. unfold flush, emitted. case_step.
  - exists (w_sent w). assert (Hb : w_buf w = []) by by destruct (w_buf w). rewrite Hb, app_nil_r. split; [|done]. by destruct w; cbn in *; subst.
  - unfold accepting. rewrite Z.eqb_refl. cbn [negb]. exists (w_sent w ++ [w_buf w]). split; [done|]. rewrite concat_app. cbn. by rewrite app_nil_r.
Qed.

Lemma accepted_end w : w_err w = None -> w_stack w = [] -> exists w',
  afterValue accepting w = Ok (w', None) /\ maybeFlush accepting w = Ok (w', None) /\ w_err w' = None /\ w_stack w' = [] /\
  w_started w' = w_started w /\ w_escapeHTML w' = w_escapeHTML w /\ emitted w' = emitted w.
Proof.
  intros He Hs. unfold afterValue. rewrite Hs. unfold maybeFlush. case_step; [by exists w|].
  destruct (accepted_flush w He) as (sent & -> & H). eexists. split_and!; try done. unfold emitted at 1. cbn. by rewrite app_nil_r.
Qed.

(** ** Theorems *)

(** C28: Whatever sequence of method calls a program makes on a fresh streaming writer, as long as the texts it hands to RawUnchecked and those the encoder of EncodeTo appends are JSON values and the float formatter gives JSON numbers, and however the sink answers, no method panics, the sink is only ever handed complete lines and at most one complete value after the last line feed, an error stops all further output, and without an error the text produced so far is exactly the opening of a JSON text that the stack of open containers describes. *)
Theorem writer_emits_complete_values Write spare float appendJSONFloat size ops more :
  (forall v d, appendJSONFloat v = inl d -> jnumber d) -> Forall op_ok (ops ++ more) ->
  exists w w', run Write spare float appendJSONFloat (newWriterWithFlushThreshold size) ops = Ok w /\
    settled (concat (w_sent w)) /\
    (w_err w = None -> exists done text, emitted w = done ++ text /\ lines done /\ position (w_stack w) (w_started w) text) /\
    run Write spare float appendJSONFloat w more = Ok w' /\
    (w_err w <> None -> w_err w' = w_err w /\ w_sent w' = w_sent w).
Proof.
  intros Hf Hok. apply Forall_app in Hok as [Hok Hmore].
  destruct (run_good Write spare float appendJSONFloat Hf _ ops Hok (new_good size)) as (w & Hrun & Hg).
  destruct (run_good Write spare float appendJSONFloat Hf w more Hmore Hg) as (w' & Hrun' & _).
  exists w, w'. split_and!; [done|apply Hg|apply Hg|done|]. intros He. by apply (run_stuck Write spare float appendJSONFloat more).
Qed.

(** A formatter for the whole numbers below 2^53, and a sink that fails at its second call. *)
Definition whole_float (v : Z) : bytes + string :=
  if (0 <=? v) && (v <? 2 ^ 53) then inl (FormatInt v) else inr "unsupported float value"%string.
Definition full_disk (sent : list bytes) (p : bytes) : Z * option string :=
  if (length sent =? 0)%nat then (Z.of_nat (length p), None) else (0, Some "disk full"%string).

Lemma writer_emits_complete_values_witness :
  let ops := [OpBeginObject; OpKey (bs "a"); OpBeginArray; OpInt (-7); OpFloat 12; OpEndArray; OpEndObject; OpNewline; OpFlush; OpNull; OpClose] in
  let more := [OpNewline; OpBool true; OpFlush] in
  exists w w', run full_disk (fun _ => []) Z whole_float (newWriterWithFlushThreshold 0) ops = Ok w /\
    settled (concat (w_sent w)) /\
    (w_err w = None -> exists done text, emitted w = done ++ text /\ lines done /\ position (w_stack w) (w_started w) text) /\
    run full_disk (fun _ => []) Z whole_float w more = Ok w' /\
    (w_err w <> None -> w_err w' = w_err w /\ w_sent w' = w_sent w).
Proof.
  intros ops more. apply (writer_emits_complete_values full_disk (fun _ => []) Z whole_float 0 ops more).
  - unfold whole_float. intros v d. case_step; intros [= <-]. apply FormatInt_number. lia.
  - repeat constructor; simpl; try lia; concrete_bytes.
Defined.

Lemma whole_run : run full_disk (fun _ => []) Z whole_float (newWriterWithFlushThreshold 0)
    [OpBeginObject; OpKey (bs "a"); OpBeginArray; OpInt (-7); OpFloat 12; OpEndArray; OpEndObject; OpNewline; OpFlush; OpNull; OpClose] =
  Ok (mkWriter [js "{'a':[-7,12]}" ++ [10]; bs "null"] (bs "null") 512 (Some "disk full"%string) true noTimeCache [] true).
Proof. vm_compute. reflexivity. Qed.

(** C29: Writing any nested value of null, booleans, integers, strings, arrays and objects token by token into a sink that accepts its input succeeds for every flush threshold: the sink receives exactly the compact text of the value, which is a JSON value whose tree spells the same members, elements, integers and strings *)
Theorem writer_writes_value spare float appendJSONFloat size escapeHTML v :
  item_ok v ->
  exists w t, run accepting spare float appendJSONFloat (newWriterWithFlushThreshold size) (OpEscapeHTML escapeHTML :: calls v ++ [OpClose]) = Ok w /\
    w_err w = None /\ w_buf w = [] /\ concat (w_sent w) = render escapeHTML v /\ is_value (render escapeHTML v) t /\ spells v t.
Proof.
  intros Hok. destruct (render_spells escapeHTML v Hok) as (t & Ht & Hs).
  set (w0 := SetEscapeHTML (newWriterWithFlushThreshold size) escapeHTML).
  cbn [run step res_bind]. fold w0. rewrite (calls_run accepting spare float appendJSONFloat v [OpClose] w0 (set_started w0 true) Hok ltac:(done)).
  destruct (accepted_end (append_buf (set_started w0 true) (render (w_escapeHTML w0) v))) as (w1 & E & _ & He & Hst & _ & _ & Hem); [done|done|].
  unfold after. rewrite E. cbn [res_bind run step]. unfold Close, Flush. rewrite He, Hst. cbn [length Nat.eqb negb].
  destruct (accepted_flush w1 He) as (sent & -> & Hsent). cbn [res_bind]. eexists _, t. split_and!; [done|done|done| |done|done].
  cbn. by rewrite Hsent, Hem.
Qed.

Lemma writer_writes_value_witness :
  let v := IObject [(bs "id", IUint 7); (bs "l", IArray [INull; IBool true; IInt (-1); IString (bs "<")])] in
  exists w t, run accepting (fun _ => []) Z whole_float (newWriterWithFlushThreshold 0) (OpEscapeHTML true :: calls v ++ [OpClose]) = Ok w /\
    w_err w = None /\ w_buf w = [] /\ concat (w_sent w) = render true v /\ is_value (render true v) t /\ spells v t.
Proof.
  intros v. apply (writer_writes_value (fun _ => []) Z whole_float 0 true v).
  repeat constructor; simpl; try lia; concrete_bytes.
Defined.
