(* ===== verification/Framing.v ===== *)
(** [ValueFrame] of [stream_reader.go]: the state that finds the end of a value
    across refills, and its theory: the frame read a byte at a time, where the
    frame of each kind of value ends, and what a window of a text decides about
    the text's first value. *)

From S2P Require Import Prelude Words Utf8 Scanner Lex Grammar StringRef Errors Numbers Reader Validator FastValid.

(** ** Framing *)

Inductive frame_mode : Type := frameContainer | frameString | frameNumber | frameLiteral.

Record ValueFrame : Type := mkValueFrame {
  f_mode : frame_mode; f_depth : Z; f_inStr : bool; f_esc : bool; f_numE : bool; f_litLeft : Z; Framed : nat }.

Definition set_esc (f : ValueFrame) (esc : bool) : ValueFrame :=
  mkValueFrame (f_mode f) (f_depth f) (f_inStr f) esc (f_numE f) (f_litLeft f) (Framed f).
Definition set_inStr (f : ValueFrame) (inStr : bool) : ValueFrame :=
  mkValueFrame (f_mode f) (f_depth f) inStr (f_esc f) (f_numE f) (f_litLeft f) (Framed f).
Definition set_depth (f : ValueFrame) (depth : Z) : ValueFrame :=
  mkValueFrame (f_mode f) depth (f_inStr f) (f_esc f) (f_numE f) (f_litLeft f) (Framed f).
Definition set_numE (f : ValueFrame) (numE : bool) : ValueFrame :=
  mkValueFrame (f_mode f) (f_depth f) (f_inStr f) (f_esc f) numE (f_litLeft f) (Framed f).
Definition set_litLeft (f : ValueFrame) (litLeft : Z) : ValueFrame :=
  mkValueFrame (f_mode f) (f_depth f) (f_inStr f) (f_esc f) (f_numE f) litLeft (Framed f).
Definition set_Framed (f : ValueFrame) (framed : nat) : ValueFrame :=
  mkValueFrame (f_mode f) (f_depth f) (f_inStr f) (f_esc f) (f_numE f) (f_litLeft f) framed.

Definition Init (c : Z) : ValueFrame :=
  let f mode depth litLeft := mkValueFrame mode depth false false false litLeft 1 in
  if c =? DQUOTE then f frameString 0 0
  else if (c =? "{"%ch) || (c =? "["%ch) then f frameContainer 1 0
  else if (c =? "t"%ch) || (c =? "n"%ch) then f frameLiteral 0 3
  else if c =? "f"%ch then f frameLiteral 0 4
  else f frameNumber 0 0.

Section Scan.
(** The bytes of the buffer that are valid: [src[:n]]. *)
Context (src : bytes).
Abbreviation n := (length src).

Fixpoint scanStringBody (fuel : nat) (f : ValueFrame) (i : nat) : res unit (ValueFrame * nat * bool) :=
  match fuel with
  | O => NoFuel
  | S fuel =>
      if (n <=? i)%nat then Ok (f, i, false)
      else if f_esc f then scanStringBody fuel (set_esc f false) (S i)
      else
        let j := scanStringSpecial src i in
        match src !! j with
        | None => Ok (f, n, false)
        | Some c =>
            if c =? DQUOTE then Ok (f, S j, true)
            else if c =? BSLASH then scanStringBody fuel (set_esc f true) (S j)
            else scanStringBody fuel f (S j)
        end
  end.

(** The number loop: the position, and whether a byte ended the number. *)
Fixpoint scan_number_frame (fuel : nat) (f : ValueFrame) (i : nat) : res unit (ValueFrame * nat * bool) :=
  match fuel with
  | O => NoFuel
  | S fuel =>
      match src !! i with
      | None => Ok (f, i, false)
      | Some c =>
          if IsDigit c || (c =? "."%ch) then scan_number_frame fuel (set_numE f false) (S i)
          else if (c =? "e"%ch) || (c =? "E"%ch) then scan_number_frame fuel (set_numE f true) (S i)
          else if (c =? "+"%ch) || (c =? "-"%ch) then
            if negb (f_numE f) then Ok (f, i, true) else scan_number_frame fuel (set_numE f false) (S i)
          else Ok (f, i, true)
      end
  end.

Fixpoint scan_literal_frame (fuel : nat) (f : ValueFrame) (i : nat) : res unit (ValueFrame * nat * bool) :=
  match fuel with
  | O => NoFuel
  | S fuel =>
      if (i <? n)%nat && (0 <? f_litLeft f) then scan_literal_frame fuel (set_litLeft f (f_litLeft f - 1)) (S i)
      else Ok (f, i, f_litLeft f =? 0)
  end.

Fixpoint scan_container_frame (fuel : nat) (f : ValueFrame) (i : nat) : res unit (ValueFrame * nat * bool) :=
  match fuel with
  | O => NoFuel
  | S fuel =>
      match src !! i with
      | None => Ok (f, i, false)
      | Some c =>
          if f_inStr f then
            let* (f, i, done) := scanStringBody (S n) f i in
            scan_container_frame fuel (if (done : bool) then set_inStr f false else f) i
          else if c =? DQUOTE then scan_container_frame fuel (set_inStr f true) (S i)
          else if (c =? "{"%ch) || (c =? "["%ch) then scan_container_frame fuel (set_depth f (f_depth f + 1)) (S i)
          else if (c =? "}"%ch) || (c =? "]"%ch) then
            let f := set_depth f (f_depth f - 1) in
            if f_depth f =? 0 then Ok (f, S i, true) else scan_container_frame fuel f (S i)
          else scan_container_frame fuel f (S i)
      end
  end.

(** [Scan]: advance the frame of the value at [start]. *)
Definition Scan (f : ValueFrame) (start : nat) : res unit (ValueFrame * bool) :=
  let i := (start + Framed f)%nat in
  let* (f, i, done) :=
    match f_mode f with
    | frameString => scanStringBody (S n) f i
    | frameNumber => scan_number_frame (S n) f i
    | frameLiteral => scan_literal_frame (S n) f i
    | frameContainer => scan_container_frame (S n) f i
    end in
  Ok (set_Framed f (i - start)%nat, done).
End Scan.

(** [validRootValueFast]: the caller supplies the byte at [i]. *)
Definition validRootValueFast (src : bytes) (i : nat) (c : Z) : res unit (nat * bool) :=
  validValueFast src (S (length src)) i c 0.

Definition terminalValueNeedsSourceBoundary (leading : Z) : bool :=
  negb ((leading =? "{"%ch) || (leading =? "["%ch) || (leading =? DQUOTE) || (leading =? "n"%ch) ||
        (leading =? "t"%ch) || (leading =? "f"%ch)).

(** ** Numbers are read locally *)

(** Two positions agree on the next [d + 1] bytes, ends of input included. *)
Definition agree (d : nat) (s1 : bytes) (i1 : nat) (s2 : bytes) (i2 : nat) : Prop :=
  forall p, (p <= d)%nat -> s1 !! (i1 + p)%nat = s2 !! (i2 + p)%nat.

Lemma agree_here d s1 i1 s2 i2 : agree d s1 i1 s2 i2 -> s1 !! i1 = s2 !! i2.
Proof. intros H. specialize (H 0%nat ltac:(lia)). by rewrite !Nat.add_0_r in H. Qed.

Lemma agree_shift d k s1 i1 s2 i2 : agree d s1 i1 s2 i2 -> (k <= d)%nat -> agree (d - k) s1 (i1 + k) s2 (i2 + k).
Proof. intros H Hk p Hp. rewrite <- !Nat.add_assoc. apply H. lia. Qed.

Lemma agree_next d s1 i1 s2 i2 : agree (S d) s1 i1 s2 i2 -> agree d s1 (S i1) s2 (S i2).
Proof. intros H p Hp. specialize (H (S p) ltac:(lia)). by rewrite !Nat.add_succ_r in H. Qed.

Definition end_of (r : nat + nat) : nat := match r with inl j | inr j => j end.
Definition move (i1 i2 : nat) (r : nat + nat) : nat + nat :=
  match r with inl j => inl (i2 + (j - i1))%nat | inr j => inr (i2 + (j - i1))%nat end.

Lemma advance_agree p d s1 i1 s2 i2 : advance p s1 i1 = (i1 + d)%nat -> agree d s1 i1 s2 i2 -> advance p s2 i2 = (i2 + d)%nat.
Proof.
  revert i1 i2. induction d as [|d IH]; intros i1 i2 Ha Hg; pose proof (agree_here _ _ _ _ _ Hg) as H0; rewrite advance_unfold, <- H0; rewrite advance_unfold in Ha.
  - destruct (s1 !! i1) as [c|] eqn:E; [|lia]. apply lookup_lt_Some in E. destruct (p c); [|lia].
    pose proof (advance_le p s1 (S i1) ltac:(lia)). lia.
  - destruct (s1 !! i1) as [c|]; [|lia]. destruct (p c); [|lia]. rewrite (IH (S i1)); [lia|lia|by apply agree_next].
Qed.

(** What a scanning step promises: the bytes up to its end decide it. *)
Definition local_step (f : bytes -> nat -> nat + nat) : Prop := forall s1 i1 s2 i2,
  (i1 <= length s1)%nat -> (i1 <= end_of (f s1 i1) <= length s1)%nat /\
  (agree (end_of (f s1 i1) - i1) s1 i1 s2 i2 -> f s2 i2 = move i1 i2 (f s1 i1)).

Lemma skip_agree s1 i1 s2 i2 : (i1 <= length s1)%nat ->
  (i1 <= skip_digits s1 i1 <= length s1)%nat /\ (agree (skip_digits s1 i1 - i1) s1 i1 s2 i2 -> skip_digits s2 i2 = (i2 + (skip_digits s1 i1 - i1))%nat).
Proof.
  intros Hi. pose proof (advance_le IsDigit s1 i1 Hi). split; [unfold skip_digits; lia|]. intros Hg.
  apply (advance_agree _ _ s1 i1); [unfold skip_digits; lia|done].
Qed.

Lemma length_next (src : bytes) i : (length src <=? S i)%nat = match src !! S i with None => true | Some _ => false end.
Proof.
  destruct (src !! S i) eqn:E; [apply lookup_lt_Some in E; lia|apply lookup_ge_None in E; lia].
Qed.

Lemma scan_sign_local : local_step scan_sign.
Proof.
  intros s1 i1 s2 i2 Hi. unfold scan_sign. rewrite !length_next. destruct (s1 !! i1) as [c|] eqn:E; cbn [end_of]; [apply lookup_lt_Some in E as Hlt|].
  - destruct (c =? "-"%ch) eqn:Ec.
    + destruct (s1 !! S i1) as [x|] eqn:E1; cbn [end_of]; (split; [lia|]); intros Hg; replace (S i1 - i1)%nat with 1%nat in Hg by lia;
        pose proof (agree_here _ _ _ _ _ Hg) as H0; pose proof (agree_here _ _ _ _ _ (agree_next _ _ _ _ _ Hg)) as H1;
        rewrite <- H0, E, Ec, <- H1, E1; cbn [move]; f_equal; lia.
    + cbn [end_of]. split; [lia|]. intros Hg. rewrite <- (agree_here _ _ _ _ _ Hg), E, Ec. cbn [move]. f_equal. lia.
  - split; [lia|]. intros Hg. rewrite <- (agree_here _ _ _ _ _ Hg), E. cbn [move]. f_equal. lia.
Qed.

Lemma scan_int_local : local_step scan_int.
Proof.
  intros s1 i1 s2 i2 Hi. unfold scan_int. destruct (s1 !! i1) as [c|] eqn:E; cbn [end_of].
  2:{ split; [lia|]. intros Hg. rewrite <- (agree_here _ _ _ _ _ Hg), E. cbn [move]. f_equal. lia. }
  apply lookup_lt_Some in E as Hlt. destruct (c =? "0"%ch) eqn:E0; cbn [end_of].
  { split; [lia|]. intros Hg. rewrite <- (agree_here _ _ _ _ _ Hg), E, E0. cbn [move]. f_equal. lia. }
  destruct (isOneNine c) eqn:E1; cbn [end_of].
  - destruct (skip_agree s1 (S i1) s2 (S i2) ltac:(lia)) as [H1 H2]. split; [lia|]. intros Hg.
    rewrite <- (agree_here _ _ _ _ _ Hg), E, E0, E1. cbn [move]. f_equal. rewrite H2; [lia|].
    apply agree_next. by replace (S (skip_digits s1 (S i1) - S i1)) with (skip_digits s1 (S i1) - i1)%nat by lia.
  - split; [lia|]. intros Hg. rewrite <- (agree_here _ _ _ _ _ Hg), E, E0, E1. cbn [move]. f_equal. lia.
Qed.

Lemma at_byte_agree d s1 i1 s2 i2 c : agree d s1 i1 s2 i2 -> at_byte s2 i2 c = at_byte s1 i1 c.
Proof. intros Hg. unfold at_byte. by rewrite (agree_here _ _ _ _ _ Hg). Qed.
Lemma at_digit_agree d s1 i1 s2 i2 : agree d s1 i1 s2 i2 -> at_digit s2 i2 = at_digit s1 i1.
Proof. intros Hg. unfold at_digit. by rewrite (agree_here _ _ _ _ _ Hg). Qed.

Lemma at_digit_lt src i : at_digit src i = true -> (i < length src)%nat.
Proof. intros (c & Hc & _)%at_digit_spec. by eapply lookup_lt_Some. Qed.

(** One or more digits, or the failure the fraction and the exponent report. *)
Definition need_digits (src : bytes) (i : nat) : nat + nat := if at_digit src i then inl (skip_digits src i) else inr i.

Lemma need_digits_local : local_step need_digits.
Proof.
  intros s1 i1 s2 i2 Hi. unfold need_digits. destruct (at_digit s1 i1) eqn:E; cbn [end_of].
  - destruct (skip_agree s1 i1 s2 i2 Hi) as [H1 H2]. split; [done|]. intros Hg. rewrite (at_digit_agree _ _ _ _ _ Hg), E. cbn [move]. f_equal. by apply H2.
  - split; [lia|]. intros Hg. rewrite (at_digit_agree _ _ _ _ _ Hg), E. cbn [move]. f_equal. lia.
Qed.

(** A step taken after [k] bytes. *)
Lemma local_after k f s1 i1 s2 i2 : local_step f -> (i1 + k <= length s1)%nat ->
  (i1 + k <= end_of (f s1 (i1 + k)) <= length s1)%nat /\
  (agree (end_of (f s1 (i1 + k)%nat) - i1) s1 i1 s2 i2 -> f s2 (i2 + k)%nat = move i1 i2 (f s1 (i1 + k)%nat)).
Proof.
  intros Hf Hk. destruct (Hf s1 (i1 + k)%nat s2 (i2 + k)%nat Hk) as [H1 H2]. split; [done|]. intros Hg. rewrite H2.
  - destruct (f s1 (i1 + k)%nat) as [j|j]; cbn [move end_of] in *; f_equal; lia.
  - eapply agree_shift with (k := k) in Hg; [|lia].
    by replace (end_of (f s1 (i1 + k)) - i1 - k)%nat with (end_of (f s1 (i1 + k)) - (i1 + k))%nat in Hg by lia.
Qed.

Lemma scan_frac_local : local_step scan_frac.
Proof.
  intros s1 i1 s2 i2 Hi. unfold scan_frac. change (if at_digit ?s ?i then inl (skip_digits ?s ?i) else inr ?i) with (need_digits s i).
  destruct (at_byte s1 i1 "."%ch) eqn:E; cbn [end_of].
  - apply at_byte_lt in E as Hlt. rewrite <- (Nat.add_1_r i1), <- (Nat.add_1_r i2).
    destruct (local_after 1 need_digits s1 i1 s2 i2 need_digits_local ltac:(lia)) as [H1 H2]. split; [lia|]. intros Hg.
    rewrite (at_byte_agree _ _ _ _ _ _ Hg), E. by apply H2.
  - split; [lia|]. intros Hg. rewrite (at_byte_agree _ _ _ _ _ _ Hg), E. cbn [move]. f_equal. lia.
Qed.

(** The optional sign of an exponent. *)
Definition exp_sign (src : bytes) (i : nat) : nat := if at_byte src i "+"%ch || at_byte src i "-"%ch then S i else i.

Lemma scan_exp_local : local_step scan_exp.
Proof.
  intros s1 i1 s2 i2 Hi. unfold scan_exp. cbv zeta. fold (exp_sign s1 (S i1)) (exp_sign s2 (S i2)).
  change (if at_digit ?s ?i then inl (skip_digits ?s ?i) else inr ?i) with (need_digits s i).
  destruct (at_byte s1 i1 "e"%ch || at_byte s1 i1 "E"%ch) eqn:E; cbn [end_of].
  - assert (Hlt : (i1 < length s1)%nat) by (apply orb_true_iff in E as [E|E]; by eapply at_byte_lt).
    unfold exp_sign. destruct (at_byte s1 (S i1) "+"%ch || at_byte s1 (S i1) "-"%ch) eqn:Es.
    + assert (Hlt2 : (S i1 < length s1)%nat) by (apply orb_true_iff in Es as [Es|Es]; by eapply at_byte_lt).
      destruct (local_after 2 need_digits s1 i1 s2 i2 need_digits_local ltac:(lia)) as [H1 H2].
      rewrite (Nat.add_comm i1 2), (Nat.add_comm i2 2) in *. cbn [Nat.add] in *. split; [lia|]. intros Hg.
      rewrite !(at_byte_agree _ _ _ _ _ _ Hg), E.
      assert (Hg1 : agree 0 s1 (S i1) s2 (S i2)) by (intros p Hp; specialize (Hg (S p) ltac:(lia)); by rewrite !Nat.add_succ_r in Hg).
      rewrite !(at_byte_agree _ _ _ _ _ _ Hg1), Es. by apply H2.
    + destruct (local_after 1 need_digits s1 i1 s2 i2 need_digits_local ltac:(lia)) as [H1 H2].
      rewrite (Nat.add_comm i1 1), (Nat.add_comm i2 1) in *. cbn [Nat.add] in *. split; [lia|]. intros Hg.
      rewrite !(at_byte_agree _ _ _ _ _ _ Hg), E.
      assert (Hg1 : agree 0 s1 (S i1) s2 (S i2)) by (intros p Hp; specialize (Hg (S p) ltac:(lia)); by rewrite !Nat.add_succ_r in Hg).
      rewrite !(at_byte_agree _ _ _ _ _ _ Hg1), Es. by apply H2.
  - split; [lia|]. intros Hg. rewrite !(at_byte_agree _ _ _ _ _ _ Hg), E. cbn [move]. f_equal. lia.
Qed.

(** Following a step by another. *)
Lemma local_from f s1 i1 j1 s2 i2 : local_step f -> (i1 <= j1 <= length s1)%nat ->
  (j1 <= end_of (f s1 j1) <= length s1)%nat /\
  (agree (end_of (f s1 j1) - i1) s1 i1 s2 i2 -> f s2 (i2 + (j1 - i1))%nat = move i1 i2 (f s1 j1)).
Proof.
  intros Hf Hj. destruct (local_after (j1 - i1) f s1 i1 s2 i2 Hf ltac:(lia)) as [H1 H2].
  replace (i1 + (j1 - i1))%nat with j1 in * by lia. done.
Qed.

Lemma agree_less d d' s1 i1 s2 i2 : agree d s1 i1 s2 i2 -> (d' <= d)%nat -> agree d' s1 i1 s2 i2.
Proof. intros H Hd p Hp. apply H. lia. Qed.

Lemma scanNumber_local s1 i1 s2 i2 : (i1 <= length s1)%nat ->
  (i1 <= (scanNumber s1 i1).1 <= length s1)%nat /\
  (agree ((scanNumber s1 i1).1 - i1) s1 i1 s2 i2 -> scanNumber s2 i2 = ((i2 + ((scanNumber s1 i1).1 - i1))%nat, (scanNumber s1 i1).2)).
Proof.
  intros Hi. unfold scanNumber.
  destruct (scan_sign_local s1 i1 s2 i2 Hi) as [H1 Hs]. destruct (scan_sign s1 i1) as [a|a]; cbn [end_of move fst snd] in *; [|split; [done|]; intros Hg; by rewrite Hs].
  destruct (local_from scan_int s1 i1 a s2 i2 scan_int_local H1) as [H2 Hn]. destruct (scan_int s1 a) as [b|b]; cbn [end_of move fst snd] in *.
  2:{ split; [lia|]. intros Hg. rewrite Hs by (eapply agree_less; [done|lia]). by rewrite Hn. }
  destruct (local_from scan_frac s1 i1 b s2 i2 scan_frac_local ltac:(lia)) as [H3 Hf]. destruct (scan_frac s1 b) as [c|c]; cbn [end_of move fst snd] in *.
  2:{ split; [lia|]. intros Hg. rewrite Hs, Hn by (eapply agree_less; [done|lia]). by rewrite Hf. }
  destruct (local_from scan_exp s1 i1 c s2 i2 scan_exp_local ltac:(lia)) as [H4 He]. destruct (scan_exp s1 c) as [d|d]; cbn [end_of move fst snd] in *;
    (split; [lia|]; intros Hg; rewrite Hs, Hn, Hf by (eapply agree_less; [done|lia]); by rewrite He).
Qed.

(** ** Framing, a byte at a time *)

Definition step_on (f : ValueFrame) : ValueFrame := set_Framed f (S (Framed f)).

(** One byte of a string: [inr] after the closing quote. *)
Definition string_byte (f : ValueFrame) (c : Z) : ValueFrame + ValueFrame :=
  if f_esc f then inl (step_on (set_esc f false))
  else if c =? DQUOTE then inr (step_on f)
  else if c =? BSLASH then inl (step_on (set_esc f true))
  else inl (step_on f).

Definition number_byte (f : ValueFrame) (c : Z) : ValueFrame + ValueFrame :=
  if IsDigit c || (c =? "."%ch) then inl (step_on (set_numE f false))
  else if (c =? "e"%ch) || (c =? "E"%ch) then inl (step_on (set_numE f true))
  else if (c =? "+"%ch) || (c =? "-"%ch) then if negb (f_numE f) then inr f else inl (step_on (set_numE f false))
  else inr f.

Definition literal_byte (f : ValueFrame) (c : Z) : ValueFrame + ValueFrame :=
  let f := step_on (set_litLeft f (f_litLeft f - 1)) in
  if f_litLeft f =? 0 then inr f else inl f.

Definition container_byte (f : ValueFrame) (c : Z) : ValueFrame + ValueFrame :=
  if f_inStr f then match string_byte f c with inl f => inl f | inr f => inl (set_inStr f false) end
  else if c =? DQUOTE then inl (step_on (set_inStr f true))
  else if (c =? "{"%ch) || (c =? "["%ch) then inl (step_on (set_depth f (f_depth f + 1)))
  else if (c =? "}"%ch) || (c =? "]"%ch) then
    let f := step_on (set_depth f (f_depth f - 1)) in if f_depth f =? 0 then inr f else inl f
  else inl (step_on f).

Definition frame_byte (f : ValueFrame) (c : Z) : ValueFrame + ValueFrame :=
  match f_mode f with
  | frameString => string_byte f c
  | frameNumber => number_byte f c
  | frameLiteral => literal_byte f c
  | frameContainer => container_byte f c
  end.

(** The frame after some bytes, and whether one of them ended the value. *)
Fixpoint frame_run (f : ValueFrame) (l : bytes) : ValueFrame * bool :=
  match l with
  | [] => (f, false)
  | c :: l => match frame_byte f c with inl f => frame_run f l | inr f => (f, true) end
  end.

Lemma frame_run_app f a b : frame_run f (a ++ b) = if (frame_run f a).2 then frame_run f a else frame_run (frame_run f a).1 b.
Proof. revert f. induction a as [|c a IH]; intros f; [done|]. cbn [app frame_run]. by destruct (frame_byte f c). Qed.

(** A frame that goes on has consumed what it was given. *)
Lemma frame_run_framed f l : (frame_run f l).2 = false -> Framed (frame_run f l).1 = (Framed f + length l)%nat.
Proof.
  revert f. induction l as [|c l IH]; intros f; cbn [frame_run length]; [simpl; lia|].
  destruct (frame_byte f c) as [f'|f'] eqn:E; [|done]. intros H. rewrite (IH _ H).
  assert (Framed f' = S (Framed f)) as ->; [|lia]. revert E. unfold frame_byte, string_byte, number_byte, literal_byte, container_byte, string_byte.
  destruct (f_mode f); cbv zeta; repeat case_step; intros [= <-]; done.
Qed.

Definition wf_frame (f : ValueFrame) : Prop := f_mode f = frameLiteral -> 0 < f_litLeft f.

Lemma frame_byte_wf f c f' : wf_frame f -> frame_byte f c = inl f' -> wf_frame f' /\ f_mode f' = f_mode f.
Proof.
  unfold wf_frame, frame_byte, string_byte, number_byte, literal_byte, container_byte, string_byte.
  destruct (f_mode f) eqn:Em; cbv zeta; repeat case_step; intros Hw [= <-]; cbn in *; rewrite ?Em; split; try done; intros; try specialize (Hw eq_refl); lia.
Qed.

(** The projections of an updated frame. *)
Ltac frame_cbn := cbn [set_Framed set_esc set_inStr set_depth set_numE set_litLeft f_mode f_depth f_inStr f_esc f_numE f_litLeft Framed].

Section ScanRun.
Context (src : bytes) (start : nat).
Hypothesis Hsrc : bytes_ok src.

(** The loops leave the count of the frame to [Scan]; [at_pos_frame f i] is the frame
    with the count of position [i]. *)
Definition counted (f : ValueFrame) (i : nat) : ValueFrame := set_Framed f (i - start)%nat.
Definition run_at (f : ValueFrame) (i : nat) : ValueFrame * bool := frame_run (counted f i) (drop i src).

Lemma run_end f : run_at f (length src) = (counted f (length src), false).
Proof. unfold run_at. by rewrite drop_all. Qed.

Lemma run_step f i c : src !! i = Some c ->
  run_at f i = match frame_byte (counted f i) c with inl f => frame_run f (drop (S i) src) | inr f => (f, true) end.
Proof. intros H. unfold run_at. by rewrite (lookup_Some_drop _ _ _ H). Qed.

Lemma counted_step f i : (start <= i)%nat -> step_on (counted f i) = counted f (S i).
Proof. intros H. unfold step_on, counted. frame_cbn. f_equal. lia. Qed.

(** Inside a string, of its own or of a container. *)
Definition in_string (f : ValueFrame) : Prop := f_mode f = frameString \/ (f_mode f = frameContainer /\ f_inStr f = true).

Lemma string_step f i c : in_string f -> src !! i = Some c -> (start <= i)%nat ->
  run_at f i =
  if f_esc f then run_at (set_esc f false) (S i)
  else if c =? DQUOTE then
    match f_mode f with frameString => (counted f (S i), true) | _ => run_at (set_inStr f false) (S i) end
  else if c =? BSLASH then run_at (set_esc f true) (S i)
  else run_at f (S i).
Proof.
  intros Hf Hc Hi. rewrite (run_step _ _ _ Hc). unfold frame_byte, container_byte, string_byte. cbn [counted set_Framed f_mode f_inStr f_esc].
  destruct Hf as [->|[-> ->]]; destruct (f_esc f); [|destruct (c =? DQUOTE); [|destruct (c =? BSLASH)]| |destruct (c =? DQUOTE); [|destruct (c =? BSLASH)]];
    unfold run_at, counted, step_on; frame_cbn; rewrite ?Nat.sub_succ_l by lia; done.
Qed.

(** The scanner jumps over bytes the run passes. *)
Lemma string_jump f i : in_string f -> f_esc f = false -> (start <= i <= length src)%nat ->
  run_at f i = run_at f (scanStringSpecial src i).
Proof.
  intros Hf He Hi. rewrite scanStringSpecial_spec by (done || lia).
  remember (length src - i)%nat as m eqn:Em. revert i Em Hi. induction m as [|m IH]; intros i Em Hi; rewrite advance_unfold.
  - rewrite lookup_ge_None_2 by lia. done.
  - destruct (src !! i) as [c|] eqn:E; [|done]. destruct (is_string_special c) eqn:Ec; cbn [negb]; [done|].
    apply lookup_lt_Some in E as Hlt. rewrite <- IH by lia. rewrite (string_step f i c) by (done || lia). rewrite He.
    unfold is_string_special, is_string_syntax in Ec. by rewrite !if_false by lia.
Qed.

Lemma scanStringBody_run fuel f i : in_string f -> (start <= i <= length src)%nat -> (length src - i < fuel)%nat ->
  exists f' i' done, scanStringBody src fuel f i = Ok (f', i', done) /\ (i <= i' <= length src)%nat /\
    f_mode f' = f_mode f /\ in_string f' /\
    if done : bool then (i < i')%nat /\ run_at f i = match f_mode f with frameString => (counted f' i', true) | _ => run_at (set_inStr f' false) i' end
    else i' = length src /\ run_at f i = (counted f' i', false).
Proof.
  revert f i. induction fuel as [|fuel IH]; intros f i Hf Hi Hl; [lia|]. cbn [scanStringBody].
  destruct (Nat.leb_spec (length src) i) as [Hge|Hlt].
  { assert (i = length src) as -> by lia. exists f, (length src), false. split_and!; [done|lia|lia|done|done|done|apply run_end]. }
  destruct (lookup_lt_is_Some_2 src i Hlt) as [c Hc]. destruct (f_esc f) eqn:He.
  { rewrite (string_step f i c) by (done || lia). rewrite He.
    destruct (IH (set_esc f false) (S i)) as (f' & i' & d & -> & Hi' & Hm & Hf' & Hd); [by destruct Hf as [?|[? ?]]; [left|right]|lia|lia|].
    exists f', i', d. split_and!; [done|lia|lia|done|done|]. destruct d; [split; [lia|apply Hd]|exact Hd]. }
  rewrite (string_jump f i Hf He) by lia. pose proof (scanStringSpecial_spec src Hsrc i ltac:(lia)) as Hj.
  pose proof (advance_le (fun c => negb (is_string_special c)) src i ltac:(lia)). rewrite <- Hj in *.
  set (j := scanStringSpecial src i) in *. clearbody j. clear Hj.
  destruct (src !! j) as [x|] eqn:Ex.
  2:{ apply lookup_ge_None in Ex. assert (j = length src) as -> by lia. exists f, (length src), false. split_and!; [done|lia|lia|done|done|done|apply run_end]. }
  apply lookup_lt_Some in Ex as Hjl. rewrite (string_step f j x) by (done || lia). rewrite He.
  destruct (x =? DQUOTE); [exists f, (S j), true; split_and!; [done|lia|lia|done|done|lia|done]|].
  destruct (x =? BSLASH).
  - destruct (IH (set_esc f true) (S j)) as (f' & i' & d & -> & Hi' & Hm & Hf' & Hd); [by destruct Hf as [?|[? ?]]; [left|right]|lia|lia|].
    exists f', i', d. split_and!; [done|lia|lia|done|done|]. destruct d; [split; [lia|apply Hd]|exact Hd].
  - destruct (IH f (S j) Hf) as (f' & i' & d & -> & Hi' & Hm & Hf' & Hd); [lia|lia|].
    exists f', i', d. split_and!; [done|lia|lia|done|done|]. destruct d; [split; [lia|apply Hd]|exact Hd].
Qed.

(** Every loop ends with the frame of the run. *)
Definition runs (r : res unit (ValueFrame * nat * bool)) (q : ValueFrame * bool) : Prop :=
  exists f i d, r = Ok (f, i, d) /\ q = (counted f i, d).

Lemma number_run fuel f i : f_mode f = frameNumber -> (start <= i <= length src)%nat -> (length src - i < fuel)%nat ->
  runs (scan_number_frame src fuel f i) (run_at f i).
Proof.
  revert f i. induction fuel as [|fuel IH]; intros f i Hm Hi Hl; [lia|]. cbn [scan_number_frame].
  destruct (src !! i) as [c|] eqn:E.
  2:{ apply lookup_ge_None in E. assert (i = length src) as -> by lia. exists f, (length src), false. by rewrite run_end. }
  apply lookup_lt_Some in E as Hlt. rewrite (run_step _ _ _ E). unfold frame_byte, number_byte. cbn [counted set_Framed f_mode f_numE]. rewrite Hm.
  assert (Hgo : forall b, runs (scan_number_frame src fuel (set_numE f b) (S i)) (frame_run (step_on (set_numE (counted f i) b)) (drop (S i) src))).
  { intros b. destruct (IH (set_numE f b) (S i) Hm ltac:(lia) ltac:(lia)) as (f' & i' & d & -> & Hq). exists f', i', d. split; [done|].
    rewrite <- Hq. unfold run_at. f_equal. unfold step_on, counted. frame_cbn. f_equal. lia. }
  destruct (_ || _); [apply Hgo|]. destruct (_ || _); [apply Hgo|]. destruct (_ || _); [destruct (f_numE f); cbn [negb]; [apply Hgo|]|]; by exists f, i, true.
Qed.

Lemma literal_run fuel f i : f_mode f = frameLiteral -> 0 < f_litLeft f -> (start <= i <= length src)%nat -> (length src - i < fuel)%nat ->
  runs (scan_literal_frame src fuel f i) (run_at f i).
Proof.
  revert f i. induction fuel as [|fuel IH]; intros f i Hm Hp Hi Hl; [lia|]. cbn [scan_literal_frame].
  destruct (Nat.ltb_spec i (length src)) as [Hlt|Hge]; cbn [andb].
  2:{ assert (i = length src) as -> by lia. exists f, (length src), false. rewrite run_end. split; [|done]. repeat f_equal. lia. }
  rewrite if_true by lia. destruct (lookup_lt_is_Some_2 src i Hlt) as [c Hc]. rewrite (run_step _ _ _ Hc). unfold frame_byte, literal_byte.
  cbn [counted set_Framed f_mode]. rewrite Hm. cbv zeta.
  replace (step_on (set_litLeft (counted f i) (f_litLeft (counted f i) - 1))) with (counted (set_litLeft f (f_litLeft f - 1)) (S i))
    by (unfold step_on, counted; frame_cbn; f_equal; lia). cbn [counted set_Framed set_litLeft f_litLeft].
  destruct (Z.eqb_spec (f_litLeft f - 1) 0) as [H0|H0].
  - destruct fuel as [|fuel]; [lia|]. cbn [scan_literal_frame set_litLeft f_litLeft]. rewrite H0. rewrite andb_false_r.
    exists (set_litLeft f 0), (S i), true. done.
  - apply (IH (set_litLeft f (f_litLeft f - 1)) (S i)); [done|cbn; lia|lia|lia].
Qed.

Lemma container_run fuel f i : f_mode f = frameContainer -> (start <= i <= length src)%nat -> (length src - i < fuel)%nat ->
  runs (scan_container_frame src fuel f i) (run_at f i).
Proof.
  revert f i. induction fuel as [|fuel IH]; intros f i Hm Hi Hl; [lia|]. cbn [scan_container_frame].
  destruct (src !! i) as [c|] eqn:E.
  2:{ apply lookup_ge_None in E. assert (i = length src) as -> by lia. exists f, (length src), false. by rewrite run_end. }
  apply lookup_lt_Some in E as Hlt. destruct (f_inStr f) eqn:Es.
  { destruct (scanStringBody_run (S (length src)) f i) as (f' & i' & d & -> & Hi' & Hm' & Hf' & Hd); [by right|lia|lia|]. cbn [res_bind].
    rewrite Hm in *. destruct d; destruct Hd as [Hd ->].
    - apply (IH (set_inStr f' false) i'); [done|lia|lia].
    - subst i'. destruct fuel as [|fuel]; [lia|]. cbn [scan_container_frame]. rewrite lookup_ge_None_2 by lia. by exists f', (length src), false. }
  rewrite (run_step _ _ _ E). unfold frame_byte, container_byte. cbn [counted set_Framed f_mode f_inStr]. rewrite Hm, Es. cbv zeta.
  assert (Hgo : forall g, f_mode g = frameContainer -> runs (scan_container_frame src fuel g (S i)) (frame_run (counted g (S i)) (drop (S i) src))).
  { intros g Hg. apply (IH g (S i) Hg); lia. }
  destruct (c =? DQUOTE).
  { replace (step_on _) with (counted (set_inStr f true) (S i)) by (unfold step_on, counted; frame_cbn; f_equal; lia). by apply Hgo. }
  destruct (_ || _).
  { replace (step_on _) with (counted (set_depth f (f_depth f + 1)) (S i)) by (unfold step_on, counted; frame_cbn; f_equal; lia). by apply Hgo. }
  destruct (_ || _).
  { replace (step_on (set_depth _ _)) with (counted (set_depth f (f_depth f - 1)) (S i)) by (unfold step_on, counted; frame_cbn; f_equal; lia).
    cbn [counted set_Framed set_depth f_depth]. destruct (f_depth f - 1 =? 0); [by exists (set_depth f (f_depth f - 1)), (S i), true|by apply Hgo]. }
  replace (step_on _) with (counted f (S i)) by (unfold step_on, counted; frame_cbn; f_equal; lia). by apply Hgo.
Qed.
End ScanRun.

(** [Scan] runs the frame over the bytes it has not seen. *)
Lemma Scan_run src f start : bytes_ok src -> wf_frame f -> (start + Framed f <= length src)%nat ->
  Scan src f start = Ok (frame_run f (drop (start + Framed f) src)).
Proof.
  intros Hsrc Hw Hs. unfold Scan. cbv zeta. set (i := (start + Framed f)%nat) in *.
  assert (Hf : counted start f i = f) by (unfold counted, i; destruct f; cbn; f_equal; lia).
  assert (Hr : forall r, runs start r (run_at src start f i) -> (let* (f, i, done) := r in Ok (set_Framed f (i - start)%nat, done)) = Ok (E := unit) (frame_run f (drop i src))).
  { intros r (f' & i' & d & -> & Hq). cbn [res_bind]. unfold run_at in Hq. rewrite Hf in Hq. by rewrite Hq. }
  destruct (f_mode f) eqn:Em; apply Hr.
  - apply container_run; [done|done|lia|lia].
  - destruct (scanStringBody_run src start Hsrc (S (length src)) f i) as (f' & i' & d & -> & _ & _ & _ & Hd); [by left|lia|lia|].
    exists f', i', d. rewrite Em in Hd. split; [done|]. destruct d; apply Hd.
  - apply number_run; [done|lia|lia].
  - apply literal_run; [done|by apply Hw|lia|lia].
Qed.

(** ** Frames of values *)

(** A number's bytes after the first; a sign only follows an exponent mark. *)
Definition is_mark (c : Z) : bool := (c =? "e"%ch) || (c =? "E"%ch).
Definition passes (mark : bool) (c : Z) : bool :=
  IsDigit c || (c =? "."%ch) || is_mark c || (((c =? "+"%ch) || (c =? "-"%ch)) && mark).
Fixpoint follows (mark : bool) (l : bytes) : bool :=
  match l with [] => true | c :: l => passes mark c && follows (is_mark c) l end.

Lemma passes_mark c m : passes false c = true -> passes m c = true.
Proof. unfold passes. destruct m; lia. Qed.

Lemma follows_mark m l : follows false l = true -> follows m l = true.
Proof. destruct l as [|c l]; [done|]. cbn [follows]. intros [H ->]%andb_prop. by rewrite (passes_mark c m H). Qed.

Lemma follows_app m a b : follows m a = true -> follows false b = true -> follows m (a ++ b) = true.
Proof.
  revert m. induction a as [|c a IH]; intros m; cbn [follows app]; [intros _; apply follows_mark|].
  intros [-> H]%andb_prop Hb. by rewrite IH.
Qed.

Lemma digits_follow s : digits s -> follows false s = true.
Proof.
  induction 1 as [|c s Hc _ IH]; [done|]. cbn [follows]. unfold passes. rewrite Hc. cbn [orb andb]. by apply follows_mark.
Qed.

(** A step of the number scanner consumes such bytes only. *)
Definition consumes (m : bool) (src : bytes) (i j : nat) : Prop := exists s, span src i s j /\ follows m s = true.

Lemma consumes_app m src i j k : consumes m src i j -> consumes false src j k -> consumes m src i k.
Proof. intros (a & Ha & Hfa) (b & Hb & Hfb). exists (a ++ b). split; [by eapply span_app|by apply follows_app]. Qed.

Lemma consumes_none m src i : (i <= length src)%nat -> consumes m src i i.
Proof. intros H. exists []. split; [by apply span_nil|done]. Qed.

Lemma consumes_one m src i c : src !! i = Some c -> passes m c = true -> consumes m src i (S i).
Proof. intros Hc Hp. exists [c]. split; [by apply span_one|]. cbn [follows]. by rewrite Hp. Qed.

Lemma need_digits_consumes m src i : (i <= length src)%nat -> consumes m src i (end_of (need_digits src i)).
Proof.
  intros Hi. unfold need_digits. destruct (at_digit src i) eqn:E; cbn [end_of]; [|by apply consumes_none].
  destruct (skip_digits_span src i E) as (s & Hs & Hd & _). exists s. split; [done|]. by apply follows_mark, digits_follow.
Qed.

Lemma scan_int_consumes src i : (i <= length src)%nat -> consumes false src i (end_of (scan_int src i)).
Proof.
  intros Hi. unfold scan_int. destruct (src !! i) as [c|] eqn:E; cbn [end_of]; [|by apply consumes_none].
  apply lookup_lt_Some in E as Hlt. destruct (Z.eqb_spec c "0"%ch) as [->|]; cbn [end_of]; [by apply (consumes_one _ _ _ _ E)|].
  destruct (isOneNine c) eqn:E1; cbn [end_of]; [|by apply consumes_none].
  destruct (advance_span IsDigit src (S i) ltac:(lia)) as (s & Hs & Hd & _). exists (c :: s). split; [by apply span_cons_intro|].
  apply digits_follow. constructor; [unfold isOneNine, IsDigit in *; lia|done].
Qed.

Lemma scan_frac_consumes src i : (i <= length src)%nat -> consumes false src i (end_of (scan_frac src i)).
Proof.
  intros Hi. unfold scan_frac. fold (need_digits src (S i)). destruct (at_byte src i "."%ch) eqn:E; cbn [end_of]; [|by apply consumes_none].
  apply at_byte_spec in E. apply lookup_lt_Some in E as Hlt.
  apply (consumes_app _ _ _ (S i)); [by apply (consumes_one _ _ _ _ E)|]. apply need_digits_consumes. lia.
Qed.

Lemma scan_exp_consumes src i : (i <= length src)%nat -> consumes false src i (end_of (scan_exp src i)).
Proof.
  intros Hi. unfold scan_exp. destruct (at_byte src i "e"%ch || at_byte src i "E"%ch) eqn:E; cbn [end_of]; [|by apply consumes_none].
  cbv zeta. assert (He : exists c, src !! i = Some c /\ is_mark c = true).
  { apply orb_true_iff in E as [E|E]; apply at_byte_spec in E; by eexists. }
  destruct He as (c & Hc & Hm). apply lookup_lt_Some in Hc as Hlt.
  set (i' := if at_byte src (S i) "+"%ch || at_byte src (S i) "-"%ch then S (S i) else S i).
  fold (need_digits src i').
  assert (Hi' : (i' <= length src)%nat /\ consumes false src i i').
  { subst i'. destruct (at_byte src (S i) "+"%ch || at_byte src (S i) "-"%ch) eqn:Es.
    - assert (Hx : exists x, src !! S i = Some x /\ passes true x = true).
      { apply orb_true_iff in Es as [Es|Es]; apply at_byte_spec in Es; by eexists. }
      destruct Hx as (x & Hx & Hp). apply lookup_lt_Some in Hx as Hltx. split; [lia|].
      exists [c; x]. split; [apply span_cons_intro; [done|by apply span_one]|]. cbn [follows].
      rewrite Hm, Hp. unfold passes. rewrite Hm. by rewrite orb_true_r.
    - split; [lia|]. apply (consumes_one _ _ _ c Hc). unfold passes. rewrite Hm. by rewrite orb_true_r. }
  apply (consumes_app _ _ _ i'); [apply Hi'|]. apply need_digits_consumes, Hi'.
Qed.

(** An integer part leaves digits after its first byte. *)
Lemma scan_int_tail src i j : scan_int src i = inl j -> consumes false src (S i) j.
Proof.
  unfold scan_int. destruct (src !! i) as [c|] eqn:E; [|done]. apply lookup_lt_Some in E as Hlt.
  destruct (c =? "0"%ch); [intros [= <-]; apply consumes_none; lia|]. destruct (isOneNine c); [|done]. intros [= <-].
  destruct (advance_span IsDigit src (S i) ltac:(lia)) as (s & Hs & Hd & _). exists s. split; [done|by apply digits_follow].
Qed.

Lemma consumes_le m src i j : consumes m src i j -> (i <= j <= length src)%nat.
Proof. intros (s & Hs & _). by apply span_le in Hs. Qed.

(** What a number scan reads after the first byte. *)
Lemma scanNumber_consumes c u : let j := (scanNumber (c :: u) 0).1 in (j <= 1)%nat \/ consumes false (c :: u) 1 j.
Proof.
  cbv zeta. unfold scanNumber, scan_sign. cbn [lookup list_lookup].
  assert (Hrest : forall b, (b <= length (c :: u))%nat -> consumes false (c :: u) 1 b ->
    consumes false (c :: u) 1 (match scan_frac (c :: u) b with
      | inr i => (i, "invalid number fraction"%string)
      | inl i => match scan_exp (c :: u) i with inr i => (i, "invalid number exponent"%string) | inl i => (i, EmptyString) end
      end).1).
  { intros b Hb H1. pose proof (scan_frac_consumes (c :: u) b Hb) as H2. destruct (scan_frac (c :: u) b) as [d|d]; cbn [end_of fst] in *.
    - apply consumes_le in H2 as Hd. pose proof (scan_exp_consumes (c :: u) d ltac:(lia)) as H3.
      destruct (scan_exp (c :: u) d) as [e|e]; cbn [end_of fst] in *; (apply (consumes_app _ _ _ d); [by apply (consumes_app _ _ _ b)|done]).
    - by apply (consumes_app _ _ _ b). }
  destruct (c =? "-"%ch).
  - destruct (Nat.leb_spec (length (c :: u)) 1); [by left|]. right.
    pose proof (scan_int_consumes (c :: u) 1 ltac:(lia)) as H1. destruct (scan_int (c :: u) 1) as [b|b]; cbn [end_of fst] in *; [|done].
    apply Hrest; [|done]. apply consumes_le in H1. lia.
  - destruct (scan_int (c :: u) 0) as [b|b] eqn:E; cbn [fst].
    + right. apply scan_int_tail in E. apply Hrest; [|done]. apply consumes_le in E. lia.
    + left. revert E. unfold scan_int. cbn [lookup list_lookup]. destruct (c =? "0"%ch); [done|]. destruct (isOneNine c); [done|]. intros [= <-]. lia.
Qed.

(** A number frame runs over such bytes. *)
Lemma number_frame_passes f l : f_mode f = frameNumber -> follows (f_numE f) l = true ->
  exists f', frame_run f l = (f', false) /\ f_mode f' = frameNumber.
Proof.
  revert f. induction l as [|c l IH]; intros f Hm; [by exists f|]. cbn [follows frame_run]. unfold frame_byte, number_byte. rewrite Hm.
  intros [Hp Hl]%andb_prop. unfold passes, is_mark in *.
  assert (Hgo : forall b, follows b l = true -> exists f', frame_run (step_on (set_numE f b)) l = (f', false) /\ f_mode f' = frameNumber).
  { intros b Hb. by apply (IH (step_on (set_numE f b)) Hm). }
  destruct (IsDigit c || (c =? "."%ch)) eqn:E1.
  { apply Hgo. assert ((c =? "e"%ch) || (c =? "E"%ch) = false) as E by (unfold IsDigit in E1; lia). by rewrite E in Hl. }
  destruct ((c =? "e"%ch) || (c =? "E"%ch)) eqn:E2; [by apply Hgo|]. rewrite orb_false_l in Hp. apply andb_prop in Hp as [-> ->]. by apply Hgo.
Qed.

Lemma follows_take m l n : follows m l = true -> follows m (take n l) = true.
Proof.
  revert m n. induction l as [|c l IH]; intros m [|n]; cbn [take follows]; try done. intros [-> H]%andb_prop. by rewrite IH.
Qed.

(** A number frame that ends leaves the ending byte. *)
Lemma number_done f l f' : f_mode f = frameNumber -> frame_run f l = (f', true) -> (Framed f <= Framed f' < Framed f + length l)%nat.
Proof.
  revert f. induction l as [|c l IH]; intros f Hm; [done|]. cbn [frame_run length]. unfold frame_byte, number_byte. rewrite Hm.
  assert (Hgo : forall b, frame_run (step_on (set_numE f b)) l = (f', true) -> (Framed f <= Framed f' < Framed f + S (length l))%nat).
  { intros b Hb. apply (IH (step_on (set_numE f b)) Hm) in Hb. cbn [step_on set_numE set_Framed Framed] in Hb. lia. }
  destruct (_ || _); [apply Hgo|]. destruct (_ || _); [apply Hgo|].
  destruct (_ || _); [destruct (f_numE f); cbn [negb]; [apply Hgo|]|]; intros [= <-]; lia.
Qed.

(** A number frame that ends on a window has passed the number, and left a byte after it. *)
Lemma number_frame_end c l x f : f_mode (Init c) = frameNumber -> frame_run (Init c) l = (f, true) ->
  ((scanNumber (c :: l ++ x) 0).1 <= Framed f < 1 + length l)%nat.
Proof.
  intros Hm Hr. assert (H1 : Framed (Init c) = 1%nat) by (unfold Init; repeat case_step; done).
  assert (Hn : f_numE (Init c) = false) by (unfold Init; repeat case_step; done).
  pose proof (number_done _ _ _ Hm Hr) as Hf. rewrite H1 in Hf. split; [|lia].
  destruct (scanNumber_consumes c (l ++ x)) as [Hj|(s & Hs & Hfol)]; [etransitivity; [exact Hj|lia]|]. set (j := (scanNumber (c :: l ++ x) 0).1) in *. clearbody j.
  apply span_len in Hs as Hl. destruct Hs as (Hs & _). cbn [drop skipn] in Hs. rewrite drop_0 in Hs.
  destruct (Nat.le_gt_cases (length s) (length l)) as [Hle|Hgt].
  2:{ assert (Hls : l = take (length l) s).
      { apply (f_equal (take (length l))) in Hs. rewrite take_app_length, take_app_le in Hs by lia. done. }
      apply (follows_take _ _ (length l)) in Hfol. rewrite <- Hn, <- Hls in Hfol.
      destruct (number_frame_passes _ _ Hm Hfol) as (f' & E & _). by rewrite E in Hr. }
  assert (Hls : l = s ++ drop (length s) l).
  { rewrite <- (take_drop (length s) l) at 1. f_equal. apply (f_equal (take (length s))) in Hs.
    rewrite take_app_length, take_app_le in Hs by lia. done. }
  rewrite Hls, frame_run_app in Hr. rewrite <- Hn in Hfol.
  destruct (number_frame_passes (Init c) s Hm Hfol) as (f1 & E & Hm1). pose proof (frame_run_framed (Init c) s) as Hc.
  rewrite E in Hr, Hc. cbn [fst snd] in Hr, Hc. apply number_done in Hr; [|done]. rewrite Hc, H1 in Hr by done. lia.
Qed.

(** ** Frames of strings, literals and containers *)

(** A container frame at depth [d] outside strings. *)
Definition at_depth (d : Z) (k : nat) : ValueFrame := mkValueFrame frameContainer d false false false 0 k.
Definition in_quotes (d : Z) (k : nat) : ValueFrame := mkValueFrame frameContainer d true false false 0 k.

(** A text a container frame passes, ending where it began. *)
Definition keeps (s : bytes) : Prop :=
  forall d k x, 1 <= d -> frame_run (at_depth d k) (s ++ x) = frame_run (at_depth d (k + length s)) x.

Lemma keeps_nil : keeps [].
Proof. intros d k x _. cbn [app length]. by rewrite Nat.add_0_r. Qed.

Lemma keeps_app a b : keeps a -> keeps b -> keeps (a ++ b).
Proof. intros Ha Hb d k x Hd. rewrite <- app_assoc, Ha, Hb, length_app by done. by rewrite Nat.add_assoc. Qed.

Definition neutral (c : Z) : bool :=
  negb ((c =? DQUOTE) || (c =? "{"%ch) || (c =? "["%ch) || (c =? "}"%ch) || (c =? "]"%ch)).

Lemma keeps_byte c : neutral c = true -> keeps [c].
Proof.
  unfold neutral. intros Hc d k x Hd. cbn [app frame_run length]. unfold frame_byte, container_byte. cbn [at_depth f_mode f_inStr].
  rewrite !if_false by lia. unfold step_on, at_depth. cbn. by rewrite Nat.add_1_r.
Qed.

Lemma keeps_neutral s : Forall (fun c => neutral c = true) s -> keeps s.
Proof. induction 1 as [|c s Hc _ IH]; [apply keeps_nil|]. apply (keeps_app [c] s); [by apply keeps_byte|done]. Qed.

Lemma keeps_ws w : ws w -> keeps w.
Proof. intros H. apply keeps_neutral. eapply Forall_impl; [exact H|]. intros c. unfold IsJSONWhitespace, neutral. lia. Qed.

Lemma number_neutral s : jnumber s -> keeps s.
Proof.
  intros H%jnumber_chars. apply keeps_neutral. eapply Forall_impl; [exact H|]. intros c. unfold number_char, IsDigit, neutral. lia.
Qed.

(** The content of a string, for a frame of the string and of a container. *)
Definition string_frame (k : nat) : ValueFrame := mkValueFrame frameString 0 false false false 0 k.

(** What a frame inside a string does on the content of one. *)
Definition string_keeps (s : bytes) : Prop := forall (quotes : nat -> ValueFrame) x k,
  (forall k, quotes k = string_frame k) \/ (exists d, forall k, quotes k = in_quotes d k) ->
  frame_run (quotes k) (s ++ x) = frame_run (quotes (k + length s)%nat) x.

Definition quiet (c : Z) : bool := negb ((c =? DQUOTE) || (c =? BSLASH)).

Lemma string_keeps_app a b : string_keeps a -> string_keeps b -> string_keeps (a ++ b).
Proof. intros Ha Hb q x k Hq. rewrite <- app_assoc, Ha, Hb, length_app by done. by rewrite Nat.add_assoc. Qed.

Lemma string_keeps_byte c : quiet c = true -> string_keeps [c].
Proof.
  unfold quiet. intros Hc q x k Hq. cbn [app frame_run length]. unfold frame_byte, container_byte, string_byte.
  destruct Hq as [Hq|[d Hq]]; rewrite !Hq; cbn [string_frame in_quotes f_mode f_inStr f_esc]; rewrite !if_false by lia;
    unfold step_on; cbn; rewrite Nat.add_1_r; [unfold string_frame|unfold in_quotes]; done.
Qed.

Lemma string_keeps_escape e : string_keeps [BSLASH; e].
Proof.
  intros q x k Hq. cbn [app frame_run length]. unfold frame_byte, container_byte, string_byte.
  destruct Hq as [Hq|[d Hq]]; rewrite !Hq; cbn; rewrite (Nat.add_comm k 2); done.
Qed.

Lemma string_keeps_quiet s : Forall (fun c => quiet c = true) s -> string_keeps s.
Proof.
  induction 1 as [|c s Hc _ IH]; [intros q x k Hq; cbn [app length]; by rewrite Nat.add_0_r|].
  apply (string_keeps_app [c] s); [by apply string_keeps_byte|done].
Qed.

Lemma hex_quiet a b c d u : hex_of [a; b; c; d] = Some u -> Forall (fun c => quiet c = true) [a; b; c; d].
Proof.
  cbn [hex_of]. destruct (is_hex a && is_hex b && is_hex c && is_hex d) eqn:E; [|done]. intros _.
  assert (Hh : forall x, is_hex x = true -> quiet x = true).
  { intros x Hx. unfold is_hex, hexNibbleTable, quiet in *. destruct (Z.eqb_spec x DQUOTE) as [->|]; [done|]. destruct (Z.eqb_spec x BSLASH) as [->|]; done. }
  apply andb_prop in E as [E Ed]. apply andb_prop in E as [E Ec]. apply andb_prop in E as [Ea Eb]. repeat constructor; by apply Hh.
Qed.

Lemma string_keeps_hex a b c d u : hex_of [a; b; c; d] = Some u -> string_keeps [BSLASH; "u"%ch; a; b; c; d].
Proof.
  intros H. apply (string_keeps_app [BSLASH; "u"%ch] [a; b; c; d]); [apply string_keeps_escape|].
  by eapply string_keeps_quiet, hex_quiet.
Qed.

Lemma string_keeps_chars s dec : jchars s dec -> string_keeps s.
Proof.
  induction 1 as [|c d s t Hc _ IH]; [intros q x k Hq; cbn [app length]; by rewrite Nat.add_0_r|]. apply string_keeps_app; [|done].
  destruct Hc as [c Hc|r Hr H128|e He|a b c d u Hu Hs|a b c d e f g h u v Hu Hs Hv Hl].
  - apply string_keeps_byte. unfold is_string_special, is_string_syntax, quiet in *. lia.
  - apply string_keeps_quiet. eapply Forall_impl; [by apply encode_rune_high|]. intros c Hc. cbn beta in Hc. unfold quiet. lia.
  - apply string_keeps_escape.
  - by eapply string_keeps_hex.
  - apply (string_keeps_app [BSLASH; "u"%ch; a; b; c; d] [BSLASH; "u"%ch; e; f; g; h]); by eapply string_keeps_hex.
Qed.

Lemma string_quote d k x : frame_run (in_quotes d k) (DQUOTE :: x) = frame_run (at_depth d (S k)) x.
Proof. done. Qed.

Lemma string_text_keeps s dec : jstring s dec -> keeps s.
Proof.
  intros [s' dec' Hs] d k x Hd. cbn [app length frame_run]. unfold frame_byte, container_byte. cbn [at_depth f_mode f_inStr].
  rewrite Z.eqb_refl. change (step_on _) with (in_quotes d (S k)). rewrite <- app_assoc.
  rewrite (string_keeps_chars s' dec' Hs (in_quotes d)) by (right; by exists d). cbn [app]. rewrite string_quote, length_app. cbn [length]. do 2 f_equal. lia.
Qed.

Lemma keeps_brackets o c s : (o = "["%ch \/ o = "{"%ch) -> (c = "]"%ch \/ c = "}"%ch) -> keeps s -> keeps (o :: s ++ [c]).
Proof.
  intros Ho Hc Hs d k x Hd. cbn [app length frame_run]. unfold frame_byte at 1, container_byte. cbn [at_depth f_mode f_inStr].
  rewrite if_false, if_true by (destruct Ho as [->| ->]; done). change (step_on _) with (at_depth (d + 1) (S k)).
  rewrite <- app_assoc, Hs by lia. cbn [app frame_run]. unfold frame_byte, container_byte. cbn [at_depth f_mode f_inStr].
  rewrite if_false, if_false, if_true by (destruct Hc as [->| ->]; done). cbv zeta.
  cbn [step_on set_depth set_Framed at_depth f_depth Framed]. rewrite if_false by lia. f_equal.
  unfold step_on, set_depth, at_depth, set_Framed. frame_cbn. rewrite length_app. cbn [length]. f_equal; lia.
Qed.

Lemma values_keep :
  (forall k s t, jvalue k s t -> keeps s) /\ (forall k s ts, jelems k s ts -> keeps s) /\ (forall k s ms, jmembers k s ms -> keeps s).
Proof.
  apply jvalue_mutind; intros.
  1-3: apply keeps_neutral; repeat constructor.
  - by apply number_neutral.
  - by eapply string_text_keeps.
  - apply keeps_brackets; [by left|by left|by apply keeps_ws].
  - apply keeps_brackets; [by left|by left|done].
  - apply keeps_brackets; [by right|by right|by apply keeps_ws].
  - apply keeps_brackets; [by right|by right|done].
  - repeat apply keeps_app; try done; by apply keeps_ws.
  - repeat apply keeps_app; [by apply keeps_ws|done|by apply keeps_ws|]. apply (keeps_app [","%ch] rest); [by apply keeps_byte|done].
  - repeat apply keeps_app; [by apply keeps_ws|by eapply string_text_keeps|by apply keeps_ws|].
    apply (keeps_app [":"%ch]); [by apply keeps_byte|]. repeat apply keeps_app; [by apply keeps_ws|done|by apply keeps_ws].
  - repeat apply keeps_app; [by apply keeps_ws|by eapply string_text_keeps|by apply keeps_ws|].
    apply (keeps_app [":"%ch]); [by apply keeps_byte|]. repeat apply keeps_app; [by apply keeps_ws|done|by apply keeps_ws|].
    apply (keeps_app [","%ch]); [by apply keeps_byte|done].
Qed.

Lemma container_frame o c s x : (o = "["%ch \/ o = "{"%ch) -> (c = "]"%ch \/ c = "}"%ch) -> keeps s ->
  exists f, frame_run (Init o) ((s ++ [c]) ++ x) = (f, true) /\ Framed f = length (o :: s ++ [c]).
Proof.
  intros Ho Hc Hs. assert (Init o = at_depth 1 1) as -> by (destruct Ho as [->| ->]; done).
  rewrite <- app_assoc, Hs by lia. cbn [app frame_run]. unfold frame_byte, container_byte. cbn [at_depth f_mode f_inStr].
  rewrite if_false, if_false, if_true by (destruct Hc as [->| ->]; done). cbv zeta.
  eexists. split; [done|]. cbn [step_on set_depth set_Framed f_depth Framed length]. rewrite length_app. simpl. lia.
Qed.

(** The frame of a value that is not a number ends with the value. *)
Lemma value_frame k c v t x : jvalue k (c :: v) t -> is_number t = false ->
  exists f, frame_run (Init c) (v ++ x) = (f, true) /\ Framed f = length (c :: v).
Proof.
  intros Hv. remember (c :: v) as s eqn:Es. destruct Hv as [k Hk|k Hk|k Hk|k s Hk Hn|k s dec Hk Hs|k w Hk Hw|k s ts Hk Hs|k w Hk Hw|k s ms Hk Hs]; intros Hnum; try done.
  1-3: injection Es as <- <-; by eexists.
  - destruct Hs as [s dec Hs]. injection Es as <- <-. change (Init DQUOTE) with (string_frame 1). rewrite <- app_assoc.
    rewrite (string_keeps_chars s dec Hs string_frame) by by left. cbn [app frame_run]. eexists. split; [done|].
    cbn. rewrite length_app. simpl. lia.
  - injection Es as <- <-. apply container_frame; [by left|by left|by apply keeps_ws].
  - injection Es as <- <-. apply container_frame; [by left|by left|by eapply (proj1 (proj2 values_keep))].
  - injection Es as <- <-. apply container_frame; [by right|by right|by apply keeps_ws].
  - injection Es as <- <-. apply container_frame; [by right|by right|by eapply (proj2 (proj2 values_keep))].
Qed.

Lemma frame_byte_framed f c : match frame_byte f c with inl f' => Framed f' = S (Framed f) | inr f' => (Framed f <= Framed f' <= S (Framed f))%nat end.
Proof.
  unfold frame_byte, string_byte, number_byte, literal_byte, container_byte, string_byte. destruct (f_mode f); cbv zeta; repeat case_step; simpl; lia.
Qed.

Lemma frame_run_le f l : (Framed f <= Framed (frame_run f l).1 <= Framed f + length l)%nat.
Proof.
  revert f. induction l as [|c l IH]; intros f; cbn [frame_run length]; [simpl; lia|]. pose proof (frame_byte_framed f c) as H.
  destruct (frame_byte f c) as [f'|f']; [specialize (IH f'); lia|cbn [fst]; lia].
Qed.

Lemma Init_framed c : Framed (Init c) = 1%nat.
Proof. unfold Init. repeat case_step; done. Qed.

(** A frame that ends on a window of the text of a value ends where the value does. *)
Lemma value_frame_end k c v t l x y f : jvalue k (c :: v) t -> is_number t = false -> l ++ y = v ++ x ->
  frame_run (Init c) l = (f, true) -> Framed f = length (c :: v) /\ (length v <= length l)%nat.
Proof.
  intros Hv Hn Heq Hr. destruct (value_frame k c v t x Hv Hn) as (f' & Hf & Hl). pose proof (frame_run_le (Init c) l) as Hle.
  rewrite <- Heq, frame_run_app, Hr in Hf. rewrite Hr, Init_framed in Hle. cbn [fst snd length] in *. injection Hf as ->. split; [done|lia].
Qed.

(** ** Values in windows *)

Definition first_value (T : bytes) : res rerr (nat * tree) := ref_value T DefaultMaxDepth unexpected_byte (S (length T)) 0 0.
Definition value_from (src : bytes) (i : nat) : res rerr (nat * tree) := ref_value src DefaultMaxDepth unexpected_byte (S (length src)) 0 i.

Lemma value_from_sound src i j t : bytes_ok src -> (i <= length src)%nat -> value_from src i = Ok (j, t) ->
  (i < j)%nat /\ exists s, span src i s j /\ jvalue DefaultMaxDepth s t.
Proof.
  intros Hok Hi Hv. pose proof (ref_value_sound src DefaultMaxDepth unexpected_byte Hok (S (length src)) 0 i Hi ltac:(lia)) as H.
  unfold value_from in Hv. rewrite Hv in H. cbn [reads] in H. by rewrite Z.sub_0_r in H.
Qed.

Lemma value_from_returns src i : bytes_ok src -> (i <= length src)%nat -> (exists j t, value_from src i = Ok (j, t)) \/ exists e, value_from src i = Err e.
Proof.
  intros Hok Hi. pose proof (ref_value_sound src DefaultMaxDepth unexpected_byte Hok (S (length src)) 0 i Hi ltac:(lia)) as H.
  fold (value_from src i) in H. destruct (value_from src i) as [[j t]|e| |]; [left; by exists j, t|right; by exists e|done|done].
Qed.

(** The first byte of a value tells whether it is a number. *)
Definition number_head (c : Z) : bool := (c =? "-"%ch) || IsDigit c.

Lemma jvalue_number_head k c v t : jvalue k (c :: v) t -> is_number t = number_head c /\ terminalValueNeedsSourceBoundary c = is_number t.
Proof.
  intros Hv. remember (c :: v) as s eqn:Es. destruct Hv as [k Hk|k Hk|k Hk|k s Hk Hn|k s dec Hk Hs|k w Hk Hw|k s ts Hk Hs|k w Hk Hw|k s ms Hk Hs].
  1-3: by injection Es as <- <-.
  - destruct (jnumber_head s Hn) as (x & u & -> & Hx). injection Es as <- <-. unfold terminalValueNeedsSourceBoundary, number_head, IsDigit in *.
    cbn [is_number]. destruct Hx as [->|Hx]; [done|]. lia.
  - destruct Hs. by injection Es as <- <-.
  - by injection Es as <- <-.
  - by injection Es as <- <-.
  - by injection Es as <- <-.
  - by injection Es as <- <-.
Qed.

Lemma value_head_at src i j t : bytes_ok src -> (i <= length src)%nat -> value_from src i = Ok (j, t) ->
  exists c, src !! i = Some c /\ is_number t = number_head c /\ terminalValueNeedsSourceBoundary c = is_number t.
Proof.
  intros Hok Hi Hv. destruct (value_from_sound _ _ _ _ Hok Hi Hv) as (Hj & s & Hs & Hjv). apply span_len in Hs as Hl.
  destruct s as [|c v]; [simpl in Hl; lia|]. apply span_cons in Hs as [Hc _]. exists c. split; [done|]. by eapply jvalue_number_head.
Qed.

(** At the head of a number the reader is the number scanner. *)
Lemma value_from_number src i c : src !! i = Some c -> number_head c = true -> value_from src i = ref_num src i.
Proof.
  intros Hc Hh. unfold value_from. cbn [ref_value]. rewrite (ref_body_head _ _ _ _ _ _ _ Hc) by done.
  unfold number_head, IsDigit in *. do 6 rewrite if_false by lia. by rewrite if_true by lia.
Qed.

Lemma ref_num_inv src i j t : ref_num src i = Ok (j, t) -> scanNumber src i = (j, EmptyString) /\ t = TNum (slice src i j).
Proof. unfold ref_num. destruct (scanNumber src i) as [k [|]]; [|done]. by intros [= <- <-]. Qed.

Lemma span_agree (s1 s2 s : bytes) i1 j i2 : s <> [] -> span s1 i1 s j ->
  (forall p, (p < j - i1)%nat -> s1 !! (i1 + p)%nat = s2 !! (i2 + p)%nat) -> span s2 i2 s (i2 + length s).
Proof.
  intros Hne Hs Hag. apply span_len in Hs as Hl. destruct Hs as (Hd & _ & Hle).
  assert (Hp : forall p, (p < length s)%nat -> s !! p = s2 !! (i2 + p)%nat).
  { intros p Hp. rewrite <- Hag by lia. rewrite <- lookup_drop, Hd. by rewrite lookup_app_l by done. }
  assert (Hlen : (i2 + length s <= length s2)%nat).
  { assert (Hpos : (0 < length s)%nat) by (destruct s; [done|simpl; lia]). specialize (Hp (length s - 1)%nat ltac:(lia)).
    destruct (lookup_lt_is_Some_2 s (length s - 1) ltac:(lia)) as [x Hx]. rewrite Hx in Hp. symmetry in Hp. apply lookup_lt_Some in Hp. lia. }
  split_and!; [|done|done]. rewrite <- (take_drop (length s) (drop i2 s2)), drop_drop. f_equal.
  apply list_eq. intros p. destruct (Nat.lt_ge_cases p (length s)).
  - rewrite lookup_take_lt, lookup_drop by done. by rewrite Hp.
  - rewrite (lookup_ge_None_2 s), lookup_ge_None_2; [done|rewrite length_take; lia|lia].
Qed.

(** A value is read alike in two texts that agree on it, and on the byte after it
    when it is a number. *)
Lemma value_from_agree s1 i1 s2 i2 j t : bytes_ok s1 -> (i1 <= length s1)%nat -> value_from s1 i1 = Ok (j, t) ->
  (forall p, (p < j - i1)%nat -> s1 !! (i1 + p)%nat = s2 !! (i2 + p)%nat) ->
  (is_number t = true -> s1 !! j = s2 !! (i2 + (j - i1))%nat) ->
  value_from s2 i2 = Ok ((i2 + (j - i1))%nat, t).
Proof.
  intros Hok Hi Hv Hag Hnum. destruct (value_from_sound _ _ _ _ Hok Hi Hv) as (Hj & s & Hs & Hjv). apply span_len in Hs as Hl.
  assert (Hne : s <> []) by (intros ->; simpl in Hl; lia).
  pose proof (span_agree s1 s2 s i1 j i2 Hne Hs Hag) as Hs2. apply span_le in Hs2 as Hle.
  destruct (is_number t) eqn:Et.
  - destruct (value_head_at _ _ _ _ Hok Hi Hv) as (c & Hc & Hh & _). rewrite Et in Hh. symmetry in Hh.
    rewrite (value_from_number _ _ _ Hc Hh) in Hv. apply ref_num_inv in Hv as [Hsc ->].
    assert (Hc2 : s2 !! i2 = Some c) by (rewrite <- Hc; specialize (Hag 0%nat ltac:(lia)); by rewrite !Nat.add_0_r in Hag).
    rewrite (value_from_number _ _ _ Hc2 Hh). destruct (scanNumber_local s1 i1 s2 i2 Hi) as [_ Hloc]. rewrite Hsc in Hloc. cbn [fst snd] in Hloc.
    unfold ref_num. rewrite Hloc.
    + rewrite (span_slice _ _ _ _ Hs). replace (i2 + (j - i1))%nat with (i2 + length s)%nat by lia. by rewrite (span_slice _ _ _ _ Hs2).
    + intros p Hp. destruct (Nat.eq_dec p (j - i1)) as [->|]; [|apply Hag; lia]. replace (i1 + (j - i1))%nat with j by lia. by apply Hnum.
  - replace (i2 + (j - i1))%nat with (i2 + length s)%nat by lia. unfold value_from.
    apply (ref_value_complete_next s2 DefaultMaxDepth unexpected_byte _ 0 i2 _ s t); [by rewrite Z.sub_0_r|done|by rewrite Et|lia].
Qed.

(** The window [drop i src] of a text. *)
Section Window.
Context (src X : bytes) (i : nat).
Abbreviation T := (drop i src ++ X).
Hypothesis Hok : bytes_ok (src ++ X).
Hypothesis Hi : (i <= length src)%nat.

Lemma window_ok : bytes_ok src /\ bytes_ok T.
Proof using Hok.
  apply Forall_app in Hok as [H1 H2]. split; [done|]. apply Forall_app. split; [by apply Forall_drop|done].
Qed.

Lemma window_lookup p : (i + p < length src)%nat -> src !! (i + p)%nat = T !! p.
Proof using Hi. intros Hp. rewrite lookup_app_l, lookup_drop; [done|rewrite length_drop; lia]. Qed.

(** What the window holds, the text has. *)
Lemma window_first j t : value_from src i = Ok (j, t) -> (is_number t = true -> (j < length src)%nat \/ X = []) ->
  first_value T = Ok ((j - i)%nat, t) /\ (i < j <= length src)%nat.
Proof using Hok Hi.
  intros Hv Hn. destruct window_ok as [H1 H2]. destruct (value_from_sound _ _ _ _ H1 Hi Hv) as (Hj & s & Hs & _). apply span_le in Hs as Hle.
  split; [|lia]. change (first_value T) with (value_from T 0). rewrite (value_from_agree src i T 0 j t H1 Hi Hv); [by cbn|..].
  - intros p Hp. apply window_lookup. lia.
  - intros Ht. cbn [Nat.add]. destruct (Nat.lt_ge_cases j (length src)) as [Hlt|Hge].
    + rewrite <- window_lookup by lia. f_equal. lia.
    + destruct (Hn Ht) as [?|Hx]; [lia|]. rewrite (lookup_ge_None_2 src) by lia.
      rewrite lookup_ge_None_2; [done|]. rewrite Hx, app_nil_r, length_drop. lia.
Qed.

(** What the text has and the window can hold, the window has. *)
Lemma first_window n t : first_value T = Ok (n, t) -> (i + n <= length src)%nat -> (is_number t = true -> (i + n < length src)%nat \/ X = []) ->
  value_from src i = Ok ((i + n)%nat, t).
Proof using Hok Hi.
  intros Hv Hle Hn. destruct window_ok as [H1 H2]. change (first_value T) with (value_from T 0) in Hv.
  rewrite (value_from_agree T 0 src i n t H2 ltac:(lia) Hv); [by rewrite Nat.sub_0_r|..].
  - intros p Hp. symmetry. apply window_lookup. lia.
  - intros Ht. rewrite Nat.sub_0_r. destruct (Nat.lt_ge_cases (i + n) (length src)) as [Hlt|Hge]; [symmetry; by apply window_lookup|].
    destruct (Hn Ht) as [?|Hx]; [lia|]. rewrite (lookup_ge_None_2 src) by lia.
    rewrite lookup_ge_None_2; [done|]. rewrite Hx, app_nil_r, length_drop. lia.
Qed.
End Window.

(** [validRootValueFast] answers as the reference reader. *)
Lemma validRootValueFast_follows src i c : bytes_ok src -> src !! i = Some c ->
  match value_from src i with
  | Ok (j, _) => validRootValueFast src i c = Ok (j, true)
  | _ => exists j, validRootValueFast src i c = Ok (j, false)
  end.
Proof.
  intros Hok Hc. apply lookup_lt_Some in Hc as Hlt.
  pose proof (validValueFast_follows src Hok (S (length src)) i c 0 Hc ltac:(done) ltac:(lia)) as H.
  fold (value_from src i) in H. unfold validRootValueFast. destruct (value_from_returns src i Hok ltac:(lia)) as [(j & t & E)|(e & E)]; rewrite E in *; exact H.
Qed.
