(* ===== verification/StreamReader.v ===== *)
(** [stream_reader.go]: the rolling buffer and [Reader.Next].

    The input is any type with a [Read]: the class [Source] is what the reader
    calls, [SourceLaws] what the documentation of [io.Reader] promises.  The
    theorem is that what [Next] delivers depends only on the bytes of the input
    and its final error, not on how the source cuts them, nor on the buffer. *)

From S2P Require Import Prelude Words Utf8 Scanner Lex Grammar StringRef Errors Numbers Reader Validator FastValid Framing.

(** ** Diagnosing truncated values *)

(** [utf8.FullRune]: the bytes begin with a whole encoding or an invalid one. *)
Definition FullRune (p : bytes) : bool :=
  match p with
  | [] => false
  | b0 :: p =>
      if (b0 <? 0xC2) || (0xF4 <? b0) then true
      else
        let size := if b0 <? 0xE0 then 2 else if b0 <? 0xF0 then 3 else 4 in
        if size <=? Z.of_nat (S (length p)) then true
        else
          match p with
          | [] => false
          | b1 :: p => if negb (second_ok b0 b1) then true else match p with b2 :: _ => negb (is_cont b2) | [] => false end
          end
  end.

(** The literal a value may be a beginning of. *)
Definition literal_of (c : Z) : option bytes :=
  if c =? "n"%ch then Some lit_null else if c =? "t"%ch then Some lit_true else if c =? "f"%ch then Some lit_false else None.

Definition incompleteLiteralAt (src : bytes) (offset : Z) : bool :=
  if (offset <? 0) || (Z.of_nat (length src) <=? offset) then false
  else
    let remaining := drop (Z.to_nat offset) src in
    match head remaining with
    | None => false
    | Some c =>
        match literal_of c with
        | None => false
        | Some literal => if (length literal <=? length remaining)%nat then false else match_bytes literal 0 remaining
        end
    end.

(** [for _, c := range s { if hexNibbleTable[c] >= 0x10 { return false } }] *)
Definition all_hex (s : bytes) : bool := forallb (fun c => negb (0x10 <=? hexNibbleTable c)) s.

Definition incompleteHexEscapeAt (src : bytes) (offset : Z) : bool :=
  if (offset <? 0) || (Z.of_nat (length src) <? offset + 2) then false
  else
    let o := Z.to_nat offset in
    if negb (at_byte src o BSLASH) || negb (at_byte src (S o) "u"%ch) || (o + 6 <=? length src)%nat then false
    else all_hex (drop (o + 2) src).

Definition highEscapeBytes : nat := 6.

Definition incompleteLowSurrogateAt (src : bytes) (offset : Z) : bool :=
  let low := offset + Z.of_nat highEscapeBytes in
  if (offset <? 0) || (Z.of_nat (length src) <? low) then false
  else
    let remaining := drop (Z.to_nat low) src in
    if (highEscapeBytes <=? length remaining)%nat then false
    else if (1 <=? length remaining)%nat && negb (at_byte remaining 0 BSLASH) then false
    else if (2 <=? length remaining)%nat && negb (at_byte remaining 1 "u"%ch) then false
    else if (length remaining <? 2)%nat then true
    else all_hex (drop 2 remaining).

Definition incompleteUTF8At (src : bytes) (offset : Z) : bool :=
  (0 <=? offset) && (offset <? Z.of_nat (length src)) && negb (FullRune (drop (Z.to_nat offset) src)).

(** The errors a value can be refused for. *)
Inductive cause : Type :=
  | CSyntax (e : SyntaxError) | CUnexpectedEOF | CRead (msg : string).

Definition one_of (m : string) (l : list string) : bool := existsb (String.eqb m) l.

Definition incompleteFramedValue (src : bytes) (err : cause) (framed : bool) : bool :=
  if framed || (length src =? 0)%nat then false
  else
    match err with
    | CUnexpectedEOF => true
    | CRead _ => false
    | CSyntax e =>
        let m := Message e in
        let o := Offset e in
        if one_of m ["expected value"; "expected object key string"; "expected colon after object key"; "unterminated array"; "unterminated object"]%string
        then o =? Z.of_nat (length src)
        else if one_of m ["unterminated string"; "unterminated escape sequence"]%string then true
        else if one_of m ["invalid number"; "invalid number fraction"; "invalid number exponent"]%string then
          let (stop, message) := scanNumber src (Z.to_nat o) in
          String.eqb message m && (stop =? length src)%nat
        else if String.eqb m "invalid literal" then incompleteLiteralAt src o
        else if String.eqb m "invalid unicode escape" then incompleteHexEscapeAt src o
        else if one_of m ["missing low surrogate"; "invalid low surrogate"]%string then incompleteLowSurrogateAt src o
        else if String.eqb m "invalid UTF-8 in string" then incompleteUTF8At src o
        else false
    end.

(** ** The input *)

Inductive io_error : Type := EOF | Failed (msg : string).

(** What a [Read] call answers: the contents of the slice it was given, the count and the error. *)
Record read_result : Type := mkRead { rd_into : bytes; rd_n : Z; rd_err : option io_error }.

Class Source (S : Type) := Read : S -> nat -> read_result * S.

(** ** The reader *)

Inductive read_failure : Type :=
  | BadReadCount (n available : Z)
  | ReadFailed (msg : string)                     (* the input's own error *)
  | InvalidValue (offset : Z) (c : cause)
  | ValueTooLarge (offset : Z).

(** [r_data] is [buf[:end]] and [r_cap] the length of [buf]. *)
Record Reader (S : Type) : Type := mkReader {
  r_in : S; r_data : bytes; r_cap : nat; r_closed : bool; r_pos : nat; r_valStart : Z; r_valEnd : Z;
  r_readErr : option string; r_consumed : Z; r_maxValue : Z; r_eof : bool; r_hasValue : bool; r_err : option read_failure }.
Arguments mkReader {S} _ _ _ _ _ _ _ _ _ _ _ _ _.
Arguments r_in {S} _.
Arguments r_data {S} _.
Arguments r_cap {S} _.
Arguments r_closed {S} _.
Arguments r_pos {S} _.
Arguments r_valStart {S} _.
Arguments r_valEnd {S} _.
Arguments r_readErr {S} _.
Arguments r_consumed {S} _.
Arguments r_maxValue {S} _.
Arguments r_eof {S} _.
Arguments r_hasValue {S} _.
Arguments r_err {S} _.

Section Operations.
Context {S : Type} `{Source S}.
Implicit Type r : Reader S.

Definition with_pos r (pos : nat) : Reader S :=
  mkReader (r_in r) (r_data r) (r_cap r) (r_closed r) pos (r_valStart r) (r_valEnd r) (r_readErr r) (r_consumed r) (r_maxValue r) (r_eof r) (r_hasValue r) (r_err r).
Definition with_err r (err : option read_failure) : Reader S :=
  mkReader (r_in r) (r_data r) (r_cap r) (r_closed r) (r_pos r) (r_valStart r) (r_valEnd r) (r_readErr r) (r_consumed r) (r_maxValue r) (r_eof r) (r_hasValue r) err.
Definition with_cap r (cap : nat) : Reader S :=
  mkReader (r_in r) (r_data r) cap (r_closed r) (r_pos r) (r_valStart r) (r_valEnd r) (r_readErr r) (r_consumed r) (r_maxValue r) (r_eof r) (r_hasValue r) (r_err r).
Definition with_hasValue r (hasValue : bool) : Reader S :=
  mkReader (r_in r) (r_data r) (r_cap r) (r_closed r) (r_pos r) (r_valStart r) (r_valEnd r) (r_readErr r) (r_consumed r) (r_maxValue r) (r_eof r) hasValue (r_err r).
(** [r.eof = true], with the delayed error. *)
Definition with_eof r (readErr : option string) : Reader S :=
  mkReader (r_in r) (r_data r) (r_cap r) (r_closed r) (r_pos r) (r_valStart r) (r_valEnd r) readErr (r_consumed r) (r_maxValue r) true (r_hasValue r) (r_err r).
Definition with_data r (input : S) (data : bytes) : Reader S :=
  mkReader input data (r_cap r) (r_closed r) (r_pos r) (r_valStart r) (r_valEnd r) (r_readErr r) (r_consumed r) (r_maxValue r) (r_eof r) (r_hasValue r) (r_err r).

Definition defaultReaderSize : Z := 64 * 1024.
Definition new_reader (input : S) (size maxValue : Z) : Reader S :=
  mkReader input [] (Z.to_nat size) false 0 0 0 None 0 maxValue false false None.
Definition NewReader (input : S) : Reader S := new_reader input defaultReaderSize 0.

Definition NewReaderWithOptions (input : S) (bufferSize maxValueBytes : Z) : Reader S + string :=
  if bufferSize <? 0 then inr "vibejson: negative Reader buffer size"%string
  else if maxValueBytes <? 0 then inr "vibejson: negative Reader value limit"%string
  else
    let size := if bufferSize =? 0 then defaultReaderSize else bufferSize in
    let size := if size <? 512 then 512 else size in
    inl (new_reader input size maxValueBytes).

Definition r_Close r : Reader S :=
  if r_closed r then r
  else mkReader (r_in r) [] 0 true (r_pos r) (r_valStart r) (r_valEnd r) (r_readErr r) (r_consumed r) (r_maxValue r) (r_eof r) false (r_err r).

Definition InputOffset r : Z := r_consumed r + r_valEnd r.

(** [Bytes]: nil, or the current value; the slice is checked. *)
Definition r_Bytes r : res unit (option bytes) :=
  if negb (r_hasValue r) then Ok None
  else if (r_valStart r <? 0) || (r_valEnd r <? r_valStart r) || (Z.of_nat (length (r_data r)) <? r_valEnd r) then Panic
  else Ok (Some (slice (r_data r) (Z.to_nat (r_valStart r)) (Z.to_nat (r_valEnd r)))).

Definition failed r (keep : nat) (e : read_failure) : res unit (Reader S * nat * bool) := Ok (with_err r (Some e), keep, false).

(** The read loop of [fill]. *)
Fixpoint read_loop (fuel : nat) r (keep : nat) : res unit (Reader S * nat * bool) :=
  match fuel with
  | O => NoFuel
  | Datatypes.S fuel =>
      let available := (r_cap r - length (r_data r))%nat in
      let (got, input) := Read (r_in r) available in
      let n := rd_n got in
      if (n <? 0) || (Z.of_nat available <? n) then
        failed (with_eof (with_data r input (r_data r)) (r_readErr r)) keep (BadReadCount n (Z.of_nat available))
      else
        let r := with_data r input (r_data r ++ take (Z.to_nat n) (rd_into got)) in
        match rd_err got with
        | Some EOF => Ok (with_eof r (r_readErr r), keep, 0 <? n)
        | Some (Failed msg) => Ok (with_eof r (Some msg), keep, 0 <? n)
        | None => if 0 <? n then Ok (r, keep, true) else read_loop fuel r keep
        end
  end.

(** [fill]: the reader, the new position of the byte to keep, and the answer. *)
Definition fill (fuel : nat) r (keep : nat) : res unit (Reader S * nat * bool) :=
  if r_eof r then Ok (r, keep, false)
  else
    let stop := length (r_data r) in
    if (stop =? r_cap r)%nat then
      if (0 <? r_maxValue r) && (r_maxValue r <? Z.of_nat stop - Z.of_nat keep) then
        failed r keep (ValueTooLarge (r_consumed r + Z.of_nat keep))
      else if (0 <? keep)%nat then
        let k := Z.of_nat keep in
        read_loop fuel (mkReader (r_in r) (drop keep (r_data r)) (r_cap r) (r_closed r) (r_pos r - keep) (r_valStart r - k) (r_valEnd r - k)
          (r_readErr r) (r_consumed r + k) (r_maxValue r) (r_eof r) (r_hasValue r) (r_err r)) 0
      else read_loop fuel (with_cap r (r_cap r * 2)) keep
    else read_loop fuel r keep.

(** An unconfirmed number at a source error. *)
Definition terminalScalarSourceError r (start len : nat) : bool :=
  match r_readErr r with
  | None => false
  | Some _ =>
      if negb (start + len =? length (r_data r))%nat then false
      else match r_data r !! start with Some c => terminalValueNeedsSourceBoundary c | None => false end
  end.

(** The zero boundary: a leading zero and a digit after it. *)
Definition zero_boundary (data : bytes) (start : nat) : option nat :=
  let i := if at_byte data start "-"%ch then (start + 1)%nat else start in
  if at_byte data i "0"%ch && at_digit data (i + 1) then Some (i + 1 - start)%nat else None.

Definition is_number_frame (f : ValueFrame) : bool := match f_mode f with frameNumber => true | _ => false end.

Definition scanFrame r (f : ValueFrame) (start : nat) : res unit (ValueFrame * bool) :=
  match (if is_number_frame f then zero_boundary (r_data r) start else None) with
  | Some framed => Ok (set_Framed f framed, true)
  | None =>
      let previous := Framed f in
      let* (f, framed) := Scan (r_data r) f start in
      let crossed := (0 <? r_maxValue r) && (Z.of_nat previous <=? r_maxValue r) && (r_maxValue r <? Z.of_nat (Framed f)) in
      if is_number_frame f && (crossed || terminalScalarSourceError r start (Framed f)) then
        match r_data r !! start with
        | None => Panic
        | Some c =>
            let* (stop, ok) := validRootValueFast (r_data r) start c in
            if ok && (stop <? start + Framed f)%nat then Ok (set_Framed f (stop - start)%nat, true) else Ok (f, framed)
        end
      else Ok (f, framed)
  end.

Definition answer : Type := res unit (Reader S * bool).

Definition refuse r (e : read_failure) : answer := Ok (with_err r (Some e), false).

(** The checks of a complete value before it is delivered. *)
Definition deliver r (start len : nat) : answer :=
  let offset := r_consumed r + Z.of_nat start in
  if terminalScalarSourceError r start len then
    match r_readErr r with Some msg => refuse r (InvalidValue offset (CRead msg)) | None => Panic end
  else if (0 <? r_maxValue r) && (r_maxValue r <? Z.of_nat len) then refuse r (ValueTooLarge offset)
  else
    Ok (mkReader (r_in r) (r_data r) (r_cap r) (r_closed r) (start + len) (Z.of_nat start) (Z.of_nat (start + len)) (r_readErr r)
          (r_consumed r) (r_maxValue r) (r_eof r) true (r_err r), true).

(** The value is confirmed: a byte follows, the input ended, or none is needed. *)
Definition confirmed r (start stop : nat) : bool :=
  (stop <? length (r_data r))%nat || r_eof r ||
  match r_data r !! start with Some c => negb (terminalValueNeedsSourceBoundary c) | None => false end.

(** The diagnosis of an invalid value from its framed extent. *)
Definition diagnose r (f : ValueFrame) (start : nat) (framed : bool) : answer :=
  let extent := slice (r_data r) start (start + Framed f) in
  let verr := match Validate extent with Err e => Some (CSyntax e) | Ok _ => Some CUnexpectedEOF | _ => None end in
  match verr with
  | None => Panic
  | Some verr =>
      let verr := match r_readErr r with
                  | Some msg => if incompleteFramedValue extent verr framed then CRead msg else verr
                  | None => verr
                  end in
      refuse r (InvalidValue (r_consumed r + Z.of_nat start) verr)
  end.

(** [for { i = SkipSpace(...) ... fill }]: the start of a value, or [inr]. *)
Fixpoint skip_loop (fuel : nat) r (i : nat) : res unit (Reader S * nat + Reader S) :=
  match fuel with
  | O => NoFuel
  | Datatypes.S fuel' =>
      let i := SkipSpace (r_data r) i in
      if (i <? length (r_data r))%nat then Ok (inl (r, i))
      else
        let* (r, i, ok) := fill fuel (with_pos r i) i in
        if (ok : bool) then skip_loop fuel' r i
        else
          Ok (inr (match r_err r with
                   | None => with_err r (option_map ReadFailed (r_readErr r))
                   | Some _ => r
                   end))
  end.

(** The framing loop; [validLen] is [None] for -1. *)
Fixpoint frame_loop (fuel : nat) r (i : nat) (f : ValueFrame) (framed : bool) (validLen : option nat) : answer :=
  match fuel with
  | O => NoFuel
  | Datatypes.S fuel' =>
      let* (f, framed) := if framed then Ok (f, framed) else scanFrame r f i in
      let* checked :=
        match validLen with
        | None =>
            if framed || r_eof r then
              match r_data r !! i with
              | None => Panic
              | Some c => let* (stop, ok) := validRootValueFast (r_data r) i c in Ok (Some (if (ok : bool) then Some (stop - i)%nat else None))
              end
            else Ok None
        | Some len => Ok (Some (Some len))
        end in
      let again validLen :=
        let* (r, i, ok) := fill fuel (with_pos r i) i in
        if negb ok && match r_err r with Some _ => true | None => false end then Ok (r, false)
        else frame_loop fuel' r i f framed validLen in
      match checked with
      | Some None => diagnose r f i framed
      | Some (Some len) => if confirmed r i (i + len) then deliver r i len else again (Some len)
      | None => again None
      end
  end.

(** The value at [i] when the buffer already holds it. *)
Definition value_ready r (i : nat) : res unit (option nat) :=
  match r_data r !! i with
  | None => Panic
  | Some c => let* (stop, ok) := validRootValueFast (r_data r) i c in Ok (if ok && confirmed r i stop then Some stop else None)
  end.

Definition r_Next (fuel : nat) r : answer :=
  if r_closed r then Ok (r, false)
  else match r_err r with
  | Some _ => Ok (r, false)
  | None =>
      let r := with_hasValue r false in
      let* found := skip_loop fuel r (r_pos r) in
      match found with
      | inr r => Ok (r, false)
      | inl (r, i) =>
          let* ready := value_ready r i in
          match ready with
          | Some stop => deliver r i (stop - i)
          | None => match r_data r !! i with None => Panic | Some c => frame_loop fuel r i (Init c) false None end
          end
      end
  end.
End Operations.

Lemma zero_boundary_value src i k : zero_boundary src i = Some k ->
  (i + k < length src)%nat /\ (0 < k)%nat /\ scanNumber src i = ((i + k)%nat, EmptyString) /\ exists c, src !! i = Some c /\ number_head c = true.
Proof.
  unfold zero_boundary. cbv zeta. set (z := if at_byte src i "-"%ch then (i + 1)%nat else i).
  destruct (at_byte src z "0"%ch) eqn:Ez; [|done]. destruct (at_digit src (z + 1)) eqn:Ed; [|done]. intros [= <-].
  assert (Hz : (i <= z)%nat) by (subst z; case_step; lia). apply at_byte_spec in Ez. apply at_digit_spec in Ed as (d & Hd & Hdd).
  apply lookup_lt_Some in Hd as Hlt. split; [lia|]. split; [lia|].
  assert (Hend : forall b, src !! b = Some d -> scan_frac src b = inl b /\ scan_exp src b = inl b).
  { intros b Hb. unfold scan_frac, scan_exp, at_byte. rewrite Hb. unfold IsDigit in Hdd. by rewrite !if_false by lia. }
  replace (S z) with (z + 1)%nat in * by lia. destruct (Hend (z + 1)%nat Hd) as [Hf He].
  unfold scanNumber, scan_sign. subst z. destruct (at_byte src i "-"%ch) eqn:Em.
  - apply at_byte_spec in Em. rewrite Em. cbn [Z.eqb Pos.eqb]. rewrite if_false by lia. replace (S i) with (i + 1)%nat by lia.
    unfold scan_int. rewrite Ez. cbn [Z.eqb Pos.eqb]. replace (S (i + 1)) with (i + 1 + 1)%nat by lia. rewrite Hf, He.
    split; [f_equal; lia|by eexists].
  - rewrite Ez. cbn [Z.eqb Pos.eqb]. unfold scan_int. rewrite Ez. cbn [Z.eqb Pos.eqb]. replace (S i) with (i + 1)%nat by lia. rewrite Hf, He.
    split; [f_equal; lia|by eexists].
Qed.

(** ** The input's contract *)

(** What a source promises: the bytes it has left, the error after them ([None]
    for the end of the input), and that its reads make progress. *)
Class SourceLaws (I : Type) `{Source I} := {
  remaining : I -> bytes;
  final : I -> option string;
  work : I -> nat;
  read_law : forall s k, (0 < k)%nat ->
    let (got, s') := Read s k in
    0 <= rd_n got <= Z.of_nat k /\ (Z.to_nat (rd_n got) <= length (rd_into got))%nat /\
    remaining s = take (Z.to_nat (rd_n got)) (rd_into got) ++ remaining s' /\
    match rd_err got with
    | None => (work s' < work s)%nat /\ final s' = final s
    | Some EOF => remaining s' = [] /\ final s = None
    | Some (Failed m) => remaining s' = [] /\ final s = Some m
    end }.

Section Correct.
Context {I : Type} `{SourceLaws I}.
Implicit Types (r : Reader I) (f : ValueFrame).

(** What the input still holds, and how it ends. *)
Definition tail r : bytes := if r_eof r then [] else remaining (r_in r).
Definition fin r : option string := if r_eof r then r_readErr r else final (r_in r).
Definition rest r (i : nat) : bytes := drop i (r_data r) ++ tail r.

Record live r : Prop := {
  l_closed : r_closed r = false; l_err : r_err r = None; l_cap : (0 < r_cap r)%nat; l_fits : (length (r_data r) <= r_cap r)%nat;
  l_pos : (r_pos r <= length (r_data r))%nat; l_readErr : r_eof r = false -> r_readErr r = None;
  l_bytes : bytes_ok (r_data r ++ tail r) }.

(** Two readers of one stream, and where they stand in it. *)
Record same_stream r (i : nat) r' (i' : nat) : Prop := {
  s_fin : fin r' = fin r; s_max : r_maxValue r' = r_maxValue r; s_has : r_hasValue r' = r_hasValue r;
  s_off : r_consumed r' + Z.of_nat i' = r_consumed r + Z.of_nat i }.

(** The state after a successful or final [fill]. *)
Definition filled r (i : nat) r' (i' : nat) (ok : bool) : Prop :=
  live r' /\ same_stream r i r' i' /\ r_pos r' = i' /\ (i' <= length (r_data r'))%nat /\ rest r' i' = rest r i /\
  (exists new, drop i' (r_data r') = drop i (r_data r) ++ new) /\
  (ok = false -> r_eof r' = true /\ drop i' (r_data r') = drop i (r_data r)) /\
  (r_eof r' = false -> (work (r_in r') < work (r_in r))%nat).

Lemma read_loop_spec fuel r keep : live r -> r_eof r = false -> r_pos r = keep -> (keep <= length (r_data r))%nat ->
  (length (r_data r) < r_cap r)%nat -> (work (r_in r) < fuel)%nat ->
  exists r' ok, read_loop fuel r keep = Ok (r', keep, ok) /\ filled r keep r' keep ok.
Proof.
  revert r. induction fuel as [|fuel IH]; intros r Hl He Hp Hk Hc Hf; [lia|]. cbn [read_loop].
  pose proof (read_law (r_in r) (r_cap r - length (r_data r)) ltac:(lia)) as Hlaw.
  destruct (Read (r_in r) _) as [got s']. destruct Hlaw as (Hn & Hlen & Hrem & Herr). rewrite if_false by lia. cbv zeta.
  set (p := take (Z.to_nat (rd_n got)) (rd_into got)) in *.
  assert (Hpl : length p = Z.to_nat (rd_n got)) by (subst p; rewrite length_take; lia).
  assert (Hbytes : forall x, remaining s' = x -> bytes_ok ((r_data r ++ p) ++ x)).
  { intros x <-. rewrite <- app_assoc, <- Hrem. pose proof (l_bytes r Hl) as Hb. unfold tail in Hb. by rewrite He in Hb. }
  assert (Hrest : forall x, remaining s' = x -> drop keep (r_data r ++ p) ++ x = rest r keep).
  { intros x <-. unfold rest, tail. rewrite He, Hrem, drop_app_le, <- app_assoc by lia. done. }
  assert (Hnew : exists new, drop keep (r_data r ++ p) = drop keep (r_data r) ++ new) by (exists p; by rewrite drop_app_le by lia).
  assert (Hkl : (keep <= length (r_data r ++ p))%nat) by (rewrite length_app; lia).
  assert (Hfit : (length (r_data r ++ p) <= r_cap r)%nat) by (rewrite length_app; lia).
  pose proof (l_readErr r Hl He) as Hre.
  assert (Hnone : (0 <? rd_n got) = false -> drop keep (r_data r ++ p) = drop keep (r_data r)).
  { intros Hz. assert (p = []) as -> by (apply nil_length_inv; lia). by rewrite app_nil_r. }
  destruct (rd_err got) as [[|msg]|].
  - destruct Herr as [Hr Hfin]. eexists _, _. split; [done|]. split_and!; try done; [|constructor; try done; unfold fin; by rewrite He, Hfin|by apply Hrest|intros Hz; split; [done|by apply Hnone]].
    constructor; cbn; try apply Hl; try done; [lia|by apply Hbytes].
  - destruct Herr as [Hr Hfin]. eexists _, _. split; [done|]. split_and!; try done; [|constructor; try done; unfold fin; by rewrite He, Hfin|by apply Hrest|intros Hz; split; [done|by apply Hnone]].
    constructor; cbn; try apply Hl; try done; [lia|by apply Hbytes].
  - destruct Herr as [Hw Hfin].
    assert (Hl' : live (with_data r s' (r_data r ++ p))).
    { constructor; cbn; try apply Hl; try done; [lia|]. unfold tail. cbn. rewrite He. by apply Hbytes. }
    assert (Hsame : same_stream r keep (with_data r s' (r_data r ++ p)) keep) by (constructor; try done; unfold fin; cbn; by rewrite He).
    assert (Hrest' : rest (with_data r s' (r_data r ++ p)) keep = rest r keep) by (unfold rest at 1, tail; cbn; rewrite He; by apply Hrest).
    destruct (Z.ltb_spec 0 (rd_n got)).
    + eexists _, _. split; [done|]. by split_and!.
    + destruct (IH _ Hl' He Hp Hkl) as (r' & ok & -> & Hr' & Hs' & Hp' & Hle & Hrr & (new & Hnw) & Hok & Hww); [cbn; rewrite length_app; lia|cbn; lia|].
      exists r', ok. split; [done|]. split_and!; try done.
      * destruct Hs', Hsame. constructor; congruence.
      * by rewrite Hrr.
      * exists (p ++ new). rewrite Hnw. cbn. rewrite drop_app_le, <- app_assoc by lia. done.
      * intros Hf'. destruct (Hok Hf') as [Ho1 Ho2]. split; [done|]. rewrite Ho2. cbn. apply Hnone. lia.
      * intros He'. specialize (Hww He'). cbn in Hww. lia.
Qed.

(** [fill] either refuses a value past the limit, or moves on. *)
Lemma fill_spec fuel r i : live r -> r_eof r = false -> r_pos r = i -> (i <= length (r_data r))%nat -> (work (r_in r) < fuel)%nat ->
  (0 < r_maxValue r < Z.of_nat (length (r_data r) - i) /\ exists e, fill fuel r i = Ok (with_err r (Some e), i, false)) \/
  exists r' i' ok, fill fuel r i = Ok (r', i', ok) /\ filled r i r' i' ok.
Proof.
  intros Hl He Hp Hi Hf. unfold fill. rewrite He. cbv zeta. pose proof (l_fits r Hl) as Hfit. destruct (Nat.eqb_spec (length (r_data r)) (r_cap r)) as [Hfull|Hroom].
  2:{ right. destruct (read_loop_spec fuel r i Hl He Hp Hi ltac:(lia) Hf) as (r' & ok & E & Hr). by exists r', i, ok. }
  destruct ((0 <? r_maxValue r) && _) eqn:Em; [left; split; [lia|by eexists]|]. right.
  destruct (Nat.ltb_spec 0 i) as [Hk|Hk].
  - set (r1 := mkReader _ _ _ _ _ _ _ _ _ _ _ _ _).
    assert (Hl1 : live r1).
    { destruct Hl as [L1 L2 L3 L4 L5 L6 L7]. constructor; cbn; try done; [rewrite length_drop; lia|rewrite length_drop; lia|intros _; by apply L6|].
      unfold tail in *. rewrite He in L7. cbn. apply Forall_app in L7 as [Hb1 Hb2]. apply Forall_app. split; [by apply Forall_drop|done]. }
    destruct (read_loop_spec fuel r1 0 Hl1 eq_refl) as (r' & ok & E & Hr' & [Hs1 Hs2 Hs3 Hs4] & Hp' & Hle & Hrest & (new & Hnew) & Hok & Hw);
      [cbn; lia|cbn; lia|cbn; rewrite length_drop; pose proof (l_cap r Hl); lia|done|].
    exists r', 0%nat, ok. split; [done|]. split_and!; try done.
    + constructor; [rewrite Hs1; unfold fin; cbn; by rewrite He|done|done|]. cbn in Hs4. lia.
    + rewrite Hrest. unfold rest, tail. cbn. by rewrite He.
    + exists new. by rewrite Hnew.
  - assert (i = 0%nat) as -> by lia.
    assert (Hl1 : live (with_cap r (r_cap r * 2))) by (destruct Hl; constructor; cbn in *; try done; lia).
    destruct (read_loop_spec fuel _ 0 Hl1 He) as (r' & ok & E & Hr); [done|cbn; lia|cbn; pose proof (l_cap r Hl); lia|done|].
    exists r', 0%nat, ok. split; [done|]. destruct Hr as (Hr' & [Hs1 Hs2 Hs3 Hs4] & Hrest). split; [done|]. split; [|done]. by constructor.
Qed.

Lemma same_stream_trans r i r1 i1 r2 i2 : same_stream r i r1 i1 -> same_stream r1 i1 r2 i2 -> same_stream r i r2 i2.
Proof. intros [] []. constructor; congruence. Qed.

(** A text without its leading whitespace. *)
Fixpoint skip_ws (T : bytes) : bytes :=
  match T with [] => [] | c :: T' => if IsJSONWhitespace c then skip_ws T' else T end.

Lemma skip_ws_length T : (length (skip_ws T) <= length T)%nat.
Proof. induction T as [|c T IH]; [done|]. cbn [skip_ws length]. destruct (IsJSONWhitespace c); [lia|done]. Qed.

Lemma skip_ws_nil w : ws w -> skip_ws w = [].
Proof using. induction 1 as [|c w Hc _ IH]; [done|]. cbn [skip_ws]. by rewrite Hc. Qed.

Lemma skip_ws_app a b : skip_ws (a ++ b) = match skip_ws a with [] => skip_ws b | s => s ++ b end.
Proof. induction a as [|c a IH]; [done|]. cbn [skip_ws app]. by destruct (IsJSONWhitespace c). Qed.

Lemma skip_ws_drop src i : (i <= length src)%nat ->
  drop (ref_ws src i) src = skip_ws (drop i src) /\ ref_ws src i = (i + (length (drop i src) - length (skip_ws (drop i src))))%nat.
Proof.
  intros Hi. remember (length src - i)%nat as m eqn:Em. revert i Em Hi. induction m as [|m IH]; intros i Em Hi; unfold ref_ws; rewrite advance_unfold.
  - rewrite lookup_ge_None_2, drop_ge by lia. simpl. split; [done|lia].
  - destruct (lookup_lt_is_Some_2 src i ltac:(lia)) as [c Hc]. rewrite Hc, (lookup_Some_drop _ _ _ Hc). cbn [skip_ws]. destruct (IsJSONWhitespace c) eqn:Ew.
    + destruct (IH (S i) ltac:(lia) ltac:(lia)) as [H1 H2]. unfold ref_ws in *. split; [done|]. rewrite H2. cbn [length].
      pose proof (skip_ws_length (drop (S i) src)). lia.
    + rewrite (lookup_Some_drop _ _ _ Hc). split; [done|lia].
Qed.

(** Enough turns for the loops: one for each read left, and two to finish. *)
Definition enough (fuel : nat) r : Prop := (0 < fuel)%nat /\ (r_eof r = false -> (work (r_in r) + 1 < fuel)%nat).

Lemma skip_loop_spec fuel r i : live r -> (i <= length (r_data r))%nat -> enough fuel r ->
  let T := rest r i in
  match skip_ws T with
  | [] => exists r', skip_loop fuel r i = Ok (inr r') /\ r_err r' = option_map ReadFailed (fin r) /\ r_hasValue r' = r_hasValue r /\ r_closed r' = false
  | _ => exists r' i', skip_loop fuel r i = Ok (inl (r', i')) /\ live r' /\ (i' < length (r_data r'))%nat /\ rest r' i' = skip_ws T /\
      same_stream r (i + (length T - length (skip_ws T))) r' i' /\ (r_eof r' = false -> r_eof r = false /\ (work (r_in r') <= work (r_in r))%nat)
  end.
Proof.
  cbv zeta. revert r i. induction fuel as [|fuel IH]; intros r i Hl Hi [Hf1 Hf2]; [lia|]. cbn [skip_loop]. cbv zeta.
  pose proof (l_bytes r Hl) as Hb. apply Forall_app in Hb as [Hbd _].
  rewrite SkipSpace_spec by done. fold (ref_ws (r_data r) i). pose proof (ref_ws_le (r_data r) i Hi) as Hle.
  destruct (skip_ws_drop (r_data r) i Hi) as [Hd Hj]. set (j := ref_ws (r_data r) i) in *.
  assert (HT : skip_ws (rest r i) = match skip_ws (drop i (r_data r)) with [] => skip_ws (tail r) | s => s ++ tail r end) by apply skip_ws_app.
  destruct (Nat.ltb_spec j (length (r_data r))) as [Hlt|Hge].
  - assert (HT' : skip_ws (rest r i) = rest r j).
    { rewrite HT, <- Hd. unfold rest. destruct (lookup_lt_is_Some_2 _ _ Hlt) as [c Hc]. by rewrite (lookup_Some_drop _ _ _ Hc). }
    rewrite HT'. destruct (rest r j) as [|c R] eqn:ER.
    { exfalso. apply (f_equal length) in ER. unfold rest in ER. rewrite length_app, length_drop in ER. simpl in ER. lia. }
    exists r, j. split_and!; [done|done|done|done| |done]. constructor; try done.
    rewrite <- ER. unfold rest. rewrite !length_app, !length_drop. lia.
  - assert (j = length (r_data r)) as Ej by lia. rewrite Ej, drop_all in Hd. rewrite <- Hd in HT.
    assert (Hl' : live (with_pos r j)) by (destruct Hl; constructor; cbn in *; try done; lia).
    destruct (r_eof r) eqn:He.
    + unfold fill. cbn [r_eof with_pos]. rewrite He. cbn [res_bind]. assert (Htl : tail r = []) by (unfold tail; by rewrite He).
      rewrite HT, Htl. cbn [skip_ws]. eexists. split; [done|]. cbn. rewrite (l_err r Hl). cbn. split_and!; [|done|apply Hl].
      unfold fin. by rewrite He.
    + specialize (Hf2 eq_refl). destruct (fill_spec (S fuel) (with_pos r j) j Hl' He) as [(Hm & _)|(r1 & i1 & ok & -> & Hr1 & Hs1 & Hp1 & Hle1 & Hrest1 & _ & Hok & Hw)];
        [done|cbn; lia|cbn; lia|cbn in Hm; lia|]. cbn [res_bind].
      assert (Hrest0 : rest (with_pos r j) j = tail r) by (unfold rest; cbn; by rewrite Ej, drop_all).
      assert (Hs0 : same_stream r (i + (length (rest r i) - length (tail r))) r1 i1).
      { destruct Hs1 as [A1 A2 A3 A4]. constructor; [done|done|done|]. rewrite A4. cbn. unfold rest. rewrite length_app, length_drop. lia. }
      rewrite Hrest0 in Hrest1. destruct ok.
      * specialize (IH r1 i1 Hr1 Hle1). rewrite Hrest1, <- HT in IH. pose proof (skip_ws_length (tail r)) as Hsl. pose proof (skip_ws_length (rest r i)) as Hsl'.
        assert (Htr : (length (tail r) <= length (rest r i))%nat) by (unfold rest; rewrite length_app; lia).
        destruct (skip_ws (rest r i)) as [|c R] eqn:ER.
        -- destruct IH as (r' & -> & H1 & H2 & H3); [split; [lia|]; intros E; specialize (Hw E); cbn in Hw; lia|]. exists r'.
           destruct Hs1 as [A1 A2 A3 _]. split_and!; [done| |by rewrite H2, A3|done]. rewrite H1. f_equal. exact A1.
        -- destruct IH as (r' & i' & -> & H1 & H2 & H3 & H4 & H5); [split; [lia|]; intros E; specialize (Hw E); cbn in Hw; lia|]. exists r', i'.
           split_and!; [done|done|done|done| |].
           ++ destruct Hs0 as [A1 A2 A3 A4], H4 as [B1 B2 B3 B4]. rewrite <- HT in Hsl. constructor; [congruence|congruence|congruence|]. lia.
           ++ intros E. destruct (H5 E) as [E1 E2]. specialize (Hw E1). cbn in Hw. split; [done|lia].
      * destruct (Hok eq_refl) as [He1 Hd1]. cbn in Hd1. rewrite Ej, drop_all in Hd1.
        assert (Htl : tail r = []) by (rewrite <- Hrest1; unfold rest, tail; by rewrite He1, Hd1).
        rewrite HT, Htl. cbn [skip_ws]. rewrite (l_err r1 Hr1). eexists. split; [done|]. destruct Hs1 as [A1 A2 A3 _].
        split_and!; [|done|apply Hr1]. cbn. f_equal. unfold fin in A1 at 1. rewrite He1 in A1. exact A1.
Qed.
(** ** The specification of one [Next] *)

(** The length of the value a stream starts with, if it is delivered: not a number
    that the input's error cut off, and within the limit. *)
Definition accepted (maxValue : Z) (err : option string) (T : bytes) : option nat :=
  match first_value T with
  | Ok (n, t) =>
      if is_number t && (n =? length T)%nat && match err with Some _ => true | None => false end then None
      else if (0 <? maxValue) && (maxValue <? Z.of_nat n) then None
      else Some n
  | _ => None
  end.

(** The current value is [v], and the stream goes on with [T']. *)
Definition delivered r0 (i : nat) r' (v T' : bytes) : Prop :=
  live r' /\ r_Bytes r' = Ok (Some v) /\ rest r' (r_pos r') = T' /\ fin r' = fin r0 /\ r_maxValue r' = r_maxValue r0 /\
  InputOffset r' = r_consumed r0 + Z.of_nat i + Z.of_nat (length v) /\
  (r_eof r' = false -> r_eof r0 = false /\ (work (r_in r') <= work (r_in r0))%nat).

Definition outcome r (i : nat) (a : answer) : Prop :=
  match accepted (r_maxValue r) (fin r) (rest r i) with
  | Some n => exists r', a = Ok (r', true) /\ delivered r i r' (take n (rest r i)) (drop n (rest r i))
  | None => exists r' e, a = Ok (r', false) /\ r_err r' = Some e /\ r_hasValue r' = r_hasValue r /\ r_closed r' = false
  end.

Lemma live_ok r : live r -> bytes_ok (r_data r) /\ bytes_ok (tail r).
Proof. intros Hl. apply Forall_app. apply Hl. Qed.

Lemma tail_eof r : r_eof r = true -> tail r = [].
Proof. unfold tail. by intros ->. Qed.

(** A complete and confirmed value is delivered, or refused as specified. *)
Lemma deliver_ok r i n t c : live r -> first_value (rest r i) = Ok (n, t) -> (i + n <= length (r_data r))%nat ->
  r_data r !! i = Some c -> terminalValueNeedsSourceBoundary c = is_number t -> confirmed r i (i + n) = true ->
  outcome r i (deliver r i n).
Proof.
  intros Hl Hv Hn Hc Hnum Hconf. apply lookup_lt_Some in Hc as Hlt.
  assert (Hfin : is_number t && (n =? length (rest r i))%nat && match fin r with Some _ => true | None => false end = terminalScalarSourceError r i n).
  { unfold terminalScalarSourceError. rewrite Hc, Hnum. unfold confirmed in Hconf. rewrite Hc, Hnum in Hconf. unfold fin, rest, tail in *.
    pose proof (l_readErr r Hl) as Hre. rewrite length_app, length_drop. destruct (r_eof r) eqn:He.
    - destruct (r_readErr r); [|by rewrite andb_false_r]. simpl. rewrite andb_true_r. destruct (is_number t); cbn [andb].
      + destruct (Nat.eqb_spec n (length (r_data r) - i + 0)), (Nat.eqb_spec (i + n) (length (r_data r))); cbn [negb]; done || lia.
      + by destruct (i + n =? length (r_data r))%nat.
    - rewrite Hre by done. destruct (is_number t); [|done]. rewrite (proj2 (Nat.eqb_neq _ _)); [done|]. lia. }
  unfold outcome, accepted. rewrite Hv, Hfin. unfold deliver. cbv zeta.
  destruct (terminalScalarSourceError r i n) eqn:Et.
  { unfold terminalScalarSourceError in Et. destruct (r_readErr r) as [msg|]; [|done]. eexists _, _. split; [done|]. cbn. split_and!; [done|done|apply Hl]. }
  destruct ((0 <? r_maxValue r) && _); [eexists _, _; split; [done|]; cbn; split_and!; [done|done|apply Hl]|].
  eexists. split; [done|]. destruct Hl as [L1 L2 L3 L4 L5 L6 L7].
  assert (Htk : take n (rest r i) = slice (r_data r) i (i + n)).
  { unfold rest, slice. rewrite take_app_le by (rewrite length_drop; lia). f_equal. lia. }
  split_and!; [constructor; try done; cbn; lia| | |done|done| |done].
  - unfold r_Bytes. cbn. rewrite if_false by lia. rewrite Htk. do 2 f_equal. f_equal; lia.
  - unfold rest. cbn. rewrite drop_app_le by (rewrite length_drop; lia). by rewrite drop_drop.
  - unfold InputOffset. cbn. rewrite Htk. unfold slice. rewrite length_take, length_drop. lia.
Qed.
(** ** The frame of a window *)

Lemma Init_mode c : is_number_frame (Init c) = terminalValueNeedsSourceBoundary c.
Proof.
  unfold Init, terminalValueNeedsSourceBoundary, is_number_frame.
  destruct (c =? "{"%ch) eqn:E1, (c =? "["%ch) eqn:E2, (c =? DQUOTE) eqn:E3, (c =? "n"%ch) eqn:E4, (c =? "t"%ch) eqn:E5, (c =? "f"%ch) eqn:E6; done || lia.
Qed.

Lemma Init_wf c : wf_frame (Init c).
Proof. unfold wf_frame, Init. repeat case_step; simpl; intros; done. Qed.

Lemma frame_run_wf f l : wf_frame f -> (frame_run f l).2 = false -> wf_frame (frame_run f l).1 /\ f_mode (frame_run f l).1 = f_mode f.
Proof.
  revert f. induction l as [|c l IH]; intros f Hw; cbn [frame_run]; [done|]. destruct (frame_byte f c) as [f'|f'] eqn:E; [|done].
  destruct (frame_byte_wf f c f' Hw E) as [Hw' Hm]. intros Hf. destruct (IH f' Hw' Hf) as [H1 H2]. split; [done|congruence].
Qed.

Lemma frame_byte_mode f c : match frame_byte f c with inl f' | inr f' => f_mode f' end = f_mode f.
Proof.
  unfold frame_byte, string_byte, number_byte, literal_byte, container_byte, string_byte. destruct (f_mode f) eqn:E; cbv zeta; repeat case_step; done.
Qed.

Lemma frame_run_mode f l : f_mode (frame_run f l).1 = f_mode f.
Proof.
  revert f. induction l as [|c l IH]; intros f; cbn [frame_run]; [done|]. pose proof (frame_byte_mode f c) as Hm.
  destruct (frame_byte f c) as [f'|f']; [by rewrite IH|done].
Qed.

(** The frame has seen the first bytes of the value that starts with [c] at [i]. *)
Definition framing r (i : nat) (c : Z) f : Prop :=
  r_data r !! i = Some c /\ exists l l', drop (S i) (r_data r) = l ++ l' /\ frame_run (Init c) l = (f, false).

Lemma framing_facts r i c f : framing r i c f ->
  wf_frame f /\ f_mode f = f_mode (Init c) /\ (i + Framed f <= length (r_data r))%nat /\
  frame_run f (drop (i + Framed f) (r_data r)) = frame_run (Init c) (drop (S i) (r_data r)).
Proof.
  intros (Hc & l & l' & Hd & Hr). destruct (frame_run_wf (Init c) l (Init_wf c)) as [H1 H2]; [by rewrite Hr|].
  pose proof (frame_run_framed (Init c) l) as H3. rewrite Hr in H1, H2, H3. cbn [fst snd] in *. specialize (H3 eq_refl). rewrite Init_framed in H3.
  apply (f_equal length) in Hd as Hlen. rewrite length_drop, length_app in Hlen. apply lookup_lt_Some in Hc.
  split_and!; [done|done|lia|]. rewrite Hd, frame_run_app, Hr. cbn [fst snd]. f_equal.
  replace (i + Framed f)%nat with (S i + length l)%nat by lia. rewrite <- drop_drop, Hd. by rewrite drop_app_length.
Qed.

Lemma rest_head r i c : r_data r !! i = Some c -> rest r i = c :: drop (S i) (r_data r) ++ tail r.
Proof. intros Hc. unfold rest. by rewrite (lookup_Some_drop _ _ _ Hc). Qed.

(** A value of the stream longer than the limit. *)
Definition too_long r (T : bytes) : Prop := forall n t, first_value T = Ok (n, t) -> r_maxValue r < Z.of_nat n.
Definition long_frame r (T : bytes) f : Prop := 0 < r_maxValue r < Z.of_nat (Framed f) -> too_long r T.

(** The window decides the value: it holds the stream's value if there is one, and
    a number it holds is followed by a byte. *)
Definition decided r (i : nat) : Prop :=
  (forall n t, first_value (rest r i) = Ok (n, t) -> (i + n <= length (r_data r))%nat /\ (is_number t = true -> (i + n < length (r_data r))%nat)) /\
  (forall j t, value_from (r_data r) i = Ok (j, t) -> is_number t = true -> (j < length (r_data r))%nat).

(** A number that ends inside the window decides it. *)
Lemma number_decides r i j t : live r -> (i <= length (r_data r))%nat -> value_from (r_data r) i = Ok (j, t) -> is_number t = true ->
  (j < length (r_data r))%nat -> decided r i.
Proof.
  intros Hl Hi Hv Ht Hj. destruct (window_first (r_data r) (tail r) i (l_bytes r Hl) Hi j t Hv ltac:(by left)) as [Hf Hb]. split.
  - intros n t' Hn. fold (rest r i) in Hf. rewrite Hf in Hn. injection Hn as <- <-. split; lia.
  - intros j' t' Hv' _. rewrite Hv in Hv'. by injection Hv' as <- <-.
Qed.

Lemma value_is_number T n t c u : bytes_ok T -> T = c :: u -> first_value T = Ok (n, t) -> is_number t = is_number_frame (Init c).
Proof.
  intros Hok -> Hv. change (first_value _) with (value_from (c :: u) 0) in Hv. destruct (value_head_at _ 0 _ _ Hok ltac:(simpl; lia) Hv) as (x & Hx & _ & Hb).
  injection Hx as <-. by rewrite Init_mode, Hb.
Qed.

(** A frame that ends on the window decides it. *)
Lemma frame_decides r i c f : live r -> r_data r !! i = Some c -> frame_run (Init c) (drop (S i) (r_data r)) = (f, true) -> decided r i.
Proof.
  intros Hl Hc Hr. pose proof (live_ok r Hl) as [Hok1 Hok2]. apply lookup_lt_Some in Hc as Hlt.
  pose proof (window_ok (r_data r) (tail r) i (l_bytes r Hl)) as [_ HokT]. fold (rest r i) in HokT.
  pose proof (rest_head r i c Hc) as HT. set (l := drop (S i) (r_data r)) in *.
  assert (Hll : length l = (length (r_data r) - S i)%nat) by (subst l; by rewrite length_drop).
  destruct (is_number_frame (Init c)) eqn:Em.
  - assert (Hm : f_mode (Init c) = frameNumber) by (unfold is_number_frame in Em; by destruct (f_mode (Init c))).
    split.
    + intros n t Hv. assert ((i + n < length (r_data r))%nat); [|split; lia].
      pose proof (value_is_number _ n t c _ HokT HT Hv) as Hn. rewrite Em in Hn. change (first_value ?x) with (value_from x 0) in Hv.
      destruct (value_head_at _ 0 _ _ HokT ltac:(lia) Hv) as (x & Hx & Hh & _). rewrite Hn in Hh. symmetry in Hh.
      rewrite (value_from_number _ 0 x Hx Hh) in Hv. apply ref_num_inv in Hv as [Hs _].
      pose proof (number_frame_end c l (tail r) f Hm Hr) as He. rewrite <- HT, Hs in He. cbn [fst] in He. lia.
    + intros j t Hv Hn. destruct (value_head_at _ i _ _ Hok1 ltac:(lia) Hv) as (x & Hx & Hh & _). rewrite Hn in Hh. symmetry in Hh.
      rewrite (value_from_number _ i x Hx Hh) in Hv. apply ref_num_inv in Hv as [Hs _].
      pose proof (number_frame_end c l [] f Hm Hr) as He. rewrite app_nil_r in He.
      destruct (scanNumber_local (r_data r) i (c :: l) 0 ltac:(lia)) as [Hb Hloc]. rewrite Hs in Hb, Hloc. cbn [fst snd] in *.
      rewrite Hloc in He; [cbn [fst] in He; lia|]. intros p _. rewrite <- lookup_drop, (lookup_Some_drop _ _ _ Hc). done.
  - split.
    + intros n t Hv. pose proof (value_is_number _ n t c _ HokT HT Hv) as Hn. rewrite Em in Hn. rewrite Hn. split; [|done].
      change (first_value ?x) with (value_from x 0) in Hv. destruct (value_from_sound _ 0 n t HokT ltac:(lia) Hv) as (Hpos & s & Hs & Hjv).
      apply span_len in Hs as Hl'. destruct s as [|x v]; [simpl in Hl'; lia|]. apply span_cons in Hs as Hs'. destruct Hs' as [Hx Hs'].
      rewrite HT in Hx. injection Hx as <-. destruct Hs' as (Hd & _ & _). rewrite HT in Hd. cbn [drop skipn] in Hd. rewrite drop_0 in Hd.
      destruct (value_frame_end _ c v t l _ (tail r) f Hjv Hn Hd Hr) as [_ Hle]. simpl in Hl'. lia.
    + intros j t Hv Hn. destruct (value_head_at _ i _ _ Hok1 ltac:(lia) Hv) as (x & Hx & _ & Hb). rewrite Hc in Hx. injection Hx as <-.
      rewrite Init_mode, Hb in Em. congruence.
Qed.
(** A value of the stream that the window does not hold is at least as long. *)
Lemma undecided_long r i n t : live r -> (i <= length (r_data r))%nat -> first_value (rest r i) = Ok (n, t) ->
  (forall j t', value_from (r_data r) i = Ok (j, t') -> (length (r_data r) <= j)%nat) -> (length (r_data r) <= i + n)%nat.
Proof.
  intros Hl Hi Hv Hno. destruct (Nat.le_gt_cases (length (r_data r)) (i + n)) as [|Hlt]; [done|exfalso].
  pose proof (first_window (r_data r) (tail r) i (l_bytes r Hl) Hi n t Hv ltac:(lia) ltac:(by left)) as Hf. apply Hno in Hf. lia.
Qed.

(** One turn of framing: the window is decided, or the frame went over all of it. *)
Lemma scanFrame_spec r i c f : live r -> framing r i c f -> long_frame r (rest r i) f ->
  exists f' d, scanFrame r f i = Ok (f', d) /\ (i + Framed f' <= length (r_data r))%nat /\
    if d : bool then decided r i
    else frame_run (Init c) (drop (S i) (r_data r)) = (f', false) /\ long_frame r (rest r i) f'.
Proof.
  intros Hl Hfr Hlong. destruct (framing_facts r i c f Hfr) as (Hwf & Hmode & Hle & Hrun). destruct Hfr as (Hc & _).
  apply lookup_lt_Some in Hc as Hlt. pose proof (live_ok r Hl) as [Hok _].
  assert (Hnf : is_number_frame f = is_number_frame (Init c)) by (unfold is_number_frame; by rewrite Hmode).
  unfold scanFrame. destruct (if is_number_frame f then zero_boundary (r_data r) i else None) as [k|] eqn:Ez.
  { destruct (is_number_frame f); [|done]. apply zero_boundary_value in Ez as (Hk & Hk0 & Hs & x & Hx & Hh).
    exists (set_Framed f k), true. split; [done|]. cbn [set_Framed Framed]. split; [lia|].
    assert (Hv : value_from (r_data r) i = Ok ((i + k)%nat, TNum (slice (r_data r) i (i + k)))).
    { rewrite (value_from_number _ _ x Hx Hh). unfold ref_num. by rewrite Hs. }
    by apply (number_decides r i _ _ Hl ltac:(lia) Hv). }
  cbv zeta. rewrite Scan_run by done. cbn [res_bind]. rewrite Hrun. pose proof (frame_run_le (Init c) (drop (S i) (r_data r))) as Hf1.
  rewrite Init_framed, length_drop in Hf1. pose proof (frame_decides r i c) as Hdec. pose proof (frame_run_framed (Init c) (drop (S i) (r_data r))) as Hfull.
  rewrite Init_framed, length_drop in Hfull. pose proof (frame_run_mode (Init c) (drop (S i) (r_data r))) as Hm1.
  destruct (frame_run (Init c) (drop (S i) (r_data r))) as [f1 d] eqn:Er. cbn [fst snd] in *.
  assert (Hn1 : is_number_frame f1 = is_number_frame f) by (unfold is_number_frame; by rewrite Hm1, Hmode). rewrite Hn1.
  assert (Hplain : d = false -> (is_number_frame f = true -> long_frame r (rest r i) f1) -> long_frame r (rest r i) f1).
  { intros -> Hn. destruct (is_number_frame f) eqn:Em; [by apply Hn|]. clear Hn. intros Hmax n t Hv.
    pose proof (rest_head r i c Hc) as HT. pose proof (window_ok (r_data r) (tail r) i (l_bytes r Hl)) as [_ HokT]. fold (rest r i) in HokT.
    pose proof (value_is_number _ n t c _ HokT HT Hv) as Hnum. rewrite <- Hnf in Hnum.
    change (first_value ?x) with (value_from x 0) in Hv. destruct (value_from_sound _ 0 n t HokT ltac:(lia) Hv) as (Hpos & s & Hs & Hjv).
    apply span_len in Hs as Hl'. destruct s as [|x v]; [simpl in Hl'; lia|]. apply span_cons in Hs as [Hx (Hd & _ & _)].
    rewrite HT in Hx. injection Hx as <-. rewrite HT in Hd. cbn [drop skipn] in Hd. rewrite drop_0 in Hd. simpl in Hl'.
    specialize (Hfull eq_refl). destruct (Nat.le_gt_cases (length v) (length (drop (S i) (r_data r)))) as [Hvl|Hvl]; [exfalso|rewrite length_drop in Hvl; lia].
    assert (Hpre : drop (S i) (r_data r) = v ++ drop (length v) (drop (S i) (r_data r))).
    { rewrite <- (take_drop (length v) (drop (S i) (r_data r))) at 1. f_equal. apply (f_equal (take (length v))) in Hd.
      rewrite take_app_length, take_app_le in Hd by done. done. }
    destruct (value_frame _ c v t (drop (length v) (drop (S i) (r_data r))) Hjv Hnum) as (f2 & Hf2 & _). rewrite <- Hpre, Er in Hf2. done. }
  destruct (is_number_frame f && _) eqn:Eb.
  2:{ exists f1, d. split; [done|]. split; [lia|]. destruct d; [by apply (Hdec f1)|]. split; [done|]. apply Hplain; [done|]. intros Hn.
    rewrite Hn in Eb. cbn [andb] in Eb. apply orb_false_iff in Eb as [Eb _]. intros Hmax. apply Hlong. lia. }
  rewrite Hc. pose proof (validRootValueFast_follows (r_data r) i c Hok Hc) as Hval.
  apply andb_prop in Eb as [En _].
  destruct (value_from_returns (r_data r) i Hok ltac:(lia)) as [(j & t & Hv)|(e & Hv)]; rewrite Hv in Hval.
  - rewrite Hval. cbn [res_bind andb]. destruct (value_head_at _ i j t Hok ltac:(lia) Hv) as (x & Hx & _ & Hb). rewrite Hc in Hx. injection Hx as <-.
    rewrite <- Init_mode, <- Hnf, En in Hb. destruct (value_from_sound _ i j t Hok ltac:(lia) Hv) as (Hj & s & Hs & _). apply span_le in Hs.
    destruct (Nat.ltb_spec j (i + Framed f1)) as [Hjf|Hjf].
    + exists (set_Framed f1 (j - i)%nat), true. split; [done|]. cbn [set_Framed Framed]. split; [lia|]. apply (number_decides r i j t); try done; lia.
    + exists f1, d. split; [done|]. split; [lia|]. destruct d; [by apply (Hdec f1)|]. split; [done|]. intros Hmax n t' Hn'.
      specialize (Hfull eq_refl). assert ((length (r_data r) <= i + n)%nat); [|lia]. apply (undecided_long r i n t' Hl ltac:(lia) Hn').
      intros j' t2 Hv'. rewrite Hv in Hv'. injection Hv' as <- <-. lia.
  - destruct Hval as (j & ->). cbn [res_bind andb]. exists f1, d. split; [done|]. split; [lia|]. destruct d; [by apply (Hdec f1)|]. split; [done|].
    intros Hmax n t' Hn'. specialize (Hfull eq_refl). assert ((length (r_data r) <= i + n)%nat); [|lia].
    apply (undecided_long r i n t' Hl ltac:(lia) Hn'). intros j' t2 Hv'. congruence.
Qed.
Lemma Validate_total src : bytes_ok src -> Validate src = Ok tt \/ exists e, Validate src = Err e.
Proof.
  intros Hok. unfold Validate. rewrite validateOptions_ref by done. pose proof (ref_doc_sound src (maxDepthOrDefault (MaxDepth (mkOptions 0 false))) unexpected_byte Hok) as Hs.
  destruct (ref_doc _ _ _) as [t|[o m]| |]; [by left|right; by eexists|done|done].
Qed.

Lemma diagnose_refuses r f i d : live r -> exists e, diagnose r f i d = Ok (with_err r (Some e), false).
Proof.
  intros Hl. unfold diagnose. cbv zeta. pose proof (live_ok r Hl) as [Hok _].
  destruct (Validate_total (slice (r_data r) i (i + Framed f)) ltac:(by apply Forall_take, Forall_drop)) as [Hv|(e & Hv)]; rewrite Hv; by eexists.
Qed.

Lemma refused_outcome r i r' e : accepted (r_maxValue r) (fin r) (rest r i) = None -> r_hasValue r' = r_hasValue r -> r_closed r' = false ->
  outcome r i (Ok (with_err r' (Some e), false)).
Proof. intros Ha Hh Hc. unfold outcome. rewrite Ha. eexists _, e. split; [done|]. split_and!; [done|by cbn|done]. Qed.

(** The outcome is about the stream, not about where the reader keeps it. *)
Lemma outcome_moved r i r' i' a : same_stream r i r' i' -> rest r' i' = rest r i ->
  (r_eof r' = false -> r_eof r = false /\ (work (r_in r') <= work (r_in r))%nat) -> outcome r' i' a -> outcome r i a.
Proof.
  intros [S1 S2 S3 S4] Hrest Hw. unfold outcome. rewrite S1, S2, Hrest. destruct (accepted _ _ _) as [n|].
  - intros (r2 & -> & D1 & D2 & D3 & D4 & D5 & D6 & D7). exists r2. split; [done|]. split_and!; try done; [congruence|congruence|rewrite D6, S4; lia|].
    intros E. destruct (D7 E) as [E1 E2]. destruct (Hw E1). split; [done|lia].
  - intros (r2 & e & -> & D1 & D2 & D3). exists r2, e. split_and!; [done|done|congruence|done].
Qed.

(** A decided window, or all of the input, gives the outcome. *)
Lemma decided_turn r i c f d k : live r -> r_data r !! i = Some c -> (d = true -> decided r i) -> d || r_eof r = true ->
  outcome r i (
    let* checked := match r_data r !! i with
      | None => Panic
      | Some c => let* (stop, ok) := validRootValueFast (r_data r) i c in Ok (Some (if (ok : bool) then Some (stop - i)%nat else None))
      end in
    match checked with
    | Some None => diagnose r f i d
    | Some (Some len) => if confirmed r i (i + len) then deliver r i len else k (Some len)
    | None => k None
    end).
Proof.
  intros Hl Hc Hdec Hd. rewrite Hc. pose proof (live_ok r Hl) as [Hok _]. apply lookup_lt_Some in Hc as Hlt.
  pose proof (validRootValueFast_follows (r_data r) i c Hok Hc) as Hval.
  assert (Hnum : forall j t, value_from (r_data r) i = Ok (j, t) -> is_number t = true -> (j < length (r_data r))%nat \/ tail r = []).
  { intros j t Hv Ht. destruct d; [left; by apply (proj2 (Hdec eq_refl) j t)|right; by apply tail_eof]. }
  destruct (value_from_returns (r_data r) i Hok ltac:(lia)) as [(j & t & Hv)|(e & Hv)]; rewrite Hv in Hval.
  - rewrite Hval. cbn [res_bind]. destruct (window_first (r_data r) (tail r) i (l_bytes r Hl) ltac:(lia) j t Hv (Hnum j t Hv)) as [Hf Hb].
    destruct (value_head_at _ i j t Hok ltac:(lia) Hv) as (x & Hx & _ & Hbd). rewrite Hc in Hx. injection Hx as <-.
    assert (Hconf : confirmed r i (i + (j - i)) = true).
    { unfold confirmed. rewrite Hc, Hbd. destruct (is_number t) eqn:Et; [|by rewrite orb_true_r].
      destruct (r_eof r) eqn:He; [by rewrite orb_true_r|]. rewrite orb_false_r in Hd. subst d.
      pose proof (proj2 (Hdec eq_refl) j t Hv Et). rewrite (proj2 (Nat.ltb_lt _ _)); [done|lia]. }
    rewrite Hconf. by apply (deliver_ok r i (j - i) t c Hl Hf ltac:(lia) Hc Hbd).
  - destruct Hval as (j & ->). cbn [res_bind]. destruct (diagnose_refuses r f i d Hl) as (err & ->).
    apply refused_outcome; [|done|apply Hl]. unfold accepted. destruct (first_value (rest r i)) as [[n t]| | |] eqn:Hf; try done. exfalso.
    assert (Hb : (i + n <= length (r_data r))%nat /\ (is_number t = true -> (i + n < length (r_data r))%nat \/ tail r = [])).
    { destruct d; [destruct (proj1 (Hdec eq_refl) n t Hf) as [? ?]; split; [done|intros; left; auto]|].
      pose proof (tail_eof r Hd) as Htl. pose proof (window_ok (r_data r) (tail r) i (l_bytes r Hl)) as [_ HokT]. fold (rest r i) in HokT.
      change (first_value ?x) with (value_from x 0) in Hf. destruct (value_from_sound _ 0 n t HokT ltac:(lia) Hf) as (_ & s & Hs%span_le & _).
      unfold rest in Hs. rewrite Htl, app_nil_r, length_drop in Hs. split; [lia|]. intros _. by right. }
    destruct Hb as [Hb1 Hb2]. pose proof (first_window (r_data r) (tail r) i (l_bytes r Hl) ltac:(lia) n t Hf Hb1 Hb2). congruence.
Qed.

Lemma frame_loop_ok fuel r i c f : live r -> framing r i c f -> long_frame r (rest r i) f -> enough fuel r ->
  outcome r i (frame_loop fuel r i f false None).
Proof.
  revert r i f. induction fuel as [|fuel IH]; intros r i f Hl Hfr Hlong [Hf1 Hf2]; [lia|]. cbn [frame_loop].
  destruct (scanFrame_spec r i c f Hl Hfr Hlong) as (f' & d & -> & Hle & Hd). cbn [res_bind]. destruct Hfr as (Hc & _).
  destruct (d || r_eof r) eqn:Hor.
  { apply (decided_turn r i c f' d (fun validLen =>
        let* (r, i, ok) := fill (S fuel) (with_pos r i) i in
        if negb ok && match r_err r with Some _ => true | None => false end then Ok (r, false) else frame_loop fuel r i f' d validLen) Hl Hc); [by intros ->|done]. }
  apply orb_false_iff in Hor as [-> He]. cbn [res_bind]. destruct Hd as [Hrun Hlong']. apply lookup_lt_Some in Hc as Hlt. specialize (Hf2 He).
  assert (Hl' : live (with_pos r i)) by (destruct Hl; constructor; cbn in *; try done; lia).
  destruct (fill_spec (S fuel) (with_pos r i) i Hl' He) as [(Hm & e & ->)|(r1 & i1 & ok & -> & Hr1 & Hs1 & Hp1 & Hle1 & Hrest1 & (new & Hnew) & Hok & Hw)];
    [done|cbn; lia|cbn; lia| |]; cbn [res_bind].
  - cbn [negb andb with_err r_err]. apply (refused_outcome r i (with_pos r i) e); [|done|apply Hl]. unfold accepted.
    destruct (first_value (rest r i)) as [[n t]| | |] eqn:Hv; try done. cbn in Hm. destruct (_ && _ && _); [done|].
    pose proof (frame_run_framed (Init c) (drop (S i) (r_data r))) as Hfull. rewrite Hrun, Init_framed, length_drop in Hfull. cbn [fst snd] in Hfull.
    specialize (Hfull eq_refl). assert (r_maxValue r < Z.of_nat n) by (apply (Hlong' ltac:(lia) n t Hv)). by rewrite if_true by lia.
  - rewrite (l_err r1 Hr1). rewrite andb_false_r. apply (outcome_moved r i r1 i1).
    + destruct Hs1 as [A1 A2 A3 A4]. by constructor.
    + exact Hrest1.
    + intros E. specialize (Hw E). cbn in Hw. split; [done|lia].
    + assert (Hd1 : drop i1 (r_data r1) = c :: drop (S i) (r_data r) ++ new).
      { rewrite Hnew. cbn. by rewrite (lookup_Some_drop _ _ _ Hc). }
      assert (Hc1 : r_data r1 !! i1 = Some c).
      { rewrite <- (Nat.add_0_r i1), <- lookup_drop, Hd1. done. }
      apply IH; [done| | |].
      * split; [done|]. exists (drop (S i) (r_data r)), new. split; [|done]. rewrite (lookup_Some_drop _ _ _ Hc1) in Hd1. by injection Hd1.
      * destruct Hs1 as [_ A2 _ _]. unfold long_frame, too_long. rewrite A2, Hrest1. exact Hlong'.
      * split; [lia|]. intros E. specialize (Hw E). cbn in Hw. lia.
Qed.
(** ** [Next] *)

(** What one call of [Next] must do on the stream [T]. *)
Definition next_ok r (a : answer) : Prop :=
  let T := skip_ws (rest r (r_pos r)) in
  match accepted (r_maxValue r) (fin r) T with
  | Some n => exists r', a = Ok (r', true) /\ live r' /\ r_Bytes r' = Ok (Some (take n T)) /\ rest r' (r_pos r') = drop n T /\
      fin r' = fin r /\ r_maxValue r' = r_maxValue r /\
      InputOffset r' = r_consumed r + Z.of_nat (r_pos r) + Z.of_nat (length (rest r (r_pos r)) - length (drop n T)) /\
      (r_eof r' = false -> r_eof r = false /\ (work (r_in r') <= work (r_in r))%nat)
  | None => exists r', a = Ok (r', false) /\ r_Bytes r' = Ok None /\ r_closed r' = false /\
      (T = [] -> r_err r' = option_map ReadFailed (fin r)) /\ (T <> [] -> exists e, r_err r' = Some e)
  end.

Lemma first_value_nil : forall n t, first_value [] <> Ok (n, t).
Proof. intros n t Hv. done. Qed.

Lemma live_unvalued r : live r -> live (with_hasValue r false).
Proof. intros []. by constructor. Qed.

Lemma accepted_le maxValue err T n : bytes_ok T -> accepted maxValue err T = Some n -> (n <= length T)%nat.
Proof.
  intros Hok. unfold accepted. destruct (first_value T) as [[m t]| | |] eqn:Hv; try done. intros Ha.
  assert (m = n) as -> by (repeat case_match; congruence). change (first_value T) with (value_from T 0) in Hv.
  destruct (value_from_sound T 0 n t Hok ltac:(lia) Hv) as (_ & s & Hs%span_le & _). lia.
Qed.

Lemma Next_ok fuel r : live r -> enough fuel r -> next_ok r (r_Next fuel r).
Proof.
  intros Hl Hen. unfold r_Next. rewrite (l_closed r Hl), (l_err r Hl). cbv zeta. set (r0 := with_hasValue r false).
  pose proof (live_unvalued r Hl) as Hl0. fold r0 in Hl0. change (r_pos r0) with (r_pos r).
  pose proof (skip_loop_spec fuel r0 (r_pos r) Hl0 (l_pos r Hl) Hen) as Hskip. cbv zeta in Hskip.
  change (rest r0 (r_pos r)) with (rest r (r_pos r)) in Hskip. unfold next_ok. cbv zeta. set (T0 := rest r (r_pos r)) in *.
  pose proof (skip_ws_length T0) as Hlen.
  destruct (skip_ws T0) as [|c R] eqn:ET.
  { destruct Hskip as (r1 & -> & H1 & H2 & H3). cbn [res_bind]. unfold accepted.
    destruct (first_value []) as [[n t]| | |] eqn:Hv; [by apply first_value_nil in Hv|..];
      (exists r1; split; [done|]; split; [unfold r_Bytes; by rewrite H2|]; split_and!; [done|done|done]). }
  rewrite <- ET in *. destruct Hskip as (r1 & i & -> & Hl1 & Hi & Hrest & [S1 S2 S3 S4] & Hw). cbn [res_bind].
  destruct (lookup_lt_is_Some_2 _ _ Hi) as [x Hx].
  assert (Hout : outcome r1 i (let* ready := value_ready r1 i in
      match ready with
      | Some stop => deliver r1 i (stop - i)
      | None => match r_data r1 !! i with None => Panic | Some c => frame_loop fuel r1 i (Init c) false None end
      end)).
  { pose proof (live_ok r1 Hl1) as [Hok _]. unfold value_ready. rewrite Hx.
    assert (Hloop : outcome r1 i (frame_loop fuel r1 i (Init x) false None)).
    { apply (frame_loop_ok fuel r1 i x); [done|split; [done|by exists [], (drop (S i) (r_data r1))]| |].
      - intros Hmax n t Hv. rewrite Init_framed in Hmax. lia.
      - destruct Hen as [He1 He2]. split; [done|]. intros E. destruct (Hw E) as [E1 E2]. specialize (He2 E1). cbn in E2. lia. }
    pose proof (validRootValueFast_follows (r_data r1) i x Hok Hx) as Hval.
    destruct (value_from_returns (r_data r1) i Hok ltac:(lia)) as [(j & t & Hv)|(e & Hv)]; rewrite Hv in Hval.
    - rewrite Hval. cbn [res_bind andb]. destruct (confirmed r1 i j) eqn:Hconf; [|exact Hloop].
      destruct (value_head_at _ i j t Hok ltac:(lia) Hv) as (y & Hy & _ & Hbd). rewrite Hx in Hy. injection Hy as <-.
      destruct (window_first (r_data r1) (tail r1) i (l_bytes r1 Hl1) ltac:(lia) j t Hv) as [Hf Hb].
      { intros Ht. unfold confirmed in Hconf. rewrite Hx, Hbd, Ht in Hconf. cbn [negb] in Hconf. rewrite orb_false_r in Hconf.
        apply orb_true_iff in Hconf as [?|He]; [left; lia|right; by apply tail_eof]. }
      apply (deliver_ok r1 i (j - i) t x Hl1 Hf ltac:(lia) Hx Hbd). by replace (i + (j - i))%nat with j by lia.
    - destruct Hval as (j & ->). exact Hloop. }
  unfold outcome in Hout. rewrite S1, S2, Hrest in Hout. cbn [fin r_maxValue] in Hout.
  change (fin r0) with (fin r) in Hout. change (r_maxValue r0) with (r_maxValue r) in Hout.
  destruct (accepted _ _ (skip_ws T0)) as [n|] eqn:Ea.
  - destruct Hout as (r' & -> & D1 & D2 & D3 & D4 & D5 & D6 & D7). exists r'. split; [done|]. split_and!; try done; [by rewrite D4, S1|by rewrite D5, S2| |].
    + rewrite D6, S4. cbn [with_hasValue r_consumed]. pose proof (accepted_le (r_maxValue r) (fin r) (skip_ws T0) n) as Hn.
      pose proof (window_ok (r_data r1) (tail r1) i (l_bytes r1 Hl1)) as [_ HokT]. fold (rest r1 i) in HokT. rewrite Hrest in HokT.
      specialize (Hn HokT Ea). rewrite length_take, length_drop. change (r_consumed r0) with (r_consumed r). lia.
    + intros E. destruct (D7 E) as [E1 E2]. destruct (Hw E1) as [E3 E4]. split; [done|cbn in E4; lia].
  - destruct Hout as (r' & e & -> & D1 & D2 & D3). exists r'. split; [done|]. split_and!; [|done|rewrite ET; done|by exists e].
    unfold r_Bytes. rewrite D2, S3. done.
Qed.
End Correct.

(** ** Reading a whole stream *)

(** The values of a stream, and whether it ends after them. *)
Inductive stream_values (maxValue : Z) (err : option string) : bytes -> list bytes -> bool -> Prop :=
  | sv_end T : skip_ws T = [] -> stream_values maxValue err T [] true
  | sv_bad T : skip_ws T <> [] -> accepted maxValue err (skip_ws T) = None -> stream_values maxValue err T [] false
  | sv_value T n vs clean : accepted maxValue err (skip_ws T) = Some n -> stream_values maxValue err (drop n (skip_ws T)) vs clean ->
    stream_values maxValue err T (take n (skip_ws T) :: vs) clean.

Lemma accepted_nil maxValue err : accepted maxValue err [] = None.
Proof. unfold accepted. destruct (first_value []) as [[n t]| | |] eqn:E; [by apply first_value_nil in E|done..]. Qed.

Lemma stream_values_unique maxValue err T vs clean vs' clean' :
  stream_values maxValue err T vs clean -> stream_values maxValue err T vs' clean' -> vs = vs' /\ clean = clean'.
Proof.
  intros Hs. revert vs' clean'. induction Hs as [T Hw|T Hne Ha|T n vs clean Ha _ IH]; intros vs' clean' Hs'; inversion Hs' as [? Hw'|? Hne' Ha'|? n' ws b Ha' Hs2]; subst.
  - done.
  - done.
  - rewrite Hw, accepted_nil in Ha'. done.
  - done.
  - done.
  - congruence.
  - rewrite Hw', accepted_nil in Ha. done.
  - congruence.
  - rewrite Ha in Ha'. injection Ha' as <-. destruct (IH _ _ Hs2) as [-> ->]. done.
Qed.

Section Stream.
Context {I : Type} `{SourceLaws I}.

(** [for r.Next() { values = append(values, clone(r.Bytes())) }] *)
Fixpoint read_all (turns fuel : nat) (r : Reader I) : res unit (list bytes * Reader I) :=
  match turns with
  | O => NoFuel
  | S turns =>
      let* (r, ok) := r_Next fuel r in
      if (ok : bool) then
        let* v := r_Bytes r in
        match v with
        | Some v => let* (vs, r) := read_all turns fuel r in Ok (v :: vs, r)
        | None => Panic
        end
      else Ok ([], r)
  end.

Lemma accepted_pos maxValue err T n : bytes_ok T -> accepted maxValue err T = Some n -> (0 < n <= length T)%nat.
Proof using.
  intros Hok Ha. split; [|by eapply accepted_le]. unfold accepted in Ha. destruct (first_value T) as [[m t]| | |] eqn:Hv; try done.
  assert (m = n) as -> by (repeat case_match; congruence). change (first_value T) with (value_from T 0) in Hv.
  by destruct (value_from_sound T 0 n t Hok ltac:(lia) Hv) as (? & _).
Qed.

Lemma accepted_value maxValue err T n : bytes_ok T -> accepted maxValue err T = Some n -> exists t, jvalue DefaultMaxDepth (take n T) t.
Proof using.
  intros Hok Ha. unfold accepted in Ha. destruct (first_value T) as [[m t]| | |] eqn:Hv; try done.
  assert (m = n) as -> by (repeat case_match; congruence). change (first_value T) with (value_from T 0) in Hv.
  destruct (value_from_sound T 0 n t Hok ltac:(lia) Hv) as (_ & s & Hs & Hj). exists t. apply span_slice in Hs. unfold slice in Hs.
  by rewrite drop_0, Nat.sub_0_r in Hs; subst.
Qed.

Lemma skip_ws_ok T : bytes_ok T -> bytes_ok (skip_ws T).
Proof using. induction 1 as [|c T Hc HT IH]; [constructor|]. cbn [skip_ws]. destruct (IsJSONWhitespace c); [done|by constructor]. Qed.

Lemma rest_ok (r : Reader I) i : live r -> bytes_ok (rest r i).
Proof using. intros Hl. destruct (live_ok r Hl). apply Forall_app. split; [by apply Forall_drop|done]. Qed.

Lemma read_all_ok turns fuel (r : Reader I) : live r -> enough fuel r -> (length (rest r (r_pos r)) < turns)%nat ->
  exists vs r' clean, read_all turns fuel r = Ok (vs, r') /\ stream_values (r_maxValue r) (fin r) (rest r (r_pos r)) vs clean /\
    if clean : bool then r_err r' = option_map ReadFailed (fin r) else exists e, r_err r' = Some e.
Proof using.
  revert r. induction turns as [|turns IH]; intros r Hl Hen Ht; [lia|]. cbn [read_all].
  pose proof (Next_ok fuel r Hl Hen) as Hn. unfold next_ok in Hn. cbv zeta in Hn. set (T := skip_ws (rest r (r_pos r))) in *.
  destruct (accepted _ _ T) as [n|] eqn:Ea.
  - destruct Hn as (r' & -> & Hl' & HB & Hrest & Hfin & Hmax & _ & Hw). cbn [res_bind]. rewrite HB. cbn [res_bind].
    assert (HokT : bytes_ok T) by by apply skip_ws_ok, rest_ok. pose proof (accepted_pos _ _ _ _ HokT Ea) as Hpos.
    pose proof (skip_ws_length (rest r (r_pos r))) as Hlen. fold T in Hlen.
    destruct (IH r' Hl') as (vs & r2 & clean & -> & Hsv & Hend).
    + destruct Hen as [E1 E2]. split; [done|]. intros E. destruct (Hw E) as [E3 E4]. specialize (E2 E3). lia.
    + rewrite Hrest, length_drop. lia.
    + rewrite Hrest, Hfin, Hmax in Hsv. rewrite Hfin in Hend. exists (take n T :: vs), r2, clean. cbn [res_bind]. split; [done|]. split; [|done].
      by apply sv_value.
  - destruct Hn as (r' & -> & _ & _ & Hnil & Hcons). cbn [res_bind]. destruct T as [|c R] eqn:ET.
    + exists [], r', true. split; [done|]. split; [by apply sv_end|by apply Hnil].
    + exists [], r', false. split; [done|]. split; [|by apply Hcons]. unfold T in ET. apply sv_bad; rewrite ET; done.
Qed.

Lemma new_live (input : I) size maxValue : bytes_ok (remaining input) -> 0 < size -> live (new_reader input size maxValue).
Proof using. intros Hb Hs. constructor; try done; cbn; lia. Qed.

Lemma new_reads (input : I) size maxValue turns fuel : bytes_ok (remaining input) -> 0 < size ->
  (work input + 1 < fuel)%nat -> (length (remaining input) < turns)%nat ->
  exists vs r clean, read_all turns fuel (new_reader input size maxValue) = Ok (vs, r) /\
    stream_values maxValue (final input) (remaining input) vs clean /\
    if clean : bool then r_err r = option_map ReadFailed (final input) else exists e, r_err r = Some e.
Proof using.
  intros Hb Hs Hf Ht. by apply (read_all_ok turns fuel (new_reader input size maxValue) (new_live input size maxValue Hb Hs)); [split; [lia|]|].
Qed.
End Stream.

(** ** Sources made of chunks *)

(** A source that hands out the payloads one after another, cut where the slice
    it is given ends; [err] follows the last. *)
Record chunked : Type := mkChunked { ch_chunks : list bytes; ch_err : io_error }.

#[export] Instance chunked_source : Source chunked := fun s k =>
  match ch_chunks s with
  | [] => (mkRead [] 0 (Some (ch_err s)), s)
  | c :: cs =>
      if (length c <=? k)%nat then (mkRead c (Z.of_nat (length c)) None, mkChunked cs (ch_err s))
      else (mkRead (take k c) (Z.of_nat k) None, mkChunked (drop k c :: cs) (ch_err s))
  end.

#[export] Program Instance chunked_laws : SourceLaws chunked := {
  remaining s := concat (ch_chunks s);
  final s := match ch_err s with EOF => None | Failed m => Some m end;
  work s := (length (concat (ch_chunks s)) + length (ch_chunks s))%nat }.
Next Obligation.
  intros [[|c cs] err] k Hk; unfold Read, chunked_source; cbn [ch_chunks ch_err].
  - cbn. split_and!; [lia|lia|lia|done|]. by destruct err.
  - destruct (Nat.leb_spec (length c) k); cbn [rd_n rd_into rd_err ch_chunks ch_err concat length].
    + rewrite Nat2Z.id, take_ge, length_app by lia. split_and!; try done; lia.
    + rewrite Nat2Z.id, (take_ge (take k c)) by (rewrite length_take; lia). rewrite !length_app, length_drop, length_take.
      split_and!; try done; try lia. by rewrite app_assoc, take_drop.
Qed.

(** ** Theorems *)

(** C13: On any input that keeps the contract of io.Reader and in any state with no error, Next returns after finitely many reads; it skips whitespace and delivers the longest first value of the rest of the stream exactly when there is one within the nesting limit, it is within the size limit and it is not a number that the input's error cut off; the value is a JSON value, the stream continues right after it and InputOffset counts every byte consumed; otherwise there is no current value, and the error is the input's own at the end of the stream and some error before it *)
Theorem Next_delivers {I : Type} `{SourceLaws I} fuel (r : Reader I) :
  live r -> enough fuel r ->
  let T := skip_ws (rest r (r_pos r)) in
  match accepted (r_maxValue r) (fin r) T with
  | Some n => exists r' t, r_Next fuel r = Ok (r', true) /\ live r' /\ r_Bytes r' = Ok (Some (take n T)) /\ jvalue DefaultMaxDepth (take n T) t /\
      rest r' (r_pos r') = drop n T /\ fin r' = fin r /\
      InputOffset r' = r_consumed r + Z.of_nat (r_pos r) + Z.of_nat (length (rest r (r_pos r)) - length (drop n T))
  | None => exists r', r_Next fuel r = Ok (r', false) /\ r_Bytes r' = Ok None /\
      (T = [] -> r_err r' = option_map ReadFailed (fin r)) /\ (T <> [] -> exists e, r_err r' = Some e)
  end.
Proof.
  intros Hl Hen. pose proof (Next_ok fuel r Hl Hen) as Hn. unfold next_ok in Hn. cbv zeta in *.
  destruct (accepted _ _ _) as [n|] eqn:Ea.
  - destruct (accepted_value _ _ _ _ (skip_ws_ok _ (rest_ok r (r_pos r) Hl)) Ea) as (t & Ht).
    destruct Hn as (r' & H1 & H2 & H3 & H4 & H5 & H6 & H7 & _). exists r', t. by split_and!.
  - destruct Hn as (r' & H1 & H2 & H3 & H4 & H5). exists r'. by split_and!.
Qed.

Lemma Next_delivers_witness :
  let r := new_reader (mkChunked [js " {'a"; js "':1"; js "} 2"; [10]] EOF) 4 0 in
  let T := skip_ws (rest r (r_pos r)) in
  match accepted (r_maxValue r) (fin r) T with
  | Some n => exists r' t, r_Next 40 r = Ok (r', true) /\ live r' /\ r_Bytes r' = Ok (Some (take n T)) /\ jvalue DefaultMaxDepth (take n T) t /\
      rest r' (r_pos r') = drop n T /\ fin r' = fin r /\
      InputOffset r' = r_consumed r + Z.of_nat (r_pos r) + Z.of_nat (length (rest r (r_pos r)) - length (drop n T))
  | None => exists r', r_Next 40 r = Ok (r', false) /\ r_Bytes r' = Ok None /\
      (T = [] -> r_err r' = option_map ReadFailed (fin r)) /\ (T <> [] -> exists e, r_err r' = Some e)
  end /\ accepted (r_maxValue r) (fin r) T = Some 7%nat.
Proof.
  split; [apply (Next_delivers 40)|vm_compute; reflexivity].
  - apply new_live; [concrete_bytes|lia].
  - split; [lia|]. intros _. simpl. lia.
Defined.

(** C14: Reading a stream to its end terminates and delivers every value: calling Next until it answers false yields the values of the input in order, the same for every input with these bytes and final error however its reads cut them, for every buffer size, and the sticky error is the input's own when the stream ends after the last value and some error otherwise *)
Theorem Reader_delivers_all {I J : Type} `{SourceLaws I} `{SourceLaws J} (a : I) (b : J) size size' maxValue turns fuel fuel' :
  bytes_ok (remaining a) -> remaining b = remaining a -> final b = final a -> 0 < size -> 0 < size' ->
  (work a + 1 < fuel)%nat -> (work b + 1 < fuel')%nat -> (length (remaining a) < turns)%nat ->
  exists vs r r' clean, read_all turns fuel (new_reader a size maxValue) = Ok (vs, r) /\
    read_all turns fuel' (new_reader b size' maxValue) = Ok (vs, r') /\
    stream_values maxValue (final a) (remaining a) vs clean /\
    if clean : bool then r_err r = option_map ReadFailed (final a) /\ r_err r' = option_map ReadFailed (final a)
    else (exists e, r_err r = Some e) /\ (exists e, r_err r' = Some e).
Proof.
  intros Hok Hrem Hfin Hs Hs' Hf Hf' Ht.
  destruct (new_reads a size maxValue turns fuel Hok Hs Hf Ht) as (vs & r & clean & E & Hv & He).
  destruct (new_reads b size' maxValue turns fuel') as (vs' & r' & clean' & E' & Hv' & He'); [congruence|done|done|congruence|].
  rewrite Hrem, Hfin in Hv'. destruct (stream_values_unique _ _ _ _ _ _ _ Hv Hv') as [<- <-].
  exists vs, r, r', clean. split_and!; [done|done|done|]. rewrite Hfin in He'. by destruct clean.
Qed.

Lemma Reader_delivers_all_witness :
  let a := mkChunked [js "[1"; []; js ",2]true 0"; js "7 'x"; js "y' "] EOF in
  let b := mkChunked [js "[1,2]true 07 'xy' "] EOF in
  exists vs r r' clean, read_all 20 30 (new_reader a 3 0) = Ok (vs, r) /\
    read_all 20 30 (new_reader b 512 0) = Ok (vs, r') /\
    stream_values 0 (final a) (remaining a) vs clean /\
    if clean : bool then r_err r = option_map ReadFailed (final a) /\ r_err r' = option_map ReadFailed (final a)
    else (exists e, r_err r = Some e) /\ (exists e, r_err r' = Some e).
Proof.
  intros a b. apply (Reader_delivers_all a b 3 512 0 20 30 30); try (cbn; lia); [concrete_bytes|reflexivity|reflexivity].
Defined.

Lemma zeros_split : exists r, read_all 20 30 (new_reader (mkChunked [js "[1"; []; js ",2]true 0"; js "7 'x"; js "y' "] EOF) 3 0) =
  Ok ([js "[1,2]"; bs "true"; bs "0"; bs "7"; js "'xy'"], r) /\ r_err r = None.
Proof. vm_compute. by eexists. Qed.
