(* ===== verification/Streams.v ===== *)
(** The streaming writer and the streaming reader composed: what the one sends
    to its sink, cut into payloads as it happens to be, the other delivers. *)

From S2P Require Import Prelude Words Utf8 Scanner Lex Grammar StringRef Errors Numbers Reader Validator FastValid Layout Digits EncodeString EncodeInt TimeFormat Framing StreamWriter StreamReader.

(** ** Nesting budgets *)

Fixpoint tree_depth (t : tree) : Z :=
  match t with
  | TArr _ ts => 1 + foldr Z.max 0 (map tree_depth ts)
  | TObj _ ms => 1 + foldr Z.max 0 (map (fun m => tree_depth m.2) ms)
  | _ => 0
  end.

Fixpoint item_depth (v : item) : Z :=
  match v with
  | IArray l => 1 + foldr Z.max 0 (map item_depth l)
  | IObject l => 1 + foldr Z.max 0 (map (fun m => item_depth m.2) l)
  | _ => 0
  end.

Lemma foldr_max_0 l : 0 <= foldr Z.max 0 l.
Proof. induction l; simpl; lia. Qed.

(** A value needs the budget of its tree, and no more. *)
Lemma jvalue_budget :
  (forall k s t, jvalue k s t -> forall k', tree_depth t <= k' -> jvalue k' s t) /\
  (forall k s ts, jelems k s ts -> forall k', foldr Z.max 0 (map tree_depth ts) <= k' -> jelems k' s ts) /\
  (forall k s ms, jmembers k s ms -> forall k', foldr Z.max 0 (map (fun m => tree_depth m.2) ms) <= k' -> jmembers k' s ms).
Proof.
  apply jvalue_mutind; cbn [tree_depth map foldr fst snd]; intros;
    repeat match goal with H : forall k', ?d <= k' -> _, Hk : _ <= ?k |- _ => first [specialize (H (k - 1) ltac:(lia))|specialize (H k ltac:(lia))] end;
    try match goal with Hk : 1 + foldr Z.max 0 ?l <= _ |- _ => pose proof (foldr_max_0 l) end;
    once constructor; (done || lia).
Qed.

Lemma spells_depth v : forall t, spells v t -> tree_depth t = item_depth v.
Proof.
  induction v as [|b|v|v|s|l IH|l IH] using item_induction; intros t Ht; inversion Ht as [| | | | |? raw ts Hts|? raw ms Hms]; subst; try done; cbn [tree_depth item_depth]; do 2 f_equal; clear Ht.
  - induction Hts as [|x t l ts Hx _ IHl]; [done|]. apply Forall_cons_1 in IH as [IHx IHr]. cbn [map]. f_equal; auto.
  - induction Hms as [|x t l ts [_ Hx] _ IHl]; [done|]. apply Forall_cons_1 in IH as [IHx IHr]. cbn [map]. f_equal; auto.
Qed.

(** ** Lines of values *)

Definition render_line (h : bool) (v : item) : bytes := render h v ++ [10].

(** Writing items, each followed by a line feed. *)
Definition line_calls {float} (l : list item) : list (op float) := concat (map (fun v => calls v ++ [OpNewline]) l).

Section WriteLines.
Context (spare : bytes -> bytes) (float : Type) (appendJSONFloat : float -> bytes + string).
Abbreviation runw := (run accepting spare float appendJSONFloat).

(** A writer between lines. *)
Definition between (w : Writer) : Prop := w_err w = None /\ w_stack w = [] /\ w_started w = false.

Lemma line_run v ops w : item_ok v -> between w -> exists w',
  runw w ((calls v ++ [OpNewline]) ++ ops) = runw w' ops /\ between w' /\ w_escapeHTML w' = w_escapeHTML w /\
  emitted w' = emitted w ++ render_line (w_escapeHTML w) v.
Proof.
  intros Hok (He & Hs & Hst). rewrite <- app_assoc.
  assert (Hb : beforeValue w = (set_started w true, true)) by (unfold beforeValue; by rewrite He, Hs, Hst).
  rewrite (calls_run accepting spare float appendJSONFloat v _ w (set_started w true) Hok Hb).
  destruct (accepted_end (append_buf (set_started w true) (render (w_escapeHTML w) v)) He Hs) as (w1 & E1 & _ & A1 & A2 & A3 & A4 & A5).
  unfold after. rewrite E1. cbn [res_bind app run step]. unfold Newline. rewrite A1, A2. cbn [length Nat.eqb negb].
  destruct (accepted_end (set_started (append_buf w1 [10]) false) A1 A2) as (w2 & _ & -> & B1 & B2 & B3 & B4 & B5).
  cbn [res_bind]. exists w2. split; [done|]. split; [done|]. split; [by rewrite B4; cbn; rewrite A4|].
  rewrite B5. unfold render_line. etransitivity; [apply (emitted_append w1)|]. rewrite A5, emitted_append, <- app_assoc. done.
Qed.

Lemma lines_run l ops w : Forall item_ok l -> between w -> exists w',
  runw w (line_calls l ++ ops) = runw w' ops /\ between w' /\ emitted w' = emitted w ++ concat (map (render_line (w_escapeHTML w)) l).
Proof.
  intros Hl. revert w. induction Hl as [|v l Hv _ IH]; intros w Hw.
  - exists w. by rewrite app_nil_r.
  - unfold line_calls. cbn [map concat]. rewrite <- app_assoc.
    destruct (line_run v (concat (map (fun v => calls v ++ [OpNewline]) l) ++ ops) w Hv Hw) as (w1 & -> & Hw1 & Hh & Hem).
    destruct (IH w1 Hw1) as (w2 & E & Hw2 & Hem2). exists w2. split; [done|]. split; [done|]. by rewrite Hem2, Hem, Hh, <- app_assoc.
Qed.

Lemma write_lines l size h : Forall item_ok l -> exists w,
  runw (newWriterWithFlushThreshold size) (OpEscapeHTML h :: line_calls l ++ [OpClose]) = Ok w /\ w_err w = None /\
  concat (w_sent w) = concat (map (render_line h) l).
Proof.
  intros Hl. cbn [run step res_bind]. set (w0 := SetEscapeHTML _ h).
  destruct (lines_run l [OpClose] w0 Hl) as (w1 & -> & (A1 & A2 & A3) & Hem); [by split_and!|].
  cbn [run step]. unfold Close, Flush. rewrite A1, A2. cbn [length Nat.eqb negb].
  destruct (accepted_flush w1 A1) as (sent & -> & Hsent). cbn [res_bind]. eexists. split; [done|]. split; [done|]. cbn. by rewrite Hsent, Hem.
Qed.
End WriteLines.

(** ** Lines of values are read back *)

Lemma render_head h v : item_ok v -> exists c u, render h v = c :: u /\ IsJSONWhitespace c = false.
Proof.
  intros Hok. destruct (render_spells h v Hok) as (t & [k Hv] & _). destruct (jvalue_head _ _ _ Hv) as (c & u & -> & Hc).
  exists c, u. split; [done|]. by apply value_head_facts in Hc as [? _].
Qed.

Lemma render_accepted h v T : item_ok v -> item_depth v <= DefaultMaxDepth -> accepted 0 None (render_line h v ++ T) = Some (length (render h v)).
Proof.
  intros Hok Hd. destruct (render_spells h v Hok) as (t & [k Hv] & Hsp). pose proof (spells_depth v t Hsp) as Hdt.
  pose proof (proj1 jvalue_budget k _ t Hv DefaultMaxDepth ltac:(lia)) as Hv'. unfold render_line. rewrite <- app_assoc. cbn [app].
  assert (Hs : span (render h v ++ 10 :: T) 0 (render h v) (length (render h v))).
  { split_and!; [by rewrite drop_app_length|done|rewrite length_app; lia]. }
  assert (Hf : first_value (render h v ++ 10 :: T) = Ok (length (render h v), t)).
  { apply (ref_value_complete_next _ DefaultMaxDepth unexpected_byte _ 0 0 _ (render h v) t); [by rewrite Z.sub_0_r|done| |lia].
    intros _. by rewrite drop_app_length. }
  unfold accepted. rewrite Hf. by rewrite andb_false_r.
Qed.

Lemma lines_stream h l : Forall item_ok l -> Forall (fun v => item_depth v <= DefaultMaxDepth) l ->
  forall pre, ws pre -> stream_values 0 None (pre ++ concat (map (render_line h) l)) (map (render h) l) true.
Proof.
  intros Hok. induction Hok as [|v l Hv _ IH]; intros Hd pre Hpre; cbn [map concat].
  - rewrite app_nil_r. apply sv_end. by apply skip_ws_nil.
  - apply Forall_cons_1 in Hd as [Hdv Hdl]. set (rest := concat (map (render_line h) l)).
    assert (Hskip : skip_ws (pre ++ render_line h v ++ rest) = render_line h v ++ rest).
    { rewrite skip_ws_app, (skip_ws_nil pre Hpre). destruct (render_head h v Hv) as (c & u & Hr & Hc). unfold render_line. rewrite Hr.
      cbn [app skip_ws]. by rewrite Hc. }
    pose proof (render_accepted h v rest Hv Hdv) as Ha.
    assert (Htk : take (length (render h v)) (render_line h v ++ rest) = render h v).
    { unfold render_line. by rewrite <- app_assoc, take_app_length. }
    rewrite <- Htk. pose proof (sv_value 0 None (pre ++ render_line h v ++ rest) (length (render h v)) (map (render h) l) true) as Hval.
    rewrite Hskip in Hval. apply Hval; [exact Ha|].
    unfold render_line at 1. rewrite <- app_assoc, drop_app_length. apply (IH Hdl [10]). by repeat constructor.
Qed.

Lemma render_lines_bytes h l : Forall item_ok l -> bytes_ok (concat (map (render_line h) l)).
Proof.
  induction 1 as [|v l Hv _ IH]; [constructor|]. cbn [map concat]. apply Forall_app. split; [|done]. unfold render_line. apply Forall_app.
  split; [|by repeat constructor]. destruct (render_spells h v Hv) as (t & [k Hk] & _). by eapply (proj1 jvalue_bytes_all).
Qed.

(** ** Theorems *)

(** C12: Values written one per line by the streaming writer are read back by the streaming reader: for every list of nested values, of integers in the 64-bit ranges, each nested at most [DefaultMaxDepth] deep, which is the reader's limit, for every flush threshold and every reader buffer size, a reader fed the payloads the sink received, one per Read or cut further, delivers exactly the compact texts of the values in order and then ends without an error. *)
Theorem written_lines_read_back spare float appendJSONFloat (l : list item) escapeHTML writerSize readerSize turns fuel :
  Forall item_ok l -> Forall (fun v => item_depth v <= DefaultMaxDepth) l -> 0 < readerSize ->
  exists w, run accepting spare float appendJSONFloat (newWriterWithFlushThreshold writerSize) (OpEscapeHTML escapeHTML :: line_calls l ++ [OpClose]) = Ok w /\
    w_err w = None /\
    ((work (mkChunked (w_sent w) EOF) + 1 < fuel)%nat -> (length (concat (w_sent w)) < turns)%nat ->
     exists r, read_all turns fuel (new_reader (mkChunked (w_sent w) EOF) readerSize 0) = Ok (map (render escapeHTML) l, r) /\ r_err r = None).
Proof.
  intros Hok Hd Hs. destruct (write_lines spare float appendJSONFloat l writerSize escapeHTML Hok) as (w & Hrun & He & Hsent).
  exists w. split; [done|]. split; [done|]. intros Hf Ht.
  assert (Hb : bytes_ok (remaining (mkChunked (w_sent w) EOF))) by (cbn; rewrite Hsent; by apply render_lines_bytes).
  destruct (new_reads (mkChunked (w_sent w) EOF) readerSize 0 turns fuel Hb Hs Hf Ht) as (vs & r & clean & Hr & Hv & Hend).
  cbn [remaining final chunked_laws ch_chunks ch_err] in Hv, Hend. rewrite Hsent in Hv.
  pose proof (lines_stream escapeHTML l Hok Hd [] ltac:(constructor)) as Hl. cbn [app] in Hl.
  destruct (stream_values_unique _ _ _ _ _ _ _ Hv Hl) as [-> ->]. by exists r.
Qed.

Lemma written_lines_read_back_witness :
  let l := [IObject [(bs "k", IArray [IInt (-3); INull])]; IString (bs "<x>"); IUint 7] in
  exists w, run accepting (fun _ => []) Z whole_float (newWriterWithFlushThreshold 0) (OpEscapeHTML true :: line_calls l ++ [OpClose]) = Ok w /\
    w_err w = None /\
    ((work (mkChunked (w_sent w) EOF) + 1 < 100)%nat -> (length (concat (w_sent w)) < 90)%nat ->
     exists r, read_all 90 100 (new_reader (mkChunked (w_sent w) EOF) 8 0) = Ok (map (render true) l, r) /\ r_err r = None).
Proof.
  intros l. apply (written_lines_read_back (fun _ => []) Z whole_float l true 0 8 90 100); [|by repeat constructor|lia].
  repeat constructor; simpl; try lia; concrete_bytes.
Defined.
