(* ===== verification/Tape.v ===== *)
(** The structural index of [index.go]: entries, their packed info word, and the
    abstract tape of a tree that the builders write and the nodes navigate. *)

From S2P Require Import Prelude Words Scanner Lex Grammar StringRef Numbers Reader Validator FastValid Decode KeyHash Raw.

(** ** Entries *)

Definition TapeFlagKey : Z := 2.
Definition TapeFlagInt : Z := 4.
Definition TapeFlagObjectKeysHashed : Z := TapeFlagEscaped.

Definition InfoCountBits : Z := 26.
Definition InfoKindBits : Z := 3.
Definition InfoCountMask : Z := 2 ^ 26 - 1.
Definition InfoKindShift : Z := InfoCountBits.
Definition InfoKindMask : Z := Z.shiftl (2 ^ InfoKindBits - 1) InfoKindShift.
Definition InfoFlagsShift : Z := InfoCountBits + InfoKindBits.
Definition InfoMaxCount : Z := InfoCountMask.

(** [document.Kind] is a uint8. *)
Definition kind_code (k : Kind) : Z :=
  match k with Invalid => 0 | Null => 1 | Bool => 2 | Number => 3 | String => 4 | Array => 5 | Object => 6 end.

(** Four uint32 words. *)
Record IndexEntry : Type := mkEntry { Start : Z; End_ : Z; Next : Z; Info : Z }.

#[export] Instance IndexEntry_eq_dec : EqDecision IndexEntry.
Proof. solve_decision. Defined.

Definition entry_Kind (e : IndexEntry) : Z := Z.shiftr (Z.land (Info e) InfoKindMask) InfoKindShift mod 256.
Definition entry_Flags (e : IndexEntry) : Z := Z.shiftr (Info e) InfoFlagsShift mod 256.
Definition entry_Count (e : IndexEntry) : Z := Z.land (Info e) InfoCountMask.

Definition PackInfo (count kind flags : Z) : Z :=
  Z.lor (Z.lor (Z.land count InfoCountMask) (w32 (Z.shiftl kind InfoKindShift))) (w32 (Z.shiftl flags InfoFlagsShift)).

Definition set_info (e : IndexEntry) (info : Z) : IndexEntry := mkEntry (Start e) (End_ e) (Next e) info.
Definition set_next (e : IndexEntry) (next : Z) : IndexEntry := mkEntry (Start e) (End_ e) next (Info e).

(** [e.Info&^InfoCountMask | count&InfoCountMask] *)
Definition SetCount (e : IndexEntry) (count : Z) : IndexEntry :=
  set_info e (Z.lor (Z.ldiff (Info e) InfoCountMask) (Z.land count InfoCountMask)).
Definition BumpCount (e : IndexEntry) : IndexEntry := set_info e (w32 (Info e + 1)).

Definition has_flag (e : IndexEntry) (flag : Z) : bool := negb (Z.land (entry_Flags e) flag =? 0).
Definition KeysHashed (e : IndexEntry) : bool := has_flag e TapeFlagObjectKeysHashed.

(** ** The info word *)

Lemma pack_sum count kind flags :
  0 <= count < 2 ^ 26 -> 0 <= kind < 8 -> 0 <= flags < 8 ->
  PackInfo count kind flags = flags * 2 ^ 29 + (kind * 2 ^ 26 + count).
Proof.
  intros Hc Hk Hf. unfold PackInfo, InfoKindShift, InfoFlagsShift, InfoCountBits, InfoKindBits, InfoCountMask, w32.
  change (2 ^ 26 - 1) with (Z.ones 26). rewrite Z.land_ones, (Z.mod_small count) by lia.
  rewrite !Z.shiftl_mul_pow2, !Z.mod_small by lia. rewrite <- !Z.shiftl_mul_pow2 by lia.
  rewrite (Z.lor_comm count), lor_shiftl_add by lia. rewrite Z.lor_comm, lor_shiftl_add by lia.
  rewrite !Z.shiftl_mul_pow2 by lia. lia.
Qed.

Section Packed.
Context (count kind flags : Z) (s e n : Z).
Hypothesis Hc : 0 <= count < 2 ^ 26.
Hypothesis Hk : 0 <= kind < 8.
Hypothesis Hf : 0 <= flags < 8.

Lemma packed_count : entry_Count (mkEntry s e n (PackInfo count kind flags)) = count.
Proof using Hc Hk Hf.
  unfold entry_Count. cbn [Info]. rewrite pack_sum by done. unfold InfoCountMask.
  change (2 ^ 26 - 1) with (Z.ones 26). rewrite Z.land_ones by lia.
  replace (flags * 2 ^ 29 + (kind * 2 ^ 26 + count)) with (count + (flags * 8 + kind) * 2 ^ 26) by lia.
  rewrite Z_mod_plus_full. by apply Z.mod_small.
Qed.

Lemma packed_kind : entry_Kind (mkEntry s e n (PackInfo count kind flags)) = kind.
Proof using Hc Hk Hf.
  unfold entry_Kind. cbn [Info]. rewrite pack_sum by done.
  unfold InfoKindMask, InfoKindShift, InfoCountBits, InfoKindBits. rewrite Z.shiftr_land, Z.shiftr_shiftl_l by lia.
  change (Z.shiftl (2 ^ 3 - 1) (26 - 26)) with (Z.ones 3). rewrite Z.land_ones, Z.shiftr_div_pow2 by lia.
  replace ((flags * 2 ^ 29 + (kind * 2 ^ 26 + count)) / 2 ^ 26) with (kind + flags * 2 ^ 3) by div_lia.
  rewrite Z_mod_plus_full, (Z.mod_small kind) by lia. apply Z.mod_small. lia.
Qed.

Lemma packed_flags : entry_Flags (mkEntry s e n (PackInfo count kind flags)) = flags.
Proof using Hc Hk Hf.
  unfold entry_Flags. cbn [Info]. rewrite pack_sum by done. unfold InfoFlagsShift, InfoCountBits, InfoKindBits.
  rewrite Z.shiftr_div_pow2 by lia.
  replace ((flags * 2 ^ 29 + (kind * 2 ^ 26 + count)) / 2 ^ (26 + 3)) with flags by div_lia. apply Z.mod_small. lia.
Qed.
End Packed.

Lemma packed_set_count s e n count count' kind flags :
  0 <= count < 2 ^ 26 -> 0 <= count' < 2 ^ 26 -> 0 <= kind < 8 -> 0 <= flags < 8 ->
  SetCount (mkEntry s e n (PackInfo count kind flags)) count' = mkEntry s e n (PackInfo count' kind flags).
Proof.
  intros Hc Hc' Hk Hf. unfold SetCount, set_info. cbn [Start End_ Next Info]. f_equal. rewrite !pack_sum by done.
  unfold InfoCountMask. change (2 ^ 26 - 1) with (Z.ones 26). rewrite Z.land_ones, (Z.mod_small count') by lia.
  rewrite Z.ldiff_ones_r, Z.shiftr_div_pow2 by lia.
  replace ((flags * 2 ^ 29 + (kind * 2 ^ 26 + count)) / 2 ^ 26) with (flags * 8 + kind) by div_lia.
  rewrite lor_shiftl_add by lia. lia.
Qed.

Lemma packed_bump s e n count kind flags :
  0 <= count < 2 ^ 26 - 1 -> 0 <= kind < 8 -> 0 <= flags < 8 ->
  BumpCount (mkEntry s e n (PackInfo count kind flags)) = mkEntry s e n (PackInfo (count + 1) kind flags).
Proof.
  intros Hc Hk Hf. unfold BumpCount, set_info. cbn [Start End_ Next Info]. f_equal. rewrite !pack_sum by lia.
  unfold w32. rewrite Z.mod_small; lia.
Qed.

(** ** The abstract tape

    The tape of a tree is a preorder listing: one entry per value and one per
    member name, each spanning its source text, each header followed by its
    contents and holding their number in [Next].  [h] says whether the keys were
    enriched with hashes. *)

Definition scalar_flags (t : tree) : Z :=
  match t with
  | TNum raw => if plain_integer raw then TapeFlagInt else 0
  | TStr raw _ => if has_bs raw then TapeFlagEscaped else 0
  | _ => 0
  end.

Definition scalar_entry (i j : nat) (t : tree) : IndexEntry :=
  mkEntry (Z.of_nat i) (Z.of_nat j) 1 (PackInfo 0 (kind_code (kind_of t)) (scalar_flags t)).

Definition key_flags (raw : bytes) : Z := if has_bs raw then Z.lor TapeFlagKey TapeFlagEscaped else TapeFlagKey.

Definition key_entry (h : bool) (i j : nat) (raw : bytes) : IndexEntry :=
  mkEntry (Z.of_nat i) (Z.of_nat j) (if h then hash_ref (inner raw) else 1)
    (PackInfo 0 (kind_code String) (key_flags raw)).

Definition container_kind (array : bool) : Z := kind_code (if array then Array else Object).

(** The header of a container with [count] elements and [size] entries after it. *)
Definition header (h array : bool) (i j : nat) (size count : nat) : IndexEntry :=
  mkEntry (Z.of_nat i) (Z.of_nat j) (1 + Z.of_nat size)
    (PackInfo (Z.of_nat count) (container_kind array)
       (if h && negb array then TapeFlagObjectKeysHashed else 0)).

Definition count_ok (n : nat) : Prop := Z.of_nat n <= InfoMaxCount.

Section AbstractTape.
Context (src : bytes) (h : bool).

Inductive tape_value : nat -> nat -> tree -> list IndexEntry -> Prop :=
  | tv_scalar i j t :
  span src i (raw_of t) j -> jvalue 0 (raw_of t) t -> tape_value i j t [scalar_entry i j t]
  | tv_array i j raw ts es :
  span src i raw (S j) -> tape_elems (S i) j ts es -> count_ok (length ts) ->
  tape_value i (S j) (TArr raw ts) (header h true i (S j) (length es) (length ts) :: es)
  | tv_object i j raw ms es :
  span src i raw (S j) -> tape_members (S i) j ms es -> count_ok (length ms) ->
  tape_value i (S j) (TObj raw ms) (header h false i (S j) (length es) (length ms) :: es)
with tape_elems : nat -> nat -> list tree -> list IndexEntry -> Prop :=
  | te_nil lo hi : (lo <= hi)%nat -> tape_elems lo hi [] []
  | te_cons lo i j hi t ts es1 es2 :
  (lo <= i)%nat -> tape_value i j t es1 -> tape_elems j hi ts es2 ->
  tape_elems lo hi (t :: ts) (es1 ++ es2)
with tape_members : nat -> nat -> list ((bytes * bytes) * tree) -> list IndexEntry -> Prop :=
  | tm_nil lo hi : (lo <= hi)%nat -> tape_members lo hi [] []
  | tm_cons lo p q i j hi key name t ms es1 es2 :
  (lo <= p)%nat -> span src p key q -> jstring key name -> (q <= i)%nat -> tape_value i j t es1 ->
  tape_members j hi ms es2 ->
  tape_members lo hi (((key, name), t) :: ms) (key_entry h p q key :: es1 ++ es2).
End AbstractTape.

Scheme tape_value_mut := Induction for tape_value Sort Prop
with tape_elems_mut := Induction for tape_elems Sort Prop
with tape_members_mut := Induction for tape_members Sort Prop.
Combined Scheme tape_mutind from tape_value_mut, tape_elems_mut, tape_members_mut.

(** The number of entries: [RequiredIndexEntries] of the tree. *)
Fixpoint tape_size (t : tree) : nat :=
  match t with
  | TArr _ ts => S (list_sum (map tape_size ts))
  | TObj _ ms => S (list_sum (map (fun m => S (tape_size m.2)) ms))
  | _ => 1
  end.
Definition elems_size (ts : list tree) : nat := list_sum (map tape_size ts).
Definition members_size (ms : list ((bytes * bytes) * tree)) : nat :=
  list_sum (map (fun m => S (tape_size m.2)) ms).

Lemma elems_size_app a b : elems_size (a ++ b) = (elems_size a + elems_size b)%nat.
Proof. unfold elems_size. by rewrite map_app, list_sum_app. Qed.
Lemma members_size_app a b : members_size (a ++ b) = (members_size a + members_size b)%nat.
Proof. unfold members_size. by rewrite map_app, list_sum_app. Qed.

Lemma tape_size_pos t : (1 <= tape_size t)%nat.
Proof. destruct t; simpl; lia. Qed.

(** A value without nesting budget is a scalar. *)
Lemma scalar_size t : jvalue 0 (raw_of t) t -> tape_size t = 1%nat.
Proof. intros H. inversion H; subst; simpl; lia. Qed.

Lemma raw_of_nonempty k s t : jvalue k s t -> s <> [].
Proof. intros (c & u & -> & _)%jvalue_head. done. Qed.

Section TapeFacts.
Context (src : bytes) (h : bool).

(** The extent and the size of a tape: its entries number the tree's values and
keys, they lie inside the span of the value, and there is at least one byte
of source for each. *)
Lemma tape_extent :
  (forall i j t es, tape_value src h i j t es ->
  length es = tape_size t /\ (i + length es <= j <= length src)%nat) /\
  (forall lo hi ts es, tape_elems src h lo hi ts es ->
  length es = elems_size ts /\ (lo + length es <= hi)%nat /\ (length ts <= length es)%nat) /\
  (forall lo hi ms es, tape_members src h lo hi ms es ->
  length es = members_size ms /\ (lo + length es <= hi)%nat /\ (2 * length ms <= length es)%nat).
Proof using.
  apply tape_mutind; intros; unfold elems_size, members_size in *; cbn [length map list_sum tape_size];
    rewrite ?length_app.
  - rewrite scalar_size by done. apply span_len in s as Hl. apply span_le in s. apply raw_of_nonempty in j0.
    destruct (raw_of t); simpl in Hl; [done|lia].
  - apply span_le in s. lia.
  - apply span_le in s. lia.
  - split_and!; [done|lia|lia].
  - cbn [list_sum foldr] in *. fold (list_sum (map tape_size ts)) in *. pose proof (tape_size_pos t). lia.
  - split_and!; [done|lia|lia].
  - cbn [list_sum foldr] in *. apply span_le in s as Hs. apply span_len in s.
    destruct j0. cbn [length] in s. rewrite length_app in s. cbn [length] in s.
    fold (list_sum (map (fun m => S (tape_size m.2)) ms)) in *. pose proof (tape_size_pos t). cbn [snd]. lia.
Qed.

Lemma tape_value_extent i j t es :
  tape_value src h i j t es -> length es = tape_size t /\ (i + length es <= j <= length src)%nat.
Proof using. apply tape_extent. Qed.
Lemma tape_elems_extent lo hi ts es :
  tape_elems src h lo hi ts es ->
  length es = elems_size ts /\ (lo + length es <= hi)%nat /\ (length ts <= length es)%nat.
Proof using. apply tape_extent. Qed.
Lemma tape_members_extent lo hi ms es :
  tape_members src h lo hi ms es ->
  length es = members_size ms /\ (lo + length es <= hi)%nat /\ (2 * length ms <= length es)%nat.
Proof using. apply tape_extent. Qed.

Lemma tape_value_span i j t es : tape_value src h i j t es -> span src i (raw_of t) j.
Proof using. by destruct 1. Qed.

Lemma tape_elems_app lo m hi ts ts' es es' :
  tape_elems src h lo m ts es -> tape_elems src h m hi ts' es' -> tape_elems src h lo hi (ts ++ ts') (es ++ es').
Proof using.
  intros H H'. induction H as [lo m Hle|lo i j m t ts es1 es2 Hle Hv Hts IH]; simpl.
  - destruct H'; [constructor; lia|]. econstructor; [|done..]. lia.
  - rewrite <- app_assoc. econstructor; [done|done|]. by apply IH.
Qed.

Lemma tape_elems_low lo lo' hi ts es :
  (lo' <= lo)%nat -> tape_elems src h lo hi ts es -> tape_elems src h lo' hi ts es.
Proof using. intros Hle H. destruct H; [apply te_nil; lia|]. eapply te_cons; [|done|done]. lia. Qed.

Lemma tape_members_low lo lo' hi ms es :
  (lo' <= lo)%nat -> tape_members src h lo hi ms es -> tape_members src h lo' hi ms es.
Proof using. intros Hle H. destruct H; [apply tm_nil; lia|]. eapply tm_cons; [|done..]. lia. Qed.

Lemma tape_members_app lo m hi ms ms' es es' :
  tape_members src h lo m ms es -> tape_members src h m hi ms' es' ->
  tape_members src h lo hi (ms ++ ms') (es ++ es').
Proof using.
  intros H H'. induction H as [lo m Hle|lo p q i j m key name t ms es1 es2 Hle Hk Hj Hq Hv Hms IH]; simpl.
  - destruct H'; [constructor; lia|]. econstructor; [|done..]. lia.
  - rewrite <- app_assoc. econstructor; try done. by apply IH.
Qed.
End TapeFacts.
