(* ===== verification/TapeMachine.v ===== *)
(** What every builder of a tape has in common.  A builder is a state machine
    that reads a value, emits entries, and keeps a stack of open containers; the
    two walks of [index.go] and the diagnostic parser differ in how they keep
    that stack and in how they report errors.  The class [TapeMachine] states
    what one turn of such a machine must do; a machine that satisfies it writes
    the tape of the tree the reference reader reads, fails where the reference
    fails, and runs out of storage exactly when the tape does not fit. *)

From S2P Require Import Prelude Words Utf8 Scanner Lex Grammar StringRef Numbers Reader Validator FastValid Decode KeyHash Raw Tape.

(** ** Running a step function *)

Section Run.
Context {S E R : Type} (step : S -> res E (S + R)).

Fixpoint run (fuel : nat) (s : S) : res E R :=
  match fuel with
  | O => NoFuel
  | Datatypes.S fuel =>
    let* x := step s in
    match x with inl s => run fuel s | inr r => Ok r end
  end.

Definition reaches (s s' : S) : Prop := exists k, forall f, run (k + f) s = run f s'.
Definition halts (s : S) (e : E) : Prop := exists k, run k s = Err e.
Definition returns_with (s : S) (r : R) : Prop := exists k, run k s = Ok r.

Lemma reaches_refl s : reaches s s.
Proof using. by exists 0%nat. Qed.

Lemma reaches_step s s' : step s = Ok (inl s') -> reaches s s'.
Proof using. intros H. exists 1%nat. intros f. simpl. by rewrite H. Qed.

Lemma reaches_trans s s' s'' : reaches s s' -> reaches s' s'' -> reaches s s''.
Proof using. intros (k & H) (k' & H'). exists (k + k')%nat. intros f. by rewrite <- Nat.add_assoc, H, H'. Qed.

(** States whose turns agree behave alike. *)
Lemma reaches_same s s' : step s = step s' -> reaches s s'.
Proof using. intros H. exists 0%nat. intros [|f]; simpl; [done|]. by rewrite H. Qed.

Lemma halts_step s e : step s = Err e -> halts s e.
Proof using. intros H. exists 1%nat. simpl. by rewrite H. Qed.

Lemma halts_after s s' e : reaches s s' -> halts s' e -> halts s e.
Proof using. intros (k & H) (k' & H'). exists (k + k')%nat. by rewrite H. Qed.

Lemma returns_step s r : step s = Ok (inr r) -> returns_with s r.
Proof using. intros H. exists 1%nat. simpl. by rewrite H. Qed.

Lemma returns_after s s' r : reaches s s' -> returns_with s' r -> returns_with s r.
Proof using. intros (k & H) (k' & H'). exists (k + k')%nat. by rewrite H. Qed.

(** Fuel only decides whether there is an answer. *)
Lemma run_more k f s : run k s <> NoFuel -> run (k + f) s = run k s.
Proof using.
  revert s. induction k as [|k IH]; intros s H; [done|]. simpl in *.
  destruct (step s) as [[s'|r]| | |]; simpl in *; [by apply IH|done..].
Qed.

Lemma run_agree k K s : run k s <> NoFuel -> run K s <> NoFuel -> run K s = run k s.
Proof using.
  intros H H'. destruct (Nat.le_ge_cases k K) as [Hle|Hle].
  - replace K with (k + (K - k))%nat by lia. by apply run_more.
  - symmetry. replace k with (K + (k - K))%nat by lia. by apply run_more.
Qed.

Lemma halts_run K s : run K s <> NoFuel -> forall e, halts s e -> run K s = Err e.
Proof using. intros H e (k & Hk). rewrite <- Hk. apply run_agree; [by rewrite Hk|done]. Qed.

Lemma returns_run K s r : run K s <> NoFuel -> returns_with s r -> run K s = Ok r.
Proof using. intros H (k & Hk). rewrite <- Hk. apply run_agree; [by rewrite Hk|done]. Qed.

(** A measure that every turn decreases bounds the run. *)
Section Measure.
Context (wf : S -> Prop) (measure : S -> nat).
Hypothesis Hstep : forall s, wf s ->
  match step s with Ok (inl s') => wf s' /\ (measure s' < measure s)%nat | NoFuel => False | _ => True end.

Lemma run_bounded K s : wf s -> (measure s < K)%nat -> run K s <> NoFuel.
Proof using Hstep.
  revert s. induction K as [|K IH]; intros s Hs HK; [lia|]. simpl. specialize (Hstep s Hs).
  destruct (step s) as [[s'|r]| | |]; simpl; [|done..]. destruct Hstep as [H1 H2]. apply IH; [done|lia].
Qed.
End Measure.
End Run.

(** ** Open containers *)

(** An open container: the entries before its header inside its parent, where it
    starts, and how many of its elements are complete. *)
Record frame : Type := mkFrame {
  fr_before : list IndexEntry;
  fr_start : nat;
  fr_array : bool;
  fr_count : nat
  }.

Definition bump (f : frame) : frame := mkFrame (fr_before f) (fr_start f) (fr_array f) (S (fr_count f)).

(** How many entries a stack and the innermost run of entries amount to. *)
Fixpoint zsize (stk : list frame) (cur : list IndexEntry) : nat :=
  match stk with
  | [] => length cur
  | f :: stk => (zsize stk (fr_before f) + 1 + length cur)%nat
  end.

Lemma zsize_app stk cur es : zsize stk (cur ++ es) = (zsize stk cur + length es)%nat.
Proof. destruct stk; simpl; rewrite length_app; lia. Qed.

Lemma zsize_bump f stk cur : zsize (bump f :: stk) cur = zsize (f :: stk) cur.
Proof. done. Qed.

Lemma zsize_close f stk e cur : zsize stk (fr_before f ++ e :: cur) = zsize (f :: stk) cur.
Proof. rewrite zsize_app. simpl. lia. Qed.

(** The entries of a builder that keeps an open container's header as [hdr]. *)
Section Flat.
Context (hdr : list frame -> frame -> IndexEntry).

Fixpoint flat (stk : list frame) (cur : list IndexEntry) : list IndexEntry :=
  match stk with
  | [] => cur
  | f :: stk => flat stk (fr_before f) ++ hdr stk f :: cur
  end.

Lemma flat_app stk cur es : flat stk (cur ++ es) = flat stk cur ++ es.
Proof using. destruct stk; simpl; by rewrite <- ?app_assoc. Qed.

Lemma flat_length stk cur : length (flat stk cur) = zsize stk cur.
Proof using.
  revert cur. induction stk as [|f stk IH]; intros cur; simpl; [done|]. rewrite length_app, IH. simpl. lia.
Qed.

Lemma flat_header f stk cur : flat (f :: stk) cur !! zsize stk (fr_before f) = Some (hdr stk f).
Proof using. simpl. rewrite <- (flat_length stk). by rewrite list_lookup_middle. Qed.

Lemma flat_close f stk cur e :
  <[zsize stk (fr_before f) := e]> (flat (f :: stk) cur) = flat stk (fr_before f ++ e :: cur).
Proof using.
  simpl. rewrite flat_app, <- (flat_length stk). by rewrite insert_app_r_alt, Nat.sub_diag by lia.
Qed.
End Flat.

Definition open_byte (array : bool) : Z := if array then "["%ch else "{"%ch.
Definition close_byte (array : bool) : Z := if array then "]"%ch else "}"%ch.

Definition unterminated (array : bool) : string := if array then "unterminated array" else "unterminated object".
Definition expected_separator (array : bool) : string :=
  if array then "expected comma or closing bracket in array" else "expected comma or closing brace in object".

(** ** The reference, one token at a time *)

Section Tokens.
Context (src : bytes) (unexpected : Z -> string).

Definition ref_scalar (c : Z) (i : nat) : res rerr (nat * tree) :=
  if c =? "n"%ch then ref_lit src lit_null TNull i
  else if c =? "t"%ch then ref_lit src lit_true (TBool true) i
  else if c =? "f"%ch then ref_lit src lit_false (TBool false) i
  else if c =? DQUOTE then let* (j, dec) := ref_str src i in Ok (j, TStr (slice src i j) dec)
  else if (c =? "-"%ch) || IsDigit c then ref_num src i
  else Err (i, unexpected c).

(** A member name at [p] and its colon: the end of the name, its value, and
where the member's value starts. *)
Definition ref_key (p : nat) : res rerr (nat * bytes * nat) :=
  if at_byte src p DQUOTE then
  let* (q, name) := ref_str src p in
  let k := ref_ws src q in
  if at_byte src k ":"%ch then Ok (q, name, ref_ws src (S k))
  else Err (k, "expected colon after object key"%string)
  else Err (p, "expected object key string"%string).
End Tokens.

(** ** The interface *)

(** A builder [step] over states [S], with errors [E] and result [R]: the state
    that is about to read a value, the state that has just completed one, and
    how it reports a syntax error and exhausted storage. *)
Class BuilderStates (S E : Type) : Type := {
  at_value : nat -> list frame -> list IndexEntry -> S;
  at_scope : nat -> list frame -> list IndexEntry -> S;
  syntax_err : rerr -> E;
  full_err : E
  }.

Section Interface.
Context (src : bytes) (limit : Z) (unexpected : Z -> string) (cap : nat).
Context {S E R : Type} (step : S -> res E (S + R)) `{BuilderStates S E}.

(** The entries written so far are no more than the bytes read, and every open
container started before. *)
Definition placed (i : nat) (stk : list frame) (cur : list IndexEntry) : Prop :=
  (zsize stk cur <= i <= length src)%nat /\ Forall (fun f => (fr_start f + fr_count f < i)%nat) stk.

(** ... and they fit the storage and the depth limit. *)
Definition zipped (i : nat) (stk : list frame) (cur : list IndexEntry) : Prop :=
  placed i stk cur /\ (zsize stk cur <= cap)%nat /\ Z.of_nat (length stk) <= limit.

Definition fails (s : S) (e : rerr) : Prop :=
  halts step s (syntax_err e) \/ ((cap < length src)%nat /\ halts step s full_err).

(** [s] continues as [s'] when [size] entries fit. *)
Definition emits (s s' : S) (size : nat) : Prop :=
  ((size <= cap)%nat -> reaches step s s') /\ ((cap < size)%nat -> halts step s full_err).

(** [s] goes on to the next element, or the next name and its element, at [p]. *)
Definition enters (s : S) (array : bool) (p : nat) (stk : list frame) (cur : list IndexEntry) : Prop :=
  if array then
  if (p <? length src)%nat then reaches step s (at_value p stk cur) else fails s (p, "expected value"%string)
  else
  match ref_key src p with
  | Ok (q, _, v) =>
    if (v <? length src)%nat then
    emits s (at_value v stk (cur ++ [key_entry false p q (slice src p q)])) (zsize stk cur + 1)
    else fails s (v, "expected value"%string)
  | Err e => fails s e
  | _ => False
  end.

Class TapeMachine : Prop := {
  scalar_turn i stk cur c :
  zipped i stk cur -> src !! i = Some c -> IsJSONWhitespace c = false -> c <> open_byte true -> c <> open_byte false ->
  match ref_scalar src unexpected c i with
  | Ok (j, t) =>
    emits (at_value i stk cur) (at_scope j stk (cur ++ [scalar_entry i j t])) (zsize stk cur + 1)
  | Err e => fails (at_value i stk cur) e
  | _ => False
  end;
  open_turn i stk cur array :
  zipped i stk cur -> src !! i = Some (open_byte array) ->
  if limit <? Z.of_nat (length stk) + 1 then
  halts step (at_value i stk cur) (syntax_err (i, depth_msg)) \/
  ((cap < zsize stk cur + 1)%nat /\ halts step (at_value i stk cur) full_err)
  else if (cap <? zsize stk cur + 1)%nat then halts step (at_value i stk cur) full_err
  else
  let p := ref_ws src (Datatypes.S i) in
  if at_byte src p (close_byte array) then
  reaches step (at_value i stk cur)
  (at_scope (Datatypes.S p) stk (cur ++ [header false array i (Datatypes.S p) 0 0]))
  else enters (at_value i stk cur) array p (mkFrame cur i array 0 :: stk) [];
  scope_turn j f stk cur :
  zipped j (f :: stk) cur -> count_ok (Datatypes.S (fr_count f)) ->
  let k := ref_ws src j in
  match src !! k with
  | None => fails (at_scope j (f :: stk) cur) (k, unterminated (fr_array f))
  | Some c =>
    if c =? ","%ch then
  enters (at_scope j (f :: stk) cur) (fr_array f) (ref_ws src (Datatypes.S k)) (bump f :: stk) cur
    else if c =? close_byte (fr_array f) then
  reaches step (at_scope j (f :: stk) cur)
    (at_scope (Datatypes.S k) stk (fr_before f ++
       header false (fr_array f) (fr_start f) (Datatypes.S k) (length cur) (Datatypes.S (fr_count f)) :: cur))
    else fails (at_scope j (f :: stk) cur) (k, expected_separator (fr_array f))
  end
  }.

(** A turn that emits one entry and goes on. *)
Lemma turn_emits s s' size :
  step s = (if (cap <? size)%nat then Err full_err else Ok (inl s')) -> emits s s' size.
Proof using.
  intros H'. split; intros Hc.
  - apply reaches_step. rewrite H'. destruct (Nat.ltb_spec cap size); [lia|done].
  - apply halts_step. rewrite H'. destruct (Nat.ltb_spec cap size); [done|lia].
Qed.

Lemma zipped_small i stk cur : zipped i stk cur -> (zsize stk cur <= i <= length src)%nat /\ (zsize stk cur <= cap)%nat.
Proof using. by intros ((? & _) & ? & _). Qed.

(** Composition of the outcomes. *)

Lemma emits_halts s s' size e : emits s s' size -> (size <= cap)%nat -> halts step s' e -> halts step s e.
Proof using. intros [H1 _] Hle. apply halts_after. by apply H1. Qed.

Lemma fails_after s s' e : reaches step s s' -> fails s' e -> fails s e.
Proof using. intros Hr [Hf|[Hc Hf]]; [left|right; split; [done|]]; by eapply halts_after. Qed.

Lemma emits_fails s s' size e :
  emits s s' size -> (size <= length src)%nat -> ((size <= cap)%nat -> fails s' e) -> fails s e.
Proof using.
  intros [H1 H2] Hsz Hf. destruct (Nat.le_gt_cases size cap) as [Hle|Hgt].
  - eapply fails_after; [by apply H1|by apply Hf].
  - right. split; [lia|by apply H2].
Qed.

Lemma emits_trans s s1 s2 a b :
  emits s s1 a -> ((a <= cap)%nat -> emits s1 s2 b) -> (a <= b)%nat -> emits s s2 b.
Proof using.
  intros [H1 H2] Hb Hle. split; intros Hc.
  - eapply reaches_trans; [apply H1; lia|apply Hb; lia].
  - destruct (Nat.le_gt_cases a cap) as [Ha|Ha]; [|by apply H2].
    eapply halts_after; [by apply H1|]. by apply Hb.
Qed.

Lemma emits_reaches s s1 s2 b : reaches step s s1 -> emits s1 s2 b -> emits s s2 b.
Proof using.
  intros H1 [H2 H3]. split; intros Hc; [eapply reaches_trans|eapply halts_after]; eauto.
Qed.

Lemma enters_after s s1 array p stk cur :
  reaches step s s1 -> enters s1 array p stk cur -> enters s array p stk cur.
Proof using.
  intros Hr. unfold enters. destruct array.
  - destruct (p <? length src)%nat; [by apply reaches_trans|by apply fails_after].
  - destruct (ref_key src p) as [[[q name] v]|e| |]; [|by apply fails_after|done|done].
    destruct (v <? length src)%nat; [by apply emits_reaches|by apply fails_after].
Qed.

Lemma emits_goes s s1 s2 a : emits s s1 a -> ((a <= cap)%nat -> reaches step s1 s2) -> emits s s2 a.
Proof using. intros [H1 H2] Hr. split; [|done]. intros Hc. eapply reaches_trans; eauto. Qed.
End Interface.

Lemma placed_size src i stk cur : placed src i stk cur -> (zsize stk cur <= length src)%nat.
Proof. intros (? & _). lia. Qed.

Lemma placed_later src i j stk cur es :
  placed src i stk cur -> (i + length es <= j <= length src)%nat -> placed src j stk (cur ++ es).
Proof.
  intros (H1 & H2) Hj. split; [rewrite zsize_app; lia|]. eapply Forall_impl; [exact H2|]. simpl. lia.
Qed.

(** One more element is complete. *)
Lemma placed_bump src p j q f stk cur es :
  placed src p (f :: stk) cur -> placed src j (f :: stk) (cur ++ es) ->
  (p < j)%nat -> (j <= q <= length src)%nat -> placed src q (bump f :: stk) (cur ++ es).
Proof.
  intros (_ & Hf) (H1 & H2) Hp Hq. split; [rewrite zsize_bump; lia|].
  apply Forall_cons_1 in Hf as [Hf1 Hf2], H2 as [H3 H4]. constructor; [simpl; lia|].
  eapply Forall_impl; [exact H4|]. simpl. lia.
Qed.

Lemma placed_open src i j stk cur array :
  placed src i stk cur -> (i < j <= length src)%nat -> placed src j (mkFrame cur i array 0 :: stk) [].
Proof.
  intros (H1 & H2) Hj. split; [simpl; lia|]. constructor; [simpl; lia|].
  eapply Forall_impl; [exact H2|]. simpl. lia.
Qed.

Lemma placed_count src j f stk cur :
  Z.of_nat (length src) <= InfoMaxCount -> placed src j (f :: stk) cur -> count_ok (S (fr_count f)).
Proof. intros Hbig ((? & ?) & Hf). apply Forall_cons_1 in Hf as [Hf _]. unfold count_ok. lia. Qed.

(** ** The simulation

    The reference reads with a depth limit [deep] that may exceed the machine's
    own: a machine then diverts a deeper document, after writing no more entries
    than its tape has. *)

Section Sim.
Context (src : bytes) (limit deep : Z) (unexpected : Z -> string) (cap : nat).
Context {S E R : Type} (step : S -> res E (S + R)) `{B : BuilderStates S E}.
Context (M : TapeMachine src limit unexpected cap step).
Hypothesis Hsrc : bytes_ok src.
Hypothesis Hbig : Z.of_nat (length src) <= InfoMaxCount.
Hypothesis Hdeep : limit <= deep.
Abbreviation rv := (ref_value src deep unexpected).
Abbreviation placed := (placed src).

Definition diverts (s : S) (size : nat) : Prop :=
  limit < deep /\ ((exists e, halts step s (syntax_err e)) \/ ((cap < size)%nat /\ halts step s full_err)).

(** [s] gets to the position [at_ i stk cur]. *)
Definition stands (s : S) (at_ : nat -> list frame -> list IndexEntry -> S) (i : nat) (stk : list frame) (cur : list IndexEntry) : Prop :=
  (Z.of_nat (length stk) <= limit /\ emits cap step s (at_ i stk cur) (zsize stk cur)) \/ diverts s (zsize stk cur).

Definition refuses (s : S) (e : rerr) : Prop := fails src cap step s e \/ diverts s (length src).

(** What a state that stands before a value does. *)
Definition builds (s : S) (i : nat) (stk : list frame) (cur : list IndexEntry) (r : res rerr (nat * tree)) : Prop :=
  match r with
  | Ok (j, t) => exists es, tape_value src false i j t es /\ stands s at_scope j stk (cur ++ es)
  | Err e => refuses s e
  | _ => False
  end.

(** A state that stands before the next element, if the entries so far fit. *)
Definition entering (s : S) (array : bool) (p : nat) (stk : list frame) (cur : list IndexEntry) : Prop :=
  (Z.of_nat (length stk) <= limit /\
  ((zsize stk cur <= cap)%nat -> enters src cap step s array p stk cur) /\
  ((cap < zsize stk cur)%nat -> halts step s full_err)) \/
  diverts s (zsize stk cur).

Lemma diverts_more s a b : (a <= b)%nat -> diverts s a -> diverts s b.
Proof using. intros Hab (H & [He|[Hc He]]); (split; [done|]); [by left|right]. split; [by eapply Nat.lt_le_trans|done]. Qed.

Lemma stands_refuses s at_ i stk cur e :
  stands s at_ i stk cur -> placed i stk cur ->
  (zipped src limit cap i stk cur -> fails src cap step (at_ i stk cur) e) -> refuses s e.
Proof using.
  intros [[Hl Hem]|Hd] Hp Hf; [left|right; eapply diverts_more; [by eapply placed_size|done]].
  eapply emits_fails; [done|by eapply placed_size|]. intros Hc. by apply Hf.
Qed.

Lemma stands_goes s at_ i stk cur at2 j stk2 cur2 :
  stands s at_ i stk cur -> placed i stk cur -> zsize stk cur = zsize stk2 cur2 -> (length stk2 <= length stk)%nat ->
  (zipped src limit cap i stk cur -> reaches step (at_ i stk cur) (at2 j stk2 cur2)) -> stands s at2 j stk2 cur2.
Proof using.
  intros [[Hl Hem]|Hd] Hp Hz Hlen Hr; [left|right; by rewrite <- Hz]. split; [lia|]. rewrite <- Hz.
  eapply emits_goes; [done|]. intros Hc. by apply Hr.
Qed.

Section Containers.
Context (rvf : Z -> nat -> res rerr (nat * tree)) (depth : nat) (bound : nat).
Hypothesis Hrv : forall s i stk cur,
  (bound <= i < length src)%nat -> ref_ws src i = i -> length stk = depth -> placed i stk cur ->
  stands s at_value i stk cur -> builds s i stk cur (rvf (Z.of_nat depth) i).
Hypothesis Hend : forall i, (length src <= i)%nat -> rvf (Z.of_nat depth) i = Err (i, "expected value"%string).

(** After an element: the separator, or the end of the container. *)
Lemma scope_sim s j f stk cur :
  placed j (f :: stk) cur -> stands s at_scope j (f :: stk) cur ->
  let k := ref_ws src j in
  match src !! k with
  | None => refuses s (k, unterminated (fr_array f))
  | Some c =>
    if c =? ","%ch then entering s (fr_array f) (ref_ws src (Datatypes.S k)) (bump f :: stk) cur
    else if c =? close_byte (fr_array f) then
    stands s at_scope (Datatypes.S k) stk (fr_before f ++
    header false (fr_array f) (fr_start f) (Datatypes.S k) (length cur) (Datatypes.S (fr_count f)) :: cur)
    else refuses s (k, expected_separator (fr_array f))
  end.
Proof using M Hbig.
  intros Hp Hst. pose proof (placed_count src j f stk cur Hbig Hp) as Hc.
  assert (Hturn : zipped src limit cap j (f :: stk) cur -> _)
    by (intros Hz; exact (scope_turn src limit unexpected cap step j f stk cur Hz Hc)).
  cbv zeta in *. destruct (src !! ref_ws src j) as [c|]; [|by eapply stands_refuses].
  destruct (c =? ","%ch).
  { destruct Hst as [[Hl Hem]|Hd]; [left|by right]. split; [done|]. split; [|apply Hem].
  intros Hle. eapply enters_after; [by apply Hem|by apply Hturn]. }
  destruct (c =? close_byte (fr_array f)); [|by eapply stands_refuses].
  eapply stands_goes; [done|done|by rewrite zsize_close|simpl; lia|done].
Qed.

(** From the position before an element to the position after it. *)
Lemma element_sim s p f stk cur :
  (bound <= p <= length src)%nat -> length (f :: stk) = depth -> placed p (f :: stk) cur ->
  ref_ws src p = p -> entering s true p (f :: stk) cur -> builds s p (f :: stk) cur (rvf (Z.of_nat depth) p).
Proof using Hrv Hend.
  intros Hp Hd Hpl Hws Hent. destruct (Nat.lt_ge_cases p (length src)) as [Hlt|Hge].
  - apply Hrv; [lia|done|done|done|]. destruct Hent as [(Hl & H1 & H2)|Hdv]; [left|by right]. split; [done|].
    unfold enters in H1. rewrite (proj2 (Nat.ltb_lt _ _) Hlt) in H1. by split.
  - rewrite Hend by done. destruct Hent as [(Hl & H1 & H2)|Hdv].
    2:{ right. eapply diverts_more; [by eapply placed_size|done]. }
    left. unfold enters in H1. rewrite (proj2 (Nat.ltb_ge _ _) Hge) in H1.
    destruct (Nat.le_gt_cases (zsize (f :: stk) cur) cap) as [Hle|Hgt]; [by apply H1|].
    right. split; [pose proof (placed_size _ _ _ _ Hpl); lia|by apply H2].
Qed.

Lemma elems_sim s fuel i acc f stk cur :
  (bound <= i <= length src)%nat -> (length src - i < fuel)%nat -> fr_array f = true ->
  length (f :: stk) = depth -> placed (ref_ws src i) (f :: stk) cur ->
  entering s true (ref_ws src i) (f :: stk) cur ->
  match ref_elems src rvf fuel (Z.of_nat depth) i acc with
  | Ok (j, ts) => exists hi ts' es, j = Datatypes.S hi /\ ts = acc ++ ts' /\ tape_elems src false i hi ts' es /\
    (hi < length src)%nat /\ count_ok (fr_count f + length ts') /\
    stands s at_scope j stk (fr_before f ++
    header false true (fr_start f) j (length (cur ++ es)) (fr_count f + length ts') :: cur ++ es)
  | Err e => refuses s e
  | _ => False
  end.
Proof using M Hsrc Hbig Hrv Hend.
  revert i acc f cur. induction fuel as [|fuel IH]; intros i acc f cur Hi Hf Harr Hd Hpl Hent; [lia|].
  cbn [ref_elems]. pose proof (ref_ws_le src i ltac:(lia)) as H1. set (p := ref_ws src i) in *.
  pose proof (element_sim s p f stk cur ltac:(lia) Hd Hpl (ref_ws_idem src i ltac:(lia)) Hent) as He.
  destruct (rvf (Z.of_nat depth) p) as [[j t]|e| |]; cbn [res_bind builds] in He |- *; [|done..].
  destruct He as (es1 & Htape & Hem). apply tape_value_extent in Htape as Hx. pose proof (tape_size_pos t).
  assert (Hpl' : placed j (f :: stk) (cur ++ es1)) by (eapply placed_later; [done|lia]).
  pose proof (scope_sim s j f stk (cur ++ es1) Hpl' Hem) as Hs. cbv zeta in Hs.
  pose proof (ref_ws_le src j ltac:(lia)) as H2. set (k := ref_ws src j) in *. rewrite Harr in Hs. change (close_byte true) with "]"%ch in Hs.
  at_pos src k as c Ec; [|done]. apply lookup_lt_Some in Ec as Hlt.
  destruct (c =? ","%ch).
  - specialize (IH (Datatypes.S k) (acc ++ [t]) (bump f) (cur ++ es1) ltac:(lia) ltac:(lia) Harr Hd).
    pose proof (ref_ws_le src (Datatypes.S k) ltac:(lia)) as H3.
    specialize (IH (placed_bump src p j (ref_ws src (Datatypes.S k)) f stk cur es1 Hpl Hpl' ltac:(lia) ltac:(lia)) Hs).
    destruct (ref_elems src rvf fuel _ _ _) as [[j' ts]|e| |]; [|done..].
    destruct IH as (hi & ts' & es & -> & -> & Htapes & Hhi & Hcnt & Hgo).
    exists hi, (t :: ts'), (es1 ++ es). rewrite <- !app_assoc. split_and!; [done|done| |done| |].
    + econstructor; [|done|]; [lia|]. eapply tape_elems_low; [|done]. lia.
    + simpl in *. by rewrite Nat.add_succ_r.
    + rewrite <- app_assoc in Hgo. cbn [length bump fr_count fr_before fr_start] in *. by rewrite Nat.add_succ_r.
  - destruct (c =? "]"%ch) eqn:Hcl; [|done].
    exists k, [t], es1. split_and!; [done|done| |done| |].
    + rewrite <- (app_nil_r es1). econstructor; [|done|by constructor; lia]. lia.
    + cbn [length]. rewrite Nat.add_1_r. by eapply placed_count.
    + by rewrite Nat.add_1_r.
Qed.

(** The name and colon of a member, and its value. *)
Lemma key_sound p :
  match ref_key src p with
  | Ok (q, name, v) => (p < q < v)%nat /\ (v <= length src)%nat /\ ref_ws src v = v /\ span src p (slice src p q) q /\
    jstring (slice src p q) name
  | Err _ => True
  | _ => False
  end.
Proof using Hsrc.
  unfold ref_key. destruct (at_byte src p DQUOTE) eqn:Hq; [|done]. apply at_byte_spec in Hq.
  pose proof (ref_str_sound src Hsrc p Hq) as Hs.
  destruct (ref_str src p) as [[q name]|e| |]; cbn [res_bind]; [|done..].
  destruct Hs as (Hpq & key & Hk & Hj). apply span_le in Hk as Hle. pose proof (ref_ws_le src q ltac:(lia)).
  cbv zeta. destruct (at_byte src (ref_ws src q) ":"%ch) eqn:Hc; [|done]. apply at_byte_lt in Hc.
  pose proof (ref_ws_le src (Datatypes.S (ref_ws src q)) ltac:(lia)). rewrite (span_slice _ _ _ _ Hk).
  split_and!; [lia..|by apply ref_ws_idem; lia|done|done].
Qed.

Lemma member_sim s p f stk cur :
  (bound <= p <= length src)%nat -> length (f :: stk) = depth -> placed p (f :: stk) cur ->
  entering s false p (f :: stk) cur ->
  match ref_key src p with
  | Ok (q, name, v) =>
    (p < q < v)%nat /\ span src p (slice src p q) q /\ jstring (slice src p q) name /\
    builds s v (f :: stk) (cur ++ [key_entry false p q (slice src p q)]) (rvf (Z.of_nat depth) v)
  | Err e => refuses s e
  | _ => False
  end.
Proof using Hsrc Hrv Hend.
  intros Hp Hd Hpl Hent. pose proof (key_sound p) as Hk. pose proof (placed_size _ _ _ _ Hpl) as Hsz.
  assert (Hfull : forall e, (enters src cap step s false p (f :: stk) cur -> fails src cap step s e) -> refuses s e).
  { intros e He. destruct Hent as [(Hl & H1 & H2)|Hdv]; [left|right; by eapply diverts_more].
  destruct (Nat.le_gt_cases (zsize (f :: stk) cur) cap) as [|Hgt]; [auto|]. right. split; [lia|by apply H2]. }
  unfold entering, enters in Hfull, Hent. destruct (ref_key src p) as [[[q name] v]|e| |]; [|by apply Hfull|done|done].
  destruct Hk as (Hq & Hv & Hws & Hsp & Hj). split_and!; [lia|lia|done|done|].
  destruct (Nat.ltb_spec v (length src)) as [Hlt|Hge].
  - apply Hrv; [lia|done|done| |].
    + eapply placed_later; [done|]. simpl. lia.
    + unfold stands. rewrite zsize_app. cbn [length].
      destruct Hent as [(Hl & H1 & H2)|Hdv]; [left; split; [done|]|right; eapply diverts_more; [|done]; lia].
      split; intros Hc.
      * apply H1; [lia|done].
      * destruct (Nat.le_gt_cases (zsize (f :: stk) cur) cap) as [Hle|Hgt]; [|by apply H2]. by apply H1.
  - rewrite Hend by done. by apply Hfull.
Qed.

Lemma ref_members_key fuel i acc :
  ref_members src rvf (Datatypes.S fuel) (Z.of_nat depth) i acc =
  let p := ref_ws src i in
  let* (q, name, v) := ref_key src p in
  let* (j, t) := rvf (Z.of_nat depth) v in
  let acc := acc ++ [((slice src p q, name), t)] in
  let k := ref_ws src j in
  match src !! k with
  | None => Err (k, unterminated false)
  | Some c =>
    if c =? ","%ch then ref_members src rvf fuel (Z.of_nat depth) (Datatypes.S k) acc
    else if c =? "}"%ch then Ok (Datatypes.S k, acc)
    else Err (k, expected_separator false)
  end.
Proof using.
  cbn [ref_members]. cbv zeta. unfold ref_key. destruct (at_byte src (ref_ws src i) DQUOTE); [|done].
  destruct (ref_str src (ref_ws src i)) as [[q name]|e| |]; cbn [res_bind]; [|done..]. cbv zeta.
  by destruct (at_byte src (ref_ws src q) ":"%ch).
Qed.

Lemma members_sim s fuel i acc f stk cur :
  (bound <= i <= length src)%nat -> (length src - i < fuel)%nat -> fr_array f = false ->
  length (f :: stk) = depth -> placed (ref_ws src i) (f :: stk) cur ->
  entering s false (ref_ws src i) (f :: stk) cur ->
  match ref_members src rvf fuel (Z.of_nat depth) i acc with
  | Ok (j, ms) => exists hi ms' es, j = Datatypes.S hi /\ ms = acc ++ ms' /\ tape_members src false i hi ms' es /\
    (hi < length src)%nat /\ count_ok (fr_count f + length ms') /\
    stands s at_scope j stk (fr_before f ++
    header false false (fr_start f) j (length (cur ++ es)) (fr_count f + length ms') :: cur ++ es)
  | Err e => refuses s e
  | _ => False
  end.
Proof using M Hsrc Hbig Hrv Hend.
  revert i acc f cur. induction fuel as [|fuel IH]; intros i acc f cur Hi Hf Harr Hd Hpl Hent; [lia|].
  rewrite ref_members_key. cbv zeta. pose proof (ref_ws_le src i ltac:(lia)) as H1. set (p := ref_ws src i) in *.
  pose proof (member_sim s p f stk cur ltac:(lia) Hd Hpl Hent) as He.
  destruct (ref_key src p) as [[[q name] v]|e| |]; cbn [res_bind]; [|done..].
  destruct He as (Hq & Hkey & Hj & He). set (ke := key_entry false p q (slice src p q)) in *.
  destruct (rvf (Z.of_nat depth) v) as [[j t]|e| |]; cbn [res_bind builds] in He |- *; [|done..].
  destruct He as (es1 & Htape & Hem). apply tape_value_extent in Htape as Hx. pose proof (tape_size_pos t).
  rewrite <- app_assoc in Hem. change ([ke] ++ es1) with (ke :: es1) in Hem.
  assert (Hpl' : placed j (f :: stk) (cur ++ ke :: es1)) by (eapply placed_later; [done|simpl; lia]).
  pose proof (scope_sim s j f stk _ Hpl' Hem) as Hs. cbv zeta in Hs.
  pose proof (ref_ws_le src j ltac:(lia)) as H2. set (k := ref_ws src j) in *.
  rewrite Harr in Hs. change (close_byte false) with "}"%ch in Hs.
  at_pos src k as c Ec; [|done]. apply lookup_lt_Some in Ec as Hlt.
  destruct (c =? ","%ch).
  - pose proof (ref_ws_le src (Datatypes.S k) ltac:(lia)) as H3.
    specialize (IH (Datatypes.S k) (acc ++ [((slice src p q, name), t)]) (bump f) (cur ++ ke :: es1)
      ltac:(lia) ltac:(lia) Harr Hd).
    specialize (IH (placed_bump src p j (ref_ws src (Datatypes.S k)) f stk cur _ Hpl Hpl' ltac:(lia) ltac:(lia)) Hs).
    destruct (ref_members src rvf fuel _ _ _) as [[j' ms]|e| |]; [|done..].
    destruct IH as (hi & ms' & es & -> & -> & Htapes & Hhi & Hcnt & Hgo).
    exists hi, (((slice src p q, name), t) :: ms'), (ke :: es1 ++ es). rewrite <- !app_assoc.
    split_and!; [done|done| |done| |].
    + econstructor; [|done|done| |done|]; [lia|lia|]. eapply tape_members_low; [|done]. lia.
    + simpl in *. by rewrite Nat.add_succ_r.
    + rewrite <- app_assoc in Hgo. cbn [length bump fr_count fr_before fr_start app] in *. by rewrite Nat.add_succ_r.
  - destruct (c =? "}"%ch) eqn:Hcl; [|done].
    exists k, [((slice src p q, name), t)], (ke :: es1). split_and!; [done|done| |done| |].
    + rewrite <- (app_nil_r es1). econstructor; [|done|done| |done|by constructor; lia]; lia.
    + cbn [length]. rewrite Nat.add_1_r. by eapply placed_count.
    + by rewrite Nat.add_1_r.
Qed.
End Containers.

(** Opening a container: past the bracket, into the first element or out again. *)
Lemma open_sim s i stk cur array :
  placed i stk cur -> stands s at_value i stk cur -> src !! i = Some (open_byte array) ->
  if deep <? Z.of_nat (length stk) + 1 then refuses s (i, depth_msg)
  else
  let p := ref_ws src (Datatypes.S i) in
  if at_byte src p (close_byte array) then
  stands s at_scope (Datatypes.S p) stk (cur ++ [header false array i (Datatypes.S p) 0 0])
  else entering s array p (mkFrame cur i array 0 :: stk) [].
Proof using M Hdeep.
  intros Hp Hst Hc. apply lookup_lt_Some in Hc as Hi. pose proof Hp as ((Hzi & _) & _).
  assert (Hturn : zipped src limit cap i stk cur -> _)
    by (intros Hz; exact (open_turn src limit unexpected cap step i stk cur array Hz Hc)).
  (* the machine's own limit *)
  assert (Hdepth : limit < Z.of_nat (length stk) + 1 ->
    diverts s (zsize stk cur + 1) \/ limit = deep /\ fails src cap step s (i, depth_msg)).
  { intros Hl. destruct Hst as [[Hl' Hem]|Hd]; [|left; eapply diverts_more; [|done]; lia].
  assert (H' : halts step s (syntax_err (i, depth_msg)) \/ ((cap < zsize stk cur + 1)%nat /\ halts step s full_err)).
  { destruct (Nat.le_gt_cases (zsize stk cur) cap) as [Hle|Hgt]; [|right; split; [lia|by apply Hem]].
  specialize (Hturn (conj Hp (conj Hle Hl'))). rewrite if_true in Hturn by lia.
  destruct Hturn as [Ht|[Hcap Ht]]; [left|right; split; [done|]]; (eapply halts_after; [by apply Hem|done]). }
  destruct (Z.eq_dec limit deep) as [Heq|Hne]; [right|left].
  - split; [done|]. destruct H' as [H'|[Hcap H']]; [by left|right; split; [lia|done]].
  - split; [lia|]. destruct H' as [H'|H']; [left; by eexists|by right]. }
    destruct (Z.ltb_spec deep (Z.of_nat (length stk) + 1)).
    { destruct (Hdepth ltac:(lia)) as [Hd|[_ Hf]]; [right; eapply diverts_more; [|done]; lia|by left]. }
    cbv zeta in *. destruct (Z.lt_ge_cases limit (Z.of_nat (length stk) + 1)) as [Hl|Hl].
    { destruct (Hdepth Hl) as [Hd|[Heq _]]; [|lia]. case_step; right; [by rewrite zsize_app|]. simpl. by rewrite Nat.add_0_r. }
    clear Hdepth. destruct Hst as [[Hl' Hem]|Hd].
    2:{ case_step; right; rewrite ?zsize_app; simpl; (eapply diverts_more; [|done]); lia. }
    assert (Hfull : (cap < zsize stk cur + 1)%nat -> halts step s full_err).
    { intros Hlt. destruct (Nat.le_gt_cases (zsize stk cur) cap) as [Hle|Hgt]; [|by apply Hem].
    eapply halts_after; [by apply Hem|]. specialize (Hturn (conj Hp (conj Hle Hl'))).
    rewrite if_false in Hturn by lia. by rewrite if_true in Hturn by lia. }
    destruct (at_byte src (ref_ws src (Datatypes.S i)) (close_byte array)).
  - left. split; [done|]. rewrite zsize_app. cbn [length]. split; [|done]. intros Hle.
    eapply reaches_trans; [apply Hem; lia|]. assert (Hle' : (zsize stk cur <= cap)%nat) by lia.
    specialize (Hturn (conj Hp (conj Hle' Hl'))).
    by rewrite !if_false in Hturn by lia.
  - left. cbn [length zsize fr_before]. rewrite Nat.add_0_r. split; [lia|]. split; [|done]. intros Hle.
    eapply enters_after; [apply Hem; lia|]. assert (Hle' : (zsize stk cur <= cap)%nat) by lia.
    specialize (Hturn (conj Hp (conj Hle' Hl'))).
    by rewrite !if_false in Hturn by lia.
Qed.

Lemma rv_end fuel depth i :
  depth <= deep -> (length src <= i)%nat -> (0 < fuel)%nat -> rv fuel depth i = Err (i, "expected value"%string).
Proof using.
  intros Hd Hi Hf. destruct fuel; [lia|]. cbn [ref_value]. unfold ref_body. rewrite if_false by lia.
  by rewrite lookup_ge_None_2.
Qed.

Section Nested.
Context (fuel : nat).
Hypothesis IH : forall s i stk cur,
  (i < length src)%nat -> ref_ws src i = i -> placed i stk cur -> Z.of_nat (length stk) <= deep ->
  (length src - i < fuel)%nat ->
  stands s at_value i stk cur -> builds s i stk cur (rv fuel (Z.of_nat (length stk)) i).

Lemma array_sim s i stk cur :
  placed i stk cur -> (length src - i < Datatypes.S fuel)%nat -> stands s at_value i stk cur ->
  src !! i = Some (open_byte true) ->
  builds s i stk cur (ref_array src deep (rv fuel) (Z.of_nat (length stk) + 1) i).
Proof using M Hsrc Hbig Hdeep IH.
  intros Hp Hf Hem Hc. apply lookup_lt_Some in Hc as Hi. pose proof (open_sim s i stk cur true Hp Hem Hc) as Ho.
  unfold ref_array. destruct (Z.ltb_spec deep (Z.of_nat (length stk) + 1)); [done|]. cbv zeta in *.
  pose proof (ref_ws_le src (Datatypes.S i) ltac:(lia)) as Hw. set (q := ref_ws src (Datatypes.S i)) in *.
  change (close_byte true) with "]"%ch in Ho. destruct (at_byte src q "]"%ch) eqn:Hb.
  { apply at_byte_lt in Hb. exists [header false true i (Datatypes.S q) 0 0]. split; [|done].
  apply (tv_array src false i q _ [] []); [apply slice_span; lia|by constructor; lia|done]. }
  replace (Z.of_nat (length stk) + 1) with (Z.of_nat (Datatypes.S (length stk))) by lia.
  pose proof (elems_sim (rv fuel) (Datatypes.S (length stk)) (Datatypes.S i)) as He.
  specialize (He ltac:(intros s' i' stk' cur' H1 Hws H2 H3 H4; rewrite <- H2; apply IH; [lia|done|done|lia|lia|done])).
  specialize (He ltac:(intros i' Hi'; apply rv_end; lia)).
  specialize (He s (Datatypes.S (length src)) q [] (mkFrame cur i true 0) stk [] ltac:(lia) ltac:(lia) eq_refl eq_refl).
  unfold q in He at 1 2. rewrite ref_ws_idem in He by lia.
  specialize (He (placed_open src i q stk cur true Hp ltac:(lia)) Ho). fold q in He.
  destruct (ref_elems src _ _ _ q []) as [[k ts]|e| |]; cbn [res_bind]; [|done..].
  destruct He as (hi & ts' & es & -> & -> & Htape & Hhi & Hcnt & Hgo). cbn [fr_before fr_start fr_count app] in *.
  eexists. split; [|exact Hgo]. apply tv_array; [|by eapply tape_elems_low; [|done]; lia|done].
  apply slice_span. apply tape_elems_extent in Htape. lia.
Qed.

Lemma object_sim s i stk cur :
  placed i stk cur -> (length src - i < Datatypes.S fuel)%nat -> stands s at_value i stk cur ->
  src !! i = Some (open_byte false) ->
  builds s i stk cur (ref_object src deep (rv fuel) (Z.of_nat (length stk) + 1) i).
Proof using M Hsrc Hbig Hdeep IH.
  intros Hp Hf Hem Hc. apply lookup_lt_Some in Hc as Hi. pose proof (open_sim s i stk cur false Hp Hem Hc) as Ho.
  unfold ref_object. destruct (Z.ltb_spec deep (Z.of_nat (length stk) + 1)); [done|]. cbv zeta in *.
  pose proof (ref_ws_le src (Datatypes.S i) ltac:(lia)) as Hw. set (q := ref_ws src (Datatypes.S i)) in *.
  change (close_byte false) with "}"%ch in Ho. destruct (at_byte src q "}"%ch) eqn:Hb.
  { apply at_byte_lt in Hb. exists [header false false i (Datatypes.S q) 0 0]. split; [|done].
  apply (tv_object src false i q _ [] []); [apply slice_span; lia|by constructor; lia|done]. }
  replace (Z.of_nat (length stk) + 1) with (Z.of_nat (Datatypes.S (length stk))) by lia.
  pose proof (members_sim (rv fuel) (Datatypes.S (length stk)) (Datatypes.S i)) as He.
  specialize (He ltac:(intros s' i' stk' cur' H1 Hws H2 H3 H4; rewrite <- H2; apply IH; [lia|done|done|lia|lia|done])).
  specialize (He ltac:(intros i' Hi'; apply rv_end; lia)).
  specialize (He s (Datatypes.S (length src)) q [] (mkFrame cur i false 0) stk [] ltac:(lia) ltac:(lia) eq_refl eq_refl).
  unfold q in He at 1 2. rewrite ref_ws_idem in He by lia.
  specialize (He (placed_open src i q stk cur false Hp ltac:(lia)) Ho). fold q in He.
  destruct (ref_members src _ _ _ q []) as [[k ms]|e| |]; cbn [res_bind]; [|done..].
  destruct He as (hi & ms' & es & -> & -> & Htape & Hhi & Hcnt & Hgo). cbn [fr_before fr_start fr_count app] in *.
  eexists. split; [|exact Hgo]. apply tv_object; [|by eapply tape_members_low; [|done]; lia|done].
  apply slice_span. apply tape_members_extent in Htape. lia.
Qed.
End Nested.

Lemma ref_ws_stop i c : src !! i = Some c -> ref_ws src i = i -> IsJSONWhitespace c = false.
Proof using.
  intros Hc. apply lookup_lt_Some in Hc as Hi. unfold ref_ws. rewrite advance_unfold, Hc.
  destruct (IsJSONWhitespace c); [|done]. pose proof (advance_le IsJSONWhitespace src (Datatypes.S i) ltac:(lia)). lia.
Qed.

Lemma scalar_sound c i : src !! i = Some c -> reads src 0 i (ref_scalar src unexpected c i).
Proof using Hsrc.
  intros Hc. apply lookup_lt_Some in Hc as Hi. unfold ref_scalar.
  destruct (c =? "n"%ch); [apply ref_lit_sound; [lia|by constructor|done]|].
  destruct (c =? "t"%ch); [apply ref_lit_sound; [lia|by constructor|done]|].
  destruct (c =? "f"%ch); [apply ref_lit_sound; [lia|by constructor|done]|].
  destruct (Z.eqb_spec c DQUOTE) as [->|].
  { pose proof (ref_str_sound src Hsrc i Hc) as H'.
  destruct (ref_str src i) as [[j dec]|[o m]| |]; simpl; [|lia|done|done].
  destruct H' as (Hj & s & Hs & Hjs). split; [lia|]. exists s. split; [done|].
  rewrite (span_slice _ _ _ _ Hs). by constructor. }
  destruct (_ || _); [apply ref_num_sound; lia|simpl; lia].
Qed.

Lemma value_sim fuel s i stk cur :
  (i < length src)%nat -> ref_ws src i = i -> placed i stk cur -> Z.of_nat (length stk) <= deep ->
  (length src - i < fuel)%nat ->
  stands s at_value i stk cur -> builds s i stk cur (rv fuel (Z.of_nat (length stk)) i).
Proof using M Hsrc Hbig Hdeep.
  revert s i stk cur. induction fuel as [|fuel IH]; intros s i stk cur Hi Hws Hp Hd Hf Hst; [lia|]. cbn [ref_value].
  at_pos src i as c Hc; [|apply lookup_ge_None in Hc; lia].
  rewrite (ref_body_head _ _ _ _ _ _ _ Hc) by done.
  destruct (Z.eq_dec c (open_byte true)) as [->|Ha]; [by apply array_sim|].
  destruct (Z.eq_dec c (open_byte false)) as [->|Ho]; [by apply object_sim|].
  assert (Hturn : zipped src limit cap i stk cur -> _)
    by (intros Hz; exact (scalar_turn src limit unexpected cap step i stk cur c Hz Hc (ref_ws_stop i c Hc Hws) Ha Ho)).
  match goal with |- builds _ _ _ _ ?r => replace r with (ref_scalar src unexpected c i) end.
  2:{ unfold ref_scalar, open_byte in *. destruct (c =? "n"%ch); [done|].
  destruct (c =? "t"%ch); [done|]. destruct (c =? "f"%ch); [done|]. destruct (c =? DQUOTE); [done|]. rewrite (if_false (c =? "["%ch)) by lia.
  by rewrite (if_false (c =? "{"%ch)) by lia. }
  pose proof (scalar_sound c i Hc) as Hr.
  destruct (ref_scalar src unexpected c i) as [[j t]|e| |]; [|by eapply stands_refuses|done|done].
  destruct Hr as (Hj & r & Hsp & Hv). pose proof (jvalue_raw _ _ _ Hv). subst r.
  exists [scalar_entry i j t]. split; [by apply tv_scalar|]. unfold stands. rewrite zsize_app. cbn [length].
  destruct Hst as [[Hl Hem]|Hdv]; [left|right; eapply diverts_more; [|done]; lia]. split; [done|].
  eapply emits_trans; [exact Hem| |lia]. intros Hc'. by apply Hturn.
Qed.

(** Started on the first significant byte with no container open. *)
Lemma root_sim i :
  (i < length src)%nat -> ref_ws src i = i -> 0 <= limit ->
  builds (at_value i [] []) i [] [] (rv (Datatypes.S (length src)) 0 i).
Proof using M Hsrc Hbig Hdeep.
  intros Hi Hws Hl. apply (value_sim _ _ i [] []); [done|done| |simpl; lia|lia|].
  - split; [simpl; lia|constructor].
  - left. split; [done|]. split; [intros _; apply reaches_refl|simpl; lia].
Qed.
End Sim.
