(* ===== verification/TapeWalk.v ===== *)
(** The iterative tape builders of [index.go] and [walk_number_swar.go]:
    [WalkFast] and [walkFastSWAR] are one machine that differs in its number
    scanner.  A [goto] label is a constructor, and one turn of the machine runs
    from a label to the next [goto] or [return]. *)

From S2P Require Import Prelude Words Utf8 Scanner Lex Grammar StringRef Errors Numbers Reader Validator FastValid Decode KeyHash Raw Tape TapeMachine.

Inductive tapeParseStatus : Type := TapeParseOK | tapeParseInvalid | TapeParseFull.

Definition fastWalkMaxDepth : Z := 64.

(** [entryStack], [countStack] and [arrayStack] at one depth. *)
Record walk_frame : Type := mkWalk { entryStack : Z; countStack : Z; arrayStack : bool }.

Inductive walk_label : Type := AtValue | AtObjectKey (c : Z) | AtScopeEnd.

Record walk_state : Type := mkWalkState {
  wk_label : walk_label;
  wk_i : nat;
  wk_entries : list IndexEntry;
  wk_stack : list walk_frame
  }.

(** A status that is not [TapeParseOK] ends the walk. *)
Abbreviation walk_res := (res tapeParseStatus).

Definition lift {A} (r : res unit A) : walk_res A :=
  match r with Ok a => Ok a | Err _ => Err tapeParseInvalid | Panic => Panic | NoFuel => NoFuel end.

Definition numberFlags (integer : bool) : Z := if integer then TapeFlagInt else 0.

(** [*(&b.Entries[k])] updated in place. *)
Definition update_entry {E} (es : list IndexEntry) (k : Z) (f : IndexEntry -> IndexEntry) : res E (list IndexEntry) :=
  match es !! Z.to_nat k with
  | Some e => Ok (<[Z.to_nat k := f e]> es)
  | None => Panic
  end.

Section Walk.
Context (src : bytes) (cap : nat) (maxDepth : Z).
Context (scan_number : nat -> res unit (nat * bool * bool)).
Abbreviation n := (length src).

(** [if len(b.Entries) == cap(b.Entries) { return TapeParseFull }], then the entry. *)
Definition emit_entry (es : list IndexEntry) (e : IndexEntry) : walk_res (list IndexEntry) :=
  if (length es =? cap)%nat then Err TapeParseFull else Ok (es ++ [e]).

Definition emitScalar (es : list IndexEntry) (start end_ : nat) (kind : Kind) (flags : Z) : walk_res (list IndexEntry) :=
  emit_entry es (mkEntry (w32 (Z.of_nat start)) (w32 (Z.of_nat end_)) 1 (PackInfo 0 (kind_code kind) flags)).

(** The slow half of [stringFast]: the general scanner from [scanStart]. *)
Definition string_tail (es : list IndexEntry) (start : nat) (flags : Z) (scanStart : nat) : walk_res (nat * list IndexEntry) :=
  let* (end_, escaped, ok) := lift (scanJSONStringFastFrom src scanStart) in
  if negb ok then Err tapeParseInvalid
  else
  let flags := if escaped then Z.lor flags TapeFlagEscaped else flags in
  let* es := emitScalar es start end_ String flags in Ok (end_, es).

Definition stringFast (es : list IndexEntry) (start : nat) (flags : Z) : walk_res (nat * list IndexEntry) :=
  let scanStart := (start + 1)%nat in
  if (start + 9 <=? n)%nat then
  match probe src (start + 1) with
  | Some j =>
    match src !! j with
    | None => Panic
    | Some c =>
  if c =? DQUOTE then
    let* es := emitScalar es start (j + 1) String flags in Ok ((j + 1)%nat, es)
  else string_tail es start flags j
    end
  | None => string_tail es start flags (scanStart + 8)
  end
  else string_tail es start flags scanStart.

Definition depthLimit : Z := if fastWalkMaxDepth <? maxDepth then fastWalkMaxDepth else maxDepth.

(** [entryStack[sp] = entry] and its siblings: the arrays have 64 slots. *)
Definition push_frame (stk : list walk_frame) (f : walk_frame) : walk_res (list walk_frame) :=
  if Z.of_nat (length stk) <? fastWalkMaxDepth then Ok (f :: stk) else Panic.

Definition open_entry (i : nat) (kind : Kind) : IndexEntry :=
  mkEntry (w32 (Z.of_nat i)) 0 0 (PackInfo 0 (kind_code kind) 0).

(** [e.End = uint32(i + 1); e.Next = uint32(len(b.Entries)) - entry] *)
Definition close_entry (es : list IndexEntry) (entry : Z) (i : nat) (count : Z -> IndexEntry -> IndexEntry) (c : Z) :
  walk_res (list IndexEntry) :=
  update_entry es entry (fun e =>
  let e := count c (mkEntry (Start e) (w32 (Z.of_nat (i + 1))) (Next e) (Info e)) in
  set_next e (w32 (w32 (Z.of_nat (length es)) - entry))).
Definition keep_count (_ : Z) (e : IndexEntry) : IndexEntry := e.
Definition set_count (c : Z) (e : IndexEntry) : IndexEntry := SetCount e c.

Abbreviation turn := (walk_res (walk_state + nat * list IndexEntry)).
Definition goto (l : walk_label) (i : nat) (es : list IndexEntry) (stk : list walk_frame) : turn :=
  Ok (inl (mkWalkState l i es stk)).

(** The two container cases of the [value] label. *)
Definition walk_open (array : bool) (i : nat) (es : list IndexEntry) (stk : list walk_frame) : turn :=
  if depthLimit <=? Z.of_nat (length stk) then Err tapeParseInvalid
  else
  let entry := w32 (Z.of_nat (length es)) in
  let* es := emit_entry es (open_entry i (if array then Array else Object)) in
  let (i, c) := nextSignificantFast src (i + 1) in
  if array && (n <=? i)%nat then Err tapeParseInvalid
  else if c =? close_byte array then
  let* es := close_entry es entry i keep_count 0 in
  goto AtScopeEnd (i + 1) es stk
  else
  let* stk := push_frame stk (mkWalk entry 0 array) in
  goto (if array then AtValue else AtObjectKey c) i es stk.

Definition walk_scalar (i end_ : nat) (es : list IndexEntry) (stk : list walk_frame) (kind : Kind) (flags : Z) : turn :=
  let* es := emitScalar es i end_ kind flags in goto AtScopeEnd end_ es stk.

Definition walk_value (i : nat) (es : list IndexEntry) (stk : list walk_frame) : turn :=
  let* c := lift (fastByteAt src i) in
  if c =? "{"%ch then walk_open false i es stk
  else if c =? "["%ch then walk_open true i es stk
  else if c =? DQUOTE then
  let* (i, es) := stringFast es i 0 in goto AtScopeEnd i es stk
  else if c =? "t"%ch then
  if (n <? i + 4)%nat || negb (loadUint32LE src i =? wordTrueLE) then Err tapeParseInvalid
  else walk_scalar i (i + 4) es stk Bool 0
  else if c =? "f"%ch then
  if (n <? i + 5)%nat || negb (loadUint32LE src (i + 1) =? wordAlseLE) then Err tapeParseInvalid
  else walk_scalar i (i + 5) es stk Bool 0
  else if c =? "n"%ch then
  if (n <? i + 4)%nat || negb (loadUint32LE src i =? wordNullLE) then Err tapeParseInvalid
  else walk_scalar i (i + 4) es stk Null 0
  else if negb (c =? "-"%ch) && negb (IsDigit c) then Err tapeParseInvalid
  else
  let* (end_, integer, ok) := lift (scan_number i) in
  if negb ok then Err tapeParseInvalid
  else walk_scalar i end_ es stk Number (numberFlags integer).

Definition walk_key (c : Z) (i : nat) (es : list IndexEntry) (stk : list walk_frame) : turn :=
  if negb (c =? DQUOTE) then Err tapeParseInvalid
  else
  let* (i, es) := stringFast es i TapeFlagKey in
  let (i, c) := nextSignificantFast src i in
  if negb (c =? ":"%ch) then Err tapeParseInvalid
  else
  let i := skipSpaceFast src (i + 1) in
  if (n <=? i)%nat then Err tapeParseInvalid else goto AtValue i es stk.

Definition walk_scope (i : nat) (es : list IndexEntry) (stk : list walk_frame) : turn :=
  match stk with
  | [] => Ok (inr (i, es))
  | f :: below =>
    let (i, c) := nextSignificantFast src i in
    let next := mkWalk (entryStack f) (w32 (countStack f + 1)) (arrayStack f) :: below in
    if c =? ","%ch then
    if arrayStack f then
    let i := skipSpaceFast src (i + 1) in
    if (n <=? i)%nat then Err tapeParseInvalid else goto AtValue i es next
    else
    let (i, c) := nextSignificantFast src (i + 1) in goto (AtObjectKey c) i es next
    else if negb (c =? close_byte (arrayStack f)) then Err tapeParseInvalid
    else
    let count := w32 (countStack f + 1) in
    if InfoMaxCount <? count then Err tapeParseInvalid
    else
    let* es := close_entry es (entryStack f) i set_count count in
    goto AtScopeEnd (i + 1) es below
  end.

Definition walk_step (s : walk_state) : turn :=
  match wk_label s with
  | AtValue => walk_value (wk_i s) (wk_entries s) (wk_stack s)
  | AtObjectKey c => walk_key c (wk_i s) (wk_entries s) (wk_stack s)
  | AtScopeEnd => walk_scope (wk_i s) (wk_entries s) (wk_stack s)
  end.

(** [WalkFast] from the builder's cursor: the cursor after the value and the
entries, or the status that stopped it. *)
Definition walk (i : nat) (es : list IndexEntry) : walk_res (nat * list IndexEntry) :=
  run walk_step (S (S n)) (mkWalkState AtValue i es []).

Definition parse_fast : walk_res (list IndexEntry) :=
  let i := skipSpaceFast src 0 in
  if (n <=? i)%nat then Err tapeParseInvalid
  else
  let* (i, es) := walk i [] in
  let i := skipSpaceFast src i in
  if negb (i =? n)%nat then Err tapeParseInvalid else Ok es.
End Walk.

Definition WalkFast (src : bytes) (cap : nat) (maxDepth : Z) := walk src cap maxDepth (scanNumberFastTagged src).
Definition walkFastSWAR (src : bytes) (cap : nat) (maxDepth : Z) := walk src cap maxDepth (scanNumberFastTaggedSWAR src).
Definition parseFast (src : bytes) (cap : nat) (maxDepth : Z) := parse_fast src cap maxDepth (scanNumberFastTagged src).
Definition parseFastSWAR (src : bytes) (cap : nat) (maxDepth : Z) := parse_fast src cap maxDepth (scanNumberFastTaggedSWAR src).

(** ** The scanners of the walk *)

Lemma emit_entry_spec cap es e :
  (length es <= cap)%nat ->
  emit_entry cap es e = if (cap <? length es + 1)%nat then Err TapeParseFull else Ok (es ++ [e]).
Proof.
  intros H. unfold emit_entry. destruct (Nat.eqb_spec (length es) cap), (Nat.ltb_spec cap (length es + 1)); done || lia.
Qed.

Section Strings.
Context (src : bytes) (cap : nat).
Hypothesis Hsrc : bytes_ok src.

(** What [stringFast] emits for a string token that ends at [j]. *)
Definition string_emits (es : list IndexEntry) (start : nat) (flags : Z) (rr : res rerr (nat * bytes)) :
  walk_res (nat * list IndexEntry) :=
  match rr with
  | Ok (j, _) =>
    let* es := emitScalar cap es start j String
    (if has_bs (slice src (S start) j) then Z.lor flags TapeFlagEscaped else flags) in Ok (j, es)
  | _ => Err tapeParseInvalid
  end.

Lemma string_tail_ref es start flags k out :
  (S start <= k <= length src)%nat -> has_bs (slice src (S start) k) = false ->
  ref_str src start = str_at src k out ->
  string_tail src cap es start flags k = string_emits es start flags (ref_str src start).
Proof using Hsrc.
  intros Hk Hb Heq. rewrite Heq. unfold string_tail, scanJSONStringFastFrom.
  pose proof (fast_loop_spec src Hsrc (S (length src)) k false out ltac:(lia) ltac:(lia)) as H.
  destruct (str_at src k out) as [[j d]|e| |]; cbn [fast_result] in H; [|by destruct H as (x & b & ->)|done|done].
  destruct H as [-> Hj]. cbn [lift res_bind negb orb string_emits].
  by rewrite (has_bs_slice src (S start) k j), Hb by lia.
Qed.

Lemma probe_clean i j :
  (i + 8 <= length src)%nat -> probe src i = Some j -> (i <= j < length src)%nat /\ has_bs (slice src i j) = false /\
  exists out', str_at src i [] = str_at src j out'.
Proof using Hsrc.
  intros Hi Hp. destruct (probe_some src Hsrc i j Hi Hp) as [-> Hlt].
  rewrite (str_at_special src Hsrc i []) by lia.
  rewrite (scanStringSpecial_spec src Hsrc i) in * by lia. pose proof (advance_le (fun c => negb (is_string_special c)) src i ltac:(lia)).
  destruct (advance_span (fun c => negb (is_string_special c)) src i ltac:(lia)) as (s & Hs & Hf & _).
  rewrite (span_slice _ _ _ _ Hs). split_and!; [lia|lia| |eauto].
  apply has_bs_plain. eapply Forall_impl; [exact Hf|]. intros c. unfold is_string_syntax, is_string_special. lia.
Qed.

Lemma probe_skip i :
  (i + 8 <= length src)%nat -> probe src i = None -> has_bs (slice src i (i + 8)) = false.
Proof using Hsrc.
  intros Hi. unfold probe, loadUint64LE. cbv zeta.
  destruct (Z.eqb_spec (stringSpecialMask (load64 src i)) 0) as [E|]; [|done]. intros _.
  destruct (word_clear _ stringSpecialMask src i special_mask_first Hsrc Hi E) as [Hf _].
  apply has_bs_plain. eapply Forall_impl; [exact Hf|]. intros c. unfold is_string_syntax, is_string_special. lia.
Qed.

Lemma stringFast_ref es start flags :
  src !! start = Some DQUOTE -> stringFast src cap es start flags = string_emits es start flags (ref_str src start).
Proof using Hsrc.
  intros Hq. apply lookup_lt_Some in Hq as Hlt. unfold stringFast. cbv zeta.
  replace (start + 1)%nat with (S start) by lia. change (ref_str src start) with (str_at src (S start) []).
  destruct (Nat.leb_spec (start + 9) (length src)) as [H9|].
  2:{ apply (string_tail_ref _ _ _ _ []); [lia| |done]. by rewrite slice_refl. }
  destruct (probe src (S start)) as [j|] eqn:Hp.
  - destruct (probe_clean (S start) j ltac:(lia) Hp) as (Hj & Hb & out & Hout).
    destruct (src !! j) as [c|] eqn:Hc; [|apply lookup_ge_None in Hc; lia].
    destruct (Z.eqb_spec c DQUOTE) as [->|]; [|by apply (string_tail_ref _ _ _ _ out); [lia|..]].
    rewrite Hout, str_at_quote by done. cbn [string_emits]. replace (j + 1)%nat with (S j) by lia.
    rewrite (has_bs_slice src (S start) j (S j)), Hb by lia.
    rewrite (slice_cons src j (S j) DQUOTE), slice_refl by (done || lia). done.
  - destruct (probe_none src Hsrc (S start) [] ltac:(lia) Hp) as (out & Hout).
    apply (string_tail_ref _ _ _ _ out); [lia| |done]. apply probe_skip; [lia|done].
Qed.
End Strings.

(** ** The walk is a [TapeMachine] *)

(** [WalkFast] leaves an open header's [End] and [Next] zero. *)
Definition walk_header (_ : list frame) (f : frame) : IndexEntry :=
  mkEntry (Z.of_nat (fr_start f)) 0 0 (PackInfo 0 (container_kind (fr_array f)) 0).

Fixpoint walk_stack (stk : list frame) : list walk_frame :=
  match stk with
  | [] => []
  | f :: stk => mkWalk (Z.of_nat (zsize stk (fr_before f))) (Z.of_nat (fr_count f)) (fr_array f) :: walk_stack stk
  end.

Lemma walk_stack_length stk : length (walk_stack stk) = length stk.
Proof. induction stk; simpl; auto. Qed.

#[export] Instance walk_builder : BuilderStates walk_state tapeParseStatus := {|
  at_value i stk cur := mkWalkState AtValue i (flat walk_header stk cur) (walk_stack stk);
  at_scope i stk cur := mkWalkState AtScopeEnd i (flat walk_header stk cur) (walk_stack stk);
  syntax_err _ := tapeParseInvalid;
  full_err := TapeParseFull
  |}.

Lemma small_w32 k : (Z.of_nat k <= InfoMaxCount) -> w32 (Z.of_nat k) = Z.of_nat k.
Proof. intros H. apply Z.mod_small. change InfoMaxCount with 67108863 in H. lia. Qed.

Lemma kind_code_container (array : bool) : kind_code (if array then Array else Object) = container_kind array.
Proof. done. Qed.

Lemma limit_small maxDepth : depthLimit maxDepth <= 64.
Proof. unfold depthLimit, fastWalkMaxDepth. case_step; lia. Qed.

Section WalkMachine.
Context (src : bytes) (cap : nat) (maxDepth : Z) (unexpected : Z -> string).
Context (scan_number : nat -> res unit (nat * bool * bool)).
Hypothesis Hsrc : bytes_ok src.
Hypothesis Hbig : Z.of_nat (length src) <= InfoMaxCount.
Hypothesis Hscan : forall i, (i < length src)%nat ->
  exists integer, scan_number i = Ok ((scanNumber src i).1, integer, msg_ok (scanNumber src i).2) /\
  (msg_ok (scanNumber src i).2 = true -> integer = plain_integer (slice src i (scanNumber src i).1)).

Abbreviation limit := (depthLimit maxDepth).
Abbreviation step := (walk_step src cap maxDepth scan_number).
Abbreviation emits := (emits cap step).
Abbreviation zipped := (zipped src limit cap).

Lemma emitScalar_spec es i j kind flags :
  (length es <= cap)%nat -> (i <= length src)%nat -> (j <= length src)%nat ->
  emitScalar cap es i j kind flags =
  if (cap <? length es + 1)%nat then Err TapeParseFull
  else Ok (es ++ [mkEntry (Z.of_nat i) (Z.of_nat j) 1 (PackInfo 0 (kind_code kind) flags)]).
Proof using Hbig. intros. unfold emitScalar. by rewrite emit_entry_spec, !small_w32 by (done || lia). Qed.

Lemma walk_scalar_emits i j stk cur t kind flags :
  zipped i stk cur -> (i <= j <= length src)%nat ->
  scalar_entry i j t = mkEntry (Z.of_nat i) (Z.of_nat j) 1 (PackInfo 0 (kind_code kind) flags) ->
  step (at_value i stk cur) = walk_scalar cap i j (flat walk_header stk cur) (walk_stack stk) kind flags ->
  emits (at_value i stk cur) (at_scope j stk (cur ++ [scalar_entry i j t])) (zsize stk cur + 1).
Proof using Hbig.
  intros Hz%zipped_small Hj He Hs. apply turn_emits. rewrite Hs. unfold walk_scalar.
  rewrite emitScalar_spec, flat_length, He by (rewrite ?flat_length; lia).
  destruct (cap <? zsize stk cur + 1)%nat; [done|]. simpl. by rewrite flat_app.
Qed.

Lemma lit_cond (b : bool) i k lit t :
  fast_follows (if b then Ok (i, false) else Ok (k, true)) (ref_lit src lit t i) ->
  ref_lit src lit t i = if b then Err (i, "invalid literal"%string) else Ok (k, t).
Proof using. unfold ref_lit. destruct (matchStringAt src i lit), b; simpl; [| |done|]; first [by intros (? & ?)|by intros [= <-]]. Qed.

Lemma literal_turn (b : bool) i k lit t stk cur c kind :
  zipped i stk cur -> (k <= length src)%nat \/ b = true -> (i <= k)%nat ->
  scalar_entry i k t = mkEntry (Z.of_nat i) (Z.of_nat k) 1 (PackInfo 0 (kind_code kind) 0) ->
  ref_scalar src unexpected c i = ref_lit src lit t i ->
  fast_follows (if b then Ok (i, false) else Ok (k, true)) (ref_lit src lit t i) ->
  step (at_value i stk cur) =
  (if b then Err tapeParseInvalid else walk_scalar cap i k (flat walk_header stk cur) (walk_stack stk) kind 0) ->
  match ref_scalar src unexpected c i with
  | Ok (j, t) => emits (at_value i stk cur) (at_scope j stk (cur ++ [scalar_entry i j t])) (zsize stk cur + 1)
  | Err e => fails src cap step (at_value i stk cur) e
  | _ => False
  end.
Proof using Hbig.
  intros Hz Hk Hle He -> Hl Hs. rewrite (lit_cond _ _ _ _ _ Hl). destruct b.
  - left. by apply halts_step.
  - eapply walk_scalar_emits; [done| |done|done]. destruct Hk; [lia|done].
Qed.

Lemma walk_scalar_turn i stk cur c :
  zipped i stk cur -> src !! i = Some c -> IsJSONWhitespace c = false -> c <> open_byte true -> c <> open_byte false ->
  match ref_scalar src unexpected c i with
  | Ok (j, t) => emits (at_value i stk cur) (at_scope j stk (cur ++ [scalar_entry i j t])) (zsize stk cur + 1)
  | Err e => fails src cap step (at_value i stk cur) e
  | _ => False
  end.
Proof using Hsrc Hbig Hscan.
  intros Hz Hc _ Ha Ho. apply lookup_lt_Some in Hc as Hi.
  pose proof (scalar_sound src unexpected Hsrc c i Hc) as Hr.
  assert (Hs : step (at_value i stk cur) = walk_value src cap maxDepth scan_number i (flat walk_header stk cur) (walk_stack stk)) by done.
  unfold walk_value, fastByteAt in Hs. rewrite Hc in Hs. cbn [lift res_bind] in Hs.
  rewrite (if_false (c =? "{"%ch)), (if_false (c =? "["%ch)) in Hs by (unfold open_byte in *; lia).
  destruct (Z.eqb_spec c DQUOTE) as [->|].
  { rewrite stringFast_ref in Hs by done. unfold ref_scalar in *. cbn [Z.eqb Pos.eqb] in *.
  destruct (ref_str src i) as [[j dec]|e| |]; cbn [res_bind string_emits reads] in *; [|left; by apply halts_step|done|done].
  destruct Hr as (Hj & s & Hsp & _). apply span_le in Hsp.
  eapply (walk_scalar_emits i j stk cur _ String); [done|lia| |].
  - unfold scalar_entry. cbn [scalar_flags kind_of]. rewrite (slice_cons src i j DQUOTE) by (done || lia). done.
  - rewrite Hs. unfold walk_scalar. by destruct (emitScalar _ _ _ _ _ _). }
    destruct (Z.eqb_spec c "t"%ch) as [->|].
    { apply (literal_turn ((length src <? i + 4)%nat || negb (loadUint32LE src i =? wordTrueLE))
      i (i + 4) lit_true (TBool true) stk cur "t"%ch Bool); [done| |lia|done|done| |exact Hs].
  - destruct (Nat.ltb_spec (length src) (i + 4)); [by right|left; lia].
  - apply word_literal_follows; [done|concrete_bytes|done|lia]. }
    destruct (Z.eqb_spec c "f"%ch) as [->|].
    { apply (literal_turn ((length src <? i + 5)%nat || negb (loadUint32LE src (i + 1) =? wordAlseLE))
      i (i + 5) lit_false (TBool false) stk cur "f"%ch Bool); [done| |lia|done|done| |exact Hs].
  - destruct (Nat.ltb_spec (length src) (i + 5)); [by right|left; lia].
  - by apply false_literal_follows. }
    destruct (Z.eqb_spec c "n"%ch) as [->|].
    { apply (literal_turn ((length src <? i + 4)%nat || negb (loadUint32LE src i =? wordNullLE))
      i (i + 4) lit_null TNull stk cur "n"%ch Null); [done| |lia|done|done| |exact Hs].
  - destruct (Nat.ltb_spec (length src) (i + 4)); [by right|left; lia].
  - apply word_literal_follows; [done|concrete_bytes|done|lia]. }
    unfold ref_scalar in *.
    rewrite (if_false (c =? "n"%ch)), (if_false (c =? "t"%ch)), (if_false (c =? "f"%ch)), (if_false (c =? DQUOTE)) in * by lia.
    destruct ((c =? "-"%ch) || IsDigit c) eqn:Hnum; [rewrite if_false in Hs by lia|left; apply halts_step; rewrite Hs; by rewrite if_true by lia].
    destruct (Hscan i Hi) as (integer & Hn & Hplain). rewrite Hn in Hs. unfold ref_num in *.
    destruct (scanNumber src i) as [j [|a m]]; cbn [fst snd msg_ok lift res_bind negb reads] in *; [|left; by apply halts_step].
    destruct Hr as (Hj & s & Hsp & _). apply span_le in Hsp.
    eapply (walk_scalar_emits i j stk cur _ Number); [done|lia| |exact Hs].
    unfold scalar_entry, numberFlags. cbn [scalar_flags kind_of]. by rewrite Hplain.
Qed.

(** [objectKey]: the name, its colon, and the start of the value. *)
Lemma key_enters c p stk cur :
  zipped p stk cur -> (p <= length src)%nat -> c = match src !! p with Some c => c | None => 0 end ->
  enters src cap step (mkWalkState (AtObjectKey c) p (flat walk_header stk cur) (walk_stack stk)) false p stk cur.
Proof using Hsrc Hbig.
  intros Hz%zipped_small Hp ->. unfold enters. cbn [negb].
  set (s := mkWalkState _ _ _ _). assert (Hs : step s = walk_key src cap (match src !! p with Some c => c | None => 0 end) p (flat walk_header stk cur) (walk_stack stk)) by done.
  unfold walk_key in Hs. unfold ref_key, at_byte at 1.
  destruct (src !! p) as [c|] eqn:Hc; [|left; by apply halts_step].
  destruct (Z.eqb_spec c DQUOTE) as [->|]; cbn [negb] in Hs; [|left; by apply halts_step].
  rewrite stringFast_ref in Hs by done. pose proof (ref_str_sound src Hsrc p Hc) as Hstr.
  destruct (ref_str src p) as [[q name]|e| |]; cbn [res_bind string_emits] in *; [|left; by apply halts_step|done|done].
  destruct Hstr as (Hpq & key & Hkey%span_le & _). cbv zeta. set (k := ref_ws src q) in *.
  rewrite emitScalar_spec, flat_length in Hs by (rewrite ?flat_length; lia).
  destruct (Nat.ltb_spec cap (zsize stk cur + 1)) as [Hfull|Hfit].
  { assert (Hh : halts step s full_err) by (by apply halts_step).
  destruct (at_byte src k ":"%ch); [|right; split; [lia|done]].
  case_step; [|right; split; [lia|done]]. split; [lia|done]. }
  cbn [res_bind] in Hs. rewrite nextSignificantFast_ref in Hs. fold k in Hs. unfold at_byte.
  destruct (src !! k) as [x|]; [|left; by apply halts_step].
  destruct (x =? ":"%ch); cbn [negb] in Hs; [|left; by apply halts_step].
  rewrite skipSpaceFast_ref in Hs. replace (k + 1)%nat with (S k) in Hs by lia.
  destruct (Nat.ltb_spec (ref_ws src (S k)) (length src)) as [Hlt|Hge].
  - rewrite (if_false (_ <=? _)%nat) in Hs by lia. apply turn_emits. rewrite Hs, (if_false (cap <? _)%nat) by lia.
    unfold goto. simpl. do 3 f_equal. rewrite flat_app. unfold key_entry, key_flags.
    by rewrite (slice_cons src p q DQUOTE) by (done || lia).
  - rewrite if_true in Hs by lia. left. by apply halts_step.
Qed.

(** Closing the innermost container. *)
Lemma close_entry_spec f stk cur k count c m :
  (zsize (f :: stk) cur <= length src)%nat -> (k < length src)%nat -> (fr_start f <= length src)%nat ->
  (forall s e nx, count c (mkEntry s e nx (PackInfo 0 (container_kind (fr_array f)) 0)) =
  mkEntry s e nx (PackInfo (Z.of_nat m) (container_kind (fr_array f)) 0)) ->
  close_entry (flat walk_header (f :: stk) cur) (Z.of_nat (zsize stk (fr_before f))) k count c =
  Ok (flat walk_header stk (fr_before f ++ header false (fr_array f) (fr_start f) (S k) (length cur) m :: cur)).
Proof using Hbig.
  intros Hz Hk Hf Hcount. unfold close_entry, update_entry. rewrite Nat2Z.id, flat_header, flat_close, flat_length.
  cbn [walk_header Start End_ Next Info]. rewrite Hcount, !small_w32 by lia.
  unfold header, set_next. cbn [andb Start End_ Info]. do 5 f_equal; [lia|].
  replace (Z.of_nat (zsize (f :: stk) cur) - Z.of_nat (zsize stk (fr_before f))) with (Z.of_nat (1 + length cur))
    by (simpl; lia). rewrite small_w32; [lia|simpl in Hz; lia].
Qed.

Lemma walk_open_turn i stk cur array :
  zipped i stk cur -> src !! i = Some (open_byte array) ->
  if limit <? Z.of_nat (length stk) + 1 then
  halts step (at_value i stk cur) (syntax_err (i, depth_msg)) \/
  ((cap < zsize stk cur + 1)%nat /\ halts step (at_value i stk cur) full_err)
  else if (cap <? zsize stk cur + 1)%nat then halts step (at_value i stk cur) full_err
  else
  let p := ref_ws src (S i) in
  if at_byte src p (close_byte array) then
  reaches step (at_value i stk cur) (at_scope (S p) stk (cur ++ [header false array i (S p) 0 0]))
  else enters src cap step (at_value i stk cur) array p (mkFrame cur i array 0 :: stk) [].
Proof using Hsrc Hbig.
  intros Hz Hc. apply zipped_small in Hz as Hz'. apply lookup_lt_Some in Hc as Hi.
  assert (Hs : step (at_value i stk cur) = walk_open src cap maxDepth array i (flat walk_header stk cur) (walk_stack stk)).
  { unfold walk_step. simpl. unfold walk_value, fastByteAt. rewrite Hc. by destruct array. }
  unfold walk_open in Hs. rewrite walk_stack_length in Hs.
  destruct (Z.ltb_spec limit (Z.of_nat (length stk) + 1)).
  { rewrite if_true in Hs by lia. left. by apply halts_step. }
  rewrite if_false in Hs by lia. rewrite emit_entry_spec, flat_length in Hs by (rewrite flat_length; lia).
  destruct (Nat.ltb_spec cap (zsize stk cur + 1)); [by apply halts_step|]. cbn [res_bind] in Hs.
  rewrite nextSignificantFast_ref in Hs. replace (i + 1)%nat with (S i) in Hs by lia. cbv zeta.
  pose proof (ref_ws_le src (S i) ltac:(lia)) as Hp. set (p := ref_ws src (S i)) in *.
  set (g := mkFrame cur i array 0). assert (Hflat : flat walk_header stk cur ++ [open_entry i (if array then Array else Object)] =
    flat walk_header (g :: stk) []).
  { unfold open_entry. rewrite small_w32 by lia. done. }
  rewrite Hflat in Hs. set (c := match src !! p with Some c => c | None => 0 end) in *.
  assert (Hclose : at_byte src p (close_byte array) = (p <? length src)%nat && (c =? close_byte array)).
  { unfold at_byte, c. destruct (src !! p) as [x|] eqn:E.
  - apply lookup_lt_Some in E. by rewrite (proj2 (Nat.ltb_lt _ _) E).
  - apply lookup_ge_None in E. by rewrite (proj2 (Nat.ltb_ge _ _) E). }
    rewrite Hclose. destruct (c =? close_byte array) eqn:Hcl.
  - assert (p < length src)%nat as Hlt.
    { destruct (Nat.lt_ge_cases p (length src)) as [|Hge]; [done|]. unfold c in Hcl.
    rewrite lookup_ge_None_2 in Hcl by done. by destruct array. }
    rewrite (proj2 (Nat.ltb_lt _ _) Hlt). rewrite (proj2 (Nat.leb_gt _ _) Hlt), andb_false_r in Hs. cbn [andb].
    apply reaches_step. rewrite Hs. rewrite small_w32 by lia.
    pose proof (close_entry_spec g stk [] p keep_count 0 0) as Hce. cbn [fr_before g] in Hce. unfold g at 1 in Hce.
    cbn [fr_before] in Hce. rewrite Hce; [|simpl; lia|done|simpl; lia|done].
    unfold goto. simpl. by replace (p + 1)%nat with (S p) by lia.
  - rewrite andb_false_r. assert (Hzp : zipped p (g :: stk) []).
    { destruct Hz as (H1 & H2 & H3). split; [eapply placed_open; [done|lia]|]. simpl. lia. }
    unfold push_frame in Hs. rewrite walk_stack_length, (if_true (Z.of_nat (length stk) <? _)) in Hs
      by (pose proof (limit_small maxDepth); unfold fastWalkMaxDepth; lia).
    cbn [res_bind] in Hs. destruct array.
    + unfold enters. destruct (Nat.ltb_spec p (length src)).
      * rewrite (proj2 (Nat.leb_gt _ _)) in Hs by done. apply reaches_step. rewrite Hs. by rewrite small_w32 by lia.
      * rewrite (proj2 (Nat.leb_le _ _)) in Hs by done. left. by apply halts_step.
    + eapply enters_after; [|apply (key_enters c p (g :: stk) [] Hzp); [lia|done]].
      apply reaches_step. rewrite Hs. by rewrite small_w32 by lia.
Qed.

Lemma walk_scope_turn j f stk cur :
  zipped j (f :: stk) cur -> count_ok (S (fr_count f)) ->
  let k := ref_ws src j in
  match src !! k with
  | None => fails src cap step (at_scope j (f :: stk) cur) (k, unterminated (fr_array f))
  | Some c =>
    if c =? ","%ch then
    enters src cap step (at_scope j (f :: stk) cur) (fr_array f) (ref_ws src (S k)) (bump f :: stk) cur
    else if c =? close_byte (fr_array f) then
    reaches step (at_scope j (f :: stk) cur)
    (at_scope (S k) stk (fr_before f ++
   header false (fr_array f) (fr_start f) (S k) (length cur) (S (fr_count f)) :: cur))
    else fails src cap step (at_scope j (f :: stk) cur) (k, expected_separator (fr_array f))
  end.
Proof using Hsrc Hbig.
  intros Hz Hcnt. apply zipped_small in Hz as Hz'. cbv zeta.
  pose proof (ref_ws_le src j ltac:(lia)) as Hk. set (k := ref_ws src j) in *.
  assert (Hs : step (at_scope j (f :: stk) cur) =
    walk_scope src j (flat walk_header (f :: stk) cur) (walk_stack (f :: stk))) by done.
  unfold walk_scope in Hs. cbn [walk_stack countStack arrayStack entryStack] in Hs. rewrite nextSignificantFast_ref in Hs. fold k in Hs.
  assert (Hw : w32 (Z.of_nat (fr_count f) + 1) = Z.of_nat (S (fr_count f))).
  { replace (Z.of_nat (fr_count f) + 1) with (Z.of_nat (S (fr_count f))) by lia. by apply small_w32. }
  rewrite Hw in Hs. replace (k + 1)%nat with (S k) in Hs by lia.
  destruct (src !! k) as [c|] eqn:Hc.
  2:{ cbn [Z.eqb] in Hs. left. apply halts_step. rewrite Hs. by destruct (fr_array f). }
  apply lookup_lt_Some in Hc as Hlt. destruct (c =? ","%ch).
  - pose proof (ref_ws_le src (S k) ltac:(lia)) as Hp. set (p := ref_ws src (S k)) in *.
    assert (Hzp : zipped p (bump f :: stk) cur).
    { destruct Hz as (((H1 & H1') & H2) & H3 & H4). apply Forall_cons_1 in H2 as [H2 H5].
    split; [|by rewrite zsize_bump]. split; [rewrite zsize_bump; lia|]. constructor; [simpl; lia|].
    eapply Forall_impl; [exact H5|]. simpl. lia. }
    destruct (fr_array f) eqn:Harr.
    + unfold enters. rewrite skipSpaceFast_ref in Hs. fold p in Hs. destruct (Nat.ltb_spec p (length src)).
      * rewrite if_false in Hs by lia. apply reaches_step. rewrite Hs. unfold goto. simpl. by rewrite Harr.
      * rewrite if_true in Hs by lia. left. by apply halts_step.
    + eapply enters_after; [|apply (key_enters (match src !! p with Some c => c | None => 0 end) p (bump f :: stk) cur Hzp); [lia|done]].
      apply reaches_step. rewrite Hs, nextSignificantFast_ref. unfold goto. simpl. by rewrite Harr.
  - destruct (c =? close_byte (fr_array f)); cbn [negb] in Hs; [|left; by apply halts_step].
    rewrite if_false in Hs by (unfold count_ok in Hcnt; lia).
    rewrite (close_entry_spec f stk cur k set_count _ (S (fr_count f))) in Hs.
    + apply reaches_step. rewrite Hs. done.
    + lia.
    + done.
    + destruct Hz as ((_ & Hf) & _). apply Forall_cons_1 in Hf as [Hf _]. lia.
    + intros s e nx. unfold set_count. unfold count_ok in Hcnt. change InfoMaxCount with 67108863 in Hcnt.
      apply packed_set_count; [lia|lia|by destruct (fr_array f)|lia].
Qed.

#[export] Instance walk_machine : TapeMachine src limit unexpected cap step.
Proof using Hsrc Hbig Hscan.
  split; [exact walk_scalar_turn|exact walk_open_turn|exact walk_scope_turn].
Qed.
End WalkMachine.

(** ** Termination *)

(** The headers of the open scopes are among the entries. *)
Definition frames_in (es : list IndexEntry) (stk : list walk_frame) : Prop := Forall (fun f => 0 <= entryStack f < Z.of_nat (length es)) stk.

Lemma frames_grow es es' stk : (length es <= length es')%nat -> frames_in es stk -> frames_in es' stk.
Proof. intros Hl H. eapply Forall_impl; [exact H|]. intros f. cbn. lia. Qed.

Section Moves.
Context (src : bytes) (cap : nat) (maxDepth : Z).
Context (scan_number : nat -> res unit (nat * bool * bool)).
(** The entries the builder holds when the walk starts, at most [base] more than
    the bytes before the cursor. *)
Context (base : nat).
Hypothesis Hbase : Z.of_nat (base + length src) <= 2 ^ 32.
Hypothesis Hsrc : bytes_ok src.
Hypothesis Hscan : forall i, (i < length src)%nat ->
  exists integer, scan_number i = Ok ((scanNumber src i).1, integer, msg_ok (scanNumber src i).2) /\
  (msg_ok (scanNumber src i).2 = true -> integer = plain_integer (slice src i (scanNumber src i).1)).
Abbreviation n := (length src).

(** The cursor is inside the source, at a byte where a value starts; the byte
[objectKey] was given is the one at the cursor; no entry was written without
consuming a byte; and every open scope has its header among the entries. *)
Definition walk_wf (s : walk_state) : Prop :=
  ((wk_i s <= n)%nat /\
   match wk_label s with
   | AtValue => (wk_i s < n)%nat
   | AtObjectKey c => c = match src !! wk_i s with Some c => c | None => 0 end
   | AtScopeEnd => True
   end) /\
  ((length (wk_entries s) <= base + wk_i s)%nat /\
   frames_in (wk_entries s) (wk_stack s) /\ Z.of_nat (length (wk_stack s)) <= fastWalkMaxDepth).

(** A turn moves the cursor forward inside the source, or ends the walk. *)
Definition advances (i : nat) (r : walk_res (walk_state + nat * list IndexEntry)) : Prop :=
  match r with
  | Ok (inl s) => (i < wk_i s)%nat /\ walk_wf s
  | Ok (inr (j, _)) => (i <= j <= n)%nat
  | Err _ => True
  | _ => False
  end.

Lemma advances_entry i es start end_ kind flags k :
  (forall es', length es' = S (length es) -> advances i (k es')) -> advances i (let* es := emitScalar cap es start end_ kind flags in k es).
Proof using Hbase. intros Hk. unfold emitScalar, emit_entry. case_step; simpl; [done|]. apply Hk. rewrite length_app. cbn. lia. Qed.

Lemma advances_close i es entry p count c k : 0 <= entry < Z.of_nat (length es) ->
  (forall es', length es' = length es -> advances i (k es')) -> advances i (let* es := close_entry es entry p count c in k es).
Proof using Hbase.
  intros He Hk. unfold close_entry, update_entry. destruct (es !! Z.to_nat entry) as [e|] eqn:E; [|apply lookup_ge_None in E; lia].
  cbn [res_bind]. apply Hk. by rewrite length_insert.
Qed.

(** A jump that keeps the stack, with at most one entry more. *)
Lemma advances_jump i l j es es' stk : (i < j <= n)%nat -> (length es <= base + i)%nat -> (length es <= length es' <= S (length es))%nat ->
  match l with AtValue => (j < n)%nat | AtObjectKey c => c = match src !! j with Some c => c | None => 0 end | AtScopeEnd => True end ->
  frames_in es stk -> Z.of_nat (length stk) <= fastWalkMaxDepth -> advances i (goto l j es' stk).
Proof using Hbase.
  intros Hj He Hl Hlab Hf Hd. split; [simpl; lia|]. split; [by split; [simpl; lia|]|]. cbn [wk_entries wk_i wk_stack]. split; [lia|]. split; [|done].
  apply (frames_grow es); [lia|done].
Qed.

Lemma advances_scalar i j es stk kind flags : (i < j <= n)%nat -> (length es <= base + i)%nat -> frames_in es stk -> Z.of_nat (length stk) <= fastWalkMaxDepth ->
  advances i (walk_scalar cap i j es stk kind flags).
Proof using Hbase. intros Hj He Hf Hd. apply advances_entry. intros es' Hl. apply (advances_jump i _ _ es); done || lia. Qed.

Lemma advances_string i es flags k :
  src !! i = Some DQUOTE -> (forall j es', (i < j <= n)%nat -> length es' = S (length es) -> advances i (k (j, es'))) ->
  advances i (let* r := stringFast src cap es i flags in k r).
Proof using Hsrc Hbase.
  intros Hq Hk. rewrite stringFast_ref by done. pose proof (ref_str_sound src Hsrc i Hq) as Hs.
  destruct (ref_str src i) as [[j d]|e| |]; [|done..]. destruct Hs as (Hj & key & Hkey%span_le & _).
  cbn [string_emits]. unfold emitScalar, emit_entry. case_step; simpl; [done|]. apply Hk; [lia|]. rewrite length_app. cbn. lia.
Qed.

Lemma advances_open array i es stk : (i < n)%nat -> (length es <= base + i)%nat -> frames_in es stk -> Z.of_nat (length stk) <= fastWalkMaxDepth ->
  advances i (walk_open src cap maxDepth array i es stk).
Proof using Hbase.
  intros Hi He Hf Hd. unfold walk_open. pose proof (limit_small maxDepth) as Hlim. destruct (Z.leb_spec (depthLimit maxDepth) (Z.of_nat (length stk))); [done|].
  unfold emit_entry. case_step; [done|]. cbn [res_bind]. set (es1 := es ++ [_]). assert (Hl1 : length es1 = S (length es)) by (unfold es1; rewrite length_app; cbn; lia). clearbody es1.
  assert (Hw : w32 (Z.of_nat (length es)) = Z.of_nat (length es)) by (apply Z.mod_small; change (2 ^ 32) with 4294967296 in *; lia). rewrite Hw.
  rewrite nextSignificantFast_ref. pose proof (ref_ws_le src (i + 1) ltac:(lia)) as Hp.
  set (p := ref_ws src (i + 1)) in *. destruct (array && (n <=? p)%nat) eqn:E; [done|].
  set (c := match src !! p with Some c => c | None => 0 end). destruct (Z.eqb_spec c (close_byte array)) as [Hc|].
  - apply advances_close; [lia|]. intros es' Hl. assert (p < n)%nat.
    { destruct (Nat.lt_ge_cases p n) as [|Hge]; [done|]. subst c. rewrite lookup_ge_None_2 in Hc by done. by destruct array. }
    apply (advances_jump i _ _ es); done || lia.
  - unfold push_frame. unfold fastWalkMaxDepth in *. rewrite if_true by lia. cbn [res_bind]. split; [simpl; lia|].
    split; [split; [simpl; lia|destruct array; cbn [wk_label wk_i]; [lia|done]]|]. cbn [wk_entries wk_i wk_stack length].
    split; [lia|]. split; [|unfold fastWalkMaxDepth; lia].
    constructor; [cbn; lia|]. apply (frames_grow es); [lia|done].
Qed.

Lemma advances_value i es stk : (i < n)%nat -> (length es <= base + i)%nat -> frames_in es stk -> Z.of_nat (length stk) <= fastWalkMaxDepth ->
  advances i (walk_value src cap maxDepth scan_number i es stk).
Proof using Hsrc Hscan Hbase.
  intros Hlt He Hf Hd. unfold walk_value, fastByteAt. at_pos src i as c E; [|apply lookup_ge_None in E; lia]. cbn [lift res_bind].
  case_step; [by apply advances_open|]. case_step; [by apply advances_open|].
  destruct (Z.eqb_spec c DQUOTE) as [->|].
  { apply advances_string; [done|]. intros j es' Hj Hl. apply (advances_jump i _ _ es); done || lia. }
  do 3 (case_step; [case_step; [done|]; apply advances_scalar; done || lia|]).
  case_step; [done|]. destruct (Hscan i Hlt) as (integer & -> & _).
  pose proof (ref_num_sound src 0 i ltac:(lia) Hlt) as Hr. unfold ref_num in Hr.
  destruct (scanNumber src i) as [j [|a m]]; cbn [fst snd msg_ok lift res_bind negb reads] in *; [|done].
  destruct Hr as (Hj & t & Ht%span_le & _). apply advances_scalar; done || lia.
Qed.

Lemma advances_key c i es stk : (i <= n)%nat -> c = match src !! i with Some c => c | None => 0 end -> (length es <= base + i)%nat ->
  frames_in es stk -> Z.of_nat (length stk) <= fastWalkMaxDepth -> advances i (walk_key src cap c i es stk).
Proof using Hsrc Hbase.
  intros Hi Hl He Hf Hd. unfold walk_key. destruct (Z.eqb_spec c DQUOTE) as [->|]; cbn [negb]; [|done].
  destruct (src !! i) as [x|] eqn:E; [subst x|done]. apply advances_string; [done|]. intros j es' Hj Hl'.
  rewrite nextSignificantFast_ref. pose proof (ref_ws_le src j ltac:(lia)). case_step; [done|].
  rewrite skipSpaceFast_ref. set (k := ref_ws src j) in *. cbv zeta. destruct (Nat.leb_spec n (ref_ws src (k + 1))); [done|].
  assert (k < n)%nat.
  { destruct (Nat.lt_ge_cases k n) as [|Hge]; [done|]. by rewrite lookup_ge_None_2 in Heqb by done. }
  pose proof (ref_ws_le src (k + 1) ltac:(lia)). apply (advances_jump i _ _ es); done || lia.
Qed.

Lemma advances_scope i es stk : (i <= n)%nat -> (length es <= base + i)%nat -> frames_in es stk -> Z.of_nat (length stk) <= fastWalkMaxDepth ->
  advances i (walk_scope src i es stk).
Proof using Hbase.
  intros Hi He Hf Hd. unfold walk_scope. destruct stk as [|f below]; [cbn; lia|]. apply Forall_cons in Hf as [Hf Hb]. rewrite nextSignificantFast_ref.
  pose proof (ref_ws_le src i ltac:(lia)). set (k := ref_ws src i) in *. cbv zeta.
  destruct (src !! k) as [c|] eqn:E.
  2:{ cbn [Z.eqb]. by destruct (arrayStack f). }
  apply lookup_lt_Some in E. pose proof (ref_ws_le src (k + 1) ltac:(lia)). set (next := mkWalk _ _ _ :: below). assert (Hn : frames_in es next) by by constructor.
  case_step; [destruct (arrayStack f)|].
  - rewrite skipSpaceFast_ref. destruct (Nat.leb_spec n (ref_ws src (k + 1))); [done|]. apply (advances_jump i _ _ es); done || lia.
  - rewrite nextSignificantFast_ref. apply (advances_jump i _ _ es); done || lia.
  - case_step; [done|]. case_step; [done|]. apply advances_close; [done|]. intros es' Hl. cbn [length] in Hd. apply (advances_jump i _ _ es); done || lia.
Qed.

Lemma walk_advances s : walk_wf s -> advances (wk_i s) (walk_step src cap maxDepth scan_number s).
Proof using Hsrc Hscan Hbase.
  intros [[Hi Hl] (He & Hf & Hd)]. destruct s as [l i es stk]. cbn [wk_i wk_label wk_entries wk_stack] in *. unfold walk_step. cbn [wk_label wk_i wk_entries wk_stack].
  destruct l as [|c|]; [by apply advances_value|by apply advances_key|by apply advances_scope].
Qed.

(** A walk answers within as many turns as there are bytes left, and its cursor
    stays inside the source. *)
Lemma walk_answers K s : walk_wf s -> (n - wk_i s < K)%nat ->
  match run (walk_step src cap maxDepth scan_number) K s with Ok (j, _) => (wk_i s <= j <= n)%nat | Err _ => True | _ => False end.
Proof using Hsrc Hscan Hbase.
  revert s. induction K as [|K IH]; intros s Hs HK; [lia|]. cbn [run]. pose proof (walk_advances s Hs) as H. unfold advances in H.
  destruct (walk_step src cap maxDepth scan_number s) as [[s'|[j es]]| | |]; cbn [res_bind]; [|done..].
  destruct H as [H1 H2]. pose proof (proj1 (proj1 H2)) as Hi'. specialize (IH s' H2 ltac:(lia)). destruct (run _ K s') as [[j es]| | |]; [lia|done..].
Qed.

(** The start of a walk. *)
Lemma walk_start i es : (i < n)%nat -> (length es <= base + i)%nat -> walk_wf (mkWalkState AtValue i es []).
Proof using Hbase. intros Hi He. split; [split; cbn; lia|]. cbn. split; [lia|]. by split; [constructor|]. Qed.

Lemma walk_bounded i es : (i < n)%nat -> (length es <= base + i)%nat ->
  match walk src cap maxDepth scan_number i es with Ok (j, _) => (i <= j <= n)%nat | Err _ => True | _ => False end.
Proof using Hsrc Hscan Hbase. intros Hi He. apply (walk_answers (S (S n)) (mkWalkState AtValue i es [])); [by apply walk_start|cbn; lia]. Qed.
End Moves.

(** ** The walk builds the tape *)

Lemma swar_scanner src i :
  bytes_ok src -> (i < length src)%nat ->
  exists integer, scanNumberFastTaggedSWAR src i = Ok ((scanNumber src i).1, integer, msg_ok (scanNumber src i).2) /\
    (msg_ok (scanNumber src i).2 = true -> integer = plain_integer (slice src i (scanNumber src i).1)).
Proof. intros Hok Hi. apply fast_number_spec; [done|done|]. intros j Hj. by apply swar_digits_spec. Qed.

Lemma scalar_scanner src i :
  bytes_ok src -> (i < length src)%nat ->
  exists integer, scanNumberFastTagged src i = Ok ((scanNumber src i).1, integer, msg_ok (scanNumber src i).2) /\
    (msg_ok (scanNumber src i).2 = true -> integer = plain_integer (slice src i (scanNumber src i).1)).
Proof. intros Hok Hi. by apply fast_number_spec. Qed.

(** A fast builder's answer [r] against the reference outcome [rr]: the tape when
    it fits, [Full] when it does not, and [Invalid] for what the grammar refuses
    (unless the storage, smaller than the source, ran out first). *)
Definition fast_outcome (src : bytes) (cap : nat) (tape : tree -> list IndexEntry -> Prop)
    (r : walk_res (list IndexEntry)) (rr : res rerr tree) : Prop :=
  match rr with
  | Ok t => exists es, tape t es /\ r = if (cap <? length es)%nat then Err TapeParseFull else Ok es
  | Err _ => r = Err tapeParseInvalid \/ ((cap < length src)%nat /\ r = Err TapeParseFull)
  | _ => False
  end.

Section WalkTape.
Context (src : bytes) (cap : nat) (maxDepth : Z) (unexpected : Z -> string).
Context (scan_number : nat -> res unit (nat * bool * bool)).
Hypothesis Hsrc : bytes_ok src.
Hypothesis Hbig : Z.of_nat (length src) <= InfoMaxCount.
Hypothesis Hdepth : 0 <= maxDepth.
Hypothesis Hscan : forall i, (i < length src)%nat ->
  exists integer, scan_number i = Ok ((scanNumber src i).1, integer, msg_ok (scanNumber src i).2) /\
  (msg_ok (scanNumber src i).2 = true -> integer = plain_integer (slice src i (scanNumber src i).1)).
Context (deep : Z).
Abbreviation limit := (depthLimit maxDepth).
Hypothesis Hdeep : limit <= deep.
Abbreviation step := (walk_step src cap maxDepth scan_number).

(** Against the reference with a depth limit [deep]: a document deeper than the
walk's own limit is diverted. *)
Lemma walk_ref i :
  (i < length src)%nat -> ref_ws src i = i ->
  match ref_value src deep unexpected (S (length src)) 0 i with
  | Ok (j, t) => exists es, tape_value src false i j t es /\
    (walk src cap maxDepth scan_number i [] = (if (cap <? length es)%nat then Err TapeParseFull else Ok (j, es)) \/
    (limit < deep /\ walk src cap maxDepth scan_number i [] = Err tapeParseInvalid))
  | Err _ => walk src cap maxDepth scan_number i [] = Err tapeParseInvalid \/
    ((cap < length src)%nat /\ walk src cap maxDepth scan_number i [] = Err TapeParseFull)
  | _ => False
  end.
Proof using Hsrc Hbig Hdepth Hscan Hdeep.
  intros Hi Hws. pose proof (walk_machine src cap maxDepth unexpected scan_number Hsrc Hbig Hscan) as M.
  assert (Hl : 0 <= limit) by (unfold depthLimit, fastWalkMaxDepth; case_step; lia).
  pose proof (root_sim src limit deep unexpected cap step M Hsrc Hbig Hdeep i Hi Hws Hl) as H.
  change (walk src cap maxDepth scan_number i []) with (run step (S (S (length src))) (at_value i [] [])).
  assert (Hrun : run step (S (S (length src))) (at_value i [] []) <> NoFuel).
  { intros E. pose proof (walk_bounded src cap maxDepth scan_number 0 ltac:(change InfoMaxCount with 67108863 in Hbig; lia) Hsrc Hscan i [] Hi ltac:(simpl; lia)) as Hb.
    unfold walk in Hb. change (mkWalkState AtValue i [] []) with (at_value i [] []) in Hb. by rewrite E in Hb. }
  pose proof (halts_run step (S (S (length src))) (at_value i [] []) Hrun) as Hend.
  destruct (ref_value src deep unexpected _ 0 i) as [[j t]|e| |]; cbn [builds] in H; [| |done|done].
  2:{ destruct H as [[H|[Hc H]]|[_ [[e' H]|[Hc H]]]]; [left|right; split; [done|]|left|right; split; [done|]]; by apply Hend. }
  destruct H as (es & Htape & H). exists es. split; [done|]. unfold stands in H. cbn [zsize length app Nat.add] in *.
  destruct H as [[_ [Hfit Hfull]]|[Hlt [[e' H]|[Hc H]]]].
  - left. destruct (Nat.ltb_spec cap (length es)) as [Hlt|Hge]; [by apply Hend, Hfull|].
    apply returns_run; [done|]. eapply returns_after; [by apply Hfit|]. by apply returns_step.
  - right. split; [done|]. by apply Hend in H.
  - left. rewrite if_true by lia. by apply Hend.
Qed.

Definition doc_tape (t : tree) (es : list IndexEntry) : Prop :=
  exists j, tape_value src false (ref_ws src 0) j t es /\ ref_ws src j = length src.

Lemma parse_fast_deep :
  match ref_doc src deep unexpected with
  | Ok t => exists es, doc_tape t es /\
    (parse_fast src cap maxDepth scan_number = (if (cap <? length es)%nat then Err TapeParseFull else Ok es) \/
    (limit < deep /\ parse_fast src cap maxDepth scan_number = Err tapeParseInvalid))
  | Err _ => parse_fast src cap maxDepth scan_number = Err tapeParseInvalid \/
    ((cap < length src)%nat /\ parse_fast src cap maxDepth scan_number = Err TapeParseFull)
  | _ => False
  end.
Proof using Hsrc Hbig Hdepth Hscan Hdeep.
  unfold parse_fast, ref_doc. rewrite skipSpaceFast_ref. cbv zeta. pose proof (ref_ws_le src 0 ltac:(lia)) as H0.
  set (i := ref_ws src 0) in *.
  assert (Hl : 0 <= limit) by (unfold depthLimit, fastWalkMaxDepth; case_step; lia).
  destruct (Nat.leb_spec (length src) i) as [Hge|Hlt].
  { rewrite rv_end by lia. by left. }
  pose proof (walk_ref i Hlt (ref_ws_idem src 0 ltac:(lia))) as Hw.
  destruct (ref_value src deep unexpected _ 0 i) as [[j t]|e| |]; cbn [res_bind]; [| |done|done].
  2:{ by destruct Hw as [->|[Hc ->]]; [left|right]. }
  destruct Hw as (es & Htape & Hw). apply tape_value_extent in Htape as Hx. cbv zeta.
  destruct (Nat.eqb_spec (ref_ws src j) (length src)) as [He|Hne].
  - exists es. split; [by exists j|]. destruct Hw as [->|[Hd ->]]; [left|by right].
    destruct (cap <? length es)%nat; [done|].
    cbn [res_bind]. by rewrite skipSpaceFast_ref, He, Nat.eqb_refl.
  - destruct Hw as [->|[Hd ->]]; [|by left].
    destruct (Nat.ltb_spec cap (length es)); [right; split; [lia|done]|left].
    cbn [res_bind]. rewrite skipSpaceFast_ref. by rewrite (proj2 (Nat.eqb_neq _ _) Hne).
Qed.
End WalkTape.

(** Within the walk's own depth limit nothing is diverted. *)
Lemma parse_fast_ref src cap maxDepth unexpected scan_number :
  bytes_ok src -> Z.of_nat (length src) <= InfoMaxCount -> 0 <= maxDepth ->
  (forall i, (i < length src)%nat ->
    exists integer, scan_number i = Ok ((scanNumber src i).1, integer, msg_ok (scanNumber src i).2) /\
      (msg_ok (scanNumber src i).2 = true -> integer = plain_integer (slice src i (scanNumber src i).1))) ->
  fast_outcome src cap (doc_tape src) (parse_fast src cap maxDepth scan_number)
    (ref_doc src (depthLimit maxDepth) unexpected).
Proof.
  intros Hok Hbig Hd Hs.
  pose proof (parse_fast_deep src cap maxDepth unexpected scan_number Hok Hbig Hd Hs (depthLimit maxDepth) (Z.le_refl _)) as H.
  destruct (ref_doc src (depthLimit maxDepth) unexpected) as [t|e| |]; [|done..].
  destruct H as (es & Ht & [H|[H _]]); [by exists es|lia].
Qed.

(** ** Properties *)

(** What a turn of the walk does: it moves the cursor strictly forward inside the source, to a state of the same kind, or ends the walk. *)
Definition moves_forward (src : bytes) (cap : nat) (maxDepth : Z) (base : nat) (scan_number : nat -> res unit (nat * bool * bool)) : Prop :=
  forall s, walk_wf src base s ->
  match walk_step src cap maxDepth scan_number s with
  | Ok (inl s') => (wk_i s < wk_i s' <= length src)%nat /\ walk_wf src base s'
  | Ok (inr (j, _)) => (wk_i s <= j <= length src)%nat
  | Err _ => True
  | _ => False
  end.

Lemma turns_forward src cap maxDepth base scan_number : Z.of_nat (base + length src) <= 2 ^ 32 -> bytes_ok src ->
  (forall i, (i < length src)%nat ->
    exists integer, scan_number i = Ok ((scanNumber src i).1, integer, msg_ok (scanNumber src i).2) /\
      (msg_ok (scanNumber src i).2 = true -> integer = plain_integer (slice src i (scanNumber src i).1))) ->
  moves_forward src cap maxDepth base scan_number.
Proof.
  intros Hbase Hsrc Hscan s Hs. pose proof (walk_advances src cap maxDepth scan_number base Hbase Hsrc Hscan s Hs) as H. unfold advances in H.
  destruct (walk_step _ _ _ _ _) as [[s'|[j es]]| | |]; [|done..]. destruct H as [H1 H2]. split; [|done]. split; [done|apply H2].
Qed.

(** C22: The iterative tape walk terminates, with either number scanner, any storage and any depth limit: each turn of the state machine moves the cursor strictly forward inside the source, or ends the walk; so a walk that starts at a byte of the source, with entries already written as long as entry numbers stay within 32 bits, answers without a panic, with a cursor inside the source or a status. *)
Theorem walk_terminates src cap maxDepth base i es :
  bytes_ok src -> Z.of_nat (base + length src) <= 2 ^ 32 -> (i < length src)%nat -> (length es <= base + i)%nat ->
  (moves_forward src cap maxDepth base (scanNumberFastTagged src) /\ moves_forward src cap maxDepth base (scanNumberFastTaggedSWAR src)) /\
  walk_wf src base (mkWalkState AtValue i es []) /\
  match WalkFast src cap maxDepth i es with Ok (j, _) => (i <= j <= length src)%nat | Err _ => True | _ => False end /\
  match walkFastSWAR src cap maxDepth i es with Ok (j, _) => (i <= j <= length src)%nat | Err _ => True | _ => False end.
Proof.
  intros Hok Hb Hi He. split; [|split; [by apply walk_start|]].
  - split; apply turns_forward; auto using scalar_scanner, swar_scanner.
  - unfold WalkFast, walkFastSWAR. split; apply (walk_bounded _ _ _ _ base); auto using scalar_scanner, swar_scanner.
Qed.

Lemma walk_terminates_witness :
  let src := js "[1,{'a':[2,3" in
  (moves_forward src 4 10 0 (scanNumberFastTagged src) /\ moves_forward src 4 10 0 (scanNumberFastTaggedSWAR src)) /\
  walk_wf src 0 (mkWalkState AtValue 0 [] []) /\
  match WalkFast src 4 10 0 [] with Ok (j, _) => (0 <= j <= length src)%nat | Err _ => True | _ => False end /\
  match walkFastSWAR src 4 10 0 [] with Ok (j, _) => (0 <= j <= length src)%nat | Err _ => True | _ => False end.
Proof. apply walk_terminates; [concrete_bytes|vm_compute; congruence|vm_compute; lia|vm_compute; lia]. Defined.

(** C5: the fast tape builders, with either number scanner, on a source of at most [InfoMaxCount] bytes: a document of the grammar within their depth limit (the caller's, at most 64) yields exactly the tape of its tree when that fits the storage, and the full-storage status exactly when it does not; every other input is diverted with the invalid status, unless a storage of fewer entries than the source has bytes ran out first, which is then the status; they never read or write out of range. *)
Theorem parseFast_builds_tape src cap maxDepth :
  bytes_ok src -> Z.of_nat (length src) <= InfoMaxCount -> 0 <= maxDepth ->
  let rr := ref_doc src (depthLimit maxDepth) unexpected_byte in
  fast_outcome src cap (doc_tape src) (parseFast src cap maxDepth) rr /\
  fast_outcome src cap (doc_tape src) (parseFastSWAR src cap maxDepth) rr.
Proof.
  intros Hok Hbig Hd. by split; apply parse_fast_ref; auto using scalar_scanner, swar_scanner.
Qed.

Lemma parseFast_builds_tape_witness :
  let src := js " {'key':[true,null,-1.5],'s':'a\nb'} " in
  let rr := ref_doc src (depthLimit 64) unexpected_byte in
  fast_outcome src 8 (doc_tape src) (parseFast src 8 64) rr /\
  fast_outcome src 8 (doc_tape src) (parseFastSWAR src 8 64) rr.
Proof. apply parseFast_builds_tape; [concrete_bytes|vm_compute; done|done]. Defined.
