(* ===== verification/TapeHash.v ===== *)
(** [EnrichKeyHashes] of [index_keyhash.go]: one pass over a tape that stores
    each key's hash in its entry and marks every object header. *)

From S2P Require Import Prelude Words Utf8 Scanner Lex Grammar StringRef Numbers Reader FastValid Layout Decode KeyHash Raw Tape.

Section Enrich.
Context (src : bytes).

(** The hash of the key at [e], from one word when the key and the source allow. *)
Definition entry_hash (e : IndexEntry) : res unit Z :=
  let length_ := w32 (End_ e - Start e) - 2 in
  if (length_ <=? 8) && (Start e + 9 <=? Z.of_nat (length src)) then
  Ok (hashKeyContentWord (load64 src (Z.to_nat (Start e + 1))) length_)
  else
  let lo := w32 (Start e + 1) in
  let hi := w32 (End_ e - 1) in
  if (hi <? lo) || (Z.of_nat (length src) <? hi) then Panic
  else
  match HashKeyContent (slice src (Z.to_nat lo) (Z.to_nat hi)) with
  | Some hash => Ok hash
  | None => Panic
  end.

Definition enrich_entry (e : IndexEntry) : res unit IndexEntry :=
  if negb (Z.land (entry_Flags e) TapeFlagKey =? 0) then
  let* hash := entry_hash e in Ok (set_next e hash)
  else if entry_Kind e =? kind_code Object then
  Ok (set_info e (Z.lor (Info e) (w32 (Z.shiftl TapeFlagObjectKeysHashed InfoFlagsShift))))
  else Ok e.

Fixpoint EnrichKeyHashes (es : list IndexEntry) : res unit (list IndexEntry) :=
  match es with
  | [] => Ok []
  | e :: es =>
    let* e := enrich_entry e in
    let* es := EnrichKeyHashes es in
    Ok (e :: es)
  end.
End Enrich.

Lemma scalar_flags_range t :
  kind_of t <> Object -> kind_of t <> Array ->
  scalar_flags t = 0 \/ scalar_flags t = 1 \/ scalar_flags t = 4.
Proof. destruct t; simpl; intros; try (left; done); try done; case_step; auto. Qed.

Lemma kind_code_range k : 0 <= kind_code k < 8.
Proof. destruct k; simpl; lia. Qed.

Lemma scalar_kind t : jvalue 0 (raw_of t) t -> kind_of t <> Object /\ kind_of t <> Array.
Proof. intros H. inversion H; subst; try lia; done. Qed.

Lemma key_flags_range raw : 0 <= key_flags raw < 8 /\ Z.land (key_flags raw) TapeFlagKey = TapeFlagKey.
Proof. unfold key_flags. case_step; split; done || (split; done). Qed.

Lemma scalar_entry_flags i j t : 0 <= scalar_flags t < 8 -> entry_Flags (scalar_entry i j t) = scalar_flags t.
Proof. intros Hf. apply packed_flags; [lia|apply kind_code_range|done]. Qed.

Lemma scalar_entry_kind i j t : 0 <= scalar_flags t < 8 -> entry_Kind (scalar_entry i j t) = kind_code (kind_of t).
Proof. intros Hf. apply packed_kind; [lia|apply kind_code_range|done]. Qed.

Lemma key_entry_flags h i j raw : entry_Flags (key_entry h i j raw) = key_flags raw.
Proof. apply packed_flags; [lia|done|apply key_flags_range]. Qed.

Lemma key_entry_kind h i j raw : entry_Kind (key_entry h i j raw) = kind_code String.
Proof. apply packed_kind; [lia|done|apply key_flags_range]. Qed.

Lemma header_flags h array i j size count :
  count_ok count -> entry_Flags (header h array i j size count) = if h && negb array then TapeFlagObjectKeysHashed else 0.
Proof.
  unfold count_ok. change InfoMaxCount with 67108863. intros Hc.
  apply packed_flags; [lia|by destruct array|by destruct (h && negb array)].
Qed.

Lemma header_kind h array i j size count :
  count_ok count -> entry_Kind (header h array i j size count) = container_kind array.
Proof.
  unfold count_ok. change InfoMaxCount with 67108863. intros Hc.
  apply packed_kind; [lia|by destruct array|by destruct (h && negb array)].
Qed.

Lemma header_count h array i j size count :
  count_ok count -> entry_Count (header h array i j size count) = Z.of_nat count.
Proof.
  unfold count_ok. change InfoMaxCount with 67108863. intros Hc.
  apply packed_count; [lia|by destruct array|by destruct (h && negb array)].
Qed.

Section EnrichTape.
Context (src : bytes).
Hypothesis Hsrc : bytes_ok src.
Hypothesis Hbig : Z.of_nat (length src) < 2 ^ 32.

Lemma inner_slice i j raw name :
  span src i raw j -> jstring raw name -> (i + 2 <= j)%nat /\ inner raw = slice src (i + 1) (j - 1).
Proof using.
  intros Hs Hj. destruct Hj as [s d Hc]. rewrite inner_token. apply span_len in Hs as Hl. simpl in Hl.
  rewrite length_app in Hl. simpl in Hl. split; [lia|].
  apply span_cons in Hs as [_ Hs]. apply span_split in Hs as [Hs _]. symmetry. apply span_slice.
  replace (i + 1)%nat with (S i) by lia. by replace (j - 1)%nat with (S i + length s)%nat by lia.
Qed.

Lemma entry_hash_key i j raw name h :
  span src i raw j -> jstring raw name -> entry_hash src (key_entry h i j raw) = Ok (hash_ref (inner raw)).
Proof using Hsrc Hbig.
  intros Hs Hj. destruct (inner_slice i j raw name Hs Hj) as [Hij ->]. apply span_le in Hs as Hle.
  unfold entry_hash, key_entry. cbn [Start End_]. unfold w32. rewrite (Z.mod_small (Z.of_nat j - Z.of_nat i)) by lia.
  destruct (_ && _) eqn:E.
  - replace (Z.to_nat (Z.of_nat i + 1)) with (i + 1)%nat by lia.
    replace (Z.of_nat j - Z.of_nat i - 2) with (Z.of_nat (j - i - 2)) in * by lia.
    rewrite hashKeyContentWord_ref by (done || lia). do 3 f_equal. lia.
  - rewrite !Z.mod_small by lia. rewrite if_false by lia.
    replace (Z.to_nat (Z.of_nat i + 1)) with (i + 1)%nat by lia.
    replace (Z.to_nat (Z.of_nat j - 1)) with (j - 1)%nat by lia.
    rewrite HashKeyContent_ref; [done|]. by apply Forall_take, Forall_drop.
Qed.

Lemma enrich_key i j raw name :
  span src i raw j -> jstring raw name -> enrich_entry src (key_entry false i j raw) = Ok (key_entry true i j raw).
Proof using Hsrc Hbig.
  intros Hs Hj. unfold enrich_entry. destruct (key_flags_range raw) as [Hr Hk].
  rewrite key_entry_flags, Hk.
  by rewrite (entry_hash_key i j raw name) by done.
Qed.

Lemma enrich_scalar i j t :
  jvalue 0 (raw_of t) t -> enrich_entry src (scalar_entry i j t) = Ok (scalar_entry i j t).
Proof using.
  intros Hj. apply scalar_kind in Hj as [Ho Ha]. unfold enrich_entry.
  assert (Hf : 0 <= scalar_flags t < 8 /\ Z.land (scalar_flags t) TapeFlagKey = 0).
  { by destruct (scalar_flags_range t Ho Ha) as [->|[->| ->]]. }
  destruct Hf as [Hf Hk]. rewrite scalar_entry_flags, scalar_entry_kind by done. rewrite Hk. cbn [Z.eqb negb]. by destruct (kind_of t).
Qed.

Lemma enrich_header array i j size count :
  count_ok count -> enrich_entry src (header false array i j size count) = Ok (header true array i j size count).
Proof using.
  intros Hc. unfold enrich_entry. rewrite header_flags, header_kind by done.
  unfold count_ok in Hc. change InfoMaxCount with 67108863 in Hc.
  destruct array; cbn [container_kind kind_code Z.land Z.eqb Pos.eqb andb negb]; [done|].
  unfold header, set_info, container_kind. cbn [kind_code andb negb]. cbn [Start End_ Next Info]. do 2 f_equal. rewrite !pack_sum by (lia || done).
  rewrite Z.lor_comm. change (w32 (Z.shiftl TapeFlagObjectKeysHashed InfoFlagsShift)) with (Z.shiftl 1 29).
  rewrite lor_shiftl_add by lia. unfold TapeFlagObjectKeysHashed, TapeFlagEscaped. lia.
Qed.

Lemma enrich_app a b a' b' :
  EnrichKeyHashes src a = Ok a' -> EnrichKeyHashes src b = Ok b' -> EnrichKeyHashes src (a ++ b) = Ok (a' ++ b').
Proof using.
  revert a'. induction a as [|e a IH]; intros a' Ha Hb; cbn [EnrichKeyHashes app] in Ha |- *.
  { by injection Ha as <-. }
  destruct (enrich_entry src e) as [e'| | |]; cbn [res_bind] in Ha |- *; [|done..].
  destruct (EnrichKeyHashes src a) as [a''| | |] eqn:E; cbn [res_bind] in Ha; [|done..]. injection Ha as <-.
  by rewrite (IH a'') by done.
Qed.

Lemma enrich_cons e e' a a' :
  enrich_entry src e = Ok e' -> EnrichKeyHashes src a = Ok a' -> EnrichKeyHashes src (e :: a) = Ok (e' :: a').
Proof using. intros He Ha. cbn [EnrichKeyHashes]. by rewrite He, Ha. Qed.

Lemma enrich_tape :
  (forall i j t es, tape_value src false i j t es ->
  exists es', EnrichKeyHashes src es = Ok es' /\ tape_value src true i j t es' /\ length es' = length es) /\
  (forall lo hi ts es, tape_elems src false lo hi ts es ->
  exists es', EnrichKeyHashes src es = Ok es' /\ tape_elems src true lo hi ts es' /\ length es' = length es) /\
  (forall lo hi ms es, tape_members src false lo hi ms es ->
  exists es', EnrichKeyHashes src es = Ok es' /\ tape_members src true lo hi ms es' /\ length es' = length es).
Proof using Hsrc Hbig.
  apply tape_mutind.
  - intros i j t Hs Hv. exists [scalar_entry i j t].
    split; [apply enrich_cons; [by apply enrich_scalar|done]|]. split; [by constructor|done].
  - intros i j raw ts es Hs _ (es' & He & Ht & Hl) Hc. exists (header true true i (S j) (length es') (length ts) :: es').
    split; [apply enrich_cons; [rewrite Hl; by apply enrich_header|done]|]. split; [by constructor|cbn [length]; by rewrite Hl].
  - intros i j raw ms es Hs _ (es' & He & Ht & Hl) Hc. exists (header true false i (S j) (length es') (length ms) :: es').
    split; [apply enrich_cons; [rewrite Hl; by apply enrich_header|done]|]. split; [by constructor|cbn [length]; by rewrite Hl].
  - intros lo hi Hle. exists []. split_and!; [done|by constructor|done].
  - intros lo i j hi t ts es1 es2 Hle _ (es1' & H1 & T1 & L1) _ (es2' & H2 & T2 & L2).
    exists (es1' ++ es2'). split; [by apply enrich_app|]. rewrite !length_app, L1, L2. split; [by econstructor|done].
  - intros lo hi Hle. exists []. split_and!; [done|by constructor|done].
  - intros lo p q i j hi key name t ms es1 es2 Hle Hk Hj Hq _ (es1' & H1 & T1 & L1) _ (es2' & H2 & T2 & L2).
    exists (key_entry true p q key :: es1' ++ es2').
    split; [eapply enrich_cons; [by eapply enrich_key|by apply enrich_app]|].
    cbn [length]. rewrite !length_app, L1, L2. split; [by econstructor|done].
Qed.
End EnrichTape.
