(* ===== verification/TapeParse.v ===== *)
(** The diagnostic tape builder of [index.go], which threads the stack of open
    containers through their [Next] words and reports exact errors, and
    [buildIndexOptions], which routes between the builders. *)

From S2P Require Import Prelude Words Utf8 Scanner Lex Grammar StringRef Errors Numbers Reader Validator FastValid Layout Compact Decode KeyHash Raw Tape TapeMachine TapeWalk TapeHash.

Inductive index_error : Type := ISyntax (e : SyntaxError) | ErrIndexFull | ErrIndexTooLarge.
Abbreviation index_res := (res index_error).

(** [TapeBuilder] but for the source, its base and the depth limit. *)
Record TapeBuilder : Type := mkBuilder { b_I : nat; b_Entries : list IndexEntry; b_Parent : Z; b_sp : Z }.

Definition NoTapeParent : Z := 2 ^ 32 - 1.

Definition b_at (b : TapeBuilder) (i : nat) : TapeBuilder := mkBuilder i (b_Entries b) (b_Parent b) (b_sp b).

Section Parse.
Context (src : bytes) (cap : nat) (maxDepth : Z).
Abbreviation n := (length src).

Definition i_err {A} (off : nat) (msg : string) : index_res A := Err (ISyntax (syntax_at src off msg)).

(** The fast scanners have no error value of their own. *)
Definition no_error {A} (r : res unit A) : index_res A :=
  match r with Ok a => Ok a | Err _ => Panic | Panic => Panic | NoFuel => NoFuel end.

Definition b_skipSpace (b : TapeBuilder) : TapeBuilder := b_at b (skipSpaceFast src (b_I b)).

(** [b.I < len(b.Src) && b.Src[b.I] == c] *)
Definition b_byte (b : TapeBuilder) (c : Z) : bool := at_byte src (b_I b) c.

Definition add (b : TapeBuilder) (e : IndexEntry) : index_res (nat * TapeBuilder) :=
  if (length (b_Entries b) =? cap)%nat then Err ErrIndexFull
  else Ok (length (b_Entries b), mkBuilder (b_I b) (b_Entries b ++ [e]) (b_Parent b) (b_sp b)).

Definition scalarAt (b : TapeBuilder) (kind : Kind) (start end_ : nat) (flags : Z) : index_res (Kind * nat * TapeBuilder) :=
  let* (entry, b) := add b (mkEntry (w32 (Z.of_nat start)) (w32 (Z.of_nat end_)) 1 (PackInfo 0 (kind_code kind) flags)) in
  Ok (kind, entry, b).

Definition b_scalar (b : TapeBuilder) (kind : Kind) (start : nat) (flags : Z) : index_res (Kind * nat * TapeBuilder) :=
  scalarAt b kind start (b_I b) flags.

(** [string]: the fast scanner, or the diagnostic one for its error. *)
Definition b_string (b : TapeBuilder) : index_res (nat * bool * TapeBuilder) :=
  let* (end_, escaped, ok) := no_error (scanJSONStringFast src (b_I b) (n <=? 64)%nat) in
  if ok then Ok (end_, escaped, b_at b end_)
  else
  let* (_, _, escaped, i) := map_err ISyntax (parseStringRaw src (b_I b)) in
  Ok (i, escaped, b_at b i).

Definition b_literal (b : TapeBuilder) (lit : bytes) (kind : Kind) (len : nat) : index_res (Kind * nat * TapeBuilder) :=
  if negb (matchStringAt src (b_I b) lit) then i_err (b_I b) "invalid literal"
  else b_scalar (b_at b (b_I b + len)) kind (b_I b) 0.

(** An opening bracket: the still-open header. *)
Definition b_open (b : TapeBuilder) (kind : Kind) : index_res (Kind * nat * TapeBuilder) :=
  let start := b_I b in
  let* (entry, b) := add (b_at b (start + 1)) (mkEntry (w32 (Z.of_nat start)) 0 0 (PackInfo 0 (kind_code kind) 0)) in
  Ok (kind, entry, b).

Definition b_value (b : TapeBuilder) : index_res (Kind * nat * TapeBuilder) :=
  let b := b_skipSpace b in
  match src !! (b_I b) with
  | None => i_err (b_I b) "expected value"
  | Some c =>
    let start := b_I b in
    if c =? "n"%ch then b_literal b (bs "null") Null 4
    else if c =? "t"%ch then b_literal b (bs "true") Bool 4
    else if c =? "f"%ch then b_literal b (bs "false") Bool 5
    else if c =? DQUOTE then
    let* (end_, escaped, b) := b_string b in
    let flags := if escaped then Z.lor 0 TapeFlagEscaped else 0 in
    scalarAt b String start end_ flags
    else if c =? "["%ch then b_open b Array
    else if c =? "{"%ch then b_open b Object
    else if negb (c =? "-"%ch) && negb (IsDigit c) then i_err (b_I b) "unexpected byte while parsing value"
    else
    let* (end_, integer, ok) := no_error (scanNumberFastTagged src (b_I b)) in
    if negb ok then i_err start (scanNumber src (b_I b)).2
    else b_scalar (b_at b end_) Number start (numberFlags integer)
  end.

Definition b_objectKey (b : TapeBuilder) : index_res TapeBuilder :=
  let b := b_skipSpace b in
  if negb (b_byte b DQUOTE) then i_err (b_I b) "expected object key string"
  else
  let start := b_I b in
  let* (end_, escaped, b) := b_string b in
  let flags := if escaped then Z.lor TapeFlagKey TapeFlagEscaped else TapeFlagKey in
  let* (_, b) := add b (mkEntry (w32 (Z.of_nat start)) (w32 (Z.of_nat end_)) 1 (PackInfo 0 (kind_code String) flags)) in
  let b := b_skipSpace b in
  if negb (b_byte b ":"%ch) then i_err (b_I b) "expected colon after object key"
  else Ok (b_at b (b_I b + 1)).

(** [finishContainer]: pop the scope stack and complete the header. *)
Definition finishContainer (b : TapeBuilder) : index_res TapeBuilder :=
  let entry := b_Parent b in
  match b_Entries b !! Z.to_nat entry with
  | None => Panic
  | Some e =>
    let len := w32 (Z.of_nat (length (b_Entries b))) in
    let e' := mkEntry (Start e) (w32 (Z.of_nat (b_I b))) (w32 (len - entry)) (Info e) in
    Ok (mkBuilder (b_I b) (<[Z.to_nat entry := e']> (b_Entries b)) (Next e) (b_sp b - 1))
  end.

(** [pushContainer]: the header's [Next] holds the previous scope head. *)
Definition pushContainer (b : TapeBuilder) (entry : nat) : index_res TapeBuilder :=
  let* es := update_entry (b_Entries b) (Z.of_nat entry) (fun e => set_next e (b_Parent b)) in
  Ok (mkBuilder (b_I b) es (w32 (Z.of_nat entry)) (b_sp b + 1)).

(** The state of [parse]'s loops: whether a value has just been completed. *)
Definition parse_state : Type := (bool * TapeBuilder)%type.
Abbreviation turn := (index_res (parse_state + list IndexEntry)).

(** One turn of the outer loop with no completed value. *)
Definition parse_value_turn (b : TapeBuilder) : turn :=
  let* (kind, entry, b) := b_value b in
  let container (array : bool) : turn :=
  if maxDepth <=? b_sp b then i_err (b_I b - 1) "maximum nesting depth exceeded"
  else
  let* b := pushContainer b entry in
  let b := b_skipSpace b in
  if b_byte b (close_byte array) then
  let* b := finishContainer (b_at b (b_I b + 1)) in Ok (inl (true, b))
  else if negb array then
  let* b := b_objectKey b in Ok (inl (false, b))
  else Ok (inl (false, b)) in
  match kind with
  | Array => container true
  | Object => container false
  | _ => Ok (inl (true, b))
  end.

(** One turn of the inner loop: advance or close the innermost container. *)
Definition parse_scope_turn (b : TapeBuilder) : turn :=
  if b_sp b =? 0 then
  let b := b_skipSpace b in
  if negb (b_I b =? n)%nat then i_err (b_I b) "unexpected data after top-level value" else Ok (inr (b_Entries b))
  else
  match b_Entries b !! Z.to_nat (b_Parent b) with
  | None => Panic
  | Some frame =>
    if entry_Count frame =? InfoMaxCount then Err ErrIndexTooLarge
    else
    let* es := update_entry (b_Entries b) (b_Parent b) BumpCount in
    let b := b_skipSpace (mkBuilder (b_I b) es (b_Parent b) (b_sp b)) in
    match src !! (b_I b) with
    | None =>
    if entry_Kind frame =? kind_code Array then i_err (b_I b) "unterminated array"
    else i_err (b_I b) "unterminated object"
    | Some c =>
    if entry_Kind frame =? kind_code Array then
      if c =? ","%ch then Ok (inl (false, b_at b (b_I b + 1)))
      else if c =? "]"%ch then
        let* b := finishContainer (b_at b (b_I b + 1)) in Ok (inl (true, b))
      else i_err (b_I b) "expected comma or closing bracket in array"
    else
      if c =? ","%ch then
        let* b := b_objectKey (b_at b (b_I b + 1)) in Ok (inl (false, b))
      else if c =? "}"%ch then
        let* b := finishContainer (b_at b (b_I b + 1)) in Ok (inl (true, b))
      else i_err (b_I b) "expected comma or closing brace in object"
    end
  end.

Definition parse_step (s : parse_state) : turn :=
  if negb s.1 then parse_value_turn s.2 else parse_scope_turn s.2.

Definition parse : index_res (list IndexEntry) :=
  run parse_step (S (S n)) (false, b_skipSpace (mkBuilder 0 [] NoTapeParent 0)).
End Parse.

(** ** [buildIndexOptions] *)

Record IndexOptions : Type := mkIndexOptions { io_MaxDepth : Z; HashKeys : bool }.

(** [Src] and [Entries]. *)
Record Index : Type := mkIndex { ix_Src : bytes; ix_Entries : list IndexEntry }.

Definition ValidBitmapMinBytes : Z := 2 ^ 16.
Definition indexBitmapMaxBytes : Z := 2 ^ 27.

Section Build.
(** The position engine of [index_positions.go] and the number mode it leaves
behind: called only for eligible documents. *)
Context (buildIndexPositions : bytes -> nat -> option (list IndexEntry)).
Context (fallback_swar : bytes -> bool).

Definition eligible (src : bytes) (maxDepth : Z) : bool :=
  (fastWalkMaxDepth <=? maxDepth) && (ValidBitmapMinBytes <=? Z.of_nat (length src)) &&
  (Z.of_nat (length src) <? indexBitmapMaxBytes).

Definition enrich (opts : IndexOptions) (src : bytes) (es : list IndexEntry) : index_res Index :=
  if HashKeys opts then let* es := no_error (EnrichKeyHashes src es) in Ok (mkIndex src es) else Ok (mkIndex src es).

(** The portable builders: the fast walk, then the diagnostic one. *)
Definition build_portable (swar : bool) (src : bytes) (cap : nat) (maxDepth : Z) : index_res (list IndexEntry) :=
  match (if swar then parseFastSWAR src cap maxDepth else parseFast src cap maxDepth) with
  | Ok es => Ok es
  | Err TapeParseFull => Err ErrIndexFull
  | Err _ => parse src cap maxDepth
  | Panic => Panic
  | NoFuel => NoFuel
  end.

Definition buildIndexOptions (src : bytes) (cap : nat) (opts : IndexOptions) : index_res Index :=
  if (2 ^ 32 - 1 <? Z.of_nat (length src)) || (2 ^ 32 - 1 <? Z.of_nat cap) then Err ErrIndexTooLarge
  else
  let maxDepth := maxDepthOrDefault (io_MaxDepth opts) in
  let portable swar := let* es := build_portable swar src cap maxDepth in enrich opts src es in
  if eligible src maxDepth then
  match buildIndexPositions src cap with
  | Some es => enrich opts src es
  | None => portable (fallback_swar src)
  end
  else portable false.

(** [BuildIndex] and [BuildIndexOptions] (index_api.go). *)
Definition BuildIndex (src : bytes) (cap : nat) : index_res Index := buildIndexOptions src cap (mkIndexOptions 0 false).
End Build.

(** ** The diagnostic parser is a [TapeMachine] *)

(** The scope stack lives in the open headers: each holds the number of its
    parent's header in [Next], and its count is up to date. *)
Definition parent_of (stk : list frame) : Z :=
  match stk with [] => NoTapeParent | f :: stk => Z.of_nat (zsize stk (fr_before f)) end.

Definition parse_header (stk : list frame) (f : frame) : IndexEntry :=
  mkEntry (Z.of_nat (fr_start f)) 0 (parent_of stk) (PackInfo (Z.of_nat (fr_count f)) (container_kind (fr_array f)) 0).

Lemma parse_header_count stk f : count_ok (fr_count f) -> entry_Count (parse_header stk f) = Z.of_nat (fr_count f).
Proof.
  unfold count_ok. change InfoMaxCount with 67108863. intros Hc.
  apply packed_count; [lia|by destruct (fr_array f)|lia].
Qed.

Lemma parse_header_kind stk f : count_ok (fr_count f) -> entry_Kind (parse_header stk f) = container_kind (fr_array f).
Proof.
  unfold count_ok. change InfoMaxCount with 67108863. intros Hc.
  apply packed_kind; [lia|by destruct (fr_array f)|lia].
Qed.

Definition builder_at (i : nat) (stk : list frame) (cur : list IndexEntry) : TapeBuilder :=
  mkBuilder i (flat parse_header stk cur) (parent_of stk) (Z.of_nat (length stk)).

Definition parse_builder (src : bytes) : BuilderStates parse_state index_error := {|
  at_value i stk cur := (false, builder_at i stk cur);
  at_scope i stk cur := (true, builder_at i stk cur);
  syntax_err e := ISyntax (syntax_at src e.1 e.2);
  full_err := ErrIndexFull
  |}.

Lemma add_spec cap b e :
  (length (b_Entries b) <= cap)%nat ->
  add cap b e = if (cap <? length (b_Entries b) + 1)%nat then Err ErrIndexFull
  else Ok (length (b_Entries b), mkBuilder (b_I b) (b_Entries b ++ [e]) (b_Parent b) (b_sp b)).
Proof.
  intros H. unfold add. destruct (Nat.eqb_spec (length (b_Entries b)) cap), (Nat.ltb_spec cap (length (b_Entries b) + 1)); done || lia.
Qed.

Lemma bump_spec f stk cur :
  count_ok (S (fr_count f)) ->
  update_entry (E:=index_error) (flat parse_header (f :: stk) cur) (parent_of (f :: stk)) BumpCount =
  Ok (flat parse_header (bump f :: stk) cur).
Proof.
  unfold count_ok. change InfoMaxCount with 67108863. intros Hc.
  unfold update_entry. cbn [parent_of]. rewrite Nat2Z.id, flat_header, flat_close, flat_app.
  cbn [flat bump fr_before]. do 3 f_equal. unfold parse_header. cbn [bump fr_start fr_count fr_array].
  rewrite packed_bump; [|lia|by destruct (fr_array f)|lia]. do 2 f_equal. lia.
Qed.

Section ParseMachine.
Context (src : bytes) (cap : nat) (maxDepth : Z).
Hypothesis Hsrc : bytes_ok src.
Hypothesis Hbig : Z.of_nat (length src) <= InfoMaxCount.
#[local] Instance states : BuilderStates parse_state index_error := parse_builder src.
Abbreviation step := (parse_step src cap maxDepth).
Abbreviation emits := (emits cap step).
Abbreviation zipped := (zipped src maxDepth cap).

(** [builder_at] when an entry is appended, or the cursor moves. *)
Lemma builder_add i j stk cur e :
  (zsize stk cur <= cap)%nat ->
  add cap (b_at (builder_at i stk cur) j) e =
  if (cap <? zsize stk cur + 1)%nat then Err ErrIndexFull
  else Ok (zsize stk cur, builder_at j stk (cur ++ [e])).
Proof using.
  intros Hz. rewrite add_spec; unfold builder_at, b_at; cbn [b_Entries b_I b_Parent b_sp]; rewrite flat_length; [|done].
  by rewrite flat_app.
Qed.

Lemma string_spec b :
  src !! (b_I b) = Some DQUOTE ->
  b_string src b =
  match ref_str src (b_I b) with
  | Ok (j, _) => Ok (j, has_bs (slice src (S (b_I b)) j), b_at b j)
  | Err (o, m) => Err (ISyntax (syntax_at src o m))
  | _ => Panic
  end.
Proof using Hsrc.
  intros Hq. unfold b_string.
  pose proof (scanJSONStringFast_follows src Hsrc (b_I b) (length src <=? 64)%nat Hq) as H.
  pose proof (parseStringRaw_ref src Hsrc (b_I b) Hq) as H'.
  destruct (ref_str src (b_I b)) as [[j d]|[o m]| |]; [|  |done|done].
  - by rewrite H.
  - destruct H as (e & x & ->). cbn [no_error res_bind]. by rewrite H'.
Qed.

Lemma skip_stop i c : src !! i = Some c -> IsJSONWhitespace c = false -> skipSpaceFast src i = i.
Proof using.
  intros Hc Hw. rewrite skipSpaceFast_ref. apply advance_stop. by rewrite (lookup_Some_drop _ _ _ Hc).
Qed.

Lemma skip_stays i stk cur c :
  src !! i = Some c -> IsJSONWhitespace c = false -> b_skipSpace src (builder_at i stk cur) = builder_at i stk cur.
Proof using. intros Hc Hw. unfold b_skipSpace. cbn [b_I builder_at]. by rewrite (skip_stop i c). Qed.

Lemma skip_again i : (i <= length src)%nat -> skipSpaceFast src (skipSpaceFast src i) = skipSpaceFast src i.
Proof using. intros Hi. rewrite !skipSpaceFast_ref. by apply ref_ws_idem. Qed.

(** The cursor before a value may stand anywhere in the whitespace before it. *)
Lemma value_skips i stk cur :
  (i <= length src)%nat -> step (false, builder_at i stk cur) = step (false, builder_at (ref_ws src i) stk cur).
Proof using.
  intros Hi. unfold parse_step. cbn [fst snd negb]. unfold parse_value_turn, b_value, b_skipSpace.
  replace (b_at (builder_at (ref_ws src i) stk cur) _) with (b_at (builder_at i stk cur) (skipSpaceFast src (b_I (builder_at i stk cur)))); [done|].
  unfold b_at, builder_at. cbn [b_I b_Entries b_Parent b_sp]. rewrite <- skipSpaceFast_ref. by rewrite skip_again.
Qed.

Lemma parse_scalar_emits i j stk cur t kind flags :
  zipped i stk cur -> (i <= j <= length src)%nat -> kind <> Array -> kind <> Object ->
  scalar_entry i j t = mkEntry (Z.of_nat i) (Z.of_nat j) 1 (PackInfo 0 (kind_code kind) flags) ->
  b_value src cap (builder_at i stk cur) = scalarAt cap (b_at (builder_at i stk cur) j) kind i j flags ->
  emits (at_value i stk cur) (at_scope j stk (cur ++ [scalar_entry i j t])) (zsize stk cur + 1).
Proof using Hbig.
  intros Hz%zipped_small Hj Ha Ho He Hv. apply turn_emits. unfold parse_step. cbn [at_value states parse_builder fst snd negb].
  unfold parse_value_turn. rewrite Hv. unfold scalarAt. rewrite builder_add, !small_w32, He by lia.
  destruct (cap <? zsize stk cur + 1)%nat; [done|]. cbn [res_bind]. by destruct kind.
Qed.

Lemma parse_literal_turn i stk cur c lit t kind :
  zipped i stk cur -> (i <= length src)%nat -> kind <> Array -> kind <> Object ->
  scalar_entry i (i + length lit) t =
  mkEntry (Z.of_nat i) (Z.of_nat (i + length lit)) 1 (PackInfo 0 (kind_code kind) 0) ->
  ref_scalar src plain_unexpected c i = ref_lit src lit t i ->
  b_value src cap (builder_at i stk cur) = b_literal src cap (builder_at i stk cur) lit kind (length lit) ->
  match ref_scalar src plain_unexpected c i with
  | Ok (j, t) => emits (at_value i stk cur) (at_scope j stk (cur ++ [scalar_entry i j t])) (zsize stk cur + 1)
  | Err e => fails src cap step (at_value i stk cur) e
  | _ => False
  end.
Proof using Hbig.
  intros Hz Hi Ha Ho He -> Hv. unfold ref_lit, b_literal in *. cbn [builder_at b_I] in Hv.
  destruct (matchStringAt src i lit) eqn:E; cbn [negb] in Hv.
  - apply matchStringAt_span in E as Hsp; [|done]. apply span_le in Hsp.
    eapply parse_scalar_emits; [done|lia|exact Ha|exact Ho|exact He|]. exact Hv.
  - left. apply halts_step. unfold parse_step. cbn [at_value states parse_builder fst snd negb].
    unfold parse_value_turn. by rewrite Hv.
Qed.

Lemma parse_scalar_turn i stk cur c :
  zipped i stk cur -> src !! i = Some c -> IsJSONWhitespace c = false -> c <> open_byte true -> c <> open_byte false ->
  match ref_scalar src plain_unexpected c i with
  | Ok (j, t) => emits (at_value i stk cur) (at_scope j stk (cur ++ [scalar_entry i j t])) (zsize stk cur + 1)
  | Err e => fails src cap step (at_value i stk cur) e
  | _ => False
  end.
Proof using Hsrc Hbig.
  intros Hz Hc Hw Ha Ho. apply lookup_lt_Some in Hc as Hi.
  pose proof (scalar_sound src plain_unexpected Hsrc c i Hc) as Hr.
  assert (Hv : b_value src cap (builder_at i stk cur) = b_value src cap (builder_at i stk cur)) by done.
  unfold b_value at 2 in Hv. rewrite (skip_stays i stk cur c Hc Hw) in Hv. cbn [b_I builder_at] in Hv. rewrite Hc in Hv.
  assert (Hfail : forall e, b_value src cap (builder_at i stk cur) = Err (ISyntax (syntax_at src e.1 e.2)) ->
    fails src cap step (at_value i stk cur) e).
  { intros e He. left. apply halts_step. unfold parse_step. cbn [at_value states parse_builder fst snd negb].
  unfold parse_value_turn. by rewrite He. }
  destruct (Z.eqb_spec c "n"%ch) as [->|]; [by apply (parse_literal_turn i stk cur "n"%ch lit_null TNull Null); [|lia|..]|].
  destruct (Z.eqb_spec c "t"%ch) as [->|]; [by apply (parse_literal_turn i stk cur "t"%ch lit_true (TBool true) Bool); [|lia|..]|].
  destruct (Z.eqb_spec c "f"%ch) as [->|]; [by apply (parse_literal_turn i stk cur "f"%ch lit_false (TBool false) Bool); [|lia|..]|].
  destruct (Z.eqb_spec c DQUOTE) as [->|].
  { rewrite string_spec in Hv by done. cbn [b_I builder_at] in Hv. unfold ref_scalar in *. cbn [Z.eqb Pos.eqb] in *.
  destruct (ref_str src i) as [[j dec]|[o m]| |]; cbn [res_bind reads] in *; [|by apply Hfail|done|done].
  destruct Hr as (Hj & s & Hsp & _). apply span_le in Hsp.
  eapply (parse_scalar_emits i j stk cur _ String); [done|lia|done|done| |exact Hv].
  unfold scalar_entry. cbn [scalar_flags kind_of]. rewrite (slice_cons src i j DQUOTE) by (done || lia). done. }
  rewrite (if_false (c =? "["%ch)), (if_false (c =? "{"%ch)) in Hv by (unfold open_byte in *; lia).
  unfold ref_scalar in *.
  rewrite (if_false (c =? "n"%ch)), (if_false (c =? "t"%ch)), (if_false (c =? "f"%ch)), (if_false (c =? DQUOTE)) in * by lia.
  destruct ((c =? "-"%ch) || IsDigit c) eqn:Hnum; [rewrite if_false in Hv by lia|apply Hfail; rewrite Hv; by rewrite if_true by lia].
  destruct (scalar_scanner src i Hsrc Hi) as (integer & Hn & Hplain). rewrite Hn in Hv. unfold ref_num in *.
  destruct (scanNumber src i) as [j [|a m]]; cbn [fst snd msg_ok no_error res_bind negb reads] in *; [|by apply Hfail].
  destruct Hr as (Hj & s & Hsp & _). apply span_le in Hsp.
  eapply (parse_scalar_emits i j stk cur _ Number); [done|lia|done|done| |exact Hv].
  unfold scalar_entry, numberFlags. cbn [scalar_flags kind_of]. by rewrite Hplain.
Qed.

(** [objectKey] from any position in the whitespace before the name. *)
Lemma objectKey_spec i stk cur :
  (i <= length src)%nat -> (zsize stk cur <= cap)%nat -> (zsize stk cur <= ref_ws src i)%nat ->
  let p := ref_ws src i in
  match ref_key src p with
  | Ok (q, _, v) =>
    if (cap <? zsize stk cur + 1)%nat then b_objectKey src cap (builder_at i stk cur) = Err ErrIndexFull
    else exists k, (k <= length src)%nat /\ ref_ws src k = v /\
    b_objectKey src cap (builder_at i stk cur) = Ok (builder_at k stk (cur ++ [key_entry false p q (slice src p q)]))
  | Err e => b_objectKey src cap (builder_at i stk cur) = Err (syntax_err e) \/
    ((cap < length src)%nat /\ b_objectKey src cap (builder_at i stk cur) = Err ErrIndexFull)
  | _ => False
  end.
Proof using Hsrc Hbig.
  intros Hi Hz Hn. cbv zeta. pose proof (ref_ws_le src i Hi) as Hp. set (p := ref_ws src i) in *.
  assert (Ho : b_objectKey src cap (builder_at i stk cur) = b_objectKey src cap (builder_at i stk cur)) by done.
  unfold b_objectKey at 2 in Ho.
  assert (Hskip : forall k es, b_skipSpace src (builder_at k stk es) = builder_at (ref_ws src k) stk es).
  { intros k es. unfold b_skipSpace. cbn [b_I builder_at]. by rewrite skipSpaceFast_ref. }
  rewrite Hskip in Ho. fold p in Ho. unfold b_byte in Ho. cbn [b_I builder_at] in Ho. unfold ref_key.
  destruct (at_byte src p DQUOTE) eqn:Hq; cbn [negb] in Ho; [|by left]. apply at_byte_spec in Hq.
  rewrite string_spec in Ho by done. cbn [b_I builder_at] in Ho. pose proof (ref_str_sound src Hsrc p Hq) as Hstr.
  destruct (ref_str src p) as [[q name]|[o m]| |]; cbn [res_bind] in *; [|by left|done|done].
  destruct Hstr as (Hpq & key & Hkey%span_le & _). cbv zeta.
  change (b_at _ q) with (b_at (builder_at p stk cur) q) in Ho.
  rewrite builder_add, !small_w32 in Ho by lia. set (k := ref_ws src q) in *.
  destruct (Nat.ltb_spec cap (zsize stk cur + 1)).
  { cbn [res_bind] in Ho. destruct (at_byte src k ":"%ch); [done|]. right. split; [lia|done]. }
  cbn [res_bind] in Ho. rewrite Hskip in Ho. fold k in Ho. cbn [b_I builder_at] in Ho.
  destruct (at_byte src k ":"%ch) eqn:Hcol; cbn [negb] in Ho; [|by left]. apply at_byte_lt in Hcol.
  exists (S k). split; [lia|]. split; [done|]. rewrite Ho. replace (k + 1)%nat with (S k) by lia.
  unfold key_entry, key_flags. by rewrite (slice_cons src p q DQUOTE) by (done || lia).
Qed.

Lemma value_end i stk cur :
  (i <= length src)%nat -> (length src <= ref_ws src i)%nat ->
  step (false, builder_at i stk cur) = Err (syntax_err (ref_ws src i, "expected value"%string)).
Proof using.
  intros Hi Hge. unfold parse_step. cbn [fst snd negb]. unfold parse_value_turn, b_value, b_skipSpace.
  cbn [b_I builder_at b_at]. rewrite skipSpaceFast_ref, lookup_ge_None_2 by done. done.
Qed.

(** The turn goes on to the next element or member, [i] being before it. *)
Lemma enters_next s array i stk cur :
  (i <= length src)%nat -> (zsize stk cur <= cap)%nat -> (zsize stk cur <= ref_ws src i)%nat ->
  step s = (if negb array then let* b := b_objectKey src cap (builder_at i stk cur) in Ok (inl (false, b))
  else Ok (inl (false, builder_at i stk cur))) ->
  enters src cap step s array (ref_ws src i) stk cur.
Proof using Hsrc Hbig.
  intros Hi Hz Hn Hs. unfold enters. destruct array; cbn [negb] in Hs.
  - destruct (Nat.ltb_spec (ref_ws src i) (length src)).
    + eapply reaches_trans; [by apply reaches_step|]. apply reaches_same. by apply value_skips.
    + left. eapply halts_after; [by apply reaches_step|]. apply halts_step. by apply value_end.
  - pose proof (objectKey_spec i stk cur Hi Hz Hn) as Hk. cbv zeta in Hk.
    destruct (ref_key src (ref_ws src i)) as [[[q name] v]|e| |] eqn:Ek; [| |done|done].
    2:{ destruct Hk as [Hk|[Hc Hk]]; rewrite Hk in Hs; [left|right; split; [done|]]; by apply halts_step. }
    destruct (Nat.ltb_spec cap (zsize stk cur + 1)) as [Hlt|Hge].
    { rewrite Hk in Hs. assert (Hh : halts step s full_err) by (by apply halts_step).
    destruct (v <? length src)%nat; [split; [lia|done]|]. right. split; [|done].
    destruct (at_byte src (ref_ws src i) DQUOTE) eqn:Eq; [apply at_byte_lt in Eq; lia|].
    unfold ref_key in Ek. by rewrite Eq in Ek. }
    destruct Hk as (k & Hkn & <- & Hk). rewrite Hk in Hs. cbn [res_bind] in Hs.
    destruct (Nat.ltb_spec (ref_ws src k) (length src)).
    + split; [|lia]. intros _. eapply reaches_trans; [by apply reaches_step|]. apply reaches_same. by apply value_skips.
    + left. eapply halts_after; [by apply reaches_step|]. apply halts_step. by apply value_end.
Qed.

(** [pushContainer] and [finishContainer] on the linked stack. *)
Lemma push_spec i stk cur start array :
  (zsize stk cur <= length src)%nat ->
  pushContainer (builder_at i stk (cur ++ [mkEntry (Z.of_nat start) 0 0 (PackInfo 0 (container_kind array) 0)]))
  (zsize stk cur) = Ok (builder_at i (mkFrame cur start array 0 :: stk) []).
Proof using Hbig.
  intros Hz. unfold pushContainer, update_entry. cbn [builder_at b_Entries b_I b_Parent b_sp]. rewrite Nat2Z.id, flat_app.
  rewrite list_lookup_middle by (by rewrite flat_length).
  cbn [res_bind]. rewrite insert_app_r_alt by (rewrite flat_length; lia).
  rewrite flat_length, Nat.sub_diag, small_w32 by lia.
  unfold builder_at. cbn [flat fr_before parent_of length list_insert]. repeat f_equal. lia.
Qed.

Lemma finish_spec j f stk cur :
  (zsize (f :: stk) cur <= length src)%nat -> (j <= length src)%nat ->
  finishContainer (builder_at j (f :: stk) cur) =
  Ok (builder_at j stk (fr_before f ++ header false (fr_array f) (fr_start f) j (length cur) (fr_count f) :: cur)).
Proof using Hbig.
  intros Hz Hj. unfold finishContainer. cbn [builder_at b_Entries b_I b_Parent b_sp parent_of].
  rewrite Nat2Z.id, flat_header, flat_close, flat_length. cbn [parse_header Start Next Info].
  rewrite !small_w32 by lia. unfold builder_at, header. cbn [andb length].
  replace (Z.of_nat (zsize (f :: stk) cur) - Z.of_nat (zsize stk (fr_before f))) with (Z.of_nat (1 + length cur))
    by (simpl; lia). rewrite small_w32 by (simpl in Hz |- *; lia). do 2 f_equal; [|lia]. do 4 f_equal. lia.
Qed.


Lemma parse_open_turn i stk cur array :
  zipped i stk cur -> src !! i = Some (open_byte array) ->
  if maxDepth <? Z.of_nat (length stk) + 1 then
  halts step (at_value i stk cur) (syntax_err (i, depth_msg)) \/
  ((cap < zsize stk cur + 1)%nat /\ halts step (at_value i stk cur) full_err)
  else if (cap <? zsize stk cur + 1)%nat then halts step (at_value i stk cur) full_err
  else
  let p := ref_ws src (S i) in
  if at_byte src p (close_byte array) then
  reaches step (at_value i stk cur) (at_scope (S p) stk (cur ++ [header false array i (S p) 0 0]))
  else enters src cap step (at_value i stk cur) array p (mkFrame cur i array 0 :: stk) [].
Proof using Hsrc Hbig.
  intros Hz Hc. apply zipped_small in Hz as Hz'. apply lookup_lt_Some in Hc as Hi.
  set (e := mkEntry (Z.of_nat i) 0 0 (PackInfo 0 (container_kind array) 0)).
  assert (Hv : b_value src cap (builder_at i stk cur) =
    if (cap <? zsize stk cur + 1)%nat then Err ErrIndexFull
    else Ok (if array then Array else Object, zsize stk cur, builder_at (S i) stk (cur ++ [e]))).
  { unfold b_value. rewrite (skip_stays i stk cur _ Hc) by (by destruct array). cbn [b_I builder_at]. rewrite Hc.
  replace (S i) with (i + 1)%nat by lia.
  destruct array; cbn [open_byte Z.eqb Pos.eqb]; unfold b_open; cbn [b_I builder_at];
    change (b_at (mkBuilder _ _ _ _) (i + 1)) with (b_at (builder_at i stk cur) (i + 1));
    rewrite builder_add, small_w32 by lia; by destruct (cap <? zsize stk cur + 1)%nat. }
  assert (Hs : step (at_value i stk cur) = parse_value_turn src cap maxDepth (builder_at i stk cur)) by done.
  unfold parse_value_turn in Hs. rewrite Hv in Hs.
  destruct (Nat.ltb_spec cap (zsize stk cur + 1)).
  { assert (Hh : halts step (at_value i stk cur) full_err) by (by apply halts_step).
  case_step; [right; split; [lia|done]|done]. }
  set (g := mkFrame cur i array 0) in *.
  assert (Hs' : step (at_value i stk cur) =
    if maxDepth <=? Z.of_nat (length stk) then i_err src (S i - 1) "maximum nesting depth exceeded"
    else
    let b := builder_at (ref_ws src (S i)) (g :: stk) [] in
    if b_byte src b (close_byte array) then
    let* b := finishContainer (b_at b (b_I b + 1)) in Ok (inl (true, b))
    else if negb array then let* b := b_objectKey src cap b in Ok (inl (false, b)) else Ok (inl (false, b))).
  { rewrite Hs. cbn [res_bind]. pose proof (push_spec (S i) stk cur i array ltac:(lia)) as Hpush. fold e in Hpush.
  destruct array; cbn [b_sp b_I builder_at]; (destruct (maxDepth <=? Z.of_nat (length stk)); [done|]);
    change (mkBuilder (S i) _ _ _) with (builder_at (S i) stk (cur ++ [e]));
    rewrite Hpush; cbn [res_bind]; unfold b_skipSpace; cbn [b_I builder_at]; by rewrite skipSpaceFast_ref. }
  clear Hs. destruct (Z.ltb_spec maxDepth (Z.of_nat (length stk) + 1)).
  { rewrite if_true in Hs' by lia. left. apply halts_step. rewrite Hs'. unfold i_err, depth_msg. simpl. by rewrite Nat.sub_0_r. }
  rewrite if_false in Hs' by lia. cbv zeta in *. unfold b_byte in Hs'. cbn [b_I builder_at] in Hs'.
  pose proof (ref_ws_le src (S i) ltac:(lia)) as Hp. set (p := ref_ws src (S i)) in *.
  destruct (at_byte src p (close_byte array)) eqn:Hb.
  - apply at_byte_lt in Hb. apply reaches_step. rewrite Hs'.
    change (b_at _ (p + 1)) with (builder_at (p + 1) (g :: stk) []). rewrite finish_spec; [|subst g; simpl; lia|lia].
    cbn [res_bind fr_before g]. by replace (p + 1)%nat with (S p) by lia.
  - pose proof (enters_next (at_value i stk cur) array p (g :: stk) [] ltac:(lia)) as He.
    assert (Hpp : ref_ws src p = p) by (apply ref_ws_idem; lia). rewrite Hpp in He. apply He; [subst g; simpl; lia..|done].
Qed.

Lemma parse_scope_machine j f stk cur :
  zipped j (f :: stk) cur -> count_ok (S (fr_count f)) ->
  let k := ref_ws src j in
  match src !! k with
  | None => fails src cap step (at_scope j (f :: stk) cur) (k, unterminated (fr_array f))
  | Some c =>
    if c =? ","%ch then
    enters src cap step (at_scope j (f :: stk) cur) (fr_array f) (ref_ws src (S k)) (bump f :: stk) cur
    else if c =? close_byte (fr_array f) then
    reaches step (at_scope j (f :: stk) cur)
    (at_scope (S k) stk (fr_before f ++
   header false (fr_array f) (fr_start f) (S k) (length cur) (S (fr_count f)) :: cur))
    else fails src cap step (at_scope j (f :: stk) cur) (k, expected_separator (fr_array f))
  end.
Proof using Hsrc Hbig.
  intros Hz Hcnt. apply zipped_small in Hz as Hz'. cbv zeta.
  pose proof (ref_ws_le src j ltac:(lia)) as Hk. set (k := ref_ws src j) in *.
  set (b := builder_at k (bump f :: stk) cur).
  assert (Hs : step (at_scope j (f :: stk) cur) =
    match src !! k with
    | None => i_err src k (unterminated (fr_array f))
    | Some c =>
    if c =? ","%ch then
    if negb (fr_array f) then let* b := b_objectKey src cap (b_at b (k + 1)) in Ok (inl (false, b))
    else Ok (inl (false, b_at b (k + 1)))
    else if c =? close_byte (fr_array f) then let* b := finishContainer (b_at b (k + 1)) in Ok (inl (true, b))
    else i_err src k (expected_separator (fr_array f))
    end).
  { unfold parse_step. cbn [at_scope states parse_builder fst snd negb]. unfold parse_scope_turn.
  cbn [builder_at b_sp b_Entries b_Parent b_I]. rewrite (if_false (Z.of_nat (length (f :: stk)) =? 0)) by (simpl; lia).
  change (parent_of (f :: stk)) with (Z.of_nat (zsize stk (fr_before f))) at 1. rewrite Nat2Z.id, flat_header.
  rewrite parse_header_count, parse_header_kind by (unfold count_ok in *; lia).
  rewrite if_false by (unfold count_ok in *; lia). rewrite bump_spec by done.
  cbn [res_bind]. unfold b_skipSpace. cbn [b_I]. rewrite skipSpaceFast_ref. fold k.
  change (b_at (mkBuilder _ _ _ _) k) with b. change (b_I b) with k. by destruct (fr_array f), (src !! k). }
  destruct (src !! k) as [c|] eqn:Hc; [|left; by apply halts_step]. apply lookup_lt_Some in Hc as Hlt.
  replace (k + 1)%nat with (S k) in Hs by lia. change (b_at b (S k)) with (builder_at (S k) (bump f :: stk) cur) in Hs.
  destruct (c =? ","%ch).
  - pose proof (ref_ws_le src (S k) ltac:(lia)).
    apply enters_next; [lia|rewrite zsize_bump; lia|rewrite zsize_bump; lia|exact Hs].
  - destruct (c =? close_byte (fr_array f)); [|left; by apply halts_step].
    apply reaches_step. rewrite Hs. rewrite finish_spec; [done|rewrite zsize_bump; lia|lia].
Qed.

#[export] Instance parse_machine : TapeMachine src maxDepth plain_unexpected cap step.
Proof using Hsrc Hbig.
  split; [exact parse_scalar_turn|exact parse_open_turn|exact parse_scope_machine].
Qed.
End ParseMachine.

(** ** Termination *)

Section ParseMoves.
Context (src : bytes) (cap : nat) (maxDepth : Z).
Hypothesis Hsrc : bytes_ok src.
Abbreviation n := (length src).

(** The cursor moved from [i], inside the source. *)
Definition moved {A} (i : nat) (get : A -> TapeBuilder) (r : index_res A) : Prop :=
  match r with
  | Ok a => (i < b_I (get a) <= n)%nat
  | NoFuel => False
  | _ => True
  end.

Lemma scalarAt_moved i b kind start end_ flags :
  (i < b_I b <= n)%nat -> moved i snd (scalarAt cap b kind start end_ flags).
Proof using. intros H. unfold scalarAt, add. by case_step. Qed.

Lemma b_open_moved i b kind : (i <= b_I b < n)%nat -> moved i snd (b_open cap b kind).
Proof using. intros H. unfold b_open, add. case_step; simpl; [done|lia]. Qed.

Lemma b_literal_moved i b lit kind len :
  (i <= b_I b <= n)%nat -> len = length lit -> lit <> [] -> moved i snd (b_literal src cap b lit kind len).
Proof using.
  intros H -> Hne. unfold b_literal. destruct (matchStringAt src (b_I b) lit) eqn:E; [|done].
  apply matchStringAt_span, span_le in E; [|lia]. apply scalarAt_moved. cbn [b_at b_I]. destruct lit; [done|]. simpl in *. lia.
Qed.

Lemma b_value_moved b : (b_I b <= n)%nat -> moved (b_I b) snd (b_value src cap b).
Proof using Hsrc.
  intros Hi. unfold b_value, b_skipSpace. rewrite skipSpaceFast_ref. pose proof (ref_ws_le src (b_I b) Hi) as Hp.
  set (p := ref_ws src (b_I b)) in *. cbn [b_at b_I]. at_pos src p as c E; [|done]. apply lookup_lt_Some in E as Hlt.
  do 3 (case_step; [apply b_literal_moved; [simpl; lia|done|done]|]).
  destruct (Z.eqb_spec c DQUOTE) as [->|].
  { rewrite string_spec by done. cbn [b_at b_I]. pose proof (ref_str_sound src Hsrc p E) as Hs.
  destruct (ref_str src p) as [[j d]|[o m]| |]; cbn [res_bind]; [|done..].
  destruct Hs as (Hj & key & Hkey%span_le & _). apply scalarAt_moved. simpl. lia. }
  do 2 (case_step; [apply b_open_moved; simpl; lia|]). case_step; [done|].
  destruct (scalar_scanner src p Hsrc Hlt) as (integer & -> & _).
  pose proof (ref_num_sound src 0 p ltac:(lia) Hlt) as Hr. unfold ref_num in Hr.
  destruct (scanNumber src p) as [j [|a m]]; cbn [fst snd msg_ok no_error res_bind negb reads] in *; [|done].
  destruct Hr as (Hj & t & Ht%span_le & _). apply scalarAt_moved. simpl. lia.
Qed.

Lemma objectKey_moved b : (b_I b <= n)%nat -> moved (b_I b) id (b_objectKey src cap b).
Proof using Hsrc.
  intros Hi. unfold b_objectKey, b_skipSpace. rewrite skipSpaceFast_ref. pose proof (ref_ws_le src (b_I b) Hi) as Hp.
  set (p := ref_ws src (b_I b)) in *. unfold b_byte. cbn [b_at b_I].
  destruct (at_byte src p DQUOTE) eqn:Hq; cbn [negb]; [|done]. apply at_byte_spec in Hq.
  rewrite string_spec by done. cbn [b_at b_I]. pose proof (ref_str_sound src Hsrc p Hq) as Hs.
  destruct (ref_str src p) as [[j d]|[o m]| |]; cbn [res_bind]; [|done..].
  destruct Hs as (Hj & key & Hkey%span_le & _). unfold add. case_step; [done|]. cbn [res_bind b_at b_I b_Entries].
  rewrite skipSpaceFast_ref. pose proof (ref_ws_le src j ltac:(lia)).
  destruct (at_byte src (ref_ws src j) ":"%ch) eqn:Hc; [|done]. apply at_byte_lt in Hc. simpl. lia.
Qed.

Lemma finish_moved i b : (i < b_I b <= n)%nat -> moved i id (finishContainer b).
Proof using. intros H. unfold finishContainer. by case_step. Qed.

Lemma moved_bind {A B} i (get : A -> TapeBuilder) (get' : B -> TapeBuilder) (r : index_res A) k :
  moved i get r -> (forall a, (i < b_I (get a) <= n)%nat -> moved i get' (k a)) ->
  moved i get' (let* a := r in k a).
Proof using. destruct r; simpl; auto. Qed.

Lemma moved_weaken {A} i j (get : A -> TapeBuilder) r : (i <= j)%nat -> moved j get r -> moved i get r.
Proof using. intros Hij. destruct r; simpl; lia. Qed.

(** A turn returns, or moves the cursor forward. *)
Definition parse_advances (i : nat) (r : index_res (parse_state + list IndexEntry)) : Prop :=
  match r with
  | Ok (inl s) => (i < b_I s.2 <= n)%nat
  | NoFuel => False
  | _ => True
  end.

Lemma advances_goto i done_ (r : index_res TapeBuilder) :
  moved i id r -> parse_advances i (let* b := r in Ok (inl (done_, b))).
Proof using. by destruct r. Qed.

Lemma parse_turn_advances s : (b_I s.2 <= n)%nat -> parse_advances (b_I s.2) (parse_step src cap maxDepth s).
Proof using Hsrc.
  intros Hi. destruct s as [[|] b]; unfold parse_step; cbn [fst snd negb] in *.
  - unfold parse_scope_turn. case_step; [by case_step|]. case_step; [|done]. case_step; [done|].
    unfold update_entry. destruct (b_Entries b !! Z.to_nat (b_Parent b)); [|done]. cbn [res_bind].
    unfold b_skipSpace. cbn [b_at b_I b_Entries b_Parent b_sp]. rewrite skipSpaceFast_ref.
    pose proof (ref_ws_le src (b_I b) Hi) as Hp. set (p := ref_ws src (b_I b)) in *.
    at_pos src p as c E; [|by case_step]. apply lookup_lt_Some in E.
    assert (Hfin : forall es, parse_advances (b_I b) (let* b := finishContainer (mkBuilder (p + 1) es (b_Parent b) (b_sp b)) in Ok (inl (true, b)))).
    { intros es. apply advances_goto, finish_moved. simpl. lia. }
    destruct (entry_Kind _ =? _); (destruct (c =? ","%ch); [|destruct (c =? _); [apply Hfin|done]]); [simpl; lia|].
    apply advances_goto. eapply moved_weaken; [|apply objectKey_moved]; simpl; lia.
  - unfold parse_value_turn. pose proof (b_value_moved b Hi) as Hv.
    destruct (b_value src cap b) as [[[kind entry] b']| | |]; cbn [res_bind moved snd] in *; [|done..].
    assert (Hcont : forall array, parse_advances (b_I b)
      (if maxDepth <=? b_sp b' then i_err src (b_I b' - 1) "maximum nesting depth exceeded"
      else
      let* b := pushContainer b' entry in
      let b := b_skipSpace src b in
      if b_byte src b (close_byte array) then
 let* b := finishContainer (b_at b (b_I b + 1)) in Ok (inl (true, b))
      else if negb array then let* b := b_objectKey src cap b in Ok (inl (false, b)) else Ok (inl (false, b)))).
    { intros array. case_step; [done|]. unfold pushContainer, update_entry.
    destruct (b_Entries b' !! Z.to_nat (Z.of_nat entry)); [|done]. cbn [res_bind]. cbv zeta.
    unfold b_skipSpace, b_byte. cbn [b_at b_I b_Entries b_Parent b_sp]. rewrite skipSpaceFast_ref.
    pose proof (ref_ws_le src (b_I b') ltac:(lia)) as Hp. set (p := ref_ws src (b_I b')) in *.
    destruct (at_byte src p (close_byte array)) eqn:E.
    { apply at_byte_lt in E. apply advances_goto, finish_moved. simpl. lia. }
    destruct array; cbn [negb]; [simpl; lia|]. apply advances_goto.
    eapply moved_weaken; [|apply objectKey_moved]; simpl; lia. }
    destruct kind; [simpl; lia..| |]; [apply (Hcont true)|apply (Hcont false)].
Qed.

Lemma parse_bounded K s :
  (b_I s.2 <= n)%nat -> (n - b_I s.2 < K)%nat -> run (parse_step src cap maxDepth) K s <> NoFuel.
Proof using Hsrc.
  intros Hwf HK. apply (run_bounded _ (fun s => b_I s.2 <= n)%nat (fun s => n - b_I s.2)%nat); [|done|done].
  intros s' Hs'. pose proof (parse_turn_advances s' Hs') as H. unfold parse_advances in H.
  destruct (parse_step src cap maxDepth s') as [[s''|r]| | |]; [lia|done..].
Qed.
End ParseMoves.

(** ** The diagnostic parser builds the tape *)

Lemma parse_ref src cap maxDepth :
  bytes_ok src -> Z.of_nat (length src) <= InfoMaxCount -> 0 <= maxDepth ->
  match ref_doc src maxDepth plain_unexpected with
  | Ok t => exists es, doc_tape src t es /\
      parse src cap maxDepth = if (cap <? length es)%nat then Err ErrIndexFull else Ok es
  | Err (o, m) => parse src cap maxDepth = Err (ISyntax (syntax_at src o m)) \/
      ((cap < length src)%nat /\ parse src cap maxDepth = Err ErrIndexFull)
  | _ => False
  end.
Proof.
  intros Hok Hbig Hd. pose proof (parse_machine src cap maxDepth Hok Hbig) as M.
  unfold parse, ref_doc. pose proof (ref_ws_le src 0 ltac:(lia)) as H0.
  set (i := ref_ws src 0) in *. set (step := parse_step src cap maxDepth) in *.
  assert (Hstart : b_skipSpace src (mkBuilder 0 [] NoTapeParent 0) = builder_at i [] []).
  { unfold b_skipSpace. cbn [b_I]. by rewrite skipSpaceFast_ref. }
  rewrite Hstart.
  assert (Hrun : run step (S (S (length src))) (false, builder_at i [] []) <> NoFuel).
  { apply parse_bounded; [done|simpl; lia|simpl; lia]. }
  pose proof (halts_run step _ _ Hrun) as Hend. pose proof (fun r => returns_run step _ _ r Hrun) as Hret.
  destruct (Nat.lt_ge_cases i (length src)) as [Hlt|Hge].
  2:{ rewrite rv_end by lia. left. apply Hend. apply halts_step. subst step.
      assert (Hii : ref_ws src i = i) by (apply ref_ws_idem; lia).
      rewrite value_end; [by rewrite Hii|lia|by rewrite Hii]. }
  pose proof (root_sim src maxDepth maxDepth plain_unexpected cap step M Hok Hbig (Z.le_refl _) i Hlt
    (ref_ws_idem src 0 ltac:(lia)) Hd) as H.
  change (at_value i [] []) with (false, builder_at i [] []) in H.
  destruct (ref_value src maxDepth plain_unexpected _ 0 i) as [[j t]|[o m]| |]; cbn [builds res_bind] in H |- *; [| |done|done].
  2:{ destruct H as [[H|[Hc H]]|[H _]]; [left|right; split; [done|]|lia]; by apply Hend. }
  destruct H as (es & Htape & [[_ [Hfit Hfull]]|[H _]]); [|lia]. cbn [zsize app] in *.
  apply tape_value_extent in Htape as Hx. cbv zeta.
  assert (Hturn : step (true, builder_at j [] es) =
    if (ref_ws src j =? length src)%nat then Ok (inr es) else i_err src (ref_ws src j) "unexpected data after top-level value").
  { unfold step, parse_step. cbn [fst snd negb]. unfold parse_scope_turn. cbn [builder_at b_sp length Z.of_nat Z.eqb].
    unfold b_skipSpace. cbn [b_I b_at b_Entries flat builder_at]. rewrite skipSpaceFast_ref. by destruct (_ =? _)%nat. }
  destruct (Nat.eqb_spec (ref_ws src j) (length src)) as [He|Hne].
  - exists es. split; [by exists j|]. destruct (Nat.ltb_spec cap (length es)) as [Hlt'|Hge']; [by apply Hend, Hfull|].
    apply Hret. eapply returns_after; [by apply Hfit|]. by apply returns_step.
  - destruct (Nat.lt_ge_cases cap (length es)) as [Hlt'|Hge']; [right; split; [lia|by apply Hend, Hfull]|left].
    apply Hend. eapply halts_after; [by apply Hfit|]. by apply halts_step.
Qed.

(** ** [buildIndexOptions] *)

(** [es] is the tape of the whole document, whose tree is [t]. *)
Definition index_tape (h : bool) (src : bytes) (t : tree) (es : list IndexEntry) : Prop :=
  exists j, tape_value src h (ref_ws src 0) j t es /\ ref_ws src j = length src.

Lemma index_tape_size h src t es : index_tape h src t es -> length es = tape_size t.
Proof. intros (j & Ht & _). by apply tape_value_extent in Ht as [? _]. Qed.

Lemma build_portable_ref swar src cap maxDepth :
  bytes_ok src -> Z.of_nat (length src) <= InfoMaxCount -> 0 <= maxDepth ->
  match ref_doc src maxDepth plain_unexpected with
  | Ok t => exists es, index_tape false src t es /\
      build_portable swar src cap maxDepth = if (cap <? length es)%nat then Err ErrIndexFull else Ok es
  | Err (o, m) => build_portable swar src cap maxDepth = Err (ISyntax (syntax_at src o m)) \/
      ((cap < length src)%nat /\ build_portable swar src cap maxDepth = Err ErrIndexFull)
  | _ => False
  end.
Proof.
  intros Hok Hbig Hd. pose proof (parse_ref src cap maxDepth Hok Hbig Hd) as Hp.
  assert (Hl : depthLimit maxDepth <= maxDepth) by (unfold depthLimit, fastWalkMaxDepth; case_step; lia).
  unfold build_portable, parseFast, parseFastSWAR.
  set (scan := if swar then scanNumberFastTaggedSWAR src else scanNumberFastTagged src).
  replace (if swar then parse_fast src cap maxDepth (scanNumberFastTaggedSWAR src)
           else parse_fast src cap maxDepth (scanNumberFastTagged src))
    with (parse_fast src cap maxDepth scan) by (by destruct swar).
  assert (Hscan : forall i, (i < length src)%nat ->
    exists integer, scan i = Ok ((scanNumber src i).1, integer, msg_ok (scanNumber src i).2) /\
      (msg_ok (scanNumber src i).2 = true -> integer = plain_integer (slice src i (scanNumber src i).1))).
  { intros i Hi. subst scan. destruct swar; [by apply swar_scanner|by apply scalar_scanner]. }
  pose proof (parse_fast_deep src cap maxDepth plain_unexpected scan Hok Hbig Hd Hscan maxDepth Hl) as Hf.
  destruct (ref_doc src maxDepth plain_unexpected) as [t|[o m]| |]; [| |done|done].
  - destruct Hf as (es & Ht & [->|[_ ->]]); [|done]. exists es. split; [done|]. by destruct (cap <? length es)%nat.
  - destruct Hf as [->|[Hc ->]]; [done|by right].
Qed.

Lemma enrich_index opts src t es :
  bytes_ok src -> Z.of_nat (length src) < 2 ^ 32 -> index_tape false src t es ->
  exists es', index_tape (HashKeys opts) src t es' /\ length es' = length es /\
    enrich opts src es = Ok (mkIndex src es').
Proof.
  intros Hok Hbig (j & Ht & Hj). unfold enrich. destruct (HashKeys opts); [|exists es; split; [by exists j|done]].
  destruct (proj1 (enrich_tape src Hok Hbig) _ _ _ _ Ht) as (es' & He & Ht' & Hl).
  exists es'. split; [by exists j|]. split; [done|]. by rewrite He.
Qed.

Lemma buildIndexOptions_ref engine mode src cap opts :
  bytes_ok src -> Z.of_nat (length src) <= InfoMaxCount -> Z.of_nat cap < 2 ^ 32 ->
  let maxDepth := maxDepthOrDefault (io_MaxDepth opts) in
  eligible src maxDepth = false \/ engine src cap = None ->
  match ref_doc src maxDepth plain_unexpected with
  | Ok t => exists es, index_tape (HashKeys opts) src t es /\
      buildIndexOptions engine mode src cap opts = if (cap <? length es)%nat then Err ErrIndexFull else Ok (mkIndex src es)
  | Err (o, m) => buildIndexOptions engine mode src cap opts = Err (ISyntax (syntax_at src o m)) \/
      ((cap < length src)%nat /\ buildIndexOptions engine mode src cap opts = Err ErrIndexFull)
  | _ => False
  end.
Proof.
  intros Hok Hbig Hcap maxDepth He. assert (Hd : 0 <= maxDepth) by (unfold maxDepth, maxDepthOrDefault, DefaultMaxDepth; case_step; lia).
  assert (Hsmall : Z.of_nat (length src) < 2 ^ 32) by (change InfoMaxCount with 67108863 in Hbig; lia).
  assert (Hb : exists swar, buildIndexOptions engine mode src cap opts =
    let* es := build_portable swar src cap maxDepth in enrich opts src es).
  { unfold buildIndexOptions. rewrite if_false by lia. cbv zeta. fold maxDepth.
    destruct (eligible src maxDepth); [|by eexists]. destruct He as [|He]; [done|]. rewrite He. by eexists. }
  destruct Hb as (swar & ->). pose proof (build_portable_ref swar src cap maxDepth Hok Hbig Hd) as H.
  destruct (ref_doc src maxDepth plain_unexpected) as [t|[o m]| |]; [| |done|done].
  - destruct H as (es & Ht & ->). destruct (enrich_index opts src t es Hok Hsmall Ht) as (es' & Ht' & Hl & Hen).
    exists es'. split; [done|]. rewrite Hl. by destruct (cap <? length es)%nat.
  - by destruct H as [->|[Hc ->]]; [left|right].
Qed.

(** The counting pass counts the tape. *)
Lemma csum_size {A} (f : A -> tree) (l : list A) :
  Forall (fun x => Z.of_nat (tape_size (f x)) = 1 + c_values (tree_counts (f x)) + 2 * c_members (tree_counts (f x))) l ->
  Z.of_nat (list_sum (map (fun x => tape_size (f x)) l)) =
  Z.of_nat (length l) + c_values (csum (map (fun x => tree_counts (f x)) l)) + 2 * c_members (csum (map (fun x => tree_counts (f x)) l)).
Proof. induction 1 as [|x l Hx _ IH]; simpl in *; [done|]. unfold list_sum in *. lia. Qed.

Lemma tape_size_counts t :
  Z.of_nat (tape_size t) = 1 + c_values (tree_counts t) + 2 * c_members (tree_counts t).
Proof.
  induction t using tree_nested_ind; simpl; try done.
  - pose proof (csum_size (fun x => x) ts H) as E. unfold list_sum in *.
    change (map (fun x => tape_size x) ts) with (map tape_size ts) in E.
    change (map (fun x => tree_counts x) ts) with (map tree_counts ts) in E. lia.
  - pose proof (csum_size snd ms H) as E.
    assert (Hs : forall l : list ((bytes * bytes) * tree), foldr Nat.add 0%nat (map (fun m => S (tape_size m.2)) l)
      = (length l + foldr Nat.add 0%nat (map (fun m => tape_size m.2) l))%nat).
    { induction l; simpl; lia. }
    rewrite Hs. unfold list_sum in *. lia.
Qed.

(** ** Properties *)

(** C4: building an index on the portable builders, for any document the position engine does not take, with any options and a storage of any capacity: a document of the grammar yields exactly its tape, with key hashes when they were asked for, if the tape fits the storage and [ErrIndexFull] if it does not; any other input yields the syntax error of the reference reader, unless a storage smaller than the source ran out first. *)
Theorem buildIndexOptions_builds engine mode src cap opts :
  bytes_ok src -> Z.of_nat (length src) <= InfoMaxCount -> Z.of_nat cap < 2 ^ 32 ->
  eligible src (maxDepthOrDefault (io_MaxDepth opts)) = false \/ engine src cap = None ->
  match ref_doc src (maxDepthOrDefault (io_MaxDepth opts)) plain_unexpected with
  | Ok t => exists es, index_tape (HashKeys opts) src t es /\
      buildIndexOptions engine mode src cap opts = if (cap <? length es)%nat then Err ErrIndexFull else Ok (mkIndex src es)
  | Err (o, m) => buildIndexOptions engine mode src cap opts = Err (ISyntax (syntax_at src o m)) \/
      ((cap < length src)%nat /\ buildIndexOptions engine mode src cap opts = Err ErrIndexFull)
  | _ => False
  end.
Proof. apply buildIndexOptions_ref. Qed.

Lemma buildIndexOptions_builds_witness :
  let src := js "{'k':[1,{'\n':null}]}" in
  let opts := mkIndexOptions 3 true in
  match ref_doc src (maxDepthOrDefault (io_MaxDepth opts)) plain_unexpected with
  | Ok t => exists es, index_tape (HashKeys opts) src t es /\
      buildIndexOptions (fun _ _ => None) (fun _ => true) src 7 opts =
        if (7 <? length es)%nat then Err ErrIndexFull else Ok (mkIndex src es)
  | Err (o, m) => buildIndexOptions (fun _ _ => None) (fun _ => true) src 7 opts = Err (ISyntax (syntax_at src o m)) \/
      ((7 < length src)%nat /\ buildIndexOptions (fun _ _ => None) (fun _ => true) src 7 opts = Err ErrIndexFull)
  | _ => False
  end.
Proof. apply buildIndexOptions_builds; [concrete_bytes|vm_compute; done|done|by right]. Defined.

(** C21: [RequiredIndexEntries] is exact: when it answers [k], an index built with the default options fits a storage exactly when its capacity is at least [k], and has then [k] entries. *)
Theorem required_entries_exact engine mode src cap k :
  bytes_ok src -> Z.of_nat (length src) <= InfoMaxCount -> Z.of_nat cap < 2 ^ 32 ->
  eligible src DefaultMaxDepth = false \/ engine src cap = None ->
  RequiredIndexEntries src = Ok k ->
  if Z.of_nat cap <? k then BuildIndex engine mode src cap = Err ErrIndexFull
  else exists es, BuildIndex engine mode src cap = Ok (mkIndex src es) /\ Z.of_nat (length es) = k.
Proof.
  intros Hok Hbig Hcap He Hk. rewrite RequiredIndexEntries_ref in Hk by done.
  pose proof (buildIndexOptions_ref engine mode src cap (mkIndexOptions 0 false) Hok Hbig Hcap He) as H.
  change (maxDepthOrDefault (io_MaxDepth (mkIndexOptions 0 false))) with DefaultMaxDepth in H. cbv zeta in H.
  pose proof (ref_doc_place src DefaultMaxDepth unexpected_byte plain_unexpected) as Hs.
  destruct (ref_doc src DefaultMaxDepth unexpected_byte) as [t|[o m]| |]; cbn [as_syntax] in Hk; [|done..].
  injection Hk as <-.
  destruct (ref_doc src DefaultMaxDepth plain_unexpected) as [t'|[o m]| |]; [|done..]. cbn in Hs. subst t'.
  destruct H as (es & Ht & H). apply index_tape_size in Ht as Hl. rewrite <- tape_size_counts, <- Hl.
  unfold BuildIndex. rewrite H. destruct (Nat.ltb_spec cap (length es)).
  - by rewrite if_true by lia.
  - rewrite if_false by lia. by exists es.
Qed.

Lemma required_entries_exact_witness :
  let src := js "{'k':[1,{'\n':null}]}" in
  if Z.of_nat 6 <? 7 then BuildIndex (fun _ _ => None) (fun _ => true) src 6 = Err ErrIndexFull
  else exists es, BuildIndex (fun _ _ => None) (fun _ => true) src 6 = Ok (mkIndex src es) /\ Z.of_nat (length es) = 7.
Proof.
  apply (required_entries_exact (fun _ _ => None) (fun _ => true) _ 6 7);
    [concrete_bytes|vm_compute; done|done|by right|vm_compute; reflexivity].
Defined.
