(* ===== verification/TapeStack.v ===== *)
(** The linked scope stack of the diagnostic parser ([pushContainer],
    [finishContainer]): an invariant of every state the parser reaches, on any
    input and any storage, and what it gives: no index is ever out of range. *)

From S2P Require Import Prelude Words Utf8 Scanner Lex Grammar StringRef Errors Numbers Reader Validator FastValid Compact Decode KeyHash Raw Tape TapeMachine TapeWalk TapeParse.

(** An open header: a container whose count is still below the limit or at it. *)
Definition open_info (e : IndexEntry) : Prop :=
  exists count array, 0 <= count <= InfoMaxCount /\ Info e = PackInfo count (container_kind array) 0.

(** [linked es p sp]: from header [p], the [Next] words lead through [sp] open
    headers, each before the last, to the mark of the empty stack. *)
Inductive linked (es : list IndexEntry) : Z -> Z -> Prop :=
  | linked_nil : linked es NoTapeParent 0
  | linked_cons k e sp :
    es !! k = Some e -> open_info e -> Next e = NoTapeParent \/ Next e < Z.of_nat k -> linked es (Next e) sp ->
    linked es (Z.of_nat k) (sp + 1).

Definition below (k : nat) (p : Z) : Prop := p = NoTapeParent \/ p < Z.of_nat k.

Lemma linked_sp es p sp : linked es p sp -> 0 <= sp.
Proof. induction 1; lia. Qed.

Lemma linked_below es p sp : linked es p sp -> below (length es) p.
Proof. destruct 1 as [|k e sp Hk]; [by left|right]. apply lookup_lt_Some in Hk. lia. Qed.

Lemma linked_app es e p sp : linked es p sp -> linked (es ++ [e]) p sp.
Proof.
  induction 1 as [|k e' sp Hk Ho Hn _ IH]; [constructor|]. eapply linked_cons; [|done|done|done].
  by apply lookup_app_l_Some.
Qed.

(** Entries above the head may change. *)
Lemma linked_insert es k e p sp :
  Z.of_nat (length es) <= NoTapeParent -> below k p -> linked es p sp -> linked (<[k := e]> es) p sp.
Proof.
  intros Hlen Hb H. revert Hb. induction H as [|j e' sp Hj Ho Hn _ IH]; intros Hb; [constructor|].
  pose proof (lookup_lt_Some _ _ _ Hj). assert (Hjk : (j < k)%nat) by (destruct Hb as [Hb|Hb]; lia).
  eapply linked_cons; [|done|done|].
  - by rewrite list_lookup_insert_ne by lia.
  - apply IH. destruct Hn as [Hn|Hn]; [by left|right; lia].
Qed.

(** The builder's invariant: the stack is linked, the cursor and the entries are
    in range. *)
Definition stack_ok (src : bytes) (cap : nat) (b : TapeBuilder) : Prop :=
  linked (b_Entries b) (b_Parent b) (b_sp b) /\ (b_I b <= length src)%nat /\ (length (b_Entries b) <= cap)%nat.

Definition keeps (src : bytes) (cap : nat) {A} (get : A -> TapeBuilder) (r : index_res A) : Prop :=
  match r with Ok a => stack_ok src cap (get a) | Err _ => True | _ => False end.

Section Invariant.
Context (src : bytes) (cap : nat) (maxDepth : Z).
Hypothesis Hsrc : bytes_ok src.
Hypothesis Hcap : Z.of_nat cap <= NoTapeParent.
Abbreviation ok := (stack_ok src cap).
Abbreviation keeps := (keeps src cap).

Lemma keeps_bind {A B} (get : A -> TapeBuilder) (get' : B -> TapeBuilder) (r : index_res A) k :
  keeps get r -> (forall a, r = Ok a -> ok (get a) -> keeps get' (k a)) -> keeps get' (let* a := r in k a).
Proof using. destruct r; simpl; auto. Qed.

Lemma ok_at b i : ok b -> (i <= length src)%nat -> ok (b_at b i).
Proof using. intros (H1 & _ & H3) Hi. by split_and!. Qed.

Lemma ok_skip b : ok b -> ok (b_skipSpace src b).
Proof using.
  intros (H1 & H2 & H3). split_and!; [done| |done]. unfold b_skipSpace. cbn [b_at b_I]. rewrite skipSpaceFast_ref.
  by apply ref_ws_le.
Qed.

Lemma keeps_add b e : ok b -> keeps snd (add cap b e).
Proof using.
  intros (H1 & H2 & H3). unfold add. destruct (Nat.eqb_spec (length (b_Entries b)) cap); [done|].
  split_and!; cbn [snd b_Entries b_Parent b_sp b_I]; [by apply linked_app|done|rewrite length_app; simpl; lia].
Qed.

Lemma keeps_scalarAt b kind start end_ flags : ok b -> keeps snd (scalarAt cap b kind start end_ flags).
Proof using. intros H. unfold scalarAt. eapply keeps_bind; [by apply keeps_add|]. intros [entry b'] _ H'. exact H'. Qed.

Lemma keeps_string b : ok b -> src !! (b_I b) = Some DQUOTE -> keeps snd (b_string src b).
Proof using Hsrc.
  intros H Hq. rewrite string_spec by done. pose proof (ref_str_sound src Hsrc (b_I b) Hq) as Hs.
  destruct (ref_str src (b_I b)) as [[j d]|[o m]| |]; [|done..].
  destruct Hs as (_ & key & Hkey%span_le & _). apply ok_at; [done|lia].
Qed.

(** [value] leaves the stack alone; a container's header is its last entry. *)
Definition opened (a : Kind * nat * TapeBuilder) : Prop :=
  let '(kind, entry, b) := a in
  kind = Array \/ kind = Object ->
  (S entry = length (b_Entries b))%nat /\ below entry (b_Parent b) /\
  exists e array, b_Entries b !! entry = Some e /\ Info e = PackInfo 0 (container_kind array) 0.

Lemma value_keeps b :
  ok b -> match b_value src cap b with Ok a => ok a.2 /\ opened a | Err _ => True | _ => False end.
Proof using Hsrc.
  intros H. apply ok_skip in H. unfold b_value. set (b' := b_skipSpace src b) in *.
  at_pos src (b_I b') as c E; [|done]. apply lookup_lt_Some in E as Hlt.
  assert (Hsc : forall b2 kind start end_ flags, ok b2 -> kind <> Array -> kind <> Object ->
    match scalarAt cap b2 kind start end_ flags with Ok a => ok a.2 /\ opened a | Err _ => True | _ => False end).
  { intros b2 kind start end_ flags H2 Ha Ho. pose proof (keeps_scalarAt b2 kind start end_ flags H2) as Hk.
  unfold scalarAt in *. destruct (add cap b2 _) as [[entry b3]| | |]; cbn [res_bind TapeStack.keeps] in *; try done.
  split; [done|]. by intros [?|?]. }
  assert (Hlit : forall lit kind len, len = length lit -> kind <> Array -> kind <> Object ->
    match b_literal src cap b' lit kind len with Ok a => ok a.2 /\ opened a | Err _ => True | _ => False end).
  { intros lit kind len -> Ha Ho. unfold b_literal. destruct (matchStringAt src (b_I b') lit) eqn:Em; [|done].
  apply matchStringAt_span, span_le in Em; [|lia]. apply Hsc; [apply ok_at; [done|lia]|done|done]. }
  assert (Hopen : forall array : bool, match b_open cap b' (if array then Array else Object) with
    Ok a => ok a.2 /\ opened a | Err _ => True | _ => False end).
  { intros array. unfold b_open. assert (H2 : ok (b_at b' (b_I b' + 1))) by (apply ok_at; [done|lia]).
  pose proof (keeps_add _ (mkEntry (w32 (Z.of_nat (b_I b'))) 0 0 (PackInfo 0 (kind_code (if array then Array else Object)) 0)) H2) as Hk.
  unfold add in *. destruct (length (b_Entries (b_at b' (b_I b' + 1))) =? cap)%nat; cbn [res_bind TapeStack.keeps snd] in *; [done|].
  split; [done|]. intros _. cbn [b_Entries b_Parent]. rewrite length_app. simpl. split_and!; [lia| |].
  - apply (linked_below _ _ (b_sp b')), H.
  - eexists _, array. split; [by apply list_lookup_middle|done]. }
    do 3 (case_step; [by apply Hlit|]).
    destruct (Z.eqb_spec c DQUOTE) as [->|].
    { pose proof (keeps_string b' H E) as Hk. destruct (b_string src b') as [[[end_ escaped] b2]| | |]; cbn [res_bind TapeStack.keeps snd] in *; try done.
    by apply Hsc. }
    case_step; [apply (Hopen true)|]. case_step; [apply (Hopen false)|]. case_step; [done|].
    destruct (scalar_scanner src (b_I b') Hsrc Hlt) as (integer & -> & _).
    pose proof (ref_num_sound src 0 (b_I b') ltac:(lia) Hlt) as Hr. unfold ref_num in Hr.
    destruct (scanNumber src (b_I b')) as [j [|a m]]; cbn [fst snd msg_ok no_error res_bind negb reads] in *; [|done].
    destruct Hr as (_ & t & Ht%span_le & _). apply Hsc; [apply ok_at; [done|lia]|done|done].
Qed.

Lemma keeps_objectKey b : ok b -> keeps id (b_objectKey src cap b).
Proof using Hsrc.
  intros H. apply ok_skip in H. unfold b_objectKey. set (b' := b_skipSpace src b) in *. unfold b_byte at 1.
  destruct (at_byte src (b_I b') DQUOTE) eqn:Hq; cbn [negb]; [|done]. apply at_byte_spec in Hq.
  eapply keeps_bind; [by apply keeps_string|]. intros [[end_ escaped] b2] _ H2. cbn [snd] in H2.
  eapply keeps_bind; [by apply keeps_add|]. intros [entry b3] _ H3. cbn [snd] in H3. apply ok_skip in H3. cbv zeta.
  unfold b_byte. destruct (at_byte src (b_I (b_skipSpace src b3)) ":"%ch) eqn:Hc; cbn [negb]; [|done].
  apply at_byte_lt in Hc. apply ok_at; [done|lia].
Qed.

Lemma keeps_push kind entry b :
  ok b -> opened (kind, entry, b) -> kind = Array \/ kind = Object ->
  match pushContainer b entry with Ok b' => ok b' /\ 0 < b_sp b' | Err _ => True | _ => False end.
Proof using Hcap.
  intros (H1 & H2 & H3) Ho Hk. destruct (Ho Hk) as (Hlen & Hbelow & e & array & He & Hinfo).
  unfold pushContainer, update_entry. rewrite Nat2Z.id, He. cbn [res_bind]. pose proof (linked_sp _ _ _ H1).
  split; [|simpl; lia]. split_and!; cbn [b_Entries b_Parent b_sp b_I]; [|done|by rewrite length_insert].
  unfold w32. rewrite Z.mod_small by (unfold NoTapeParent in Hcap; lia).
  eapply linked_cons; [by apply list_lookup_insert_eq; lia| | |].
  - exists 0, array. split; [done|]. exact Hinfo.
  - exact Hbelow.
  - cbn [set_next Next]. apply linked_insert; [lia|done|done].
Qed.

Lemma linked_head es p sp : linked es p sp -> sp <> 0 ->
  exists k e, p = Z.of_nat k /\ es !! k = Some e /\ open_info e /\ below k (Next e) /\ linked es (Next e) (sp - 1).
Proof using.
  intros H Hsp. destruct H as [|k e sp Hk Ho Hn Hl]; [done|]. exists k, e. by rewrite Z.add_simpl_r.
Qed.

Lemma keeps_finish b : ok b -> b_sp b <> 0 -> keeps id (finishContainer b).
Proof using Hcap.
  intros (H1 & H2 & H3) Hsp. destruct (linked_head _ _ _ H1 Hsp) as (k & e & Hp & He & Ho & Hn & Hl).
  unfold finishContainer. rewrite Hp, Nat2Z.id, He. split_and!; cbn [id b_Entries b_Parent b_sp b_I]; [|done|by rewrite length_insert].
  apply linked_insert; [lia|done|done].
Qed.

Lemma ok_bump b k e :
  ok b -> b_Parent b = Z.of_nat k -> b_Entries b !! k = Some e -> open_info e -> below k (Next e) ->
  linked (b_Entries b) (Next e) (b_sp b - 1) -> entry_Count e <> InfoMaxCount ->
  ok (mkBuilder (b_I b) (<[k := BumpCount e]> (b_Entries b)) (b_Parent b) (b_sp b)).
Proof using Hcap.
  intros (H1 & H2 & H3) Hp He (count & array & Hc & Hi) Hn Hl Hmax. pose proof (lookup_lt_Some _ _ _ He).
  assert (He' : e = mkEntry (Start e) (End_ e) (Next e) (PackInfo count (container_kind array) 0)) by (destruct e; simpl in *; congruence).
  rewrite He' in Hmax. change InfoMaxCount with 67108863 in *. rewrite packed_count in Hmax; [|lia|by destruct array|lia].
  split_and!; cbn [b_Entries b_Parent b_sp b_I]; [|done|by rewrite length_insert].
  rewrite Hp. replace (b_sp b) with (b_sp b - 1 + 1) by lia. rewrite He' at 1.
  rewrite packed_bump; [|lia|by destruct array|lia].
  eapply linked_cons; [by apply list_lookup_insert_eq| |exact Hn|by apply linked_insert; [lia|..]].
  exists (count + 1), array. split; [change InfoMaxCount with 67108863; lia|done].
Qed.

(** One turn keeps the invariant and never panics. *)
Definition turn_keeps (r : index_res (parse_state + list IndexEntry)) : Prop :=
  match r with Ok (inl s) => ok s.2 | Ok (inr _) => True | Err _ => True | _ => False end.

Lemma turn_goto {done_} (r : index_res TapeBuilder) :
  keeps id r -> turn_keeps (let* b := r in Ok (inl (done_, b))).
Proof using. by destruct r. Qed.

Lemma scope_keeps b : ok b -> turn_keeps (parse_scope_turn src cap b).
Proof using Hsrc Hcap.
  intros H. unfold parse_scope_turn. destruct (Z.eqb_spec (b_sp b) 0) as [|Hsp]; [by case_step|].
  destruct (linked_head _ _ _ (proj1 H) Hsp) as (k & e & Hp & He & Ho & Hn & Hl).
  rewrite Hp, Nat2Z.id, He. destruct (Z.eqb_spec (entry_Count e) InfoMaxCount); [done|].
  unfold update_entry. rewrite Nat2Z.id, He. cbn [res_bind]. rewrite <- Hp.
  pose proof (ok_bump b k e H Hp He Ho Hn Hl ltac:(done)) as Hb. apply ok_skip in Hb.
  set (b' := b_skipSpace src _) in *. assert (Hsp' : b_sp b' <> 0) by done.
  at_pos src (b_I b') as c E; [|by case_step]. apply lookup_lt_Some in E.
  assert (Hb' : ok (b_at b' (b_I b' + 1))) by (apply ok_at; [done|lia]).
  assert (Hfin : turn_keeps (let* b := finishContainer (b_at b' (b_I b' + 1)) in Ok (inl (true, b)))).
  { by apply turn_goto, keeps_finish. }
  destruct (entry_Kind e =? kind_code Array); (destruct (c =? ","%ch); [|destruct (c =? _); [apply Hfin|done]]); [exact Hb'|].
  by apply turn_goto, keeps_objectKey.
Qed.

Lemma value_turn_keeps b : ok b -> turn_keeps (parse_value_turn src cap maxDepth b).
Proof using Hsrc Hcap.
  intros H. unfold parse_value_turn. pose proof (value_keeps b H) as Hv.
  destruct (b_value src cap b) as [[[kind entry] b']| | |]; cbn [res_bind snd] in *; [|done..]. destruct Hv as [Hb Ho].
  assert (Hcont : forall array, kind = Array \/ kind = Object -> turn_keeps
    (if maxDepth <=? b_sp b' then i_err src (b_I b' - 1) "maximum nesting depth exceeded"
    else
    let* b := pushContainer b' entry in
    let b := b_skipSpace src b in
    if b_byte src b (close_byte array) then
    let* b := finishContainer (b_at b (b_I b + 1)) in Ok (inl (true, b))
    else if negb array then let* b := b_objectKey src cap b in Ok (inl (false, b)) else Ok (inl (false, b)))).
  { intros array Hk. case_step; [done|]. pose proof (keeps_push kind entry b' Hb Ho Hk) as Hpush.
  destruct (pushContainer b' entry) as [b2| | |]; cbn [res_bind]; [|done..]. destruct Hpush as [Hb2 Hsp].
  apply ok_skip in Hb2. cbv zeta. unfold b_byte. set (b3 := b_skipSpace src b2) in *.
  destruct (at_byte src (b_I b3) (close_byte array)) eqn:E.
  { apply at_byte_lt in E. apply turn_goto, keeps_finish; [apply ok_at; [done|lia]|]. change (b_sp (b_at b3 _)) with (b_sp b2). lia. }
  destruct array; cbn [negb]; [exact Hb2|]. by apply turn_goto, keeps_objectKey. }
  destruct kind; [exact Hb..| |]; [apply (Hcont true)|apply (Hcont false)]; auto.
Qed.

Lemma step_keeps s : ok s.2 -> turn_keeps (parse_step src cap maxDepth s).
Proof using Hsrc Hcap.
  intros H. unfold parse_step. destruct s as [[|] b]; cbn [fst snd negb] in *; [by apply scope_keeps|by apply value_turn_keeps].
Qed.

(** The states [parse] goes through. *)
Inductive parse_reaches : parse_state -> Prop :=
  | reaches_start : parse_reaches (false, b_skipSpace src (mkBuilder 0 [] NoTapeParent 0))
  | reaches_turn s s' : parse_reaches s -> parse_step src cap maxDepth s = Ok (inl s') -> parse_reaches s'.

(** A turn that stops the parser reaches nothing new. *)
Lemma reaches_next s :
  parse_reaches s -> parse_reaches (match parse_step src cap maxDepth s with Ok (inl s') => s' | _ => s end).
Proof using. intros H. destruct (parse_step src cap maxDepth s) as [[s'|]| | |] eqn:E; try done. by apply (reaches_turn s). Qed.

Lemma reached_ok s : parse_reaches s -> ok s.2.
Proof using Hsrc Hcap.
  induction 1 as [|s s' _ IH Hs].
  - apply ok_skip. split_and!; cbn [b_Entries b_Parent b_sp b_I length]; [constructor|lia|lia].
  - pose proof (step_keeps s IH) as Hk. by rewrite Hs in Hk.
Qed.
End Invariant.

(** ** Properties *)

(** C20: in every state the diagnostic parser reaches, on any input and any storage, the parent word leads through the [Next] words of exactly as many open headers as the depth counter says, each before the last, to the empty mark; the cursor and the entries are in range, and the next turn never indexes out of range. *)
Theorem parse_stack_linked src cap maxDepth s :
  bytes_ok src -> Z.of_nat cap <= NoTapeParent -> parse_reaches src cap maxDepth s ->
  stack_ok src cap s.2 /\ parse_step src cap maxDepth s <> Panic.
Proof.
  intros Hok Hcap Hr. pose proof (reached_ok src cap maxDepth Hok Hcap s Hr) as H. split; [done|].
  pose proof (step_keeps src cap maxDepth Hok Hcap s H) as Hk. by destruct (parse_step src cap maxDepth s).
Qed.

Lemma parse_stack_linked_witness :
  let src := js "[{'a':[" in
  let turn s := match parse_step src 10 5 s with Ok (inl s') => s' | _ => s end in
  let s := turn (turn (turn (false, b_skipSpace src (mkBuilder 0 [] NoTapeParent 0)))) in
  b_sp s.2 = 3 /\ stack_ok src 10 s.2 /\ parse_step src 10 5 s <> Panic.
Proof.
  cbv zeta. split; [vm_compute; reflexivity|]. apply parse_stack_linked; [concrete_bytes|vm_compute; done|].
  do 3 apply reaches_next. apply reaches_start.
Defined.
