(* ===== verification/Node.v ===== *)
(** Nodes ([node.go], [key.go]): cursors over the tape of an index.  A node is a
    document and the number of one of its entries; every entry pointer the code
    forms, every entry it reads and every source range it takes is checked, so a
    result is also a proof that nothing outside the tape or the source was
    touched.  A node [stands] for a tree when the tape has that tree's entries
    there. *)

From S2P Require Import Prelude Words Utf8 Scanner Lex Grammar StringRef Errors Numbers Reader Validator FastValid Layout Compact Decode KeyHash Pointer Raw Tape TapeMachine TapeWalk TapeHash TapeParse.

(** ** Cursors *)

(** An entry pointer: the document and the entry's number. *)
Record cursor : Type := mkCursor { nd_doc : Index; nd_at : nat }.

(** [Node]: the zero node is [None].  Calls that return [(Node, bool)] return a
    node, [(Node{}, false)] being [None]. *)
Definition Node : Type := option cursor.

Abbreviation source_of c := (ix_Src (nd_doc c)).
Abbreviation tape_of c := (ix_Entries (nd_doc c)).

Definition the_entry (c : cursor) : res unit IndexEntry :=
  match tape_of c !! nd_at c with Some e => Ok e | None => Panic end.

(** [EntryAt]: the pointer must stay on the tape. *)
Definition EntryAt (c : cursor) (offset : Z) : res unit cursor :=
  let k := (nd_at c + Z.to_nat offset)%nat in
  if (k <? length (tape_of c))%nat then Ok (mkCursor (nd_doc c) k) else Panic.

(** [byteview.SliceRange] and [byteview.ByteAt]. *)
Definition SliceRange (src : bytes) (start end_ : Z) : res unit bytes :=
  if (start <=? end_) && (end_ <=? Z.of_nat (length src)) then Ok (slice src (Z.to_nat start) (Z.to_nat end_)) else Panic.
Definition ByteAt (src : bytes) (index : Z) : res unit Z := idx src (Z.to_nat index).

Definition NodeFromEntries (src : bytes) (entries : list IndexEntry) : Node :=
  if (length src =? 0)%nat || (length entries =? 0)%nat then None else Some (mkCursor (mkIndex src entries) 0).

Definition Root (t : Index) : Node := NodeFromEntries (ix_Src t) (ix_Entries t).

(** ** Accessors *)

Definition n_Kind (v : Node) : res unit Z :=
  match v with None => Ok (kind_code Invalid) | Some c => let* e := the_entry c in Ok (entry_Kind e) end.

(** [if v.Kind() != k { return zero, false }], then the rest. *)
Definition when_kind {A} (v : Node) (k : Kind) (f : cursor -> IndexEntry -> res unit (option A)) : res unit (option A) :=
  match v with
  | None => Ok None
  | Some c => let* e := the_entry c in if entry_Kind e =? kind_code k then f c e else Ok None
  end.

(** The zero [RawValue] is empty. *)
Definition n_Raw (v : Node) : res unit bytes :=
  match v with None => Ok [] | Some c => let* e := the_entry c in SliceRange (source_of c) (Start e) (End_ e) end.

Definition n_IsNull (v : Node) : res unit bool := let* k := n_Kind v in Ok (k =? kind_code Null).

Definition n_Bool (v : Node) : res unit (option bool) :=
  when_kind v Bool (fun c e => let* b := ByteAt (source_of c) (Start e) in Ok (Some (b =? "t"%ch))).

Definition n_NumberBytes (v : Node) : res unit (option bytes) :=
  when_kind v Number (fun c e => let* b := SliceRange (source_of c) (Start e) (End_ e) in Ok (Some b)).

Definition n_IsInteger (v : Node) : res unit bool :=
  match v with None => Ok false | Some c => let* e := the_entry c in Ok (has_flag e TapeFlagInt) end.

Definition n_StringBytes (v : Node) : res unit (option bytes) :=
  when_kind v String (fun c e =>
    if has_flag e TapeFlagEscaped then Ok None
    else let* b := SliceRange (source_of c) (w32 (Start e + 1)) (w32 (End_ e - 1)) in Ok (Some b)).

(** The destination and whether [v] is a string. *)
Definition n_AppendText (v : Node) (dst : bytes) : res unit (bytes * bool) :=
  let* r := when_kind v String (fun c e =>
    let* raw := SliceRange (source_of c) (w32 (Start e + 1)) (w32 (End_ e - 1)) in
    if negb (has_flag e TapeFlagEscaped) then Ok (Some (dst ++ raw))
    else let* out := appendDecodedJSONStringTrusted dst raw in Ok (Some out)) in
  match r with Some out => Ok (out, true) | None => Ok (dst, false) end.

Definition n_ArrayLen (v : Node) : res unit (option Z) := when_kind v Array (fun _ e => Ok (Some (entry_Count e))).
Definition n_ObjectLen (v : Node) : res unit (option Z) := when_kind v Object (fun _ e => Ok (Some (entry_Count e))).

(** ** Elements *)

Fixpoint index_loop (n : nat) (entry : cursor) : res unit cursor :=
  match n with
  | O => Ok entry
  | S n =>
      let* e := the_entry entry in
      let* entry := EntryAt entry (Next e) in index_loop n entry
  end.

Definition n_Index (v : Node) (index : Z) : res unit Node :=
  let* count := n_ArrayLen v in
  match v, count with
  | Some c, Some count =>
      if (index <? 0) || (count <=? index) then Ok None
      else
        let* e := the_entry c in
        if Next e =? w32 (w32 count + 1) then
          let* entry := EntryAt c (index + 1) in Ok (Some entry)
        else
          let* entry := EntryAt c 1 in
          let* entry := index_loop (Z.to_nat index) entry in Ok (Some entry)
  | _, _ => Ok None
  end.

(** ** Members *)

(** The prefilter of an unhashed lookup, and of a hashed one. *)
Definition plain_candidate (rawLen : Z) (e : IndexEntry) : bool :=
  has_flag e TapeFlagEscaped || (w32 (End_ e - Start e) =? rawLen).
Definition hash_candidate (queryHash : Z) (e : IndexEntry) : bool :=
  has_flag e TapeFlagEscaped || (Next e =? queryHash).

Section Lookup.
Context (key : bytes) (candidate : IndexEntry -> bool).

(** A candidate key is compared byte by byte. *)
Definition key_matches (c : cursor) : res unit bool :=
  let* e := the_entry c in
  if negb (candidate e) then Ok false
  else
  let* raw := SliceRange (source_of c) (Start e) (End_ e) in
  tapeKeyEqual raw (entry_Flags e) key.

(** Flat members, backward: [n] members from [lo] up, the last one first. *)
Fixpoint flat_loop (header : cursor) (lo n : nat) : res unit Node :=
  match n with
  | O => Ok None
  | S n =>
    let* keyEntry := EntryAt header (2 * Z.of_nat (lo + n) + 1) in
    let* hit := key_matches keyEntry in
    if (hit : bool) then let* value := EntryAt keyEntry 1 in Ok (Some value)
    else flat_loop header lo n
  end.

(** Linked members, forward: the last match wins. *)
Fixpoint linked_loop (remaining : nat) (keyEntry : cursor) (found : Node) : res unit Node :=
  match remaining with
  | O => Ok found
  | S remaining =>
    let* valueEntry := EntryAt keyEntry 1 in
    let* hit := key_matches keyEntry in
    let found := if (hit : bool) then Some valueEntry else found in
    if (remaining =? 0)%nat then Ok found
    else
    let* v := the_entry valueEntry in
    let* keyEntry := EntryAt valueEntry (Next v) in
    linked_loop remaining keyEntry found
  end.
End Lookup.

(** [2*uint32(count)+1] *)
Definition flat_next (count : Z) : Z := w32 (2 * w32 count + 1).

Definition getPlain (c : cursor) (key : bytes) (count : Z) : res unit Node :=
  let rawLen := w32 (w32 (Z.of_nat (length key)) + 2) in
  let candidate := plain_candidate rawLen in
  let* e := the_entry c in
  if Next e =? flat_next count then flat_loop key candidate c 0 (Z.to_nat count)
  else
    let* keyEntry := EntryAt c 1 in
    linked_loop key candidate (Z.to_nat count) keyEntry None.

(** [tapeVerifyFlatRange] (index_tapescan.go). *)
Definition tapeVerifyFlatRange (header : cursor) (hi lo : Z) (key : bytes) (queryHash : Z) : res unit Node :=
  flat_loop key (hash_candidate queryHash) header (Z.to_nat lo) (Z.to_nat (hi - lo + 1)).

(** [tapeScanFlatHash]: four members per turn, from the last. *)
Fixpoint scan_flat_loop (fuel : nat) (header : cursor) (m : Z) (key : bytes) (queryHash : Z) : res unit Node :=
  match fuel with
  | O => NoFuel
  | S fuel =>
      if 4 <=? m then
        let* k3 := EntryAt header (2 * m - 1) in
        let* k2 := EntryAt header (2 * m - 3) in
        let* k1 := EntryAt header (2 * m - 5) in
        let* k0 := EntryAt header (2 * m - 7) in
        let* e3 := the_entry k3 in
        let* e2 := the_entry k2 in
        let* e1 := the_entry k1 in
        let* e0 := the_entry k0 in
        let escapedInfo := w32 (Z.shiftl TapeFlagEscaped InfoFlagsShift) in
        let* value :=
          if (Next e3 =? queryHash) || (Next e2 =? queryHash) || (Next e1 =? queryHash) || (Next e0 =? queryHash) ||
             negb (Z.land (Z.lor (Z.lor (Z.lor (Info e3) (Info e2)) (Info e1)) (Info e0)) escapedInfo =? 0) then
            tapeVerifyFlatRange header (m - 1) (m - 4) key queryHash
          else Ok None in
        match value with
        | Some value => Ok (Some value)
        | None => scan_flat_loop fuel header (m - 4) key queryHash
        end
      else if 0 <? m then tapeVerifyFlatRange header (m - 1) 0 key queryHash
      else Ok None
  end.

Definition tapeScanFlatHash (header : cursor) (count : Z) (key : bytes) (queryHash : Z) : res unit Node :=
  scan_flat_loop (S (Z.to_nat count)) header count key queryHash.

Definition getHashedQuery (c : cursor) (key : bytes) (queryHash count : Z) : res unit Node :=
  let* e := the_entry c in
  if Next e =? flat_next count then tapeScanFlatHash c count key queryHash
  else
    let* keyEntry := EntryAt c 1 in
    linked_loop key (hash_candidate queryHash) (Z.to_nat count) keyEntry None.

(** [HashKey] reads only the key. *)
Definition hash_key (key : bytes) : res unit Z := match HashKey key with Some h => Ok h | None => Panic end.

(** [CompiledKey] and [CompileKey] (key.go). *)
Record CompiledKey : Type := mkKey { ck_Key : bytes; ck_Hash : Z }.
Definition CompileKey (key : bytes) : res unit CompiledKey := let* h := hash_key key in Ok (mkKey key h).

Definition n_Get (v : Node) (key : bytes) : res unit Node :=
  let* count := n_ObjectLen v in
  match v, count with
  | Some c, Some count =>
      if count =? 0 then Ok None
      else
        let* e := the_entry c in
        if KeysHashed e then let* h := hash_key key in getHashedQuery c key h count
        else getPlain c key count
  | _, _ => Ok None
  end.

Definition n_GetCompiled (v : Node) (k : CompiledKey) : res unit Node :=
  let* count := n_ObjectLen v in
  match v, count with
  | Some c, Some count =>
      if count =? 0 then Ok None
      else
        let* e := the_entry c in
        if KeysHashed e then getHashedQuery c (ck_Key k) (ck_Hash k) count
        else getPlain c (ck_Key k) count
  | _, _ => Ok None
  end.

(** ** What an entry says of its tree *)

(** A string token, a value or a member name: its range and its escape flag. *)
Definition string_entry (src : bytes) (raw dec : bytes) (e : IndexEntry) : Prop :=
  exists i j, Start e = Z.of_nat i /\ End_ e = Z.of_nat j /\ span src i raw j /\ jstring raw dec /\
    entry_Kind e = kind_code String /\ has_flag e TapeFlagEscaped = has_bs raw.

Record node_entry (h : bool) (src : bytes) (t : tree) (e : IndexEntry) : Prop := {
  ne_kind : entry_Kind e = kind_code (kind_of t);
  ne_next : Next e = Z.of_nat (tape_size t);
  ne_raw : exists i j, Start e = Z.of_nat i /\ End_ e = Z.of_nat j /\ span src i (raw_of t) j;
  ne_count : match t with
             | TArr _ ts => entry_Count e = Z.of_nat (length ts)
             | TObj _ ms => entry_Count e = Z.of_nat (length ms) /\ KeysHashed e = h
             | _ => True
             end;
  ne_int : has_flag e TapeFlagInt = match t with TNum raw => plain_integer raw | _ => false end;
  ne_string : match t with TStr raw dec => string_entry src raw dec e | _ => True end
  }.

(** A member name also has its hash, on an enriched tape. *)
Record name_entry (h : bool) (src : bytes) (raw dec : bytes) (e : IndexEntry) : Prop := {
  nm_string : string_entry src raw dec e;
  nm_next : Next e = if h then hash_ref (inner raw) else 1
  }.

Lemma SliceRange_span src i s j : span src i s j -> SliceRange src (Z.of_nat i) (Z.of_nat j) = Ok s.
Proof.
  intros Hs. apply span_le in Hs as Hle. unfold SliceRange. rewrite if_true by lia. rewrite !Nat2Z.id. f_equal.
  by apply span_slice.
Qed.

Lemma string_entry_of src i j raw dec next flags :
  span src i raw j -> jstring raw dec -> 0 <= flags < 8 -> Z.land flags TapeFlagEscaped = (if has_bs raw then 1 else 0) ->
  string_entry src raw dec (mkEntry (Z.of_nat i) (Z.of_nat j) next (PackInfo 0 (kind_code String) flags)).
Proof.
  intros Hs Hj Hf Hfl. exists i, j. split_and!; try done.
  - apply packed_kind; (done || lia).
  - unfold has_flag. rewrite packed_flags by (done || lia). rewrite Hfl. by destruct (has_bs raw).
Qed.

Lemma scalar_node_entry h src i j t :
  span src i (raw_of t) j -> jvalue 0 (raw_of t) t -> node_entry h src t (scalar_entry i j t).
Proof.
  intros Hs Hv. apply scalar_kind in Hv as Hk. destruct Hk as [Hk1 Hk2].
  assert (Hf : 0 <= scalar_flags t < 8) by (destruct (scalar_flags_range t Hk1 Hk2) as [->|[->| ->]]; lia).
  split.
  - by apply scalar_entry_kind.
  - by rewrite scalar_size.
  - by exists i, j.
  - by destruct t.
  - unfold has_flag. rewrite scalar_entry_flags by done. destruct t; try done; cbn [scalar_flags]; by case_step.
  - destruct t as [| | |raw dec| |]; try done. apply string_entry_of; [done| |done|cbn [scalar_flags]; by case_step].
    by inversion Hv.
Qed.

Lemma header_node_entry (h array : bool) i j size count :
  count_ok count ->
  let e := header h array i j size count in
  entry_Kind e = container_kind array /\ entry_Count e = Z.of_nat count /\ KeysHashed e = h && negb array /\
  has_flag e TapeFlagInt = false /\ Next e = 1 + Z.of_nat size.
Proof.
  intros Hc e. subst e. unfold KeysHashed, has_flag. rewrite header_kind, header_count, header_flags by done.
  split_and!; try done; by destruct h, array.
Qed.

Lemma value_head src h i j t es :
  tape_value src h i j t es -> exists e es', es = e :: es' /\ node_entry h src t e.
Proof.
  intros Ht. pose proof (tape_value_extent _ _ _ _ _ _ Ht) as [Hl _].
  destruct Ht as [i j t Hs Hv|i j raw ts es Hs Hes Hc|i j raw ms es Hs Hms Hc].
  - eexists _, _. split; [done|by apply scalar_node_entry].
  - eexists _, _. split; [done|]. destruct (header_node_entry h true i (S j) (length es) (length ts) Hc) as (H1 & H2 & H3 & H4 & H5).
    apply tape_elems_extent in Hes as [Hn _]. split; [exact H1|rewrite H5, Hn; cbn [tape_size]; unfold elems_size; lia|by exists i, (S j)|exact H2|exact H4|done].
  - eexists _, _. split; [done|]. destruct (header_node_entry h false i (S j) (length es) (length ms) Hc) as (H1 & H2 & H3 & H4 & H5).
    apply tape_members_extent in Hms as [Hn _]. rewrite andb_true_r in H3.
    split; [exact H1|rewrite H5, Hn; cbn [tape_size]; unfold members_size; lia|by exists i, (S j)|split; [exact H2|exact H3]|exact H4|done].
Qed.

Lemma key_name_entry h src i j raw dec :
  span src i raw j -> jstring raw dec -> name_entry h src raw dec (key_entry h i j raw).
Proof.
  intros Hs Hj. split; [|done]. apply string_entry_of; [done..| |]; [apply key_flags_range|].
  unfold key_flags. by case_step.
Qed.

(** ** Parts of a tape *)

Lemma tape_elems_nth src h lo hi ts es k t :
  tape_elems src h lo hi ts es -> ts !! k = Some t ->
  exists i j es1 es2 es3, es = es1 ++ es2 ++ es3 /\ length es1 = elems_size (take k ts) /\ tape_value src h i j t es2.
Proof.
  intros H. revert k. induction H as [lo hi Hle|lo i j hi t' ts es1 es2 Hle Hv Hts IH]; intros k Hk; [done|].
  destruct k as [|k]; cbn [lookup list_lookup] in Hk.
  - injection Hk as ->. exists i, j, [], es1, es2. by split_and!.
  - destruct (IH k Hk) as (i' & j' & e1 & e2 & e3 & -> & Hl & Ht). exists i', j', (es1 ++ e1), e2, e3.
    split_and!; [by rewrite !app_assoc| |done]. apply tape_value_extent in Hv as [Hl1 _].
    rewrite length_app, Hl1, Hl. done.
Qed.

Lemma tape_members_nth src h lo hi ms es k key name t :
  tape_members src h lo hi ms es -> ms !! k = Some ((key, name), t) ->
  exists p q i j es1 es2 es3, es = es1 ++ (key_entry h p q key :: es2) ++ es3 /\ length es1 = members_size (take k ms) /\
    span src p key q /\ jstring key name /\ tape_value src h i j t es2.
Proof.
  intros H. revert k. induction H as [lo hi Hle|lo p q i j hi key' name' t' ms es1 es2 Hle Hk' Hj Hq Hv Hms IH]; intros k Hk; [done|].
  destruct k as [|k]; cbn [lookup list_lookup] in Hk.
  - injection Hk as -> -> ->. exists p, q, i, j, [], es1, es2. by split_and!.
  - destruct (IH k Hk) as (p' & q' & i' & j' & e1 & e2 & e3 & -> & Hl & Hrest).
    exists p', q', i', j', (key_entry h p q key' :: es1 ++ e1), e2, e3.
    split_and!; [by rewrite <- !app_comm_cons, <- !app_assoc| |apply Hrest..]. apply tape_value_extent in Hv as [Hl1 _].
    cbn [length]. rewrite length_app, Hl1, Hl. done.
Qed.

(** ** A node that stands for a tree *)

Definition doc_ok (d : Index) : Prop := bytes_ok (ix_Src d) /\ Z.of_nat (length (ix_Src d)) <= InfoMaxCount.

Definition stands (h : bool) (c : cursor) (t : tree) : Prop :=
  doc_ok (nd_doc c) /\
  exists i j es, tape_value (source_of c) h i j t es /\ span (tape_of c) (nd_at c) es (nd_at c + length es).

(** The cursors of the parts of a container at [c]. *)
Definition elem_cursor (c : cursor) (ts : list tree) (k : nat) : cursor :=
  mkCursor (nd_doc c) (nd_at c + 1 + elems_size (take k ts)).
Definition key_cursor (c : cursor) (ms : list ((bytes * bytes) * tree)) (k : nat) : cursor :=
  mkCursor (nd_doc c) (nd_at c + 1 + members_size (take k ms)).
Definition value_cursor (c : cursor) (ms : list ((bytes * bytes) * tree)) (k : nat) : cursor :=
  mkCursor (nd_doc c) (nd_at c + 2 + members_size (take k ms)).

Lemma span_part {A} (l : list A) i s1 s2 s3 j :
  span l i (s1 ++ s2 ++ s3) j -> span l (i + length s1) s2 (i + length s1 + length s2).
Proof. intros [_ H]%span_split. by apply span_split in H as [H _]. Qed.

Lemma span_first {A} (l : list A) i a s j : span l i (a :: s) j -> l !! i = Some a.
Proof. by intros [H _]%span_cons. Qed.

Lemma take_S_size ts k t : ts !! k = Some t -> elems_size (take (S k) ts) = (elems_size (take k ts) + tape_size t)%nat.
Proof.
  intros Hk. rewrite (take_S_r _ _ _ Hk), elems_size_app. unfold elems_size. simpl. lia.
Qed.
Lemma take_S_members ms k m : ms !! k = Some m -> members_size (take (S k) ms) = (members_size (take k ms) + S (tape_size m.2))%nat.
Proof.
  intros Hk. rewrite (take_S_r _ _ _ Hk), members_size_app. unfold members_size. simpl. lia.
Qed.

Lemma members_take_lt ms k k' : (k < k' <= length ms)%nat -> (members_size (take k ms) < members_size (take k' ms))%nat.
Proof.
  intros H. replace k' with (k + (k' - k))%nat by lia. rewrite <- (take_take_drop ms k (k' - k)), members_size_app.
  assert (0 < members_size (take (k' - k) (drop k ms)))%nat; [|lia].
  destruct (take (k' - k) (drop k ms)) as [|m l] eqn:E; [|unfold members_size; simpl; lia].
  apply (f_equal length) in E. rewrite length_take, length_drop in E. simpl in E. lia.
Qed.

Lemma members_take_inj ms k k' :
  (k < length ms)%nat -> (k' < length ms)%nat -> members_size (take k ms) = members_size (take k' ms) -> k = k'.
Proof.
  intros Hk Hk' E. destruct (Nat.lt_trichotomy k k') as [H|[H|H]]; [|done|].
  - pose proof (members_take_lt ms k k' ltac:(lia)). lia.
  - pose proof (members_take_lt ms k' k ltac:(lia)). lia.
Qed.

(** Stepping to a place that has an entry. *)
Lemma EntryAt_to c offset c' e :
  nd_doc c' = nd_doc c -> nd_at c' = (nd_at c + Z.to_nat offset)%nat -> the_entry c' = Ok e -> EntryAt c offset = Ok c'.
Proof.
  intros Hd Ha He. unfold EntryAt, the_entry in *. destruct c' as [d k]. cbn [nd_doc nd_at] in *. subst d k.
  destruct (tape_of c !! _) eqn:E; [|done]. apply lookup_lt_Some, Nat.ltb_lt in E. by rewrite E.
Qed.

Section Stands.
Context (h : bool).

Lemma stands_entry c t :
  stands h c t -> exists e, the_entry c = Ok e /\ node_entry h (source_of c) t e.
Proof using.
  intros (_ & i & j & es & Ht & Hs). apply value_head in Ht as (e & es' & -> & He). exists e. split; [|done].
  unfold the_entry. by rewrite (span_first _ _ _ _ _ Hs).
Qed.

Lemma stands_elem c raw ts k t :
  stands h c (TArr raw ts) -> ts !! k = Some t -> stands h (elem_cursor c ts k) t.
Proof using.
  intros (Hd & i & j & es & Ht & Hs) Hk. split; [done|]. inversion Ht as [? ? ? _ Hv|? ? ? ? es' Hr Hes Hc|]; subst; [by inversion Hv; lia|].
  destruct (tape_elems_nth _ _ _ _ _ _ _ _ Hes Hk) as (i' & j' & e1 & e2 & e3 & -> & Hl & Hv). exists i', j', e2. split; [done|].
  cbn [elem_cursor nd_doc nd_at]. rewrite <- Hl. apply span_cons in Hs as [_ Hs]. apply span_part in Hs.
  by replace (nd_at c + 1)%nat with (S (nd_at c)) by lia.
Qed.

Lemma stands_member c raw ms k key name t :
  stands h c (TObj raw ms) -> ms !! k = Some ((key, name), t) ->
  (exists e, the_entry (key_cursor c ms k) = Ok e /\ name_entry h (source_of c) key name e) /\
  stands h (value_cursor c ms k) t.
Proof using.
  intros (Hd & i & j & es & Ht & Hs) Hk. inversion Ht as [? ? ? _ Hv| |? ? ? ? es' Hr Hms Hc]; subst; [by inversion Hv; lia|].
  destruct (tape_members_nth _ _ _ _ _ _ _ _ _ _ Hms Hk) as (p & q & i' & j' & e1 & e2 & e3 & -> & Hl & Hp & Hj & Hv).
  apply span_cons in Hs as [_ Hs]. apply span_part in Hs. cbn [length] in Hs. split.
  - eexists. split; [|by apply key_name_entry]. unfold the_entry. cbn [key_cursor nd_doc nd_at]. rewrite <- Hl.
    replace (nd_at c + 1)%nat with (S (nd_at c)) by lia. by rewrite (span_first _ _ _ _ _ Hs).
  - split; [done|]. exists i', j', e2. split; [done|]. cbn [value_cursor nd_doc nd_at]. rewrite <- Hl.
    apply span_cons in Hs as [_ Hs]. replace (nd_at c + 2 + length e1)%nat with (S (S (nd_at c) + length e1)) by lia.
    by replace (S (S (nd_at c) + length e1) + length e2)%nat with (S (nd_at c) + length e1 + S (length e2))%nat by lia.
Qed.

(** A container's size and count fit the words that hold them. *)
Lemma stands_bounds c t :
  stands h c t -> Z.of_nat (tape_size t) <= InfoMaxCount /\
  match t with
  | TArr _ ts => (length ts < tape_size t)%nat
  | TObj _ ms => (2 * length ms < tape_size t)%nat
  | _ => True
  end.
Proof using.
  intros ([_ Hb] & i & j & es & Ht & _). apply tape_value_extent in Ht as Hx. destruct Hx as [Hl Hx]. split; [lia|].
  inversion Ht as [? ? ? _ Hv|? ? ? ? es' _ Hes _|? ? ? ? es' _ Hms _]; subst; [inversion Hv; (done || lia)|..]; cbn [length] in Hl.
  - apply tape_elems_extent in Hes as [_ ?]. lia.
  - apply tape_members_extent in Hms as [_ ?]. lia.
Qed.

(** ** Steps between parts *)

Lemma elem_first c raw ts t ts' :
  stands h c (TArr raw ts) -> ts = t :: ts' -> EntryAt c 1 = Ok (elem_cursor c ts 0).
Proof using.
  intros Hc ->. destruct (stands_entry _ _ (stands_elem c raw _ 0 t Hc eq_refl)) as (e & He & _).
  eapply EntryAt_to; [done| |exact He]. cbn [elem_cursor nd_at]. change (elems_size (take 0 _)) with 0%nat. lia.
Qed.

Lemma elem_next c raw ts k t t' :
  stands h c (TArr raw ts) -> ts !! k = Some t -> ts !! (S k) = Some t' ->
  exists e, the_entry (elem_cursor c ts k) = Ok e /\ EntryAt (elem_cursor c ts k) (Next e) = Ok (elem_cursor c ts (S k)).
Proof using.
  intros Hc Hk Hk'. destruct (stands_entry _ _ (stands_elem c raw ts k t Hc Hk)) as (e & He & Hn).
  destruct (stands_entry _ _ (stands_elem c raw ts (S k) t' Hc Hk')) as (e' & He' & _). exists e. split; [done|].
  eapply EntryAt_to; [done| |exact He']. cbn [elem_cursor nd_at]. rewrite (ne_next _ _ _ _ Hn), (take_S_size _ _ _ Hk). lia.
Qed.

Lemma key_first c raw ms m ms' :
  stands h c (TObj raw ms) -> ms = m :: ms' -> EntryAt c 1 = Ok (key_cursor c ms 0).
Proof using.
  intros Hc ->. destruct m as [[key name] t]. destruct (stands_member c raw _ 0 key name t Hc eq_refl) as [(e & He & _) _].
  eapply EntryAt_to; [done| |exact He]. cbn [key_cursor nd_at]. change (members_size (take 0 _)) with 0%nat. lia.
Qed.

Lemma key_value c raw ms k m :
  stands h c (TObj raw ms) -> ms !! k = Some m -> EntryAt (key_cursor c ms k) 1 = Ok (value_cursor c ms k).
Proof using.
  intros Hc Hk. destruct m as [[key name] t]. destruct (stands_member c raw _ k key name t Hc Hk) as [_ Hv].
  destruct (stands_entry _ _ Hv) as (e & He & _). eapply EntryAt_to; [done| |exact He]. cbn [key_cursor value_cursor nd_at]. lia.
Qed.

Lemma value_next c raw ms k m m' :
  stands h c (TObj raw ms) -> ms !! k = Some m -> ms !! (S k) = Some m' ->
  exists e, the_entry (value_cursor c ms k) = Ok e /\ EntryAt (value_cursor c ms k) (Next e) = Ok (key_cursor c ms (S k)).
Proof using.
  intros Hc Hk Hk'. destruct m as [[key name] t], m' as [[key' name'] t'].
  destruct (stands_member c raw _ k key name t Hc Hk) as [_ Hv]. destruct (stands_entry _ _ Hv) as (e & He & Hn).
  destruct (stands_member c raw _ (S k) key' name' t' Hc Hk') as [(e' & He' & _) _]. exists e. split; [done|].
  eapply EntryAt_to; [done| |exact He']. cbn [key_cursor value_cursor nd_at].
  rewrite (ne_next _ _ _ _ Hn), (take_S_members _ _ _ Hk). cbn [snd]. lia.
Qed.
End Stands.

(** ** Accessors *)

Lemma kind_code_inj k k' : kind_code k = kind_code k' -> k = k'.
Proof. by destruct k, k'. Qed.

Lemma when_kind_ref {A} c e k k' (f : cursor -> IndexEntry -> res unit (option A)) :
  the_entry c = Ok e -> entry_Kind e = kind_code k' ->
  when_kind (Some c) k f = if kind_code k' =? kind_code k then f c e else Ok None.
Proof. intros He Hk. unfold when_kind. rewrite He. cbn [res_bind]. by rewrite Hk. Qed.

Lemma inner_range src i j raw dec :
  Z.of_nat (length src) <= InfoMaxCount -> span src i raw j -> jstring raw dec ->
  SliceRange src (w32 (Z.of_nat i + 1)) (w32 (Z.of_nat j - 1)) = Ok (inner raw).
Proof.
  change InfoMaxCount with 67108863. intros Hb Hs Hj. destruct (inner_slice src i j raw dec Hs Hj) as [Hij ->].
  apply span_le in Hs. unfold w32. rewrite !Z.mod_small by lia. unfold SliceRange. rewrite if_true by lia.
  do 2 f_equal; lia.
Qed.

Lemma inner_clean raw dec : jstring raw dec -> has_bs raw = false -> inner raw = dec.
Proof.
  intros Hj Hb. assert (Hi : has_bs (inner raw) = false).
  { destruct Hj as [s d _]. rewrite inner_token. simpl in Hb. rewrite has_bs_app in Hb. by apply orb_false_iff in Hb as [? _]. }
  apply jstring_inner in Hj. rewrite (unescape_clean _ Hi) in Hj. congruence.
Qed.

Lemma string_flags src raw dec e : string_entry src raw dec e -> flag_ok raw (entry_Flags e).
Proof.
  intros (i & j & _ & _ & _ & Hj & _ & Hf) Hz. unfold has_flag in Hf. rewrite Hz in Hf. change (has_bs (inner raw) = false).
  destruct Hj as [s d _]. rewrite inner_token. simpl in Hf. rewrite has_bs_app in Hf. symmetry in Hf. by apply orb_false_iff in Hf as [? _].
Qed.

(** A string, be it a value or a member name. *)
Lemma string_node c e raw dec :
  doc_ok (nd_doc c) -> the_entry c = Ok e -> string_entry (source_of c) raw dec e ->
  n_Raw (Some c) = Ok raw /\ n_StringBytes (Some c) = Ok (if has_bs raw then None else Some dec) /\
  forall dst, n_AppendText (Some c) dst = Ok (dst ++ dec, true).
Proof.
  intros [_ Hb] He (i & j & Hi & Hj & Hs & Hjs & Hk & Hf). split_and!.
  - unfold n_Raw. rewrite He. cbn [res_bind]. by rewrite Hi, Hj, (SliceRange_span _ _ _ _ Hs).
  - unfold n_StringBytes. rewrite (when_kind_ref _ _ _ _ _ He Hk), Z.eqb_refl, Hf, Hi, Hj.
    destruct (has_bs raw) eqn:Hbs; [done|]. rewrite (inner_range _ _ _ _ _ Hb Hs Hjs). cbn [res_bind].
    by rewrite (inner_clean _ _ Hjs Hbs).
  - intros dst. unfold n_AppendText. rewrite (when_kind_ref _ _ _ _ _ He Hk), Z.eqb_refl, Hf, Hi, Hj.
    rewrite (inner_range _ _ _ _ _ Hb Hs Hjs). cbn [res_bind]. destruct (has_bs raw) eqn:Hbs; cbn [negb].
    + by rewrite (appendDecodedJSONStringTrusted_ref _ _ _ (jstring_inner _ _ Hjs)).
    + by rewrite (inner_clean _ _ Hjs Hbs).
Qed.

(** The accessors of a node that stands for [t]. *)
Definition tree_bool (t : tree) : option bool := match t with TBool b => Some b | _ => None end.
Definition tree_number (t : tree) : option bytes := match t with TNum raw => Some raw | _ => None end.
Definition tree_len (array : bool) (t : tree) : option Z :=
  match t with
  | TArr _ ts => if array then Some (Z.of_nat (length ts)) else None
  | TObj _ ms => if array then None else Some (Z.of_nat (length ms))
  | _ => None
  end.

Section Accessors.
Context (h : bool) (c : cursor) (t : tree).
Hypothesis Hc : stands h c t.

Lemma node_kind : n_Kind (Some c) = Ok (kind_code (kind_of t)).
Proof using Hc. destruct (stands_entry _ _ _ Hc) as (e & He & Hn). unfold n_Kind. rewrite He. cbn [res_bind]. by rewrite (ne_kind _ _ _ _ Hn). Qed.

Lemma node_raw : n_Raw (Some c) = Ok (raw_of t).
Proof using Hc.
  destruct (stands_entry _ _ _ Hc) as (e & He & Hn). unfold n_Raw. rewrite He. cbn [res_bind].
  destruct (ne_raw _ _ _ _ Hn) as (i & j & -> & -> & Hs). by apply SliceRange_span.
Qed.

Lemma node_bool : n_Bool (Some c) = Ok (tree_bool t).
Proof using Hc.
  destruct (stands_entry _ _ _ Hc) as (e & He & Hn). unfold n_Bool. rewrite (when_kind_ref _ _ _ _ _ He (ne_kind _ _ _ _ Hn)).
  destruct t; try done. cbn [kind_of kind_code Z.eqb Pos.eqb tree_bool]. destruct (ne_raw _ _ _ _ Hn) as (i & j & -> & _ & Hs).
  unfold ByteAt, idx. rewrite Nat2Z.id. destruct b; cbn [raw_of lit_true lit_false] in Hs; by rewrite (span_first _ _ _ _ _ Hs).
Qed.

Lemma node_number : n_NumberBytes (Some c) = Ok (tree_number t).
Proof using Hc.
  destruct (stands_entry _ _ _ Hc) as (e & He & Hn). unfold n_NumberBytes. rewrite (when_kind_ref _ _ _ _ _ He (ne_kind _ _ _ _ Hn)).
  destruct t; try done. cbn [kind_of kind_code Z.eqb Pos.eqb tree_number]. destruct (ne_raw _ _ _ _ Hn) as (i & j & -> & -> & Hs).
  by rewrite (SliceRange_span _ _ _ _ Hs).
Qed.

Lemma node_integer : n_IsInteger (Some c) = Ok (match t with TNum raw => plain_integer raw | _ => false end).
Proof using Hc.
  destruct (stands_entry _ _ _ Hc) as (e & He & Hn). unfold n_IsInteger. rewrite He. cbn [res_bind]. by rewrite (ne_int _ _ _ _ Hn).
Qed.

Lemma node_string :
  n_StringBytes (Some c) = Ok (match t with TStr raw dec => if has_bs raw then None else Some dec | _ => None end) /\
  forall dst, n_AppendText (Some c) dst = Ok (match t with TStr _ dec => (dst ++ dec, true) | _ => (dst, false) end).
Proof using Hc.
  destruct (stands_entry _ _ _ Hc) as (e & He & Hn). destruct t as [| | |raw dec| |] eqn:Et.
  4:{ apply (string_node c e raw dec (proj1 Hc) He (ne_string _ _ _ _ Hn)). }
  all: split; [|intros dst]; unfold n_StringBytes, n_AppendText; by rewrite (when_kind_ref _ _ _ _ _ He (ne_kind _ _ _ _ Hn)).
Qed.

Lemma node_len : n_ArrayLen (Some c) = Ok (tree_len true t) /\ n_ObjectLen (Some c) = Ok (tree_len false t).
Proof using Hc.
  destruct (stands_entry _ _ _ Hc) as (e & He & Hn). unfold n_ArrayLen, n_ObjectLen. rewrite !(when_kind_ref _ _ _ _ _ He (ne_kind _ _ _ _ Hn)).
  pose proof (ne_count _ _ _ _ Hn) as H. destruct t; try done; cbn [kind_of kind_code Z.eqb Pos.eqb tree_len]; [by rewrite H|by rewrite (proj1 H)].
Qed.

(** ** [Index] *)

Lemma index_loop_ref raw ts k : t = TArr raw ts -> (k < length ts)%nat -> index_loop k (elem_cursor c ts 0) = Ok (elem_cursor c ts k).
Proof using Hc.
  intros -> Hk. assert (H : forall n m, (n + m = k)%nat -> index_loop m (elem_cursor c ts n) = Ok (elem_cursor c ts k)).
  { intros n m. revert n. induction m as [|m IH]; intros n Hnm; [by replace n with k by lia|]. cbn [index_loop].
  destruct (lookup_lt_is_Some_2 ts n) as [x Hx]; [lia|]. destruct (lookup_lt_is_Some_2 ts (S n)) as [y Hy]; [lia|].
  destruct (elem_next h c raw ts n x y Hc Hx Hy) as (e & -> & E). cbn [res_bind]. rewrite E. apply IH. lia. }
  by apply H.
Qed.

Lemma flat_elems ts k : elems_size ts = length ts -> elems_size (take k ts) = Nat.min k (length ts).
Proof using.
  revert k. induction ts as [|x ts IH]; intros k H; [by destruct k|]. destruct k as [|k]; [done|].
  unfold elems_size in *. cbn [map take length list_sum foldr] in *. fold (list_sum (map tape_size ts)) in H. fold (list_sum (map tape_size (take k ts))).
  pose proof (tape_size_pos x). assert (length ts <= list_sum (map tape_size ts))%nat.
  { clear. induction ts as [|y ts IH]; simpl; [lia|]. pose proof (tape_size_pos y). unfold list_sum in *. lia. }
  rewrite IH by lia. lia.
Qed.

Lemma node_index i :
  n_Index (Some c) i = Ok (match t with
  | TArr _ ts => if 0 <=? i then option_map (fun _ => elem_cursor c ts (Z.to_nat i)) (ts !! Z.to_nat i) else None
  | _ => None end).
Proof using Hc.
  destruct (stands_entry _ _ _ Hc) as (e & He & Hn). unfold n_Index. rewrite (proj1 node_len). cbn [res_bind].
  pose proof index_loop_ref as Hloop. destruct t as [| | | |raw ts|] eqn:Et; try done. cbn [tree_len].
  destruct (Z.ltb_spec i 0) as [Hi|Hi]; [by rewrite (if_false (0 <=? i)) by lia|]. rewrite (if_true (0 <=? i)) by lia. cbn [orb].
  destruct (Z.leb_spec (Z.of_nat (length ts)) i) as [Hge|Hlt]; [by rewrite (lookup_ge_None_2 ts) by lia|].
  destruct (lookup_lt_is_Some_2 ts (Z.to_nat i)) as [x Hx]; [lia|]. rewrite Hx. cbn [option_map]. rewrite He. cbn [res_bind].
  pose proof (stands_bounds _ _ _ Hc) as [Hb Hb']. change InfoMaxCount with 67108863 in Hb.
  rewrite (ne_next _ _ _ _ Hn). unfold w32. rewrite (Z.mod_small (Z.of_nat _)), Z.mod_small by lia.
  assert (Hfirst : EntryAt c 1 = Ok (elem_cursor c ts 0)) by (destruct ts as [|y ts']; [done|by eapply (elem_first h c raw)]).
  destruct (Z.eqb_spec (Z.of_nat (tape_size (TArr raw ts))) (Z.of_nat (length ts) + 1)) as [Hflat|_].
  - destruct (stands_entry _ _ _ (stands_elem h c raw ts _ x Hc Hx)) as (e' & He' & _).
    rewrite (EntryAt_to c (i + 1) (elem_cursor c ts (Z.to_nat i)) e'); [done|done| |done]. cbn [elem_cursor nd_at].
    cbn [tape_size] in Hflat. rewrite flat_elems by (unfold elems_size; lia). lia.
  - rewrite Hfirst. cbn [res_bind]. by rewrite (Hloop raw ts (Z.to_nat i)) by (done || lia).
Qed.
End Accessors.

(** ** Lookups *)

Abbreviation members := (list ((bytes * bytes) * tree)).

(** The last member with a name: what a lookup finds. *)
Fixpoint last_index (key : bytes) (ms : members) : option nat :=
  match ms with
  | [] => None
  | m :: ms =>
      match last_index key ms with
      | Some k => Some (S k)
      | None => if bool_decide (m.1.2 = key) then Some 0%nat else None
      end
  end.

Lemma last_index_app key a b :
  last_index key (a ++ b) = match last_index key b with Some k => Some (length a + k)%nat | None => last_index key a end.
Proof.
  induction a as [|m a IH]; cbn [app last_index length]; [by destruct (last_index key b)|]. rewrite IH.
  by destruct (last_index key b).
Qed.

Lemma last_index_spec key ms k :
  last_index key ms = Some k ->
  exists raw t, ms !! k = Some ((raw, key), t) /\ forall j m, ms !! j = Some m -> m.1.2 = key -> (j <= k)%nat.
Proof.
  revert k. induction ms as [|[[raw name] t] ms IH]; intros k Hk; [done|]. cbn [last_index fst snd] in Hk.
  assert (Hnone : last_index key ms = None -> forall j m, ms !! j = Some m -> m.1.2 <> key).
  { clear. induction ms as [|m ms IH]; intros Hn j m' Hj; [done|]. cbn [last_index] in Hn.
    destruct (last_index key ms); [done|]. case_bool_decide; [done|]. destruct j as [|j]; cbn in Hj; [by simplify_eq|]. by eapply IH. }
  destruct (last_index key ms) as [k'|].
  - injection Hk as <-. destruct (IH k' eq_refl) as (raw' & t' & Hl & Hmax). exists raw', t'. split; [done|].
    intros [|j] m Hj Hm; [lia|]. apply le_n_S. by eapply Hmax.
  - case_bool_decide; [|done]. simplify_eq. exists raw, t. split; [done|]. intros [|j] m Hj Hm; [lia|]. by destruct (Hnone eq_refl j m).
Qed.

Lemma last_index_none key ms j m : last_index key ms = None -> ms !! j = Some m -> m.1.2 <> key.
Proof.
  revert j. induction ms as [|m' ms IH]; intros j Hn Hj; [done|]. cbn [last_index] in Hn.
  destruct (last_index key ms); [done|]. case_bool_decide; [done|]. destruct j as [|j]; cbn in Hj; [by simplify_eq|by eapply IH].
Qed.

Lemma last_index_lt key ms k : last_index key ms = Some k -> (k < length ms)%nat.
Proof. intros (raw & t & H & _)%last_index_spec. by apply lookup_lt_Some in H. Qed.

(** A prefilter that never drops a name equal to the key. *)
Definition sound_filter (h : bool) (src key : bytes) (candidate : IndexEntry -> bool) : Prop :=
  forall raw e, name_entry h src raw key e -> candidate e = true.

Lemma plain_filter h src key :
  Z.of_nat (length src) <= InfoMaxCount -> sound_filter h src key (plain_candidate (w32 (w32 (Z.of_nat (length key)) + 2))).
Proof.
  change InfoMaxCount with 67108863. intros Hb raw e [(i & j & Hi & Hj & Hs & Hjs & _ & Hf) _]. unfold plain_candidate. rewrite Hf.
  destruct (has_bs raw) eqn:Hbs; [done|]. pose proof (inner_clean _ _ Hjs Hbs) as Hin.
  destruct (inner_slice src i j raw key Hs Hjs) as [Hij _]. apply span_len in Hs as Hl. apply span_le in Hs.
  destruct Hjs as [s d _]. rewrite inner_token in Hin. subst d. simpl in Hl. rewrite length_app in Hl. simpl in Hl.
  rewrite Hi, Hj. unfold w32. rewrite (Z.mod_small (Z.of_nat (length s))) by lia. apply Z.eqb_eq. f_equal. lia.
Qed.

Lemma hash_filter src key : sound_filter true src key (hash_candidate (hash_ref key)).
Proof.
  intros raw e [(i & j & _ & _ & _ & Hjs & _ & Hf) Hn]. unfold hash_candidate. rewrite Hf.
  destruct (has_bs raw) eqn:Hbs; [done|]. by rewrite Hn, (inner_clean _ _ Hjs Hbs), Z.eqb_refl.
Qed.

(** Bit 29 of the info word is the escape flag. *)
Lemma escaped_bit e : has_flag e TapeFlagEscaped = Z.testbit (Info e) 29.
Proof.
  unfold has_flag, TapeFlagEscaped, entry_Flags, InfoFlagsShift, InfoCountBits, InfoKindBits.
  change 256 with (2 ^ 8). rewrite <- Z.land_ones, <- Z.land_assoc by lia. change (Z.land (Z.ones 8) 1) with (Z.ones 1).
  rewrite Z.land_ones by lia. change (2 ^ 1) with 2. rewrite <- Z.bit0_mod, Z.shiftr_spec by lia.
  change (0 + (26 + 3)) with 29. by destruct (Z.testbit (Info e) 29).
Qed.

Lemma bit_clear x : Z.land x (w32 (Z.shiftl TapeFlagEscaped InfoFlagsShift)) = 0 -> Z.testbit x 29 = false.
Proof.
  change (w32 (Z.shiftl TapeFlagEscaped InfoFlagsShift)) with (2 ^ 29). intros H.
  assert (Hb : Z.testbit (Z.land x (2 ^ 29)) 29 = false) by by rewrite H.
  by rewrite Z.land_spec, Z.pow2_bits_true, andb_true_r in Hb by lia.
Qed.

Section LookupRef.
Context (h : bool) (c : cursor) (raw : bytes) (ms : members) (key : bytes).
Hypothesis Hc : stands h c (TObj raw ms).

Lemma key_matches_ref candidate k m :
  sound_filter h (source_of c) key candidate -> ms !! k = Some m ->
  key_matches key candidate (key_cursor c ms k) = Ok (bool_decide (m.1.2 = key)).
Proof using Hc.
  intros Hf Hk. destruct m as [[kraw name] t]. destruct (stands_member h c raw ms k kraw name t Hc Hk) as [(e & He & Hn) _].
  unfold key_matches. rewrite He. cbn [res_bind fst snd]. change (source_of (key_cursor c ms k)) with (source_of c).
  destruct (candidate e) eqn:Hcand; cbn [negb].
  - destruct (nm_string _ _ _ _ _ Hn) as (i & j & Hi & Hj & Hs & Hjs & _ & _). rewrite Hi, Hj, (SliceRange_span _ _ _ _ Hs). cbn [res_bind].
    by rewrite (tapeKeyEqual_ref kraw _ name key Hjs (string_flags _ _ _ _ (nm_string _ _ _ _ _ Hn))).
  - rewrite bool_decide_eq_false_2; [done|]. intros ->. rewrite (Hf kraw e Hn) in Hcand. done.
Qed.

(** [Node] for a member's value. *)
Definition found_at (o : option nat) : Node := option_map (value_cursor c ms) o.

Lemma linked_loop_ref candidate n k found :
  sound_filter h (source_of c) key candidate -> (k + n = length ms)%nat ->
  linked_loop key candidate n (key_cursor c ms k) found =
  Ok (match last_index key (drop k ms) with Some j => Some (value_cursor c ms (k + j)) | None => found end).
Proof using Hc.
  intros Hf. revert k found. induction n as [|n IH]; intros k found Hk; [by rewrite drop_ge by lia|]. cbn [linked_loop].
  destruct (lookup_lt_is_Some_2 ms k) as [m Hm]; [lia|]. rewrite (key_value h c raw ms k m Hc Hm). cbn [res_bind].
  rewrite (key_matches_ref candidate k m Hf Hm). cbn [res_bind]. cbv zeta. rewrite (lookup_Some_drop _ _ _ Hm). cbn [last_index].
  destruct (Nat.eqb_spec n 0) as [->|Hn].
  - rewrite drop_ge by lia. cbn [last_index]. case_bool_decide; [by rewrite Nat.add_0_r|done].
  - destruct (lookup_lt_is_Some_2 ms (S k)) as [m' Hm']; [lia|].
    destruct (value_next h c raw ms k m m' Hc Hm Hm') as (e & -> & E). cbn [res_bind]. rewrite E. cbn [res_bind].
    rewrite IH by lia. destruct (last_index key (drop (S k) ms)) as [j|]; [by replace (S k + j)%nat with (k + S j)%nat by lia|].
    case_bool_decide; [by rewrite Nat.add_0_r|done].
Qed.

Section Flat.
Hypothesis Hflat : members_size ms = (2 * length ms)%nat.

Lemma flat_members k : members_size (take k ms) = (2 * Nat.min k (length ms))%nat.
Proof using Hflat.
  revert k Hflat. clear. unfold members_size. induction ms as [|m l IH]; intros k H; [by destruct k|]. destruct k as [|k]; [done|].
  cbn [map take length list_sum foldr] in *. fold (list_sum (map (fun m => S (tape_size m.2)) l)) in H.
  fold (list_sum (map (fun m => S (tape_size m.2)) (take k l))). pose proof (tape_size_pos m.2).
  assert (2 * length l <= list_sum (map (fun m => S (tape_size m.2)) l))%nat.
  { clear. induction l as [|x l IH]; simpl; [lia|]. pose proof (tape_size_pos x.2). unfold list_sum in *. lia. }
  rewrite IH by lia. lia.
Qed.

Lemma flat_key k : (k < length ms)%nat -> EntryAt c (2 * Z.of_nat k + 1) = Ok (key_cursor c ms k).
Proof using Hc Hflat.
  intros Hk. destruct (lookup_lt_is_Some_2 ms k Hk) as [[[kraw name] t] Hm].
  destruct (stands_member h c raw ms k kraw name t Hc Hm) as [(e & He & _) _].
  eapply EntryAt_to; [done| |exact He]. cbn [key_cursor nd_at]. rewrite flat_members. lia.
Qed.

Lemma flat_loop_ref candidate lo n :
  sound_filter h (source_of c) key candidate -> (lo + n <= length ms)%nat ->
  flat_loop key candidate c lo n = Ok (option_map (fun j => value_cursor c ms (lo + j)) (last_index key (take n (drop lo ms)))).
Proof using Hc Hflat.
  intros Hf. induction n as [|n IH]; intros Hn; [by rewrite take_0|]. cbn [flat_loop].
  destruct (lookup_lt_is_Some_2 ms (lo + n)) as [m Hm]; [lia|]. rewrite flat_key by lia. cbn [res_bind].
  rewrite (key_matches_ref candidate _ m Hf Hm). cbn [res_bind].
  rewrite (take_S_r _ n m) by by rewrite lookup_drop. rewrite last_index_app. cbn [last_index].
  assert (Hl : length (take n (drop lo ms)) = n) by (rewrite length_take, length_drop; lia).
  case_bool_decide; [|apply IH; lia]. rewrite (key_value h c raw ms _ m Hc Hm). cbn [res_bind option_map].
  by rewrite Hl, Nat.add_0_r.
Qed.
End Flat.
End LookupRef.

Section HashedLookup.
Context (c : cursor) (raw : bytes) (ms : members) (key : bytes).
Hypothesis Hc : stands true c (TObj raw ms).
Hypothesis Hflat : members_size ms = (2 * length ms)%nat.
Abbreviation found_at := (found_at c ms).

Lemma verify_range_ref lo n :
  (lo + n <= length ms)%nat -> (0 < n)%nat ->
  tapeVerifyFlatRange c (Z.of_nat (lo + n) - 1) (Z.of_nat lo) key (hash_ref key) =
  Ok (option_map (fun j => value_cursor c ms (lo + j)) (last_index key (take n (drop lo ms)))).
Proof using Hc Hflat.
  intros Hn Hpos. unfold tapeVerifyFlatRange. rewrite Nat2Z.id. replace (Z.to_nat (Z.of_nat (lo + n) - 1 - Z.of_nat lo + 1)) with n by lia.
  apply (flat_loop_ref true c raw ms key Hc Hflat _ lo n (hash_filter _ _) Hn).
Qed.

(** A member that is not a candidate does not have the key. *)
Lemma no_candidate k m e :
  ms !! k = Some m -> the_entry (key_cursor c ms k) = Ok e -> (Next e =? hash_ref key) = false -> has_flag e TapeFlagEscaped = false ->
  m.1.2 <> key.
Proof using Hc.
  intros Hk He Hn Hf Hkey. destruct m as [[kraw name] t]. destruct (stands_member true c raw ms k kraw name t Hc Hk) as [(e' & He' & Hne) _].
  rewrite He' in He. injection He as ->. cbn [fst snd] in Hkey. subst name. pose proof (hash_filter _ _ kraw e Hne) as Hcand.
  unfold hash_candidate in Hcand. by rewrite Hn, Hf in Hcand.
Qed.

Lemma key_entry_at k : (k < length ms)%nat -> exists e, the_entry (key_cursor c ms k) = Ok e.
Proof using Hc.
  intros Hk. destruct (lookup_lt_is_Some_2 ms k Hk) as [[[kraw name] t] Hm].
  destruct (stands_member true c raw ms k kraw name t Hc Hm) as [(e & He & _) _]. eauto.
Qed.

Lemma last_index_quad m :
  (forall k m', (m <= k < m + 4)%nat -> ms !! k = Some m' -> m'.1.2 <> key) -> last_index key (take (m + 4) ms) = last_index key (take m ms).
Proof using.
  clear Hc Hflat. intros Hno. rewrite <- (take_take_drop ms m 4), last_index_app.
  destruct (last_index key (take 4 (drop m ms))) as [j|] eqn:E; [|done].
  apply last_index_lt in E as Hlt. apply last_index_spec in E as (kraw & t & Hj & _).
  rewrite length_take in Hlt. rewrite lookup_take_lt, lookup_drop in Hj by lia. by destruct (Hno (m + j)%nat _ ltac:(lia) Hj).
Qed.

Lemma scan_flat_ref fuel m :
  (m <= length ms)%nat -> (m < fuel)%nat ->
  scan_flat_loop fuel c (Z.of_nat m) key (hash_ref key) = Ok (found_at (last_index key (take m ms))).
Proof using Hc Hflat.
  revert m. induction fuel as [|fuel IH]; intros m Hm Hf; [lia|]. cbn [scan_flat_loop].
  destruct (Z.leb_spec 4 (Z.of_nat m)) as [H4|H4].
  2:{ destruct (Z.ltb_spec 0 (Z.of_nat m)) as [H0|H0]; [|by replace m with 0%nat by lia].
  pose proof (verify_range_ref 0 m ltac:(lia) ltac:(lia)) as Hv. change (0 + m)%nat with m in Hv. change (Z.of_nat 0) with 0 in Hv. rewrite Hv. by rewrite drop_0. }
  assert (Hm4 : exists m', m = (m' + 4)%nat) by (exists (m - 4)%nat; lia). destruct Hm4 as [m' ->].
  destruct (key_entry_at (m' + 3)) as [e3 H3]; [lia|]. destruct (key_entry_at (m' + 2)) as [e2 H2]; [lia|].
  destruct (key_entry_at (m' + 1)) as [e1 H1]; [lia|]. destruct (key_entry_at m') as [e0 H0]; [lia|].
  assert (Hkey : forall k x, (k < length ms)%nat -> x = 2 * Z.of_nat k + 1 -> EntryAt c x = Ok (key_cursor c ms k)).
  { intros k x Hk ->. by apply (flat_key true c raw ms Hc Hflat). }
  rewrite (Hkey (m' + 3)%nat), (Hkey (m' + 2)%nat), (Hkey (m' + 1)%nat), (Hkey m') by lia. cbn [res_bind].
  rewrite H3, H2, H1, H0. cbn [res_bind]. cbv zeta.
  replace (Z.of_nat (m' + 4) - 4) with (Z.of_nat m') by lia.
  destruct (_ || _) eqn:Et.
  - rewrite verify_range_ref by lia. rewrite <- (take_take_drop ms m' 4), last_index_app. cbn [res_bind].
    destruct (last_index key (take 4 (drop m' ms))) as [j|]; cbn [option_map].
    + by rewrite length_take, Nat.min_l by lia.
    + apply IH; lia.
  - cbn [res_bind]. rewrite IH by lia. rewrite last_index_quad; [done|]. rewrite !orb_false_iff in Et. destruct Et as ((((E3 & E2) & E1) & E0) & Eb).
    apply negb_false_iff, Z.eqb_eq, bit_clear in Eb. rewrite !Z.lor_spec, !orb_false_iff in Eb. destruct Eb as (((B3 & B2) & B1) & B0).
    rewrite <- escaped_bit in B0, B1, B2, B3. intros k x Hk Hx.
    assert (Hcase : k = m' \/ k = (m' + 1)%nat \/ k = (m' + 2)%nat \/ k = (m' + 3)%nat) by lia.
    destruct Hcase as [-> | [-> | [-> | ->]]]; by eapply no_candidate.
Qed.
End HashedLookup.

Lemma flat_test (ms : members) n :
  Z.of_nat n <= InfoMaxCount -> n = S (members_size ms) ->
  (Z.of_nat n =? flat_next (Z.of_nat (length ms))) = (members_size ms =? 2 * length ms)%nat.
Proof.
  change InfoMaxCount with 67108863. intros Hb ->. assert (2 * length ms <= members_size ms)%nat.
  { clear. unfold members_size. induction ms as [|m ms IH]; simpl; [lia|]. pose proof (tape_size_pos m.2). unfold list_sum in *. lia. }
  unfold flat_next, w32. rewrite (Z.mod_small (Z.of_nat _)), Z.mod_small by lia.
  destruct (Nat.eqb_spec (members_size ms) (2 * length ms)); lia.
Qed.

Section Get.
Context (h : bool) (c : cursor) (raw : bytes) (ms : members) (key : bytes).
Hypothesis Hc : stands h c (TObj raw ms).
Hypothesis Hne : ms <> [].

Lemma get_first : EntryAt c 1 = Ok (key_cursor c ms 0).
Proof using Hc Hne. destruct ms as [|m ms'] eqn:E; [done|]. by eapply (key_first h c raw). Qed.

Lemma getPlain_ref : getPlain c key (Z.of_nat (length ms)) = Ok (found_at c ms (last_index key ms)).
Proof using Hc Hne.
  destruct (stands_entry _ _ _ Hc) as (e & He & Hn). unfold getPlain. rewrite He. cbn [res_bind]. rewrite (ne_next _ _ _ _ Hn).
  pose proof (stands_bounds _ _ _ Hc) as [Hb _]. rewrite flat_test by (done || (cbn [tape_size]; unfold members_size; done)).
  pose proof (plain_filter h (source_of c) key (proj2 (proj1 Hc))) as Hf. rewrite Nat2Z.id.
  destruct (Nat.eqb_spec (members_size ms) (2 * length ms)) as [Hflat|_].
  - rewrite (flat_loop_ref h c raw ms key Hc Hflat _ 0 _ Hf) by lia. by rewrite drop_0, take_ge by lia.
  - rewrite get_first. cbn [res_bind]. rewrite (linked_loop_ref h c raw ms key Hc _ _ 0 None Hf) by lia. rewrite drop_0.
    by destruct (last_index key ms).
Qed.

Lemma getHashedQuery_ref :
  h = true -> getHashedQuery c key (hash_ref key) (Z.of_nat (length ms)) = Ok (found_at c ms (last_index key ms)).
Proof using Hc Hne.
  intros Eh. destruct (stands_entry _ _ _ Hc) as (e & He & Hn). unfold getHashedQuery. rewrite He. cbn [res_bind]. rewrite (ne_next _ _ _ _ Hn).
  pose proof (stands_bounds _ _ _ Hc) as [Hb _]. rewrite flat_test by (done || (cbn [tape_size]; unfold members_size; done)).
  pose proof get_first as Hfirst. subst h.
  destruct (Nat.eqb_spec (members_size ms) (2 * length ms)) as [Hflat|_].
  - unfold tapeScanFlatHash. rewrite Nat2Z.id, (scan_flat_ref c raw ms key Hc Hflat) by lia. by rewrite take_ge by lia.
  - rewrite Hfirst. cbn [res_bind]. rewrite Nat2Z.id, (linked_loop_ref true c raw ms key Hc _ _ 0 None (hash_filter _ _)) by lia. rewrite drop_0.
    by destruct (last_index key ms).
Qed.
End Get.

(** The object of a tree, if it is one. *)
Definition tree_members (t : tree) : members := match t with TObj _ ms => ms | _ => [] end.

Lemma hash_key_ref key : bytes_ok key -> hash_key key = Ok (hash_ref key).
Proof. intros H. unfold hash_key, HashKey. by rewrite HashKeyContent_ref. Qed.

Lemma get_ref h c t key :
  stands h c t -> bytes_ok key ->
  n_Get (Some c) key = Ok (found_at c (tree_members t) (last_index key (tree_members t))) /\
  n_GetCompiled (Some c) (mkKey key (hash_ref key)) = Ok (found_at c (tree_members t) (last_index key (tree_members t))).
Proof.
  intros Hc Hk. unfold n_Get, n_GetCompiled. rewrite (proj2 (node_len h c t Hc)). cbn [res_bind].
  destruct t as [| | | | |raw ms]; try done. cbn [tree_len tree_members].
  destruct (stands_entry _ _ _ Hc) as (e & He & Hn). rewrite He. destruct (ne_count _ _ _ _ Hn) as [_ Hh].
  destruct ms as [|m ms']; [done|]. set (ms := m :: ms') in *. rewrite (if_false (Z.of_nat (length ms) =? 0)) by (subst ms; simpl; lia).
  cbn [res_bind]. rewrite Hh. cbn [ck_Key ck_Hash]. destruct h eqn:Eh.
  - rewrite hash_key_ref by done. cbn [res_bind]. by rewrite (getHashedQuery_ref true c raw ms key Hc).
  - by rewrite (getPlain_ref false c raw ms key Hc).
Qed.

(** A lookup's answer stands for the member's value. *)
Lemma found_stands h c t key :
  stands h c t ->
  match last_index key (tree_members t) with
  | Some k => exists raw v, tree_members t !! k = Some ((raw, key), v) /\ stands h (value_cursor c (tree_members t) k) v
  | None => True
  end.
Proof.
  intros Hc. destruct (last_index key (tree_members t)) as [k|] eqn:E; [|done].
  apply last_index_spec in E as (raw & v & Hk & _). exists raw, v. split; [done|].
  destruct t as [| | | | |traw ms]; try done. by apply (stands_member h c traw ms k raw key v Hc Hk).
Qed.

(** ** The root of a built index *)

Lemma root_stands engine mode src cap opts ix :
  bytes_ok src -> Z.of_nat (length src) <= InfoMaxCount -> Z.of_nat cap < 2 ^ 32 ->
  eligible src (maxDepthOrDefault (io_MaxDepth opts)) = false \/ engine src cap = None ->
  buildIndexOptions engine mode src cap opts = Ok ix ->
  exists t, ref_doc src (maxDepthOrDefault (io_MaxDepth opts)) plain_unexpected = Ok t /\
    ix_Src ix = src /\ Root ix = Some (mkCursor ix 0) /\ stands (HashKeys opts) (mkCursor ix 0) t.
Proof.
  intros Hok Hbig Hcap He Hix. pose proof (buildIndexOptions_ref engine mode src cap opts Hok Hbig Hcap He) as H. cbv zeta in H.
  destruct (ref_doc _ _ _) as [t|[o m]| |]; [|by destruct H as [H|[_ H]]; rewrite H in Hix|done..].
  destruct H as (es & (j & Ht & Hj) & H). rewrite H in Hix. destruct (cap <? length es)%nat; [done|]. injection Hix as <-.
  exists t. split; [done|]. split; [done|]. apply tape_value_extent in Ht as Hx. destruct Hx as [Hl Hx]. pose proof (tape_size_pos t). split.
  - unfold Root, NodeFromEntries. cbn [ix_Src ix_Entries]. rewrite if_false; [done|]. apply orb_false_iff. split; apply Nat.eqb_neq; lia.
  - split; [done|]. exists (ref_ws src 0), j, es. split; [exact Ht|]. cbn [nd_doc nd_at ix_Entries]. rewrite Nat.add_0_l. apply span_whole.
Qed.

(** ** Properties *)

(** the accessors of a node on the tape of a tree say what the tree says: its kind, its exact source, null, the boolean, the number's spelling and whether it is a plain integer, the string's content, decoded when it has escapes, and the lengths of arrays and objects; no accessor reads outside the source or the tape. *)
Theorem node_accessors h c t dst :
  stands h c t ->
  n_Kind (Some c) = Ok (kind_code (kind_of t)) /\ n_Raw (Some c) = Ok (raw_of t) /\
  n_IsNull (Some c) = Ok (match t with TNull => true | _ => false end) /\
  n_Bool (Some c) = Ok (tree_bool t) /\ n_NumberBytes (Some c) = Ok (tree_number t) /\
  n_IsInteger (Some c) = Ok (match t with TNum raw => plain_integer raw | _ => false end) /\
  n_StringBytes (Some c) = Ok (match t with TStr raw dec => if has_bs raw then None else Some dec | _ => None end) /\
  n_AppendText (Some c) dst = Ok (match t with TStr _ dec => (dst ++ dec, true) | _ => (dst, false) end) /\
  n_ArrayLen (Some c) = Ok (tree_len true t) /\ n_ObjectLen (Some c) = Ok (tree_len false t).
Proof.
  intros Hc. destruct (node_string h c t Hc) as [Hs Ha]. destruct (node_len h c t Hc) as [Hl Ho].
  split_and!; eauto using node_kind, node_raw, node_bool, node_number, node_integer.
  unfold n_IsNull. rewrite (node_kind h c t Hc). by destruct t.
Qed.

Definition built (src : bytes) (cap : nat) (hashed : bool) : Index :=
  match buildIndexOptions (fun _ _ => None) (fun _ => false) src cap (mkIndexOptions 0 hashed) with
  | Ok ix => ix
  | _ => mkIndex [] []
  end.

Lemma node_accessors_witness :
  exists t, let c := mkCursor (built (js "'a\u00e9'") 4 true) 0 in
  n_Kind (Some c) = Ok (kind_code (kind_of t)) /\ n_Raw (Some c) = Ok (raw_of t) /\
  n_IsNull (Some c) = Ok (match t with TNull => true | _ => false end) /\
  n_Bool (Some c) = Ok (tree_bool t) /\ n_NumberBytes (Some c) = Ok (tree_number t) /\
  n_IsInteger (Some c) = Ok (match t with TNum raw => plain_integer raw | _ => false end) /\
  n_StringBytes (Some c) = Ok (match t with TStr raw dec => if has_bs raw then None else Some dec | _ => None end) /\
  n_AppendText (Some c) [1] = Ok (match t with TStr _ dec => ([1] ++ dec, true) | _ => ([1], false) end) /\
  n_ArrayLen (Some c) = Ok (tree_len true t) /\ n_ObjectLen (Some c) = Ok (tree_len false t).
Proof.
  destruct (root_stands (fun _ _ => None) (fun _ => false) (js "'a\u00e9'") 4 (mkIndexOptions 0 true) (built (js "'a\u00e9'") 4 true))
    as (t & _ & _ & _ & H); [concrete_bytes|vm_compute; done|done|by right|vm_compute; reflexivity|].
  exists t. by apply (node_accessors true).
Defined.

(** C16: looking a key up in an object, flat or nested, hashed or not, with a plain or a compiled key, finds the last member whose decoded name is the key, escapes in names included, and nothing when there is none; a node that is not an object has no members. *)
Theorem Get_last_member h c t key :
  stands h c t -> bytes_ok key ->
  (exists k, CompileKey key = Ok k /\ n_GetCompiled (Some c) k = n_Get (Some c) key) /\
  match last_index key (tree_members t) with
  | Some k => n_Get (Some c) key = Ok (Some (value_cursor c (tree_members t) k)) /\
      exists raw v, tree_members t !! k = Some ((raw, key), v) /\ stands h (value_cursor c (tree_members t) k) v
  | None => n_Get (Some c) key = Ok None
  end.
Proof.
  intros Hc Hk. destruct (get_ref h c t key Hc Hk) as [Hg Hgc]. split.
  - exists (mkKey key (hash_ref key)). split; [|by rewrite Hg, Hgc]. unfold CompileKey. by rewrite hash_key_ref.
  - pose proof (found_stands h c t key Hc) as Hf. unfold found_at in Hg. by destruct (last_index key (tree_members t)).
Qed.

Lemma Get_last_member_witness :
  exists t, let c := mkCursor (built (js "{'ab':1,'\u0061b':[2],'c':{}}") 9 true) 0 in
  (exists k, CompileKey (bs "ab") = Ok k /\ n_GetCompiled (Some c) k = n_Get (Some c) (bs "ab")) /\
  match last_index (bs "ab") (tree_members t) with
  | Some k => n_Get (Some c) (bs "ab") = Ok (Some (value_cursor c (tree_members t) k)) /\
      exists raw v, tree_members t !! k = Some ((raw, bs "ab"), v) /\ stands true (value_cursor c (tree_members t) k) v
  | None => n_Get (Some c) (bs "ab") = Ok None
  end.
Proof.
  destruct (root_stands (fun _ _ => None) (fun _ => false) (js "{'ab':1,'\u0061b':[2],'c':{}}") 9 (mkIndexOptions 0 true)
    (built (js "{'ab':1,'\u0061b':[2],'c':{}}") 9 true))
    as (t & _ & _ & _ & H); [concrete_bytes|vm_compute; done|done|by right|vm_compute; reflexivity|].
  exists t. apply Get_last_member; [done|concrete_bytes].
Defined.

(** indexing an array node gives the element at that place, by stride or by walking, and nothing for an index out of range or a node that is not an array. *)
Theorem Index_element h c t i :
  stands h c t ->
  match t with
  | TArr _ ts =>
      match (if 0 <=? i then ts !! Z.to_nat i else None) with
      | Some v => exists c', n_Index (Some c) i = Ok (Some c') /\ stands h c' v
      | None => n_Index (Some c) i = Ok None
      end
  | _ => n_Index (Some c) i = Ok None
  end.
Proof.
  intros Hc. pose proof (node_index h c t Hc i) as H. destruct t as [| | | |raw ts|]; try done.
  destruct (0 <=? i); [|done]. destruct (ts !! Z.to_nat i) as [v|] eqn:E; [|done]. eexists. split; [exact H|]. by eapply stands_elem.
Qed.

Lemma Index_element_witness :
  exists t, let c := mkCursor (built (js "[1,[2],3]") 5 false) 0 in
  match t with
  | TArr _ ts =>
      match (if 0 <=? 2 then ts !! Z.to_nat 2 else None) with
      | Some v => exists c', n_Index (Some c) 2 = Ok (Some c') /\ stands false c' v
      | None => n_Index (Some c) 2 = Ok None
      end
  | _ => n_Index (Some c) 2 = Ok None
  end.
Proof.
  destruct (root_stands (fun _ _ => None) (fun _ => false) (js "[1,[2],3]") 5 (mkIndexOptions 0 false) (built (js "[1,[2],3]") 5 false))
    as (t & _ & _ & _ & H); [concrete_bytes|vm_compute; done|done|by right|vm_compute; reflexivity|].
  exists t. by apply Index_element.
Defined.
