(* ===== verification/NodeNumber.v ===== *)
(** The integer readers of a node ([Int64] and [Uint64] of [node.go]) on the
    kernels of [Digits.v]. *)

From S2P Require Import Prelude Words Utf8 Scanner Lex Grammar StringRef Errors Numbers Reader Validator FastValid Layout Decode NumberEqual Digits Pointer Raw Tape TapeMachine TapeWalk TapeHash TapeParse Node.

(** The value and whether it fits; a node of another kind is [(0, false)]. *)
Definition or_no_number (r : res unit (option (Z * bool))) : res unit (Z * bool) :=
  let* r := r in Ok (default (0, false) r).

Definition n_Int64 (v : Node) : res unit (Z * bool) :=
  or_no_number (when_kind v Number (fun c e =>
    if has_flag e TapeFlagInt then
      let* r := TapeInt64 (source_of c) (Z.to_nat (Start e)) (Z.to_nat (End_ e)) in Ok (Some r)
    else Ok (Some (0, false)))).

Definition n_Uint64 (v : Node) : res unit (Z * bool) :=
  or_no_number (when_kind v Number (fun c e =>
    if negb (has_flag e TapeFlagInt) then Ok (Some (0, false))
    else
      let* b := ByteAt (source_of c) (Start e) in
      if b =? "-"%ch then Ok (Some (0, false))
      else let* r := tapeUint64 (source_of c) (Z.to_nat (Start e)) (Z.to_nat (End_ e)) in Ok (Some r))).

Section Numbers.
Context (h : bool) (c : cursor).

(** A number node: its entry and its place in the source. *)
Lemma number_node raw : stands h c (TNum raw) ->
  bytes_ok (source_of c) /\ exists e i j, the_entry c = Ok e /\ entry_Kind e = kind_code Number /\ has_flag e TapeFlagInt = plain_integer raw /\
  Start e = Z.of_nat i /\ End_ e = Z.of_nat j /\ span (source_of c) i raw j /\ jnumber raw.
Proof using.
  intros Hc. destruct (stands_entry h c _ Hc) as (e & He & Hn). destruct Hn as [Hk _ (i & j & Hi & Hj & Hs) _ Hf _].
  destruct Hc as ((Hok & _) & i' & j' & es & Ht & _). split; [done|]. exists e, i, j. split_and!; try done.
  inversion Ht as [? ? ? _ Hv| |]; subst. by inversion Hv.
Qed.

Lemma node_Int64 t : stands h c t ->
  n_Int64 (Some c) = Ok (match t with TNum raw => int64_of raw | _ => (0, false) end).
Proof using.
  intros Hc. unfold n_Int64, when_kind.
  destruct t as [| |raw| | |]; try (destruct (stands_entry h c _ Hc) as (e & -> & [Hk _ _ _ _ _]); cbn [res_bind]; by rewrite Hk).
  destruct (number_node raw Hc) as (Hok & e & i & j & -> & Hk & Hf & Hi & Hj & Hs & Hn).
  cbn [res_bind]. rewrite Hk, Z.eqb_refl, Hf, Hi, Hj, !Nat2Z.id.
  destruct (plain_integer raw) eqn:Hp; [by rewrite (TapeInt64_ok _ Hok i j raw)|]. unfold int64_of. by rewrite Hp.
Qed.

Lemma node_Uint64 t : stands h c t ->
  n_Uint64 (Some c) = Ok (match t with TNum raw => uint64_of raw | _ => (0, false) end).
Proof using.
  intros Hc. unfold n_Uint64, when_kind.
  destruct t as [| |raw| | |]; try (destruct (stands_entry h c _ Hc) as (e & -> & [Hk _ _ _ _ _]); cbn [res_bind]; by rewrite Hk).
  destruct (number_node raw Hc) as (Hok & e & i & j & -> & Hk & Hf & Hi & Hj & Hs & Hn).
  cbn [res_bind]. rewrite Hk, Z.eqb_refl, Hf, Hi, Hj, !Nat2Z.id.
  unfold uint64_of, ByteAt, idx. rewrite Nat2Z.id. destruct (plain_integer raw) eqn:Hp; [|done]. cbn [negb andb].
  destruct raw as [|b raw]; [by apply jnumber_head in Hn as (? & ? & ? & _)|]. pose proof Hs as [Hb _]%span_cons. rewrite Hb. cbn [res_bind is_negative].
  destruct (plain_cases _ Hn Hp) as [(ds & E & _ & Hneg & _)|(Hd & Hneg & ->)]; cbn [is_negative] in Hneg; rewrite Hneg; [done|].
  by rewrite (tapeUint64_ok _ Hok i j _ Hs Hd).
Qed.
End Numbers.

(** ** Properties *)

(** C26: the signed 64-bit readers of a node and of a raw value answer a number of the source exactly when its spelling is a plain integer, without fraction or exponent, and its value, of any number of digits, is in range, a negative zero included; the unsigned readers answer exactly when the spelling is, besides, without a minus sign, so that they refuse a negative zero, and the value is in range; an answer is that value, up to both ends of the range, and no word load leaves the source. *)
Theorem integer_reads h c t src :
  (stands h c t ->
   n_Int64 (Some c) = Ok (match t with TNum raw => int64_of raw | _ => (0, false) end) /\
   n_Uint64 (Some c) = Ok (match t with TNum raw => uint64_of raw | _ => (0, false) end)) /\
  (bytes_ok src ->
   (exists n, raw_Int64 src = Ok (n, validNumber src && (int64_of src).2) /\
      (validNumber src && (int64_of src).2 = true -> n = int_value src)) /\
   raw_Uint64 src = Ok (if validNumber src then uint64_of src else (0, false))).
Proof.
  split.
  - intros Hc. split; [by apply (node_Int64 h)|by apply (node_Uint64 h)].
  - intros Hok. split; [by apply raw_Int64_ok|by apply raw_Uint64_ok].
Qed.

Lemma integer_reads_witness :
  exists t, let c := mkCursor (built (bs "-9223372036854775808") 4 true) 0 in
  (n_Int64 (Some c) = Ok (match t with TNum raw => int64_of raw | _ => (0, false) end) /\
   n_Uint64 (Some c) = Ok (match t with TNum raw => uint64_of raw | _ => (0, false) end)) /\
  raw_Uint64 (bs "18446744073709551615") = Ok (2 ^ 64 - 1, true).
Proof.
  destruct (root_stands (fun _ _ => None) (fun _ => false) (bs "-9223372036854775808") 4 (mkIndexOptions 0 true)
    (built (bs "-9223372036854775808") 4 true))
    as (t & _ & _ & _ & H); [concrete_bytes|vm_compute; done|done|by right|vm_compute; reflexivity|].
  exists t. split.
  - apply (integer_reads true _ t []). exact H.
  - assert (Hb : bytes_ok (bs "18446744073709551615")) by concrete_bytes.
    destruct (proj2 (integer_reads true (mkCursor (mkIndex [] []) 0) t (bs "18446744073709551615")) Hb) as [_ E].
    rewrite E. vm_compute. reflexivity.
Defined.
