(* ===== verification/NodePointer.v ===== *)
(** JSON Pointers on the tape ([Node.Pointer], [Node.PointerCompiled] and the
    entry points of [Index] in [index.go]), textual and compiled, and their
    agreement with the seeker of [raw.go]. *)

From S2P Require Import Prelude Words Utf8 Scanner Lex Grammar StringRef Errors Numbers Reader Validator FastValid Layout Compact Decode KeyHash Pointer Raw Tape TapeMachine TapeWalk TapeHash TapeParse Node.

(** A call that returns no error. *)
Definition of_node {A} (r : res unit A) : res PointerError A :=
  match r with Ok a => Ok a | Err _ => Panic | Panic => Panic | NoFuel => NoFuel end.

(** [return Node{}, false, validatePointerSyntax(pointer)] *)
Definition absent_target (pointer : bytes) : res PointerError Node := let* _ := validatePointerSyntax pointer in Ok None.

Fixpoint pointer_loop (fuel : nat) (pointer : bytes) (cur : Node) (i : nat) : res PointerError Node :=
  match fuel with
  | O => NoFuel
  | S fuel =>
      if (i <=? length pointer)%nat then
        let j := advance (fun c => negb (c =? SLASH)) pointer i in
        let* token := unescapePointerToken (slice pointer i j) in
        let* kind := of_node (n_Kind cur) in
        if kind =? kind_code Object then
          let* next := of_node (n_Get cur token) in
          match next with
          | None => absent_target pointer
          | Some _ => pointer_loop fuel pointer next (j + 1)
          end
        else if kind =? kind_code Array then
          match parsePointerIndex token with
          | inl e => Err e
          | inr None => absent_target pointer
          | inr (Some index) =>
              let* next := of_node (n_Index cur index) in
              match next with
              | None => absent_target pointer
              | Some _ => pointer_loop fuel pointer next (j + 1)
              end
          end
        else absent_target pointer
      else Ok cur
  end.

Definition n_Pointer (v : Node) (pointer : bytes) : res PointerError Node :=
  match pointer with
  | [] => Ok v
  | c :: _ =>
      if negb (c =? SLASH) then Err (mkPointerError pointer "pointer must be empty or start with slash")
      else pointer_loop (S (length pointer)) pointer v 1
  end.

(** The object case goes to the lookups directly, with the token's hash. *)
Fixpoint PointerTokens (cur : Node) (tokens : list CompiledPointerToken) : res PointerError Node :=
  match tokens with
  | [] => Ok cur
  | token :: tokens =>
      let* kind := of_node (n_Kind cur) in
      match cur with
      | None => Ok None
      | Some c =>
          if kind =? kind_code Object then
            let* e := of_node (the_entry c) in
            let count := entry_Count e in
            if count =? 0 then Ok None
            else
              let* next := of_node (if KeysHashed e then getHashedQuery c (Text token) (Hash token) count
                                    else getPlain c (Text token) count) in
              match next with None => Ok None | Some _ => PointerTokens next tokens end
          else if kind =? kind_code Array then
            match arrayIndex token with
            | inl e => Err e
            | inr None => Ok None
            | inr (Some index) =>
                let* next := of_node (n_Index cur index) in
                match next with None => Ok None | Some _ => PointerTokens next tokens end
            end
          else Ok None
      end
  end.

Definition PointerCompiled (v : Node) (pointer : CompiledPointer) : res PointerError Node := PointerTokens v (Tokens pointer).

(** [Index.Pointer] and [Index.PointerCompiled] (index.go). *)
Definition ix_Pointer (t : Index) (pointer : bytes) : res PointerError Node := n_Pointer (Root t) pointer.
Definition ix_PointerCompiled (t : Index) (pointer : CompiledPointer) : res PointerError Node := PointerCompiled (Root t) pointer.

(** ** Walking reference tokens *)

(** The walk on cursors that [resolve] is on trees. *)
Fixpoint resolve_at (path : list bytes) (c : cursor) (t : tree) : res PointerError Node :=
  match path with
  | [] => Ok (Some c)
  | tok :: path =>
      match t with
      | TArr _ ts =>
          match parsePointerIndex tok with
          | inl e => Err e
          | inr None => Ok None
          | inr (Some n) =>
              match ts !! Z.to_nat n with
              | Some v => resolve_at path (elem_cursor c ts (Z.to_nat n)) v
              | None => Ok None
              end
          end
      | TObj _ ms =>
          match last_index tok ms with
          | Some k => match ms !! k with Some m => resolve_at path (value_cursor c ms k) m.2 | None => Ok None end
          | None => Ok None
          end
      | _ => Ok None
      end
  end.

Definition node_outcome (h : bool) (r : res PointerError Node) (o : outcome) : Prop :=
  match o with
  | Found t => exists c, r = Ok (Some c) /\ stands h c t
  | Absent => r = Ok None
  | Failed e => r = Err e
  end.

Lemma last_member_decides {A} (f : (bytes * bytes) * tree -> outcome) tok (ms : members) (o : outcome) (g : outcome -> A) :
  g (foldl (select false) o (map f (filter (fun m : (bytes * bytes) * tree => m.1.2 = tok) ms))) =
  match last_index tok ms with
  | Some k => match ms !! k with Some m => g (f m) | None => g o end
  | None => g o
  end.
Proof.
  revert o. induction ms as [|m ms IH]; intros o; [done|]. cbn [last_index]. case_bool_decide as Hm.
  - rewrite filter_cons_True by done. cbn [map foldl]. rewrite IH. change (select false o (f m)) with (f m).
    destruct (last_index tok ms) as [k|] eqn:E; [|done]. apply last_index_lt in E.
    change ((m :: ms) !! S k) with (ms !! k). destruct (lookup_lt_is_Some_2 ms k E) as [x Hx]. by rewrite Hx.
  - rewrite filter_cons_False by done. rewrite IH. destruct (last_index tok ms) as [k|]; [done|done].
Qed.

Lemma resolve_at_outcome h path c t : stands h c t -> node_outcome h (resolve_at path c t) (resolve false path t).
Proof.
  revert c t. induction path as [|tok path IH]; intros c t Hc; [by exists c|]. destruct t as [| | | |raw ts|raw ms]; try done.
  - cbn [resolve_at resolve]. destruct (parsePointerIndex tok) as [e|[n|]]; [done| |done].
    destruct (ts !! Z.to_nat n) as [v|] eqn:E; [|done]. apply IH. by eapply stands_elem.
  - cbn [resolve_at resolve]. rewrite (last_member_decides _ tok ms Absent (fun x => x)).
    destruct (last_index tok ms) as [k|] eqn:E; [|done]. apply last_index_spec in E as (key & v & Hk & _). rewrite Hk.
    apply IH. by apply (stands_member h c raw ms k key tok v Hc Hk).
Qed.

(** ** One token *)

Section Step.
Context (h : bool) (c : cursor) (t : tree).
Hypothesis Hc : stands h c t.

Lemma array_step n : 0 <= n ->
  n_Index (Some c) n = Ok (match t with TArr _ ts => option_map (fun _ => elem_cursor c ts (Z.to_nat n)) (ts !! Z.to_nat n) | _ => None end).
Proof using Hc. intros Hn. rewrite (node_index h c t Hc). destruct t; try done. by rewrite (if_true (0 <=? n)) by lia. Qed.

(** Both walkers, at a token that is not the last word: [next] continues. *)
Lemma text_step tok path (next : Node -> res PointerError Node) (absent : res PointerError Node) :
  bytes_ok tok -> absent = Ok None ->
  (forall c' v, stands h c' v -> next (Some c') = resolve_at path c' v) ->
  (let* kind := of_node (n_Kind (Some c)) in
  if kind =? kind_code Object then
  let* v := of_node (n_Get (Some c) tok) in match v with None => absent | Some _ => next v end
  else if kind =? kind_code Array then
  match parsePointerIndex tok with
  | inl e => Err e
  | inr None => absent
  | inr (Some index) => let* v := of_node (n_Index (Some c) index) in match v with None => absent | Some _ => next v end
  end
  else absent) = resolve_at (tok :: path) c t.
Proof using Hc.
  intros Hok -> Hnext. rewrite (node_kind h c t Hc). cbn [of_node res_bind]. destruct (get_ref h c t tok Hc Hok) as [Hg _].
  pose proof array_step as Ha. destruct t as [| | | |raw ts|raw ms]; try done; cbn [kind_of kind_code Z.eqb Pos.eqb resolve_at].
  - destruct (parsePointerIndex tok) as [e|[n|]] eqn:E; [done| |done]. apply parsePointerIndex_nonneg in E.
    rewrite Ha by done. cbn [of_node res_bind]. destruct (ts !! Z.to_nat n) as [v|] eqn:Ev; [|done]. apply Hnext. by eapply stands_elem.
  - rewrite Hg. cbn [of_node res_bind tree_members]. unfold found_at. destruct (last_index tok ms) as [k|] eqn:E; [|done].
    apply last_index_spec in E as (key & v & Hk & _). rewrite Hk. apply Hnext. by apply (stands_member h c raw ms k key tok v Hc Hk).
Qed.
End Step.

(** ** The textual walk *)

Section Text.
Context (h : bool) (p : bytes).
Hypothesis Hp : bytes_ok p.

Lemma token_stop i : advance (fun c => negb (c =? SLASH)) p i = (pointerToken p i).1.
Proof using. unfold pointerToken. by destruct (_ =? _)%nat. Qed.

Lemma pointer_loop_ref fuel i c t :
  stands h c t -> (i <= length p)%nat -> (length p - i < fuel)%nat ->
  match mapM unescape_token (split_slash (drop i p)) with
  | Some path => syntax_fault p = None -> pointer_loop (S fuel) p (Some c) i = resolve_at path c t
  | None => syntax_fault p <> None -> exists e, pointer_loop (S fuel) p (Some c) i = Err e
  end.
Proof using Hp.
  revert i c t. induction fuel as [|fuel IH]; intros i c t Hc Hi Hf; [lia|].
  destruct (pointerToken_spec p i Hi) as (Hie & Hn & He & _). set (e := (pointerToken p i).1) in *.
  rewrite (split_at p i e) by done. cbn [mapM]. pose proof (unescapePointerToken_spec (slice p i e)) as Hu.
  assert (Hrun : pointer_loop (S (S fuel)) p (Some c) i =
    let* token := unescapePointerToken (slice p i e) in
    let* kind := of_node (n_Kind (Some c)) in
    if kind =? kind_code Object then
    let* v := of_node (n_Get (Some c) token) in
    match v with None => absent_target p | Some _ => pointer_loop (S fuel) p v (e + 1) end
    else if kind =? kind_code Array then
    match parsePointerIndex token with
    | inl e => Err e
    | inr None => absent_target p
    | inr (Some index) =>
  let* v := of_node (n_Index (Some c) index) in
  match v with None => absent_target p | Some _ => pointer_loop (S fuel) p v (e + 1) end
    end
    else absent_target p).
  { cbn [pointer_loop]. rewrite (proj2 (Nat.leb_le _ _) Hi), token_stop. done. }
  destruct (unescape_token (slice p i e)) as [tok|] eqn:Etok; cbn [mbind option_bind].
  2:{ intros _. destruct Hu as (m & _ & Hu). rewrite Hrun, Hu. by eexists. }
  assert (Htok : bytes_ok tok) by (eapply unescape_bytes; [|exact Etok]; by apply slice_bytes).
  rewrite Hrun, Hu. cbn [res_bind]. clear Hrun.
  assert (Hnext : match mapM unescape_token (if (e =? length p)%nat then [] else split_slash (drop (e + 1) p)) with
    | Some path => syntax_fault p = None -> forall c' v, stands h c' v -> pointer_loop (S fuel) p (Some c') (e + 1) = resolve_at path c' v
    | None => syntax_fault p <> None -> forall c' v, stands h c' v -> exists er, pointer_loop (S fuel) p (Some c') (e + 1) = Err er
    end).
  { destruct (Nat.eqb_spec e (length p)) as [->|Hne].
  - intros _ c' v _. cbn [pointer_loop]. by rewrite (proj2 (Nat.leb_gt _ _)) by lia.
  - specialize (IH (e + 1)%nat). destruct (mapM unescape_token _) as [path|]; intros Hs c' v Hc'; apply (IH c' v); (done || lia). }
    destruct (mapM unescape_token (if _ : bool then _ else _)) as [path|]; cbn [mbind option_bind mret option_ret].
  - intros Hs. apply (text_step h c t Hc); [done| |by apply Hnext]. unfold absent_target. by rewrite validatePointerSyntax_spec, Hs.
  - intros Hs. assert (Habs : exists er, absent_target p = Err er).
    { unfold absent_target. rewrite validatePointerSyntax_spec. destruct (syntax_fault p); [by eexists|done]. }
    rewrite (node_kind h c t Hc). cbn [of_node res_bind]. destruct (get_ref h c t tok Hc Htok) as [Hg _].
    pose proof (array_step h c t Hc) as Ha. destruct t as [| | | |raw ts|raw ms]; try done; cbn [kind_of kind_code Z.eqb Pos.eqb].
    + destruct (parsePointerIndex tok) as [er|[n|]] eqn:E; [by eexists| |done]. apply parsePointerIndex_nonneg in E.
      rewrite Ha by done. cbn [of_node res_bind]. destruct (ts !! Z.to_nat n) as [v|] eqn:Ev; [|done].
      eapply Hnext; [done|]. by eapply stands_elem.
    + rewrite Hg. cbn [of_node res_bind tree_members]. unfold found_at. destruct (last_index tok ms) as [k|] eqn:E; [|done].
      apply last_index_spec in E as (key & v & Hk & _). eapply Hnext; [done|]. by apply (stands_member h c raw ms k key tok v Hc Hk).
Qed.

Lemma n_Pointer_ref c t :
  stands h c t ->
  match pointer_path p with
  | Some path => n_Pointer (Some c) p = resolve_at path c t
  | None => exists e, n_Pointer (Some c) p = Err e
  end.
Proof using Hp.
  intros Hc. pose proof (syntax_fault_path p) as Hs. pose proof (pointer_loop_ref (length p) 1 c t Hc) as H.
  unfold n_Pointer, pointer_path in *. destruct p as [|x s]; [done|].
  destruct (x =? SLASH) eqn:Ex; cbn [negb]; [|by eexists]. specialize (H ltac:(simpl; lia) ltac:(simpl; lia)). change (drop 1 (x :: s)) with s in H.
  destruct (mapM unescape_token (split_slash s)) as [path|].
  - apply H. apply Hs. by eexists.
  - apply H. intros Hno. by destruct (proj1 Hs Hno).
Qed.
End Text.

(** ** The compiled walk *)

Lemma PointerTokens_ref h path ts c t :
  Forall bytes_ok path -> Forall2 token_for path ts -> stands h c t -> PointerTokens (Some c) ts = resolve_at path c t.
Proof.
  intros Hok Hf. revert c t. induction Hf as [|tok tk path ts Ht Hts IH]; intros c t Hc; [done|].
  inversion_clear Hok as [|? ? Htok Hpath]. specialize (IH Hpath). cbn [PointerTokens]. rewrite (node_kind h c t Hc). cbn [of_node res_bind].
  rewrite (token_for_index _ _ Ht). destruct Ht as (Htext & Hhash & _). destruct (stands_entry _ _ _ Hc) as (e & He & Hn). rewrite He.
  destruct t as [| | | |raw es|raw ms]; try done; cbn [kind_of kind_code Z.eqb Pos.eqb resolve_at of_node res_bind].
  - destruct (parsePointerIndex tok) as [er|[n|]] eqn:E; [done| |done]. apply parsePointerIndex_nonneg in E.
    rewrite (array_step h c _ Hc) by done. cbn [of_node res_bind]. destruct (es !! Z.to_nat n) as [v|] eqn:Ev; [|done]. apply IH. by eapply stands_elem.
  - destruct (ne_count _ _ _ _ Hn) as [Hcount Hh]. rewrite Hcount, Hh, Htext, Hhash. destruct ms as [|m ms']; [done|].
    set (ms := m :: ms') in *. rewrite (if_false (Z.of_nat (length ms) =? 0)) by (subst ms; simpl; lia).
    assert (Hg : (if h then getHashedQuery c tok (hash_ref tok) (Z.of_nat (length ms)) else getPlain c tok (Z.of_nat (length ms)))
      = Ok (found_at c ms (last_index tok ms))).
    { destruct h; [by apply (getHashedQuery_ref true c raw)|by apply (getPlain_ref false c raw)]. }
    rewrite Hg. cbn [of_node res_bind]. unfold found_at. destruct (last_index tok ms) as [k|] eqn:E; [|done].
    apply last_index_spec in E as (key & v & Hk & _). rewrite Hk. apply IH. by apply (stands_member h c raw ms k key tok v Hc Hk).
Qed.

(** The tokens of a pointer are bytes. *)
Lemma split_slash_bytes s : bytes_ok s -> Forall bytes_ok (split_slash s).
Proof.
  induction 1 as [|c s Hc Hs IH]; cbn [split_slash]; [by repeat constructor|]. case_step; [by constructor|].
  destruct (split_slash s) as [|t ts]; [by constructor; [constructor|]|]. inversion_clear IH. by constructor; [constructor|].
Qed.

Lemma path_bytes p path : bytes_ok p -> pointer_path p = Some path -> Forall bytes_ok path.
Proof.
  intros Hp. unfold pointer_path. destruct p as [|c s]; [by intros [= <-]|]. destruct (c =? SLASH); [|done].
  inversion_clear Hp as [|? ? _ Hs]. apply split_slash_bytes in Hs. revert path.
  induction Hs as [|t ts Ht _ IH]; cbn [mapM]; intros path E; [by injection E as <-|].
  destruct (unescape_token t) as [tok|] eqn:Et; [|done]. cbn [mbind option_bind] in E.
  destruct (mapM unescape_token ts) as [path'|]; [|done]. injection E as <-. constructor; [by eapply unescape_bytes|by apply IH].
Qed.

Lemma compiled_ref h c t p path cp :
  stands h c t -> bytes_ok p -> pointer_path p = Some path -> CompilePointer p = Ok cp -> PointerCompiled (Some c) cp = resolve_at path c t.
Proof.
  intros Hc Hp Hpath Hcp. pose proof (CompilePointer_spec p Hp) as Hs. rewrite Hpath in Hs. destruct Hs as (ts & Hs & Hf).
  rewrite Hcp in Hs. injection Hs as ->. apply (PointerTokens_ref h); [by eapply path_bytes|done|done].
Qed.

(** ** Properties *)

(** a JSON Pointer resolved on the tape of a tree finds what walking its reference tokens through the tree finds, as a node that stands for it, with the tree's answer for an absent target and for an array index that is not one; the compiled pointer does the same; a text that is not a pointer is an error at the latest when the walk ends, as it is when it is compiled. *)
Theorem Pointer_resolves h c t p :
  stands h c t -> bytes_ok p ->
  match pointer_path p with
  | Some path => node_outcome h (n_Pointer (Some c) p) (resolve false path t) /\
      exists cp, CompilePointer p = Ok cp /\ PointerCompiled (Some c) cp = n_Pointer (Some c) p
  | None => (exists e, n_Pointer (Some c) p = Err e) /\ exists e, CompilePointer p = Err e
  end.
Proof.
  intros Hc Hp. pose proof (n_Pointer_ref h p Hp c t Hc) as H. pose proof (CompilePointer_spec p Hp) as Hs.
  destruct (pointer_path p) as [path|] eqn:E; [|by destruct Hs as (e & _ & Hs); eauto].
  destruct Hs as (ts & Hs & Hf). rewrite H. split; [by apply resolve_at_outcome|]. exists (mkCompiled p ts). split; [done|].
  by apply (compiled_ref h c t p path).
Qed.

Lemma Pointer_resolves_witness :
  exists t, let c := mkCursor (built (js "{'a/b':[0,{'c':null}]}") 8 true) 0 in let p := bs "/a~1b/1/c" in
  match pointer_path p with
  | Some path => node_outcome true (n_Pointer (Some c) p) (resolve false path t) /\
      exists cp, CompilePointer p = Ok cp /\ PointerCompiled (Some c) cp = n_Pointer (Some c) p
  | None => (exists e, n_Pointer (Some c) p = Err e) /\ exists e, CompilePointer p = Err e
  end.
Proof.
  destruct (root_stands (fun _ _ => None) (fun _ => false) (js "{'a/b':[0,{'c':null}]}") 8 (mkIndexOptions 0 true) (built (js "{'a/b':[0,{'c':null}]}") 8 true))
    as (t & _ & _ & _ & H); [concrete_bytes|vm_compute; done|done|by right|vm_compute; reflexivity|].
  exists t. apply Pointer_resolves; [done|concrete_bytes].
Defined.

(** C6: a pointer looked up on the index of a document, hashed or not, textual or compiled, and the source range of the node it finds are exactly what the seeker, which builds nothing, returns for the source: the same bytes, the same absence and the same pointer error. *)
Theorem index_pointer_is_GetRaw engine mode src cap opts ix p cp b :
  bytes_ok src -> Z.of_nat (length src) <= InfoMaxCount -> Z.of_nat cap < 2 ^ 32 -> bytes_ok p ->
  eligible src (maxDepthOrDefault (io_MaxDepth opts)) = false \/ engine src cap = None ->
  buildIndexOptions engine mode src cap opts = Ok ix -> CompilePointer p = Ok cp ->
  ix_PointerCompiled ix cp = ix_Pointer ix p /\
  match ix_Pointer ix p with
  | Ok v => exists raw, n_Raw v = Ok raw /\
      GetRawOptions src p (mkOptions (io_MaxDepth opts) b) = Ok (raw, bool_decide (is_Some v))
  | Err e => GetRawOptions src p (mkOptions (io_MaxDepth opts) b) = Err (RPointer e)
  | _ => False
  end.
Proof.
  intros Hok Hbig Hcap Hp He Hix Hcp.
  destruct (root_stands engine mode src cap opts ix Hok Hbig Hcap He Hix) as (t & Ht & _ & Hroot & Hc).
  pose proof (CompilePointer_spec p Hp) as Hs. pose proof (n_Pointer_ref (HashKeys opts) p Hp _ t Hc) as H.
  destruct (pointer_path p) as [path|] eqn:Hpath; [|by destruct Hs as (e & _ & Hs); rewrite Hs in Hcp].
  unfold ix_PointerCompiled, ix_Pointer. rewrite Hroot, H, (compiled_ref _ _ t p path cp Hc Hp Hpath Hcp). split; [done|].
  apply ref_doc_jdoc in Ht; [|done].
  rewrite (GetRawOptions_doc src p path (mkOptions (io_MaxDepth opts) b) t Hok Hpath Ht).
  pose proof (resolve_at_outcome _ path _ t Hc) as Ho. destruct (resolve false path t) as [v| |e]; cbn [node_outcome] in Ho.
  - destruct Ho as (c' & -> & Hv). exists (raw_of v). split; [by apply (node_raw (HashKeys opts))|done].
  - rewrite Ho. by exists [].
  - by rewrite Ho.
Qed.

Lemma index_pointer_is_GetRaw_witness :
  let src := js "{'a':[1, {'b' : 2}],'a':[3,[4,5]]}" in let p := bs "/a/1/0" in
  exists ix cp, ix_PointerCompiled ix cp = ix_Pointer ix p /\
  match ix_Pointer ix p with
  | Ok v => exists raw, n_Raw v = Ok raw /\ GetRawOptions src p (mkOptions 0 false) = Ok (raw, bool_decide (is_Some v))
  | Err e => GetRawOptions src p (mkOptions 0 false) = Err (RPointer e)
  | _ => False
  end.
Proof.
  eexists (built (js "{'a':[1, {'b' : 2}],'a':[3,[4,5]]}") 20 true), _.
  eapply (index_pointer_is_GetRaw (fun _ _ => None) (fun _ => false) _ 20 (mkIndexOptions 0 true));
    [concrete_bytes|vm_compute; done|done|concrete_bytes|by right|vm_compute; reflexivity|vm_compute; reflexivity].
Defined.
