(* ===== verification/NodeIter.v ===== *)
(** Iteration over the tape: the iterators of [index_iter.go], the materialising
    accessors of [value.go], and the column gather of [index_tapescan.go]. *)

From S2P Require Import Prelude Words Utf8 Scanner Lex Grammar StringRef Errors Numbers Reader Validator FastValid Layout Compact Decode KeyHash Pointer Raw Tape TapeMachine TapeWalk TapeHash TapeParse Node.
From stdpp Require Import gmap.
Open Scope Z_scope.

(** ** Array iterators *)

(** The next entry, nil when the iterator is exhausted, and how many remain. *)
Record ArrayIter : Type := mkArrayIter { ai_entry : option cursor; ai_remaining : Z }.

Definition n_ArrayIter (v : Node) : res unit (ArrayIter * bool) :=
  let* count := n_ArrayLen v in
  match v, count with
  | Some c, Some count =>
      let* entry := (if negb (count =? 0) then let* e := EntryAt c 1 in Ok (Some e) else Ok None) in
      Ok (mkArrayIter entry (w32 count), true)
  | _, _ => Ok (mkArrayIter None 0, false)
  end.

(** The body [Next], [NextKind] and [NextRaw] share: the entry passed over. *)
Definition ai_step (it : ArrayIter) : res unit (option (cursor * ArrayIter)) :=
  if ai_remaining it =? 0 then Ok None
  else
    match ai_entry it with
    | None => Panic
    | Some entry =>
        let remaining := ai_remaining it - 1 in
        if negb (remaining =? 0) then
          let* e := the_entry entry in
          let* next := EntryAt entry (Next e) in
          Ok (Some (entry, mkArrayIter (Some next) remaining))
        else Ok (Some (entry, mkArrayIter None remaining))
    end.

(** [(x, true)] is [Some x]; an exhausted iterator stays as it is. *)
Definition ai_Next (it : ArrayIter) : res unit (option (Node * ArrayIter)) :=
  let* r := ai_step it in
  match r with Some (entry, it) => Ok (Some (Some entry, it)) | None => Ok None end.
Definition ai_NextKind (it : ArrayIter) : res unit (option (Z * ArrayIter)) :=
  let* r := ai_step it in
  match r with Some (entry, it) => let* e := the_entry entry in Ok (Some (entry_Kind e, it)) | None => Ok None end.
Definition ai_NextRaw (it : ArrayIter) : res unit (option (bytes * ArrayIter)) :=
  let* r := ai_step it in
  match r with
  | Some (entry, it) =>
      let* e := the_entry entry in
      let* raw := SliceRange (source_of entry) (Start e) (End_ e) in Ok (Some (raw, it))
  | None => Ok None
  end.

(** ** Object iterators *)

Record ObjectIter : Type := mkObjectIter { oi_entry : option cursor; oi_remaining : Z }.

Definition n_ObjectIter (v : Node) : res unit (ObjectIter * bool) :=
  let* count := n_ObjectLen v in
  match v, count with
  | Some c, Some count =>
      let* entry := (if negb (count =? 0) then let* e := EntryAt c 1 in Ok (Some e) else Ok None) in
      Ok (mkObjectIter entry (w32 count), true)
  | _, _ => Ok (mkObjectIter None 0, false)
  end.

Definition oi_step (it : ObjectIter) : res unit (option (cursor * cursor * ObjectIter)) :=
  if oi_remaining it =? 0 then Ok None
  else
    match oi_entry it with
    | None => Panic
    | Some keyEntry =>
        let* valueEntry := EntryAt keyEntry 1 in
        let remaining := oi_remaining it - 1 in
        if negb (remaining =? 0) then
          let* e := the_entry valueEntry in
          let* next := EntryAt valueEntry (Next e) in
          Ok (Some (keyEntry, valueEntry, mkObjectIter (Some next) remaining))
        else Ok (Some (keyEntry, valueEntry, mkObjectIter None remaining))
    end.

Definition oi_Next (it : ObjectIter) : res unit (option (Node * Node * ObjectIter)) :=
  let* r := oi_step it in
  match r with Some (k, v, it) => Ok (Some (Some k, Some v, it)) | None => Ok None end.
Definition oi_NextRaw (it : ObjectIter) : res unit (option (bytes * bytes * ObjectIter)) :=
  let* r := oi_step it in
  match r with
  | Some (k, v, it) =>
      let* ke := the_entry k in
      let* key := SliceRange (source_of k) (Start ke) (End_ ke) in
      let* ve := the_entry v in
      let* value := SliceRange (source_of v) (Start ve) (End_ ve) in Ok (Some (key, value, it))
  | None => Ok None
  end.

(** [for { x, ok := iter.Next(); if !ok { break }; out = append(out, f(x)) }] *)
Fixpoint drain {I A} (next : I -> res unit (option (A * I))) (fuel : nat) (it : I) : res unit (list A) :=
  match fuel with
  | O => NoFuel
  | S fuel =>
      let* r := next it in
      match r with
      | None => Ok []
      | Some (a, it) => let* l := drain next fuel it in Ok (a :: l)
      end
  end.

(** ** [value.go] *)

(** A [Value] is a node that keeps its document alive. *)
Definition nodeKeyString (key : Node) : res unit bytes :=
  let* b := n_StringBytes key in
  match b with Some b => Ok b | None => let* (out, _) := n_AppendText key [] in Ok out end.

Definition v_Text (v : Node) : res unit (option bytes) :=
  let* k := n_Kind v in
  if negb (k =? kind_code String) then Ok None
  else
    let* b := n_StringBytes v in
    match b with Some b => Ok (Some b) | None => let* (out, _) := n_AppendText v [] in Ok (Some out) end.

Definition v_Array (v : Node) : res unit (option (list Node)) :=
  let* (iter, ok) := n_ArrayIter v in
  if negb ok then Ok None
  else let* out := drain ai_Next (S (Z.to_nat (ai_remaining iter))) iter in Ok (Some out).

(** [Member]: the decoded name and the value. *)
Definition member_next (it : ObjectIter) : res unit (option (bytes * Node * ObjectIter)) :=
  let* r := oi_Next it in
  match r with Some (k, v, it) => let* key := nodeKeyString k in Ok (Some (key, v, it)) | None => Ok None end.

Definition v_Object (v : Node) : res unit (option (list (bytes * Node))) :=
  let* (iter, ok) := n_ObjectIter v in
  if negb ok then Ok None
  else let* out := drain member_next (S (Z.to_nat (oi_remaining iter))) iter in Ok (Some out).

(** The Go shapes of [Any]: [json.Number] keeps the spelling. *)
#[warnings="-register-all"] Inductive any : Type :=
  | AnyNil
  | AnyBool (b : bool)
  | AnyNumber (s : bytes)
  | AnyString (s : bytes)
  | AnySlice (l : list any)
  | AnyMap (m : gmap bytes any).

Definition or_zero {A} (z : A) (o : option A) : A := match o with Some a => a | None => z end.

Fixpoint mapR {A B} (f : A -> res unit B) (l : list A) : res unit (list B) :=
  match l with [] => Ok [] | a :: l => let* b := f a in let* bs := mapR f l in Ok (b :: bs) end.

(** The map a sequence of assignments leaves. *)
Definition assign_all (kvs : list (bytes * any)) : gmap bytes any := foldl (fun m kv => <[kv.1 := kv.2]> m) ∅ kvs.

Fixpoint v_Any (fuel : nat) (v : Node) : res unit any :=
  match fuel with
  | O => NoFuel
  | S fuel =>
      let* k := n_Kind v in
      if k =? kind_code Null then Ok AnyNil
      else if k =? kind_code Bool then let* b := n_Bool v in Ok (AnyBool (or_zero false b))
      else if k =? kind_code Number then let* s := n_NumberBytes v in Ok (AnyNumber (or_zero [] s))
      else if k =? kind_code String then let* s := v_Text v in Ok (AnyString (or_zero [] s))
      else if k =? kind_code Array then
        let* (iter, _) := n_ArrayIter v in
        let* nodes := drain ai_Next (S (Z.to_nat (ai_remaining iter))) iter in
        let* out := mapR (v_Any fuel) nodes in Ok (AnySlice out)
      else if k =? kind_code Object then
        let* (iter, _) := n_ObjectIter v in
        let* kvs := drain member_next (S (Z.to_nat (oi_remaining iter))) iter in
        let* out := mapR (fun kv => let* a := v_Any fuel kv.2 in Ok (kv.1, a)) kvs in
        Ok (AnyMap (assign_all out))
      else Ok AnyNil
  end.

(** ** [AppendColumn] *)

Definition columnValue (entry : cursor) (key : bytes) (queryHash : Z) : res unit bytes :=
  let* e := the_entry entry in
  if negb (entry_Kind e =? kind_code Object) then Ok []
  else
    let memberCount := entry_Count e in
    if memberCount =? 0 then Ok []
    else
      let* found :=
        (if KeysHashed e then
           if Next e =? flat_next memberCount then tapeScanFlatHash entry memberCount key queryHash
           else getHashedQuery entry key queryHash memberCount
         else n_Get (Some entry) key) in
      match found with
      | Some value => let* ve := the_entry value in SliceRange (source_of value) (Start ve) (End_ ve)
      | None => Ok []
      end.

Fixpoint column_loop (remaining : nat) (dst : list bytes) (elem : cursor) (key : bytes) (queryHash : Z) : res unit (list bytes) :=
  match remaining with
  | O => Ok dst
  | S remaining =>
      let* value := columnValue elem key queryHash in
      let dst := dst ++ [value] in
      if (remaining =? 0)%nat then Ok dst
      else
        let* e := the_entry elem in
        let* elem := EntryAt elem (Next e) in
        column_loop remaining dst elem key queryHash
  end.

Definition AppendColumn (v : Node) (dst : list bytes) (key : bytes) : res unit (list bytes * bool) :=
  let* count := n_ArrayLen v in
  match v, count with
  | Some c, Some count =>
      let* queryHash := hash_key key in
      if count =? 0 then Ok (dst, true)
      else
        let* elem := EntryAt c 1 in
        let* dst := column_loop (Z.to_nat count) dst elem key queryHash in Ok (dst, true)
  | _, _ => Ok (dst, false)
  end.

(** ** Iterators go through the parts in order *)

Section Drain.
Context {I A : Type} (next : I -> res unit (option (A * I))) (state : nat -> I) (val : nat -> A) (n : nat).
Hypothesis Hnext : forall k, (k < n)%nat -> next (state k) = Ok (Some (val k, state (S k))).
Hypothesis Hend : next (state n) = Ok None.

Lemma drain_states k : (k <= n)%nat -> drain next (S (n - k)) (state k) = Ok (map val (seq k (n - k))).
Proof using Hnext Hend.
  intros Hk. remember (n - k)%nat as d eqn:Hd. revert k Hk Hd. induction d as [|d IH]; intros k Hk Hd.
  - cbn [drain]. replace k with n by lia. by rewrite Hend.
  - change (drain next (S (S d)) (state k)) with (let* r := next (state k) in
      match r with None => Ok [] | Some (a, it) => let* l := drain next (S d) it in Ok (a :: l) end).
    rewrite Hnext by lia. cbn [res_bind]. by rewrite (IH (S k)) by lia.
Qed.

Lemma drain_all : drain next (S n) (state 0) = Ok (map val (seq 0 n)).
Proof using Hnext Hend. pose proof (drain_states 0 ltac:(lia)) as H. by rewrite Nat.sub_0_r in H. Qed.
End Drain.

(** Reading a list through its places. *)
Lemma map_places {A B} (f : A -> B) (g : nat -> B) (l : list A) :
  (forall k a, l !! k = Some a -> g k = f a) -> map g (seq 0 (length l)) = map f l.
Proof.
  revert g. induction l as [|a l IH]; intros g H; [done|]. cbn [length seq map]. f_equal; [by apply (H 0%nat)|].
  rewrite <- (seq_shift (length l) 0), map_map. apply IH. intros k b Hk. by apply H.
Qed.

Definition array_state (c : cursor) (ts : list tree) (k : nat) : ArrayIter :=
  mkArrayIter (if (k <? length ts)%nat then Some (elem_cursor c ts k) else None) (Z.of_nat (length ts - k)).

Definition object_state (c : cursor) (ms : members) (k : nat) : ObjectIter :=
  mkObjectIter (if (k <? length ms)%nat then Some (key_cursor c ms k) else None) (Z.of_nat (length ms - k)).

Section Array.
Context (h : bool) (c : cursor) (raw : bytes) (ts : list tree).
Hypothesis Hc : stands h c (TArr raw ts).

Lemma ai_step_ref k t :
  ts !! k = Some t -> ai_step (array_state c ts k) = Ok (Some (elem_cursor c ts k, array_state c ts (S k))).
Proof using Hc.
  intros Hk. apply lookup_lt_Some in Hk as Hlt. unfold ai_step, array_state. cbn [ai_remaining ai_entry].
  rewrite (if_false (Z.of_nat (length ts - k) =? 0)) by lia. rewrite (proj2 (Nat.ltb_lt k _)) by done. cbv zeta.
  replace (Z.of_nat (length ts - k) - 1) with (Z.of_nat (length ts - S k)) by lia.
  destruct (Nat.ltb_spec (S k) (length ts)) as [Hlt'|Hge].
  - rewrite (proj2 (Z.eqb_neq (Z.of_nat (length ts - S k)) 0)) by lia. cbn [negb].
    destruct (lookup_lt_is_Some_2 ts (S k) Hlt') as [t' Hk'].
    destruct (elem_next h c raw ts k t t' Hc Hk Hk') as (e & -> & E). cbn [res_bind]. by rewrite E.
  - by rewrite (proj2 (Z.eqb_eq (Z.of_nat (length ts - S k)) 0)) by lia.
Qed.

Lemma ai_step_end : ai_step (array_state c ts (length ts)) = Ok None.
Proof using. unfold ai_step, array_state. cbn [ai_remaining]. by rewrite Nat.sub_diag. Qed.

Lemma array_iter_ref : n_ArrayIter (Some c) = Ok (array_state c ts 0, true).
Proof using Hc.
  unfold n_ArrayIter. rewrite (proj1 (node_len h c _ Hc)). cbn [res_bind tree_len].
  pose proof (stands_bounds _ _ _ Hc) as [Hb Hb']. change InfoMaxCount with 67108863 in Hb.
  unfold array_state, w32. rewrite Nat.sub_0_r, Z.mod_small by lia. destruct ts as [|t ts'] eqn:E; [done|]. rewrite <- E in *.
  rewrite (proj2 (Z.eqb_neq (Z.of_nat (length ts)) 0)) by (rewrite E; simpl; lia). cbn [negb].
  rewrite (elem_first h c raw ts t ts' Hc E). cbn [res_bind]. by rewrite E.
Qed.

(** The three ways to step. *)
Lemma ai_next_at k t :
  ts !! k = Some t ->
  ai_Next (array_state c ts k) = Ok (Some (Some (elem_cursor c ts k), array_state c ts (S k))) /\
  ai_NextKind (array_state c ts k) = Ok (Some (kind_code (kind_of t), array_state c ts (S k))) /\
  ai_NextRaw (array_state c ts k) = Ok (Some (raw_of t, array_state c ts (S k))).
Proof using Hc.
  intros Hk. unfold ai_Next, ai_NextKind, ai_NextRaw. rewrite (ai_step_ref k t Hk). cbn [res_bind].
  pose proof (stands_elem h c raw ts k t Hc Hk) as Hs. pose proof (node_raw h _ t Hs) as Hraw. unfold n_Raw in Hraw.
  destruct (stands_entry _ _ _ Hs) as (e & He & Hn). rewrite He in *. cbn [res_bind] in *. rewrite Hraw, (ne_kind _ _ _ _ Hn). done.
Qed.

Lemma drain_array :
  drain ai_Next (S (length ts)) (array_state c ts 0) = Ok (map (fun k => Some (elem_cursor c ts k)) (seq 0 (length ts))) /\
  drain ai_NextKind (S (length ts)) (array_state c ts 0) = Ok (map (fun t => kind_code (kind_of t)) ts) /\
  drain ai_NextRaw (S (length ts)) (array_state c ts 0) = Ok (map raw_of ts).
Proof using Hc.
  assert (Hend : ai_Next (array_state c ts (length ts)) = Ok None /\ ai_NextKind (array_state c ts (length ts)) = Ok None /\
    ai_NextRaw (array_state c ts (length ts)) = Ok None).
  { unfold ai_Next, ai_NextKind, ai_NextRaw. by rewrite ai_step_end. }
  destruct Hend as (E1 & E2 & E3). split_and!.
  - apply drain_all; [|done]. intros k Hk. destruct (lookup_lt_is_Some_2 ts k Hk) as [t Ht]. by apply (ai_next_at k t).
  - rewrite <- (map_places _ (fun k => or_zero 0 (option_map (fun t => kind_code (kind_of t)) (ts !! k))) ts) by (by intros k a ->).
    apply drain_all; [|done]. intros k Hk. destruct (lookup_lt_is_Some_2 ts k Hk) as [t Ht]. rewrite Ht. by apply (ai_next_at k t).
  - rewrite <- (map_places _ (fun k => or_zero [] (option_map raw_of (ts !! k))) ts) by (by intros k a ->).
    apply drain_all; [|done]. intros k Hk. destruct (lookup_lt_is_Some_2 ts k Hk) as [t Ht]. rewrite Ht. by apply (ai_next_at k t).
Qed.
End Array.

Section Object.
Context (h : bool) (c : cursor) (raw : bytes) (ms : members).
Hypothesis Hc : stands h c (TObj raw ms).

Lemma oi_step_ref k m :
  ms !! k = Some m -> oi_step (object_state c ms k) = Ok (Some (key_cursor c ms k, value_cursor c ms k, object_state c ms (S k))).
Proof using Hc.
  intros Hk. apply lookup_lt_Some in Hk as Hlt. unfold oi_step, object_state. cbn [oi_remaining oi_entry].
  rewrite (if_false (Z.of_nat (length ms - k) =? 0)) by lia. rewrite (proj2 (Nat.ltb_lt k _)) by done.
  rewrite (key_value h c raw ms k m Hc Hk). cbn [res_bind]. cbv zeta.
  replace (Z.of_nat (length ms - k) - 1) with (Z.of_nat (length ms - S k)) by lia.
  destruct (Nat.ltb_spec (S k) (length ms)) as [Hlt'|Hge].
  - rewrite (proj2 (Z.eqb_neq (Z.of_nat (length ms - S k)) 0)) by lia. cbn [negb].
    destruct (lookup_lt_is_Some_2 ms (S k) Hlt') as [m' Hk'].
    destruct (value_next h c raw ms k m m' Hc Hk Hk') as (e & -> & E). cbn [res_bind]. by rewrite E.
  - by rewrite (proj2 (Z.eqb_eq (Z.of_nat (length ms - S k)) 0)) by lia.
Qed.

Lemma oi_step_end : oi_step (object_state c ms (length ms)) = Ok None.
Proof using. unfold oi_step, object_state. cbn [oi_remaining]. by rewrite Nat.sub_diag. Qed.

Lemma object_iter_ref : n_ObjectIter (Some c) = Ok (object_state c ms 0, true).
Proof using Hc.
  unfold n_ObjectIter. rewrite (proj2 (node_len h c _ Hc)). cbn [res_bind tree_len].
  pose proof (stands_bounds _ _ _ Hc) as [Hb Hb']. change InfoMaxCount with 67108863 in Hb.
  unfold object_state, w32. rewrite Nat.sub_0_r, Z.mod_small by lia. destruct ms as [|m ms'] eqn:E; [done|]. rewrite <- E in *.
  rewrite (proj2 (Z.eqb_neq (Z.of_nat (length ms)) 0)) by (rewrite E; simpl; lia). cbn [negb].
  rewrite (key_first h c raw ms m ms' Hc E). cbn [res_bind]. by rewrite E.
Qed.

Lemma key_string k key name t : ms !! k = Some ((key, name), t) ->
  n_Raw (Some (key_cursor c ms k)) = Ok key /\ nodeKeyString (Some (key_cursor c ms k)) = Ok name.
Proof using Hc.
  intros Hk. destruct (stands_member h c raw ms k key name t Hc Hk) as [(e & He & Hn) _].
  destruct (string_node (key_cursor c ms k) e key name (proj1 Hc) He (nm_string _ _ _ _ _ Hn)) as (Hr & Hs & Ha). split; [done|].
  unfold nodeKeyString. rewrite Hs. destruct (has_bs key); cbn [res_bind]; [|done]. by rewrite Ha.
Qed.

Lemma oi_next_at k key name t :
  ms !! k = Some ((key, name), t) ->
  oi_NextRaw (object_state c ms k) = Ok (Some (key, raw_of t, object_state c ms (S k))) /\
  member_next (object_state c ms k) = Ok (Some (name, Some (value_cursor c ms k), object_state c ms (S k))).
Proof using Hc.
  intros Hk. unfold oi_NextRaw, member_next, oi_Next. rewrite (oi_step_ref k _ Hk). cbn [res_bind].
  destruct (key_string k key name t Hk) as [Hr Hs]. rewrite Hs. unfold n_Raw in Hr.
  destruct (stands_member h c raw ms k key name t Hc Hk) as [(e & He & _) Hv]. rewrite He in *. cbn [res_bind] in *. rewrite Hr. cbn [res_bind].
  pose proof (node_raw h _ t Hv) as Hraw. unfold n_Raw in Hraw. destruct (stands_entry _ _ _ Hv) as (e' & He' & _). rewrite He' in *.
  cbn [res_bind] in *. by rewrite Hraw.
Qed.

Definition member_at (k : nat) : bytes * Node := (or_zero [] (option_map (fun m : (bytes * bytes) * tree => m.1.2) (ms !! k)), Some (value_cursor c ms k)).

Lemma drain_object :
  drain oi_NextRaw (S (length ms)) (object_state c ms 0) = Ok (map (fun m => (m.1.1, raw_of m.2)) ms) /\
  drain member_next (S (length ms)) (object_state c ms 0) = Ok (map member_at (seq 0 (length ms))).
Proof using Hc.
  assert (Hend : oi_NextRaw (object_state c ms (length ms)) = Ok None /\ member_next (object_state c ms (length ms)) = Ok None).
  { unfold oi_NextRaw, member_next, oi_Next. by rewrite oi_step_end. }
  destruct Hend as (E1 & E2). split.
  - rewrite <- (map_places _ (fun k => or_zero ([], []) (option_map (fun m : (bytes * bytes) * tree => (m.1.1, raw_of m.2)) (ms !! k))) ms)
      by (by intros k a ->).
    apply drain_all; [|done]. intros k Hk. destruct (lookup_lt_is_Some_2 ms k Hk) as [[[key name] t] Ht]. rewrite Ht.
    by apply (oi_next_at k key name t).
  - apply drain_all; [|done]. intros k Hk. destruct (lookup_lt_is_Some_2 ms k Hk) as [[[key name] t] Ht]. unfold member_at. rewrite Ht.
    by apply (oi_next_at k key name t).
Qed.
End Object.

(** ** Materialising *)

Fixpoint any_of (t : tree) : any :=
  match t with
  | TNull => AnyNil
  | TBool b => AnyBool b
  | TNum raw => AnyNumber raw
  | TStr _ dec => AnyString dec
  | TArr _ ts => AnySlice (map any_of ts)
  | TObj _ ms => AnyMap (assign_all (map (fun m => (m.1.2, any_of m.2)) ms))
  end.

(** A name maps to its last value. *)
Lemma assign_all_lookup kvs k :
  assign_all kvs !! k = foldl (fun o kv => if bool_decide (kv.1 = k) then Some kv.2 else o) None kvs.
Proof.
  unfold assign_all. rewrite <- (lookup_empty (M:=gmap bytes) (A:=any) k). generalize (∅ : gmap bytes any).
  induction kvs as [|[k' a] kvs IH]; intros m; [done|]. cbn [foldl fst snd]. rewrite IH. f_equal. case_bool_decide as E.
  - subst. by rewrite lookup_insert_eq.
  - by rewrite lookup_insert_ne.
Qed.

Lemma mapR_places {A B C} (f : A -> res unit B) (g : nat -> A) (F : C -> B) (l : list C) :
  (forall k a, l !! k = Some a -> f (g k) = Ok (F a)) -> mapR f (map g (seq 0 (length l))) = Ok (map F l).
Proof.
  revert g. induction l as [|a l IH]; intros g H; [done|]. cbn [length seq map mapR]. rewrite (H 0%nat a eq_refl). cbn [res_bind].
  rewrite <- (seq_shift (length l) 0), map_map, (IH (fun k => g (S k))); [done|]. intros k b Hk. by apply H.
Qed.

Lemma size_in_sum {A} (f : A -> nat) l k a : l !! k = Some a -> (f a <= list_sum (map f l))%nat.
Proof.
  revert k. induction l as [|b l IH]; intros k Hk; [done|]. unfold list_sum in *. cbn [map foldr]. destruct k as [|k].
  - injection Hk as ->. lia.
  - specialize (IH k Hk). lia.
Qed.

Lemma v_Text_ref h c t : stands h c t -> v_Text (Some c) = Ok (match t with TStr _ dec => Some dec | _ => None end).
Proof.
  intros Hc. unfold v_Text. rewrite (node_kind h c t Hc). cbn [res_bind]. destruct (node_string h c t Hc) as [Hs Ha].
  destruct t as [| | |raw dec| |]; try done. cbn [kind_of kind_code Z.eqb Pos.eqb negb]. rewrite Hs, Ha.
  destruct (has_bs raw); done.
Qed.

Lemma v_Any_ref h fuel c t : stands h c t -> (tape_size t <= fuel)%nat -> v_Any fuel (Some c) = Ok (any_of t).
Proof.
  revert c t. induction fuel as [|fuel IH]; intros c t Hc Hf; [pose proof (tape_size_pos t); lia|].
  cbn [v_Any]. rewrite (node_kind h c t Hc). cbn [res_bind].
  destruct t as [|b|raw|raw dec|raw ts|raw ms]; cbn [kind_of kind_code Z.eqb Pos.eqb any_of]; [done| | | | |].
  - by rewrite (node_bool h c _ Hc).
  - by rewrite (node_number h c _ Hc).
  - by rewrite (v_Text_ref h c _ Hc).
  - rewrite (array_iter_ref h c raw ts Hc). cbn [res_bind]. cbv zeta. unfold array_state at 1. cbn [ai_remaining].
    rewrite Nat2Z.id, Nat.sub_0_r, (proj1 (drain_array h c raw ts Hc)). cbn [res_bind].
    rewrite (mapR_places (v_Any fuel) _ any_of); [done|]. intros k a Hk. apply IH; [by eapply stands_elem|].
    pose proof (size_in_sum tape_size ts k a Hk). cbn [tape_size] in Hf. lia.
  - rewrite (object_iter_ref h c raw ms Hc). cbn [res_bind]. cbv zeta. unfold object_state at 1. cbn [oi_remaining].
    rewrite Nat2Z.id, Nat.sub_0_r, (proj2 (drain_object h c raw ms Hc)). cbn [res_bind].
    rewrite (mapR_places _ _ (fun m => (m.1.2, any_of m.2))); [done|]. intros k [[key name] a] Hk. unfold member_at. rewrite Hk.
    cbn [snd fst option_map or_zero]. rewrite (IH _ a); [done|by apply (stands_member h c raw ms k key name a Hc Hk)|].
    pose proof (size_in_sum (fun m : (bytes * bytes) * tree => S (tape_size m.2)) ms k _ Hk) as Hs. cbn [tape_size] in Hf. cbn [snd] in Hs. lia.
Qed.

(** ** The column *)

(** One element's cell: the source of its last member with the name. *)
Definition column_of (key : bytes) (t : tree) : bytes :=
  match last_index key (tree_members t) with
  | Some k => match tree_members t !! k with Some m => raw_of m.2 | None => [] end
  | None => []
  end.

Section Column.
Context (h : bool) (key : bytes).
Hypothesis Hkey : bytes_ok key.

Lemma columnValue_ref c t : stands h c t -> columnValue c key (hash_ref key) = Ok (column_of key t).
Proof using Hkey.
  intros Hc. unfold columnValue, column_of. destruct (stands_entry _ _ _ Hc) as (e & He & Hn). rewrite He. cbn [res_bind].
  rewrite (ne_kind _ _ _ _ Hn). destruct t as [| | | | |raw ms]; try done. cbn [kind_of kind_code Z.eqb Pos.eqb negb tree_members].
  destruct (ne_count _ _ _ _ Hn) as [Hcount Hh]. rewrite Hcount, Hh. destruct ms as [|m ms'] eqn:Em; [done|]. rewrite <- Em in *.
  assert (Hne : ms <> []) by by rewrite Em. rewrite (if_false (Z.of_nat (length ms) =? 0)) by (rewrite Em; simpl; lia).
  assert (Hfound : (if h then
    if Next e =? flat_next (Z.of_nat (length ms)) then tapeScanFlatHash c (Z.of_nat (length ms)) key (hash_ref key)
    else getHashedQuery c key (hash_ref key) (Z.of_nat (length ms))
    else n_Get (Some c) key) = Ok (found_at c ms (last_index key ms))).
  { destruct h eqn:Eh; [|by apply (get_ref false c _ key Hc Hkey)].
  pose proof (getHashedQuery_ref true c raw ms key Hc Hne eq_refl) as Hg. unfold getHashedQuery in Hg |- *. rewrite He in Hg |- *. cbn [res_bind] in Hg |- *.
  by destruct (Next e =? flat_next _). }
  rewrite Hfound. cbn [res_bind]. unfold found_at. destruct (last_index key ms) as [k|] eqn:E; [|done]. cbn [option_map].
  apply last_index_spec in E as (kraw & v & Hk & _). rewrite Hk.
  destruct (stands_member h c raw ms k kraw key v Hc Hk) as [_ Hv]. pose proof (node_raw h _ v Hv) as Hraw. unfold n_Raw in Hraw.
  destruct (stands_entry _ _ _ Hv) as (e' & He' & _). by rewrite He' in *.
Qed.

Lemma column_loop_ref c raw ts n k dst :
  stands h c (TArr raw ts) -> (k + n = length ts)%nat -> (0 < n)%nat ->
  column_loop n dst (elem_cursor c ts k) key (hash_ref key) = Ok (dst ++ map (column_of key) (drop k ts)).
Proof using Hkey.
  intros Hc. revert k dst. induction n as [|n IH]; intros k dst Hk Hn; [lia|]. cbn [column_loop].
  destruct (lookup_lt_is_Some_2 ts k) as [t Ht]; [lia|]. rewrite (columnValue_ref _ t) by by eapply stands_elem. cbn [res_bind]. cbv zeta.
  rewrite (lookup_Some_drop _ _ _ Ht). cbn [map]. destruct (Nat.eqb_spec n 0) as [->|Hn0]; [by rewrite drop_ge by lia|].
  destruct (lookup_lt_is_Some_2 ts (S k)) as [t' Ht']; [lia|]. destruct (elem_next h c raw ts k t t' Hc Ht Ht') as (e & -> & E).
  cbn [res_bind]. rewrite E. cbn [res_bind]. rewrite IH by lia. by rewrite <- app_assoc.
Qed.

Lemma AppendColumn_ref c t dst :
  stands h c t ->
  AppendColumn (Some c) dst key = Ok (match t with TArr _ ts => (dst ++ map (column_of key) ts, true) | _ => (dst, false) end).
Proof using Hkey.
  intros Hc. unfold AppendColumn. rewrite (proj1 (node_len h c t Hc)). cbn [res_bind]. destruct t as [| | | |raw ts|]; try done. cbn [tree_len].
  rewrite hash_key_ref by done. cbn [res_bind]. destruct ts as [|t ts'] eqn:E; [by rewrite app_nil_r|]. rewrite <- E in *.
  rewrite (if_false (Z.of_nat (length ts) =? 0)) by (rewrite E; simpl; lia). rewrite (elem_first h c raw ts t ts' Hc E). cbn [res_bind].
  rewrite Nat2Z.id, (column_loop_ref c raw) by (done || (rewrite E; simpl; lia)). by rewrite drop_0.
Qed.
End Column.

(** ** Properties *)

(** C32: the iterators of a container yield its parts once each, in document order, and then stop: an array's nodes, each standing for its element, its kinds and its exact sources; an object's name and value sources, and its members with their decoded names; a node of another kind has an exhausted iterator. *)
Theorem iterators_enumerate h c t :
  stands h c t ->
  match t with
  | TArr _ ts => exists it, n_ArrayIter (Some c) = Ok (it, true) /\
      drain ai_NextRaw (S (length ts)) it = Ok (map raw_of ts) /\
      drain ai_NextKind (S (length ts)) it = Ok (map (fun t => kind_code (kind_of t)) ts) /\
      v_Array (Some c) = Ok (Some (map (fun k => Some (elem_cursor c ts k)) (seq 0 (length ts)))) /\
      forall k v, ts !! k = Some v -> stands h (elem_cursor c ts k) v
  | TObj _ ms => exists it, n_ObjectIter (Some c) = Ok (it, true) /\
      drain oi_NextRaw (S (length ms)) it = Ok (map (fun m => (m.1.1, raw_of m.2)) ms) /\
      v_Object (Some c) = Ok (Some (map (member_at c ms) (seq 0 (length ms)))) /\
      forall k key name v, ms !! k = Some ((key, name), v) ->
        member_at c ms k = (name, Some (value_cursor c ms k)) /\ stands h (value_cursor c ms k) v
  | _ => n_ArrayIter (Some c) = Ok (mkArrayIter None 0, false) /\ n_ObjectIter (Some c) = Ok (mkObjectIter None 0, false)
  end.
Proof.
  intros Hc. destruct (node_len h c t Hc) as [Hl Ho]. destruct t as [| | | |raw ts|raw ms].
  1-4: by unfold n_ArrayIter, n_ObjectIter; rewrite Hl, Ho.
  - destruct (drain_array h c raw ts Hc) as (D1 & D2 & D3). pose proof (array_iter_ref h c raw ts Hc) as Hit.
    exists (array_state c ts 0). split_and!; [done|done|done| |intros k v; by apply (stands_elem h c raw)].
    unfold v_Array. rewrite Hit. cbn [res_bind negb array_state ai_remaining]. by rewrite Nat2Z.id, Nat.sub_0_r, D1.
  - destruct (drain_object h c raw ms Hc) as (D1 & D2). pose proof (object_iter_ref h c raw ms Hc) as Hit.
    exists (object_state c ms 0). split_and!; [done|done| |].
    + unfold v_Object. rewrite Hit. cbn [res_bind negb object_state oi_remaining]. by rewrite Nat2Z.id, Nat.sub_0_r, D2.
    + intros k key name v Hk. split; [by unfold member_at; rewrite Hk|]. by apply (stands_member h c raw ms k key name v Hc Hk).
Qed.

Lemma iterators_enumerate_witness :
  exists t, let c := mkCursor (built (js "[1,[true,{}],'x']") 9 false) 0 in
  match t with
  | TArr _ ts => exists it, n_ArrayIter (Some c) = Ok (it, true) /\
      drain ai_NextRaw (S (length ts)) it = Ok (map raw_of ts) /\
      drain ai_NextKind (S (length ts)) it = Ok (map (fun t => kind_code (kind_of t)) ts) /\
      v_Array (Some c) = Ok (Some (map (fun k => Some (elem_cursor c ts k)) (seq 0 (length ts)))) /\
      forall k v, ts !! k = Some v -> stands false (elem_cursor c ts k) v
  | TObj _ ms => exists it, n_ObjectIter (Some c) = Ok (it, true) /\
      drain oi_NextRaw (S (length ms)) it = Ok (map (fun m => (m.1.1, raw_of m.2)) ms) /\
      v_Object (Some c) = Ok (Some (map (member_at c ms) (seq 0 (length ms)))) /\
      forall k key name v, ms !! k = Some ((key, name), v) ->
        member_at c ms k = (name, Some (value_cursor c ms k)) /\ stands false (value_cursor c ms k) v
  | _ => n_ArrayIter (Some c) = Ok (mkArrayIter None 0, false) /\ n_ObjectIter (Some c) = Ok (mkObjectIter None 0, false)
  end.
Proof.
  destruct (root_stands (fun _ _ => None) (fun _ => false) (js "[1,[true,{}],'x']") 9 (mkIndexOptions 0 false) (built (js "[1,[true,{}],'x']") 9 false))
    as (t & _ & _ & _ & H); [concrete_bytes|vm_compute; done|done|by right|vm_compute; reflexivity|].
  exists t. by apply iterators_enumerate.
Defined.

(** C31: materialising a node ends and gives the Go value of its tree: null, booleans, number spellings, decoded strings, slices in order, and maps in which each decoded name has the value of its last member. *)
Theorem Any_materialises h c t fuel :
  stands h c t -> (tape_size t <= fuel)%nat ->
  v_Any fuel (Some c) = Ok (any_of t) /\
  forall kvs k, assign_all kvs !! k = foldl (fun o kv => if bool_decide (kv.1 = k) then Some kv.2 else o) None kvs.
Proof. intros Hc Hf. split; [by apply (v_Any_ref h)|]. intros kvs k. apply assign_all_lookup. Qed.

Lemma Any_materialises_witness :
  exists t, let c := mkCursor (built (js "{'a':[1,null],'\u0061':true}") 9 true) 0 in
  v_Any (tape_size t) (Some c) = Ok (any_of t) /\
  forall kvs k, assign_all kvs !! k = foldl (fun o kv => if bool_decide (kv.1 = k) then Some kv.2 else o) None kvs.
Proof.
  destruct (root_stands (fun _ _ => None) (fun _ => false) (js "{'a':[1,null],'\u0061':true}") 9 (mkIndexOptions 0 true)
    (built (js "{'a':[1,null],'\u0061':true}") 9 true))
    as (t & _ & _ & _ & H); [concrete_bytes|vm_compute; done|done|by right|vm_compute; reflexivity|].
  exists t. by apply (Any_materialises true).
Defined.

(** gathering a column appends one cell per element of an array, in order: the exact source of the last member with the key, and an empty cell where the element is not an object or has none, whether the objects are flat or nested, hashed or not; a node that is not an array leaves the destination alone. *)
Theorem AppendColumn_cells h c t dst key :
  stands h c t -> bytes_ok key ->
  AppendColumn (Some c) dst key = Ok (match t with TArr _ ts => (dst ++ map (column_of key) ts, true) | _ => (dst, false) end).
Proof. intros Hc Hk. by apply (AppendColumn_ref h). Qed.

Lemma AppendColumn_cells_witness :
  exists t, AppendColumn (Some (mkCursor (built (js "[{'a':1,'b':2},{'b':3,'b':[]},4,{}]") 20 true) 0)) [bs "x"] (bs "b") =
    Ok (match t with TArr _ ts => ([bs "x"] ++ map (column_of (bs "b")) ts, true) | _ => ([bs "x"], false) end).
Proof.
  destruct (root_stands (fun _ _ => None) (fun _ => false) (js "[{'a':1,'b':2},{'b':3,'b':[]},4,{}]") 20 (mkIndexOptions 0 true)
    (built (js "[{'a':1,'b':2},{'b':3,'b':[]},4,{}]") 20 true))
    as (t & _ & _ & _ & H); [concrete_bytes|vm_compute; done|done|by right|vm_compute; reflexivity|].
  exists t. apply (AppendColumn_cells true); [done|concrete_bytes].
Defined.
