(* ===== verification/FieldCursor.v ===== *)
(** [field_cursor.go]: a lookup that resumes after its last hit and wraps once.
    The state of a cursor on an object is the ordinal of the next member to
    look at; [Find] is a search from there around the object. *)

From S2P Require Import Prelude Words Utf8 Scanner Lex Grammar StringRef Errors Numbers Reader Validator FastValid Layout Compact Decode KeyHash Pointer Raw Tape TapeMachine TapeWalk TapeHash TapeParse Node.

(** The zero cursor has no first entry. *)
Record FieldCursor : Type := mkFields {
  fc_first : option cursor;
  fc_pos : option cursor;
  fc_step : Z;
  fc_count : Z;
  fc_index : Z;
  fc_hashed : bool
  }.

Definition Fields (v : Node) : res unit FieldCursor :=
  let* count := n_ObjectLen v in
  match v, count with
  | Some c, Some count =>
      if count =? 0 then Ok (mkFields None None 0 0 0 false)
      else
        let* first := EntryAt c 1 in
        let* e := the_entry c in
        let step := if Next e =? flat_next count then 2 else 0 in
        Ok (mkFields (Some first) (Some first) step (w32 count) 0 (KeysHashed e))
  | _, _ => Ok (mkFields None None 0 0 0 false)
  end.

Definition nextKeyEntry (f : FieldCursor) (keyEntry : cursor) : res unit cursor :=
  if negb (fc_step f =? 0) then EntryAt keyEntry (fc_step f)
  else
    let* valueEntry := EntryAt keyEntry 1 in
    let* e := the_entry valueEntry in
    EntryAt valueEntry (Next e).

(** [c.pos = pos; c.index = index] *)
Definition at_member (f : FieldCursor) (pos : option cursor) (index : Z) : FieldCursor :=
  mkFields (fc_first f) pos (fc_step f) (fc_count f) index (fc_hashed f).

Definition field_candidate (hashed : bool) (rawLen queryHash : Z) : IndexEntry -> bool :=
  if hashed then hash_candidate queryHash else plain_candidate rawLen.

(** [remaining] members are left to scan. *)
Fixpoint find_loop (remaining : nat) (f : FieldCursor) (first : cursor) (key : bytes) (candidate : IndexEntry -> bool)
    (keyEntry : cursor) (index : Z) : res unit (Node * FieldCursor) :=
  match remaining with
  | O => Ok (None, at_member f (Some first) 0)
  | S remaining =>
      let* hit := key_matches key candidate keyEntry in
      if (hit : bool) then
        let* valueEntry := EntryAt keyEntry 1 in
        let next := w32 (index + 1) in
        if next =? fc_count f then Ok (Some valueEntry, at_member f (Some first) 0)
        else let* pos := nextKeyEntry f keyEntry in Ok (Some valueEntry, at_member f (Some pos) next)
      else
        let index := w32 (index + 1) in
        if index =? fc_count f then find_loop remaining f first key candidate first 0
        else let* keyEntry := nextKeyEntry f keyEntry in find_loop remaining f first key candidate keyEntry index
  end.

Definition findEntryQuery (f : FieldCursor) (key : bytes) (queryHash : Z) : res unit (Node * FieldCursor) :=
  match fc_first f with
  | None => Ok (None, f)
  | Some first =>
      let rawLen := w32 (w32 (Z.of_nat (length key)) + 2) in
      match fc_pos f with
      | None => Panic
      | Some pos =>
          find_loop (Z.to_nat (fc_count f)) f first key (field_candidate (fc_hashed f) rawLen queryHash) pos (fc_index f)
      end
  end.

Definition fc_Find (f : FieldCursor) (key : bytes) : res unit (Node * FieldCursor) :=
  let* queryHash := (if fc_hashed f then hash_key key else Ok 0) in
  findEntryQuery f key queryHash.

Definition fc_FindCompiled (f : FieldCursor) (k : CompiledKey) : res unit (Node * FieldCursor) :=
  findEntryQuery f (ck_Key k) (ck_Hash k).

(** ** The search around the object *)

Fixpoint first_index (key : bytes) (ms : members) : option nat :=
  match ms with
  | [] => None
  | m :: ms => if bool_decide (m.1.2 = key) then Some 0%nat else option_map S (first_index key ms)
  end.

(** The first match in the members from [i] on, then those before it. *)
Definition cyclic_find (key : bytes) (ms : members) (i : nat) : option nat :=
  option_map (fun j => (i + j) mod length ms)%nat (first_index key (drop i ms ++ take i ms)).

Lemma rotated_lookup {A} (l : list A) i s :
  (i < length l)%nat -> (s < length l)%nat -> (drop i l ++ take i l) !! s = l !! ((i + s) mod length l)%nat.
Proof.
  intros Hi Hs. destruct (Nat.lt_ge_cases (i + s) (length l)) as [Hlt|Hge].
  - rewrite Nat.mod_small by done. rewrite lookup_app_l by (rewrite length_drop; lia). by rewrite lookup_drop.
  - rewrite lookup_app_r by (rewrite length_drop; lia). rewrite length_drop.
    assert (Hm : ((i + s) mod length l = s - (length l - i))%nat).
    { symmetry. apply (Nat.mod_unique _ _ 1); lia. }
    rewrite Hm. apply lookup_take_lt. lia.
Qed.

Lemma next_mod n p : (p < n)%nat -> (S p mod n = if (S p =? n)%nat then 0 else S p)%nat.
Proof.
  intros Hp. destruct (Nat.eqb_spec (S p) n) as [<-|Hne]; [by apply Nat.Div0.mod_same|apply Nat.mod_small; lia].
Qed.

Lemma first_index_spec key ms :
  match first_index key ms with
  | Some k => exists raw t, ms !! k = Some ((raw, key), t) /\ forall j m, (j < k)%nat -> ms !! j = Some m -> m.1.2 <> key
  | None => forall j m, ms !! j = Some m -> m.1.2 <> key
  end.
Proof.
  induction ms as [|[[raw name] t] ms IH]; [done|]. cbn [first_index fst snd]. case_bool_decide as Hm.
  - subst. exists raw, t. split; [done|lia].
  - destruct (first_index key ms) as [k|]; cbn [option_map].
    + destruct IH as (raw' & t' & Hk & Hlt). exists raw', t'. split; [done|]. intros [|j] m Hj E; [by injection E as <-|]. apply (Hlt j); [lia|done].
    + intros [|j] m E; [by injection E as <-|by apply (IH j)].
Qed.

Section Find.
Context (h : bool) (c : cursor) (raw : bytes) (ms : members) (key : bytes).
Hypothesis Hc : stands h c (TObj raw ms).
Hypothesis Hne : ms <> [].
Hypothesis Hkey : bytes_ok key.
Abbreviation n := (length ms).

Definition flat : bool := (members_size ms =? 2 * n)%nat.

(** The cursor that looks at member [i] next. *)
Definition fields_at (i : nat) : FieldCursor :=
  mkFields (Some (key_cursor c ms 0)) (Some (key_cursor c ms i)) (if flat then 2 else 0) (Z.of_nat n) (Z.of_nat i) h.

Lemma members_nonempty : (0 < n)%nat.
Proof using Hne. clear -Hne. destruct ms; [done|simpl; lia]. Qed.

Lemma Fields_ref : Fields (Some c) = Ok (fields_at 0).
Proof using Hc Hne.
  unfold Fields. rewrite (proj2 (node_len h c _ Hc)). cbn [res_bind tree_len]. pose proof members_nonempty.
  destruct (stands_entry _ _ _ Hc) as (e & He & Hn). rewrite (if_false (Z.of_nat n =? 0)) by lia.
  rewrite (get_first h c raw ms Hc Hne), He. cbn [res_bind].
  pose proof (stands_bounds _ _ _ Hc) as [Hb Hb']. rewrite (ne_next _ _ _ _ Hn), flat_test by (done || (cbn [tape_size]; unfold members_size; done)).
  rewrite (proj2 (ne_count _ _ _ _ Hn)). change InfoMaxCount with 67108863 in Hb. unfold fields_at, flat, w32. by rewrite Z.mod_small by lia.
Qed.

Lemma nextKeyEntry_ref i k : (S k < n)%nat -> nextKeyEntry (fields_at i) (key_cursor c ms k) = Ok (key_cursor c ms (S k)).
Proof using Hc.
  clear Hkey. intros Hk. destruct (lookup_lt_is_Some_2 ms k) as [m Hm]; [lia|]. destruct (lookup_lt_is_Some_2 ms (S k) Hk) as [m' Hm'].
  unfold nextKeyEntry. cbn [fields_at fc_step]. unfold flat. destruct (Nat.eqb_spec (members_size ms) (2 * n)) as [Hflat|_]; cbn [Z.eqb negb].
  - destruct m' as [[kraw name] t]. destruct (stands_member h c raw ms (S k) kraw name t Hc Hm') as [(e & He & _) _].
    eapply EntryAt_to; [done| |exact He]. cbn [key_cursor nd_at]. rewrite !(flat_members ms Hflat). lia.
  - rewrite (key_value h c raw ms k m Hc Hm). cbn [res_bind]. destruct (value_next h c raw ms k m m' Hc Hm Hm') as (e & -> & E).
    cbn [res_bind]. exact E.
Qed.

(** The scan after [s] members, at the next of the rotated list. *)
Lemma find_loop_ref candidate i r s :
  sound_filter h (source_of c) key candidate -> (i < n)%nat -> (s + r = n)%nat ->
  find_loop r (fields_at i) (key_cursor c ms 0) key candidate (key_cursor c ms ((i + s) mod n)) (Z.of_nat ((i + s) mod n)) =
  Ok (match first_index key (drop s (drop i ms ++ take i ms)) with
  | Some j => (Some (value_cursor c ms ((i + s + j) mod n)), fields_at (S ((i + s + j) mod n) mod n))
  | None => (None, fields_at 0)
  end).
Proof using Hc Hne.
  clear Hkey. intros Hf Hi. pose proof (stands_bounds _ _ _ Hc) as [Hb Hb']. change InfoMaxCount with 67108863 in Hb.
  assert (Hrot : length (drop i ms ++ take i ms) = n) by (rewrite length_app, length_drop, length_take; lia).
  revert s. induction r as [|r IH]; intros s Hs; [by rewrite drop_ge by lia|]. cbn [find_loop].
  set (p := ((i + s) mod n)%nat) in *. assert (Hp : (p < n)%nat) by (apply Nat.mod_upper_bound; lia).
  destruct (lookup_lt_is_Some_2 ms p Hp) as [m Hm]. rewrite (key_matches_ref h c raw ms key Hc candidate p m Hf Hm). cbn [res_bind].
  assert (Hl : (drop i ms ++ take i ms) !! s = Some m) by (rewrite rotated_lookup by lia; done).
  rewrite (lookup_Some_drop _ _ _ Hl). cbn [first_index].
  replace (w32 (Z.of_nat p + 1)) with (Z.of_nat (S p)) by (unfold w32; rewrite Z.mod_small; lia).
  assert (Hnext : (S p mod n = (i + S s) mod n)%nat).
  { subst p. rewrite <- Nat.add_1_r, Nat.Div0.add_mod_idemp_l. f_equal. lia. }
  pose proof (next_mod n p Hp) as Hw. cbn [fields_at fc_count].
  case_bool_decide as Hmk.
  - rewrite (key_value h c raw ms p m Hc Hm). cbn [res_bind]. cbv zeta. rewrite Nat.add_0_r. fold p. rewrite Hw.
    destruct (Nat.eqb_spec (S p) n) as [E|E]; [by rewrite (if_true (Z.of_nat (S p) =? Z.of_nat n)) by lia|].
    rewrite (if_false (Z.of_nat (S p) =? Z.of_nat n)) by lia. by rewrite nextKeyEntry_ref by lia.
  - cbv zeta. specialize (IH (S s) ltac:(lia)). rewrite <- Hnext, Hw in IH.
    assert (Hj : forall o : option nat, match option_map S o with
      | Some j => (Some (value_cursor c ms ((i + s + j) mod n)), fields_at (S ((i + s + j) mod n) mod n))
      | None => (None, fields_at 0) end =
      match o with
      | Some j => (Some (value_cursor c ms ((i + S s + j) mod n)), fields_at (S ((i + S s + j) mod n) mod n))
      | None => (None, fields_at 0) end).
    { intros [j|]; [|done]. cbn [option_map]. by replace (i + s + S j)%nat with (i + S s + j)%nat by lia. }
    rewrite Hj. destruct (Nat.eqb_spec (S p) n) as [E|E].
    + rewrite (if_true (Z.of_nat (S p) =? Z.of_nat n)) by lia. exact IH.
    + rewrite (if_false (Z.of_nat (S p) =? Z.of_nat n)) by lia. rewrite nextKeyEntry_ref by lia. exact IH.
Qed.

Lemma find_ref i : (i < n)%nat ->
  let answer := Ok (match cyclic_find key ms i with
  | Some k => (Some (value_cursor c ms k), fields_at (S k mod n))
  | None => (None, fields_at 0) end) in
  fc_Find (fields_at i) key = answer /\ fc_FindCompiled (fields_at i) (mkKey key (hash_ref key)) = answer.
Proof using Hc Hne Hkey.
  intros Hi answer. set (q := if h then hash_ref key else 0).
  assert (Hq : forall q', (h = true -> q' = hash_ref key) -> findEntryQuery (fields_at i) key q' = answer).
  { intros q' Hq'. unfold findEntryQuery. cbn [fields_at fc_first fc_pos fc_count fc_hashed fc_index]. rewrite Nat2Z.id.
  pose proof (find_loop_ref (field_candidate h (w32 (w32 (Z.of_nat (length key)) + 2)) q') i n 0) as H.
  rewrite Nat.add_0_r, (Nat.mod_small i) in H by done. rewrite H; [| |done|lia].
  - unfold answer, cyclic_find. rewrite drop_0. destruct (first_index key _) as [j|]; done.
  - unfold field_candidate. destruct h; [rewrite Hq' by done; apply hash_filter|apply plain_filter, (proj1 Hc)]. }
    split; [|by apply Hq]. unfold fc_Find. cbn [fields_at fc_hashed]. destruct h.
  - rewrite hash_key_ref by done. by apply Hq.
  - by apply Hq.
Qed.
End Find.

(** ** Properties *)

(** C24: a field cursor starts at the first member; from any position, looking a key up, plain or compiled, finds the first member with that decoded name at or after the position, wrapping once, and moves to the member after it; a key the object does not have moves the cursor back to the first member. *)
Theorem FieldCursor_resumes h c raw ms key i :
  stands h c (TObj raw ms) -> bytes_ok key -> (i < length ms)%nat ->
  let f := fields_at h c ms i in
  Fields (Some c) = Ok (fields_at h c ms 0) /\
  fc_FindCompiled f (mkKey key (hash_ref key)) = fc_Find f key /\
  match cyclic_find key ms i with
  | Some k => exists kraw v, ms !! k = Some ((kraw, key), v) /\ stands h (value_cursor c ms k) v /\
      fc_Find f key = Ok (Some (value_cursor c ms k), fields_at h c ms (S k mod length ms))
  | None => (forall j m, ms !! j = Some m -> m.1.2 <> key) /\ fc_Find f key = Ok (None, fields_at h c ms 0)
  end.
Proof.
  intros Hc Hkey Hi f. subst f. assert (Hne : ms <> []) by (intros ->; simpl in Hi; lia).
  destruct (find_ref h c raw ms key Hc Hne Hkey i Hi) as [Hf Hfc]. split; [by eapply Fields_ref|]. split; [by rewrite Hfc, <- Hf|].
  unfold cyclic_find in *. pose proof (first_index_spec key (drop i ms ++ take i ms)) as Hs.
  destruct (first_index key (drop i ms ++ take i ms)) as [j|]; cbn [option_map] in *.
  - destruct Hs as (kraw & v & Hj & _). exists kraw, v. apply lookup_lt_Some in Hj as Hlt. rewrite length_app, length_drop, length_take in Hlt.
    rewrite rotated_lookup in Hj by lia. split_and!; [done|by apply (stands_member h c raw ms _ kraw key v Hc Hj)|done].
  - split; [|done]. intros k m Hk. destruct (Nat.lt_ge_cases k i) as [Hlt|Hge].
    + apply (Hs (length ms - i + k)%nat). rewrite rotated_lookup by lia. rewrite <- Hk. f_equal. symmetry. apply (Nat.mod_unique _ _ 1); lia.
    + apply lookup_lt_Some in Hk as Hk'. apply (Hs (k - i)%nat). rewrite rotated_lookup by lia. rewrite <- Hk. f_equal.
      replace (i + (k - i))%nat with k by lia. by apply Nat.mod_small.
Qed.

Lemma FieldCursor_resumes_witness :
  exists raw ms, let c := mkCursor (built (js "{'a':1,'b':2,'\u0061':3}") 9 true) 0 in
  let f := fields_at true c ms 1 in
  stands true c (TObj raw ms) /\
  Fields (Some c) = Ok (fields_at true c ms 0) /\
  fc_FindCompiled f (mkKey (bs "a") (hash_ref (bs "a"))) = fc_Find f (bs "a") /\
  match cyclic_find (bs "a") ms 1 with
  | Some k => exists kraw v, ms !! k = Some ((kraw, bs "a"), v) /\ stands true (value_cursor c ms k) v /\
      fc_Find f (bs "a") = Ok (Some (value_cursor c ms k), fields_at true c ms (S k mod length ms))
  | None => (forall j m, ms !! j = Some m -> m.1.2 <> bs "a") /\ fc_Find f (bs "a") = Ok (None, fields_at true c ms 0)
  end.
Proof.
  destruct (root_stands (fun _ _ => None) (fun _ => false) (js "{'a':1,'b':2,'\u0061':3}") 9 (mkIndexOptions 0 true)
    (built (js "{'a':1,'b':2,'\u0061':3}") 9 true))
    as (t & Ht & _ & _ & H); [concrete_bytes|vm_compute; done|done|by right|vm_compute; reflexivity|].
  vm_compute in Ht. injection Ht as <-. eexists _, _. split; [exact H|].
  apply (FieldCursor_resumes true _ _ _ _ _ H); [concrete_bytes|simpl; lia].
Defined.
