(* ===== verification/Probe.v ===== *)
(** [index_probe.go]: an open-addressed table over one object's members.  The
    table holds the last member of every unescaped name; members with an escape
    in their name are kept aside in document order.  The table is at most half
    full, so a probe always stops; a lookup agrees with [Node.Get]. *)

From S2P Require Import Prelude OpenAddr Words Utf8 Scanner Lex Grammar StringRef Errors Numbers Reader Validator FastValid Layout Compact Decode KeyHash Pointer Raw Tape TapeMachine TapeWalk TapeHash TapeParse Node.

(** An empty slot has offset 0. *)
Record ProbeSlot : Type := mkSlot { sl_hash : Z; sl_off : Z }.

Record ObjectProbe : Type := mkProbe {
  op_header : option cursor;
  op_table : list ProbeSlot;
  op_escaped : list ProbeSlot;
  op_mask : Z
  }.

(** [bits.Len] of a word. *)
Definition bits_Len (x : Z) : Z := if x <=? 0 then 0 else Z.log2 x + 1.

Definition ProbeCapacity (count : Z) : Z := Z.shiftl 1 (bits_Len (w64 (2 * count - 1))).

(** Walks the members; [f] sees each key entry and its offset from the header. *)
Fixpoint member_loop {S} (f : S -> cursor -> Z -> res unit S) (remaining : nat) (keyEntry : cursor) (off : Z) (s : S) : res unit S :=
  match remaining with
  | O => Ok s
  | Datatypes.S remaining =>
      let* s := f s keyEntry off in
      if (remaining =? 0)%nat then Ok s
      else
        let* valueEntry := EntryAt keyEntry 1 in
        let* e := the_entry valueEntry in
        let* keyEntry := EntryAt valueEntry (Next e) in
        member_loop f remaining keyEntry (w32 (off + (1 + Next e))) s
  end.

Definition RequiredProbeSlots (v : Node) : res unit Z :=
  let* count := n_ObjectLen v in
  match v, count with
  | Some c, Some count =>
      if count =? 0 then Ok 0
      else
        let* keyEntry := EntryAt c 1 in
        let* escaped := member_loop (fun escaped k _ =>
          let* e := the_entry k in Ok (if has_flag e TapeFlagEscaped then escaped + 1 else escaped)) (Z.to_nat count) keyEntry 1 0 in
        Ok (ProbeCapacity count + escaped)
  | _, _ => Ok 0
  end.

(** The bytes between the quotes of the key at [off]. *)
Definition key_content (header : cursor) (off : Z) : res unit bytes :=
  let* k := EntryAt header off in
  let* e := the_entry k in
  SliceRange (source_of header) (w32 (Start e + 1)) (w32 (End_ e - 1)).

(** Both loops over the table: from [idx], the first slot that is empty or holds
    [hash] and passes [same]. *)
Fixpoint probe_search (fuel : nat) (table : list ProbeSlot) (mask hash : Z) (same : Z -> res unit bool) (idx : Z) :
    res unit (Z * ProbeSlot) :=
  match fuel with
  | O => NoFuel
  | S fuel =>
      match table !! Z.to_nat idx with
      | None => Panic
      | Some slot =>
          if sl_off slot =? 0 then Ok (idx, slot)
          else
            let* hit := (if sl_hash slot =? hash then same (sl_off slot) else Ok false) in
            if (hit : bool) then Ok (idx, slot)
            else probe_search fuel table mask hash same (Z.land (w32 (idx + 1)) mask)
      end
  end.

Definition probeInsert (table : list ProbeSlot) (mask : Z) (header : cursor) (hash off : Z) : res unit (list ProbeSlot) :=
  let same prevOff :=
    let* prev := key_content header prevOff in
    let* cur := key_content header off in Ok (bool_decide (prev = cur)) in
  let* (idx, slot) := probe_search (length table) table mask hash same (Z.land hash mask) in
  if sl_off slot =? 0 then Ok (<[Z.to_nat idx := mkSlot hash off]> table)
  else Ok (<[Z.to_nat idx := mkSlot (sl_hash slot) off]> table).

(** One member of [BuildObjectProbe]'s loop: the table and the escaped list,
    which grows when the storage has no room left for it. *)
Definition build_member (c : cursor) (hashed : bool) (mask : Z) (s : list ProbeSlot * list ProbeSlot) (keyEntry : cursor) (off : Z) :
    res unit (list ProbeSlot * list ProbeSlot) :=
  let (table, escaped) := s in
  let* e := the_entry keyEntry in
  if has_flag e TapeFlagEscaped then Ok (table, escaped ++ [mkSlot 0 off])
  else
    let* hash := (if hashed then Ok (Next e)
                  else let* content := SliceRange (source_of c) (w32 (Start e + 1)) (w32 (End_ e - 1)) in hash_key content) in
    let* table := probeInsert table mask c hash off in Ok (table, escaped).

(** The caller's storage only saves an allocation: its first [capacity] slots
    are cleared. *)
Definition BuildObjectProbe (v : Node) : res unit (ObjectProbe * bool) :=
  let* count := n_ObjectLen v in
  match v, count with
  | Some c, Some count =>
      if count =? 0 then Ok (mkProbe v [] [] 0, true)
      else
        let capacity := ProbeCapacity count in
        let mask := w32 (capacity - 1) in
        let* e := the_entry c in
        let* keyEntry := EntryAt c 1 in
        let* (table, escaped) := member_loop (build_member c (KeysHashed e) mask) (Z.to_nat count) keyEntry 1
          (replicate (Z.to_nat capacity) (mkSlot 0 0), []) in
        Ok (mkProbe v table escaped mask, true)
  | _, _ => Ok (mkProbe None [] [] 0, false)
  end.

(** The escaped members, later ones last. *)
Fixpoint escaped_loop (header : cursor) (key : bytes) (escaped : list ProbeSlot) (best : Z) : res unit Z :=
  match escaped with
  | [] => Ok best
  | slot :: escaped =>
      let off := sl_off slot in
      if best <? off then
        let* k := EntryAt header off in
        let* e := the_entry k in
        let* raw := SliceRange (source_of header) (Start e) (End_ e) in
        let* hit := tapeKeyEqual raw (entry_Flags e) key in
        escaped_loop header key escaped (if (hit : bool) then off else best)
      else escaped_loop header key escaped best
  end.

Definition op_Get (p : ObjectProbe) (key : bytes) : res unit Node :=
  match op_header p with
  | None => Ok None
  | Some header =>
      let* hash := hash_key key in
      let* best :=
        (if (length (op_table p) =? 0)%nat then Ok 0
         else
           let same off := let* content := key_content header off in Ok (bool_decide (content = key)) in
           let* (_, slot) := probe_search (length (op_table p)) (op_table p) (op_mask p) hash same (Z.land hash (op_mask p)) in
           Ok (sl_off slot)) in
      let* best := escaped_loop header key (op_escaped p) best in
      if best =? 0 then Ok None
      else let* value := EntryAt header (best + 1) in Ok (Some value)
  end.

(** ** Probing *)

Section Probing.
Context (bits : Z).
Hypothesis Hbits : 0 <= bits <= 31.
Abbreviation cap := (Z.to_nat (2 ^ bits)).
Abbreviation mask := (2 ^ bits - 1).
Abbreviation place := (OpenAddr.place bits).

Definition occupied (s : ProbeSlot) : bool := negb (sl_off s =? 0).

(** A search stops at the nearest slot that is empty or matches. *)
Lemma probe_search_ref table hash same (matches : ProbeSlot -> bool) :
  length table = cap ->
  (exists p s, table !! p = Some s /\ occupied s = false) ->
  (forall p s, table !! p = Some s -> occupied s = true ->
  (if sl_hash s =? hash then same (sl_off s) else Ok false) = Ok (matches s)) ->
  exists d s, (d < cap)%nat /\ table !! place hash d = Some s /\
  probe_search (length table) table mask hash same (Z.land hash mask) = Ok (Z.of_nat (place hash d), s) /\
  (occupied s = false \/ matches s = true) /\
  forall d', (d' < d)%nat -> exists s', table !! place hash d' = Some s' /\ occupied s' = true /\ matches s' = false.
Proof using Hbits.
  intros Hlen (q & e & Hq & He) Hm. apply lookup_lt_Some in Hq as Hqlt. rewrite Hlen in Hqlt.
  destruct (place_to bits Hbits hash q Hqlt) as (D & HD & Hplace). rewrite place_0, Hlen by done.
  assert (H : forall fuel d, (d <= D)%nat -> (D < d + fuel)%nat ->
    (forall d', (d' < d)%nat -> exists s', table !! place hash d' = Some s' /\ occupied s' = true /\ matches s' = false) ->
    exists d2 s, (d2 < cap)%nat /\ table !! place hash d2 = Some s /\
    probe_search fuel table mask hash same (Z.of_nat (place hash d)) = Ok (Z.of_nat (place hash d2), s) /\
    (occupied s = false \/ matches s = true) /\
    forall d', (d' < d2)%nat -> exists s', table !! place hash d' = Some s' /\ occupied s' = true /\ matches s' = false).
  { induction fuel as [|fuel IH]; intros d Hd Hf Hbefore; [lia|]. cbn [probe_search]. rewrite Nat2Z.id.
  destruct (lookup_lt_is_Some_2 table (place hash d)) as [s Hs]; [rewrite Hlen; by apply place_lt|]. rewrite Hs.
  destruct (sl_off s =? 0) eqn:Eo.
  { exists d, s. split_and!; [lia|done|done|left; unfold occupied; by rewrite Eo|done]. }
  assert (Hocc : occupied s = true) by (unfold occupied; by rewrite Eo). rewrite (Hm _ s Hs Hocc). cbn [res_bind].
  destruct (matches s) eqn:Em; [exists d, s; split_and!; [lia|done|done|by right|done]|]. rewrite place_S by done.
  apply IH; [|lia|].
  - destruct (decide (d = D)) as [->|]; [|lia]. rewrite Hplace, Hq in Hs. injection Hs as ->. congruence.
  - intros d' Hd'. destruct (decide (d' = d)) as [->|]; [by exists s|apply Hbefore; lia]. }
    apply (H cap 0%nat); lia.
Qed.
End Probing.

Abbreviation load := (table_load occupied).

(** ** The table of an object *)

Section Table.
Context (h : bool) (c : cursor) (raw : bytes) (ms : members) (bits : Z).
Hypothesis Hc : stands h c (TObj raw ms).
Hypothesis Hbits : 0 <= bits <= 31.
Hypothesis Hroom : (length ms < Z.to_nat (2 ^ bits))%nat.
Abbreviation cap := (Z.to_nat (2 ^ bits)).
Abbreviation mask := (2 ^ bits - 1).
Abbreviation place := (OpenAddr.place bits).

(** The offset of member [k]'s key from the header. *)
Definition off (k : nat) : Z := Z.of_nat (1 + members_size (take k ms)).

Lemma off_lt k k' : (k < k' <= length ms)%nat -> off k < off k'.
Proof using.
  clear. intros H. unfold off. pose proof (members_take_lt ms k k' H). lia.
Qed.

Lemma off_inj k k' : (k < length ms)%nat -> (k' < length ms)%nat -> off k = off k' -> k = k'.
Proof using.
  clear. intros Hk Hk' E. apply (members_take_inj ms); [done|done|]. unfold off in E. lia.
Qed.

Lemma off_key k : (k < length ms)%nat -> EntryAt c (off k) = Ok (key_cursor c ms k).
Proof using Hc.
  clear Hroom. intros Hk. destruct (lookup_lt_is_Some_2 ms k Hk) as [[[kraw name] t] Hm].
  destruct (stands_member h c raw ms k kraw name t Hc Hm) as [(e & He & _) _].
  eapply EntryAt_to; [done| |exact He]. cbn [key_cursor nd_at]. unfold off. lia.
Qed.

Lemma key_content_ref k kraw name t : ms !! k = Some ((kraw, name), t) -> key_content c (off k) = Ok (inner kraw).
Proof using Hc.
  intros Hk. apply lookup_lt_Some in Hk as Hlt. unfold key_content. rewrite off_key by done. cbn [res_bind].
  destruct (stands_member h c raw ms k kraw name t Hc Hk) as [(e & He & Hn) _]. rewrite He. cbn [res_bind].
  destruct (nm_string _ _ _ _ _ Hn) as (i & j & Hi & Hj & Hs & Hjs & _ & _). rewrite Hi, Hj.
  apply (inner_range _ i j kraw name); [apply (proj1 Hc)|done|done].
Qed.

(** Member [k] has the name [name], spelled without escapes. *)
Definition unescaped (k : nat) (name : bytes) : Prop :=
  exists kraw t, ms !! k = Some ((kraw, name), t) /\ has_bs kraw = false.

Lemma unescaped_content k name : unescaped k name -> key_content c (off k) = Ok name /\ (k < length ms)%nat.
Proof using Hc.
  intros (kraw & t & Hk & Hb). split; [|by apply lookup_lt_Some in Hk]. rewrite (key_content_ref k kraw name t Hk).
  destruct (stands_member h c raw ms k kraw name t Hc Hk) as [(e & _ & Hn) _].
  destruct (nm_string _ _ _ _ _ Hn) as (i & j & _ & _ & _ & Hjs & _ & _). by rewrite (inner_clean _ _ Hjs Hb).
Qed.

Lemma unescaped_fun k name name' : unescaped k name -> unescaped k name' -> name = name'.
Proof using. intros (r & t & H & _) (r' & t' & H' & _). congruence. Qed.

Definition chain (table : list ProbeSlot) (hash : Z) (p : nat) : Prop :=
  exists d, (d < cap)%nat /\ place hash d = p /\
  forall d', (d' < d)%nat -> exists s, table !! place hash d' = Some s /\ occupied s = true.

(** After [j] members: every slot is the last unescaped member of its name, at
the end of a run of occupied slots from its home; every name is there. *)
Record table_ok (j : nat) (table : list ProbeSlot) : Prop := {
  tk_len : length table = cap;
  tk_slot : forall p s, table !! p = Some s -> occupied s = true ->
  exists k name, (k < j)%nat /\ unescaped k name /\ sl_off s = off k /\ sl_hash s = hash_ref name /\
  (forall k', (k < k' < j)%nat -> ~ unescaped k' name) /\ chain table (hash_ref name) p;
  tk_have : forall k name, (k < j)%nat -> unescaped k name ->
  exists p s k', table !! p = Some s /\ occupied s = true /\ sl_off s = off k' /\ unescaped k' name;
  tk_uniq : forall p q s s', table !! p = Some s -> table !! q = Some s' -> occupied s = true -> occupied s' = true ->
  sl_off s = sl_off s' -> p = q;
  tk_load : (load table <= j)%nat
  }.

Lemma off_pos k : 0 < off k.
Proof using. clear Hroom. unfold off. lia. Qed.

Lemma table_empty : table_ok 0 (replicate cap (mkSlot 0 0)).
Proof using Hroom.
  split; [apply length_replicate| |lia| |by rewrite load_empty].
  - intros p s (-> & _)%lookup_replicate Ho. done.
  - intros p q s s' (-> & _)%lookup_replicate _ Ho. done.
Qed.

(** The search for a name. *)
Definition content_is (name : bytes) (o : Z) : res unit bool :=
  let* content := key_content c o in Ok (bool_decide (content = name)).

Lemma search_name j table name same :
  table_ok j table -> (j <= length ms)%nat ->
  (forall k nm, unescaped k nm -> same (off k) = Ok (bool_decide (nm = name))) ->
  exists p s, table !! p = Some s /\ chain table (hash_ref name) p /\
  probe_search (length table) table mask (hash_ref name) same (Z.land (hash_ref name) mask) = Ok (Z.of_nat p, s) /\
  ((occupied s = false /\ forall k, (k < j)%nat -> ~ unescaped k name) \/
  (occupied s = true /\ exists k, (k < j)%nat /\ unescaped k name /\ sl_off s = off k /\ sl_hash s = hash_ref name /\
  forall k', (k < k' < j)%nat -> ~ unescaped k' name)).
Proof using Hc Hbits Hroom.
  intros Hok Hj Hsame.
  set (matches := fun s => match (if sl_hash s =? hash_ref name then same (sl_off s) else Ok false) with Ok b => b | _ => false end).
  assert (Hm : forall p s, table !! p = Some s -> occupied s = true ->
    exists k nm, (k < j)%nat /\ unescaped k nm /\ sl_off s = off k /\ sl_hash s = hash_ref nm /\
    (if sl_hash s =? hash_ref name then same (sl_off s) else Ok false) = Ok (bool_decide (nm = name)) /\
    (forall k', (k < k' < j)%nat -> ~ unescaped k' nm)).
  { intros p s Hp Ho. destruct (tk_slot _ _ Hok p s Hp Ho) as (k & nm & Hk & Hu & Hoff & Hh & Hlast & _). exists k, nm.
  split_and!; try done. rewrite Hh, Hoff. destruct (Z.eqb_spec (hash_ref nm) (hash_ref name)) as [E|E]; [by apply Hsame|].
  rewrite bool_decide_eq_false_2; [done|by intros ->]. }
  destruct (probe_search_ref bits Hbits table (hash_ref name) same matches) as (d & s & Hd & Hs & Hrun & Hend & Hbefore).
  { apply (tk_len _ _ Hok). }
  { apply load_room. rewrite (tk_len _ _ Hok). pose proof (tk_load _ _ Hok). lia. }
  { intros p s Hp Ho. destruct (Hm p s Hp Ho) as (k & nm & _ & _ & _ & _ & E & _). unfold matches. by rewrite E. }
  exists (place (hash_ref name) d), s. split; [done|]. split.
  { exists d. split_and!; [done|done|]. intros d' Hd'. destruct (Hbefore d' Hd') as (s' & ? & ? & _). by exists s'. }
  split; [done|]. destruct (occupied s) eqn:Eo.
  - right. split; [done|]. destruct Hend as [?|Hend]; [done|]. destruct (Hm _ s Hs Eo) as (k & nm & Hk & Hu & Hoff & Hh & E & Hlast).
    unfold matches in Hend. rewrite E in Hend. apply bool_decide_eq_true in Hend. subst nm. by exists k.
  - left. split; [done|]. intros k Hk Hu. destruct (tk_have _ _ Hok k name Hk Hu) as (q & s' & k' & Hq & Ho & Hoff & Hu').
    destruct (tk_slot _ _ Hok q s' Hq Ho) as (k2 & nm & Hk2 & Hu2 & Hoff2 & Hh & _ & (dq & Hdq & Hplace & Hrunq)).
    assert (k2 = k') as ->. { apply off_inj; [by apply unescaped_content in Hu2 as [_ ?]|by apply unescaped_content in Hu' as [_ ?]|congruence]. }
    rewrite (unescaped_fun _ _ _ Hu2 Hu') in *. destruct (Nat.lt_trichotomy dq d) as [Hlt|[->|Hgt]].
    + destruct (Hbefore dq Hlt) as (s2 & Hs2 & _ & Hno). rewrite Hplace, Hq in Hs2. injection Hs2 as <-.
      destruct (Hm q s' Hq Ho) as (k3 & nm3 & Hk3 & Hu3 & Hoff3 & _ & E & _). unfold matches in Hno. rewrite E in Hno.
      apply bool_decide_eq_false in Hno. apply Hno. assert (k3 = k') as ->.
      { apply off_inj; [by apply unescaped_content in Hu3 as [_ ?]|by apply unescaped_content in Hu' as [_ ?]|congruence]. }
      by apply (unescaped_fun k').
    + rewrite Hplace, Hq in Hs. injection Hs as ->. congruence.
    + destruct (Hrunq d Hgt) as (s2 & Hs2 & Ho2). rewrite Hs in Hs2. injection Hs2 as <-. congruence.
Qed.

Lemma chain_insert table p x hash q : occupied x = true -> chain table hash q -> chain (<[p := x]> table) hash q.
Proof using.
  intros Hx (d & Hd & Hq & Hrun). exists d. split_and!; [done|done|]. intros d' Hd'. destruct (Hrun d' Hd') as (s & Hs & Ho).
  destruct (decide (place hash d' = p)) as [<-|Hne].
  - exists x. split; [|done]. apply list_lookup_insert_eq. by apply lookup_lt_Some in Hs.
  - exists s. split; [|done]. by rewrite list_lookup_insert_ne.
Qed.

(** A table with member [j] entered where the search for its name stopped. *)
Lemma table_insert j table p s name :
  table_ok j table -> unescaped j name -> table !! p = Some s -> chain table (hash_ref name) p ->
  (forall q s' k, table !! q = Some s' -> occupied s' = true -> sl_off s' = off k -> unescaped k name -> q = p) ->
  (occupied s = true -> exists k, unescaped k name /\ sl_off s = off k) ->
  table_ok (S j) (<[p := mkSlot (hash_ref name) (off j)]> table).
Proof using Hc.
  clear Hroom. intros Hok Hu Hp Hch Honly Hprev. set (x := mkSlot (hash_ref name) (off j)). apply unescaped_content in Hu as Hj. destruct Hj as [_ Hj].
  assert (Hx : occupied x = true) by (unfold occupied, x; cbn [sl_off]; pose proof (off_pos j); apply negb_true_iff, Z.eqb_neq; lia).
  apply lookup_lt_Some in Hp as Hplt. pose proof (load_insert occupied table p s x Hp) as Hload. rewrite Hx in Hload.
  pose proof (tk_load _ _ Hok) as Hl.
  assert (Hcase : forall q s', <[p := x]> table !! q = Some s' -> (q = p /\ s' = x) \/ (q <> p /\ table !! q = Some s')).
  { intros q s' Hq. destruct (decide (q = p)) as [->|Hne]; [left|right].
  - rewrite list_lookup_insert_eq in Hq by done. by injection Hq.
  - by rewrite list_lookup_insert_ne in Hq. }
    split; [by rewrite length_insert, (tk_len _ _ Hok)| | | |lia].
  - intros q s' [[-> ->]|[Hne Hq]]%Hcase Ho.
    + exists j, name. split_and!; [lia|done|done|done|intros; lia|by apply chain_insert].
    + destruct (tk_slot _ _ Hok q s' Hq Ho) as (k & nm & Hk & Huk & Hoff & Hh & Hlast & Hchq). exists k, nm.
      split_and!; [lia|done|done|done| |by apply chain_insert]. intros k' Hk' Hu'.
      destruct (decide (k' = j)) as [->|]; [|apply (Hlast k'); [lia|done]]. pose proof (unescaped_fun _ _ _ Hu' Hu) as ->.
      apply Hne. by apply (Honly q s' k).
  - intros k nm Hk Huk. destruct (decide (nm = name)) as [->|Hnm].
    + exists p, x, j. split_and!; [by apply list_lookup_insert_eq|done|done|done].
    + destruct (decide (k = j)) as [->|]; [by destruct Hnm; apply (unescaped_fun j)|].
      destruct (tk_have _ _ Hok k nm ltac:(lia) Huk) as (q & s' & k' & Hq & Ho & Hoff & Hu'). exists q, s', k'. split_and!; try done.
      rewrite list_lookup_insert_ne; [done|]. intros ->. rewrite Hp in Hq. injection Hq as ->.
      destruct (Hprev Ho) as (k2 & Hu2 & Hoff2). assert (k2 = k') as ->.
      { apply off_inj; [by apply unescaped_content in Hu2 as [_ ?]|by apply unescaped_content in Hu' as [_ ?]|congruence]. }
      by destruct Hnm; apply (unescaped_fun k').
  - intros q q' s1 s2 [[-> ->]|[Hne Hq]]%Hcase [[-> ->]|[Hne' Hq']]%Hcase Ho Ho' E; [done| | |by apply (tk_uniq _ _ Hok q q' s1 s2)].
    + exfalso. destruct (tk_slot _ _ Hok q' s2 Hq' Ho') as (k & nm & Hk & Huk & Hoff & _). pose proof (off_lt k j ltac:(lia)). cbn [x sl_off] in E. lia.
    + exfalso. destruct (tk_slot _ _ Hok q s1 Hq Ho) as (k & nm & Hk & Huk & Hoff & _). pose proof (off_lt k j ltac:(lia)). cbn [x sl_off] in E. lia.
Qed.

Lemma table_skip j table : table_ok j table -> (forall name, ~ unescaped j name) -> table_ok (S j) table.
Proof using.
  clear Hroom. intros Hok Hno. split; [apply (tk_len _ _ Hok)| | |apply (tk_uniq _ _ Hok)|pose proof (tk_load _ _ Hok); lia].
  - intros p s Hp Ho. destruct (tk_slot _ _ Hok p s Hp Ho) as (k & nm & Hk & Huk & Hoff & Hh & Hlast & Hch). exists k, nm.
    split_and!; try done; [lia|]. intros k' Hk'. destruct (decide (k' = j)) as [->|]; [apply Hno|apply Hlast; lia].
  - intros k nm Hk Huk. destruct (decide (k = j)) as [->|]; [by destruct (Hno nm)|]. apply (tk_have _ _ Hok k nm); [lia|done].
Qed.

Lemma probeInsert_ref j table name :
  table_ok j table -> unescaped j name ->
  exists table', probeInsert table mask c (hash_ref name) (off j) = Ok table' /\ table_ok (S j) table'.
Proof using Hc Hbits Hroom.
  intros Hok Hu. apply unescaped_content in Hu as Hcont. destruct Hcont as [Hcont Hj].
  destruct (search_name j table name (fun prevOff =>
    let* prev := key_content c prevOff in let* cur := key_content c (off j) in Ok (bool_decide (prev = cur)))
    Hok ltac:(lia)) as (p & s & Hp & Hch & Hrun & Hend).
  { intros k nm Huk. apply unescaped_content in Huk as [Hk _]. rewrite Hk. cbn [res_bind]. by rewrite Hcont. }
  unfold probeInsert. rewrite Hrun. cbn [res_bind]. rewrite Nat2Z.id.
  exists (<[p := mkSlot (hash_ref name) (off j)]> table). destruct Hend as [[Ho Hnone]|[Ho (k & Hk & Huk & Hoff & Hh & _)]].
  - split; [unfold occupied in Ho; apply negb_false_iff in Ho; by rewrite Ho|].
    apply (table_insert j table p s name Hok Hu Hp Hch); [|intros; congruence].
    intros q s' k Hq Ho' Hoff Huk. destruct (tk_slot _ _ Hok q s' Hq Ho') as (k2 & nm & Hk2 & Hu2 & Hoff2 & _).
    assert (k2 = k) as ->; [|by destruct (Hnone k)].
    apply off_inj; [by apply unescaped_content in Hu2 as [_ ?]|by apply unescaped_content in Huk as [_ ?]|congruence].
  - split; [unfold occupied in Ho; apply negb_true_iff in Ho; by rewrite Ho, Hh|].
    apply (table_insert j table p s name Hok Hu Hp Hch); [|intros _; by exists k].
    intros q s' k2 Hq Ho' Hoff2 Hu2.
    destruct (tk_slot _ _ Hok q s' Hq Ho') as (k3 & nm & Hk3 & Hu3 & Hoff3 & _ & Hlast3 & _).
    destruct (tk_slot _ _ Hok p s Hp Ho) as (k4 & nm4 & Hk4 & Hu4 & Hoff4 & _ & Hlast4 & _).
    assert (Hlt : forall k nm, unescaped k nm -> (k < length ms)%nat) by (intros ? ? H; by apply unescaped_content in H as [_ ?]).
    assert (k3 = k2) as -> by (apply off_inj; [by eapply Hlt|by eapply Hlt|congruence]).
    assert (k4 = k) as -> by (apply off_inj; [by eapply Hlt|by eapply Hlt|congruence]).
    rewrite (unescaped_fun _ _ _ Hu3 Hu2) in *. rewrite (unescaped_fun _ _ _ Hu4 Huk) in *.
    assert (k2 = k) as ->; [|by apply (tk_uniq _ _ Hok q p s' s); [..|congruence]].
    destruct (Nat.lt_trichotomy k2 k) as [H|[H|H]]; [by destruct (Hlast3 k ltac:(lia))|done|by destruct (Hlast4 k2 ltac:(lia))].
Qed.

(** ** Building *)

Lemma off_next k e m :
  ms !! k = Some m -> the_entry (value_cursor c ms k) = Ok e -> w32 (off k + (1 + Next e)) = off (S k).
Proof using Hc.
  clear Hroom. intros Hk He. destruct m as [[kraw name] t]. destruct (stands_member h c raw ms k kraw name t Hc Hk) as [_ Hv].
  destruct (stands_entry _ _ _ Hv) as (e' & He' & Hn). rewrite He in He'. injection He' as <-. rewrite (ne_next _ _ _ _ Hn).
  pose proof (stands_bounds _ _ _ Hc) as [Hb _]. change InfoMaxCount with 67108863 in Hb.
  assert (Hle : (members_size (take (S k) ms) <= members_size ms)%nat).
  { rewrite <- (take_drop (S k) ms) at 2. rewrite members_size_app. lia. }
  change (tape_size (TObj raw ms)) with (S (members_size ms)) in Hb. unfold off, w32. rewrite (take_S_members _ _ _ Hk) in *. cbn [snd] in *.
  rewrite Z.mod_small; lia.
Qed.

Lemma member_loop_ref {St} (f : St -> cursor -> Z -> res unit St) (P : nat -> St -> Prop) n k s :
  (forall k s, (k < length ms)%nat -> P k s -> exists s', f s (key_cursor c ms k) (off k) = Ok s' /\ P (S k) s') ->
  (k + n = length ms)%nat -> P k s ->
  exists s', member_loop f n (key_cursor c ms k) (off k) s = Ok s' /\ P (length ms) s'.
Proof using Hc.
  clear Hroom. intros Hf. revert k s. induction n as [|n IH]; intros k s Hk HP.
  - exists s. split; [done|]. by replace (length ms) with k by lia.
  - cbn [member_loop]. destruct (Hf k s ltac:(lia) HP) as (s' & -> & HP'). cbn [res_bind].
    destruct (Nat.eqb_spec n 0) as [->|Hn]; [exists s'; split; [done|]; by replace (length ms) with (S k) by lia|].
    destruct (lookup_lt_is_Some_2 ms k) as [m Hm]; [lia|]. destruct (lookup_lt_is_Some_2 ms (S k)) as [m' Hm']; [lia|].
    rewrite (key_value h c raw ms k m Hc Hm). cbn [res_bind].
    destruct (value_next h c raw ms k m m' Hc Hm Hm') as (e & He & E). rewrite He. cbn [res_bind]. rewrite E. cbn [res_bind].
    rewrite (off_next k e m Hm He). apply IH; [lia|done].
Qed.

Definition escaped_at (k : nat) : bool := match ms !! k with Some m => has_bs m.1.1 | None => false end.
Definition escaped_slots (k : nat) : list ProbeSlot := map (fun i => mkSlot 0 (off i)) (filter (fun i => escaped_at i = true) (seq 0 k)).

Lemma escaped_slots_S k :
  escaped_slots (S k) = if escaped_at k then escaped_slots k ++ [mkSlot 0 (off k)] else escaped_slots k.
Proof using.
  clear Hroom. unfold escaped_slots. rewrite seq_S, filter_app, map_app. cbn [Nat.add]. destruct (escaped_at k) eqn:E.
  - by rewrite filter_cons_True.
  - rewrite filter_cons_False by by rewrite E. by rewrite app_nil_r.
Qed.

Lemma key_escaped k e kraw name t :
  ms !! k = Some ((kraw, name), t) -> the_entry (key_cursor c ms k) = Ok e ->
  has_flag e TapeFlagEscaped = escaped_at k /\ (Next e = if h then hash_ref (inner kraw) else 1).
Proof using Hc.
  intros Hk He. destruct (stands_member h c raw ms k kraw name t Hc Hk) as [(e' & He' & Hn) _].
  rewrite He in He'. injection He' as <-. destruct (nm_string _ _ _ _ _ Hn) as (i & j & _ & _ & _ & _ & _ & Hf).
  unfold escaped_at. rewrite Hk. split; [exact Hf|apply (nm_next _ _ _ _ _ Hn)].
Qed.

Lemma build_member_ref k T :
  (k < length ms)%nat -> table_ok k T ->
  exists T', build_member c h mask (T, escaped_slots k) (key_cursor c ms k) (off k) = Ok (T', escaped_slots (S k)) /\ table_ok (S k) T'.
Proof using Hc Hbits Hroom.
  intros Hk Hok. destruct (lookup_lt_is_Some_2 ms k Hk) as [[[kraw name] t] Hm].
  destruct (stands_member h c raw ms k kraw name t Hc Hm) as [(e & He & Hn) _].
  destruct (key_escaped k e kraw name t Hm He) as [Hf Hnx]. unfold build_member. rewrite He. cbn [res_bind]. rewrite Hf, escaped_slots_S.
  assert (Hesc : escaped_at k = has_bs kraw) by (unfold escaped_at; by rewrite Hm).
  destruct (escaped_at k).
  - exists T. split; [done|]. apply table_skip; [done|]. intros nm (kraw' & t' & Hm' & Hb). rewrite Hm in Hm'. injection Hm' as -> -> ->. congruence.
  - assert (Hu : unescaped k name) by (exists kraw, t; by split).
    assert (Hin : inner kraw = name).
    { destruct (nm_string _ _ _ _ _ Hn) as (i & j & _ & _ & _ & Hjs & _ & _). by apply (inner_clean _ _ Hjs). }
    assert (Hh : (if h then Ok (Next e) else
      let* content := SliceRange (source_of c) (w32 (Start e + 1)) (w32 (End_ e - 1)) in hash_key content) = Ok (hash_ref name)).
    { destruct (unescaped_content k name Hu) as [Hcont _]. unfold key_content in Hcont. rewrite off_key in Hcont by done.
    destruct h; [by rewrite Hnx, Hin|]. cbn [res_bind] in Hcont. rewrite He in Hcont. cbn [res_bind] in Hcont. rewrite Hcont. cbn [res_bind].
    apply hash_key_ref. rewrite <- Hin. destruct (nm_string _ _ _ _ _ Hn) as (i & j & _ & _ & Hs & Hjs & _ & _).
    destruct (inner_slice _ i j kraw name Hs Hjs) as [_ ->]. apply slice_bytes, (proj1 (proj1 Hc)). }
    rewrite Hh. cbn [res_bind]. destruct (probeInsert_ref k T name Hok Hu) as (T' & -> & Hok'). exists T'. by split.
Qed.

Lemma build_ref : ms <> [] ->
  exists T, member_loop (build_member c h mask) (length ms) (key_cursor c ms 0) 1 (replicate cap (mkSlot 0 0), []) =
  Ok (T, escaped_slots (length ms)) /\ table_ok (length ms) T.
Proof using Hc Hbits Hroom.
  intros Hne. destruct (member_loop_ref (build_member c h mask) (fun k s => s.2 = escaped_slots k /\ table_ok k s.1) (length ms) 0
    (replicate cap (mkSlot 0 0), [])) as ([T E] & Hrun & HE & HT); [|lia|split; [done|apply table_empty]|].
  - intros k [T E] Hk [HE HT]. cbn [fst snd] in HE, HT. subst E. destruct (build_member_ref k T Hk HT) as (T' & Hrun & HT').
    eexists. split; [exact Hrun|]. by split.
  - exists T. change (off 0) with 1 in Hrun. cbn [snd fst] in HE, HT. subst E. by split.
Qed.

(** ** Looking up *)

(** [best] is the offset of the last of the members in [dom] with the name, or 0. *)
Definition best_of (key : bytes) (dom : nat -> Prop) (best : Z) : Prop :=
  (best = 0 /\ forall k m, dom k -> ms !! k = Some m -> m.1.2 <> key) \/
  (exists k m, dom k /\ ms !! k = Some m /\ m.1.2 = key /\ best = off k /\
  forall k' m', dom k' -> ms !! k' = Some m' -> m'.1.2 = key -> (k' <= k)%nat).

Lemma escaped_loop_ref key l dom best :
  Forall (fun k => (k < length ms)%nat) l -> best_of key dom best ->
  exists best', escaped_loop c key (map (fun i => mkSlot 0 (off i)) l) best = Ok best' /\ best_of key (fun k => dom k \/ k ∈ l) best'.
Proof using Hc.
  clear Hroom Hbits. intros Hl. revert dom best. induction Hl as [|k l Hk Hl IH]; intros dom best Hb.
  { exists best. split; [done|]. destruct Hb as [[-> Hno]|(k & m & Hd & Hm & Hkey & -> & Hmax)]; [left|right].
  - split; [done|]. intros k m [Hd|[]%not_elem_of_nil]; by apply Hno.
  - exists k, m. split_and!; [by left|done|done|done|]. intros k' m' [Hd'|[]%not_elem_of_nil]. by apply Hmax. }
    destruct (lookup_lt_is_Some_2 ms k Hk) as [[[kraw name] t] Hm]. cbn [map escaped_loop sl_off].
    assert (Hnext : forall b, best_of key (fun k' => dom k' \/ k' = k) b ->
      exists best', escaped_loop c key (map (fun i => mkSlot 0 (off i)) l) b = Ok best' /\ best_of key (fun k' => dom k' \/ k' ∈ k :: l) best').
    { intros b Hb'. destruct (IH _ b Hb') as (b' & Hrun & Hb2). exists b'. split; [done|].
    assert (Hiff : forall x, (dom x \/ x = k) \/ x ∈ l <-> dom x \/ x ∈ k :: l) by (intros x; rewrite elem_of_cons; tauto).
    destruct Hb2 as [[-> Hno]|(k2 & m2 & Hd & Hm2 & Hkey & -> & Hmax)]; [left|right].
  - split; [done|]. intros x m Hx. apply Hno. by apply Hiff.
  - exists k2, m2. split_and!; [by apply Hiff|done|done|done|]. intros x m Hx. apply Hmax. by apply Hiff. }
    destruct (Z.ltb_spec best (off k)) as [Hlt|Hge].
  - rewrite off_key by done. cbn [res_bind]. destruct (stands_member h c raw ms k kraw name t Hc Hm) as [(e & He & Hn) _]. rewrite He. cbn [res_bind].
    destruct (nm_string _ _ _ _ _ Hn) as (i & j & Hi & Hj & Hs & Hjs & _). rewrite Hi, Hj, (SliceRange_span _ _ _ _ Hs). cbn [res_bind].
    rewrite (tapeKeyEqual_ref kraw _ name key Hjs (string_flags _ _ _ _ (nm_string _ _ _ _ _ Hn))). cbn [res_bind]. apply Hnext.
    case_bool_decide as Hkey.
    + right. exists k, ((kraw, name), t). split_and!; [by right|done|done|done|]. intros k' m' [Hd' | ->] Hm' Hkey'; [|lia].
      destruct Hb as [[-> Hno]|(k2 & m2 & Hd & Hm2 & Hkey2 & -> & Hmax)]; [by destruct (Hno k' m' Hd' Hm')|].
      pose proof (Hmax k' m' Hd' Hm' Hkey'). destruct (Nat.le_gt_cases k2 k) as [|Hgt]; [lia|].
      apply lookup_lt_Some in Hm2. pose proof (off_lt k k2 ltac:(lia)). lia.
    + destruct Hb as [[-> Hno]|(k2 & m2 & Hd & Hm2 & Hkey2 & -> & Hmax)]; [left|right].
      * split; [done|]. intros x m [Hx | ->] Hxm; [by apply (Hno x)|]. rewrite Hm in Hxm. injection Hxm as <-. exact Hkey.
      * exists k2, m2. split_and!; [by left|done|done|done|]. intros x m [Hx | ->] Hxm Hxk; [by apply (Hmax x m)|].
        rewrite Hm in Hxm. injection Hxm as <-. by destruct Hkey.
  - apply Hnext. destruct Hb as [[-> Hno]|(k2 & m2 & Hd & Hm2 & Hkey2 & -> & Hmax)]; [pose proof (off_pos k); lia|right].
    exists k2, m2. split_and!; [by left|done|done|done|]. intros x m [Hx | ->] Hxm Hxk; [by apply (Hmax x m)|].
    destruct (Nat.le_gt_cases k k2) as [|Hgt]; [done|]. pose proof (off_lt k2 k ltac:(lia)). lia.
Qed.

Lemma probe_get_ref T key :
  table_ok (length ms) T -> ms <> [] -> bytes_ok key ->
  op_Get (mkProbe (Some c) T (escaped_slots (length ms)) mask) key = Ok (found_at c ms (last_index key ms)).
Proof using Hc Hbits Hroom.
  intros Hok Hne Hkey. unfold op_Get. cbn [op_header op_table op_escaped op_mask]. rewrite hash_key_ref by done. cbn [res_bind].
  rewrite (proj2 (Nat.eqb_neq (length T) 0)) by (rewrite (tk_len _ _ Hok); lia).
  destruct (search_name (length ms) T key (fun o => let* content := key_content c o in Ok (bool_decide (content = key)))
    Hok ltac:(lia)) as (p & s & Hp & _ & Hrun & Hend).
  { intros k nm Huk. apply unescaped_content in Huk as [Hk _]. by rewrite Hk. }
  rewrite Hrun. cbn [res_bind].
  assert (Hdom : forall k m, ms !! k = Some m -> escaped_at k = false -> unescaped k m.1.2).
  { intros k [[kraw name] t] Hk E. unfold escaped_at in E. rewrite Hk in E. by exists kraw, t. }
  assert (Hb : best_of key (fun k => escaped_at k = false) (sl_off s)).
  { destruct Hend as [[Ho Hno]|[Ho (k & Hk & (kraw & t & Hm & Hclean) & Hoff & _ & Hlast)]]; [left|right].
  - split; [unfold occupied in Ho; lia|]. intros k m Hd Hm Hname. apply lookup_lt_Some in Hm as Hlt.
    apply (Hno k Hlt). rewrite <- Hname. by apply Hdom.
  - exists k, ((kraw, key), t). split_and!; [unfold escaped_at; by rewrite Hm|done|done|done|]. intros k' m' Hd' Hm' Hname.
    destruct (Nat.le_gt_cases k' k) as [|Hgt]; [done|]. apply lookup_lt_Some in Hm' as Hlt.
    destruct (Hlast k' ltac:(lia)). rewrite <- Hname. by apply Hdom. }
    destruct (escaped_loop_ref key (filter (fun i => escaped_at i = true) (seq 0 (length ms))) (fun k => escaped_at k = false) (sl_off s)) as (best & Hrun2 & Hbest); [|exact Hb|].
    { apply Forall_forall. intros k [_ Hk]%list_elem_of_filter. apply elem_of_seq in Hk. lia. }
    unfold escaped_slots. rewrite Hrun2. cbn [res_bind].
    assert (Hall : forall k, (k < length ms)%nat -> escaped_at k = false \/ k ∈ filter (fun i => escaped_at i = true) (seq 0 (length ms))).
    { intros k Hk. destruct (escaped_at k) eqn:E; [right|by left]. apply list_elem_of_filter. split; [done|]. apply elem_of_seq. lia. }
    destruct Hbest as [[-> Hno]|(k & m & Hd & Hm & Hname & -> & Hmax)].
  - destruct (last_index key ms) as [k|] eqn:E; [|done]. apply last_index_spec in E as (kraw & t & Hk & _). apply lookup_lt_Some in Hk as Hlt.
    by destruct (Hno k _ (Hall k Hlt) Hk).
  - pose proof (off_pos k). rewrite (if_false (off k =? 0)) by lia. apply lookup_lt_Some in Hm as Hlt.
    assert (Hlast : last_index key ms = Some k).
    { destruct (last_index key ms) as [k'|] eqn:E; [|by destruct (last_index_none key ms k m E Hm)].
    apply last_index_spec in E as (kraw & t & Hk' & Hmax'). f_equal. apply Nat.le_antisymm; [|by apply (Hmax' k m)].
    apply lookup_lt_Some in Hk' as Hlt'. by apply (Hmax k' _ (Hall k' Hlt') Hk'). }
    rewrite Hlast. destruct m as [[kraw name] t]. destruct (stands_member h c raw ms k kraw name t Hc Hm) as [_ Hv].
    destruct (stands_entry _ _ _ Hv) as (e & He & _). rewrite (EntryAt_to c (off k + 1) (value_cursor c ms k) e); [done|done| |done].
    cbn [value_cursor nd_at]. unfold off. lia.
Qed.
End Table.

(** The capacity: the least power of two at half load. *)
Lemma capacity_ref n :
  (0 < n)%nat -> Z.of_nat n <= InfoMaxCount ->
  exists bits, 0 <= bits <= 31 /\ ProbeCapacity (Z.of_nat n) = 2 ^ bits /\ 2 * Z.of_nat n <= 2 ^ bits /\ 2 ^ bits < 4 * Z.of_nat n.
Proof.
  change InfoMaxCount with 67108863. intros Hn Hb. unfold ProbeCapacity, bits_Len, w64. rewrite Z.mod_small by lia. rewrite if_false by lia.
  set (x := 2 * Z.of_nat n - 1). pose proof (Z.log2_spec x ltac:(lia)) as [Hlo Hhi]. pose proof (Z.log2_nonneg x).
  exists (Z.log2 x + 1). rewrite Z.shiftl_1_l. rewrite <- Z.add_1_r in Hhi. split_and!; [lia| |done|lia|].
  - assert (Hx : x <= 2 ^ 27) by lia.
    pose proof (Z.log2_le_mono _ _ Hx) as Hl. rewrite Z.log2_pow2 in Hl by lia. lia.
  - rewrite Z.pow_add_r by lia. lia.
Qed.

Lemma required_ref h c raw ms :
  stands h c (TObj raw ms) -> ms <> [] ->
  RequiredProbeSlots (Some c) = Ok (ProbeCapacity (Z.of_nat (length ms)) + Z.of_nat (length (escaped_slots ms (length ms)))).
Proof.
  intros Hc Hne. unfold RequiredProbeSlots. rewrite (proj2 (node_len h c _ Hc)). cbn [res_bind tree_len].
  assert (Hpos : (0 < length ms)%nat) by (destruct ms; [done|simpl; lia]). rewrite (if_false (Z.of_nat (length ms) =? 0)) by lia.
  rewrite (get_first h c raw ms Hc Hne). cbn [res_bind]. rewrite Nat2Z.id.
  destruct (member_loop_ref h c raw ms Hc (fun escaped k _ =>
      let* e := the_entry k in Ok (if has_flag e TapeFlagEscaped then escaped + 1 else escaped))
    (fun k s => s = Z.of_nat (length (escaped_slots ms k))) (length ms) 0 0) as (s & Hrun & ->); [|lia|done|].
  - intros k s Hk ->. destruct (lookup_lt_is_Some_2 ms k Hk) as [[[kraw name] t] Hm].
    destruct (stands_member h c raw ms k kraw name t Hc Hm) as [(e & He & _) _]. rewrite He. cbn [res_bind].
    rewrite (proj1 (key_escaped h c raw ms Hc k e kraw name t Hm He)), escaped_slots_S. eexists. split; [done|].
    destruct (escaped_at ms k); [|done]. rewrite length_app. simpl. lia.
  - change (off ms 0) with 1 in Hrun. by rewrite Hrun.
Qed.

Lemma probe_ref h c raw ms :
  stands h c (TObj raw ms) -> ms <> [] ->
  exists bits T, 0 <= bits <= 31 /\ (length ms < Z.to_nat (2 ^ bits))%nat /\ ProbeCapacity (Z.of_nat (length ms)) = 2 ^ bits /\
    table_ok ms bits (length ms) T /\
    BuildObjectProbe (Some c) = Ok (mkProbe (Some c) T (escaped_slots ms (length ms)) (2 ^ bits - 1), true).
Proof.
  intros Hc Hne. pose proof (stands_bounds _ _ _ Hc) as [Hb Hb'].
  assert (Hpos : (0 < length ms)%nat) by (destruct ms; [done|simpl; lia]).
  destruct (capacity_ref (length ms)) as (bits & Hbits & Hcap & Hhalf & _); [done|lia|].
  assert (Hroom : (length ms < Z.to_nat (2 ^ bits))%nat) by lia. destruct (build_ref h c raw ms bits Hc Hbits Hroom Hne) as (T & Hrun & HT).
  exists bits, T. split_and!; try done; [lia..|]. unfold BuildObjectProbe. rewrite (proj2 (node_len h c _ Hc)). cbn [res_bind tree_len].
  rewrite (if_false (Z.of_nat (length ms) =? 0)) by lia. destruct (stands_entry _ _ _ Hc) as (e & He & Hn). rewrite He. cbn [res_bind].
  rewrite (get_first h c raw ms Hc Hne). cbn [res_bind]. rewrite (proj2 (ne_count _ _ _ _ Hn)), Hcap, Nat2Z.id.
  destruct (cap_pos bits Hbits) as [_ Hle]. unfold w32. rewrite Z.mod_small by lia. by rewrite Hrun.
Qed.

(** ** Properties *)

(** C11: building a probe over an object never fails, fills exactly the storage [RequiredProbeSlots] asks for, and looking any key up through it, whatever its escapes and however its hash collides, ends and finds what [Node.Get] finds; a node that is not an object gives a probe that finds nothing. *)
Theorem probe_is_Get h c t key :
  stands h c t -> bytes_ok key ->
  exists p, BuildObjectProbe (Some c) = Ok (p, match t with TObj _ _ => true | _ => false end) /\
    op_Get p key = n_Get (Some c) key /\
    RequiredProbeSlots (Some c) = Ok (Z.of_nat (length (op_table p) + length (op_escaped p))).
Proof.
  intros Hc Hkey. pose proof (proj1 (get_ref h c t key Hc Hkey)) as Hg.
  assert (Hempty : tree_members t = [] -> exists p, BuildObjectProbe (Some c) = Ok (p, match t with TObj _ _ => true | _ => false end) /\
    op_Get p key = Ok None /\ RequiredProbeSlots (Some c) = Ok (Z.of_nat (length (op_table p) + length (op_escaped p)))).
  { intros E. unfold BuildObjectProbe, RequiredProbeSlots. rewrite (proj2 (node_len h c t Hc)). cbn [res_bind].
    destruct t as [| | | | |raw ms]; try (by eexists). cbn in E. subst ms. eexists. split; [done|]. split; [|done].
    unfold op_Get. cbn [op_header]. by rewrite hash_key_ref. }
  destruct (decide (tree_members t = [])) as [E|Hne]; [rewrite E in Hg; rewrite Hg; by apply Hempty|].
  destruct t as [| | | | |raw ms]; try done. cbn [tree_members] in *.
  destruct (probe_ref h c raw ms Hc Hne) as (bits & T & Hbits & Hroom & Hcap & HT & Hb). eexists. split; [exact Hb|]. split.
  - rewrite Hg. by apply (probe_get_ref h c raw ms bits Hc Hbits Hroom).
  - rewrite (required_ref h c raw ms Hc Hne), Hcap. cbn [op_table op_escaped]. rewrite (tk_len _ _ _ _ HT). f_equal. lia.
Qed.

Lemma probe_is_Get_witness :
  exists t, let c := mkCursor (built (js "{'a':1,'b':2,'\u0061':3,'b':4}") 9 true) 0 in
  exists p, BuildObjectProbe (Some c) = Ok (p, match t with TObj _ _ => true | _ => false end) /\
    op_Get p (bs "b") = n_Get (Some c) (bs "b") /\
    RequiredProbeSlots (Some c) = Ok (Z.of_nat (length (op_table p) + length (op_escaped p))).
Proof.
  destruct (root_stands (fun _ _ => None) (fun _ => false) (js "{'a':1,'b':2,'\u0061':3,'b':4}") 9 (mkIndexOptions 0 true)
    (built (js "{'a':1,'b':2,'\u0061':3,'b':4}") 9 true))
    as (t & _ & _ & _ & H); [concrete_bytes|vm_compute; done|done|by right|vm_compute; reflexivity|].
  exists t. apply (probe_is_Get true); [done|concrete_bytes].
Defined.
