(* ===== verification/Contains.v ===== *)
(** [contains.go]: containment of one document in another, on their tapes.
    Object members count by their last occurrence, arrays ignore order and
    repetition, scalars compare by value. *)

From S2P Require Import Prelude Words Utf8 Scanner Lex Grammar StringRef Errors Numbers Reader Validator FastValid Layout Compact Decode KeyHash Pointer Raw NumberEqual Tape TapeMachine TapeWalk TapeHash TapeParse Node NodeIter.
Open Scope Z_scope.

(** ** Scalars *)

(** [v.Entry.Flags()] of a node that has an entry. *)
Definition n_Flags (v : Node) : res unit Z :=
  match v with None => Panic | Some c => let* e := the_entry c in Ok (entry_Flags e) end.

Definition stringNodesEqual (a b : Node) : res unit bool :=
  let* ac := n_StringBytes a in
  let* bc := n_StringBytes b in
  match ac, bc with
  | Some ac, Some bc => Ok (bool_decide (ac = bc))
  | Some ac, None => let* raw := n_Raw b in let* flags := n_Flags b in tapeKeyEqual raw flags ac
  | None, Some bc => let* raw := n_Raw a in let* flags := n_Flags a in tapeKeyEqual raw flags bc
  | None, None =>
      let* ra := n_Raw a in let* fa := n_Flags a in
      let* rb := n_Raw b in let* fb := n_Flags b in RawJSONStringEqual ra fa rb fb
  end.

Definition scalarNodesEqual (a b : Node) : res unit bool :=
  let* kind := n_Kind a in
  let* bkind := n_Kind b in
  if negb (kind =? bkind) then Ok false
  else if kind =? kind_code Null then Ok true
  else if kind =? kind_code Bool then
    let* av := n_Bool a in
    let* bv := n_Bool b in Ok (Bool.eqb (or_zero false av) (or_zero false bv))
  else if kind =? kind_code Number then
    let* av := n_NumberBytes a in
    let* bv := n_NumberBytes b in JSONNumberEqual (or_zero [] av) (or_zero [] bv)
  else if kind =? kind_code String then stringNodesEqual a b
  else Ok false.

(** ** The loops over iterators *)

(** Stops at the first element that passes. *)
Fixpoint any_element (test : Node -> res unit bool) (fuel : nat) (it : ArrayIter) : res unit bool :=
  match fuel with
  | O => NoFuel
  | S fuel =>
      let* r := ai_Next it in
      match r with
      | None => Ok false
      | Some (element, it) => let* b := test element in if (b : bool) then Ok true else any_element test fuel it
      end
  end.

(** Stops at the first element that fails. *)
Fixpoint all_elements (test : Node -> res unit bool) (fuel : nat) (it : ArrayIter) : res unit bool :=
  match fuel with
  | O => NoFuel
  | S fuel =>
      let* r := ai_Next it in
      match r with
      | None => Ok true
      | Some (element, it) => let* b := test element in if (b : bool) then all_elements test fuel it else Ok false
      end
  end.

Fixpoint all_members (test : Node -> Node -> res unit bool) (fuel : nat) (it : ObjectIter) : res unit bool :=
  match fuel with
  | O => NoFuel
  | S fuel =>
      let* r := oi_Next it in
      match r with
      | None => Ok true
      | Some (key, value, it) => let* b := test key value in if (b : bool) then all_members test fuel it else Ok false
      end
  end.

Fixpoint escaped_key_loop (fuel : nat) (it : ObjectIter) (key found : Node) : res unit Node :=
  match fuel with
  | O => NoFuel
  | S fuel =>
      let* r := oi_Next it in
      match r with
      | None => Ok found
      | Some (candidate, value, it) =>
          let* b := stringNodesEqual candidate key in
          escaped_key_loop fuel it key (if (b : bool) then value else found)
      end
  end.

Definition array_turns (it : ArrayIter) : nat := S (Z.to_nat (ai_remaining it)).
Definition object_turns (it : ObjectIter) : nat := S (Z.to_nat (oi_remaining it)).

Definition objectGetEscapedKey (object key : Node) : res unit Node :=
  let* (it, _) := n_ObjectIter object in escaped_key_loop (object_turns it) it key None.

(** ** Containment *)

Section Below.
Context (nodeContains : Node -> Node -> res unit bool).

(** The member of [object] that decides the key of a needle member. *)
Definition effective_value (object key : Node) (content : option bytes) : res unit Node :=
  match content with
  | Some content => n_Get object content
  | None => objectGetEscapedKey object key
  end.

(** One needle member; entries of one tape are equal when their places are. *)
Definition member_contained (h n key value : Node) : res unit bool :=
  let* content := n_StringBytes key in
  let* hv := effective_value h key content in
  match hv with
  | None => Ok false
  | Some _ =>
    let* b := nodeContains hv value in
    if (b : bool) then Ok true
    else
    let* effective := effective_value n key content in
    Ok (negb (bool_decide (option_map nd_at effective = option_map nd_at value)))
  end.

Definition objectContains (h n : Node) : res unit bool :=
  let* (it, _) := n_ObjectIter n in all_members (member_contained h n) (object_turns it) it.

Definition arrayContains (h n : Node) : res unit bool :=
  let* (nit, _) := n_ArrayIter n in
  all_elements (fun element =>
  let* kind := n_Kind element in
  let* (hit, _) := n_ArrayIter h in
  any_element (fun candidate =>
  let* k := n_Kind candidate in if k =? kind then nodeContains candidate element else Ok false) (array_turns hit) hit)
  (array_turns nit) nit.
End Below.

Fixpoint nodeContains (fuel : nat) (h n : Node) : res unit bool :=
  match fuel with
  | O => NoFuel
  | S fuel =>
      let* kind := n_Kind n in
      let* hkind := n_Kind h in
      if kind =? kind_code Object then
        if negb (hkind =? kind_code Object) then Ok false else objectContains (nodeContains fuel) h n
      else if kind =? kind_code Array then
        if negb (hkind =? kind_code Array) then Ok false else arrayContains (nodeContains fuel) h n
      else if kind =? kind_code Invalid then Ok false
      else scalarNodesEqual h n
  end.

(** The recursion goes down the needle: its entries bound it. *)
Definition contains_fuel (n : Node) : nat := match n with None => 1 | Some c => S (length (tape_of c)) end.

Definition n_Contains (v needle : Node) : res unit bool :=
  let* vkind := n_Kind v in
  let* kind := n_Kind needle in
  if (vkind =? kind_code Array) &&
     ((kind =? kind_code Null) || (kind =? kind_code Bool) || (kind =? kind_code Number) || (kind =? kind_code String)) then
    let* (it, _) := n_ArrayIter v in
    any_element (fun element => scalarNodesEqual element needle) (array_turns it) it
  else nodeContains (contains_fuel needle) v needle.

(** ** The entry points *)

Section Index.
Context (buildIndexPositions : bytes -> nat -> option (list IndexEntry)).
Context (fallback_swar : bytes -> bool).

Definition ContainsIndex (src : bytes) : index_res Index :=
  match RequiredIndexEntries src with
  | Ok entries => BuildIndex buildIndexPositions fallback_swar src (Z.to_nat entries)
  | Err e => Err (ISyntax e)
  | Panic => Panic
  | NoFuel => NoFuel
  end.

Definition RawContains (haystack needle : bytes) : index_res bool :=
  let* h := ContainsIndex haystack in
  let* n := ContainsIndex needle in
  no_error (n_Contains (Root h) (Root n)).
End Index.

(** ** The specification *)

Definition numbers_equal (a b : bytes) : Prop :=
  exists ma ea mb eb, jnumber_val a ma ea /\ jnumber_val b mb eb /\ same_decimal ma ea mb eb.

Definition scalar_equal (a b : tree) : Prop :=
  match a, b with
  | TNull, TNull => True
  | TBool x, TBool y => x = y
  | TNum x, TNum y => numbers_equal x y
  | TStr _ x, TStr _ y => x = y
  | _, _ => False
  end.

(** The value a name has in an object: that of its last member. *)
Definition last_value (key : bytes) (ms : members) : option tree :=
  match last_index key ms with Some k => option_map snd (ms !! k) | None => None end.

#[warnings="-register-all"] Inductive tree_contains : tree -> tree -> Prop :=
  | tc_scalar h n : scalar_equal h n -> tree_contains h n
  | tc_array hraw hs nraw ns :
    (forall n, n ∈ ns -> exists h, h ∈ hs /\ tree_contains h n) -> tree_contains (TArr hraw hs) (TArr nraw ns)
  | tc_object hraw hms nraw nms :
    (forall name n, last_value name nms = Some n -> exists h, last_value name hms = Some h /\ tree_contains h n) ->
    tree_contains (TObj hraw hms) (TObj nraw nms).

(** At the top, an array also contains a scalar that is one of its elements. *)
Definition document_contains (h n : tree) : Prop :=
  tree_contains h n \/
  match h, n with
  | TArr _ hs, (TNull | TBool _ | TNum _ | TStr _ _) => exists x, x ∈ hs /\ scalar_equal x n
  | _, _ => False
  end.

(** ** The tests decide the specification *)

Definition decides (r : res unit bool) (P : Prop) : Prop := exists b, r = Ok b /\ (b = true <-> P).

Lemma decides_iff r P Q : decides r P -> (P <-> Q) -> decides r Q.
Proof. intros (b & -> & H) E. exists b. split; [done|]. by rewrite H, E. Qed.

Lemma decides_eq {A} `{EqDecision A} (x y : A) : decides (Ok (bool_decide (x = y))) (x = y).
Proof. eexists. split; [done|]. apply bool_decide_eq_true. Qed.

Lemma decides_false P : ~ P -> decides (Ok false) P.
Proof. intros H. exists false. split; [done|]. split; [done|]. by intros. Qed.

(** A node that is a string token, value or name. *)
Definition token_at (c : cursor) (raw dec : bytes) : Prop :=
  doc_ok (nd_doc c) /\ exists e, the_entry c = Ok e /\ string_entry (source_of c) raw dec e.

Lemma stringNodesEqual_ref a b ra da rb db :
  token_at a ra da -> token_at b rb db -> stringNodesEqual (Some a) (Some b) = Ok (bool_decide (da = db)).
Proof.
  intros (Ha & ea & Ea & Sa) (Hb & eb & Eb & Sb). unfold stringNodesEqual.
  destruct (string_node a ea ra da Ha Ea Sa) as (Ra & Ba & _). destruct (string_node b eb rb db Hb Eb Sb) as (Rb & Bb & _).
  pose proof (string_flags _ _ _ _ Sa) as Fa. pose proof (string_flags _ _ _ _ Sb) as Fb.
  assert (Ja : jstring ra da) by (by destruct Sa as (? & ? & _ & _ & _ & ? & _)).
  assert (Jb : jstring rb db) by (by destruct Sb as (? & ? & _ & _ & _ & ? & _)).
  rewrite Ba, Bb, Ra, Rb. unfold n_Flags. rewrite Ea, Eb. cbn [res_bind]. destruct (has_bs ra), (has_bs rb).
  - by apply RawJSONStringEqual_ref.
  - by rewrite (tapeKeyEqual_ref _ _ _ _ Ja Fa).
  - rewrite (tapeKeyEqual_ref _ _ _ _ Jb Fb). f_equal. by apply bool_decide_ext.
  - done.
Qed.

Lemma numbers_decided a b :
  jnumber a -> jnumber b -> Z.of_nat (length a) < 2 ^ 62 -> Z.of_nat (length b) < 2 ^ 62 ->
  decides (JSONNumberEqual a b) (numbers_equal a b).
Proof.
  intros (ma & ea & Ha)%jnumber_val_exists (mb & eb & Hb)%jnumber_val_exists La Lb.
  destruct (JSONNumberEqual_spec a b _ _ _ _ Ha Hb La Lb) as (r & Hr & Hiff). exists r. split; [done|]. rewrite Hiff. split.
  - intros H. by exists ma, ea, mb, eb.
  - intros (ma' & ea' & mb' & eb' & Ha' & Hb' & H). destruct (JSONNumberEqual_spec a b _ _ _ _ Ha' Hb' La Lb) as (r' & Hr' & Hiff').
    rewrite Hr in Hr'. injection Hr' as <-. by apply Hiff, Hiff'.
Qed.

(** A scalar's entry gives the token it spells. *)
Lemma stands_string h c raw dec : stands h c (TStr raw dec) -> token_at c raw dec.
Proof. intros Hc. destruct (stands_entry _ _ _ Hc) as (e & He & Hn). split; [apply Hc|]. exists e. split; [done|apply (ne_string _ _ _ _ Hn)]. Qed.

Lemma stands_number h c raw : stands h c (TNum raw) -> jnumber raw /\ Z.of_nat (length raw) < 2 ^ 62.
Proof.
  intros ([_ Hb] & i & j & es & Ht & _). apply tape_value_span in Ht as Hs. apply span_len in Hs as Hl. apply span_le in Hs as Hle.
  change InfoMaxCount with 67108863 in Hb. cbn [raw_of] in *. split; [|lia].
  inversion Ht as [? ? ? _ Hv| |]; subst. by inversion Hv.
Qed.

Lemma scalarNodesEqual_ref h1 h2 a b ta tb :
  stands h1 a ta -> stands h2 b tb -> decides (scalarNodesEqual (Some a) (Some b)) (scalar_equal ta tb).
Proof.
  intros Ha Hb. unfold scalarNodesEqual. rewrite (node_kind h1 a ta Ha), (node_kind h2 b tb Hb). cbn [res_bind].
  destruct (Z.eqb_spec (kind_code (kind_of ta)) (kind_code (kind_of tb))) as [E|E]; cbn [negb].
  2:{ apply decides_false. intros H. apply E. by destruct ta, tb. }
  apply kind_code_inj in E. destruct ta as [|x|x|r x|r x|r x], tb as [|y|y|r' y|r' y|r' y]; try done; cbn [kind_of kind_code Z.eqb Pos.eqb].
  - by exists true.
  - rewrite (node_bool h1 a _ Ha), (node_bool h2 b _ Hb). eexists. split; [done|]. cbn. destruct x, y; done.
  - rewrite (node_number h1 a _ Ha), (node_number h2 b _ Hb). cbn [res_bind tree_number or_zero].
    apply stands_number in Ha as [??], Hb as [??]. by apply numbers_decided.
  - rewrite (stringNodesEqual_ref a b r x r' y) by by eapply stands_string. apply decides_eq.
  - apply decides_false. by intros [].
  - apply decides_false. by intros [].
Qed.

(** ** The loops decide quantifiers *)

Lemma array_turns_ref c ts : array_turns (array_state c ts 0) = S (length ts).
Proof. unfold array_turns, array_state. cbn [ai_remaining]. by rewrite Nat2Z.id, Nat.sub_0_r. Qed.
Lemma object_turns_ref c ms : object_turns (object_state c ms 0) = S (length ms).
Proof. unfold object_turns, object_state. cbn [oi_remaining]. by rewrite Nat2Z.id, Nat.sub_0_r. Qed.

Section Loops.
Context (h : bool) (c : cursor) (raw : bytes).

Section Elements.
Context (ts : list tree) (test : Node -> res unit bool) (P : tree -> Prop).
Hypothesis Hc : stands h c (TArr raw ts).
Hypothesis Htest : forall k t, ts !! k = Some t -> decides (test (Some (elem_cursor c ts k))) (P t).

Lemma any_element_ref n k :
  (k + n = length ts)%nat -> decides (any_element test (S n) (array_state c ts k)) (exists t, t ∈ drop k ts /\ P t).
Proof using Hc Htest.
  revert k. induction n as [|n IH]; intros k Hk; cbn [any_element]; unfold ai_Next at 1.
  - replace k with (length ts) by lia. rewrite ai_step_end. cbn [res_bind]. apply decides_false. rewrite drop_all.
    by intros (t & []%not_elem_of_nil & _).
  - destruct (lookup_lt_is_Some_2 ts k) as [t Ht]; [lia|]. rewrite (ai_step_ref h c raw ts Hc k t Ht). cbn [res_bind].
    destruct (Htest k t Ht) as (b & -> & Hb). cbn [res_bind]. rewrite (lookup_Some_drop _ _ _ Ht). destruct b.
    + exists true. split; [done|]. split; [intros _|done]. exists t. split; [by left|by apply Hb].
    + destruct (IH (S k) ltac:(lia)) as (b & Hr & Hiff). exists b. split; [exact Hr|]. rewrite Hiff.
      split; [intros (x & Hx & HP); exists x; split; [by right|done]|].
      intros (x & Hx & HP). apply elem_of_cons in Hx as [->|Hx]; [by apply Hb in HP|by exists x].
Qed.

Lemma all_elements_ref n k :
  (k + n = length ts)%nat -> decides (all_elements test (S n) (array_state c ts k)) (forall t, t ∈ drop k ts -> P t).
Proof using Hc Htest.
  revert k. induction n as [|n IH]; intros k Hk; cbn [all_elements]; unfold ai_Next at 1.
  - replace k with (length ts) by lia. rewrite ai_step_end. cbn [res_bind]. exists true. split; [done|]. split; [|done].
    intros _ t. rewrite drop_all. by intros []%not_elem_of_nil.
  - destruct (lookup_lt_is_Some_2 ts k) as [t Ht]; [lia|]. rewrite (ai_step_ref h c raw ts Hc k t Ht). cbn [res_bind].
    destruct (Htest k t Ht) as (b & -> & Hb). cbn [res_bind]. rewrite (lookup_Some_drop _ _ _ Ht). destruct b.
    + destruct (IH (S k) ltac:(lia)) as (b & Hr & Hiff). exists b. split; [exact Hr|]. rewrite Hiff.
      split; [intros H x Hx|intros H x Hx; apply H; by right]. apply elem_of_cons in Hx as [->|Hx]; [by apply Hb|by apply H].
    + exists false. split; [done|]. split; [done|]. intros H. apply Hb. apply H. by left.
Qed.
End Elements.

Section Members.
Context (ms : members).
Hypothesis Hc : stands h c (TObj raw ms).

Lemma oi_Next_ref k m :
  ms !! k = Some m -> oi_Next (object_state c ms k) = Ok (Some (Some (key_cursor c ms k), Some (value_cursor c ms k), object_state c ms (S k))).
Proof using Hc. intros Hm. unfold oi_Next. by rewrite (oi_step_ref h c raw ms Hc k m Hm). Qed.

Lemma oi_Next_end : oi_Next (object_state c ms (length ms)) = Ok None.
Proof using. unfold oi_Next. by rewrite oi_step_end. Qed.

Lemma all_members_ref test (P : nat -> (bytes * bytes) * tree -> Prop) n j :
  (forall k m, ms !! k = Some m -> decides (test (Some (key_cursor c ms k)) (Some (value_cursor c ms k))) (P k m)) ->
  (j + n = length ms)%nat ->
  decides (all_members test (S n) (object_state c ms j)) (forall k m, (j <= k)%nat -> ms !! k = Some m -> P k m).
Proof using Hc.
  intros Htest. revert j. induction n as [|n IH]; intros j Hj; cbn [all_members].
  - replace j with (length ms) by lia. rewrite oi_Next_end. cbn [res_bind]. exists true. split; [done|]. split; [|done].
    intros _ k m Hk Hm. apply lookup_lt_Some in Hm. lia.
  - destruct (lookup_lt_is_Some_2 ms j) as [m Hm]; [lia|]. rewrite (oi_Next_ref j m Hm). cbn [res_bind].
    destruct (Htest j m Hm) as (b & -> & Hb). cbn [res_bind]. destruct b.
    + destruct (IH (S j) ltac:(lia)) as (b & Hr & Hiff). exists b. split; [exact Hr|]. rewrite Hiff.
      split; [intros H k x Hk Hx|intros H k x Hk Hx; apply H; [lia|done]].
      destruct (decide (k = j)) as [->|]; [rewrite Hm in Hx; injection Hx as <-; by apply Hb|apply H; [lia|done]].
    + exists false. split; [done|]. split; [done|]. intros H. apply Hb. by apply H.
Qed.

(** A name's token, and the search for an escaped one. *)
Lemma key_token k kraw name t : ms !! k = Some ((kraw, name), t) -> token_at (key_cursor c ms k) kraw name.
Proof using Hc.
  intros Hm. destruct (stands_member h c raw ms k kraw name t Hc Hm) as [(e & He & Hn) _]. split; [apply Hc|].
  exists e. split; [done|apply (nm_string _ _ _ _ _ Hn)].
Qed.

Lemma escaped_key_loop_ref kc kraw name n j found :
  token_at kc kraw name -> (j + n = length ms)%nat ->
  escaped_key_loop (S n) (object_state c ms j) (Some kc) found =
  Ok (match last_index name (drop j ms) with Some k => Some (value_cursor c ms (j + k)) | None => found end).
Proof using Hc.
  intros Hkc. revert j found. induction n as [|n IH]; intros j found Hj.
  - cbn [escaped_key_loop]. replace j with (length ms) by lia. rewrite oi_Next_end. cbn [res_bind]. by rewrite drop_all.
  - destruct (lookup_lt_is_Some_2 ms j) as [[[kraw' name'] t] Hm]; [lia|].
    change (escaped_key_loop (S (S n)) (object_state c ms j) (Some kc) found) with
      (let* r := oi_Next (object_state c ms j) in
      match r with
      | None => Ok found
      | Some (candidate, value, it) =>
      let* b := stringNodesEqual candidate (Some kc) in
      escaped_key_loop (S n) it (Some kc) (if (b : bool) then value else found)
      end).
    rewrite (oi_Next_ref j _ Hm). cbn [res_bind]. rewrite (stringNodesEqual_ref _ _ _ _ _ _ (key_token j _ _ _ Hm) Hkc). cbn [res_bind].
    rewrite IH by lia. rewrite (lookup_Some_drop _ _ _ Hm). cbn [last_index fst snd].
    destruct (last_index name (drop (S j) ms)) as [k|]; [by replace (S j + k)%nat with (j + S k)%nat by lia|].
    by case_bool_decide; [rewrite Nat.add_0_r|].
Qed.

Lemma effective_value_ref kc kraw name :
  token_at kc kraw name -> bytes_ok name \/ has_bs kraw = true ->
  effective_value (Some c) (Some kc) (if has_bs kraw then None else Some name) = Ok (found_at c ms (last_index name ms)).
Proof using Hc.
  intros Hkc Hok. unfold effective_value. destruct (has_bs kraw).
  - unfold objectGetEscapedKey. rewrite (object_iter_ref h c raw ms Hc). cbn [res_bind]. rewrite object_turns_ref.
    rewrite (escaped_key_loop_ref kc kraw name (length ms) 0 None Hkc) by done. rewrite drop_0. by destruct (last_index name ms).
  - destruct Hok as [Hok|]; [|done]. apply (get_ref h c _ name Hc Hok).
Qed.
End Members.
End Loops.

(** ** Containment *)

Lemma contains_kind h n : tree_contains h n -> kind_of h = kind_of n.
Proof. destruct 1 as [h n H| |]; [by destruct h, n|done|done]. Qed.

Lemma contains_scalar h n :
  match n with TArr _ _ | TObj _ _ => False | _ => True end -> tree_contains h n <-> scalar_equal h n.
Proof. intros Hn. split; [|apply tc_scalar]. by destruct 1. Qed.

Lemma contains_array hraw hs nraw ns :
  tree_contains (TArr hraw hs) (TArr nraw ns) <-> forall n, n ∈ ns -> exists h, h ∈ hs /\ tree_contains h n.
Proof. split; [|apply tc_array]. by inversion 1. Qed.

(** The members of the needle that count, one by one. *)
Lemma contains_object hraw hms nraw nms :
  tree_contains (TObj hraw hms) (TObj nraw nms) <->
  forall k m, nms !! k = Some m -> exists hv, last_value m.1.2 hms = Some hv /\ (tree_contains hv m.2 \/ last_index m.1.2 nms <> Some k).
Proof.
  split.
  - intros H k m Hm. inversion H as [? ? Hs| |? ? ? ? Hall]; subst; [done|].
    destruct (last_index m.1.2 nms) as [k'|] eqn:E; [|by destruct (last_index_none _ _ _ _ E Hm)].
    apply last_index_spec in E as Hk'. destruct Hk' as (raw' & n & Hn & _).
    destruct (Hall m.1.2 n) as (hv & Hv & Hc); [unfold last_value; rewrite E, Hn; done|]. exists hv. split; [done|].
    destruct (decide (k' = k)) as [->|]; [left|right; congruence]. rewrite Hm in Hn. injection Hn as ->. exact Hc.
  - intros H. apply tc_object. intros name n Hn. unfold last_value in Hn. destruct (last_index name nms) as [k|] eqn:E; [|done].
    apply last_index_spec in E as Hk. destruct Hk as (raw' & n' & Hm & _). rewrite Hm in Hn. injection Hn as ->.
    destruct (H k _ Hm) as (hv & Hv & [Hc|Hne]); [by exists hv|done].
Qed.

Lemma inner_bytes c raw dec : token_at c raw dec -> has_bs raw = false -> bytes_ok dec.
Proof.
  intros ([Hok _] & e & _ & (i & j & _ & _ & Hs & Hj & _)) Hb. rewrite <- (inner_clean _ _ Hj Hb).
  destruct (inner_slice _ i j raw dec Hs Hj) as [_ ->]. by apply slice_bytes.
Qed.

Section Member.
Context (h1 h2 : bool) (hc nc : cursor) (hraw nraw : bytes) (hms nms : members) (contains : Node -> Node -> res unit bool).
Hypothesis Hh : stands h1 hc (TObj hraw hms).
Hypothesis Hn : stands h2 nc (TObj nraw nms).

Lemma member_contained_ref k m :
  nms !! k = Some m ->
  (forall hv c, stands h1 c hv -> decides (contains (Some c) (Some (value_cursor nc nms k))) (tree_contains hv m.2)) ->
  decides (member_contained contains (Some hc) (Some nc) (Some (key_cursor nc nms k)) (Some (value_cursor nc nms k)))
  (exists hv, last_value m.1.2 hms = Some hv /\ (tree_contains hv m.2 \/ last_index m.1.2 nms <> Some k)).
Proof using Hh Hn.
  intros Hm IH. destruct m as [[kraw name] t]. cbn [fst snd] in *. pose proof (key_token h2 nc nraw nms Hn k kraw name t Hm) as Htok.
  assert (Hok : bytes_ok name \/ has_bs kraw = true).
  { destruct (has_bs kraw) eqn:E; [by right|left]. by eapply inner_bytes. }
  unfold member_contained. destruct Htok as (Hd & e & He & Hse). destruct (string_node _ e kraw name Hd He Hse) as (_ & Hsb & _).
  assert (Htok : token_at (key_cursor nc nms k) kraw name) by (split; [done|by exists e]).
  rewrite Hsb. cbn [res_bind]. rewrite (effective_value_ref h1 hc hraw hms Hh _ _ _ Htok Hok). cbn [res_bind]. unfold found_at, last_value.
  destruct (last_index name hms) as [kh|] eqn:Eh; cbn [option_map].
  2:{ apply decides_false. by intros (hv & ? & _). }
  apply last_index_spec in Eh as (raw' & hv & Hhv & _). rewrite Hhv. cbn [option_map snd].
  destruct (stands_member h1 hc hraw hms kh raw' name hv Hh Hhv) as [_ Hv]. destruct (IH hv _ Hv) as (b & -> & Hb). cbn [res_bind].
  destruct b.
  { exists true. split; [done|]. split; [intros _|done]. exists hv. split; [done|]. left. by apply Hb. }
  rewrite (effective_value_ref h2 nc nraw nms Hn _ _ _ Htok Hok). cbn [res_bind]. eexists. split; [done|].
  rewrite negb_true_iff, bool_decide_eq_false. split.
  - intros Hne. exists hv. split; [done|]. right. intros E. apply Hne. by rewrite E.
  - intros (hv' & [= <-] & [Hc|Hc]) E; [by apply Hb in Hc|]. apply Hc. destruct (last_index name nms) as [k'|] eqn:E'; [|done].
    cbn [option_map] in E. injection E as E. f_equal. apply last_index_lt in E'. apply lookup_lt_Some in Hm.
    apply (members_take_inj nms); [done|done|]. cbn [value_cursor nd_at] in E. lia.
Qed.
End Member.

Lemma nodeContains_ref h1 h2 fuel hc nc th tn :
  stands h1 hc th -> stands h2 nc tn -> (tape_size tn <= fuel)%nat ->
  decides (nodeContains fuel (Some hc) (Some nc)) (tree_contains th tn).
Proof.
  revert hc nc th tn. induction fuel as [|fuel IH]; intros hc nc th tn Hh Hn Hf; [pose proof (tape_size_pos tn); lia|].
  cbn [nodeContains]. rewrite (node_kind h2 nc tn Hn), (node_kind h1 hc th Hh). cbn [res_bind].
  destruct tn as [|b|raw|raw dec|nraw ns|nraw nms]; cbn [kind_of kind_code Z.eqb Pos.eqb].
  1-4: eapply decides_iff; [by eapply (scalarNodesEqual_ref h1 h2)|by rewrite contains_scalar].
  - destruct (Z.eqb_spec (kind_code (kind_of th)) 5) as [E|E]; cbn [negb].
    2:{ apply decides_false. intros H%contains_kind. apply E. by rewrite H. }
    destruct th as [| | | |hraw hs|]; try done. unfold arrayContains. rewrite (array_iter_ref h2 nc nraw ns Hn). cbn [res_bind].
    rewrite array_turns_ref. eapply decides_iff.
    + apply (all_elements_ref h2 nc nraw ns _ (fun n => exists x, x ∈ hs /\ tree_contains x n) Hn); [|done].
      intros k t Ht. pose proof (stands_elem h2 nc nraw ns k t Hn Ht) as Hs. rewrite (node_kind h2 _ t Hs). cbn [res_bind].
      rewrite (array_iter_ref h1 hc hraw hs Hh). cbn [res_bind]. rewrite array_turns_ref. rewrite <- (drop_0 hs) at 2.
      apply (any_element_ref h1 hc hraw hs _ (fun x => tree_contains x t) Hh); [|done]. intros i x Hx.
      pose proof (stands_elem h1 hc hraw hs i x Hh Hx) as Hs'. rewrite (node_kind h1 _ x Hs'). cbn [res_bind].
      destruct (Z.eqb_spec (kind_code (kind_of x)) (kind_code (kind_of t))) as [Ek|Ek].
      * apply IH; [done|done|]. pose proof (size_in_sum tape_size ns k t Ht). cbn [tape_size] in Hf. lia.
      * apply decides_false. intros H%contains_kind. apply Ek. by rewrite H.
    + rewrite drop_0. by rewrite contains_array.
  - destruct (Z.eqb_spec (kind_code (kind_of th)) 6) as [E|E]; cbn [negb].
    2:{ apply decides_false. intros H%contains_kind. apply E. by rewrite H. }
    destruct th as [| | | | |hraw hms]; try done. unfold objectContains. rewrite (object_iter_ref h2 nc nraw nms Hn). cbn [res_bind].
    rewrite object_turns_ref. eapply decides_iff.
    + apply (all_members_ref h2 nc nraw nms Hn _ (fun k m => exists hv, last_value m.1.2 hms = Some hv /\
        (tree_contains hv m.2 \/ last_index m.1.2 nms <> Some k))); [|done].
      intros k m Hm. apply (member_contained_ref h1 h2 hc nc hraw nraw hms nms _ Hh Hn k m Hm). intros hv c Hv. apply IH; [done| |].
      * destruct m as [[kraw name] t]. by apply (stands_member h2 nc nraw nms k kraw name t Hn Hm).
      * pose proof (size_in_sum (fun m : (bytes * bytes) * tree => S (tape_size m.2)) nms k m Hm) as Hs. cbn [tape_size] in Hf. cbn in Hs. lia.
    + rewrite contains_object. split; [intros H k m Hm; apply H; [lia|done]|intros H k m _ Hm; by apply H].
Qed.

Lemma n_Contains_ref h1 h2 hc nc th tn :
  stands h1 hc th -> stands h2 nc tn -> decides (n_Contains (Some hc) (Some nc)) (document_contains th tn).
Proof.
  intros Hh Hn. unfold n_Contains. rewrite (node_kind h1 hc th Hh), (node_kind h2 nc tn Hn). cbn [res_bind].
  assert (Hfuel : (tape_size tn <= contains_fuel (Some nc))%nat).
  { destruct Hn as (_ & i & j & es & Ht & Hs). apply tape_value_extent in Ht as [Hl _]. apply span_le in Hs. cbn [contains_fuel]. lia. }
  pose proof (nodeContains_ref h1 h2 _ hc nc th tn Hh Hn Hfuel) as Hnode.
  destruct ((kind_code (kind_of th) =? kind_code Array) && _) eqn:E.
  - apply andb_true_iff in E as [Ea Es]. destruct th as [| | | |hraw hs|]; try done.
    rewrite (array_iter_ref h1 hc hraw hs Hh). cbn [res_bind]. rewrite array_turns_ref. eapply decides_iff.
    + apply (any_element_ref h1 hc hraw hs _ (fun x => scalar_equal x tn) Hh); [|done]. intros k x Hx.
      apply (scalarNodesEqual_ref h1 h2); [by eapply stands_elem|done].
    + rewrite drop_0. unfold document_contains. destruct tn; try done; (split; [by right|intros [H|H]; [by apply contains_kind in H|done]]).
  - eapply decides_iff; [exact Hnode|]. unfold document_contains. split; [by left|]. intros [H|H]; [done|].
    by destruct th, tn.
Qed.

(** ** Indexing the operands *)

Section Operands.
Context (engine : bytes -> nat -> option (list IndexEntry)) (mode : bytes -> bool).

(** What the entry points ask of an operand: bytes, a size within the index's
counters, and a document the position engine does not take. *)
Definition operand_ok (src : bytes) : Prop :=
  bytes_ok src /\ Z.of_nat (length src) <= InfoMaxCount /\ (eligible src DefaultMaxDepth = false \/ forall cap, engine src cap = None).

Lemma ContainsIndex_ref src :
  operand_ok src ->
  match ref_doc src DefaultMaxDepth unexpected_byte with
  | Ok t => exists ix, ContainsIndex engine mode src = Ok ix /\ exists c, Root ix = Some c /\ stands false c t
  | Err (o, m) => ContainsIndex engine mode src = Err (ISyntax (syntax_at src o m))
  | _ => False
  end.
Proof using.
  intros (Hok & Hbig & He). unfold ContainsIndex. rewrite RequiredIndexEntries_ref by done.
  pose proof (ref_doc_place src DefaultMaxDepth unexpected_byte plain_unexpected) as Hs.
  destruct (ref_doc src DefaultMaxDepth unexpected_byte) as [t|[o m]| |] eqn:Et; cbn [as_syntax]; [|done| |].
  2-3: by pose proof (ref_doc_sound src DefaultMaxDepth unexpected_byte Hok) as H; rewrite Et in H.
  destruct (ref_doc src DefaultMaxDepth plain_unexpected) as [t'|[o m]| |] eqn:Et'; [|done..]. cbn in Hs. subst t'.
  rewrite <- tape_size_counts, Nat2Z.id. unfold BuildIndex. set (opts := mkIndexOptions 0 false).
  assert (Hsize : Z.of_nat (tape_size t) < 2 ^ 32).
  { apply ref_doc_jdoc in Et; [|done].
  pose proof (buildIndexOptions_ref (fun _ _ => None) (fun _ => false) src 0 opts Hok Hbig ltac:(done) (or_intror eq_refl)) as H. cbv zeta in H.
  change (maxDepthOrDefault (io_MaxDepth opts)) with DefaultMaxDepth in H. rewrite Et' in H. destruct H as (es & (j & Ht & _) & _).
  apply tape_value_extent in Ht. change InfoMaxCount with 67108863 in Hbig. lia. }
  pose proof (buildIndexOptions_ref engine mode src (tape_size t) opts Hok Hbig Hsize) as H. cbv zeta in H.
  change (maxDepthOrDefault (io_MaxDepth opts)) with DefaultMaxDepth in H. rewrite Et' in H.
  assert (He' : eligible src DefaultMaxDepth = false \/ engine src (tape_size t) = None) by (destruct He; [by left|by right]).
  destruct (H He') as (es & Htape & Hb). rewrite (index_tape_size _ _ _ _ Htape), Nat.ltb_irrefl in Hb.
  exists (mkIndex src es). split; [exact Hb|].
  destruct (root_stands engine mode src (tape_size t) opts (mkIndex src es) Hok Hbig Hsize He' Hb) as (t' & Ht' & _ & Hroot & Hst).
  change (maxDepthOrDefault (io_MaxDepth opts)) with DefaultMaxDepth in Ht'. rewrite Et' in Ht'. injection Ht' as <-. by eexists.
Qed.
End Operands.

(** ** Properties *)

(** C23: containment of one node in another ends and decides JSONB-like containment of their trees: every member that counts in the needle's objects has its name in the haystack's, with a value that contains it, every element of the needle's arrays is contained in some element of the haystack's, scalars are equal by value, numbers of any spelling as decimals and strings by decoded content; at the top an array also contains a scalar among its elements. *)
Theorem Contains_decides h1 h2 hc nc th tn :
  stands h1 hc th -> stands h2 nc tn ->
  exists b, n_Contains (Some hc) (Some nc) = Ok b /\ (b = true <-> document_contains th tn).
Proof. apply n_Contains_ref. Qed.

Lemma Contains_decides_witness :
  exists th tn, let hc := mkCursor (built (js "[{'a':1,'b':[2,3],'a':10},'x']") 20 true) 0 in
  let nc := mkCursor (built (js "[{'\u0061':1e1,'b':[3]}]") 20 false) 0 in
  (exists b, n_Contains (Some hc) (Some nc) = Ok b /\ (b = true <-> document_contains th tn)) /\
  n_Contains (Some hc) (Some nc) = Ok true.
Proof.
  destruct (root_stands (fun _ _ => None) (fun _ => false) (js "[{'a':1,'b':[2,3],'a':10},'x']") 20 (mkIndexOptions 0 true)
    (built (js "[{'a':1,'b':[2,3],'a':10},'x']") 20 true))
    as (th & _ & _ & _ & H); [concrete_bytes|vm_compute; done|done|by right|vm_compute; reflexivity|].
  destruct (root_stands (fun _ _ => None) (fun _ => false) (js "[{'\u0061':1e1,'b':[3]}]") 20 (mkIndexOptions 0 false)
    (built (js "[{'\u0061':1e1,'b':[3]}]") 20 false))
    as (tn & _ & _ & _ & H'); [concrete_bytes|vm_compute; done|done|by right|vm_compute; reflexivity|].
  exists th, tn. split; [by apply (Contains_decides true false)|vm_compute; reflexivity].
Defined.

(** C15: the raw entry point indexes each operand in a storage of exactly the required size, so it never runs out of room: two documents give the answer of their trees, and the first operand that is not a document gives its syntax error. *)
Theorem RawContains_decides engine mode haystack needle :
  operand_ok engine haystack -> operand_ok engine needle ->
  match ref_doc haystack DefaultMaxDepth unexpected_byte, ref_doc needle DefaultMaxDepth unexpected_byte with
  | Ok th, Ok tn => exists b, RawContains engine mode haystack needle = Ok b /\ (b = true <-> document_contains th tn)
  | Err (o, m), _ => RawContains engine mode haystack needle = Err (ISyntax (syntax_at haystack o m))
  | Ok _, Err (o, m) => RawContains engine mode haystack needle = Err (ISyntax (syntax_at needle o m))
  | _, _ => False
  end.
Proof.
  intros Hh Hn. apply (ContainsIndex_ref engine mode) in Hh, Hn. unfold RawContains.
  destruct (ref_doc haystack DefaultMaxDepth unexpected_byte) as [th|[o m]| |]; [|by rewrite Hh|done..].
  destruct Hh as (ix & -> & c & Hr & Hs). cbn [res_bind].
  destruct (ref_doc needle DefaultMaxDepth unexpected_byte) as [tn|[o m]| |]; [|by rewrite Hn|done..].
  destruct Hn as (ix' & -> & c' & Hr' & Hs'). cbn [res_bind]. rewrite Hr, Hr'.
  destruct (n_Contains_ref false false c c' th tn Hs Hs') as (b & -> & Hb). by exists b.
Qed.

Lemma RawContains_decides_witness :
  let haystack := js "{'k':[1,{'x':2.50}]}" in let needle := js "{'k':[{'x':25e-1}]}" in
  match ref_doc haystack DefaultMaxDepth unexpected_byte, ref_doc needle DefaultMaxDepth unexpected_byte with
  | Ok th, Ok tn => exists b, RawContains (fun _ _ => None) (fun _ => false) haystack needle = Ok b /\ (b = true <-> document_contains th tn)
  | Err (o, m), _ => RawContains (fun _ _ => None) (fun _ => false) haystack needle = Err (ISyntax (syntax_at haystack o m))
  | Ok _, Err (o, m) => RawContains (fun _ _ => None) (fun _ => false) haystack needle = Err (ISyntax (syntax_at needle o m))
  | _, _ => False
  end.
Proof.
  apply RawContains_decides; (split; [concrete_bytes|split; [vm_compute; done|by right]]).
Defined.
